(* ===== verification/_CoqProject ===== *)
-Q . S2P
Prelude.v
Cbuf.v
CborEnc.v
CborDec.v
CborFloat.v
CborMem.v
Sha256.v
Frame.v
CborFields.v
Envelope.v
Anonymize.v
Object.v
ObjectWalk.v
Link.v
Fs.v
Store.v
HashSet.v
StoreGc.v
GcMark.v
GcWalk.v
GcCorrect.v
VoiceAlloc.v
RateLimit.v
ArpSelect.v
LogRing.v
CborItems.v
Params.v
Evq.v
Ieee.v
Parts.v
PartsSpec.v
Render.v
RenderSpec.v
Device.v
DeviceSpec.v
Reply.v
State.v
StateSpec.v
Stream.v
Hello.v
Refs.v
Events.v
EventsSpec.v
TxnSpec.v
Diag.v
Session.v
SessionSpec.v
AnswerSpec.v
Freerun.v
FreerunSpec.v
Rtp.v
RtpSpec.v
Pacing.v
PacingSpec.v
Client.v
FetchSpec.v
KeyedMaps.v
IdentitySpec.v
Wire.v
HandshakeSpec.v
PushSpec.v
Ring.v
EventPlane.v
EventPlaneSpec.v
EventFlow.v
EthAudio.v
EthAudioSpec.v
Automation.v
AutomationSpec.v
Bundle.v
Recall.v
BundleSpec.v
RecallSpec.v
SaveSpec.v
