(* ===== verification/Prelude.v ===== *)
(** * HARP: a verification development of the device/host protocol

    HARP connects an audio device (a synthesizer) and a host over a framed byte
    link.  This library models the C implementation under [src/] as executable
    Rocq functions and proves what makes each part correct.  The C sources are the
    core library both sides link ([src/core]), the device ([src/device]), the host's
    library ([src/host]), and the parts of the C++ plug-in shell ([src/shell]) that do
    not depend on a plug-in format.

    ** How the parts interact

    A transport delivers bytes; the link layer turns them into messages on four
    streams (control, events, objects, log).  On the device the session answers
    control requests, takes events and objects, and shares its state with the
    engine's render thread, the audio thread and the front panel.  On the host the
    client issues one request at a time and dispatches what arrives meanwhile.  In a
    plug-in the audio thread puts events on a ring, a pump thread writes them to the
    link, and a fence in every audio frame names the events the device must have
    taken before it renders that frame.  A project saved by a plug-in carries the
    device's state; opened again, it is pushed to the device, after what it displaces
    has been given a name there, unless unit or engine are not the project's.
    Patches are content-addressed objects in a store on each side; a ref names the
    root of one, and a garbage collector removes what no ref reaches.

    ** Parts and files

    - [Prelude]: machine integers as [Z] with their wrap-around written out
      ([u8] .. [u64], [s32]), byte strings as [list Z], big- and little-endian
      values, the state-and-failure monad [SM S A := S -> option A * S] that
      carries every stateful routine, shared lemmas and automation.
    - Encoding ([core/src/cbor.c]): [Cbuf] is the growable buffer whose
      reallocation may fail; [CborEnc] the encoders; [CborDec] the decoder on the
      list of the unread bytes, on which the parsers are built; [CborMem] the same
      decoder on pointers, where a load outside of the input is an outcome, and
      the proof that it has none and agrees with [CborDec];
      [CborFloat] the shortest-float codec on the bits of the IEEE formats;
      [CborFields] the map-walking loops all parsers share; [CborItems] the
      encodings as abstract items.
    - Content: [Sha256] ([core/src/sha256.c]), [Object] ([core/src/object.c]) with
      blobs, lists, trees and snapshots, and [ObjectWalk], the walk over the
      children of an object.
    - Link: [Frame] ([frame.c], [audio.c]) has the fixed headers, [Envelope]
      ([envelope.c]) the control-plane envelope, [Link] ([link.c]) the
      reassembly of frames to messages over an abstract transport (the class
      [HarpIo], the code's [harp_io] function pointers).
    - Store ([core/src/store.c]): [Fs] is a model of the file system calls the
      code makes, with failing calls (the class [OS] is an oracle for every
      outcome) and the set of states a power loss may leave ([crash]);
      [Store] the content store and the refs; [HashSet], [StoreGc], [GcMark],
      [GcWalk], [GcCorrect] the garbage collector.
    - [Anonymize] ([core/src/anonymize.c]): the diagnostics anonymizer.
    - Device policies: [VoiceAlloc], [ArpSelect], [RateLimit], [LogRing].
    - Engine ([device/engine.c]): [Params] the parameter table and the params blob,
      [Evq] the event queue and the event fence, [Ieee] binary floating point on
      bit patterns, [Parts] and [PartsSpec] what events do to the parts (voices,
      ramps, arpeggiators), [Render] and [RenderSpec] the rendering of a block.
    - Session ([device/session.c], [device/state.c]): [Device] and [DeviceSpec]
      hold the device's record and its send queue, [Reply] what every handler
      uses, [State] and [StateSpec] snapshot, recall and the live ref, [Stream]
      audio.* and the meters, [Hello] core.*, [Refs] state.*, [Events],
      [EventsSpec] and [TxnSpec] the event messages and transactions, [Diag] the
      diagnostics, [Session] the dispatch and the loop, [SessionSpec] and
      [AnswerSpec] what holds of whole sessions.
    - Audio: [Pacing] and [PacingSpec] ([device/audio_loop.c]) the audio thread,
      [Rtp] and [RtpSpec] ([host/rtp.c], [host/rtp_udp.c], the emitter of
      [device/harp-deviced.c]), [Freerun] and [FreerunSpec] ([host/freerun.c]) the
      elastic buffer and the clock recovery.
    - Host client ([host/client.c]): [Client] is all of it; [FetchSpec],
      [PushSpec] and [IdentitySpec] are about one peer at a time, [Wire] joins
      the client to the device's session and [HandshakeSpec] is about the pair;
      [KeyedMaps] parses the keyed maps both need.
    - Plug-in shell ([shell/]): [Ring] ([ring.h]) the lock-free rings; [EventPlane]
      and [EventPlaneSpec] ([runtime_events.cpp], the class [EventManager] of
      [runtime.h]) the events, their encoding and the pump; [EventFlow] an event's
      whole way to the device and the fence; [EthAudio] and [EthAudioSpec]
      ([eth_transport.h]) the audio received over the network; [Automation] and
      [AutomationSpec] ([param_automation.h] and the small policies); [Bundle] and
      [BundleSpec] ([runtime_recall.cpp], the codec) the project a plug-in saves;
      [Recall], [RecallSpec] and [SaveSpec] (its flow, and the read-only holds of
      [runtime_session.cpp]) saving, opening and pushing a project.  [Recall] asks the
      client through the interface [Ctl], whose instance [client_ctl] is [Client].

    ** How state and errors are represented

    A C function that returns 0 or -1 and changes its context is a computation
    in [SM]: [Some v] is success, [None] failure, and the state comes out in
    both cases, because the code leaves its context as it is when it fails.
    Where the code tells several errors apart the result is a sum (the client's
    [res]).  Out-parameters are results.  Callbacks are functions on the state
    they share with their caller.  A [harp_cdec] is the bytes left and the error
    flag; a [harp_cbuf] its contents, its capacity and the [oom] flag.  A float
    is its bit pattern.  Threads: a mutex makes a critical section one step; where
    the code shares state without one (the free-running ring, the audio thread
    and its session, the event plane), the steps of the threads interleave and the
    theorems are for every interleaving.

    ** Environment

    What is not in [src/] is an argument: [Realloc] says whether an allocation
    succeeds, [OS] what each file-system call does, [HarpIo] and [MsgLink] what
    the transport delivers, [DevEnv] the clocks and the environment variables,
    [Qsort] the sorting function by its contract, [Libm] the mathematical library,
    [FpConv] the result of converting a number out of an integer's range,
    [CFloatText] the conversions between numbers and text, [Resampler] the sample
    rate converter, [RecallEnv] the run-time's environment variables, the wall clock
    as text and whether the session is connected when it is asked.  Theorems that need more say so with named hypotheses ([realloc_total],
    [flush_reliable], [no_faults], [reads_ok]), and each has a concrete instance
    in the witness.  [Faults] holds the fault-injection switches the code reads
    from its environment.

    ** Fuel

    A loop whose measure is not structural takes fuel.  Where the code's loop is
    bounded, the fuel is computed from the input (the bytes left, the records or
    objects, the depth limit of the code) and theorems show that it is enough:
    running out is excluded - or, where the code's own loop can go on for ever, is a
    result of its own: a collection that never returns is [GcHung], and the session
    that called it is stuck (no reply is sent; [AnswerSpec] states the exception).  The loops that run
    as long as messages come (the session, the audio thread, [harp_client_wait])
    take the number of turns as their fuel; the theorems about them hold for every
    number, and those that promise an answer ([AnswerSpec], [HandshakeSpec]) say
    how many turns are needed.  The loops of [Recall] have the code's own bounds: the
    polls of a conflict (its timeout over 200 ms), 1000 archive names, 60 looks at the
    connection and 3 attempts of a save, 512 objects of a bundle.

    ** What the theorems show

    - Storage: writes and ref updates are atomic under crashes as far as [fflush] can
      be relied on (the code ignores its result), what was put reads back, and the
      collector removes dead objects only and fails closed ([Store], [GcCorrect]).
    - Codecs: round trips for objects, the params blob, snapshots and the identity
      record, canonical encodings, a decoder that makes no load outside of its
      input whatever the bytes and the calls.
    - Link: any interleaving of well-formed frames is reassembled as the abstract
      per-stream machine says; the accumulators stay within their caps.
    - Engine: the invariant of the parts, sample-accurate events, the exact effect
      of each event; the one input on which rendering does not end.
    - Session: before the handshake a peer has no effect and gets refusals only; every
      request is answered once; staging is invisible; transactions are atomic; the closure check.
    - Audio: the ranges rendered advance, how the stream is cut does not matter, the
      ring is a queue under every interleaving, losses are counted exactly.
    - Client: the handshake with the device's session, closures fetched and pushed
      whole, every object within the credit granted by then.
    - Shell: an event means on the device what it meant in the plug-in and arrives in
      order; the fence accounts for every event on the way under every interleaving
      of the pushes, the counts, the pops and the writes (an all-notes-off is
      counted by the device alone);
      wide audio frames survive lost datagrams; automation settles and is replayed.
    - Projects: nothing is written to a device that is not the project's; whatever the
      device answers, its live ref is written at most once, last, never by force, and
      a head it displaces has a name; a saved bundle holds the whole closure and
      opening it brings everything back.

    ** Not modelled

    Operating-system glue (sockets, USB gadget set-up, thread creation, the panel's
    text rendering), the resampler and the mathematical library, the Windows
    branches, the command-line tools, the messages on stderr, and of the plug-in
    shell the plug-in formats themselves, the session's threads and its diagnostics.
*)
From Stdlib Require Import ZArith Lia List Ascii String.
From stdpp Require Import base tactics list numbers option.

Open Scope Z_scope.
Open Scope list_scope.

Declare Scope harp_scope.
Delimit Scope harp_scope with harp.

(** ** Machine integers

    A [w]-bit unsigned integer of the C code is a [Z] in [0 .. 2^w - 1]; the
    casts [(uint8_t)x] ... [(uint64_t)x] and the wrap-around of unsigned
    arithmetic are written [u8 x] ... [u64 x].  [size_t] has 64 bits. *)

Definition u8 (x : Z) : Z := x mod 2 ^ 8.
Definition u16 (x : Z) : Z := x mod 2 ^ 16.
Definition u32 (x : Z) : Z := x mod 2 ^ 32.
Definition u64 (x : Z) : Z := x mod 2 ^ 64.

(** [(int32_t)x] of an unsigned value: two's complement. *)
Definition s32 (x : Z) : Z :=
  let y := u32 x in if y <? 2 ^ 31 then y else y - 2 ^ 32.

Definition is_u8 (x : Z) : Prop := 0 <= x < 2 ^ 8.
Definition is_u16 (x : Z) : Prop := 0 <= x < 2 ^ 16.
Definition is_u32 (x : Z) : Prop := 0 <= x < 2 ^ 32.
Definition is_u64 (x : Z) : Prop := 0 <= x < 2 ^ 64.

(** A byte string: every element is a [uint8_t]. *)
Definition bytes_ok (l : list Z) : Prop := Forall is_u8 l.

(** The length of a byte string, as a [size_t]. *)
Definition zlen {A} (l : list A) : Z := Z.of_nat (length l).

(** [n] bytes of [v], most significant first / least significant first. *)
Fixpoint be_bytes (n : nat) (v : Z) : list Z :=
  match n with
  | O => []
  | S k => u8 (Z.shiftr v (8 * Z.of_nat k)) :: be_bytes k v
  end.

Fixpoint le_bytes (n : nat) (v : Z) : list Z :=
  match n with
  | O => []
  | S k => u8 v :: le_bytes k (Z.shiftr v 8)
  end.

(** The value of a byte string. *)
Fixpoint le_value (l : list Z) : Z :=
  match l with [] => 0 | b :: r => b + 256 * le_value r end.

Fixpoint be_value_from (v : Z) (l : list Z) : Z :=
  match l with [] => v | b :: r => be_value_from (v * 256 + b) r end.

Definition be_value (l : list Z) : Z := be_value_from 0 l.

(** A C string literal is the list of its bytes before the terminator. *)
Definition str (s : string) : list Z :=
  map (fun a => Z.of_nat (nat_of_ascii a)) (list_ascii_of_string s).

(** Lexicographic order of byte strings, [memcmp(a, b, n)] on equal lengths. *)
Fixpoint memcmp (a b : list Z) : Z :=
  match a, b with
  | x :: a', y :: b' => if x <? y then -1 else if y <? x then 1 else memcmp a' b'
  | _, _ => 0
  end.

(** Overwrite the bytes of [a] from offset [o] with [s] ([memcpy(a + o, s, n)]). *)
Definition splice {A} (o : nat) (s a : list A) : list A :=
  take o a ++ s ++ drop (o + length s) a.

(** The string in a NUL-terminated array. *)
Fixpoint cstr (l : list Z) : list Z :=
  match l with [] => [] | b :: r => if b =? 0 then [] else b :: cstr r end.

(** ** A state monad with failure

    The code threads an object (a decoder, an output buffer, a context record)
    through functions that return [false] on failure and leave the object in
    whatever state it reached.  [SM S A] is a function from the state to the
    result ([None]: the C function returned [false]) and the new state. *)

Definition SM (S A : Type) : Type := S -> option A * S.

#[export] Instance SM_ret (S : Type) : MRet (SM S) := fun A a s => (Some a, s).
#[export] Instance SM_bind (S : Type) : MBind (SM S) :=
  fun A B k m s =>
    match m s with
    | (Some a, s') => k a s'
    | (None, s') => (None, s')
    end.

Definition sm_fail {S A} : SM S A := fun s => (None, s).
Definition sm_get {S} : SM S S := fun s => (Some s, s).
Definition sm_modify {S} (f : S -> S) : SM S unit := fun s => (Some tt, f s).
Definition sm_guard {S} (b : bool) : SM S unit := if b then mret tt else sm_fail.

(** Run a computation on the first / second component of a pair of states. *)
Definition on_fst {S T A} (m : SM S A) : SM (S * T) A :=
  fun st => let '(r, s') := m st.1 in (r, (s', st.2)).
Definition on_snd {S T A} (m : SM T A) : SM (S * T) A :=
  fun st => let '(r, t') := m st.2 in (r, (st.1, t')).

(** The loop [for (uint64_t i = 0; i < n; i++) body]: [n] may be as large as
    [2^64 - 1]; the body's failure leaves the loop at once.  The recursion is on
    the binary representation of [n], so the loop needs no fuel. *)
Fixpoint loop_pos {S} (body : SM S unit) (p : positive) : SM S unit :=
  fun s =>
    match p with
    | xH => body s
    | xO q =>
        match loop_pos body q s with
        | (Some _, s1) => loop_pos body q s1
        | r => r
        end
    | xI q =>
        match body s with
        | (Some _, s0) =>
            match loop_pos body q s0 with
            | (Some _, s1) => loop_pos body q s1
            | r => r
            end
        | r => r
        end
    end.

Definition sm_for {S} (n : Z) (body : SM S unit) : SM S unit :=
  match n with Zpos p => loop_pos body p | _ => mret tt end.

Fixpoint loop_nat {S} (body : SM S unit) (n : nat) : SM S unit :=
  match n with
  | O => mret tt
  | S k => body ≫= fun _ => loop_nat body k
  end.

(** ** Tactics *)

(** Split the hypotheses [b1 && b2 = true], [negb b = true], comparisons and
    the like into propositions. *)
Ltac bool_to_prop :=
  repeat match goal with
  | H : (_ && _)%bool = true |- _ => apply andb_prop in H as [? ?]
  | H : (_ || _)%bool = false |- _ => apply orb_false_elim in H as [? ?]
  | H : negb _ = true |- _ => apply negb_true_iff in H
  | H : negb _ = false |- _ => apply negb_false_iff in H
  | H : (_ <? _) = true |- _ => apply Z.ltb_lt in H
  | H : (_ <? _) = false |- _ => apply Z.ltb_ge in H
  | H : (_ <=? _) = true |- _ => apply Z.leb_le in H
  | H : (_ <=? _) = false |- _ => apply Z.leb_gt in H
  | H : (_ >? _) = _ |- _ => rewrite Z.gtb_ltb in H
  | H : (_ >=? _) = _ |- _ => rewrite Z.geb_leb in H
  | H : (_ =? _) = true |- _ => apply Z.eqb_eq in H
  | H : (_ =? _) = false |- _ => apply Z.eqb_neq in H
  end.

(** Case analysis on the innermost condition of the goal. *)
Ltac case_cond :=
  match goal with
  | |- context [if ?b then _ else _] =>
      lazymatch b with
      | context [if _ then _ else _] => fail
      | _ => destruct b eqn:?
      end
  end; bool_to_prop.

Ltac case_cond_in H :=
  match type of H with
  | context [if ?b then _ else _] =>
      lazymatch b with
      | context [if _ then _ else _] => fail
      | _ => destruct b eqn:?
      end
  end; bool_to_prop.

(** Invert an equation [m s = (Some a, s')] about a monadic program. *)
Ltac sm_inv H :=
  match type of H with
  | (?m ≫= ?k) ?s = (Some _, _) =>
      let E := fresh "E" in
      unfold mbind, SM_bind in H; destruct (m s) as [[?|] ?] eqn:E;
      [cbv beta iota in H | discriminate H]
  end.

Ltac unfold_u := unfold u8, u16, u32, u64, is_u8, is_u16, is_u32, is_u64 in *.
Ltac ulia := unfold_u; lia.
Ltac dlia := Z.div_mod_to_equations; lia.

Create HintDb harp discriminated.
Create Rewrite HintDb zlen.

(** ** Integers *)

Lemma u8_range x : is_u8 (u8 x).
Proof. unfold_u. apply Z.mod_pos_bound. lia. Qed.
Lemma u16_range x : is_u16 (u16 x).
Proof. unfold_u. apply Z.mod_pos_bound. lia. Qed.
Lemma u32_range x : is_u32 (u32 x).
Proof. unfold_u. apply Z.mod_pos_bound. lia. Qed.
Lemma u64_range x : is_u64 (u64 x).
Proof. unfold_u. apply Z.mod_pos_bound. lia. Qed.
Lemma u8_small x : is_u8 x -> u8 x = x.
Proof. intros. unfold_u. by apply Z.mod_small. Qed.
Lemma u16_small x : is_u16 x -> u16 x = x.
Proof. intros. unfold_u. by apply Z.mod_small. Qed.
Lemma u32_small x : is_u32 x -> u32 x = x.
Proof. intros. unfold_u. by apply Z.mod_small. Qed.
Lemma u64_small x : is_u64 x -> u64 x = x.
Proof. intros. unfold_u. by apply Z.mod_small. Qed.

#[export] Hint Resolve u8_range u16_range u32_range u64_range : harp.

(** A disjoint [or] is a sum: the shape of every field packing in the code. *)
Lemma lor_shiftl_add a b n :
  0 <= n -> 0 <= a < 2 ^ n -> Z.lor a (Z.shiftl b n) = a + b * 2 ^ n.
Proof.
  intros Hn Ha. rewrite Z.shiftl_mul_pow2 by lia.
  rewrite <- Z.lxor_lor, <- Z.add_nocarry_lxor; [done| |].
  all: apply Z.bits_inj'; intros i Hi; rewrite Z.land_spec, Z.bits_0.
  all: destruct (Z.lt_ge_cases i n).
  all: try (rewrite (Z.mul_pow2_bits_low b n i) by lia; apply andb_false_r).
  all: rewrite <- (Z.mod_small a (2 ^ n)) by lia.
  all: by rewrite Z.mod_pow2_bits_high by lia.
Qed.

Lemma lor_shiftl_add_l a b n :
  0 <= n -> 0 <= a < 2 ^ n -> Z.lor (Z.shiftl b n) a = b * 2 ^ n + a.
Proof. intros. rewrite Z.lor_comm, lor_shiftl_add by done. lia. Qed.

Lemma land_ones_mod a n : 0 <= n -> Z.land a (2 ^ n - 1) = a mod 2 ^ n.
Proof. intros. rewrite <- Z.land_ones by done. by rewrite Z.ones_equiv. Qed.

(** ** Byte strings *)

Lemma zlen_nonneg {A} (l : list A) : 0 <= zlen l.
Proof. unfold zlen. lia. Qed.
Lemma zlen_app {A} (a b : list A) : zlen (a ++ b) = zlen a + zlen b.
Proof. unfold zlen. rewrite length_app. lia. Qed.
Lemma zlen_cons {A} (x : A) l : zlen (x :: l) = 1 + zlen l.
Proof. unfold zlen. simpl length. lia. Qed.
Lemma zlen_nil {A} : zlen (@nil A) = 0.
Proof. done. Qed.
#[export] Hint Resolve zlen_nonneg : harp.
#[export] Hint Rewrite @zlen_app @zlen_cons @zlen_nil : zlen.

Lemma bytes_ok_app a b : bytes_ok (a ++ b) <-> bytes_ok a /\ bytes_ok b.
Proof. apply Forall_app. Qed.
Lemma bytes_ok_cons x l : bytes_ok (x :: l) <-> is_u8 x /\ bytes_ok l.
Proof. apply Forall_cons_iff. Qed.
Lemma bytes_ok_nil : bytes_ok [].
Proof. constructor. Qed.
Lemma bytes_ok_take n l : bytes_ok l -> bytes_ok (take n l).
Proof. apply Forall_take. Qed.
Lemma bytes_ok_drop n l : bytes_ok l -> bytes_ok (drop n l).
Proof. apply Forall_drop. Qed.
#[export] Hint Resolve bytes_ok_nil bytes_ok_take bytes_ok_drop : harp.

Lemma be_bytes_length n v : length (be_bytes n v) = n.
Proof. induction n; simpl; congruence. Qed.
Lemma le_bytes_length n v : length (le_bytes n v) = n.
Proof. revert v. induction n; simpl; congruence. Qed.
Lemma be_bytes_ok n v : bytes_ok (be_bytes n v).
Proof. induction n; simpl; constructor; auto with harp. Qed.
Lemma le_bytes_ok n v : bytes_ok (le_bytes n v).
Proof. revert v. induction n; simpl; constructor; auto with harp. apply IHn. Qed.
#[export] Hint Resolve be_bytes_ok le_bytes_ok : harp.

Lemma be_value_from_app v a b :
  be_value_from v (a ++ b) = be_value_from (be_value_from v a) b.
Proof. revert v. induction a; simpl; auto. Qed.

Lemma be_value_from_bytes n w v :
  be_value_from w (be_bytes n v) = w * 2 ^ (8 * Z.of_nat n) + v mod 2 ^ (8 * Z.of_nat n).
Proof.
  revert w. induction n as [|n IH]; intros w; cbn [be_bytes be_value_from].
  { change (8 * Z.of_nat 0) with 0. rewrite Z.pow_0_r, Z.mod_1_r. lia. }
  rewrite IH. unfold u8. rewrite Z.shiftr_div_pow2 by lia.
  replace (8 * Z.of_nat (S n)) with (8 * Z.of_nat n + 8) by lia.
  rewrite Z.pow_add_r by lia. rewrite Z.rem_mul_r by lia. lia.
Qed.

Lemma be_value_bytes n v :
  0 <= v < 2 ^ (8 * Z.of_nat n) -> be_value (be_bytes n v) = v.
Proof.
  intros. unfold be_value. rewrite be_value_from_bytes, Z.mod_small by done. lia.
Qed.

Lemma le_value_bytes n v :
  0 <= v < 2 ^ (8 * Z.of_nat n) -> le_value (le_bytes n v) = v.
Proof.
  revert v. induction n as [|n IH]; intros v Hv; cbn [le_bytes le_value].
  { change (8 * Z.of_nat 0) with 0 in Hv. lia. }
  replace (8 * Z.of_nat (S n)) with (8 + 8 * Z.of_nat n) in Hv by lia.
  rewrite Z.pow_add_r in Hv by lia.
  rewrite Z.shiftr_div_pow2 by lia. unfold u8. change (2 ^ 8) with 256 in *.
  rewrite IH; [pose proof (Z.div_mod v 256); lia|].
  split; [apply Z.div_pos; lia|]. apply Z.div_lt_upper_bound; lia.
Qed.

Lemma le_value_range l : bytes_ok l -> 0 <= le_value l < 2 ^ (8 * zlen l).
Proof.
  induction 1 as [|b l Hb _ IH]; [by vm_compute|].
  cbn [le_value]. rewrite zlen_cons.
  replace (8 * (1 + zlen l)) with (8 + 8 * zlen l) by lia.
  pose proof (zlen_nonneg l). rewrite Z.pow_add_r by lia. unfold is_u8 in Hb. lia.
Qed.

Lemma pow2_cons {A} (x : A) l : 2 ^ (8 * zlen (x :: l)) = 256 * 2 ^ (8 * zlen l).
Proof.
  rewrite zlen_cons. pose proof (zlen_nonneg l).
  replace (8 * (1 + zlen l)) with (8 + 8 * zlen l) by lia.
  by rewrite Z.pow_add_r by lia.
Qed.

Lemma pow2_zlen_pos {A} (l : list A) : 0 < 2 ^ (8 * zlen l).
Proof. apply Z.pow_pos_nonneg; pose proof (zlen_nonneg l); lia. Qed.

Lemma be_value_from_lin w l : be_value_from w l = w * 2 ^ (8 * zlen l) + be_value l.
Proof.
  unfold be_value. revert w. induction l as [|b l IH]; intros w.
  { cbn [be_value_from]. change (8 * zlen (@nil Z)) with 0. lia. }
  cbn [be_value_from]. rewrite (IH (w * 256 + b)), (IH (0 * 256 + b)), pow2_cons. lia.
Qed.

Lemma be_value_range l : bytes_ok l -> 0 <= be_value l < 2 ^ (8 * zlen l).
Proof.
  induction 1 as [|b l Hb _ IH]; [by vm_compute|].
  unfold be_value in *. cbn [be_value_from]. rewrite be_value_from_lin, pow2_cons.
  unfold be_value. unfold is_u8 in Hb. change (2 ^ 8) with 256 in Hb. nia.
Qed.

Lemma be_bytes_value l : bytes_ok l -> be_bytes (length l) (be_value l) = l.
Proof.
  intros Hl. unfold be_value. generalize 0 at 1.
  induction Hl as [|b l Hb Hl IH]; intros v; [done|].
  cbn [be_value_from length be_bytes]. f_equal; [|apply IH].
  rewrite Z.shiftr_div_pow2 by lia. rewrite be_value_from_lin. fold (zlen l).
  rewrite Z.add_comm, Z.div_add by (pose proof (pow2_zlen_pos l); lia).
  rewrite Z.div_small by (by apply be_value_range).
  unfold u8, is_u8 in *. change (2 ^ 8) with 256 in *.
  rewrite Z.add_0_l, Z.add_comm, Z.mod_add by lia. by apply Z.mod_small.
Qed.

Lemma memcmp_refl a : memcmp a a = 0.
Proof. induction a as [|x a IH]; simpl; [done|]. by rewrite Z.ltb_irrefl. Qed.

Lemma memcmp_eq a b : length a = length b -> memcmp a b = 0 <-> a = b.
Proof.
  revert b. induction a as [|x a IH]; intros [|y b] Hl; try done.
  cbn [memcmp]. injection Hl as Hl. destruct (x <? y) eqn:?; bool_to_prop.
  { split; [lia|]. intros [= -> ->]. lia. }
  destruct (y <? x) eqn:?; bool_to_prop.
  { split; [lia|]. intros [= -> ->]. lia. }
  rewrite IH by done. assert (x = y) as -> by lia. split; congruence.
Qed.

(** ** C strings *)

Lemma cstr_app l r : Forall (fun b => b <> 0) l -> cstr (l ++ 0 :: r) = l.
Proof.
  induction 1 as [|b l Hb _ IH]; [done|]. cbn [app cstr]. rewrite (proj2 (Z.eqb_neq _ _)) by done.
  by rewrite IH.
Qed.

Lemma cstr_splice l a : Forall (fun b => b <> 0) l -> cstr (splice 0 (l ++ [0]) a) = l.
Proof. intros. unfold splice. cbn [take app]. rewrite <- app_assoc. by apply cstr_app. Qed.

Lemma cstr_length l n : nth n l 0 = 0 -> (n < length l)%nat -> (length (cstr l) <= n)%nat.
Proof.
  revert n. induction l as [|b l IH]; intros n Hn Hl; cbn [cstr length] in *; [lia|].
  destruct n as [|n]; cbn [nth] in Hn; [subst; cbn; lia|].
  case_cond; cbn [length]; [lia|]. specialize (IH n Hn ltac:(lia)). lia.
Qed.

(** ** The monad *)

Section monad.
Context {S : Type}.

Lemma sm_bind_Some {A B} (m : SM S A) (k : A -> SM S B) s b s' :
  (m ≫= k) s = (Some b, s') <-> exists a s1, m s = (Some a, s1) /\ k a s1 = (Some b, s').
Proof.
  unfold mbind, SM_bind. destruct (m s) as [[a|] s1]; split.
  - eauto.
  - by intros (? & ? & [= -> ->] & ?).
  - done.
  - by intros (? & ? & ? & ?).
Qed.

Lemma sm_bind_run {A B} (m : SM S A) (k : A -> SM S B) s a s1 :
  m s = (Some a, s1) -> (m ≫= k) s = k a s1.
Proof. unfold mbind, SM_bind. by intros ->. Qed.

Lemma sm_bind_fail {A B} (m : SM S A) (k : A -> SM S B) s s1 :
  m s = (None, s1) -> (m ≫= k) s = (None, s1).
Proof. unfold mbind, SM_bind. by intros ->. Qed.

Lemma loop_nat_add (body : SM S unit) n m s :
  loop_nat body (n + m) s = (loop_nat body n ≫= fun _ => loop_nat body m) s.
Proof.
  revert s. induction n as [|n IH]; intros s; [done|].
  cbn [loop_nat Nat.add]. unfold mbind, SM_bind.
  destruct (body s) as [[[]|] s1]; [|done]. by rewrite IH.
Qed.

Lemma loop_pos_nat (body : SM S unit) p s :
  loop_pos body p s = loop_nat body (Pos.to_nat p) s.
Proof.
  revert s. induction p as [p IH|p IH|]; intros s; cbn [loop_pos].
  - rewrite Pos2Nat.inj_xI. cbn [loop_nat]. unfold mbind at 1, SM_bind at 1.
    destruct (body s) as [[[]|] s0]; [|done].
    replace (2 * Pos.to_nat p)%nat with (Pos.to_nat p + Pos.to_nat p)%nat by lia.
    rewrite loop_nat_add, IH. unfold mbind, SM_bind.
    destruct (loop_nat body _ s0) as [[[]|] s1]; [|done]. apply IH.
  - rewrite Pos2Nat.inj_xO.
    replace (2 * Pos.to_nat p)%nat with (Pos.to_nat p + Pos.to_nat p)%nat by lia.
    rewrite loop_nat_add, IH. unfold mbind, SM_bind.
    destruct (loop_nat body _ s) as [[[]|] s1]; [|done]. apply IH.
  - change (Pos.to_nat 1) with 1%nat. cbn [loop_nat]. unfold mbind, SM_bind.
    by destruct (body s) as [[[]|] s1].
Qed.

(** The binary loop runs its body [n] times, one after the other. *)
Lemma sm_for_nat n (body : SM S unit) s :
  sm_for n body s = loop_nat body (Z.to_nat n) s.
Proof. destruct n; [done| |done]. apply loop_pos_nat. Qed.

(** Loop invariant rule: what the body preserves on success, the loop does. *)
Lemma sm_for_inv (P : S -> Prop) n body s s' :
  (forall s s', P s -> body s = (Some tt, s') -> P s') ->
  P s -> sm_for n body s = (Some tt, s') -> P s'.
Proof.
  intros Hb. rewrite sm_for_nat. generalize (Z.to_nat n) as k. intros k. revert s.
  induction k as [|k IH]; intros s HP; cbn [loop_nat].
  - by intros [= <-].
  - intros ([] & s1 & H1 & H2)%sm_bind_Some. eauto.
Qed.

(** ... and the same for an invariant that the body keeps even on failure. *)
Lemma sm_for_inv_all (P : S -> Prop) n body s :
  (forall s, P s -> P (body s).2) -> P s -> P (sm_for n body s).2.
Proof.
  intros Hb. rewrite sm_for_nat. generalize (Z.to_nat n) as k. intros k. revert s.
  induction k as [|k IH]; intros s HP; cbn [loop_nat]; [done|].
  unfold mbind, SM_bind. specialize (Hb s HP).
  destruct (body s) as [[[]|] s1]; auto.
Qed.
End monad.

Lemma flat_map_map {A B C} (f : A -> B) (g : B -> list C) l : flat_map g (map f l) = flat_map (fun x => g (f x)) l.
Proof. induction l as [|x l IH]; [done|]. cbn. by rewrite IH. Qed.

(** ** Arrays updated by index *)

Lemma nth_insert_ne {A} k j (x d : A) l : j <> k -> nth j (<[k := x]> l) d = nth j l d.
Proof. intros. rewrite !nth_lookup. by rewrite list_lookup_insert_ne. Qed.

Lemma nth_insert_eq {A} k (x d : A) l : (k < length l)%nat -> nth k (<[k := x]> l) d = x.
Proof. intros. rewrite nth_lookup. by rewrite list_lookup_insert_eq. Qed.

Lemma nth_list_insert {A} (l : list A) i v b d : (i < length l)%nat ->
  nth b (<[i := v]> l) d = if (b =? i)%nat then v else nth b l d.
Proof.
  intros Hi. destruct (Nat.eqb_spec b i) as [->|Hne]; [by apply nth_insert_eq|by apply nth_insert_ne].
Qed.

(** Invariant rule for a counting loop [for (i = 0; i < n; i++) t = f(t, i)]. *)
Lemma fold_seq_inv {T} (P : nat -> T -> Prop) (f : T -> nat -> T) n t :
  P 0%nat t -> (forall i t, (i < n)%nat -> P i t -> P (S i) (f t i)) -> P n (fold_left f (seq 0 n) t).
Proof.
  intros H0 HS. induction n as [|n IH]; [done|].
  rewrite seq_S, fold_left_app. cbn [fold_left Nat.add]. apply HS; [lia|]. apply IH. intros; apply HS; lia || done.
Qed.

Lemma fold_left_map {A B C} (g : A -> B) (f : C -> B -> C) l c : fold_left f (map g l) c = fold_left (fun c x => f c (g x)) l c.
Proof. revert c. induction l as [|x l IH]; intros c; [done|]. apply IH. Qed.

(** Lists that agree under [f] agree under a function that [f] determines. *)
Lemma map_determined {A B C} (f : A -> B) (g : A -> C) (P : A -> Prop) l : Forall P l -> forall l', Forall P l' ->
  (forall x y, P x -> P y -> f x = f y -> g x = g y) -> map f l = map f l' -> map g l = map g l'.
Proof.
  induction 1 as [|x l Hx _ IH]; intros [|y l'] Hl' Hd E; try discriminate E; [done|].
  inversion Hl'; subst. injection E as E1 E2. cbn [map]. f_equal; [by apply Hd|by apply IH].
Qed.
