(* ===== verification/Cbuf.v ===== *)
(** * The growable output buffer ([core/src/cbor.c], [core/include/harp/cbor.h])

    [harp_cbuf] and its four operations.  The heap is abstracted by the class
    [Realloc]: whether a [realloc] to a given capacity succeeds.  The abstract
    view of a buffer is the byte string it holds; [appends] is the contract every
    encoder of the code base is proved against: an encoder either leaves the
    buffer in the out-of-memory state or has appended exactly its bytes. *)
From Stdlib Require Import ZArith Lia List.
From stdpp Require Import base tactics list numbers.
From S2P Require Import Prelude.

Open Scope Z_scope.
Open Scope list_scope.

(** [harp_cbuf]: the first [len] bytes of [buf], the allocated capacity and the
    sticky out-of-memory flag. *)
Record cbuf := mk_cbuf { cb_buf : list Z; cb_cap : Z; cb_oom : bool }.

Definition cb_len (b : cbuf) : Z := zlen (cb_buf b).

(** [realloc(p, n)] succeeds for this [n]. *)
Class Realloc := realloc_ok : Z -> bool.

(** [while (ncap < need) ncap *= 2;]  64 doublings are all a [size_t] admits. *)
Fixpoint grow (fuel : nat) (ncap need : Z) : Z :=
  match fuel with
  | O => ncap
  | S k => if ncap <? need then grow k (u64 (ncap * 2)) need else ncap
  end.

Section ops.
Context {R : Realloc}.

Definition ensure (b : cbuf) (extra : Z) : bool * cbuf :=
  if cb_oom b then (false, b)
  else if u64 (cb_len b + extra) <=? cb_cap b then (true, b)
  else
    let ncap0 := if cb_cap b =? 0 then 256 else cb_cap b in
    let ncap := grow 64 ncap0 (u64 (cb_len b + extra)) in
    if realloc_ok ncap then (true, mk_cbuf (cb_buf b) ncap (cb_oom b))
    else (false, mk_cbuf (cb_buf b) (cb_cap b) true).

Definition harp_cbuf_init : cbuf := mk_cbuf [] 0 false.

Definition harp_cbuf_free (b : cbuf) : cbuf := mk_cbuf [] 0 false.

Definition harp_cbuf_reset (b : cbuf) : cbuf := mk_cbuf [] (cb_cap b) false.

Definition harp_cbuf_put (b : cbuf) (p : list Z) : cbuf :=
  let '(ok, b1) := ensure b (zlen p) in
  if ok then mk_cbuf (cb_buf b1 ++ p) (cb_cap b1) (cb_oom b1) else b1.
End ops.

(** ** Contracts *)

(** The buffer never holds more than its allocation. *)
Definition cbuf_wf (b : cbuf) : Prop := cb_len b <= cb_cap b <= 2 ^ 63 /\ 0 <= cb_cap b.

(** What an encoder promises about its output buffer. *)
Definition appends (f : cbuf -> cbuf) (bs : list Z) : Prop :=
  forall b, cb_oom (f b) = false -> cb_oom b = false /\ cb_buf (f b) = cb_buf b ++ bs.

(** Heap that never fails: the output is then the encoding itself. *)
Definition realloc_total (R : Realloc) : Prop := forall n, realloc_ok n = true.

(** An encoder that cannot fail when the heap does not. *)
Definition never_oom (f : cbuf -> cbuf) : Prop := forall b, cb_oom b = false -> cb_oom (f b) = false.

Create HintDb enc discriminated.

Lemma grow_enough fuel ncap need :
  0 < ncap -> need <= 2 ^ 63 -> need <= ncap * 2 ^ Z.of_nat fuel ->
  need <= grow fuel ncap need /\ ncap <= grow fuel ncap need.
Proof.
  revert ncap. induction fuel as [|k IH]; intros ncap Hn Hmax Hneed; cbn [grow].
  { change (2 ^ Z.of_nat 0) with 1 in Hneed. lia. }
  destruct (ncap <? need) eqn:E; bool_to_prop; [|lia].
  rewrite Nat2Z.inj_succ, Z.pow_succ_r in Hneed by lia.
  rewrite u64_small by ulia.
  destruct (IH (ncap * 2)) as [? ?]; lia.
Qed.

Lemma grow_bound fuel ncap need :
  0 < ncap <= 2 ^ 63 -> need <= 2 ^ 62 -> grow fuel ncap need <= 2 ^ 63.
Proof.
  revert ncap. induction fuel as [|k IH]; intros ncap Hn Hneed; cbn [grow]; [lia|].
  destruct (ncap <? need) eqn:E; bool_to_prop; [|lia].
  rewrite u64_small by ulia. apply IH; lia.
Qed.

Section contract.
Context {R : Realloc}.

Lemma ensure_spec b extra ok b1 :
  cbuf_wf b -> 0 <= extra -> cb_len b + extra <= 2 ^ 62 -> ensure b extra = (ok, b1) ->
  cbuf_wf b1 /\ cb_buf b1 = cb_buf b /\ cb_oom b1 = negb ok /\
  (ok = true -> cb_len b1 + extra <= cb_cap b1).
Proof.
  unfold ensure, cbuf_wf, cb_len in *. intros [Hw Hc] He Hs.
  pose proof (zlen_nonneg (cb_buf b)).
  destruct (cb_oom b) eqn:Eo; [intros [= <- <-]; split_and!; done || lia|].
  rewrite u64_small by ulia.
  case_cond; [intros [= <- <-]; split_and!; done || lia|].
  set (ncap0 := if cb_cap b =? 0 then 256 else cb_cap b).
  assert (0 < ncap0 <= 2 ^ 63) as H0 by (subst ncap0; case_cond; lia).
  destruct (grow_enough 64 ncap0 (zlen (cb_buf b) + extra)) as [G1 G2]; [lia..|].
  pose proof (grow_bound 64 ncap0 (zlen (cb_buf b) + extra) H0 Hs) as G3.
  generalize dependent (grow 64 ncap0 (zlen (cb_buf b) + extra)). intros n G1 G2 G3.
  case_cond; intros [= <- <-]; cbn [cb_buf cb_cap cb_oom]; split_and!; done || lia.
Qed.

Lemma put_oom_sticky b p : cb_oom b = true -> harp_cbuf_put b p = b.
Proof. intros E. unfold harp_cbuf_put, ensure. by rewrite E. Qed.

Lemma appends_put p : appends (fun b => harp_cbuf_put b p) p.
Proof.
  intros b. unfold harp_cbuf_put, ensure.
  destruct (cb_oom b) eqn:Eo; [congruence|].
  repeat case_cond; cbn; intros; first [congruence | done].
Qed.

(** A put appends all or nothing. *)
Lemma put_cases b p : cb_buf (harp_cbuf_put b p) = cb_buf b \/ cb_buf (harp_cbuf_put b p) = cb_buf b ++ p.
Proof.
  unfold harp_cbuf_put, ensure. cbv zeta. destruct (cb_oom b); [by left|]. destruct (_ <=? _); [by right|]. by destruct (realloc_ok _); [right|left].
Qed.

Lemma appends_eq f bs cs : appends f bs -> bs = cs -> appends f cs.
Proof. by intros H <-. Qed.

Lemma appends_comp f g bs cs :
  appends f bs -> appends g cs -> appends (fun b => g (f b)) (bs ++ cs).
Proof.
  intros Hf Hg b Ho. destruct (Hg _ Ho) as [Ho' ->]. destruct (Hf _ Ho') as [? ->].
  by rewrite app_assoc.
Qed.

Lemma appends_id : appends (fun b => b) [].
Proof. intros b. by rewrite app_nil_r. Qed.

Lemma appends_if (c : bool) f g bs cs :
  appends f bs -> appends g cs ->
  appends (fun b => if c then f b else g b) (if c then bs else cs).
Proof. by destruct c. Qed.

(** The [for] loop of an array encoder: one element after the other. *)
Lemma appends_fold {A} (f : cbuf -> A -> cbuf) (enc : A -> list Z) l :
  (forall x, appends (fun b => f b x) (enc x)) ->
  appends (fun b => fold_left f l b) (flat_map enc l).
Proof.
  intros Hf. induction l as [|x l IH]; [apply appends_id|].
  intros b Ho. cbn [fold_left] in *. destruct (IH _ Ho) as [Ho' ->].
  destruct (Hf x _ Ho') as [? ->]. cbn [flat_map]. by rewrite app_assoc.
Qed.

Lemma never_oom_put p : realloc_total R -> never_oom (fun b => harp_cbuf_put b p).
Proof.
  intros Ht b Ho. unfold harp_cbuf_put, ensure. rewrite Ho, Ht. by case_cond.
Qed.

(** From a fresh buffer, an encoder that did not run out of memory produced
    its encoding. *)
Lemma appends_fresh f bs b :
  appends f bs -> cb_buf b = [] -> cb_oom (f b) = false -> cb_buf (f b) = bs.
Proof. intros Hf Hb Ho. destruct (Hf b Ho) as [_ ->]. by rewrite Hb. Qed.

Lemma appends_run f bs : appends f bs -> cb_oom (f harp_cbuf_init) = false -> cb_buf (f harp_cbuf_init) = bs.
Proof. intros Hf Ho. by rewrite (appends_fresh f bs harp_cbuf_init). Qed.
End contract.

#[export] Hint Resolve appends_put appends_id : enc.

(** Prove [appends (fun b => g (... (f b))) ?bs] by composing the encoders. *)
Ltac appends_step :=
  first [ solve [eauto with enc]
        | lazymatch goal with
          | |- appends (fun b => ?g (@?f b)) _ => idtac
          end; eapply (appends_comp _ _) ].

(** ** Memory safety of the buffer *)

(** [harp_cbuf_put] is memory safe and complete: on a well-formed buffer,
    for a payload that fits the address space, either the buffer ends with its
    bytes unchanged and the out-of-memory flag set, or the [memcpy] of the
    payload lies within the (re)allocated block and exactly the payload has been
    appended; the buffer stays well-formed, and the growth loop needs at most 64
    doublings. *)
Theorem harp_cbuf_put_safe {R : Realloc} (b : cbuf) (p : list Z) :
  cbuf_wf b -> cb_len b + zlen p <= 2 ^ 62 ->
  let b' := harp_cbuf_put b p in
  cbuf_wf b' /\
  ((cb_oom b' = true /\ cb_buf b' = cb_buf b) \/
   (cb_oom b' = false /\ cb_buf b' = cb_buf b ++ p /\ cb_len b + zlen p <= cb_cap b')).
Proof.
  intros Hw Hs b'. unfold b', harp_cbuf_put.
  destruct (ensure b (zlen p)) as [ok b1] eqn:E.
  destruct (ensure_spec b (zlen p) ok b1 Hw (zlen_nonneg p) Hs E) as ([? ?] & Hb & Ho & Hfit).
  unfold cb_len in *. destruct ok; cbn in Ho; cbn.
  - specialize (Hfit eq_refl). rewrite Hb in *. split.
    + unfold cbuf_wf, cb_len; cbn. rewrite zlen_app. lia.
    + right. repeat split; try done; lia.
  - split; [done|]. left. done.
Qed.

(** A heap whose blocks are at most 512 bytes: the buffer grows, then fails. *)
Lemma harp_cbuf_put_safe_witness :
  let R : Realloc := fun n => n <=? 512 in
  let b := @harp_cbuf_put R harp_cbuf_init (repeat 7 300) in
  cb_cap b = 512 /\ cb_oom b = false /\
  cbuf_wf (@harp_cbuf_put R b (repeat 9 600)) /\
  cb_oom (@harp_cbuf_put R b (repeat 9 600)) = true.
Proof.
  intros R b. split; [by vm_compute|]. split; [by vm_compute|]. split; [|by vm_compute].
  destruct (@harp_cbuf_put_safe R b (repeat 9 600)) as [H _].
  - unfold cbuf_wf. split_and!; vm_compute; discriminate.
  - vm_compute. discriminate.
  - exact H.
Defined.
