(* ===== verification/CborEnc.v ===== *)
(** * The CBOR encoder ([core/src/cbor.c], "encoder")

    One definition per encoder over the output buffer, and, beside each, the byte
    string it appends (its abstract encoding [enc_*]).  [put_head] is the RFC 8949
    section 4.2.1 deterministic head: the shortest argument that holds the value
    (proved in [CborDec]).  Floats are in [CborFloat]. *)
From Stdlib Require Import ZArith Lia List.
From stdpp Require Import base tactics list numbers.
From S2P Require Import Prelude.
From S2P Require Import Cbuf.

Open Scope Z_scope.
Open Scope list_scope.

(** The bytes [h[0 .. n-1]] that [put_head] builds for [(major, v)]. *)
Definition head_bytes (major v : Z) : list Z :=
  if v <? 24 then [u8 (Z.lor (Z.shiftl major 5) v)]
  else if v <=? 0xff then [u8 (Z.lor (Z.shiftl major 5) 24); u8 v]
  else if v <=? 0xffff then
    [u8 (Z.lor (Z.shiftl major 5) 25); u8 (Z.shiftr v 8); u8 v]
  else if v <=? 0xffffffff then
    [u8 (Z.lor (Z.shiftl major 5) 26);
     u8 (Z.shiftr v 24); u8 (Z.shiftr v 16); u8 (Z.shiftr v 8); u8 v]
  else
    u8 (Z.lor (Z.shiftl major 5) 27)
      :: map (fun i => u8 (Z.shiftr v (56 - 8 * i))) [0; 1; 2; 3; 4; 5; 6; 7].

(** The abstract encodings. *)
Definition enc_uint (v : Z) : list Z := head_bytes 0 v.
Definition enc_int (v : Z) : list Z :=
  if v <? 0 then head_bytes 1 (u64 (-1 - v)) else head_bytes 0 (u64 v).
Definition enc_bytes (p : list Z) : list Z := head_bytes 2 (zlen p) ++ p.
Definition enc_text (s : list Z) : list Z := head_bytes 3 (zlen s) ++ s.
Definition enc_array (n : Z) : list Z := head_bytes 4 n.
Definition enc_map (n : Z) : list Z := head_bytes 5 n.
Definition enc_bool (v : bool) : list Z := [if v then 0xf5 else 0xf4].
Definition enc_null : list Z := [0xf6].

Section encoders.
Context {R : Realloc}.

Definition put_head (b : cbuf) (major v : Z) : cbuf := harp_cbuf_put b (head_bytes major v).

Definition harp_cbor_uint (b : cbuf) (v : Z) : cbuf := put_head b 0 v.

Definition harp_cbor_int (b : cbuf) (v : Z) : cbuf :=
  if v <? 0 then put_head b 1 (u64 (-1 - v)) else put_head b 0 (u64 v).

Definition harp_cbor_bytes (b : cbuf) (p : list Z) : cbuf :=
  harp_cbuf_put (put_head b 2 (zlen p)) p.

Definition harp_cbor_textn (b : cbuf) (s : list Z) : cbuf :=
  harp_cbuf_put (put_head b 3 (zlen s)) s.

Definition harp_cbor_text (b : cbuf) (s : list Z) : cbuf := harp_cbor_textn b s.

Definition harp_cbor_array (b : cbuf) (n : Z) : cbuf := put_head b 4 n.

Definition harp_cbor_map (b : cbuf) (n : Z) : cbuf := put_head b 5 n.

Definition harp_cbor_bool (b : cbuf) (v : bool) : cbuf :=
  harp_cbuf_put b [if v then 0xf5 else 0xf4].

Definition harp_cbor_null (b : cbuf) : cbuf := harp_cbuf_put b [0xf6].

(** ** Every encoder appends its encoding *)

Lemma appends_uint v : appends (fun b => harp_cbor_uint b v) (enc_uint v).
Proof. apply appends_put. Qed.

Lemma appends_int v : appends (fun b => harp_cbor_int b v) (enc_int v).
Proof. unfold harp_cbor_int, enc_int. case_cond; apply appends_put. Qed.

Lemma appends_bytes p : appends (fun b => harp_cbor_bytes b p) (enc_bytes p).
Proof. apply (appends_comp (fun b => put_head b 2 _) (fun b => harp_cbuf_put b p)); apply appends_put. Qed.

Lemma appends_text s : appends (fun b => harp_cbor_text b s) (enc_text s).
Proof. apply (appends_comp (fun b => put_head b 3 _) (fun b => harp_cbuf_put b s)); apply appends_put. Qed.

Lemma appends_textn s : appends (fun b => harp_cbor_textn b s) (enc_text s).
Proof. exact (appends_text s). Qed.

Lemma appends_array n : appends (fun b => harp_cbor_array b n) (enc_array n).
Proof. apply appends_put. Qed.

Lemma appends_map n : appends (fun b => harp_cbor_map b n) (enc_map n).
Proof. apply appends_put. Qed.

Lemma appends_bool v : appends (fun b => harp_cbor_bool b v) (enc_bool v).
Proof. apply appends_put. Qed.

Lemma appends_null : appends harp_cbor_null enc_null.
Proof. apply appends_put. Qed.
End encoders.

#[export] Hint Resolve appends_uint appends_int appends_bytes appends_text appends_textn appends_array
  appends_map appends_bool appends_null : enc.

(** ** Shape of a head *)

(** The additional information the encoder picks for an argument. *)
Definition ai_of (v : Z) : Z :=
  if v <? 24 then v else if v <=? 0xff then 24 else if v <=? 0xffff then 25
  else if v <=? 0xffffffff then 26 else 27.

(** Number of argument bytes that follow the initial byte. *)
Definition arg_len (v : Z) : nat :=
  if v <? 24 then 0 else if v <=? 0xff then 1 else if v <=? 0xffff then 2
  else if v <=? 0xffffffff then 4 else 8.

Lemma ib_value major x : 0 <= major < 8 -> 0 <= x < 32 ->
  u8 (Z.lor (Z.shiftl major 5) x) = major * 32 + x.
Proof.
  intros. rewrite lor_shiftl_add_l by lia. change (2 ^ 5) with 32.
  apply u8_small. ulia.
Qed.

(** A head is the initial byte followed by the big-endian argument. *)
Lemma head_bytes_be major v : 0 <= major < 8 -> is_u64 v ->
  head_bytes major v = (major * 32 + ai_of v) :: be_bytes (arg_len v) v.
Proof.
  intros Hm Hv. unfold head_bytes, ai_of, arg_len.
  repeat case_cond; rewrite ib_value by ulia; cbn [be_bytes map]; try done.
  all: repeat f_equal; rewrite ?Z.shiftr_0_r; done.
Qed.

Lemma head_bytes_length major v : length (head_bytes major v) = S (arg_len v).
Proof. unfold head_bytes, arg_len. by repeat case_cond. Qed.

Lemma head_bytes_ok major v : bytes_ok (head_bytes major v).
Proof.
  unfold head_bytes. repeat case_cond; cbn [map]; repeat constructor; auto with harp;
    apply u8_range.
Qed.

Lemma enc_bytes_ok p : bytes_ok p -> bytes_ok (enc_bytes p).
Proof. intros. apply bytes_ok_app. auto using head_bytes_ok. Qed.
Lemma enc_text_ok p : bytes_ok p -> bytes_ok (enc_text p).
Proof. intros. apply bytes_ok_app. auto using head_bytes_ok. Qed.

#[export] Hint Resolve head_bytes_ok enc_bytes_ok enc_text_ok : harp.

(** Compose the encoders of a straight-line encoder body. *)
Ltac appends_seq :=
  repeat (eapply (appends_comp _ (fun b => _ b _)); [|solve [auto with enc]]); auto with enc.
