(* ===== verification/CborDec.v ===== *)
(** * The CBOR decoder ([core/src/cbor.c], "decoder")

    [harp_cdec] is the unread input [p .. end) and the sticky error flag; a
    pointer/length pair the decoder returns is the byte string it spans, which is
    a part of the input because the only way to advance is to drop a prefix of the
    unread input ([advances], proved for every operation).  That no load is made
    outside of the input is stated and proved in [CborMem], on pointers.  [decodes] is the
    contract the message codecs are proved against: an encoding followed by
    anything is read back and exactly it is consumed. *)
From Stdlib Require Import ZArith Lia List.
From stdpp Require Import base tactics list numbers.
From S2P Require Import Prelude.
From S2P Require Import Cbuf.
From S2P Require Import CborEnc.

Open Scope Z_scope.
Open Scope list_scope.

(** [harp_cdec]: [cur] is the unread input, [err] the sticky error. *)
Record cdec := mk_cdec { d_cur : list Z; d_err : bool }.

Abbreviation dec := (SM cdec).

(** [harp_cdec_init(d, buf, len)] *)
Definition harp_cdec_init (buf : list Z) : cdec := mk_cdec buf false.

(** [d->end - d->p] *)
Definition d_left (d : cdec) : Z := zlen (d_cur d).

(** [d->err = true; return false;] *)
Definition dec_err {A} : dec A := fun d => (None, mk_cdec (d_cur d) true).

Definition need (n : Z) : dec unit := fun d =>
  if d_err d || (d_left d <? n) then (None, mk_cdec (d_cur d) true) else (Some tt, d).

(** [*d->p++].  C leaves the load past the end undefined; on a list it has to be
    something.  [CborMem] writes the decoder on pointers, where it is undefined
    too, and proves that no call ever makes it and that the results are these. *)
Definition next_byte : dec Z := fun d =>
  match d_cur d with
  | b :: r => (Some b, mk_cdec r (d_err d))
  | [] => (None, mk_cdec [] true)
  end.

(** [*p = d->p; *n = len; d->p += len;], behind the test of [len] against the
    bytes left (on pointers in [CborMem]). *)
Definition take_bytes (n : Z) : dec (list Z) := fun d =>
  (Some (take (Z.to_nat n) (d_cur d)), mk_cdec (drop (Z.to_nat n) (d_cur d)) (d_err d)).

Definition harp_cdec_peek (d : cdec) : Z :=
  if d_err d then -1 else match d_cur d with b :: _ => Z.shiftr b 5 | [] => -1 end.

Definition harp_cdec_peek_null (d : cdec) : bool :=
  if d_err d then false else match d_cur d with b :: _ => b =? 0xf6 | [] => false end.

(** [for (i < n) v = (v << 8) | *d->p++;] *)
Fixpoint read_arg (n : nat) (v : Z) : dec Z :=
  match n with
  | O => mret v
  | S k => b ← next_byte; read_arg k (Z.lor (u64 (Z.shiftl v 8)) b)
  end.

(** Initial byte and argument: [(major, ai, val)]. *)
Definition read_head : dec (Z * Z * Z) :=
  need 1;;
  ib ← next_byte;
  let major := Z.shiftr ib 5 in
  let ai := Z.land ib 0x1f in
  if ai <? 24 then mret (major, ai, ai)
  else
    n ← (if ai =? 24 then mret 1 else if ai =? 25 then mret 2 else if ai =? 26 then mret 4
         else if ai =? 27 then mret 8 else dec_err);
    need n;;
    v ← read_arg (Z.to_nat n) 0;
    mret (major, ai, v).

Definition harp_cdec_uint : dec Z :=
  '(major, ai, v) ← read_head;
  if negb (major =? 0) then dec_err else mret v.

Definition harp_cdec_int : dec Z :=
  '(major, ai, u) ← read_head;
  if major =? 0 then if u >? 2 ^ 63 - 1 then dec_err else mret u
  else if major =? 1 then if u >? 2 ^ 63 - 1 then dec_err else mret (-1 - u)
  else dec_err.

Definition read_string (want_major : Z) : dec (list Z) :=
  '(major, ai, len) ← read_head;
  d ← sm_get;
  if negb (major =? want_major) || (len >? d_left d) then dec_err else take_bytes len.

Definition harp_cdec_bytes : dec (list Z) := read_string 2.
Definition harp_cdec_text : dec (list Z) := read_string 3.

Definition read_count (want_major : Z) : dec Z :=
  '(major, ai, n) ← read_head;
  if negb (major =? want_major) then dec_err
  else
    let cost := if want_major =? 5 then u64 (n * 2) else n in
    d ← sm_get;
    if cost >? d_left d then dec_err else mret n.

Definition harp_cdec_array : dec Z := read_count 4.
Definition harp_cdec_map : dec Z := read_count 5.

Definition harp_cdec_bool : dec bool :=
  need 1;;
  d ← sm_get;
  match d_cur d with
  | b :: r =>
      if b =? 0xf4 then next_byte;; mret false
      else if b =? 0xf5 then next_byte;; mret true
      else dec_err
  | [] => dec_err
  end.

Definition harp_cdec_null : dec unit :=
  need 1;;
  d ← sm_get;
  match d_cur d with
  | b :: r => if negb (b =? 0xf6) then dec_err else next_byte;; mret tt
  | [] => dec_err
  end.

(** [skip_item(d, depth)] with [k = 33 - depth]: at [depth > 32] the item is
    rejected.  The element loops run up to [2^64 - 1] times. *)
Fixpoint skip_item (k : nat) : dec unit :=
  match k with
  | O => dec_err
  | S k' =>
      '(major, ai, val) ← read_head;
      if (major =? 0) || (major =? 1) then mret tt
      else if (major =? 2) || (major =? 3) then
        d ← sm_get;
        if val >? d_left d then dec_err else take_bytes val;; mret tt
      else if major =? 4 then sm_for val (skip_item k')
      else if major =? 5 then sm_for (u64 (val * 2)) (skip_item k')
      else if major =? 6 then skip_item k'
      else if major =? 7 then mret tt
      else dec_err
  end.

Definition HARP_CBOR_MAX_DEPTH : nat := 32.

Definition harp_cdec_skip : dec unit := skip_item (S HARP_CBOR_MAX_DEPTH).

Definition harp_cdec_span : dec (list Z) := fun d =>
  match harp_cdec_skip d with
  | (Some _, d') => (Some (take (length (d_cur d) - length (d_cur d')) (d_cur d)), d')
  | (None, d') => (None, d')
  end.

(** ** Abstract CBOR items *)

(** The data model the encoder can produce ([ISimple] stands for booleans and
    null; floats are leaves with a 2, 4 or 8 byte argument). *)
Inductive item : Set :=
  | IUint (v : Z)
  | INint (v : Z)
  | IBytes (p : list Z)
  | IText (p : list Z)
  | IArray (l : list item)
  | IMap (l : list (item * item))
  | ITag (t : Z) (i : item)
  | ISimple (v : Z)
  | IFloat (n : nat) (arg : Z).

Fixpoint enc_item (i : item) : list Z :=
  match i with
  | IUint v => head_bytes 0 v
  | INint v => head_bytes 1 v
  | IBytes p => enc_bytes p
  | IText p => enc_text p
  | IArray l => enc_array (zlen l) ++ flat_map enc_item l
  | IMap l => enc_map (zlen l) ++ flat_map (fun kv => enc_item kv.1 ++ enc_item kv.2) l
  | ITag t i => head_bytes 6 t ++ enc_item i
  | ISimple v => [224 + v]
  | IFloat n arg =>
      (224 + (if decide (n = 2%nat) then 25 else if decide (n = 4%nat) then 26 else 27))
        :: be_bytes n arg
  end.

(** Machine-size conditions on an item, as an executable test. *)
Definition u64_b (v : Z) : bool := (0 <=? v) && (v <? 2 ^ 64).

Fixpoint item_ok (i : item) : bool :=
  match i with
  | IUint v | INint v => u64_b v
  | IBytes p | IText p => zlen p <? 2 ^ 64
  | IArray l => (zlen l <? 2 ^ 63) && forallb item_ok l
  | IMap l => (zlen l <? 2 ^ 63) && forallb (fun kv => item_ok kv.1 && item_ok kv.2) l
  | ITag t i => u64_b t && item_ok i
  | ISimple v => (0 <=? v) && (v <? 24)
  | IFloat n _ => bool_decide (n = 2%nat) || bool_decide (n = 4%nat) || bool_decide (n = 8%nat)
  end.

(** Nesting depth: a scalar or an empty container has depth 0. *)
Fixpoint item_depth (i : item) : nat :=
  match i with
  | IArray l => list_max (map (fun x => S (item_depth x)) l)
  | IMap l => list_max (map (fun kv => S (Nat.max (item_depth kv.1) (item_depth kv.2))) l)
  | ITag _ i => S (item_depth i)
  | _ => 0%nat
  end.

(** ** Contracts *)

(** [m] reads [bs] back as [a] and consumes exactly it, when at least [k] more
    bytes follow (container headers look ahead for their elements). *)
Definition decodes {A} (k : Z) (m : dec A) (bs : list Z) (a : A) : Prop :=
  forall rest, k <= zlen rest -> m (mk_cdec (bs ++ rest) false) = (Some a, mk_cdec rest false).

(** The decoder only ever drops a prefix of its input, fails with the error flag
    set, and otherwise leaves the flag alone. *)
Definition advances {A} (m : dec A) : Prop :=
  forall d r d', m d = (r, d') ->
    (exists pre, d_cur d = pre ++ d_cur d') /\
    d_err d' = match r with Some _ => d_err d | None => true end.

(** Success needs an error-free decoder. *)
Definition strict {A} (m : dec A) : Prop :=
  forall d, d_err d = true -> (m d).1 = None.

(** Success does not depend on what follows. *)
Definition extends {A} (m : dec A) : Prop :=
  forall l e a l' e' x, m (mk_cdec l e) = (Some a, mk_cdec l' e') ->
    m (mk_cdec (l ++ x) e) = (Some a, mk_cdec (l' ++ x) e').

Create HintDb dec discriminated.

(** ** Composition *)

Lemma decodes_ret {A} (a : A) : decodes 0 (mret a) [] a.
Proof. done. Qed.

Lemma decodes_bind {A B} k1 k2 k (m : dec A) (f : A -> dec B) bs1 bs2 a b :
  decodes k1 m bs1 a -> decodes k2 (f a) bs2 b -> k1 <= zlen bs2 + k -> k2 <= k ->
  decodes k (m ≫= f) (bs1 ++ bs2) b.
Proof.
  intros H1 H2 Hk1 Hk2 rest Hr. rewrite <- app_assoc.
  erewrite sm_bind_run; [|apply H1; rewrite zlen_app; lia]. apply H2. lia.
Qed.

(** The common case of leaves, which look at nothing that follows. *)
Lemma decodes_bind0 {A B} (m : dec A) (f : A -> dec B) bs1 bs2 a b :
  decodes 0 m bs1 a -> decodes 0 (f a) bs2 b -> decodes 0 (m ≫= f) (bs1 ++ bs2) b.
Proof. intros. eapply decodes_bind; eauto; pose proof (zlen_nonneg bs2); lia. Qed.

Lemma decodes_weaken {A} k k' (m : dec A) bs a : decodes k m bs a -> k <= k' -> decodes k' m bs a.
Proof. intros H Hk rest Hr. apply H. lia. Qed.

Lemma advances_ret {A} (a : A) : advances (mret a).
Proof. intros d r d' [= <- <-]. split; [by exists []|done]. Qed.

Lemma advances_err {A} : advances (@dec_err A).
Proof. intros d r d' [= <- <-]. split; [by exists []|done]. Qed.

Lemma advances_get : advances sm_get.
Proof. intros d r d' [= <- <-]. split; [by exists []|done]. Qed.

Lemma advances_need n : advances (need n).
Proof. intros d r d'. unfold need. case_cond; intros [= <- <-]; split; by try exists []. Qed.

Lemma advances_next : advances next_byte.
Proof.
  intros d r d'. unfold next_byte. destruct (d_cur d) as [|b l] eqn:E; intros [= <- <-].
  - split; [by exists []|done].
  - split; [by exists [b]|done].
Qed.

Lemma advances_take n : advances (take_bytes n).
Proof.
  intros d r d' [= <- <-]. cbn. split; [|done].
  exists (take (Z.to_nat n) (d_cur d)). by rewrite take_drop.
Qed.

Lemma advances_bind {A B} (m : dec A) (k : A -> dec B) :
  advances m -> (forall a, advances (k a)) -> advances (m ≫= k).
Proof.
  intros Hm Hk d r d'. unfold mbind, SM_bind.
  destruct (m d) as [[a|] d1] eqn:E; destruct (Hm _ _ _ E) as [[p1 Hp1] He1].
  - intros Hr. destruct (Hk _ _ _ _ Hr) as [[p2 Hp2] He2]. split.
    + exists (p1 ++ p2). by rewrite Hp1, Hp2, app_assoc.
    + rewrite He2, He1. by destruct r.
  - intros [= <- <-]. split; [by exists p1|done].
Qed.

Lemma advances_for n (m : dec unit) : advances m -> advances (sm_for n m).
Proof.
  intros Hm d r d'. rewrite sm_for_nat. generalize (Z.to_nat n) as k. intros k. revert d r d'.
  induction k as [|k IH]; [apply advances_ret|]. cbn [loop_nat]. by apply advances_bind.
Qed.

#[export] Hint Resolve advances_ret advances_err advances_get advances_need advances_next
  advances_take advances_for : dec.

Lemma advances_if {A} (c : bool) (m n : dec A) :
  advances m -> advances n -> advances (if c then m else n).
Proof. by destruct c. Qed.

(** Decide [advances] of a decoder by following its control flow. *)
Ltac advances_tac :=
  repeat first
    [ solve [eauto with dec]
    | lazymatch goal with
      | |- advances (mbind _ _) => apply advances_bind; [|intros]
      | |- advances (if _ then _ else _) => apply advances_if
      | |- advances (match ?x with _ => _ end) => destruct x
      | |- advances (let _ := _ in _) => cbv zeta
      end ].

Lemma advances_arg n v : advances (read_arg n v).
Proof. revert v. induction n; intros; cbn [read_arg]; advances_tac. Qed.
#[export] Hint Resolve advances_arg : dec.

Lemma advances_head : advances read_head.
Proof. unfold read_head. advances_tac. Qed.
#[export] Hint Resolve advances_head : dec.

Lemma advances_skip_item k : advances (skip_item k).
Proof. induction k; cbn [skip_item]; advances_tac. Qed.
#[export] Hint Resolve advances_skip_item : dec.

Lemma advances_uint : advances harp_cdec_uint.
Proof. unfold harp_cdec_uint. advances_tac. Qed.
Lemma advances_int : advances harp_cdec_int.
Proof. unfold harp_cdec_int. advances_tac. Qed.
Lemma advances_string m : advances (read_string m).
Proof. unfold read_string. advances_tac. Qed.
Lemma advances_count m : advances (read_count m).
Proof. unfold read_count. advances_tac. Qed.
Lemma advances_bool : advances harp_cdec_bool.
Proof. unfold harp_cdec_bool. advances_tac. Qed.
Lemma advances_null : advances harp_cdec_null.
Proof. unfold harp_cdec_null. advances_tac. Qed.
Lemma advances_skip : advances harp_cdec_skip.
Proof. apply advances_skip_item. Qed.
Lemma advances_span : advances harp_cdec_span.
Proof.
  intros d r d'. unfold harp_cdec_span.
  destruct (harp_cdec_skip d) as [[[]|] d1] eqn:E; intros [= <- <-]; by apply advances_skip in E.
Qed.
#[export] Hint Resolve advances_uint advances_int advances_string advances_count advances_bool
  advances_null advances_skip advances_span : dec.

Lemma strict_head : strict read_head.
Proof. intros d E. unfold read_head, mbind, SM_bind, need. by rewrite E. Qed.

Lemma strict_bind {A B} (m : dec A) (k : A -> dec B) : strict m -> strict (m ≫= k).
Proof.
  intros Hm d E. specialize (Hm d E). unfold mbind, SM_bind.
  by destruct (m d) as [[a|] d1].
Qed.

(** ** Heads *)

Lemma read_arg_spec arg rest v :
  bytes_ok arg -> 0 <= v -> v * 2 ^ (8 * zlen arg) + be_value arg < 2 ^ 64 ->
  read_arg (length arg) v (mk_cdec (arg ++ rest) false) =
    (Some (be_value_from v arg), mk_cdec rest false).
Proof.
  intros Ha. revert v. induction Ha as [|b arg Hb Ha IH]; intros v Hv Hbnd; [done|].
  unfold be_value in Hbnd. cbn [be_value_from] in Hbnd. rewrite be_value_from_lin, pow2_cons in Hbnd.
  pose proof (pow2_zlen_pos arg). pose proof (be_value_range _ Ha). unfold is_u8 in Hb.
  change (2 ^ 8) with 256 in Hb.
  cbn [length read_arg app be_value_from].
  erewrite sm_bind_run by reflexivity.
  replace (Z.lor (u64 (Z.shiftl v 8)) b) with (v * 256 + b).
  - apply IH; [lia|nia].
  - rewrite u64_small by (rewrite Z.shiftl_mul_pow2 by lia; unfold is_u64; change (2 ^ 8) with 256; nia).
    rewrite lor_shiftl_add_l by lia. done.
Qed.

Lemma ib_split mj ai : 0 <= mj -> 0 <= ai < 32 ->
  Z.shiftr (mj * 32 + ai) 5 = mj /\ Z.land (mj * 32 + ai) 31 = ai.
Proof.
  intros. split.
  - rewrite Z.shiftr_div_pow2 by lia. change (2 ^ 5) with 32. dlia.
  - change 31 with (2 ^ 5 - 1). rewrite land_ones_mod by lia. change (2 ^ 5) with 32. dlia.
Qed.

(** Number of argument bytes announced by the additional information. *)
Definition ai_len (ai : Z) : nat :=
  if ai <? 24 then 0 else if ai =? 24 then 1 else if ai =? 25 then 2
  else if ai =? 26 then 4 else 8.

Lemma ai_len_of v : ai_len (ai_of v) = arg_len v.
Proof. unfold ai_len, ai_of, arg_len. repeat case_cond; done || lia. Qed.

(** Reading an initial byte whose argument has [n] further bytes. *)
Lemma read_head_run mj ai arg rest :
  0 <= mj -> 0 <= ai < 28 -> bytes_ok arg ->
  length arg = ai_len ai ->
  read_head (mk_cdec ((mj * 32 + ai) :: arg ++ rest) false) =
    (Some (mj, ai, if ai <? 24 then ai else be_value arg), mk_cdec rest false).
Proof.
  intros Hmj Hai Ha Hl. unfold read_head, ai_len in *.
  erewrite sm_bind_run.
  2:{ unfold need, d_left. cbn [d_err d_cur orb]. rewrite zlen_cons.
      rewrite (proj2 (Z.ltb_ge _ 1)) by (pose proof (zlen_nonneg (arg ++ rest)); lia). done. }
  erewrite sm_bind_run by reflexivity. cbv zeta.
  destruct (ib_split mj ai) as [-> ->]; [lia..|].
  case_cond.
  { destruct arg; [done|discriminate Hl]. }
  assert (forall n, length arg = Z.to_nat n -> 1 <= n <= 8 ->
            (need n;; v ← read_arg (Z.to_nat n) 0; mret (mj, ai, v)) (mk_cdec (arg ++ rest) false) =
            (Some (mj, ai, be_value arg), mk_cdec rest false)) as Hrun.
  { intros n Hn Hn8. erewrite sm_bind_run.
    2:{ unfold need, d_left. cbn [d_err d_cur orb]. rewrite zlen_app.
        unfold zlen at 1. rewrite Hn, Z2Nat.id by lia.
        rewrite (proj2 (Z.ltb_ge _ n)) by (pose proof (zlen_nonneg rest); lia). done. }
    rewrite <- Hn. erewrite sm_bind_run; [reflexivity|].
    apply read_arg_spec; [done|lia|]. pose proof (be_value_range _ Ha).
    assert (2 ^ (8 * zlen arg) <= 2 ^ 64); [|lia].
    apply Z.pow_le_mono_r; [lia|]. unfold zlen. lia. }
  repeat match goal with |- context [ai =? ?x] => destruct (Z.eqb_spec ai x) end; subst;
    try (erewrite sm_bind_run by reflexivity; apply Hrun; [exact Hl|lia]).
  all: lia.
Qed.

Lemma ai_of_range v : is_u64 v -> 0 <= ai_of v < 28.
Proof. intros [? ?]. unfold ai_of. repeat case_cond; lia. Qed.

(** Reading back an encoded head. *)
Lemma read_head_enc mj v rest :
  0 <= mj < 8 -> is_u64 v ->
  read_head (mk_cdec (head_bytes mj v ++ rest) false) = (Some (mj, ai_of v, v), mk_cdec rest false).
Proof.
  intros Hm Hv. rewrite head_bytes_be by done. cbn [app].
  rewrite read_head_run; [|lia|by apply ai_of_range|by apply be_bytes_ok|].
  - do 3 f_equal. unfold ai_of, arg_len, is_u64 in *. repeat case_cond; try lia.
    all: apply be_value_bytes; lia.
  - by rewrite be_bytes_length, ai_len_of.
Qed.

(** A successful head read had enough bytes. *)
Lemma read_head_len m a l r d' :
  0 <= m -> 0 <= a < 32 -> read_head (mk_cdec ((m * 32 + a) :: l) false) = (Some r, d') ->
  a < 28 /\ (ai_len a <= length l)%nat.
Proof.
  intros Hm Ha Hr. unfold read_head in Hr.
  apply sm_bind_Some in Hr as ([] & d1 & E1 & Hr).
  unfold need in E1; case_cond_in E1; [discriminate E1|]. injection E1 as <-.
  apply sm_bind_Some in Hr as (b & d2 & E2 & Hr). injection E2 as <- <-. cbv zeta in Hr.
  destruct (ib_split m a) as [Hq1 Hq2]; [lia..|]. rewrite Hq1, Hq2 in Hr.
  unfold ai_len. case_cond; [lia|].
  apply sm_bind_Some in Hr as (n & d3 & E3 & Hr).
  apply sm_bind_Some in Hr as ([] & d4 & E4 & Hr). unfold need, d_left in E4.
  case_cond_in E4; [discriminate E4|].
  revert E3. repeat match goal with |- context [a =? ?x] => destruct (Z.eqb_spec a x) end;
    intros [= <- <-]; cbn [d_cur] in *; unfold zlen in *; bool_to_prop; lia.
Qed.

(** The value an argument holds, and the shortest argument that can hold it. *)
Lemma head_value_ok a arg :
  0 <= a -> bytes_ok arg -> length arg = ai_len a ->
  is_u64 (if a <? 24 then a else be_value arg) /\
  (arg_len (if a <? 24 then a else be_value arg)%Z <= length arg)%nat.
Proof.
  intros Ha Hok Hl. pose proof (be_value_range _ Hok) as Hbv. unfold zlen in Hbv.
  rewrite Hl in Hbv |- *. revert Hbv. unfold ai_len, arg_len, is_u64.
  generalize (be_value arg). intros v.
  repeat match goal with
  | |- context [a <? 24] => destruct (Z.ltb_spec a 24)
  | |- context [a =? ?x] => destruct (Z.eqb_spec a x)
  end; cbn [Z.of_nat Pos.of_succ_nat Pos.succ Z.mul Pos.mul Pos.add]; intros; repeat case_cond; lia.
Qed.

(** What a successful head read means for its input: the head found there is the
    initial byte and the argument, and it is no shorter than the encoder's. *)
Lemma read_head_inv d mj ai v d' :
  bytes_ok (d_cur d) -> read_head d = (Some (mj, ai, v), d') ->
  d_err d = false /\ d_err d' = false /\ 0 <= mj < 8 /\ 0 <= ai < 28 /\ is_u64 v /\
  (exists arg, d_cur d = (mj * 32 + ai) :: arg ++ d_cur d' /\
    (arg_len v <= length arg)%nat /\ v = (if ai <? 24 then ai else be_value arg) /\
    length arg = ai_len ai).
Proof.
  intros Hok Hr. destruct d as [l e].
  assert (e = false) as ->.
  { destruct e; [|done]. pose proof (strict_head (mk_cdec l true) eq_refl) as Hs.
    by rewrite Hr in Hs. }
  destruct l as [|ib l]; [by vm_compute in Hr|].
  cbn in Hok. apply bytes_ok_cons in Hok as [Hib Hl]. unfold is_u8 in Hib. change (2 ^ 8) with 256 in Hib.
  assert (exists m a, ib = m * 32 + a /\ 0 <= m < 8 /\ 0 <= a < 32) as (m & a & -> & Hm & Ha).
  { exists (ib / 32), (ib mod 32). dlia. }
  destruct (read_head_len m a l _ _ ltac:(lia) Ha Hr) as [Ha28 Hlen].
  rewrite <- (take_drop (ai_len a) l) in Hr.
  rewrite read_head_run in Hr; [|lia|lia|by apply bytes_ok_take|by rewrite length_take_le].
  injection Hr as <- <- <- <-. cbn [d_cur d_err].
  assert (bytes_ok (take (ai_len a) l)) as Hok by by apply bytes_ok_take.
  assert (length (take (ai_len a) l) = ai_len a) as Hk by by rewrite length_take_le.
  destruct (head_value_ok a _ ltac:(lia) Hok Hk) as [Hv Hlv].
  split; [done|]. split; [done|]. split; [lia|]. split; [lia|]. split; [done|].
  exists (take (ai_len a) l). by rewrite take_drop.
Qed.

(** ** Reading back what the encoder wrote *)

Lemma decodes_head mj v : 0 <= mj < 8 -> is_u64 v ->
  decodes 0 read_head (head_bytes mj v) (mj, ai_of v, v).
Proof. intros ?? rest _. by apply read_head_enc. Qed.

Lemma decodes_uint v : is_u64 v -> decodes 0 harp_cdec_uint (enc_uint v) v.
Proof.
  intros Hv rest _. unfold harp_cdec_uint, enc_uint.
  by erewrite sm_bind_run by (apply read_head_enc; [lia|done]).
Qed.

Lemma decodes_int v : - 2 ^ 63 <= v < 2 ^ 63 -> decodes 0 harp_cdec_int (enc_int v) v.
Proof.
  intros Hv rest _. unfold harp_cdec_int, enc_int.
  case_cond; (erewrite sm_bind_run by (apply read_head_enc; [lia|apply u64_range]));
    cbv beta iota; rewrite u64_small by ulia.
  - rewrite (proj2 (Z.eqb_neq 1 0)), Z.eqb_refl by lia.
    rewrite Z.gtb_ltb, (proj2 (Z.ltb_ge _ _)) by lia. cbv [mret SM_ret]. do 2 f_equal. f_equal. lia.
  - rewrite Z.eqb_refl, Z.gtb_ltb, (proj2 (Z.ltb_ge _ _)) by lia. done.
Qed.

Lemma decodes_string mj p : 0 <= mj < 8 -> zlen p < 2 ^ 64 ->
  decodes 0 (read_string mj) (head_bytes mj (zlen p) ++ p) p.
Proof.
  intros Hm Hp rest _. unfold read_string. pose proof (zlen_nonneg p). rewrite <- app_assoc.
  erewrite sm_bind_run by (apply read_head_enc; [lia|ulia]). cbv beta iota.
  erewrite sm_bind_run by reflexivity. rewrite Z.eqb_refl. unfold d_left. cbn [d_cur negb orb].
  rewrite zlen_app, Z.gtb_ltb, (proj2 (Z.ltb_ge _ _)) by (pose proof (zlen_nonneg rest); lia).
  unfold take_bytes, zlen. cbn [d_cur d_err]. rewrite Nat2Z.id.
  by rewrite take_app_length, drop_app_length.
Qed.

Lemma decodes_bytes p : zlen p < 2 ^ 64 -> decodes 0 harp_cdec_bytes (enc_bytes p) p.
Proof. apply decodes_string. lia. Qed.
Lemma decodes_text p : zlen p < 2 ^ 64 -> decodes 0 harp_cdec_text (enc_text p) p.
Proof. apply decodes_string. lia. Qed.

Lemma decodes_array n : is_u64 n -> decodes n harp_cdec_array (enc_array n) n.
Proof.
  intros Hn rest Hr. unfold harp_cdec_array, read_count.
  erewrite sm_bind_run by (apply read_head_enc; [lia|done]). cbv beta iota zeta.
  rewrite Z.eqb_refl. cbn [negb Z.eqb Pos.eqb]. erewrite sm_bind_run by reflexivity.
  unfold d_left. cbn [d_cur]. by rewrite Z.gtb_ltb, (proj2 (Z.ltb_ge _ _)) by lia.
Qed.

Lemma decodes_map n : 0 <= n < 2 ^ 63 -> decodes (2 * n) harp_cdec_map (enc_map n) n.
Proof.
  intros Hn rest Hr. unfold harp_cdec_map, read_count.
  erewrite sm_bind_run by (apply read_head_enc; [lia|ulia]). cbv beta iota zeta.
  rewrite Z.eqb_refl. cbn [negb]. erewrite sm_bind_run by reflexivity.
  unfold d_left. cbn [d_cur]. rewrite u64_small by ulia.
  by rewrite Z.gtb_ltb, (proj2 (Z.ltb_ge _ _)) by lia.
Qed.

Lemma decodes_bool v : decodes 0 harp_cdec_bool (enc_bool v) v.
Proof.
  intros rest _. unfold harp_cdec_bool, need, d_left, enc_bool. pose proof (zlen_nonneg rest).
  erewrite sm_bind_run.
  2:{ cbn [d_err d_cur app orb]. rewrite zlen_cons, (proj2 (Z.ltb_ge _ _)) by lia. done. }
  by destruct v.
Qed.

Lemma decodes_null : decodes 0 harp_cdec_null enc_null tt.
Proof.
  intros rest _. unfold harp_cdec_null, need, d_left, enc_null. pose proof (zlen_nonneg rest).
  erewrite sm_bind_run.
  2:{ cbn [d_err d_cur app orb]. rewrite zlen_cons, (proj2 (Z.ltb_ge _ _)) by lia. done. }
  done.
Qed.

#[export] Hint Resolve decodes_uint decodes_int decodes_bytes decodes_text decodes_array
  decodes_map decodes_bool decodes_null decodes_ret : dec.

(** An element loop reads back a list element by element. *)
Lemma decodes_for {A} (body : dec unit) (enc : A -> list Z) (l : list A) :
  (forall x, x ∈ l -> decodes 0 body (enc x) tt) ->
  decodes 0 (sm_for (zlen l) body) (flat_map enc l) tt.
Proof.
  intros Hb rest _. rewrite sm_for_nat. unfold zlen. rewrite Nat2Z.id. revert Hb.
  induction l as [|x l IH]; intros Hb; [done|].
  cbn [length loop_nat flat_map]. rewrite <- app_assoc.
  erewrite sm_bind_run.
  2:{ apply Hb; [by left|]. apply zlen_nonneg. }
  apply IH. intros y Hy. apply Hb. by right.
Qed.

(** ** Items *)

(** Structural induction that reaches the elements of arrays and maps. *)
Lemma item_ind' (P : item -> Prop) :
  (forall v, P (IUint v)) -> (forall v, P (INint v)) -> (forall p, P (IBytes p)) ->
  (forall p, P (IText p)) -> (forall l, Forall P l -> P (IArray l)) ->
  (forall l, Forall (fun kv => P kv.1 /\ P kv.2) l -> P (IMap l)) ->
  (forall t i, P i -> P (ITag t i)) -> (forall v, P (ISimple v)) ->
  (forall n a, P (IFloat n a)) -> forall i, P i.
Proof.
  intros Hu Hn Hb Ht Ha Hm Hg Hs Hf. fix IH 1.
  intros [v|v|p|p|l|l|t i|v|n a];
    [apply Hu|apply Hn|apply Hb|apply Ht|apply Ha|apply Hm|apply Hg|apply Hs|apply Hf].
  - induction l as [|x l IHl]; constructor; [apply IH|apply IHl].
  - induction l as [|[k v] l IHl]; constructor; [split; apply IH|apply IHl].
  - apply IH.
Qed.

Lemma skip_leaf (k : nat) mj v : 0 <= mj < 8 -> is_u64 v -> mj = 0 \/ mj = 1 ->
  decodes 0 (skip_item (S k)) (head_bytes mj v) tt.
Proof.
  intros Hm Hv Hmj rest _. cbn [skip_item].
  erewrite sm_bind_run by (apply read_head_enc; [lia|done]). cbv beta iota.
  by destruct Hmj as [-> | ->].
Qed.

Lemma skip_string (k : nat) mj p : mj = 2 \/ mj = 3 -> zlen p < 2 ^ 64 ->
  decodes 0 (skip_item (S k)) (head_bytes mj (zlen p) ++ p) tt.
Proof.
  intros Hm Hp rest _. cbn [skip_item]. pose proof (zlen_nonneg p). pose proof (zlen_nonneg rest).
  rewrite <- app_assoc.
  erewrite sm_bind_run by (apply read_head_enc; [lia|ulia]). cbv beta iota.
  replace ((mj =? 0) || (mj =? 1)) with false by (by destruct Hm as [-> | ->]).
  replace ((mj =? 2) || (mj =? 3)) with true by (by destruct Hm as [-> | ->]).
  erewrite sm_bind_run by reflexivity. unfold d_left. cbn [d_cur].
  rewrite zlen_app, Z.gtb_ltb, (proj2 (Z.ltb_ge _ _)) by lia.
  unfold take_bytes, zlen, mbind, SM_bind. cbn [d_cur d_err]. rewrite Nat2Z.id.
  by rewrite drop_app_length.
Qed.

Lemma skip_major7 (k : nat) ai arg : 0 <= ai < 28 -> bytes_ok arg -> length arg = ai_len ai ->
  decodes 0 (skip_item (S k)) ((224 + ai) :: arg) tt.
Proof.
  intros Hai Ha Hl rest _. cbn [skip_item app]. change 224 with (7 * 32).
  by erewrite sm_bind_run by (apply read_head_run; done || lia).
Qed.

Lemma le_list_max x l : x ∈ l -> (x <= list_max l)%nat.
Proof.
  intros Hx%list_elem_of_In. pose proof (proj1 (list_max_le l (list_max l)) (le_n _)) as H.
  rewrite List.Forall_forall in H. auto.
Qed.

(** Skipping a container skips its elements one after the other. *)
Lemma skip_elems (k : nat) mj n (l : list item) :
  mj = 4 /\ zlen l = n \/ mj = 5 /\ zlen l = n * 2 -> 0 <= n < 2 ^ 63 ->
  (forall x, x ∈ l -> decodes 0 (skip_item k) (enc_item x) tt) ->
  decodes 0 (skip_item (S k)) (head_bytes mj n ++ flat_map enc_item l) tt.
Proof.
  intros Hmj Hn Hl rest Hr. cbn [skip_item]. rewrite <- app_assoc.
  erewrite sm_bind_run by (apply read_head_enc; [lia|ulia]). cbv beta iota.
  destruct Hmj as [[-> <-]|[-> Hz]]; cbn [Z.eqb Pos.eqb orb].
  - by apply decodes_for.
  - rewrite u64_small, <- Hz by ulia. by apply decodes_for.
Qed.

(** The keys and values of a map, in wire order. *)
Definition flat_pairs (l : list (item * item)) : list item := flat_map (fun kv => [kv.1; kv.2]) l.

Lemma flat_pairs_length l : zlen (flat_pairs l) = zlen l * 2.
Proof. unfold zlen, flat_pairs. induction l; cbn [flat_map length app]; lia. Qed.

Lemma flat_pairs_enc l :
  flat_map (fun kv => enc_item kv.1 ++ enc_item kv.2) l = flat_map enc_item (flat_pairs l).
Proof. induction l as [|kv l IHl]; cbn [flat_map flat_pairs app]; [done|]. by rewrite IHl, app_assoc. Qed.

(** Skipping an item of depth [d] needs at least [d + 1] levels. *)
Lemma decodes_skip i : forall k, item_ok i = true -> (item_depth i < k)%nat ->
  decodes 0 (skip_item k) (enc_item i) tt.
Proof.
  induction i as [v|v|p|p|l IH|l IH|t i IH|v|n a] using item_ind'; intros [|k] Hok Hd; try lia;
    cbn [item_ok enc_item item_depth] in *.
  - unfold u64_b in Hok. bool_to_prop. apply skip_leaf; ulia.
  - unfold u64_b in Hok. bool_to_prop. apply skip_leaf; ulia.
  - bool_to_prop. apply skip_string; auto.
  - bool_to_prop. apply skip_string; auto.
  - apply andb_prop in Hok as [Hn Hall]. bool_to_prop. rewrite List.forallb_forall in Hall.
    pose proof (zlen_nonneg l). apply skip_elems; [by left|lia|]. intros x Hx%list_elem_of_In.
    rewrite List.Forall_forall in IH. apply IH; auto.
    set (f := fun x => _) in Hd. pose proof (le_list_max (f x) (map f l)) as Hle.
    rewrite list_elem_of_In in Hle. specialize (Hle (List.in_map f _ _ Hx)). subst f. cbv beta in Hle. lia.
  - apply andb_prop in Hok as [Hn Hall]. bool_to_prop. rewrite List.forallb_forall in Hall.
    pose proof (zlen_nonneg l). rewrite flat_pairs_enc.
    apply skip_elems; [right; split; [done|apply flat_pairs_length]|lia|].
    intros x Hx%list_elem_of_In. unfold flat_pairs in Hx. apply in_flat_map in Hx as (kv & Hkv & Hx).
    rewrite List.Forall_forall in IH. destruct (IH _ Hkv) as [IH1 IH2].
    specialize (Hall _ Hkv). bool_to_prop. set (f := fun kv : item * item => _) in Hd.
    pose proof (le_list_max (f kv) (map f l)) as Hle. rewrite list_elem_of_In in Hle.
    specialize (Hle (List.in_map f _ _ Hkv)). subst f. cbv beta in Hle.
    destruct Hx as [<-|[<-|[]]]; [apply IH1|apply IH2]; done || lia.
  - unfold u64_b in Hok. bool_to_prop. intros rest Hr. cbn [skip_item]. rewrite <- app_assoc.
    erewrite sm_bind_run by (apply read_head_enc; [lia|ulia]). cbv beta iota. cbn [Z.eqb Pos.eqb orb].
    apply IH; done || lia.
  - bool_to_prop. apply (skip_major7 k v []); [lia|auto with harp|]. unfold ai_len.
    by rewrite (proj2 (Z.ltb_lt v 24)) by lia.
  - rewrite !orb_true_iff, !bool_decide_eq_true in Hok.
    destruct Hok as [[-> | ->] | ->]; apply skip_major7; try (apply be_bytes_ok); done || cbn; lia || done.
Qed.

(** ** Too deep *)

Definition rejects {A} (m : dec A) (bs : list Z) : Prop :=
  forall rest, (m (mk_cdec (bs ++ rest) false)).1 = None.

(** An element loop fails at the first element that is rejected. *)
Lemma rejects_for {A} (body : dec unit) (enc : A -> list Z) (good : A -> bool) (l : list A) :
  (forall x, x ∈ l -> good x = true -> decodes 0 body (enc x) tt) ->
  (forall x, x ∈ l -> good x = false -> rejects body (enc x)) ->
  forallb good l = false -> rejects (sm_for (zlen l) body) (flat_map enc l).
Proof.
  intros Hg Hb Hl rest. rewrite sm_for_nat. unfold zlen. rewrite Nat2Z.id. revert Hg Hb Hl.
  induction l as [|x l IH]; intros Hg Hb Hl; [done|].
  cbn [length loop_nat flat_map forallb] in *. rewrite <- app_assoc. destruct (good x) eqn:E.
  - erewrite sm_bind_run.
    2:{ apply Hg; [by left|done|apply zlen_nonneg]. }
    apply IH; [intros; apply Hg|intros; apply Hb|done]; done || by right.
  - pose proof (Hb x ltac:(by left) E (flat_map enc l ++ rest)) as Hx.
    unfold mbind, SM_bind. by destruct (body _) as [[[]|] s1].
Qed.

Lemma list_max_exceeds (l : list nat) k :
  (k <= list_max l)%nat -> (0 < k)%nat -> exists x, x ∈ l /\ (k <= x)%nat.
Proof.
  intros Hk Hpos. induction l as [|y l IH]; [cbn in Hk; lia|].
  change (k <= Nat.max y (list_max l))%nat in Hk.
  destruct (Nat.le_gt_cases k y); [exists y; split; [by left|done]|].
  destruct IH as (x & ? & ?); [lia|]. exists x. split; [by right|done].
Qed.

Lemma rejects_elems (k : nat) mj n (l : list item) :
  mj = 4 /\ zlen l = n \/ mj = 5 /\ zlen l = n * 2 -> 0 <= n < 2 ^ 63 ->
  (forall x, x ∈ l -> item_ok x = true) ->
  (forall x, x ∈ l -> (k <= item_depth x)%nat -> rejects (skip_item k) (enc_item x)) ->
  (exists x, x ∈ l /\ (k <= item_depth x)%nat) ->
  rejects (skip_item (S k)) (head_bytes mj n ++ flat_map enc_item l).
Proof.
  intros Hmj Hn Hok Hl (x0 & Hx0 & Hd) rest. cbn [skip_item]. rewrite <- app_assoc.
  erewrite sm_bind_run by (apply read_head_enc; [lia|ulia]). cbv beta iota.
  assert (rejects (sm_for (zlen l) (skip_item k)) (flat_map enc_item l)) as Hrej.
  { apply (rejects_for _ _ (fun x => Nat.ltb (item_depth x) k)).
    - intros x Hx Hlt%Nat.ltb_lt. apply decodes_skip; auto.
    - intros x Hx Hge%Nat.ltb_ge. auto.
    - apply not_true_is_false. rewrite List.forallb_forall. intros Hall.
      apply list_elem_of_In in Hx0. specialize (Hall _ Hx0). apply Nat.ltb_lt in Hall. lia. }
  destruct Hmj as [[-> <-]|[-> Hz]]; cbn [Z.eqb Pos.eqb orb]; [apply Hrej|].
  rewrite u64_small, <- Hz by ulia. apply Hrej.
Qed.

(** An item nested at least as deep as the levels left is rejected. *)
Lemma rejects_skip i : forall k, item_ok i = true -> (k <= item_depth i)%nat ->
  rejects (skip_item k) (enc_item i).
Proof.
  induction i as [v|v|p|p|l IH|l IH|t i IH|v|n a] using item_ind'; intros [|k] Hok Hd; try done;
    cbn [item_ok enc_item item_depth] in *; try lia.
  - apply andb_prop in Hok as [Hn Hall]. bool_to_prop. rewrite List.forallb_forall in Hall.
    rewrite List.Forall_forall in IH. pose proof (zlen_nonneg l).
    apply list_max_exceeds in Hd as (d & (x & -> & Hx)%list_elem_of_fmap & Hd); [|lia].
    apply rejects_elems; [by left|lia|..].
    + intros y Hy%list_elem_of_In. auto.
    + intros y Hy%list_elem_of_In. auto.
    + exists x. split; [done|lia].
  - apply andb_prop in Hok as [Hn Hall]. bool_to_prop. rewrite List.forallb_forall in Hall.
    rewrite List.Forall_forall in IH. pose proof (zlen_nonneg l). rewrite flat_pairs_enc.
    apply list_max_exceeds in Hd as (d & (kv & -> & Hx)%list_elem_of_fmap & Hd); [|lia].
    assert (forall y, y ∈ flat_pairs l -> exists kv, In kv l /\ (y = kv.1 \/ y = kv.2)) as Hfp.
    { intros y (p & Hp & Hy)%list_elem_of_In%in_flat_map. exists p. split; [done|].
      destruct Hy as [<-|[<-|[]]]; auto. }
    apply rejects_elems; [right; split; [done|apply flat_pairs_length]|lia|..].
    + intros y (p & Hp & Hy)%Hfp. specialize (Hall _ Hp). bool_to_prop. by destruct Hy as [-> | ->].
    + intros y (p & Hp & Hy)%Hfp. specialize (Hall _ Hp). bool_to_prop.
      destruct (IH _ Hp) as [IH1 IH2]. destruct Hy as [-> | ->]; auto.
    + assert (kv.1 ∈ flat_pairs l /\ kv.2 ∈ flat_pairs l) as [H1 H2].
      { apply list_elem_of_In in Hx. split; apply list_elem_of_In, in_flat_map; exists kv; cbn; auto. }
      destruct (Nat.max_spec (item_depth kv.1) (item_depth kv.2)) as [[? Hm]|[? Hm]];
        [exists kv.2|exists kv.1]; (split; [done|lia]).
  - unfold u64_b in Hok. bool_to_prop. intros rest. cbn [skip_item]. rewrite <- app_assoc.
    erewrite sm_bind_run by (apply read_head_enc; [lia|ulia]). cbv beta iota. cbn [Z.eqb Pos.eqb orb].
    apply IH; done || lia.
Qed.

(** ** Truncation *)

Lemma extends_ret {A} (a : A) : extends (mret a).
Proof. by intros l e b l' e' x [= -> -> ->]. Qed.

Lemma extends_err {A} : extends (@dec_err A).
Proof. done. Qed.

Lemma extends_bind {A B} (m : dec A) (k : A -> dec B) :
  extends m -> (forall a, extends (k a)) -> extends (m ≫= k).
Proof.
  intros Hm Hk l e b l' e' x (a & [l1 e1] & H1 & H2)%sm_bind_Some.
  erewrite sm_bind_run by (by apply Hm). by apply Hk.
Qed.

Lemma extends_need n : extends (need n).
Proof.
  intros l e a l' e' x. unfold need, d_left. cbn [d_cur d_err].
  destruct e; [done|]. cbn [orb].
  case_cond; [done|]. intros [= <- <- <-]. rewrite zlen_app.
  by rewrite (proj2 (Z.ltb_ge _ _)) by (pose proof (zlen_nonneg x); lia).
Qed.

Lemma extends_next : extends next_byte.
Proof. intros [|b l] e a l' e' x; [done|]. by intros [= <- <- <-]. Qed.

Lemma extends_arg n v : extends (read_arg n v).
Proof.
  revert v. induction n as [|n IH]; intros v; [apply extends_ret|].
  cbn [read_arg]. apply extends_bind; [apply extends_next|]. intros. apply IH.
Qed.

Lemma extends_head : extends read_head.
Proof.
  unfold read_head. apply extends_bind; [apply extends_need|intros _].
  apply extends_bind; [apply extends_next|intros ib]. cbv zeta. case_cond; [apply extends_ret|].
  apply extends_bind; [repeat case_cond; apply extends_ret || apply extends_err|intros n].
  apply extends_bind; [apply extends_need|intros _].
  apply extends_bind; [apply extends_arg|intros v]. apply extends_ret.
Qed.

Lemma extends_take n {A} (r : list Z -> A) :
  extends (d ← sm_get; if n >? d_left d then dec_err else p ← take_bytes n; mret (r p)).
Proof.
  intros l e a l' e' x. unfold mbind, SM_bind, sm_get, take_bytes, d_left. cbn [d_cur d_err].
  rewrite zlen_app. pose proof (zlen_nonneg x). rewrite !Z.gtb_ltb.
  case_cond; [done|]. rewrite (proj2 (Z.ltb_ge _ _)) by lia. cbn [d_cur d_err].
  intros [= <- <- <-]. unfold zlen in *. by rewrite take_app_le, drop_app_le by lia.
Qed.

Lemma extends_for n (m : dec unit) : extends m -> extends (sm_for n m).
Proof.
  intros Hm l e a l' e' x. rewrite !sm_for_nat. revert l e a l' e' x.
  induction (Z.to_nat n) as [|k IH]; [apply extends_ret|]. cbn [loop_nat]. by apply extends_bind.
Qed.

Lemma extends_skip_item k : extends (skip_item k).
Proof.
  induction k as [|k IH]; cbn [skip_item]; [apply extends_err|].
  apply extends_bind; [apply extends_head|]. intros [[mj ai] v].
  repeat case_cond; auto using @extends_ret, @extends_err, extends_for.
  apply (extends_take v (fun _ => tt)).
Qed.

(** Progress: a successful skip consumes at least one byte. *)
Lemma skip_item_err k d : d_err d = true -> (skip_item k d).1 = None.
Proof. destruct k; [done|]. cbn [skip_item]. by apply strict_bind, strict_head. Qed.

(** ** Properties *)

(** heads are canonical.  For every major type and every [uint64_t] argument
    the encoder's head reads back as exactly that argument with exactly its bytes
    consumed; and any head the decoder accepts for the same argument is at least
    as long, so the encoder's form is the shortest (RFC 8949 deterministic
    encoding). *)
Theorem cbor_head_canonical (major v : Z) (rest : list Z) :
  0 <= major < 8 -> is_u64 v ->
  read_head (mk_cdec (head_bytes major v ++ rest) false) = (Some (major, ai_of v, v), mk_cdec rest false) /\
  (forall d ai d', bytes_ok (d_cur d) -> read_head d = (Some (major, ai, v), d') ->
     exists hd, d_cur d = hd ++ d_cur d' /\ (length (head_bytes major v) <= length hd)%nat).
Proof.
  intros Hm Hv. split; [by apply read_head_enc|].
  intros d ai d' Hok Hr. destruct (read_head_inv _ _ _ _ _ Hok Hr) as (_ & _ & _ & _ & _ & arg & Hd & Hl & _).
  exists ((major * 32 + ai) :: arg). rewrite head_bytes_length. cbn [length app]. split; [done|lia].
Qed.

Lemma cbor_head_canonical_witness :
  read_head (mk_cdec (head_bytes 4 500 ++ [7]) false) = (Some (4, 25, 500), mk_cdec [7] false) /\
  exists hd, [0x9a; 0; 0; 1; 0xf4] = hd ++ [] /\ (3 <= length hd)%nat.
Proof.
  destruct (cbor_head_canonical 4 500 [7]) as [H1 H2]; [lia|unfold is_u64; lia|].
  split; [exact H1|]. apply (H2 (mk_cdec [0x9a; 0; 0; 1; 0xf4] false) 26 (mk_cdec [] false)).
  - repeat constructor; unfold is_u8; cbn; lia.
  - vm_compute. reflexivity.
Defined.

(** signed integers round-trip over the whole [int64_t] range, [INT64_MIN]
    included, and the decoder rejects exactly the CBOR integers outside of it:
    an unsigned or negative head whose argument exceeds [INT64_MAX] fails with
    the error flag set. *)
Theorem cbor_int_roundtrip (rest : list Z) :
  (forall v, - 2 ^ 63 <= v < 2 ^ 63 ->
     harp_cdec_int (mk_cdec (enc_int v ++ rest) false) = (Some v, mk_cdec rest false)) /\
  (forall major u, major = 0 \/ major = 1 -> 2 ^ 63 <= u < 2 ^ 64 ->
     harp_cdec_int (mk_cdec (head_bytes major u ++ rest) false) = (None, mk_cdec rest true)).
Proof.
  split.
  - intros v Hv. apply decodes_int; [done|]. apply zlen_nonneg.
  - intros major u Hm Hu. unfold harp_cdec_int.
    erewrite sm_bind_run by (apply read_head_enc; [lia|ulia]). cbv beta iota.
    rewrite Z.gtb_ltb, (proj2 (Z.ltb_lt _ _)) by lia. by destruct Hm as [-> | ->].
Qed.

Lemma cbor_int_roundtrip_witness :
  harp_cdec_int (mk_cdec (enc_int (- 2 ^ 63) ++ [1]) false) = (Some (- 2 ^ 63), mk_cdec [1] false) /\
  harp_cdec_int (mk_cdec (head_bytes 1 (2 ^ 63) ++ [1]) false) = (None, mk_cdec [1] true).
Proof.
  destruct (cbor_int_roundtrip [1]) as [H1 H2]. split; [apply H1; lia|apply H2; [by right|lia]].
Defined.

(** skipping.  A well-formed item is skipped exactly - whatever follows it -
    when it is nested at most [HARP_CBOR_MAX_DEPTH] = 32 levels deep, and is
    rejected when it is nested deeper; [harp_cdec_span] returns its encoding. *)
Theorem cdec_skip_exact (i : item) (rest : list Z) :
  item_ok i = true ->
  if (item_depth i <=? HARP_CBOR_MAX_DEPTH)%nat
  then harp_cdec_skip (mk_cdec (enc_item i ++ rest) false) = (Some tt, mk_cdec rest false) /\
       harp_cdec_span (mk_cdec (enc_item i ++ rest) false) = (Some (enc_item i), mk_cdec rest false)
  else (harp_cdec_skip (mk_cdec (enc_item i ++ rest) false)).1 = None.
Proof.
  intros Hok. destruct (Nat.leb_spec (item_depth i) HARP_CBOR_MAX_DEPTH) as [Hd|Hd].
  - assert (harp_cdec_skip (mk_cdec (enc_item i ++ rest) false) = (Some tt, mk_cdec rest false)) as E.
    { apply decodes_skip; [done|lia|apply zlen_nonneg]. }
    split; [done|]. unfold harp_cdec_span. rewrite E. cbn [d_cur]. do 2 f_equal.
    rewrite length_app, Nat.add_sub. by rewrite take_app_length.
  - apply rejects_skip; done || lia.
Qed.

(** no item can be skipped in part: on every strict prefix of the encoding
    of a well-formed item (of depth at most 32) [harp_cdec_skip] fails with the
    error flag set, so a truncated message is never taken for a shorter one. *)
Theorem cdec_skip_truncated (i : item) (p q : list Z) :
  item_ok i = true -> (item_depth i <= HARP_CBOR_MAX_DEPTH)%nat ->
  enc_item i = p ++ q -> q <> [] ->
  exists d', harp_cdec_skip (harp_cdec_init p) = (None, d') /\ d_err d' = true.
Proof.
  intros Hok Hd Hpq Hq. unfold harp_cdec_init.
  destruct (harp_cdec_skip (mk_cdec p false)) as [[[]|] [l e]] eqn:E.
  - exfalso. apply (extends_skip_item _ _ _ _ _ _ q) in E. rewrite <- Hpq in E.
    pose proof (decodes_skip i (S HARP_CBOR_MAX_DEPTH) Hok ltac:(lia) [] (zlen_nonneg [])) as E'.
    rewrite app_nil_r, E in E'. injection E' as E'. by apply app_eq_nil in E' as [_ ->].
  - exists (mk_cdec l e). split; [done|]. by apply advances_skip in E as [_ ->].
Qed.

Definition deep_item (n : nat) : item := Nat.iter n (fun i => IArray [i]) (IMap [(IUint 1, IText [65; 66])]).

Lemma cdec_skip_exact_witness :
  (harp_cdec_skip (mk_cdec (enc_item (deep_item 31) ++ [1]) false) = (Some tt, mk_cdec [1] false) /\
   harp_cdec_span (mk_cdec (enc_item (deep_item 31) ++ [1]) false) =
     (Some (enc_item (deep_item 31)), mk_cdec [1] false)) /\
  (harp_cdec_skip (mk_cdec (enc_item (deep_item 32) ++ [1]) false)).1 = None.
Proof.
  split.
  - exact (cdec_skip_exact (deep_item 31) [1] eq_refl).
  - exact (cdec_skip_exact (deep_item 32) [1] eq_refl).
Defined.

Lemma cdec_skip_truncated_witness :
  exists d', harp_cdec_skip (harp_cdec_init [0xa1; 0x01; 0x62; 65]) = (None, d') /\ d_err d' = true.
Proof.
  apply (cdec_skip_truncated (deep_item 0) [0xa1; 0x01; 0x62; 65] [66]).
  - reflexivity.
  - vm_compute. lia.
  - reflexivity.
  - discriminate.
Defined.

(** container counts.  A count accepted by [harp_cdec_array] is bounded by
    the bytes left, so a caller can never be told to expect more elements than
    the message can hold; for maps the bound of two bytes per pair holds for
    every count below [2^63] only, because the product [n * 2] is computed
    modulo [2^64]: counts from [2^63] up are accepted on the strength of their
    low bits. *)
Theorem cdec_count_bounds (d : cdec) (n : Z) (d' : cdec) :
  bytes_ok (d_cur d) ->
  (harp_cdec_array d = (Some n, d') -> 0 <= n <= d_left d') /\
  (harp_cdec_map d = (Some n, d') ->
     0 <= n < 2 ^ 64 /\ (n < 2 ^ 63 -> 2 * n <= d_left d') /\
     (2 ^ 63 <= n -> 2 * n - 2 ^ 64 <= d_left d')).
Proof.
  intros Hok. split; intros ([[mj ai] v] & d1 & H1 & H2)%sm_bind_Some;
    destruct (read_head_inv _ _ _ _ _ Hok H1) as (_ & _ & _ & _ & Hv & _); cbv beta iota zeta in H2.
  - case_cond_in H2; [discriminate H2|]. cbn [Z.eqb Pos.eqb] in H2.
    apply sm_bind_Some in H2 as (d2 & d3 & [= <- <-] & H2). rewrite Z.gtb_ltb in H2.
    case_cond_in H2; [discriminate H2|]. injection H2 as <- <-. ulia.
  - case_cond_in H2; [discriminate H2|]. cbn [Z.eqb Pos.eqb] in H2.
    apply sm_bind_Some in H2 as (d2 & d3 & [= <- <-] & H2). rewrite Z.gtb_ltb in H2.
    case_cond_in H2; [discriminate H2|]. injection H2 as <- <-. unfold_u.
    split_and!; try lia; intros.
    + rewrite Z.mod_small in *; lia.
    + assert ((v * 2) mod 2 ^ 64 = v * 2 - 2 ^ 64); [|lia].
      symmetry. apply (Z.mod_unique _ _ 1); lia.
Qed.

Lemma cdec_count_bounds_witness :
  (0 <= 2 <= 2) /\ (0 <= 2 ^ 63 < 2 ^ 64 /\ 0 <= 0).
Proof.
  split.
  - apply (cdec_count_bounds (mk_cdec [0x82; 1; 2] false) 2 (mk_cdec [1; 2] false)).
    + repeat constructor; cbn; unfold is_u8; lia.
    + vm_compute. reflexivity.
  - destruct (cdec_count_bounds (mk_cdec [0xbb; 0x80; 0; 0; 0; 0; 0; 0; 0] false) (2 ^ 63) (mk_cdec [] false))
      as [_ H].
    + repeat constructor; cbn; unfold is_u8; lia.
    + destruct H as (H1 & _ & H2); [vm_compute; reflexivity|]. split; [exact H1|].
      exact (H2 (Z.le_refl _)).
Defined.

(** the count of a map is not bounded by the message: the nine bytes
    [bb 80 00 00 00 00 00 00 00] - a map header announcing [2^63] pairs with no
    byte behind it - are accepted by [harp_cdec_map], and [harp_cdec_skip] takes
    them for a complete, empty item. *)
Theorem cdec_map_count_overflow :
  let l := [0xbb; 0x80; 0; 0; 0; 0; 0; 0; 0] in
  harp_cdec_map (harp_cdec_init l) = (Some (2 ^ 63), mk_cdec [] false) /\
  harp_cdec_skip (harp_cdec_init l) = (Some tt, mk_cdec [] false).
Proof. split; vm_compute; reflexivity. Qed.
