(* ===== verification/CborFloat.v ===== *)
(** * CBOR floats ([core/src/cbor.c], [half_from_float], [harp_cbor_float],
    [half_to_double], [harp_cdec_float])

    A C [double] is its 64-bit IEEE 754 pattern, a [float] its 32-bit pattern (the
    code itself looks at them through [memcpy]).  The language's conversions are
    modelled on the patterns: [f64_to_f32] rounds to nearest, ties to even,
    [f32_to_f64] is exact, [f64_eq] is the [==] of [double].  [ldexp(m, e)] is only
    used where its result is a normal double. *)
From Stdlib Require Import ZArith Lia List.
From stdpp Require Import base tactics list numbers.
From S2P Require Import Prelude.
From S2P Require Import Cbuf.
From S2P Require Import CborEnc.
From S2P Require Import CborDec.

Open Scope Z_scope.
Open Scope list_scope.

(** ** Patterns *)

Definition f64_sign (v : Z) : Z := v / 2 ^ 63.
Definition f64_exp (v : Z) : Z := (v / 2 ^ 52) mod 2 ^ 11.
Definition f64_man (v : Z) : Z := v mod 2 ^ 52.
Definition f32_sign (x : Z) : Z := x / 2 ^ 31.
Definition f32_exp (x : Z) : Z := (x / 2 ^ 23) mod 2 ^ 8.
Definition f32_man (x : Z) : Z := x mod 2 ^ 23.

Definition f64_isnan (v : Z) : bool := (f64_exp v =? 2047) && negb (f64_man v =? 0).
Definition f32_isnan (x : Z) : bool := (f32_exp x =? 255) && negb (f32_man x =? 0).
Definition f32_isinf (x : Z) : bool := (f32_exp x =? 255) && (f32_man x =? 0).
Definition f64_iszero (v : Z) : bool := (f64_exp v =? 0) && (f64_man v =? 0).

(** [a == b] on doubles. *)
Definition f64_eq (a b : Z) : bool :=
  negb (f64_isnan a) && negb (f64_isnan b) && ((a =? b) || (f64_iszero a && f64_iszero b)).

(** The magnitude bits of the double [m * 2^e] (a normal number, or 0 for [m = 0]). *)
Definition f64_of_dyadic (m e : Z) : Z :=
  if m =? 0 then 0
  else let k := Z.log2 m in (e + k + 1022) * 2 ^ 52 + m * 2 ^ (52 - k).

(** Significand and exponent of a finite pattern: its magnitude is [m * 2^e]. *)
Definition f32_sig (x : Z) : Z := if f32_exp x =? 0 then f32_man x else 2 ^ 23 + f32_man x.
Definition f32_pow (x : Z) : Z := Z.max (f32_exp x) 1 - 150.
Definition f64_sig (v : Z) : Z := if f64_exp v =? 0 then f64_man v else 2 ^ 52 + f64_man v.
Definition f64_pow (v : Z) : Z := Z.max (f64_exp v) 1 - 1075.

(** [(double)f] *)
Definition f32_to_f64 (x : Z) : Z :=
  f32_sign x * 2 ^ 63 +
  (if f32_exp x =? 255 then
     2047 * 2 ^ 52 + (if f32_man x =? 0 then 0 else Z.lor (2 ^ 51) (f32_man x * 2 ^ 29))
   else f64_of_dyadic (f32_sig x) (f32_pow x)).

(** [m / 2^k] rounded to nearest, ties to even. *)
Definition rne (m k : Z) : Z :=
  if k <=? 0 then m * 2 ^ (- k)
  else
    let q := m / 2 ^ k in
    let r := m mod 2 ^ k in
    if (2 ^ (k - 1) <? r) || ((r =? 2 ^ (k - 1)) && Z.odd q) then q + 1 else q.

(** [(float)v] *)
Definition f64_to_f32 (v : Z) : Z :=
  f64_sign v * 2 ^ 31 +
  (if f64_exp v =? 2047 then
     255 * 2 ^ 23 + (if f64_man v =? 0 then 0 else Z.lor (2 ^ 22) (f64_man v / 2 ^ 29))
   else if f64_sig v =? 0 then 0
   else
     let l := Z.max (f64_pow v + Z.log2 (f64_sig v) - 23) (-149) in
     Z.min ((l + 149) * 2 ^ 23 + rne (f64_sig v) (l - f64_pow v)) (255 * 2 ^ 23)).

(** ** The code *)

(** [half_from_float]: [Some out] iff the float is exactly a half. *)
Definition half_from_float (x : Z) : option Z :=
  let sign := Z.land (Z.shiftr x 16) 0x8000 in
  if f32_isnan x then Some 0x7e00
  else if f32_isinf x then Some (Z.lor sign 0x7c00)
  else if Z.land x 0x7fffffff =? 0 then Some sign
  else
    let unb := Z.land (Z.shiftr x 23) 0xff - 127 in
    let man := Z.land x 0x7fffff in
    if (unb >=? -14) && (unb <=? 15) then
      if negb (Z.land man 0x1fff =? 0) then None
      else Some (u16 (Z.lor (Z.lor sign (Z.shiftl (unb + 15) 10)) (Z.shiftr man 13)))
    else if unb <? -14 then
      let shift := 13 + (-14 - unb) in
      let full := Z.lor 0x800000 man in
      if shift >=? 24 then None
      else if negb (Z.land full (Z.shiftl 1 shift - 1) =? 0) then None
      else
        let hm := Z.shiftr full shift in
        if (hm =? 0) || (hm >? 0x3ff) then None
        else Some (u16 (Z.lor sign hm))
    else None.

(** The bytes [harp_cbor_float] puts for [v]. *)
Definition enc_float (v : Z) : list Z :=
  let f := f64_to_f32 v in
  if f64_eq (f32_to_f64 f) v || f64_isnan v then
    match half_from_float f with
    | Some h16 => [0xf9; u8 (Z.shiftr h16 8); u8 h16]
    | None => [0xfa; u8 (Z.shiftr f 24); u8 (Z.shiftr f 16); u8 (Z.shiftr f 8); u8 f]
    end
  else 0xfb :: map (fun i => u8 (Z.shiftr v (56 - 8 * i))) [0; 1; 2; 3; 4; 5; 6; 7].

Definition harp_cbor_float {R : Realloc} (b : cbuf) (v : Z) : cbuf := harp_cbuf_put b (enc_float v).

Definition half_to_double (h : Z) : Z :=
  let sign := Z.land (Z.shiftr h 15) 1 in
  let exp := Z.land (Z.shiftr h 10) 0x1f in
  let man := Z.land h 0x3ff in
  let v := if exp =? 0 then f64_of_dyadic man (-24)
           else if exp =? 31 then
             if negb (man =? 0) then 0x7ff8 * 2 ^ 48 else 0x7ff * 2 ^ 52
           else f64_of_dyadic (1024 + man) (exp - 25) in
  if negb (sign =? 0) then v + 2 ^ 63 else v.

Definition harp_cdec_float : dec Z :=
  '(major, ai, u) ← read_head;
  if negb (major =? 7) then dec_err
  else if ai =? 25 then mret (half_to_double (u16 u))
  else if ai =? 26 then mret (f32_to_f64 (u32 u))
  else if ai =? 27 then mret u
  else dec_err.

Definition f64_qnan : Z := 0x7ff8 * 2 ^ 48.

(** ** Fields *)

Lemma land_pow2 x n : 0 <= n -> Z.land x (2 ^ n) = (x / 2 ^ n) mod 2 * 2 ^ n.
Proof.
  intros Hn. apply Z.bits_inj'. intros i Hi. rewrite Z.land_spec.
  rewrite Z.pow2_bits_eqb by done. change 2 with (2 ^ 1) at 2. rewrite <- Z.shiftl_mul_pow2 by done.
  rewrite Z.shiftl_spec by done. destruct (Z.eqb_spec n i) as [<-|Hne].
  - rewrite Z.sub_diag, Z.mod_pow2_bits_low, Z.div_pow2_bits by lia.
    by rewrite andb_true_r, Z.add_0_l.
  - rewrite andb_false_r. destruct (Z.lt_ge_cases (i - n) 0); [by rewrite Z.testbit_neg_r|].
    by rewrite Z.mod_pow2_bits_high by lia.
Qed.

Lemma lor_mul_add a b n : 0 <= n -> 0 <= a < 2 ^ n -> Z.lor (b * 2 ^ n) a = b * 2 ^ n + a.
Proof. intros. rewrite <- Z.shiftl_mul_pow2 by done. rewrite lor_shiftl_add_l by done. by rewrite Z.shiftl_mul_pow2. Qed.

Lemma f64_fields v : is_u64 v ->
  v = f64_sign v * 2 ^ 63 + f64_exp v * 2 ^ 52 + f64_man v /\
  0 <= f64_sign v <= 1 /\ 0 <= f64_exp v <= 2047 /\ 0 <= f64_man v < 2 ^ 52.
Proof. unfold is_u64, f64_sign, f64_exp, f64_man. intros. dlia. Qed.

Lemma f32_fields x : is_u32 x ->
  x = f32_sign x * 2 ^ 31 + f32_exp x * 2 ^ 23 + f32_man x /\
  0 <= f32_sign x <= 1 /\ 0 <= f32_exp x <= 255 /\ 0 <= f32_man x < 2 ^ 23.
Proof. unfold is_u32, f32_sign, f32_exp, f32_man. intros. dlia. Qed.

(** Reading the fields of a packed pattern. *)
Lemma f64_pack s e m : 0 <= s <= 1 -> 0 <= e <= 2047 -> 0 <= m < 2 ^ 52 ->
  let v := s * 2 ^ 63 + (e * 2 ^ 52 + m) in
  f64_sign v = s /\ f64_exp v = e /\ f64_man v = m.
Proof. intros Hs He Hm v. unfold v, f64_sign, f64_exp, f64_man. dlia. Qed.

Lemma f32_pack s e m : 0 <= s <= 1 -> 0 <= e <= 255 -> 0 <= m < 2 ^ 23 ->
  let x := s * 2 ^ 31 + (e * 2 ^ 23 + m) in
  f32_sign x = s /\ f32_exp x = e /\ f32_man x = m.
Proof. intros Hs He Hm x. unfold x, f32_sign, f32_exp, f32_man. dlia. Qed.

Lemma log2_bounds m : 0 < m -> 2 ^ Z.log2 m <= m < 2 * 2 ^ Z.log2 m /\ 0 <= Z.log2 m.
Proof.
  intros Hm. pose proof (Z.log2_spec m Hm). pose proof (Z.log2_nonneg m).
  rewrite Z.pow_succ_r in * by lia. lia.
Qed.

(** A dyadic number in the range of normal doubles has the expected fields. *)
Lemma f64_dyadic_fields m e : 0 < m < 2 ^ 53 -> -1022 <= e + Z.log2 m <= 1023 ->
  f64_of_dyadic m e = (e + Z.log2 m + 1023) * 2 ^ 52 + (m * 2 ^ (52 - Z.log2 m) - 2 ^ 52) /\
  0 <= m * 2 ^ (52 - Z.log2 m) - 2 ^ 52 < 2 ^ 52.
Proof.
  intros Hm He. unfold f64_of_dyadic. rewrite (proj2 (Z.eqb_neq m 0)) by lia. cbv zeta.
  destruct (log2_bounds m ltac:(lia)) as [Hl Hl0].
  assert (Z.log2 m < 53) as Hk by (apply Z.log2_lt_pow2; lia).
  assert (2 ^ Z.log2 m * 2 ^ (52 - Z.log2 m) = 2 ^ 52) as Hp.
  { rewrite <- Z.pow_add_r by lia. f_equal. lia. }
  pose proof (Z.pow_pos_nonneg 2 (52 - Z.log2 m) ltac:(lia) ltac:(lia)). split; [lia|nia].
Qed.

(** Moving factors of two between significand and exponent changes nothing. *)
Lemma f64_dyadic_shift m e n : 0 < m -> 0 <= n -> n + Z.log2 m <= 52 ->
  f64_of_dyadic (m * 2 ^ n) e = f64_of_dyadic m (e + n).
Proof.
  intros Hm Hn Hk. unfold f64_of_dyadic. pose proof (Z.pow_pos_nonneg 2 n ltac:(lia) Hn).
  rewrite !(proj2 (Z.eqb_neq _ 0)) by nia. cbv zeta. rewrite Z.log2_mul_pow2 by lia.
  pose proof (Z.log2_nonneg m).
  rewrite <- Z.mul_assoc, <- Z.pow_add_r by lia. f_equal; [lia|]. do 2 f_equal. lia.
Qed.

(** ** float -> double is exact, double -> float undoes it *)

Lemma f32_sig_range x : is_u32 x -> 0 <= f32_sig x < 2 ^ 24.
Proof. intros (_ & _ & _ & Hm)%f32_fields. unfold f32_sig. case_cond; lia. Qed.

(** A finite float whose significand is not zero: its double is normal. *)
Lemma f32_dyadic_range x : is_u32 x -> f32_exp x <> 255 -> f32_sig x <> 0 ->
  0 < f32_sig x < 2 ^ 24 /\ -149 <= f32_pow x <= 104 /\ 0 <= Z.log2 (f32_sig x) <= 23 /\
  (Z.log2 (f32_sig x) = 23 \/ f32_pow x = -149).
Proof.
  intros Hx He Hs. pose proof (f32_fields x Hx) as (_ & _ & Hex & Hm).
  pose proof (f32_sig_range x Hx). pose proof (Z.log2_nonneg (f32_sig x)).
  assert (Z.log2 (f32_sig x) < 24) by (apply Z.log2_lt_pow2; lia).
  unfold f32_pow. split; [lia|]. split; [lia|]. split; [lia|].
  unfold f32_sig in *. case_cond; [right; lia|left].
  apply Z.log2_unique; lia.
Qed.

(** The fields of [(double)x] for a finite, non-zero float. *)
Lemma f32_to_f64_fields x : is_u32 x -> f32_exp x <> 255 -> f32_sig x <> 0 ->
  let k := Z.log2 (f32_sig x) in
  f64_sign (f32_to_f64 x) = f32_sign x /\
  f64_exp (f32_to_f64 x) = f32_pow x + k + 1023 /\
  f64_man (f32_to_f64 x) = f32_sig x * 2 ^ (52 - k) - 2 ^ 52.
Proof.
  intros Hx He Hs k. destruct (f32_dyadic_range x Hx He Hs) as (Hm & Hp & Hk & _).
  pose proof (f32_fields x Hx) as (_ & Hsg & _ & _).
  destruct (f64_dyadic_fields (f32_sig x) (f32_pow x)) as [Hd Hr]; [lia|lia|].
  unfold f32_to_f64. rewrite (proj2 (Z.eqb_neq _ 255)), Hd by done.
  apply f64_pack; subst k; lia.
Qed.

Lemma f64_to_f32_of_f32 x : is_u32 x -> f32_isnan x = false -> f64_to_f32 (f32_to_f64 x) = x.
Proof.
  intros Hx Hn. pose proof (f32_fields x Hx) as (Hf & Hsg & Hex & Hm).
  destruct (Z.eq_dec (f32_exp x) 255) as [E|E].
  { unfold f32_isnan in Hn. rewrite E in Hn. cbn [Z.eqb Pos.eqb andb] in Hn. bool_to_prop.
    assert (x = 255 * 2 ^ 23 \/ x = 2 ^ 31 + 255 * 2 ^ 23) as [-> | ->] by lia; by vm_compute. }
  destruct (Z.eq_dec (f32_sig x) 0) as [Z|Z].
  { unfold f32_sig in Z. case_cond_in Z; [|lia].
    assert (x = 0 \/ x = 2 ^ 31) as [-> | ->] by lia; by vm_compute. }
  destruct (f32_dyadic_range x Hx E Z) as (Hs & Hp & Hk & Hlow).
  destruct (f32_to_f64_fields x Hx E Z) as (Fs & Fe & Fm).
  set (k := Z.log2 (f32_sig x)) in *.
  assert (f64_sig (f32_to_f64 x) = f32_sig x * 2 ^ (52 - k)) as Gs.
  { unfold f64_sig. rewrite Fe, Fm. case_cond; lia. }
  assert (f64_pow (f32_to_f64 x) = f32_pow x + k - 52) as Gp by (unfold f64_pow; lia).
  pose proof (Z.pow_pos_nonneg 2 (52 - k) ltac:(lia) ltac:(lia)) as Hpos.
  assert (Z.log2 (f64_sig (f32_to_f64 x)) = 52) as Gl.
  { rewrite Gs, Z.log2_mul_pow2 by lia. fold k. lia. }
  unfold f64_to_f32. rewrite Fs, Fe, Gl, Gp. rewrite (proj2 (Z.eqb_neq _ 2047)) by lia.
  rewrite (proj2 (Z.eqb_neq _ 0)) by nia. cbv zeta.
  replace (Z.max (f32_pow x + k - 52 + 52 - 23) (-149)) with (f32_pow x) by lia.
  replace (f32_pow x - (f32_pow x + k - 52)) with (52 - k) by lia.
  unfold rne. rewrite (proj2 (Z.leb_gt _ 0)) by lia. cbv zeta.
  rewrite Gs, Z.div_mul, Z.mod_mul by lia.
  assert (0 < 2 ^ (52 - k - 1)) by (apply Z.pow_pos_nonneg; lia).
  rewrite (proj2 (Z.ltb_ge _ _)), (proj2 (Z.eqb_neq 0 _)) by lia. cbn [orb andb].
  unfold f32_pow, f32_sig. destruct (Z.eqb_spec (f32_exp x) 0); lia.
Qed.

(** ** Halves *)

(** The bit tests of [half_from_float] in terms of the fields. *)
Lemma f32_to_f64_range x : is_u32 x -> f32_isnan x = false -> is_u64 (f32_to_f64 x).
Proof.
  intros Hx Hn. pose proof (f32_fields x Hx) as (_ & Hsg & _ & _). unfold f32_to_f64, f32_isnan in *.
  destruct (Z.eqb_spec (f32_exp x) 255) as [E|E]; cbn [andb] in Hn; [bool_to_prop; rewrite Hn; unfold is_u64; cbn; lia|].
  destruct (Z.eq_dec (f32_sig x) 0) as [->|Hs]; [unfold is_u64; cbn; lia|].
  destruct (f32_dyadic_range x Hx E Hs) as (Hm & Hp & Hk & _).
  destruct (f64_dyadic_fields (f32_sig x) (f32_pow x)) as [-> Hr]; [lia|lia|]. unfold is_u64. lia.
Qed.

Lemma f32_bit_fields x : is_u32 x ->
  Z.land (Z.shiftr x 16) 0x8000 = f32_sign x * 2 ^ 15 /\
  Z.land x 0x7fffffff = f32_exp x * 2 ^ 23 + f32_man x /\
  Z.land (Z.shiftr x 23) 0xff = f32_exp x /\
  Z.land x 0x7fffff = f32_man x.
Proof.
  intros Hx. pose proof (f32_fields x Hx). change 0x8000 with (2 ^ 15).
  change 0x7fffffff with (2 ^ 31 - 1). change 0xff with (2 ^ 8 - 1). change 0x7fffff with (2 ^ 23 - 1).
  rewrite !land_ones_mod, land_pow2, !Z.shiftr_div_pow2 by lia.
  split_and!; try done.
  - unfold f32_sign, is_u32 in *. rewrite Z.div_div by lia. change (2 ^ 16 * 2 ^ 15) with (2 ^ 31). dlia.
  - unfold f32_exp, f32_man, is_u32 in *. dlia.
Qed.

Lemma half_bit_fields s e m : 0 <= s <= 1 -> 0 <= e <= 31 -> 0 <= m < 2 ^ 10 ->
  let h := s * 2 ^ 15 + e * 2 ^ 10 + m in
  Z.land (Z.shiftr h 15) 1 = s /\ Z.land (Z.shiftr h 10) 0x1f = e /\ Z.land h 0x3ff = m.
Proof.
  intros Hs He Hm h. change 1 with (2 ^ 1 - 1) at 1. change 0x1f with (2 ^ 5 - 1).
  change 0x3ff with (2 ^ 10 - 1). rewrite !land_ones_mod, !Z.shiftr_div_pow2 by lia.
  unfold h. dlia.
Qed.

(** The double of a half given by its fields. *)
Lemma half_to_double_pack s e m : 0 <= s <= 1 -> 0 <= e <= 30 -> 0 <= m < 2 ^ 10 ->
  half_to_double (s * 2 ^ 15 + e * 2 ^ 10 + m) =
  s * 2 ^ 63 + (if e =? 0 then f64_of_dyadic m (-24) else f64_of_dyadic (1024 + m) (e - 25)).
Proof.
  intros Hs He Hm. unfold half_to_double.
  destruct (half_bit_fields s e m Hs ltac:(lia) Hm) as (-> & -> & ->). cbv zeta.
  rewrite (proj2 (Z.eqb_neq e 31)) by lia.
  destruct (Z.eqb_spec s 0) as [-> | ?]; cbn [negb]; [lia|]. replace s with 1 by lia. lia.
Qed.

(** Normal halves. *)
Lemma half_normal s E M : 0 <= s <= 1 -> -14 <= E - 127 <= 15 -> 0 <= M < 2 ^ 23 -> M mod 2 ^ 13 = 0 ->
  half_to_double (s * 2 ^ 15 + (E - 127 + 15) * 2 ^ 10 + M / 2 ^ 13) =
  s * 2 ^ 63 + f64_of_dyadic (2 ^ 23 + M) (E - 150).
Proof.
  intros Hs HE HM Hdiv. rewrite half_to_double_pack; [|lia|lia|dlia].
  rewrite (proj2 (Z.eqb_neq _ 0)) by lia. f_equal.
  replace (2 ^ 23 + M) with ((1024 + M / 2 ^ 13) * 2 ^ 13) by dlia.
  assert (0 <= M / 2 ^ 13 < 1024) by dlia.
  rewrite f64_dyadic_shift; [f_equal; lia|lia|lia|].
  rewrite (Z.log2_unique (1024 + M / 2 ^ 13) 10) by lia. lia.
Qed.

(** Subnormal halves. *)
Lemma half_subnormal s E M sh : 0 <= s <= 1 -> 0 < E -> sh = 13 + (-14 - (E - 127)) -> 14 <= sh < 24 ->
  0 <= M < 2 ^ 23 -> (2 ^ 23 + M) mod 2 ^ sh = 0 -> 0 < (2 ^ 23 + M) / 2 ^ sh < 2 ^ 10 ->
  half_to_double (s * 2 ^ 15 + 0 * 2 ^ 10 + (2 ^ 23 + M) / 2 ^ sh) =
  s * 2 ^ 63 + f64_of_dyadic (2 ^ 23 + M) (E - 150).
Proof.
  intros Hs HE Hsh Hr HM Hdiv Hh. rewrite half_to_double_pack by lia. cbn [Z.eqb]. f_equal.
  pose proof (Z.pow_pos_nonneg 2 sh ltac:(lia) ltac:(lia)).
  pose proof (Z.div_mod (2 ^ 23 + M) (2 ^ sh) ltac:(lia)) as Hdm.
  rewrite Hdm at 2. rewrite Hdiv, Z.add_0_r, (Z.mul_comm (2 ^ sh)).
  assert (Z.log2 ((2 ^ 23 + M) / 2 ^ sh) < 10) by (apply Z.log2_lt_pow2; lia).
  rewrite f64_dyadic_shift by lia. f_equal. lia.
Qed.

Lemma half_pack s e m : 0 <= s <= 1 -> 0 <= e <= 31 -> 0 <= m < 2 ^ 10 ->
  u16 (Z.lor (Z.lor (s * 2 ^ 15) (Z.shiftl e 10)) m) = s * 2 ^ 15 + e * 2 ^ 10 + m /\
  is_u16 (s * 2 ^ 15 + e * 2 ^ 10 + m).
Proof.
  intros Hs He Hm. rewrite Z.shiftl_mul_pow2 by lia. rewrite (lor_mul_add (e * 2 ^ 10) s 15) by lia.
  replace (s * 2 ^ 15 + e * 2 ^ 10) with ((s * 2 ^ 5 + e) * 2 ^ 10) by lia.
  rewrite (lor_mul_add m) by lia. rewrite u16_small; unfold is_u16; lia.
Qed.

(** [half_from_float] succeeds only on floats whose value is that of the half. *)
Lemma half_exact x h : is_u32 x -> f32_isnan x = false -> half_from_float x = Some h ->
  is_u16 h /\ half_to_double h = f32_to_f64 x.
Proof.
  intros Hx Hn. pose proof (f32_fields x Hx) as (Hf & Hsg & Hex & Hm).
  destruct (f32_bit_fields x Hx) as (Bs & Bz & Be & Bm).
  unfold half_from_float. rewrite Hn, Bs, Bz, Be, Bm.
  destruct (f32_isinf x) eqn:Hinf.
  { unfold f32_isinf in Hinf. bool_to_prop.
    assert (x = 255 * 2 ^ 23 \/ x = 2 ^ 31 + 255 * 2 ^ 23) as [-> | ->] by lia;
      intros [= <-]; split; vm_compute; split; congruence. }
  case_cond.
  { assert (x = 0 \/ x = 2 ^ 31) as [-> | ->] by lia; intros [= <-]; split; vm_compute; done. }
  assert (f32_exp x <> 255) as E255.
  { intros E. unfold f32_isnan, f32_isinf in *. rewrite E in *. cbn [Z.eqb Pos.eqb andb] in *.
    bool_to_prop. congruence. }
  unfold f32_to_f64, f32_sig, f32_pow. rewrite (proj2 (Z.eqb_neq _ 255)) by done. cbv zeta.
  rewrite Z.geb_leb. case_cond.
  - change 0x1fff with (2 ^ 13 - 1). rewrite land_ones_mod, Z.shiftr_div_pow2 by lia.
    case_cond; [done|]. intros [= <-].
    destruct (half_pack (f32_sign x) (f32_exp x - 127 + 15) (f32_man x / 2 ^ 13)) as [-> ?]; [lia|lia|dlia|].
    split; [done|]. rewrite (proj2 (Z.eqb_neq _ 0)), half_normal by lia. repeat f_equal; lia.
  - case_cond; [|done]. rewrite Z.geb_leb. case_cond; [done|].
    set (sh := 13 + (-14 - (f32_exp x - 127))) in *.
    change 0x800000 with (1 * 2 ^ 23). rewrite lor_mul_add by lia.
    rewrite Z.shiftl_1_l, land_ones_mod, Z.shiftr_div_pow2 by lia. change (1 * 2 ^ 23) with (2 ^ 23).
    case_cond; [done|]. rewrite Z.gtb_ltb. case_cond; [done|]. intros [= <-].
    pose proof (Z.div_pos (2 ^ 23 + f32_man x) (2 ^ sh) ltac:(lia) ltac:(apply Z.pow_pos_nonneg; lia)).
    destruct (half_pack (f32_sign x) 0 ((2 ^ 23 + f32_man x) / 2 ^ sh)) as [Hp ?]; [lia..|].
    rewrite Z.shiftl_0_l, Z.lor_0_r in Hp. rewrite Hp. split; [done|].
    rewrite (proj2 (Z.eqb_neq (f32_exp x) 0)) by lia.
    rewrite (half_subnormal _ (f32_exp x)) by lia. repeat f_equal; lia.
Qed.

(** ** double -> float *)

Lemma rne_nonneg m k : 0 <= m -> 0 <= rne m k.
Proof.
  intros Hm. unfold rne. case_cond; [apply Z.mul_nonneg_nonneg; [done|apply Z.pow_nonneg; lia]|].
  cbv zeta. pose proof (Z.div_pos m (2 ^ k) Hm ltac:(apply Z.pow_pos_nonneg; lia)). case_cond; lia.
Qed.

(** The payload of a quieted NaN is not zero. *)
Lemma nan_payload b m n : 0 <= b < n -> 0 <= m < 2 ^ n -> 0 < Z.lor (2 ^ b) m < 2 ^ n.
Proof.
  intros Hb Hm. pose proof (Z.pow_pos_nonneg 2 b ltac:(lia) ltac:(lia)).
  assert (0 <= Z.lor (2 ^ b) m) by (apply Z.lor_nonneg; lia).
  assert (Z.lor (2 ^ b) m <> 0) by (intros E%Z.lor_eq_0_iff; lia). split; [lia|].
  apply Z.log2_lt_pow2; [lia|]. rewrite Z.log2_lor, Z.log2_pow2 by lia.
  apply Z.max_lub_lt; [lia|].
  destruct (Z.eq_dec m 0) as [-> |]; [cbn; lia|apply Z.log2_lt_pow2; lia].
Qed.

Lemma f64_to_f32_range v : is_u64 v -> is_u32 (f64_to_f32 v).
Proof.
  intros (_ & Hs & He & Hm)%f64_fields. unfold f64_to_f32, is_u32.
  case_cond; [case_cond; [lia|]; pose proof (nan_payload 22 (f64_man v / 2 ^ 29) 23); dlia|].
  case_cond; [lia|]. cbv zeta. set (l := Z.max _ _). assert (-149 <= l) by lia.
  assert (0 <= f64_sig v) by (unfold f64_sig; case_cond; lia).
  pose proof (rne_nonneg (f64_sig v) (l - f64_pow v) ltac:(done)). lia.
Qed.

Lemma f64_to_f32_nan v : is_u64 v -> f64_isnan v = true -> f32_isnan (f64_to_f32 v) = true.
Proof.
  intros (_ & Hs & He & Hm)%f64_fields Hn. unfold f64_isnan in Hn. bool_to_prop.
  unfold f64_to_f32. rewrite (proj2 (Z.eqb_eq (f64_exp v) 2047)), (proj2 (Z.eqb_neq _ 0)) by done.
  pose proof (nan_payload 22 (f64_man v / 2 ^ 29) 23 ltac:(lia) ltac:(dlia)).
  destruct (f32_pack (f64_sign v) 255 (Z.lor (2 ^ 22) (f64_man v / 2 ^ 29))) as (_ & E1 & E2); [lia..|].
  unfold f32_isnan. rewrite E1, E2. cbn [Z.eqb Pos.eqb andb]. by rewrite (proj2 (Z.eqb_neq _ 0)) by lia.
Qed.

Lemma f32_to_f64_not_nan x : is_u32 x -> f32_isnan x = false -> f64_isnan (f32_to_f64 x) = false.
Proof.
  intros Hx Hn. destruct (f64_isnan (f32_to_f64 x)) eqn:E; [|done].
  apply f64_to_f32_nan in E; [|by apply f32_to_f64_range]. by rewrite f64_to_f32_of_f32, Hn in E.
Qed.

Lemma f32_to_f64_nan x : is_u32 x -> f32_isnan x = true -> f64_isnan (f32_to_f64 x) = true.
Proof.
  intros (_ & Hs & He & Hm)%f32_fields Hn. unfold f32_isnan in Hn. bool_to_prop.
  unfold f32_to_f64. rewrite (proj2 (Z.eqb_eq (f32_exp x) 255)), (proj2 (Z.eqb_neq (f32_man x) 0)) by done.
  set (m := Z.lor (2 ^ 51) (f32_man x * 2 ^ 29)).
  assert (0 < m < 2 ^ 52) as Hr by (apply nan_payload; lia).
  destruct (f64_pack (f32_sign x) 2047 m) as (_ & E1 & E2); [lia..|].
  unfold f64_isnan. rewrite E1, E2. cbn [Z.eqb Pos.eqb andb]. by rewrite (proj2 (Z.eqb_neq _ 0)) by lia.
Qed.

(** ** Encoding and decoding *)

Lemma appends_float {R : Realloc} v : appends (fun b => harp_cbor_float b v) (enc_float v).
Proof. apply appends_put. Qed.
#[export] Hint Resolve @appends_float : enc.

Lemma advances_float : advances harp_cdec_float.
Proof. unfold harp_cdec_float. advances_tac. Qed.
#[export] Hint Resolve advances_float : dec.

Lemma be_bytes_2 v : [u8 (Z.shiftr v 8); u8 v] = be_bytes 2 v.
Proof. cbn [be_bytes]. by rewrite Z.shiftr_0_r. Qed.
Lemma be_bytes_4 v : [u8 (Z.shiftr v 24); u8 (Z.shiftr v 16); u8 (Z.shiftr v 8); u8 v] = be_bytes 4 v.
Proof. cbn [be_bytes]. by rewrite Z.shiftr_0_r. Qed.
Lemma be_bytes_8 v : map (fun i => u8 (Z.shiftr v (56 - 8 * i))) [0; 1; 2; 3; 4; 5; 6; 7] = be_bytes 8 v.
Proof. done. Qed.

Lemma cdec_float_run ai arg rest :
  ai = 25 \/ ai = 26 \/ ai = 27 -> bytes_ok arg -> length arg = ai_len ai ->
  harp_cdec_float (mk_cdec ((224 + ai) :: arg ++ rest) false) =
  (Some (if ai =? 25 then half_to_double (u16 (be_value arg))
         else if ai =? 26 then f32_to_f64 (u32 (be_value arg)) else be_value arg),
   mk_cdec rest false).
Proof.
  intros Hai Hok Hl. unfold harp_cdec_float. change 224 with (7 * 32).
  erewrite sm_bind_run by (apply read_head_run; lia || done). cbv beta iota.
  by destruct Hai as [-> | [-> | ->]].
Qed.

Lemma f64_eq_cases f v : is_u64 v -> f64_eq (f32_to_f64 f) v = true ->
  f64_isnan v = false /\ f64_isnan (f32_to_f64 f) = false /\ (f32_to_f64 f = v \/ v = 0 \/ v = 2 ^ 63).
Proof.
  intros Hv. unfold f64_eq. intros H. bool_to_prop. split; [done|]. split; [done|].
  apply orb_true_iff in H0 as [E|E]; [bool_to_prop; by left|right].
  apply andb_prop in E as [_ E]. unfold f64_iszero in E. bool_to_prop.
  pose proof (f64_fields v Hv). lia.
Qed.

Lemma enc_float_zero v : v = 0 \/ v = 2 ^ 63 -> forall rest,
  harp_cdec_float (mk_cdec (enc_float v ++ rest) false) = (Some v, mk_cdec rest false).
Proof.
  intros Hv rest. destruct Hv as [-> | ->].
  - change (enc_float 0) with ((224 + 25) :: [0; 0]). rewrite <- app_comm_cons.
    rewrite (cdec_float_run 25 [0; 0]); [done|by left|repeat constructor; done|done].
  - change (enc_float (2 ^ 63)) with ((224 + 25) :: [128; 0]). rewrite <- app_comm_cons.
    rewrite (cdec_float_run 25 [128; 0]); [done|by left|repeat constructor; done|done].
Qed.

Lemma enc_float_nan v : is_u64 v -> f64_isnan v = true -> enc_float v = [0xf9; 0x7e; 0x00].
Proof.
  intros Hv Hn. unfold enc_float. rewrite Hn, orb_true_r. unfold half_from_float.
  by rewrite f64_to_f32_nan.
Qed.

Lemma decodes_float v : is_u64 v -> f64_isnan v = false ->
  decodes 0 harp_cdec_float (enc_float v) v.
Proof.
  intros Hv Hn rest _. destruct (decide (v = 0 \/ v = 2 ^ 63)) as [Hz|Hz]; [by apply enc_float_zero|].
  pose proof (f64_to_f32_range v Hv) as Hf. unfold enc_float. rewrite Hn, orb_false_r. cbv zeta.
  destruct (f64_eq (f32_to_f64 (f64_to_f32 v)) v) eqn:E.
  - destruct (f64_eq_cases _ _ Hv E) as (_ & Hfn & [Heq|?]); [|done].
    assert (f32_isnan (f64_to_f32 v) = false) as Hfn'.
    { destruct (f32_isnan (f64_to_f32 v)) eqn:En; [|done]. by rewrite f32_to_f64_nan in Hfn. }
    destruct (half_from_float _) as [h|] eqn:Eh.
    + destruct (half_exact _ _ Hf Hfn' Eh) as [Hh Hd]. rewrite be_bytes_2. change 0xf9 with (224 + 25).
      rewrite <- app_comm_cons, (cdec_float_run 25 (be_bytes 2 h)); [|by left|apply be_bytes_ok|done].
      cbn [Z.eqb Pos.eqb]. rewrite be_value_bytes by done. by rewrite u16_small, Hd, Heq.
    + rewrite be_bytes_4. change 0xfa with (224 + 26).
      rewrite <- app_comm_cons, (cdec_float_run 26 (be_bytes 4 _)); [|by right; left|apply be_bytes_ok|done].
      cbn [Z.eqb Pos.eqb]. rewrite be_value_bytes by done. by rewrite u32_small, Heq.
  - rewrite be_bytes_8. change 0xfb with (224 + 27).
    rewrite <- app_comm_cons, (cdec_float_run 27 (be_bytes 8 v)); [|by right; right|apply be_bytes_ok|done].
    cbn [Z.eqb Pos.eqb]. by rewrite be_value_bytes by done.
Qed.
#[export] Hint Resolve decodes_float : dec.

(** The [float] patterns a [double] encoder sees: their encodings have at most
    four payload bytes. *)
Lemma enc_float_f32 x : is_u32 x -> f32_isnan x = false -> (length (enc_float (f32_to_f64 x)) <= 5)%nat.
Proof.
  intros Hx Hn. unfold enc_float. rewrite f64_to_f32_of_f32 by done. cbv zeta.
  assert (f64_eq (f32_to_f64 x) (f32_to_f64 x) || f64_isnan (f32_to_f64 x) = true) as ->.
  { unfold f64_eq. rewrite Z.eqb_refl. by destruct (f64_isnan _). }
  destruct (half_from_float x); cbn; lia.
Qed.

(** ** Properties *)

(** floats round-trip bit-exactly.  For every non-NaN [double] (both zeros,
    subnormals and infinities included) decoding what [harp_cbor_float] appended
    gives back the identical 64-bit pattern, consuming exactly it; every NaN is
    encoded as the canonical half [f9 7e 00]; and every double that is the value
    of some [float] takes at most five bytes. *)
Theorem cbor_float_roundtrip (v : Z) (rest : list Z) :
  is_u64 v ->
  (f64_isnan v = false ->
     harp_cdec_float (mk_cdec (enc_float v ++ rest) false) = (Some v, mk_cdec rest false)) /\
  (f64_isnan v = true ->
     enc_float v = [0xf9; 0x7e; 0x00] /\
     harp_cdec_float (mk_cdec (enc_float v ++ rest) false) = (Some f64_qnan, mk_cdec rest false)) /\
  (forall x, is_u32 x -> f32_isnan x = false -> v = f32_to_f64 x -> (length (enc_float v) <= 5)%nat).
Proof.
  intros Hv. split; [|split].
  - intros Hn. apply decodes_float; [done|done|apply zlen_nonneg].
  - intros Hn. rewrite enc_float_nan by done. split; [done|].
    change [0xf9; 0x7e; 0x00] with ((224 + 25) :: [0x7e; 0]). rewrite <- app_comm_cons.
    rewrite (cdec_float_run 25 [0x7e; 0]); [done|by left|repeat constructor; done|done].
  - intros x Hx Hxn ->. by apply enc_float_f32.
Qed.

Lemma cbor_float_roundtrip_witness :
  (* 0.1, which needs all 64 bits; 2^-149, the least subnormal float *)
  harp_cdec_float (mk_cdec (enc_float 0x3FB999999999999A ++ [1]) false) =
    (Some 0x3FB999999999999A, mk_cdec [1] false) /\
  (length (enc_float 0x36A0000000000000) <= 5)%nat.
Proof.
  split.
  - apply (cbor_float_roundtrip 0x3FB999999999999A [1]); [unfold is_u64; lia|vm_compute; reflexivity].
  - apply (proj2 (proj2 (cbor_float_roundtrip 0x36A0000000000000 [] ltac:(unfold is_u64; lia))) 1);
      [unfold is_u32; lia|vm_compute; reflexivity..].
Defined.
