(* ===== verification/CborMem.v ===== *)
(** * The CBOR decoder on pointers ([core/src/cbor.c], "decoder")

    [CborDec] gives the decoder the unread input as a list, on which every read
    is defined.  Here it is written on the pointers [p] and [end] of
    [harp_cdec], into an object of [zlen buf] bytes: a load outside of the
    object, and a pointer moved outside of it (or further than one past its
    end), is undefined behaviour, which is an outcome of its own ([m_ub]) that
    nothing recovers from.  [end - p] is the [size_t] the code compares with, so
    a pointer past [end] would wrap around.

    The property is that no sequence of calls on any bytes is undefined, and
    that this decoder and the one of [CborDec], on which the message codecs are
    proved, return the same. *)
From Stdlib Require Import ZArith Lia List.
From stdpp Require Import base tactics list numbers.
From S2P Require Import Prelude.
From S2P Require Import Cbuf.
From S2P Require Import CborEnc.
From S2P Require Import CborDec.
From S2P Require Import CborFloat.

Open Scope Z_scope.
Open Scope list_scope.

(** [harp_cdec] with its pointers as offsets into the object; [m_ub] is set when
    the execution has run into undefined behaviour. *)
Record mdec := mk_mdec { m_p : Z; m_end : Z; m_err : bool; m_ub : bool }.

Abbreviation mem := (SM mdec).

Definition m_move (s : mdec) (p : Z) : mdec := mk_mdec p (m_end s) (m_err s) (m_ub s).

Definition undefined {A} : mem A := fun s => (None, mk_mdec (m_p s) (m_end s) (m_err s) true).

(** [d->err = true; return false;] *)
Definition m_fail {A} : mem A := fun s => (None, mk_mdec (m_p s) (m_end s) true (m_ub s)).

Section object.
Context (buf : list Z).

(** [harp_cdec_init(d, buf, len)] *)
Definition harp_cdec_init : mdec := mk_mdec 0 (zlen buf) false false.

(** [*a]: a load from the object. *)
Definition load (a : Z) : mem Z := fun s =>
  if (0 <=? a) && (a <? zlen buf) then (Some (nth (Z.to_nat a) buf 0), s) else undefined s.

(** [d->p += n]: the pointer stays within the object or one past its end. *)
Definition advance (n : Z) : mem unit := fun s =>
  if (0 <=? m_p s + n) && (m_p s + n <=? zlen buf) then (Some tt, m_move s (m_p s + n)) else undefined s.

(** [(size_t)(d->end - d->p)] *)
Definition left (s : mdec) : Z := u64 (m_end s - m_p s).

Definition need (n : Z) : mem unit := fun s =>
  if m_err s || (left s <? n) then m_fail s else (Some tt, s).

(** [*d->p] and [*d->p++] *)
Definition cur_byte : mem Z := s ← sm_get; load (m_p s).
Definition next_byte : mem Z := b ← cur_byte; advance 1;; mret b.

Definition harp_cdec_peek : mem Z :=
  s ← sm_get;
  if m_err s || (m_p s >=? m_end s) then mret (-1) else b ← cur_byte; mret (Z.shiftr b 5).

Definition harp_cdec_peek_null : mem bool :=
  s ← sm_get;
  if negb (m_err s) && (m_p s <? m_end s) then b ← cur_byte; mret (b =? 0xf6) else mret false.

Fixpoint read_arg (n : nat) (v : Z) : mem Z :=
  match n with
  | O => mret v
  | S k => b ← next_byte; read_arg k (Z.lor (u64 (Z.shiftl v 8)) b)
  end.

Definition read_head : mem (Z * Z * Z) :=
  need 1;;
  ib ← next_byte;
  let major := Z.shiftr ib 5 in
  let ai := Z.land ib 0x1f in
  if ai <? 24 then mret (major, ai, ai)
  else
    n ← (if ai =? 24 then mret 1 else if ai =? 25 then mret 2 else if ai =? 26 then mret 4
         else if ai =? 27 then mret 8 else m_fail);
    need n;;
    v ← read_arg (Z.to_nat n) 0;
    mret (major, ai, v).

Definition harp_cdec_uint : mem Z :=
  '(major, ai, v) ← read_head;
  if negb (major =? 0) then m_fail else mret v.

Definition harp_cdec_int : mem Z :=
  '(major, ai, u) ← read_head;
  if major =? 0 then if u >? 2 ^ 63 - 1 then m_fail else mret u
  else if major =? 1 then if u >? 2 ^ 63 - 1 then m_fail else mret (-1 - u)
  else m_fail.

(** [*p = d->p; *n = len; d->p += len;]: the span is the pointer and the length. *)
Definition read_string (want_major : Z) : mem (Z * Z) :=
  '(major, ai, len) ← read_head;
  s ← sm_get;
  if negb (major =? want_major) || (len >? left s) then m_fail
  else advance len;; mret (m_p s, len).

Definition harp_cdec_bytes : mem (Z * Z) := read_string 2.
Definition harp_cdec_text : mem (Z * Z) := read_string 3.

Definition read_count (want_major : Z) : mem Z :=
  '(major, ai, n) ← read_head;
  if negb (major =? want_major) then m_fail
  else
    let cost := if want_major =? 5 then u64 (n * 2) else n in
    s ← sm_get;
    if cost >? left s then m_fail else mret n.

Definition harp_cdec_array : mem Z := read_count 4.
Definition harp_cdec_map : mem Z := read_count 5.

Definition harp_cdec_bool : mem bool :=
  need 1;;
  b ← cur_byte;
  if b =? 0xf4 then advance 1;; mret false
  else if b =? 0xf5 then advance 1;; mret true
  else m_fail.

Definition harp_cdec_null : mem unit :=
  need 1;;
  b ← cur_byte;
  if negb (b =? 0xf6) then m_fail else advance 1;; mret tt.

Definition harp_cdec_float : mem Z :=
  '(major, ai, u) ← read_head;
  if negb (major =? 7) then m_fail
  else if ai =? 25 then mret (half_to_double (u16 u))
  else if ai =? 26 then mret (f32_to_f64 (u32 u))
  else if ai =? 27 then mret u
  else m_fail.

(** [skip_item(d, depth)] with [k = 33 - depth]. *)
Fixpoint skip_item (k : nat) : mem unit :=
  match k with
  | O => m_fail
  | S k' =>
      '(major, ai, val) ← read_head;
      if (major =? 0) || (major =? 1) then mret tt
      else if (major =? 2) || (major =? 3) then
        s ← sm_get;
        if val >? left s then m_fail else advance val
      else if major =? 4 then sm_for val (skip_item k')
      else if major =? 5 then sm_for (u64 (val * 2)) (skip_item k')
      else if major =? 6 then skip_item k'
      else if major =? 7 then mret tt
      else m_fail
  end.

Definition harp_cdec_skip : mem unit := skip_item (S HARP_CBOR_MAX_DEPTH).

(** [start = d->p; ... *p = start; *n = (size_t)(d->p - start);] *)
Definition harp_cdec_span : mem (Z * Z) :=
  s ← sm_get;
  harp_cdec_skip;;
  s' ← sm_get;
  mret (m_p s, u64 (m_p s' - m_p s)).
End object.

(** ** The calls a user of the decoder makes *)

Inductive dcall : Set :=
  | CUint | CInt | CBytes | CText | CArray | CMap | CBool | CNull | CFloat | CSkip | CSpan.

(** [m], its result wrapped. *)
Definition wrap {S A B} (f : A -> B) (m : SM S A) : SM S B := a ← m; mret (f a).

(** What they return: a number, or a pointer into the object and a length. *)
Inductive mval : Set := MNum (z : Z) | MBool (b : bool) | MUnit | MSpan (s : Z * Z).

(** The same of the decoder of [CborDec]: a span is the bytes themselves. *)
Inductive lval : Set := LNum (z : Z) | LBool (b : bool) | LUnit | LSpan (bs : list Z).

Definition mem_call (buf : list Z) (c : dcall) : mem mval :=
  match c with
  | CUint => wrap MNum (harp_cdec_uint buf)
  | CInt => wrap MNum (harp_cdec_int buf)
  | CBytes => wrap MSpan (harp_cdec_bytes buf)
  | CText => wrap MSpan (harp_cdec_text buf)
  | CArray => wrap MNum (harp_cdec_array buf)
  | CMap => wrap MNum (harp_cdec_map buf)
  | CBool => wrap MBool (harp_cdec_bool buf)
  | CNull => wrap (fun _ => MUnit) (harp_cdec_null buf)
  | CFloat => wrap MNum (harp_cdec_float buf)
  | CSkip => wrap (fun _ => MUnit) (harp_cdec_skip buf)
  | CSpan => wrap MSpan (harp_cdec_span buf)
  end.

Definition list_call (c : dcall) : dec lval :=
  match c with
  | CUint => wrap LNum CborDec.harp_cdec_uint
  | CInt => wrap LNum (CborDec.harp_cdec_int)
  | CBytes => wrap LSpan (CborDec.harp_cdec_bytes)
  | CText => wrap LSpan (CborDec.harp_cdec_text)
  | CArray => wrap LNum (CborDec.harp_cdec_array)
  | CMap => wrap LNum (CborDec.harp_cdec_map)
  | CBool => wrap LBool (CborDec.harp_cdec_bool)
  | CNull => wrap (fun _ => LUnit) (CborDec.harp_cdec_null)
  | CFloat => wrap LNum (CborFloat.harp_cdec_float)
  | CSkip => wrap (fun _ => LUnit) (CborDec.harp_cdec_skip)
  | CSpan => wrap LSpan (CborDec.harp_cdec_span)
  end.

(** A caller that makes the calls one after the other, whatever they return. *)
Fixpoint calls {S A} (f : dcall -> SM S A) (cs : list dcall) (s : S) : list (option A) * S :=
  match cs with
  | [] => ([], s)
  | c :: cs => let '(r, s) := f c s in let '(rs, s) := calls f cs s in (r :: rs, s)
  end.

(** The span lies in the object, and its bytes are [bs]. *)
Definition spans (buf : list Z) (s : Z * Z) (bs : list Z) : Prop :=
  0 <= s.1 /\ 0 <= s.2 /\ s.1 + s.2 <= zlen buf /\ bs = take (Z.to_nat s.2) (drop (Z.to_nat s.1) buf).

Definition same_val (buf : list Z) (m : mval) (l : lval) : Prop :=
  match m, l with
  | MNum a, LNum b => a = b
  | MBool a, LBool b => a = b
  | MUnit, LUnit => True
  | MSpan s, LSpan bs => spans buf s bs
  | _, _ => False
  end.

(** ** The correspondence *)

Section refinement.
Context (buf : list Z) (Hbuf : bytes_ok buf) (Hsize : zlen buf < 2 ^ 63).

(** What holds between two calls: the pointers are in order and within the
    object, and nothing undefined has happened. *)
Definition pointers_ok (s : mdec) : Prop :=
  0 <= m_p s <= m_end s /\ m_end s = zlen buf /\ m_ub s = false.

(** The decoder of [CborDec] a decoder on pointers stands for. *)
Definition view (s : mdec) : cdec := mk_cdec (drop (Z.to_nat (m_p s)) buf) (m_err s).

(** [m], from a state with [P], is defined, keeps the pointers in order and
    returns what [n] returns, leaving a state with [Q]. *)
Definition corresponds {A B} (P : mdec -> Prop) (Q : A -> B -> mdec -> Prop) (m : mem A) (n : dec B) : Prop :=
  forall s, pointers_ok s -> P s ->
    let '(r, s') := m s in
    pointers_ok s' /\ (n (view s)).2 = view s' /\
    match r, (n (view s)).1 with
    | Some a, Some b => Q a b s'
    | None, None => True
    | _, _ => False
    end.

Definition implements {A B} (R : A -> B -> Prop) (m : mem A) (n : dec B) : Prop :=
  corresponds (fun _ => True) (fun a b _ => R a b) m n.

(** At least [n] bytes are left, and no error. *)
Definition avail (n : Z) (s : mdec) : Prop := m_p s + n <= m_end s /\ m_err s = false.

Lemma zlen_view s : pointers_ok s -> d_left (view s) = m_end s - m_p s.
Proof. intros (H1 & H2 & _). unfold d_left, view, zlen in *. cbn. rewrite length_drop. lia. Qed.

Lemma left_view s : pointers_ok s -> left s = d_left (view s).
Proof.
  intros Hs. rewrite zlen_view by done. destruct Hs as (H1 & H2 & _). apply u64_small. unfold is_u64. lia.
Qed.

Lemma corr_ret {A B} P (Q : A -> B -> mdec -> Prop) a b :
  (forall s, P s -> Q a b s) -> corresponds P Q (mret a) (mret b).
Proof. intros H s Hs HP. split_and!; [done|done|by apply H]. Qed.

Lemma corr_fail {A B} P (Q : A -> B -> mdec -> Prop) : corresponds P Q m_fail dec_err.
Proof. by intros s (H1 & H2 & H3) _. Qed.

Lemma corr_bind {A B C D} P (Q : A -> B -> mdec -> Prop) (T : C -> D -> mdec -> Prop) m n k l :
  corresponds P Q m n -> (forall a b, corresponds (Q a b) T (k a) (l b)) ->
  corresponds P T (m ≫= k) (n ≫= l).
Proof.
  intros Hm Hk s Hs HP. specialize (Hm s Hs HP). unfold mbind, SM_bind.
  destruct (m s) as [r s1], (n (view s)) as [r' d1]; cbn in *. destruct Hm as (H1 & -> & H3).
  destruct r, r'; try done. by apply Hk.
Qed.

Lemma corr_weaken {A B} (P P' : mdec -> Prop) (Q Q' : A -> B -> mdec -> Prop) m n :
  corresponds P Q m n -> (forall s, P' s -> P s) -> (forall a b s, Q a b s -> Q' a b s) ->
  corresponds P' Q' m n.
Proof.
  intros H HP HQ s Hs Hp. specialize (H s Hs (HP _ Hp)).
  destruct (m s) as [[a|] s1], (n (view s)) as [[b|] d1]; cbn in *; naive_solver.
Qed.

Lemma corr_get {A B} P (Q : A -> B -> mdec -> Prop) k l :
  (forall s, pointers_ok s -> corresponds (fun t => t = s /\ P s) Q (k s) (l (view s))) ->
  corresponds P Q (sm_get ≫= k) (sm_get ≫= l).
Proof. intros H s Hs HP. by apply (H s Hs s). Qed.

Lemma corr_need P n :
  corresponds P (fun _ _ s => avail n s) (need n) (CborDec.need n).
Proof.
  intros s Hs _. unfold need, CborDec.need. rewrite (left_view s Hs). cbn [d_err view].
  destruct (m_err s || (d_left (view s) <? n)) eqn:E; [by destruct Hs as (? & ? & ?)|].
  apply orb_false_elim in E as [E1 E2%Z.ltb_ge]. rewrite zlen_view in E2 by done.
  split_and!; [done|done|]. unfold avail. cbn. split; [lia|done].
Qed.

Lemma drop_step p : 0 <= p < zlen buf ->
  drop (Z.to_nat p) buf = nth (Z.to_nat p) buf 0 :: drop (Z.to_nat (p + 1)) buf.
Proof.
  intros Hp. unfold zlen in Hp. replace (Z.to_nat (p + 1)) with (S (Z.to_nat p)) by lia.
  rewrite nth_lookup. destruct (lookup_lt_is_Some_2 buf (Z.to_nat p)) as [b Hb]; [lia|].
  rewrite Hb. by apply drop_S.
Qed.

(** The byte [need] has made sure of. *)
Lemma cur_byte_run s n : pointers_ok s -> avail n s -> 1 <= n ->
  cur_byte buf s = (Some (nth (Z.to_nat (m_p s)) buf 0), s) /\
  d_cur (view s) = nth (Z.to_nat (m_p s)) buf 0 :: drop (Z.to_nat (m_p s + 1)) buf.
Proof.
  intros (H1 & H2 & _) [H3 _] Hn. split; [|apply drop_step; lia].
  unfold cur_byte, load, mbind, SM_bind, sm_get.
  by rewrite (proj2 (Z.leb_le _ _)), (proj2 (Z.ltb_lt _ _)) by lia.
Qed.

Lemma advance_run s n : pointers_ok s -> 0 <= n <= m_end s - m_p s ->
  advance buf n s = (Some tt, m_move s (m_p s + n)) /\
  pointers_ok (m_move s (m_p s + n)) /\
  view (m_move s (m_p s + n)) = mk_cdec (drop (Z.to_nat n) (d_cur (view s))) (m_err s).
Proof.
  intros (H1 & H2 & H4) Hn. unfold advance, pointers_ok, view. cbn.
  rewrite !(proj2 (Z.leb_le _ _)), drop_drop by lia. split_and!; try done; try lia.
  do 2 f_equal. lia.
Qed.

Lemma corr_next n : 1 <= n ->
  corresponds (avail n) (fun a b s => a = b /\ avail (n - 1) s) (next_byte buf) CborDec.next_byte.
Proof.
  intros Hn s Hs Ha. destruct (cur_byte_run s n Hs Ha Hn) as [E1 E2].
  destruct (advance_run s 1 Hs) as (E3 & Hs' & E4); [by destruct Ha; lia|].
  unfold next_byte, CborDec.next_byte. erewrite sm_bind_run by done. erewrite sm_bind_run by done.
  rewrite E2 in E4 |- *. cbn [fst snd mret SM_ret]. rewrite E4. split_and!; try done.
  unfold avail in *. cbn. split; [lia|tauto].
Qed.

Lemma corr_arg n v k : Z.of_nat n <= k ->
  corresponds (avail k) (fun a b _ => a = b) (read_arg buf n v) (CborDec.read_arg n v).
Proof.
  revert v k. induction n as [|n IH]; intros v k Hk; [by apply corr_ret|].
  cbn [read_arg CborDec.read_arg]. eapply corr_bind; [apply corr_next; lia|].
  intros a b. cbn. intros s Hs [-> Ha]. apply (IH _ (k - 1)); [lia|done|done].
Qed.

Lemma corr_pure {A B} (F : Prop) P (Q : A -> B -> mdec -> Prop) m n :
  (F -> corresponds P Q m n) -> corresponds (fun s => F /\ P s) Q m n.
Proof. intros H s Hs [HF HP]. by apply H. Qed.

Lemma corr_pure1 {A B} (F : Prop) (Q : A -> B -> mdec -> Prop) m n :
  (F -> corresponds (fun _ => True) Q m n) -> corresponds (fun _ => F) Q m n.
Proof. intros H s Hs HF. by apply H. Qed.

(** A head: both read the same, and its argument is a [uint64_t]. *)
Lemma corr_head :
  implements (fun a b => a = b /\ is_u64 b.2) (read_head buf) CborDec.read_head.
Proof.
  assert (implements eq (read_head buf) CborDec.read_head) as H.
  { unfold read_head, CborDec.read_head. eapply corr_bind; [apply corr_need|]. intros [] [].
    eapply corr_bind; [by apply corr_next|]. intros ib b. cbv beta zeta.
    apply corr_pure. intros ->. case_cond; [by apply corr_ret|].
    apply corr_bind with (Q := fun a b (_ : mdec) => a = b /\ 0 <= a).
    { repeat case_cond; by apply corr_ret || apply corr_fail. }
    intros n ?. apply corr_pure1. intros [<- Hn].
    eapply corr_bind; [apply corr_need|]. intros [] [].
    eapply corr_bind; [apply corr_arg; lia|]. cbn. intros v ?. by apply corr_ret; intros ? ->. }
  intros s Hs _. specialize (H s Hs I).
  destruct (read_head buf s) as [[a|] s1]; [|done].
  destruct (CborDec.read_head (view s)) as [[[[mj ai] v]|] d1] eqn:E; [|done].
  destruct H as (H1 & H2 & H3). split; [done|]. split; [done|]. split; [done|].
  apply read_head_inv in E; [|by apply Forall_drop]. apply E.
Qed.

(** What follows a head. *)
Lemma corr_head_bind {A B} (R : A -> B -> Prop) k l :
  (forall mj ai v, is_u64 v -> implements R (k (mj, ai, v)) (l (mj, ai, v))) ->
  implements R (read_head buf ≫= k) (CborDec.read_head ≫= l).
Proof.
  intros H. eapply corr_bind; [apply corr_head|]. intros [[mj ai] v] h. apply corr_pure1.
  intros [<- Hv]. by apply H.
Qed.

Ltac corr_tac :=
  repeat first [ by apply corr_ret | apply corr_fail | apply corr_head_bind; intros ? ? ? ? | progress case_cond ].

Lemma corr_uint : implements eq (harp_cdec_uint buf) CborDec.harp_cdec_uint.
Proof. unfold harp_cdec_uint, CborDec.harp_cdec_uint. corr_tac. Qed.

Lemma corr_int : implements eq (harp_cdec_int buf) CborDec.harp_cdec_int.
Proof. unfold harp_cdec_int, CborDec.harp_cdec_int. corr_tac. Qed.

Lemma corr_float : implements eq (harp_cdec_float buf) CborFloat.harp_cdec_float.
Proof. unfold harp_cdec_float, CborFloat.harp_cdec_float. corr_tac. Qed.

Lemma corr_count m : implements eq (read_count buf m) (CborDec.read_count m).
Proof.
  unfold read_count, CborDec.read_count. corr_tac; apply corr_get; intros s Hs; rewrite (left_view s Hs); corr_tac.
Qed.

Lemma corr_ext {A B} P (Q : A -> B -> mdec -> Prop) m m' n n' :
  (forall s, m' s = m s) -> (forall d, n' d = n d) -> corresponds P Q m n -> corresponds P Q m' n'.
Proof. intros H1 H2 H s Hs HP. rewrite H1, H2. by apply H. Qed.

(** [d->p += n] behind the test that [n] does not exceed [end - p]. *)
Lemma corr_advance {A B} (R : A -> B -> Prop) s n (a : A) (b : list Z -> B) :
  pointers_ok s -> 0 <= n <= left s ->
  R a (b (take (Z.to_nat n) (d_cur (view s)))) ->
  corresponds (fun t => t = s /\ True) (fun a b _ => R a b)
    (advance buf n;; mret a) (p ← take_bytes n; mret (b p)).
Proof.
  intros Hs Hn HR t Ht [-> _]. rewrite left_view, zlen_view in Hn by done.
  destruct (advance_run s n Hs Hn) as (E1 & E2 & E3).
  erewrite sm_bind_run by done. unfold mbind, SM_bind, take_bytes. cbn [fst snd mret SM_ret].
  by rewrite E3.
Qed.

Lemma corr_string m : implements (spans buf) (read_string buf m) (CborDec.read_string m).
Proof.
  unfold read_string, CborDec.read_string. apply corr_head_bind. intros mj ai v Hv.
  apply corr_get. intros s Hs. rewrite <- (left_view s Hs).
  destruct (negb (mj =? m)); [apply corr_fail|]. cbn [orb]. rewrite Z.gtb_ltb.
  destruct (Z.ltb_spec (left s) v) as [|Hl]; [apply corr_fail|]. unfold is_u64 in Hv.
  eapply corr_ext; [done|by intros d|].
  apply (corr_advance (spans buf) s v (m_p s, v) (fun p => p)); [done|lia|].
  rewrite left_view, zlen_view in Hl by done. destruct Hs as (H1 & H2 & _).
  unfold spans. cbn. split_and!; [lia|lia|lia|done].
Qed.

Lemma corr_for n m m' : implements eq m m' -> implements eq (sm_for n m) (sm_for n m').
Proof.
  intros Hm. eapply corr_ext; [intros; apply sm_for_nat|intros; apply sm_for_nat|].
  induction (Z.to_nat n) as [|k IH]; [by apply corr_ret|]. cbn [loop_nat].
  eapply corr_bind; [apply Hm|]. intros [] []. by eapply corr_weaken; [apply IH| |].
Qed.

Lemma corr_skip_item k : implements eq (skip_item buf k) (CborDec.skip_item k).
Proof.
  induction k as [|k IH]; [apply corr_fail|]. cbn [skip_item CborDec.skip_item].
  apply corr_head_bind. intros mj ai v Hv. case_cond; [by apply corr_ret|].
  case_cond; [|repeat case_cond; auto using corr_for; by apply corr_ret || apply corr_fail].
  apply corr_get. intros s Hs. rewrite <- (left_view s Hs), Z.gtb_ltb.
  destruct (Z.ltb_spec (left s) v) as [|Hl]; [apply corr_fail|]. unfold is_u64 in Hv.
  eapply (corr_ext _ _ (advance buf v;; mret ())); [|done|].
  { intros t. unfold mbind, SM_bind. by destruct (advance buf v t) as [[[]|] ?]. }
  apply (corr_advance eq s v () (fun _ => ())); [done|lia|done].
Qed.

Lemma corr_span : implements (spans buf) (harp_cdec_span buf) CborDec.harp_cdec_span.
Proof.
  intros s Hs _. unfold harp_cdec_span, CborDec.harp_cdec_span, harp_cdec_skip, CborDec.harp_cdec_skip, mbind, SM_bind, sm_get.
  generalize (S HARP_CBOR_MAX_DEPTH). intros k. pose proof (corr_skip_item k s Hs I) as H.
  destruct (skip_item buf k s) as [[[]|] s'], (CborDec.skip_item k (view s)) as [[[]|] d'] eqn:E; cbn in *; try tauto.
  destruct H as (Hs' & -> & _). split; [done|]. split; [done|].
  apply advances_skip_item in E as [[pre Hpre] _].
  apply (f_equal (@length Z)) in Hpre. rewrite length_app in Hpre. cbn [view d_cur] in *.
  rewrite !length_drop in *. destruct Hs as (H1 & H2 & _), Hs' as (H3 & H4 & _). unfold zlen in *.
  rewrite u64_small by (unfold is_u64; lia). unfold spans, zlen. cbn. split_and!; [lia|lia|lia|].
  f_equal. lia.
Qed.

(** [need(d, 1)], then the byte under the pointer. *)
Lemma corr_peeked {A B} (R : A -> B -> Prop) k l :
  (forall s b r, pointers_ok s -> avail 1 s -> d_cur (view s) = b :: r ->
     corresponds (fun t => t = s) (fun a b _ => R a b) (k b) (l (view s))) ->
  implements R (need 1;; b ← cur_byte buf; k b) (CborDec.need 1;; d ← sm_get; l d).
Proof.
  intros H. eapply corr_bind; [apply corr_need|]. intros [] [] s Hs Ha.
  destruct (cur_byte_run s 1 Hs Ha ltac:(lia)) as [E1 E2].
  erewrite sm_bind_run by done. by apply (H s _ _ Hs Ha E2 s).
Qed.

Lemma corr_step {A B} (R : A -> B -> Prop) s (a : A) (b : B) :
  pointers_ok s -> avail 1 s -> R a b ->
  corresponds (fun t => t = s) (fun a b _ => R a b) (advance buf 1;; mret a) (CborDec.next_byte;; mret b).
Proof.
  intros Hs Ha HR t Ht ->. destruct (cur_byte_run s 1 Hs Ha ltac:(lia)) as [_ E2].
  destruct (advance_run s 1 Hs) as (E3 & Hs' & E4); [by destruct Ha; lia|].
  erewrite sm_bind_run by done. unfold mbind, SM_bind, CborDec.next_byte. rewrite E2 in E4 |- *.
  cbn [fst snd mret SM_ret]. by rewrite E4.
Qed.

Lemma corr_bool : implements eq (harp_cdec_bool buf) CborDec.harp_cdec_bool.
Proof.
  apply corr_peeked. intros s b r Hs Ha ->.
  repeat case_cond; by apply corr_step || apply corr_fail.
Qed.

Lemma corr_null : implements eq (harp_cdec_null buf) CborDec.harp_cdec_null.
Proof.
  apply corr_peeked. intros s b r Hs Ha ->.
  repeat case_cond; by apply corr_step || apply corr_fail.
Qed.

Lemma corr_wrap {A B C D} (R : A -> B -> Prop) (Q : C -> D -> Prop) f g m n :
  implements R m n -> (forall a b, R a b -> Q (f a) (g b)) -> implements Q (wrap f m) (wrap g n).
Proof.
  intros H HQ. eapply corr_bind; [apply H|]. intros a b s Hs HR. apply (corr_ret (fun _ => True)); auto.
Qed.

Lemma corr_call c : implements (same_val buf) (mem_call buf c) (list_call c).
Proof.
  destruct c; cbn [mem_call list_call];
    (eapply corr_wrap;
      [first [apply corr_uint|apply corr_int|apply corr_float|apply corr_string|apply corr_count
             |apply corr_bool|apply corr_null|apply corr_skip_item|apply corr_span]|];
     by intros ? ? <- || done).
Qed.
End refinement.

(** ** Failures are sticky *)

Lemma advances_wrap {A B} (f : A -> B) m : advances m -> advances (wrap f m).
Proof. intros H. apply advances_bind; [done|]. intros. apply advances_ret. Qed.

Lemma advances_call c : advances (list_call c).
Proof.
  destruct c; apply advances_wrap;
    first [apply advances_float|apply advances_skip|apply advances_span|eauto with dec].
Qed.

Lemma strict_need {A} n (k : unit -> dec A) : strict (CborDec.need n ≫= k).
Proof. apply strict_bind. intros d E. unfold CborDec.need. by rewrite E. Qed.

Lemma strict_call c : strict (list_call c).
Proof.
  destruct c; apply strict_bind;
    first [apply strict_bind, strict_head|apply strict_need|idtac].
  intros d E. pose proof (skip_item_err (S HARP_CBOR_MAX_DEPTH) d E) as H.
  unfold CborDec.harp_cdec_span, CborDec.harp_cdec_skip. revert H.
  generalize (S HARP_CBOR_MAX_DEPTH). intros k. by destruct (CborDec.skip_item k d) as [[[]|] ?].
Qed.

Section calls.
Context (buf : list Z) (Hbuf : bytes_ok buf) (Hsize : zlen buf < 2 ^ 63).

Lemma call_step c s : pointers_ok buf s ->
  let '(r, s') := mem_call buf c s in
  pointers_ok buf s' /\ list_call c (view buf s) = ((list_call c (view buf s)).1, view buf s') /\
  option_Forall2 (same_val buf) r (list_call c (view buf s)).1 /\
  (m_err s = true -> r = None) /\ (r = None -> m_err s' = true).
Proof.
  intros Hs. pose proof (corr_call buf Hbuf Hsize c s Hs I) as H.
  pose proof (strict_call c (view buf s)) as Hst. pose proof (advances_call c (view buf s)) as Had.
  destruct (mem_call buf c s) as [r s'], (list_call c (view buf s)) as [l d']. cbn in *.
  destruct H as (H1 & -> & H3). specialize (Had l _ eq_refl) as [_ He]. cbn in He.
  split; [done|]. split; [done|].
  destruct r, l; try done; (split; [by constructor|]); (split; [|done || naive_solver]); intros E; specialize (Hst E); done.
Qed.

(** After any calls from a state in order: the state is in order, the results
    are those of the list decoder, and once the error is set nothing succeeds. *)
Lemma calls_run cs s : pointers_ok buf s ->
  let '(rs, s') := calls (mem_call buf) cs s in
  pointers_ok buf s' /\ (calls list_call cs (view buf s)).2 = view buf s' /\
  Forall2 (option_Forall2 (same_val buf)) rs (calls list_call cs (view buf s)).1 /\
  (m_err s = true -> Forall (fun r => r = None) rs) /\
  (forall pre post, rs = pre ++ None :: post -> Forall (fun r => r = None) post).
Proof.
  revert s. induction cs as [|c cs IH]; intros s Hs; cbn [calls].
  - split_and!; try done. by intros [].
  - pose proof (call_step c s Hs) as H. destruct (mem_call buf c s) as [r s1].
    destruct H as (H1 & -> & H3 & H4 & H5). specialize (IH s1 H1).
    destruct (calls (mem_call buf) cs s1) as [rs s2], (calls list_call cs (view buf s1)) as [ls d2].
    destruct IH as (I1 & I2 & I3 & I4 & I5). cbn in *. split; [done|]. split; [done|]. split; [by constructor|]. split.
    + intros E. constructor; [by apply H4|]. by apply I4, H5, H4.
    + intros [|r' pre] post [= -> ->]; [by apply I4, H5|by eapply I5].
Qed.

Lemma peek_run s : pointers_ok buf s ->
  harp_cdec_peek buf s = (Some (CborDec.harp_cdec_peek (view buf s)), s) /\
  harp_cdec_peek_null buf s = (Some (CborDec.harp_cdec_peek_null (view buf s)), s).
Proof.
  intros Hs. pose proof (zlen_view buf s Hs) as Hz. unfold d_left, view in Hz.
  unfold harp_cdec_peek, harp_cdec_peek_null, CborDec.harp_cdec_peek, CborDec.harp_cdec_peek_null, view, mbind, SM_bind, sm_get.
  cbn in *. destruct (m_err s) eqn:Ee; [done|]. cbn. rewrite Z.geb_leb.
  destruct (Z.leb_spec (m_end s) (m_p s)) as [Hl|Hl].
  - rewrite (proj2 (Z.ltb_ge _ _)) by done. destruct (drop _ buf); [done|]. rewrite zlen_cons in Hz.
    pose proof (zlen_nonneg l). lia.
  - rewrite (proj2 (Z.ltb_lt _ _)) by done.
    destruct (cur_byte_run buf s 1 Hs) as [E1 E2]; [split; [lia|done]|lia|].
    cbn in E2. rewrite E1, E2. done.
Qed.
End calls.

(** ** Property *)

(** C26: memory safety of the decoder.  Whatever bytes the object holds, and
    whatever calls a user makes one after the other, failed ones included, no
    load is made outside of the object and no pointer leaves it; every span a
    call hands out lies inside of the object; the results are those of the
    decoder on lists of [CborDec]; and after a call has failed no later one
    succeeds.  The two peeks are safe in every state reached. *)
Theorem cdec_memory_safe (buf : list Z) (cs : list dcall) :
  bytes_ok buf -> zlen buf < 2 ^ 63 ->
  let '(rs, s) := calls (mem_call buf) cs (harp_cdec_init buf) in
  m_ub s = false /\ 0 <= m_p s <= m_end s /\ m_end s = zlen buf /\
  Forall2 (option_Forall2 (same_val buf)) rs (calls list_call cs (CborDec.harp_cdec_init buf)).1 /\
  (forall pre post, rs = pre ++ None :: post -> Forall (fun r => r = None) post) /\
  harp_cdec_peek buf s = (Some (CborDec.harp_cdec_peek (view buf s)), s) /\
  harp_cdec_peek_null buf s = (Some (CborDec.harp_cdec_peek_null (view buf s)), s).
Proof.
  intros Hbuf Hsize.
  assert (pointers_ok buf (harp_cdec_init buf)) as Hs.
  { split; [|done]. cbn. pose proof (zlen_nonneg buf). lia. }
  pose proof (calls_run buf Hbuf Hsize cs _ Hs) as H.
  destruct (calls (mem_call buf) cs (harp_cdec_init buf)) as [rs s].
  destruct H as (H1 & _ & H3 & _ & H5). pose proof (peek_run buf s H1) as [Hp1 Hp2].
  destruct H1 as (? & ? & ?). done.
Qed.

(** A text of five bytes of which the object holds three: the call fails and
    what follows it too. *)
Lemma cdec_memory_safe_witness :
  let buf := [0x82; 1; 0x65; 65; 66; 67] in
  let '(rs, s) := calls (mem_call buf) [CArray; CUint; CText; CUint] (harp_cdec_init buf) in
  rs = [Some (MNum 2); Some (MNum 1); None; None] /\ m_ub s = false /\ 0 <= m_p s <= 6.
Proof.
  cbv zeta. split; [vm_compute; reflexivity|].
  pose proof (cdec_memory_safe [0x82; 1; 0x65; 65; 66; 67] [CArray; CUint; CText; CUint]) as H.
  destruct H as (H1 & H2 & H3 & _); [repeat constructor; unfold is_u8; cbn; lia|vm_compute; reflexivity|].
  rewrite H3 in H2. exact (conj H1 H2).
Defined.
