(* ===== verification/Sha256.v ===== *)
(** * SHA-256 ([core/src/sha256.c], [core/include/harp/sha256.h])

    The streaming hash of the content-addressed store: the context record, the
    block transform with its message schedule and rounds, and the incremental
    [init]/[update]/[final] interface.  The abstract specification
    [sha256_ref] is the textbook function - pad the whole message, cut it into
    64-byte blocks, fold the compression function over them - and the refinement
    theorem says the streaming interface computes it, however the message is cut
    into [update] calls. *)
From Stdlib Require Import ZArith Lia List Ascii String.
From stdpp Require Import base tactics list numbers.
From S2P Require Import Prelude.

Open Scope Z_scope.
Open Scope list_scope.

(** Words of hexadecimal digits, separated by white space. *)
Definition hex_digit (c : ascii) : Z :=
  let n := Z.of_N (N_of_ascii c) in if n <? 58 then n - 48 else n - 87.

Fixpoint hex_words (s : string) (cur : option Z) : list Z :=
  let flush := match cur with Some v => [v] | None => [] end in
  match s with
  | EmptyString => flush
  | String c r =>
      if (Z.of_N (N_of_ascii c) <=? 32) then flush ++ hex_words r None
      else hex_words r (Some (16 * default 0 cur + hex_digit c))
  end.

(** The round constants, in the source's notation. *)
Definition K : list Z := Eval vm_compute in hex_words
  "428a2f98 71374491 b5c0fbcf e9b5dba5 3956c25b 59f111f1 923f82a4 ab1c5ed5
   d807aa98 12835b01 243185be 550c7dc3 72be5d74 80deb1fe 9bdc06a7 c19bf174
   e49b69c1 efbe4786 0fc19dc6 240ca1cc 2de92c6f 4a7484aa 5cb0a9dc 76f988da
   983e5152 a831c66d b00327c8 bf597fc7 c6e00bf3 d5a79147 06ca6351 14292967
   27b70a85 2e1b2138 4d2c6dfc 53380d13 650a7354 766a0abb 81c2c92e 92722c85
   a2bfe8a1 a81a664b c24b8b70 c76c51a3 d192e819 d6990624 f40e3585 106aa070
   19a4c116 1e376c08 2748774c 34b0bcb5 391c0cb3 4ed8aa4a 5b9cca4f 682e6ff3
   748f82ee 78a5636f 84c87814 8cc70208 90befffa a4506ceb bef9a3f7 c67178f2"%string None.

(** [harp_sha256]: [state] has 8 words, [block] 64 bytes of which [blocklen] are
    in use. *)
Record harp_sha256 := mk_sha {
  sha_state : list Z;
  sha_bitlen : Z;
  sha_block : list Z;
  sha_blocklen : nat
}.

Definition ROTR (x n : Z) : Z := Z.lor (Z.shiftr x n) (u32 (Z.shiftl x (32 - n))).

Definition word (p : list Z) (i : nat) : Z :=
  Z.lor (Z.lor (Z.lor (u32 (Z.shiftl (nth (4 * i) p 0) 24)) (u32 (Z.shiftl (nth (4 * i + 1) p 0) 16)))
    (u32 (Z.shiftl (nth (4 * i + 2) p 0) 8))) (nth (4 * i + 3) p 0).

(** [for (i = 16; i < 64; i++) w[i] = ...]: [n] words are still to be appended. *)
Fixpoint schedule (n : nat) (w : list Z) : list Z :=
  match n with
  | O => w
  | S k =>
      let i := length w in
      let w15 := nth (i - 15) w 0 in
      let w2 := nth (i - 2) w 0 in
      let s0 := Z.lxor (Z.lxor (ROTR w15 7) (ROTR w15 18)) (Z.shiftr w15 3) in
      let s1 := Z.lxor (Z.lxor (ROTR w2 17) (ROTR w2 19)) (Z.shiftr w2 10) in
      schedule k (w ++ [u32 (nth (i - 16) w 0 + s0 + nth (i - 7) w 0 + s1)])
  end.

(** The eight working variables [a .. h]. *)
Record vars := mk_vars { va : Z; vb : Z; vc : Z; vd : Z; ve : Z; vf : Z; vg : Z; vh : Z }.

Definition sha_round (s : vars) (kw : Z * Z) : vars :=
  let '(k, w) := kw in
  let S1 := Z.lxor (Z.lxor (ROTR (ve s) 6) (ROTR (ve s) 11)) (ROTR (ve s) 25) in
  let ch := Z.lxor (Z.land (ve s) (vf s)) (Z.land (u32 (Z.lnot (ve s))) (vg s)) in
  let t1 := u32 (vh s + S1 + ch + k + w) in
  let S0 := Z.lxor (Z.lxor (ROTR (va s) 2) (ROTR (va s) 13)) (ROTR (va s) 22) in
  let maj := Z.lxor (Z.lxor (Z.land (va s) (vb s)) (Z.land (va s) (vc s))) (Z.land (vb s) (vc s)) in
  let t2 := u32 (S0 + maj) in
  mk_vars (u32 (t1 + t2)) (va s) (vb s) (vc s) (u32 (vd s + t1)) (ve s) (vf s) (vg s).

(** The body of [transform] on the state words: [p] is a 64-byte block. *)
Definition compress (st p : list Z) : list Z :=
  let w := schedule 48 (map (word p) (seq 0 16)) in
  let n := fun i => nth i st 0 in
  let s := fold_left sha_round (combine K w)
             (mk_vars (n 0%nat) (n 1%nat) (n 2%nat) (n 3%nat) (n 4%nat) (n 5%nat) (n 6%nat) (n 7%nat)) in
  [u32 (n 0%nat + va s); u32 (n 1%nat + vb s); u32 (n 2%nat + vc s); u32 (n 3%nat + vd s);
   u32 (n 4%nat + ve s); u32 (n 5%nat + vf s); u32 (n 6%nat + vg s); u32 (n 7%nat + vh s)].

Definition transform (c : harp_sha256) (p : list Z) : harp_sha256 :=
  mk_sha (compress (sha_state c) p) (sha_bitlen c) (sha_block c) (sha_blocklen c).

Definition H0 : list Z :=
  [0x6a09e667; 0xbb67ae85; 0x3c6ef372; 0xa54ff53a; 0x510e527f; 0x9b05688c; 0x1f83d9ab; 0x5be0cd19].

(** [harp_sha256_init] leaves the block bytes as they were. *)
Definition harp_sha256_init (c : harp_sha256) : harp_sha256 := mk_sha H0 0 (sha_block c) 0.

(** One iteration of the loop of [harp_sha256_update] on the input [p]: the new
    context and what is left of the input. *)
Definition update_step (c : harp_sha256) (p : list Z) : harp_sha256 * list Z :=
  let tk := Nat.min (64 - sha_blocklen c) (length p) in
  let c1 := mk_sha (sha_state c) (u64 (sha_bitlen c + u64 (Z.of_nat tk * 8)))
              (splice (sha_blocklen c) (take tk p) (sha_block c)) (sha_blocklen c + tk) in
  let c2 := if (sha_blocklen c1 =? 64)%nat
            then let c' := transform c1 (sha_block c1) in
                 mk_sha (sha_state c') (sha_bitlen c') (sha_block c') 0
            else c1 in
  (c2, drop tk p).

(** [while (len) ...]: every iteration takes at least one byte, so the input's
    length bounds the number of iterations. *)
Fixpoint update_loop (fuel : nat) (c : harp_sha256) (p : list Z) : harp_sha256 :=
  match fuel, p with
  | S k, _ :: _ => let '(c', p') := update_step c p in update_loop k c' p'
  | _, _ => c
  end.

Definition harp_sha256_update (c : harp_sha256) (p : list Z) : harp_sha256 :=
  update_loop (length p) c p.

(** [while (c->blocklen != 56) harp_sha256_update(c, &z, 1);] *)
Fixpoint pad_loop (fuel : nat) (c : harp_sha256) : harp_sha256 :=
  match fuel with
  | O => c
  | S k => if (sha_blocklen c =? 56)%nat then c else pad_loop k (harp_sha256_update c [0])
  end.

Definition sha_out (st : list Z) : list Z :=
  flat_map (fun w => [u8 (Z.shiftr w 24); u8 (Z.shiftr w 16); u8 (Z.shiftr w 8); u8 w]) st.

Definition harp_sha256_final (c : harp_sha256) : list Z :=
  let bits := sha_bitlen c in
  let c1 := harp_sha256_update c [0x80] in
  let c2 := pad_loop 64 c1 in
  let lenb := map (fun i => u8 (Z.shiftr bits (56 - 8 * i))) [0; 1; 2; 3; 4; 5; 6; 7] in
  let block := splice 56 lenb (sha_block c2) in
  sha_out (sha_state (transform (mk_sha (sha_state c2) (sha_bitlen c2) block (sha_blocklen c2)) block)).

(** The uninitialised context on the stack of [harp_sha256_digest]: its block
    holds arbitrary bytes [junk]. *)
Definition harp_sha256_digest_junk (junk data : list Z) : list Z :=
  harp_sha256_final (harp_sha256_update (harp_sha256_init (mk_sha [] 0 junk 0)) data).

Definition harp_sha256_digest (data : list Z) : list Z := harp_sha256_digest_junk (repeat 0 64) data.

(** ** Specification *)

Fixpoint chunks (k : nat) (l : list Z) : list (list Z) :=
  match k with O => [] | S k' => take 64 l :: chunks k' (drop 64 l) end.

(** The padding of FIPS 180-4: a one bit, zeros, the length in bits. *)
Definition sha_pad (m : list Z) : list Z :=
  m ++ [0x80] ++ repeat 0 (Z.to_nat ((55 - zlen m) mod 64)) ++ be_bytes 8 (8 * zlen m).

Definition sha256_ref (m : list Z) : list Z :=
  let pm := sha_pad m in
  sha_out (fold_left compress (chunks (length pm / 64) pm) H0).

(** ** The streaming invariant *)

(** The context after absorbing the message [m]: the full blocks have been
    compressed, the rest sits at the start of the block buffer. *)
Definition absorbed (c : harp_sha256) (m : list Z) : Prop :=
  exists bs rem, m = concat bs ++ rem /\ Forall (fun b => length b = 64%nat) bs /\
    sha_state c = fold_left compress bs H0 /\ take (length rem) (sha_block c) = rem /\
    sha_blocklen c = length rem /\ (length rem < 64)%nat /\ length (sha_block c) = 64%nat /\
    sha_bitlen c = u64 (8 * zlen m).

Lemma splice_length {A} o (s a : list A) : (o + length s <= length a)%nat -> length (splice o s a) = length a.
Proof. intros. unfold splice. rewrite !length_app, length_take, length_drop. lia. Qed.

Lemma splice_take {A} o (s a : list A) : (o + length s <= length a)%nat ->
  take (o + length s) (splice o s a) = take o a ++ s.
Proof.
  intros. unfold splice. rewrite app_assoc.
  rewrite take_app_le by (rewrite length_app, length_take; lia).
  rewrite take_ge; [done|]. rewrite length_app, length_take. lia.
Qed.

Lemma u64_add_idemp a b : u64 (u64 a + u64 b) = u64 (a + b).
Proof. unfold u64. by rewrite <- Z.add_mod by lia. Qed.

Lemma concat_length64 (bs : list (list Z)) :
  Forall (fun b => length b = 64%nat) bs -> length (concat bs) = (64 * length bs)%nat.
Proof. induction 1; cbn [concat length]; [done|]. rewrite length_app. lia. Qed.

(** A message with [n] bytes leaves [n mod 64] of them in the buffer. *)
Lemma absorbed_blocklen c m : absorbed c m -> Z.of_nat (sha_blocklen c) = zlen m mod 64.
Proof.
  intros (bs & rem & -> & Hbs & _ & _ & -> & Hr & _). unfold zlen.
  rewrite length_app, concat_length64 by done.
  rewrite Nat2Z.inj_add, Nat2Z.inj_mul. apply (Z.mod_unique _ _ (Z.of_nat (length bs))); lia.
Qed.

Lemma absorbed_init c : length (sha_block c) = 64%nat -> absorbed (harp_sha256_init c) [].
Proof. intros. exists [], []. split_and!; done || (cbn; lia). Qed.

(** One iteration of the update loop absorbs the bytes it takes. *)
Lemma absorbed_step c m p c' p' :
  absorbed c m -> p <> [] -> update_step c p = (c', p') ->
  exists t, p = t ++ p' /\ t <> [] /\ absorbed c' (m ++ t).
Proof.
  intros (bs & rem & Hm & Hbs & Hst & Hblk & Hbl & Hr & H64 & Hbit) Hp. unfold update_step.
  set (tk := Nat.min (64 - sha_blocklen c) (length p)). intros [= <- <-].
  assert (0 < length p)%nat by (destruct p; [done|cbn; lia]).
  assert (length (take tk p) = tk) as Ht by (rewrite length_take; lia).
  exists (take tk p). rewrite take_drop. split; [done|].
  split; [intros E; rewrite E in Ht; cbn in Ht; lia|].
  assert (u64 (sha_bitlen c + u64 (Z.of_nat tk * 8)) = u64 (8 * zlen (m ++ take tk p))) as Hb.
  { rewrite Hbit, u64_add_idemp, zlen_app. unfold zlen at 3. rewrite Ht. f_equal. lia. }
  pose proof (splice_take (sha_blocklen c) (take tk p) (sha_block c) ltac:(lia)) as Hs.
  rewrite Ht, Hbl, Hblk in Hs.
  pose proof (splice_length (sha_blocklen c) (take tk p) (sha_block c) ltac:(lia)) as Hsl.
  cbn [sha_blocklen sha_state sha_block sha_bitlen transform]. rewrite Hbl in *. fold tk.
  destruct (Nat.eqb_spec (length rem + tk) 64) as [E|E].
  - exists (bs ++ [rem ++ take tk p]), []. rewrite E in Hs. rewrite take_ge in Hs by lia.
    cbn [sha_blocklen sha_state sha_block sha_bitlen length].
    split_and!; try done; try lia.
    + by rewrite Hm, concat_app, app_nil_r, <- app_assoc; cbn [concat]; rewrite app_nil_r.
    + apply Forall_app. split; [done|]. constructor; [rewrite length_app; lia|constructor].
    + rewrite fold_left_app. cbn [fold_left]. by rewrite Hst, Hs.
  - exists bs, (rem ++ take tk p). cbn [sha_blocklen sha_state sha_block sha_bitlen].
    rewrite length_app, Ht. split_and!; try done; try lia. by rewrite Hm, app_assoc.
Qed.

Lemma absorbed_loop fuel c m p : (length p <= fuel)%nat -> absorbed c m ->
  absorbed (update_loop fuel c p) (m ++ p).
Proof.
  revert c m p. induction fuel as [|k IH]; intros c m p Hf Ha.
  { destruct p; [|cbn in Hf; lia]. by rewrite app_nil_r. }
  destruct p as [|x p]; [by rewrite app_nil_r|]. cbn [update_loop].
  destruct (update_step c (x :: p)) as [c' p'] eqn:E.
  destruct (absorbed_step c m (x :: p) c' p' Ha ltac:(done) E) as (t & Ht & Hne & Ha').
  rewrite Ht, app_assoc. apply IH; [|done]. apply (f_equal length) in Ht.
  rewrite length_app in Ht. destruct t; [done|]. cbn [length] in *. lia.
Qed.

Lemma absorbed_update c m p : absorbed c m -> absorbed (harp_sha256_update c p) (m ++ p).
Proof. by apply absorbed_loop. Qed.

(** The zero padding stops with 56 bytes in the buffer. *)
Lemma absorbed_pad fuel c m : absorbed c m -> (56 - zlen m) mod 64 <= Z.of_nat fuel ->
  absorbed (pad_loop fuel c) (m ++ repeat 0 (Z.to_nat ((56 - zlen m) mod 64))).
Proof.
  revert c m. induction fuel as [|k IH]; intros c m Ha Hf; pose proof (absorbed_blocklen c m Ha) as Hbl.
  { replace ((56 - zlen m) mod 64) with 0 by dlia. cbn. by rewrite app_nil_r. }
  cbn [pad_loop]. destruct (Nat.eqb_spec (sha_blocklen c) 56) as [E|E].
  { replace ((56 - zlen m) mod 64) with 0 by dlia. cbn. by rewrite app_nil_r. }
  pose proof (absorbed_update c m [0] Ha) as Ha'. specialize (IH _ _ Ha').
  rewrite zlen_app, zlen_cons, zlen_nil in IH.
  replace ((56 - zlen m) mod 64) with (1 + (56 - (zlen m + (1 + 0))) mod 64) in * by dlia.
  rewrite Z2Nat.inj_add by dlia. cbn [Z.to_nat Pos.to_nat Pos.iter_op Nat.add repeat].
  rewrite <- app_assoc in IH. apply IH. lia.
Qed.

Lemma chunks_concat bs : Forall (fun b => length b = 64%nat) bs -> chunks (length bs) (concat bs) = bs.
Proof.
  induction 1 as [|b bs Hb Hbs IH]; [done|]. cbn [length chunks concat].
  rewrite take_app_length', drop_app_length' by done. by rewrite IH.
Qed.

Lemma be_bytes_mod n m v : (n <= m)%nat -> be_bytes n (v mod 2 ^ (8 * Z.of_nat m)) = be_bytes n v.
Proof.
  induction n as [|n IH]; intros Hn; [done|]. cbn [be_bytes]. f_equal; [|apply IH; lia].
  unfold u8. rewrite <- !Z.land_ones by lia. apply Z.bits_inj'; intros i Hi.
  rewrite !Z.land_spec, !Z.shiftr_spec, !Z.land_spec, !Z.testbit_ones_nonneg by lia.
  destruct (Z.ltb_spec i 8); [|by rewrite !andb_false_r].
  rewrite (proj2 (Z.ltb_lt _ (8 * Z.of_nat m))) by lia. by rewrite andb_true_r.
Qed.

Lemma be_bytes_u64 v : be_bytes 8 (u64 v) = be_bytes 8 v.
Proof. by apply (be_bytes_mod 8 8). Qed.

(** Finishing an absorbed message outputs its reference digest. *)
Lemma absorbed_final c m : absorbed c m -> harp_sha256_final c = sha256_ref m.
Proof.
  intros Ha. assert (sha_bitlen c = u64 (8 * zlen m)) as Hbits.
  { destruct Ha as (? & ? & Ha). apply Ha. }
  pose proof (absorbed_update c m [0x80] Ha) as Ha1.
  pose proof (absorbed_pad 64 _ _ Ha1 ltac:(dlia)) as Ha2.
  replace ((56 - zlen (m ++ [128])) mod 64) with ((55 - zlen m) mod 64) in Ha2
    by (rewrite zlen_app; change (zlen [128]) with 1; dlia).
  unfold harp_sha256_final, sha256_ref. rewrite Hbits.
  change (map _ _) with (be_bytes 8 (u64 (8 * zlen m))). rewrite be_bytes_u64.
  set (lenb := be_bytes 8 (8 * zlen m)). set (c2 := pad_loop 64 _) in *.
  pose proof (absorbed_blocklen _ _ Ha2) as H56.
  destruct Ha2 as (bs & rem & Hm & Hbs & Hst & Hblk & Hbl & Hr & H64 & _).
  rewrite !zlen_app in H56. unfold zlen at 3 in H56. rewrite repeat_length in H56.
  change (zlen [128]) with 1 in H56.
  set (z := repeat 0 _) in *.
  assert (length rem = 56%nat) as Hrem by (rewrite <- Hbl; dlia).
  assert (splice 56 lenb (sha_block c2) = rem ++ lenb) as Hsp.
  { unfold splice. rewrite <- Hrem at 1. rewrite Hblk. rewrite drop_ge; [by rewrite app_nil_r|].
    rewrite H64. unfold lenb. by rewrite be_bytes_length. }
  assert (sha_pad m = concat (bs ++ [rem ++ lenb])) as Hpad.
  { unfold sha_pad. fold z lenb. rewrite !app_assoc, Hm, concat_app. cbn [concat].
    by rewrite app_nil_r, app_assoc. }
  assert (Forall (fun b => length b = 64%nat) (bs ++ [rem ++ lenb])) as Hall.
  { apply Forall_app. split; [done|]. constructor; [|constructor].
    rewrite length_app, Hrem. unfold lenb. by rewrite be_bytes_length. }
  rewrite Hpad, concat_length64, Nat.mul_comm, Nat.div_mul, chunks_concat by done.
  rewrite fold_left_app. cbn [fold_left transform sha_state]. by rewrite Hst, Hsp.
Qed.

(** ** Properties *)

(** Feeding a message in pieces. *)
Definition update_all (c : harp_sha256) (ps : list (list Z)) : harp_sha256 := fold_left harp_sha256_update ps c.

Lemma absorbed_update_all ps c m : absorbed c m -> absorbed (update_all c ps) (m ++ concat ps).
Proof.
  revert c m. induction ps as [|p ps IH]; intros c m Ha; [by rewrite app_nil_r|].
  cbn [concat]. rewrite app_assoc. apply IH. by apply absorbed_update.
Qed.

Lemma digest_ref data : harp_sha256_digest data = sha256_ref data.
Proof.
  unfold harp_sha256_digest, harp_sha256_digest_junk. apply absorbed_final.
  apply (absorbed_update _ []). by apply absorbed_init.
Qed.

Lemma compress_length st p : length (compress st p) = 8%nat.
Proof. done. Qed.

Lemma compress_words st p : Forall is_u32 (compress st p).
Proof. unfold compress. repeat constructor; apply u32_range. Qed.

Lemma fold_compress_length bs st : length st = 8%nat -> length (fold_left compress bs st) = 8%nat.
Proof. revert st. induction bs as [|b bs IH]; intros st Hl; [done|]. by apply IH. Qed.

Lemma sha_out_length st : length (sha_out st) = (4 * length st)%nat.
Proof. induction st as [|w st IH]; [done|]. cbn [sha_out flat_map app length] in *. fold (sha_out st). lia. Qed.

Lemma sha_out_ok st : bytes_ok (sha_out st).
Proof.
  induction st as [|w st IH]; [constructor|]. cbn [sha_out flat_map app].
  repeat (constructor; [apply u8_range|]). done.
Qed.

Lemma sha256_ref_length m : length (sha256_ref m) = 32%nat.
Proof. unfold sha256_ref. by rewrite sha_out_length, fold_compress_length. Qed.

Lemma digest_length data : length (harp_sha256_digest data) = 32%nat.
Proof. rewrite digest_ref. apply sha256_ref_length. Qed.

Lemma digest_ok data : bytes_ok (harp_sha256_digest data).
Proof. rewrite digest_ref. apply sha_out_ok. Qed.
#[export] Hint Resolve digest_length digest_ok : harp.

(** C37: the streaming SHA-256 refines the textbook function: whatever bytes the
    uninitialised context holds and however the message is cut into [update]
    calls, [final] returns the digest of the whole padded message, which is 32
    bytes long. *)
Theorem sha256_streaming_refines (c : harp_sha256) (pieces : list (list Z)) :
  length (sha_block c) = 64%nat ->
  harp_sha256_final (update_all (harp_sha256_init c) pieces) = sha256_ref (concat pieces) /\
  harp_sha256_digest (concat pieces) = sha256_ref (concat pieces) /\
  length (sha256_ref (concat pieces)) = 32%nat /\ bytes_ok (sha256_ref (concat pieces)).
Proof.
  intros Hc. split_and!.
  - apply absorbed_final. apply (absorbed_update_all _ _ []). by apply absorbed_init.
  - apply digest_ref.
  - apply sha256_ref_length.
  - apply sha_out_ok.
Qed.

Lemma sha256_streaming_refines_witness :
  harp_sha256_final (update_all (harp_sha256_init (mk_sha [] 7 (repeat 0xee 64) 9)) [[97]; []; [98; 99]])
  = [0xba; 0x78; 0x16; 0xbf; 0x8f; 0x01; 0xcf; 0xea; 0x41; 0x41; 0x40; 0xde; 0x5d; 0xae; 0x22; 0x23;
     0xb0; 0x03; 0x61; 0xa3; 0x96; 0x17; 0x7a; 0x9c; 0xb4; 0x10; 0xff; 0x61; 0xf2; 0x00; 0x15; 0xad].
Proof.
  rewrite (proj1 (sha256_streaming_refines (mk_sha [] 7 (repeat 0xee 64) 9) [[97]; []; [98; 99]] eq_refl)).
  vm_compute. reflexivity.
Defined.
