(* ===== verification/Frame.v ===== *)
(** * Frame and audio headers ([core/src/frame.c], [core/src/audio.c])

    The 8-byte header of the framed link and the 20-byte header of the audio
    stream, both little-endian.  A decoder always fills its record from the bytes
    and then judges it; [decode] therefore returns the verdict and the record. *)
From Stdlib Require Import ZArith Lia List.
From stdpp Require Import base tactics list numbers.
From S2P Require Import Prelude.

Open Scope Z_scope.
Open Scope list_scope.

Definition HARP_FRAME_FVER : Z := 0x01.
Definition HARP_FRAME_HDR_LEN : nat := 8.
Definition HARP_FRAME_MAX_PAYLOAD : Z := 65536.
Definition HARP_FLAG_FIN : Z := 0x0001.

Definition HARP_CTL_MAX_PAYLOAD : Z := 65536.
Definition HARP_EVT_MAX_PAYLOAD : Z := 65536.
Definition HARP_LOG_MAX_PAYLOAD : Z := 65536.
Definition HARP_OBJ_MAX_PAYLOAD : Z := 16 * 1024 * 1024.

Definition HARP_STREAM_CTL : Z := 0.
Definition HARP_STREAM_EVT : Z := 1.
Definition HARP_STREAM_OBJ : Z := 2.
Definition HARP_STREAM_LOG : Z := 3.

(** Byte [i] of a header buffer. *)
Definition byte_at (l : list Z) (i : nat) : Z := nth i l 0.

(** [(uint32_t)p[0] | p[1] << 8 | p[2] << 16 | p[3] << 24] and the 16-bit form:
    the reads of both headers. *)
Definition get16 (l : list Z) (o : nat) : Z :=
  u16 (Z.lor (byte_at l o) (Z.shiftl (byte_at l (o + 1)) 8)).
Definition get32 (l : list Z) (o : nat) : Z :=
  Z.lor (Z.lor (Z.lor (byte_at l o) (u32 (Z.shiftl (byte_at l (o + 1)) 8)))
    (u32 (Z.shiftl (byte_at l (o + 2)) 16))) (u32 (Z.shiftl (byte_at l (o + 3)) 24)).

Definition put16 (v : Z) : list Z := [u8 v; u8 (Z.shiftr v 8)].
Definition put32 (v : Z) : list Z := [u8 v; u8 (Z.shiftr v 8); u8 (Z.shiftr v 16); u8 (Z.shiftr v 24)].

(** ** Link frames *)

Record harp_frame_hdr := mk_frame_hdr { fver : Z; stream : Z; flags : Z; flength : Z }.

Definition harp_frame_hdr_encode (h : harp_frame_hdr) : list Z :=
  [fver h; stream h; u8 (Z.land (flags h) 0xff); u8 (Z.shiftr (flags h) 8);
   u8 (Z.land (flength h) 0xff); u8 (Z.shiftr (flength h) 8); u8 (Z.shiftr (flength h) 16);
   u8 (Z.shiftr (flength h) 24)].

(** The tests of the decoder on the record it has filled. *)
Definition frame_hdr_valid (h : harp_frame_hdr) : bool :=
  if negb (fver h =? HARP_FRAME_FVER) then false
  else if negb (Z.land (flags h) (u32 (Z.lnot HARP_FLAG_FIN)) =? 0) then false
  else if flength h >? HARP_FRAME_MAX_PAYLOAD then false
  else true.

Definition harp_frame_hdr_decode (l : list Z) : bool * harp_frame_hdr :=
  let h := mk_frame_hdr (byte_at l 0) (byte_at l 1) (get16 l 2) (get32 l 4) in
  (frame_hdr_valid h, h).

(** ** Audio frames *)

Definition HARP_AUDIO_HDR_LEN : nat := 20.
Definition HARP_AUDIO_FVER : Z := 0x01.
Definition HARP_AUDIO_FENCE : Z := 0x04.
Definition HARP_AUDIO_FMT_F32 : Z := 0x0001.

Record harp_audio_hdr := mk_audio_hdr {
  a_fver : Z; a_dirflags : Z; a_slots : Z; a_epoch : Z; a_ts : Z; a_nsamples : Z; a_fmt : Z
}.

Definition harp_audio_hdr_encode (h : harp_audio_hdr) : list Z :=
  [a_fver h; a_dirflags h] ++ put16 (a_slots h) ++ put32 (a_epoch h) ++ put32 (u32 (a_ts h)) ++
  put32 (u32 (Z.shiftr (a_ts h) 32)) ++ put16 (a_nsamples h) ++ put16 (a_fmt h).

Definition audio_hdr_valid (h : harp_audio_hdr) : bool :=
  if negb (a_fver h =? HARP_AUDIO_FVER) then false
  else if negb (a_fmt h =? HARP_AUDIO_FMT_F32) then false
  else if a_nsamples h =? 0 then false
  else true.

Definition harp_audio_hdr_decode (l : list Z) : bool * harp_audio_hdr :=
  let h := mk_audio_hdr (byte_at l 0) (byte_at l 1) (get16 l 2) (get32 l 4)
             (Z.lor (get32 l 8) (u64 (Z.shiftl (get32 l 12) 32))) (get16 l 16) (get16 l 18) in
  (audio_hdr_valid h, h).

(** [(size_t)h->slots * h->nsamples * 4] *)
Definition harp_audio_payload_len (h : harp_audio_hdr) : Z :=
  u64 (u64 (a_slots h * a_nsamples h) * 4).

(** ** Little-endian fields *)

Lemma is_u8_byte_at l i : bytes_ok l -> is_u8 (byte_at l i).
Proof.
  intros Hl. unfold byte_at. destruct (nth_in_or_default i l 0) as [Hi | ->]; [|ulia].
  unfold bytes_ok in Hl. rewrite List.Forall_forall in Hl. auto.
Qed.

Lemma get16_le l o : bytes_ok l -> get16 l o = byte_at l o + 256 * byte_at l (o + 1).
Proof.
  intros Hl. pose proof (is_u8_byte_at l o Hl). pose proof (is_u8_byte_at l (o + 1) Hl). unfold get16.
  rewrite lor_shiftl_add by (unfold is_u8 in *; lia). change (2 ^ 8) with 256.
  rewrite u16_small by ulia. lia.
Qed.

Lemma u32_shiftl_byte b n : is_u8 b -> 0 <= n <= 24 -> u32 (Z.shiftl b n) = Z.shiftl b n.
Proof.
  intros ? ?. apply u32_small. rewrite Z.shiftl_mul_pow2 by lia. unfold is_u8, is_u32 in *.
  assert (2 ^ n <= 2 ^ 24) by (apply Z.pow_le_mono_r; lia).
  assert (0 < 2 ^ n) by (apply Z.pow_pos_nonneg; lia). nia.
Qed.

Lemma get32_le l o : bytes_ok l ->
  get32 l o = byte_at l o + 256 * byte_at l (o + 1) + 65536 * byte_at l (o + 2) + 16777216 * byte_at l (o + 3).
Proof.
  intros Hl. pose proof (fun i => is_u8_byte_at l i Hl) as Hb.
  pose proof (Hb o). pose proof (Hb (o + 1)%nat). pose proof (Hb (o + 2)%nat). pose proof (Hb (o + 3)%nat).
  unfold get32. rewrite !u32_shiftl_byte by (done || lia). unfold is_u8 in *.
  rewrite (lor_shiftl_add _ _ 8) by lia.
  rewrite (lor_shiftl_add _ _ 16) by lia. rewrite (lor_shiftl_add _ _ 24) by lia. lia.
Qed.

Lemma get32_range l o : bytes_ok l -> is_u32 (get32 l o).
Proof.
  intros Hl. rewrite get32_le by done. pose proof (fun i => is_u8_byte_at l i Hl) as Hb.
  pose proof (Hb o). pose proof (Hb (o + 1)%nat). pose proof (Hb (o + 2)%nat). pose proof (Hb (o + 3)%nat).
  ulia.
Qed.

Lemma le16_split v : is_u16 v -> u8 v + 256 * u8 (Z.shiftr v 8) = v.
Proof. intros. rewrite Z.shiftr_div_pow2 by lia. unfold_u. change (2 ^ 8) with 256. dlia. Qed.

Lemma le32_split v : is_u32 v ->
  u8 v + 256 * u8 (Z.shiftr v 8) + 65536 * u8 (Z.shiftr v 16) + 16777216 * u8 (Z.shiftr v 24) = v.
Proof.
  intros. rewrite !Z.shiftr_div_pow2 by lia. unfold_u. change (2 ^ 8) with 256.
  change (2 ^ 16) with 65536. change (2 ^ 24) with 16777216. dlia.
Qed.

Lemma put16_bytes a b : is_u8 a -> is_u8 b -> put16 (a + 256 * b) = [a; b].
Proof.
  intros. unfold put16. rewrite Z.shiftr_div_pow2 by lia. unfold_u. change (2 ^ 8) with 256 in *.
  repeat f_equal; dlia.
Qed.

Lemma put32_bytes a b c d : is_u8 a -> is_u8 b -> is_u8 c -> is_u8 d ->
  put32 (a + 256 * b + 65536 * c + 16777216 * d) = [a; b; c; d].
Proof.
  intros. unfold put32. rewrite !Z.shiftr_div_pow2 by lia. unfold_u. change (2 ^ 8) with 256 in *.
  change (2 ^ 16) with 65536. change (2 ^ 24) with 16777216. repeat f_equal; dlia.
Qed.

Lemma u8_land_ff v : u8 (Z.land v 0xff) = u8 v.
Proof.
  change 0xff with (2 ^ 8 - 1). rewrite land_ones_mod by lia. unfold u8. by rewrite Z.mod_mod by lia.
Qed.

(** A list of a known length, element by element. *)
Ltac list_elems l H :=
  repeat (let x := fresh "b" in destruct l as [|x l]; [discriminate H|]; apply (f_equal Nat.pred) in H; cbn [length Nat.pred] in H);
  destruct l; [clear H|discriminate H].

(** ** Well-formed records *)

Definition frame_hdr_ok (h : harp_frame_hdr) : Prop :=
  is_u8 (fver h) /\ is_u8 (stream h) /\ is_u16 (flags h) /\ is_u32 (flength h).

Definition audio_hdr_ok (h : harp_audio_hdr) : Prop :=
  is_u8 (a_fver h) /\ is_u8 (a_dirflags h) /\ is_u16 (a_slots h) /\ is_u32 (a_epoch h) /\
  is_u64 (a_ts h) /\ is_u16 (a_nsamples h) /\ is_u16 (a_fmt h).

Lemma frame_encode_put h :
  harp_frame_hdr_encode h = [fver h; stream h] ++ put16 (flags h) ++ put32 (flength h).
Proof. unfold harp_frame_hdr_encode. by rewrite !u8_land_ff. Qed.

Lemma frame_encode_ok h : frame_hdr_ok h -> bytes_ok (harp_frame_hdr_encode h).
Proof.
  intros (H1 & H2 & _ & _). rewrite frame_encode_put. unfold put16, put32. cbn [app].
  repeat constructor; try apply H1; try apply H2; apply u8_range.
Qed.

Lemma frame_decode_encode h rest : frame_hdr_ok h ->
  harp_frame_hdr_decode (harp_frame_hdr_encode h ++ rest) = (frame_hdr_valid h, h).
Proof.
  intros Hh. pose proof (frame_encode_ok h Hh) as Hok. destruct Hh as (H1 & H2 & H3 & H4).
  unfold harp_frame_hdr_decode.
  change (get16 (harp_frame_hdr_encode h ++ rest) 2) with (get16 (harp_frame_hdr_encode h) 2).
  change (get32 (harp_frame_hdr_encode h ++ rest) 4) with (get32 (harp_frame_hdr_encode h) 4).
  rewrite get16_le, get32_le by done. rewrite frame_encode_put. cbn [byte_at nth app put16 put32 Nat.add].
  rewrite le16_split, le32_split by done. by destruct h.
Qed.

Lemma frame_encode_decode l : bytes_ok l -> length l = HARP_FRAME_HDR_LEN ->
  harp_frame_hdr_encode (harp_frame_hdr_decode l).2 = l /\ frame_hdr_ok (harp_frame_hdr_decode l).2.
Proof.
  intros Hok Hl. pose proof (get32_range l 4 Hok) as Hr. unfold harp_frame_hdr_decode. cbn [snd].
  pose proof (fun i => is_u8_byte_at l i Hok) as Hb. rewrite frame_encode_put.
  cbn [fver stream flags flength]. split.
  - rewrite get16_le, get32_le by done. rewrite put16_bytes, put32_bytes by done.
    unfold HARP_FRAME_HDR_LEN in Hl. by list_elems l Hl.
  - unfold frame_hdr_ok. cbn [fver stream flags flength]. split_and!; try done. apply u16_range.
Qed.

(** Reserved flags are rejected: what passes the mask is [0] or [FIN]. *)
Lemma flags_mask f : is_u16 f -> Z.land f (u32 (Z.lnot HARP_FLAG_FIN)) = 0 <-> f = 0 \/ f = HARP_FLAG_FIN.
Proof.
  intros Hf. change (u32 (Z.lnot HARP_FLAG_FIN)) with (Z.shiftl (2 ^ 31 - 1) 1).
  assert (Z.land f (Z.shiftl (2 ^ 31 - 1) 1) = 2 * (f / 2)) as ->.
  { apply Z.bits_inj'. intros i Hi. rewrite Z.land_spec.
    destruct (Z.eq_dec i 0) as [->|Hn].
    - by rewrite Z.shiftl_spec_low, andb_false_r, Z.testbit_even_0 by lia.
    - replace i with (Z.succ (i - 1)) by lia. rewrite Z.testbit_even_succ by lia.
      change (f / 2) with (f / 2 ^ 1). rewrite Z.div_pow2_bits by lia.
      rewrite Z.shiftl_spec by lia. replace (Z.succ (i - 1) - 1) with (i - 1) by lia.
      change (2 ^ 31 - 1) with (Z.ones 31). rewrite Z.testbit_ones_nonneg by lia.
      replace (i - 1 + 1) with (Z.succ (i - 1)) by lia.
      destruct (Z.ltb_spec (i - 1) 31); [by rewrite andb_true_r|].
      rewrite andb_false_r. symmetry. rewrite <- (Z.mod_small f (2 ^ 16)) by ulia.
      apply Z.mod_pow2_bits_high. lia. }
  unfold HARP_FLAG_FIN. unfold is_u16 in Hf. split; intros; dlia.
Qed.

(** The judgement of the decoder, as a proposition. *)
Lemma frame_hdr_valid_iff h : frame_hdr_ok h ->
  frame_hdr_valid h = true <->
  fver h = HARP_FRAME_FVER /\ (flags h = 0 \/ flags h = HARP_FLAG_FIN) /\ flength h <= HARP_FRAME_MAX_PAYLOAD.
Proof.
  intros (_ & _ & Hf & _). rewrite <- (flags_mask _ Hf). unfold frame_hdr_valid.
  repeat case_cond; split; try done; lia.
Qed.

Lemma audio_encode_ok h : audio_hdr_ok h -> bytes_ok (harp_audio_hdr_encode h).
Proof.
  intros (H1 & H2 & _). unfold harp_audio_hdr_encode, put16, put32. cbn [app].
  repeat constructor; try apply H1; try apply H2; apply u8_range.
Qed.

Lemma lor_u64_shiftl32 a b : is_u32 a -> is_u32 b ->
  Z.lor a (u64 (Z.shiftl b 32)) = a + 2 ^ 32 * b.
Proof.
  intros. rewrite u64_small by (rewrite Z.shiftl_mul_pow2 by lia; ulia).
  rewrite lor_shiftl_add by (unfold is_u32 in *; lia). lia.
Qed.

Lemma audio_decode_encode h rest : audio_hdr_ok h ->
  harp_audio_hdr_decode (harp_audio_hdr_encode h ++ rest) = (audio_hdr_valid h, h).
Proof.
  intros Hh. pose proof (audio_encode_ok h Hh) as Hok. destruct Hh as (H1 & H2 & H3 & H4 & H5 & H6 & H7).
  unfold harp_audio_hdr_decode.
  change (byte_at (harp_audio_hdr_encode h ++ rest) 0) with (a_fver h).
  change (byte_at (harp_audio_hdr_encode h ++ rest) 1) with (a_dirflags h).
  set (l := harp_audio_hdr_encode h) in *.
  assert (get16 (l ++ rest) 2 = a_slots h) as ->.
  { change (get16 (l ++ rest) 2) with (get16 l 2). rewrite get16_le by done. by apply le16_split. }
  assert (get16 (l ++ rest) 16 = a_nsamples h) as ->.
  { change (get16 (l ++ rest) 16) with (get16 l 16). rewrite get16_le by done. by apply le16_split. }
  assert (get16 (l ++ rest) 18 = a_fmt h) as ->.
  { change (get16 (l ++ rest) 18) with (get16 l 18). rewrite get16_le by done. by apply le16_split. }
  assert (get32 (l ++ rest) 4 = a_epoch h) as ->.
  { change (get32 (l ++ rest) 4) with (get32 l 4). rewrite get32_le by done. by apply le32_split. }
  assert (get32 (l ++ rest) 8 = u32 (a_ts h)) as ->.
  { change (get32 (l ++ rest) 8) with (get32 l 8). rewrite get32_le by done. apply le32_split, u32_range. }
  assert (get32 (l ++ rest) 12 = u32 (Z.shiftr (a_ts h) 32)) as ->.
  { change (get32 (l ++ rest) 12) with (get32 l 12). rewrite get32_le by done. apply le32_split, u32_range. }
  rewrite lor_u64_shiftl32 by apply u32_range.
  replace (u32 (a_ts h) + 2 ^ 32 * u32 (Z.shiftr (a_ts h) 32)) with (a_ts h); [by destruct h|].
  rewrite Z.shiftr_div_pow2 by lia. unfold_u. dlia.
Qed.

Lemma audio_encode_decode l : bytes_ok l -> length l = HARP_AUDIO_HDR_LEN ->
  harp_audio_hdr_encode (harp_audio_hdr_decode l).2 = l /\ audio_hdr_ok (harp_audio_hdr_decode l).2.
Proof.
  intros Hok Hl. pose proof (fun o => get32_range l o Hok) as Hr. unfold harp_audio_hdr_decode. cbn [snd].
  pose proof (fun i => is_u8_byte_at l i Hok) as Hb.
  rewrite lor_u64_shiftl32 by done. unfold harp_audio_hdr_encode, audio_hdr_ok.
  cbn [a_fver a_dirflags a_slots a_epoch a_ts a_nsamples a_fmt]. split.
  - assert (forall a b, is_u32 a -> is_u32 b ->
      u32 (a + 2 ^ 32 * b) = a /\ u32 (Z.shiftr (a + 2 ^ 32 * b) 32) = b) as Hs.
    { intros a b ? ?. rewrite Z.shiftr_div_pow2 by lia. unfold_u. split; dlia. }
    destruct (Hs (get32 l 8) (get32 l 12)) as [-> ->]; [done..|].
    rewrite !get16_le, !get32_le by done. rewrite !put16_bytes, !put32_bytes by done.
    unfold HARP_AUDIO_HDR_LEN in Hl. by list_elems l Hl.
  - pose proof (Hr 8%nat). pose proof (Hr 12%nat). split_and!; try done; try apply u16_range. ulia.
Qed.

Lemma payload_len_exact h : audio_hdr_ok h ->
  harp_audio_payload_len h = a_slots h * a_nsamples h * 4 /\ 0 <= harp_audio_payload_len h < 2 ^ 34.
Proof.
  intros (_ & _ & H3 & _ & _ & H6 & _). unfold harp_audio_payload_len, is_u16 in *.
  assert (0 <= a_slots h * a_nsamples h < 2 ^ 32) by nia.
  rewrite (u64_small (a_slots h * a_nsamples h)) by ulia. rewrite u64_small by ulia. lia.
Qed.

(** ** Properties *)

(** the frame header codec is a bijection and its decoder admits exactly the
    legal headers: decoding the encoding of any header record gives the record
    back, every 8 bytes are the encoding of what they decode to, and the verdict
    is [true] exactly for version 1, no flag but [FIN] and a payload of at most
    64 KiB. *)
Theorem frame_hdr_codec (h : harp_frame_hdr) (l rest : list Z) :
  frame_hdr_ok h -> bytes_ok l -> length l = HARP_FRAME_HDR_LEN ->
  harp_frame_hdr_decode (harp_frame_hdr_encode h ++ rest) = (frame_hdr_valid h, h) /\
  harp_frame_hdr_encode (harp_frame_hdr_decode l).2 = l /\
  ((harp_frame_hdr_decode l).1 = true <->
     let h' := (harp_frame_hdr_decode l).2 in
     fver h' = 1 /\ (flags h' = 0 \/ flags h' = HARP_FLAG_FIN) /\ flength h' <= 65536).
Proof.
  intros Hh Hok Hl. destruct (frame_encode_decode l Hok Hl) as [He Hd].
  split; [by apply frame_decode_encode|]. split; [done|]. by apply frame_hdr_valid_iff.
Qed.

Lemma frame_hdr_codec_witness :
  harp_frame_hdr_decode (harp_frame_hdr_encode (mk_frame_hdr 1 2 1 0x10000) ++ [9]) =
    (true, mk_frame_hdr 1 2 1 0x10000) /\
  harp_frame_hdr_encode (harp_frame_hdr_decode [1; 0; 2; 0; 5; 0; 0; 0]).2 = [1; 0; 2; 0; 5; 0; 0; 0].
Proof.
  destruct (frame_hdr_codec (mk_frame_hdr 1 2 1 0x10000) [1; 0; 2; 0; 5; 0; 0; 0] [9]) as (H1 & H2 & _).
  - unfold frame_hdr_ok; cbn; unfold_u; lia.
  - repeat constructor; cbn; unfold is_u8; lia.
  - reflexivity.
  - split; [exact H1|exact H2].
Defined.

(** the audio header codec is a bijection on its 20 bytes; the decoder admits
    exactly version 1, format float32 and a non-zero sample count (zero slots
    included), and the payload length it implies is computed without overflow. *)
Theorem audio_hdr_codec (h : harp_audio_hdr) (l rest : list Z) :
  audio_hdr_ok h -> bytes_ok l -> length l = HARP_AUDIO_HDR_LEN ->
  harp_audio_hdr_decode (harp_audio_hdr_encode h ++ rest) = (audio_hdr_valid h, h) /\
  harp_audio_hdr_encode (harp_audio_hdr_decode l).2 = l /\
  (audio_hdr_valid h = true <-> a_fver h = 1 /\ a_fmt h = 1 /\ a_nsamples h <> 0) /\
  harp_audio_payload_len h = a_slots h * a_nsamples h * 4.
Proof.
  intros Hh Hok Hl. split; [by apply audio_decode_encode|].
  split; [by apply audio_encode_decode|]. split; [|by apply payload_len_exact].
  unfold audio_hdr_valid, HARP_AUDIO_FVER, HARP_AUDIO_FMT_F32.
  repeat case_cond; split; try done; lia.
Qed.

Lemma audio_hdr_codec_witness :
  let h := mk_audio_hdr 1 5 0xffff 0xdeadbeef 0x0123456789abcdef 0xffff 1 in
  harp_audio_hdr_decode (harp_audio_hdr_encode h ++ [9]) = (true, h) /\
  harp_audio_payload_len h = 17179344900.
Proof.
  intros h.
  destruct (audio_hdr_codec h (repeat 3 20) [9]) as (H1 & _ & _ & H2).
  - unfold audio_hdr_ok; cbn; unfold_u; lia.
  - repeat constructor; cbn; unfold is_u8; lia.
  - reflexivity.
  - split; [exact H1|exact H2].
Defined.
