(* ===== verification/CborFields.v ===== *)
(** * Decoding keyed maps

    The message parsers of the code base share one shape: read a CBOR map header,
    then for every pair read an unsigned key and hand the decoder, positioned at
    the value, to a visitor that fills a record ([harp_env_parse] has the loop in
    line, [core/src/object.c] calls it [obj_fields]).  This file has that loop
    over a decoder paired with the visitor's record, the contract [reads] (an
    encoding is consumed exactly and has this effect on the record), its
    composition rules, and the rule for the whole map. *)
From Stdlib Require Import ZArith Lia List.
From stdpp Require Import base tactics list numbers.
From S2P Require Import Prelude.
From S2P Require Import Cbuf.
From S2P Require Import CborEnc.
From S2P Require Import CborDec.

Open Scope Z_scope.
Open Scope list_scope.

(** A parser: the decoder and the record it fills. *)
Abbreviation parser T := (SM (cdec * T)).

(** [if (!harp_cdec_map(&d, &n)) return false;
     for (i = 0; i < n; i++) { if (!harp_cdec_uint(&d, &key)) return false;
       if (!visit(key, &d, ud)) return false; }] *)
Definition map_fields {T} (visit : Z -> parser T unit) : parser T unit :=
  n ← on_fst harp_cdec_map;
  sm_for n (key ← on_fst harp_cdec_uint; visit key).

(** [m] consumes [bs] exactly and changes the record by [f], when at least [k]
    more bytes follow. *)
Definition reads {T} (k : Z) (m : parser T unit) (bs : list Z) (f : T -> T) : Prop :=
  forall rest t, k <= zlen rest -> m (mk_cdec (bs ++ rest) false, t) = (Some tt, (mk_cdec rest false, f t)).

(** A field of a map: its key, its encoded value, its effect on the record. *)
Record field (T : Type) := mk_field { f_key : Z; f_bytes : list Z; f_eff : T -> T }.
Arguments mk_field {T}. Arguments f_key {T}. Arguments f_bytes {T}. Arguments f_eff {T}.

Definition enc_field {T} (x : field T) : list Z := enc_uint (f_key x) ++ f_bytes x.
Definition enc_fields {T} (l : list (field T)) : list Z := enc_map (zlen l) ++ flat_map enc_field l.

(** The record after all fields, in order: a later field overrides an earlier. *)
Definition run_fields {T} (l : list (field T)) (t : T) : T := fold_left (fun t x => f_eff x t) l t.

Definition field_ok {T} (visit : Z -> parser T unit) (x : field T) : Prop :=
  is_u64 (f_key x) /\ 1 <= zlen (f_bytes x) /\ reads 0 (visit (f_key x)) (f_bytes x) (f_eff x).

Section reads.
Context {T : Type}.

Lemma reads_leaf {A} (m : dec A) (k : A -> parser T unit) bs1 bs2 a f c :
  0 <= c -> decodes 0 m bs1 a -> reads c (k a) bs2 f -> reads c (on_fst m ≫= k) (bs1 ++ bs2) f.
Proof.
  intros Hc Hm Hk rest t Hr. rewrite <- app_assoc.
  erewrite sm_bind_run; [apply Hk, Hr|]. unfold on_fst. cbn [fst].
  by rewrite Hm by apply zlen_nonneg.
Qed.

(** Container headers look ahead for their elements. *)
Lemma reads_header {A} (m : dec A) (k : A -> parser T unit) c1 bs1 bs2 a f c :
  decodes c1 m bs1 a -> reads c (k a) bs2 f -> 0 <= c -> c1 <= zlen bs2 ->
  reads c (on_fst m ≫= k) (bs1 ++ bs2) f.
Proof.
  intros Hm Hk Hc Hc1 rest t Hr. rewrite <- app_assoc.
  erewrite sm_bind_run; [apply Hk, Hr|]. unfold on_fst. cbn [fst].
  by rewrite Hm by (rewrite zlen_app; lia).
Qed.

Lemma reads_last {A} (m : dec A) (k : A -> parser T unit) bs a f :
  decodes 0 m bs a -> reads 0 (k a) [] f -> reads 0 (on_fst m ≫= k) bs f.
Proof. intros Hm Hk. rewrite <- (app_nil_r bs). by eapply reads_leaf. Qed.

Lemma reads_modify f : reads (T := T) 0 (on_snd (sm_modify f)) [] f.
Proof. done. Qed.

Lemma reads_only (m : dec unit) bs : decodes 0 m bs tt -> reads (T := T) 0 (on_fst m) bs (fun t => t).
Proof. intros Hm rest t Hr. unfold on_fst. cbn [fst]. by rewrite Hm. Qed.

Lemma reads_ext k (m : parser T unit) bs f g :
  (forall t, f t = g t) -> reads k m bs f -> reads k m bs g.
Proof. intros Hf H rest t Hr. rewrite H by done. by rewrite Hf. Qed.

Lemma reads_then (m m' : parser T unit) bs bs' f g :
  reads 0 m bs f -> reads 0 m' bs' g -> reads 0 (m;; m') (bs ++ bs') (fun t => g (f t)).
Proof.
  intros Hm Hm' rest t Hr. rewrite <- app_assoc. erewrite sm_bind_run by apply Hm, zlen_nonneg. by apply Hm'.
Qed.

Lemma reads_loop {A} (l : list A) (body : parser T unit) (enc : A -> list Z) (eff : A -> T -> T) :
  (forall x, x ∈ l -> reads 0 body (enc x) (eff x)) ->
  reads 0 (sm_for (zlen l) body) (flat_map enc l) (fun t => fold_left (fun t x => eff x t) l t).
Proof.
  intros Hl rest t _. rewrite sm_for_nat. unfold zlen. rewrite Nat2Z.id. revert t.
  induction l as [|x l IH]; intros t; [done|]. cbn [flat_map length loop_nat fold_left].
  rewrite <- app_assoc. erewrite sm_bind_run by (apply Hl; [by left|apply zlen_nonneg]).
  apply IH. intros y Hy. apply Hl. by right.
Qed.

Lemma flat_map_zlen_lb {A} (l : list A) (enc : A -> list Z) c :
  (forall x, x ∈ l -> c <= zlen (enc x)) -> c * zlen l <= zlen (flat_map enc l).
Proof.
  induction l as [|x l IH]; intros Hl; [by rewrite Z.mul_0_r|].
  cbn [flat_map]. rewrite zlen_cons, zlen_app. specialize (Hl x ltac:(by left)) as Hx.
  specialize (IH ltac:(intros y Hy; apply Hl; by right)). lia.
Qed.

Lemma enc_uint_zlen v : 1 <= zlen (enc_uint v).
Proof. unfold zlen, enc_uint. rewrite head_bytes_length. lia. Qed.

(** The whole map: every field is visited, in order. *)
Lemma reads_map_fields visit (l : list (field T)) :
  zlen l < 2 ^ 63 -> (forall x, x ∈ l -> field_ok visit x) ->
  reads 0 (map_fields visit) (enc_fields l) (run_fields l).
Proof.
  intros Hn Hl. pose proof (zlen_nonneg l). unfold map_fields, enc_fields.
  eapply (reads_header _ _ (2 * zlen l)); [apply decodes_map; lia| |lia|].
  - apply (reads_loop l _ enc_field f_eff). intros x Hx. destruct (Hl x Hx) as (Hk & _ & Hv).
    unfold enc_field. eapply reads_leaf; [lia|by apply decodes_uint|done].
  - apply flat_map_zlen_lb. intros x Hx. destruct (Hl x Hx) as (_ & Hb & _).
    unfold enc_field. rewrite zlen_app. pose proof (enc_uint_zlen (f_key x)). lia.
Qed.
End reads.

(** ** Items as values

    An item a decoder skips, or hands out encoded. *)

Definition skippable (i : item) : bool := item_ok i && (item_depth i <=? HARP_CBOR_MAX_DEPTH)%nat.

Lemma head_zlen mj v : 1 <= zlen (head_bytes mj v).
Proof. unfold zlen. rewrite head_bytes_length. lia. Qed.

Lemma item_zlen i : 1 <= zlen (enc_item i).
Proof.
  destruct i; cbn [enc_item]; unfold enc_bytes, enc_text, enc_array, enc_map;
    rewrite ?zlen_app, ?zlen_cons; try apply head_zlen;
    lazymatch goal with
    | |- 1 <= zlen (head_bytes ?m ?v) + zlen ?l => pose proof (head_zlen m v); pose proof (zlen_nonneg l); lia
    | |- 1 <= 1 + zlen ?l => pose proof (zlen_nonneg l); lia
    end.
Qed.

Lemma decodes_skip_item i : skippable i = true -> decodes 0 harp_cdec_skip (enc_item i) tt.
Proof.
  intros [Hok Hd]%andb_prop rest Hr. apply Nat.leb_le in Hd. apply decodes_skip; done || lia.
Qed.

Lemma decodes_span_item i : skippable i = true -> decodes 0 harp_cdec_span (enc_item i) (enc_item i).
Proof.
  intros Hs rest Hr. unfold harp_cdec_span. rewrite decodes_skip_item by done. cbn [d_cur].
  do 2 f_equal. rewrite length_app, Nat.add_sub. by rewrite take_app_length.
Qed.

(** ** Invariants of a parser

    [keeps P m]: whether [m] succeeds or fails, it keeps the invariant [P] of
    decoder and record. *)
Definition keeps {T A} (P : cdec * T -> Prop) (m : parser T A) : Prop :=
  forall s, P s -> P (m s).2.

Section keeps.
Context {T : Type} (P : cdec * T -> Prop).

Lemma keeps_bind {A B} (m : parser T A) (k : A -> parser T B) :
  keeps P m -> (forall a, keeps P (k a)) -> keeps P (m ≫= k).
Proof.
  intros Hm Hk s Hs. specialize (Hm s Hs). unfold mbind, SM_bind.
  destruct (m s) as [[a|] s']; [by apply Hk|done].
Qed.

Lemma keeps_ret {A} (a : A) : keeps P (mret a).
Proof. by intros s Hs. Qed.
Lemma keeps_fail {A} : keeps P (sm_fail (A := A)).
Proof. by intros s Hs. Qed.
Lemma keeps_guard b : keeps P (sm_guard b).
Proof. by destruct b; intros s Hs. Qed.

Lemma keeps_for n (m : parser T unit) : keeps P m -> keeps P (sm_for n m).
Proof. intros Hm s Hs. by apply sm_for_inv_all. Qed.

Lemma keeps_if {A} (c : bool) (m n : parser T A) : keeps P m -> keeps P n -> keeps P (if c then m else n).
Proof. by destruct c. Qed.

Lemma keeps_map_fields visit :
  (forall A (m : dec A), advances m -> keeps P (on_fst m)) ->
  (forall key, keeps P (visit key)) -> keeps P (map_fields visit).
Proof.
  intros Hd Hv. unfold map_fields. apply keeps_bind; [apply Hd; eauto with dec|]. intros n.
  apply keeps_for, keeps_bind; [apply Hd; eauto with dec|]. intros key. apply Hv.
Qed.
End keeps.

(** Follow the control flow of a visitor. *)
Ltac keeps_tac :=
  repeat lazymatch goal with
  | |- keeps _ (mbind _ _) => apply keeps_bind; [|intros]
  | |- keeps _ (if _ then _ else _) => apply keeps_if
  | |- keeps _ (mret _) => apply keeps_ret
  | |- keeps _ sm_fail => apply keeps_fail
  | |- keeps _ (sm_guard _) => apply keeps_guard
  | |- keeps _ (sm_for _ _) => apply keeps_for
  | |- keeps _ (match ?x with _ => _ end) => destruct x
  | |- keeps _ (let _ := _ in _) => cbv zeta
  end.
