(* ===== verification/Envelope.v ===== *)
(** * The control-plane envelope ([core/src/envelope.c])

    A control message is a CBOR map: key 0 the message type, 1 the request id,
    2 the method, 3 the body (any CBOR item, kept encoded); unknown keys are
    skipped.  [harp_env_parse] fills the C structure, whose method field is a
    64-byte array, and reports whether all mandatory keys were there. *)
From Stdlib Require Import ZArith Lia List.
From stdpp Require Import base tactics list numbers.
From S2P Require Import Prelude.
From S2P Require Import Cbuf.
From S2P Require Import CborEnc.
From S2P Require Import CborDec.
From S2P Require Import CborFields.

Open Scope Z_scope.
Open Scope list_scope.

Definition HARP_MSG_REQUEST : Z := 0.
Definition HARP_MSG_RESPONSE : Z := 1.
Definition HARP_MSG_ERROR : Z := 2.
Definition HARP_MSG_NOTIFICATION : Z := 3.

Definition HARP_METHOD_MAX : nat := 64.

(** [method] is the whole array; [body] the span [body .. body + body_len). *)
Record harp_env := mk_env {
  e_msgtype : Z; e_rid : Z; e_method : list Z; e_has_body : bool; e_body : list Z
}.

(** [memset(e, 0, sizeof *e)] *)
Definition env_zero : harp_env := mk_env 0 0 (repeat 0 HARP_METHOD_MAX) false [].

(** The structure and the local flags [have_type], [have_rid], [have_method]. *)
Record env_st := mk_est { es_env : harp_env; have_type : bool; have_rid : bool; have_method : bool }.

Definition set_type (t : Z) (s : env_st) : env_st :=
  let e := es_env s in
  mk_est (mk_env t (e_rid e) (e_method e) (e_has_body e) (e_body e)) true (have_rid s) (have_method s).
Definition set_rid (r : Z) (s : env_st) : env_st :=
  let e := es_env s in
  mk_est (mk_env (e_msgtype e) r (e_method e) (e_has_body e) (e_body e)) (have_type s) true (have_method s).
(** [memcpy(e->method, s, sl); e->method[sl] = 0;] *)
Definition set_method (m : list Z) (s : env_st) : env_st :=
  let e := es_env s in
  mk_est (mk_env (e_msgtype e) (e_rid e) (splice 0 (m ++ [0]) (e_method e)) (e_has_body e) (e_body e))
    (have_type s) (have_rid s) true.
Definition set_body (b : list Z) (s : env_st) : env_st :=
  let e := es_env s in
  mk_est (mk_env (e_msgtype e) (e_rid e) (e_method e) true b) (have_type s) (have_rid s) (have_method s).

(** The [switch (key)] of the loop. *)
Definition env_visit (key : Z) : parser env_st unit :=
  if key =? 0 then
    t ← on_fst harp_cdec_uint;
    if t >? 3 then sm_fail else on_snd (sm_modify (set_type t))
  else if key =? 1 then
    r ← on_fst harp_cdec_uint; on_snd (sm_modify (set_rid r))
  else if key =? 2 then
    s ← on_fst harp_cdec_text;
    if zlen s >=? Z.of_nat HARP_METHOD_MAX then sm_fail else on_snd (sm_modify (set_method s))
  else if key =? 3 then
    b ← on_fst harp_cdec_span; on_snd (sm_modify (set_body b))
  else on_fst harp_cdec_skip.

Definition harp_env_parse (buf : list Z) : bool * harp_env :=
  let '(r, (_, s)) := map_fields env_visit (harp_cdec_init buf, mk_est env_zero false false false) in
  match r with
  | Some _ => (have_type s && have_rid s && have_method s, es_env s)
  | None => (false, es_env s)
  end.

Section encoders.
Context {R : Realloc}.

Definition harp_env_head (out : cbuf) (msgtype rid : Z) (method : list Z) (has_body : bool) : cbuf :=
  let b := harp_cbor_map out (if has_body then 4 else 3) in
  let b := harp_cbor_uint b 0 in
  let b := harp_cbor_uint b msgtype in
  let b := harp_cbor_uint b 1 in
  let b := harp_cbor_uint b rid in
  let b := harp_cbor_uint b 2 in
  let b := harp_cbor_text b method in
  if has_body then harp_cbor_uint b 3 else b.

Definition harp_env_error (out : cbuf) (rid : Z) (method code : list Z) (message : option (list Z)) : cbuf :=
  let b := harp_env_head out HARP_MSG_ERROR rid method true in
  let b := harp_cbor_map b (match message with Some _ => 2 | None => 1 end) in
  let b := harp_cbor_uint b 0 in
  let b := harp_cbor_text b code in
  match message with
  | Some m => harp_cbor_text (harp_cbor_uint b 1) m
  | None => b
  end.
End encoders.

(** ** Abstract messages *)

(** A field of an envelope, as a sender may put it on the wire. *)
Inductive env_field : Set :=
  | EfType (t : Z)
  | EfRid (r : Z)
  | EfMethod (m : list Z)
  | EfBody (i : item)
  | EfOther (key : Z) (i : item).

Definition env_field_ok (f : env_field) : bool :=
  match f with
  | EfType t => (0 <=? t) && (t <=? 3)
  | EfRid r => u64_b r
  | EfMethod m => zlen m <? 64
  | EfBody i => skippable i
  | EfOther key i => (4 <=? key) && u64_b key && skippable i
  end.

Definition field_of (f : env_field) : field env_st :=
  match f with
  | EfType t => mk_field 0 (enc_uint t) (set_type t)
  | EfRid r => mk_field 1 (enc_uint r) (set_rid r)
  | EfMethod m => mk_field 2 (enc_text m) (set_method m)
  | EfBody i => mk_field 3 (enc_item i) (set_body (enc_item i))
  | EfOther key i => mk_field key (enc_item i) (fun s => s)
  end.

(** The reference semantics of a field sequence: fields act in order, the last
    one of a kind wins, unknown keys have no effect. *)
Definition env_of (l : list env_field) : env_st :=
  run_fields (map field_of l) (mk_est env_zero false false false).

Definition enc_env (l : list env_field) : list Z := enc_fields (map field_of l).

Definition env_complete (s : env_st) : bool := have_type s && have_rid s && have_method s.

(** Every admissible field is read as its effect. *)
Lemma env_field_reads f : env_field_ok f = true -> field_ok env_visit (field_of f).
Proof.
  intros Hok. destruct f as [t|r|m|i|key i]; cbn [field_of env_field_ok] in *; unfold u64_b in *;
    bool_to_prop; split_and!; cbn [f_key f_bytes f_eff]; try (unfold is_u64; lia);
    try apply enc_uint_zlen; try apply item_zlen.
  - eapply reads_last; [apply decodes_uint; ulia|]. rewrite Z.gtb_ltb, (proj2 (Z.ltb_ge _ _)) by lia. done.
  - eapply reads_last; [apply decodes_uint; ulia|]. done.
  - unfold enc_text. rewrite zlen_app. pose proof (head_zlen 3 (zlen m)). pose proof (zlen_nonneg m). lia.
  - eapply reads_last; [apply decodes_text; lia|].
    rewrite Z.geb_leb, (proj2 (Z.leb_gt (Z.of_nat HARP_METHOD_MAX) _)) by (unfold HARP_METHOD_MAX; lia). done.
  - eapply reads_last; [by apply decodes_span_item|]. done.
  - unfold env_visit. rewrite !(proj2 (Z.eqb_neq _ _)) by lia. by apply reads_only, decodes_skip_item.
Qed.

Lemma env_parse_run l rest : zlen l < 2 ^ 63 -> forallb env_field_ok l = true ->
  harp_env_parse (enc_env l ++ rest) = (env_complete (env_of l), es_env (env_of l)).
Proof.
  intros Hn Hl. rewrite List.forallb_forall in Hl. unfold harp_env_parse, harp_cdec_init, enc_env.
  rewrite (reads_map_fields env_visit (map field_of l)); [done| | |apply zlen_nonneg].
  - unfold zlen. by rewrite length_map.
  - intros x (f & -> & Hf)%list_elem_of_fmap. apply env_field_reads, Hl. by apply list_elem_of_In.
Qed.

(** ** Encoding *)

Definition head_fields (msgtype rid : Z) (method : list Z) : list env_field :=
  [EfType msgtype; EfRid rid; EfMethod method].

Section encode.
Context {R : Realloc}.

Lemma appends_env_head msgtype rid method (body : option (list Z)) :
  appends (fun b => harp_env_head b msgtype rid method (match body with Some _ => true | None => false end))
    (enc_map (match body with Some _ => 4 | None => 3 end) ++ flat_map enc_field (map field_of (head_fields msgtype rid method))
     ++ match body with Some _ => enc_uint 3 | None => [] end).
Proof.
  unfold harp_env_head. cbn [flat_map map head_fields field_of enc_field f_key f_bytes].
  unfold enc_field; cbn [f_key f_bytes].
  set (c := match body with Some _ => 4 | None => 3 end).
  replace (if match body with Some _ => true | None => false end then 4 else 3) with c by by destruct body.
  assert (appends (fun b => harp_cbor_text (harp_cbor_uint (harp_cbor_uint (harp_cbor_uint
      (harp_cbor_uint (harp_cbor_uint (harp_cbor_map b c) 0) msgtype) 1) rid) 2) method)
    ((((((enc_map c ++ enc_uint 0) ++ enc_uint msgtype) ++ enc_uint 1) ++ enc_uint rid) ++ enc_uint 2) ++ enc_text method)) as H.
  { repeat (eapply (appends_comp _ (fun b => _ b _)); [|auto with enc]). auto with enc. }
  rewrite !app_nil_r, <- !app_assoc. rewrite <- !app_assoc in H. destruct body; [|by rewrite app_nil_r].
  rewrite !app_assoc. rewrite !app_assoc in H. eapply (appends_comp _ (fun b => harp_cbor_uint b 3)); [exact H|auto with enc].
Qed.
End encode.
(** The fields of the message [harp_env_head] starts. *)
Definition message_fields (msgtype rid : Z) (method : list Z) (body : option item) : list env_field :=
  head_fields msgtype rid method ++ match body with Some i => [EfBody i] | None => [] end.

(** [harp_env_head], and the one body item its caller appends. *)
Definition env_message {R : Realloc} (out : cbuf) (msgtype rid : Z) (method : list Z)
    (body : option (cbuf -> cbuf)) : cbuf :=
  match body with
  | Some f => f (harp_env_head out msgtype rid method true)
  | None => harp_env_head out msgtype rid method false
  end.

Lemma appends_env_message {R : Realloc} msgtype rid method (f : option (cbuf -> cbuf)) body :
  match f, body with Some f, Some i => appends f (enc_item i) | None, None => True | _, _ => False end ->
  appends (fun b => env_message b msgtype rid method f) (enc_env (message_fields msgtype rid method body)).
Proof.
  intros Hf. destruct f as [f|], body as [i|]; try done; unfold env_message.
  - pose proof (appends_env_head msgtype rid method (Some [])) as Hh. cbv beta iota in Hh.
    eapply (appends_comp _ f) in Hf; [|exact Hh].
    replace (enc_env _) with ((enc_map 4 ++ flat_map enc_field (map field_of (head_fields msgtype rid method)) ++
      enc_uint 3) ++ enc_item i); [exact Hf|].
    unfold enc_env, enc_fields, message_fields. rewrite map_app, flat_map_app, <- !app_assoc.
    do 3 f_equal. cbn. by rewrite app_nil_r.
  - pose proof (appends_env_head msgtype rid method None) as Hh. cbv beta iota in Hh.
    unfold message_fields. rewrite !app_nil_r in *. exact Hh.
Qed.

(** What the fields of a message mean. *)
Lemma message_meaning msgtype rid method body :
  let e := es_env (env_of (message_fields msgtype rid method body)) in
  env_complete (env_of (message_fields msgtype rid method body)) = true /\
  e_msgtype e = msgtype /\ e_rid e = rid /\
  e_method e = splice 0 (method ++ [0]) (repeat 0 HARP_METHOD_MAX) /\
  e_has_body e = (match body with Some _ => true | None => false end) /\
  e_body e = (match body with Some i => enc_item i | None => [] end).
Proof. by destruct body. Qed.

(** The error body. *)
Definition error_item (code : list Z) (message : option (list Z)) : item :=
  IMap ((IUint 0, IText code) :: match message with Some m => [(IUint 1, IText m)] | None => [] end).

Definition error_body {R : Realloc} (code : list Z) (message : option (list Z)) (b : cbuf) : cbuf :=
  let b := harp_cbor_map b (match message with Some _ => 2 | None => 1 end) in
  let b := harp_cbor_text (harp_cbor_uint b 0) code in
  match message with Some m => harp_cbor_text (harp_cbor_uint b 1) m | None => b end.

Lemma env_error_message {R : Realloc} out rid method code message :
  harp_env_error out rid method code message =
    env_message out HARP_MSG_ERROR rid method (Some (error_body code message)).
Proof. done. Qed.

Lemma appends_error_body {R : Realloc} code message :
  appends (error_body code message) (enc_item (error_item code message)).
Proof.
  unfold error_body, error_item. destruct message as [m|]; cbn [enc_item flat_map fst snd].
  - replace (_ ++ _) with ((((enc_map 2 ++ enc_uint 0) ++ enc_text code) ++ enc_uint 1) ++ enc_text m)
      by (rewrite app_nil_r, <- !app_assoc; done).
    repeat (eapply (appends_comp _ (fun b => _ b _)); [|auto with enc]). auto with enc.
  - replace (_ ++ _) with ((enc_map 1 ++ enc_uint 0) ++ enc_text code)
      by (rewrite app_nil_r, <- !app_assoc; done).
    repeat (eapply (appends_comp _ (fun b => _ b _)); [|auto with enc]). auto with enc.
Qed.

(** ** Memory safety *)

(** The parse is confined to the message [buf] and to the 64 bytes of the method
    array, whose last byte is never written with anything but the terminator. *)
Definition env_inv (buf : list Z) (s : cdec * env_st) : Prop :=
  let e := es_env s.2 in
  (exists pre, buf = pre ++ d_cur s.1) /\ e_msgtype e <= 3 /\
  length (e_method e) = HARP_METHOD_MAX /\ nth 63 (e_method e) 0 = 0 /\
  (e_has_body e = true -> exists a b, buf = a ++ e_body e ++ b).

Lemma keeps_on_fst buf A (m : dec A) : advances m -> keeps (env_inv buf) (on_fst m).
Proof.
  intros Hm [d t] ((pre & Hpre) & Hs). unfold on_fst. cbn [fst snd] in *.
  destruct (m d) as [r d'] eqn:E. destruct (Hm _ _ _ E) as [[p2 Hp] _]. split; [|done].
  exists (pre ++ p2). cbn. by rewrite Hpre, Hp, app_assoc.
Qed.

Lemma set_method_inv m (a : list Z) : zlen m < 64 -> length a = 64%nat -> nth 63 a 0 = 0 ->
  length (splice 0 (m ++ [0]) a) = 64%nat /\ nth 63 (splice 0 (m ++ [0]) a) 0 = 0.
Proof.
  intros Hm Ha Hz. unfold zlen in Hm. unfold splice. change (take 0 a) with (@nil Z). cbn [app].
  assert (length (m ++ [0]) = S (length m)) as Hl by (rewrite length_app; cbn; lia).
  rewrite Hl. cbn [Nat.add]. split; [rewrite length_app, length_drop, Hl; lia|].
  destruct (Nat.eq_dec (length m) 63%nat) as [E|E].
  - rewrite app_nth1 by lia. rewrite app_nth2 by lia. by rewrite E.
  - rewrite app_nth2 by lia. rewrite Hl. transitivity (nth 63 a 0); [|done].
    rewrite <- (take_drop (S (length m)) a) at 2. rewrite app_nth2 by (rewrite length_take; lia).
    f_equal. rewrite length_take. lia.
Qed.

Lemma env_visit_keeps buf key : keeps (env_inv buf) (env_visit key).
Proof.
  unfold env_visit. repeat case_cond.
  - apply keeps_bind; [apply keeps_on_fst; eauto with dec|]. intros t. case_cond; [by intros s Hs|].
    intros [d t'] (H1 & H2 & H3). split; [done|]. cbn in *. split; [lia|done].
  - apply keeps_bind; [apply keeps_on_fst; eauto with dec|]. intros r. by intros s Hs.
  - apply keeps_bind; [apply keeps_on_fst, advances_string|]. intros m. case_cond; [by intros s Hs|].
    intros [d t'] (H1 & H2 & H3 & H4 & H5). cbn in *. unfold HARP_METHOD_MAX in *.
    destruct (set_method_inv m (e_method (es_env t')) ltac:(lia) H3 H4). split_and!; done.
  - intros [d t] Hs. pose proof Hs as ((pre & Hpre) & H2 & H3 & H4 & H5).
    unfold mbind, SM_bind, on_fst, harp_cdec_span. cbn [fst snd] in *.
    destruct (harp_cdec_skip d) as [[[]|] d'] eqn:E; destruct (advances_skip _ _ _ E) as [[p2 Hp] _];
      rewrite Hp in Hpre; cbn.
    + split_and!; try done.
      * exists (pre ++ p2). cbn. by rewrite <- app_assoc.
      * intros _. exists pre, (d_cur d'). cbn. rewrite Hp, length_app, Nat.add_sub, take_app_length. done.
    + split_and!; try done. exists (pre ++ p2). cbn. by rewrite <- app_assoc.
  - apply keeps_on_fst; eauto with dec.
Qed.

(** ** Presence of the mandatory fields *)

Definition is_type (f : env_field) : bool := match f with EfType _ => true | _ => false end.
Definition is_rid (f : env_field) : bool := match f with EfRid _ => true | _ => false end.
Definition is_method (f : env_field) : bool := match f with EfMethod _ => true | _ => false end.

Lemma run_flag (p : env_st -> bool) (q : env_field -> bool) l s :
  (forall f s, p (f_eff (field_of f) s) = q f || p s) ->
  p (run_fields (map field_of l) s) = existsb q l || p s.
Proof.
  intros Hp. revert s. induction l as [|f l IH]; intros s; [done|].
  change (run_fields (map field_of (f :: l)) s) with (run_fields (map field_of l) (f_eff (field_of f) s)).
  rewrite IH, Hp. cbn [existsb]. by destruct (q f), (existsb q l).
Qed.

Lemma env_complete_iff l :
  env_complete (env_of l) = existsb is_type l && existsb is_rid l && existsb is_method l.
Proof.
  unfold env_complete, env_of.
  rewrite (run_flag have_type is_type), (run_flag have_rid is_rid), (run_flag have_method is_method)
    by (by intros [] s).
  by rewrite !orb_false_r.
Qed.

(** ** Properties *)

(** envelopes round-trip.  The message [harp_env_head] starts, completed by
    one body item when announced, parses to the same type, request id and method
    with exactly that item's bytes as the body - also when more bytes follow in
    the buffer. *)
Theorem env_roundtrip {R : Realloc} (out : cbuf) (msgtype rid : Z) (method : list Z)
    (f : option (cbuf -> cbuf)) (body : option item) (rest : list Z) :
  0 <= msgtype <= 3 -> is_u64 rid -> zlen method < 64 -> Forall (fun b => b <> 0) method ->
  match f, body with
  | Some f, Some i => appends f (enc_item i) /\ skippable i = true
  | None, None => True
  | _, _ => False
  end ->
  cb_buf out = [] ->
  let b := env_message out msgtype rid method f in
  cb_oom b = false ->
  exists e, harp_env_parse (cb_buf b ++ rest) = (true, e) /\
    e_msgtype e = msgtype /\ e_rid e = rid /\ cstr (e_method e) = method /\
    e_has_body e = (match body with Some _ => true | None => false end) /\
    e_body e = (match body with Some i => enc_item i | None => [] end).
Proof.
  intros Ht Hr Hm Hnz Hf Ho b Hoom.
  pose proof (message_meaning msgtype rid method body) as (Hc & H1 & H2 & H3 & H4 & H5).
  exists (es_env (env_of (message_fields msgtype rid method body))).
  assert (cb_buf b = enc_env (message_fields msgtype rid method body)) as ->.
  { apply (appends_fresh (fun o => env_message o msgtype rid method f) _ out); [|done|done].
    apply appends_env_message. destruct f, body; done || apply Hf. }
  rewrite env_parse_run, Hc.
  - split_and!; try done. rewrite H3. by apply cstr_splice.
  - unfold zlen, message_fields, head_fields. rewrite length_app. destruct body; cbn; lia.
  - unfold message_fields, head_fields. rewrite forallb_app. cbn [forallb env_field_ok].
    unfold u64_b, is_u64 in *. repeat (rewrite andb_true_iff || rewrite Z.leb_le || rewrite Z.ltb_lt).
    split_and!; try done; try lia. destruct f, body; try done. destruct Hf as [_ Hs].
    cbn [forallb env_field_ok]. by rewrite Hs.
Qed.

Lemma env_roundtrip_witness :
  let R : Realloc := fun _ => true in
  exists e, harp_env_parse (cb_buf (env_message harp_cbuf_init 0 300 [99; 111; 114; 101]
      (Some (fun b => harp_cbor_uint b 7))) ++ [255]) = (true, e) /\
    e_msgtype e = 0 /\ e_rid e = 300 /\ cstr (e_method e) = [99; 111; 114; 101] /\
    e_has_body e = true /\ e_body e = [7].
Proof.
  intros R. apply (env_roundtrip harp_cbuf_init 0 300 [99; 111; 114; 101]
    (Some (fun b => harp_cbor_uint b 7)) (Some (IUint 7)) [255]).
  - lia.
  - unfold is_u64. lia.
  - vm_compute. reflexivity.
  - repeat constructor; discriminate.
  - split; [apply appends_uint|reflexivity].
  - reflexivity.
  - vm_compute. reflexivity.
Defined.

(** the envelope parser is order-independent and forward compatible: on any
    sequence of admissible fields, in any order, with repetitions and with unknown
    keys carrying any item of depth at most 32, it succeeds exactly when a type, a
    request id and a method are present, and the record is the one in which the
    fields acted in order (the last of a kind wins, unknown keys do nothing). *)
Theorem env_parse_fields (l : list env_field) (rest : list Z) :
  zlen l < 2 ^ 63 -> forallb env_field_ok l = true ->
  harp_env_parse (enc_env l ++ rest) =
    (existsb is_type l && existsb is_rid l && existsb is_method l, es_env (env_of l)).
Proof. intros Hn Hl. by rewrite env_parse_run, env_complete_iff. Qed.

Lemma env_parse_fields_witness :
  let l := [EfOther 9 (IArray [IUint 1; INint 4]); EfMethod [97; 98]; EfRid 5; EfType 3; EfRid 6] in
  harp_env_parse (enc_env l ++ []) = (true, es_env (env_of l)) /\ e_rid (es_env (env_of l)) = 6.
Proof.
  intros l. split; [|vm_compute; reflexivity].
  rewrite (env_parse_fields l []); vm_compute; reflexivity.
Defined.

(** the envelope parser is memory safe on arbitrary bytes: it stays within
    the message, the method array keeps its 64 bytes with a terminator in the
    last one, the message type is one of the four, and a body is a part of the
    message - whether the parse succeeds or not. *)
Theorem env_parse_safe (buf : list Z) :
  let e := (harp_env_parse buf).2 in
  e_msgtype e <= 3 /\ length (e_method e) = 64%nat /\ (length (cstr (e_method e)) < 64)%nat /\
  (e_has_body e = true -> exists a b, buf = a ++ e_body e ++ b).
Proof.
  cbv zeta. unfold harp_env_parse, harp_cdec_init.
  pose proof (keeps_map_fields (env_inv buf) env_visit (keeps_on_fst buf) (env_visit_keeps buf)
    (mk_cdec buf false, mk_est env_zero false false false)) as Hk.
  destruct (map_fields _ _) as [r [d s]].
  destruct Hk as (_ & H2 & H3 & H4 & H5); [split_and!; try done; by exists []|].
  cbn [fst snd] in *. unfold HARP_METHOD_MAX in H3.
  assert (length (cstr (e_method (es_env s))) <= 63)%nat by (apply cstr_length; [done|lia]).
  destruct r; cbn [snd]; split_and!; done || lia.
Qed.

(** error replies are understood: what [harp_env_error] writes parses as an
    error message for the same request, whose body is the map with the error code
    under key 0 and, when a message is given, the message under key 1. *)
Theorem env_error_roundtrip {R : Realloc} (out : cbuf) (rid : Z) (method code : list Z)
    (message : option (list Z)) (rest : list Z) :
  is_u64 rid -> zlen method < 64 -> zlen code < 2 ^ 64 ->
  (match message with Some m => zlen m < 2 ^ 64 | None => True end) ->
  cb_buf out = [] ->
  let b := harp_env_error out rid method code message in
  cb_oom b = false ->
  exists e, harp_env_parse (cb_buf b ++ rest) = (true, e) /\
    e_msgtype e = HARP_MSG_ERROR /\ e_rid e = rid /\ e_has_body e = true /\
    e_body e = enc_item (error_item code message).
Proof.
  intros Hr Hm Hc Hmsg Ho b Hoom. subst b. rewrite env_error_message in *.
  set (l := message_fields HARP_MSG_ERROR rid method (Some (error_item code message))).
  exists (es_env (env_of l)).
  assert (cb_buf (env_message out HARP_MSG_ERROR rid method (Some (error_body code message))) = enc_env l) as ->.
  { apply (appends_fresh (fun o => env_message o HARP_MSG_ERROR rid method (Some (error_body code message))) _ out);
      [|done|done]. apply appends_env_message. apply appends_error_body. }
  pose proof (message_meaning HARP_MSG_ERROR rid method (Some (error_item code message)))
    as (Hcm & H1 & H2 & H3 & H4 & H5). fold l in Hcm, H1, H2, H3, H4, H5.
  rewrite env_parse_run, Hcm; [done| |].
  - by unfold l, zlen.
  - unfold l, message_fields, head_fields. cbn [app forallb env_field_ok]. unfold skippable.
    unfold u64_b, is_u64 in *.
    assert (item_ok (error_item code message) = true) as ->.
    { unfold error_item. destruct message; cbn [item_ok forallb fst snd];
      rewrite ?(proj2 (Z.ltb_lt _ _) Hc), ?(proj2 (Z.ltb_lt _ _) Hmsg); done. }
    repeat (rewrite andb_true_iff || rewrite Z.leb_le || rewrite Z.ltb_lt).
    split_and!; try done; try lia. by destruct message.
Qed.

Lemma env_error_roundtrip_witness :
  let R : Realloc := fun _ => true in
  exists e, harp_env_parse (cb_buf (harp_env_error harp_cbuf_init 9 [120] [101; 114; 114] (Some [104; 105])) ++ []) = (true, e) /\
    e_msgtype e = 2 /\ e_rid e = 9 /\ e_has_body e = true /\
    e_body e = [0xa2; 0; 0x63; 101; 114; 114; 1; 0x62; 104; 105].
Proof.
  intros R. apply (env_error_roundtrip harp_cbuf_init 9 [120] [101; 114; 114] (Some [104; 105]) []);
    solve [unfold is_u64; lia | vm_compute; reflexivity].
Defined.
