(* ===== verification/Anonymize.v ===== *)
(** * The diagnostics anonymizer ([core/src/anonymize.c])

    [harp_anonymize_device_section] decodes the device section of a diagnostics
    bundle and re-encodes it, clearing the leaves that identify the device or its
    owner.  The nested loops of the source are the definitions below; the abstract
    specification is a [policy] - a tree that says for every path of the section
    whether what is there is kept, cleared or entered - and the function [anon] on
    items it denotes. *)
From Stdlib Require Import ZArith Lia List.
From stdpp Require Import base tactics list numbers.
From S2P Require Import Prelude.
From S2P Require Import Cbuf.
From S2P Require Import CborEnc.
From S2P Require Import CborDec.
From S2P Require Import CborFields.

Open Scope Z_scope.
Open Scope list_scope.

Section anonymize.
Context {R : Realloc}.

(** ** The code *)

(** Append to the output. *)
Definition emit (f : cbuf -> cbuf) : parser cbuf unit := on_snd (sm_modify f).

(** [if (!harp_cdec_span(&d, &span, &sl)) return false; harp_cbuf_put(out, span, sl);] *)
Definition copy_span : parser cbuf unit :=
  s ← on_fst harp_cdec_span; emit (fun b => harp_cbuf_put b s).

(** [if (!harp_cdec_skip(&d)) return false; harp_cbor_text(out, <empty>);] *)
Definition clear_text : parser cbuf unit :=
  on_fst harp_cdec_skip;; emit (fun b => harp_cbor_text b []).

(** The loop over the pairs of a map: header and keys are copied. *)
Definition map_loop (field : Z -> parser cbuf unit) : parser cbuf unit :=
  n ← on_fst harp_cdec_map;
  emit (fun b => harp_cbor_map b n);;
  sm_for n (key ← on_fst harp_cdec_uint; emit (fun b => harp_cbor_uint b key);; field key).

(** The loop over the elements of an array. *)
Definition array_loop (elem : parser cbuf unit) : parser cbuf unit :=
  n ← on_fst harp_cdec_array;
  emit (fun b => harp_cbor_array b n);;
  sm_for n elem.

(** Key 2 of the section: one log record. *)
Definition log_record : parser cbuf unit :=
  map_loop (fun fk => if fk =? 3 then clear_text else copy_span).

(** Keys 0 and 1 of the identity: the vendor or product. *)
Definition name_submap : parser cbuf unit :=
  map_loop (fun sk => if sk =? 1 then clear_text else copy_span).

(** Key 7 of the identity: one entry of the channel map. *)
Definition channel_entry : parser cbuf unit :=
  map_loop (fun ekey => if (ekey =? 2) || (ekey =? 3) || (ekey =? 4) then clear_text else copy_span).

Definition identity_field (ik : Z) : parser cbuf unit :=
  if (ik =? 0) || (ik =? 1) then name_submap
  else if (ik =? 2) || (ik =? 9) then clear_text
  else if ik =? 7 then array_loop channel_entry
  else copy_span.

Definition section_field (key : Z) : parser cbuf unit :=
  if key =? 2 then array_loop log_record
  else if negb (key =? 0) then copy_span
  else map_loop identity_field.

Definition harp_anonymize_device_section (out : cbuf) (sec : list Z) : bool * cbuf :=
  match map_loop section_field (harp_cdec_init sec, out) with
  | (Some tt, (d, b)) => (negb (d_err d), b)
  | (None, (_, b)) => (false, b)
  end.
End anonymize.

(** ** The specification *)

Inductive policy : Type :=
  | Keep
  | Clear
  | OnMap (f : Z -> policy)
  | OnArray (p : policy).

(** The header comment of [harp/anonymize.h]. *)
Definition log_policy : policy := OnMap (fun k => if k =? 3 then Clear else Keep).
Definition name_policy : policy := OnMap (fun k => if k =? 1 then Clear else Keep).
Definition channel_policy : policy := OnMap (fun k => if (k =? 2) || (k =? 3) || (k =? 4) then Clear else Keep).
Definition identity_policy : policy := OnMap (fun k =>
  if (k =? 0) || (k =? 1) then name_policy
  else if (k =? 2) || (k =? 9) then Clear
  else if k =? 7 then OnArray channel_policy
  else Keep).
Definition section_policy : policy := OnMap (fun k =>
  if k =? 2 then OnArray log_policy else if negb (k =? 0) then Keep else identity_policy).

(** The item a policy makes of an item; none if a container or key has the wrong
    type. *)
Fixpoint anon (p : policy) (i : item) : option item :=
  match p, i with
  | Keep, _ => Some i
  | Clear, _ => Some (IText [])
  | OnMap f, IMap l =>
      l' ← mapM (fun kv : item * item =>
                   match kv.1 with IUint k => v ← anon (f k) kv.2; Some (IUint k, v) | _ => None end) l;
      Some (IMap l')
  | OnArray q, IArray l => l' ← mapM (anon q) l; Some (IArray l')
  | _, _ => None
  end.

(** Paths into an item: the value of a key (of any pair with it), an element. *)
Inductive step : Set := Key (k : Z) | Idx (n : nat).

Definition child (s : step) (i v : item) : Prop :=
  match s, i with
  | Key k, IMap l => (IUint k, v) ∈ l
  | Idx n, IArray l => l !! n = Some v
  | _, _ => False
  end.

Fixpoint at_path (p : list step) (i v : item) : Prop :=
  match p with
  | [] => i = v
  | s :: r => exists c, child s i c /\ at_path r c v
  end.

Fixpoint policy_at (p : policy) (path : list step) {struct path} : policy :=
  match path, p with
  | [], _ => p
  | Key k :: r, OnMap f => policy_at (f k) r
  | Idx _ :: r, OnArray q => policy_at q r
  | _, Keep => Keep
  | _, _ => Clear
  end.

(** ** What a policy does to a path *)

Lemma anon_map_elem f l l' k v' :
  mapM (fun kv : item * item =>
     match kv.1 with IUint k => v ← anon (f k) kv.2; Some (IUint k, v) | _ => None end) l = Some l' ->
  (IUint k, v') ∈ l' <-> exists v, (IUint k, v) ∈ l /\ anon (f k) v = Some v'.
Proof.
  intros Hl%mapM_Some. induction Hl as [|[k0 v0] [k1 v1] l l' Hx _ IH].
  { split; [by intros ?%elem_of_nil|]. by intros (v & ?%elem_of_nil & _). }
  cbn [fst snd] in Hx. destruct k0 as [k0| | | | | | | |]; try discriminate.
  destruct (anon (f k0) v0) as [w|] eqn:Ew; [|discriminate]. injection Hx as <- <-.
  setoid_rewrite elem_of_cons. rewrite IH. split.
  - intros [[= -> ->]|(v & Hv & Ha)]; [exists v0|exists v]; auto.
  - intros (v & [[= -> ->]|Hv] & Ha); [left; congruence|right; eauto].
Qed.

Lemma anon_array_elem q l l' n v' : mapM (anon q) l = Some l' ->
  l' !! n = Some v' <-> exists v, l !! n = Some v /\ anon q v = Some v'.
Proof.
  intros Hl%mapM_Some. split.
  - intros Hn. destruct (Forall2_lookup_r _ _ _ _ _ Hl Hn) as (v & Hv & Ha). eauto.
  - intros (v & Hv & Ha). destruct (Forall2_lookup_l _ _ _ _ _ Hl Hv) as (w & Hw & Ha'). congruence.
Qed.

Lemma anon_cleared path : forall p i j v, anon p i = Some j -> policy_at p path = Clear -> at_path path j v -> v = IText [].
Proof.
  induction path as [|s path IH]; intros p i j v Ha Hp Hat.
  - cbn in Hp, Hat. subst p j. by injection Ha as ->.
  - destruct Hat as (c & Hc & Hat). destruct p as [| |f|q]; cbn [policy_at] in Hp.
    + by destruct s.
    + injection Ha as <-. by destruct s.
    + destruct i; try discriminate. cbn [anon] in Ha. destruct (mapM _ l) as [l'|] eqn:El; [|discriminate]. injection Ha as <-.
      destruct s; [|done]. cbn [child] in Hc. apply (anon_map_elem _ _ _ _ _ El) in Hc as (v0 & _ & Ha). by apply (IH (f k) v0 c v).
    + destruct i; try discriminate. cbn [anon] in Ha. destruct (mapM _ l) as [l'|] eqn:El; [|discriminate]. injection Ha as <-.
      destruct s; [done|]. cbn [child] in Hc. apply (anon_array_elem _ _ _ _ _ El) in Hc as (v0 & _ & Ha). by apply (IH q v0 c v).
Qed.

(** The elements of a well-shaped container all have an image. *)
Lemma anon_map_total f l l' k v :
  mapM (fun kv : item * item =>
     match kv.1 with IUint k => v ← anon (f k) kv.2; Some (IUint k, v) | _ => None end) l = Some l' ->
  (IUint k, v) ∈ l -> is_Some (anon (f k) v).
Proof.
  intros Hl%mapM_Some Hin. apply list_elem_of_lookup in Hin as [n Hn].
  destruct (Forall2_lookup_l _ _ _ _ _ Hl Hn) as (w & _ & Ha). cbn [fst snd] in Ha. by destruct (anon (f k) v).
Qed.

Lemma anon_kept path : forall p i j v, anon p i = Some j -> policy_at p path = Keep -> at_path path i v <-> at_path path j v.
Proof.
  induction path as [|s path IH]; intros p i j v Ha Hp.
  - cbn in Hp. subst p. injection Ha as ->. done.
  - destruct p as [| |f|q]; cbn [policy_at] in Hp; [by injection Ha as ->|by destruct s| |].
    + destruct s as [k|n]; [|done]. destruct i; try discriminate. cbn [anon] in Ha.
      destruct (mapM _ l) as [l'|] eqn:El; [|discriminate]. injection Ha as <-. cbn [at_path child]. split.
      * intros (c & Hc & Hat). destruct (anon_map_total _ _ _ _ _ El Hc) as [c' Hc'].
        exists c'. split; [apply (anon_map_elem _ _ _ _ _ El); eauto|]. by apply (IH (f k) c c').
      * intros (c' & Hc & Hat). apply (anon_map_elem _ _ _ _ _ El) in Hc as (c & Hc & Hc').
        exists c. split; [done|]. by apply (IH (f k) c c').
    + destruct s as [k|n]; [done|]. destruct i; try discriminate. cbn [anon] in Ha.
      destruct (mapM _ l) as [l'|] eqn:El; [|discriminate]. injection Ha as <-. cbn [at_path child]. split.
      * intros (c & Hc & Hat). apply mapM_Some in El as Hf. destruct (Forall2_lookup_l _ _ _ _ _ Hf Hc) as (c' & Hn & Hc').
        exists c'. split; [done|]. by apply (IH q c c').
      * intros (c' & Hc & Hat). apply (anon_array_elem _ _ _ _ _ El) in Hc as (c & Hc & Hc').
        exists c. split; [done|]. by apply (IH q c c').
Qed.

(** ** The code implements the policy *)

Section recodes.
Context {R : Realloc}.

(** [m] consumes any item the policy is defined on and appends its image. *)
Definition recodes (p : policy) (m : parser cbuf unit) : Prop :=
  forall i j, skippable i = true -> anon p i = Some j -> forall rest b,
  exists b', m (mk_cdec (enc_item i ++ rest) false, b) = (Some tt, (mk_cdec rest false, b')) /\
    (cb_oom b' = false -> cb_oom b = false /\ cb_buf b' = cb_buf b ++ enc_item j) /\
    (realloc_total R -> cb_oom b = false -> cb_oom b' = false).

Lemma emit_run (f : cbuf -> cbuf) d b : emit f (d, b) = (Some tt, (d, f b)).
Proof. done. Qed.

Lemma recodes_keep : recodes Keep copy_span.
Proof.
  intros i j Hi [= <-] rest b. eexists. split; [|split; [apply appends_put|intros Ht; by apply never_oom_put]].
  unfold copy_span, mbind, SM_bind, on_fst. cbn [fst snd]. by rewrite decodes_span_item by (done || apply zlen_nonneg).
Qed.

Lemma never_oom_text : realloc_total R -> never_oom (fun b => harp_cbor_text b []).
Proof. intros Ht b Ho. apply never_oom_put; [done|]. by apply never_oom_put. Qed.

Lemma recodes_clear : recodes Clear clear_text.
Proof.
  intros i j Hi [= <-] rest b. eexists. split; [|split; [apply (appends_text [])|intros Ht; by apply never_oom_text]].
  unfold clear_text, mbind, SM_bind, on_fst. cbn [fst snd]. by rewrite decodes_skip_item by (done || apply zlen_nonneg).
Qed.

(** The loops of the source, element by element. *)
Lemma recodes_elems {A} (enc enc' : A -> list Z) (body : parser cbuf unit) (l : list A) :
  (forall x, x ∈ l -> forall rest b, exists b', body (mk_cdec (enc x ++ rest) false, b) = (Some tt, (mk_cdec rest false, b')) /\
    (cb_oom b' = false -> cb_oom b = false /\ cb_buf b' = cb_buf b ++ enc' x) /\
    (realloc_total R -> cb_oom b = false -> cb_oom b' = false)) ->
  forall rest b, exists b', sm_for (zlen l) body (mk_cdec (flat_map enc l ++ rest) false, b) = (Some tt, (mk_cdec rest false, b')) /\
    (cb_oom b' = false -> cb_oom b = false /\ cb_buf b' = cb_buf b ++ flat_map enc' l) /\
    (realloc_total R -> cb_oom b = false -> cb_oom b' = false).
Proof.
  intros Hl rest b. rewrite sm_for_nat. unfold zlen. rewrite Nat2Z.id. revert b.
  induction l as [|x l IH]; intros b; [exists b; split_and!; try done; intros; by rewrite app_nil_r|].
  cbn [flat_map length loop_nat]. rewrite <- app_assoc.
  destruct (Hl x ltac:(by left) (flat_map enc l ++ rest) b) as (b1 & E1 & H1 & H2).
  destruct (IH ltac:(intros y Hy; apply Hl; by right) b1) as (b2 & E2 & H3 & H4).
  exists b2. erewrite sm_bind_run by exact E1. split_and!; [exact E2| |auto].
  intros Ho. destruct (H3 Ho) as [Ho1 Hb2]. destruct (H1 Ho1) as [Ho0 Hb1]. split; [done|].
  by rewrite Hb2, Hb1, <- app_assoc.
Qed.

(** A container's children are well-formed and less deep. *)
Lemma skippable_map l kv : skippable (IMap l) = true -> kv ∈ l -> skippable kv.1 = true /\ skippable kv.2 = true.
Proof.
  unfold skippable. intros [[_ Hok]%andb_prop Hd]%andb_prop Hin%list_elem_of_In.
  rewrite forallb_forall in Hok. specialize (Hok kv Hin). apply andb_prop in Hok as [H1 H2].
  change (item_ok kv.1 = true) in H1. change (item_ok kv.2 = true) in H2. rewrite H1, H2.
  apply Nat.leb_le in Hd. cbn [item_depth] in Hd. apply list_max_le in Hd. rewrite List.Forall_forall in Hd.
  specialize (Hd _ (in_map (fun kv => S (Nat.max (item_depth kv.1) (item_depth kv.2))) _ _ Hin)). cbv beta in Hd.
  split; apply Nat.leb_le; lia.
Qed.

Lemma skippable_array l i : skippable (IArray l) = true -> i ∈ l -> skippable i = true.
Proof.
  unfold skippable. intros [[_ Hok]%andb_prop Hd]%andb_prop Hin%list_elem_of_In.
  rewrite forallb_forall in Hok. specialize (Hok i Hin). change (item_ok i = true) in Hok. rewrite Hok.
  apply Nat.leb_le in Hd. cbn [item_depth] in Hd. apply list_max_le in Hd. rewrite List.Forall_forall in Hd.
  specialize (Hd _ (in_map (fun x => S (item_depth x)) _ _ Hin)). cbv beta in Hd. apply Nat.leb_le. lia.
Qed.

Lemma flat_map_zip {A B C} (g : B -> list C) (l : list A) (l' : list B) : length l = length l' ->
  flat_map g l' = flat_map (fun x => g x.2) (zip l l').
Proof. revert l'. induction l as [|x l IH]; intros [|y l'] Hl; try discriminate; [done|]. injection Hl as Hl. cbn. by rewrite IH. Qed.

Lemma flat_map_zip_l {A B C} (g : A -> list C) (l : list A) (l' : list B) : length l = length l' ->
  flat_map g l = flat_map (fun x => g x.1) (zip l l').
Proof. revert l'. induction l as [|x l IH]; intros [|y l'] Hl; try discriminate; [done|]. injection Hl as Hl. cbn. rewrite (IH l') by done. done. Qed.

Definition kv_bytes (kv : item * item) : list Z := enc_item kv.1 ++ enc_item kv.2.

Lemma kv_bytes_zlen kv : 2 <= zlen (kv_bytes kv).
Proof. unfold kv_bytes. rewrite zlen_app. pose proof (item_zlen kv.1). pose proof (item_zlen kv.2). lia. Qed.

(** A pair of a map and its image. *)
Lemma recodes_pair f field kv kv' :
  (forall k, is_u64 k -> recodes (f k) (field k)) -> skippable kv.1 = true -> skippable kv.2 = true ->
  match kv.1 with IUint k => v ← anon (f k) kv.2; Some (IUint k, v) | _ => None end = Some kv' ->
  forall rest b, exists b',
    (key ← on_fst harp_cdec_uint; emit (fun b => harp_cbor_uint b key);; field key) (mk_cdec (kv_bytes kv ++ rest) false, b) =
      (Some tt, (mk_cdec rest false, b')) /\
    (cb_oom b' = false -> cb_oom b = false /\ cb_buf b' = cb_buf b ++ kv_bytes kv') /\
    (realloc_total R -> cb_oom b = false -> cb_oom b' = false).
Proof.
  destruct kv as [k v]. cbn [fst snd]. intros Hf Hk Hv Hkv rest b.
  destruct k as [k| | | | | | | |]; try discriminate. destruct (anon (f k) v) as [w|] eqn:Ew; [|discriminate].
  injection Hkv as <-. assert (is_u64 k) as Hk64.
  { unfold skippable in Hk. cbn [item_ok] in Hk. unfold u64_b in Hk. unfold is_u64. lia. }
  destruct (Hf k Hk64 v w Hv Ew rest (harp_cbor_uint b k)) as (b2 & E2 & G1 & G2).
  exists b2. unfold kv_bytes. cbn [fst snd enc_item]. change (head_bytes 0 k) with (enc_uint k). split_and!.
  - rewrite <- app_assoc. unfold mbind, SM_bind, on_fst. cbn [fst snd].
    rewrite decodes_uint by (done || apply zlen_nonneg). exact E2.
  - intros Ho. destruct (G1 Ho) as [Ho1 Hb]. destruct (appends_uint k b Ho1) as [Ho0 Hb1]. split; [done|].
    by rewrite Hb, Hb1, <- app_assoc.
  - intros Ht Ho. apply G2; [done|]. by apply never_oom_put.
Qed.

Lemma recodes_map f field : (forall k, is_u64 k -> recodes (f k) (field k)) -> recodes (OnMap f) (map_loop field).
Proof.
  intros Hf i j Hi Ha rest b. destruct i as [| | | | |l| | |]; try discriminate. cbn [anon] in Ha.
  destruct (mapM _ l) as [l'|] eqn:El; [|discriminate]. injection Ha as <-.
  apply mapM_Some in El as HF. pose proof (Forall2_length HF) as Hlen.
  assert (zlen l < 2 ^ 63) as Hn.
  { unfold skippable in Hi. apply andb_prop in Hi as [[Hi _]%andb_prop _]. lia. }
  destruct (recodes_elems (fun x : (item * item) * (item * item) => kv_bytes x.1) (fun x => kv_bytes x.2)
    (key ← on_fst harp_cdec_uint; emit (fun b => harp_cbor_uint b key);; field key) (zip l l')) with rest (harp_cbor_map b (zlen l))
    as (b' & E & H1 & H2).
  { intros [kv kv'] Hin. apply list_elem_of_lookup in Hin as [n Hin].
    apply lookup_zip_with_Some in Hin as (x & y & [= <- <-] & Hx & Hy).
    destruct (skippable_map l kv Hi) as [Hk Hv]; [by apply list_elem_of_lookup; exists n|].
    apply (recodes_pair f field kv kv'); [done..|]. exact (Forall2_lookup_lr _ _ _ _ _ _ HF Hx Hy). }
  assert (zlen (zip l l') = zlen l) as Hz by (unfold zlen; rewrite length_zip_with; lia). rewrite Hz in E.
  rewrite <- (flat_map_zip_l kv_bytes l l' Hlen) in E. rewrite <- (flat_map_zip kv_bytes l l' Hlen) in H1.
  exists b'. split_and!.
  - unfold map_loop. cbn [enc_item]. rewrite <- app_assoc. unfold mbind at 1, SM_bind at 1, on_fst at 1. cbn [fst snd].
    rewrite decodes_map; [exact E| |].
    + pose proof (zlen_nonneg l). lia.
    + pose proof (flat_map_zlen_lb l kv_bytes 2 ltac:(intros; apply kv_bytes_zlen)) as Hlb.
      rewrite zlen_app. pose proof (zlen_nonneg rest). unfold kv_bytes at 1 in Hlb. lia.
  - intros Ho. destruct (H1 Ho) as [Ho1 Hb]. destruct (appends_map (zlen l) b Ho1) as [Ho0 Hb1]. split; [done|].
    rewrite Hb, Hb1. cbn [enc_item]. unfold zlen. by rewrite <- app_assoc, Hlen.
  - intros Ht Ho. apply H2; [done|]. by apply never_oom_put.
Qed.

Lemma recodes_array q elem : recodes q elem -> recodes (OnArray q) (array_loop elem).
Proof.
  intros Hq i j Hi Ha rest b. destruct i as [| | | |l| | | |]; try discriminate. cbn [anon] in Ha.
  destruct (mapM _ l) as [l'|] eqn:El; [|discriminate]. injection Ha as <-.
  apply mapM_Some in El as HF. pose proof (Forall2_length HF) as Hlen.
  assert (zlen l < 2 ^ 63) as Hn.
  { unfold skippable in Hi. apply andb_prop in Hi as [[Hi _]%andb_prop _]. lia. }
  destruct (recodes_elems (fun x : item * item => enc_item x.1) (fun x => enc_item x.2) elem (zip l l'))
    with rest (harp_cbor_array b (zlen l)) as (b' & E & H1 & H2).
  { intros [v w] Hin. apply list_elem_of_lookup in Hin as [n Hin].
    apply lookup_zip_with_Some in Hin as (x & y & [= <- <-] & Hx & Hy). cbn [fst snd].
    apply Hq; [apply (skippable_array l v Hi); by apply list_elem_of_lookup; exists n|].
    exact (Forall2_lookup_lr _ _ _ _ _ _ HF Hx Hy). }
  assert (zlen (zip l l') = zlen l) as Hz by (unfold zlen; rewrite length_zip_with; lia). rewrite Hz in E.
  rewrite <- (flat_map_zip_l enc_item l l' Hlen) in E. rewrite <- (flat_map_zip enc_item l l' Hlen) in H1.
  exists b'. split_and!.
  - unfold array_loop. cbn [enc_item]. rewrite <- app_assoc. unfold mbind at 1, SM_bind at 1, on_fst at 1. cbn [fst snd].
    rewrite decodes_array; [exact E| |].
    + pose proof (zlen_nonneg l). unfold is_u64. lia.
    + pose proof (flat_map_zlen_lb l enc_item 1 ltac:(intros; apply item_zlen)) as Hlb.
      rewrite zlen_app. pose proof (zlen_nonneg rest). lia.
  - intros Ho. destruct (H1 Ho) as [Ho1 Hb]. destruct (appends_array (zlen l) b Ho1) as [Ho0 Hb1]. split; [done|].
    rewrite Hb, Hb1. cbn [enc_item]. unfold zlen. by rewrite <- app_assoc, Hlen.
  - intros Ht Ho. apply H2; [done|]. by apply never_oom_put.
Qed.

Lemma recodes_if c p q m n : recodes p m -> recodes q n -> recodes (if c : bool then p else q) (if c then m else n).
Proof. by destruct c. Qed.

(** The code's loops are the policy's tree. *)
Lemma recodes_section : recodes section_policy (map_loop section_field).
Proof.
  apply recodes_map. intros k _. unfold section_field. repeat apply recodes_if; try apply recodes_keep.
  - apply recodes_array, recodes_map. intros fk _. apply recodes_if; [apply recodes_clear|apply recodes_keep].
  - apply recodes_map. intros ik _. unfold identity_field.
    repeat apply recodes_if; try apply recodes_keep; try apply recodes_clear.
    + apply recodes_map. intros sk _. apply recodes_if; [apply recodes_clear|apply recodes_keep].
    + apply recodes_array, recodes_map. intros ek _. apply recodes_if; [apply recodes_clear|apply recodes_keep].
Qed.
End recodes.

(** The leaves to clear, as [harp/anonymize.h] lists them: the serial and the
    build-id, the vendor's and the product's name, name, group and path of the
    entries of the channel map, the text of the log records. *)
Inductive pii_path : list step -> Prop :=
  | pii_serial : pii_path [Key 0; Key 2]
  | pii_build : pii_path [Key 0; Key 9]
  | pii_name k : k ∈ [0; 1] -> pii_path [Key 0; Key k; Key 1]
  | pii_channel n k : k ∈ [2; 3; 4] -> pii_path [Key 0; Key 7; Idx n; Key k]
  | pii_log n : pii_path [Key 2; Idx n; Key 3].

(** What is to be preserved: the other members next to them. *)
Inductive public_path : list step -> Prop :=
  | public_member k : k ∉ [0; 2] -> public_path [Key k]
  | public_identity k : k ∉ [0; 1; 2; 7; 9] -> public_path [Key 0; Key k]
  | public_id k k' : k ∈ [0; 1] -> k' <> 1 -> public_path [Key 0; Key k; Key k']
  | public_channel n k : k ∉ [2; 3; 4] -> public_path [Key 0; Key 7; Idx n; Key k]
  | public_log n k : k <> 3 -> public_path [Key 2; Idx n; Key k].

Lemma pii_cleared path : pii_path path -> policy_at section_policy path = Clear.
Proof.
  intros [| |k Hk|n k Hk|n]; try reflexivity.
  - repeat (apply elem_of_cons in Hk as [-> |Hk]; [reflexivity|]). by apply elem_of_nil in Hk.
  - repeat (apply elem_of_cons in Hk as [-> |Hk]; [reflexivity|]). by apply elem_of_nil in Hk.
Qed.

Ltac not_key := rewrite ?(proj2 (Z.eqb_neq _ _)) by (intros ->; match goal with H : _ ∉ _ |- _ => apply H; repeat (first [left | right]) end).

Lemma public_kept path : public_path path -> policy_at section_policy path = Keep.
Proof.
  intros [k Hk|k Hk|k k' Hk Hk'|n k Hk|n k Hk].
  - cbn [policy_at section_policy]. unfold section_policy. not_key. done.
  - unfold section_policy, policy_at, identity_policy. cbn [Z.eqb negb]. not_key. done.
  - repeat (apply elem_of_cons in Hk as [-> |Hk]; [cbn; by rewrite (proj2 (Z.eqb_neq _ _))|]). by apply elem_of_nil in Hk.
  - unfold section_policy, policy_at, identity_policy. cbn [Z.eqb negb orb Pos.eqb]. unfold channel_policy. not_key. done.
  - unfold section_policy, policy_at, log_policy. cbn [Z.eqb negb orb Pos.eqb]. by rewrite (proj2 (Z.eqb_neq _ _)).
Qed.

(** C40: the anonymizer clears exactly the identifying leaves.  On every section of
    the right shape it returns true; unless memory runs out - and it does not when
    allocation succeeds - it appends the encoding of an item in which whatever is at
    a path to be cleared is the empty string and in which everything at the paths
    to be preserved is what it was. *)
Theorem anonymize_private {R : Realloc} (out : cbuf) (i : item) :
  skippable i = true -> is_Some (anon section_policy i) ->
  let '(ok, out') := harp_anonymize_device_section out (enc_item i) in
  ok = true /\ (realloc_total R -> cb_oom out = false -> cb_oom out' = false) /\
  (cb_oom out' = false -> exists j, cb_buf out' = cb_buf out ++ enc_item j /\
     (forall path v, pii_path path -> at_path path j v -> v = IText []) /\
     (forall path v, public_path path -> at_path path i v <-> at_path path j v)).
Proof.
  intros Hi [j Hj]. destruct (recodes_section i j Hi Hj [] out) as (b' & E & H1 & H2).
  unfold harp_anonymize_device_section, harp_cdec_init. rewrite app_nil_r in E. rewrite E. cbn [d_err negb].
  split_and!; [done|done|]. intros Ho. destruct (H1 Ho) as [_ Hb]. exists j. split_and!; [done| |].
  - intros path v Hp. apply (anon_cleared path section_policy i); [done|by apply pii_cleared].
  - intros path v Hp. apply (anon_kept path section_policy i); [done|by apply public_kept].
Qed.

(** An identity with vendor, serial and channel map, counters, one log record. *)
Definition demo_section : item := IMap
  [(IUint 0, IMap [(IUint 0, IMap [(IUint 0, IUint 7); (IUint 1, IText [65])]); (IUint 2, IText [83; 78]); (IUint 3, IUint 5);
                   (IUint 7, IArray [IMap [(IUint 0, IUint 1); (IUint 2, IText [66])]])]);
   (IUint 1, IMap [(IUint 4, IUint 9)]);
   (IUint 2, IArray [IMap [(IUint 0, IUint 12); (IUint 3, IText [67; 68])]])].

Definition demo_cleared : item := IMap
  [(IUint 0, IMap [(IUint 0, IMap [(IUint 0, IUint 7); (IUint 1, IText [])]); (IUint 2, IText []); (IUint 3, IUint 5);
                   (IUint 7, IArray [IMap [(IUint 0, IUint 1); (IUint 2, IText [])]])]);
   (IUint 1, IMap [(IUint 4, IUint 9)]);
   (IUint 2, IArray [IMap [(IUint 0, IUint 12); (IUint 3, IText [])]])].

Lemma anonymize_private_witness :
  let R := (fun _ => true) : Realloc in
  let '(ok, out') := harp_anonymize_device_section harp_cbuf_init (enc_item demo_section) in
  ok = true /\ cb_buf out' = enc_item demo_cleared /\
  exists j, cb_buf out' = enc_item j /\ (forall path v, pii_path path -> at_path path j v -> v = IText []).
Proof.
  intros R. pose proof (anonymize_private (R := R) harp_cbuf_init demo_section eq_refl ltac:(eexists; reflexivity)) as H.
  assert ((harp_anonymize_device_section harp_cbuf_init (enc_item demo_section)).2.(cb_buf) = enc_item demo_cleared) as Hb
    by (vm_compute; reflexivity).
  destruct (harp_anonymize_device_section _ _) as [ok out']. cbn [snd] in Hb. destruct H as (H1 & H2 & H3).
  split_and!; [exact H1|exact Hb|]. destruct H3 as (j & Hj & Hp & _); [by apply H2|]. exists j. split; [exact Hj|exact Hp].
Defined.
