(* ===== verification/Object.v ===== *)
(** * Content-addressed objects ([core/src/object.c])

    Hashes (an algorithm byte and a SHA-256 digest) and the four object kinds -
    blob, list, tree, snapshot - with their deterministic CBOR encoders and their
    parsers.  Callbacks [cb(x, ud)] are functions from the element and the user
    data to the returned flag and the new user data; [qsort] is known by the
    contract of the C standard ([Qsort]). *)
From Stdlib Require Import ZArith Lia List Sorting.Permutation Sorting.Sorted.
From stdpp Require Import base tactics list numbers sorting.
From S2P Require Import Prelude.
From S2P Require Import Cbuf.
From S2P Require Import CborEnc.
From S2P Require Import CborDec.
From S2P Require Import CborFields.
From S2P Require Import Sha256.

Open Scope Z_scope.
Open Scope list_scope.

Definition HARP_HASH_LEN : nat := 33.
Definition HARP_HASH_ALG_SHA256 : Z := 0x01.

Definition HARP_OBJ_BLOB : Z := 0.
Definition HARP_OBJ_LIST : Z := 1.
Definition HARP_OBJ_TREE : Z := 2.
Definition HARP_OBJ_SNAPSHOT : Z := 3.

(** [harp_hash]: the 33 bytes. *)
Abbreviation harp_hash := (list Z).

Definition harp_hash_eq (a b : harp_hash) : bool := memcmp a b =? 0.

(** ["0123456789abcdef"[v]] *)
Definition hexd (v : Z) : Z := if v <? 10 then 48 + v else 87 + v.

Definition harp_hash_hex (h : harp_hash) : list Z :=
  flat_map (fun b => [hexd (Z.shiftr b 4); hexd (Z.land b 0xf)]) h.

Definition hexval (c : Z) : Z :=
  if (48 <=? c) && (c <=? 57) then c - 48
  else if (97 <=? c) && (c <=? 102) then c - 97 + 10
  else if (65 <=? c) && (c <=? 70) then c - 65 + 10
  else -1.

(** The loop of [harp_hash_from_hex]: two characters per byte. *)
Fixpoint hex_loop (n : nat) (hex : list Z) : option (list Z) :=
  match n, hex with
  | O, _ => Some []
  | S k, a :: b :: r =>
      let hi := hexval a in
      let lo := hexval b in
      if (hi <? 0) || (lo <? 0) then None
      else t ← hex_loop k r; Some (u8 (Z.lor (Z.shiftl hi 4) lo) :: t)
  | _, _ => None
  end.

Definition harp_hash_from_hex (hex : list Z) : option harp_hash :=
  if negb (Nat.eqb (length hex) (2 * HARP_HASH_LEN)) then None else hex_loop HARP_HASH_LEN hex.

Definition harp_hash_compute (data : list Z) : harp_hash := HARP_HASH_ALG_SHA256 :: harp_sha256_digest data.

Definition harp_hash_read : dec harp_hash :=
  p ← harp_cdec_bytes;
  if negb (Nat.eqb (length p) HARP_HASH_LEN) then sm_fail
  else if negb (nth 0 p 0 =? HARP_HASH_ALG_SHA256) then sm_fail
  else mret p.

(** ** Encoders *)

Record harp_tree_entry := mk_entry { te_name : list Z; te_hash : harp_hash; te_kind : Z }.

Definition entry_cmp (a b : harp_tree_entry) : Z :=
  if negb (zlen (te_name a) =? zlen (te_name b))
  then if zlen (te_name a) <? zlen (te_name b) then -1 else 1
  else memcmp (te_name a) (te_name b).

(** [qsort] rearranges the array into an order consistent with a comparison
    function that is transitive and total (C11 7.22.5.2). *)
Class Qsort := {
  qsort : forall {A}, (A -> A -> Z) -> list A -> list A;
  qsort_perm : forall A (cmp : A -> A -> Z) l, Permutation (qsort cmp l) l;
  qsort_sorted : forall A (cmp : A -> A -> Z) l,
    (forall x y, cmp x y <= 0 \/ cmp y x <= 0) ->
    (forall x y z, cmp x y <= 0 -> cmp y z <= 0 -> cmp x z <= 0) ->
    StronglySorted (fun x y => cmp x y <= 0) (qsort cmp l)
}.

Section encoders.
Context {R : Realloc} {Q : Qsort}.

Definition harp_obj_encode_blob (out : cbuf) (media_type payload : list Z) : cbuf :=
  let b := harp_cbor_map out 3 in
  let b := harp_cbor_uint b 0 in
  let b := harp_cbor_uint b HARP_OBJ_BLOB in
  let b := harp_cbor_uint b 1 in
  let b := harp_cbor_text b media_type in
  let b := harp_cbor_uint b 2 in
  harp_cbor_bytes b payload.

Definition harp_obj_encode_list (out : cbuf) (media_type : list Z) (chunks : list harp_hash) : cbuf :=
  let b := harp_cbor_map out 3 in
  let b := harp_cbor_uint b 0 in
  let b := harp_cbor_uint b HARP_OBJ_LIST in
  let b := harp_cbor_uint b 1 in
  let b := harp_cbor_text b media_type in
  let b := harp_cbor_uint b 2 in
  let b := harp_cbor_array b (zlen chunks) in
  fold_left (fun b h => harp_cbor_bytes b h) chunks b.

Definition encode_entry (b : cbuf) (e : harp_tree_entry) : cbuf :=
  let b := harp_cbor_text b (te_name e) in
  let b := harp_cbor_array b 2 in
  let b := harp_cbor_bytes b (te_hash e) in
  harp_cbor_uint b (te_kind e).

Definition harp_obj_encode_tree (out : cbuf) (entries : list harp_tree_entry) : cbuf :=
  if zlen entries >? 256 then mk_cbuf (cb_buf out) (cb_cap out) true
  else
    let sorted := qsort entry_cmp entries in
    let b := harp_cbor_map out 2 in
    let b := harp_cbor_uint b 0 in
    let b := harp_cbor_uint b HARP_OBJ_TREE in
    let b := harp_cbor_uint b 1 in
    let b := harp_cbor_map b (zlen entries) in
    fold_left encode_entry sorted b.

Definition harp_obj_encode_snapshot (out : cbuf) (root_tree : harp_hash) (parents : list harp_hash)
    (unix_time : Z) (author engine_semver : list Z) (message : option (list Z)) : cbuf :=
  let b := harp_cbor_map out (match message with Some _ => 7 | None => 6 end) in
  let b := harp_cbor_uint b 0 in
  let b := harp_cbor_uint b HARP_OBJ_SNAPSHOT in
  let b := harp_cbor_uint b 1 in
  let b := harp_cbor_bytes b root_tree in
  let b := harp_cbor_uint b 2 in
  let b := harp_cbor_array b (zlen parents) in
  let b := fold_left (fun b h => harp_cbor_bytes b h) parents b in
  let b := harp_cbor_uint b 3 in
  let b := harp_cbor_uint b unix_time in
  let b := harp_cbor_uint b 4 in
  let b := harp_cbor_text b author in
  let b := harp_cbor_uint b 5 in
  let b := harp_cbor_text b engine_semver in
  match message with
  | Some m => harp_cbor_text (harp_cbor_uint b 6) m
  | None => b
  end.
End encoders.

(** ** Parsers *)

Definition obj_fields {U} (enc : list Z) (visit : Z -> parser U unit) (ud : U) : bool * U :=
  let '(r, (d, u)) := map_fields visit (harp_cdec_init enc, ud) in
  match r with Some _ => (negb (d_err d), u) | None => (false, u) end.

(** The user data is the [int] kind. *)
Definition kind_cb (key : Z) : parser Z unit :=
  if key =? 0 then
    k ← on_fst harp_cdec_uint;
    if k >? 3 then sm_fail else on_snd (sm_modify (fun _ => k))
  else on_fst harp_cdec_skip.

Definition harp_obj_kind (enc : list Z) : Z :=
  let '(ok, kind) := obj_fields enc kind_cb (-1) in if ok then kind else -1.

(** [struct blob_out]: a pointer is [None] until it is set. *)
Record blob_out := mk_blob { bo_media : option (list Z); bo_payload : option (list Z); bo_kind : Z }.

Definition blob_cb (key : Z) : parser blob_out unit :=
  if key =? 0 then
    k ← on_fst harp_cdec_uint;
    on_snd (sm_modify (fun o => mk_blob (bo_media o) (bo_payload o) (s32 k)))
  else if key =? 1 then
    m ← on_fst harp_cdec_text;
    on_snd (sm_modify (fun o => mk_blob (Some m) (bo_payload o) (bo_kind o)))
  else if key =? 2 then
    p ← on_fst harp_cdec_bytes;
    on_snd (sm_modify (fun o => mk_blob (bo_media o) (Some p) (bo_kind o)))
  else on_fst harp_cdec_skip.

(** The media type (if there is one) and the payload. *)
Definition harp_obj_parse_blob (enc : list Z) : option (option (list Z) * list Z) :=
  let '(ok, o) := obj_fields enc blob_cb (mk_blob None None (-1)) in
  if negb ok then None
  else if negb (bo_kind o =? HARP_OBJ_BLOB) then None
  else match bo_payload o with
       | Some p => Some (bo_media o, p)
       | None => None
       end.

Record snap_out := mk_snap {
  so_root : harp_hash; so_have_root : bool; so_kind : Z; so_engine : list Z; so_have_engine : bool
}.

Definition ENGINE_MAX : nat := 24.

Definition snap_zero : snap_out := mk_snap (repeat 0 HARP_HASH_LEN) false (-1) (repeat 0 ENGINE_MAX) false.

(** [n = sl < sizeof engine - 1 ? sl : sizeof engine - 1; memcpy; engine[n] = 0;] *)
Definition set_engine (s : list Z) (o : snap_out) : snap_out :=
  let n := if zlen s <? Z.of_nat ENGINE_MAX - 1 then length s else (ENGINE_MAX - 1)%nat in
  mk_snap (so_root o) (so_have_root o) (so_kind o) (splice 0 (take n s ++ [0]) (so_engine o)) true.

Definition snap_cb (key : Z) : parser snap_out unit :=
  if key =? 0 then
    k ← on_fst harp_cdec_uint;
    on_snd (sm_modify (fun o => mk_snap (so_root o) (so_have_root o) (s32 k) (so_engine o) (so_have_engine o)))
  else if key =? 1 then
    h ← on_fst harp_hash_read;
    on_snd (sm_modify (fun o => mk_snap h true (so_kind o) (so_engine o) (so_have_engine o)))
  else if key =? 5 then
    s ← on_fst harp_cdec_text;
    on_snd (sm_modify (set_engine s))
  else on_fst harp_cdec_skip.

Definition harp_obj_parse_snapshot_root (enc : list Z) : option harp_hash :=
  let '(ok, o) := obj_fields enc snap_cb snap_zero in
  if negb ok then None
  else if negb (so_kind o =? HARP_OBJ_SNAPSHOT) || negb (so_have_root o) then None
  else Some (so_root o).

(** The string copied to [out], when [outsz] bytes hold it. *)
Definition harp_obj_parse_snapshot_engine (enc : list Z) (outsz : Z) : option (list Z) :=
  let '(ok, o) := obj_fields enc snap_cb snap_zero in
  if negb ok then None
  else if negb (so_kind o =? HARP_OBJ_SNAPSHOT) || negb (so_have_engine o) then None
  else
    let n := zlen (cstr (so_engine o)) in
    if n + 1 >? outsz then None else Some (cstr (so_engine o)).

(** [harp_tree_cb] and [harp_hash_cb] over user data of type [U]. *)
Definition harp_tree_cb (U : Type) : Type := list Z -> harp_hash -> Z -> U -> bool * U.
Definition harp_hash_cb (U : Type) : Type := harp_hash -> U -> bool * U.

(** [struct tree_iter]: the user data and the [stopped] flag. *)
Record tree_iter (U : Type) := mk_ti { ti_ud : U; ti_stopped : bool }.
Arguments mk_ti {U}. Arguments ti_ud {U}. Arguments ti_stopped {U}.

(** [struct child_iter]: the user data and the [ok] flag (set, never read). *)
Record child_iter (U : Type) := mk_ci { ci_ud : U; ci_ok : bool }.
Arguments mk_ci {U}. Arguments ci_ud {U}. Arguments ci_ok {U}.

Section walks.
Context {U : Type}.

(** [if (!it->stopped && !it->cb(...)) it->stopped = true;] *)
Definition tree_visit (cb : harp_tree_cb U) (name : list Z) (h : harp_hash) (kind : Z)
    (it : tree_iter U) : tree_iter U :=
  if ti_stopped it then it
  else let '(r, u) := cb name h (u32 kind) (ti_ud it) in mk_ti u (negb r).

Definition tree_entry (cb : harp_tree_cb U) : parser (tree_iter U) unit :=
  name ← on_fst harp_cdec_text;
  alen ← on_fst harp_cdec_array;
  if negb (alen =? 2) then sm_fail
  else
    h ← on_fst harp_hash_read;
    kind ← on_fst harp_cdec_uint;
    on_snd (sm_modify (tree_visit cb name h kind)).

Definition tree_cb (cb : harp_tree_cb U) (key : Z) : parser (tree_iter U) unit :=
  if negb (key =? 1) then on_fst harp_cdec_skip
  else
    n ← on_fst harp_cdec_map;
    sm_for n (tree_entry cb).

Definition harp_obj_tree_foreach (enc : list Z) (cb : harp_tree_cb U) (ud : U) : bool * U :=
  if negb (harp_obj_kind enc =? HARP_OBJ_TREE) then (false, ud)
  else let '(ok, it) := obj_fields enc (tree_cb cb) (mk_ti ud false) in (ok, ti_ud it).

Definition child_visit (cb : harp_hash_cb U) (h : harp_hash) (it : child_iter U) : child_iter U :=
  let '(r, u) := cb h (ci_ud it) in mk_ci u (if r then ci_ok it else false).

Definition child_hash (cb : harp_hash_cb U) : parser (child_iter U) unit :=
  h ← on_fst harp_hash_read;
  on_snd (sm_modify (child_visit cb h)).

Definition child_array (cb : harp_hash_cb U) : parser (child_iter U) unit :=
  n ← on_fst harp_cdec_array;
  sm_for n (child_hash cb).

Definition child_cb (cb : harp_hash_cb U) (include_parents : bool) (kind key : Z) : parser (child_iter U) unit :=
  if (kind =? HARP_OBJ_LIST) && (key =? 2) then child_array cb
  else if (kind =? HARP_OBJ_SNAPSHOT) && (key =? 1) then child_hash cb
  else if (kind =? HARP_OBJ_SNAPSHOT) && ((key =? 2) && include_parents) then child_array cb
  else on_fst harp_cdec_skip.

Definition child_tree_entry (cb : harp_hash_cb U) : harp_tree_cb U := fun _ h _ u => cb h u.

Definition harp_obj_foreach_child (enc : list Z) (include_parents : bool) (cb : harp_hash_cb U) (ud : U) :
    bool * U :=
  let kind := harp_obj_kind enc in
  if kind <? 0 then (false, ud)
  else if kind =? HARP_OBJ_BLOB then (true, ud)
  else if kind =? HARP_OBJ_TREE then harp_obj_tree_foreach enc (child_tree_entry cb) ud
  else let '(ok, it) := obj_fields enc (child_cb cb include_parents kind) (mk_ci ud true) in (ok, ci_ud it).
End walks.

(** ** Abstract objects *)

(** A binary hash of the store: 33 bytes, the first naming SHA-256. *)
Definition hash_ok (h : harp_hash) : bool :=
  Nat.eqb (length h) HARP_HASH_LEN && (nth 0 h 0 =? HARP_HASH_ALG_SHA256).

Inductive obj : Set :=
  | OBlob (media payload : list Z)
  | OList (media : list Z) (chunks : list harp_hash)
  | OTree (entries : list harp_tree_entry)
  | OSnapshot (root : harp_hash) (parents : list harp_hash) (time : Z) (author engine : list Z)
      (message : option (list Z)).

Definition entry_item (e : harp_tree_entry) : item * item :=
  (IText (te_name e), IArray [IBytes (te_hash e); IUint (te_kind e)]).

Definition hashes_item (l : list harp_hash) : item := IArray (map IBytes l).

(** The keyed values of an object, in the order of the encoders. *)
Definition obj_items (o : obj) : list (Z * item) :=
  match o with
  | OBlob m p => [(0, IUint HARP_OBJ_BLOB); (1, IText m); (2, IBytes p)]
  | OList m l => [(0, IUint HARP_OBJ_LIST); (1, IText m); (2, hashes_item l)]
  | OTree l => [(0, IUint HARP_OBJ_TREE); (1, IMap (map entry_item l))]
  | OSnapshot r ps t a e m =>
      [(0, IUint HARP_OBJ_SNAPSHOT); (1, IBytes r); (2, hashes_item ps); (3, IUint t); (4, IText a); (5, IText e)]
      ++ match m with Some m => [(6, IText m)] | None => [] end
  end.

Definition enc_items (l : list (Z * item)) : list Z :=
  enc_map (zlen l) ++ flat_map (fun ki => enc_uint ki.1 ++ enc_item ki.2) l.

(** The deterministic encoding of an object: what its hash is taken of. *)
Definition enc_obj (o : obj) : list Z := enc_items (obj_items o).

Definition obj_kind (o : obj) : Z :=
  match o with OBlob _ _ => 0 | OList _ _ => 1 | OTree _ => 2 | OSnapshot _ _ _ _ _ _ => 3 end.

(** The hashes an object refers to. *)
Definition obj_children (include_parents : bool) (o : obj) : list harp_hash :=
  match o with
  | OBlob _ _ => []
  | OList _ l => l
  | OTree l => map te_hash l
  | OSnapshot r ps _ _ _ _ => r :: if include_parents then ps else []
  end.

(** Machine-size conditions, executable. *)
Definition len_ok (l : list Z) : bool := zlen l <? 2 ^ 64.
Definition entry_ok (e : harp_tree_entry) : bool :=
  len_ok (te_name e) && hash_ok (te_hash e) && ((0 <=? te_kind e) && (te_kind e <? 2 ^ 32)).
Definition hashes_ok (l : list harp_hash) : bool := (zlen l <? 2 ^ 63) && forallb hash_ok l.
Definition obj_ok (o : obj) : bool :=
  match o with
  | OBlob m p => len_ok m && len_ok p
  | OList m l => len_ok m && hashes_ok l
  | OTree l => (zlen l <? 2 ^ 63) && forallb entry_ok l
  | OSnapshot r ps t a e m =>
      hash_ok r && hashes_ok ps && u64_b t && len_ok a && len_ok e &&
      match m with Some m => len_ok m | None => true end
  end.

(** ** Hashes *)

Lemma hexval_hexd v : 0 <= v < 16 -> hexval (hexd v) = v.
Proof. intros. unfold hexval, hexd. repeat case_cond; lia. Qed.

Lemma byte_nibbles b : is_u8 b ->
  0 <= Z.shiftr b 4 < 16 /\ 0 <= Z.land b 0xf < 16 /\ u8 (Z.lor (Z.shiftl (Z.shiftr b 4) 4) (Z.land b 0xf)) = b.
Proof.
  intros Hb. unfold is_u8 in Hb. change (2 ^ 8) with 256 in Hb.
  change 0xf with (2 ^ 4 - 1). rewrite land_ones_mod by lia. rewrite Z.shiftr_div_pow2 by lia.
  change (2 ^ 4) with 16. split; [dlia|]. split; [dlia|].
  rewrite lor_shiftl_add_l by (try change (2 ^ 4) with 16; dlia). change (2 ^ 4) with 16.
  replace (b / 16 * 16 + b mod 16) with b by dlia. apply u8_small. ulia.
Qed.

Lemma hex_loop_hex h : bytes_ok h -> hex_loop (length h) (harp_hash_hex h) = Some h.
Proof.
  induction 1 as [|b h Hb _ IH]; [done|]. cbn [harp_hash_hex flat_map app length hex_loop].
  destruct (byte_nibbles b Hb) as (H1 & H2 & H3). rewrite !hexval_hexd by done.
  rewrite !(proj2 (Z.ltb_ge _ 0)) by lia. cbn [orb]. fold (harp_hash_hex h). rewrite IH. cbn. by rewrite H3.
Qed.

Lemma harp_hash_hex_length h : length (harp_hash_hex h) = (2 * length h)%nat.
Proof. induction h as [|b h IH]; [done|]. cbn [harp_hash_hex flat_map app length] in *. fold (harp_hash_hex h). lia. Qed.

(** Lower-casing of a hex digit. *)
Definition lower (c : Z) : Z := if (65 <=? c) && (c <=? 70) then c + 32 else c.

Lemma hexd_hexval c : 0 <= hexval c -> hexval c < 16 /\ hexd (hexval c) = lower c.
Proof. unfold hexval, hexd, lower. intros. repeat case_cond; lia. Qed.

Lemma hex_loop_inv n hex h : hex_loop n hex = Some h -> length hex = (2 * n)%nat ->
  length h = n /\ bytes_ok h /\ harp_hash_hex h = map lower hex.
Proof.
  revert hex h. induction n as [|n IH]; intros hex h; cbn [hex_loop].
  { intros [= <-]. destruct hex; [|discriminate]. intros _. split_and!; done || constructor. }
  destruct hex as [|a [|b r]]; try discriminate. case_cond; [discriminate|].
  intros Hh Hl. cbn [length] in Hl.
  destruct (hex_loop n r) as [t|] eqn:E; [|discriminate]. injection Hh as <-.
  destruct (IH _ _ E ltac:(lia)) as (L & B & X).
  destruct (hexd_hexval a) as [Ra Ha]; [lia|]. destruct (hexd_hexval b) as [Rb Hb]; [lia|].
  assert (u8 (Z.lor (Z.shiftl (hexval a) 4) (hexval b)) = hexval a * 16 + hexval b) as ->.
  { rewrite lor_shiftl_add_l by (change (2 ^ 4) with 16; lia). apply u8_small. ulia. }
  split_and!.
  - cbn [length]. lia.
  - constructor; [unfold is_u8; lia|done].
  - cbn [harp_hash_hex flat_map app map]. fold (harp_hash_hex t). rewrite X.
    change 0xf with (2 ^ 4 - 1). rewrite land_ones_mod by lia. rewrite Z.shiftr_div_pow2 by lia.
    change (2 ^ 4) with 16. rewrite <- Ha, <- Hb. do 2 f_equal; [f_equal; dlia|].
    f_equal. dlia.
Qed.

Lemma hash_ok_iff h : hash_ok h = true <-> length h = 33%nat /\ nth 0 h 0 = 1.
Proof. unfold hash_ok. by rewrite andb_true_iff, Nat.eqb_eq, Z.eqb_eq. Qed.

(** The bytes of a hash, whatever its algorithm. *)
Definition is_hash (h : harp_hash) : Prop := bytes_ok h /\ length h = HARP_HASH_LEN.

Lemma hash_ok_compute data : hash_ok (harp_hash_compute data) = true.
Proof. apply hash_ok_iff. unfold harp_hash_compute. cbn [length nth]. by rewrite digest_length. Qed.

Lemma hash_zlen h : hash_ok h = true -> zlen h = 33.
Proof. intros [H _]%hash_ok_iff. unfold zlen. by rewrite H. Qed.

Lemma decodes_hash h : hash_ok h = true -> decodes 0 harp_hash_read (enc_bytes h) h.
Proof.
  intros Hh rest Hr. unfold harp_hash_read. pose proof (hash_zlen h Hh).
  erewrite sm_bind_run by (apply decodes_bytes; lia). apply hash_ok_iff in Hh as [-> ->]. done.
Qed.

Lemma advances_hash : forall d r d', harp_hash_read d = (r, d') -> exists pre, d_cur d = pre ++ d_cur d'.
Proof.
  intros d r d'. unfold harp_hash_read, mbind, SM_bind, harp_cdec_bytes.
  destruct (read_string 2 d) as [[p|] d1] eqn:E; destruct (advances_string _ _ _ _ E) as [Hp _].
  - repeat case_cond; by intros [= <- <-].
  - by intros [= <- <-].
Qed.

(** ** The encoders produce the deterministic encoding *)

Lemma zlen_map {A B} (f : A -> B) l : zlen (map f l) = zlen l.
Proof. unfold zlen. by rewrite length_map. Qed.

Lemma enc_hashes l : enc_item (hashes_item l) = enc_array (zlen l) ++ flat_map enc_bytes l.
Proof. unfold hashes_item. cbn [enc_item]. by rewrite zlen_map, flat_map_map. Qed.

Definition enc_entry (e : harp_tree_entry) : list Z :=
  enc_text (te_name e) ++ enc_array 2 ++ enc_bytes (te_hash e) ++ enc_uint (te_kind e).

Lemma enc_entries l : enc_item (IMap (map entry_item l)) = enc_map (zlen l) ++ flat_map enc_entry l.
Proof.
  cbn [enc_item]. rewrite zlen_map, flat_map_map. f_equal. apply flat_map_ext. intros e.
  unfold enc_entry, entry_item. cbn [enc_item fst snd flat_map]. by rewrite app_nil_r.
Qed.

Section append.
Context {R : Realloc} {Q : Qsort}.

Lemma appends_blob m p : appends (fun b => harp_obj_encode_blob b m p) (enc_obj (OBlob m p)).
Proof.
  unfold harp_obj_encode_blob, enc_obj, enc_items.
  cbn [obj_items flat_map fst snd enc_item]. change (zlen [_; _; _]) with 3.
  rewrite app_nil_r. rewrite !app_assoc. appends_seq.
Qed.

Lemma appends_hashes l : appends (fun b => fold_left (fun b h => harp_cbor_bytes b h) l b) (flat_map enc_bytes l).
Proof. apply (appends_fold (fun b h => harp_cbor_bytes b h) enc_bytes). auto with enc. Qed.

Lemma appends_list m l : appends (fun b => harp_obj_encode_list b m l) (enc_obj (OList m l)).
Proof.
  unfold harp_obj_encode_list, enc_obj, enc_items.
  cbn [obj_items flat_map fst snd]. rewrite enc_hashes. cbn [enc_item]. change (zlen [_; _; _]) with 3.
  rewrite app_nil_r. rewrite !app_assoc.
  eapply (appends_comp _ (fun b => fold_left _ l b)); [|apply appends_hashes]. appends_seq.
Qed.

Lemma appends_snapshot r ps t a e m :
  appends (fun b => harp_obj_encode_snapshot b r ps t a e m) (enc_obj (OSnapshot r ps t a e m)).
Proof.
  unfold harp_obj_encode_snapshot, enc_obj, enc_items.
  destruct m as [m|]; cbn [obj_items flat_map fst snd app]; rewrite enc_hashes; cbn [enc_item];
    match goal with
    | |- context [enc_map (zlen ?l)] => let n := eval vm_compute in (zlen l) in change (zlen l) with n
    end; rewrite ?app_nil_r, !app_assoc.
  - do 6 (eapply (appends_comp _ (fun b => _ b _)); [|solve [auto with enc]]).
    eapply (appends_comp _ (fun b => harp_cbor_uint b _)); [|auto with enc].
    eapply (appends_comp _ (fun b => harp_cbor_uint b _)); [|auto with enc].
    eapply (appends_comp _ (fun b => fold_left _ ps b)); [|apply appends_hashes]. appends_seq.
  - do 4 (eapply (appends_comp _ (fun b => _ b _)); [|solve [auto with enc]]).
    eapply (appends_comp _ (fun b => harp_cbor_uint b _)); [|auto with enc].
    eapply (appends_comp _ (fun b => harp_cbor_uint b _)); [|auto with enc].
    eapply (appends_comp _ (fun b => fold_left _ ps b)); [|apply appends_hashes]. appends_seq.
Qed.

Lemma appends_entry e : appends (fun b => encode_entry b e) (enc_entry e).
Proof.
  unfold encode_entry, enc_entry. rewrite !app_assoc. appends_seq.
Qed.

Lemma qsort_zlen l : zlen (qsort entry_cmp l) = zlen l.
Proof. unfold zlen. by rewrite (Permutation_length (qsort_perm _ entry_cmp l)). Qed.

Lemma appends_tree l : zlen l <= 256 ->
  appends (fun b => harp_obj_encode_tree b l) (enc_obj (OTree (qsort entry_cmp l))).
Proof.
  intros Hl. unfold harp_obj_encode_tree, enc_obj, enc_items.
  rewrite Z.gtb_ltb, (proj2 (Z.ltb_ge _ _)) by lia.
  cbn [obj_items flat_map fst snd]. rewrite enc_entries, qsort_zlen. cbn [enc_item].
  change (zlen [_; _]) with 2. rewrite app_nil_r, !app_assoc.
  eapply (appends_comp _ (fun b => fold_left encode_entry (qsort entry_cmp l) b));
    [|apply (appends_fold encode_entry enc_entry); apply appends_entry].
  appends_seq.
Qed.

Lemma tree_too_wide out l : 256 < zlen l -> cb_oom (harp_obj_encode_tree out l) = true.
Proof. intros. unfold harp_obj_encode_tree. by rewrite Z.gtb_ltb, (proj2 (Z.ltb_lt _ _)) by lia. Qed.
End append.

(** ** Parsing a deterministic encoding *)

(** The effect of the keyed items on the parser's record, in order. *)
Definition run_items {U} (eff : Z -> item -> U -> U) (l : list (Z * item)) (u : U) : U :=
  fold_left (fun u ki => eff ki.1 ki.2 u) l u.

Lemma obj_fields_run {U} (visit : Z -> parser U unit) (eff : Z -> item -> U -> U) l u :
  zlen l < 2 ^ 63 ->
  (forall ki, ki ∈ l -> is_u64 ki.1 /\ reads 0 (visit ki.1) (enc_item ki.2) (eff ki.1 ki.2)) ->
  obj_fields (enc_items l) visit u = (true, run_items eff l u).
Proof.
  intros Hn Hl. unfold obj_fields, harp_cdec_init, enc_items.
  pose proof (reads_map_fields visit (map (fun ki => mk_field ki.1 (enc_item ki.2) (eff ki.1 ki.2)) l)) as Hr.
  rewrite zlen_map in Hr. specialize (Hr Hn). unfold enc_fields in Hr. rewrite zlen_map, flat_map_map in Hr.
  unfold enc_field in Hr. cbn [f_key f_bytes] in Hr.
  rewrite <- (app_nil_r (enc_map _ ++ _)), Hr; [|..|apply zlen_nonneg].
  - unfold run_fields, run_items. cbn [d_err negb].
    rewrite <- (app_nil_l l) at 2. f_equal. clear. revert u.
    induction l as [|ki l IH]; intros u; [done|]. cbn [map fold_left app f_eff]. apply IH.
  - intros x (ki & -> & Hki)%list_elem_of_fmap. destruct (Hl ki Hki) as [Hk Hv].
    split_and!; [done|apply item_zlen|done].
Qed.

Lemma skippable_scalars :
  (forall v, is_u64 v -> skippable (IUint v) = true) /\
  (forall p, len_ok p = true -> skippable (IText p) = true) /\
  (forall p, len_ok p = true -> skippable (IBytes p) = true).
Proof.
  split_and!; intros x Hx; unfold skippable; cbn [item_ok item_depth Nat.leb andb]; rewrite ?andb_true_r; try done.
  unfold u64_b, is_u64 in *. by rewrite andb_true_iff, Z.leb_le, Z.ltb_lt.
Qed.

Lemma list_max_le_all l n : (forall x, x ∈ l -> x <= n)%nat -> (list_max l <= n)%nat.
Proof.
  intros H. apply list_max_le. rewrite List.Forall_forall. intros x Hx. apply H. by apply list_elem_of_In.
Qed.

Lemma hash_len_ok h : hash_ok h = true -> len_ok h = true.
Proof. intros Hh. unfold len_ok. by rewrite (hash_zlen h Hh). Qed.

Lemma skippable_hashes l : hashes_ok l = true -> skippable (hashes_item l) = true.
Proof.
  unfold hashes_ok, skippable, hashes_item. intros [Hn Hl]%andb_prop. cbn [item_ok item_depth].
  rewrite zlen_map, Hn. rewrite map_map. cbn [item_depth andb].
  rewrite List.forallb_forall in Hl. apply andb_true_iff. split.
  - apply List.forallb_forall. intros x (h & <- & Hh)%in_map_iff. cbn [item_ok].
    apply hash_len_ok. auto.
  - apply Nat.leb_le. etrans; [apply (list_max_le_all _ 1)|unfold HARP_CBOR_MAX_DEPTH; lia].
    intros x (h & -> & _)%list_elem_of_fmap. done.
Qed.

Lemma skippable_entries l : (zlen l <? 2 ^ 63) && forallb entry_ok l = true ->
  skippable (IMap (map entry_item l)) = true.
Proof.
  unfold skippable. intros [Hn Hl]%andb_prop. cbn [item_ok item_depth].
  rewrite zlen_map, Hn. rewrite map_map. cbn [andb].
  rewrite List.forallb_forall in Hl. apply andb_true_iff. split.
  - apply List.forallb_forall. intros x (e & <- & He)%in_map_iff. specialize (Hl e He).
    unfold entry_ok, entry_item in *. bool_to_prop. cbn [item_ok fst snd forallb].
    assert (zlen (te_name e) < 2 ^ 64) by (unfold len_ok in *; bool_to_prop; lia).
    assert (zlen (te_hash e) = 33) as -> by (by apply hash_zlen). unfold u64_b.
    repeat (rewrite andb_true_iff || rewrite Z.leb_le || rewrite Z.ltb_lt). split_and!; done || lia.
  - apply Nat.leb_le. etrans; [apply (list_max_le_all _ 2)|unfold HARP_CBOR_MAX_DEPTH; lia].
    intros x (e & -> & _)%list_elem_of_fmap. done.
Qed.

(** The kind of an object is its first item; every other item is skippable. *)
Lemma obj_items_kind o : exists l, obj_items o = (0, IUint (obj_kind o)) :: l /\
  Forall (fun ki => 0 < ki.1 <= 6) l.
Proof.
  destruct o as [m p|m l|l|r ps t a e m]; cbn [obj_items obj_kind app]; eexists; (split; [reflexivity|]).
  all: repeat constructor; cbn [fst]; try lia. destruct m; repeat constructor; cbn [fst]; lia.
Qed.

Lemma obj_items_skippable o : obj_ok o = true -> Forall (fun ki => skippable ki.2 = true) (obj_items o).
Proof.
  destruct skippable_scalars as (Hu & Ht & Hb).
  destruct o as [m p|m l|l|r ps t a e m]; cbn [obj_ok obj_items]; intros Hok.
  - bool_to_prop. repeat constructor; cbn [snd]; auto; apply Hu; unfold is_u64, HARP_OBJ_BLOB; lia.
  - bool_to_prop. repeat constructor; cbn [snd]; auto using skippable_hashes.
  - repeat constructor; cbn [snd]. by apply skippable_entries.
  - bool_to_prop. apply Forall_app. split.
    + repeat constructor; cbn [snd]; auto using skippable_hashes, hash_len_ok.
      apply Hu. unfold u64_b in *. bool_to_prop. ulia.
    + destruct m; repeat constructor; cbn [snd]; auto.
Qed.

Lemma obj_items_short o : zlen (obj_items o) < 2 ^ 63.
Proof. destruct o as [| | |r ps t a e [m|]]; by vm_compute. Qed.

Lemma obj_items_in o ki : obj_ok o = true -> ki ∈ obj_items o ->
  is_u64 ki.1 /\ (ki = (0, IUint (obj_kind o)) \/ 0 < ki.1 <= 6) /\ skippable ki.2 = true.
Proof.
  intros Hok Hki%list_elem_of_In. pose proof (obj_items_skippable o Hok) as Hs.
  rewrite List.Forall_forall in Hs. destruct (obj_items_kind o) as (l & Hl & Hr).
  specialize (Hs ki Hki). rewrite Hl in Hki. rewrite List.Forall_forall in Hr.
  destruct Hki as [<-|Hki]; [|specialize (Hr ki Hki)]; cbn [fst snd] in *; unfold is_u64; split_and!; auto; lia.
Qed.

Lemma obj_kind_range o : 0 <= obj_kind o <= 3.
Proof. destruct o; cbn; lia. Qed.

Lemma kind_run o : obj_ok o = true -> harp_obj_kind (enc_obj o) = obj_kind o.
Proof.
  intros Hok. unfold harp_obj_kind, enc_obj.
  set (eff := fun (k : Z) (i : item) (u : Z) => if k =? 0 then match i with IUint v => v | _ => u end else u).
  rewrite (obj_fields_run kind_cb eff); [|apply obj_items_short|].
  - destruct (obj_items_kind o) as (l & -> & Hl). unfold run_items. cbn [fold_left]. unfold eff at 2. cbn [fst snd Z.eqb].
    clear Hok. generalize (obj_kind o). induction Hl as [|ki l Hki Hl IH]; intros u; [done|].
    cbn [fold_left]. unfold eff at 2. rewrite (proj2 (Z.eqb_neq _ _)) by lia. apply IH.
  - intros ki Hki. destruct (obj_items_in o ki Hok Hki) as (Hk & Hc & Hs). split; [done|].
    unfold kind_cb, eff. destruct Hc as [-> |Hc]; cbn [fst snd].
    + cbn [Z.eqb]. pose proof (obj_kind_range o). eapply reads_last; [apply decodes_uint; ulia|].
      rewrite Z.gtb_ltb, (proj2 (Z.ltb_ge _ _)) by lia. done.
    + rewrite (proj2 (Z.eqb_neq _ _)) by lia. by apply reads_only, decodes_skip_item.
Qed.

(** Reading one keyed value into the record. *)
Lemma reads_set {U A} (m : dec A) (f : A -> U -> U) bs a :
  decodes 0 m bs a -> reads 0 (x ← on_fst m; on_snd (sm_modify (f x))) bs (f a).
Proof. intros Hm. eapply reads_last; [exact Hm|]. by intros rest t. Qed.

Lemma len_ok_lt p : len_ok p = true -> zlen p < 2 ^ 64.
Proof. unfold len_ok. by rewrite Z.ltb_lt. Qed.

(** Visit the items of a concrete object one by one. *)
Ltac each_item :=
  match goal with
  | |- forall ki, ki ∈ _ -> _ =>
      let ki := fresh "ki" in let H := fresh "H" in
      intros ki H%list_elem_of_In; cbn [In app] in H;
      repeat (destruct H as [<-|H]; [split; [unfold is_u64; cbn [fst]; lia|cbn [fst snd]]|]); try destruct H
  end.

Lemma parse_blob_run m p : obj_ok (OBlob m p) = true ->
  harp_obj_parse_blob (enc_obj (OBlob m p)) = Some (Some m, p).
Proof.
  cbn [obj_ok]. intros [Hm%len_ok_lt Hp%len_ok_lt]%andb_prop. unfold harp_obj_parse_blob, enc_obj.
  set (eff := fun (k : Z) (i : item) (o : blob_out) =>
    match i with
    | IUint v => mk_blob (bo_media o) (bo_payload o) (s32 v)
    | IText s => mk_blob (Some s) (bo_payload o) (bo_kind o)
    | IBytes s => mk_blob (bo_media o) (Some s) (bo_kind o)
    | _ => o
    end).
  rewrite (obj_fields_run blob_cb eff); [done|apply obj_items_short|]. cbn [obj_items]. each_item.
  - apply (reads_set harp_cdec_uint (fun k o => mk_blob (bo_media o) (bo_payload o) (s32 k))), decodes_uint.
    unfold is_u64, HARP_OBJ_BLOB. lia.
  - by apply (reads_set harp_cdec_text (fun m o => mk_blob (Some m) (bo_payload o) (bo_kind o))), decodes_text.
  - by apply (reads_set harp_cdec_bytes (fun p o => mk_blob (bo_media o) (Some p) (bo_kind o))), decodes_bytes.
Qed.

(** What the snapshot parser gathers. *)
Definition snap_eff (k : Z) (i : item) (o : snap_out) : snap_out :=
  match i with
  | IUint v => if k =? 0 then mk_snap (so_root o) (so_have_root o) (s32 v) (so_engine o) (so_have_engine o) else o
  | IBytes h => mk_snap h true (so_kind o) (so_engine o) (so_have_engine o)
  | IText s => if k =? 5 then set_engine s o else o
  | _ => o
  end.

Lemma snap_run o : obj_ok o = true -> obj_kind o = 3 ->
  obj_fields (enc_obj o) snap_cb snap_zero = (true, run_items snap_eff (obj_items o) snap_zero).
Proof.
  intros Hok Hk. destruct o as [| | |r ps t a e m]; try discriminate Hk. unfold enc_obj.
  apply obj_fields_run; [apply obj_items_short|].
  pose proof (obj_items_skippable _ Hok) as Hs. rewrite List.Forall_forall in Hs.
  cbn [obj_ok] in Hok. bool_to_prop.
  intros ki Hki%list_elem_of_In. specialize (Hs ki Hki). unfold obj_items in Hki. cbn [In app] in Hki.
  assert (forall k i, 2 <= k <= 6 -> k <> 5 -> skippable i = true ->
    reads 0 (snap_cb k) (enc_item i) (fun o => o)) as Hskip.
  { intros k i ? ? ?. unfold snap_cb. rewrite !(proj2 (Z.eqb_neq _ _)) by lia.
    by apply reads_only, decodes_skip_item. }
  repeat destruct Hki as [<-|Hki]; cbn [fst snd] in *; try (split; [unfold is_u64; lia|]);
    try (apply Hskip; done || lia).
  - apply (reads_set harp_cdec_uint (fun k o =>
      mk_snap (so_root o) (so_have_root o) (s32 k) (so_engine o) (so_have_engine o))), decodes_uint.
    unfold is_u64, HARP_OBJ_SNAPSHOT. lia.
  - by apply (reads_set harp_hash_read (fun h o =>
      mk_snap h true (so_kind o) (so_engine o) (so_have_engine o))), decodes_hash.
  - by apply (reads_set harp_cdec_text set_engine), decodes_text, len_ok_lt.
  - destruct m as [m|]; cbn [In] in Hki; [destruct Hki as [<-|[]]|destruct Hki].
    split; [unfold is_u64; cbn [fst]; lia|]. apply Hskip; cbn [fst snd]; done || lia.
Qed.

Lemma snap_result r ps t a e m :
  let o := run_items snap_eff (obj_items (OSnapshot r ps t a e m)) snap_zero in
  so_root o = r /\ so_have_root o = true /\ so_kind o = 3 /\ so_have_engine o = true /\
  so_engine o = so_engine (set_engine e snap_zero).
Proof. by destruct m. Qed.

Lemma engine_cstr e : Forall (fun b => b <> 0) e ->
  cstr (so_engine (set_engine e snap_zero)) = take 23 e.
Proof.
  intros He. unfold set_engine. cbn [so_engine]. rewrite cstr_splice.
  - unfold ENGINE_MAX, zlen. case_cond; [|done]. rewrite !take_ge by lia. done.
  - by apply Forall_take.
Qed.

(** ** Trees *)

(** The callback runs on the entries until it declines. *)
Fixpoint run_until {A U} (cb : A -> U -> bool * U) (l : list A) (u : U) : U :=
  match l with
  | [] => u
  | x :: r => let '(go, u') := cb x u in if go then run_until cb r u' else u'
  end.

(** The callback runs on all elements. *)
Definition run_all {A U} (cb : A -> U -> bool * U) (l : list A) (u : U) : U :=
  fold_left (fun u x => (cb x u).2) l u.

Definition on_entry {U} (cb : harp_tree_cb U) (e : harp_tree_entry) (u : U) : bool * U :=
  cb (te_name e) (te_hash e) (te_kind e) u.

Definition entry_visit {U} (cb : harp_tree_cb U) (e : harp_tree_entry) : tree_iter U -> tree_iter U :=
  tree_visit cb (te_name e) (te_hash e) (te_kind e).

Section tree.
Context {U : Type} (cb : harp_tree_cb U).

Lemma reads_entry e : entry_ok e = true -> reads 0 (tree_entry cb) (enc_entry e) (entry_visit cb e).
Proof.
  unfold entry_ok. intros Hok. bool_to_prop. unfold tree_entry, enc_entry.
  eapply reads_leaf; [lia|by apply decodes_text, len_ok_lt|].
  eapply (reads_header _ _ 2 _ _ 2); [apply decodes_array; unfold is_u64; lia| |lia|].
  - cbn [Z.eqb Pos.eqb negb]. eapply reads_leaf; [lia|by apply decodes_hash|].
    apply (reads_set harp_cdec_uint (fun k => tree_visit cb (te_name e) (te_hash e) k)), decodes_uint.
    unfold is_u64. lia.
  - rewrite zlen_app. unfold enc_bytes. rewrite zlen_app, (hash_zlen (te_hash e)) by done.
    pose proof (head_zlen 2 33). pose proof (zlen_nonneg (enc_uint (te_kind e))). lia.
Qed.

Lemma entry_visits l it : forallb entry_ok l = true ->
  ti_ud (fold_left (fun it e => entry_visit cb e it) l it) =
    if ti_stopped it then ti_ud it else run_until (on_entry cb) l (ti_ud it).
Proof.
  revert it. induction l as [|e l IH]; intros it Hl; cbn [fold_left run_until]; [by destruct (ti_stopped it)|].
  cbn [forallb] in Hl. apply andb_prop in Hl as [He Hl]. rewrite IH by done.
  unfold entry_visit, tree_visit at 1, on_entry. destruct (ti_stopped it) eqn:Es.
  - unfold tree_visit. by rewrite Es.
  - unfold tree_visit. rewrite Es. unfold entry_ok in He. bool_to_prop.
    rewrite u32_small by (unfold is_u32; lia). destruct (cb _ _ _ _) as [[] u]; done.
Qed.

Lemma enc_entry_zlen e : 2 <= zlen (enc_entry e).
Proof.
  unfold enc_entry. rewrite !zlen_app. unfold enc_text, enc_array. rewrite zlen_app.
  pose proof (head_zlen 3 (zlen (te_name e))). pose proof (head_zlen 4 2).
  pose proof (zlen_nonneg (te_name e)). pose proof (zlen_nonneg (enc_bytes (te_hash e))).
  pose proof (zlen_nonneg (enc_uint (te_kind e))). lia.
Qed.

Lemma tree_foreach_run l ud : obj_ok (OTree l) = true ->
  harp_obj_tree_foreach (enc_obj (OTree l)) cb ud = (true, run_until (on_entry cb) l ud).
Proof.
  intros Hok. pose proof (kind_run _ Hok) as Hk. cbn [obj_kind] in Hk.
  unfold harp_obj_tree_foreach. rewrite Hk. cbn [Z.eqb Pos.eqb negb HARP_OBJ_TREE].
  pose proof Hok as Hok'. cbn [obj_ok] in Hok'. apply andb_prop in Hok' as [Hn Hl]. bool_to_prop.
  pose proof (zlen_nonneg l).
  set (eff := fun (k : Z) (i : item) (it : tree_iter U) =>
    if k =? 1 then fold_left (fun it e => entry_visit cb e it) l it else it).
  unfold enc_obj. rewrite (obj_fields_run (tree_cb cb) eff); [|apply obj_items_short|].
  - change (run_items eff (obj_items (OTree l)) (mk_ti ud false))
      with (fold_left (fun it e => entry_visit cb e it) l (mk_ti ud false)).
    by rewrite entry_visits.
  - cbn [obj_items]. each_item.
    + unfold tree_cb. cbn [Z.eqb negb]. apply reads_only, decodes_skip_item. done.
    + unfold tree_cb, eff. cbn [Z.eqb Pos.eqb negb]. rewrite enc_entries.
      eapply (reads_header _ _ (2 * zlen l)); [apply decodes_map; lia| |lia|].
      * apply reads_loop. intros e He. apply reads_entry.
        rewrite List.forallb_forall in Hl. apply Hl. by apply list_elem_of_In.
      * apply flat_map_zlen_lb. intros e _. apply enc_entry_zlen.
Qed.
End tree.

(** ** Children *)

Section children.
Context {U : Type} (cb : harp_hash_cb U).

Definition child_visits (l : list harp_hash) (it : child_iter U) : child_iter U :=
  fold_left (fun it h => child_visit cb h it) l it.

Lemma child_visits_ud l it : ci_ud (child_visits l it) = run_all cb l (ci_ud it).
Proof.
  unfold child_visits, run_all. revert it. induction l as [|h l IH]; intros it; [done|]. cbn [fold_left].
  rewrite IH. f_equal. unfold child_visit. by destruct (cb h (ci_ud it)).
Qed.

Lemma reads_child h : hash_ok h = true -> reads 0 (child_hash cb) (enc_bytes h) (child_visit cb h).
Proof. intros. by apply (reads_set harp_hash_read (child_visit cb)), decodes_hash. Qed.

Lemma reads_children l : hashes_ok l = true ->
  reads 0 (child_array cb) (enc_item (hashes_item l)) (child_visits l).
Proof.
  unfold hashes_ok. intros [Hn Hl]%andb_prop. bool_to_prop. pose proof (zlen_nonneg l).
  rewrite enc_hashes. unfold child_array.
  eapply (reads_header _ _ (zlen l)); [apply decodes_array; unfold is_u64; lia| |lia|].
  - apply reads_loop. intros h Hh. apply reads_child. rewrite List.forallb_forall in Hl.
    apply Hl. by apply list_elem_of_In.
  - rewrite <- (Z.mul_1_l (zlen l)). apply flat_map_zlen_lb. intros h _. unfold enc_bytes.
    rewrite zlen_app. pose proof (head_zlen 2 (zlen h)). pose proof (zlen_nonneg h). lia.
Qed.

Lemma children_list inc m l ud : obj_ok (OList m l) = true ->
  harp_obj_foreach_child (enc_obj (OList m l)) inc cb ud = (true, run_all cb l ud).
Proof.
  intros Hok. unfold harp_obj_foreach_child. rewrite (kind_run _ Hok). cbn [obj_kind].
  cbn [obj_ok] in Hok. apply andb_prop in Hok as [Hm Hl].
  cbn [Z.ltb Z.compare Z.eqb Pos.eqb HARP_OBJ_BLOB HARP_OBJ_TREE].
  set (eff := fun (k : Z) (i : item) (it : child_iter U) => if k =? 2 then child_visits l it else it).
  unfold enc_obj. rewrite (obj_fields_run (child_cb cb inc 1) eff); [|apply obj_items_short|].
  - unfold run_items. cbn [obj_items fold_left fst snd eff Z.eqb Pos.eqb]. by rewrite child_visits_ud.
  - cbn [obj_items]. each_item; unfold child_cb, eff; cbn [Z.eqb Pos.eqb andb HARP_OBJ_LIST HARP_OBJ_SNAPSHOT].
    + by apply reads_only, decodes_skip_item.
    + apply reads_only, decodes_skip_item. by apply (proj1 (proj2 skippable_scalars)).
    + by apply reads_children.
Qed.

Lemma children_snapshot inc r ps t a e m ud : obj_ok (OSnapshot r ps t a e m) = true ->
  harp_obj_foreach_child (enc_obj (OSnapshot r ps t a e m)) inc cb ud =
    (true, run_all cb (r :: if inc then ps else []) ud).
Proof.
  intros Hok. unfold harp_obj_foreach_child. rewrite (kind_run _ Hok). cbn [obj_kind].
  pose proof (obj_items_skippable _ Hok) as Hs. rewrite List.Forall_forall in Hs.
  cbn [obj_ok] in Hok. bool_to_prop.
  cbn [Z.ltb Z.compare Z.eqb Pos.eqb HARP_OBJ_BLOB HARP_OBJ_TREE].
  set (eff := fun (k : Z) (i : item) (it : child_iter U) =>
    if k =? 1 then child_visit cb r it else if (k =? 2) && inc then child_visits ps it else it).
  unfold enc_obj. rewrite (obj_fields_run (child_cb cb inc 3) eff); [|apply obj_items_short|].
  - assert (forall it, run_items eff (obj_items (OSnapshot r ps t a e m)) it =
      child_visits (r :: if inc then ps else []) it) as Hrun by (intros it; by destruct m, inc).
    by rewrite Hrun, child_visits_ud.
  - intros ki Hki%list_elem_of_In. specialize (Hs ki Hki). unfold obj_items in Hki. cbn [In app] in Hki.
    assert (forall k i, k = 0 \/ 3 <= k <= 6 -> skippable i = true ->
      reads 0 (child_cb cb inc 3 k) (enc_item i) (eff k i)) as Hskip.
    { intros k i Hk ?. unfold child_cb, eff. rewrite !(proj2 (Z.eqb_neq k _)) by lia.
      rewrite !andb_false_r. by apply reads_only, decodes_skip_item. }
    repeat destruct Hki as [<-|Hki]; cbn [fst snd] in *; try (split; [unfold is_u64; lia|]);
      try (apply Hskip; done || lia).
    + by apply reads_child.
    + unfold child_cb, eff. cbn [Z.eqb Pos.eqb andb HARP_OBJ_LIST HARP_OBJ_SNAPSHOT].
      destruct inc; [by apply reads_children|by apply reads_only, decodes_skip_item].
    + destruct m as [m|]; cbn [In] in Hki; [destruct Hki as [<-|[]]|destruct Hki].
      split; [unfold is_u64; cbn [fst]; lia|]. apply Hskip; cbn [fst snd]; done || lia.
Qed.

Lemma run_until_map {A B} (f : A -> B) (g : B -> U -> bool * U) l u :
  run_until g (map f l) u = run_until (fun x => g (f x)) l u.
Proof. revert u. induction l as [|x l IH]; intros u; [done|]. cbn. destruct (g (f x) u) as [[] u']; auto. Qed.

Lemma children_tree inc l ud : obj_ok (OTree l) = true ->
  harp_obj_foreach_child (enc_obj (OTree l)) inc cb ud = (true, run_until cb (map te_hash l) ud).
Proof.
  intros Hok. unfold harp_obj_foreach_child. rewrite (kind_run _ Hok). cbn [obj_kind].
  cbn [Z.ltb Z.compare Z.eqb Pos.eqb HARP_OBJ_BLOB HARP_OBJ_TREE].
  rewrite tree_foreach_run by done. by rewrite run_until_map.
Qed.
End children.

(** ** The canonical order of tree entries *)

Lemma memcmp_sym a b : memcmp b a = - memcmp a b.
Proof.
  revert b. induction a as [|x a IH]; intros [|y b]; try done. cbn [memcmp].
  destruct (Z.ltb_spec x y), (Z.ltb_spec y x); try lia. apply IH.
Qed.

Lemma memcmp_trans a b c : length a = length b -> length b = length c ->
  memcmp a b <= 0 -> memcmp b c <= 0 -> memcmp a c <= 0.
Proof.
  revert b c. induction a as [|x a IH]; intros [|y b] [|z c] H1 H2; try discriminate; try done.
  cbn [memcmp]. injection H1 as H1. injection H2 as H2. specialize (IH b c H1 H2).
  destruct (Z.ltb_spec x y), (Z.ltb_spec y z), (Z.ltb_spec x z), (Z.ltb_spec y x), (Z.ltb_spec z y),
    (Z.ltb_spec z x); try lia.
Qed.

Lemma entry_cmp_total x y : entry_cmp x y <= 0 \/ entry_cmp y x <= 0.
Proof.
  unfold entry_cmp. rewrite (memcmp_sym (te_name x) (te_name y)). repeat case_cond; lia.
Qed.

Lemma entry_cmp_trans x y z : entry_cmp x y <= 0 -> entry_cmp y z <= 0 -> entry_cmp x z <= 0.
Proof.
  unfold entry_cmp. repeat case_cond; try lia.
  intros. apply (memcmp_trans _ (te_name y)); unfold zlen in *; done || lia.
Qed.

Lemma entry_cmp_antisym x y : entry_cmp x y <= 0 -> entry_cmp y x <= 0 -> te_name x = te_name y.
Proof.
  unfold entry_cmp. rewrite (memcmp_sym (te_name x) (te_name y)). repeat case_cond; try lia.
  intros. apply memcmp_eq; [unfold zlen in *; lia|lia].
Qed.

Lemma qsort_canonical {Q1 Q2 : Qsort} l1 l2 : Permutation l1 l2 -> NoDup (map te_name l1) ->
  @qsort Q1 _ entry_cmp l1 = @qsort Q2 _ entry_cmp l2.
Proof.
  intros Hp Hnd.
  assert (Permutation (@qsort Q1 _ entry_cmp l1) (@qsort Q2 _ entry_cmp l2)) as Hperm.
  { etrans; [apply qsort_perm|]. etrans; [exact Hp|]. symmetry. apply qsort_perm. }
  apply (StronglySorted_unique_strong (fun x y => entry_cmp x y <= 0)); [|apply qsort_sorted..|exact Hperm];
    eauto using entry_cmp_total, entry_cmp_trans.
  intros x y Hx Hy H1 H2. pose proof (entry_cmp_antisym _ _ H1 H2) as Hn.
  rewrite (qsort_perm _ entry_cmp l1) in Hx. rewrite (qsort_perm _ entry_cmp l2), <- Hp in Hy.
  apply list_elem_of_lookup in Hx as [i Hi]. apply list_elem_of_lookup in Hy as [j Hj].
  assert (i = j) as ->.
  { apply (NoDup_lookup (map te_name l1) i j (te_name x) Hnd).
    - rewrite list_lookup_fmap, Hi. done.
    - rewrite list_lookup_fmap, Hj. cbn. by rewrite Hn. }
  congruence.
Qed.

(** An instance of the [qsort] contract: insertion sort. *)
Fixpoint insert_by {A} (cmp : A -> A -> Z) (x : A) (l : list A) : list A :=
  match l with
  | [] => [x]
  | y :: r => if cmp x y <=? 0 then x :: l else y :: insert_by cmp x r
  end.

Definition isort {A} (cmp : A -> A -> Z) (l : list A) : list A := fold_right (insert_by cmp) [] l.

Lemma insert_by_perm {A} (cmp : A -> A -> Z) x l : Permutation (insert_by cmp x l) (x :: l).
Proof.
  induction l as [|y l IH]; [done|]. cbn [insert_by]. case_cond; [done|]. rewrite IH. apply Permutation_swap.
Qed.

Lemma isort_perm {A} (cmp : A -> A -> Z) l : Permutation (isort cmp l) l.
Proof. induction l as [|x l IH]; [done|]. cbn [isort fold_right]. rewrite insert_by_perm. by rewrite IH. Qed.

Lemma isort_sorted {A} (cmp : A -> A -> Z) l :
  (forall x y, cmp x y <= 0 \/ cmp y x <= 0) ->
  (forall x y z, cmp x y <= 0 -> cmp y z <= 0 -> cmp x z <= 0) ->
  StronglySorted (fun x y => cmp x y <= 0) (isort cmp l).
Proof.
  intros Ht Htr. induction l as [|x l IH]; cbn [isort fold_right]; [constructor|].
  fold (isort cmp l). induction IH as [|y r Hr IH Hy]; cbn [insert_by]; [repeat constructor|].
  case_cond.
  - constructor; [by constructor|]. constructor; [done|].
    rewrite List.Forall_forall in *. intros z Hz. eapply Htr; eauto.
  - constructor; [done|]. rewrite (insert_by_perm cmp x r). constructor; [|done].
    destruct (Ht x y); [lia|done].
Qed.

Definition isort_Qsort : Qsort :=
  {| qsort := @isort; qsort_perm := @isort_perm; qsort_sorted := @isort_sorted |}.

(** ** Properties *)

(** hashes print and parse.  The hex form of any byte string of the length of
    a hash reads back as it; and whatever text is accepted has exactly two
    characters per byte and is that hash's hex form up to the case of its digits,
    so no two different hashes share a text. *)
Theorem hash_hex_roundtrip (h : harp_hash) :
  bytes_ok h -> length h = HARP_HASH_LEN ->
  harp_hash_from_hex (harp_hash_hex h) = Some h /\
  (forall hex, harp_hash_from_hex hex = Some h -> length hex = 66%nat /\ harp_hash_hex h = map lower hex).
Proof.
  intros Hok Hl. unfold harp_hash_from_hex. split.
  - rewrite harp_hash_hex_length, Hl, Nat.eqb_refl. cbn [negb]. rewrite <- Hl. by apply hex_loop_hex.
  - intros hex. case_cond; [discriminate|]. apply Nat.eqb_eq in Heqb. intros Hh.
    split; [done|]. by apply (hex_loop_inv HARP_HASH_LEN hex h Hh).
Qed.

Lemma hash_hex_roundtrip_witness :
  harp_hash_from_hex (harp_hash_hex (1 :: repeat 0xab 32)) = Some (1 :: repeat 0xab 32) /\
  harp_hash_hex (1 :: repeat 0xab 32) = map lower ([48; 49] ++ concat (repeat [65; 66] 32)).
Proof.
  destruct (hash_hex_roundtrip (1 :: repeat 0xab 32)) as [H1 H2].
  - repeat constructor; unfold is_u8; lia.
  - reflexivity.
  - split; [exact H1|]. apply (H2 ([48; 49] ++ concat (repeat [65; 66] 32))). vm_compute. reflexivity.
Defined.

(** C27: objects round-trip.  Whatever a blob, list or snapshot encoder wrote
    without running out of memory has the kind of that object, and the parsers
    return the media type and the payload, the root hash, and the engine version
    (its first 23 bytes, when the caller's buffer holds them). *)
Theorem obj_roundtrip {R : Realloc} (out : cbuf) (o : obj) :
  cb_buf out = [] -> obj_ok o = true ->
  match o with
  | OBlob m p =>
      let b := harp_obj_encode_blob out m p in
      cb_oom b = false ->
      harp_obj_kind (cb_buf b) = HARP_OBJ_BLOB /\ harp_obj_parse_blob (cb_buf b) = Some (Some m, p)
  | OList m l =>
      let b := harp_obj_encode_list out m l in
      cb_oom b = false -> harp_obj_kind (cb_buf b) = HARP_OBJ_LIST
  | OTree l => harp_obj_kind (enc_obj o) = HARP_OBJ_TREE
  | OSnapshot r ps t a e m =>
      let b := harp_obj_encode_snapshot out r ps t a e m in
      cb_oom b = false ->
      harp_obj_kind (cb_buf b) = HARP_OBJ_SNAPSHOT /\
      harp_obj_parse_snapshot_root (cb_buf b) = Some r /\
      (Forall (fun c => c <> 0) e -> forall outsz,
        harp_obj_parse_snapshot_engine (cb_buf b) outsz =
          if zlen (take 23 e) + 1 >? outsz then None else Some (take 23 e))
  end.
Proof.
  intros Ho Hok. pose proof (kind_run o Hok) as Hk.
  destruct o as [m p|m l|l|r ps t a e m]; [| |exact Hk|]; intros b Hoom; subst b.
  - rewrite (appends_fresh _ _ out (appends_blob m p)) by done. split; [exact Hk|]. by apply parse_blob_run.
  - by rewrite (appends_fresh _ _ out (appends_list m l)) by done.
  - rewrite (appends_fresh _ _ out (appends_snapshot r ps t a e m)) by done. split; [exact Hk|].
    pose proof (snap_run _ Hok eq_refl) as Hs. destruct (snap_result r ps t a e m) as (H1 & H2 & H3 & H4 & H5).
    unfold harp_obj_parse_snapshot_root, harp_obj_parse_snapshot_engine. rewrite Hs.
    rewrite H1, H2, H3, H4, H5. cbn [negb Z.eqb Pos.eqb HARP_OBJ_SNAPSHOT orb]. split; [done|].
    intros He outsz. by rewrite engine_cstr.
Qed.

Lemma obj_roundtrip_witness :
  let R : Realloc := fun _ => true in
  let h := 1 :: repeat 7 32 in
  let b := harp_obj_encode_snapshot harp_cbuf_init h [h; h] 1700000000 [97] [49; 46; 50] None in
  harp_obj_kind (cb_buf b) = 3 /\ harp_obj_parse_snapshot_root (cb_buf b) = Some h /\
  (Forall (fun c => c <> 0) [49; 46; 50] -> forall outsz, harp_obj_parse_snapshot_engine (cb_buf b) outsz =
     if 4 >? outsz then None else Some [49; 46; 50]).
Proof.
  intros R h b.
  apply (obj_roundtrip harp_cbuf_init (OSnapshot h [h; h] 1700000000 [97] [49; 46; 50] None));
    vm_compute; reflexivity.
Defined.

(** the encoding of a tree is canonical and reads back.  For entries with
    distinct names the bytes - hence the content hash - do not depend on the
    order in which the entries are given nor on the [qsort] used; the entries come
    out sorted by encoded key; and [harp_obj_tree_foreach] calls the callback on
    exactly the sorted entries, in order, until it declines.  More than 256
    entries are refused by the out-of-memory flag. *)
Theorem obj_tree_canonical {R : Realloc} {Q1 Q2 : Qsort} (out : cbuf) (l1 l2 : list harp_tree_entry) :
  cb_buf out = [] -> Permutation l1 l2 -> NoDup (map te_name l1) -> forallb entry_ok l1 = true ->
  let b1 := @harp_obj_encode_tree R Q1 out l1 in
  let b2 := @harp_obj_encode_tree R Q2 out l2 in
  b1 = b2 /\
  (256 < zlen l1 -> cb_oom b1 = true) /\
  (cb_oom b1 = false -> exists sorted,
    Permutation sorted l1 /\ StronglySorted (fun x y => entry_cmp x y <= 0) sorted /\
    forall U (cb : harp_tree_cb U) (ud : U),
      harp_obj_tree_foreach (cb_buf b1) cb ud = (true, run_until (on_entry cb) sorted ud)).
Proof.
  intros Ho Hp Hnd Hok b1 b2. assert (zlen l1 = zlen l2) as Hz by (unfold zlen; by rewrite (Permutation_length Hp)).
  split; [|split].
  - unfold b1, b2, harp_obj_encode_tree. by rewrite <- Hz, (qsort_canonical (Q1 := Q1) (Q2 := Q2) l1 l2).
  - apply tree_too_wide.
  - intros Hoom. exists (@qsort Q1 _ entry_cmp l1). split; [apply qsort_perm|].
    split; [apply qsort_sorted; eauto using entry_cmp_total, entry_cmp_trans|]. intros U cb ud.
    destruct (Z.le_gt_cases (zlen l1) 256) as [Hl|Hl].
    2:{ assert (cb_oom b1 = true) by (apply tree_too_wide; lia). congruence. }
    unfold b1. rewrite (appends_fresh _ _ out (appends_tree (Q := Q1) l1 Hl)) by done.
    apply tree_foreach_run. cbn [obj_ok]. rewrite (qsort_zlen (Q := Q1)). apply andb_true_iff.
    split; [apply Z.ltb_lt; lia|]. rewrite List.forallb_forall in *. intros x Hx. apply Hok.
    by rewrite <- (@qsort_perm Q1 _ entry_cmp l1).
Qed.

Lemma obj_tree_canonical_witness :
  let R : Realloc := fun _ => true in let Q := isort_Qsort in
  let e n := mk_entry n (1 :: repeat 7 32) 0 in
  let l1 := [e [98; 98]; e [97]; e [122]] in
  let l2 := [e [122]; e [98; 98]; e [97]] in
  harp_obj_encode_tree harp_cbuf_init l1 = harp_obj_encode_tree harp_cbuf_init l2 /\
  exists sorted, forall U (cb : harp_tree_cb U) ud,
    harp_obj_tree_foreach (cb_buf (harp_obj_encode_tree harp_cbuf_init l1)) cb ud =
      (true, run_until (on_entry cb) sorted ud).
Proof.
  intros R Q e l1 l2.
  destruct (obj_tree_canonical (Q1 := Q) (Q2 := Q) harp_cbuf_init l1 l2) as (H1 & _ & H2).
  - reflexivity.
  - apply (Permutation_app_comm [e [98; 98]; e [97]] [e [122]]).
  - vm_compute. apply (bool_decide_unpack _). vm_compute. exact I.
  - vm_compute. reflexivity.
  - split; [exact H1|]. destruct H2 as (s & _ & _ & H2); [vm_compute; reflexivity|]. exists s. exact H2.
Defined.

(** child enumeration is exact.  On the encoding of an object
    [harp_obj_foreach_child] visits exactly the hashes the object refers to, in
    order, the parents of a snapshot only when asked to, and succeeds; a callback
    that declines ends the walk over a tree, but not the walk over a list or a
    snapshot. *)
Theorem obj_children_exact {U : Type} (o : obj) (inc : bool) (cb : harp_hash_cb U) (ud : U) :
  obj_ok o = true ->
  harp_obj_foreach_child (enc_obj o) inc cb ud =
    (true, match o with
           | OTree _ => run_until cb (obj_children inc o) ud
           | _ => run_all cb (obj_children inc o) ud
           end).
Proof.
  intros Hok. destruct o as [m p|m l|l|r ps t a e m].
  - unfold harp_obj_foreach_child. by rewrite (kind_run _ Hok).
  - by apply children_list.
  - by apply children_tree.
  - by apply children_snapshot.
Qed.

Lemma obj_children_exact_witness :
  let h n := 1 :: repeat n 32 in
  let cb : harp_hash_cb (list Z) := fun h u => (false, u ++ [nth 1 h 0]) in
  harp_obj_foreach_child (enc_obj (OSnapshot (h 3) [h 4; h 5] 0 [] [] None)) true cb [] = (true, [3; 4; 5]) /\
  harp_obj_foreach_child (enc_obj (OTree [mk_entry [97] (h 3) 0; mk_entry [98] (h 4) 0])) true cb [] = (true, [3]).
Proof.
  intros h cb. split.
  - rewrite (obj_children_exact (OSnapshot (h 3) [h 4; h 5] 0 [] [] None) true cb []); vm_compute; reflexivity.
  - rewrite (obj_children_exact (OTree [mk_entry [97] (h 3) 0; mk_entry [98] (h 4) 0]) true cb []);
      vm_compute; reflexivity.
Defined.
