(* ===== verification/ObjectWalk.v ===== *)
(** * Child enumeration of arbitrary bytes

    [Object] says what [harp_obj_foreach_child] does on an encoding.  The
    collector runs it on whatever the disk holds, so here it is analysed for
    arbitrary bytes: which hashes are visited, in which order, and whether the
    walk succeeds, does not depend on the callback or its data.  [child_hashes] is
    that list of hashes. *)
From Stdlib Require Import ZArith Lia List.
From stdpp Require Import base tactics list numbers.
From S2P Require Import Prelude.
From S2P Require Import Cbuf.
From S2P Require Import CborEnc.
From S2P Require Import CborDec.
From S2P Require Import CborFields.
From S2P Require Import Object.

Open Scope Z_scope.
Open Scope list_scope.

(** The decoder only drops a prefix of its input. *)
Definition shrinks {A} (m : dec A) : Prop :=
  forall d r d', m d = (r, d') -> exists pre, d_cur d = pre ++ d_cur d'.

Lemma advances_shrinks {A} (m : dec A) : advances m -> shrinks m.
Proof. intros Hm d r d' E. by apply Hm in E as [? _]. Qed.

(** On good bytes, what [m] returns satisfies [P]. *)
Definition yields {A} (m : dec A) (P : A -> Prop) : Prop :=
  forall d a d', bytes_ok (d_cur d) -> m d = (Some a, d') -> P a.

Lemma shrinks_bytes {A} (m : dec A) d r d' : shrinks m -> bytes_ok (d_cur d) -> m d = (r, d') -> bytes_ok (d_cur d').
Proof. intros Hm Hb E. destruct (Hm _ _ _ E) as [pre Hp]. rewrite Hp in Hb. by apply bytes_ok_app in Hb as [_ ?]. Qed.

Lemma yields_bytes : yields harp_cdec_bytes bytes_ok.
Proof.
  intros d a d' Hb. unfold harp_cdec_bytes, read_string.
  intros ([[mj ai] len] & d1 & H1 & H2)%sm_bind_Some.
  assert (bytes_ok (d_cur d1)) as Hb1 by (eapply shrinks_bytes; [apply advances_shrinks, advances_head|exact Hb|exact H1]).
  apply sm_bind_Some in H2 as (d2 & d3 & [= <- <-] & H2). case_cond_in H2; [discriminate|].
  injection H2 as <- _. by apply bytes_ok_take.
Qed.

Lemma shrinks_hash : shrinks harp_hash_read.
Proof. intros d r d'. apply advances_hash. Qed.

Lemma yields_hash : yields harp_hash_read is_hash.
Proof.
  intros d a d' Hb. unfold harp_hash_read. intros (p & d1 & H1 & H2)%sm_bind_Some.
  pose proof (yields_bytes _ _ _ Hb H1) as Hp. case_cond_in H2; [discriminate|]. case_cond_in H2; [discriminate|].
  injection H2 as <- _. split; [done|]. by apply Nat.eqb_eq.
Qed.

Lemma yields_any {A} (m : dec A) : yields m (fun _ => True).
Proof. done. Qed.

Section uniform.
  (** The iterator records of the walks and the visit of one hash. *)
Context {IT : Type -> Type} (visit : forall U, harp_hash_cb U -> harp_hash -> IT U -> IT U).

(** A walk, as a family over the callback. *)
Definition walk (A : Type) : Type := forall U, harp_hash_cb U -> parser (IT U) A.

Definition visits (l : list harp_hash) : forall U, harp_hash_cb U -> IT U -> IT U :=
  fun U cb it => fold_left (fun it h => visit U cb h it) l it.

(** Under [H], the hashes visited are well-formed. *)
Definition uniform {A} (H : Prop) (M : walk A) : Prop :=
  forall d, exists r d' l,
    (H -> bytes_ok (d_cur d) -> Forall is_hash l /\ bytes_ok (d_cur d')) /\
    forall U cb it, M U cb (d, it) = (r, (d', visits l U cb it)).

Lemma uniform_ret {A} H (a : A) : uniform H (fun U cb => mret a).
Proof. intros d. exists (Some a), d, []. done. Qed.

Lemma uniform_fail {A} H : uniform (A := A) H (fun U cb => sm_fail).
Proof. intros d. exists None, d, []. done. Qed.

Lemma uniform_visit (H : Prop) h : (H -> is_hash h) -> uniform H (fun U cb => on_snd (sm_modify (visit U cb h))).
Proof.
  intros Hh d. exists (Some tt), d, [h]. split; [|done]. intros HH Hb. split; [|done]. by repeat constructor; apply Hh.
Qed.

Lemma uniform_leaf {A B} H (m : dec A) (P : A -> Prop) (K : A -> walk B) :
  shrinks m -> yields m P -> (forall a, uniform (H /\ P a) (K a)) ->
  uniform H (fun U cb => on_fst m ≫= fun a => K a U cb).
Proof.
  intros Hs Hy HK d. destruct (m d) as [[a|] d1] eqn:E.
  - destruct (HK a d1) as (r & d' & l & HP & Hrun). exists r, d', l. split.
    + intros HH Hb. apply HP; [split; [done|by apply (Hy d a d1)]|by apply (shrinks_bytes m d (Some a))].
    + intros U cb it. erewrite sm_bind_run; [apply Hrun|]. unfold on_fst. cbn [fst snd]. by rewrite E.
  - exists None, d1, []. split.
    + intros HH Hb. split; [constructor|by apply (shrinks_bytes m d None)].
    + intros U cb it. apply sm_bind_fail. unfold on_fst. cbn [fst snd]. by rewrite E.
Qed.

Lemma uniform_only H (m : dec unit) : shrinks m -> uniform H (fun U cb => on_fst m).
Proof.
  intros Hs d. destruct (m d) as [r d1] eqn:E. exists r, d1, []. split.
  - intros HH Hb. split; [constructor|by apply (shrinks_bytes m d r)].
  - intros U cb it. unfold on_fst. cbn [fst snd]. by rewrite E.
Qed.

Lemma uniform_seq {A} H (M : walk unit) (K : walk A) : uniform H M -> uniform H K ->
  uniform H (fun U cb => M U cb ≫= fun _ => K U cb).
Proof.
  intros HM HK d. destruct (HM d) as ([[]|] & d1 & l1 & HP1 & Hrun1).
  - destruct (HK d1) as (r & d' & l2 & HP2 & Hrun2). exists r, d', (l1 ++ l2). split.
    + intros HH Hb. destruct (HP1 HH Hb) as [F1 B1]. destruct (HP2 HH B1) as [F2 B2].
      split; [by apply Forall_app|done].
    + intros U cb it. erewrite sm_bind_run by apply Hrun1. rewrite Hrun2. unfold visits. by rewrite fold_left_app.
  - exists None, d1, l1. split; [done|]. intros U cb it. erewrite sm_bind_fail; [done|apply Hrun1].
Qed.

Lemma uniform_for H n (M : walk unit) : uniform H M -> uniform H (fun U cb => sm_for n (M U cb)).
Proof.
  intros HM. assert (uniform H (fun U cb => loop_nat (M U cb) (Z.to_nat n))) as Hl.
  { induction (Z.to_nat n) as [|k IH]; [apply uniform_ret|]. cbn [loop_nat]. by apply uniform_seq. }
  intros d. destruct (Hl d) as (r & d' & l & HP & Hrun). exists r, d', l. split; [done|].
  intros U cb it. by rewrite sm_for_nat.
Qed.

Lemma uniform_weaken {A} (H H' : Prop) (M : walk A) : (H' -> H) -> uniform H M -> uniform H' M.
Proof. intros Hw HM d. destruct (HM d) as (r & d' & l & HP & Hrun). exists r, d', l. auto. Qed.

Lemma uniform_map_fields (K : Z -> walk unit) : (forall key, uniform True (K key)) ->
  uniform True (fun U cb => map_fields (fun key => K key U cb)).
Proof.
  intros HK. apply (uniform_leaf True harp_cdec_map (fun _ => True) (fun n U cb =>
    sm_for n (key ← on_fst harp_cdec_uint; K key U cb))); [apply advances_shrinks, advances_count|done|].
  intros n. apply (uniform_weaken True); [done|]. apply uniform_for.
  apply (uniform_leaf True harp_cdec_uint (fun _ => True)); [apply advances_shrinks, advances_uint|done|].
  intros key. by apply (uniform_weaken True).
Qed.
End uniform.

(** ** The walk over a list or a snapshot *)

Lemma uniform_child_hash : uniform (IT := child_iter) (fun U cb => child_visit cb) True (fun U cb => child_hash cb).
Proof.
  apply (uniform_leaf _ True harp_hash_read is_hash (fun h U cb => on_snd (sm_modify (child_visit cb h))));
    [apply shrinks_hash|apply yields_hash|]. intros h. apply uniform_visit. tauto.
Qed.

Lemma uniform_child_array : uniform (IT := child_iter) (fun U cb => child_visit cb) True (fun U cb => child_array cb).
Proof.
  apply (uniform_leaf _ True harp_cdec_array (fun _ => True) (fun n U cb => sm_for n (child_hash cb)));
    [apply advances_shrinks, advances_count|done|].
  intros n. apply (uniform_weaken _ True); [done|]. apply uniform_for, uniform_child_hash.
Qed.

Lemma uniform_child_cb inc kind key :
  uniform (IT := child_iter) (fun U cb => child_visit cb) True (fun U cb => child_cb cb inc kind key).
Proof.
  unfold child_cb. repeat case_match;
    [apply uniform_child_array|apply uniform_child_hash|apply uniform_child_array|].
  apply uniform_only, advances_shrinks, advances_skip.
Qed.

(** ** The walk over a tree *)

Definition tree_child_visit (U : Type) (cb : harp_hash_cb U) (h : harp_hash) : tree_iter U -> tree_iter U :=
  tree_visit (child_tree_entry cb) [] h 0.

Lemma uniform_tree_entry : uniform (IT := tree_iter) tree_child_visit True (fun U cb => tree_entry (child_tree_entry cb)).
Proof.
  apply (uniform_leaf _ True harp_cdec_text (fun _ => True)); [apply advances_shrinks, advances_string|done|].
  intros name. apply (uniform_leaf _ _ harp_cdec_array (fun _ => True)); [apply advances_shrinks, advances_count|done|].
  intros alen. case_match; [apply uniform_fail|].
  apply (uniform_leaf _ _ harp_hash_read is_hash); [apply shrinks_hash|apply yields_hash|]. intros h.
  apply (uniform_leaf _ _ harp_cdec_uint (fun _ => True)); [apply advances_shrinks, advances_uint|done|].
  intros kind. apply (uniform_visit tree_child_visit). tauto.
Qed.

Lemma uniform_tree_cb key : uniform (IT := tree_iter) tree_child_visit True (fun U cb => tree_cb (child_tree_entry cb) key).
Proof.
  unfold tree_cb. case_match; [apply uniform_only, advances_shrinks, advances_skip|].
  apply (uniform_leaf _ True harp_cdec_map (fun _ => True)); [apply advances_shrinks, advances_count|done|].
  intros n. apply (uniform_weaken _ True); [done|]. apply uniform_for, uniform_tree_entry.
Qed.

Lemma tree_visits_ud {U} (cb : harp_hash_cb U) l it :
  ti_ud (visits tree_child_visit l U cb it) = if ti_stopped it then ti_ud it else run_until cb l (ti_ud it).
Proof.
  unfold visits. revert it. induction l as [|h l IH]; intros it; cbn [fold_left run_until]; [by case_match|].
  rewrite IH. unfold tree_child_visit, tree_visit, child_tree_entry. destruct (ti_stopped it) eqn:Es; [by rewrite Es|].
  by destruct (cb h (ti_ud it)) as [[] u].
Qed.

(** ** Children *)

Definition is_tree (enc : list Z) : bool := harp_obj_kind enc =? HARP_OBJ_TREE.

Lemma foreach_child_uniform enc inc : exists ok l,
  (bytes_ok enc -> Forall is_hash l) /\
  forall U (cb : harp_hash_cb U) u, harp_obj_foreach_child enc inc cb u =
    (ok, if is_tree enc then run_until cb l u else run_all cb l u).
Proof.
  unfold is_tree. assert (forall (b : bool), exists ok (l : list harp_hash), (bytes_ok enc -> Forall is_hash l) /\
    forall U (cb : harp_hash_cb U) u, (b, u) = (ok, if harp_obj_kind enc =? HARP_OBJ_TREE
      then run_until cb l u else run_all cb l u)) as Htriv.
  { intros b. exists b, []. split; [constructor|]. intros. by case_match. }
  unfold harp_obj_foreach_child. destruct (_ <? 0); [apply Htriv|]. destruct (_ =? HARP_OBJ_BLOB); [apply Htriv|].
  destruct (harp_obj_kind enc =? HARP_OBJ_TREE) eqn:Ek.
  - unfold harp_obj_tree_foreach. rewrite Ek. cbn [negb].
    destruct (uniform_map_fields tree_child_visit _ uniform_tree_cb (harp_cdec_init enc)) as (r & d' & l & HP & Hrun).
    exists (match r with Some _ => negb (d_err d') | None => false end), l. split; [intros Hb; by apply HP|].
    intros U cb u. unfold obj_fields. rewrite Hrun. by destruct r; rewrite tree_visits_ud.
  - destruct (uniform_map_fields (IT := child_iter) (fun U cb => child_visit cb) _ (uniform_child_cb inc (harp_obj_kind enc))
      (harp_cdec_init enc)) as (r & d' & l & HP & Hrun).
    exists (match r with Some _ => negb (d_err d') | None => false end), l. split; [intros Hb; by apply HP|].
    intros U cb u. unfold obj_fields. rewrite Hrun. unfold visits. fold (child_visits cb l (mk_ci u true)).
    by destruct r; rewrite child_visits_ud.
Qed.

(** The verdict and the hashes visited, as the callback that collects them sees
    it. *)
Definition collect : harp_hash_cb (list harp_hash) := fun h u => (true, u ++ [h]).

Definition child_hashes (inc : bool) (enc : list Z) : bool * list harp_hash := harp_obj_foreach_child enc inc collect [].

Lemma run_collect l u : run_until collect l u = u ++ l /\ run_all collect l u = u ++ l.
Proof.
  revert u. induction l as [|h l IH]; intros u; [by rewrite app_nil_r|].
  destruct (IH (u ++ [h])) as [E1 E2]. rewrite <- app_assoc in E1, E2. split; [exact E1|exact E2].
Qed.

(** Every callback is run on [child_hashes], until it declines or on all. *)
Lemma foreach_children enc inc {U} (cb : harp_hash_cb U) u :
  harp_obj_foreach_child enc inc cb u =
    ((child_hashes inc enc).1, if is_tree enc then run_until cb (child_hashes inc enc).2 u else run_all cb (child_hashes inc enc).2 u).
Proof.
  destruct (foreach_child_uniform enc inc) as (ok & l & _ & Hrun). unfold child_hashes.
  rewrite (Hrun _ collect []). cbn [fst snd]. destruct (run_collect l []) as [-> ->]. cbn [app].
  rewrite Hrun. by case_match.
Qed.

Lemma children_hashes enc inc : bytes_ok enc -> Forall is_hash (child_hashes inc enc).2.
Proof.
  intros Hb. destruct (foreach_child_uniform enc inc) as (ok & l & Hl & Hrun). unfold child_hashes.
  rewrite (Hrun _ collect []). cbn [snd]. destruct (run_collect l []) as [-> ->]. cbn [app]. case_match; auto.
Qed.
