(* ===== verification/Link.v ===== *)
(** * The framed link ([core/src/link.c])

    Messages over a byte pipe: [harp_link_send] chops a message into frames,
    [harp_link_recv] reassembles the interleaved frames of four streams.  The
    transport is the interface [HarpIo] (the two blocking function pointers of
    [harp_io]); [BytePipe] states what a transport promises, and the fd-backed
    transport - [harp_read_exact]/[harp_write_all] over system calls that return
    short counts, are interrupted, or fail - is an instance of it. *)
From Stdlib Require Import ZArith Lia List.
From stdpp Require Import base tactics list numbers.
From S2P Require Import Prelude.
From S2P Require Import Cbuf.
From S2P Require Import Frame.

Open Scope Z_scope.
Open Scope list_scope.

(** ** Transports *)

(** [harp_io]: both calls block until satisfied; [None] is EOF or error. *)
Class HarpIo (io : Type) := {
  io_read_exact : nat -> SM io (list Z);
  io_write_all : list Z -> SM io unit;
  io_corrupt_pct : io -> Z
}.

(** What the link relies on: [pipe_in] are the bytes still to arrive before the
    pipe breaks, [pipe_out] the bytes handed over so far. *)
Class BytePipe (io : Type) `{HarpIo io} := {
  pipe_in : io -> list Z;
  pipe_out : io -> list Z;
  pipe_read : forall n i, (n <= length (pipe_in i))%nat ->
    exists i', io_read_exact n i = (Some (take n (pipe_in i)), i') /\
      pipe_in i' = drop n (pipe_in i) /\ pipe_out i' = pipe_out i;
  pipe_short : forall n i, (length (pipe_in i) < n)%nat -> exists i', io_read_exact n i = (None, i');
  pipe_write : forall l i r i', io_write_all l i = (r, i') ->
    pipe_in i' = pipe_in i /\ io_corrupt_pct i' = io_corrupt_pct i /\
    (r = Some tt -> pipe_out i' = pipe_out i ++ l)
}.

(** *** File descriptors *)

(** What the next [read] of a descriptor will do: deliver up to these bytes, be
    interrupted, or fail; at the end of the script, and on an empty delivery, it
    returns 0 (EOF). *)
Inductive rd_ev : Set := RdData (l : list Z) | RdIntr | RdErr.

(** The next [write]: accept up to [k] bytes, be interrupted, or fail; at the
    end of the script it accepts everything. *)
Inductive wr_ev : Set := WrAccept (k : nat) | WrIntr | WrErr.

Record fd := mk_fd { fd_rd : list rd_ev; fd_wr : list wr_ev; fd_out : list Z; fd_corrupt : Z }.

Inductive io_result (A : Type) : Type := IoOk (a : A) | IoIntr | IoErr.
Arguments IoOk {A}. Arguments IoIntr {A}. Arguments IoErr {A}.

Definition io_read (n : nat) (f : fd) : io_result (list Z) * fd :=
  match fd_rd f with
  | [] => (IoOk [], f)
  | RdData l :: r =>
      if (n <? length l)%nat
      then (IoOk (take n l), mk_fd (RdData (drop n l) :: r) (fd_wr f) (fd_out f) (fd_corrupt f))
      else (IoOk l, mk_fd r (fd_wr f) (fd_out f) (fd_corrupt f))
  | RdIntr :: r => (IoIntr, mk_fd r (fd_wr f) (fd_out f) (fd_corrupt f))
  | RdErr :: r => (IoErr, mk_fd r (fd_wr f) (fd_out f) (fd_corrupt f))
  end.

Definition io_write (p : list Z) (f : fd) : io_result nat * fd :=
  match fd_wr f with
  | [] => (IoOk (length p), mk_fd (fd_rd f) [] (fd_out f ++ p) (fd_corrupt f))
  | WrAccept k :: r =>
      let n := Nat.min k (length p) in
      (IoOk n, mk_fd (fd_rd f) r (fd_out f ++ take n p) (fd_corrupt f))
  | WrIntr :: r => (IoIntr, mk_fd (fd_rd f) r (fd_out f) (fd_corrupt f))
  | WrErr :: r => (IoErr, mk_fd (fd_rd f) r (fd_out f) (fd_corrupt f))
  end.

(** [while (n) { r = io_read(...) ... }]; an iteration that does not finish uses
    up an event of the script. *)
Fixpoint read_loop (fuel : nat) (n : nat) (acc : list Z) : SM fd (list Z) := fun f =>
  if (n =? 0)%nat then (Some acc, f)
  else match fuel with
  | O => (None, f)
  | S k =>
      match io_read n f with
      | (IoIntr, f') => read_loop k n acc f'
      | (IoErr, f') => (None, f')
      | (IoOk l, f') => if (length l =? 0)%nat then (None, f') else read_loop k (n - length l) (acc ++ l) f'
      end
  end.

Definition harp_read_exact (n : nat) : SM fd (list Z) := fun f => read_loop (S (length (fd_rd f))) n [] f.

Fixpoint write_loop (fuel : nat) (p : list Z) : SM fd unit := fun f =>
  if (length p =? 0)%nat then (Some tt, f)
  else match fuel with
  | O => (None, f)
  | S k =>
      match io_write p f with
      | (IoIntr, f') => write_loop k p f'
      | (IoErr, f') => (None, f')
      | (IoOk r, f') => write_loop k (drop r p) f'
      end
  end.

Definition harp_write_all (p : list Z) : SM fd unit := fun f => write_loop (S (length (fd_wr f))) p f.

#[export] Instance fd_io : HarpIo fd :=
  {| io_read_exact := harp_read_exact; io_write_all := harp_write_all; io_corrupt_pct := fd_corrupt |}.

(** ** Receiving *)

Definition harp_stream_msg_cap (stream : Z) : Z :=
  if stream =? HARP_STREAM_CTL then HARP_CTL_MAX_PAYLOAD
  else if stream =? HARP_STREAM_EVT then HARP_EVT_MAX_PAYLOAD
  else if stream =? HARP_STREAM_LOG then HARP_LOG_MAX_PAYLOAD
  else HARP_OBJ_MAX_PAYLOAD.

(** The transport, [l->acc[0 .. 3]] and the caller's message buffer. *)
Record link_st (io : Type) := mk_link { ls_io : io; ls_acc : list cbuf; ls_msg : cbuf }.
Arguments mk_link {io}. Arguments ls_io {io}. Arguments ls_acc {io}. Arguments ls_msg {io}.

(** [harp_link_recv]'s results: 0 with the stream, -1, -2. *)
Inductive recv_res : Set := RecvMsg (stream : Z) | RecvIo | RecvProto.

Definition harp_link_init : list cbuf := repeat harp_cbuf_init 4.

Section link.
Context {R : Realloc} {io : Type} {I : HarpIo io}.

(** One turn of [for (;;)]; [None]: the loop continues. *)
Definition recv_iter (s : link_st io) : option recv_res * link_st io :=
  match io_read_exact HARP_FRAME_HDR_LEN (ls_io s) with
  | (None, i1) => (Some RecvIo, mk_link i1 (ls_acc s) (ls_msg s))
  | (Some hdr, i1) =>
      let '(ok, h) := harp_frame_hdr_decode hdr in
      if negb ok then (Some RecvProto, mk_link i1 (ls_acc s) (ls_msg s))
      else
        let '(r, i2) := if flength h =? 0 then (Some [], i1)
                        else io_read_exact (Z.to_nat (flength h)) i1 in
        match r with
        | None => (Some RecvIo, mk_link i2 (ls_acc s) (ls_msg s))
        | Some payload =>
            if stream h >=? 4 then (None, mk_link i2 (ls_acc s) (ls_msg s))
            else
              let k := Z.to_nat (stream h) in
              let acc := harp_cbuf_put (nth k (ls_acc s) harp_cbuf_init) payload in
              let s1 := mk_link i2 (<[k := acc]> (ls_acc s)) (ls_msg s) in
              if cb_oom acc then (Some RecvProto, s1)
              else
                let cap := harp_stream_msg_cap (stream h) in
                if negb (cap =? 0) && (cb_len acc >? cap) then (Some RecvProto, s1)
                else if negb (Z.land (flags h) HARP_FLAG_FIN =? 0) then
                  let msg := harp_cbuf_put (harp_cbuf_reset (ls_msg s)) (cb_buf acc) in
                  (Some (if cb_oom msg then RecvProto else RecvMsg (stream h)),
                   mk_link i2 (<[k := harp_cbuf_reset acc]> (ls_acc s)) msg)
                else (None, s1)
        end
  end.

(** [None]: out of fuel.  A turn that continues has read a header, so the bytes
    the pipe will deliver bound the turns. *)
Fixpoint harp_link_recv (fuel : nat) (s : link_st io) : option recv_res * link_st io :=
  match fuel with
  | O => (None, s)
  | S k =>
      match recv_iter s with
      | (None, s') => harp_link_recv k s'
      | r => r
      end
  end.

(** ** Sending *)

(** The state is the transport and the static frame counter [cf]. *)
Definition send_payload (p : list Z) : SM (io * Z) unit := fun st =>
  let fn := st.2 in
  let st1 := (st.1, u32 (fn + 1)) in
  let pct := io_corrupt_pct st.1 in
  if (pct >? 0) && (pct <=? 100) && (u32 (u32 (fn + 1) * 2654435761) mod 100 <? pct) then
    let bi := Z.to_nat (fn mod zlen p) in
    let bad := u8 (Z.lxor (nth bi p 0) 0xff) in
    ((if (bi =? 0)%nat then mret tt else on_fst (io_write_all (take bi p)));;
     on_fst (io_write_all [bad]);;
     if (bi + 1 <? length p)%nat then on_fst (io_write_all (drop (bi + 1) p)) else mret tt) st1
  else on_fst (io_write_all p) st1.

(** [do { ... } while (len)]: one frame per iteration. *)
Fixpoint send_loop (fuel : nat) (strm : Z) (p : list Z) : SM (io * Z) unit :=
  match fuel with
  | O => sm_fail
  | S k =>
      let len := zlen p in
      let chunk := if len >? HARP_FRAME_MAX_PAYLOAD then HARP_FRAME_MAX_PAYLOAD else len in
      let h := mk_frame_hdr HARP_FRAME_FVER strm (if chunk =? len then HARP_FLAG_FIN else 0) (u32 chunk) in
      on_fst (io_write_all (harp_frame_hdr_encode h));;
      (if chunk =? 0 then mret tt else send_payload (take (Z.to_nat chunk) p));;
      let p' := drop (Z.to_nat chunk) p in
      if (length p' =? 0)%nat then mret tt else send_loop k strm p'
  end.

Definition harp_link_send (strm : Z) (data : list Z) : SM (io * Z) unit :=
  send_loop (S (length data)) strm data.
End link.

(** ** Descriptors are byte pipes *)

(** The bytes a descriptor delivers before it ends or fails. *)
Fixpoint rd_data (s : list rd_ev) : list Z :=
  match s with
  | [] => []
  | RdData [] :: _ => []
  | RdData l :: r => l ++ rd_data r
  | RdIntr :: r => rd_data r
  | RdErr :: _ => []
  end.

Lemma rd_data_cons l r : l <> [] -> rd_data (RdData l :: r) = l ++ rd_data r.
Proof. by destruct l. Qed.

Lemma read_loop_spec fuel n acc f : (length (fd_rd f) < fuel)%nat ->
  exists f', read_loop fuel n acc f =
    (if (n <=? length (rd_data (fd_rd f)))%nat then Some (acc ++ take n (rd_data (fd_rd f))) else None, f') /\
    ((n <= length (rd_data (fd_rd f)))%nat -> rd_data (fd_rd f') = drop n (rd_data (fd_rd f)) /\
      fd_out f' = fd_out f /\ fd_corrupt f' = fd_corrupt f).
Proof.
  revert n acc f. induction fuel as [|k IH]; intros n acc f Hf; [lia|]. cbn [read_loop].
  destruct (Nat.eqb_spec n 0) as [->|Hn].
  { exists f. cbn [Nat.leb take drop]. by rewrite app_nil_r. }
  unfold io_read. destruct f as [rd wr out c]. cbn [fd_rd fd_wr fd_out fd_corrupt] in *.
  destruct rd as [|[l| |] r]; cbn [length] in *.
  - cbn [rd_data length]. exists (mk_fd [] wr out c). rewrite (proj2 (Nat.leb_gt _ _)) by lia. split; [done|]. lia.
  - destruct (decide (l = [])) as [->|Hl].
    { cbn [length rd_data Nat.ltb Nat.leb Nat.eqb]. eexists. rewrite (proj2 (Nat.leb_gt _ _)) by (cbn; lia).
      split; [reflexivity|cbn; lia]. }
    rewrite rd_data_cons by done. rewrite length_app.
    assert (0 < length l)%nat by (destruct l; [done|cbn; lia]).
    destruct (Nat.ltb_spec n (length l)) as [Hlt|Hge].
    + rewrite (proj2 (Nat.eqb_neq _ _)) by (rewrite length_take; lia).
      rewrite length_take, Nat.min_l, Nat.sub_diag by lia. rewrite (proj2 (Nat.leb_le _ _)) by lia.
      exists (mk_fd (RdData (drop n l) :: r) wr out c). rewrite take_app_le by lia.
      split; [by destruct k|]. intros _. cbn [fd_rd fd_out fd_corrupt]. rewrite drop_app_le by lia.
      rewrite rd_data_cons; [done|]. intros E. apply (f_equal length) in E. rewrite length_drop in E. cbn in E. lia.
    + rewrite (proj2 (Nat.eqb_neq _ _)) by lia.
      destruct (IH (n - length l)%nat (acc ++ l) (mk_fd r wr out c)) as (f' & E & Hf'); [cbn; lia|].
      cbn [fd_rd fd_out fd_corrupt] in *. exists f'. rewrite E.
      destruct (Nat.leb_spec (n - length l) (length (rd_data r))), (Nat.leb_spec n (length l + length (rd_data r)));
        try lia.
      * rewrite take_app_ge, app_assoc by lia. split; [done|]. intros _. rewrite drop_app_ge by lia. by apply Hf'.
      * split; [done|lia].
  - change (rd_data (RdIntr :: r)) with (rd_data r). destruct (IH n acc (mk_fd r wr out c)) as (f' & E & Hf'); [cbn; lia|]. by exists f'.
  - cbn [rd_data length]. eexists. rewrite (proj2 (Nat.leb_gt _ _)) by lia. split; [reflexivity|]. lia.
Qed.

Lemma write_loop_spec fuel p f r f' : write_loop fuel p f = (r, f') ->
  fd_rd f' = fd_rd f /\ fd_corrupt f' = fd_corrupt f /\ (r = Some tt -> fd_out f' = fd_out f ++ p).
Proof.
  revert p f. induction fuel as [|k IH]; intros p f; cbn [write_loop].
  { destruct p; cbn; intros [= <- <-]; [|done]. by rewrite app_nil_r. }
  destruct (Nat.eqb_spec (length p) 0) as [Hp|_].
  { destruct p; [|discriminate]. intros [= <- <-]. by rewrite app_nil_r. }
  unfold io_write. destruct (fd_wr f) as [|[n| |] w]; [| | |by intros [= <- <-]];
    intros H; apply IH in H as (H1 & H2 & H3); cbn [fd_rd fd_corrupt fd_out] in *;
    split_and!; try done; intros Hr; rewrite (H3 Hr), <- ?app_assoc; f_equal.
  - by rewrite drop_all, app_nil_r.
  - by rewrite take_drop.
Qed.

(** Whatever the system calls do short of failing for good, all is written. *)
Lemma write_loop_total fuel p f : (length (fd_wr f) < fuel)%nat -> (forall e, e ∈ fd_wr f -> e <> WrErr) ->
  exists f', write_loop fuel p f = (Some tt, f').
Proof.
  revert p f. induction fuel as [|k IH]; intros p f Hf He; [lia|]. cbn [write_loop].
  case_cond; [eauto|]. unfold io_write. destruct f as [rd wr out c]. cbn [fd_rd fd_wr fd_out fd_corrupt] in *.
  destruct wr as [|[n| |] w]; cbn [length] in Hf.
  - rewrite drop_all. destruct k; cbn; eauto.
  - apply IH; cbn; [lia|]. intros e Hin. apply He. by right.
  - apply IH; cbn; [lia|]. intros e Hin. apply He. by right.
  - exfalso. apply (He WrErr); [by left|done].
Qed.

#[export, refine] Instance fd_pipe : BytePipe fd :=
  {| pipe_in f := rd_data (fd_rd f); pipe_out := fd_out |}.
Proof.
  - intros n f Hn. cbn [io_read_exact fd_io]. unfold harp_read_exact.
    destruct (read_loop_spec (S (length (fd_rd f))) n [] f) as (f' & -> & H); [lia|].
    rewrite (proj2 (Nat.leb_le _ _)) by done. exists f'. split; [done|]. by destruct H as (? & ? & ?).
  - intros n f Hn. cbn [io_read_exact fd_io]. unfold harp_read_exact.
    destruct (read_loop_spec (S (length (fd_rd f))) n [] f) as (f' & -> & _); [lia|].
    rewrite (proj2 (Nat.leb_gt _ _)) by done. by exists f'.
  - intros l f r f' H. apply write_loop_spec in H as (-> & H2 & H3). done.
Defined.

(** ** Frames *)

Record frame := mk_frame { f_stream : Z; f_fin : bool; f_payload : list Z }.

Definition frame_ok (f : frame) : Prop := is_u8 (f_stream f) /\ zlen (f_payload f) <= HARP_FRAME_MAX_PAYLOAD.

Definition frame_hdr (f : frame) : harp_frame_hdr :=
  mk_frame_hdr HARP_FRAME_FVER (f_stream f) (if f_fin f then HARP_FLAG_FIN else 0) (zlen (f_payload f)).

Definition enc_frame (f : frame) : list Z := harp_frame_hdr_encode (frame_hdr f) ++ f_payload f.

Lemma frame_hdr_is_ok f : frame_ok f -> frame_hdr_ok (frame_hdr f) /\ frame_hdr_valid (frame_hdr f) = true.
Proof.
  intros [Hs Hp]. pose proof (zlen_nonneg (f_payload f)). unfold HARP_FRAME_MAX_PAYLOAD in Hp.
  assert (frame_hdr_ok (frame_hdr f)) as Hok.
  { unfold frame_hdr_ok, frame_hdr. cbn [fver stream flags flength]. split_and!; [unfold is_u8, HARP_FRAME_FVER; lia|done| |unfold is_u32; lia].
    destruct (f_fin f); unfold is_u16, HARP_FLAG_FIN; lia. }
  split; [done|]. apply frame_hdr_valid_iff; [done|]. unfold frame_hdr, HARP_FRAME_MAX_PAYLOAD.
  cbn [fver stream flags flength]. split_and!; try lia. destruct (f_fin f); auto.
Qed.

Lemma frame_hdr_length h : length (harp_frame_hdr_encode h) = 8%nat.
Proof. done. Qed.

(** ** The reassembly specification *)

(** What one frame does to the four partial messages: skip, grow, deliver, or
    violate the cap. *)
Definition spec_step (a : list (list Z)) (f : frame) : option (recv_res * list Z) * list (list Z) :=
  if f_stream f >=? 4 then (None, a)
  else
    let k := Z.to_nat (f_stream f) in
    let acc := nth k a [] ++ f_payload f in
    if zlen acc >? harp_stream_msg_cap (f_stream f) then (Some (RecvProto, []), <[k := acc]> a)
    else if f_fin f then (Some (RecvMsg (f_stream f), acc), <[k := []]> a)
    else (None, <[k := acc]> a).

Fixpoint recv_spec (a : list (list Z)) (fs : list frame) :
    option (recv_res * list Z) * list (list Z) * list frame :=
  match fs with
  | [] => (None, a, [])
  | f :: r =>
      match spec_step a f with
      | (Some x, a') => (Some x, a', r)
      | (None, a') => recv_spec a' r
      end
  end.

(** The accumulators hold the partial messages [a]. *)
Definition accs_are (l : list cbuf) (a : list (list Z)) : Prop :=
  length l = 4%nat /\ map cb_buf l = a /\ forall b, b ∈ l -> cb_oom b = false.

Section reassembly.
Context {R : Realloc} (Htotal : realloc_total R) {io : Type} `{BytePipe io}.

Lemma put_total b p : cb_oom b = false ->
  cb_buf (harp_cbuf_put b p) = cb_buf b ++ p /\ cb_oom (harp_cbuf_put b p) = false.
Proof.
  intros Ho. pose proof (never_oom_put p Htotal b Ho) as Hn. cbv beta in Hn.
  split; [|done]. by apply (appends_put p b).
Qed.

Lemma accs_update l a k b : accs_are l a -> cb_oom b = false -> accs_are (<[k := b]> l) (<[k := cb_buf b]> a).
Proof.
  intros (Hl & Ha & Ho) Hb. split_and!.
  - by rewrite length_insert.
  - by rewrite list_fmap_insert, <- Ha.
  - intros x Hx. apply list_elem_of_lookup in Hx as [i Hi].
    destruct (decide (i = k)) as [->|Hik].
    + destruct (decide (k < length l)%nat).
      * rewrite list_lookup_insert_eq in Hi by done. congruence.
      * rewrite list_insert_ge in Hi by lia. apply Ho. by apply list_elem_of_lookup_2 in Hi.
    + rewrite list_lookup_insert_ne in Hi by done. apply Ho. by apply list_elem_of_lookup_2 in Hi.
Qed.

Lemma accs_nth l a k : accs_are l a -> (k < 4)%nat ->
  cb_buf (nth k l harp_cbuf_init) = nth k a [] /\ cb_oom (nth k l harp_cbuf_init) = false.
Proof.
  intros (Hl & Ha & Ho) Hk. split.
  - rewrite <- Ha. change [] with (cb_buf harp_cbuf_init). by rewrite map_nth.
  - apply Ho. apply list_elem_of_In, nth_In. lia.
Qed.

Lemma cap_pos s : (harp_stream_msg_cap s =? 0) = false.
Proof. unfold harp_stream_msg_cap. by repeat case_cond. Qed.

(** One turn of the receiver on one frame. *)
Lemma recv_iter_frame (s : link_st io) a f rest :
  frame_ok f -> accs_are (ls_acc s) a -> pipe_in (ls_io s) = enc_frame f ++ rest ->
  exists s', recv_iter s = (fst <$> (spec_step a f).1, s') /\
    pipe_in (ls_io s') = rest /\ accs_are (ls_acc s') (spec_step a f).2 /\
    (forall k m, (spec_step a f).1 = Some (RecvMsg k, m) -> cb_buf (ls_msg s') = m).
Proof.
  intros Hf Ha Hin. destruct (frame_hdr_is_ok f Hf) as [Hok Hv]. destruct Hf as [Hs Hp].
  unfold recv_iter, enc_frame in *.
  destruct (pipe_read HARP_FRAME_HDR_LEN (ls_io s)) as (i1 & -> & Hi1 & _).
  { rewrite Hin, !length_app, frame_hdr_length. unfold HARP_FRAME_HDR_LEN. lia. }
  rewrite Hin in *. rewrite <- app_assoc in *.
  rewrite take_app_length' by done. rewrite drop_app_length' in Hi1 by done.
  rewrite <- (app_nil_r (harp_frame_hdr_encode _)), frame_decode_encode, Hv by done. cbn [negb].
  change (flength (frame_hdr f)) with (zlen (f_payload f)).
  change (stream (frame_hdr f)) with (f_stream f).
  pose proof (zlen_nonneg (f_payload f)).
  set (rd := if zlen (f_payload f) =? 0 then _ else _).
  assert (exists i2, rd = (Some (f_payload f), i2) /\ pipe_in i2 = rest) as (i2 & -> & Hi2).
  { subst rd. destruct (Z.eqb_spec (zlen (f_payload f)) 0) as [Hz|Hz].
    - exists i1. destruct (f_payload f); [done|]. rewrite zlen_cons in Hz. pose proof (zlen_nonneg l). lia.
    - unfold zlen. rewrite Nat2Z.id.
      destruct (pipe_read (length (f_payload f)) i1) as (i2 & -> & Hi2 & _).
      { rewrite Hi1, length_app. lia. }
      exists i2. rewrite Hi2, Hi1, take_app_length, drop_app_length. done. }
  unfold spec_step. destruct (Z.geb_spec (f_stream f) 4) as [H4|H4].
  { eexists. split; [reflexivity|]. done. }
  destruct Hs as [Hs0 Hs1]. set (k := Z.to_nat (f_stream f)). assert (k < 4)%nat as Hk by lia.
  destruct (accs_nth _ _ k Ha Hk) as [Hb Ho].
  destruct (put_total (nth k (ls_acc s) harp_cbuf_init) (f_payload f) Ho) as [Hpb Hpo].
  set (acc := harp_cbuf_put _ _) in *. rewrite Hpo, cap_pos. cbn [negb andb].
  unfold cb_len. rewrite Hpb, Hb. rewrite Hb in Hpb.
  pose proof (accs_update _ _ k acc Ha Hpo) as Hacc. rewrite Hpb in Hacc.
  case_cond.
  { eexists. split; [reflexivity|]. done. }
  change (flags (frame_hdr f)) with (if f_fin f then HARP_FLAG_FIN else 0).
  destruct (f_fin f); cbn [Z.land Z.eqb negb HARP_FLAG_FIN Pos.land].
  - destruct (put_total (harp_cbuf_reset (ls_msg s)) (nth k a [] ++ f_payload f) eq_refl) as [Hmb Hmo].
    rewrite Hmo. eexists. split; [reflexivity|]. cbn [ls_io ls_acc ls_msg fst snd]. split_and!; try done.
    + apply (accs_update _ _ k (harp_cbuf_reset acc) Ha eq_refl).
    + by intros k' m [= <- <-].
  - eexists. split; [reflexivity|]. done.
Qed.

Lemma recv_frames fs : forall (s : link_st io) a rest fuel,
  Forall frame_ok fs -> accs_are (ls_acc s) a -> pipe_in (ls_io s) = flat_map enc_frame fs ++ rest ->
  (length fs < fuel)%nat ->
  let '(r, a', fs') := recv_spec a fs in
  exists s', accs_are (ls_acc s') a' /\ pipe_in (ls_io s') = flat_map enc_frame fs' ++ rest /\
    match r with
    | Some (x, m) => harp_link_recv fuel s = (Some x, s') /\
        (forall k, x = RecvMsg k -> cb_buf (ls_msg s') = m)
    | None => exists k, harp_link_recv fuel s = harp_link_recv (S k) s'
    end.
Proof.
  induction fs as [|f fs IH]; intros s a rest fuel Hok Ha Hin Hf; cbn [recv_spec].
  { exists s. destruct fuel as [|k]; [lia|]. eauto. }
  apply Forall_cons_iff in Hok as [Hfo Hok]. cbn [flat_map] in Hin. rewrite <- app_assoc in Hin.
  destruct (recv_iter_frame s a f _ Hfo Ha Hin) as (s1 & E & Hin1 & Ha1 & Hm1).
  destruct fuel as [|k]; [lia|]. cbn [length] in Hf.
  destruct (spec_step a f) as [[[x m]|] a1]; cbn [fst snd fmap option_fmap option_map] in *.
  - exists s1. split_and!; [done|done| |].
    + cbn [harp_link_recv]. by rewrite E.
    + intros k' ->. by apply (Hm1 k').
  - specialize (IH s1 a1 rest k Hok Ha1 Hin1 ltac:(lia)).
    destruct (recv_spec a1 fs) as [[r a'] fs']. destruct IH as (s' & H1 & H2 & H3).
    exists s'. split_and!; try done. cbn [harp_link_recv]. rewrite E. exact H3.
Qed.
End reassembly.

(** ** The frames of a message *)

(** Chunks of at most 64 KiB, the last one (possibly empty) marked final. *)
Fixpoint frames_of (fuel : nat) (strm : Z) (p : list Z) : list frame :=
  match fuel with
  | O => []
  | S k =>
      if zlen p >? HARP_FRAME_MAX_PAYLOAD
      then mk_frame strm false (take (Z.to_nat HARP_FRAME_MAX_PAYLOAD) p)
             :: frames_of k strm (drop (Z.to_nat HARP_FRAME_MAX_PAYLOAD) p)
      else [mk_frame strm true p]
  end.

Definition message_frames (strm : Z) (p : list Z) : list frame := frames_of (S (length p)) strm p.

(** At most one byte is complemented. *)
Definition flip_at_most_one (p q : list Z) : Prop :=
  q = p \/ exists a b c, p = a ++ b :: c /\ q = a ++ u8 (Z.lxor b 0xff) :: c.

Definition frame_flip (f g : frame) : Prop :=
  f_stream g = f_stream f /\ f_fin g = f_fin f /\ flip_at_most_one (f_payload f) (f_payload g).

Definition corrupting (pct : Z) : bool := (pct >? 0) && (pct <=? 100).

Lemma frames_of_ok fuel strm p : is_u8 strm -> Forall frame_ok (frames_of fuel strm p).
Proof.
  intros Hs. revert p. induction fuel as [|k IH]; intros p; cbn [frames_of]; [constructor|].
  unfold HARP_FRAME_MAX_PAYLOAD. case_cond; constructor; try constructor; try done; cbn [f_payload].
  - unfold zlen. rewrite length_take. unfold HARP_FRAME_MAX_PAYLOAD. lia.
Qed.

Section sending.
Context {io : Type} `{BytePipe io}.

Lemma on_fst_write (l : list Z) (i : io) (c : Z) r st : on_fst (io_write_all l) (i, c) = (r, st) ->
  st.2 = c /\ io_corrupt_pct st.1 = io_corrupt_pct i /\ (r = Some tt -> pipe_out st.1 = pipe_out i ++ l).
Proof.
  unfold on_fst. cbn [fst snd]. destruct (io_write_all l i) as [r' i'] eqn:E. intros [= <- <-].
  destruct (pipe_write _ _ _ _ E) as (_ & H2 & H3). done.
Qed.

(** Frame payloads go out whole, or with one byte flipped when faults are
    injected. *)
Lemma send_payload_spec p (i : io) c i' c' : p <> [] -> send_payload p (i, c) = (Some tt, (i', c')) ->
  io_corrupt_pct i' = io_corrupt_pct i /\
  exists q, pipe_out i' = pipe_out i ++ q /\ flip_at_most_one p q /\
    (corrupting (io_corrupt_pct i) = false -> q = p).
Proof.
  intros Hp. unfold send_payload, corrupting. cbn [fst snd].
  destruct ((io_corrupt_pct i >? 0) && (io_corrupt_pct i <=? 100)) eqn:Ec; cbn [andb].
  2:{ intros (_ & H2 & H3)%on_fst_write. split; [done|]. exists p. split; [by apply H3|]. split; [by left|done]. }
  destruct (_ <? io_corrupt_pct i).
  2:{ intros (_ & H2 & H3)%on_fst_write. split; [done|]. exists p. split; [by apply H3|]. split; [by left|done]. }
  set (bi := Z.to_nat (c mod zlen p)). intros Hrun.
  assert (bi < length p)%nat as Hbi.
  { assert (0 < zlen p) by (destruct p; [done|]; rewrite zlen_cons; pose proof (zlen_nonneg p); lia).
    pose proof (Z.mod_pos_bound c (zlen p)). subst bi. unfold zlen in *. lia. }
  apply sm_bind_Some in Hrun as ([] & [i1 c1] & S1 & Hrun).
  apply sm_bind_Some in Hrun as ([] & [i2 c2] & S2 & S3).
  assert (io_corrupt_pct i1 = io_corrupt_pct i /\ pipe_out i1 = pipe_out i ++ take bi p) as [C1 O1].
  { destruct (Nat.eqb_spec bi 0) as [E|E].
    - injection S1 as <- <-. rewrite E. cbn [take]. by rewrite app_nil_r.
    - apply on_fst_write in S1 as (_ & ? & Ho). auto. }
  apply on_fst_write in S2 as (_ & C2 & O2). specialize (O2 eq_refl). cbn [fst snd] in *.
  assert (io_corrupt_pct i' = io_corrupt_pct i2 /\ pipe_out i' = pipe_out i2 ++ drop (bi + 1) p) as [C3 O3].
  { destruct (Nat.ltb_spec (bi + 1) (length p)) as [E|E].
    - apply on_fst_write in S3 as (_ & ? & Ho). auto.
    - injection S3 as <- <-. rewrite drop_ge by lia. by rewrite app_nil_r. }
  split; [congruence|]. exists (take bi p ++ [u8 (Z.lxor (nth bi p 0) 0xff)] ++ drop (bi + 1) p).
  split; [by rewrite O3, O2, O1, <- !app_assoc|]. split; [|done].
  right. exists (take bi p), (nth bi p 0), (drop (bi + 1) p). split; [|done].
  rewrite <- (take_drop bi p) at 1. f_equal. rewrite (drop_S p (nth bi p 0) bi); [by rewrite Nat.add_1_r|].
  by apply nth_lookup_Some with (d := 0) || (rewrite nth_lookup; destruct (p !! bi) eqn:E; [done|];
    apply lookup_ge_None in E; lia).
Qed.

Lemma send_loop_spec fuel strm p (i : io) c i' c' : (length p < fuel)%nat ->
  send_loop fuel strm p (i, c) = (Some tt, (i', c')) ->
  io_corrupt_pct i' = io_corrupt_pct i /\
  exists gs, Forall2 frame_flip (frames_of fuel strm p) gs /\ pipe_out i' = pipe_out i ++ flat_map enc_frame gs /\
    (corrupting (io_corrupt_pct i) = false -> gs = frames_of fuel strm p).
Proof.
  revert p i c i' c'. induction fuel as [|k IH]; intros p i c i' c' Hf Hrun; [lia|].
  cbn [send_loop frames_of] in *. unfold HARP_FRAME_MAX_PAYLOAD in *.
  pose proof (zlen_nonneg p) as Hz. set (chunk := if zlen p >? 65536 then 65536 else zlen p) in *.
  assert (0 <= chunk <= zlen p /\ chunk <= 65536) as Hc by (subst chunk; case_cond; lia).
  apply sm_bind_Some in Hrun as ([] & [i1 c1] & H1 & Hrun). apply on_fst_write in H1 as (_ & C1 & O1).
  specialize (O1 eq_refl). cbn [fst snd] in *.
  apply sm_bind_Some in Hrun as ([] & [i2 c2] & H2 & Hrun).
  assert (io_corrupt_pct i2 = io_corrupt_pct i1 /\ exists q, pipe_out i2 = pipe_out i1 ++ q /\
    flip_at_most_one (take (Z.to_nat chunk) p) q /\
    (corrupting (io_corrupt_pct i1) = false -> q = take (Z.to_nat chunk) p)) as (C2 & q & O2 & F2 & N2).
  { case_cond_in H2.
    - injection H2 as <- <-. split; [done|]. exists []. rewrite Heqb. cbn [Z.to_nat take]. rewrite app_nil_r.
      split_and!; try done. by left.
    - apply send_payload_spec in H2; [done|]. intros E. apply (f_equal length) in E.
      rewrite length_take in E. unfold zlen in *. cbn in E. lia. }
  assert (zlen q = chunk) as Hq.
  { destruct F2 as [-> |(a & b & d & Ht & ->)]; unfold zlen in *.
    - rewrite length_take. lia.
    - apply (f_equal length) in Ht. rewrite length_take, length_app in Ht. cbn in Ht.
      rewrite length_app. cbn. lia. }
  set (fin := if chunk =? zlen p then HARP_FLAG_FIN else 0) in *.
  rewrite u32_small in O1 by (unfold is_u32; lia).
  rewrite O1 in O2. rewrite C1 in *. destruct (zlen p >? 65536) eqn:Eb; rewrite Z.gtb_ltb in Eb; bool_to_prop; fold chunk in Hrun.
  - assert (chunk = 65536) as Ech by done.
    assert (fin = 0) as Efin by (subst fin; rewrite (proj2 (Z.eqb_neq _ _)) by lia; done).
    rewrite (proj2 (Nat.eqb_neq _ _)) in Hrun by (rewrite length_drop; unfold zlen in *; lia).
    apply IH in Hrun as (C3 & gs & F3 & O3 & N3); [|rewrite length_drop; unfold zlen in *; lia].
    split; [congruence|]. exists (mk_frame strm false q :: gs). split_and!.
    + constructor; [|by rewrite <- Ech]. by rewrite <- Ech.
    + rewrite O3, O2. cbn [flat_map]. unfold enc_frame at 2. unfold frame_hdr. cbn [f_stream f_fin f_payload].
      rewrite Hq, Efin. by rewrite <- !app_assoc.
    + intros Hn. rewrite N3 by congruence. rewrite N2 by done. by rewrite <- Ech.
  - assert (chunk = zlen p) as Ech by done.
    assert (fin = HARP_FLAG_FIN) as Efin by (subst fin; by rewrite (proj2 (Z.eqb_eq _ _)) by lia).
    assert (take (Z.to_nat chunk) p = p) as Et by (apply take_ge; unfold zlen in *; lia).
    assert (length (drop (Z.to_nat chunk) p) = 0%nat) as Ed by (rewrite length_drop; unfold zlen in *; lia).
    rewrite Ed in Hrun. injection Hrun as <- <-. rewrite Et in *.
    split; [congruence|]. exists [mk_frame strm true q]. split_and!.
    + constructor; [by split_and!|constructor].
    + rewrite O2. cbn [flat_map]. unfold enc_frame, frame_hdr. cbn [f_stream f_fin f_payload].
      rewrite Hq, Efin. rewrite app_nil_r. by rewrite <- !app_assoc.
    + intros Hn. by rewrite N2.
Qed.
End sending.

(** The frames of a message reassemble to it. *)
Lemma recv_spec_message fuel strm p a acc0 more :
  0 <= strm < 4 -> length a = 4%nat -> nth (Z.to_nat strm) a [] = acc0 -> (length p < fuel)%nat ->
  zlen acc0 + zlen p <= harp_stream_msg_cap strm ->
  recv_spec a (frames_of fuel strm p ++ more) =
    (Some (RecvMsg strm, acc0 ++ p), <[Z.to_nat strm := []]> a, more).
Proof.
  intros Hs Hl. revert a Hl acc0 p. induction fuel as [|k IH]; intros a Hl acc0 p Ha Hf Hcap; [lia|].
  cbn [frames_of]. unfold HARP_FRAME_MAX_PAYLOAD. set (c := Z.to_nat 65536) in *.
  destruct (zlen p >? 65536) eqn:E; rewrite Z.gtb_ltb in E; bool_to_prop;
    cbn [app recv_spec]; unfold spec_step; cbn [f_stream f_fin f_payload];
    rewrite (Z.geb_leb strm 4), (proj2 (Z.leb_gt _ _)), Ha, Z.gtb_ltb by lia.
  - assert (length (take c p) = c /\ length (drop c p) + c = length p)%nat as [Ht Hd].
    { rewrite length_take, length_drop. unfold zlen in *. lia. }
    rewrite (proj2 (Z.ltb_ge _ _)) by (rewrite zlen_app; unfold zlen in *; lia).
    rewrite (IH _ ltac:(by rewrite length_insert) (acc0 ++ take c p)).
    + by rewrite <- app_assoc, take_drop, list_insert_insert_eq.
    + rewrite nth_lookup, list_lookup_insert_eq by lia. done.
    + lia.
    + rewrite zlen_app. unfold zlen in *. lia.
  - rewrite (proj2 (Z.ltb_ge _ _)) by (rewrite zlen_app; lia). done.
Qed.

(** ** Bounded accumulators *)

Section bounds.
Context {R : Realloc} {io : Type} `{BytePipe io}.

(** The partial messages respect the caps of their streams, up to [slack]. *)
Definition accs_bounded (slack : Z) (l : list cbuf) : Prop :=
  length l = 4%nat /\
  forall k, (k < 4)%nat -> cb_len (nth k l harp_cbuf_init) <= harp_stream_msg_cap (Z.of_nat k) + slack.

Lemma put_len b p : cb_len (harp_cbuf_put b p) <= cb_len b + zlen p.
Proof.
  unfold harp_cbuf_put, ensure, cb_len. pose proof (zlen_nonneg p).
  repeat case_cond; cbn [cb_buf]; rewrite ?zlen_app; lia.
Qed.

Lemma accs_bounded_insert s1 s2 l k b : accs_bounded s1 l -> s1 <= s2 ->
  cb_len b <= harp_stream_msg_cap (Z.of_nat k) + s2 -> accs_bounded s2 (<[k := b]> l).
Proof.
  intros [Hl Hb] Hs Hk. split; [by rewrite length_insert|]. intros j Hj. specialize (Hb j Hj).
  destruct (decide (j = k)) as [->|Hne].
  - rewrite nth_insert_eq by lia. done.
  - rewrite nth_insert_ne by done. lia.
Qed.

Lemma cap_nonneg s : 0 <= harp_stream_msg_cap s.
Proof. unfold harp_stream_msg_cap. by repeat case_cond. Qed.

Lemma read_exact_spec n i l i' : io_read_exact n i = (Some l, i') ->
  length l = n /\ l = take n (pipe_in i) /\ pipe_in i' = drop n (pipe_in i).
Proof.
  intros E. destruct (decide (n <= length (pipe_in i))%nat) as [Hn|Hn].
  - destruct (pipe_read n i Hn) as (i2 & E2 & Hi & _). rewrite E2 in E. injection E as <- <-.
    rewrite length_take. split_and!; done || lia.
  - destruct (pipe_short n i ltac:(lia)) as [i2 E2]. by rewrite E2 in E.
Qed.

Definition recv_inv (s : link_st io) : Prop := accs_bounded 0 (ls_acc s) /\ bytes_ok (pipe_in (ls_io s)).

(** What a turn leaves, according to its outcome. *)
Definition recv_post (r : option recv_res) (s : link_st io) : Prop :=
  match r with
  | Some RecvProto => accs_bounded HARP_FRAME_MAX_PAYLOAD (ls_acc s)
  | Some (RecvMsg k) => recv_inv s /\ 0 <= k < 4 /\ cb_len (ls_msg s) <= harp_stream_msg_cap k
  | Some RecvIo => accs_bounded 0 (ls_acc s)
  | None => recv_inv s
  end.

Lemma accs_bounded_weaken l : accs_bounded 0 l -> accs_bounded HARP_FRAME_MAX_PAYLOAD l.
Proof. intros [Hl Hb]. split; [done|]. intros k Hk. specialize (Hb k Hk). unfold HARP_FRAME_MAX_PAYLOAD. lia. Qed.

Lemma recv_iter_bounded (s : link_st io) : recv_inv s -> recv_post (recv_iter s).1 (recv_iter s).2.
Proof.
  intros [Hb Hok]. unfold recv_iter. destruct (io_read_exact _ _) as [[hdr|] i1] eqn:E1; [|done].
  apply read_exact_spec in E1 as (Hl & Hhdr & Hi1).
  assert (bytes_ok hdr) as Hh by (rewrite Hhdr; by apply bytes_ok_take).
  assert (bytes_ok (pipe_in i1)) as Hok1 by (rewrite Hi1; by apply bytes_ok_drop).
  destruct (frame_encode_decode hdr Hh Hl) as [_ (_ & Hs & _ & Hfl)].
  destruct (harp_frame_hdr_decode hdr) as [ok h] eqn:Eh. cbn [snd] in *.
  destruct ok; cbn [negb fst snd]; [|by apply accs_bounded_weaken].
  assert (flength h <= 65536) as Hlen.
  { unfold harp_frame_hdr_decode in Eh. injection Eh as Hv Hh'. rewrite Hh' in Hv. unfold frame_hdr_valid in Hv.
    repeat case_cond_in Hv; try discriminate. unfold HARP_FRAME_MAX_PAYLOAD in *. lia. }
  destruct (if flength h =? 0 then _ else _) as [[payload|] i2] eqn:E2; [|done].
  assert (zlen payload <= 65536 /\ bytes_ok (pipe_in i2)) as [Hp Hok2].
  { destruct (Z.eqb_spec (flength h) 0).
    - by injection E2 as <- <-.
    - apply read_exact_spec in E2 as (E2 & _ & ->). split; [unfold zlen; lia|by apply bytes_ok_drop]. }
  destruct (Z.geb_spec (stream h) 4) as [H4|H4]; [done|]. unfold is_u8 in Hs.
  set (k := Z.to_nat (stream h)). assert (Z.of_nat k = stream h) as Hk by lia.
  pose proof (proj2 Hb k ltac:(lia)) as Hbk. rewrite Hk in Hbk.
  pose proof (put_len (nth k (ls_acc s) harp_cbuf_init) payload) as Hput.
  set (acc := harp_cbuf_put _ _) in *. rewrite cap_pos. cbn [negb andb].
  assert (accs_bounded HARP_FRAME_MAX_PAYLOAD (<[k := acc]> (ls_acc s))) as Hover.
  { apply (accs_bounded_insert 0); [done|unfold HARP_FRAME_MAX_PAYLOAD; lia|].
    rewrite Hk. unfold HARP_FRAME_MAX_PAYLOAD. lia. }
  destruct (cb_oom acc) eqn:Eo; [done|].
  destruct (Z.gtb_spec (cb_len acc) (harp_stream_msg_cap (stream h))) as [Hc|Hc]; [done|].
  assert (forall b, cb_len b <= harp_stream_msg_cap (stream h) -> accs_bounded 0 (<[k := b]> (ls_acc s))) as Hin.
  { intros b Hlb. apply (accs_bounded_insert 0); [done|lia|]. rewrite Hk. lia. }
  pose proof (cap_nonneg (stream h)). destruct (negb _).
  2:{ split; [apply Hin; lia|done]. }
  pose proof (put_len (harp_cbuf_reset (ls_msg s)) (cb_buf acc)) as Hm. cbn [cb_len harp_cbuf_reset cb_buf] in Hm.
  change (cb_len (harp_cbuf_reset (ls_msg s))) with 0 in Hm. unfold cb_len in Hc.
  cbn [fst snd]. destruct (cb_oom (harp_cbuf_put _ _)).
  - apply accs_bounded_weaken. apply Hin. done.
  - split; [split; [by apply Hin|done]|]. split; [lia|]. cbn [ls_msg]. unfold cb_len in *. lia.
Qed.

Lemma recv_bounded fuel (s : link_st io) : recv_inv s ->
  recv_post (harp_link_recv fuel s).1 (harp_link_recv fuel s).2.
Proof.
  revert s. induction fuel as [|k IH]; intros s Hs; [done|]. cbn [harp_link_recv].
  pose proof (recv_iter_bounded s Hs) as Hi. destruct (recv_iter s) as [[r|] s'] eqn:E; [done|].
  by apply IH.
Qed.

(** Every turn that continues consumed a header, so the fuel is enough. *)
Lemma recv_terminates fuel (s : link_st io) : (length (pipe_in (ls_io s)) < fuel)%nat ->
  exists r s', harp_link_recv fuel s = (Some r, s').
Proof.
  revert s. induction fuel as [|k IH]; intros s Hf; [lia|]. cbn [harp_link_recv].
  destruct (recv_iter s) as [[r|] s'] eqn:E; [eauto|]. apply IH.
  revert E. unfold recv_iter. destruct (io_read_exact HARP_FRAME_HDR_LEN _) as [[hdr|] i1] eqn:E1; [|done].
  assert (length (pipe_in i1) < length (pipe_in (ls_io s)))%nat as Hi1.
  { apply read_exact_spec in E1 as (Hl & Hh & ->). rewrite length_drop.
    rewrite Hh, length_take in Hl. unfold HARP_FRAME_HDR_LEN in *. lia. }
  destruct (harp_frame_hdr_decode hdr) as [ok h]. destruct ok; cbn [negb]; [|done].
  destruct (if flength h =? 0 then _ else _) as [[payload|] i2] eqn:E2; [|done].
  assert (length (pipe_in i2) <= length (pipe_in i1))%nat as Hi2.
  { destruct (Z.eqb_spec (flength h) 0).
    - by injection E2 as <- <-.
    - apply read_exact_spec in E2 as (_ & _ & ->). rewrite length_drop. lia. }
  repeat case_match; intros [= <-]; cbn [ls_io]; lia.
Qed.
End bounds.

Lemma frames_le_bytes l : (length l <= length (flat_map enc_frame l))%nat.
Proof.
  induction l as [|f l IH]; [done|]. cbn [flat_map length]. unfold enc_frame at 1.
  rewrite !length_app, frame_hdr_length. lia.
Qed.

Lemma accs_length l a : accs_are l a -> length a = 4%nat.
Proof. intros (Hl & <- & _). by rewrite length_map. Qed.

(** ** Properties *)

(** C25: a message survives the link.  What [harp_link_send] wrote for a message
    (no fault injection, the writes succeeded), read from a pipe that delivers
    those bytes and then anything, is received as exactly that message on exactly
    that stream, whatever partial messages the other streams hold; the bytes that
    follow stay in the pipe and the other accumulators are untouched. *)
Theorem link_roundtrip {R : Realloc} {io : Type} `{BytePipe io} (strm : Z) (data : list Z)
    (i i' : io) (cf cf' : Z) (s : link_st io) (a : list (list Z)) (rest wire : list Z) :
  realloc_total R -> 0 <= strm < 4 -> zlen data <= harp_stream_msg_cap strm ->
  io_corrupt_pct i <= 0 ->
  harp_link_send strm data (i, cf) = (Some tt, (i', cf')) ->
  pipe_out i' = pipe_out i ++ wire ->
  pipe_in (ls_io s) = wire ++ rest ->
  accs_are (ls_acc s) a -> nth (Z.to_nat strm) a [] = [] ->
  exists s', harp_link_recv (S (length (pipe_in (ls_io s)))) s = (Some (RecvMsg strm), s') /\
    cb_buf (ls_msg s') = data /\ pipe_in (ls_io s') = rest /\
    accs_are (ls_acc s') (<[Z.to_nat strm := []]> a).
Proof.
  intros Ht Hs Hcap Hc Hsend Hout Hin Ha Hnil. unfold harp_link_send in Hsend.
  apply send_loop_spec in Hsend as (_ & gs & _ & Ho & Hg); [|lia].
  rewrite Hg in Ho by (unfold corrupting; rewrite Z.gtb_ltb, (proj2 (Z.ltb_ge _ _)) by lia; done).
  rewrite Ho in Hout. apply app_inv_head in Hout. fold (message_frames strm data) in Hout.
  pose proof (frames_of_ok (S (length data)) strm data ltac:(unfold is_u8; lia)) as Hok.
  fold (message_frames strm data) in Hok.
  rewrite <- Hout in Hin.
  pose proof (recv_frames Ht (message_frames strm data) s a rest (S (length (pipe_in (ls_io s)))) Hok Ha Hin) as Hr.
  pose proof (recv_spec_message (S (length data)) strm data a [] [] Hs (accs_length _ _ Ha) Hnil) as Hsp.
  rewrite app_nil_r in Hsp. fold (message_frames strm data) in Hsp.
  rewrite Hsp in Hr by (rewrite ?zlen_nil; lia).
  destruct Hr as (s' & H1 & H2 & H3 & H4).
  - rewrite Hin, length_app. pose proof (frames_le_bytes (message_frames strm data)). lia.
  - exists s'. split_and!; try done. by apply (H4 strm).
Qed.

Definition alloc_all : Realloc := fun _ => true.

Lemma link_roundtrip_witness :
  let R := alloc_all in
  let data := repeat 7 5 in
  let i := mk_fd [] [WrAccept 3; WrIntr; WrAccept 1] [] 0 in
  let '(_, (i', _)) := harp_link_send 1 data (i, 0) in
  exists s', harp_link_recv 15 (mk_link (mk_fd [RdData (take 9 (fd_out i')); RdIntr; RdData (drop 9 (fd_out i') ++ [3])] [] [] 0)
      harp_link_init harp_cbuf_init) = (Some (RecvMsg 1), s') /\
    cb_buf (ls_msg s') = data.
Proof.
  intros R data i. destruct (harp_link_send 1 data (i, 0)) as [r [i' cf']] eqn:E.
  assert (Hr : r = Some tt) by (vm_compute in E; congruence). subst r.
  pose proof (link_roundtrip 1 data i i' 0 cf'
    (mk_link (mk_fd [RdData (take 9 (fd_out i')); RdIntr; RdData (drop 9 (fd_out i') ++ [3])] [] [] 0) harp_link_init harp_cbuf_init)
    (repeat [] 4) [3] (fd_out i')) as H.
  vm_compute in E. injection E as <- <-.
  destruct H as (s' & H1 & H2 & _); try (vm_compute; reflexivity).
  - lia.
  - vm_compute. discriminate.
  - vm_compute. discriminate.
  - split; [reflexivity|]. split; [reflexivity|]. intros b Hb.
    unfold harp_link_init in Hb. apply list_elem_of_In in Hb. cbn in Hb. intuition (subst; reflexivity).
  - exists s'. split; [exact H1|exact H2].
Defined.

(** C22: interleaved streams reassemble independently.  On a pipe that delivers any
    sequence of well-formed frames, the receiver does what the frame-level
    specification says: frames of streams 4 and up are skipped, the others are
    appended to the partial message of their own stream, a final frame delivers
    that message and empties it, and a partial message above the cap of its
    stream is a protocol violation; the bytes after the deciding frame stay in the
    pipe. *)
Theorem link_recv_refines {R : Realloc} {io : Type} `{BytePipe io} (fs : list frame)
    (s : link_st io) (a : list (list Z)) (rest : list Z) :
  realloc_total R -> Forall frame_ok fs -> accs_are (ls_acc s) a ->
  pipe_in (ls_io s) = flat_map enc_frame fs ++ rest ->
  match recv_spec a fs with
  | (Some (x, m), a', fs') => exists s',
      harp_link_recv (S (length (pipe_in (ls_io s)))) s = (Some x, s') /\
      (forall k, x = RecvMsg k -> cb_buf (ls_msg s') = m) /\
      pipe_in (ls_io s') = flat_map enc_frame fs' ++ rest /\ accs_are (ls_acc s') a'
  | (None, a', _) => rest = [] -> exists s',
      harp_link_recv (S (length (pipe_in (ls_io s)))) s = (Some RecvIo, s') /\ accs_are (ls_acc s') a'
  end.
Proof.
  intros Ht Hok Ha Hin.
  pose proof (recv_frames Ht fs s a rest (S (length (pipe_in (ls_io s)))) Hok Ha Hin) as Hr.
  assert (length fs < S (length (pipe_in (ls_io s))))%nat as Hlen.
  { rewrite Hin, length_app. pose proof (frames_le_bytes fs). lia. }
  specialize (Hr Hlen). destruct (recv_spec a fs) as [[[[x m]|] a'] fs'] eqn:Es.
  - destruct Hr as (s' & H1 & H2 & H3 & H4). exists s'. auto.
  - intros ->. assert (fs' = []) as ->.
    { clear -Es. revert a Es. induction fs as [|f fs IH]; intros a; cbn [recv_spec]; [by intros [= _ <-]|].
      destruct (spec_step a f) as [[x|] a1]; [done|]. apply IH. }
    destruct Hr as (s' & H1 & H2 & k & H3). cbn [flat_map app] in H2.
    rewrite H3. cbn [harp_link_recv]. unfold recv_iter.
    destruct (pipe_short HARP_FRAME_HDR_LEN (ls_io s')) as [i1 ->];
      [rewrite H2; unfold HARP_FRAME_HDR_LEN; cbn [length]; lia|].
    eexists. split; [reflexivity|]. done.
Qed.

Lemma link_recv_refines_witness :
  let R := alloc_all in
  let fs := [mk_frame 0 false [1; 2]; mk_frame 9 true [99]; mk_frame 2 true [7]; mk_frame 0 true [3]] in
  exists s', harp_link_recv (S (length (flat_map enc_frame fs)))
      (mk_link (mk_fd [RdData (flat_map enc_frame fs)] [] [] 0) harp_link_init harp_cbuf_init) =
    (Some (RecvMsg 2), s') /\ (forall k, RecvMsg 2 = RecvMsg k -> cb_buf (ls_msg s') = [7]).
Proof.
  intros R fs.
  pose proof (link_recv_refines fs
    (mk_link (mk_fd [RdData (flat_map enc_frame fs)] [] [] 0) harp_link_init harp_cbuf_init) (repeat [] 4) []) as H.
  destruct H as (s' & H1 & H2 & _).
  - intros n. reflexivity.
  - repeat first [apply List.Forall_nil
                 |apply List.Forall_cons; [split; [unfold is_u8; cbn; lia|vm_compute; discriminate]|]].
  - split; [reflexivity|]. split; [reflexivity|]. intros b Hb.
    unfold harp_link_init in Hb. apply list_elem_of_In in Hb. cbn in Hb. intuition (subst; reflexivity).
  - vm_compute. reflexivity.
  - exists s'. split; [exact H1|exact H2].
Defined.

(** C39: a peer cannot grow the receiver.  Whatever bytes arrive, however the heap
    and the pipe behave, the receiver terminates, a delivered message is within
    the cap of its stream, and each of the four accumulators stays within its cap
    - exceeded by at most one frame's payload, and only when the result is the
    protocol violation that resets the session. *)
Theorem link_recv_bounded {R : Realloc} {io : Type} `{BytePipe io} (s : link_st io) :
  accs_bounded 0 (ls_acc s) -> bytes_ok (pipe_in (ls_io s)) ->
  exists r s', harp_link_recv (S (length (pipe_in (ls_io s)))) s = (Some r, s') /\
    match r with
    | RecvProto => accs_bounded 65536 (ls_acc s')
    | RecvMsg k => 0 <= k < 4 /\ cb_len (ls_msg s') <= harp_stream_msg_cap k /\ accs_bounded 0 (ls_acc s')
    | RecvIo => accs_bounded 0 (ls_acc s')
    end.
Proof.
  intros Hb Hok. destruct (recv_terminates (S (length (pipe_in (ls_io s)))) s) as (r & s' & E); [lia|].
  exists r, s'. split; [done|].
  pose proof (recv_bounded (S (length (pipe_in (ls_io s)))) s (conj Hb Hok)) as Hp. rewrite E in Hp.
  destruct r; cbn [fst snd recv_post] in Hp; try done. by destruct Hp as ([? _] & ? & ?).
Qed.

Lemma link_recv_bounded_witness :
  let R := alloc_all in
  let bytes := concat (repeat (enc_frame (mk_frame 1 false (repeat 1 3))) 4) in
  exists r s', harp_link_recv (S (length bytes))
    (mk_link (mk_fd [RdData bytes] [] [] 0) harp_link_init harp_cbuf_init) = (Some r, s').
Proof.
  intros R bytes.
  destruct (link_recv_bounded (mk_link (mk_fd [RdData bytes] [] [] 0) harp_link_init harp_cbuf_init))
    as (r & s' & E & _).
  - split; [reflexivity|]. intros k Hk. do 4 (destruct k as [|k]; [vm_compute; discriminate|]). lia.
  - vm_compute. repeat first [apply List.Forall_nil|apply List.Forall_cons; [split; [discriminate|reflexivity]|]].
  - exists r, s'. exact E.
Defined.

(** fault injection is contained.  Whatever the corruption percentage, a
    successful send emits exactly the frames of the message - same headers, same
    lengths, same order - each payload with at most one byte complemented, and
    none at all when the percentage is not in 1 .. 100. *)
Theorem link_corruption_contained {io : Type} `{BytePipe io} (strm : Z) (data : list Z) (i i' : io) (cf cf' : Z) :
  harp_link_send strm data (i, cf) = (Some tt, (i', cf')) ->
  exists gs, pipe_out i' = pipe_out i ++ flat_map enc_frame gs /\
    Forall2 frame_flip (message_frames strm data) gs /\
    (corrupting (io_corrupt_pct i) = false -> gs = message_frames strm data).
Proof.
  intros Hs. apply send_loop_spec in Hs as (_ & gs & H1 & H2 & H3); [|lia]. by exists gs.
Qed.

Lemma link_corruption_contained_witness :
  let i := mk_fd [] [] [] 100 in
  let '(_, (i', cf')) := harp_link_send 0 [1; 2; 3] (i, 4) in
  fd_out i' = [1; 0; 1; 0; 3; 0; 0; 0; 1; 0xfd; 3] /\
  exists gs, pipe_out i' = pipe_out i ++ flat_map enc_frame gs /\
    Forall2 frame_flip (message_frames 0 [1; 2; 3]) gs /\ (corrupting 100 = false -> gs = message_frames 0 [1; 2; 3]).
Proof.
  intros i. destruct (harp_link_send 0 [1; 2; 3] (i, 4)) as [r [i' cf']] eqn:E.
  pose proof (link_corruption_contained 0 [1; 2; 3] i i' 4 cf') as H.
  vm_compute in E. injection E as <- <- <-. split; [reflexivity|]. apply H. vm_compute. reflexivity.
Defined.

(** the descriptor transport is exact.  However the system calls chop and
    interrupt the transfer, [harp_read_exact] returns precisely the next [n]
    bytes and leaves the rest when that many arrive, fails when the stream ends
    or breaks before; [harp_write_all], unless a write fails for good, hands over
    precisely its buffer. *)
Theorem fd_transfer_exact (f : fd) (n : nat) (p : list Z) :
  (exists f', harp_read_exact n f =
      (if (n <=? length (rd_data (fd_rd f)))%nat then Some (take n (rd_data (fd_rd f))) else None, f') /\
    ((n <= length (rd_data (fd_rd f)))%nat -> rd_data (fd_rd f') = drop n (rd_data (fd_rd f)))) /\
  ((forall e, e ∈ fd_wr f -> e <> WrErr) -> exists f', harp_write_all p f = (Some tt, f') /\ fd_out f' = fd_out f ++ p).
Proof.
  split.
  - destruct (read_loop_spec (S (length (fd_rd f))) n [] f) as (f' & E & Hf); [lia|].
    exists f'. split; [exact E|]. intros Hn. by apply Hf.
  - intros He. destruct (write_loop_total (S (length (fd_wr f))) p f) as [f' E]; [lia|done|].
    exists f'. split; [exact E|]. apply write_loop_spec in E as (_ & _ & Ho). by apply Ho.
Qed.

Lemma fd_transfer_exact_witness :
  let f := mk_fd [RdData [1; 2]; RdIntr; RdData [3; 4; 5]] [WrAccept 0; WrIntr; WrAccept 2] [] 0 in
  (exists f', harp_write_all [7; 8; 9] f = (Some tt, f') /\ fd_out f' = [7; 8; 9]) /\
  (harp_read_exact 4 f).1 = Some [1; 2; 3; 4].
Proof.
  intros f. destruct (fd_transfer_exact f 4 [7; 8; 9]) as [[f' [E _]] H]. split.
  - apply H. intros e He. apply list_elem_of_In in He. cbn in He. intuition (subst; discriminate).
  - rewrite E. reflexivity.
Defined.
