(* ===== verification/Fs.v ===== *)
(** * The file system under the store (the platform primitives of [core/src/store.c])

    Files are named by their whole path; a file has its contents and whether they
    have been forced to disk.  Every call of the C library may fail or be cut
    short: what happens at each call is decided by the environment [OS], indexed
    by a clock that ticks at every call, so a theorem for every [OS] holds for all
    failure patterns.  The world also keeps the trace of all file-system states
    that a call sequence went through: [crash] says what a machine that stops in
    such a state may find on disk afterwards. *)
From Stdlib Require Import ZArith Lia List Sorting.Permutation.
From stdpp Require Import base tactics list numbers gmap.
From S2P Require Import Prelude.

Open Scope Z_scope.
Open Scope list_scope.

Abbreviation path := (list Z).

(** Contents as the kernel has them; [f_synced]: forced to disk. *)
Record file := mk_file { f_data : list Z; f_synced : bool }.

Record fs := mk_fs { fs_files : gmap path file; fs_dirs : gset path }.

Record world := mk_world { w_fs : fs; w_clock : nat; w_trace : list fs }.

(** The environment's decision at each tick. *)
Class OS := {
  os_mkdir : nat -> bool;             (* the directory can be created *)
  os_open : nat -> bool;              (* [fopen] succeeds *)
  os_write : nat -> bool * nat;       (* [fwrite] takes all; bytes already in the kernel *)
  os_flush : nat -> bool * nat;       (* [fflush] succeeds; else bytes that still got through *)
  os_sync : nat -> bool;              (* [fsync] succeeds *)
  os_close : nat -> nat;              (* bytes of a pending buffer [fclose] still writes *)
  os_rename : nat -> bool;
  os_remove : nat -> bool;
  os_read : nat -> option nat;        (* a read error after so many bytes *)
  os_opendir : nat -> bool;
  os_order : nat -> list path -> list path;   (* the order in which [readdir] lists *)
  os_order_perm : forall t l, Permutation (os_order t l) l;
  os_pid : Z
}.

(** ['/'] and ['.'] *)
Definition SLASH : Z := 47.
Definition DOT : Z := 46.

(** [snprintf(out, size, "%s...", ...)] keeps [size - 1] bytes. *)
Definition snprintf (size : nat) (s : list Z) : list Z := take (size - 1) s.

(** ["%d"] of a non-negative number. *)
Fixpoint digits (fuel : nat) (n : Z) (acc : list Z) : list Z :=
  match fuel with
  | O => acc
  | S k => let acc' := (48 + n mod 10) :: acc in if n <? 10 then acc' else digits k (n / 10) acc'
  end.

Definition dec_str (n : Z) : list Z := digits 20 n [].

(** The text before the last ['/'], if there is one. *)
Fixpoint parent_from (seen : list Z) (best : option path) (p : path) : option path :=
  match p with
  | [] => best
  | c :: r => parent_from (seen ++ [c]) (if c =? SLASH then Some seen else best) r
  end.

Definition parent (p : path) : option path := parent_from [] None p.

(** Names in directory [d]: the last components of the paths directly below. *)
Definition child_name (d p : path) : option path :=
  let pre := d ++ [SLASH] in
  let n := drop (length pre) p in
  if bool_decide (take (length pre) p = pre) && negb (bool_decide (n = [])) && negb (bool_decide (SLASH ∈ n))
  then Some n else None.

Definition children (f : fs) (d : path) : list path :=
  omap (child_name d) (elements (dom (fs_files f) ∪ fs_dirs f)).

Definition exists_path (f : fs) (p : path) : bool :=
  bool_decide (p ∈ dom (fs_files f)) || bool_decide (p ∈ fs_dirs f).

Definition parent_exists (f : fs) (p : path) : bool :=
  match parent p with
  | None | Some [] => true
  | Some d => bool_decide (d ∈ fs_dirs f)
  end.

(** ** Primitives *)

Definition tick : SM world nat := fun w => (Some (w_clock w), mk_world (w_fs w) (S (w_clock w)) (w_trace w)).
Definition get_fs : SM world fs := fun w => (Some (w_fs w), w).
Definition set_fs (f : fs) : SM world unit :=
  fun w => (Some tt, mk_world f (w_clock w) (w_trace w ++ [f])).

Definition put_file (p : path) (x : file) (f : fs) : fs := mk_fs (<[p := x]> (fs_files f)) (fs_dirs f).
Definition del_file (p : path) (f : fs) : fs := mk_fs (delete p (fs_files f)) (fs_dirs f).

(** Bytes reach the kernel: appended, and no longer all on disk. *)
Definition append_file (p : path) (l : list Z) (f : fs) : fs :=
  match fs_files f !! p with
  | Some x => if bool_decide (l = []) then f else put_file p (mk_file (f_data x ++ l) false) f
  | None => f
  end.

Section primitives.
Context {O : OS}.

Inductive mkdir_res : Set := MkOk | MkExists | MkFail.

Definition dir_make (p : path) : SM world mkdir_res :=
  t ← tick;
  f ← get_fs;
  if exists_path f p then mret MkExists
  else if os_mkdir t && parent_exists f p then
    set_fs (mk_fs (fs_files f) ({[p]} ∪ fs_dirs f));; mret MkOk
  else mret MkFail.

(** [access(path, R_OK) == 0] *)
Definition path_readable (p : path) : SM world bool :=
  f ← get_fs; mret (exists_path f p).

(** [stat]: [Some is_dir] if the path exists. *)
Definition path_kind (p : path) : SM world (option bool) :=
  f ← get_fs;
  mret (if exists_path f p then Some (bool_decide (p ∈ fs_dirs f)) else None).

(** A [FILE] open for writing: its path and the bytes in its buffer. *)
Record wfile := mk_wfile { wf_path : path; wf_pend : list Z }.

(** [fopen(path, "wb")] *)
Definition fopen_w (p : path) : SM world (option wfile) :=
  t ← tick;
  f ← get_fs;
  if os_open t && parent_exists f p && negb (bool_decide (p ∈ fs_dirs f)) then
    set_fs (put_file p (mk_file [] false) f);; mret (Some (mk_wfile p []))
  else mret None.

(** [fwrite(data, 1, len, f) == len], and the buffer afterwards. *)
Definition fwrite (h : wfile) (data : list Z) : SM world (bool * wfile) :=
  t ← tick;
  f ← get_fs;
  let '(ok, k) := os_write t in
  let all := wf_pend h ++ data in
  set_fs (append_file (wf_path h) (take k all) f);;
  mret (ok, mk_wfile (wf_path h) (drop k all)).

Definition fflush (h : wfile) : SM world (bool * wfile) :=
  t ← tick;
  f ← get_fs;
  let '(ok, k) := os_flush t in
  if ok then
    set_fs (append_file (wf_path h) (wf_pend h) f);; mret (true, mk_wfile (wf_path h) [])
  else
    set_fs (append_file (wf_path h) (take k (wf_pend h)) f);; mret (false, mk_wfile (wf_path h) (drop k (wf_pend h))).

Definition file_sync (h : wfile) : SM world bool :=
  t ← tick;
  f ← get_fs;
  if os_sync t then
    match fs_files f !! wf_path h with
    | Some x => set_fs (put_file (wf_path h) (mk_file (f_data x) true) f);; mret true
    | None => mret true
    end
  else mret false.

(** [fclose] writes out what it can of the buffer; its result is not looked at. *)
Definition fclose_w (h : wfile) : SM world unit :=
  t ← tick;
  f ← get_fs;
  set_fs (append_file (wf_path h) (take (os_close t) (wf_pend h)) f).

(** [rename] replaces an existing file in one step. *)
Definition rename_atomic (tmp p : path) : SM world bool :=
  t ← tick;
  f ← get_fs;
  match fs_files f !! tmp with
  | Some x =>
      if os_rename t && negb (bool_decide (p ∈ fs_dirs f)) then
        set_fs (put_file p x (del_file tmp f));; mret true
      else mret false
  | None => mret false
  end.

(** [remove]: a file, or an empty directory. *)
Definition remove (p : path) : SM world bool :=
  t ← tick;
  f ← get_fs;
  if os_remove t then
    if bool_decide (p ∈ dom (fs_files f)) then set_fs (del_file p f);; mret true
    else if bool_decide (p ∈ fs_dirs f) && bool_decide (children f p = []) then
      set_fs (mk_fs (fs_files f) (fs_dirs f ∖ {[p]}));; mret true
    else mret false
  else mret false.

(** [fopen(path, "rb")] and reading to the end: the bytes delivered, and whether
    a read error ended them; [None] if the file cannot be opened.  A directory
    can be opened, and the first read of it fails. *)
Definition read_file (p : path) : SM world (option (list Z * bool)) :=
  t ← tick;
  f ← get_fs;
  mret (match fs_files f !! p with
        | Some x =>
            if os_open t then
              Some (match os_read t with
                    | Some k => (take k (f_data x), true)
                    | None => (f_data x, false)
                    end)
            else None
        | None => if os_open t && bool_decide (p ∈ fs_dirs f) then Some ([], true) else None
        end).

(** [opendir] and [readdir] to the end: the entries of the directory, ["."] and
    [".."] included, in the system's order. *)
Definition list_dir (d : path) : SM world (option (list path)) :=
  t ← tick;
  f ← get_fs;
  mret (if os_opendir t && bool_decide (d ∈ fs_dirs f)
        then Some (os_order t ([DOT] :: [DOT; DOT] :: children f d)) else None).
End primitives.

(** ** Crashes *)

(** The machine stops in state [f]: directory entries are as they are, and a file
    that was not forced to disk may hold anything. *)
Definition crash (f : fs) (disk : gmap path (list Z)) : Prop :=
  forall p, match fs_files f !! p with
            | Some x => exists c, disk !! p = Some c /\ (f_synced x = true -> c = f_data x)
            | None => disk !! p = None
            end.

(** ** Lemmas *)

Lemma child_name_spec d p n : child_name d p = Some n <-> p = d ++ [SLASH] ++ n /\ n <> [] /\ SLASH ∉ n.
Proof.
  unfold child_name. rewrite app_assoc. set (pre := d ++ [SLASH]).
  destruct (bool_decide_reflect (take (length pre) p = pre)) as [Ht|Ht]; cbn [andb].
  2:{ split; [done|]. intros (-> & _). by rewrite take_app_length in Ht. }
  assert (p = pre ++ drop (length pre) p) as Hp by (rewrite <- Ht at 1; by rewrite take_drop).
  generalize dependent (drop (length pre) p). intros m ->. clear Ht. destruct (bool_decide_reflect (m = [])) as [Hm|Hm]; cbn [andb negb].
  { split; [done|]. intros (E & Hn & _). apply app_inv_head in E. congruence. }
  destruct (bool_decide_reflect (SLASH ∈ m)) as [Hs|Hs]; cbn [negb].
  { split; [done|]. intros (E & _ & Hn). apply app_inv_head in E. congruence. }
  split.
  - by intros [= <-].
  - intros (E & _ & _). apply app_inv_head in E. by subst.
Qed.

Lemma elem_of_children f d n : n ∈ children f d <->
  exists_path f (d ++ [SLASH] ++ n) = true /\ n <> [] /\ SLASH ∉ n.
Proof.
  unfold children, exists_path. rewrite list_elem_of_omap. split.
  - intros (p & Hp%elem_of_elements & Hn). apply child_name_spec in Hn as (-> & H1 & H2).
    apply elem_of_union in Hp. split; [|done]. apply orb_true_iff.
    destruct Hp; [left|right]; by apply bool_decide_eq_true.
  - intros (Hp & H1 & H2). exists (d ++ [SLASH] ++ n). split; [|by apply child_name_spec].
    apply elem_of_elements, elem_of_union. apply orb_true_iff in Hp.
    by destruct Hp as [?%bool_decide_eq_true|?%bool_decide_eq_true]; auto.
Qed.

Lemma append_file_other p q l f : p <> q -> fs_files (append_file p l f) !! q = fs_files f !! q.
Proof.
  intros Hne. unfold append_file, put_file. destruct (fs_files f !! p); [|done].
  case_bool_decide; [done|]. cbn. by rewrite lookup_insert_ne.
Qed.

Lemma append_file_same p l f x : fs_files f !! p = Some x ->
  exists b, fs_files (append_file p l f) !! p = Some (mk_file (f_data x ++ l) b).
Proof.
  intros Hx. unfold append_file, put_file. rewrite Hx. case_bool_decide as Hl.
  - subst l. exists (f_synced x). rewrite app_nil_r, Hx. by destruct x.
  - exists false. cbn. by rewrite lookup_insert_eq.
Qed.

Lemma append_file_dirs p l f : fs_dirs (append_file p l f) = fs_dirs f.
Proof. unfold append_file. destruct (_ !! _); [|done]. by case_bool_decide. Qed.

(** ** Reasoning about call sequences

    [triple I P m Q]: started in a file system satisfying [P], [m] ends with a
    result and a file system satisfying [Q], and every state in between satisfies
    the invariant [I]. *)
Definition triple {A} (I P : fs -> Prop) (m : SM world A) (Q : option A -> fs -> Prop) : Prop :=
  forall w r w', P (w_fs w) -> m w = (r, w') ->
    Q r (w_fs w') /\ exists tr, w_trace w' = w_trace w ++ tr /\ Forall I tr.

Section triples.
Context (I : fs -> Prop).

Lemma triple_ret {A} P (a : A) : triple I P (mret a) (fun r f => r = Some a /\ P f).
Proof. intros w r w' HP [= <- <-]. split; [done|]. exists []. by rewrite app_nil_r. Qed.

Lemma triple_ret' {A} (P : fs -> Prop) (a : A) (Q : option A -> fs -> Prop) :
  (forall f, P f -> Q (Some a) f) -> triple I P (mret a) Q.
Proof. intros HQ w r w' HP [= <- <-]. split; [auto|]. exists []. by rewrite app_nil_r. Qed.

Lemma triple_fail {A} (P : fs -> Prop) (Q : option A -> fs -> Prop) :
  (forall f, P f -> Q None f) -> triple I P sm_fail Q.
Proof. intros HQ w r w' HP [= <- <-]. split; [auto|]. exists []. by rewrite app_nil_r. Qed.

Lemma triple_bind {A B} P (m : SM world A) (k : A -> SM world B) M Q :
  triple I P m M -> (forall f, M None f -> Q None f) -> (forall a, triple I (M (Some a)) (k a) Q) ->
  triple I P (m ≫= k) Q.
Proof.
  intros Hm Hn Hk w r w' HP. unfold mbind, SM_bind. destruct (m w) as [[a|] w1] eqn:E;
    destruct (Hm _ _ _ HP E) as (HM & tr1 & Ht1 & HI1).
  - intros Hr. destruct (Hk a _ _ _ HM Hr) as (HQ & tr2 & Ht2 & HI2). split; [done|].
    exists (tr1 ++ tr2). split; [by rewrite Ht2, Ht1, app_assoc|]. by apply Forall_app.
  - intros [= <- <-]. split; [auto|]. by exists tr1.
Qed.

Lemma triple_conseq {A} (P P' : fs -> Prop) (m : SM world A) (Q Q' : option A -> fs -> Prop) :
  triple I P m Q -> (forall f, P' f -> P f) -> (forall r f, Q r f -> Q' r f) -> triple I P' m Q'.
Proof. intros Hm HP HQ w r w' Hw E. destruct (Hm w r w' (HP _ Hw) E) as [? ?]. auto. Qed.

(** The precondition may be taken as a fact about the state at hand. *)
Lemma triple_state {A} (P : fs -> Prop) (m : SM world A) Q :
  (forall f0, P f0 -> triple I (fun f => f = f0) m Q) -> triple I P m Q.
Proof. intros H w r w' HP E. by apply (H _ HP w r w'). Qed.

Lemma triple_set P g : I g -> triple I P (set_fs g) (fun r f => r = Some tt /\ f = g).
Proof. intros Hg w r w' HP [= <- <-]. cbn. split; [done|]. exists [g]. by repeat constructor. Qed.
End triples.

(** Run the clock and read the state: the common start of every primitive. *)
Lemma triple_enter {A} I f0 (k : nat -> fs -> SM world A) Q :
  (forall t, triple I (fun f => f = f0) (k t f0) Q) ->
  triple I (fun f => f = f0) (t ← tick; f ← get_fs; k t f) Q.
Proof.
  intros Hk [f c tr] r w' Hw E. cbn [w_fs] in Hw. subst f.
  apply (Hk c (mk_world f0 (S c) tr)); [done|]. exact E.
Qed.

Lemma triple_set_ret {A} I (P : fs -> Prop) g (a : A) (Q : option A -> fs -> Prop) :
  I g -> Q (Some a) g -> triple I P (set_fs g;; mret a) Q.
Proof.
  intros Hg HQ. eapply triple_bind; [by apply triple_set|by intros f [? _]|].
  intros []. apply triple_ret'. by intros f [_ ->].
Qed.

Section primitive_triples.
Context {O : OS} (I : fs -> Prop).

Lemma triple_fopen_w p f0 (Q : option (option wfile) -> fs -> Prop) :
  I (put_file p (mk_file [] false) f0) ->
  Q (Some None) f0 -> Q (Some (Some (mk_wfile p []))) (put_file p (mk_file [] false) f0) ->
  triple I (fun f => f = f0) (fopen_w p) Q.
Proof.
  intros HI HN HS. apply triple_enter. intros t. case_match.
  - by apply triple_set_ret.
  - apply triple_ret'. by intros f ->.
Qed.

Lemma triple_fwrite h data f0 (Q : option (bool * wfile) -> fs -> Prop) :
  (forall l, I (append_file (wf_path h) l f0)) ->
  (forall ok l1 l2, l1 ++ l2 = wf_pend h ++ data ->
     Q (Some (ok, mk_wfile (wf_path h) l2)) (append_file (wf_path h) l1 f0)) ->
  triple I (fun f => f = f0) (fwrite h data) Q.
Proof.
  intros HI HQ. apply triple_enter. intros t. destruct (os_write t) as [ok k].
  apply triple_set_ret; [done|]. apply HQ. apply take_drop.
Qed.

Lemma triple_fflush h f0 (Q : option (bool * wfile) -> fs -> Prop) :
  (forall l, I (append_file (wf_path h) l f0)) ->
  Q (Some (true, mk_wfile (wf_path h) [])) (append_file (wf_path h) (wf_pend h) f0) ->
  (forall t l1 l2, fst (os_flush t) = false -> l1 ++ l2 = wf_pend h ->
     Q (Some (false, mk_wfile (wf_path h) l2)) (append_file (wf_path h) l1 f0)) ->
  triple I (fun f => f = f0) (fflush h) Q.
Proof.
  intros HI HS HF. apply triple_enter. intros t. destruct (os_flush t) as [ok k] eqn:E.
  destruct ok; (apply triple_set_ret; [done|]); [done|].
  apply (HF t); [by rewrite E|apply take_drop].
Qed.

Lemma triple_sync h f0 x (Q : option bool -> fs -> Prop) :
  fs_files f0 !! wf_path h = Some x ->
  I (put_file (wf_path h) (mk_file (f_data x) true) f0) ->
  Q (Some true) (put_file (wf_path h) (mk_file (f_data x) true) f0) -> Q (Some false) f0 ->
  triple I (fun f => f = f0) (file_sync h) Q.
Proof.
  intros Hx HI HS HF. apply triple_enter. intros t. case_match.
  - rewrite Hx. by apply triple_set_ret.
  - apply triple_ret'. by intros f ->.
Qed.

Lemma triple_fclose h f0 (Q : option unit -> fs -> Prop) :
  (forall l, I (append_file (wf_path h) l f0)) ->
  (forall l1 l2, l1 ++ l2 = wf_pend h -> Q (Some tt) (append_file (wf_path h) l1 f0)) ->
  triple I (fun f => f = f0) (fclose_w h) Q.
Proof.
  intros HI HQ. apply triple_enter. intros t. eapply (triple_conseq _ (fun f => f = f0)); [by apply triple_set|done|].
  intros r f [-> ->]. eapply HQ, take_drop.
Qed.

Lemma triple_rename tmp p f0 x (Q : option bool -> fs -> Prop) :
  fs_files f0 !! tmp = Some x -> I (put_file p x (del_file tmp f0)) ->
  Q (Some true) (put_file p x (del_file tmp f0)) -> Q (Some false) f0 ->
  triple I (fun f => f = f0) (rename_atomic tmp p) Q.
Proof.
  intros Hx HI HS HF. apply triple_enter. intros t. rewrite Hx. case_match.
  - by apply triple_set_ret.
  - apply triple_ret'. by intros f ->.
Qed.

Lemma triple_remove_file p f0 (Q : option bool -> fs -> Prop) :
  is_Some (fs_files f0 !! p) -> I (del_file p f0) ->
  Q (Some true) (del_file p f0) -> Q (Some false) f0 ->
  triple I (fun f => f = f0) (remove p) Q.
Proof.
  intros Hx HI HS HF. apply triple_enter. intros t. case_match.
  2:{ apply triple_ret'. by intros f ->. }
  rewrite bool_decide_eq_true_2 by (by apply elem_of_dom). by apply triple_set_ret.
Qed.
End primitive_triples.
