(* ===== verification/Store.v ===== *)
(** * The object store and its refs ([core/src/store.c])

    The file-backed store on the POSIX file system of [Fs]: directory creation,
    atomic writes (temporary file, flush, sync, rename), content-addressed put and
    get, ref names, the ref record codec, and reading and writing refs.  A C
    function returning [int] is a computation that fails when it returns -1.
    Garbage collection is in [StoreGc]. *)
From Stdlib Require Import ZArith Lia List.
From stdpp Require Import base tactics list numbers gmap.
From S2P Require Import Prelude.
From S2P Require Import Cbuf.
From S2P Require Import CborEnc.
From S2P Require Import CborDec.
From S2P Require Import CborFields.
From S2P Require Import Object.
From S2P Require Import Fs.

Open Scope Z_scope.
Open Scope list_scope.

Definition HARP_STORE_PATH_MAX : nat := 1024.
Definition HARP_REF_NAME_MAX : nat := 160.
Definition STORE_DIR_MAX : nat := 512.

(** The path pieces of the store, as bytes. *)
Definition s_objects : list Z := [47; 111; 98; 106; 101; 99; 116; 115].      (* "/objects" *)
Definition s_refs : list Z := [47; 114; 101; 102; 115].                      (* "/refs" *)
Definition s_tmp : list Z := [46; 116; 109; 112; 46].                        (* ".tmp." *)

(** Test seams of the source: stop before the rename, stop after one delete. *)
Class Faults := { fault_skip_rename : bool; fault_skip_sweep : bool }.

Section store.
Context {O : OS} {F : Faults} {R : Realloc}.

(** [mkdir -p]: the loop creates the prefix before every ['/'] but the first
    character. *)
Definition make_or_exists (p : path) : SM world unit :=
  r ← dir_make p; match r with MkFail => sm_fail | _ => mret tt end.

Fixpoint mkdirs_loop (seen rest : path) : SM world unit :=
  match rest with
  | [] => mret tt
  | c :: r => (if c =? SLASH then make_or_exists seen else mret tt);; mkdirs_loop (seen ++ [c]) r
  end.

Definition mkdirs (p : path) : SM world unit :=
  if (HARP_STORE_PATH_MAX <=? length p)%nat then sm_fail
  else mkdirs_loop (take 1 p) (drop 1 p);; make_or_exists p.

(** The store is its directory name. *)
Definition harp_store_open (dir : path) : SM world path :=
  if (STORE_DIR_MAX - 16 <=? length dir)%nat then sm_fail
  else
    mkdirs (snprintf HARP_STORE_PATH_MAX (dir ++ s_objects));;
    mkdirs (snprintf HARP_STORE_PATH_MAX (dir ++ s_refs));;
    mret (snprintf STORE_DIR_MAX dir).

Definition obj_path (s : path) (h : harp_hash) : path :=
  snprintf HARP_STORE_PATH_MAX (s ++ s_objects ++ [SLASH] ++ harp_hash_hex h).

Definition harp_store_have (s : path) (h : harp_hash) : SM world bool := path_readable (obj_path s h).

Definition tmp_path (p : path) : path :=
  snprintf (HARP_STORE_PATH_MAX + 64) (p ++ s_tmp ++ dec_str os_pid).

(** Close and remove the temporary file, return -1. *)
Definition discard (h : wfile) : SM world unit :=
  fclose_w h;; remove (wf_path h);; sm_fail.

Definition write_atomic (p data : path) : SM world unit :=
  o ← fopen_w (tmp_path p);
  match o with
  | None => sm_fail
  | Some h =>
      '(ok, h) ← (if (length data =? 0)%nat then mret (true, h) else fwrite h data);
      if negb ok then discard h
      else
        '(_, h) ← fflush h;
        synced ← file_sync h;
        if negb synced then discard h
        else
          fclose_w h;;
          if fault_skip_rename then sm_fail
          else
            renamed ← rename_atomic (tmp_path p) p;
            if negb renamed then remove (tmp_path p);; sm_fail else mret tt
  end.

(** Returns the hash in any case; fails when the write does. *)
Definition harp_store_put (s : path) (enc : list Z) : SM world unit :=
  let p := obj_path s (harp_hash_compute enc) in
  r ← path_readable p;
  if (r : bool) then mret tt else write_atomic p enc.

(** [while ((n = fread(buf, 1, 8192, f)) > 0) harp_cbuf_put(out, buf, n);] *)
Definition READ_CHUNK : nat := Z.to_nat 8192.

Fixpoint get_loop (fuel : nat) (data : list Z) (out : cbuf) : cbuf :=
  match fuel, data with
  | S k, _ :: _ => get_loop k (drop READ_CHUNK data) (harp_cbuf_put out (take READ_CHUNK data))
  | _, _ => out
  end.

(** The buffer is filled whether the read succeeds (0) or fails (-1). *)
Definition harp_store_get (s : path) (h : harp_hash) (out : cbuf) : SM world (bool * cbuf) :=
  o ← read_file (obj_path s h);
  mret (match o with
        | None => (false, out)
        | Some (data, err) =>
            let out' := get_loop (length data) data out in
            (negb (err || cb_oom out'), out')
        end).

(** ** Ref names *)

Definition ref_char_ok (c : Z) : bool :=
  ((65 <=? c) && (c <=? 90)) || ((97 <=? c) && (c <=? 122)) || ((48 <=? c) && (c <=? 57)) ||
  (c =? 46) || (c =? 95) || (c =? 58) || (c =? 45) || (c =? 47).

(** [strstr(s, pat) != NULL] *)
Fixpoint strstr (pat s : list Z) : bool :=
  bool_decide (take (length pat) s = pat) ||
  match s with [] => false | _ :: r => strstr pat r end.

Definition ref_name_ok (name : path) : bool :=
  let len := length name in
  if (len =? 0)%nat || (HARP_REF_NAME_MAX <=? len)%nat then false
  else if (nth 0 name 0 =? SLASH) || (nth (len - 1) name 0 =? SLASH) then false
  else if strstr [DOT; DOT] name then false
  else forallb ref_char_ok name.

(** The POSIX [fs_from_ref]/[ref_from_fs]: a bounded copy. *)
Definition fs_from_ref (ref : path) (outsz : nat) : option path :=
  if (outsz <? length ref + 1)%nat then None else Some ref.
Definition ref_from_fs (fsn : path) (outsz : nat) : option path := fs_from_ref fsn outsz.

Definition ref_path (s name : path) : option path :=
  if negb (ref_name_ok name) then None
  else
    fsname ← fs_from_ref name (3 * HARP_REF_NAME_MAX);
    let full := s ++ s_refs ++ [SLASH] ++ fsname in
    if (HARP_STORE_PATH_MAX <=? length full)%nat then None else Some full.

(** ** Ref records *)

(** [harp_ref]: [r_name] is the C string in the 160-byte array; [r_hash] is
    meaningful when the ref is born. *)
Record harp_ref := mk_ref { r_name : list Z; r_unborn : bool; r_hash : harp_hash; r_generation : Z; r_dirty : bool }.

Definition ref_zero : harp_ref := mk_ref [] true (repeat 0 HARP_HASH_LEN) 0 false.

Definition harp_ref_encode (out : cbuf) (r : harp_ref) : cbuf :=
  let b := harp_cbor_map out 4 in
  let b := harp_cbor_uint b 0 in
  let b := harp_cbor_text b (r_name r) in
  let b := harp_cbor_uint b 1 in
  let b := if r_unborn r then harp_cbor_null b else harp_cbor_bytes b (r_hash r) in
  let b := harp_cbor_uint b 2 in
  let b := harp_cbor_uint b (r_generation r) in
  let b := harp_cbor_uint b 3 in
  harp_cbor_bool b (r_dirty r).

(** The record being filled and [have_name]. *)
Record ref_st := mk_rst { rs_ref : harp_ref; rs_have_name : bool }.

Definition upd_ref (f : harp_ref -> harp_ref) (st : ref_st) : ref_st := mk_rst (f (rs_ref st)) (rs_have_name st).

Definition ref_visit (key : Z) : parser ref_st unit :=
  if key =? 0 then
    s ← on_fst harp_cdec_text;
    if zlen s >=? Z.of_nat HARP_REF_NAME_MAX then sm_fail
    else on_snd (sm_modify (fun st => let r := rs_ref st in
      mk_rst (mk_ref (cstr s) (r_unborn r) (r_hash r) (r_generation r) (r_dirty r)) true))
  else if key =? 1 then
    d ← on_fst sm_get;
    if harp_cdec_peek_null d then
      on_fst harp_cdec_null;;
      on_snd (sm_modify (upd_ref (fun r => mk_ref (r_name r) true (r_hash r) (r_generation r) (r_dirty r))))
    else
      h ← on_fst harp_hash_read;
      on_snd (sm_modify (upd_ref (fun r => mk_ref (r_name r) false h (r_generation r) (r_dirty r))))
  else if key =? 2 then
    g ← on_fst harp_cdec_uint;
    on_snd (sm_modify (upd_ref (fun r => mk_ref (r_name r) (r_unborn r) (r_hash r) g (r_dirty r))))
  else if key =? 3 then
    b ← on_fst harp_cdec_bool;
    on_snd (sm_modify (upd_ref (fun r => mk_ref (r_name r) (r_unborn r) (r_hash r) (r_generation r) b)))
  else on_fst harp_cdec_skip.

Definition harp_ref_decode : dec harp_ref := fun d =>
  let '(o, (d', st)) := map_fields ref_visit (d, mk_rst ref_zero false) in
  match o with
  | Some _ => (if rs_have_name st then Some (rs_ref st) else None, d')
  | None => (None, d')
  end.

(** ** Refs on disk *)

(** [uint8_t buf[1024]] of the ref reader. *)
Definition REF_BUF : nat := 1024.

(** A missing file reads as an unborn ref of that name; of a directory nothing
    can be read, and the empty record does not decode. *)
Definition harp_store_ref_read (s name : path) : SM world harp_ref :=
  match ref_path s name with
  | None => sm_fail
  | Some p =>
      o ← read_file p;
      match o with
      | None => mret (mk_ref name true (repeat 0 HARP_HASH_LEN) 0 false)
      | Some (data, _) =>
          match harp_ref_decode (harp_cdec_init (take REF_BUF data)) with
          | (Some r, _) => mret r
          | (None, _) => sm_fail
          end
      end
  end.

Definition harp_store_ref_write (s : path) (r : harp_ref) : SM world unit :=
  match ref_path s (r_name r) with
  | None => sm_fail
  | Some p =>
      (match parent p with Some d => mkdirs d | None => mret tt end);;
      let b := harp_ref_encode harp_cbuf_init r in
      if cb_oom b then sm_fail else write_atomic p (cb_buf b)
  end.

Definition harp_store_ref_delete (s name : path) : SM world unit :=
  match ref_path s name with
  | None => sm_fail
  | Some p => remove p;; mret tt
  end.
End store.

(** ** Atomic writes *)

Section write_atomic.
Context {O : OS} {F : Faults}.

(** No [fflush] fails: the result of that call is not looked at by the code. *)
Definition flush_reliable : Prop := forall t, (os_flush t).1 = true.

Context (p data : path) (f0 : fs).
Let tmp := tmp_path p.

(** The states of an atomic write: only the temporary differs from the initial
    state, until the rename replaces the target in one step.  The file put there
    is a beginning of the data, and all of it, on disk, when no [fflush] fails. *)
Definition wa_before (f : fs) : Prop := f = f0 \/ (exists x, f = put_file tmp x f0) \/ f = del_file tmp f0.
Definition wa_done (f : fs) : Prop :=
  exists c b, c `prefix_of` data /\ (flush_reliable -> c = data /\ b = true) /\
    f = put_file p (mk_file c b) (del_file tmp f0).
Definition wa_inv (f : fs) : Prop := wa_before f \/ wa_done f.

Definition wa_post (r : option unit) (f : fs) : Prop :=
  match r with Some _ => wa_done f | None => wa_before f end.

Lemma put_put q x y : put_file q y (put_file q x f0) = put_file q y f0.
Proof. unfold put_file. cbn. by rewrite insert_insert_eq. Qed.

Lemma del_put q x : del_file q (put_file q x f0) = del_file q f0.
Proof. unfold del_file, put_file. cbn. by rewrite delete_insert_eq. Qed.

Lemma lookup_put q x : fs_files (put_file q x f0) !! q = Some x.
Proof. cbn. by rewrite lookup_insert_eq. Qed.

Lemma append_put q x l : exists b, append_file q l (put_file q x f0) = put_file q (mk_file (f_data x ++ l) b) f0.
Proof.
  unfold append_file. rewrite lookup_put. case_bool_decide as Hl.
  - subst. exists (f_synced x). rewrite app_nil_r. by destruct x.
  - exists false. apply put_put.
Qed.

Lemma wa_inv_tmp x : wa_inv (put_file tmp x f0).
Proof. left. right. left. by exists x. Qed.

Lemma wa_inv_append x l : wa_inv (append_file tmp l (put_file tmp x f0)).
Proof. destruct (append_put tmp x l) as [b ->]. apply wa_inv_tmp. Qed.

Lemma triple_discard h x : wf_path h = tmp -> triple wa_inv (fun f => f = put_file tmp x f0) (discard h) wa_post.
Proof.
  intros Hh. unfold discard. rewrite Hh.
  eapply triple_bind with (M := fun r f => exists y, f = put_file tmp y f0).
  - apply triple_fclose; rewrite Hh.
    + intros l. apply wa_inv_append.
    + intros l1 l2 _. destruct (append_put tmp x l1) as [b ->]. eauto.
  - intros f [y ->]. right. left. by exists y.
  - intros _. apply triple_state. intros f1 [y ->].
    eapply triple_bind with (M := fun _ f => wa_before f).
    + apply triple_remove_file; [rewrite lookup_put; eauto|..]; rewrite ?del_put.
      * left. right. by right.
      * right. by right.
      * right. left. by exists y.
    + done.
    + intros _. by apply triple_fail.
Qed.

(** The contents under construction: what is in the file and what is pending. *)
Definition holds (h : wfile) (f : fs) : Prop :=
  wf_path h = tmp /\ exists x, f = put_file tmp x f0 /\ f_data x ++ wf_pend h = data.

Lemma triple_write_atomic : triple wa_inv (fun f => f = f0) (write_atomic p data) wa_post.
Proof.
  unfold write_atomic. fold tmp.
  eapply triple_bind with (M := fun r f => match r with
    | Some (Some h) => h = mk_wfile tmp [] /\ f = put_file tmp (mk_file [] false) f0
    | _ => f = f0 end).
  { apply triple_fopen_w; [apply wa_inv_tmp|done|done]. }
  { intros f ->. by left. }
  intros [h|]; [|apply triple_fail; intros f ->; by left].
  apply triple_state. intros f1 [-> ->].
  eapply triple_bind with (M := fun r f => match r with
    | Some (true, h) => holds h f
    | Some (false, h) => wf_path h = tmp /\ exists x, f = put_file tmp x f0
    | None => wa_before f end).
  { destruct (Nat.eqb_spec (length data) 0) as [Hd|Hd].
    - apply triple_ret'. intros f ->. split; [done|]. eexists. split; [done|]. by destruct data.
    - apply triple_fwrite.
      + intros l. apply wa_inv_append.
      + intros ok l1 l2 Hl. cbn [wf_path wf_pend] in *. destruct (append_put tmp (mk_file [] false) l1) as [b ->].
        destruct ok; [|split; eauto]. split; [done|]. eexists. split; [done|]. by cbn. }
  { done. }
  intros [ok h]. destruct ok; cbn [negb].
  2:{ apply triple_state. intros f1 (Hh & x & ->). by apply triple_discard. }
  apply triple_state. intros f1 (Hh & x & -> & Hx).
  eapply triple_bind with (M := fun r f => match r with
    | Some (_, h) => holds h f /\ (flush_reliable -> wf_pend h = [])
    | None => wa_before f end).
  { apply triple_fflush; rewrite Hh.
    - intros l. apply wa_inv_append.
    - destruct (append_put tmp x (wf_pend h)) as [b ->]. rewrite Hx. split; [|done].
      split; [done|]. eexists. split; [done|]. apply app_nil_r.
    - intros t l1 l2 Ht Hl. split; [|by intros Hf; rewrite Hf in Ht].
      destruct (append_put tmp x l1) as [b ->]. split; [done|]. eexists. split; [done|]. cbn. by rewrite <- app_assoc, Hl. }
  { done. }
  intros [b h2]. apply triple_state. intros f2 ((Hh2 & x2 & -> & Hx2) & Hp2).
  eapply triple_bind with (M := fun r f => match r with
    | Some true => f = put_file tmp (mk_file (f_data x2) true) f0
    | Some false => f = put_file tmp x2 f0
    | None => False end).
  { eapply triple_sync; rewrite ?Hh2; [apply lookup_put|..]; rewrite ?put_put;
      first [apply wa_inv_tmp|done]. }
  { done. }
  intros [|]; cbn [negb]; [|by apply triple_discard].
  eapply triple_bind with (M := fun _ f => exists c b', c `prefix_of` data /\
    (flush_reliable -> c = data /\ b' = true) /\ f = put_file tmp (mk_file c b') f0).
  { apply triple_fclose; rewrite Hh2; [intros l; apply wa_inv_append|]. intros l1 l2 Hl.
    assert (f_data x2 ++ l1 `prefix_of` data) as Hpre by (exists l2; by rewrite <- Hx2, <- Hl, app_assoc).
    unfold append_file. rewrite lookup_put. case_bool_decide as E.
    - subst l1. rewrite app_nil_r in Hpre. exists (f_data x2), true. split_and!; [done| |done].
      intros Hf. by rewrite <- Hx2, Hp2, app_nil_r.
    - exists (f_data x2 ++ l1), false. split_and!; [done| |apply put_put].
      intros Hf. rewrite Hp2 in Hl by done. by apply app_eq_nil in Hl as [-> _]. }
  { intros f (c & b' & _ & _ & ->). right. left. eauto. }
  intros _. apply triple_state. intros f3 (c & b3 & Hc & Hrel & ->).
  case_match; [apply triple_fail; intros f ->; right; left; eauto|].
  eapply triple_bind with (M := fun r f => match r with
    | Some true => wa_done f
    | Some false => f = put_file tmp (mk_file c b3) f0
    | None => False end).
  { assert (wa_done (put_file p (mk_file c b3) (del_file tmp f0))) as Hd by (by exists c, b3).
    eapply triple_rename; [apply lookup_put|..]; rewrite ?del_put; [by right|done|done]. }
  { done. }
  intros [|]; cbn [negb]; [by apply triple_ret'|].
  eapply triple_bind with (M := fun _ f => wa_before f).
  - apply triple_remove_file; [rewrite lookup_put; eauto|..]; rewrite ?del_put.
    + left. right. by right.
    + right. by right.
    + right. left. eauto.
  - done.
  - intros _. by apply triple_fail.
Qed.
End write_atomic.

(** ** Paths *)

Lemma snprintf_id n s : (length s < n)%nat -> snprintf n s = s.
Proof. intros. unfold snprintf. apply take_ge. lia. Qed.

Lemma digits_nonempty fuel n acc : (0 < length acc)%nat -> (0 < length (digits fuel n acc))%nat.
Proof.
  revert n acc. induction fuel as [|k IH]; intros n acc Ha; cbn [digits]; [done|].
  case_cond; [cbn; lia|]. apply IH. cbn. lia.
Qed.

Lemma tmp_path_longer {O : OS} p : (length p < HARP_STORE_PATH_MAX)%nat -> (length p < length (tmp_path p))%nat.
Proof.
  intros Hp. unfold tmp_path, snprintf, HARP_STORE_PATH_MAX in *. rewrite length_take, length_app.
  unfold s_tmp. cbn [length app]. lia.
Qed.

Lemma tmp_path_ne {O : OS} p : (length p < HARP_STORE_PATH_MAX)%nat -> tmp_path p <> p.
Proof. intros Hp E. pose proof (tmp_path_longer p Hp). rewrite E in H. lia. Qed.

(** A store directory admitted by [harp_store_open]. *)
Definition dir_ok (s : path) : Prop := (length s < STORE_DIR_MAX - 16)%nat.

Lemma obj_path_eq s h : dir_ok s -> is_hash h -> obj_path s h = s ++ s_objects ++ [SLASH] ++ harp_hash_hex h.
Proof.
  unfold dir_ok, STORE_DIR_MAX. intros Hs [_ Hh]. unfold obj_path. apply snprintf_id. rewrite !length_app.
  rewrite harp_hash_hex_length, Hh. unfold HARP_HASH_LEN, HARP_STORE_PATH_MAX, s_objects. cbn [length]. lia.
Qed.

Lemma obj_path_length s h : dir_ok s -> is_hash h -> length (obj_path s h) = (length s + 75)%nat.
Proof.
  intros Hs Hh. rewrite obj_path_eq by done. rewrite !length_app, harp_hash_hex_length, (proj2 Hh).
  unfold HARP_HASH_LEN, s_objects. cbn [length]. lia.
Qed.

Lemma hash_hex_inj h1 h2 : is_hash h1 -> is_hash h2 -> harp_hash_hex h1 = harp_hash_hex h2 -> h1 = h2.
Proof.
  intros [B1 L1] [B2 L2] E. pose proof (hex_loop_hex h1 B1) as E1. pose proof (hex_loop_hex h2 B2) as E2.
  rewrite E, L1 in E1. rewrite L2 in E2. congruence.
Qed.

Lemma obj_path_inj s h1 h2 : dir_ok s -> is_hash h1 -> is_hash h2 -> obj_path s h1 = obj_path s h2 -> h1 = h2.
Proof.
  intros Hs H1 H2. rewrite !obj_path_eq by done. intros E%app_inv_head%app_inv_head%app_inv_head.
  by apply hash_hex_inj.
Qed.

Lemma is_hash_compute data : is_hash (harp_hash_compute data).
Proof.
  split.
  - unfold harp_hash_compute. constructor; [unfold is_u8, HARP_HASH_ALG_SHA256; lia|apply Sha256.digest_ok].
  - unfold harp_hash_compute. cbn [length]. by rewrite Sha256.digest_length.
Qed.

(** ** Reading objects *)

Lemma get_loop_spec {R : Realloc} fuel data out : (length data <= fuel)%nat ->
  cb_oom (get_loop fuel data out) = false ->
  cb_buf (get_loop fuel data out) = cb_buf out ++ data.
Proof.
  revert data out. induction fuel as [|k IH]; intros data out Hf Ho.
  { destruct data; [by rewrite app_nil_r|cbn in Hf; lia]. }
  destruct data as [|b data]; [by rewrite app_nil_r|]. cbn [get_loop] in *.
  assert (length (drop READ_CHUNK (b :: data)) <= k)%nat as Hd.
  { rewrite length_drop. unfold READ_CHUNK. cbn [length] in *. lia. }
  assert (cb_oom (harp_cbuf_put out (take READ_CHUNK (b :: data))) = false) as Hp.
  { clear IH Hf. revert Ho. generalize (harp_cbuf_put out (take READ_CHUNK (b :: data))).
    generalize (drop READ_CHUNK (b :: data)). clear. induction k as [|k IH]; intros l c Ho; [done|].
    destruct l as [|x l]; [done|]. cbn [get_loop] in Ho. apply IH in Ho.
    destruct (cb_oom c) eqn:E; [|done]. by rewrite put_oom_sticky, E in Ho. }
  rewrite IH by done. destruct (appends_put (take READ_CHUNK (b :: data)) out Hp) as [_ ->].
  by rewrite <- app_assoc, take_drop.
Qed.

Lemma get_loop_total {R : Realloc} fuel data out : realloc_total R -> cb_oom out = false ->
  cb_oom (get_loop fuel data out) = false.
Proof.
  intros Ht. revert data out. induction fuel as [|k IH]; intros data out Ho; [done|].
  destruct data; [done|]. cbn [get_loop]. apply IH. by apply (never_oom_put _ Ht).
Qed.

(** ** Integrity of the object directory *)

(** Every object file is on disk in full and its contents hash to its name. *)
Definition store_wf (s : path) (f : fs) : Prop :=
  forall h x, is_hash h -> fs_files f !! obj_path s h = Some x ->
    f_synced x = true /\ harp_hash_compute (f_data x) = h.

Lemma lookup_put_ne f p q x : p <> q -> fs_files (put_file p x f) !! q = fs_files f !! q.
Proof. intros. cbn. by rewrite lookup_insert_ne. Qed.

Lemma lookup_put_eq f p x : fs_files (put_file p x f) !! p = Some x.
Proof. cbn. by rewrite lookup_insert_eq. Qed.

Lemma lookup_del_ne f p q : p <> q -> fs_files (del_file p f) !! q = fs_files f !! q.
Proof. intros. cbn. by rewrite lookup_delete_ne. Qed.

Lemma lookup_del_eq f p : fs_files (del_file p f) !! p = None.
Proof. cbn. by rewrite lookup_delete_eq. Qed.

(** What the states of an atomic write look like at every path. *)
Lemma wa_inv_any {O : OS} p data f0 f q : wa_inv p data f0 f -> q <> tmp_path p ->
  fs_files f !! q = fs_files f0 !! q \/
  (q = p /\ exists c b, c `prefix_of` data /\ (flush_reliable -> c = data /\ b = true) /\
     fs_files f !! q = Some (mk_file c b)).
Proof.
  intros [[-> |[[x ->] | ->]] |(c & b & Hc & Hf & ->)] Hq; [by left|..].
  - left. by apply lookup_put_ne.
  - left. by apply lookup_del_ne.
  - destruct (decide (q = p)) as [->|Hne].
    + right. split; [done|]. exists c, b. split_and!; [done|done|apply lookup_put_eq].
    + left. rewrite lookup_put_ne, lookup_del_ne; done.
Qed.

(** ... with a reliable [fflush]. *)
Lemma wa_inv_lookup {O : OS} p data f0 f q : flush_reliable ->
  wa_inv p data f0 f -> q <> tmp_path p ->
  fs_files f !! q = fs_files f0 !! q \/ (q = p /\ fs_files f !! q = Some (mk_file data true)).
Proof.
  intros Hfl Hi Hq. destruct (wa_inv_any _ _ _ _ _ Hi Hq) as [?|(-> & c & b & _ & H & E)]; [by left|].
  destruct (H Hfl) as [-> ->]. by right.
Qed.

Lemma wa_before_lookup {O : OS} p f0 f q : wa_before p f0 f -> q <> tmp_path p -> fs_files f !! q = fs_files f0 !! q.
Proof.
  intros [-> |[[x ->] | ->]] Hq; [done|..]; [by apply lookup_put_ne|by apply lookup_del_ne].
Qed.

Lemma wa_done_eq {O : OS} p data f0 f : flush_reliable -> wa_done p data f0 f ->
  f = put_file p (mk_file data true) (del_file (tmp_path p) f0).
Proof. intros Hfl (c & b & _ & H & ->). by destruct (H Hfl) as [-> ->]. Qed.

Lemma wa_done_lookup {O : OS} p data f0 f : flush_reliable -> wa_done p data f0 f ->
  fs_files f !! p = Some (mk_file data true).
Proof. intros Hfl ->%wa_done_eq; [|done]. apply lookup_put_eq. Qed.

Lemma wa_inv_store_wf {O : OS} s data f0 f : flush_reliable -> dir_ok s -> store_wf s f0 ->
  wa_inv (obj_path s (harp_hash_compute data)) data f0 f -> store_wf s f.
Proof.
  intros Hfl Hs Hwf Hinv h x Hh Hx. pose proof (is_hash_compute data) as Hc.
  pose proof (obj_path_length s _ Hs Hc) as Hl. unfold dir_ok, STORE_DIR_MAX in Hs.
  destruct (wa_inv_lookup (obj_path s (harp_hash_compute data)) data f0 f (obj_path s h)) as [E|[E1 E2]].
  - done.
  - done.
  - intros E. apply (f_equal length) in E. rewrite obj_path_length in E by done.
    pose proof (tmp_path_longer (obj_path s (harp_hash_compute data))). unfold HARP_STORE_PATH_MAX in *. lia.
  - rewrite E in Hx. by apply Hwf.
  - apply obj_path_inj in E1; [|done..]. subst h. rewrite E2 in Hx. by injection Hx as <-.
Qed.

(** ** Properties of writing and of objects *)

(** What a crash may leave of a file. *)
Lemma crash_synced f disk p x : crash f disk -> fs_files f !! p = Some x -> f_synced x = true ->
  disk !! p = Some (f_data x).
Proof. intros Hc Hx Hs. specialize (Hc p). rewrite Hx in Hc. destruct Hc as (c & -> & Hc). by rewrite Hc. Qed.

Lemma crash_absent f disk p : crash f disk -> fs_files f !! p = None -> disk !! p = None.
Proof. intros Hc Hx. specialize (Hc p). by rewrite Hx in Hc. Qed.

(** A crash in the middle of an atomic write whose [fflush] does not fail. *)
Lemma wa_inv_crash {O : OS} p data f0 f disk : flush_reliable -> tmp_path p <> p ->
  wa_inv p data f0 f -> crash f disk ->
  match fs_files f0 !! p with
  | Some x => f_synced x = true -> disk !! p = Some (f_data x) \/ disk !! p = Some data
  | None => disk !! p = None \/ disk !! p = Some data
  end.
Proof.
  intros Hfl Hne Hinv Hc. destruct (wa_inv_lookup p data f0 f p Hfl Hinv) as [E|[_ E]]; [congruence|..].
  - destruct (fs_files f0 !! p) as [x|] eqn:Ex.
    + intros Hs. left. by apply (crash_synced f).
    + left. by apply (crash_absent f).
  - assert (disk !! p = Some data) by (by apply (crash_synced f disk p (mk_file data true))).
    destruct (fs_files f0 !! p); auto.
Qed.


(** An environment in which everything succeeds, and variations of it. *)
Definition os_good : OS :=
  {| os_mkdir := fun _ => true; os_open := fun _ => true; os_write := fun _ => (true, 0%nat);
     os_flush := fun _ => (true, 0%nat); os_sync := fun _ => true; os_close := fun _ => 0%nat;
     os_rename := fun _ => true; os_remove := fun _ => true; os_read := fun _ => None;
     os_opendir := fun _ => true; os_order := fun _ l => l; os_order_perm := fun _ l => Permutation.Permutation_refl l;
     os_pid := 4242 |}.

Definition no_faults : Faults := {| fault_skip_rename := false; fault_skip_sweep := false |}.

(** A file system with the directory "s" and its two subdirectories. *)
Definition s_dir : path := [115].
Definition fs_empty : fs := mk_fs ∅ {[s_dir; s_dir ++ s_objects; s_dir ++ s_refs]}.
Definition world_of (f : fs) : world := mk_world f 0 [].



Lemma path_readable_run {O : OS} p w : path_readable p w = (Some (exists_path (w_fs w) p), w).
Proof. done. Qed.

(** What [read_file] delivers at tick [t]. *)
Definition read_result {O : OS} (t : nat) (f : fs) (p : path) : option (list Z * bool) :=
  match fs_files f !! p with
  | Some x =>
      if os_open t then
        Some (match os_read t with Some k => (take k (f_data x), true) | None => (f_data x, false) end)
      else None
  | None => if os_open t && bool_decide (p ∈ fs_dirs f) then Some ([], true) else None
  end.

Lemma read_file_run {O : OS} p w :
  read_file p w = (Some (read_result (w_clock w) (w_fs w) p), mk_world (w_fs w) (S (w_clock w)) (w_trace w)).
Proof. done. Qed.

(** The object directory holds no subdirectory of an object's name. *)
Definition no_obj_dirs (s : path) (f : fs) : Prop := forall h, is_hash h -> obj_path s h ∉ fs_dirs f.

(** C23: the store is content-addressed, crashes included, as long as no
    [fflush] fails (a failing one publishes a truncated object and reports
    success, [store_put_flush_ignored]).  From a store in which
    every object file is complete and hashes to its name, [harp_store_put] goes
    through such stores only - so a crash at any point leaves one - and when it
    succeeds [harp_store_have] holds and [harp_store_get] (if the file can be read
    and memory suffices) appends bytes with the requested hash: the bytes put,
    unless an object of that hash was already there. *)
Theorem store_put_get {O : OS} {F : Faults} {R : Realloc} (s : path) (enc : list Z) (w : world)
    (r : option unit) (w' : world) :
  flush_reliable -> dir_ok s -> store_wf s (w_fs w) -> no_obj_dirs s (w_fs w) ->
  harp_store_put s enc w = (r, w') ->
  let h := harp_hash_compute enc in
  (exists tr, w_trace w' = w_trace w ++ tr /\ Forall (store_wf s) tr) /\ store_wf s (w_fs w') /\
  (r = Some tt ->
     (harp_store_have s h w').1 = Some true /\
     forall out out' w'', harp_store_get s h out w' = (Some (true, out'), w'') ->
       exists data, cb_buf out' = cb_buf out ++ data /\ harp_hash_compute data = h /\
         ((harp_store_have s h w).1 = Some false -> data = enc)).
Proof.
  intros Hfl Hs Hwf Hnd Hrun h. set (p := obj_path s h).
  pose proof (is_hash_compute enc) as Hh. fold h in Hh.
  assert (length p < HARP_STORE_PATH_MAX)%nat as Hp.
  { unfold p. rewrite obj_path_length by done. unfold dir_ok, STORE_DIR_MAX, HARP_STORE_PATH_MAX in *. lia. }
  assert ((exists tr, w_trace w' = w_trace w ++ tr /\ Forall (store_wf s) tr) /\ store_wf s (w_fs w') /\
    (r = Some tt -> exists x, fs_files (w_fs w') !! p = Some x /\
       (exists_path (w_fs w) p = false -> f_data x = enc))) as (H1 & H2 & H3).
  { unfold harp_store_put in Hrun. erewrite sm_bind_run in Hrun by apply path_readable_run.
    fold h p in Hrun. destruct (exists_path (w_fs w) p) eqn:Ex.
    - injection Hrun as <- <-. split_and!; [exists []; by rewrite app_nil_r|done|].
      intros _. unfold exists_path in Ex. apply orb_true_iff in Ex as [Ex|Ex]; apply bool_decide_eq_true in Ex.
      + apply elem_of_dom in Ex as [x Hx]. by exists x.
      + exfalso. by apply (Hnd h).
    - destruct (triple_write_atomic p enc (w_fs w) w r w' eq_refl Hrun) as (HQ & tr & Htr & HI).
      assert (forall f, wa_inv p enc (w_fs w) f -> store_wf s f) as Hall.
      { intros f. by apply wa_inv_store_wf. }
      split_and!.
      + exists tr. split; [done|]. eapply List.Forall_impl; [|exact HI]. exact Hall.
      + apply Hall. destruct r; [by right|by left].
      + intros ->. apply (wa_done_lookup _ _ _ _ Hfl) in HQ. by exists (mk_file enc true). }
  split_and!; [done|done|]. intros ->. destruct (H3 eq_refl) as (x & Hx & Hnew). split.
  - unfold harp_store_have. rewrite path_readable_run. cbn [fst]. f_equal. unfold exists_path. fold p.
    apply orb_true_iff. left. apply bool_decide_eq_true, elem_of_dom. eauto.
  - intros out out' w'' Hget. exists (f_data x).
    destruct (H2 h x Hh Hx) as [_ Hhash].
    assert (cb_buf out' = cb_buf out ++ f_data x) as Hbuf.
    { unfold harp_store_get in Hget. fold p in Hget. erewrite sm_bind_run in Hget by apply read_file_run.
      unfold read_result in Hget. rewrite Hx in Hget.
      destruct (os_open _); [|discriminate]. destruct (os_read _) as [k|]; [discriminate|].
      injection Hget as Hok Hout _. subst out'. apply negb_true_iff in Hok. cbn [orb] in Hok.
      by apply get_loop_spec. }
    split_and!; [done|done|]. unfold harp_store_have. rewrite path_readable_run. cbn [fst]. intros [= E].
    by apply Hnew.
Qed.

Lemma fs_empty_wf : store_wf s_dir fs_empty.
Proof. intros h x _ Hx. cbn [fs_empty fs_files] in Hx. by rewrite lookup_empty in Hx. Qed.

Lemma fs_empty_no_obj_dirs : no_obj_dirs s_dir fs_empty.
Proof.
  intros h Hh Hin. assert (length (obj_path s_dir h) = 76%nat) as Hl.
  { apply obj_path_length; [unfold dir_ok, STORE_DIR_MAX; cbn; lia|done]. }
  unfold fs_empty in Hin. cbn [fs_dirs] in Hin. rewrite !elem_of_union, !elem_of_singleton in Hin.
  destruct Hin as [[E|E]|E]; rewrite E in Hl; cbn in Hl; lia.
Qed.

Lemma store_put_get_witness :
  let R := (fun _ => true) : Realloc in
  let '(r, w') := @harp_store_put os_good no_faults s_dir [1; 2; 3] (world_of fs_empty) in
  r = Some tt /\ store_wf s_dir (w_fs w') /\
  exists out w'', @harp_store_get os_good R s_dir (harp_hash_compute [1; 2; 3]) harp_cbuf_init w' = (Some (true, out), w'') /\
    cb_buf out = [1; 2; 3].
Proof.
  intros R.
  assert (Hr : fst (@harp_store_put os_good no_faults s_dir [1; 2; 3] (world_of fs_empty)) = Some tt)
    by (vm_compute; reflexivity).
  assert (Hg : (o ← fst (@harp_store_get os_good R s_dir (harp_hash_compute [1; 2; 3]) harp_cbuf_init
    (snd (@harp_store_put os_good no_faults s_dir [1; 2; 3] (world_of fs_empty)))); Some (fst o)) = Some true)
    by (vm_compute; reflexivity).
  destruct (@harp_store_put os_good no_faults s_dir [1; 2; 3] (world_of fs_empty)) as [r w'] eqn:E.
  cbn [fst snd] in Hr, Hg.
  destruct (@store_put_get os_good no_faults R s_dir [1; 2; 3] (world_of fs_empty) r w') as (_ & H2 & H3).
  - intros t. reflexivity.
  - unfold dir_ok, STORE_DIR_MAX. cbn. lia.
  - apply fs_empty_wf.
  - apply fs_empty_no_obj_dirs.
  - exact E.
  - split; [exact Hr|]. split; [exact H2|]. destruct (H3 Hr) as [_ H4].
    destruct (@harp_store_get os_good R s_dir (harp_hash_compute [1; 2; 3]) harp_cbuf_init w') as [o w''] eqn:G.
    destruct o as [[ok out]|]; [|discriminate Hg]. cbn in Hg. injection Hg as ->. exists out, w''. split; [reflexivity|].
    destruct (H4 harp_cbuf_init out w'' G) as (data & Hb & _ & Hd). rewrite Hb. rewrite Hd; [reflexivity|].
    vm_compute. reflexivity.
Defined.

(** a failing flush is not noticed.  When the buffered bytes do not reach the
    disk (say it is full) because [fflush] fails, [harp_store_put] still succeeds:
    [fsync] and [rename] publish the truncated file under the hash of the full
    object, and [harp_store_get] returns it as that object. *)
Theorem store_put_flush_ignored :
  let O := {| os_mkdir := fun _ => true; os_open := fun _ => true; os_write := fun _ => (true, 0%nat);
     os_flush := fun _ => (false, 2%nat); os_sync := fun _ => true; os_close := fun _ => 0%nat;
     os_rename := fun _ => true; os_remove := fun _ => true; os_read := fun _ => None;
     os_opendir := fun _ => true; os_order := fun _ l => l; os_order_perm := fun _ l => Permutation.Permutation_refl l;
     os_pid := 1 |} in
  let R := (fun _ => true) : Realloc in
  let run := @harp_store_put O no_faults s_dir [1; 2; 3] (world_of fs_empty) in
  run.1 = Some tt /\
  (o ← (@harp_store_get O R s_dir (harp_hash_compute [1; 2; 3]) harp_cbuf_init run.2).1; Some (o.1, cb_buf o.2)) =
    Some (true, [1; 2]) /\
  harp_hash_compute [1; 2] <> harp_hash_compute [1; 2; 3].
Proof.
  split; [vm_compute; reflexivity|]. split; [vm_compute; reflexivity|]. vm_compute. discriminate.
Qed.

(** ** The ref codec *)

Definition ref_ok (r : harp_ref) : Prop :=
  zlen (r_name r) < Z.of_nat HARP_REF_NAME_MAX /\ Forall (fun c => c <> 0) (r_name r) /\
  is_u64 (r_generation r) /\
  (if r_unborn r then r_hash r = repeat 0 HARP_HASH_LEN else hash_ok (r_hash r) = true).

Definition ref_fields (r : harp_ref) : list (field ref_st) :=
  [ mk_field 0 (enc_text (r_name r)) (fun st => let q := rs_ref st in
      mk_rst (mk_ref (cstr (r_name r)) (r_unborn q) (r_hash q) (r_generation q) (r_dirty q)) true);
    mk_field 1 (if r_unborn r then enc_null else enc_bytes (r_hash r))
      (upd_ref (fun q => mk_ref (r_name q) (r_unborn r) (if r_unborn r then r_hash q else r_hash r)
        (r_generation q) (r_dirty q)));
    mk_field 2 (enc_uint (r_generation r))
      (upd_ref (fun q => mk_ref (r_name q) (r_unborn q) (r_hash q) (r_generation r) (r_dirty q)));
    mk_field 3 (enc_bool (r_dirty r))
      (upd_ref (fun q => mk_ref (r_name q) (r_unborn q) (r_hash q) (r_generation q) (r_dirty r))) ].

Definition enc_ref (r : harp_ref) : list Z := enc_fields (ref_fields r).

Lemma appends_ref {R : Realloc} r : appends (fun b => harp_ref_encode b r) (enc_ref r).
Proof.
  unfold harp_ref_encode, enc_ref, enc_fields, ref_fields.
  cbn [flat_map]. unfold enc_field. cbn [f_key f_bytes]. change (zlen [_; _; _; _]) with 4.
  rewrite app_nil_r, !app_assoc.
  do 4 (eapply (appends_comp _ (fun b => _ b _)); [|solve [auto with enc]]).
  eapply (appends_comp _ (fun b => if r_unborn r then harp_cbor_null b else harp_cbor_bytes b (r_hash r)));
    [|apply appends_if; auto with enc].
  appends_seq.
Qed.

Lemma cstr_id l : Forall (fun c => c <> 0) l -> cstr l = l.
Proof.
  induction 1 as [|c l Hc _ IH]; [done|]. cbn [cstr]. rewrite (proj2 (Z.eqb_neq _ _)) by done. by rewrite IH.
Qed.

Lemma ref_fields_ok r : ref_ok r -> forall x, x ∈ ref_fields r -> field_ok ref_visit x.
Proof.
  intros (Hn & _ & Hg & Hh) x Hx%list_elem_of_In. unfold ref_fields, HARP_REF_NAME_MAX in *. cbn [In] in Hx.
  destruct Hx as [<-|[<-|[<-|[<-|[]]]]]; split_and!; cbn [f_key f_bytes f_eff]; try (unfold is_u64; lia).
  - unfold enc_text. rewrite zlen_app. pose proof (head_zlen 3 (zlen (r_name r))).
    pose proof (zlen_nonneg (r_name r)). lia.
  - unfold ref_visit. cbn [Z.eqb]. eapply reads_last; [apply decodes_text; lia|].
    rewrite Z.geb_leb, (proj2 (Z.leb_gt (Z.of_nat HARP_REF_NAME_MAX) _)) by (unfold HARP_REF_NAME_MAX; lia).
    by intros rest t.
  - destruct (r_unborn r); [done|]. unfold enc_bytes. rewrite zlen_app. pose proof (head_zlen 2 (zlen (r_hash r))).
    pose proof (zlen_nonneg (r_hash r)). lia.
  - intros rest t _. unfold ref_visit. cbn [Z.eqb Pos.eqb]. erewrite sm_bind_run by reflexivity.
    cbn [fst snd]. destruct (r_unborn r).
    + cbn [harp_cdec_peek_null d_err d_cur enc_null app fst Z.eqb Pos.eqb].
      apply (reads_set harp_cdec_null (fun _ => upd_ref (fun q =>
        mk_ref (r_name q) true (r_hash q) (r_generation q) (r_dirty q))) enc_null tt decodes_null rest t).
      apply zlen_nonneg.
    + assert (harp_cdec_peek_null (mk_cdec (enc_bytes (r_hash r) ++ rest) false) = false) as ->.
      { unfold enc_bytes. by rewrite (hash_zlen (r_hash r)). }
      apply (reads_set harp_hash_read (fun h => upd_ref (fun q =>
        mk_ref (r_name q) false h (r_generation q) (r_dirty q))) _ _ (decodes_hash (r_hash r) Hh) rest t).
      apply zlen_nonneg.
  - apply enc_uint_zlen.
  - by apply (reads_set harp_cdec_uint (fun g => upd_ref (fun q =>
      mk_ref (r_name q) (r_unborn q) (r_hash q) g (r_dirty q)))), decodes_uint.
  - by unfold enc_bool.
  - by apply (reads_set harp_cdec_bool (fun b => upd_ref (fun q =>
      mk_ref (r_name q) (r_unborn q) (r_hash q) (r_generation q) b))), decodes_bool.
Qed.

Lemma decodes_ref r : ref_ok r -> decodes 0 harp_ref_decode (enc_ref r) r.
Proof.
  intros Hr rest _. unfold harp_ref_decode, enc_ref.
  rewrite (reads_map_fields ref_visit (ref_fields r)); [|done|by apply ref_fields_ok|apply zlen_nonneg].
  destruct Hr as (_ & Hz & _ & Hh). cbn [ref_fields run_fields fold_left f_eff upd_ref rs_ref rs_have_name r_name
    r_unborn r_hash r_generation r_dirty]. rewrite (cstr_id _ Hz). destruct r as [n u h g d]. cbn in *.
  destruct u; [subst h|]; done.
Qed.

(** ** Ref names *)

Lemma strstr_false pat s : pat <> [] -> strstr pat s = false -> forall a b, s <> a ++ pat ++ b.
Proof.
  intros Hp. induction s as [|c s IH]; cbn [strstr]; intros Hs a b.
  - intros E. symmetry in E. apply app_eq_nil in E as [_ E]. by apply app_eq_nil in E as [? _].
  - apply orb_false_iff in Hs as [H1%bool_decide_eq_false H2]. destruct a as [|x a]; intros E.
    + apply H1. rewrite E. cbn [app]. by rewrite take_app_length.
    + injection E as -> E. by apply (IH H2 a b).
Qed.

(** The components of a path. *)
Fixpoint components_from (cur : path) (p : path) : list path :=
  match p with
  | [] => [cur]
  | c :: r => if c =? SLASH then cur :: components_from [] r else components_from (cur ++ [c]) r
  end.
Definition components (p : path) : list path := components_from [] p.

Lemma components_infix cur p c : c ∈ components_from cur p -> exists a b, cur ++ p = a ++ c ++ b.
Proof.
  revert cur. induction p as [|x p IH]; intros cur; cbn [components_from].
  - intros ->%list_elem_of_singleton. exists [], []. by rewrite !app_nil_r.
  - case_cond.
    + intros [-> |H]%elem_of_cons.
      * exists [], (x :: p). done.
      * destruct (IH [] H) as (a & b & E). exists (cur ++ x :: a), b. cbn [app] in E. rewrite E.
        by rewrite <- app_assoc.
    + intros H. destruct (IH _ H) as (a & b & E). exists a, b. rewrite <- E, <- app_assoc. done.
Qed.

Lemma ref_name_ok_spec name : ref_name_ok name = true ->
  (0 < length name < HARP_REF_NAME_MAX)%nat /\ nth 0 name 0 <> SLASH /\
  (forall a b, name <> a ++ [DOT; DOT] ++ b) /\ forallb ref_char_ok name = true.
Proof.
  unfold ref_name_ok. cbv zeta.
  destruct ((length name =? 0)%nat || (HARP_REF_NAME_MAX <=? length name)%nat) eqn:E1; [done|].
  destruct ((nth 0 name 0 =? SLASH) || (nth (length name - 1) name 0 =? SLASH)) eqn:E2; [done|].
  destruct (strstr [DOT; DOT] name) eqn:E3; [done|]. intros Hc.
  apply orb_false_iff in E1 as [E1%Nat.eqb_neq E1'%Nat.leb_gt]. apply orb_false_iff in E2 as [E2%Z.eqb_neq _].
  split_and!; try lia; try done. by apply strstr_false.
Qed.

Lemma ref_path_spec s name p : ref_path s name = Some p ->
  ref_name_ok name = true /\ p = s ++ s_refs ++ [SLASH] ++ name /\ (length p < HARP_STORE_PATH_MAX)%nat.
Proof.
  unfold ref_path. case_cond; [done|]. unfold fs_from_ref. destruct (_ <? _)%nat; [done|]. cbn [mbind option_bind].
  destruct (Nat.leb_spec HARP_STORE_PATH_MAX (length (s ++ s_refs ++ [SLASH] ++ name))); [done|].
  intros [= <-]. done.
Qed.

(** ** Writing refs *)

Section ref_write.
Context {O : OS}.

Definition same_files (f0 f : fs) : Prop := fs_files f = fs_files f0.

Lemma triple_make_or_exists f0 p :
  triple (same_files f0) (same_files f0) (make_or_exists p) (fun _ => same_files f0).
Proof.
  unfold make_or_exists. eapply triple_bind with (M := fun _ => same_files f0).
  - apply triple_state. intros f1 Hf1. apply triple_enter. intros t. repeat case_match.
    + apply triple_ret'. by intros f ->.
    + by apply triple_set_ret.
    + apply triple_ret'. by intros f ->.
  - done.
  - intros [| |]; first [by apply triple_ret'|by apply triple_fail].
Qed.

Lemma triple_mkdirs f0 p : triple (same_files f0) (same_files f0) (mkdirs p) (fun _ => same_files f0).
Proof.
  unfold mkdirs. case_match; [by apply triple_fail|].
  eapply triple_bind with (M := fun _ => same_files f0); [|done|intros _; apply triple_make_or_exists].
  generalize (take 1 p). induction (drop 1 p) as [|c r IH]; intros seen; [by apply triple_ret'|].
  cbn [mkdirs_loop]. eapply triple_bind with (M := fun _ => same_files f0); [|done|intros _; apply IH].
  case_match; [apply triple_make_or_exists|by apply triple_ret'].
Qed.
End ref_write.

(** Where a successful or failed ref write leaves its file, and the states in
    between. *)
Lemma ref_write_run {O : OS} {F : Faults} {R : Realloc} s r w o w' p :
  flush_reliable -> ref_ok r -> ref_path s (r_name r) = Some p ->
  harp_store_ref_write s r w = (o, w') ->
  exists tr, w_trace w' = w_trace w ++ tr /\
    Forall (fun f => forall q, q <> tmp_path p ->
      fs_files f !! q = fs_files (w_fs w) !! q \/ (q = p /\ fs_files f !! q = Some (mk_file (enc_ref r) true))) tr /\
    match o with
    | Some _ => fs_files (w_fs w') !! p = Some (mk_file (enc_ref r) true)
    | None => fs_files (w_fs w') !! p = fs_files (w_fs w) !! p
    end.
Proof.
  intros Hfl Hr Hp. unfold harp_store_ref_write. rewrite Hp.
  destruct (ref_path_spec _ _ _ Hp) as (_ & _ & Hlen). set (f0 := w_fs w).
  pose (I := fun f : fs => forall q, q <> tmp_path p ->
      fs_files f !! q = fs_files f0 !! q \/ (q = p /\ fs_files f !! q = Some (mk_file (enc_ref r) true))).
  pose (Q := fun (o : option unit) (f : fs) => match o with
    | Some _ => fs_files f !! p = Some (mk_file (enc_ref r) true)
    | None => fs_files f !! p = fs_files f0 !! p end).
  assert (forall f, same_files f0 f -> I f) as Hsame by (intros f E q _; left; by rewrite E).
  match goal with |- ?m w = _ -> _ => cut (triple I (fun f => f = f0) m Q) end.
  { intros Ht Hrun. destruct (Ht w o w' eq_refl Hrun) as (HQ & tr & Htr & HI). by exists tr. }
  eapply triple_bind with (M := fun _ => same_files f0).
  { destruct (parent p) as [pd|]; [|apply triple_ret'; by intros f ->].
    intros w1 r1 w1' Hw1 Hrun. destruct (triple_mkdirs f0 pd w1 r1 w1') as (H1 & tr & H2 & H3); [by rewrite Hw1|done|].
    split; [done|]. exists tr. split; [done|]. eapply List.Forall_impl; [|exact H3]. exact Hsame. }
  { intros f E. cbn. by rewrite E. }
  intros _. destruct (cb_oom _) eqn:Eo; [apply triple_fail; intros f E; cbn; by rewrite E|].
  rewrite (appends_fresh _ _ harp_cbuf_init (appends_ref r)) by done.
  apply triple_state. intros f1 E1 w1 r1 w1' Hw1 Hrun.
  destruct (triple_write_atomic p (enc_ref r) f1 w1 r1 w1' Hw1 Hrun) as (HQ & tr & Htr & HI). split.
  - destruct r1; [by apply (wa_done_lookup _ _ _ _ Hfl) in HQ|]. cbn. rewrite <- E1. apply (wa_before_lookup p); [done|].
    pose proof (tmp_path_ne p Hlen). congruence.
  - exists tr. split; [done|]. eapply List.Forall_impl; [|exact HI]. intros f Hf q Hq. rewrite <- E1.
    by apply (wa_inv_lookup p (enc_ref r) f1).
Qed.

Lemma enc_ref_short r : ref_ok r -> (length (enc_ref r) <= REF_BUF)%nat.
Proof.
  intros (Hn & _ & _ & Hh). unfold enc_ref, enc_fields, ref_fields. cbn [flat_map]. unfold enc_field.
  cbn [f_key f_bytes]. unfold enc_map, enc_uint, enc_text. rewrite !length_app, !head_bytes_length. cbn [length].
  assert (forall v, arg_len v <= 8)%nat as Ha by (intros v; unfold arg_len; repeat case_cond; lia).
  pose proof (Ha (zlen (r_name r))). pose proof (Ha (r_generation r)). pose proof (Ha (zlen [0])).
  assert (length (if r_unborn r then enc_null else enc_bytes (r_hash r)) <= 42)%nat.
  { destruct (r_unborn r); [cbn; lia|]. unfold enc_bytes. rewrite length_app, head_bytes_length.
    apply hash_ok_iff in Hh as [-> _]. pose proof (Ha (zlen (r_hash r))). lia. }
  assert (length (enc_bool (r_dirty r)) = 1)%nat by done.
  unfold zlen in Hn. unfold HARP_REF_NAME_MAX, REF_BUF in *.
  repeat match goal with |- context [arg_len ?v] => lazymatch goal with
    | H : (arg_len v <= 8)%nat |- _ => fail | _ => pose proof (Ha v) end end.
  lia.
Qed.

(** refs are written atomically and read back.  [harp_store_ref_write]
    (refs with a valid name and record, [fflush] reliable) goes only through
    states in which, whatever else fails, a crash leaves the ref's file as it was
    or holding exactly the new record and leaves every other file alone; when it
    succeeds and the file can be opened, [harp_store_ref_read] returns the record
    written, and when it fails the old file is still there. *)
Theorem store_ref_atomic {O : OS} {F : Faults} {R : Realloc} (s p : path) (r : harp_ref) (w w' : world) (o : option unit) :
  flush_reliable -> ref_ok r -> ref_path s (r_name r) = Some p ->
  harp_store_ref_write s r w = (o, w') ->
  (exists tr, w_trace w' = w_trace w ++ tr /\
    forall f disk, f ∈ tr -> crash f disk ->
      match fs_files (w_fs w) !! p with
      | Some x => f_synced x = true -> disk !! p = Some (f_data x) \/ disk !! p = Some (enc_ref r)
      | None => disk !! p = None \/ disk !! p = Some (enc_ref r)
      end /\
      (forall q x, q <> p -> q <> tmp_path p -> fs_files (w_fs w) !! q = Some x -> f_synced x = true ->
         disk !! q = Some (f_data x))) /\
  match o with
  | Some _ => os_open (w_clock w') = true -> os_read (w_clock w') = None ->
      (harp_store_ref_read s (r_name r) w').1 = Some r
  | None => fs_files (w_fs w') !! p = fs_files (w_fs w) !! p
  end.
Proof.
  intros Hfl Hr Hp Hrun. destruct (ref_path_spec _ _ _ Hp) as (_ & _ & Hlen).
  pose proof (tmp_path_ne p Hlen) as Hne.
  destruct (ref_write_run s r w o w' p Hfl Hr Hp Hrun) as (tr & Htr & HI & HQ). split.
  - exists tr. split; [done|]. intros f disk Hf Hc. rewrite List.Forall_forall in HI.
    specialize (HI f ltac:(by apply list_elem_of_In)). split.
    + destruct (HI p ltac:(congruence)) as [E|[_ E]].
      * destruct (fs_files (w_fs w) !! p) as [x|] eqn:Ex; [intros Hs|]; left;
          [by apply (crash_synced f)|by apply (crash_absent f)].
      * assert (disk !! p = Some (enc_ref r)) by (by apply (crash_synced f disk p (mk_file (enc_ref r) true))).
        destruct (fs_files (w_fs w) !! p); auto.
    + intros q x Hqp Hqt Hx Hs. destruct (HI q Hqt) as [E|[E _]]; [|done].
      rewrite Hx in E. by apply (crash_synced f).
  - destruct o as [[]|]; [|done]. intros Ho Hrd. unfold harp_store_ref_read. rewrite Hp.
    erewrite sm_bind_run by apply read_file_run. unfold read_result. rewrite HQ, Ho, Hrd. cbn [f_data].
    rewrite take_ge by (by apply enc_ref_short).
    pose proof (decodes_ref r Hr [] (zlen_nonneg [])) as Hd. rewrite app_nil_r in Hd.
    unfold harp_cdec_init. by rewrite Hd.
Qed.

Lemma store_ref_atomic_witness :
  let R := (fun _ => true) : Realloc in
  let r := mk_ref [97; 47; 98] false (1 :: repeat 9 32) 7 true in
  let run := @harp_store_ref_write os_good no_faults R s_dir r (world_of fs_empty) in
  run.1 = Some tt /\ (@harp_store_ref_read os_good s_dir [97; 47; 98] run.2).1 = Some r.
Proof.
  intros R r run. assert (Hr : run.1 = Some tt) by (vm_compute; reflexivity). split; [exact Hr|].
  destruct run as [o w'] eqn:E. cbn [fst snd] in *. subst o.
  refine (proj2 (@store_ref_atomic os_good no_faults R s_dir (s_dir ++ s_refs ++ [47; 97; 47; 98]) r
    (world_of fs_empty) w' (Some tt) _ _ _ E) eq_refl eq_refl).
  - intros t. reflexivity.
  - split; [vm_compute; reflexivity|]. split; [repeat constructor; discriminate|].
    split; [unfold is_u64; cbn; lia|reflexivity].
  - vm_compute. reflexivity.
Defined.

(** ref names cannot escape the refs directory.  A name that [ref_path]
    accepts is put verbatim below [<store>/refs/]; it has no [..] component, does
    not start with a slash, consists of the allowed characters only, and the path
    fits the buffers; different names get different paths. *)
Theorem ref_path_confined (s name p : path) :
  ref_path s name = Some p ->
  p = s ++ s_refs ++ [SLASH] ++ name /\ (length p < HARP_STORE_PATH_MAX)%nat /\
  Forall (fun c => c <> [DOT; DOT]) (components name) /\ nth 0 name 0 <> SLASH /\
  Forall (fun c => ref_char_ok c = true) name /\
  (forall name', ref_path s name' = Some p -> name' = name).
Proof.
  intros Hp. destruct (ref_path_spec _ _ _ Hp) as (Hok & -> & Hlen).
  destruct (ref_name_ok_spec _ Hok) as (_ & H1 & H2 & H3). split_and!; try done.
  - rewrite List.Forall_forall. intros c Hc%list_elem_of_In ->.
    destruct (components_infix [] name _ Hc) as (a & b & E). by apply (H2 a b).
  - rewrite List.forallb_forall in H3. by rewrite List.Forall_forall.
  - intros name' (_ & E & _)%ref_path_spec. by apply app_inv_head, app_inv_head, app_inv_head in E.
Qed.

Lemma ref_path_confined_witness :
  ref_path s_dir [97; 47; 46; 98] = Some (s_dir ++ s_refs ++ [47; 97; 47; 46; 98]) /\
  Forall (fun c => c <> [DOT; DOT]) (components [97; 47; 46; 98]) /\
  ref_path s_dir [97; 47; 46; 46] = None.
Proof.
  split; [vm_compute; reflexivity|]. split; [|vm_compute; reflexivity].
  apply (ref_path_confined s_dir [97; 47; 46; 98] (s_dir ++ s_refs ++ [47; 97; 47; 46; 98])).
  vm_compute. reflexivity.
Defined.
