(* ===== verification/HashSet.v ===== *)
(** * The mark set of the garbage collector ([core/src/store.c], [hashset])

    An open-addressed table of object hashes with linear probing, as an array of
    keys and an array of use flags.  Its abstract state is a finite set; the
    theorem is that [hs_add] and [hs_has] implement insertion and membership and
    terminate as long as the table is not full. *)
From Stdlib Require Import ZArith Lia List.
From stdpp Require Import base tactics list numbers gmap.
From S2P Require Import Prelude.
From S2P Require Import Object.

Open Scope Z_scope.
Open Scope list_scope.

Record hashset := mk_hs { hs_keys : list harp_hash; hs_used : list bool; hs_cap : nat }.

(** [calloc(cap, sizeof(harp_hash))], [calloc(cap, 1)] *)
Definition hs_empty (cap : nat) : hashset := mk_hs (repeat (repeat 0 HARP_HASH_LEN) cap) (repeat false cap) cap.

(** [memcpy(&k, h->b, 8); k & (cap - 1)], little-endian. *)
Definition hs_slot (hs : hashset) (h : harp_hash) : nat :=
  Z.to_nat (Z.land (le_value (take 8 h)) (Z.of_nat (hs_cap hs) - 1)).

(** [(i + 1) & (cap - 1)] *)
Definition hs_next (hs : hashset) (i : nat) : nat :=
  Z.to_nat (Z.land (Z.of_nat i + 1) (Z.of_nat (hs_cap hs) - 1)).

(** The probe loops [for (;;)]; [None]: [fuel] probes were not enough. *)
Fixpoint hs_add_loop (fuel : nat) (hs : hashset) (h : harp_hash) (i : nat) : option (bool * hashset) :=
  match fuel with
  | O => None
  | S k =>
      if negb (nth i (hs_used hs) false)
      then Some (true, mk_hs (<[i := h]> (hs_keys hs)) (<[i := true]> (hs_used hs)) (hs_cap hs))
      else if memcmp (nth i (hs_keys hs) []) h =? 0 then Some (false, hs)
      else hs_add_loop k hs h (hs_next hs i)
  end.

Fixpoint hs_has_loop (fuel : nat) (hs : hashset) (h : harp_hash) (i : nat) : option bool :=
  match fuel with
  | O => None
  | S k =>
      if negb (nth i (hs_used hs) false) then Some false
      else if memcmp (nth i (hs_keys hs) []) h =? 0 then Some true
      else hs_has_loop k hs h (hs_next hs i)
  end.

(** A table has [cap] slots, so [cap] probes see all of them. *)
Definition hs_add (hs : hashset) (h : harp_hash) : option (bool * hashset) :=
  hs_add_loop (hs_cap hs) hs h (hs_slot hs h).

Definition hs_has (hs : hashset) (h : harp_hash) : option bool :=
  hs_has_loop (hs_cap hs) hs h (hs_slot hs h).

(** ** The abstraction *)

(** The [d]-th slot probed for [h]. *)
Definition hs_pos (hs : hashset) (h : harp_hash) (d : nat) : nat := ((hs_slot hs h + d) mod hs_cap hs)%nat.

Definition used_at (hs : hashset) (i : nat) : Prop := nth i (hs_used hs) false = true.

(** [hs] represents the set [S]. *)
Record hs_repr (hs : hashset) (S : gset harp_hash) : Prop := {
  hr_cap : exists n, hs_cap hs = (2 ^ n)%nat;
  hr_keys : length (hs_keys hs) = hs_cap hs;
  hr_used : length (hs_used hs) = hs_cap hs;
  hr_len : forall h, h ∈ S -> length h = HARP_HASH_LEN;
  hr_sound : forall i, (i < hs_cap hs)%nat -> used_at hs i -> nth i (hs_keys hs) [] ∈ S;
  hr_reach : forall h, h ∈ S -> exists d, (d < hs_cap hs)%nat /\
    nth (hs_pos hs h d) (hs_keys hs) [] = h /\ forall e, (e <= d)%nat -> used_at hs (hs_pos hs h e);
  hr_count : count_occ Bool.bool_dec (hs_used hs) true = size S
}.

Lemma land_pow2_mod (x : Z) (c n : nat) : c = (2 ^ n)%nat -> 0 <= x ->
  Z.to_nat (Z.land x (Z.of_nat c - 1)) = (Z.to_nat x mod c)%nat.
Proof.
  intros -> Hx. rewrite Nat2Z.inj_pow. change (Z.of_nat 2) with 2.
  rewrite land_ones_mod by lia. rewrite Z2Nat.inj_mod by (try apply Z.pow_nonneg; lia).
  f_equal. change 2 with (Z.of_nat 2). rewrite <- Nat2Z.inj_pow. apply Nat2Z.id.
Qed.

Section table.
Context (hs : hashset) (S : gset harp_hash) (Hr : hs_repr hs S).

Lemma cap_positive : (0 < hs_cap hs)%nat.
Proof. destruct (hr_cap _ _ Hr) as [n ->]. pose proof (Nat.pow_nonzero 2 n). lia. Qed.

Lemma hs_pos_lt h d : (hs_pos hs h d < hs_cap hs)%nat.
Proof. apply Nat.mod_upper_bound. pose proof cap_positive. lia. Qed.

Lemma hs_next_pos h d : hs_next hs (hs_pos hs h d) = hs_pos hs h (d + 1).
Proof.
  destruct (hr_cap _ _ Hr) as [n Hn]. unfold hs_next. rewrite (land_pow2_mod _ _ n Hn) by lia.
  pose proof cap_positive. unfold hs_pos.
  replace (Z.to_nat (Z.of_nat ((hs_slot hs h + d) mod hs_cap hs) + 1))
    with ((hs_slot hs h + d) mod hs_cap hs + 1)%nat by lia.
  rewrite Nat.Div0.add_mod_idemp_l. f_equal. lia.
Qed.

Lemma hs_slot_pos h : bytes_ok h -> hs_slot hs h = hs_pos hs h 0.
Proof.
  intros Hh. unfold hs_pos. rewrite Nat.add_0_r. symmetry. apply Nat.mod_small.
  destruct (hr_cap _ _ Hr) as [n Hn]. unfold hs_slot. rewrite (land_pow2_mod _ _ n Hn).
  - apply Nat.mod_upper_bound. pose proof cap_positive. lia.
  - apply le_value_range. by apply bytes_ok_take.
Qed.

(** Every slot is probed. *)
Lemma hs_pos_onto h i : (i < hs_cap hs)%nat -> exists d, (d < hs_cap hs)%nat /\ hs_pos hs h d = i.
Proof.
  intros Hi. pose proof cap_positive. unfold hs_pos.
  set (c := hs_cap hs) in *. set (s := (hs_slot hs h mod c)%nat).
  assert (s < c)%nat by (apply Nat.mod_upper_bound; lia).
  exists ((i + c - s) mod c)%nat. split; [apply Nat.mod_upper_bound; lia|].
  rewrite Nat.Div0.add_mod_idemp_r, <- Nat.Div0.add_mod_idemp_l. fold s.
  replace (s + (i + c - s))%nat with (i + 1 * c)%nat by lia.
  rewrite Nat.Div0.mod_add. by apply Nat.mod_small.
Qed.

Lemma count_all_true l : (forall i, (i < length l)%nat -> nth i l false = true) ->
  count_occ Bool.bool_dec l true = length l.
Proof.
  induction l as [|b l IH]; intros Hl; [done|]. cbn [count_occ length].
  pose proof (Hl 0%nat ltac:(cbn; lia)) as H0. cbn in H0. subst b. destruct (Bool.bool_dec true true); [|done].
  rewrite IH; [done|]. intros i Hi. apply (Hl (Datatypes.S i)). cbn. lia.
Qed.

(** A table that is not full has a free slot on every probe sequence. *)
Lemma free_slot h : (size S < hs_cap hs)%nat -> ~ (forall d, (d < hs_cap hs)%nat -> used_at hs (hs_pos hs h d)).
Proof.
  intros Hs Hall. pose proof (hr_count _ _ Hr) as Hc. rewrite count_all_true, (hr_used _ _ Hr) in Hc; [lia|].
  intros i Hi. rewrite (hr_used _ _ Hr) in Hi. destruct (hs_pos_onto h i Hi) as (d & Hd & <-). by apply Hall.
Qed.

(** The probes before [d] found other keys. *)
Definition probed (h : harp_hash) (d : nat) : Prop :=
  forall e, (e < d)%nat -> used_at hs (hs_pos hs h e) /\ nth (hs_pos hs h e) (hs_keys hs) [] <> h.

Lemma free_not_in h d : probed h d -> ~ used_at hs (hs_pos hs h d) -> h ∉ S.
Proof.
  intros Hp Hf Hin. destruct (hr_reach _ _ Hr h Hin) as (d0 & _ & Hk & Hu).
  destruct (decide (d0 < d)%nat) as [Hlt|Hge]; [by apply (Hp d0 Hlt)|]. apply Hf, Hu. lia.
Qed.

Lemma memcmp_key h i : length h = HARP_HASH_LEN -> (i < hs_cap hs)%nat -> used_at hs i ->
  (memcmp (nth i (hs_keys hs) []) h =? 0) = bool_decide (nth i (hs_keys hs) [] = h).
Proof.
  intros Hh Hi Hu.
  pose proof (hr_len _ _ Hr _ (hr_sound _ _ Hr i Hi Hu)) as Hl.
  case_bool_decide as E.
  - apply Z.eqb_eq. rewrite E. apply memcmp_refl.
  - apply Z.eqb_neq. intros Hm. apply E. apply memcmp_eq; [congruence|done].
Qed.

(** The common search: it stops at the key or at a free slot. *)
Lemma search_stops h : bytes_ok h -> length h = HARP_HASH_LEN -> (size S < hs_cap hs)%nat ->
  forall fuel d, (fuel + d = hs_cap hs)%nat -> probed h d ->
  exists e, (d <= e < hs_cap hs)%nat /\ probed h e /\
    ((~ used_at hs (hs_pos hs h e) /\
      hs_has_loop fuel hs h (hs_pos hs h d) = Some false /\
      hs_add_loop fuel hs h (hs_pos hs h d) =
        Some (true, mk_hs (<[hs_pos hs h e := h]> (hs_keys hs)) (<[hs_pos hs h e := true]> (hs_used hs)) (hs_cap hs))) \/
     (used_at hs (hs_pos hs h e) /\ nth (hs_pos hs h e) (hs_keys hs) [] = h /\
      hs_has_loop fuel hs h (hs_pos hs h d) = Some true /\
      hs_add_loop fuel hs h (hs_pos hs h d) = Some (false, hs))).
Proof.
  intros Hb Hh Hsz. induction fuel as [|k IH]; intros d Hf Hp.
  { exfalso. apply (free_slot h Hsz). intros e He. apply Hp. lia. }
  cbn [hs_has_loop hs_add_loop]. destruct (nth (hs_pos hs h d) (hs_used hs) false) eqn:Eu; cbn [negb].
  - rewrite memcmp_key by (done || apply hs_pos_lt). case_bool_decide as Ek.
    + exists d. split; [lia|]. split; [done|]. right. done.
    + rewrite hs_next_pos. destruct (IH (d + 1)%nat) as (e & He & Hr'); [lia| |exists e; split; [lia|done]].
      intros e He. destruct (decide (e = d)) as [->|Hne]; [done|]. apply Hp. lia.
  - exists d. split; [lia|]. split; [done|]. left. unfold used_at. rewrite Eu. done.
Qed.
End table.

Lemma count_insert_true l i : (i < length l)%nat -> nth i l false = false ->
  count_occ Bool.bool_dec (<[i := true]> l) true = Datatypes.S (count_occ Bool.bool_dec l true).
Proof.
  revert i. induction l as [|b l IH]; intros i Hi Hn; [cbn in Hi; lia|]. destruct i as [|i].
  - cbn in Hn. subst b. cbn. done.
  - cbn [nth] in Hn. change (<[Datatypes.S i := true]> (b :: l)) with (b :: <[i := true]> l). cbn [count_occ length] in *.
    rewrite (IH i) by (lia || done). by destruct (Bool.bool_dec b true).
Qed.

(** Filling the free slot the search stopped at. *)
Lemma hs_repr_insert hs S h e : hs_repr hs S -> length h = HARP_HASH_LEN -> (e < hs_cap hs)%nat ->
  probed hs h e -> ~ used_at hs (hs_pos hs h e) ->
  hs_repr (mk_hs (<[hs_pos hs h e := h]> (hs_keys hs)) (<[hs_pos hs h e := true]> (hs_used hs)) (hs_cap hs)) ({[h]} ∪ S).
Proof.
  intros Hr Hh He Hp Hf. pose proof (free_not_in hs S Hr h e Hp Hf) as Hnin.
  set (i := hs_pos hs h e) in *. assert (i < hs_cap hs)%nat as Hi by (by apply (hs_pos_lt hs S)).
  set (hs' := mk_hs _ _ _).
  assert (forall k d, hs_pos hs' k d = hs_pos hs k d) as Hpos by done.
  assert (forall j, used_at hs j -> used_at hs' j) as Hmono.
  { intros j Hj. unfold used_at, hs' in *. cbn [hs_used]. rewrite nth_lookup in *.
    destruct (decide (j = i)) as [->|Hne]; [rewrite list_lookup_insert_eq by (rewrite (hr_used _ _ Hr); lia); done|].
    by rewrite list_lookup_insert_ne. }
  assert (used_at hs' i) as Hui.
  { unfold used_at, hs'. cbn [hs_used]. rewrite nth_lookup, list_lookup_insert_eq by (rewrite (hr_used _ _ Hr); lia). done. }
  assert (nth i (hs_keys hs') [] = h) as Hki.
  { unfold hs'. cbn [hs_keys]. rewrite nth_lookup, list_lookup_insert_eq by (rewrite (hr_keys _ _ Hr); lia). done. }
  assert (forall j, j <> i -> nth j (hs_keys hs') [] = nth j (hs_keys hs) []) as Hkne.
  { intros j Hj. unfold hs'. cbn [hs_keys]. rewrite !nth_lookup. by rewrite list_lookup_insert_ne. }
  split.
  - apply (hr_cap _ _ Hr).
  - cbn [hs_keys hs' hs_cap]. rewrite length_insert. apply (hr_keys _ _ Hr).
  - cbn [hs_used hs' hs_cap]. rewrite length_insert. apply (hr_used _ _ Hr).
  - intros k. rewrite elem_of_union, elem_of_singleton. intros [-> |Hk]; [done|]. by apply (hr_len _ _ Hr).
  - intros j Hj Hu. apply elem_of_union. destruct (decide (j = i)) as [->|Hne].
    + left. rewrite Hki. by apply elem_of_singleton.
    + right. rewrite Hkne by done. apply (hr_sound _ _ Hr); [done|]. unfold used_at, hs' in *. cbn [hs_used] in Hu.
      rewrite nth_lookup in *. by rewrite list_lookup_insert_ne in Hu.
  - intros k. rewrite elem_of_union, elem_of_singleton. intros [-> |Hk].
    + exists e. split; [done|]. rewrite Hpos. fold i. split; [done|]. intros e' He'. rewrite Hpos.
      destruct (decide (e' = e)) as [->|Hne]; [done|]. apply Hmono, Hp. lia.
    + destruct (hr_reach _ _ Hr k Hk) as (d & Hd & Hkd & Hu). exists d. split; [done|]. rewrite Hpos. split.
      * rewrite Hkne; [done|]. intros E. apply Hf. fold i. rewrite <- E. apply Hu. lia.
      * intros e' He'. rewrite Hpos. by apply Hmono, Hu.
  - cbn [hs_used hs']. rewrite count_insert_true.
    + rewrite (hr_count _ _ Hr). rewrite size_union by set_solver. by rewrite size_singleton.
    + rewrite (hr_used _ _ Hr). lia.
    + unfold used_at in Hf. fold i in Hf. by apply not_true_is_false.
Qed.

Lemma hs_repr_empty n : hs_repr (hs_empty (2 ^ n)) ∅.
Proof.
  split; cbn [hs_empty hs_cap hs_keys hs_used]; rewrite ?repeat_length; eauto; try set_solver.
  - intros i Hi Hu. unfold used_at in Hu. cbn [hs_used hs_empty] in Hu. by rewrite nth_repeat in Hu.
  - rewrite size_empty. generalize (2 ^ n)%nat. intros m. induction m as [|m IH]; [done|]. cbn [repeat count_occ]. done.
Qed.

(** Both operations on a table that is not full. *)
Lemma hs_ops hs S h : hs_repr hs S -> bytes_ok h -> length h = HARP_HASH_LEN -> (size S < hs_cap hs)%nat ->
  hs_has hs h = Some (bool_decide (h ∈ S)) /\
  exists hs', hs_add hs h = Some (negb (bool_decide (h ∈ S)), hs') /\ hs_repr hs' ({[h]} ∪ S) /\ hs_cap hs' = hs_cap hs.
Proof.
  intros Hr Hb Hh Hs.
  destruct (search_stops hs S Hr h Hb Hh Hs (hs_cap hs) 0 ltac:(lia)) as (e & He & Hp & Hcase).
  { intros e He. lia. }
  unfold hs_has, hs_add. rewrite (hs_slot_pos hs S Hr h Hb).
  destruct Hcase as [(Hf & -> & ->)|(Hu & Hk & -> & ->)].
  - pose proof (free_not_in hs S Hr h e Hp Hf). rewrite bool_decide_eq_false_2 by done. split; [done|].
    eexists. split; [reflexivity|]. split; [|done]. apply hs_repr_insert; done || lia.
  - assert (h ∈ S) as Hin by (rewrite <- Hk; apply (hr_sound _ _ Hr); [apply (hs_pos_lt hs S Hr)|done]).
    rewrite bool_decide_eq_true_2 by done. split; [done|]. exists hs. split; [done|]. split; [|done].
    by rewrite subseteq_union_1_L by set_solver.
Qed.

(** A table has no more keys than slots. *)
Lemma hs_repr_size hs S : hs_repr hs S -> (size S <= hs_cap hs)%nat.
Proof.
  intros Hr. rewrite <- (hr_count _ _ Hr), <- (hr_used _ _ Hr).
  induction (hs_used hs) as [|b l IH]; cbn; [lia|]. destruct (Bool.bool_dec b true); lia.
Qed.

Lemma count_full l i : count_occ Bool.bool_dec l true = length l -> (i < length l)%nat -> nth i l false = true.
Proof.
  revert i. induction l as [|b l IH]; intros i Hc Hi; [cbn in Hi; lia|]. cbn [count_occ length] in *.
  assert (count_occ Bool.bool_dec l true <= length l)%nat by (clear; induction l as [|b l IH]; cbn; [lia|]; destruct (Bool.bool_dec b true); lia).
  destruct (Bool.bool_dec b true) as [->|]; [|lia]. destruct i; [done|]. apply IH; lia.
Qed.

(** The probe for a hash that a full table does not hold never ends. *)
Lemma hs_full hs S h : hs_repr hs S -> bytes_ok h -> length h = HARP_HASH_LEN -> size S = hs_cap hs ->
  h ∉ S -> hs_add hs h = None /\ hs_has hs h = None.
Proof.
  intros Hr Hb Hh Hs Hn. unfold hs_add, hs_has. rewrite (hs_slot_pos hs S Hr h Hb).
  generalize 0%nat as d. generalize (hs_cap hs) as k.
  induction k as [|k IH]; intros d; [done|]. cbn [hs_add_loop hs_has_loop].
  assert (used_at hs (hs_pos hs h d)) as Hu.
  { apply count_full; rewrite (hr_used _ _ Hr); [by rewrite (hr_count _ _ Hr)|by apply (hs_pos_lt hs S)]. }
  pose proof Hu as Hu'. unfold used_at in Hu'. rewrite Hu'. cbn [negb].
  rewrite (memcmp_key hs S Hr) by (done || by apply (hs_pos_lt hs S)). case_bool_decide as E.
  - exfalso. apply Hn. rewrite <- E. apply (hr_sound _ _ Hr); [by apply (hs_pos_lt hs S)|done].
  - rewrite (hs_next_pos hs S Hr). apply IH.
Qed.

(** A hash that is in the set is found, be the table full or not. *)
Lemma hs_found hs S h : hs_repr hs S -> bytes_ok h -> h ∈ S ->
  hs_add hs h = Some (false, hs) /\ hs_has hs h = Some true.
Proof.
  intros Hr Hb Hin. pose proof (hr_len _ _ Hr _ Hin) as Hh.
  destruct (hr_reach _ _ Hr h Hin) as (d & Hd & Hk & Hu). unfold hs_add, hs_has. rewrite (hs_slot_pos hs S Hr h Hb).
  assert (forall fuel e, (e <= d)%nat -> (d < fuel + e)%nat ->
    hs_add_loop fuel hs h (hs_pos hs h e) = Some (false, hs) /\ hs_has_loop fuel hs h (hs_pos hs h e) = Some true) as H.
  { induction fuel as [|k IH]; intros e He Hf; [lia|]. cbn [hs_add_loop hs_has_loop].
    pose proof (Hu e He) as Hue. unfold used_at in Hue. rewrite Hue. cbn [negb].
    rewrite (memcmp_key hs S Hr) by (try done; try by apply (hs_pos_lt hs S)). case_bool_decide as E; [done|].
    rewrite (hs_next_pos hs S Hr). assert (e <> d) by (intros ->; done). apply IH; lia. }
  apply H; lia.
Qed.

(** the mark set is a set.  As long as the table (a power of two slots) is
    not full, [hs_has] and [hs_add] terminate within one round of probes; [hs_has]
    answers membership, [hs_add] returns whether the hash is new and leaves a table
    that represents the set with it added, in the same slots. *)
Theorem hashset_refines (hs : hashset) (S : gset harp_hash) (h : harp_hash) :
  hs_repr hs S -> bytes_ok h -> length h = HARP_HASH_LEN -> (size S < hs_cap hs)%nat ->
  hs_has hs h = Some (bool_decide (h ∈ S)) /\
  exists hs', hs_add hs h = Some (negb (bool_decide (h ∈ S)), hs') /\ hs_repr hs' ({[h]} ∪ S) /\ hs_cap hs' = hs_cap hs.
Proof. apply hs_ops. Qed.

Lemma hashset_refines_witness :
  let h := 1 :: repeat 5 32 in
  hs_has (hs_empty 16) h = Some false /\
  exists hs', hs_add (hs_empty 16) h = Some (true, hs') /\ hs_repr hs' ({[h]} ∪ ∅).
Proof.
  intros h. destruct (hashset_refines (hs_empty 16) ∅ h) as [H1 (hs' & H2 & H3 & _)].
  - apply (hs_repr_empty 4).
  - repeat constructor; unfold is_u8; cbn; lia.
  - reflexivity.
  - rewrite size_empty. cbn. lia.
  - rewrite bool_decide_eq_false_2 in H1, H2 by apply not_elem_of_empty.
    split; [exact H1|]. exists hs'. split; [exact H2|exact H3].
Defined.
