(* ===== verification/GcMark.v ===== *)
(** * The mark phase

    The depth-first marking of [StoreGc.mark_obj] against the abstract reachability
    relation of the stored objects: unless it aborts, or the table is full and it
    does not return, the set it leaves is closed under references, contains the
    root, and holds nothing that is not reachable from the root.  The recursion
    bound of the model is never met.  Reads may fail at
    any time (they abort the marking); the file system does not change. *)
From Stdlib Require Import ZArith Lia List.
From stdpp Require Import base tactics list numbers gmap.
From S2P Require Import Prelude.
From S2P Require Import Cbuf.
From S2P Require Import Object.
From S2P Require Import ObjectWalk.
From S2P Require Import Fs.
From S2P Require Import Store.
From S2P Require Import HashSet.
From S2P Require Import StoreGc.

Open Scope Z_scope.
Open Scope list_scope.

(** The stored encoding of an object. *)
Definition obj_data (s : path) (f : fs) (h : harp_hash) : option (list Z) :=
  f_data <$> (fs_files f !! obj_path s h).

(** The object is stored and its references can be enumerated to the end. *)
Definition good_obj (s : path) (f : fs) (h : harp_hash) : Prop :=
  exists e, obj_data s f h = Some e /\ (child_hashes false e).1 = true.

(** [y] is a reference of the stored object [x]. *)
Definition refers (s : path) (f : fs) (x y : harp_hash) : Prop :=
  exists e, obj_data s f x = Some e /\ y ∈ (child_hashes false e).2.

Inductive reach (s : path) (f : fs) (h : harp_hash) : harp_hash -> Prop :=
  | reach_root : reach s f h h
  | reach_step x y : reach s f h x -> refers s f x y -> reach s f h y.

Lemma reach_left s f h x y : refers s f h x -> reach s f x y -> reach s f h y.
Proof.
  intros Hx. induction 1 as [|y z _ IH Hz]; [|by eapply reach_step].
  eapply reach_step; [apply reach_root|done].
Qed.

(** The bytes on disk are bytes. *)
Definition files_ok (f : fs) : Prop := forall p x, fs_files f !! p = Some x -> bytes_ok (f_data x).

(** Files can be opened and read to the end, and memory is available. *)
Definition reads_ok {Os : OS} {R : Realloc} : Prop :=
  (forall t, os_open t = true) /\ (forall t, os_read t = None) /\ realloc_total R.

Section mark.
Context {Os : OS} {R : Realloc} (s : path) (f0 : fs) (Hfiles : files_ok f0).
(** The table's size. *)
Context (cap : nat).

Definition sane (st : world * markst) : Prop := w_fs st.1 = f0 /\ mk_hung st.2 = false.

(** Marking the roots [l] was aborted; if reads are reliable, for a reason. *)
Definition mark_bad (l : list harp_hash) (st : world * markst) : Prop :=
  sane st /\ mk_aborted st.2 = true /\
  (reads_ok -> exists h x, h ∈ l /\ reach s f0 h x /\ ~ good_obj s f0 x).

Definition mark_ok (st : world * markst) (S : gset harp_hash) : Prop :=
  sane st /\ mk_aborted st.2 = false /\ hs_repr (mk_set st.2) S /\ hs_cap (mk_set st.2) = cap /\
  forall h, h ∈ S -> is_hash h /\ is_Some (obj_data s f0 h).

(** What marking from the roots [l] adds to [S]. *)
Definition mark_adds (l : list harp_hash) (S S' : gset harp_hash) : Prop :=
  S ⊆ S' /\ (forall h, h ∈ l -> h ∈ S') /\
  forall x, x ∈ S' -> x ∉ S ->
    good_obj s f0 x /\ (forall y, refers s f0 x y -> y ∈ S') /\ exists h, h ∈ l /\ reach s f0 h x.

(** Marking did not return: the table is full, and what it holds besides [S] is
    stored and was reached from [l]. *)
Definition mark_full (l : list harp_hash) (S : gset harp_hash) (st : world * markst) : Prop :=
  w_fs st.1 = f0 /\ mk_hung st.2 = true /\ exists S' : gset harp_hash, (cap <= size S')%nat /\
  forall x, x ∈ S' -> x ∉ S -> is_hash x /\ is_Some (obj_data s f0 x) /\ exists h, h ∈ l /\ reach s f0 h x.

Definition mark_post (l : list harp_hash) (S : gset harp_hash) (st : world * markst) : Prop :=
  mark_bad l st \/ mark_full l S st \/ exists S', mark_ok st S' /\ mark_adds l S S'.

Definition mark_cb (k : nat) : harp_hash_cb (world * markst) :=
  fun c st => let st' := mark_obj k s c st in (negb (mk_aborted st'.2), st').

Lemma mark_obj_aborted k h st : mk_aborted st.2 = true -> mark_obj k s h st = st.
Proof. intros Ha. destruct st as [w m]. cbn in Ha. destruct k; cbn [mark_obj]; by rewrite Ha. Qed.

Lemma mark_obj_hung k h st : mk_hung st.2 = true -> mark_obj k s h st = st.
Proof. intros Ha. destruct st as [w m]. cbn in Ha. destruct k; cbn [mark_obj]; by rewrite Ha, orb_true_r. Qed.

Lemma run_all_hung k l st : mk_hung st.2 = true -> run_all (mark_cb k) l st = st.
Proof.
  intros Ha. unfold run_all. induction l as [|h l IH]; [done|]. cbn [fold_left mark_cb snd].
  by rewrite mark_obj_hung.
Qed.

(** More roots, a smaller set to start from. *)
Lemma mark_full_weaken l l' S S' st : mark_full l S st ->
  (forall x, x ∈ S -> x ∉ S' -> is_hash x /\ is_Some (obj_data s f0 x) /\ exists h, h ∈ l' /\ reach s f0 h x) ->
  (forall h x, h ∈ l -> reach s f0 h x -> exists h', h' ∈ l' /\ reach s f0 h' x) -> mark_full l' S' st.
Proof.
  intros (H1 & H2 & S1 & H3 & H4) HS Hl. split_and!; [done|done|]. exists S1. split; [done|]. intros x Hx Hn.
  destruct (decide (x ∈ S)) as [Hin|Hni]; [by apply HS|]. destruct (H4 x Hx Hni) as (G1 & G2 & h & Hh & Hr).
  split_and!; [done|done|]. by apply (Hl h).
Qed.

Lemma run_all_aborted k l st : mk_aborted st.2 = true -> run_all (mark_cb k) l st = st.
Proof.
  intros Ha. unfold run_all. induction l as [|h l IH]; [done|]. cbn [fold_left mark_cb snd].
  by rewrite mark_obj_aborted.
Qed.

(** Stopping at the first refusal and going on are the same here. *)
Lemma run_until_all k l st : run_until (mark_cb k) l st = run_all (mark_cb k) l st.
Proof.
  revert st. induction l as [|h l IH]; intros st; [done|]. cbn [run_until].
  unfold run_all. cbn [fold_left]. unfold mark_cb at 1 3. cbn [fst snd].
  destruct (mk_aborted (mark_obj k s h st).2) eqn:Ea; cbn [negb]; [|apply IH].
  symmetry. by apply run_all_aborted.
Qed.

Lemma get_run h w : w_fs w = f0 ->
  exists r w1, harp_store_get s h harp_cbuf_init w = (Some r, w1) /\ w_fs w1 = f0 /\
    (r.1 = true -> obj_data s f0 h = Some (cb_buf r.2)) /\ (reads_ok -> r.1 = false -> obj_data s f0 h = None).
Proof.
  intros Hw. unfold harp_store_get. erewrite sm_bind_run by apply read_file_run.
  eexists _, _. split; [reflexivity|]. cbn [w_fs]. split; [done|]. rewrite Hw. unfold read_result, obj_data.
  destruct (fs_files f0 !! obj_path s h) as [x|]; [|by destruct (os_open _ && _)].
  destruct (os_open (w_clock w)) eqn:Eo; [|split; [done|]; intros (Ho & _); by rewrite Ho in Eo].
  destruct (os_read (w_clock w)) as [k|] eqn:Er; [split; [done|]; intros (_ & Hr & _); by rewrite Hr in Er|].
  cbn [fst snd orb fmap option_fmap option_map]. split.
  - intros Ho. apply negb_true_iff in Ho. by rewrite (get_loop_spec _ _ _ (le_n _) Ho).
  - intros (_ & _ & Ht). by rewrite get_loop_total.
Qed.

Definition mark_correct (k : nat) : Prop := forall h st S,
  mark_ok st S -> is_hash h -> (cap < k + size S)%nat -> mark_post [h] S (mark_obj k s h st).

(** A list of roots, one after the other. *)
Lemma mark_list k l : mark_correct k -> forall st S,
  mark_ok st S -> Forall is_hash l -> (cap < k + size S)%nat -> mark_post l S (run_all (mark_cb k) l st).
Proof.
  intros Hk. induction l as [|h l IH]; intros st S Hok Hl Hsz.
  { right. right. exists S. split; [done|]. split_and!; [done|by intros h ?%elem_of_nil|done]. }
  apply Forall_cons_iff in Hl as [Hh Hl]. unfold run_all. cbn [fold_left mark_cb snd].
  destruct (Hk h st S Hok Hh Hsz) as [Hbad|[Hfull|(S1 & Hok1 & H1 & H2 & H3)]].
  { left. change (mark_bad (h :: l) (run_all (mark_cb k) l (mark_obj k s h st))).
    destruct Hbad as (Hsane & Hab & Hwhy). rewrite run_all_aborted by done. split_and!; [done|done|].
    intros Hrd. destruct (Hwhy Hrd) as (h' & x & ->%list_elem_of_singleton & Hx). exists h, x. split; [by left|done]. }
  { right. left. change (mark_full (h :: l) S (run_all (mark_cb k) l (mark_obj k s h st))).
    rewrite run_all_hung by apply Hfull. apply (mark_full_weaken _ _ _ _ _ Hfull); [done|].
    intros h' x ->%list_elem_of_singleton Hx. exists h. split; [by left|done]. }
  assert (size S <= size S1)%nat by (by apply subseteq_size).
  destruct (IH (mark_obj k s h st) S1 Hok1 Hl ltac:(lia)) as [(Hsane & Hab & Hwhy)|[Hfull|(S2 & Hok2 & G1 & G2 & G3)]].
  { left. split_and!; [done|done|]. intros Hrd. destruct (Hwhy Hrd) as (h' & x & Hin & Hx). exists h', x. split; [by right|done]. }
  { right. left. apply (mark_full_weaken _ _ _ _ _ Hfull).
    - intros x Hx Hn. destruct (H3 x Hx Hn) as ((e & He & _) & _ & h' & ->%list_elem_of_singleton & Hr).
      destruct Hok1 as (_ & _ & _ & _ & HS1). destruct (HS1 x Hx) as [? ?]. split_and!; [done|done|]. exists h. split; [by left|done].
    - intros h' x Hh' Hx. exists h'. split; [by right|done]. }
  right. right. exists S2. split; [done|]. split_and!.
  - set_solver.
  - intros x [-> |Hx]%elem_of_cons; [|by apply G2]. apply G1, H2. by left.
  - intros x Hx HxS. destruct (decide (x ∈ S1)) as [Hx1|Hx1].
    + destruct (H3 x Hx1 HxS) as (Hg & Hc & h' & Hh' & Hr). split; [done|]. split.
      * intros y Hy. by apply G1, Hc.
      * exists h'. split; [|done]. apply list_elem_of_singleton in Hh' as ->. by left.
    + destruct (G3 x Hx Hx1) as (Hg & Hc & h' & Hh' & Hr). split_and!; [done|done|]. exists h'. split; [by right|done].
Qed.

Lemma mark_obj_correct k : mark_correct k.
Proof.
  induction k as [|k IH]; intros h st S Hok Hh Hsz.
  { exfalso. destruct Hok as (_ & _ & Hrepr & Hc & _). pose proof (hs_repr_size _ _ Hrepr). lia. }
  destruct st as [w m]. destruct Hok as ((Hw & Hhung) & Hab & Hrepr & Hc & HS). cbn [fst snd] in *.
  destruct (decide (h ∈ S /\ size S = cap)) as [[Hin Hfull]|Hnf].
  { cbn [mark_obj]. rewrite Hab, Hhung. cbn [orb].
    rewrite (proj1 (hs_found _ S h Hrepr (proj1 Hh) Hin)). right. right. exists S. split; [by split_and!|].
    split_and!; [done| |done]. by intros x ->%list_elem_of_singleton. }
  pose proof (hs_repr_size _ _ Hrepr) as HszS.
  destruct (decide (size S = cap)) as [Hfull|Hroom].
  { cbn [mark_obj]. rewrite Hab, Hhung. cbn [orb].
    rewrite (proj1 (hs_full _ S h Hrepr (proj1 Hh) (proj2 Hh) ltac:(congruence) ltac:(tauto))). right. left.
    split_and!; [done|done|]. exists S. split; [lia|done]. }
  destruct (hs_ops (mk_set m) S h Hrepr (proj1 Hh) (proj2 Hh) ltac:(lia)) as (_ & set' & Hadd & Hrepr' & Hcap').
  cbn [mark_obj]. rewrite Hab, Hhung. cbn [orb]. rewrite Hadd.
  destruct (bool_decide_reflect (h ∈ S)) as [Hin|Hnin]; cbn [negb].
  { right. right. exists S. split; [by split_and!|]. split_and!; [done| |done].
    by intros x ->%list_elem_of_singleton. }
  destruct (get_run h w Hw) as ([ok enc] & w1 & -> & Hw1 & Hdata & Hmiss). cbn [fst snd] in Hdata, Hmiss.
  destruct ok.
  2: { left. split_and!; [done|done|]. intros Hrd. exists h, h. split_and!; [by left|constructor|].
    intros (e & He & _). by rewrite Hmiss in He. } specialize (Hdata eq_refl).
  set (S1 := {[h]} ∪ S) in *. set (st1 := (w1, mk_mark set' false false)).
  assert (mark_ok st1 S1) as Hok1.
  { split_and!; try done; [cbn; congruence|]. intros x [->%elem_of_singleton|Hx]%elem_of_union; [|by apply HS].
    split; [done|]. by rewrite Hdata. }
  assert (size S1 = Datatypes.S (size S)) as HszS1.
  { unfold S1. rewrite size_union by set_solver. by rewrite size_singleton. }
  assert (bytes_ok (cb_buf enc)) as Hb.
  { unfold obj_data in Hdata. destruct (fs_files f0 !! obj_path s h) as [x|] eqn:Ex; [|done].
    injection Hdata as <-. by apply (Hfiles _ _ Ex). }
  fold (mark_cb k). rewrite foreach_children.
  destruct (child_hashes false (cb_buf enc)) as [cok l] eqn:Ech. cbn [fst snd].
  assert ((if is_tree (cb_buf enc) then run_until (mark_cb k) l st1 else run_all (mark_cb k) l st1)
    = run_all (mark_cb k) l st1) as -> by (case_match; [apply run_until_all|done]).
  pose proof (children_hashes (cb_buf enc) false Hb) as Hl. rewrite Ech in Hl. cbn [snd] in Hl.
  pose proof (mark_list k l IH st1 S1 Hok1 Hl ltac:(lia)) as Hpost.
  destruct (run_all (mark_cb k) l st1) as [w2 m2].
  assert (cok = false -> ~ good_obj s f0 h) as Hcok.
  { intros -> (e & He & Hg). rewrite Hdata in He. injection He as <-. by rewrite Ech in Hg. }
  destruct Hpost as [((Hw2 & Hh2) & Hab2 & Hwhy)|[Hfull|(S2 & Hok2 & H1 & H2 & H3)]].
  { left. destruct cok; (split_and!; [done|done|]); intros Hrd.
    - destruct (Hwhy Hrd) as (c & x & Hcin & Hx & Hbad). exists h, x. split_and!; [by left| |done].
      apply (reach_left _ _ _ c); [|done]. exists (cb_buf enc). by rewrite Ech.
    - exists h, h. split_and!; [by left|constructor|by apply Hcok]. }
  { assert (mark_full [h] S (w2, m2)) as Hf.
    { apply (mark_full_weaken _ _ _ _ _ Hfull).
      - intros x [->%elem_of_singleton|]%elem_of_union Hn; [|done]. split_and!; [done|by rewrite Hdata|].
        exists h. split; [by left|constructor].
      - intros c x Hcin Hx. exists h. split; [by left|]. apply (reach_left _ _ _ c); [|done].
        exists (cb_buf enc). by rewrite Ech. }
    right. left. by destruct cok. }
  destruct cok.
  2: { left; destruct Hok2 as [[? ?] _]; split_and!; [done|done|]. intros _.
    exists h, h. split_and!; [by left|constructor|by apply Hcok]. }
  right. right. exists S2. split; [done|]. split_and!.
  - set_solver.
  - intros x ->%list_elem_of_singleton. apply H1. set_solver.
  - intros x Hx HxS. destruct (decide (x = h)) as [->|Hne].
    + split_and!.
      * exists (cb_buf enc). by rewrite Ech.
      * intros y (e & He & Hy). rewrite Hdata in He. injection He as <-. rewrite Ech in Hy. by apply H2.
      * exists h. split; [by left|constructor].
    + destruct (H3 x Hx ltac:(set_solver)) as (Hg & Hcl & h' & Hh' & Hr). split_and!; [done|done|].
      exists h. split; [by left|]. apply (reach_left _ _ _ h'); [|done].
      exists (cb_buf enc). by rewrite Ech.
Qed.
End mark.
