(* ===== verification/GcWalk.v ===== *)
(** * Walking the refs

    What [harp_store_ref_list] does with its callback: it calls it on refs that
    are on disk only, and - when directories can be listed and files read - on
    every ref whose name has only visible components. *)
From Stdlib Require Import ZArith Lia List.
From stdpp Require Import base tactics list numbers gmap.
From S2P Require Import Prelude.
From S2P Require Import Cbuf.
From S2P Require Import CborDec.
From S2P Require Import Object.
From S2P Require Import Fs.
From S2P Require Import Store.
From S2P Require Import StoreGc.

Open Scope Z_scope.
Open Scope list_scope.

(** ** Path arithmetic *)

(** A path component the walk descends into or reads. *)
Definition visible (c : path) : Prop :=
  c <> [] /\ (SLASH ∉ c) /\ (nth 0 c 0 <> DOT) /\ strstr s_tmp c = false.

(** The name with the given components below [rel]. *)
Definition join_all (rel : path) (cs : list path) : path := fold_left join_rel cs rel.

Lemma join_rel_nil d : join_rel [] d = d.
Proof. done. Qed.

Lemma join_rel_cons r d : r <> [] -> join_rel r d = r ++ [SLASH] ++ d.
Proof. by destruct r. Qed.

Lemma join_rel_nonempty r d : d <> [] -> join_rel r d <> [].
Proof. unfold join_rel. destruct r, d; cbn; done. Qed.

Lemma join_all_extends rel cs : rel <> [] -> cs <> [] -> exists b, join_all rel cs = rel ++ [SLASH] ++ b.
Proof.
  revert rel. induction cs as [|c cs IH]; intros rel Hr Hc; [done|]. cbn [join_all fold_left].
  rewrite join_rel_cons by done. destruct cs as [|c' cs]; [by exists c|].
  destruct (IH (rel ++ [SLASH] ++ c)) as [b Hb]; [by destruct rel|done|].
  unfold join_all in Hb. rewrite Hb. exists (c ++ [SLASH] ++ b). by rewrite <- !app_assoc.
Qed.

Lemma strstr_app_l pat a b : strstr pat (a ++ b) = false -> strstr pat a = false.
Proof.
  revert b. induction a as [|x a IH]; intros b; cbn [strstr app].
  - destruct b as [|y b]; [done|]. cbn [strstr]. intros [H1 _]%orb_false_iff. rewrite orb_false_r.
    apply bool_decide_eq_false in H1. apply bool_decide_eq_false. intros E. apply H1.
    destruct pat; [done|discriminate].
  - intros [H1 H2]%orb_false_iff. rewrite (IH b H2), orb_false_r.
    apply bool_decide_eq_false in H1. apply bool_decide_eq_false. intros E. apply H1.
    assert (length pat <= length (x :: a))%nat as Hl by (rewrite <- E, length_take; lia).
    rewrite app_comm_cons. by rewrite take_app_le.
Qed.

(** A name without its last components is a valid name too. *)
Lemma ref_name_ok_prefix r b : r <> [] -> (forall a, r <> a ++ [SLASH]) ->
  ref_name_ok (r ++ [SLASH] ++ b) = true -> ref_name_ok r = true.
Proof.
  intros Hr Hlast Hok. assert (strstr [DOT; DOT] r = false) as Hs.
  { unfold ref_name_ok in Hok. cbv zeta in Hok. do 2 (destruct (_ || _)%bool; [done|]).
    destruct (strstr [DOT; DOT] (r ++ [SLASH] ++ b)) eqn:E; [done|]. by apply strstr_app_l in E. }
  apply ref_name_ok_spec in Hok as (Hl & H0 & _ & Hc). rewrite length_app in Hl. cbn [app length] in Hl.
  rewrite forallb_app in Hc. apply andb_prop in Hc as [Hc _].
  unfold ref_name_ok. cbv zeta. rewrite Hs, Hc.
  assert (0 < length r)%nat by (destruct r; [done|cbn; lia]).
  rewrite (proj2 (Nat.eqb_neq _ 0)), (proj2 (Nat.leb_gt _ _)) by lia. cbn [orb].
  rewrite app_nth1 in H0 by done. rewrite (proj2 (Z.eqb_neq _ _) H0). cbn [orb].
  destruct (Z.eqb_spec (nth (length r - 1) r 0) SLASH) as [E|E]; [|done].
  exfalso. destruct (exists_last Hr) as (a & x & ->). apply (Hlast a). rewrite length_app in E. cbn [length] in E.
  rewrite app_nth2 in E by lia. replace (length a + 1 - 1 - length a)%nat with 0%nat in E by lia. cbn in E. by subst.
Qed.

Lemma ref_path_prefix s r b p : r <> [] -> (forall a, r <> a ++ [SLASH]) ->
  ref_path s (r ++ [SLASH] ++ b) = Some p -> ref_path s r = Some (s ++ s_refs ++ [SLASH] ++ r).
Proof.
  intros Hr Hlast Hp. destruct (ref_path_spec _ _ _ Hp) as (Hok & -> & Hl).
  pose proof (ref_name_ok_prefix r b Hr Hlast Hok) as Hokr. unfold ref_path. rewrite Hokr. cbn [negb].
  apply ref_name_ok_spec in Hokr as (Hlr & _). unfold fs_from_ref, HARP_REF_NAME_MAX in *.
  destruct (Nat.ltb_spec (3 * 160) (length r + 1)); [lia|]. cbn [mbind option_bind].
  rewrite !length_app in *. cbn [app length] in *. rewrite ?length_app in *.
  rewrite (proj2 (Nat.leb_gt _ _)) by lia. done.
Qed.

Lemma visible_join_last r c : visible c -> forall a, join_rel r c <> a ++ [SLASH].
Proof.
  intros (Hne & Hs & _) a E. destruct (exists_last Hne) as (c' & x & ->). unfold join_rel in E.
  rewrite !app_assoc in E. apply app_inj_tail in E as [_ ->]. apply Hs. apply list_elem_of_In, in_or_app. right. by left.
Qed.

Lemma path_kind_run {U} p w (u : U) : on_fst (path_kind p) (w, u) =
  (Some (if exists_path (w_fs w) p then Some (bool_decide (p ∈ fs_dirs (w_fs w))) else None), (w, u)).
Proof. done. Qed.

Lemma list_dir_run' {Os : OS} {U} p w (u : U) : on_fst (list_dir p) (w, u) =
  (Some (if os_opendir (w_clock w) && bool_decide (p ∈ fs_dirs (w_fs w))
         then Some (os_order (w_clock w) ([DOT] :: [DOT; DOT] :: children (w_fs w) p)) else None),
   (mk_world (w_fs w) (S (w_clock w)) (w_trace w), u)).
Proof. done. Qed.

Section walk.
Context {Os : OS} {U : Type} (s : path) (f0 : fs) (cb : harp_ref -> SM (world * U) unit).

(** *** What holds throughout *)

(** [P] holds of every ref the reader can return, [Inv] of the user data. *)
Context (P : harp_ref -> Prop) (Inv : U -> Prop).
Context (Hread : forall name w r w', w_fs w = f0 -> harp_store_ref_read s name w = (Some r, w') -> P r).

Definition keeps_inv (m : SM (world * U) unit) : Prop :=
  forall w u, w_fs w = f0 -> Inv u -> w_fs (m (w, u)).2.1 = f0 /\ Inv (m (w, u)).2.2.

Context (Hcb : forall r, P r -> keeps_inv (cb r)).

Lemma ref_read_fs name w : w_fs (harp_store_ref_read s name w).2 = w_fs w.
Proof.
  unfold harp_store_ref_read. destruct (ref_path s name) as [p|]; [|done].
  erewrite sm_bind_run by apply read_file_run. repeat case_match; done.
Qed.

Lemma keeps_each (f : path -> SM (world * U) unit) l : (forall x, x ∈ l -> keeps_inv (f x)) -> keeps_inv (each f l).
Proof.
  induction l as [|x l IH]; intros Hf w u Hw Hu; [done|]. cbn [each]. unfold mbind, SM_bind.
  destruct (Hf x ltac:(by left) w u Hw Hu) as [H1 H2]. destruct (f x (w, u)) as [[[]|] [w1 u1]]; [|done].
  apply IH; [|done|done]. intros y Hy. apply Hf. by right.
Qed.

Lemma keeps_walk_one (wk : path -> SM (world * U) unit) rel d :
  (forall r, keeps_inv (wk r)) -> keeps_inv (walk_one wk s rel cb d).
Proof.
  intros Hwk w u Hw Hu. unfold walk_one. destruct (_ =? _); [done|]. destruct (strstr _ _); [done|].
  destruct (ref_from_fs _ _) as [dlog|]; [|done]. cbv zeta. destruct (_ <=? _)%nat; [done|].
  destruct (ref_path s _) as [cpath|]; [|done]. erewrite sm_bind_run by apply path_kind_run.
  destruct (exists_path _ _); [|done]. case_bool_decide.
  - unfold ignore. cbn [snd]. by apply Hwk.
  - unfold if_ok, ignore, on_fst. cbn [fst snd]. pose proof (ref_read_fs (join_rel rel dlog) w) as Hfs.
    destruct (harp_store_ref_read s (join_rel rel dlog) w) as [[r|] w1] eqn:Er; cbn [snd] in *; [|cbn [fst snd]; by rewrite Hfs].
    apply Hcb; [by apply (Hread _ _ _ _ Hw Er)|congruence|done].
Qed.

Lemma keeps_walk fuel rel : keeps_inv (walk_refs fuel s cb rel).
Proof.
  revert rel. induction fuel as [|k IH]; intros rel w u Hw Hu; [done|]. cbn [walk_refs].
  destruct (walk_path s rel) as [p|]; [|done]. erewrite sm_bind_run by apply list_dir_run'.
  destruct (_ && _)%bool; [|done].
  apply keeps_each; [|done|done]. intros x _. by apply keeps_walk_one.
Qed.

End walk.

Section visits.
Context {Os : OS} {U : Type} (s : path) (f0 : fs) (cb : harp_ref -> SM (world * U) unit).
Context (P : harp_ref -> Prop) (Inv Seen : U -> Prop).
Context (Hread : forall name w r w', w_fs w = f0 -> harp_store_ref_read s name w = (Some r, w') -> P r).
Context (Hcb : forall r, P r -> keeps_inv f0 Inv (cb r)).
Context (Hstay : forall r, P r -> keeps_inv f0 (fun u => Inv u /\ Seen u) (cb r)).

(** [m] establishes [Seen]. *)
Definition sees (m : SM (world * U) unit) : Prop :=
  forall w u, w_fs w = f0 -> Inv u -> Seen (m (w, u)).2.2.

(** Directories can be listed; the ref [r0] is the readable file [n0]. *)
Context (Hdirs : forall t, os_opendir t = true) (Hs : dir_ok s).
Context (Hdisj : forall p, p ∈ dom (fs_files f0) -> p ∉ fs_dirs f0).
Context (r0 : harp_ref) (n0 p0 : path).
Context (Hn0 : ref_path s n0 = Some p0) (Hfile : p0 ∈ dom (fs_files f0)).
Context (Hr0 : forall w, w_fs w = f0 -> (harp_store_ref_read s n0 w).1 = Some r0).
Context (Hsees : sees (cb r0)).
Context (Hroot : s ++ s_refs ∈ fs_dirs f0).
Context (Hparents : forall a b, n0 = a ++ [SLASH] ++ b -> s ++ s_refs ++ [SLASH] ++ a ∈ fs_dirs f0).

Lemma sees_each (f : path -> SM (world * U) unit) l x0 :
  (forall x, keeps_inv f0 Inv (f x)) -> (forall x, keeps_inv f0 (fun u => Inv u /\ Seen u) (f x)) ->
  (forall x st, (f x st).1 = Some tt) ->
  x0 ∈ l -> sees (f x0) -> sees (each f l).
Proof.
  intros Hk Hk2 Htot Hx0 Hx w u Hw Hu. revert w u Hw Hu. induction l as [|x l IH]; intros w u Hw Hu; [by apply elem_of_nil in Hx0|].
  cbn [each]. unfold mbind, SM_bind. destruct (Hk x w u Hw Hu) as [H1 H2].
  pose proof (Htot x (w, u)) as E1. destruct (f x (w, u)) as [o [w1 u1]] eqn:E. cbn [fst snd] in *. subst o.
  apply elem_of_cons in Hx0 as [-> |Hx0]; [|by apply IH].
  assert (Seen u1) as Hs1 by (pose proof (Hx w u Hw Hu) as Hx1; rewrite E in Hx1; exact Hx1).
  destruct (keeps_each f0 (fun u => Inv u /\ Seen u) f l) with w1 u1 as [_ [_ ?]]; auto.
Qed.

Lemma walk_one_total (wk : path -> SM (world * U) unit) rel d st : (walk_one wk s rel cb d st).1 = Some tt.
Proof.
  destruct st as [w u]. unfold walk_one. destruct (_ =? _); [done|]. destruct (strstr _ _); [done|].
  destruct (ref_from_fs _ _) as [dlog|]; [|done]. cbv zeta. destruct (_ <=? _)%nat; [done|].
  destruct (ref_path s (join_rel rel dlog)) as [cpath|]; [|done]. erewrite sm_bind_run by apply path_kind_run.
  destruct (exists_path _ _); [|done]. unfold if_ok, ignore. by repeat case_match.
Qed.

(** The directory of the names below [rel]. *)
Definition ref_dir (rel : path) : path := match rel with [] => s ++ s_refs | _ => s ++ s_refs ++ [SLASH] ++ rel end.

Lemma ref_dir_join rel c : c <> [] -> ref_dir rel ++ [SLASH] ++ c = s ++ s_refs ++ [SLASH] ++ join_rel rel c.
Proof. intros Hc. destruct rel as [|x rel]; cbn [ref_dir join_rel]; [by rewrite <- app_assoc|]. by rewrite <- !app_assoc. Qed.

Definition rel_ok (rel : path) : Prop := rel = [] \/ ref_path s rel = Some (s ++ s_refs ++ [SLASH] ++ rel).

Lemma walk_path_ok rel : rel_ok rel -> walk_path s rel = Some (ref_dir rel).
Proof.
  intros [-> |Hp].
  - cbn [walk_path ref_dir]. rewrite snprintf_id; [done|]. unfold dir_ok, STORE_DIR_MAX, HARP_STORE_PATH_MAX, s_refs in *.
    rewrite length_app. cbn [length]. lia.
  - destruct (ref_path_spec _ _ _ Hp) as (Hok & _ & Hl). apply ref_name_ok_spec in Hok as (Hlr & _).
    destruct rel as [|x rel]; [cbn in Hlr; lia|]. unfold walk_path, fs_from_ref.
    unfold HARP_REF_NAME_MAX in *. destruct (Nat.ltb_spec (3 * 160) (length (x :: rel) + 1)); [lia|].
    cbn [mbind option_bind]. by rewrite (proj2 (Nat.leb_gt _ _)) by done.
Qed.

Lemma sees_walk cs : forall rel fuel, cs <> [] -> n0 = join_all rel cs -> Forall visible cs ->
  (length cs <= fuel)%nat -> rel_ok rel -> ref_dir rel ∈ fs_dirs f0 -> sees (walk_refs fuel s cb rel).
Proof.
  induction cs as [|c cs IH]; intros rel fuel Hne Hj Hv Hf Hrel Hdir w u Hw Hu; [done|].
  destruct fuel as [|k]; [cbn in Hf; lia|]. cbn [length] in Hf.
  apply Forall_cons_iff in Hv as [Hvc Hv]. cbn [walk_refs]. rewrite walk_path_ok by done.
  erewrite sm_bind_run by apply list_dir_run'. rewrite Hdirs, Hw, bool_decide_eq_true_2 by done. cbn [andb].
  set (names := os_order _ _).
  assert (forall n, n ∈ children f0 (ref_dir rel) -> n ∈ names) as Hnames.
  { intros n Hn. unfold names. rewrite os_order_perm. by right; right. }
  set (crel := join_rel rel c). pose proof Hvc as (Hc1 & Hc2 & Hc3 & Hc4).
  assert (crel <> []) as Hcne by (by apply join_rel_nonempty).
  assert (ref_path s crel = Some (s ++ s_refs ++ [SLASH] ++ crel)) as Hcrel.
  { destruct cs as [|c' cs].
    - cbn in Hj. fold crel in Hj. subst n0. destruct (ref_path_spec _ _ _ Hn0) as (_ & -> & _). done.
    - destruct (join_all_extends crel (c' :: cs) Hcne ltac:(done)) as [b Hb].
      change (n0 = join_all crel (c' :: cs)) in Hj. rewrite Hb in Hj.
      apply (ref_path_prefix s crel b p0); [done|by apply visible_join_last|by rewrite <- Hj]. }
  pose proof (ref_path_spec _ _ _ Hcrel) as (Hcok & _ & _). apply ref_name_ok_spec in Hcok as (Hclen & _).
  assert (exists_path f0 (ref_dir rel ++ [SLASH] ++ c) = true /\
    (cs <> [] -> s ++ s_refs ++ [SLASH] ++ crel ∈ fs_dirs f0)) as [Hex Hsub].
  { rewrite ref_dir_join by done. fold crel. unfold exists_path. destruct cs as [|c' cs].
    - split; [|done]. cbn in Hj. fold crel in Hj. subst n0. destruct (ref_path_spec _ _ _ Hn0) as (_ & <- & _).
      apply orb_true_iff. left. by apply bool_decide_eq_true.
    - destruct (join_all_extends crel (c' :: cs) Hcne ltac:(done)) as [b Hb].
      change (n0 = join_all crel (c' :: cs)) in Hj. rewrite Hb in Hj.
      pose proof (Hparents crel b Hj) as Hd. split; [|done]. apply orb_true_iff. right. by apply bool_decide_eq_true. }
  apply (sees_each _ names c).
  - intros x. apply (keeps_walk_one s f0 cb P Inv Hread Hcb). intros r. by apply (keeps_walk s f0 cb P Inv Hread Hcb).
  - intros x. apply (keeps_walk_one s f0 cb P _ Hread Hstay). intros r. by apply (keeps_walk s f0 cb P _ Hread Hstay).
  - intros x st. apply walk_one_total.
  - apply Hnames, elem_of_children. split_and!; done.
  - clear w u Hw Hu names Hnames. intros w u Hw Hu. unfold walk_one.
    rewrite (proj2 (Z.eqb_neq _ _)) by done. rewrite Hc4. unfold ref_from_fs, fs_from_ref.
    assert (length c <= length crel)%nat as Hcl.
    { unfold crel, join_rel. rewrite !length_app. lia. }
    destruct (Nat.ltb_spec HARP_REF_NAME_MAX (length c + 1)); [lia|]. cbv zeta. fold crel.
    rewrite (proj2 (Nat.leb_gt _ _)) by lia. rewrite Hcrel.
    rewrite ref_dir_join in Hex by done. fold crel in Hex.
    erewrite sm_bind_run by apply path_kind_run. rewrite Hw, Hex.
    destruct cs as [|c' cs].
    + cbn in Hj. fold crel in Hj. subst crel. rewrite <- Hj in *.
      destruct (ref_path_spec _ _ _ Hn0) as (_ & Ep & _). rewrite <- Ep in *.
      rewrite bool_decide_eq_false_2 by (by apply Hdisj). unfold if_ok, ignore, on_fst. cbn [fst snd].
      pose proof (Hr0 w Hw) as Hr. pose proof (ref_read_fs s n0 w) as Hfs.
      destruct (harp_store_ref_read s n0 w) as [[r|] w1]; cbn [fst snd] in *; [|done]. injection Hr as ->.
      apply Hsees; [congruence|done].
    + rewrite bool_decide_eq_true_2 by (by apply Hsub). unfold ignore. cbn [snd].
      apply IH; try done; try lia.
      * by right.
      * destruct crel; [done|]. by apply Hsub.
  - done.
  - done.
Qed.
End visits.
