(* ===== verification/GcCorrect.v ===== *)
(** * Correctness of garbage collection

    The theorems about [StoreGc.harp_store_gc]: live objects are kept, a failed
    collection deletes nothing, dead objects are reclaimed - and the two ways in
    which a ref escapes the root set, and the one in which a collection never
    returns. *)
From Stdlib Require Import ZArith Lia List.
From stdpp Require Import base tactics list numbers gmap.
From S2P Require Import Prelude.
From S2P Require Import Cbuf.
From S2P Require Import CborEnc.
From S2P Require Import CborDec.
From S2P Require Import CborFields.
From S2P Require Import Object.
From S2P Require Import ObjectWalk.
From S2P Require Import Fs.
From S2P Require Import Store.
From S2P Require Import HashSet.
From S2P Require Import StoreGc.
From S2P Require Import GcMark.
From S2P Require Import GcWalk.

Open Scope Z_scope.
Open Scope list_scope.

(** ** Object names *)

Lemma strstr_head c pat s : strstr (c :: pat) s = true -> c ∈ s.
Proof.
  induction s as [|x s IH]; cbn [strstr length].
  - intros [H|H]%orb_true_iff; [|done]. apply bool_decide_eq_true in H. discriminate.
  - intros [H|H]%orb_true_iff; [|right; by apply IH]. apply bool_decide_eq_true in H. cbn [take] in H.
    injection H as -> _. by left.
Qed.

Lemma hexd_not_dot v : 0 <= v -> hexd v <> DOT.
Proof. unfold hexd, DOT. case_cond; lia. Qed.

Lemma hash_hex_no_dot h : bytes_ok h -> DOT ∉ harp_hash_hex h.
Proof.
  intros Hb Hin%list_elem_of_In. unfold harp_hash_hex in Hin. apply in_flat_map in Hin as (b & Hbin & Hin).
  unfold bytes_ok in Hb. rewrite List.Forall_forall in Hb. destruct (byte_nibbles b (Hb b Hbin)) as (H1 & H2 & _).
  destruct Hin as [E|[E|[]]]; (eapply hexd_not_dot; [|apply E]; lia).
Qed.

Lemma obj_name_hex h : is_hash h -> obj_name (harp_hash_hex h) = Some h.
Proof.
  intros [Hb Hl]. pose proof (hash_hex_no_dot h Hb) as Hd. unfold obj_name.
  destruct (strstr s_tmp (harp_hash_hex h)) eqn:E; [by apply strstr_head in E|].
  destruct (Z.eqb_spec (nth 0 (harp_hash_hex h) 0) DOT) as [E0|_].
  - exfalso. apply Hd. rewrite <- E0. apply list_elem_of_In, nth_In. rewrite harp_hash_hex_length, Hl. unfold HARP_HASH_LEN. lia.
  - unfold harp_hash_from_hex. rewrite harp_hash_hex_length, Hl, Nat.eqb_refl. cbn [negb]. rewrite <- Hl.
    by apply hex_loop_hex.
Qed.

Lemma obj_name_is_hash n h : obj_name n = Some h -> is_hash h.
Proof.
  unfold obj_name, harp_hash_from_hex. repeat case_match; try done. intros Hh.
  apply negb_false_iff, Nat.eqb_eq in H1. destruct (hex_loop_inv _ _ _ Hh H1) as (? & ? & _). done.
Qed.

Section gc.
Context {Os : OS} {F : Faults} {R : Realloc} (s : path) (f0 : fs).
Context (Hs : dir_ok s) (Hfiles : files_ok f0).
Context (Hobjs : s ++ s_objects ∈ fs_dirs f0).

Definition obj_dir : path := s ++ s_objects.

Lemma obj_dir_eq : snprintf HARP_STORE_PATH_MAX (s ++ s_objects) = obj_dir.
Proof.
  apply snprintf_id. unfold obj_dir, dir_ok, STORE_DIR_MAX, HARP_STORE_PATH_MAX, s_objects in *.
  rewrite length_app. cbn [length]. lia.
Qed.

(** The entries [readdir] returns at tick [t]. *)
Definition entries (t : nat) (f : fs) : list path := os_order t ([DOT] :: [DOT; DOT] :: children f obj_dir).

Lemma foreach_run {U} (cb : harp_hash -> SM (world * U) bool) w u :
  os_opendir (w_clock w) = true -> fs_dirs (w_fs w) = fs_dirs f0 ->
  harp_store_obj_foreach s cb (w, u) =
    obj_loop cb (entries (w_clock w) (w_fs w)) (mk_world (w_fs w) (S (w_clock w)) (w_trace w), u).
Proof.
  intros Ho Hd. unfold harp_store_obj_foreach. rewrite obj_dir_eq. erewrite sm_bind_run by apply list_dir_run'.
  rewrite Ho, Hd, bool_decide_eq_true_2 by done. done.
Qed.

Lemma entry_of_object t h : is_hash h -> is_Some (obj_data s f0 h) -> harp_hash_hex h ∈ entries t f0.
Proof.
  intros Hh [e He]. unfold entries. rewrite os_order_perm. right. right. apply elem_of_children.
  split_and!.
  - unfold exists_path. apply orb_true_iff. left. apply bool_decide_eq_true, elem_of_dom.
    unfold obj_data in He. rewrite obj_path_eq in He by done. unfold obj_dir. rewrite <- app_assoc.
    by destruct (fs_files f0 !! _).
  - intros E. apply (f_equal length) in E. rewrite harp_hash_hex_length, (proj2 Hh) in E. done.
  - intros Hin%list_elem_of_In. unfold harp_hash_hex in Hin. apply in_flat_map in Hin as (b & Hb & Hin).
    destruct Hh as [Hok _]. unfold bytes_ok in Hok. rewrite List.Forall_forall in Hok.
    destruct (byte_nibbles b (Hok b Hb)) as (H1 & H2 & _).
    assert (forall v, 0 <= v -> hexd v <> SLASH) as Hns by (intros v Hv; unfold hexd, SLASH; case_cond; lia).
    destruct Hin as [E|[E|[]]]; (eapply Hns; [|apply E]; lia).
Qed.

Lemma foreach_fails {U} (cb : harp_hash -> SM (world * U) bool) w u :
  os_opendir (w_clock w) = false ->
  harp_store_obj_foreach s cb (w, u) = (None, (mk_world (w_fs w) (S (w_clock w)) (w_trace w), u)).
Proof.
  intros Ho. unfold harp_store_obj_foreach. erewrite sm_bind_run by apply list_dir_run'. by rewrite Ho.
Qed.

(** ** Counting *)

Lemma count_loop names w n : obj_loop count_cb names (w, n) = (Some tt, (w, n + length (omap obj_name names))%nat).
Proof.
  revert n. induction names as [|x names IH]; intros n; cbn [obj_loop omap list_omap]; [by rewrite Nat.add_0_r|].
  destruct (obj_name x) as [h|]; [|apply IH]. cbn [length].
  erewrite sm_bind_run by reflexivity. rewrite IH. do 2 f_equal. cbn [snd]. lia.
Qed.

Definition nobj (t : nat) : nat := length (omap obj_name (entries t f0)).

Lemma count_run w : os_opendir (w_clock w) = true -> w_fs w = f0 ->
  harp_store_obj_count s w = (Some (nobj (w_clock w)), mk_world (w_fs w) (S (w_clock w)) (w_trace w)).
Proof.
  intros Ho Hw. unfold harp_store_obj_count. rewrite foreach_run by (done || by rewrite Hw). rewrite count_loop, Hw. done.
Qed.

(** The count bounds every set of stored objects. *)
Lemma nobj_bound (t : nat) (S : gset harp_hash) : (forall h, h ∈ S -> is_hash h /\ is_Some (obj_data s f0 h)) ->
  (size S <= nobj t)%nat.
Proof.
  intros HS. unfold size, set_size. cbn. unfold nobj. apply NoDup_incl_length.
  - apply NoDup_ListNoDup, NoDup_elements.
  - intros h Hh%list_elem_of_In%elem_of_elements. destruct (HS h Hh) as [H1 H2].
    apply list_elem_of_In, list_elem_of_omap. exists (harp_hash_hex h). split; [by apply entry_of_object|].
    by apply obj_name_hex.
Qed.

Lemma gc_cap_spec fuel cap need : (exists n, cap = 2 ^ n)%nat -> (need <= cap * 2 ^ fuel)%nat ->
  (exists n, gc_cap fuel cap need = 2 ^ n)%nat /\ (need <= gc_cap fuel cap need)%nat.
Proof.
  revert cap. induction fuel as [|k IH]; intros cap [n Hn] Hneed; cbn [gc_cap].
  { cbn in Hneed. split; [eauto|lia]. }
  destruct (Nat.ltb_spec cap need); [|split; [eauto|lia]].
  apply IH; [exists (S n); rewrite Nat.pow_succ_r'; lia|]. rewrite Nat.pow_succ_r' in Hneed. lia.
Qed.

Lemma gc_cap_grows fuel cap need : (cap <= gc_cap fuel cap need)%nat.
Proof. revert cap. induction fuel as [|k IH]; intros cap; cbn [gc_cap]; [lia|]. case_match; [specialize (IH (cap * 2)%nat)|]; lia. Qed.

Lemma gc_cap_ok n : exists m, gc_cap ((n + 1) * 2) 16 ((n + 1) * 2) = (2 ^ m)%nat /\ (n + 1 < 2 ^ m)%nat.
Proof.
  destruct (gc_cap_spec ((n + 1) * 2) 16 ((n + 1) * 2)) as [[m ->] H].
  - by exists 4%nat.
  - pose proof (Nat.pow_gt_lin_r 2 ((n + 1) * 2) ltac:(lia)). lia.
  - exists m. split; [done|]. lia.
Qed.
End gc.

(** ** The hash of a ref read from disk *)

Definition ref_inv (x : cdec * ref_st) : Prop :=
  bytes_ok (d_cur x.1) /\ (r_unborn (rs_ref x.2) = true \/ is_hash (r_hash (rs_ref x.2))).

Lemma keeps_ref_leaf A (m : dec A) : advances m -> keeps ref_inv (on_fst m).
Proof.
  intros Hm [d t] [Hb Ht]. unfold on_fst. cbn [fst snd] in *. destruct (m d) as [r d'] eqn:E.
  split; [|done]. cbn. by apply (shrinks_bytes m d r); [apply advances_shrinks|..].
Qed.

Lemma keeps_ref_visit key : keeps ref_inv (ref_visit key).
Proof.
  unfold ref_visit. repeat case_cond.
  - apply keeps_bind; [apply keeps_ref_leaf, advances_string|]. intros n. case_cond; [by intros x Hx|]. by intros x Hx.
  - apply keeps_bind; [apply keeps_ref_leaf, advances_get|]. intros d. case_match.
    + apply keeps_bind; [apply keeps_ref_leaf, advances_null|]. intros _ x [H1 H2]. split; [done|]. by left.
    + intros [d' t] [Hb Ht]. unfold mbind, SM_bind, on_fst. cbn [fst snd] in *.
      destruct (harp_hash_read d') as [[h|] d2] eqn:E; (split; [|try done]);
        cbn; try (by apply (shrinks_bytes harp_hash_read d' _ d2 shrinks_hash Hb E)).
      right. by apply (yields_hash d' h d2 Hb E).
  - apply keeps_bind; [apply keeps_ref_leaf; eauto with dec|]. intros g. by intros x Hx.
  - apply keeps_bind; [apply keeps_ref_leaf; eauto with dec|]. intros b. by intros x Hx.
  - apply keeps_ref_leaf; eauto with dec.
Qed.

Lemma ref_decode_hash d r d' : bytes_ok (d_cur d) -> harp_ref_decode d = (Some r, d') ->
  r_unborn r = true \/ is_hash (r_hash r).
Proof.
  intros Hb. unfold harp_ref_decode.
  pose proof (keeps_map_fields ref_inv ref_visit keeps_ref_leaf keeps_ref_visit (d, mk_rst ref_zero false)) as Hk.
  destruct (map_fields ref_visit _) as [o [d2 st]]. destruct Hk as [_ Hk]; [split; [done|by left]|].
  destruct o; [|done]. case_match; [|done]. by intros [= <- <-].
Qed.

(** ** Marking from the refs *)

Lemma hs_repr_unique hs S1 S2 : hs_repr hs S1 -> hs_repr hs S2 -> S1 = S2.
Proof.
  assert (forall A B, hs_repr hs A -> hs_repr hs B -> A ⊆ B) as Hsub.
  { intros A B HA HB h Hh. destruct (hr_reach _ _ HA h Hh) as (d & _ & Hk & Hu).
    rewrite <- Hk. apply (hr_sound _ _ HB); [apply (hs_pos_lt hs A HA)|by apply Hu]. }
  intros H1 H2. apply set_eq. intros h. by split; apply Hsub.
Qed.

(** Some read of the refs of [f] returns [r]. *)
Definition ref_stored {Os : OS} (s : path) (f : fs) (r : harp_ref) : Prop :=
  exists name w w', w_fs w = f /\ harp_store_ref_read s name w = (Some r, w').

Lemma ref_stored_hash {Os : OS} s f r : files_ok f -> ref_stored s f r -> r_unborn r = true \/ is_hash (r_hash r).
Proof.
  intros Hf (name & w & w' & <- & Hr). unfold harp_store_ref_read in Hr. destruct (ref_path s name) as [p|]; [|done].
  erewrite sm_bind_run in Hr by apply read_file_run. unfold read_result in Hr.
  assert (forall data d, bytes_ok data ->
    harp_ref_decode (harp_cdec_init (take REF_BUF data)) = (Some r, d) -> r_unborn r = true \/ is_hash (r_hash r)) as Hd.
  { intros data d Hb. apply ref_decode_hash. cbn. by apply bytes_ok_take. }
  destruct (fs_files (w_fs w) !! p) as [x|] eqn:Ex; [|destruct (os_open _ && _); [done|injection Hr as <- _; by left]].
  pose proof (Hf _ _ Ex) as Hb.
  destruct (os_open _); [|injection Hr as <- _; by left].
  destruct (os_read _) as [n|];
    (destruct (harp_ref_decode _) as [[r'|] d'] eqn:E; [|done]; injection Hr as <- _; eapply Hd; [|exact E]; first [exact Hb | by apply bytes_ok_take]).
Qed.

Section roots.
Context {Os : OS} {R : Realloc} (s : path) (f0 : fs) (Hfiles : files_ok f0).
Context (cap : nat).

(** Reachable from a ref, and found whole with all its references. *)
Definition live (h : harp_hash) : Prop :=
  exists r, ref_stored s f0 r /\ r_unborn r = false /\ reach s f0 (r_hash r) h.

Definition closed_set (S : gset harp_hash) : Prop :=
  forall h, h ∈ S -> is_hash h /\ good_obj s f0 h /\ live h /\ forall y, refers s f0 h y -> y ∈ S.

(** The table cannot take a hash more: it is full of live objects. *)
Definition crowded (c : nat) : Prop :=
  exists S : gset harp_hash, (c <= size S)%nat /\ forall h, h ∈ S -> is_hash h /\ is_Some (obj_data s f0 h) /\ live h.

Definition mark_inv (m : markst) : Prop :=
  if mk_hung m then crowded cap
  else if mk_aborted m then reads_ok -> exists h, live h /\ ~ good_obj s f0 h
  else exists S, hs_repr (mk_set m) S /\ hs_cap (mk_set m) = cap /\ closed_set S.

(** The object is in the mark set, unless marking was aborted. *)
Definition marked (h : harp_hash) (m : markst) : Prop :=
  mk_hung m = false -> mk_aborted m = false -> exists S, hs_repr (mk_set m) S /\ h ∈ S.

Definition stopped (m : markst) : bool := mk_aborted m || mk_hung m.

Lemma mark_obj_stopped k h w m : stopped m = true -> mark_obj k s h (w, m) = (w, m).
Proof. unfold stopped. intros [?|?]%orb_true_iff; [by apply mark_obj_aborted|by apply mark_obj_hung]. Qed.

Lemma mark_ref_step r w m : ref_stored s f0 r -> w_fs w = f0 -> mark_inv m ->
  let st := (mark_ref_cb (S cap) s r (w, m)).2 in
  w_fs st.1 = f0 /\ mark_inv st.2 /\
  (stopped m = true -> stopped st.2 = true) /\
  (forall S S', stopped st.2 = false -> hs_repr (mk_set m) S -> hs_repr (mk_set st.2) S' -> S ⊆ S') /\
  (r_unborn r = false -> marked (r_hash r) st.2).
Proof.
  intros Hr Hw Hm. unfold mark_ref_cb. cbn [snd].
  destruct (r_unborn r) eqn:Eu.
  { cbn [fst snd]. split_and!; try done. intros S S' _ H1 H2. by rewrite (hs_repr_unique _ _ _ H1 H2). }
  destruct (stopped m) eqn:Ea.
  { rewrite mark_obj_stopped by done. cbn [fst snd]. split_and!; try done; [by rewrite Ea|].
    intros _ E1 E2. unfold stopped in Ea. by rewrite E1, E2 in Ea. }
  unfold stopped in Ea. apply orb_false_elim in Ea as [Ea Ehung].
  unfold mark_inv in Hm. rewrite Ea, Ehung in Hm. destruct Hm as (S & Hrepr & Hc & Hcl).
  assert (is_hash (r_hash r)) as Hh by (destruct (ref_stored_hash s f0 r Hfiles Hr); [congruence|done]).
  assert (forall h, h ∈ S -> is_hash h /\ is_Some (obj_data s f0 h)) as Hst.
  { intros h Hin. destruct (Hcl h Hin) as (H1 & (e & -> & _) & _). done. }
  assert (mark_ok s f0 cap (w, m) S) as Hok by (by split_and!).
  destruct (mark_obj_correct s f0 Hfiles cap (Datatypes.S cap) (r_hash r) (w, m) S Hok Hh ltac:(lia))
    as [((Hw' & Hh') & Ha' & Hwhy)|[(Hw' & Hh' & S' & H1 & H2)|(S' & ((Hw' & Hh') & Ha' & Hr' & Hc' & HS') & H1 & H2 & H3)]].
  - split_and!; try done; unfold mark_inv, marked, stopped; rewrite ?Ha', ?Hh'; try done.
    intros Hrd. destruct (Hwhy Hrd) as (h & x & ->%list_elem_of_singleton & Hx & Hbad).
    exists x. split; [by exists r|done].
  - unfold mark_inv, marked, stopped. rewrite Hh', ?orb_true_r. split_and!; try done. exists S'. split; [done|].
    intros h Hin. destruct (decide (h ∈ S)) as [Hold|Hnew].
    + destruct (Hcl h Hold) as (G1 & G2 & G3 & G4). destruct (Hst h Hold). done.
    + destruct (H2 h Hin Hnew) as (G1 & G2 & h' & ->%list_elem_of_singleton & G3). split_and!; try done. by exists r.
  - split_and!; try done.
    + unfold mark_inv. rewrite Ha', Hh'. exists S'. split_and!; [done|done|]. intros h Hin. destruct (HS' h Hin) as [Hih _].
      destruct (decide (h ∈ S)) as [Hold|Hnew].
      * destruct (Hcl h Hold) as (G1 & G2 & G3 & G4). split_and!; try done. intros y Hy. by apply H1, G4.
      * destruct (H3 h Hin Hnew) as (G1 & G2 & h' & ->%list_elem_of_singleton & G3). split_and!; try done. by exists r.
    + intros S1 S2 _ G1 G2. rewrite (hs_repr_unique _ _ _ G1 Hrepr), (hs_repr_unique _ _ _ G2 Hr'). done.
    + intros _ _ _. exists S'. split; [done|]. apply H2. by left.
Qed.

Lemma keeps_mark_inv r : ref_stored s f0 r -> keeps_inv f0 mark_inv (mark_ref_cb (S cap) s r).
Proof. intros Hr w m Hw Hm. by destruct (mark_ref_step r w m Hr Hw Hm) as (? & ? & _). Qed.

Lemma keeps_marked r h : ref_stored s f0 r ->
  keeps_inv f0 (fun m => mark_inv m /\ marked h m) (mark_ref_cb (S cap) s r).
Proof.
  intros Hr w m Hw [Hm Hh]. destruct (mark_ref_step r w m Hr Hw Hm) as (H1 & H2 & H3 & H4 & _).
  split_and!; [done|done|]. intros E1 E2. set (st := (mark_ref_cb (S cap) s r (w, m)).2) in *.
  assert (stopped st.2 = false) as Es by (unfold stopped; by rewrite E1, E2).
  assert (stopped m = false) as Em by (destruct (stopped m); [by rewrite H3 in Es|done]).
  unfold stopped in Em. apply orb_false_elim in Em as [F1 F2].
  destruct (Hh F2 F1) as (S & HS & Hin). unfold mark_inv in H2. rewrite E1, E2 in H2. destruct H2 as (S' & HS' & _).
  exists S'. split; [done|]. by apply (H4 S S' Es HS HS').
Qed.

Lemma sees_marked r : ref_stored s f0 r -> r_unborn r = false ->
  sees f0 mark_inv (marked (r_hash r)) (mark_ref_cb (S cap) s r).
Proof. intros Hr Hb w m Hw Hm. destruct (mark_ref_step r w m Hr Hw Hm) as (_ & _ & _ & _ & H5). by apply H5. Qed.

Lemma mark_inv_empty n : cap = (2 ^ n)%nat -> mark_inv (mk_mark (hs_empty cap) false false).
Proof.
  intros ->. exists ∅. split_and!; [apply hs_repr_empty|done|]. intros h Hh. by apply not_elem_of_empty in Hh.
Qed.

Lemma closed_reach S h x : closed_set S -> h ∈ S -> reach s f0 h x -> x ∈ S.
Proof. intros Hc Hh. induction 1 as [|x y _ IH Hy]; [done|]. destruct (Hc x IH) as (_ & _ & _ & H). by apply H. Qed.
End roots.

(** ** Sweeping *)

Lemma obj_delete_files {Os : OS} s h w q :
  let w' := (harp_store_obj_delete s h w).2 in
  fs_files (w_fs w') !! q = fs_files (w_fs w) !! q \/ (q = obj_path s h /\ fs_files (w_fs w') !! q = None).
Proof.
  unfold harp_store_obj_delete, remove, path_readable, tick, get_fs, set_fs.
  unfold mbind, SM_bind, mret, SM_ret, sm_get, sm_modify, sm_fail. cbn [fst snd].
  destruct (os_remove (w_clock w)); [|cbn; destruct (exists_path _ _); by left].
  case_bool_decide; cbn [fst snd w_fs].
  - destruct (decide (q = obj_path s h)) as [->|Hq]; [right; split; [done|]; by apply lookup_del_eq|].
    left. by apply lookup_del_ne.
  - destruct (_ && _)%bool; cbn; [by left|]. destruct (exists_path _ _); by left.
Qed.

Lemma obj_delete_gone {Os : OS} s h w : os_remove (w_clock w) = true ->
  fs_files (w_fs (harp_store_obj_delete s h w).2) !! obj_path s h = None.
Proof.
  intros Hr. unfold harp_store_obj_delete, remove, path_readable, tick, get_fs, set_fs.
  unfold mbind, SM_bind, mret, SM_ret, sm_get, sm_modify, sm_fail. cbn [fst snd]. rewrite Hr.
  case_bool_decide as Hd; cbn [fst snd w_fs]; [by apply lookup_del_eq|].
  assert (fs_files (w_fs w) !! obj_path s h = None) by (by apply not_elem_of_dom).
  destruct (_ && _)%bool; cbn; [done|]. by destruct (exists_path _ _).
Qed.

Section sweep.
Context {Os : OS} {F : Faults} (s : path) (set : hashset) (S : gset harp_hash).
Context (Hrepr : hs_repr set S).

(** Files may have gone, but only object files whose hash is not in [S]. *)
Definition swept (f f' : fs) : Prop := forall q,
  fs_files f' !! q = fs_files f !! q \/
  (fs_files f' !! q = None /\ exists h, is_hash h /\ (h ∉ S) /\ q = obj_path s h).

Lemma swept_trans f1 f2 f3 : swept f1 f2 -> swept f2 f3 -> swept f1 f3.
Proof. intros H1 H2 q. destruct (H2 q) as [->|?]; [apply H1|by right]. Qed.

Lemma sweep_loop max names : forall w c, sw_hung c = false ->
  let st := (obj_loop (sweep_cb s set max) names (w, c)).2 in
  (sw_hung st.2 = true -> size S = hs_cap set) /\ swept (w_fs w) (w_fs st.1) /\
  (max <> 0%nat -> (sw_deleted c <= max)%nat -> (sw_deleted st.2 <= max)%nat) /\
  (sw_hung st.2 = false -> max = 0%nat -> (forall t, os_remove t = true) -> fault_skip_sweep = false ->
    forall n h, n ∈ names -> obj_name n = Some h -> h ∉ S -> obj_data s (w_fs st.1) h = None).
Proof.
  induction names as [|x names IH]; intros w c Hc; cbn [obj_loop].
  { cbn. rewrite Hc. split_and!; try done; [intros q; by left|]. intros _ _ _ _ n h ?%elem_of_nil. done. }
  destruct (obj_name x) as [h|] eqn:Ex.
  2: { destruct (IH w c Hc) as (H1 & H2 & H3 & H4). split_and!; try done.
       intros Hh Hm Hr Hf n h [-> |Hn]%elem_of_cons; [congruence|by apply H4]. }
  pose proof (obj_name_is_hash x h Ex) as Hh. unfold mbind, SM_bind, sweep_cb at 1 3 5 7 9.
  destruct (decide (h ∈ S)) as [Hin|Hnin].
  { rewrite (proj2 (hs_found set S h Hrepr (proj1 Hh) Hin)).
    destruct (IH w c Hc) as (H1 & H2 & H3 & H4). split_and!; try done.
    intros Hg Hm Hr Hf n h' [-> |Hn]%elem_of_cons; [congruence|by apply H4]. }
  pose proof (hs_repr_size _ _ Hrepr) as Hsz.
  destruct (decide (size S = hs_cap set)) as [Hfull|Hroom].
  { rewrite (proj2 (hs_full set S h Hrepr (proj1 Hh) (proj2 Hh) Hfull Hnin)). cbn. split_and!; try done. intros q. by left. }
  destruct (hs_ops set S h Hrepr (proj1 Hh) (proj2 Hh) ltac:(lia)) as [Hhas _].
  rewrite Hhas, bool_decide_eq_false_2 by done.
  destruct (negb (max =? 0)%nat && (max <=? sw_deleted c)%nat) eqn:Em.
  { cbn. rewrite Hc. split_and!; try done; [intros q; by left|]. intros _ ->. done. }
  pose proof (obj_delete_files s h w) as Hdel. pose proof (obj_delete_gone s h w) as Hgone.
  destruct (harp_store_obj_delete s h w) as [r w1]. cbn [snd] in Hdel, Hgone.
  set (c1 := mk_sweep _ _ _). assert (sw_hung c1 = false) as Hc1 by done.
  assert (swept (w_fs w) (w_fs w1)) as Hsw.
  { intros q. destruct (Hdel q) as [H|[-> H]]; [by left|]. right. split; [done|]. by exists h. }
  assert (max <> 0%nat -> (sw_deleted c <= max)%nat -> (sw_deleted c1 <= max)%nat) as Hmax.
  { intros Hm Hle. rewrite (proj2 (Nat.eqb_neq _ _)) in Em by done. cbn [negb andb] in Em.
    apply Nat.leb_gt in Em. unfold c1. cbn [sw_deleted]. destruct r; lia. }
  destruct (negb fault_skip_sweep) eqn:Efault.
  - destruct (IH w1 c1 Hc1) as (H1 & H2 & H3 & H4). split_and!; [done|by eapply swept_trans|auto|].
    intros Hg Hm Hr Hf n h' [-> |Hn]%elem_of_cons Hn' HS; [|by apply (H4 Hg Hm Hr Hf n)].
    rewrite Ex in Hn'. injection Hn' as <-. unfold obj_data.
    destruct (H2 (obj_path s h)) as [->|[-> _]]; [|done]. by rewrite (Hgone (Hr _)).
  - cbn. split_and!; try done; try (by rewrite Hc). intros _ _ _ Hf. by rewrite Hf in Efault.
Qed.
End sweep.

(** ** The collector *)

(** A store's disk: its directory name fits, bytes are bytes, [objects/] is there. *)
Record gc_disk (s : path) (f : fs) : Prop := {
  gd_dir : dir_ok s;
  gd_bytes : files_ok f;
  gd_objects : s ++ s_objects ∈ fs_dirs f
}.

(** An open store: the directories are there and can be listed. *)
Record gc_store {Os : OS} (s : path) (f : fs) : Prop := {
  gs_dir : dir_ok s;
  gs_bytes : files_ok f;
  gs_objects : s ++ s_objects ∈ fs_dirs f;
  gs_list : forall t, os_opendir t = true
}.

Lemma gc_store_disk {Os : OS} s f : gc_store s f -> gc_disk s f.
Proof. by intros [H1 H2 H3 _]. Qed.

(** Removing files works, and the test seam is off. *)
Definition removal_ok {Os : OS} {F : Faults} : Prop := (forall t, os_remove t = true) /\ fault_skip_sweep = false.

(** The count the collector starts with: none, if the listing fails. *)
Definition counted {Os : OS} (s : path) (w : world) : nat :=
  if os_opendir (w_clock w) then nobj s (w_fs w) (w_clock w) else O.

Definition table_size {Os : OS} (s : path) (w : world) : nat :=
  let n := counted s w in gc_cap ((n + 1) * 2) 16 ((n + 1) * 2).

(** The refs as [harp_store_gc] walks them, started at [w]. *)
Definition mark_phase {Os : OS} {R : Realloc} (s : path) (w : world) : world * markst :=
  (harp_store_ref_list s (mark_ref_cb (S (table_size s w)) s)
    (mk_world (w_fs w) (S (w_clock w)) (w_trace w), mk_mark (hs_empty (table_size s w)) false false)).2.

Section collect.
Context {Os : OS} {F : Faults} {R : Realloc} (s : path) (w : world) (Hgd : gc_disk s (w_fs w)).

Let f0 := w_fs w.
Let cap := table_size s w.

Lemma cap_room : (counted s w + 1 < cap)%nat /\ (16 <= cap)%nat /\ exists n, cap = (2 ^ n)%nat.
Proof.
  unfold cap, table_size. destruct (gc_cap_ok (counted s w)) as (n & E & H). rewrite E. split_and!; [lia| |eauto].
  rewrite <- E. apply gc_cap_grows.
Qed.

(** A table sized after a listing that worked is never full. *)
Lemma not_crowded : os_opendir (w_clock w) = true -> ~ crowded s f0 cap.
Proof.
  intros Ho (S & Hc & HS). pose proof (proj1 cap_room) as Hroom. unfold counted in Hroom. rewrite Ho in Hroom.
  assert (size S <= nobj s f0 (w_clock w))%nat; [|unfold f0 in *; lia].
  apply nobj_bound; [apply Hgd|]. intros h Hh. by destruct (HS h Hh) as (? & ? & _).
Qed.

Lemma mark_phase_inv : w_fs (mark_phase s w).1 = f0 /\ mark_inv s f0 cap (mark_phase s w).2.
Proof.
  destruct cap_room as (_ & _ & [n Hn]). unfold mark_phase, harp_store_ref_list.
  apply (keeps_walk s f0 _ (ref_stored s f0) (mark_inv s f0 cap)); [|intros r Hr|done|exact (mark_inv_empty s f0 cap n Hn)].
  - intros name v r v' Hv Hr. by exists name, v, v'.
  - apply keeps_mark_inv; [apply Hgd|done].
Qed.

(** The outcome of a collection whose mark phase marked the set [S]. *)
Definition collected (max : nat) (S : gset harp_hash) (k : nat) (f' : fs) : Prop :=
  hs_repr (mk_set (mark_phase s w).2) S /\ closed_set s f0 S /\ swept s S f0 f' /\
  (max <> 0%nat -> (k <= max)%nat) /\
  ((forall t, os_opendir t = true) -> max = 0%nat -> removal_ok ->
     forall h, is_hash h -> h ∉ S -> obj_data s f' h = None).

Lemma count_phase : harp_store_obj_count s w =
  (Some (counted s w), mk_world (w_fs w) (S (w_clock w)) (w_trace w)).
Proof.
  unfold counted. destruct (os_opendir (w_clock w)) eqn:Eo.
  - by rewrite (count_run s f0 (gd_dir _ _ Hgd) (gd_objects _ _ Hgd)).
  - unfold harp_store_obj_count. by rewrite (foreach_fails s).
Qed.

(** The sweep, whether the second listing works or not. *)
Lemma sweep_phase max S w2 m : w_fs w2 = f0 -> hs_repr (mk_set m) S -> closed_set s f0 S -> hs_cap (mk_set m) = cap ->
  let st := (harp_store_obj_foreach s (sweep_cb s (mk_set m) max) (w2, mk_sweep 0 false false)).2 in
  (sw_hung st.2 = true -> crowded s f0 cap) /\ swept s S f0 (w_fs st.1) /\
  (max <> 0%nat -> (sw_deleted st.2 <= max)%nat) /\
  (sw_hung st.2 = false -> (forall t, os_opendir t = true) -> max = 0%nat -> removal_ok ->
     forall h, is_hash h -> h ∉ S -> obj_data s (w_fs st.1) h = None).
Proof.
  intros Hw2 Hrepr Hcl Hc. destruct (os_opendir (w_clock w2)) eqn:Eo.
  2: { rewrite (foreach_fails s) by done. cbn. rewrite Hw2. split_and!; [done|intros q; by left|lia|].
    intros _ Hd. by rewrite Hd in Eo. }
  rewrite (foreach_run s f0 (gd_dir _ _ Hgd) (gd_objects _ _ Hgd)) by (done || by rewrite Hw2).
  set (w3 := mk_world (w_fs w2) _ _).
  destruct (sweep_loop s (mk_set m) S Hrepr max (entries s (w_clock w2) (w_fs w2)) w3 (mk_sweep 0 false false) eq_refl)
    as (H1 & H2 & H3 & H4).
  destruct (obj_loop _ _ _) as [o' [w4 c]]. cbn [fst snd] in *.
  assert (w_fs w3 = f0) as Ew3 by done. rewrite Ew3 in H2. split_and!; [|done| |].
  - intros Hh. exists S. split; [rewrite (H1 Hh); lia|]. intros h Hin.
    destruct (Hcl h Hin) as (G1 & (e & G2 & _) & G3 & _). rewrite G2. done.
  - intros Hm. apply H3; [done|cbn [sw_deleted]; lia].
  - intros Hh _ Hm [Hrm Hsk] h Hih Hn. destruct (obj_data s (w_fs w4) h) eqn:Ed; [|done].
    rewrite <- Ed. apply (H4 Hh Hm Hrm Hsk (harp_hash_hex h)); [|by apply obj_name_hex|done].
    rewrite Hw2. apply entry_of_object; try done; [apply Hgd|].
    unfold obj_data in *. destruct (H2 (obj_path s h)) as [<-|[E _]]; [by rewrite Ed|by rewrite E in Ed].
Qed.

Lemma gc_spec max : let '(res, w') := harp_store_gc s max true w in
  match res with
  | GcHung => os_opendir (w_clock w) = false /\ crowded s f0 16
  | GcFail => w_fs w' = f0 /\ mk_aborted (mark_phase s w).2 = true /\ mk_hung (mark_phase s w).2 = false
  | GcOk k => mk_aborted (mark_phase s w).2 = false /\ mk_hung (mark_phase s w).2 = false /\
      exists S, collected max S k (w_fs w')
  end.
Proof.
  assert (crowded s f0 cap -> os_opendir (w_clock w) = false /\ crowded s f0 16) as Hfull.
  { intros Hc. split; [destruct (os_opendir _) eqn:Eo; [by destruct (not_crowded Eo)|done]|].
    destruct Hc as (S & H1 & H2). exists S. split; [|done]. pose proof (proj1 (proj2 cap_room)). lia. }
  pose proof mark_phase_inv as [Hw2 Hm]. unfold collected. revert Hw2 Hm.
  unfold harp_store_gc. rewrite count_phase. cbv zeta. cbn [negb]. unfold mark_phase, f0. fold f0.
  change (gc_cap _ _ _) with cap. fold cap.
  destruct (harp_store_ref_list _ _ _) as [o [w2 m]]. cbn [fst snd]. intros Hw2 Hm. unfold mark_inv in Hm.
  destruct (mk_hung m); [by apply Hfull|]. destruct (mk_aborted m) eqn:Ea; [done|].
  destruct Hm as (S & Hrepr & Hc & Hcl). pose proof (sweep_phase max S w2 m Hw2 Hrepr Hcl Hc) as Hsw.
  destruct (harp_store_obj_foreach _ _ _) as [o' [w4 c]]. cbn [fst snd] in Hsw.
  destruct Hsw as (H1 & H2 & H3 & H4). destruct (sw_hung c); [by apply Hfull, H1|].
  split_and!; [done|done|]. exists S. split_and!; try done. intros. by apply H4.
Qed.
End collect.

Lemma join_all_from rel cur p : rel <> [] -> join_all rel (components_from cur p) = rel ++ [SLASH] ++ cur ++ p.
Proof.
  revert rel cur. induction p as [|c p IH]; intros rel cur Hr; cbn [components_from].
  - cbn. rewrite join_rel_cons by done. by rewrite app_nil_r.
  - case_cond; [|rewrite IH by done; by rewrite <- !app_assoc].
    cbn [join_all fold_left]. rewrite join_rel_cons by done. unfold join_all in IH. rewrite IH by (by destruct rel).
    rewrite <- !app_assoc. cbn [app]. by subst.
Qed.

(** A name is its components joined, unless the first one is empty. *)
Lemma join_components cur p : Forall visible (components_from cur p) -> join_all [] (components_from cur p) = cur ++ p.
Proof.
  revert cur. induction p as [|c p IH]; intros cur; cbn [components_from]; intros Hv.
  - cbn. by rewrite app_nil_r.
  - case_cond_in Hv; [|rewrite IH by done; by rewrite <- app_assoc].
    apply Forall_cons_iff in Hv as [(Hne & _) _]. cbn [join_all fold_left]. rewrite join_rel_nil.
    fold (join_all cur (components_from [] p)). rewrite join_all_from by done. by subst.
Qed.

Lemma components_nonempty cur p : components_from cur p <> [].
Proof. revert cur. induction p as [|c p IH]; intros cur; cbn [components_from]; [done|]. case_cond; done. Qed.

Lemma components_length cur p : (length (components_from cur p) <= length p + 1)%nat.
Proof.
  revert cur. induction p as [|c p IH]; intros cur; cbn [components_from length]; [lia|].
  case_cond; cbn [length]; [specialize (IH [])|specialize (IH (cur ++ [c]))]; lia.
Qed.

(** A ref file below directories that are there, none of whose components starts
    with a dot or contains [".tmp."]. *)
Record ref_visible (s : path) (f : fs) (n p : path) : Prop := {
  rv_path : ref_path s n = Some p;
  rv_file : p ∈ dom (fs_files f);
  rv_visible : Forall visible (components n);
  rv_kinds : forall q, q ∈ dom (fs_files f) -> q ∉ fs_dirs f;
  rv_root : s ++ s_refs ∈ fs_dirs f;
  rv_dirs : forall a b, n = a ++ [SLASH] ++ b -> s ++ s_refs ++ [SLASH] ++ a ∈ fs_dirs f
}.

(** With reliable reads what a ref reads as depends on the disk only. *)
Lemma ref_read_stable {Os : OS} {R : Realloc} s n w w' : reads_ok -> w_fs w = w_fs w' ->
  (harp_store_ref_read s n w).1 = (harp_store_ref_read s n w').1.
Proof.
  intros (Ho & Hr & _) Hw. unfold harp_store_ref_read. destruct (ref_path s n) as [p|]; [|done].
  erewrite !sm_bind_run by apply read_file_run. unfold read_result. rewrite !Ho, !Hr, Hw.
  destruct (fs_files (w_fs w') !! p); [|by case_bool_decide]. by destruct (harp_ref_decode _) as [[r|] d].
Qed.

Lemma marked_root {Os : OS} {F : Faults} {R : Realloc} s w n p r :
  gc_store s (w_fs w) -> reads_ok -> ref_visible s (w_fs w) n p ->
  (harp_store_ref_read s n w).1 = Some r -> r_unborn r = false -> marked (r_hash r) (mark_phase s w).2.
Proof.
  intros Hgs Hrd [Hp Hfile Hv Hk Hroot Hd] Hr Hb. set (f0 := w_fs w) in *.
  assert (ref_stored s f0 r) as Hst.
  { destruct (harp_store_ref_read s n w) as [o w'] eqn:E. cbn in Hr. subst o. by exists n, w, w'. }
  destruct (cap_room s w) as (_ & _ & [k Hk2]). unfold mark_phase, harp_store_ref_list.
  set (cap := table_size s w) in *. pose proof (gc_store_disk _ _ Hgs) as Hgd.
  eapply (sees_walk s f0 _ (ref_stored s f0) (mark_inv s f0 cap) (marked (r_hash r)))
    with (r0 := r) (n0 := n) (p0 := p) (cs := components n); try done.
  - intros name v q v' Hv' Hq. by exists name, v, v'.
  - intros q Hq. by apply keeps_mark_inv; [apply Hgd|].
  - intros q Hq. by apply keeps_marked; [apply Hgd|].
  - apply Hgs.
  - apply Hgs.
  - intros v Hv'. rewrite <- (ref_read_stable s n w v Hrd); [done|by rewrite Hv'].
  - by apply sees_marked; [apply Hgd|..].
  - apply components_nonempty.
  - symmetry. by apply join_components.
  - pose proof (components_length [] n). apply ref_path_spec in Hp as (Hok & _). apply ref_name_ok_spec in Hok as (Hl & _).
    unfold components. lia.
  - by left.
  - exact (mark_inv_empty s f0 cap k Hk2).
Qed.

(** C1: collection never takes a live object.  When files can be read and
    directories listed, and [harp_store_gc] returns 0, everything reachable from a
    visible ref's hash - the ref is on disk under a name without hidden components -
    is a stored object whose references can be enumerated to the end, and its file
    is there unchanged afterwards, whatever else was or could not be deleted. *)
Theorem gc_safe {Os : OS} {F : Faults} {R : Realloc} (s n p : path) (max k : nat) (w w' : world)
    (r : harp_ref) (h : harp_hash) :
  gc_store s (w_fs w) -> reads_ok -> ref_visible s (w_fs w) n p ->
  (harp_store_ref_read s n w).1 = Some r -> r_unborn r = false ->
  harp_store_gc s max true w = (GcOk k, w') -> reach s (w_fs w) (r_hash r) h ->
  good_obj s (w_fs w) h /\ obj_data s (w_fs w') h = obj_data s (w_fs w) h.
Proof.
  intros Hgs Hrd Hv Hr Hb Hgc Hreach. pose proof (gc_spec s w (gc_store_disk _ _ Hgs) max) as Hspec. rewrite Hgc in Hspec.
  pose proof (marked_root s w n p r Hgs Hrd Hv Hr Hb) as Hm.
  destruct Hspec as (Ha & Hung & S & Hrepr & Hcl & Hsw & _).
  destruct (Hm Hung Ha) as (S' & Hrepr' & Hin). rewrite (hs_repr_unique _ _ _ Hrepr' Hrepr) in Hin.
  assert (h ∈ S) as HhS by (by apply (closed_reach s (w_fs w) S (r_hash r))).
  destruct (Hcl h HhS) as (Hh & Hg & _). split; [done|]. unfold obj_data.
  destruct (Hsw (obj_path s h)) as [->|[_ (h' & Hh' & Hn & E)]]; [done|].
  by rewrite (obj_path_inj s h h' (gs_dir _ _ Hgs) Hh Hh' E) in HhS.
Qed.


(** C32: collection reclaims the dead.  When every directory can be listed, an
    unlimited collection that returns 0 and whose deletions work leaves no
    garbage: every object still stored is whole and reachable from a ref that
    reads as born. *)
Theorem gc_complete {Os : OS} {F : Faults} {R : Realloc} (s : path) (k : nat) (w w' : world) (h : harp_hash) :
  gc_store s (w_fs w) -> removal_ok -> harp_store_gc s 0 true w = (GcOk k, w') ->
  is_hash h -> is_Some (obj_data s (w_fs w') h) ->
  good_obj s (w_fs w) h /\ live s (w_fs w) h.
Proof.
  intros Hgs Hrm Hgc Hh Hst. pose proof (gc_spec s w (gc_store_disk _ _ Hgs) 0) as Hspec. rewrite Hgc in Hspec.
  destruct Hspec as (_ & _ & S & _ & Hcl & _ & _ & Hdead).
  destruct (decide (h ∈ S)) as [Hin|Hn]; [by destruct (Hcl h Hin) as (_ & ? & ? & _)|].
  rewrite (Hdead (gs_list _ _ Hgs) eq_refl Hrm h Hh Hn) in Hst. by destruct Hst.
Qed.

(** *** A small store *)

(** Two blobs, and the ref ["a/b"] to the first. *)
Definition blob_of (x : Z) : list Z := enc_obj (OBlob [] [x]).
Definition hash_of (x : Z) : harp_hash := harp_hash_compute (blob_of x).
Definition demo_ref (name : path) : harp_ref := mk_ref name false (hash_of 1) 1 false.

Definition demo_fs (name : path) : fs :=
  put_file (obj_path s_dir (hash_of 1)) (mk_file (blob_of 1) true)
  (put_file (obj_path s_dir (hash_of 2)) (mk_file (blob_of 2) true)
  (put_file (s_dir ++ s_refs ++ [SLASH] ++ name) (mk_file (enc_ref (demo_ref name)) true)
  (mk_fs ∅ (fs_dirs fs_empty ∪ {[s_dir ++ s_refs ++ [SLASH; 97]]})))).

Definition always_mem : Realloc := fun _ => true.

Lemma bytes_ok_check l : forallb (fun b => (0 <=? b) && (b <? 256)) l = true -> bytes_ok l.
Proof. intros H. apply List.Forall_forall. intros b Hb. rewrite forallb_forall in H. specialize (H b Hb). unfold is_u8. lia. Qed.

Lemma demo_store name : forallb (fun b => (0 <=? b) && (b <? 256)) (enc_ref (demo_ref name)) = true ->
  @gc_store os_good s_dir (demo_fs name).
Proof.
  intros Hn. split.
  - vm_compute. lia.
  - intros p x Hx. unfold demo_fs in Hx. cbn [put_file fs_files] in Hx.
    apply lookup_insert_Some in Hx as [[_ <-]|[_ Hx]]; [by apply bytes_ok_check|].
    apply lookup_insert_Some in Hx as [[_ <-]|[_ Hx]]; [by apply bytes_ok_check|].
    apply lookup_insert_Some in Hx as [[_ <-]|[_ Hx]]; [by apply bytes_ok_check|].
    by rewrite lookup_empty in Hx.
  - cbn [demo_fs fs_dirs]. unfold demo_fs, put_file. cbn [fs_dirs]. unfold fs_empty. cbn [fs_dirs]. set_solver.
  - done.
Qed.

Lemma demo_visible : ref_visible s_dir (demo_fs [97; 47; 98]) [97; 47; 98] (s_dir ++ s_refs ++ [SLASH] ++ [97; 47; 98]).
Proof.
  split.
  - reflexivity.
  - unfold demo_fs, put_file. cbn [fs_files]. set_solver.
  - assert (forall c, visible [c] <-> (c <> SLASH /\ c <> DOT /\ strstr s_tmp [c] = false)) as Hv.
    { intros c. unfold visible. cbn [nth]. rewrite list_elem_of_singleton. intuition congruence. }
    change (components [97; 47; 98]) with [[97]; [98]]. repeat constructor; try apply Hv; done.
  - intros q. unfold demo_fs, put_file. cbn [fs_files fs_dirs]. rewrite !dom_insert, dom_empty. unfold fs_empty. cbn [fs_dirs].
    rewrite !elem_of_union, !elem_of_singleton. intros [-> |[-> |[-> |H]]]; [vm_compute; intuition discriminate..|by apply not_elem_of_empty in H].
  - unfold demo_fs, put_file. cbn [fs_dirs]. unfold fs_empty. cbn [fs_dirs]. set_solver.
  - intros a b E. assert (a = [97]) as ->.
    { destruct a as [|x [|y [|z a]]]; try discriminate; [by injection E as <- _|].
      injection E as <- <- <- E. by destruct a. }
    unfold demo_fs, put_file. cbn [fs_dirs]. set_solver.
Qed.

Lemma demo_reads_ok : @reads_ok os_good always_mem.
Proof. by split_and!. Qed.

Lemma gc_safe_witness :
  let w := world_of (demo_fs [97; 47; 98]) in
  let '(g, w') := @harp_store_gc os_good no_faults always_mem s_dir 0 true w in
  g = GcOk 1 /\ good_obj s_dir (w_fs w) (hash_of 1) /\
  obj_data s_dir (w_fs w') (hash_of 1) = obj_data s_dir (w_fs w) (hash_of 1).
Proof.
  assert ((@harp_store_gc os_good no_faults always_mem s_dir 0 true (world_of (demo_fs [97; 47; 98]))).1 = GcOk 1) as E1
    by (vm_compute; reflexivity).
  cbv zeta. destruct (harp_store_gc _ _ _ _) as [g w'] eqn:E. cbn [fst] in E1. subst g. split; [reflexivity|].
  apply (@gc_safe os_good no_faults always_mem s_dir [97; 47; 98] (s_dir ++ s_refs ++ [SLASH] ++ [97; 47; 98]) 0 1 (world_of (demo_fs [97; 47; 98])) w'
           (demo_ref [97; 47; 98]) (hash_of 1)).
  - apply demo_store. vm_compute. reflexivity.
  - exact demo_reads_ok.
  - apply demo_visible.
  - vm_compute. reflexivity.
  - reflexivity.
  - exact E.
  - constructor.
Defined.

(** The ref's object removed: the collection refuses to delete anything. *)
Definition broken_fs : fs := del_file (obj_path s_dir (hash_of 1)) (demo_fs [97; 47; 98]).

Lemma broken_store : @gc_store os_good s_dir broken_fs.
Proof.
  destruct (demo_store [97; 47; 98]) as [H1 H2 H3 H4]; [vm_compute; reflexivity|]. split; [done| |done|done].
  intros p x Hx. unfold broken_fs, del_file in Hx. cbn [fs_files] in Hx. apply lookup_delete_Some in Hx as [_ Hx]. by apply (H2 p x).
Qed.


Lemma demo_removal_ok : @removal_ok os_good no_faults.
Proof. by split. Qed.

Lemma gc_complete_witness :
  let w := world_of (demo_fs [97; 47; 98]) in
  let '(g, w') := @harp_store_gc os_good no_faults always_mem s_dir 0 true w in
  g = GcOk 1 /\ is_Some (obj_data s_dir (w_fs w') (hash_of 1)) /\ obj_data s_dir (w_fs w') (hash_of 2) = None /\
  @live os_good s_dir (w_fs w) (hash_of 1).
Proof.
  assert (let st := @harp_store_gc os_good no_faults always_mem s_dir 0 true (world_of (demo_fs [97; 47; 98])) in
    st.1 = GcOk 1 /\ bool_decide (is_Some (obj_data s_dir (w_fs st.2) (hash_of 1))) = true /\
    obj_data s_dir (w_fs st.2) (hash_of 2) = None) as (E1 & E2 & E3) by (vm_compute; done).
  cbv zeta. destruct (harp_store_gc _ _ _ _) as [g w'] eqn:E. cbn [fst snd] in *. subst g.
  apply bool_decide_eq_true in E2. split; [reflexivity|]. split; [exact E2|]. split; [exact E3|].
  apply (@gc_complete os_good no_faults always_mem s_dir 1 (world_of (demo_fs [97; 47; 98])) w' (hash_of 1)).
  - apply demo_store. vm_compute. reflexivity.
  - exact demo_removal_ok.
  - exact E.
  - apply is_hash_compute.
  - exact E2.
Defined.

(** a ref can be written under a name that the collector does not see.  The
    names ["a/.b"] and ["a/b.tmp.c"] are accepted by [harp_store_ref_write], and the
    ref reads back; but [walk_one] skips such directory entries, so an unlimited
    [harp_store_gc] returns 0 and deletes the object the ref points to. *)
Theorem gc_hidden_ref :
  Forall (fun name =>
    let put x w := (@harp_store_put os_good no_faults s_dir (blob_of x) w).2 in
    let '(o, w) := @harp_store_ref_write os_good no_faults always_mem s_dir (demo_ref name)
      (put 1 (put 2 (world_of fs_empty))) in
    let '(g, w') := @harp_store_gc os_good no_faults always_mem s_dir 0 true w in
    o = Some tt /\ (@harp_store_ref_read os_good s_dir name w').1 = Some (demo_ref name) /\
    is_Some (obj_data s_dir (w_fs w) (hash_of 1)) /\ g = GcOk 2 /\ obj_data s_dir (w_fs w') (hash_of 1) = None)
  [[97; 47; 46; 98]; [97; 47; 98; 46; 116; 109; 112; 46; 99]].
Proof.
  apply Forall_cons. split; [vm_compute|apply Forall_cons; split; [vm_compute|constructor]];
    (split_and!; try reflexivity; eexists; reflexivity).
Qed.

(** *** The collection that does not return *)

(** [os_good], but the first listing fails. *)
Definition os_blind : OS :=
  {| os_mkdir := fun _ => true; os_open := fun _ => true; os_write := fun _ => (true, 0%nat);
     os_flush := fun _ => (true, 0%nat); os_sync := fun _ => true; os_close := fun _ => 0%nat;
     os_rename := fun _ => true; os_remove := fun _ => true; os_read := fun _ => None;
     os_opendir := fun t => negb (t =? 0)%nat; os_order := fun _ l => l;
     os_order_perm := fun _ l => Permutation.Permutation_refl l; os_pid := 4242 |}.

(** A list of sixteen blobs, and a ref to it. *)
Definition crowd : list Z := map Z.of_nat (seq 0 16).
Definition crowd_list : list Z := enc_obj (OList [] (map hash_of crowd)).
Definition crowd_ref : harp_ref := mk_ref [97] false (harp_hash_compute crowd_list) 1 false.

Definition crowd_fs : fs :=
  let put enc f := put_file (obj_path s_dir (harp_hash_compute enc)) (mk_file enc true) f in
  put_file (s_dir ++ s_refs ++ [SLASH; 97]) (mk_file (enc_ref crowd_ref) true)
    (put crowd_list (fold_right (fun x => put (blob_of x)) fs_empty crowd)).

(** a collection may not return.  [harp_store_obj_count] ignores that the
    listing of [objects/] failed and counts none, so the table has 16 slots; the
    seventeenth reachable object finds them all taken and [hs_add] goes round for
    ever.  With the listing working the same store is collected. *)
Theorem gc_hangs :
  (@harp_store_gc os_blind no_faults always_mem s_dir 0 true (world_of crowd_fs)).1 = GcHung /\
  (@harp_store_gc os_good no_faults always_mem s_dir 0 true (world_of crowd_fs)).1 = GcOk 0.
Proof. split; vm_compute; reflexivity. Qed.
