(* ===== verification/VoiceAlloc.v ===== *)
(** * Voice allocation ([device/voice_alloc.h])

    The choice of the voice a note-on takes, as the two loops of
    [harp_voice_pick], and what it guarantees: the first free voice, else the
    oldest. *)
From Stdlib Require Import ZArith Lia List.
From stdpp Require Import base tactics list numbers.
From S2P Require Import Prelude.

Open Scope Z_scope.
Open Scope list_scope.

(** [for (i = 0; i < n; i++) if (!active[i]) return i;]: [k] iterations left. *)
Fixpoint free_loop (active : list bool) (k i : nat) : option nat :=
  match k with
  | O => None
  | S k => if negb (nth i active false) then Some i else free_loop active k (S i)
  end.

(** [for (i = 1; i < n; i++) if (alloc_seq[i] < alloc_seq[oldest]) oldest = i;] *)
Fixpoint oldest_loop (alloc_seq : list Z) (k i oldest : nat) : nat :=
  match k with
  | O => oldest
  | S k => oldest_loop alloc_seq k (S i) (if nth i alloc_seq 0 <? nth oldest alloc_seq 0 then i else oldest)
  end.

Definition harp_voice_pick (active : list bool) (alloc_seq : list Z) (n : nat) : nat :=
  match free_loop active n 0 with
  | Some i => i
  | None => oldest_loop alloc_seq (n - 1) 1 0
  end.

Lemma free_loop_spec active k i :
  match free_loop active k i with
  | Some j => (i <= j < i + k)%nat /\ nth j active false = false /\
              forall l, (i <= l < j)%nat -> nth l active false = true
  | None => forall l, (i <= l < i + k)%nat -> nth l active false = true
  end.
Proof.
  revert i. induction k as [|k IH]; intros i; cbn [free_loop]; [intros; lia|].
  destruct (nth i active false) eqn:E; cbn [negb].
  - specialize (IH (S i)). destruct (free_loop active k (S i)) as [j|].
    + destruct IH as (H1 & H2 & H3). split_and!; [lia|lia|done|]. intros l Hl.
      destruct (decide (l = i)) as [->|]; [done|apply H3; lia].
    + intros l Hl. destruct (decide (l = i)) as [->|]; [done|apply IH; lia].
  - split_and!; [lia|lia|done|intros; lia].
Qed.

(** [oldest] is the first of the smallest among the first [i]. *)
Definition first_min (seq : list Z) (i oldest : nat) : Prop :=
  (oldest < i)%nat /\ forall l, (l < i)%nat ->
    if (l <? oldest)%nat then nth oldest seq 0 < nth l seq 0 else nth oldest seq 0 <= nth l seq 0.

Lemma oldest_loop_spec seq k i oldest : first_min seq i oldest -> first_min seq (i + k) (oldest_loop seq k i oldest).
Proof.
  revert i oldest. induction k as [|k IH]; intros i oldest Hm; cbn [oldest_loop]; [by rewrite Nat.add_0_r|].
  replace (i + S k)%nat with (S i + k)%nat by lia. apply IH. destruct Hm as [Ho Hm].
  destruct (Z.ltb_spec (nth i seq 0) (nth oldest seq 0)) as [Hlt|Hge]; (split; [lia|]); intros l Hl.
  - destruct (Nat.ltb_spec l i) as [H|H].
    + specialize (Hm l H). destruct (l <? oldest)%nat; lia.
    + assert (l = i) as -> by lia. lia.
  - destruct (decide (l = i)) as [->|Hne]; [|apply Hm; lia].
    destruct (Nat.ltb_spec i oldest); lia.
Qed.

(** voice allocation is deterministic and fair.  The index returned is in the
    pool; if a voice is free it is the first free one, and otherwise it is the
    voice with the smallest allocation number, the first of them if several have
    it: every other voice was allocated later. *)
Theorem voice_pick_spec (active : list bool) (alloc_seq : list Z) (n : nat) :
  (0 < n)%nat ->
  let v := harp_voice_pick active alloc_seq n in
  (v < n)%nat /\
  ((nth v active false = false /\ forall l, (l < v)%nat -> nth l active false = true) \/
   ((forall l, (l < n)%nat -> nth l active false = true) /\
    (forall l, (l < n)%nat -> nth v alloc_seq 0 <= nth l alloc_seq 0) /\
    (forall l, (l < v)%nat -> nth v alloc_seq 0 < nth l alloc_seq 0))).
Proof.
  intros Hn. unfold harp_voice_pick. pose proof (free_loop_spec active n 0) as Hf.
  destruct (free_loop active n 0) as [j|].
  - destruct Hf as (H1 & H2 & H3). split; [lia|]. left. split; [done|]. intros l Hl. apply H3. lia.
  - destruct (oldest_loop_spec alloc_seq (n - 1) 1 0) as [H1 H2].
    { split; [lia|]. intros l Hl. assert (l = 0%nat) as -> by lia. cbn. lia. }
    replace (1 + (n - 1))%nat with n in * by lia. split; [done|]. right. split_and!.
    + intros l Hl. apply Hf. lia.
    + intros l Hl. specialize (H2 l Hl). destruct (_ <? _)%nat; lia.
    + intros l Hl. specialize (H2 l ltac:(lia)). by rewrite (proj2 (Nat.ltb_lt _ _)) in H2.
Qed.

Lemma voice_pick_spec_witness :
  harp_voice_pick [true; false; false] [5; 3; 4] 3 = 1%nat /\
  harp_voice_pick [true; true; true] [5; 3; 4] 3 = 1%nat /\
  forall l, (l < 3)%nat -> 3 <= nth l [5; 3; 4] 0.
Proof.
  split; [reflexivity|]. split; [reflexivity|].
  destruct (voice_pick_spec [true; true; true] [5; 3; 4] 3 ltac:(lia)) as [_ [[H _]|(_ & H & _)]]; [discriminate H|exact H].
Defined.
