(* ===== verification/RateLimit.v ===== *)
(** * Rate limits ([device/op_ratelimit.h], [device/conn_ratelimit.h])

    The token bucket for the expensive control operations and the penalty ring for
    peers that hold a connection without completing the handshake. *)
From Stdlib Require Import ZArith Lia List.
From stdpp Require Import base tactics list numbers.
From S2P Require Import Prelude.

Open Scope Z_scope.
Open Scope list_scope.

(** ** The token bucket *)

Record harp_op_bucket := mk_bucket { allowance_ns : Z; last_ns : Z }.

Definition harp_op_admit (b : harp_op_bucket) (now_ns cost_ns burst_ns : Z) : bool * harp_op_bucket :=
  let allowance :=
    if last_ns b =? 0 then burst_ns
    else if last_ns b <? now_ns then
      let a := u64 (allowance_ns b + u64 (now_ns - last_ns b)) in
      if burst_ns <? a then burst_ns else a
    else allowance_ns b in
  if cost_ns <=? allowance then (true, mk_bucket (allowance - cost_ns) now_ns)
  else (false, mk_bucket allowance now_ns).

(** The decisions on operations that arrive at the given times. *)
Fixpoint op_run (cost burst : Z) (b : harp_op_bucket) (ts : list Z) : list bool :=
  match ts with
  | [] => []
  | t :: r => let '(ok, b') := harp_op_admit b t cost burst in ok :: op_run cost burst b' r
  end.

(** A bucket as the session zeroes it. *)
Definition fresh_bucket : harp_op_bucket := mk_bucket 0 0.

Definition admitted (l : list bool) : Z := Z.of_nat (count_occ Bool.bool_dec l true).

Lemma admitted_cons b l : admitted (b :: l) = (if b then 1 else 0) + admitted l.
Proof. unfold admitted. cbn [count_occ]. destruct b; cbn [Bool.bool_dec]; [destruct (Bool.bool_dec true true)|destruct (Bool.bool_dec false true)]; try congruence; lia. Qed.

(** Times that do not decrease, from [t] on. *)
Fixpoint monotone_from (gap t : Z) (ts : list Z) : Prop :=
  match ts with [] => True | x :: r => t + gap <= x /\ monotone_from gap x r end.

Lemma last_indep {A} (y : A) l d d' : List.last (y :: l) d = List.last (y :: l) d'.
Proof. revert y. induction l as [|z l IH]; intros y; [done|]. exact (IH z). Qed.

Lemma last_step {A} (t d : A) ts : List.last (t :: ts) d = List.last ts t.
Proof. destruct ts as [|x ts]; [done|]. exact (last_indep x ts d t). Qed.

Lemma monotone_last gap t ts : 0 <= gap -> monotone_from gap t ts -> t <= List.last ts t.
Proof.
  intros Hg. revert t. induction ts as [|x ts IH]; intros t H; [cbn; lia|]. destruct H as [H1 H2].
  specialize (IH x H2). rewrite last_step. lia.
Qed.

(** One decision of a bucket in use: what is spent plus what is left does not
    exceed what was left plus the time that has passed. *)
Lemma op_admit_step b t cost burst : 0 <= cost -> 0 <= allowance_ns b <= burst -> 0 < last_ns b <= t -> burst + t < 2 ^ 64 ->
  let '(ok, b') := harp_op_admit b t cost burst in
  last_ns b' = t /\ 0 <= allowance_ns b' <= burst /\
  (if ok then cost else 0) + allowance_ns b' <= allowance_ns b + (t - last_ns b) /\
  (cost <= burst -> cost <= t - last_ns b -> ok = true).
Proof.
  intros Hc Ha Hl Ht. unfold harp_op_admit. rewrite (proj2 (Z.eqb_neq _ 0)) by lia.
  assert (u64 (allowance_ns b + u64 (t - last_ns b)) = allowance_ns b + (t - last_ns b)) as Hu
    by (rewrite (u64_small (t - last_ns b)) by ulia; rewrite u64_small by ulia; done).
  cbv zeta. rewrite Hu. destruct (Z.ltb_spec (last_ns b) t); repeat case_cond; cbn [allowance_ns last_ns]; split_and!; intros; lia.
Qed.

Lemma op_run_bound cost burst ts : 0 <= cost -> forall b,
  0 <= allowance_ns b <= burst -> 0 < last_ns b -> monotone_from 0 (last_ns b) ts -> burst + List.last ts (last_ns b) < 2 ^ 64 ->
  admitted (op_run cost burst b ts) * cost <= allowance_ns b + (List.last ts (last_ns b) - last_ns b).
Proof.
  intros Hc. induction ts as [|t ts IH]; intros b Ha Hl Hm Ht; cbn [op_run]; [change (admitted []) with 0; cbn [List.last]; lia|].
  destruct Hm as [Hm1 Hm2]. pose proof (monotone_last 0 t ts ltac:(lia) Hm2) as Hlast.
  rewrite last_step in *. pose proof (op_admit_step b t cost burst Hc Ha ltac:(lia) ltac:(lia)) as Hs.
  destruct (harp_op_admit b t cost burst) as [ok b']. destruct Hs as (H1 & H2 & H3 & _).
  rewrite admitted_cons. rewrite <- H1 in Hm2, Ht, Hlast |- *.
  specialize (IH b' H2 ltac:(lia) Hm2 Ht). destruct ok; lia.
Qed.

Lemma op_run_cadence cost burst ts : 0 <= cost <= burst -> forall b,
  0 <= allowance_ns b <= burst -> 0 < last_ns b -> monotone_from cost (last_ns b) ts -> burst + List.last ts (last_ns b) < 2 ^ 64 ->
  Forall (fun ok => ok = true) (op_run cost burst b ts).
Proof.
  intros Hc. induction ts as [|t ts IH]; intros b Ha Hl Hm Ht; cbn [op_run]; [constructor|].
  destruct Hm as [Hm1 Hm2]. pose proof (monotone_last cost t ts ltac:(lia) Hm2) as Hlast.
  rewrite last_step in *. pose proof (op_admit_step b t cost burst ltac:(lia) Ha ltac:(lia) ltac:(lia)) as Hs.
  destruct (harp_op_admit b t cost burst) as [ok b']. destruct Hs as (H1 & H2 & _ & H3).
  constructor; [apply H3; lia|]. rewrite <- H1 in Hm2, Ht, Hlast. apply IH; try done; lia.
Qed.

(** the token bucket throttles floods and nothing else.  On a new session, for
    operations at any non-decreasing monotonic times (not zero, and far from the
    end of the 64-bit clock), those admitted cost no more than the burst and the
    time from the first to the last; if each comes at least [cost_ns] after the
    one before, all are admitted. *)
Theorem op_admit_bounds (cost burst t : Z) (ts : list Z) :
  0 <= cost <= burst -> 0 < t -> monotone_from 0 t ts -> burst + List.last ts t < 2 ^ 64 ->
  admitted (op_run cost burst fresh_bucket (t :: ts)) * cost <= burst + (List.last ts t - t) /\
  (monotone_from cost t ts -> Forall (fun ok => ok = true) (op_run cost burst fresh_bucket (t :: ts))).
Proof.
  intros Hc Ht Hm Hb. cbn [op_run]. unfold harp_op_admit. cbn [last_ns fresh_bucket Z.eqb].
  rewrite (proj2 (Z.leb_le cost burst)) by lia. rewrite admitted_cons. split.
  - pose proof (op_run_bound cost burst ts ltac:(lia) (mk_bucket (burst - cost) t)) as H. cbn [allowance_ns last_ns] in H.
    specialize (H ltac:(lia) Ht Hm Hb). lia.
  - intros Hm'. constructor; [done|]. apply op_run_cadence; cbn [allowance_ns last_ns]; try done; lia.
Qed.

Lemma op_admit_bounds_witness :
  op_run 10 25 fresh_bucket [100; 100; 100; 106] = [true; true; false; true] /\
  admitted (op_run 10 25 fresh_bucket [100; 100; 100; 106]) * 10 <= 25 + 6 /\
  Forall (fun ok => ok = true) (op_run 10 25 fresh_bucket [100; 110; 125]).
Proof.
  split; [reflexivity|].
  split; [apply (op_admit_bounds 10 25 100 [100; 100; 106])|apply (op_admit_bounds 10 25 100 [110; 125])];
    cbn [monotone_from List.last]; lia.
Defined.

(** ** The penalty ring *)

Record harp_peer_penalty := mk_penalty { pp_ip : Z; pp_until : Z }.

Definition harp_peer_penalized (ring : list harp_peer_penalty) (ip_net now_ns : Z) : bool :=
  if ip_net =? 0 then false
  else existsb (fun p => (pp_ip p =? ip_net) && (now_ns <? pp_until p)) ring.

Definition harp_peer_penalize (ring : list harp_peer_penalty) (idx : nat) (ip_net now_ns penalty_ns : Z) :
    list harp_peer_penalty * nat :=
  if ip_net =? 0 then (ring, idx)
  else (<[idx := mk_penalty ip_net (u64 (now_ns + penalty_ns))]> ring, ((idx + 1) mod length ring)%nat).

(** The static ring of [n] slots, and a history of failures [(ip, now)]. *)
Definition empty_ring (n : nat) : list harp_peer_penalty := repeat (mk_penalty 0 0) n.

Definition penalize_all (n : nat) (penalty : Z) (es : list (Z * Z)) : list harp_peer_penalty * nat :=
  fold_left (fun st e => harp_peer_penalize st.1 st.2 e.1 e.2 penalty) es (empty_ring n, 0%nat).

(** Failures of peers that have an address. *)
Definition counted (es : list (Z * Z)) : list (Z * Z) := List.filter (fun e => negb (e.1 =? 0)) es.

Definition penalty_of (penalty : Z) (e : Z * Z) : harp_peer_penalty := mk_penalty e.1 (u64 (e.2 + penalty)).

(** Slot [j mod n] holds failure [j] for the last [n] failures, and nothing but
    failures is in the ring. *)
Definition ring_holds (n : nat) (penalty : Z) (es : list (Z * Z)) (st : list harp_peer_penalty * nat) : Prop :=
  length st.1 = n /\ st.2 = (length (counted es) mod n)%nat /\
  (forall j e, (length (counted es) <= j + n)%nat -> counted es !! j = Some e -> st.1 !! (j mod n)%nat = Some (penalty_of penalty e)) /\
  (forall p, p ∈ st.1 -> pp_ip p <> 0 -> exists e, e ∈ counted es /\ p = penalty_of penalty e).

Lemma counted_snoc es e : counted (es ++ [e]) = counted es ++ (if e.1 =? 0 then [] else [e]).
Proof. unfold counted. rewrite filter_app. cbn [List.filter]. by destruct (e.1 =? 0). Qed.

Lemma ring_holds_all n penalty es : (0 < n)%nat -> ring_holds n penalty es (penalize_all n penalty es).
Proof.
  intros Hn. unfold penalize_all. induction es as [|e es IH] using rev_ind.
  { cbn [fold_left]. split_and!.
    - apply repeat_length.
    - cbn. by rewrite Nat.Div0.mod_0_l.
    - intros j e _ He. by destruct j.
    - intros p Hp. apply list_elem_of_In, repeat_spec in Hp as ->. done. }
  rewrite fold_left_app. cbn [fold_left]. set (st := fold_left _ es _) in *. destruct IH as (H1 & H2 & H3 & H4).
  unfold harp_peer_penalize, ring_holds. rewrite counted_snoc. destruct (Z.eqb_spec e.1 0) as [E|E].
  { rewrite app_nil_r. by split_and!. }
  set (cs := counted es) in *. rewrite H1. cbn [fst snd].
  assert (st.2 < length st.1)%nat as Hidx by (rewrite H1, H2; apply Nat.mod_upper_bound; lia).
  rewrite length_app. cbn [length]. split_and!.
  - by rewrite length_insert.
  - rewrite H2. by rewrite Nat.Div0.add_mod_idemp_l.
  - intros j x Hj Hx. destruct (decide (j = length cs)) as [->|Hne].
    + rewrite lookup_app_r, Nat.sub_diag in Hx by lia. injection Hx as <-. rewrite <- H2. by rewrite list_lookup_insert_eq.
    + assert (j < length cs)%nat as Hjl.
      { apply lookup_lt_Some in Hx. rewrite length_app in Hx. cbn in Hx. lia. }
      rewrite lookup_app_l in Hx by done. rewrite list_lookup_insert_ne; [apply H3; [lia|done]|].
      rewrite H2. intros Emod. assert (length cs - j = n * ((length cs) / n - j / n))%nat as Ed.
      { pose proof (Nat.div_mod_eq (length cs) n). pose proof (Nat.div_mod_eq j n). nia. }
      nia.
  - intros p Hp Hip. apply list_elem_of_lookup in Hp as [k Hk]. destruct (decide (k = st.2)) as [->|Hne].
    + rewrite list_lookup_insert_eq in Hk by done. injection Hk as <-. exists e. split; [|done].
      apply elem_of_app. right. by left.
    + rewrite list_lookup_insert_ne in Hk by done. destruct (H4 p) as (x & Hx & ->); [by apply list_elem_of_lookup; exists k|done|].
      exists x. split; [|done]. apply elem_of_app. by left.
Qed.

(** the penalty ring sheds the abusers it remembers and nobody else.  After any
    history of failures (with clocks far from the end of 64 bits), a peer that is
    shed has an address and failed less than the penalty ago; and one that failed
    less than the penalty ago is shed, as long as the failure is among the last
    [n] of the history. *)
Theorem peer_penalty_exact (n : nat) (penalty : Z) (es : list (Z * Z)) (ip now : Z) :
  (0 < n)%nat -> 0 <= penalty -> Forall (fun e => 0 <= e.2 /\ e.2 + penalty < 2 ^ 64) es ->
  let ring := (penalize_all n penalty es).1 in
  (harp_peer_penalized ring ip now = true -> ip <> 0 /\ exists t, (ip, t) ∈ es /\ now < t + penalty) /\
  (forall j t, counted es !! j = Some (ip, t) -> (length (counted es) <= j + n)%nat -> now < t + penalty ->
     harp_peer_penalized ring ip now = true).
Proof.
  intros Hn Hp Hes. destruct (ring_holds_all n penalty es Hn) as (H1 & H2 & H3 & H4). cbv zeta.
  assert (forall e, e ∈ counted es -> e ∈ es /\ e.1 <> 0 /\ u64 (e.2 + penalty) = e.2 + penalty) as Hc.
  { intros e He. apply list_elem_of_In, filter_In in He as [He Hz]. apply negb_true_iff, Z.eqb_neq in Hz.
    rewrite List.Forall_forall in Hes. specialize (Hes e He). split_and!; [by apply list_elem_of_In|done|]. apply u64_small. ulia. }
  unfold harp_peer_penalized. split.
  - destruct (Z.eqb_spec ip 0) as [|Hip]; [done|]. intros (p & Hin & Hm)%existsb_exists. apply andb_prop in Hm as [Hi Hu].
    apply Z.eqb_eq in Hi. apply Z.ltb_lt in Hu. destruct (H4 p) as (e & He & ->); [by apply list_elem_of_In|lia|].
    destruct (Hc e He) as (Hin' & _ & Eu). cbn [penalty_of pp_ip pp_until] in *. split; [done|]. exists e.2. rewrite Eu in Hu.
    split; [|done]. subst ip. by destruct e.
  - intros j t Hj Hlen Hnow. destruct (Hc (ip, t)) as (_ & Hip & Eu); [by apply list_elem_of_lookup; exists j|]. cbn [fst snd] in *.
    rewrite (proj2 (Z.eqb_neq _ _)) by done. apply existsb_exists. exists (penalty_of penalty (ip, t)). split.
    + apply list_elem_of_In, list_elem_of_lookup. exists (j mod n)%nat. by apply H3.
    + cbn [penalty_of pp_ip pp_until fst snd]. rewrite Z.eqb_refl, Eu. apply Z.ltb_lt. lia.
Qed.

Lemma peer_penalty_exact_witness :
  let es := [(7, 100); (0, 100); (8, 110); (9, 120)] in
  harp_peer_penalized (penalize_all 2 50 es).1 7 130 = false /\
  harp_peer_penalized (penalize_all 2 50 es).1 8 130 = true /\
  harp_peer_penalized (penalize_all 2 50 es).1 8 160 = false.
Proof.
  intros es. split; [reflexivity|]. split; [|reflexivity].
  destruct (peer_penalty_exact 2 50 es 8 130) as [_ H]; [lia|lia|repeat constructor; cbn; lia|].
  apply (H 1%nat 110); [reflexivity|cbn; lia|lia].
Defined.
