(* ===== verification/ArpSelect.v ===== *)
(** * Arpeggiator note selection ([device/arp_select.h])

    [harp_arp_select]: the position of a step in the cycle of notes and octaves,
    the exchange sort of the latched notes, the clamp.  The C [int]s are integers
    here: with at most [ARP_LATCH_MAX] (8) notes and the few octaves of the
    parameter the products are far from the end of their range, and signed
    overflow of the step count would be undefined behaviour. *)
From Stdlib Require Import ZArith Lia List Permutation.
From stdpp Require Import base tactics list numbers.
From S2P Require Import Prelude.

Open Scope Z_scope.
Open Scope list_scope.

Record harp_arp_pick := mk_pick { pick_note : Z; pick_sel : nat }.

(** The position within [notes x octaves] that a step sounds ([idx] and [oct] are
    its remainder and quotient by the number of notes); C's [/] and [%]. *)
Definition arp_position (mode step span : Z) : Z :=
  let s := Z.rem step span in
  if mode =? 2 then span - 1 - s
  else if mode =? 3 then
    let cycle := if 1 <? span then 2 * span - 2 else 1 in
    let t := Z.rem step cycle in
    if span <=? t then cycle - t else t
  else s.

(** [t = order[i]; order[i] = order[j]; order[j] = t;] *)
Definition swap (order : list nat) (i j : nat) : list nat :=
  <[j := nth i order 0%nat]> (<[i := nth j order 0%nat]> order).

(** The inner loop from [j], [k] iterations left; the outer loop from [i]. *)
Fixpoint sort_inner (latch : list Z) (k i j : nat) (order : list nat) : list nat :=
  match k with
  | O => order
  | S k =>
      sort_inner latch k i (S j)
        (if nth (nth j order 0%nat) latch 0 <? nth (nth i order 0%nat) latch 0 then swap order i j else order)
  end.

Fixpoint sort_outer (latch : list Z) (n k i : nat) (order : list nat) : list nat :=
  match k with
  | O => order
  | S k => sort_outer latch n k (S i) (sort_inner latch (n - S i) i (S i) order)
  end.

(** The pick and the contents of the caller's scratch. *)
Definition harp_arp_select (mode step : Z) (latch : list Z) (nlatch : nat) (octaves : Z) : harp_arp_pick * list nat :=
  let n := Z.of_nat nlatch in
  let p := arp_position mode step (n * (octaves + 1)) in
  let idx := Z.rem p n in
  let oct := Z.quot p n in
  let order0 := seq 0 nlatch in
  let order := if mode =? 4 then order0 else sort_outer latch nlatch nlatch 0 order0 in
  let sel := nth (Z.to_nat idx) order 0%nat in
  let note := nth sel latch 0 + 12 * oct in
  (mk_pick (if 127 <? note then nth sel latch 0 else note) sel, order).

(** ** The sort *)

Lemma swap_length o i j : length (swap o i j) = length o.
Proof. unfold swap. by rewrite !length_insert. Qed.

Lemma nth_swap o i j b : (i < length o)%nat -> (j < length o)%nat -> i <> j ->
  nth b (swap o i j) 0%nat = if (b =? j)%nat then nth i o 0%nat else if (b =? i)%nat then nth j o 0%nat else nth b o 0%nat.
Proof. intros Hi Hj Hne. unfold swap. rewrite nth_list_insert by (by rewrite length_insert). by rewrite nth_list_insert. Qed.

Lemma nth_error_list_lookup {A} (l : list A) x : nth_error l x = l !! x.
Proof. revert x. induction l as [|y l IH]; intros [|x]; try done. apply IH. Qed.

Lemma swap_perm o i j : (i < length o)%nat -> (j < length o)%nat -> i <> j -> Permutation o (swap o i j).
Proof.
  intros Hi Hj Hne. apply Permutation_nth_error. split; [by rewrite swap_length|].
  exists (fun b => if (b =? j)%nat then i else if (b =? i)%nat then j else b). split.
  - intros x y. repeat case_match; repeat (rewrite ?Nat.eqb_eq, ?Nat.eqb_neq in * ); lia.
  - intros x. rewrite !nth_error_list_lookup. unfold swap.
    destruct (Nat.eqb_spec x j) as [->|Hxj].
    { rewrite list_lookup_insert_eq by (by rewrite length_insert).
      destruct (lookup_lt_is_Some_2 o i Hi) as [v Hv]. rewrite Hv. f_equal. by apply nth_lookup_Some. }
    rewrite list_lookup_insert_ne by done. destruct (Nat.eqb_spec x i) as [->|Hxi].
    { rewrite list_lookup_insert_eq by done. destruct (lookup_lt_is_Some_2 o j Hj) as [v Hv]. rewrite Hv. f_equal. by apply nth_lookup_Some. }
    by rewrite list_lookup_insert_ne.
Qed.

Section sort.
Context (latch : list Z) (n : nat).

Definition key (o : list nat) (a : nat) : Z := nth (nth a o 0%nat) latch 0.

(** The first [i] are in order and below everything after them. *)
Definition sorted_upto (i : nat) (o : list nat) : Prop :=
  forall a b, (a < i)%nat -> (a < b)%nat -> (b < n)%nat -> key o a <= key o b.

Lemma key_swap o i j b : length o = n -> (i < n)%nat -> (j < n)%nat -> i <> j ->
  key (swap o i j) b = if (b =? j)%nat then key o i else if (b =? i)%nat then key o j else key o b.
Proof. intros Ho Hi Hj Hne. unfold key. rewrite nth_swap by lia. by repeat case_match. Qed.

Lemma sort_inner_spec k i : forall j o, length o = n -> (i < j)%nat -> (j + k)%nat = n ->
  sorted_upto i o -> (forall l, (i < l)%nat -> (l < j)%nat -> key o i <= key o l) ->
  let o' := sort_inner latch k i j o in
  Permutation o o' /\ sorted_upto (S i) o'.
Proof.
  induction k as [|k IH]; intros j o Ho Hij Hjk Hs Hl; cbn [sort_inner].
  { split; [done|]. intros a b Ha Hab Hb. destruct (decide (a = i)) as [->|]; [apply Hl; lia|apply Hs; lia]. }
  destruct (Z.ltb_spec (nth (nth j o 0%nat) latch 0) (nth (nth i o 0%nat) latch 0)) as [Hlt|Hge].
  - change (key o j < key o i) in Hlt.
    destruct (IH (S j) (swap o i j)) as [H1 H2]; [by rewrite swap_length|lia|lia| | |].
    + intros a b Ha Hab Hb. rewrite !key_swap by lia. rewrite (proj2 (Nat.eqb_neq a j)), (proj2 (Nat.eqb_neq a i)) by lia.
      repeat case_match; apply Hs; lia.
    + intros l H1 H2. rewrite !key_swap by lia. rewrite (proj2 (Nat.eqb_neq i j)), Nat.eqb_refl by lia.
      rewrite (proj2 (Nat.eqb_neq l i)) by lia. destruct (Nat.eqb_spec l j); [lia|]. specialize (Hl l H1 ltac:(lia)). lia.
    + split; [|done]. etrans; [apply (swap_perm o i j); lia|done].
  - change (key o i <= key o j) in Hge. apply IH; try lia; [done|].
    intros l H1 H2. destruct (decide (l = j)) as [->|]; [done|apply Hl; lia].
Qed.

Lemma sort_outer_spec k : forall i o, length o = n -> (i + k)%nat = n -> sorted_upto i o ->
  let o' := sort_outer latch n k i o in Permutation o o' /\ sorted_upto n o'.
Proof.
  induction k as [|k IH]; intros i o Ho Hik Hs; cbn [sort_outer].
  { rewrite Nat.add_0_r in Hik. by subst i. }
  destruct (sort_inner_spec (n - S i) i (S i) o Ho) as [H1 H2]; [lia|lia|done|intros; lia|].
  destruct (IH (S i) (sort_inner latch (n - S i) i (S i) o)) as [H3 H4]; [by rewrite <- H1|lia|done|].
  split; [by etrans|done].
Qed.
End sort.

(** ** The positions *)

Lemma arp_position_range mode step span : 0 < span -> 0 <= step -> 0 <= arp_position mode step span < span.
Proof.
  intros Hs Hst. unfold arp_position. pose proof (Z.rem_bound_pos step span Hst Hs).
  case_cond; [lia|]. case_cond; [|lia]. set (cycle := if 1 <? span then 2 * span - 2 else 1).
  assert (0 < cycle /\ cycle <= 2 * span - 1 /\ (1 < span -> cycle = 2 * span - 2)) as (Hc & Hc2 & Hc3) by (unfold cycle; case_cond; lia).
  pose proof (Z.rem_bound_pos step cycle Hst Hc). cbv zeta. case_cond; lia.
Qed.

(** What a step plays is in range: [0 <= idx < nlatch] and within the octaves. *)
Lemma arp_select_run mode step latch n octaves :
  length latch = n -> (0 < n)%nat -> 0 <= octaves -> 0 <= step ->
  let '(r, order) := harp_arp_select mode step latch n octaves in
  let p := arp_position mode step (Z.of_nat n * (octaves + 1)) in
  Permutation (seq 0 n) order /\ (mode = 4 -> order = seq 0 n) /\ (mode <> 4 -> sorted_upto latch n n order) /\
  0 <= p mod Z.of_nat n < Z.of_nat n /\ 0 <= p / Z.of_nat n <= octaves /\
  pick_sel r = nth (Z.to_nat (p mod Z.of_nat n)) order 0%nat /\
  pick_note r = (let note := nth (pick_sel r) latch 0 + 12 * (p / Z.of_nat n) in if 127 <? note then nth (pick_sel r) latch 0 else note).
Proof.
  intros Hlen Hn Ho Hst. unfold harp_arp_select. set (span := Z.of_nat n * (octaves + 1)). assert (0 < span) as Hs by nia.
  pose proof (arp_position_range mode step span Hs Hst) as Hp. cbv zeta. cbn [pick_note pick_sel].
  rewrite Z.rem_mod_nonneg, Z.quot_div_nonneg by lia.
  destruct (sort_outer_spec latch n n 0 (seq 0 n)) as [H1 H2]; [apply length_seq|lia|intros a b Ha; lia|].
  split_and!.
  - by destruct (mode =? 4).
  - by intros ->.
  - intros Hm. by rewrite (proj2 (Z.eqb_neq _ _)).
  - apply Z.mod_pos_bound. lia.
  - apply Z.mod_pos_bound. lia.
  - apply Z.div_pos; lia.
  - assert (arp_position mode step span / Z.of_nat n < octaves + 1) by (apply Z.div_lt_upper_bound; lia). lia.
  - done.
  - done.
Qed.

(** Up-down: a triangle wave of period [2 span - 2]. *)
Lemma updown_period step span : 1 < span -> 0 <= step ->
  arp_position 3 step span = (let t := step mod (2 * span - 2) in if span <=? t then 2 * span - 2 - t else t).
Proof.
  intros Hs Hst. unfold arp_position. cbn [Z.eqb Pos.eqb]. rewrite (proj2 (Z.ltb_lt _ _)) by done.
  by rewrite Z.rem_mod_nonneg by lia.
Qed.

Lemma updown_steps step span : 1 < span -> 0 <= step ->
  Z.abs (arp_position 3 (step + 1) span - arp_position 3 step span) = 1.
Proof.
  intros Hs Hst. rewrite !updown_period by lia. cbv zeta.
  pose proof (Z.mod_pos_bound step (2 * span - 2) ltac:(lia)) as Hb.
  assert ((step + 1) mod (2 * span - 2) = if step mod (2 * span - 2) =? 2 * span - 3 then 0 else step mod (2 * span - 2) + 1) as ->.
  { rewrite <- Z.add_mod_idemp_l by lia. 
    destruct (Z.eqb_spec (step mod (2 * span - 2)) (2 * span - 3)) as [E|E].
    - rewrite E. replace (2 * span - 3 + 1) with (2 * span - 2) by lia. apply Z_mod_same_full.
    - apply Z.mod_small. lia. }
  repeat case_cond; lia.
Qed.

Lemma updown_again step span : 1 < span -> 0 <= step -> arp_position 3 (step + (2 * span - 2)) span = arp_position 3 step span.
Proof.
  intros Hs Hst. rewrite !updown_period by lia. cbv zeta.
  replace (step + (2 * span - 2)) with (step + 1 * (2 * span - 2)) by lia. by rewrite Z.mod_add by lia.
Qed.

(** the arpeggiator plays what its mode says.  For [0 < nlatch] held notes and
    any step, the scratch is a permutation of the latch positions - in press order
    for as-played, by pitch otherwise; the note played is the one at the position
    of the step raised by whole octaves, or the plain note where that would exceed
    127, so a MIDI note stays one.  Up and as-played go through the positions in
    order, down in reverse, and up-down moves by exactly one position at every
    step, so that no end point is repeated, with period [2 span - 2]. *)
Theorem arp_select_spec (mode step : Z) (latch : list Z) (n : nat) (octaves : Z) :
  length latch = n -> (0 < n)%nat -> 0 <= octaves -> 0 <= step ->
  let span := Z.of_nat n * (octaves + 1) in
  let p := arp_position mode step span in
  let '(r, order) := harp_arp_select mode step latch n octaves in
  (Permutation (seq 0 n) order /\ (mode = 4 -> order = seq 0 n) /\ (mode <> 4 -> sorted_upto latch n n order)) /\
  ((pick_sel r < n)%nat /\ pick_sel r = nth (Z.to_nat (p mod Z.of_nat n)) order 0%nat /\
   exists oct, 0 <= oct <= octaves /\ pick_note r = nth (pick_sel r) latch 0 + 12 * oct /\
     (oct <> 0 -> pick_note r <= 127) /\ (oct = p / Z.of_nat n \/ (oct = 0 /\ 127 < nth (pick_sel r) latch 0 + 12 * (p / Z.of_nat n)))) /\
  (mode = 2 -> p = span - 1 - step mod span) /\
  (mode <> 2 -> mode <> 3 -> p = step mod span) /\
  (mode = 3 -> 1 < span ->
     Z.abs (arp_position mode (step + 1) span - p) = 1 /\ arp_position mode (step + (2 * span - 2)) span = p).
Proof.
  intros Hlen Hn Ho Hst span p. pose proof (arp_select_run mode step latch n octaves Hlen Hn Ho Hst) as H.
  destruct (harp_arp_select mode step latch n octaves) as [r order]. cbv zeta in H. fold span in H. fold p in H.
  destruct H as (H1 & H2 & H3 & H4 & H5 & H6 & H7). assert (0 < span) as Hs by nia. split_and!; try done.
  - assert (In (pick_sel r) (seq 0 n)) as Hin.
    { eapply Permutation_in; [symmetry; exact H1|]. rewrite H6. apply nth_In. rewrite <- H1, length_seq. lia. }
    apply in_seq in Hin. lia.
  - rewrite H7. cbv zeta. case_cond; [exists 0|exists (p / Z.of_nat n)]; split_and!; try lia.
  - intros ->. unfold p, arp_position. cbn [Z.eqb Pos.eqb]. by rewrite Z.rem_mod_nonneg by lia.
  - intros H2' H3'. unfold p, arp_position. rewrite !(proj2 (Z.eqb_neq _ _)) by done. by apply Z.rem_mod_nonneg; lia.
  - intros -> Hs1. split; [by apply updown_steps|by apply updown_again].
Qed.

(** Steps of the up-down mode over three notes in one octave. *)
Lemma arp_select_spec_witness :
  map (fun s => pick_note (harp_arp_select 3 s [64; 60; 67] 3 0).1) [0; 1; 2; 3; 4] = [60; 64; 67; 64; 60] /\
  pick_sel (harp_arp_select 3 2 [64; 60; 67] 3 0).1 = nth (Z.to_nat (2 mod 3)) [1; 0; 2]%nat 0%nat /\
  Z.abs (arp_position 3 3 3 - 2) = 1.
Proof.
  split; [reflexivity|].
  destruct (arp_select_spec 3 2 [64; 60; 67] 3 0 eq_refl ltac:(lia) ltac:(lia) ltac:(lia)) as (_ & (_ & H1 & _) & _ & _ & H2).
  split; [exact H1|]. apply (H2 eq_refl). reflexivity.
Defined.
