(* ===== verification/LogRing.v ===== *)
(** * The device log ring ([device/log_ring.c], [device/log_ring.h])

    A circular byte buffer of length-prefixed records that drops its oldest records
    when a new one does not fit.  The static variables are a record, positions are
    numbers below the capacity, which is a parameter here ([HARP_LOGRING_CAP] in
    the source).  The functions take the ring's mutex for their whole body, so a
    call is one atomic step.  The abstract specification is a bounded list of
    records. *)
From Stdlib Require Import ZArith Lia List.
From stdpp Require Import base tactics list numbers.
From S2P Require Import Prelude.
From S2P Require Import Cbuf.
From S2P Require Import CborEnc.
From S2P Require Import CborDec.

Open Scope Z_scope.
Open Scope list_scope.

Definition HARP_LOGRING_CAP : Z := 128 * 1024.
Definition HARP_LOGRING_BUNDLE_MAX : Z := 32 * 1024.
Definition LOGREC_TAG_MAX : nat := 31.
Definition LOGREC_MSG_MAX : nat := 480.
Definition HDR_BYTES : nat := 16.

Record log_ring := mk_ring {
  g_buf : list Z; g_head : nat; g_tail : nat; g_used : nat; g_nrec : nat; g_dropped : nat
}.

Section ring.
Context {R : Realloc} (cap : nat).

Definition ring_put (pos : nat) (p buf : list Z) : list Z :=
  let first := (cap - pos)%nat in
  if (length p <=? first)%nat then splice pos p buf
  else splice 0 (drop first p) (splice pos (take first p) buf).

Definition ring_get (pos n : nat) (buf : list Z) : list Z :=
  let first := (cap - pos)%nat in
  if (n <=? first)%nat then take n (drop pos buf)
  else take first (drop pos buf) ++ take (n - first) buf.

(** The stride stored in the first four bytes of the record at [pos]. *)
Definition rec_len (pos : nat) (buf : list Z) : nat := Z.to_nat (le_value (ring_get pos 4 buf)).

(** [while (g_used + total > HARP_LOGRING_CAP && g_nrec > 0)]: at most [g_nrec]
    iterations. *)
Fixpoint evict_loop (fuel total : nat) (r : log_ring) : log_ring :=
  match fuel with
  | O => r
  | S k =>
      if (cap <? g_used r + total)%nat && (0 <? g_nrec r)%nat then
        let rl := rec_len (g_tail r) (g_buf r) in
        evict_loop k total
          (mk_ring (g_buf r) (g_head r) ((g_tail r + rl) mod cap) (g_used r - rl) (g_nrec r - 1) (g_dropped r + 1))
      else r
  end.

Definition ring_append_locked (level : Z) (tag : option (list Z)) (msc : Z) (msg : list Z) (r : log_ring) : log_ring :=
  let tag := match tag with Some t => t | None => [] end in
  let taglen := Nat.min (length tag) LOGREC_TAG_MAX in
  let msglen := Nat.min (length msg) LOGREC_MSG_MAX in
  let total := (HDR_BYTES + taglen + msglen)%nat in
  if (cap <? total)%nat then r
  else
    let r := evict_loop (g_nrec r) total r in
    let h := le_bytes 4 (u32 (Z.of_nat total)) ++ le_bytes 8 msc ++ le_bytes 2 (u16 (Z.of_nat msglen)) ++
             [u8 level; u8 (Z.of_nat taglen)] in
    let buf := ring_put (g_head r) h (g_buf r) in
    let buf := ring_put ((g_head r + HDR_BYTES) mod cap) (take taglen tag) buf in
    let buf := ring_put ((g_head r + HDR_BYTES + taglen) mod cap) (take msglen msg) buf in
    mk_ring buf ((g_head r + total) mod cap) (g_tail r) (g_used r + total) (g_nrec r + 1) (g_dropped r).

(** Newlines and carriage returns at the end of the line are not stored. *)
Fixpoint strip_eol (rev_line : list Z) : list Z :=
  match rev_line with
  | c :: l => if (c =? 10) || (c =? 13) then strip_eol l else rev_line
  | [] => []
  end.

(** [line] is what the format expands to; [vsnprintf] keeps 1023 bytes of it.  The
    first component is what is written to standard error. *)
Definition harp_devlog (level : Z) (tag : option (list Z)) (line : list Z) (r : log_ring) : list Z * log_ring :=
  let buf := take 1023 line in
  (buf, ring_append_locked level tag 0 (rev (strip_eol (rev buf))) r).

Definition harp_devlog_put (level : Z) (tag : option (list Z)) (msc : Z) (msg : option (list Z)) (r : log_ring) : log_ring :=
  ring_append_locked level tag msc (match msg with Some m => m | None => [] end) r.

(** [while (remain > max_payload && nrec > 0)]: cursor, bytes and records left. *)
Fixpoint skip_loop (fuel max_payload cur remain nrec : nat) (buf : list Z) : nat * nat :=
  match fuel with
  | O => (cur, nrec)
  | S k =>
      if (max_payload <? remain)%nat && (0 <? nrec)%nat then
        let rl := rec_len cur buf in
        skip_loop k max_payload ((cur + rl) mod cap) (remain - rl) (nrec - 1) buf
      else (cur, nrec)
  end.

(** One record: what is written for it, and the stride to the next. *)
Definition emit_record (cur : nat) (buf : list Z) (m : cbuf) : cbuf :=
  let h := ring_get cur HDR_BYTES buf in
  let msc := le_value (take 8 (drop 4 h)) in
  let msglen := Z.to_nat (le_value (take 2 (drop 12 h))) in
  let level := nth 14 h 0 in
  let taglen := Z.to_nat (nth 15 h 0) in
  let tag := ring_get ((cur + HDR_BYTES) mod cap) taglen buf in
  let msg := ring_get ((cur + HDR_BYTES + taglen) mod cap) msglen buf in
  let m := harp_cbor_map m 4 in
  let m := harp_cbor_uint (harp_cbor_uint m 0) msc in
  let m := harp_cbor_uint (harp_cbor_uint m 1) level in
  let m := harp_cbor_textn (harp_cbor_uint m 2) tag in
  harp_cbor_textn (harp_cbor_uint m 3) msg.

Definition emit_stride (cur : nat) (buf : list Z) : nat := Z.to_nat (le_value (take 4 (ring_get cur HDR_BYTES buf))).

(** [for (i = 0; i < nrec; i++) { ... cur = (cur + total) % HARP_LOGRING_CAP; }] *)
Fixpoint record_loop {T} (stride : nat -> nat) (body : nat -> T -> T) (nrec cur : nat) (t : T) : T :=
  match nrec with
  | O => t
  | S k => record_loop stride body k ((cur + stride cur) mod cap) (body cur t)
  end.

Definition emit_loop (nrec cur : nat) (buf : list Z) (m : cbuf) : cbuf :=
  record_loop (fun cur => emit_stride cur buf) (fun cur m => emit_record cur buf m) nrec cur m.

Definition harp_devlog_emit_cbor (m : cbuf) (max_payload : nat) (r : log_ring) : cbuf :=
  let '(cur, nrec) := skip_loop (g_nrec r) max_payload (g_tail r) (g_used r) (g_nrec r) (g_buf r) in
  emit_loop nrec cur (g_buf r) (harp_cbor_array m (Z.of_nat nrec)).

Definition harp_devlog_count (r : log_ring) : nat := g_nrec r.
Definition harp_devlog_used (r : log_ring) : nat := g_used r.
Definition harp_devlog_dropped (r : log_ring) : nat := g_dropped r.
Definition harp_devlog_reset (r : log_ring) : log_ring := mk_ring (g_buf r) 0 0 0 0 0.
End ring.

(** ** The specification: a bounded list of records, oldest first *)

Record log_rec := mk_log { l_msc : Z; l_level : Z; l_tag : list Z; l_msg : list Z }.

Definition rec_size (x : log_rec) : nat := (HDR_BYTES + length (l_tag x) + length (l_msg x))%nat.
Definition recs_size (l : list log_rec) : nat := list_sum (map rec_size l).

(** Drop from the front until at most [budget] bytes are left. *)
Fixpoint keep_newest (budget : nat) (l : list log_rec) : list log_rec :=
  match l with
  | [] => []
  | x :: r => if (budget <? recs_size l)%nat then keep_newest budget r else l
  end.

(** What is stored of a line: bounded, the level in a byte. *)
Definition log_of (level : Z) (tag : option (list Z)) (msc : Z) (msg : list Z) : log_rec :=
  mk_log msc (u8 level) (take LOGREC_TAG_MAX (match tag with Some t => t | None => [] end)) (take LOGREC_MSG_MAX msg).

Definition log_append (cap : nat) (x : log_rec) (l : list log_rec) : list log_rec :=
  keep_newest (cap - rec_size x) l ++ [x].

Definition log_item (x : log_rec) : item :=
  IMap [(IUint 0, IUint (l_msc x)); (IUint 1, IUint (l_level x)); (IUint 2, IText (l_tag x)); (IUint 3, IText (l_msg x))].

(** ** Circular windows *)

Lemma nth_splice (o : nat) (s a : list Z) k : (o + length s <= length a)%nat ->
  nth k (splice o s a) 0 = if (o <=? k)%nat && (k <? o + length s)%nat then nth (k - o) s 0 else nth k a 0.
Proof.
  intros Hl. unfold splice. destruct (Nat.leb_spec o k); cbn [andb].
  - rewrite app_nth2 by (rewrite length_take; lia). rewrite length_take, Nat.min_l by lia.
    destruct (Nat.ltb_spec k (o + length s)).
    + by rewrite app_nth1 by lia.
    + rewrite app_nth2 by lia. rewrite nth_skipn. f_equal. lia.
  - rewrite app_nth1 by (rewrite length_take; lia). rewrite <- (take_drop o a) at 2. rewrite app_nth1; [done|].
    rewrite length_take. lia.
Qed.

Section windows.
Context {R : Realloc} (cap : nat) (Hcap : (0 < cap)%nat).

(** [n] bytes from [pos] on, around the end. *)
Definition circ (pos n : nat) (buf : list Z) : list Z := map (fun i => nth ((pos + i) mod cap) buf 0) (seq 0 n).

Lemma circ_length pos n buf : length (circ pos n buf) = n.
Proof. unfold circ. by rewrite length_map, length_seq. Qed.

Lemma circ_app pos a b buf : circ pos (a + b) buf = circ pos a buf ++ circ ((pos + a) mod cap) b buf.
Proof.
  unfold circ. rewrite seq_app, map_app. f_equal. rewrite <- (Nat.add_0_r (0 + a)), <- fmap_add_seq.
  change (0 + a)%nat with a. change (Nat.add a <$> seq 0 b) with (map (Nat.add a) (seq 0 b)). rewrite map_map. apply map_ext. intros i.
  f_equal. rewrite Nat.Div0.add_mod_idemp_l. f_equal. lia.
Qed.

Lemma nth_circ pos n buf i : (i < n)%nat -> nth i (circ pos n buf) 0 = nth ((pos + i) mod cap) buf 0.
Proof.
  intros Hi. unfold circ. rewrite (nth_indep _ 0 (nth ((pos + n) mod cap) buf 0)) by (rewrite length_map, length_seq; lia).
  rewrite (map_nth (fun i => nth ((pos + i) mod cap) buf 0)). by rewrite seq_nth.
Qed.

Lemma ring_get_circ pos n buf : length buf = cap -> (pos < cap)%nat -> (n <= cap)%nat -> ring_get cap pos n buf = circ pos n buf.
Proof.
  intros Hb Hp Hn. apply (nth_ext _ _ 0 0); rewrite ?circ_length; unfold ring_get; cbv zeta.
  - case_match; [apply Nat.leb_le in H|apply Nat.leb_gt in H]; rewrite ?length_app, !length_take, ?length_drop; lia.
  - intros i Hi. assert (i < n)%nat as Hin.
    { revert Hi. case_match; [apply Nat.leb_le in H|apply Nat.leb_gt in H]; rewrite ?length_app, !length_take, ?length_drop; lia. }
    rewrite nth_circ by done. destruct (Nat.leb_spec n (cap - pos)).
    + rewrite Nat.mod_small by lia. rewrite <- (nth_skipn pos buf i 0). rewrite <- (take_drop n (drop pos buf)) at 2. rewrite app_nth1; [done|].
      rewrite length_take, length_drop. lia.
    + destruct (Nat.ltb_spec i (cap - pos)).
      * rewrite app_nth1 by (rewrite length_take, length_drop; lia). rewrite Nat.mod_small by lia.
        rewrite <- (nth_skipn pos buf i 0). rewrite <- (take_drop (cap - pos) (drop pos buf)) at 2. rewrite app_nth1; [done|].
        rewrite length_take, length_drop. lia.
      * rewrite app_nth2 by (rewrite length_take, length_drop; lia). rewrite length_take, length_drop, Nat.min_l by lia.
        assert ((pos + i) mod cap = (i - (cap - pos)))%nat as ->.
        { replace (pos + i)%nat with ((i - (cap - pos)) + 1 * cap)%nat by lia. rewrite Nat.Div0.mod_add. apply Nat.mod_small. lia. }
        rewrite <- (take_drop (n - (cap - pos)) buf) at 2. rewrite app_nth1; [done|]. rewrite length_take. lia.
Qed.

Lemma ring_put_length pos p buf : length buf = cap -> (pos < cap)%nat -> (length p <= cap)%nat ->
  length (ring_put cap pos p buf) = cap.
Proof.
  intros Hb Hp Hn. unfold ring_put, splice. cbv zeta.
  case_match; [apply Nat.leb_le in H|apply Nat.leb_gt in H]; repeat (rewrite ?length_app, ?length_take, ?length_drop); lia.
Qed.

Lemma nth_ring_put pos p buf k : length buf = cap -> (pos < cap)%nat -> (length p <= cap)%nat -> (k < cap)%nat ->
  nth k (ring_put cap pos p buf) 0 =
    let d := if (pos <=? k)%nat then (k - pos)%nat else (k + cap - pos)%nat in
    if (d <? length p)%nat then nth d p 0 else nth k buf 0.
Proof.
  intros Hb Hp Hn Hk. unfold ring_put. cbv zeta. destruct (Nat.leb_spec (length p) (cap - pos)).
  - rewrite nth_splice by lia. destruct (Nat.leb_spec pos k); cbn [andb].
    + replace (k <? pos + length p)%nat with (k - pos <? length p)%nat; [done|].
      destruct (Nat.ltb_spec (k - pos) (length p)), (Nat.ltb_spec k (pos + length p)); lia || done.
    + by rewrite (proj2 (Nat.ltb_ge _ _)) by lia.
  - assert (length (take (cap - pos) p) = (cap - pos)%nat) as Hlt by (rewrite length_take; lia).
    rewrite nth_splice.
    2: { unfold splice. rewrite !length_app, !length_take, !length_drop. lia. }
    cbn [Nat.leb andb]. rewrite length_drop, Nat.sub_0_r, Nat.add_0_l.
    rewrite nth_splice by lia. rewrite Hlt. destruct (Nat.leb_spec pos k); cbn [andb].
    + rewrite (proj2 (Nat.ltb_ge k _)) by lia. rewrite (proj2 (Nat.ltb_lt k _)), (proj2 (Nat.ltb_lt (k - pos) _)) by lia.
      rewrite <- (take_drop (cap - pos) p) at 2. rewrite app_nth1 by lia. done.
    + destruct (Nat.ltb_spec k (length p - (cap - pos))).
      * rewrite (proj2 (Nat.ltb_lt _ _)) by lia. rewrite nth_skipn. f_equal. lia.
      * by rewrite (proj2 (Nat.ltb_ge _ _)) by lia.
Qed.

(** Writing right after a window extends it. *)
Lemma ring_put_extend b m p buf : length buf = cap -> (b < cap)%nat -> (m + length p <= cap)%nat ->
  circ b (m + length p) (ring_put cap ((b + m) mod cap) p buf) = circ b m buf ++ p.
Proof.
  intros Hb Hbc Hm. assert ((b + m) mod cap < cap)%nat as Hpos by (apply Nat.mod_upper_bound; lia).
  apply (nth_ext _ _ 0 0); rewrite ?length_app, !circ_length; [done|]. intros i Hi.
  rewrite nth_circ by done. assert ((b + i) mod cap < cap)%nat as Hic by (apply Nat.mod_upper_bound; lia).
  rewrite nth_ring_put by (done || lia).
  assert (forall x, (x < 2 * cap)%nat -> (x mod cap = if x <? cap then x else x - cap)%nat) as Hmod.
  { intros x Hx. destruct (Nat.ltb_spec x cap); [by apply Nat.mod_small|].
    replace x with (x - cap + 1 * cap)%nat at 1 by lia. rewrite Nat.Div0.mod_add. apply Nat.mod_small. lia. }
  cbv zeta. destruct (Nat.ltb_spec i m).
  - rewrite app_nth1 by (by rewrite circ_length). rewrite nth_circ by done.
    rewrite !Hmod by lia. repeat case_match; repeat (rewrite ?Nat.ltb_lt, ?Nat.ltb_ge, ?Nat.leb_le, ?Nat.leb_gt in * ); lia || done.
  - rewrite app_nth2 by (by rewrite circ_length). rewrite circ_length, !Hmod by lia.
    repeat case_match; repeat (rewrite ?Nat.ltb_lt, ?Nat.ltb_ge, ?Nat.leb_le, ?Nat.leb_gt in * ); try lia; f_equal; lia.
Qed.
End windows.

(** ** Representation *)

Definition enc_rec (x : log_rec) : list Z :=
  (le_bytes 4 (Z.of_nat (rec_size x)) ++ le_bytes 8 (l_msc x) ++ le_bytes 2 (zlen (l_msg x)) ++ [l_level x; zlen (l_tag x)]) ++
  l_tag x ++ l_msg x.

Definition rec_ok (x : log_rec) : Prop :=
  is_u64 (l_msc x) /\ is_u8 (l_level x) /\ (length (l_tag x) <= LOGREC_TAG_MAX)%nat /\ (length (l_msg x) <= LOGREC_MSG_MAX)%nat.

Lemma enc_rec_length x : length (enc_rec x) = rec_size x.
Proof. unfold enc_rec, rec_size, HDR_BYTES. rewrite !length_app, !le_bytes_length. cbn [length]. lia. Qed.

Lemma recs_size_cons x l : recs_size (x :: l) = (rec_size x + recs_size l)%nat.
Proof. done. Qed.

Lemma recs_size_app l k : recs_size (l ++ k) = (recs_size l + recs_size k)%nat.
Proof. unfold recs_size. by rewrite map_app, list_sum_app. Qed.

Lemma rec_size_bound x : rec_ok x -> (16 <= rec_size x <= 527)%nat.
Proof. intros (_ & _ & H1 & H2). unfold rec_size, HDR_BYTES, LOGREC_TAG_MAX, LOGREC_MSG_MAX in *. lia. Qed.

(** The header of a record reads back. *)
Lemma header_fields x : rec_ok x ->
  let h := le_bytes 4 (Z.of_nat (rec_size x)) ++ le_bytes 8 (l_msc x) ++ le_bytes 2 (zlen (l_msg x)) ++ [l_level x; zlen (l_tag x)] in
  Z.to_nat (le_value (take 4 h)) = rec_size x /\ le_value (take 8 (drop 4 h)) = l_msc x /\
  Z.to_nat (le_value (take 2 (drop 12 h))) = length (l_msg x) /\ nth 14 h 0 = l_level x /\ Z.to_nat (nth 15 h 0) = length (l_tag x).
Proof.
  intros Hok. pose proof (rec_size_bound x Hok) as Hsz. destruct Hok as (H1 & _ & H3 & H4).
  unfold LOGREC_TAG_MAX, LOGREC_MSG_MAX in *. cbv zeta. split_and!.
  - rewrite take_app_length' by (by rewrite le_bytes_length). rewrite le_value_bytes; [lia|].
    change (2 ^ (8 * Z.of_nat 4)) with 4294967296. lia.
  - rewrite drop_app_length' by (by rewrite le_bytes_length). rewrite take_app_length' by (by rewrite le_bytes_length).
    by apply le_value_bytes.
  - rewrite app_assoc, drop_app_length' by (by rewrite length_app, !le_bytes_length).
    rewrite take_app_length' by (by rewrite le_bytes_length). rewrite le_value_bytes; [unfold zlen; lia|].
    change (2 ^ (8 * Z.of_nat 2)) with 65536. unfold zlen. lia.
  - rewrite !app_assoc. rewrite app_nth2; rewrite !length_app, !le_bytes_length; [done|lia].
  - rewrite !app_assoc. rewrite app_nth2; rewrite !length_app, !le_bytes_length; [|lia]. cbn [Nat.sub Nat.add nth]. unfold zlen. lia.
Qed.

Lemma keep_newest_spec b l : exists old, l = old ++ keep_newest b l /\ (recs_size (keep_newest b l) <= b)%nat /\
  forall old' y, old = old' ++ [y] -> (b < recs_size (y :: keep_newest b l))%nat.
Proof.
  induction l as [|x l IH]; cbn [keep_newest]; [exists []; split_and!; [done|cbn; lia|by intros [|] y]|].
  destruct (Nat.ltb_spec b (recs_size (x :: l))) as [Hlt|Hge].
  - destruct IH as (old & E & H1 & H2). exists (x :: old). split_and!; [cbn; congruence|done|].
    intros [|z old'] y Ey; injection Ey as -> Ey; [subst old|by apply (H2 old')]. cbn [app] in E. by rewrite <- E.
  - exists []. split_and!; [done|done|by intros [|] y].
Qed.

Lemma keep_newest_ok b l : Forall rec_ok l -> Forall rec_ok (keep_newest b l).
Proof. intros Hl. destruct (keep_newest_spec b l) as (old & E & _). rewrite E in Hl. by apply Forall_app in Hl as [_ ?]. Qed.

Lemma log_of_ok level tag msc msg : is_u64 msc -> rec_ok (log_of level tag msc msg).
Proof.
  intros Hm. unfold rec_ok, log_of. cbn [l_msc l_level l_tag l_msg]. split_and!; [done|apply u8_range|rewrite length_take; lia..].
Qed.

Section refine.
Context {R : Realloc} (cap : nat) (Hcap : (0 < cap)%nat).

(** The records [l] are stored from [pos] on. *)
Definition holds (buf : list Z) (pos : nat) (l : list log_rec) : Prop :=
  length buf = cap /\ (pos < cap)%nat /\ (recs_size l <= cap)%nat /\ Forall rec_ok l /\
  circ cap pos (recs_size l) buf = flat_map enc_rec l.

Lemma app_split {A} (a b c d : list A) : length a = length c -> a ++ b = c ++ d -> a = c /\ b = d.
Proof. intros Hl H. by apply app_inj_1 in H. Qed.

Lemma holds_cons buf pos x l : holds buf pos (x :: l) ->
  circ cap pos (rec_size x) buf = enc_rec x /\ holds buf ((pos + rec_size x) mod cap) l.
Proof.
  intros (H1 & H2 & H3 & H4 & H5). rewrite recs_size_cons in *. cbn [flat_map] in H5. rewrite (circ_app cap Hcap) in H5.
  apply app_split in H5 as [E1 E2]; [|by rewrite circ_length, enc_rec_length].
  apply Forall_cons_iff in H4 as [_ H4]. split; [done|]. split_and!; try done; [apply Nat.mod_upper_bound; lia|lia].
Qed.

(** The parts of a stored record. *)
Lemma rec_parts buf pos x l : holds buf pos (x :: l) ->
  ring_get cap pos HDR_BYTES buf =
    le_bytes 4 (Z.of_nat (rec_size x)) ++ le_bytes 8 (l_msc x) ++ le_bytes 2 (zlen (l_msg x)) ++ [l_level x; zlen (l_tag x)] /\
  ring_get cap ((pos + HDR_BYTES) mod cap) (length (l_tag x)) buf = l_tag x /\
  ring_get cap ((pos + HDR_BYTES + length (l_tag x)) mod cap) (length (l_msg x)) buf = l_msg x.
Proof.
  intros Hh. destruct (holds_cons _ _ _ _ Hh) as [He _]. destruct Hh as (Hb & Hp & Hs & _ & _). rewrite recs_size_cons in Hs.
  unfold rec_size in Hs. rewrite !ring_get_circ; try done; try lia; try (apply Nat.mod_upper_bound; lia).
  unfold rec_size in He. rewrite !(circ_app cap Hcap) in He. unfold enc_rec in He. rewrite <- app_assoc in He.
  apply app_split in He as [E1 He]; [|rewrite circ_length, !length_app, !le_bytes_length; done].
  apply app_split in He as [E2 E3]; [|by rewrite circ_length]. split_and!; [exact E1|exact E2|].
  rewrite Nat.add_assoc in E3. exact E3.
Qed.

Lemma rec_len_holds buf pos x l : holds buf pos (x :: l) -> rec_len cap pos buf = rec_size x.
Proof.
  intros Hh. destruct (rec_parts _ _ _ _ Hh) as (He & _). pose proof Hh as (Hb & Hp & Hs & Hok & _). rewrite recs_size_cons in Hs.
  apply Forall_cons_iff in Hok as [Hok _]. pose proof (rec_size_bound x Hok) as Hsz. unfold HDR_BYTES in He.
  unfold rec_len. rewrite ring_get_circ by (done || lia). rewrite ring_get_circ in He by (done || lia).
  change 16%nat with (4 + 12)%nat in He. rewrite (circ_app cap Hcap) in He. apply app_split in He as [-> _]; [|by rewrite circ_length, le_bytes_length].
  rewrite le_value_bytes by (change (8 * Z.of_nat 4) with 32; lia). lia.
Qed.

(** ** The loops *)

Record repr (r : log_ring) (l : list log_rec) (dropped : nat) : Prop := {
  rp_holds : holds (g_buf r) (g_tail r) l;
  rp_head : g_head r = ((g_tail r + g_used r) mod cap)%nat;
  rp_used : g_used r = recs_size l;
  rp_nrec : g_nrec r = length l;
  rp_dropped : g_dropped r = dropped
}.

Lemma evict_loop_repr total l : (total <= cap)%nat -> forall fuel r d, (length l <= fuel)%nat -> repr r l d ->
  let r' := evict_loop cap fuel total r in
  exists d', repr r' (keep_newest (cap - total) l) d' /\
    (d' + length (keep_newest (cap - total) l) = d + length l)%nat.
Proof.
  intros Ht. induction l as [|x l IH]; intros fuel r d Hf Hr.
  - exists d. split; [|done]. destruct fuel as [|k]; [done|]. cbn [evict_loop]. rewrite (rp_nrec _ _ _ Hr). cbn [length Nat.ltb Nat.leb].
    by rewrite andb_false_r.
  - cbn [length] in Hf. destruct fuel as [|k]; [lia|]. cbn [evict_loop keep_newest].
    pose proof Hr as [Hh Hhd Hu Hn Hd]. rewrite Hn, Hu. cbn [length]. rewrite (proj2 (Nat.ltb_lt 0 _)), andb_true_r by lia.
    replace (cap - total <? recs_size (x :: l))%nat with (cap <? recs_size (x :: l) + total)%nat
      by (destruct (Nat.ltb_spec (cap - total) (recs_size (x :: l))), (Nat.ltb_spec cap (recs_size (x :: l) + total)); lia || done).
    destruct (Nat.ltb_spec cap (recs_size (x :: l) + total)) as [Hov|Hfit].
    + rewrite (rec_len_holds _ _ _ _ Hh). destruct (holds_cons _ _ _ _ Hh) as [_ Hh'].
      destruct (IH k (mk_ring (g_buf r) (g_head r) ((g_tail r + rec_size x) mod cap) (recs_size (x :: l) - rec_size x)
                  (S (length l) - 1) (g_dropped r + 1)) (d + 1)%nat) as (d' & H1 & H2); [lia| |exists d'; split; [exact H1|lia]].
      rewrite recs_size_cons. split; cbn [g_buf g_tail g_head g_used g_nrec g_dropped]; [done| |lia|lia|lia].
      rewrite Hhd, Hu, recs_size_cons. rewrite Nat.Div0.add_mod_idemp_l. f_equal. lia.
    + exists d. split; [|done]. by destruct r.
Qed.

Lemma skip_loop_holds max l : forall fuel cur buf, (length l <= fuel)%nat -> holds buf cur l ->
  let '(cur', n) := skip_loop cap fuel max cur (recs_size l) (length l) buf in
  holds buf cur' (keep_newest max l) /\ n = length (keep_newest max l).
Proof.
  induction l as [|x l IH]; intros fuel cur buf Hf Hh.
  - destruct fuel as [|k]; [done|]. cbn [skip_loop length Nat.ltb Nat.leb]. by rewrite andb_false_r.
  - cbn [length] in Hf. destruct fuel as [|k]; [lia|]. cbn [skip_loop keep_newest length].
    rewrite (proj2 (Nat.ltb_lt 0 _)), andb_true_r by lia. destruct (max <? recs_size (x :: l))%nat; [|done].
    rewrite (rec_len_holds _ _ _ _ Hh). destruct (holds_cons _ _ _ _ Hh) as [_ Hh'].
    replace (recs_size (x :: l) - rec_size x)%nat with (recs_size l) by (rewrite recs_size_cons; lia).
    replace (S (length l) - 1)%nat with (length l) by lia. apply IH; [lia|done].
Qed.

Lemma log_item_appends msc level tag msg :
  appends (fun m => harp_cbor_textn (harp_cbor_uint (harp_cbor_textn (harp_cbor_uint (harp_cbor_uint (harp_cbor_uint
      (harp_cbor_uint (harp_cbor_uint (harp_cbor_map m 4) 0) msc) 1) level) 2) tag) 3) msg)
    (enc_item (IMap [(IUint 0, IUint msc); (IUint 1, IUint level); (IUint 2, IText tag); (IUint 3, IText msg)])).
Proof.
  cbn [enc_item flat_map fst snd]. change (zlen [_; _; _; _]) with 4. rewrite app_nil_r, !app_assoc. appends_seq.
Qed.

Lemma emit_record_appends buf cur x l : holds buf cur (x :: l) ->
  appends (fun b => emit_record cap cur buf b) (enc_item (log_item x)) /\ emit_stride cap cur buf = rec_size x.
Proof.
  intros Hh. destruct (rec_parts _ _ _ _ Hh) as (Hhdr & Htag & Hmsg).
  pose proof Hh as (_ & _ & _ & Hok & _). apply Forall_cons_iff in Hok as [Hok _].
  destruct (header_fields x Hok) as (H1 & H2 & H3 & H4 & H5). unfold emit_record, emit_stride. rewrite Hhdr.
  split; [|exact H1]. cbv zeta. rewrite H2, H3, H4, H5, Htag, Hmsg.
  exact (log_item_appends (l_msc x) (l_level x) (l_tag x) (l_msg x)).
Qed.

Lemma record_loop_S {T} stride (body : nat -> T -> T) k cur t :
  record_loop cap stride body (S k) cur t = record_loop cap stride body k ((cur + stride cur) mod cap) (body cur t).
Proof. reflexivity. Qed.

Lemma emit_loop_appends l : forall cur buf, holds buf cur l ->
  appends (fun b => emit_loop cap (length l) cur buf b) (flat_map (fun x => enc_item (log_item x)) l).
Proof.
  unfold emit_loop. induction l as [|x l IH]; intros cur buf Hh; [apply appends_id|].
  destruct (holds_cons _ _ _ _ Hh) as [_ Hh']. destruct (emit_record_appends _ _ _ _ Hh) as [Hrec Hst].
  intros b. cbn [length]. rewrite record_loop_S, Hst.
  exact (appends_comp (fun b => emit_record cap cur buf b) _ _ _ Hrec (IH _ _ Hh') b).
Qed.

(** ** The operations *)

(** The bytes the three [ring_put]s write. *)
Lemma store_record x r l : (recs_size l + rec_size x <= cap)%nat -> rec_ok x -> repr r l (g_dropped r) ->
  let h := le_bytes 4 (Z.of_nat (rec_size x)) ++ le_bytes 8 (l_msc x) ++ le_bytes 2 (zlen (l_msg x)) ++ [l_level x; zlen (l_tag x)] in
  let buf := ring_put cap (g_head r) h (g_buf r) in
  let buf := ring_put cap ((g_head r + HDR_BYTES) mod cap) (l_tag x) buf in
  let buf := ring_put cap ((g_head r + HDR_BYTES + length (l_tag x)) mod cap) (l_msg x) buf in
  repr (mk_ring buf ((g_head r + rec_size x) mod cap) (g_tail r) (g_used r + rec_size x) (g_nrec r + 1) (g_dropped r))
    (l ++ [x]) (g_dropped r).
Proof.
  intros Hfit Hok [(Hb & Ht & Hs & Hl & Hc) Hh Hu Hn _] h. assert (length h = HDR_BYTES) as Hhl.
  { unfold h. by rewrite !length_app, !le_bytes_length. }
  assert (flat_map enc_rec (l ++ [x]) = flat_map enc_rec l ++ h ++ l_tag x ++ l_msg x) as Henc.
  { rewrite flat_map_app. cbn [flat_map]. by rewrite app_nil_r. }
  assert (rec_size x = HDR_BYTES + length (l_tag x) + length (l_msg x))%nat as Hsz by done.
  set (p0 := g_head r) in *. set (tg := l_tag x) in *. set (mg := l_msg x) in *.
  cbv zeta. set (b1 := ring_put cap p0 h (g_buf r)).
  assert (p0 < cap)%nat as Hp0 by (rewrite Hh; apply Nat.mod_upper_bound; lia).
  assert (length b1 = cap) as Hb1 by (apply ring_put_length; done || lia).
  assert (circ cap (g_tail r) (recs_size l + length h) b1 = flat_map enc_rec l ++ h) as E1.
  { unfold b1. rewrite Hh, Hu, ring_put_extend by (done || lia). by rewrite Hc. }
  rewrite Hhl in E1. rewrite Hh, Hu, Nat.Div0.add_mod_idemp_l, <- !Nat.add_assoc.
  set (b2 := ring_put cap _ tg b1). set (b3 := ring_put cap _ mg b2).
  assert (length b2 = cap) as Hb2 by (apply ring_put_length; try done; try lia; apply Nat.mod_upper_bound; lia).
  assert (circ cap (g_tail r) (recs_size l + HDR_BYTES + length tg) b2 = flat_map enc_rec l ++ h ++ tg) as E2.
  { unfold b2. rewrite ring_put_extend by (done || lia). by rewrite E1, <- app_assoc. }
  assert (length b3 = cap) as Hb3 by (apply ring_put_length; try done; try lia; apply Nat.mod_upper_bound; lia).
  assert (circ cap (g_tail r) (recs_size l + HDR_BYTES + length tg + length mg) b3 = flat_map enc_rec l ++ h ++ tg ++ mg) as E3.
  { unfold b3. rewrite Nat.Div0.add_mod_idemp_l.
    replace (g_tail r + recs_size l + (HDR_BYTES + length tg))%nat with (g_tail r + (recs_size l + HDR_BYTES + length tg))%nat by lia.
    rewrite ring_put_extend by (done || lia). by rewrite E2, <- !app_assoc. }
  assert (recs_size (l ++ [x]) = recs_size l + HDR_BYTES + length tg + length mg)%nat as Hsz'.
  { rewrite recs_size_app. change (recs_size [x]) with (rec_size x + 0)%nat. lia. }
  split; cbn [g_buf g_head g_tail g_used g_nrec g_dropped].
  - unfold holds. rewrite Hsz', Henc. split_and!; [done|done|lia| |exact E3]. apply Forall_app. split; [done|by constructor].
  - rewrite Nat.Div0.add_mod_idemp_l. f_equal. lia.
  - lia.
  - rewrite length_app. cbn [length]. lia.
  - done.
Qed.
End refine.

Section theorems.
Context {R : Realloc} (cap : nat) (Hcap : (527 <= cap)%nat).

Lemma append_repr level tag msc msg r l d : is_u64 msc -> repr cap r l d ->
  exists d', repr cap (ring_append_locked cap level tag msc msg r) (log_append cap (log_of level tag msc msg) l) d' /\
    (d' + length (log_append cap (log_of level tag msc msg) l) = d + S (length l))%nat.
Proof.
  intros Hm Hr. set (x := log_of level tag msc msg). assert (0 < cap)%nat as Hc0 by lia.
  pose proof (log_of_ok level tag msc msg Hm) as Hok. fold x in Hok. pose proof (rec_size_bound x Hok) as Hsz.
  unfold ring_append_locked. cbv zeta. set (tg := match tag with Some t => t | None => [] end).
  set (taglen := Nat.min (length tg) LOGREC_TAG_MAX). set (msglen := Nat.min (length msg) LOGREC_MSG_MAX).
  assert (take taglen tg = l_tag x /\ take msglen msg = l_msg x) as [Et Em].
  { unfold taglen, msglen, x, log_of. cbn [l_tag l_msg]. fold tg. split; rewrite <- take_take, take_ge; try done; rewrite length_take; lia. }
  assert (length (l_tag x) = taglen /\ length (l_msg x) = msglen) as [Lt Lm].
  { unfold taglen, msglen. rewrite <- Et, <- Em, !length_take. lia. }
  assert ((HDR_BYTES + taglen + msglen)%nat = rec_size x) as -> by (unfold rec_size; by rewrite Lt, Lm).
  rewrite (proj2 (Nat.ltb_ge _ _)) by lia. rewrite (rp_nrec _ _ _ _ Hr).
  destruct (evict_loop_repr cap Hc0 (rec_size x) l ltac:(lia) (length l) r d ltac:(lia) Hr) as (d' & Hr' & Hd').
  set (r' := evict_loop cap (length l) (rec_size x) r) in *. set (kept := keep_newest (cap - rec_size x) l) in *.
  exists d'. pose proof (rp_dropped _ _ _ _ Hr') as Ed. subst d'. unfold log_append. fold kept.
  destruct (keep_newest_spec (cap - rec_size x) l) as (_ & _ & Hks & _). fold kept in Hks. split.
  - assert (u32 (Z.of_nat (rec_size x)) = Z.of_nat (rec_size x)) as -> by (apply u32_small; ulia).
    assert (u16 (Z.of_nat msglen) = zlen (l_msg x)) as ->.
    { unfold zlen. rewrite Lm. apply u16_small. unfold msglen, LOGREC_MSG_MAX. ulia. }
    assert (u8 (Z.of_nat taglen) = zlen (l_tag x)) as ->.
    { unfold zlen. rewrite Lt. apply u8_small. unfold taglen, LOGREC_TAG_MAX. ulia. }
    rewrite Et, Em, <- Lt. apply (store_record cap Hc0 x r' kept); [lia|done|exact Hr'].
  - rewrite length_app. cbn [length]. lia.
Qed.

(** the log ring is a bounded list of records that forgets the oldest first.
    [repr] relates the circular buffer to such a list: storing a line appends its
    record - tag and message cut to their limits, whatever they are - after dropping
    the shortest run of oldest records that makes room, counting them, and never
    more than the capacity is used; emitting appends the CBOR array of the longest
    run of newest records within the budget, and the buffer emptied is the empty
    list. *)
Theorem log_ring_refines (r : log_ring) (l : list log_rec) (d : nat) (level : Z) (tag : option (list Z)) (msc : Z)
    (msg : list Z) (max : nat) :
  repr cap r l d -> is_u64 msc ->
  let l' := log_append cap (log_of level tag msc msg) l in
  (exists d', repr cap (harp_devlog_put cap level tag msc (Some msg) r) l' d' /\ (d' + length l' = d + S (length l))%nat) /\
  (exists old, l = old ++ keep_newest max l /\ (recs_size (keep_newest max l) <= max)%nat /\
     (forall old' y, old = old' ++ [y] -> (max < recs_size (y :: keep_newest max l))%nat) /\
     appends (fun m => harp_devlog_emit_cbor cap m max r) (enc_item (IArray (map log_item (keep_newest max l))))) /\
  (harp_devlog_count r = length l /\ harp_devlog_used r = recs_size l /\ (recs_size l <= cap)%nat /\ harp_devlog_dropped r = d) /\
  repr cap (harp_devlog_reset r) [] 0.
Proof.
  intros Hr Hm l'. assert (0 < cap)%nat as Hc0 by lia. pose proof Hr as [Hh _ Hu Hn Hd]. split_and!.
  - by apply append_repr.
  - destruct (keep_newest_spec max l) as (old & E & H1 & H2). exists old. split_and!; [done|done|done|].
    pose proof (skip_loop_holds cap Hc0 max l (length l) (g_tail r) (g_buf r) ltac:(lia) Hh) as Hs.
    unfold harp_devlog_emit_cbor. rewrite Hn, Hu. destruct (skip_loop _ _ _ _ _ _ _) as [cur n]. destruct Hs as [Hs ->].
    cbn [enc_item]. rewrite flat_map_map. unfold zlen. rewrite length_map.
    apply (appends_comp (fun m => harp_cbor_array m _) (fun m => emit_loop cap _ cur (g_buf r) m)); [apply appends_array|].
    by apply emit_loop_appends.
  - done.
  - done.
  - apply Hh.
  - done.
  - destruct Hh as (Hb & _). split; cbn [harp_devlog_reset g_buf g_head g_tail g_used g_nrec g_dropped]; try done.
    + split_and!; [done|lia|change (recs_size []) with 0%nat; lia|constructor|done].
    + by rewrite Nat.mod_small by lia.
Qed.
End theorems.

(** A ring of 600 bytes: the second long line drops the first. *)
Definition demo_ring : log_ring := mk_ring (repeat 0 600) 0 0 0 0 0.

Lemma demo_ring_repr : repr 600 demo_ring [] 0.
Proof. split; try done. split_and!; [apply repeat_length|cbn; lia|cbn; lia|constructor|done]. Qed.

Lemma log_ring_refines_witness :
  let R := (fun _ => true) : Realloc in
  let r1 := harp_devlog_put 600 1 (Some [97]) 5 (Some (repeat 120 500)) demo_ring in
  let r2 := harp_devlog_put 600 2 (Some [98]) 6 (Some (repeat 121 300)) r1 in
  (harp_devlog_count r1, harp_devlog_used r1, harp_devlog_count r2, harp_devlog_dropped r2) = (1, 497, 1, 1)%nat /\
  cb_buf (harp_devlog_emit_cbor 600 harp_cbuf_init 1000 r2) = enc_item (IArray [log_item (mk_log 6 2 [98] (repeat 121 300))]) /\
  exists d', repr 600 r1 [log_of 1 (Some [97]) 5 (repeat 120 500)] d'.
Proof.
  intros R r1 r2. split; [vm_compute; reflexivity|]. split; [vm_compute; reflexivity|].
  destruct (log_ring_refines (R := R) 600 ltac:(lia) demo_ring [] 0 1 (Some [97]) 5 (repeat 120 500) 1000 demo_ring_repr
    ltac:(unfold is_u64; lia)) as [(d' & H & _) _].
  exists d'. exact H.
Defined.
