(* ===== verification/CborItems.v ===== *)
(** * Encodings determine their items

    No encoding of an item is a prefix of another one's, and different items
    have different encodings: the encoder's output is canonical, so comparing
    (or hashing) encodings compares values.  Also the encodings of the common
    container shapes as items. *)
From Stdlib Require Import ZArith Lia List.
From stdpp Require Import base tactics list numbers.
From S2P Require Import Prelude.
From S2P Require Import Cbuf.
From S2P Require Import CborEnc.
From S2P Require Import CborDec.
From S2P Require Import CborFields.

Open Scope Z_scope.
Open Scope list_scope.

(** The payload of a float leaf fits its width (all other leaves are covered by
    [item_ok]). *)
Fixpoint floats_ok (i : item) : bool :=
  match i with
  | IArray l => forallb floats_ok l
  | IMap l => forallb (fun kv => floats_ok kv.1 && floats_ok kv.2) l
  | ITag _ i => floats_ok i
  | IFloat n arg => (0 <=? arg) && (arg <? 2 ^ (8 * Z.of_nat n))
  | _ => true
  end.

Definition item_wf (i : item) : bool := item_ok i && floats_ok i.

Lemma head_inj mj v mj' v' r s : 0 <= mj < 8 -> 0 <= mj' < 8 -> is_u64 v -> is_u64 v' ->
  head_bytes mj v ++ r = head_bytes mj' v' ++ s -> mj = mj' /\ v = v' /\ r = s.
Proof.
  intros Hm Hm' Hv Hv' E.
  pose proof (decodes_head mj v Hm Hv r (zlen_nonneg r)) as H1.
  pose proof (decodes_head mj' v' Hm' Hv' s (zlen_nonneg s)) as H2.
  rewrite E, H2 in H1. by injection H1 as -> _ -> ->.
Qed.

(** The first byte tells the major type. *)
Definition major_of (l : list Z) : Z := match l with b :: _ => Z.shiftr b 5 | [] => -1 end.

Lemma major_of_head mj v r : 0 <= mj < 8 -> is_u64 v -> major_of (head_bytes mj v ++ r) = mj.
Proof.
  intros Hm Hv. rewrite head_bytes_be by done. cbn [app major_of]. pose proof (ai_of_range v Hv). apply ib_split; lia.
Qed.

Definition item_major (i : item) : Z :=
  match i with
  | IUint _ => 0 | INint _ => 1 | IBytes _ => 2 | IText _ => 3 | IArray _ => 4 | IMap _ => 5 | ITag _ _ => 6
  | ISimple _ | IFloat _ _ => 7
  end.

Lemma u64_b_spec v : u64_b v = true <-> is_u64 v.
Proof. unfold u64_b, is_u64. rewrite andb_true_iff, Z.leb_le, Z.ltb_lt. lia. Qed.

Lemma item_major_enc i r : item_ok i = true -> major_of (enc_item i ++ r) = item_major i.
Proof.
  destruct i as [v|v|p|p|l|l|t i|v|n a]; cbn [item_ok enc_item item_major]; intros Hi; bool_to_prop.
  1,2: apply major_of_head; [lia|by apply u64_b_spec].
  1,2: unfold enc_bytes, enc_text; rewrite <- app_assoc; apply major_of_head; [lia|].
  3,4: unfold enc_array, enc_map; rewrite <- app_assoc; apply major_of_head; [lia|].
  1-4: unfold is_u64; match goal with |- 0 <= zlen ?x < _ => pose proof (zlen_nonneg x); lia end.
  - rewrite <- app_assoc. apply major_of_head; [lia|by apply u64_b_spec].
  - cbn [app major_of]. rewrite Z.shiftr_div_pow2 by lia. change (2 ^ 5) with 32. dlia.
  - cbn [app major_of]. repeat case_match; done.
Qed.

Lemma app_len_inj {A} (a b r s : list A) : zlen a = zlen b -> a ++ r = b ++ s -> a = b /\ r = s.
Proof. unfold zlen. intros Hl E. apply app_inj_1; [lia|done]. Qed.

Lemma elems_inj {A} (ok : A -> bool) (enc : A -> list Z) (l : list A) :
  Forall (fun x => forall y r s, ok x = true -> ok y = true -> enc x ++ r = enc y ++ s -> x = y /\ r = s) l ->
  forall l' r s, zlen l = zlen l' -> forallb ok l = true -> forallb ok l' = true ->
    flat_map enc l ++ r = flat_map enc l' ++ s -> l = l' /\ r = s.
Proof.
  induction 1 as [|x l Hx _ IH]; intros [|y l'] r s Hl; repeat rewrite ?zlen_cons, ?zlen_nil in Hl; cbn [forallb flat_map app].
  - intros _ _ E. by split.
  - pose proof (zlen_nonneg l'). lia.
  - pose proof (zlen_nonneg l). lia.
  - rewrite <- !app_assoc. intros [Hok Hokl]%andb_prop [Hok' Hokl']%andb_prop E.
    destruct (Hx _ _ _ Hok Hok' E) as [-> E']. destruct (IH l' r s ltac:(lia) Hokl Hokl' E') as [-> ->]. done.
Qed.

Lemma string_inj mj p q r s : mj = 2 \/ mj = 3 -> zlen p < 2 ^ 64 -> zlen q < 2 ^ 64 ->
  (head_bytes mj (zlen p) ++ p) ++ r = (head_bytes mj (zlen q) ++ q) ++ s -> p = q /\ r = s.
Proof.
  intros Hm Hp Hq. rewrite <- !app_assoc. intros E. pose proof (zlen_nonneg p). pose proof (zlen_nonneg q).
  apply head_inj in E as (_ & Hl & E); [|unfold is_u64; lia..]. by apply app_len_inj.
Qed.

Lemma be_bytes_inj n v w : 0 <= v < 2 ^ (8 * Z.of_nat n) -> 0 <= w < 2 ^ (8 * Z.of_nat n) -> be_bytes n v = be_bytes n w -> v = w.
Proof. intros Hv Hw E. rewrite <- (be_value_bytes n v), <- (be_value_bytes n w) by done. by rewrite E. Qed.

Lemma float_inj n a m b r s : item_wf (IFloat n a) = true -> item_wf (IFloat m b) = true ->
  enc_item (IFloat n a) ++ r = enc_item (IFloat m b) ++ s -> IFloat n a = IFloat m b /\ r = s.
Proof.
  unfold item_wf. cbn [item_ok floats_ok enc_item]. intros [Hn Ha]%andb_prop [Hm Hb]%andb_prop E.
  bool_to_prop. cbn [app] in E. injection E as Eh E.
  assert (n = m) as <-.
  { apply orb_true_iff in Hn as [[Hn|Hn]%orb_true_iff|Hn]; apply orb_true_iff in Hm as [[Hm|Hm]%orb_true_iff|Hm];
      apply bool_decide_eq_true in Hn, Hm; subst; try done; vm_compute in Eh; discriminate. }
  apply app_len_inj in E as [E ->]; [|unfold zlen; by rewrite !be_bytes_length].
  apply be_bytes_inj in E as ->; [done|lia..].
Qed.

Lemma enc_item_inj i : forall j r s, item_wf i = true -> item_wf j = true ->
  enc_item i ++ r = enc_item j ++ s -> i = j /\ r = s.
Proof.
  induction i as [v|v|p|p|l IH|l IH|t i IH|v|n a] using item_ind'; intros j r s Hi Hj E.
  all: assert (item_ok j = true /\ floats_ok j = true) as [Hj1 Hj2] by (by apply andb_prop in Hj).
  all: assert (item_ok _ = true /\ floats_ok _ = true) as [Hi1 Hi2] by (by apply andb_prop in Hi).
  all: assert (item_major j = item_major _) as Hmaj by (erewrite <- (item_major_enc j s), <- E by done; by apply item_major_enc).
  all: destruct j as [v'|v'|p'|p'|l'|l'|t' i'|v'|m b]; cbn [item_major] in Hmaj; try (exfalso; clear -Hmaj; lia).
  all: cbn [item_ok floats_ok] in Hi1, Hi2, Hj1, Hj2; cbn [enc_item] in E; bool_to_prop.
  - apply head_inj in E as (_ & -> & ->); [done|lia|lia|by apply u64_b_spec..].
  - apply head_inj in E as (_ & -> & ->); [done|lia|lia|by apply u64_b_spec..].
  - apply string_inj in E as [-> ->]; [done|by left|lia|lia].
  - apply string_inj in E as [-> ->]; [done|by right|lia|lia].
  - unfold enc_array in E. rewrite <- !app_assoc in E. pose proof (zlen_nonneg l). pose proof (zlen_nonneg l').
    apply head_inj in E as (_ & Hl & E); [|unfold is_u64; lia..].
    apply (elems_inj item_wf) in E as [-> ->]; [done|exact IH|done|..];
      apply forallb_forall; intros x Hx; unfold item_wf; apply andb_true_iff; rewrite !forallb_forall in *; by split; auto.
  - unfold enc_map in E. rewrite <- !app_assoc in E. pose proof (zlen_nonneg l). pose proof (zlen_nonneg l').
    apply head_inj in E as (_ & Hl & E); [|unfold is_u64; lia..].
    apply (elems_inj (fun kv => item_wf kv.1 && item_wf kv.2)) in E as [-> ->]; [done| |done|..].
    + eapply Forall_impl; [|exact IH]. intros [k v] [IHk IHv] [k' v'] r' s' [Hk Hv]%andb_prop [Hk' Hv']%andb_prop.
      cbn [fst snd] in *. rewrite <- !app_assoc. intros E'. destruct (IHk _ _ _ Hk Hk' E') as [-> E2].
      by destruct (IHv _ _ _ Hv Hv' E2) as [-> ->].
    + apply forallb_forall; intros x Hx; unfold item_wf. rewrite !forallb_forall in *.
      specialize (Hi2 x Hx). specialize (H0 x Hx). bool_to_prop. by rewrite !andb_true_iff.
    + apply forallb_forall; intros x Hx; unfold item_wf. rewrite !forallb_forall in *.
      specialize (Hj2 x Hx). specialize (H2 x Hx). bool_to_prop. by rewrite !andb_true_iff.
  - rewrite <- !app_assoc in E. apply head_inj in E as (_ & -> & E); [|lia|lia|by apply u64_b_spec..].
    unfold item_wf in IH. destruct (IH i' r s) as [-> ->]; [by rewrite andb_true_iff..|done|done].
  - cbn [app] in E. injection E as E1 ->. split; [f_equal; lia|done].
  - cbn [app] in E. injection E as E _. repeat case_match; lia.
  - cbn [app] in E. injection E as E _. repeat case_match; lia.
  - by apply float_inj.
Qed.
