(* ===== verification/Params.v ===== *)
(** * The parameter table, the parameter values and the params blob

    [src/device/engine.c] owns the table [g_params] and one value per part and
    parameter; [src/device/state.c] serializes the values as a two-level CBOR
    map (the params blob of a snapshot), reads it back, and encodes the
    parameter descriptors whose hash identifies the table.  A [float] is its
    32-bit pattern, a [double] its 64-bit pattern. *)
From Stdlib Require Import ZArith Lia List String.
From stdpp Require Import base tactics list numbers.
From S2P Require Import Prelude.
From S2P Require Import Cbuf.
From S2P Require Import CborEnc.
From S2P Require Import CborDec.
From S2P Require Import CborFloat.
From S2P Require Import CborFields.
From S2P Require Import CborItems.
From S2P Require Import Object.

Open Scope Z_scope.
Open Scope list_scope.

(** ** The table *)

Record dev_param := mk_param {
  p_id : Z; p_name : list Z; p_steps : Z; p_labels : list (list Z); p_def : Z }.

Definition ARP_MODES : list (list Z) := [str "Off"; str "Up"; str "Down"; str "Up-Down"; str "As Played"].
Definition ARP_DIVS : list (list Z) := [str "1/4"; str "1/8"; str "1/8T"; str "1/16"; str "1/16T"; str "1/32"].
Definition ARP_OCTS : list (list Z) := [str "1"; str "2"; str "3"; str "4"].

(** The [float] constants [0.5f] and [0.6f]. *)
Definition F32_HALF : Z := 0x3f000000.
Definition F32_0_6 : Z := 0x3f19999a.

Definition g_params : list dev_param := [
  mk_param 1 (str "Osc Pitch") 0 [] F32_HALF; mk_param 2 (str "Osc Shape") 0 [] F32_HALF;
  mk_param 3 (str "Filter Cutoff") 0 [] F32_HALF; mk_param 4 (str "Filter Reso") 0 [] F32_HALF;
  mk_param 5 (str "Env Attack") 0 [] F32_HALF; mk_param 6 (str "Env Release") 0 [] F32_HALF;
  mk_param 7 (str "Master Level") 0 [] F32_HALF;
  mk_param 8 (str "Arp Mode") 5 ARP_MODES 0;
  mk_param 9 (str "Arp Division") 6 ARP_DIVS F32_0_6;
  mk_param 10 (str "Arp Gate") 0 [] F32_HALF;
  mk_param 11 (str "Arp Octaves") 4 ARP_OCTS 0;
  mk_param 12 (str "Glide") 0 [] 0].

Definition NPARTS : nat := 16.

(** The initial value of every part's [pval]. *)
Definition PVAL_DEFAULTS : list Z :=
  [F32_HALF; F32_HALF; F32_HALF; F32_HALF; F32_HALF; F32_HALF; F32_HALF; 0; F32_0_6; F32_HALF; 0; 0].

(** [v[part][column]] and [present[part][column]]. *)
Abbreviation grid := (list (list Z)).
Definition cell (v : grid) (pi j : nat) : Z := nth j (nth pi v []) 0.
Definition set_cell (v : grid) (pi j : nat) (x : Z) : grid := <[pi := <[j := x]> (nth pi v [])]> v.
Definition mark_cell (m : list (list bool)) (pi j : nat) : list (list bool) := <[pi := <[j := true]> (nth pi m [])]> m.
Definition marked (m : list (list bool)) (pi j : nat) : bool := nth j (nth pi m []) false.

(** The table a build compiles in: the code reads it through [g_params] and
    [NPARAMS], which a downstream device redefines. *)
Section table.
Context (table : list dev_param).

Definition NPARAMS : nat := length table.

(** The loop of [param_index] and of [grid_set]: the first column with this id. *)
Fixpoint find_id (id : Z) (i : nat) (t : list dev_param) : option nat :=
  match t with
  | [] => None
  | p :: t' => if p_id p =? id then Some i else find_id id (S i) t'
  end.

Definition param_index (id : Z) : option nat := find_id id 0 table.

Definition param_at (i : nat) : dev_param := nth i table (mk_param 0 [] 0 [] 0).

(** ** Values

    [g_parts[i].pval[j]]; the part index is a C [int]. *)
Definition engine_part_param_get (pv : grid) (part_idx id : Z) : Z :=
  if (part_idx <? 0) || (Z.of_nat NPARTS <=? part_idx) then 0
  else match param_index id with Some j => cell pv (Z.to_nat part_idx) j | None => 0 end.

Definition engine_part_param_put (part_idx id v : Z) (pv : grid) : grid :=
  if (part_idx <? 0) || (Z.of_nat NPARTS <=? part_idx) then pv
  else match param_index id with Some j => set_cell pv (Z.to_nat part_idx) j v | None => pv end.

(** ** The params blob *)

Section encode.
Context {R : Realloc}.

Definition encode_cell (v : grid) (pi : nat) (b : cbuf) (i : nat) : cbuf :=
  harp_cbor_float (harp_cbor_uint b (p_id (param_at i))) (f32_to_f64 (cell v pi i)).

Definition encode_part (v : grid) (b : cbuf) (pi : nat) : cbuf :=
  fold_left (encode_cell v pi) (seq 0 NPARAMS)
    (harp_cbor_map (harp_cbor_uint b (Z.of_nat pi)) (Z.of_nat NPARAMS)).

Definition refdev_encode_params_blob (v : grid) (payload : cbuf) : cbuf :=
  fold_left (encode_part v) (seq 0 NPARTS) (harp_cbor_map payload (Z.of_nat NPARTS)).
End encode.

(** The arrays [v] and [present] the parser fills. *)
Record gridst := mk_gs { gs_v : grid; gs_present : list (list bool) }.

Definition grid_set (pi : nat) (id val : Z) (g : gridst) : gridst :=
  match find_id id 0 table with
  | Some j => mk_gs (set_cell (gs_v g) pi j (f64_to_f32 val)) (mark_cell (gs_present g) pi j)
  | None => g
  end.

(** One pair of a part's map; [None] is the code's [pi = -1]. *)
Definition part_pair (pi : option nat) (id : Z) : parser gridst unit :=
  val ← on_fst harp_cdec_float;
  match pi with
  | Some pi => on_snd (sm_modify (grid_set pi id val))
  | None => mret tt
  end.

Definition parse_part_map (pi : option nat) : parser gridst unit := map_fields (part_pair pi).

(** [pidx < NPARTS ? (int)pidx : -1] *)
Definition part_of (pidx : Z) : option nat :=
  if pidx <? Z.of_nat NPARTS then Some (Z.to_nat pidx) else None.

Definition parse_params : parser gridst unit :=
  n ← on_fst harp_cdec_map;
  if n =? 0 then mret tt
  else
    first_key ← on_fst harp_cdec_uint;
    '(d, _) ← sm_get;
    let major := harp_cdec_peek d in
    if major =? 5 then
      parse_part_map (part_of first_key);;
      sm_for (n - 1) (pidx ← on_fst harp_cdec_uint; parse_part_map (part_of pidx))
    else if major =? 7 then
      part_pair (Some 0%nat) first_key;;
      sm_for (n - 1) (id ← on_fst harp_cdec_uint; part_pair (Some 0%nat) id)
    else sm_fail.

Definition refdev_parse_params_blob (payload : list Z) (g : gridst) : bool * gridst :=
  let '(o, (_, g')) := parse_params (harp_cdec_init payload, g) in
  (match o with Some _ => true | None => false end, g').

(** ** Descriptors *)

Definition PFLAG_AUTOMATABLE : Z := 0x01.
Definition PFLAG_MODULATABLE : Z := 0x20.
Definition PFLAG_PER_VOICE_MOD : Z := 0x40.

Definition param_modulatable (p : dev_param) : bool := p_id p =? 3.

Definition param_flags (p : dev_param) (include_caps : bool) : Z :=
  if include_caps && param_modulatable p
  then Z.lor PFLAG_AUTOMATABLE (Z.lor PFLAG_MODULATABLE PFLAG_PER_VOICE_MOD)
  else PFLAG_AUTOMATABLE.

Definition METER_NSLOTS : nat := S NPARTS.
Definition METER_MAIN_IX : nat := NPARTS.
Definition METER_RATE_HZ : Z := 30.
Definition METER_ID_BASE : Z := 0x1000.
Definition METER_ID_PEAK (slot : Z) : Z := u32 (METER_ID_BASE + u32 slot * 2 + 0).
Definition METER_ID_RMS (slot : Z) : Z := u32 (METER_ID_BASE + u32 slot * 2 + 1).
Definition METER_NPARAMS : nat := 2 * METER_NSLOTS.

(** [%d] of a small non-negative number. *)
Fixpoint dec_digits (fuel : nat) (n : Z) : list Z :=
  match fuel with
  | O => []
  | S k => (if n <? 10 then [] else dec_digits k (n / 10)) ++ [48 + n mod 10]
  end.
Definition print_d (n : Z) : list Z := dec_digits 20 n.

Section descriptors.
Context {R : Realloc}.

Definition encode_one_param (b : cbuf) (p : dev_param) (include_caps : bool) : cbuf :=
  let stepped := 0 <? p_steps p in
  let b := harp_cbor_map b (if stepped then 5 else 3) in
  let b := harp_cbor_uint b 0 in
  let b := harp_cbor_uint b (p_id p) in
  let b := harp_cbor_uint b 1 in
  let b := harp_cbor_text b (p_name p) in
  let b := if stepped then harp_cbor_uint (harp_cbor_uint b 5) (p_steps p) else b in
  let b := harp_cbor_uint b 8 in
  let b := harp_cbor_uint b (param_flags p include_caps) in
  if stepped then
    let b := harp_cbor_uint b 9 in
    let b := harp_cbor_array b (p_steps p) in
    fold_left (fun b s => harp_cbor_text b (nth s (p_labels p) [])) (seq 0 (Z.to_nat (p_steps p))) b
  else b.

Definition encode_param_array_from (b : cbuf) (t : list dev_param) : cbuf :=
  fold_left (fun b p => encode_one_param b p false) t (harp_cbor_array b (zlen t)).

Definition encode_param_array_automatable (b : cbuf) : cbuf := encode_param_array_from b table.

Definition meter_name (slot kind : nat) : list Z :=
  let what := if (kind =? 0)%nat then str "Peak" else str "RMS" in
  if (slot =? METER_MAIN_IX)%nat then str "Main " ++ what
  else str "Part " ++ print_d (Z.of_nat slot + 1) ++ str " " ++ what.

Definition encode_meter (slot : nat) (b : cbuf) (kind : nat) : cbuf :=
  let b := harp_cbor_map b 4 in
  let b := harp_cbor_uint b 0 in
  let b := harp_cbor_uint b (if (kind =? 0)%nat then METER_ID_PEAK (Z.of_nat slot) else METER_ID_RMS (Z.of_nat slot)) in
  let b := harp_cbor_uint b 1 in
  let b := harp_cbor_text b (meter_name slot kind) in
  let b := harp_cbor_uint b 8 in
  let b := harp_cbor_uint b 0x2 in
  let b := harp_cbor_uint b 11 in
  harp_cbor_uint b METER_RATE_HZ.

Definition encode_param_array (b : cbuf) : cbuf :=
  let b := harp_cbor_array b (Z.of_nat (NPARAMS + METER_NPARAMS)) in
  let b := fold_left (fun b p => encode_one_param b p true) table b in
  fold_left (fun b slot => fold_left (encode_meter slot) [0; 1]%nat b) (seq 0 METER_NSLOTS) b.

(** [hash_param_map_into]: the hash of the automatable descriptors.  The code
    does not test the buffer's [oom] flag. *)
Definition param_map_hash : harp_hash := harp_hash_compute (cb_buf (encode_param_array_automatable harp_cbuf_init)).
End descriptors.
End table.

(** ** What the blob codec promises *)

Section codec.
Context (table : list dev_param).
Context (Hids : NoDup (map p_id table)) (Hu32 : Forall (fun p => is_u32 (p_id p)) table).

(** The columns of a grid: sixteen rows of [NPARAMS] values. *)
Definition dims {A} (n : nat) (v : list (list A)) : Prop := length v = NPARTS /\ Forall (fun r => length r = n) v.

(** Values a [float] holds and the text format can carry: not NaN. *)
Definition f32_ok (x : Z) : Prop := is_u32 x /\ f32_isnan x = false.

Definition gs_ok (g : gridst) : Prop := dims (NPARAMS table) (gs_v g) /\ dims (NPARAMS table) (gs_present g).

Lemma dims_row {A} n (v : list (list A)) pi : dims n v -> (pi < NPARTS)%nat -> length (nth pi v []) = n.
Proof. intros [Hl Hr] Hp. rewrite List.Forall_forall in Hr. apply Hr, nth_In. lia. Qed.

Lemma dims_insert {A} n (v : list (list A)) pi r : dims n v -> length r = n -> dims n (<[pi := r]> v).
Proof.
  intros [Hl Hr] Hn. split; [by rewrite length_insert|]. apply Forall_insert; done.
Qed.

Lemma cell_set_cell v n pi j x pi' j' : dims n v -> (pi < NPARTS)%nat -> (j < n)%nat ->
  cell (set_cell v pi j x) pi' j' = if ((pi' =? pi) && (j' =? j))%nat then x else cell v pi' j'.
Proof.
  intros Hv Hp Hj. unfold cell, set_cell. pose proof Hv as [Hl Hr].
  rewrite nth_list_insert by lia. destruct (Nat.eqb_spec pi' pi) as [->|]; [|done].
  rewrite nth_list_insert; [done|]. erewrite dims_row by (done). done.
Qed.

Lemma marked_mark_cell m n pi j pi' j' : dims n m -> (pi < NPARTS)%nat -> (j < n)%nat ->
  marked (mark_cell m pi j) pi' j' = ((pi' =? pi) && (j' =? j))%nat || marked m pi' j'.
Proof.
  intros Hv Hp Hj. unfold marked, mark_cell. pose proof Hv as [Hl Hr].
  rewrite nth_list_insert by lia. destruct (Nat.eqb_spec pi' pi) as [->|]; [|done].
  rewrite nth_list_insert by (erewrite dims_row by (done); done). by destruct (j' =? j)%nat.
Qed.

Lemma dims_set_cell v n pi j x : dims n v -> (pi < NPARTS)%nat -> dims n (set_cell v pi j x).
Proof. intros Hv Hp. apply dims_insert; [done|]. rewrite length_insert. by apply dims_row. Qed.

Lemma dims_mark_cell m n pi j : dims n m -> (pi < NPARTS)%nat -> dims n (mark_cell m pi j).
Proof. intros Hv Hp. apply dims_insert; [done|]. rewrite length_insert. by apply dims_row. Qed.

Lemma cell_ext n v w : dims n v -> dims n w -> (forall pi j, (pi < NPARTS)%nat -> (j < n)%nat -> cell v pi j = cell w pi j) -> v = w.
Proof.
  intros Hv Hw H. pose proof (proj1 Hv) as Lv. pose proof (proj1 Hw) as Lw.
  apply nth_ext with (d := []) (d' := []); [lia|]. intros pi Hp. rewrite Lv in Hp.
  pose proof (dims_row _ _ _ Hv Hp). pose proof (dims_row _ _ _ Hw Hp).
  apply nth_ext with (d := 0) (d' := 0); [lia|]. intros j Hj. apply H; lia.
Qed.

Lemma find_id_bound id t : forall i j, find_id id i t = Some j -> (i <= j < i + length t)%nat.
Proof.
  induction t as [|p t IH]; intros i j; [done|]. cbn [find_id length].
  destruct (p_id p =? id); [intros [= <-]; lia|]. intros Hf%IH. lia.
Qed.

Lemma find_id_at t : NoDup (map p_id t) -> forall j i, (j < length t)%nat ->
  find_id (p_id (nth j t (mk_param 0 [] 0 [] 0))) i t = Some (i + j)%nat.
Proof.
  induction t as [|p t IH]; intros Hn j i Hj; cbn [length] in Hj; [lia|].
  inversion Hn as [|? ? Hp Hn']; subst. clear Hn. rename Hn' into Hn. destruct j as [|j]; cbn [nth find_id].
  - rewrite Z.eqb_refl. f_equal. lia.
  - destruct (Z.eqb_spec (p_id p) (p_id (nth j t (mk_param 0 [] 0 [] 0)))) as [E|_].
    + destruct Hp. rewrite E. apply list_elem_of_In, in_map, nth_In. lia.
    + rewrite IH by (done || lia). f_equal. lia.
Qed.

Lemma param_index_at j : (j < NPARAMS table)%nat -> param_index table (p_id (param_at table j)) = Some j.
Proof. intros Hj. unfold param_index, param_at. by rewrite find_id_at by done. Qed.

(** *** Documents

    Every well-formed params blob the parser reads: the per-part form and the
    legacy flat form (the values of part 0). *)
Inductive params_doc : Set := PerPart (l : list (Z * list (Z * Z))) | Flat (l : list (Z * Z)).

Definition pair_ok (x : Z * Z) : Prop := is_u64 x.1 /\ is_u64 x.2 /\ f64_isnan x.2 = false.
Definition part_ok (x : Z * list (Z * Z)) : Prop := is_u64 x.1 /\ zlen x.2 < 2 ^ 63 /\ Forall pair_ok x.2.
Definition doc_ok (doc : params_doc) : Prop :=
  match doc with
  | PerPart l => zlen l < 2 ^ 63 /\ Forall part_ok l
  | Flat l => zlen l < 2 ^ 63 /\ Forall pair_ok l
  end.

Definition enc_pair (x : Z * Z) : list Z := enc_uint x.1 ++ enc_float x.2.
Definition enc_pairs (l : list (Z * Z)) : list Z := enc_map (zlen l) ++ flat_map enc_pair l.
Definition enc_doc (doc : params_doc) : list Z :=
  match doc with
  | PerPart l => enc_map (zlen l) ++ flat_map (fun x => enc_uint x.1 ++ enc_pairs x.2) l
  | Flat l => enc_pairs l
  end.

(** The meaning of a document: parameters are set one after the other; unknown
    ids and parts the device does not have are passed over. *)
Definition set_pair (pi : option nat) (g : gridst) (x : Z * Z) : gridst :=
  match pi with Some pi => grid_set table pi x.1 x.2 g | None => g end.
Definition set_pairs (pi : option nat) (l : list (Z * Z)) (g : gridst) : gridst := fold_left (set_pair pi) l g.
Definition run_doc (doc : params_doc) (g : gridst) : gridst :=
  match doc with
  | PerPart l => fold_left (fun g x => set_pairs (part_of x.1) x.2 g) l g
  | Flat l => set_pairs (Some 0%nat) l g
  end.

Lemma enc_float_zlen v : 1 <= zlen (enc_float v).
Proof. unfold enc_float. repeat case_match; rewrite zlen_cons; match goal with |- 1 <= 1 + zlen ?l => pose proof (zlen_nonneg l) end; lia. Qed.

Lemma reads_pair pi x : pair_ok x -> reads 0 (part_pair table pi x.1) (enc_float x.2) (fun g => set_pair pi g x).
Proof.
  intros (_ & Hv & Hn). unfold part_pair. apply reads_last with (a := x.2); [by apply decodes_float|].
  destruct pi as [pi|]; [apply reads_modify|by intros ???].
Qed.

Definition pair_field (pi : option nat) (x : Z * Z) : field gridst := mk_field x.1 (enc_float x.2) (fun g => set_pair pi g x).

Lemma reads_pairs pi l : zlen l < 2 ^ 63 -> Forall pair_ok l ->
  reads 0 (parse_part_map table pi) (enc_pairs l) (set_pairs pi l).
Proof.
  intros Hn Hl.
  assert (enc_pairs l = enc_fields (map (pair_field pi) l)) as ->.
  { unfold enc_fields, enc_pairs, zlen. by rewrite length_map, flat_map_map. }
  eapply reads_ext; [|apply reads_map_fields].
  - intros g. unfold run_fields. by rewrite fold_left_map.
  - unfold zlen. by rewrite length_map.
  - intros f Hf. apply list_elem_of_fmap in Hf as (x & -> & Hx). rewrite List.Forall_forall in Hl.
    specialize (Hl x ltac:(by apply list_elem_of_In)). split; [apply Hl|split; [apply enc_float_zlen|by apply reads_pair]].
Qed.

Lemma reads_part x : part_ok x ->
  reads 0 (pidx ← on_fst harp_cdec_uint; parse_part_map table (part_of pidx)) (enc_uint x.1 ++ enc_pairs x.2)
    (set_pairs (part_of x.1) x.2).
Proof.
  intros (Hk & Hn & Hl). eapply reads_leaf; [lia|by apply decodes_uint|by apply reads_pairs].
Qed.

Lemma reads_flat x : pair_ok x ->
  reads 0 (id ← on_fst harp_cdec_uint; part_pair table (Some 0%nat) id) (enc_pair x) (fun g => set_pair (Some 0%nat) g x).
Proof. intros Hx. eapply reads_leaf; [lia|by apply decodes_uint, Hx|by apply reads_pair]. Qed.

(** A computation that looks at the decoder and then reads [bs]. *)
Lemma reads_peek (m : cdec -> parser gridst unit) bs f :
  (forall rest, reads 0 (m (mk_cdec (bs ++ rest) false)) bs f) ->
  reads 0 ('(d, _) ← sm_get; m d) bs f.
Proof. intros H rest t Hr. erewrite sm_bind_run by reflexivity. by apply H. Qed.

Lemma major_head mj v rest : 0 <= mj < 8 -> is_u64 v ->
  harp_cdec_peek (mk_cdec (head_bytes mj v ++ rest) false) = mj.
Proof.
  intros Hm Hv. unfold harp_cdec_peek. cbn [d_err d_cur]. rewrite head_bytes_be by done.
  cbn [app]. pose proof (ai_of_range v Hv). apply ib_split; lia.
Qed.

Lemma major_float v rest : harp_cdec_peek (mk_cdec (enc_float v ++ rest) false) = 7.
Proof.
  unfold harp_cdec_peek, enc_float. cbn [d_err d_cur].
  destruct (f64_eq _ _ || f64_isnan v); [destruct (half_from_float _)|]; reflexivity.
Qed.

Lemma reads_parts x l : part_ok x -> Forall part_ok l ->
  reads 0 (parse_part_map table (part_of x.1);;
           sm_for (zlen l) (pidx ← on_fst harp_cdec_uint; parse_part_map table (part_of pidx)))
    (enc_pairs x.2 ++ flat_map (fun x => enc_uint x.1 ++ enc_pairs x.2) l)
    (fun g => fold_left (fun g x => set_pairs (part_of x.1) x.2 g) l (set_pairs (part_of x.1) x.2 g)).
Proof.
  intros (Hk & Hn & Hx) Hl. apply (reads_then _ _ _ _ (set_pairs (part_of x.1) x.2)); [by apply reads_pairs|].
  apply (reads_loop l _ _ (fun x => set_pairs (part_of x.1) x.2)). intros y Hy. apply reads_part.
  rewrite List.Forall_forall in Hl. by apply Hl, list_elem_of_In.
Qed.

Lemma reads_values x l : pair_ok x -> Forall pair_ok l ->
  reads 0 (part_pair table (Some 0%nat) x.1;;
           sm_for (zlen l) (id ← on_fst harp_cdec_uint; part_pair table (Some 0%nat) id))
    (enc_float x.2 ++ flat_map enc_pair l) (fun g => set_pairs (Some 0%nat) (x :: l) g).
Proof.
  intros Hx Hl. apply (reads_then _ _ _ _ (fun g => set_pair (Some 0%nat) g x)); [by apply reads_pair|].
  apply (reads_loop l _ _ (fun x g => set_pair (Some 0%nat) g x)). intros y Hy. apply reads_flat.
  rewrite List.Forall_forall in Hl. by apply Hl, list_elem_of_In.
Qed.

(** The map header and the key of the first pair. *)
Lemma reads_first n k bs f : 0 < n < 2 ^ 63 -> is_u64 k -> 2 * n <= zlen (enc_uint k ++ bs) ->
  (forall rest, reads 0 (let major := harp_cdec_peek (mk_cdec (bs ++ rest) false) in
      if major =? 5 then
        parse_part_map table (part_of k);;
        sm_for (n - 1) (pidx ← on_fst harp_cdec_uint; parse_part_map table (part_of pidx))
      else if major =? 7 then
        part_pair table (Some 0%nat) k;;
        sm_for (n - 1) (id ← on_fst harp_cdec_uint; part_pair table (Some 0%nat) id)
      else sm_fail) bs f) ->
  reads 0 (parse_params table) (enc_map n ++ enc_uint k ++ bs) f.
Proof.
  intros Hn Hk Hb Hr. unfold parse_params.
  eapply (reads_header _ _ (2 * n)); [apply decodes_map; lia| |lia|done].
  rewrite (proj2 (Z.eqb_neq n 0)) by lia.
  eapply reads_leaf; [lia|by apply decodes_uint|]. by apply reads_peek.
Qed.

Lemma reads_empty : reads 0 (parse_params table) (enc_map 0) (fun g => g).
Proof. intros rest g Hr. unfold parse_params. erewrite sm_bind_run; [|unfold on_fst; cbn [fst]; by rewrite decodes_map by lia]. done. Qed.

Lemma enc_pairs_zlen l : 1 <= zlen (enc_pairs l).
Proof. unfold enc_pairs. rewrite zlen_app. pose proof (head_zlen 5 (zlen l)). unfold enc_map. pose proof (zlen_nonneg (flat_map enc_pair l)). lia. Qed.

Lemma reads_doc doc : doc_ok doc -> reads 0 (parse_params table) (enc_doc doc) (run_doc doc).
Proof.
  destruct doc as [[|x l]|[|x l]]; intros [Hn Hl]; try apply reads_empty.
  all: apply Forall_cons_iff in Hl as [Hx Hl]; pose proof Hx as (Hk & _); rewrite zlen_cons in Hn; pose proof (zlen_nonneg l).
  - change (enc_doc (PerPart (x :: l))) with
      (enc_map (zlen (x :: l)) ++ (enc_uint x.1 ++ enc_pairs x.2) ++ flat_map (fun x => enc_uint x.1 ++ enc_pairs x.2) l).
    rewrite <- app_assoc. rewrite zlen_cons. apply reads_first; [lia|done| |].
    + pose proof (flat_map_zlen_lb (x :: l) (fun x => enc_uint x.1 ++ enc_pairs x.2) 2) as Hlb.
      rewrite zlen_cons in Hlb. cbn [flat_map] in Hlb. rewrite <- app_assoc in Hlb. apply Hlb. intros y _.
      rewrite zlen_app. pose proof (enc_uint_zlen y.1). pose proof (enc_pairs_zlen y.2). lia.
    + intros rest. cbv zeta. unfold enc_pairs at 1. rewrite <- !app_assoc. unfold enc_map at 1.
      rewrite major_head by (done || unfold is_u64; pose proof (zlen_nonneg x.2); destruct Hx as (_ & ? & _); lia).
      cbn [Z.eqb Pos.eqb]. replace (1 + zlen l - 1) with (zlen l) by lia. by apply reads_parts.
  - change (enc_doc (Flat (x :: l))) with (enc_map (zlen (x :: l)) ++ (enc_uint x.1 ++ enc_float x.2) ++ flat_map enc_pair l).
    rewrite <- app_assoc. rewrite zlen_cons. apply reads_first; [lia|done| |].
    + pose proof (flat_map_zlen_lb (x :: l) enc_pair 2) as Hlb.
      rewrite zlen_cons in Hlb. cbn [flat_map] in Hlb. unfold enc_pair at 2 in Hlb. rewrite <- app_assoc in Hlb. apply Hlb. intros y _.
      unfold enc_pair. rewrite zlen_app. pose proof (enc_uint_zlen y.1). pose proof (enc_float_zlen y.2). lia.
    + intros rest. cbv zeta. rewrite <- app_assoc, major_float.
      cbn [Z.eqb Pos.eqb]. replace (1 + zlen l - 1) with (zlen l) by lia. by apply reads_values.
Qed.

(** *** The encoder writes the document of the whole grid *)

Definition row_pairs (v : grid) (pi : nat) : list (Z * Z) :=
  map (fun i => (p_id (param_at table i), f32_to_f64 (cell v pi i))) (seq 0 (NPARAMS table)).
Definition grid_doc (v : grid) : params_doc := PerPart (map (fun pi => (Z.of_nat pi, row_pairs v pi)) (seq 0 NPARTS)).

Lemma zlen_map_seq {A} (f : nat -> A) n : zlen (map f (seq 0 n)) = Z.of_nat n.
Proof. unfold zlen. by rewrite length_map, length_seq. Qed.

Lemma appends_params {R : Realloc} v : appends (refdev_encode_params_blob table v) (enc_doc (grid_doc v)).
Proof.
  unfold refdev_encode_params_blob, grid_doc, enc_doc. rewrite zlen_map_seq, flat_map_map.
  apply (appends_comp _ (fun b => fold_left (encode_part table v) (seq 0 NPARTS) b)); [apply appends_map|].
  apply (appends_fold (encode_part table v) (fun pi => enc_uint (Z.of_nat pi) ++ enc_pairs (row_pairs v pi))). intros pi.
  unfold encode_part, enc_pairs, row_pairs. rewrite zlen_map_seq, flat_map_map. rewrite app_assoc.
  apply (appends_comp _ (fun b => fold_left (encode_cell table v pi) (seq 0 (NPARAMS table)) b)).
  - apply (appends_comp _ (fun b => harp_cbor_map b _)); auto with enc.
  - apply (appends_fold (encode_cell table v pi) (fun i => enc_pair (p_id (param_at table i), f32_to_f64 (cell v pi i)))). intros i.
    apply (appends_comp _ (fun b => harp_cbor_float b _)); [apply appends_uint|apply appends_float].
Qed.

Definition grid_ok (v : grid) : Prop := dims (NPARAMS table) v /\ forall pi j, (pi < NPARTS)%nat -> (j < NPARAMS table)%nat -> f32_ok (cell v pi j).

Lemma id_u64 i : (i < NPARAMS table)%nat -> is_u64 (p_id (param_at table i)).
Proof.
  intros Hi. rewrite List.Forall_forall in Hu32. specialize (Hu32 (param_at table i) ltac:(by apply nth_In)). ulia.
Qed.

Lemma grid_doc_ok v : grid_ok v -> Z.of_nat (NPARAMS table) < 2 ^ 63 -> doc_ok (grid_doc v).
Proof.
  intros [_ Hv] Hn. split; [rewrite zlen_map_seq; done|].
  apply List.Forall_forall. intros x (pi & <- & Hpi%in_seq)%in_map_iff. unfold NPARTS in *.
  split; [unfold is_u64; cbn; lia|]. split; [by unfold row_pairs; cbn [snd]; rewrite zlen_map_seq|].
  apply List.Forall_forall. intros y (i & <- & Hi%in_seq)%in_map_iff. destruct (Hv pi i) as [Hu Hnan]; [unfold NPARTS; lia|lia|].
  split; [apply id_u64; lia|]. by split; [apply f32_to_f64_range|apply f32_to_f64_not_nan].
Qed.

(** After the first [k] columns of row [pi], with all rows before it done. *)
Definition filled (v : grid) (pi k : nat) (g : gridst) : Prop :=
  gs_ok g /\ forall p j, (p < NPARTS)%nat -> (j < NPARAMS table)%nat -> (p < pi \/ p = pi /\ j < k)%nat ->
    cell (gs_v g) p j = cell v p j /\ marked (gs_present g) p j = true.

Lemma filled_cell v pi k g : grid_ok v -> (pi < NPARTS)%nat -> (k < NPARAMS table)%nat -> filled v pi k g ->
  filled v pi (S k) (set_pair (Some pi) g (p_id (param_at table k), f32_to_f64 (cell v pi k))).
Proof.
  intros [_ Hv] Hp Hk [[Hd1 Hd2] Hg]. unfold set_pair, grid_set. cbn [fst snd].
  change (find_id (p_id (param_at table k)) 0 table) with (param_index table (p_id (param_at table k))).
  rewrite param_index_at by done. split; [split; [by apply dims_set_cell|by apply dims_mark_cell]|].
  intros p j Hp' Hj Hd. cbn [gs_v gs_present].
  rewrite (cell_set_cell _ (NPARAMS table)), (marked_mark_cell _ (NPARAMS table)) by done.
  destruct ((p =? pi) && (j =? k))%nat eqn:E.
  - apply andb_prop in E as [->%Nat.eqb_eq ->%Nat.eqb_eq]. destruct (Hv pi k Hp Hk). by rewrite f64_to_f32_of_f32.
  - apply Hg; [done..|]. destruct (Nat.eqb_spec p pi), (Nat.eqb_spec j k); cbn in E; try done; lia.
Qed.

Lemma run_grid_doc v g : grid_ok v -> gs_ok g -> filled v NPARTS 0 (run_doc (grid_doc v) g).
Proof.
  intros Hv Hg. unfold run_doc, grid_doc. rewrite fold_left_map. cbn [fst snd].
  apply (fold_seq_inv (fun pi => filled v pi 0)).
  - split; [done|]. intros; lia.
  - intros pi g' Hpi Hf. unfold part_of. rewrite (proj2 (Z.ltb_lt _ _)), Nat2Z.id by lia.
    unfold set_pairs, row_pairs. rewrite fold_left_map.
    assert (filled v pi (NPARAMS table) (fold_left (fun c i => set_pair (Some pi) c (p_id (param_at table i), f32_to_f64 (cell v pi i)))
      (seq 0 (NPARAMS table)) g')) as [Hok Hr].
    { apply (fold_seq_inv (filled v pi)); [done|]. intros k g'' Hk Hf''. by apply filled_cell. }
    split; [done|]. intros p j Hp Hj Hd. apply Hr; lia.
Qed.

(** *** Any input *)

(** Cells that are not marked have kept their value, and marks are never taken away. *)
Definition untouched (g0 g : gridst) : Prop :=
  gs_ok g /\ forall p j, (p < NPARTS)%nat -> (j < NPARAMS table)%nat ->
    (marked (gs_present g0) p j = true -> marked (gs_present g) p j = true) /\ (marked (gs_present g) p j = false -> cell (gs_v g) p j = cell (gs_v g0) p j).

Lemma untouched_set g0 g pi id val : (pi < NPARTS)%nat -> untouched g0 g -> untouched g0 (grid_set table pi id val g).
Proof.
  intros Hp [[Hd1 Hd2] Hg]. unfold grid_set. destruct (find_id id 0 table) as [k|] eqn:Ek; [|by split].
  apply find_id_bound in Ek. assert (k < NPARAMS table)%nat by (unfold NPARAMS; lia).
  split; [split; [by apply dims_set_cell|by apply dims_mark_cell]|].
  intros p j Hp' Hj. cbn [gs_v gs_present]. destruct (Hg p j Hp' Hj) as [H1 H2].
  rewrite (cell_set_cell _ (NPARAMS table)), (marked_mark_cell _ (NPARAMS table)) by done.
  destruct (_ && _)%nat; cbn [orb]; [done|]. split; [exact H1|exact H2].
Qed.

Lemma untouched_parse g0 : keeps (fun s => untouched g0 s.2) (parse_params table).
Proof.
  assert (forall A (m : dec A), keeps (fun s => untouched g0 s.2) (on_fst m)) as Hfst.
  { intros A m [d g] Hs. unfold on_fst. cbn. destruct (m d). done. }
  assert (forall pi id, (match pi with Some p => p < NPARTS | None => True end)%nat ->
    keeps (fun s => untouched g0 s.2) (part_pair table pi id)) as Hpair.
  { intros pi id Hp. unfold part_pair. apply keeps_bind; [apply Hfst|]. intros val. destruct pi as [pi|]; [|apply keeps_ret].
    intros [d g] Hs. cbn. by apply untouched_set. }
  assert (forall k, match part_of k with Some p => (p < NPARTS)%nat | None => True end) as Hpart.
  { intros k. unfold part_of. case_cond; [|done]. unfold NPARTS in *. lia. }
  assert (forall pi, (match pi with Some p => p < NPARTS | None => True end)%nat -> keeps (fun s => untouched g0 s.2) (parse_part_map table pi)) as Hmap.
  { intros pi Hp. apply keeps_map_fields; [intros; apply Hfst|]. intros key. by apply Hpair. }
  unfold parse_params. apply keeps_bind; [apply Hfst|]. intros n. apply keeps_if; [apply keeps_ret|].
  apply keeps_bind; [apply Hfst|]. intros k. apply keeps_bind; [by intros s Hs|]. intros [d _]. cbv zeta.
  apply keeps_if; [|apply keeps_if; [|apply keeps_fail]].
  - apply keeps_bind; [apply Hmap, Hpart|]. intros _. apply keeps_for, keeps_bind; [apply Hfst|]. intros p. apply Hmap, Hpart.
  - apply keeps_bind; [by apply Hpair; unfold NPARTS; lia|]. intros _. apply keeps_for, keeps_bind; [apply Hfst|]. intros p. apply Hpair. unfold NPARTS. lia.
Qed.
End codec.

(** ** Descriptors as items *)

(** What the hash input says of a parameter. *)
Definition desc_core (p : dev_param) : Z * list Z * Z * list (list Z) :=
  (p_id p, p_name p, p_steps p, if 0 <? p_steps p then map (fun s => nth s (p_labels p) []) (seq 0 (Z.to_nat (p_steps p))) else []).

Definition desc_item (include_caps : bool) (p : dev_param) : item :=
  let stepped := 0 <? p_steps p in
  IMap ([(IUint 0, IUint (p_id p)); (IUint 1, IText (p_name p))]
        ++ (if stepped then [(IUint 5, IUint (p_steps p))] else [])
        ++ [(IUint 8, IUint (param_flags p include_caps))]
        ++ (if stepped then [(IUint 9, IArray (map IText (desc_core p).2))] else [])).

Definition meter_item (slot kind : nat) : item :=
  IMap [(IUint 0, IUint (if (kind =? 0)%nat then METER_ID_PEAK (Z.of_nat slot) else METER_ID_RMS (Z.of_nat slot)));
        (IUint 1, IText (meter_name slot kind)); (IUint 8, IUint 2); (IUint 11, IUint METER_RATE_HZ)].

Definition meter_items : list item := flat_map (fun slot => map (meter_item slot) [0; 1]%nat) (seq 0 METER_NSLOTS).

Definition param_ok (p : dev_param) : Prop :=
  is_u32 (p_id p) /\ is_u8 (p_steps p) /\ zlen (p_name p) < 2 ^ 64 /\ Forall (fun s => zlen s < 2 ^ 64) (p_labels p).

Section desc.
Context {R : Realloc}.

Lemma appends_one_param p caps : appends (fun b => encode_one_param b p caps) (enc_item (desc_item caps p)).
Proof.
  unfold encode_one_param, desc_item. destruct (0 <? p_steps p) eqn:E; cbv zeta.
  - eapply appends_eq.
    { eapply (appends_comp _ (fun b => fold_left _ _ b));
        [|apply (appends_fold _ (fun s => enc_text (nth s (p_labels p) []))); intros s; apply appends_text]. appends_seq. }
    unfold desc_core. rewrite E. cbn [enc_item app flat_map fst snd map].
    rewrite map_map, zlen_map_seq, flat_map_map, !app_nil_r, <- !app_assoc, Z2Nat.id by lia. reflexivity.
  - eapply appends_eq; [appends_seq|]. cbn [enc_item app flat_map fst snd]. by rewrite !app_nil_r, <- !app_assoc.
Qed.

Lemma appends_param_array_from t :
  appends (fun b => encode_param_array_from b t) (enc_item (IArray (map (desc_item false) t))).
Proof.
  cbn [enc_item]. rewrite flat_map_map. unfold zlen. rewrite length_map.
  apply (appends_comp _ (fun b => fold_left _ t b)); [apply appends_array|].
  apply (appends_fold _ (fun p => enc_item (desc_item false p))). intros p. apply appends_one_param.
Qed.

Lemma appends_meter slot kind : appends (fun b => encode_meter slot b kind) (enc_item (meter_item slot kind)).
Proof.
  unfold encode_meter. cbv zeta. eapply appends_eq; [appends_seq|].
  cbn [meter_item enc_item flat_map fst snd]. by rewrite !app_nil_r, <- !app_assoc.
Qed.

Lemma appends_param_array t :
  appends (encode_param_array t) (enc_item (IArray (map (desc_item true) t ++ meter_items))).
Proof.
  eapply appends_eq.
  { unfold encode_param_array. cbv zeta.
    eapply (appends_comp _ (fun b => fold_left _ (seq 0 METER_NSLOTS) b)).
    - eapply (appends_comp _ (fun b => fold_left _ t b)); [apply appends_array|].
      apply (appends_fold _ (fun p => enc_item (desc_item true p))). intros p. apply appends_one_param.
    - apply (appends_fold _ (fun slot => flat_map (fun kind => enc_item (meter_item slot kind)) [0; 1]%nat)).
      intros slot. apply (appends_fold _ (fun kind => enc_item (meter_item slot kind))). intros kind. apply appends_meter. }
  assert (zlen (map (desc_item true) t ++ meter_items) = Z.of_nat (NPARAMS t + METER_NPARAMS)) as E.
  { unfold zlen, NPARAMS. by rewrite length_app, length_map. }
  cbn [enc_item]. rewrite E, flat_map_app, flat_map_map, <- app_assoc. reflexivity.
Qed.
End desc.

Lemma desc_item_wf caps p : param_ok p -> item_wf (desc_item caps p) = true.
Proof.
  intros (Hi & Hs & Hn & Hl). assert (u64_b (param_flags p caps) = true) as Hf.
  { unfold param_flags. by destruct (_ && _). }
  assert (u64_b (p_id p) = true) as Hid by (apply u64_b_spec; ulia).
  assert (u64_b (p_steps p) = true) as Hst by (apply u64_b_spec; ulia).
  unfold item_wf, desc_item. destruct (0 <? p_steps p) eqn:E; cbn [app item_ok floats_ok forallb fst snd];
    rewrite ?Hf, ?Hid, ?Hst, (proj2 (Z.ltb_lt _ _) Hn); [|done].
  assert (forall l, Forall (fun s => zlen s < 2 ^ 64) l -> forallb item_ok (map IText l) = true /\ forallb floats_ok (map IText l) = true) as Hmap.
  { induction 1 as [|s l Hz _ [IH1 IH2]]; [done|]. cbn [map forallb item_ok floats_ok]. by rewrite IH1, IH2, (proj2 (Z.ltb_lt _ _) Hz). }
  destruct (Hmap (desc_core p).2) as [-> ->].
  - unfold desc_core. rewrite E. apply List.Forall_forall. intros x (s & <- & _)%in_map_iff.
    destruct (nth_in_or_default s (p_labels p) []) as [Hin | ->]; [|done]. rewrite List.Forall_forall in Hl. by apply Hl.
  - rewrite !andb_true_r. apply andb_true_iff. split; [done|]. apply Z.ltb_lt. unfold desc_core. rewrite E. cbn [snd]. unfold zlen.
    rewrite !length_map, length_seq. unfold is_u8 in Hs. lia.
Qed.

Lemma map_IText_inj l l' : map IText l = map IText l' -> l = l'.
Proof. revert l'. induction l as [|x l IH]; intros [|y l'] [=]; [done|]. subst. f_equal. by apply IH. Qed.

Lemma desc_item_inj p q : param_ok p -> param_ok q -> desc_item false p = desc_item false q -> desc_core p = desc_core q.
Proof.
  intros (_ & Hp & _) (_ & Hq & _). unfold is_u8 in *. unfold desc_item, desc_core.
  destruct (0 <? p_steps p) eqn:Ep, (0 <? p_steps q) eqn:Eq; cbn [app snd]; intros [=]; bool_to_prop.
  - match goal with H : map IText _ = _ |- _ => apply map_IText_inj in H; congruence end.
  - assert (p_steps p = 0) by lia. assert (p_steps q = 0) by lia. congruence.
Qed.

Lemma desc_item_core p q : desc_core p = desc_core q -> desc_item false p = desc_item false q.
Proof.
  intros E. assert (p_id p = p_id q /\ p_name p = p_name q /\ p_steps p = p_steps q) as (E1 & E2 & E3) by (unfold desc_core in E; by injection E).
  unfold desc_item, param_flags. by rewrite E, E1, E2, E3.
Qed.

(** ** Properties *)

(** the params blob round-trips.  For every parameter table with distinct
    ids and every grid of non-NaN values, if encoding the grid does not run out
    of memory, then parsing the bytes, into arrays with any contents, succeeds,
    gives back exactly the grid and marks every cell as present. *)
Theorem params_blob_roundtrip {R : Realloc} (table : list dev_param) (v : grid) (g : gridst) :
  NoDup (map p_id table) -> Forall (fun p => is_u32 (p_id p)) table -> zlen table < 2 ^ 63 ->
  grid_ok table v -> gs_ok table g ->
  let b := refdev_encode_params_blob table v harp_cbuf_init in
  cb_oom b = false ->
  exists g', refdev_parse_params_blob table (cb_buf b) g = (true, g') /\ gs_v g' = v /\
    forall p j, (p < NPARTS)%nat -> (j < NPARAMS table)%nat -> marked (gs_present g') p j = true.
Proof.
  intros Hids Hu Hn Hv Hg b Ho. exists (run_doc table (grid_doc table v) g).
  destruct (run_grid_doc table Hids v g Hv Hg) as [[Hd _] Hf]. split; [|split].
  - unfold refdev_parse_params_blob, b. rewrite (appends_run _ _ (appends_params table v) Ho).
    pose proof (reads_doc table (grid_doc table v) (grid_doc_ok table Hu v Hv Hn) [] g (zlen_nonneg _)) as Hr.
    rewrite app_nil_r in Hr. unfold harp_cdec_init. by rewrite Hr.
  - apply (cell_ext (NPARAMS table)); [done|by apply Hv|]. intros p j Hp Hj. apply Hf; [done|done|by left].
  - intros p j Hp Hj. apply Hf; [done|done|by left].
Qed.

(** the params parser reads every well-formed document, of the per-part
    form as of the legacy flat form, and does what it says: the values are set
    in order, a later pair of the same parameter wins, pairs with an unknown id
    and whole parts with an index of 16 or more are passed over without losing
    the place in the input, and bytes after the map are not looked at. *)
Theorem params_parse_doc (table : list dev_param) (doc : params_doc) (rest : list Z) (g : gridst) :
  doc_ok doc ->
  refdev_parse_params_blob table (enc_doc doc ++ rest) g = (true, run_doc table doc g).
Proof.
  intros Hd. unfold refdev_parse_params_blob, harp_cdec_init. by rewrite (reads_doc table doc Hd rest g (zlen_nonneg _)).
Qed.

(** on arbitrary bytes, whether it accepts them or not, the params parser
    writes only inside the two 16 x NPARAMS arrays, never takes a mark away, and
    leaves every value whose cell it did not mark as it was. *)
Theorem params_parse_confined (table : list dev_param) (payload : list Z) (g : gridst) :
  gs_ok table g -> untouched table g (refdev_parse_params_blob table payload g).2.
Proof.
  intros Hg. unfold refdev_parse_params_blob.
  pose proof (untouched_parse table g (harp_cdec_init payload, g) ltac:(by split)) as H.
  destruct (parse_params table (harp_cdec_init payload, g)) as [o [d g']]. exact H.
Qed.

(** the param-map hash identifies what automation depends on and nothing
    else.  Two tables have the same hash input exactly when they agree,
    parameter by parameter and in order, on id, name, step count and step
    labels; factory defaults, the modulation capability bits and the meters do
    not enter.  The advertised array is the same descriptors with those bits,
    followed by the 34 meter descriptors. *)
Theorem param_map_hash_input {R : Realloc} (t1 t2 : list dev_param) :
  Forall param_ok t1 -> Forall param_ok t2 -> zlen t1 < 2 ^ 63 -> zlen t2 < 2 ^ 63 ->
  let b t := encode_param_array_automatable t harp_cbuf_init in
  cb_oom (b t1) = false -> cb_oom (b t2) = false ->
  (cb_buf (b t1) = cb_buf (b t2) <-> map desc_core t1 = map desc_core t2) /\
  (map desc_core t1 = map desc_core t2 -> param_map_hash t1 = param_map_hash t2) /\
  (let full := encode_param_array t1 harp_cbuf_init in cb_oom full = false ->
   cb_buf full = enc_item (IArray (map (desc_item true) t1 ++ meter_items))).
Proof.
  intros H1 H2 N1 N2 b O1 O2.
  assert (forall t, cb_oom (b t) = false -> cb_buf (b t) = enc_item (IArray (map (desc_item false) t))) as Hb.
  { intros t Ht. by apply (appends_run _ _ (appends_param_array_from t)). }
  assert (map desc_core t1 = map desc_core t2 -> map (desc_item false) t1 = map (desc_item false) t2) as Hcore.
  { apply (map_determined _ _ param_ok); [done|done|]. intros p q _ _. apply desc_item_core. }
  assert (forall t, Forall param_ok t -> zlen t < 2 ^ 63 -> item_wf (IArray (map (desc_item false) t)) = true) as Hwf.
  { intros t Ht Hn. unfold item_wf. cbn [item_ok floats_ok]. unfold zlen in *. rewrite length_map, (proj2 (Z.ltb_lt _ _) Hn).
    apply andb_true_iff. split; [apply andb_true_iff; split; [done|]|]; apply forallb_forall; intros i (p & <- & Hp)%in_map_iff;
      rewrite List.Forall_forall in Ht; pose proof (desc_item_wf false p (Ht p Hp)) as Hw; by apply andb_prop in Hw as [? ?]. }
  split; [|split].
  - rewrite !Hb by done. split; [|by intros ->%Hcore]. intros E.
    rewrite <- (app_nil_r (enc_item (IArray (map _ t1)))), <- (app_nil_r (enc_item (IArray (map _ t2)))) in E.
    apply enc_item_inj in E as [E _]; [|by apply Hwf..]. injection E as E. revert E. apply (map_determined _ _ param_ok); [done|done|]. apply desc_item_inj.
  - intros E%Hcore. unfold param_map_hash. fold (b t1) (b t2). by rewrite !Hb, E by done.
  - intros full Hf. exact (appends_run _ _ (appends_param_array t1) Hf).
Qed.

(** *** Witnesses *)

Definition demo_grid (x : Z) : grid := repeat (repeat x 12) NPARTS.
Definition demo_gs : gridst := mk_gs (demo_grid 7) (repeat (repeat false 12) NPARTS).

Lemma g_params_ids : NoDup (map p_id g_params).
Proof. apply (bool_decide_unpack _). vm_compute. exact I. Qed.
Lemma g_params_ok : Forall param_ok g_params.
Proof. unfold g_params, param_ok, is_u32, is_u8. repeat (apply Forall_cons_iff; split; [split_and!; repeat constructor; vm_compute; congruence|]). constructor. Qed.
Lemma g_params_u32 : Forall (fun p => is_u32 (p_id p)) g_params.
Proof. pose proof g_params_ok as H. rewrite List.Forall_forall in *. intros p Hp. by apply H. Qed.

Lemma demo_cell x pi j : (pi < NPARTS)%nat -> (j < 12)%nat -> cell (demo_grid x) pi j = x.
Proof.
  intros Hp Hj. unfold cell, demo_grid.
  rewrite (nth_indep _ [] (repeat x 12)), nth_repeat by (by rewrite repeat_length). by rewrite (nth_indep _ 0 x), nth_repeat by (by rewrite repeat_length).
Qed.

Lemma dims_repeat {A} n (r : list A) : length r = n -> dims n (repeat r NPARTS).
Proof.
  intros <-. split; [apply repeat_length|]. apply List.Forall_forall. by intros x ->%repeat_spec.
Qed.

Lemma demo_grid_ok : grid_ok g_params (demo_grid F32_0_6).
Proof.
  split; [by apply dims_repeat|]. intros pi j Hp Hj. rewrite demo_cell by done. split; [unfold is_u32, F32_0_6; lia|reflexivity].
Qed.

Lemma demo_gs_ok : gs_ok g_params demo_gs.
Proof. split; by apply dims_repeat. Qed.

Lemma params_blob_roundtrip_witness :
  exists g', refdev_parse_params_blob g_params
      (cb_buf (refdev_encode_params_blob (R := fun _ => true) g_params (demo_grid F32_0_6) harp_cbuf_init)) demo_gs = (true, g') /\ gs_v g' = demo_grid F32_0_6.
Proof.
  destruct (params_blob_roundtrip (R := fun _ => true) g_params (demo_grid F32_0_6) demo_gs
    g_params_ids g_params_u32 ltac:(vm_compute; reflexivity) demo_grid_ok demo_gs_ok ltac:(vm_compute; reflexivity)) as (g' & H1 & H2 & _).
  exists g'. split; [exact H1|exact H2].
Defined.

(** A blob with an unknown id and a part the device does not have. *)
Definition demo_doc : params_doc :=
  PerPart [(2, [(99, f32_to_f64 F32_HALF); (3, f32_to_f64 F32_0_6)]); (77, [(1, f32_to_f64 F32_0_6)])].

Lemma demo_doc_ok : doc_ok demo_doc.
Proof. split; [reflexivity|]. unfold part_ok, pair_ok, is_u64. repeat first [split|constructor]; vm_compute; congruence. Qed.

Lemma params_parse_doc_witness :
  let g' := (refdev_parse_params_blob g_params (enc_doc demo_doc ++ [1; 2]) demo_gs).2 in
  cell (gs_v g') 2 2 = F32_0_6 /\ marked (gs_present g') 2 2 = true /\ marked (gs_present g') 0 0 = false /\ (refdev_parse_params_blob g_params (enc_doc (Flat [(7, f32_to_f64 F32_HALF)])) demo_gs).1 = true.
Proof.
  rewrite (params_parse_doc g_params demo_doc [1; 2] demo_gs demo_doc_ok). cbv zeta. repeat split; vm_compute; reflexivity.
Defined.

Lemma params_parse_confined_witness :
  (refdev_parse_params_blob g_params [0xa1; 0x00; 0xa1; 0x03; 0x01] demo_gs).1 = false /\ untouched g_params demo_gs (refdev_parse_params_blob g_params [0xa1; 0x00; 0xa1; 0x03; 0x01] demo_gs).2.
Proof.
  split; [vm_compute; reflexivity|]. apply params_parse_confined. exact demo_gs_ok.
Defined.

(** The same table with other defaults hashes alike; renaming a parameter is seen. *)
Definition other_params : list dev_param := map (fun p => mk_param (p_id p) (p_name p) (p_steps p) (p_labels p) F32_0_6) g_params.

Lemma param_map_hash_input_witness :
  param_map_hash (R := fun _ => true) g_params = param_map_hash (R := fun _ => true) other_params.
Proof.
  apply (param_map_hash_input (R := fun _ => true) g_params other_params).
  - exact g_params_ok.
  - apply List.Forall_forall. intros q (p & <- & Hp)%in_map_iff. pose proof g_params_ok as H. rewrite List.Forall_forall in H. exact (H p Hp).
  - vm_compute. reflexivity.
  - vm_compute. reflexivity.
  - vm_compute. reflexivity.
  - vm_compute. reflexivity.
  - reflexivity.
Defined.
