(* ===== verification/Evq.v ===== *)
(** * The timestamped event queue and the event fence

    The queue of [src/device/engine.c]: the session pushes single events, runs of
    independent events and whole transactions; the render thread takes what is
    due.  Also the pure routing helpers of [evq_mod.h] and the fence predicates
    of [fence_wait.h] with the waiting loop of [audio_loop.c]. *)
From Stdlib Require Import ZArith Lia List.
From stdpp Require Import base tactics list numbers.
From S2P Require Import Prelude.

Open Scope Z_scope.
Open Scope list_scope.

(** ** Events *)

Inductive ev_kind : Set :=
  | DEV_EV_NOTE_ON | DEV_EV_NOTE_OFF | DEV_EV_PARAM_SET | DEV_EV_RAMP | DEV_EV_ALL_OFF | DEV_EV_TRANSPORT | DEV_EV_MOD.

(** [ev_v] is a [float] pattern, [ev_ppq] a [double] pattern. *)
Record dev_event := mk_event {
  ev_ts : Z; ev_kd : ev_kind; ev_a : Z; ev_v : Z; ev_end : Z; ev_ppq : Z; ev_channel : Z; ev_voice : Z }.

Definition DEV_EVQ_CAP : nat := 512.
Definition DEV_TXN_MAX : nat := 4.
Definition DEV_TXN_EVENTS_MAX : nat := 256.

(** ** Routing ([evq_mod.h]) *)

Definition harp_evt_part (channel nparts : Z) : Z := channel mod u32 nparts.

Definition harp_mod_targets_voice (ev_voice : Z) (v_active : bool) (v_voice_id : Z) : bool :=
  if negb v_active then false else (ev_voice =? 0) || (v_voice_id =? ev_voice).

Inductive harp_mod_target_kind : Set := HARP_MODT_IGNORE | HARP_MODT_BEND | HARP_MODT_PRESSURE | HARP_MODT_PARAM.

(** [param_idx] is [None] for the code's negative index. *)
Definition harp_mod_target (ev_a : Z) (param_idx : option nat) (bend_id pressure_id : Z) : harp_mod_target_kind :=
  if ev_a =? bend_id then HARP_MODT_BEND
  else if ev_a =? pressure_id then HARP_MODT_PRESSURE
  else match param_idx with Some _ => HARP_MODT_PARAM | None => HARP_MODT_IGNORE end.

Definition harp_evt_epoch_stale (ev_epoch cur_epoch : Z) : bool := negb (ev_epoch =? 0) && (ev_epoch <? cur_epoch).

Definition harp_evt_dirties_live (etype voice : Z) (have_txn : bool) : bool :=
  if have_txn then false
  else if negb (voice =? 0) then false
  else (etype =? 1) || (etype =? 5).

(** ** The queue

    [g_evq[0 .. g_evq_n - 1]] and the drop counter.  Each operation runs under
    the queue's mutex, so it is one step. *)
Record evq := mk_evq { q_ev : list dev_event; q_drops : Z }.

Definition evq_empty : evq := mk_evq [] 0.

(** [if (g_evq_n < DEV_EVQ_CAP) g_evq[g_evq_n++] = ev; else CTR_INC(g_evq_drops);] *)
Definition evq_push (ev : dev_event) (q : evq) : evq :=
  if (length (q_ev q) <? DEV_EVQ_CAP)%nat then mk_evq (q_ev q ++ [ev]) (q_drops q)
  else mk_evq (q_ev q) (u64 (q_drops q + 1)).

Definition evq_push_batch (evs : list dev_event) (q : evq) : bool * evq :=
  if (length (q_ev q) + length evs <=? DEV_EVQ_CAP)%nat
  then (true, fold_left (fun q ev => mk_evq (q_ev q ++ [ev]) (q_drops q)) evs q)
  else (false, fold_left (fun q _ => mk_evq (q_ev q) (u64 (q_drops q + 1))) evs q).

Definition evq_push_run (evs : list dev_event) (q : evq) : evq := fold_left (fun q ev => evq_push ev q) evs q.

Definition evq_full (q : evq) : bool := (DEV_EVQ_CAP <=? length (q_ev q))%nat.

(** ** Applying what is due

    The scan of [evq_apply_due]: due events are applied in queue order, the rest
    is compacted, and the earliest timestamp before [limit] that was kept is the
    next render boundary (0 for none).  [apply] is the body of the [switch]. *)
Section apply.
Context {St : Type} (apply : Z -> dev_event -> St -> St).

Definition next_ts (limit next : Z) (ev : dev_event) : Z :=
  if (ev_ts ev <? limit) && ((next =? 0) || (ev_ts ev <? next)) then ev_ts ev else next.

Fixpoint due_loop (pos limit : Z) (evs kept : list dev_event) (next : Z) (st : St) : Z * list dev_event * St :=
  match evs with
  | [] => (next, kept, st)
  | ev :: evs' =>
      if ev_ts ev <=? pos then due_loop pos limit evs' kept next (apply pos ev st)
      else due_loop pos limit evs' (kept ++ [ev]) (next_ts limit next ev) st
  end.

Definition evq_apply_due (pos limit : Z) (q : evq) (st : St) : Z * evq * St :=
  let '(next, kept, st') := due_loop pos limit (q_ev q) [] 0 st in (next, mk_evq kept (q_drops q), st').

Definition is_due (pos : Z) (ev : dev_event) : bool := ev_ts ev <=? pos.

Lemma due_loop_spec pos limit evs : forall kept next st,
  due_loop pos limit evs kept next st =
    (fold_left (next_ts limit) (List.filter (fun e => negb (is_due pos e)) evs) next,
     kept ++ List.filter (fun e => negb (is_due pos e)) evs,
     fold_left (fun st ev => apply pos ev st) (List.filter (is_due pos) evs) st).
Proof.
  induction evs as [|ev evs IH]; intros kept next st; cbn [due_loop]; [by rewrite app_nil_r|].
  cbn [List.filter]. change (ev_ts ev <=? pos) with (is_due pos ev). destruct (is_due pos ev); cbn [negb]; rewrite IH; [done|].
  by rewrite <- app_assoc.
Qed.
End apply.

(** The boundary is the least timestamp kept before the limit. *)
Lemma next_ts_least limit evs : forall next, 0 <= next -> (forall e, e ∈ evs -> 0 < ev_ts e) ->
  let r := fold_left (next_ts limit) evs next in
  (r = next \/ exists e, e ∈ evs /\ ev_ts e = r /\ ev_ts e < limit) /\
  (forall e, e ∈ evs -> ev_ts e < limit -> r <> 0 /\ r <= ev_ts e) /\ (next <> 0 -> r <> 0 /\ r <= next).
Proof.
  induction evs as [|ev evs IH]; intros next Hn Hp; cbn [fold_left]; cbv zeta.
  { split; [by left|]. split; [intros e He; by apply elem_of_nil in He|lia]. }
  assert (0 < ev_ts ev) as Hev by (apply Hp; by left).
  assert (0 <= next_ts limit next ev) as Hn' by (unfold next_ts; case_match; lia).
  destruct (IH (next_ts limit next ev) Hn' ltac:(intros e He; apply Hp; by right)) as (H1 & H2 & H3).
  assert (next_ts limit next ev = ev_ts ev /\ ev_ts ev < limit \/ next_ts limit next ev = next) as Hc.
  { unfold next_ts. destruct (_ && _) eqn:E; [left|by right]. apply andb_prop in E as [E _]. bool_to_prop. by split. }
  assert (next <> 0 -> next_ts limit next ev <> 0 /\ next_ts limit next ev <= next) as Hle.
  { unfold next_ts. destruct (_ && _) eqn:E; [|lia]. apply andb_prop in E as [_ [E|E]%orb_true_iff]; bool_to_prop; lia. }
  assert (ev_ts ev < limit -> next_ts limit next ev <> 0 /\ next_ts limit next ev <= ev_ts ev) as Hlt.
  { unfold next_ts. intros Hl. rewrite (proj2 (Z.ltb_lt _ _) Hl). cbn [andb].
    destruct (Z.eqb_spec next 0); cbn [orb]; [lia|]. destruct (Z.ltb_spec (ev_ts ev) next); lia. }
  split; [|split].
  - destruct H1 as [-> | (e & He & Hr)]; [|right; exists e; split; [by right|done]].
    destruct Hc as [[-> ?]| ->]; [right; exists ev; split; [by left|done]|by left].
  - intros e [-> | He]%elem_of_cons Hl; [|by apply H2]. destruct (H3 (proj1 (Hlt Hl))). specialize (Hlt Hl). lia.
  - intros Hz. specialize (Hle Hz). destruct (H3 (proj1 Hle)). lia.
Qed.

(** ** The event fence *)

Definition harp_fence_keep_waiting (pending : Z) (running offline : bool) (now_ns deadline_ns : Z) : bool :=
  if (pending <=? 0) || negb running then false
  else if offline then true else now_ns <? deadline_ns.

Definition harp_fence_count_timeout (pending : Z) (running offline : bool) : bool := negb offline && running && (pending >? 0).

Definition HARP_FENCE_RT_BOUND_NS : Z := 5000000.

(** What the audio thread sees at its [k]-th poll: how many event messages the
    session has consumed, whether the stream runs, and the clock.  The flag is
    read once more after the loop. *)
Class FenceEnv := { fe_consumed : nat -> Z; fe_running : nat -> bool; fe_now : nat -> Z }.

Section fence.
Context {FE : FenceEnv}.

(** [(int32_t)(want - consumed)] *)
Definition fence_pending (want : Z) (k : nat) : Z := s32 (want - fe_consumed k).

(** The polling loop; [None] when it is still waiting after [fuel] polls. *)
Fixpoint fence_loop (fuel : nat) (want : Z) (offline : bool) (deadline : Z) (k : nat) : option (Z * nat) :=
  let pending := fence_pending want k in
  match fuel with
  | O => None
  | S f =>
      if harp_fence_keep_waiting pending (fe_running k) offline (fe_now k) deadline
      then fence_loop f want offline deadline (S k)
      else Some (pending, k)
  end.

(** The fence of a pacing frame: the result says whether a wait and a timeout
    were counted. *)
Definition fence_wait (fuel : nat) (want : Z) (offline : bool) (k : nat) : option (bool * bool * nat) :=
  if fence_pending want k >? 0 then
    match fence_loop fuel want offline (u64 (fe_now k + HARP_FENCE_RT_BOUND_NS)) k with
    | None => None
    | Some (pending, k') => Some (true, harp_fence_count_timeout pending (fe_running (S k')) offline, k')
    end
  else Some (false, false, k).
End fence.

(** ** Properties *)

Lemma push_run_spec evs : forall q, 0 <= q_drops q -> q_drops q + zlen evs < 2 ^ 64 ->
  (length (q_ev q) <= DEV_EVQ_CAP)%nat ->
  evq_push_run evs q =
    mk_evq (q_ev q ++ take (DEV_EVQ_CAP - length (q_ev q)) evs)
           (q_drops q + zlen (drop (DEV_EVQ_CAP - length (q_ev q)) evs)).
Proof.
  unfold evq_push_run. induction evs as [|ev evs IH]; intros q Hd Hn Hl; cbn [fold_left].
  { rewrite take_nil, drop_nil, app_nil_r, zlen_nil, Z.add_0_r. by destruct q. }
  rewrite zlen_cons in Hn. pose proof (zlen_nonneg evs). unfold evq_push at 2.
  destruct (Nat.ltb_spec (length (q_ev q)) DEV_EVQ_CAP) as [Hc|Hc].
  - rewrite IH by (cbn [q_drops q_ev]; rewrite ?length_app; cbn [length]; lia). cbn [q_ev q_drops].
    replace (DEV_EVQ_CAP - length (q_ev q))%nat with (S (DEV_EVQ_CAP - length (q_ev q ++ [ev])))%nat
      by (rewrite length_app; cbn [length]; lia).
    cbn [take drop]. by rewrite <- app_assoc.
  - rewrite u64_small by (unfold is_u64; lia). rewrite IH by (cbn [q_drops q_ev]; lia). cbn [q_ev q_drops].
    replace (DEV_EVQ_CAP - length (q_ev q))%nat with 0%nat by lia. rewrite !firstn_O, !skipn_O, zlen_cons. apply f_equal2; [done|lia].
Qed.

Lemma push_all evs : forall q, fold_left (fun q ev => mk_evq (q_ev q ++ [ev]) (q_drops q)) evs q = mk_evq (q_ev q ++ evs) (q_drops q).
Proof.
  induction evs as [|ev evs IH]; intros q; cbn [fold_left]; [rewrite app_nil_r; by destruct q|].
  rewrite IH. cbn [q_ev q_drops]. by rewrite <- app_assoc.
Qed.

Lemma drop_all (evs : list dev_event) : forall q, 0 <= q_drops q -> q_drops q + zlen evs < 2 ^ 64 ->
  fold_left (fun q _ => mk_evq (q_ev q) (u64 (q_drops q + 1))) evs q = mk_evq (q_ev q) (q_drops q + zlen evs).
Proof.
  induction evs as [|ev evs IH]; intros q Hd Hn; cbn [fold_left]; [rewrite zlen_nil, Z.add_0_r; by destruct q|].
  rewrite zlen_cons in *. pose proof (zlen_nonneg evs). rewrite u64_small by (unfold is_u64; lia).
  rewrite IH by (cbn [q_drops]; lia). cbn [q_ev q_drops]. apply f_equal2; [done|lia].
Qed.

Lemma filter_const {A} (f : A -> bool) b l : (forall x, x ∈ l -> f x = b) -> List.filter f l = if b then l else [].
Proof.
  induction l as [|x l IH]; intros H; cbn [List.filter]; [by destruct b|].
  rewrite (H x) by (by left). rewrite IH by (intros y Hy; apply H; by right). by destruct b.
Qed.

(** a transaction is applied whole or not at all.  If every event of the
    batch carries the commit instant [t], [evq_push_batch] either refuses it,
    leaving the queue as it was and counting every event as dropped, or a later
    [evq_apply_due] at any position applies either all of the batch, in order and
    after the earlier due events, or none of it, leaving it queued; a batch of at
    most 256 events is always accepted while at most 256 events are queued. *)
Theorem evq_batch_atomic {St : Type} (apply : Z -> dev_event -> St -> St) (evs : list dev_event) (t : Z) (q q' : evq) (ok : bool) :
  (forall e, e ∈ evs -> ev_ts e = t) -> 0 <= q_drops q -> q_drops q + zlen evs < 2 ^ 64 ->
  evq_push_batch evs q = (ok, q') ->
  (ok = false -> q' = mk_evq (q_ev q) (q_drops q + zlen evs)) /\
  (ok = true -> forall pos limit st,
     let '(_, q2, st2) := evq_apply_due apply pos limit q' st in
     let '(_, q1, st1) := evq_apply_due apply pos limit q st in
     if t <=? pos then q2 = q1 /\ st2 = fold_left (fun st ev => apply pos ev st) evs st1
     else q_ev q2 = q_ev q1 ++ evs /\ st2 = st1) /\
  ((length evs <= DEV_TXN_EVENTS_MAX)%nat -> (length (q_ev q) + DEV_TXN_EVENTS_MAX <= DEV_EVQ_CAP)%nat -> ok = true).
Proof.
  intros Ht Hd Hn. unfold evq_push_batch.
  destruct (Nat.leb_spec (length (q_ev q) + length evs) DEV_EVQ_CAP) as [Hc|Hc]; intros [= <- <-].
  - split; [done|]. split; [|done]. intros _ pos limit st. rewrite push_all. unfold evq_apply_due. cbn [q_ev q_drops].
    rewrite !due_loop_spec. cbn [app]. rewrite !filter_app, !fold_left_app.
    destruct (t <=? pos) eqn:E.
    + rewrite (filter_const (is_due pos) true evs) by (intros e He; unfold is_due; by rewrite Ht).
      rewrite (filter_const (fun e => negb (is_due pos e)) false evs) by (intros e He; unfold is_due; by rewrite Ht, E).
      by rewrite app_nil_r.
    + rewrite (filter_const (is_due pos) false evs) by (intros e He; unfold is_due; by rewrite Ht).
      rewrite (filter_const (fun e => negb (is_due pos e)) true evs) by (intros e He; unfold is_due; by rewrite Ht, E).
      done.
  - split; [by rewrite drop_all|]. split; [done|]. lia.
Qed.

Definition demo_ev (ts a : Z) : dev_event := mk_event ts DEV_EV_PARAM_SET a 0 0 0 0 0.

Definition demo_apply (pos : Z) (ev : dev_event) (l : list Z) : list Z := l ++ [ev_a ev].
Definition demo_batch : list dev_event := [demo_ev 64 1; demo_ev 64 2].
Definition demo_q : evq := mk_evq [demo_ev 10 9] 0.
Definition demo_q' : evq := mk_evq [demo_ev 10 9; demo_ev 64 1; demo_ev 64 2] 0.

Lemma demo_batch_ts e : e ∈ demo_batch -> ev_ts e = 64.
Proof. by intros [-> | [-> | He%elem_of_nil]%elem_of_cons]%elem_of_cons. Qed.

Lemma evq_batch_atomic_witness :
  let '(_, q2, st2) := evq_apply_due demo_apply 64 128 demo_q' [] in
  let '(_, q1, st1) := evq_apply_due demo_apply 64 128 demo_q [] in
  if 64 <=? 64 then q2 = q1 /\ st2 = fold_left (fun st ev => demo_apply 64 ev st) demo_batch st1
  else q_ev q2 = q_ev q1 ++ demo_batch /\ st2 = st1.
Proof.
  assert (evq_push_batch demo_batch demo_q = (true, demo_q')) as E by (vm_compute; reflexivity).
  exact (proj1 (proj2 (evq_batch_atomic demo_apply demo_batch 64 demo_q demo_q' true demo_batch_ts
    ltac:(vm_compute; discriminate) ltac:(vm_compute; reflexivity) E)) eq_refl 64 128 []).
Defined.

(** the queue is a bounded FIFO scheduled by timestamp.  A run of events is
    appended up to the capacity and the rest counted, exactly as the same events
    pushed one at a time; [evq_apply_due] applies exactly the events stamped at
    or before [pos], in the order they were pushed, keeps the others in order,
    and returns the least timestamp below [limit] among the kept ones (0 if there
    is none), so the render never runs past an event. *)
Theorem evq_refines_schedule {St : Type} (apply : Z -> dev_event -> St -> St) (q : evq) :
  (forall evs, 0 <= q_drops q -> q_drops q + zlen evs < 2 ^ 64 -> (length (q_ev q) <= DEV_EVQ_CAP)%nat ->
     let room := (DEV_EVQ_CAP - length (q_ev q))%nat in
     evq_push_run evs q = mk_evq (q_ev q ++ take room evs) (q_drops q + zlen (drop room evs)) /\
     evq_full (evq_push_run evs q) = (room <=? length evs)%nat) /\
  (forall pos limit st, 0 <= pos ->
     let '(next, q', st') := evq_apply_due apply pos limit q st in
     st' = fold_left (fun st ev => apply pos ev st) (List.filter (is_due pos) (q_ev q)) st /\
     q' = mk_evq (List.filter (fun e => negb (is_due pos e)) (q_ev q)) (q_drops q) /\
     (next <> 0 -> exists e, e ∈ q_ev q' /\ ev_ts e = next /\ pos < next < limit) /\
     (forall e, e ∈ q_ev q' -> ev_ts e < limit -> next <> 0 /\ next <= ev_ts e)).
Proof.
  split.
  - intros evs Hd Hn Hl room. rewrite push_run_spec by done. split; [done|]. unfold evq_full. cbn [q_ev].
    rewrite length_app, length_take. fold room. destruct (Nat.leb_spec room (length evs)); [apply Nat.leb_le|apply Nat.leb_gt]; lia.
  - intros pos limit st Hp. unfold evq_apply_due. rewrite due_loop_spec. cbn [app q_ev]. split; [done|]. split; [done|].
    assert (forall e, e ∈ List.filter (fun e => negb (is_due pos e)) (q_ev q) -> pos < ev_ts e) as Hlate.
    { intros e [_ He]%list_elem_of_In%filter_In. unfold is_due in He. bool_to_prop. lia. }
    destruct (next_ts_least limit (List.filter (fun e => negb (is_due pos e)) (q_ev q)) 0) as (H1 & H2 & _);
      [lia|intros e He; specialize (Hlate e He); lia|].
    split; [|exact H2]. intros Hz. destruct H1 as [H1|(e & He & Hr & Hl)]; [done|].
    exists e. split; [done|]. split; [done|]. specialize (Hlate e He). lia.
Qed.

Lemma evq_refines_schedule_witness :
  evq_push_run demo_batch demo_q =
    mk_evq (q_ev demo_q ++ take (DEV_EVQ_CAP - length (q_ev demo_q)) demo_batch)
           (q_drops demo_q + zlen (drop (DEV_EVQ_CAP - length (q_ev demo_q)) demo_batch)) /\
  exists e, e ∈ [demo_ev 9 1; demo_ev 7 2] /\ ev_ts e = 7 /\ 4 < 7 < 100.
Proof.
  split.
  - exact (proj1 (proj1 (evq_refines_schedule demo_apply demo_q) demo_batch ltac:(vm_compute; discriminate)
      ltac:(vm_compute; reflexivity) ltac:(apply Nat.leb_le; vm_compute; reflexivity))).
  - pose proof (proj2 (evq_refines_schedule demo_apply (mk_evq [demo_ev 9 1; demo_ev 7 2] 0)) 4 100 [] ltac:(lia)) as H.
    exact (proj1 (proj2 (proj2 H)) ltac:(discriminate)).
Defined.

Lemma fence_loop_spec {FE : FenceEnv} want offline deadline : forall fuel k r k',
  fence_loop fuel want offline deadline k = Some (r, k') ->
  (k <= k')%nat /\ r = fence_pending want k' /\
  harp_fence_keep_waiting r (fe_running k') offline (fe_now k') deadline = false /\
  forall j, (k <= j < k')%nat -> harp_fence_keep_waiting (fence_pending want j) (fe_running j) offline (fe_now j) deadline = true.
Proof.
  induction fuel as [|f IH]; intros k r k'; cbn [fence_loop]; [done|].
  destruct (harp_fence_keep_waiting _ _ _ _ _) eqn:E.
  - intros (H1 & H2 & H3 & H4)%IH. repeat split; [lia|done|done|]. intros j Hj.
    destruct (decide (j = k)) as [-> | Hne]; [done|]. apply H4. lia.
  - intros [= <- <-]. repeat split; [lia|done|]. intros j Hj. lia.
Qed.

Lemma fence_loop_ends {FE : FenceEnv} want offline deadline n : forall k,
  harp_fence_keep_waiting (fence_pending want (k + n)) (fe_running (k + n)) offline (fe_now (k + n)) deadline = false ->
  fence_loop (S n) want offline deadline k <> None.
Proof.
  induction n as [|n IH]; intros k Hs; cbn [fence_loop].
  - rewrite Nat.add_0_r in Hs. by rewrite Hs.
  - destruct (harp_fence_keep_waiting (fence_pending want k) _ _ _ _); [|done]. apply (IH (S k)). by replace (S k + n)%nat with (k + S n)%nat by lia.
Qed.

(** C38: the event fence does what its regime promises.  When the wait returns
    while the stream still runs, an offline stream has consumed every event the
    frame names, and a real-time stream has either consumed them or reached the
    5 ms deadline, which is then counted as a timeout exactly if events are
    still missing; nothing is counted when nothing was pending.  The wait
    returns: in real time as soon as a poll sees the deadline, offline as soon
    as the events are consumed or the stream is stopped. *)
Theorem fence_barrier {FE : FenceEnv} (want : Z) (offline : bool) (k : nat) :
  let deadline := u64 (fe_now k + HARP_FENCE_RT_BOUND_NS) in
  (forall fuel waited timeout k', fence_wait fuel want offline k = Some (waited, timeout, k') ->
     waited = (fence_pending want k >? 0) /\ (k <= k')%nat /\
     (fe_running k' = true -> offline = true -> fence_pending want k' <= 0) /\
     (fe_running k' = true -> offline = false -> fence_pending want k' <= 0 \/ deadline <= fe_now k') /\
     (timeout = true <-> offline = false /\ waited = true /\ fe_running (S k') = true /\ 0 < fence_pending want k') /\
     (forall j, (k <= j < k')%nat -> offline = false -> fe_now j < deadline)) /\
  (forall n, (offline = false /\ deadline <= fe_now (k + n)) \/ fe_running (k + n) = false \/ fence_pending want (k + n) <= 0 ->
     fence_wait (S n) want offline k <> None).
Proof.
  intros deadline. split.
  - intros fuel waited timeout k'. unfold fence_wait. destruct (Z.gtb_spec (fence_pending want k) 0) as [Hp|Hp].
    + fold deadline. destruct (fence_loop _ _ _ _ _) as [[r k2]|] eqn:E; [|done]. intros [= <- <- <-].
      destruct (fence_loop_spec _ _ _ _ _ _ _ E) as (H1 & -> & H3 & H4). unfold harp_fence_keep_waiting in H3.
      split; [done|]. split; [done|]. split; [|split; [|split]].
      * intros Hr ->. rewrite Hr in H3. cbn in H3. destruct (Z.leb_spec (fence_pending want k2) 0); [done|discriminate].
      * intros Hr ->. rewrite Hr in H3. destruct (Z.leb_spec (fence_pending want k2) 0); [by left|right].
        cbn in H3. by apply Z.ltb_ge in H3.
      * unfold harp_fence_count_timeout. rewrite !andb_true_iff, negb_true_iff, Z.gtb_lt. tauto.
      * intros j Hj ->. specialize (H4 j Hj). unfold harp_fence_keep_waiting in H4.
        destruct (_ || _); [discriminate|]. by apply Z.ltb_lt in H4.
    + intros [= <- <- <-]. split; [done|]. split; [done|]. split; [done|]. split; [by left|].
      split; [|intros j Hj; lia]. by split; [|intros (_ & ? & _)].
  - intros n Hn. unfold fence_wait. destruct (fence_pending want k >? 0); [|done]. fold deadline.
    destruct (fence_loop _ _ _ _ _) as [[r k2]|] eqn:E; [done|]. exfalso. revert E. apply fence_loop_ends.
    unfold harp_fence_keep_waiting. destruct Hn as [[-> Hn]|[-> | Hn]].
    + destruct (_ || _); [done|]. by apply Z.ltb_ge.
    + by rewrite orb_true_r.
    + by rewrite (proj2 (Z.leb_le _ _) Hn).
Qed.

(** Events that never arrive on a 1 ms poll: the fence gives up after 5 ms. *)
Definition demo_fence : FenceEnv := {| fe_consumed := fun _ => 3; fe_running := fun _ => true; fe_now := fun k => Z.of_nat k * 1000000 |}.

Lemma fence_barrier_witness :
  fence_wait (FE := demo_fence) 9 4 false 0 = Some (true, true, 5%nat) /\ fence_wait (FE := demo_fence) 6 4 false 0 <> None.
Proof.
  split; [vm_compute; reflexivity|].
  apply (proj2 (fence_barrier (FE := demo_fence) 4 false 0) 5%nat). left. split; [reflexivity|vm_compute; discriminate].
Defined.
