(* ===== verification/Ieee.v ===== *)
(** * IEEE 754 arithmetic on bit patterns

    The engine computes with [float] and [double].  A value is its bit pattern
    (as in CborFloat); the operations decode the pattern to the Standard Library's
    [spec_float], use its correctly rounded operations (round to nearest, ties to
    even), and encode the result.  NaN results are the canonical quiet NaN.
    Expressions are evaluated in their own format, without contraction. *)
From Stdlib Require Import ZArith Lia List Bool Floats.SpecFloat.
From stdpp Require Import base list.
From S2P Require Import Prelude CborFloat.
Open Scope Z_scope.
Open Scope list_scope.

(** ** A binary format with [mw] mantissa and [ew] exponent bits *)
Section format.
Context (mw ew : Z).

Definition fmt_emax : Z := 2 ^ (ew - 1).
Definition fmt_prec : Z := mw + 1.

Definition fmt_sf (x : Z) : spec_float :=
  let s := x / 2 ^ (mw + ew) =? 1 in
  let e := (x / 2 ^ mw) mod 2 ^ ew in
  let m := x mod 2 ^ mw in
  if e =? 2 ^ ew - 1 then (if m =? 0 then S754_infinity s else S754_nan)
  else match (if e =? 0 then m else 2 ^ mw + m) with
       | Zpos p => S754_finite s p (Z.max e 1 - (fmt_emax - 1) - mw)
       | _ => S754_zero s
       end.

Definition fmt_sign (s : bool) : Z := if s then 2 ^ (mw + ew) else 0.

Definition fmt_bits (f : spec_float) : Z :=
  match f with
  | S754_zero s => fmt_sign s
  | S754_infinity s => fmt_sign s + (2 ^ ew - 1) * 2 ^ mw
  | S754_nan => (2 ^ ew - 1) * 2 ^ mw + 2 ^ (mw - 1)
  | S754_finite s m e =>
      fmt_sign s + if Zpos m <? 2 ^ mw then Zpos m else (e + fmt_emax + mw - 2) * 2 ^ mw + Zpos m
  end.

Definition fmt_add (a b : Z) : Z := fmt_bits (SFadd fmt_prec fmt_emax (fmt_sf a) (fmt_sf b)).
Definition fmt_sub (a b : Z) : Z := fmt_bits (SFsub fmt_prec fmt_emax (fmt_sf a) (fmt_sf b)).
Definition fmt_mul (a b : Z) : Z := fmt_bits (SFmul fmt_prec fmt_emax (fmt_sf a) (fmt_sf b)).
Definition fmt_div (a b : Z) : Z := fmt_bits (SFdiv fmt_prec fmt_emax (fmt_sf a) (fmt_sf b)).
Definition fmt_sqrt (a : Z) : Z := fmt_bits (SFsqrt fmt_prec fmt_emax (fmt_sf a)).
Definition fmt_abs (a : Z) : Z := fmt_bits (SFabs (fmt_sf a)).
Definition fmt_opp (a : Z) : Z := fmt_bits (SFopp (fmt_sf a)).
Definition fmt_lt (a b : Z) : bool := SFltb (fmt_sf a) (fmt_sf b).
Definition fmt_le (a b : Z) : bool := SFleb (fmt_sf a) (fmt_sf b).
Definition fmt_eq (a b : Z) : bool := SFeqb (fmt_sf a) (fmt_sf b).

(** Conversion of an integer. *)
Definition fmt_of_Z (n : Z) : Z := fmt_bits (binary_normalize fmt_prec fmt_emax n 0 false).

(** [floor]. *)
Definition fmt_floor (a : Z) : Z :=
  match fmt_sf a with
  | S754_finite s m e =>
      if 0 <=? e then a
      else fmt_bits (binary_normalize fmt_prec fmt_emax ((if s then Zneg m else Zpos m) / 2 ^ (- e)) 0 s)
  | _ => a
  end.

Definition fmt_isfinite (a : Z) : bool :=
  match fmt_sf a with S754_finite _ _ _ | S754_zero _ => true | _ => false end.

(** The integer part; [None] for NaN and infinities. *)
Definition fmt_trunc (a : Z) : option Z :=
  match fmt_sf a with
  | S754_finite s m e =>
      Some (let v := if 0 <=? e then Zpos m * 2 ^ e else Zpos m / 2 ^ (- e) in if s then - v else v)
  | S754_zero _ => Some 0
  | _ => None
  end.
End format.

(** ** The two formats *)

Definition f32_add : Z -> Z -> Z := fmt_add 23 8.
Definition f32_sub : Z -> Z -> Z := fmt_sub 23 8.
Definition f32_mul : Z -> Z -> Z := fmt_mul 23 8.
Definition f32_div : Z -> Z -> Z := fmt_div 23 8.
Definition f32_lt : Z -> Z -> bool := fmt_lt 23 8.
Definition f32_le : Z -> Z -> bool := fmt_le 23 8.
Definition f32_feq : Z -> Z -> bool := fmt_eq 23 8.
Definition f32_of_Z : Z -> Z := fmt_of_Z 23 8.
Definition f32_abs : Z -> Z := fmt_abs 23 8.
Definition f32_opp : Z -> Z := fmt_opp 23 8.

Definition f64_add : Z -> Z -> Z := fmt_add 52 11.
Definition f64_sub : Z -> Z -> Z := fmt_sub 52 11.
Definition f64_mul : Z -> Z -> Z := fmt_mul 52 11.
Definition f64_div : Z -> Z -> Z := fmt_div 52 11.
Definition f64_sqrt : Z -> Z := fmt_sqrt 52 11.
Definition f64_lt : Z -> Z -> bool := fmt_lt 52 11.
Definition f64_le : Z -> Z -> bool := fmt_le 52 11.
Definition f64_of_Z : Z -> Z := fmt_of_Z 52 11.
Definition f64_floor : Z -> Z := fmt_floor 52 11.

Definition F32_ONE : Z := 0x3f800000.
Definition F64_ONE : Z := 0x3ff0000000000000.

(** ** Conversions to integers

    A value outside the target's range has undefined behaviour in C: what the
    compiled code yields then is an input of the model. *)
Class FpConv := fp_out_of_range : Z -> Z.

Section conv.
Context {FC : FpConv}.

Definition to_int_range (lo hi : Z) (t : option Z) (bits : Z) : Z :=
  match t with
  | Some n => if (lo <=? n) && (n <=? hi) then n else fp_out_of_range bits
  | None => fp_out_of_range bits
  end.

(** [(int)f], [(int)d], [(uint64_t)d] *)
Definition f32_to_int (x : Z) : Z := to_int_range (- 2 ^ 31) (2 ^ 31 - 1) (fmt_trunc 23 8 x) x.
Definition f64_to_int (v : Z) : Z := to_int_range (- 2 ^ 31) (2 ^ 31 - 1) (fmt_trunc 52 11 v) v.
Definition f64_to_u64 (v : Z) : Z := to_int_range 0 (2 ^ 64 - 1) (fmt_trunc 52 11 v) v.
End conv.

(** ** Clamping, as the code writes it *)

(** [if (v < lo) v = lo; if (v > hi) v = hi;] *)
Definition f64_clamp (lo hi v : Z) : Z :=
  let v := if f64_lt v lo then lo else v in if f64_lt hi v then hi else v.

(** ** Facts *)

(** Encoding is the inverse of decoding. *)
Lemma fmt_bits_sf mw ew x : 0 < mw -> 1 < ew -> 0 <= x < 2 ^ (mw + ew + 1) ->
  fmt_sf mw ew x <> S754_nan -> fmt_bits mw ew (fmt_sf mw ew x) = x.
Proof.
  intros Hm He Hx Hn. unfold fmt_sf in *.
  pose proof (Z.pow_pos_nonneg 2 mw ltac:(lia) ltac:(lia)) as Pm.
  pose proof (Z.pow_pos_nonneg 2 ew ltac:(lia) ltac:(lia)) as Pe.
  assert (2 ^ (mw + ew) = 2 ^ mw * 2 ^ ew) as Es by (apply Z.pow_add_r; lia).
  assert (2 ^ (mw + ew + 1) = 2 * (2 ^ mw * 2 ^ ew)) as Ex by (rewrite Z.pow_add_r, Es by lia; lia).
  rewrite Ex in Hx. rewrite Es in *. set (M := 2 ^ mw) in *. set (E := 2 ^ ew) in *.
  set (m := x mod M) in *. set (e := (x / M) mod E) in *.
  assert (x / (M * E) = 0 \/ x / (M * E) = 1) as Hs.
  { pose proof (Z.div_pos x (M * E) ltac:(lia) ltac:(nia)).
    pose proof (Z.div_lt_upper_bound x (M * E) 2 ltac:(nia) ltac:(lia)). lia. }
  assert (x = x / (M * E) * (M * E) + e * M + m) as Hdec.
  { unfold m, e. rewrite <- (Z.div_div x M E) by lia. pose proof (Z.div_mod x M ltac:(lia)).
    pose proof (Z.div_mod (x / M) E ltac:(lia)). nia. }
  assert (0 <= m < M) as Hmr by (apply Z.mod_pos_bound; lia).
  assert (0 <= e < E) as Her by (apply Z.mod_pos_bound; lia).
  assert (fmt_sign mw ew (x / (M * E) =? 1) = x / (M * E) * (M * E)) as Hsg.
  { unfold fmt_sign. rewrite Es. fold M E. destruct Hs as [-> | ->]; cbn [Z.eqb Pos.eqb]; lia. }
  destruct (Z.eqb_spec e (E - 1)) as [H1|H1].
  - destruct (Z.eqb_spec m 0) as [H2|H2]; [|done]. cbn [fmt_bits]. rewrite Hsg. fold M E. lia.
  - destruct (Z.eqb_spec e 0) as [H2|H2].
    + destruct m as [|p|p] eqn:Em; [cbn [fmt_bits]; lia| |lia].
      cbn [fmt_bits]. rewrite Hsg. fold M. destruct (Z.ltb_spec (Zpos p) M); lia.
    + destruct (M + m) as [|p|p] eqn:Em; [lia| |lia]. cbn [fmt_bits]. rewrite Hsg. fold M.
      destruct (Z.ltb_spec (Zpos p) M); [lia|]. rewrite Z.max_l by lia.
      replace (e - (fmt_emax ew - 1) - mw + fmt_emax ew + mw - 2) with (e - 1) by lia. nia.
Qed.

Lemma f32_bits_sf x : is_u32 x -> f32_isnan x = false -> fmt_bits 23 8 (fmt_sf 23 8 x) = x.
Proof.
  intros Hx Hn. apply fmt_bits_sf; [lia|lia|exact Hx|]. unfold fmt_sf.
  unfold f32_isnan, f32_exp, f32_man in Hn. change (2 ^ 8 - 1) with 255.
  destruct ((x / 2 ^ 23) mod 2 ^ 8 =? 255); cbn [andb] in Hn.
  - apply negb_false_iff in Hn. by rewrite Hn.
  - destruct (if _ : bool then _ else _); done.
Qed.

Lemma f64_clamp_range lo hi v : f64_lt lo lo = false -> f64_lt hi hi = false -> f64_lt hi lo = false ->
  f64_lt (f64_clamp lo hi v) lo = false /\ f64_lt hi (f64_clamp lo hi v) = false.
Proof.
  intros H1 H2 H3. unfold f64_clamp.
  destruct (f64_lt v lo) eqn:E1; [destruct (f64_lt hi lo) eqn:E2; [congruence|]|destruct (f64_lt hi v) eqn:E2]; auto.
Qed.

(** A NaN passes through a clamp: no comparison with it holds. *)
Lemma sf_lt_nan_l f : SFltb S754_nan f = false. Proof. done. Qed.
Lemma sf_lt_nan_r f : SFltb f S754_nan = false. Proof. by destruct f. Qed.
#[export] Hint Rewrite sf_lt_nan_l sf_lt_nan_r : harp.

Lemma fmt_sf_nan64 v : f64_isnan v = true -> fmt_sf 52 11 v = S754_nan.
Proof.
  unfold f64_isnan, f64_exp, f64_man, fmt_sf. change (2 ^ 11 - 1) with 2047. intros [H1 H2]%andb_true_iff.
  rewrite H1. apply negb_true_iff in H2. by rewrite H2.
Qed.

Lemma f64_clamp_nan lo hi v : f64_isnan v = true -> f64_clamp lo hi v = v.
Proof.
  intros Hn%fmt_sf_nan64. unfold f64_clamp, f64_lt, fmt_lt. rewrite !Hn, sf_lt_nan_l. by rewrite Hn, sf_lt_nan_r.
Qed.

Lemma to_int_bounds {FC : FpConv} lo hi t b n : t = Some n -> lo <= n <= hi -> to_int_range lo hi t b = n.
Proof. intros -> H. unfold to_int_range. by rewrite (proj2 (Z.leb_le lo n)), (proj2 (Z.leb_le n hi)) by lia. Qed.

Example f32_arith_1 : f32_add 0x3f800000 0x40000000 = 0x40400000 /\ f32_mul 0x3dcccccd 0x41200000 = 0x3f800000 /\
  f32_sub 0x3f800000 0x3f800000 = 0 /\ f32_div 0x3f800000 0x40400000 = 0x3eaaaaab /\ f32_of_Z 16777217 = 0x4b800000.
Proof. vm_compute. repeat split. Qed.

Example f64_arith_1 : f64_add 0x3fb999999999999a 0x3fc999999999999a = 0x3fd3333333333334 /\
  f64_floor 0xbfe0000000000000 = 0xbff0000000000000 /\ f64_of_Z (2 ^ 53 + 1) = 0x4340000000000000.
Proof. vm_compute. repeat split. Qed.
