(* ===== verification/Parts.v ===== *)
(** * The multitimbral parts of the engine

    engine.c, render-thread side, without the signal processing (that is
    Render.v): the voice pool of a part, its parameter values and ramps, the
    arpeggiator, the panic signal, and the body of [evq_apply_due] - what each
    kind of event does to the parts.  A [float] or [double] is its bit pattern,
    with the arithmetic of Ieee.v. *)
From Stdlib Require Import ZArith Lia List Bool.
From stdpp Require Import base list.
From S2P Require Import Prelude CborFloat VoiceAlloc ArpSelect Params Evq Ieee.
Open Scope Z_scope.
Open Scope list_scope.

Definition NVOICES : nat := 8.
Definition ARP_LATCH_MAX : nat := 8.
Definition PANIC_NONE : Z := -2.
Definition PANIC_ALL : Z := -1.
Definition HARP_MOD_PITCH_BEND : Z := 0x2001.
Definition HARP_MOD_PRESSURE : Z := 0x2002.

Record dev_ramp := mk_ramp { rp_active : bool; rp_start : Z; rp_end : Z; rp_start_val : Z; rp_target : Z }.

Definition ramp_zero : dev_ramp := mk_ramp false 0 0 0 0.
Definition ramp_stop (r : dev_ramp) : dev_ramp := mk_ramp false (rp_start r) (rp_end r) (rp_start_val r) (rp_target r).

(** The fields of a voice below the "DSP state" divider. *)
Record voice_dsp := mk_dsp {
  s_pitch : Z; s_shape : Z; s_cutoff : Z; s_reso : Z; s_master : Z; s_init : bool;
  n_phase_l : Z; n_phase_r : Z; n_low_l : Z; n_band_l : Z; n_low_r : Z; n_band_r : Z;
  n_freq : Z; env : Z; env_reset : Z; seen_seq : Z }.

Definition dsp_zero : voice_dsp := mk_dsp 0 0 0 0 0 false 0 0 0 0 0 0 0 0 0 0.

Record synth_voice := mk_voice {
  v_note : Z; v_note_vel : Z; v_note_seq : Z; v_voice_id : Z; v_alloc_seq : Z; v_active : bool;
  v_mod : list Z; v_has_mod : bool; v_bend_semis : Z; v_z_gain : Z; v_vramp : dev_ramp; v_vramp_idx : nat;
  v_dsp : voice_dsp }.

(** [latch] and [vel] hold the first [nlatch] entries of the C arrays. *)
Record arp_state := mk_arp {
  ar_playing : bool; ar_anchor_valid : bool; ar_tempo : Z; ar_anchor_ppq : Z; ar_anchor_ssi : Z;
  ar_latch : list Z; ar_vel : list Z; ar_step : Z; ar_sounding : Z; ar_gate_off : Z }.

Record part := mk_part {
  p_voices : list synth_voice; p_alloc_clock : Z; p_panic_note : Z; p_arp : arp_state;
  p_pval : list Z; p_ramps : list dev_ramp }.

(** ** Field updates *)

Definition set_voices (f : list synth_voice -> list synth_voice) (p : part) : part :=
  mk_part (f (p_voices p)) (p_alloc_clock p) (p_panic_note p) (p_arp p) (p_pval p) (p_ramps p).
Definition set_clock (c : Z) (p : part) : part :=
  mk_part (p_voices p) c (p_panic_note p) (p_arp p) (p_pval p) (p_ramps p).
Definition set_panic (n : Z) (p : part) : part :=
  mk_part (p_voices p) (p_alloc_clock p) n (p_arp p) (p_pval p) (p_ramps p).
Definition set_arp (f : arp_state -> arp_state) (p : part) : part :=
  mk_part (p_voices p) (p_alloc_clock p) (p_panic_note p) (f (p_arp p)) (p_pval p) (p_ramps p).
Definition set_pval (f : list Z -> list Z) (p : part) : part :=
  mk_part (p_voices p) (p_alloc_clock p) (p_panic_note p) (p_arp p) (f (p_pval p)) (p_ramps p).
Definition set_ramps (f : list dev_ramp -> list dev_ramp) (p : part) : part :=
  mk_part (p_voices p) (p_alloc_clock p) (p_panic_note p) (p_arp p) (p_pval p) (f (p_ramps p)).

Definition note_set (n : Z) (v : synth_voice) : synth_voice :=
  mk_voice n (v_note_vel v) (v_note_seq v) (v_voice_id v) (v_alloc_seq v) (v_active v) (v_mod v) (v_has_mod v)
    (v_bend_semis v) (v_z_gain v) (v_vramp v) (v_vramp_idx v) (v_dsp v).
(** [note = -1; active = false] *)
Definition voice_free (v : synth_voice) : synth_voice :=
  mk_voice (-1) (v_note_vel v) (v_note_seq v) (v_voice_id v) (v_alloc_seq v) false (v_mod v) (v_has_mod v)
    (v_bend_semis v) (v_z_gain v) (v_vramp v) (v_vramp_idx v) (v_dsp v).

(** The initialisers: an idle voice and part; the [PVAL_DEFAULTS] row. *)
Definition voice_zero : synth_voice :=
  mk_voice (-1) 0 0 0 0 false (repeat 0 (NPARAMS g_params)) false 0 0 ramp_zero 0 dsp_zero.
Definition arp_zero : arp_state := mk_arp false false 0 0 0 [] [] 0 (-1) 0.
Definition part_init : part :=
  mk_part (repeat voice_zero NVOICES) 0 PANIC_NONE arp_zero PVAL_DEFAULTS (repeat ramp_zero (NPARAMS g_params)).
Definition g_parts_init : list part := repeat part_init NPARTS.

(** ** Parameter values *)

Definition part_pget (p : part) (idx : nat) : Z := nth idx (p_pval p) 0.
Definition part_pput (idx : nat) (v : Z) (p : part) : part := set_pval (fun l => <[idx := v]> l) p.

(** The rows of values as the grid of Params.v, and its [engine_part_param_put]
    on the parts. *)
Definition pvals (ps : list part) : list (list Z) := map p_pval ps.

Definition parts_param_put (part_idx id v : Z) (ps : list part) : list part :=
  if (part_idx <? 0) || (Z.of_nat NPARTS <=? part_idx) then ps
  else match param_index g_params id with
       | Some idx => alter (part_pput idx v) (Z.to_nat part_idx) ps
       | None => ps
       end.

Section engine.
Context {FC : FpConv}.

Definition param_step_index (p : part) (id : Z) : Z :=
  match param_index g_params id with
  | None => 0
  | Some idx =>
      let n := p_steps (param_at g_params idx) in
      if n <=? 1 then 0
      else
        let si := f32_to_int (f32_mul (part_pget p idx) (f32_of_Z n)) in
        if n <=? si then n - 1 else si
  end.

Definition param_value (p : part) (id : Z) : Z :=
  match param_index g_params id with None => 0 | Some idx => part_pget p idx end.

Definition voice_param (p : part) (v : synth_voice) (id : Z) : Z :=
  match param_index g_params id with
  | None => 0
  | Some idx =>
      let r := f32_add (part_pget p idx) (nth idx (v_mod v) 0) in
      if f32_lt r 0 then 0 else if f32_lt F32_ONE r then F32_ONE else r
  end.

Definition VP (p : part) (v : synth_voice) (id : Z) : Z :=
  if v_has_mod v then voice_param p v id else param_value p id.

(** ** Panic signals *)

Definition engine_all_notes_off (ps : list part) : list part := map (set_panic PANIC_ALL) ps.
Definition engine_note_off_if (note : Z) (ps : list part) : list part := map (set_panic (s32 note)) ps.

(** ** Voices *)

Definition voice_alloc (p : part) : nat :=
  harp_voice_pick (map v_active (p_voices p)) (map v_alloc_seq (p_voices p)) NVOICES.

Definition voice_start (note vel voice_id seq : Z) (v : synth_voice) : synth_voice :=
  mk_voice note vel (u32 (v_note_seq v + 1)) voice_id seq true (map (fun _ => 0) (v_mod v)) false 0 0
    (ramp_stop (v_vramp v)) (v_vramp_idx v) (v_dsp v).

Definition voice_note_on (note vel voice_id : Z) (p : part) : part :=
  let i := voice_alloc p in
  set_clock (u64 (p_alloc_clock p + 1))
    (set_voices (fun vs => alter (voice_start note vel voice_id (p_alloc_clock p)) i vs) p).

Definition release (note : Z) (v : synth_voice) : synth_voice :=
  if v_active v && (v_note v =? note) then note_set (-1) v else v.

Definition voice_note_off (note : Z) (p : part) : part := set_voices (map (release note)) p.

Definition part_voices_cold (p : part) : part :=
  set_clock 0 (set_voices (map (fun _ => voice_zero)) p).

Definition panic_service (p : part) : part :=
  let req := p_panic_note p in
  let p := set_panic PANIC_NONE p in
  if req =? PANIC_NONE then p
  else if req =? PANIC_ALL then set_voices (map voice_free) p
  else voice_note_off req p.

(** ** The arpeggiator *)

Definition arp_active (p : part) : bool := negb (param_step_index p 8 =? 0).

Definition arp_quiet (a : arp_state) : arp_state :=
  mk_arp (ar_playing a) (ar_anchor_valid a) (ar_tempo a) (ar_anchor_ppq a) (ar_anchor_ssi a)
    (ar_latch a) (ar_vel a) (ar_step a) (-1) 0.

Definition arp_voice_off (p : part) : part :=
  let s := ar_sounding (p_arp p) in
  let p := if 0 <=? s then set_voices (fun vs => alter (fun v0 => if v_note v0 =? s then note_set (-1) v0 else v0) 0%nat vs) p else p in
  set_arp arp_quiet p.

Definition arp_voice_on (note vel : Z) (p : part) : part :=
  set_voices (fun vs => alter (fun v =>
    mk_voice note vel (u32 (v_note_seq v + 1)) (v_voice_id v) (v_alloc_seq v) true (v_mod v) (v_has_mod v)
      (v_bend_semis v) (v_z_gain v) (v_vramp v) (v_vramp_idx v) (v_dsp v)) 0%nat vs) p.

Fixpoint latch_index (note : Z) (l : list Z) : option nat :=
  match l with
  | [] => None
  | x :: l => if x =? note then Some 0%nat else S <$> latch_index note l
  end.

Definition set_latch (latch vel : list Z) (a : arp_state) : arp_state :=
  mk_arp (ar_playing a) (ar_anchor_valid a) (ar_tempo a) (ar_anchor_ppq a) (ar_anchor_ssi a) latch vel
    (ar_step a) (ar_sounding a) (ar_gate_off a).

Definition arp_latch_add (note vel : Z) (a : arp_state) : arp_state :=
  match latch_index note (ar_latch a) with
  | Some i => set_latch (ar_latch a) (<[i := vel]> (ar_vel a)) a
  | None =>
      if (length (ar_latch a) <? ARP_LATCH_MAX)%nat
      then set_latch (ar_latch a ++ [note]) (ar_vel a ++ [vel]) a else a
  end.

Definition arp_latch_remove (note : Z) (a : arp_state) : arp_state :=
  match latch_index note (ar_latch a) with
  | Some i => set_latch (delete i (ar_latch a)) (delete i (ar_vel a)) a
  | None => a
  end.

Definition set_step (s : Z) (a : arp_state) : arp_state :=
  mk_arp (ar_playing a) (ar_anchor_valid a) (ar_tempo a) (ar_anchor_ppq a) (ar_anchor_ssi a)
    (ar_latch a) (ar_vel a) s (ar_sounding a) (ar_gate_off a).

Definition arp_reset (p : part) : part :=
  arp_voice_off (set_arp (fun a => set_step 0 (set_latch [] [] a)) p).

Definition arp_stream_reset (p : part) : part :=
  set_arp (fun a => mk_arp false false 0 (ar_anchor_ppq a) (ar_anchor_ssi a) (ar_latch a) (ar_vel a)
    (ar_step a) (ar_sounding a) (ar_gate_off a)) (arp_reset p).

(** Constants written as decimals in the code: the quotient of two exact doubles
    rounds to the literal. *)
Definition f64_ratio (a b : Z) : Z := f64_div (f64_of_Z a) (f64_of_Z b).

Definition ARP_DIV_PPQ : list Z :=
  [F64_ONE; f64_ratio 1 2; f64_div F64_ONE (f64_of_Z 3); f64_ratio 1 4; f64_div F64_ONE (f64_of_Z 6); f64_ratio 1 8].

(** [ARP_DIV_PPQ[i]]; what lies outside the array is not known. *)
Context (div_oob : Z -> Z).
Definition arp_div (i : Z) : Z :=
  if (0 <=? i) && (i <? zlen ARP_DIV_PPQ) then nth (Z.to_nat i) ARP_DIV_PPQ 0 else div_oob i.

Definition arp_ppq_at (a : arp_state) (ssi rate : Z) : Z :=
  f64_add (ar_anchor_ppq a)
    (f64_div (f64_mul (f64_sub (f64_of_Z ssi) (f64_of_Z (ar_anchor_ssi a))) (ar_tempo a))
             (f64_mul (f64_of_Z 60) rate)).

Definition arp_ssi_at (a : arp_state) (ppq rate : Z) : Z :=
  let ds := f64_div (f64_mul (f64_mul (f64_sub ppq (ar_anchor_ppq a)) (f64_of_Z 60)) rate) (ar_tempo a) in
  let ssi := f64_add (f64_of_Z (ar_anchor_ssi a)) ds in
  if f64_le ssi 0 then 0 else f64_to_u64 (f64_add ssi (f64_ratio 1 2)).

(** [while (bssi <= after) bssi = arp_ssi_at(p, (k += 1.0) * div, rate)];
    [None]: still looping after [fuel] turns. *)
Fixpoint step_loop (fuel : nat) (a : arp_state) (after div rate k bssi : Z) : option Z :=
  if after <? bssi then Some bssi
  else match fuel with
       | O => None
       | S fuel =>
           let k := f64_add k F64_ONE in
           step_loop fuel a after div rate k (arp_ssi_at a (f64_mul k div) rate)
       end.

Definition arp_next_step_ssi (fuel : nat) (p : part) (after rate : Z) : option Z :=
  let div := arp_div (param_step_index p 9) in
  let k := f64_add (f64_floor (f64_add (f64_div (arp_ppq_at (p_arp p) after rate) div) (f64_ratio 1 1000000000))) F64_ONE in
  step_loop fuel (p_arp p) after div rate k (arp_ssi_at (p_arp p) (f64_mul k div) rate).

(** [!playing || !anchor_valid || tempo <= 0] *)
Definition arp_stopped (a : arp_state) : bool :=
  negb (ar_playing a) || negb (ar_anchor_valid a) || f64_le (ar_tempo a) 0.

Definition arp_next_deadline (fuel : nat) (p : part) (pos rate : Z) : option Z :=
  let a := p_arp p in
  if negb (arp_active p) || arp_stopped a then Some 0
  else
    next ← (if (0 <? length (ar_latch a))%nat then arp_next_step_ssi fuel p pos rate else Some 0);
    Some (if negb (ar_gate_off a =? 0) && (pos <? ar_gate_off a) && ((next =? 0) || (ar_gate_off a <? next))
          then ar_gate_off a else next).

(** The firing of a step: the note picked, its gate, and the step count. *)
Definition arp_fire (pos rate : Z) (p : part) : part :=
  let a := p_arp p in
  let pick := (harp_arp_select (param_step_index p 8) (ar_step a) (ar_latch a) (length (ar_latch a)) (param_step_index p 11)).1 in
  let p := arp_voice_on (pick_note pick) (nth (pick_sel pick) (ar_vel a) 0) p in
  let div := arp_div (param_step_index p 9) in
  let step_samples := f64_div (f64_mul (f64_mul div (f64_of_Z 60)) rate) (ar_tempo a) in
  let gate := f32_to_f64 (param_value p 10) in
  let gate := if f64_lt gate (f64_ratio 5 100) then f64_ratio 5 100
              else if f64_lt (f64_ratio 98 100) gate then f64_ratio 98 100 else gate in
  let off := u64 (pos + f64_to_u64 (f64_add (f64_mul step_samples gate) (f64_ratio 1 2))) in
  set_arp (fun a => mk_arp (ar_playing a) (ar_anchor_valid a) (ar_tempo a) (ar_anchor_ppq a) (ar_anchor_ssi a)
    (ar_latch a) (ar_vel a) (ar_step a + 1) (pick_note pick) (if off <=? pos then u64 (pos + 1) else off)) p.

Definition arp_fire_due (fuel : nat) (pos rate : Z) (p : part) : option part :=
  if negb (arp_active p) then Some p
  else
    let p := if negb (ar_gate_off (p_arp p) =? 0) && (ar_gate_off (p_arp p) <=? pos) then arp_voice_off p else p in
    let a := p_arp p in
    if arp_stopped a || (length (ar_latch a) =? 0)%nat || (pos =? 0) then Some p
    else
      next ← arp_next_step_ssi fuel p (pos - 1) rate;
      Some (if next =? pos then arp_fire pos rate p else p).

(** ** Ramps *)

(** The position of a ramp at stream position [pos]: its value, if it moves one,
    and whether it is over. *)
Definition ramp_at (r : dev_ramp) (pos : Z) : option (Z * bool) :=
  if (rp_end r <=? pos) || (rp_end r <=? rp_start r) then Some (rp_target r, true)
  else if rp_start r <? pos then
    let t := f32_div (f32_of_Z (pos - rp_start r)) (f32_of_Z (rp_end r - rp_start r)) in
    Some (f32_add (rp_start_val r) (f32_mul (f32_sub (rp_target r) (rp_start_val r)) t), false)
  else None.

Definition ramp_step (pos : Z) (p : part) (i : nat) : part :=
  let r := nth i (p_ramps p) ramp_zero in
  if negb (rp_active r) then p
  else match ramp_at r pos with
       | Some (v, done) =>
           let p := part_pput i v p in
           if done : bool then set_ramps (fun l => alter ramp_stop i l) p else p
       | None => p
       end.

Definition voice_ramp_step (pos : Z) (v : synth_voice) : synth_voice :=
  let r := v_vramp v in
  if negb (rp_active r) then v
  else match ramp_at r pos with
       | Some (x, done) =>
           mk_voice (v_note v) (v_note_vel v) (v_note_seq v) (v_voice_id v) (v_alloc_seq v) (v_active v)
             (<[v_vramp_idx v := x]> (v_mod v)) (v_has_mod v) (v_bend_semis v) (v_z_gain v)
             (if done : bool then ramp_stop r else r) (v_vramp_idx v) (v_dsp v)
       | None => v
       end.

Definition ramps_advance (pos : Z) (p : part) : part :=
  set_voices (map (voice_ramp_step pos)) (fold_left (ramp_step pos) (seq 0 (NPARAMS g_params)) p).

(** ** Events

    What [evq_apply_due] shares with the rest of the program: the parts, the
    deferred dirty flag and the two late counters. *)
Record engst := mk_engst { e_parts : list part; e_touch : bool; e_evt_late : Z; e_ramp_late : Z }.

Definition on_parts (f : list part -> list part) (s : engst) : engst :=
  mk_engst (f (e_parts s)) (e_touch s) (e_evt_late s) (e_ramp_late s).
Definition touch (s : engst) : engst := mk_engst (e_parts s) true (e_evt_late s) (e_ramp_late s).

(** The late counters. *)
Definition count_late (pos : Z) (ev : dev_event) (s : engst) : engst :=
  match ev_kd ev with
  | DEV_EV_RAMP =>
      if negb (ev_end ev =? 0) && (ev_end ev <? pos)
      then mk_engst (e_parts s) (e_touch s) (e_evt_late s) (u64 (e_ramp_late s + 1)) else s
  | _ =>
      if negb (ev_ts ev =? 0) && (ev_ts ev <? pos)
      then mk_engst (e_parts s) (e_touch s) (u64 (e_evt_late s + 1)) (e_ramp_late s) else s
  end.

(** The arpeggiator owns the voice. *)
Definition arp_engaged (p : part) : bool :=
  arp_active p && ar_playing (p_arp p) && ar_anchor_valid (p_arp p).

Definition apply_note_on (ev : dev_event) (p : part) : part :=
  let p := set_arp (arp_latch_add (u8 (ev_a ev)) (ev_v ev)) p in
  if negb (arp_engaged p) then
    let vid := if negb (ev_voice ev =? 0) then ev_voice ev
               else Z.lor (u32 (Z.shiftl (ev_channel ev) 8)) (Z.land (ev_a ev) 0x7f) in
    voice_note_on (s32 (ev_a ev)) (ev_v ev) vid p
  else p.

Definition apply_note_off (ev : dev_event) (p : part) : part :=
  let p := set_arp (arp_latch_remove (u8 (ev_a ev))) p in
  if negb (arp_engaged p) then voice_note_off (s32 (ev_a ev)) p
  else if (length (ar_latch (p_arp p)) =? 0)%nat then arp_voice_off p else p.

Definition apply_all_off (p : part) : part := set_voices (map voice_free) (arp_reset p).

Definition apply_transport (pos : Z) (ev : dev_event) (p : part) : part :=
  let was := ar_playing (p_arp p) in
  let playing := Z.testbit (ev_a ev) 0 in
  let p := set_arp (fun a =>
    let tempo := if Z.testbit (ev_a ev) 3 then f32_to_f64 (ev_v ev) else ar_tempo a in
    if Z.testbit (ev_a ev) 5
    then mk_arp playing true tempo (ev_ppq ev) (if negb (ev_ts ev =? 0) then ev_ts ev else pos)
           (ar_latch a) (ar_vel a) (ar_step a) (ar_sounding a) (ar_gate_off a)
    else mk_arp playing (ar_anchor_valid a) tempo (ar_anchor_ppq a) (ar_anchor_ssi a)
           (ar_latch a) (ar_vel a) (ar_step a) (ar_sounding a) (ar_gate_off a)) p in
  let p := if negb playing && was then arp_voice_off p else p in
  if playing && negb was then set_arp (set_step 0) p else p.

(** The voices an event addresses, changed by [f]. *)
Definition target_voices (ev : dev_event) (f : synth_voice -> synth_voice) (p : part) : part :=
  set_voices (map (fun v => if harp_mod_targets_voice (ev_voice ev) (v_active v) (v_voice_id v) then f v else v)) p.

Definition voice_mod_set (j : nat) (x : Z) (v : synth_voice) : synth_voice :=
  mk_voice (v_note v) (v_note_vel v) (v_note_seq v) (v_voice_id v) (v_alloc_seq v) (v_active v)
    (<[j := x]> (v_mod v)) true (v_bend_semis v) (v_z_gain v) (v_vramp v) (v_vramp_idx v) (v_dsp v).
Definition voice_vramp_stop (v : synth_voice) : synth_voice :=
  mk_voice (v_note v) (v_note_vel v) (v_note_seq v) (v_voice_id v) (v_alloc_seq v) (v_active v)
    (v_mod v) (v_has_mod v) (v_bend_semis v) (v_z_gain v) (ramp_stop (v_vramp v)) (v_vramp_idx v) (v_dsp v).
Definition voice_vramp_start (pos e : Z) (j : nat) (target : Z) (v : synth_voice) : synth_voice :=
  mk_voice (v_note v) (v_note_vel v) (v_note_seq v) (v_voice_id v) (v_alloc_seq v) (v_active v)
    (v_mod v) true (v_bend_semis v) (v_z_gain v) (mk_ramp true pos e (nth j (v_mod v) 0) target) j (v_dsp v).
Definition voice_bend (x : Z) (v : synth_voice) : synth_voice :=
  mk_voice (v_note v) (v_note_vel v) (v_note_seq v) (v_voice_id v) (v_alloc_seq v) (v_active v)
    (v_mod v) (v_has_mod v) x (v_z_gain v) (v_vramp v) (v_vramp_idx v) (v_dsp v).
Definition voice_pressure (x : Z) (v : synth_voice) : synth_voice :=
  mk_voice (v_note v) (v_note_vel v) (v_note_seq v) (v_voice_id v) (v_alloc_seq v) (v_active v)
    (v_mod v) (v_has_mod v) (v_bend_semis v) x (v_vramp v) (v_vramp_idx v) (v_dsp v).

(** [voice == 0]: the part's stored value; otherwise the addressed voices'
    deviation from it. *)
Definition apply_param_set (ev : dev_event) (p : part) : part :=
  match param_index g_params (ev_a ev) with
  | None => p
  | Some j =>
      if negb (ev_voice ev =? 0)
      then target_voices ev (fun v => voice_vramp_stop (voice_mod_set j (f32_sub (ev_v ev) (part_pget p j)) v)) p
      else set_ramps (fun l => alter ramp_stop j l) (part_pput j (ev_v ev) p)
  end.

Definition apply_ramp (pos : Z) (ev : dev_event) (p : part) : part :=
  match param_index g_params (ev_a ev) with
  | None => p
  | Some j =>
      if negb (ev_voice ev =? 0)
      then target_voices ev (voice_vramp_start pos (ev_end ev) j (f32_sub (ev_v ev) (part_pget p j))) p
      else set_ramps (fun l => <[j := mk_ramp true pos (ev_end ev) (part_pget p j) (ev_v ev)]> l) p
  end.

Definition apply_mod (ev : dev_event) (p : part) : part :=
  let idx := param_index g_params (ev_a ev) in
  match harp_mod_target (ev_a ev) idx HARP_MOD_PITCH_BEND HARP_MOD_PRESSURE with
  | HARP_MODT_IGNORE => p
  | HARP_MODT_BEND => target_voices ev (voice_bend (ev_v ev)) p
  | HARP_MODT_PRESSURE => target_voices ev (voice_pressure (ev_v ev)) p
  | HARP_MODT_PARAM =>
      match idx with Some j => target_voices ev (voice_mod_set j (ev_v ev)) p | None => p end
  end.

Definition routed (ev : dev_event) (f : part -> part) (ps : list part) : list part :=
  alter f (Z.to_nat (harp_evt_part (ev_channel ev) (Z.of_nat NPARTS))) ps.

(** The body of the drain loop for one due event. *)
Definition apply_event (pos : Z) (ev : dev_event) (s : engst) : engst :=
  let s := count_late pos ev s in
  match ev_kd ev with
  | DEV_EV_NOTE_ON => on_parts (routed ev (apply_note_on ev)) s
  | DEV_EV_NOTE_OFF => on_parts (routed ev (apply_note_off ev)) s
  | DEV_EV_ALL_OFF => on_parts (map apply_all_off) s
  | DEV_EV_TRANSPORT => on_parts (map (apply_transport pos ev)) s
  | DEV_EV_PARAM_SET =>
      let s := on_parts (routed ev (apply_param_set ev)) s in if ev_voice ev =? 0 then touch s else s
  | DEV_EV_RAMP =>
      let s := on_parts (routed ev (apply_ramp pos ev)) s in if ev_voice ev =? 0 then touch s else s
  | DEV_EV_MOD => on_parts (routed ev (apply_mod ev)) s
  end.

(** [evq_reset_for_new_stream], [engine_voices_cold] and [engine_voices_quiet]. *)
Definition part_new_stream (p : part) : part :=
  arp_stream_reset (set_ramps (map (fun _ => ramp_zero)) (set_panic PANIC_NONE (set_voices (map voice_free) p))).

Definition engine_voices_cold (ps : list part) : list part := map part_voices_cold ps.
Definition engine_voices_quiet (ps : list part) : list part :=
  map (fun p => set_panic PANIC_NONE (set_voices (map voice_free) p)) ps.

Definition VOICE_IDLE_THRESH : Z := f32_div F32_ONE (f32_of_Z 10000).

(** The part sounds, still rings, or has a panic to service. *)
Definition part_active (p : part) : bool :=
  (0 <? length (ar_latch (p_arp p)))%nat || (0 <=? ar_sounding (p_arp p)) || negb (p_panic_note p =? PANIC_NONE) ||
  existsb (fun v => v_active v || f32_lt VOICE_IDLE_THRESH (env (v_dsp v))) (p_voices p).
End engine.
