(* ===== verification/PartsSpec.v ===== *)
(** * Properties of the parts

    The invariant of the parts over everything that runs on them, what each kind
    of event changes and what it leaves alone, and the life of a note. *)
From Stdlib Require Import ZArith Lia List Bool Floats.SpecFloat.
From stdpp Require Import base list relations.
From S2P Require Import Prelude CborFloat VoiceAlloc ArpSelect Params Evq Ieee Parts.
Open Scope Z_scope.
Open Scope list_scope.

#[local] Arguments NPARAMS : simpl never.
#[local] Arguments NVOICES : simpl never.
#[local] Arguments NPARTS : simpl never.
#[local] Arguments ARP_LATCH_MAX : simpl never.

(** ** The invariant *)

Definition voice_ok (v : synth_voice) : Prop :=
  length (v_mod v) = NPARAMS g_params /\ (v_vramp_idx v < NPARAMS g_params)%nat.

Record arp_ok (a : arp_state) : Prop := {
  ao_len : (length (ar_latch a) <= ARP_LATCH_MAX)%nat;
  ao_vel : length (ar_vel a) = length (ar_latch a);
  ao_nodup : NoDup (ar_latch a);
  ao_bytes : bytes_ok (ar_latch a);
  ao_step : 0 <= ar_step a
}.

Record part_ok (p : part) : Prop := {
  po_nvoices : length (p_voices p) = NVOICES;
  po_voices : List.Forall voice_ok (p_voices p);
  po_pval : length (p_pval p) = NPARAMS g_params;
  po_ramps : length (p_ramps p) = NPARAMS g_params;
  po_arp : arp_ok (p_arp p)
}.

Lemma part_ok_voices p f : part_ok p -> length (f (p_voices p)) = length (p_voices p) ->
  List.Forall voice_ok (f (p_voices p)) -> part_ok (set_voices f p).
Proof. intros [? ? ? ? ?] Hl Hf. split; cbn; congruence || done. Qed.

Lemma part_ok_map_voices p f : part_ok p -> (forall v, voice_ok v -> voice_ok (f v)) -> part_ok (set_voices (map f) p).
Proof.
  intros Hp Hf. apply part_ok_voices; [done|apply length_map|]. apply List.Forall_map.
  eapply List.Forall_impl; [exact Hf|]. by destruct Hp.
Qed.

Lemma part_ok_alter_voice p f i : part_ok p -> (forall v, voice_ok v -> voice_ok (f v)) ->
  part_ok (set_voices (fun vs => alter f i vs) p).
Proof.
  intros Hp Hf. apply part_ok_voices; [done|apply length_alter|].
  apply Forall_alter; [by destruct Hp|]. intros v _. apply Hf.
Qed.

Lemma part_ok_arp p f : part_ok p -> (arp_ok (p_arp p) -> arp_ok (f (p_arp p))) -> part_ok (set_arp f p).
Proof. intros [? ? ? ? ?] Hf. split; cbn; auto. Qed.

Lemma part_ok_ramps p f : part_ok p -> length (f (p_ramps p)) = length (p_ramps p) -> part_ok (set_ramps f p).
Proof. intros [? ? ? ? ?] Hl. split; cbn; congruence || done. Qed.

Lemma part_ok_pput p j v : part_ok p -> part_ok (part_pput j v p).
Proof. intros [? ? ? ? ?]. split; cbn; rewrite ?length_insert; done. Qed.

Lemma part_ok_clock p c : part_ok p -> part_ok (set_clock c p).
Proof. by intros [? ? ? ? ?]. Qed.

Lemma part_ok_panic p c : part_ok p -> part_ok (set_panic c p).
Proof. by intros [? ? ? ? ?]. Qed.

Create HintDb parts.
#[export] Hint Resolve part_ok_map_voices part_ok_alter_voice part_ok_arp part_ok_ramps part_ok_pput part_ok_clock part_ok_panic : parts.

(** Changing fields of a voice other than the modulation row keeps it well formed. *)
Ltac voice_tac := intros ? [? ?]; unfold voice_ok in *; cbn in *; repeat case_match; cbn; rewrite ?length_map, ?length_insert; auto.

Lemma arp_ok_same a b : arp_ok a -> ar_latch b = ar_latch a -> ar_vel b = ar_vel a -> 0 <= ar_step b -> arp_ok b.
Proof. intros [? ? ? ? ?] E1 E2 E3. split; congruence. Qed.

Ltac arp_tac := intros Ha; cbn in Ha; eapply arp_ok_same; [exact Ha|..]; cbn; try done; try (destruct Ha; lia).

Lemma latch_index_spec note l :
  match latch_index note l with
  | Some i => l !! i = Some note
  | None => note ∉ l
  end.
Proof.
  induction l as [|x l IH]; cbn [latch_index]; [apply not_elem_of_nil|].
  destruct (Z.eqb_spec x note) as [->|Hne]; [done|].
  destruct (latch_index note l); cbn [fmap option_fmap option_map]; [done|]. rewrite not_elem_of_cons. auto.
Qed.

Lemma arp_ok_latch_add note vel a : is_u8 note -> arp_ok a -> arp_ok (arp_latch_add note vel a).
Proof.
  intros Hn Ha. unfold arp_latch_add. pose proof (latch_index_spec note (ar_latch a)) as Hi.
  destruct Ha as [H1 H2 H3 H4 H5]. destruct (latch_index note (ar_latch a)) as [i|].
  - split; cbn; rewrite ?length_insert; done.
  - destruct (Nat.ltb_spec (length (ar_latch a)) ARP_LATCH_MAX); [|by split].
    split; cbn; rewrite ?length_app; cbn [length]; try lia.
    + apply NoDup_app. split_and!; [done| |apply NoDup_singleton]. intros x Hx ->%list_elem_of_singleton. done.
    + apply bytes_ok_app. split; [done|]. constructor; [done|constructor].
Qed.

Lemma arp_ok_latch_remove note a : arp_ok a -> arp_ok (arp_latch_remove note a).
Proof.
  intros Ha. unfold arp_latch_remove. pose proof (latch_index_spec note (ar_latch a)) as Hi.
  destruct (latch_index note (ar_latch a)) as [i|]; [|done]. destruct Ha as [H1 H2 H3 H4 H5].
  pose proof (lookup_lt_Some _ _ _ Hi) as Hlt.
  assert (is_Some (ar_vel a !! i)) as Hv by (apply lookup_lt_is_Some_2; lia).
  split; cbn; rewrite ?length_delete by eauto; try lia.
  - eapply sublist_NoDup; [done|apply sublist_delete].
  - unfold bytes_ok in *. rewrite List.Forall_forall in *. intros x Hx. apply H4.
    apply list_elem_of_In in Hx. apply list_elem_of_In. eapply elem_of_sublist; [exact Hx|apply sublist_delete].
Qed.

Lemma part_ok_voice_off p : part_ok p -> part_ok (arp_voice_off p).
Proof.
  intros Hp. unfold arp_voice_off. case_match; apply part_ok_arp; try arp_tac; [|done].
  apply part_ok_alter_voice; [done|]. voice_tac.
Qed.

Lemma part_ok_reset p : part_ok p -> part_ok (arp_reset p).
Proof.
  intros Hp. apply part_ok_voice_off, part_ok_arp; [done|]. intros _.
  split; cbn; [lia|done|apply NoDup_nil_2|constructor|lia].
Qed.

Lemma part_ok_note_on note vel vid p : part_ok p -> part_ok (voice_note_on note vel vid p).
Proof. intros Hp. unfold voice_note_on. apply part_ok_clock, part_ok_alter_voice; [done|]. voice_tac. Qed.

Lemma part_ok_note_off note p : part_ok p -> part_ok (voice_note_off note p).
Proof. intros Hp. apply part_ok_map_voices; [done|]. unfold release. voice_tac. Qed.

Lemma part_ok_free p : part_ok p -> part_ok (set_voices (map voice_free) p).
Proof. intros Hp. apply part_ok_map_voices; [done|]. voice_tac. Qed.
#[export] Hint Resolve part_ok_voice_off part_ok_reset part_ok_note_on part_ok_note_off part_ok_free : parts.

Lemma part_ok_target ev f p : part_ok p -> (forall v, voice_ok v -> voice_ok (f v)) -> part_ok (target_voices ev f p).
Proof. intros Hp Hf. apply part_ok_map_voices; [done|]. intros v Hv. case_match; auto. Qed.

Lemma param_index_lt id j : param_index g_params id = Some j -> (j < NPARAMS g_params)%nat.
Proof. intros Hj. unfold param_index in Hj. apply find_id_bound in Hj. unfold NPARAMS. lia. Qed.

Section steps.
Context {FC : FpConv} (div_oob : Z -> Z).

Lemma part_ok_ramps_advance pos p : part_ok p -> part_ok (ramps_advance pos p).
Proof.
  intros Hp. unfold ramps_advance. apply part_ok_map_voices.
  - generalize (seq 0 (NPARAMS g_params)) as l. intros l. revert p Hp. induction l as [|i l IH]; intros p Hp; [done|].
    cbn [fold_left]. apply IH. unfold ramp_step. repeat case_match; auto with parts.
    apply part_ok_ramps; [by apply part_ok_pput|]. apply length_alter.
  - unfold voice_ramp_step. voice_tac.
Qed.

Lemma part_ok_fire fuel pos rate p p' : part_ok p -> arp_fire_due div_oob fuel pos rate p = Some p' -> part_ok p'.
Proof.
  intros Hp. unfold arp_fire_due. case_match; [by intros [= <-]|].
  set (q := if _ : bool then arp_voice_off p else p). assert (part_ok q) as Hq by (unfold q; case_match; auto with parts).
  case_match; [by intros [= <-]|]. destruct (arp_next_step_ssi _ _ _ _ _) as [n|]; [|done].
  intros [= <-]. case_match; [|done]. unfold arp_fire. apply part_ok_arp; [|arp_tac].
  apply part_ok_alter_voice; [done|]. voice_tac.
Qed.

Lemma part_ok_panic_service p : part_ok p -> part_ok (panic_service p).
Proof. intros Hp. unfold panic_service. repeat case_match; auto with parts. Qed.

Lemma part_ok_note_on_ev ev p : part_ok p -> part_ok (apply_note_on ev p).
Proof.
  intros Hp. unfold apply_note_on. set (q := set_arp _ p). assert (part_ok q) as Hq.
  { apply part_ok_arp; [done|]. apply arp_ok_latch_add. apply u8_range. }
  case_match; auto with parts.
Qed.

Lemma part_ok_note_off_ev ev p : part_ok p -> part_ok (apply_note_off ev p).
Proof.
  intros Hp. unfold apply_note_off. set (q := set_arp _ p). assert (part_ok q) as Hq.
  { apply part_ok_arp; [done|]. apply arp_ok_latch_remove. }
  repeat case_match; auto with parts.
Qed.

Lemma part_ok_transport pos ev p : part_ok p -> part_ok (apply_transport pos ev p).
Proof.
  intros Hp. unfold apply_transport. set (q := set_arp _ p).
  assert (part_ok q) as Hq by (apply part_ok_arp; [done|case_match; arp_tac]).
  repeat case_match; auto with parts; apply part_ok_arp; auto with parts; arp_tac.
Qed.

Lemma part_ok_param_set ev p : part_ok p -> part_ok (apply_param_set ev p).
Proof.
  intros Hp. unfold apply_param_set. case_match; [|done]. case_match.
  - apply part_ok_target; [done|]. voice_tac.
  - apply part_ok_ramps; [by apply part_ok_pput|]. apply length_alter.
Qed.

Lemma part_ok_ramp_ev pos ev p : part_ok p -> part_ok (apply_ramp pos ev p).
Proof.
  intros Hp. unfold apply_ramp. destruct (param_index _ _) as [j|] eqn:Hj; [|done].
  apply param_index_lt in Hj. case_match.
  - apply part_ok_target; [done|]. voice_tac.
  - apply part_ok_ramps; [done|]. apply length_insert.
Qed.

Lemma part_ok_mod ev p : part_ok p -> part_ok (apply_mod ev p).
Proof. intros Hp. unfold apply_mod. repeat case_match; try done; apply part_ok_target; try done; voice_tac. Qed.

Lemma part_ok_new_stream p : part_ok p -> part_ok (part_new_stream p).
Proof.
  intros Hp. unfold part_new_stream, arp_stream_reset. apply part_ok_arp.
  2: { intros Ha. by eapply arp_ok_same; [exact Ha|..|apply Ha]. }
  apply part_ok_reset, part_ok_ramps; [auto with parts|apply length_map].
Qed.

Lemma part_ok_cold p : part_ok p -> part_ok (part_voices_cold p).
Proof.
  intros Hp. apply part_ok_clock, part_ok_map_voices; [done|]. intros _ _. split; cbn; [apply repeat_length|]. 
  by vm_compute; lia.
Qed.

(** The parts as a whole. *)
Definition parts_ok (ps : list part) : Prop := length ps = NPARTS /\ List.Forall part_ok ps.

Lemma parts_ok_map f ps : (forall p, part_ok p -> part_ok (f p)) -> parts_ok ps -> parts_ok (map f ps).
Proof.
  intros Hf [H1 H2]. split; [by rewrite length_map|]. apply List.Forall_map. eapply List.Forall_impl; [exact Hf|done].
Qed.

Lemma parts_ok_alter f i ps : (forall p, part_ok p -> part_ok (f p)) -> parts_ok ps -> parts_ok (alter f i ps).
Proof. intros Hf [H1 H2]. split; [by rewrite length_alter|]. apply Forall_alter; [done|]. intros p _. apply Hf. Qed.

Lemma parts_ok_event pos ev s : parts_ok (e_parts s) -> parts_ok (e_parts (apply_event pos ev s)).
Proof.
  intros Hs. unfold apply_event.
  assert (e_parts (count_late pos ev s) = e_parts s) as E by (unfold count_late; repeat case_match; done).
  destruct (ev_kd ev); cbn [on_parts e_parts]; try (destruct (ev_voice ev =? 0)); cbn [touch on_parts e_parts]; rewrite ?E;
    first [apply parts_ok_map | apply parts_ok_alter]; try done; intros p;
    auto using part_ok_note_on_ev, part_ok_note_off_ev, part_ok_param_set, part_ok_ramp_ev, part_ok_mod, part_ok_transport.
  all: unfold apply_all_off; auto with parts.
Qed.
End steps.

(** ** Everything that runs on the parts *)

Section reach.
Context {FC : FpConv} (div_oob : Z -> Z).

(** One step: a drain of the event queue, a service of one part by the render
    thread, a signal or a parameter write of another thread, a stream reset. *)
Inductive eng_step : engst -> engst -> Prop :=
  | st_drain pos limit q next q' s s' :
      evq_apply_due apply_event pos limit q s = (next, q', s') -> eng_step s s'
  | st_panic i s : eng_step s (on_parts (alter panic_service i) s)
  | st_fire fuel pos rate i p p' s : e_parts s !! i = Some p -> arp_fire_due div_oob fuel pos rate p = Some p' ->
      eng_step s (on_parts (fun ps => <[i := p']> ps) s)
  | st_ramps pos i s : eng_step s (on_parts (alter (ramps_advance pos) i) s)
  | st_all_off s : eng_step s (on_parts engine_all_notes_off s)
  | st_off_if note s : eng_step s (on_parts (engine_note_off_if note) s)
  | st_put i id v s : eng_step s (on_parts (parts_param_put i id v) s)
  | st_new_stream s : eng_step s (on_parts (map part_new_stream) s)
  | st_cold s : eng_step s (on_parts engine_voices_cold s)
  | st_quiet s : eng_step s (on_parts engine_voices_quiet s)
  | st_taken s : eng_step s (mk_engst (e_parts s) false (e_evt_late s) (e_ramp_late s)).

Definition eng_init : engst := mk_engst g_parts_init false 0 0.

Lemma parts_ok_init : parts_ok g_parts_init.
Proof.
  split; [apply repeat_length|]. apply List.Forall_forall. intros p ->%repeat_spec. split; try done.
  - apply List.Forall_forall. intros v ->%repeat_spec. split; [apply repeat_length|by vm_compute; lia].
  - split; cbn; [lia|done|apply NoDup_nil_2|constructor|lia].
Qed.

Lemma parts_ok_put i id v ps : parts_ok ps -> parts_ok (parts_param_put i id v ps).
Proof.
  intros Hp. unfold parts_param_put. repeat case_match; try done.
  apply parts_ok_alter; [|done]. intros p. apply part_ok_pput.
Qed.

Lemma parts_ok_step s s' : eng_step s s' -> parts_ok (e_parts s) -> parts_ok (e_parts s').
Proof.
  intros Hst Hs. destruct Hst; cbn [on_parts e_parts].
  - unfold evq_apply_due in H. rewrite due_loop_spec in H. injection H as _ _ <-.
    generalize (List.filter (is_due pos) (q_ev q)). intros l. revert s Hs.
    induction l as [|ev l IH]; intros s Hs; [done|]. apply IH. by apply parts_ok_event.
  - apply parts_ok_alter; [apply part_ok_panic_service|done].
  - destruct Hs as [H1 H2]. split; [by rewrite length_insert|]. rewrite List.Forall_forall in *.
    intros x Hx%list_elem_of_In. apply list_elem_of_lookup_1 in Hx as [k Hk].
    destruct (decide (k = i)) as [->|Hne].
    + rewrite list_lookup_insert_eq in Hk by (by eapply lookup_lt_Some). injection Hk as <-.
      eapply part_ok_fire; [|done]. apply H2, list_elem_of_In. by eapply list_elem_of_lookup_2.
    + rewrite list_lookup_insert_ne in Hk by done. apply H2, list_elem_of_In. by eapply list_elem_of_lookup_2.
  - apply parts_ok_alter; [apply part_ok_ramps_advance|done].
  - apply parts_ok_map; [auto with parts|done].
  - apply parts_ok_map; [auto with parts|done].
  - by apply parts_ok_put.
  - apply parts_ok_map; [apply part_ok_new_stream|done].
  - apply parts_ok_map; [apply part_ok_cold|done].
  - apply parts_ok_map; [auto with parts|done].
  - done.
Qed.

(** C34: the parts stay well formed.  Whatever events are drained, whatever the
    arpeggiators fire, ramps advance, other threads signal or write, and however
    streams start and stop, from the static initialiser on there are sixteen
    parts, each with its eight voices, a full row of values, ramps and
    modulations, every voice's ramp index inside the row, and a latch of at most
    eight different note bytes with a velocity each.  (Indices computed from values
    are another matter: [step_index_negative].) *)
Theorem engine_invariant (s : engst) :
  rtc eng_step eng_init s -> parts_ok (e_parts s).
Proof.
  intros Hr. assert (parts_ok (e_parts eng_init)) as Hi by exact parts_ok_init.
  induction Hr as [|s1 s2 s3 H1 _ IH]; [done|]. apply IH. by eapply parts_ok_step.
Qed.
End reach.

Lemma engine_invariant_witness :
  let FC := (fun _ => 0) : FpConv in
  let s := @apply_event FC 0 (mk_event 0 DEV_EV_NOTE_ON 60 F32_ONE 0 0 3 0) eng_init in
  parts_ok (e_parts s).
Proof.
  intros FC s. apply (@engine_invariant FC (fun _ => 0)).
  apply rtc_once. apply (@st_drain FC (fun _ => 0) 0 64 (mk_evq [mk_event 0 DEV_EV_NOTE_ON 60 F32_ONE 0 0 3 0] 0) 0 evq_empty).
  reflexivity.
Defined.

(** ** What an event changes *)

Lemma map_lookup {A B} (f : A -> B) l i : map f l !! i = f <$> l !! i.
Proof. revert i. induction l as [|x l IH]; intros [|i]; [done|done|done|]. apply IH. Qed.

Lemma parts_alter_lookup (f : part -> part) k (ps : list part) i p : ps !! i = Some p ->
  alter f k ps !! i = Some (if decide (i = k) then f p else p).
Proof.
  intros Hp. destruct (decide (i = k)) as [->|Hne].
  - by rewrite list_lookup_alter_eq, Hp.
  - by rewrite list_lookup_alter_ne.
Qed.

Lemma nth_alter_ne {A} (f : A -> A) k i l d : i <> k -> nth i (alter f k l) d = nth i l d.
Proof. intros. rewrite !nth_lookup. by rewrite list_lookup_alter_ne. Qed.

Lemma nth_alter_eq {A} (f : A -> A) k l d : (k < length l)%nat -> nth k (alter f k l) d = f (nth k l d).
Proof.
  intros Hk. rewrite !nth_lookup. rewrite list_lookup_alter_eq. destruct (lookup_lt_is_Some_2 l k Hk) as [x ->]. done.
Qed.

Lemma count_late_parts pos ev s : e_parts (count_late pos ev s) = e_parts s /\ e_touch (count_late pos ev s) = e_touch s.
Proof. unfold count_late. repeat case_match; done. Qed.

Definition routed_to (ev : dev_event) : nat := Z.to_nat (harp_evt_part (ev_channel ev) (Z.of_nat NPARTS)).

(** What the addressed voices keep under a modulation. *)
Definition same_identity (v v' : synth_voice) : Prop :=
  v_note v' = v_note v /\ v_note_vel v' = v_note_vel v /\ v_note_seq v' = v_note_seq v /\ v_voice_id v' = v_voice_id v /\
  v_alloc_seq v' = v_alloc_seq v /\ v_active v' = v_active v /\ v_dsp v' = v_dsp v.

Definition mod_like (ev : dev_event) : Prop :=
  ev_kd ev = DEV_EV_MOD \/ ((ev_kd ev = DEV_EV_PARAM_SET \/ ev_kd ev = DEV_EV_RAMP) /\ ev_voice ev <> 0).

(** How a part may change under such an event. *)
Definition modulated (ev : dev_event) (p p' : part) : Prop :=
  p_pval p' = p_pval p /\ p_ramps p' = p_ramps p /\ p_arp p' = p_arp p /\ p_panic_note p' = p_panic_note p /\
  p_alloc_clock p' = p_alloc_clock p /\
  forall k v, p_voices p !! k = Some v -> exists v', p_voices p' !! k = Some v' /\ same_identity v v' /\
    (harp_mod_targets_voice (ev_voice ev) (v_active v) (v_voice_id v) = false -> v' = v).

Lemma modulated_refl ev p : modulated ev p p.
Proof. repeat split; try done. intros k v Hk. exists v. split; [done|]. by split. Qed.

Lemma modulated_target ev f p : (forall v, same_identity v (f v)) -> modulated ev p (target_voices ev f p).
Proof.
  intros Hf. repeat split; try done. intros k v Hk. cbn. rewrite map_lookup, Hk. cbn.
  eexists. split; [done|]. destruct (harp_mod_targets_voice _ _ _); [by split|]. split; [|done]. by repeat split.
Qed.

Lemma mod_like_modulated {FC : FpConv} pos ev p : mod_like ev ->
  modulated ev p (match ev_kd ev with DEV_EV_MOD => apply_mod ev p | DEV_EV_PARAM_SET => apply_param_set ev p
                                    | DEV_EV_RAMP => apply_ramp pos ev p | _ => p end).
Proof.
  intros [-> |[[-> | ->] Hv%Z.eqb_neq]]; unfold apply_mod, apply_param_set, apply_ramp; rewrite ?Hv; cbn [negb];
    repeat case_match; try apply modulated_refl; apply modulated_target; done.
Qed.

(** C35: modulation is not an edit.  A modulation event, and a set or ramp that
    addresses a voice, changes neither the stored value nor the ramp nor the
    arpeggiator of any part, does not mark the state dirty, touches only the part
    it is routed to, there only voices it addresses, and of these neither the
    note nor the sound state. *)
Theorem modulation_transient {FC : FpConv} (pos : Z) (ev : dev_event) (s : engst) (i : nat) (p : part) :
  mod_like ev -> e_parts s !! i = Some p ->
  let s' := apply_event pos ev s in
  e_touch s' = e_touch s /\
  exists p', e_parts s' !! i = Some p' /\ modulated ev p p' /\ (i <> routed_to ev -> p' = p).
Proof.
  intros Hm Hp s'. destruct (count_late_parts pos ev s) as [E1 E2].
  pose proof (mod_like_modulated pos ev p Hm) as Hmod.
  assert (e_touch s' = e_touch s /\ e_parts s' !! i = Some (if decide (i = routed_to ev) then
    match ev_kd ev with DEV_EV_MOD => apply_mod ev p | DEV_EV_PARAM_SET => apply_param_set ev p
                      | DEV_EV_RAMP => apply_ramp pos ev p | _ => p end else p)) as [H1 H2].
  { unfold s', apply_event. destruct Hm as [K|[[K|K] Hv%Z.eqb_neq]]; rewrite K in *; rewrite ?Hv;
      cbn [on_parts e_parts e_touch]; rewrite E1; unfold routed; (split; [done|]); by apply parts_alter_lookup. }
  split; [done|]. eexists. split; [exact H2|]. destruct (decide (i = routed_to ev)); [|split; [apply modulated_refl|done]].
  by split.
Qed.

Lemma modulation_transient_witness :
  let FC := (fun _ => 0) : FpConv in
  let s := @apply_event FC 0 (mk_event 0 DEV_EV_NOTE_ON 60 F32_ONE 0 0 3 0) eng_init in
  let ev := mk_event 0 DEV_EV_PARAM_SET 3 F32_ONE 0 0 3 (Z.lor (Z.shiftl 3 8) 60) in
  let s' := @apply_event FC 5 ev s in
  map (fun v => (v_has_mod v, nth 2 (v_mod v) 0)) (take 2 (p_voices (nth 3 (e_parts s') part_init))) =
    [(true, f32_sub F32_ONE (nth 2 PVAL_DEFAULTS 0)); (false, 0)] /\
  e_touch s' = false /\ pvals (e_parts s') = pvals (e_parts s).
Proof.
  intros FC s ev s'. split; [vm_compute; reflexivity|].
  assert (forall i p, e_parts s !! i = Some p -> e_touch s' = e_touch s /\
    exists p', e_parts s' !! i = Some p' /\ modulated ev p p' /\ (i <> routed_to ev -> p' = p)) as H.
  { intros i p Hp. apply (@modulation_transient FC 5 ev s i p); [|exact Hp]. right. split; [by left|]. discriminate. }
  split; [exact (proj1 (H 0%nat (nth 0 (e_parts s) part_init) eq_refl))|].
  apply list_eq. intros i. unfold pvals. rewrite !map_lookup.
  destruct (e_parts s !! i) as [p|] eqn:E.
  - destruct (H i p E) as [_ (p' & -> & (Hv & _) & _)]. cbn. by rewrite Hv.
  - assert (length (e_parts s') = length (e_parts s)) as Hl by (vm_compute; reflexivity).
    apply lookup_ge_None in E. rewrite <- Hl in E. apply lookup_ge_None in E. by rewrite E.
Defined.

(** ** Ramps *)

Section ramps.
Context (pos : Z).

(** What [ramps_advance] does to the value and the ramp of one parameter. *)
Definition ramp_value (r : dev_ramp) (v : Z) : Z :=
  if rp_active r then match ramp_at r pos with Some (x, _) => x | None => v end else v.
Definition ramp_after (r : dev_ramp) : dev_ramp :=
  if rp_active r then match ramp_at r pos with Some (_, true) => ramp_stop r | _ => r end else r.

Definition ramped (p : part) (k : nat) (q : part) : Prop :=
  part_ok q /\ forall i, (i < NPARAMS g_params)%nat ->
    part_pget q i = (if (i <? k)%nat then ramp_value (nth i (p_ramps p) ramp_zero) (part_pget p i) else part_pget p i) /\
    nth i (p_ramps q) ramp_zero = (if (i <? k)%nat then ramp_after (nth i (p_ramps p) ramp_zero) else nth i (p_ramps p) ramp_zero).

Lemma ramp_step_ramped p k q : (k < NPARAMS g_params)%nat -> ramped p k q -> ramped p (S k) (ramp_step pos q k).
Proof.
  intros Hk [Hq HR]. pose proof (HR k Hk) as [Hv Hr]. rewrite Nat.ltb_irrefl in Hv, Hr.
  destruct Hq as [? ? Hlv Hlr ?]. unfold ramp_step. rewrite Hr.
  assert (forall q', part_ok q' -> (forall i, (i < NPARAMS g_params)%nat -> i <> k -> part_pget q' i = part_pget q i /\
      nth i (p_ramps q') ramp_zero = nth i (p_ramps q) ramp_zero) ->
    part_pget q' k = ramp_value (nth k (p_ramps p) ramp_zero) (part_pget p k) ->
    nth k (p_ramps q') ramp_zero = ramp_after (nth k (p_ramps p) ramp_zero) -> ramped p (S k) q') as Hmk.
  { intros q' Hq' Hne E1 E2. split; [done|]. intros i Hi. destruct (decide (i = k)) as [->|Hik].
    - rewrite (proj2 (Nat.ltb_lt k (S k))) by lia. done.
    - destruct (Hne i Hi Hik) as [-> ->]. destruct (HR i Hi) as [-> ->].
      destruct (Nat.ltb_spec i k), (Nat.ltb_spec i (S k)); done || lia. }
  assert (part_ok q) as Hq by done. unfold ramp_value, ramp_after in Hmk.
  destruct (rp_active (nth k (p_ramps p) ramp_zero)) eqn:Ea; cbn [negb]; [|apply Hmk; try done; congruence].
  destruct (ramp_at (nth k (p_ramps p) ramp_zero) pos) as [[x []]|] eqn:Er.
  - apply Hmk.
    + apply part_ok_ramps; [by apply part_ok_pput|apply length_alter].
    + intros i Hi Hne. unfold part_pget. cbn. by rewrite nth_insert_ne, nth_alter_ne by done.
    + unfold part_pget. cbn. apply nth_insert_eq. lia.
    + cbn. rewrite nth_alter_eq by lia. by rewrite Hr.
  - apply Hmk.
    + by apply part_ok_pput.
    + intros i Hi Hne. unfold part_pget. cbn. by rewrite nth_insert_ne by done.
    + unfold part_pget. cbn. apply nth_insert_eq. lia.
    + done.
  - apply Hmk; done || congruence.
Qed.

Lemma ramps_advance_at p i : part_ok p -> (i < NPARAMS g_params)%nat ->
  part_pget (ramps_advance pos p) i = ramp_value (nth i (p_ramps p) ramp_zero) (part_pget p i) /\
  nth i (p_ramps (ramps_advance pos p)) ramp_zero = ramp_after (nth i (p_ramps p) ramp_zero).
Proof.
  intros Hp Hi. unfold ramps_advance.
  assert (ramped p (NPARAMS g_params) (fold_left (ramp_step pos) (seq 0 (NPARAMS g_params)) p)) as [_ H].
  { apply (fold_seq_inv (ramped p)); [|intros k q; apply ramp_step_ramped].
    split; [done|]. intros j Hj. done. }
  revert H. generalize (fold_left (ramp_step pos) (seq 0 (NPARAMS g_params)) p). intros q H.
  destruct (H i Hi) as [H1 H2]. rewrite (proj2 (Nat.ltb_lt _ _) Hi) in H1, H2. split; [exact H1|exact H2].
Qed.
End ramps.

(** A parameter without an active ramp stays where it is. *)
Lemma ramps_advance_idle pos p i : part_ok p -> (i < NPARAMS g_params)%nat ->
  rp_active (nth i (p_ramps p) ramp_zero) = false ->
  part_pget (ramps_advance pos p) i = part_pget p i /\
  nth i (p_ramps (ramps_advance pos p)) ramp_zero = nth i (p_ramps p) ramp_zero.
Proof.
  intros Hp Hi Ha. destruct (ramps_advance_at pos p i Hp Hi) as [-> ->].
  unfold ramp_value, ramp_after. by rewrite Ha.
Qed.

Definition advance_all (ps : list Z) (p : part) : part := fold_left (fun p x => ramps_advance x p) ps p.

Lemma advance_all_ok ps p : part_ok p -> part_ok (advance_all ps p).
Proof. revert p. induction ps as [|x ps IH]; intros p Hp; [done|]. apply IH. by apply part_ok_ramps_advance. Qed.

Lemma advance_all_idle ps p i : part_ok p -> (i < NPARAMS g_params)%nat ->
  rp_active (nth i (p_ramps p) ramp_zero) = false ->
  part_pget (advance_all ps p) i = part_pget p i /\ rp_active (nth i (p_ramps (advance_all ps p)) ramp_zero) = false.
Proof.
  revert p. induction ps as [|x ps IH]; intros p Hp Hi Ha; [done|]. cbn [advance_all fold_left].
  destruct (ramps_advance_idle x p i Hp Hi Ha) as [E1 E2].
  destruct (IH (ramps_advance x p)) as [H1 H2]; [by apply part_ok_ramps_advance|done|by rewrite E2|].
  split; [|done]. unfold advance_all in H1. by rewrite H1.
Qed.

(** While its ramp runs, the ramp itself stays the same or has stopped at its target. *)
Definition ramping (e target : Z) (r : dev_ramp) (v : Z) : Prop :=
  (rp_active r = true /\ rp_end r = e /\ rp_target r = target) \/ (rp_active r = false /\ v = target).

Lemma ramping_advance pos e target p i : part_ok p -> (i < NPARAMS g_params)%nat ->
  ramping e target (nth i (p_ramps p) ramp_zero) (part_pget p i) ->
  ramping e target (nth i (p_ramps (ramps_advance pos p)) ramp_zero) (part_pget (ramps_advance pos p) i).
Proof.
  intros Hp Hi. destruct (ramps_advance_at pos p i Hp Hi) as [-> ->]. unfold ramp_value, ramp_after, ramping.
  intros [(Ha & He & Ht)|[Ha ->]]; rewrite Ha; [|by right].
  unfold ramp_at. rewrite He, Ht. repeat case_match; simplify_eq; auto.
Qed.

Lemma ramping_done pos e target p i : part_ok p -> (i < NPARAMS g_params)%nat -> e <= pos ->
  ramping e target (nth i (p_ramps p) ramp_zero) (part_pget p i) ->
  part_pget (ramps_advance pos p) i = target /\ rp_active (nth i (p_ramps (ramps_advance pos p)) ramp_zero) = false.
Proof.
  intros Hp Hi He. destruct (ramps_advance_at pos p i Hp Hi) as [-> ->]. unfold ramp_value, ramp_after.
  intros [(Ha & E & Ht)|[Ha ->]]; rewrite Ha; [|done]. unfold ramp_at. rewrite E, Ht, (proj2 (Z.leb_le _ _) He). done.
Qed.

Lemma ramping_all ps e target p i : part_ok p -> (i < NPARAMS g_params)%nat ->
  ramping e target (nth i (p_ramps p) ramp_zero) (part_pget p i) ->
  ramping e target (nth i (p_ramps (advance_all ps p)) ramp_zero) (part_pget (advance_all ps p) i).
Proof.
  revert p. induction ps as [|x ps IH]; intros p Hp Hi Hr; [done|]. cbn [advance_all fold_left].
  apply IH; [by apply part_ok_ramps_advance|done|by apply ramping_advance].
Qed.

(** The part an event with a whole-part address ends in. *)
Lemma part_event_lookup {FC : FpConv} pos ev s p (f : part -> part) :
  (ev_kd ev = DEV_EV_PARAM_SET /\ f = apply_param_set ev \/ ev_kd ev = DEV_EV_RAMP /\ f = apply_ramp pos ev) ->
  ev_voice ev = 0 -> e_parts s !! routed_to ev = Some p ->
  e_touch (apply_event pos ev s) = true /\ e_parts (apply_event pos ev s) !! routed_to ev = Some (f p) /\
  forall i, i <> routed_to ev -> e_parts (apply_event pos ev s) !! i = e_parts s !! i.
Proof.
  intros Hf Hv Hp. destruct (count_late_parts pos ev s) as [E1 E2]. unfold apply_event, routed, routed_to in *.
  destruct Hf as [[K ->]|[K ->]]; rewrite K, Hv; cbn [Z.eqb touch on_parts e_parts e_touch]; rewrite E1;
    (split_and!; [done| |intros i Hi; by rewrite list_lookup_alter_ne]);
    rewrite list_lookup_alter_eq, Hp; done.
Qed.

(** a whole-part set and a whole-part ramp do what they say.  A set of a
    known parameter stores the value in exactly that cell of exactly the routed
    part, cancels a ramp in flight there - however far the stream goes on, the
    value stays - and marks the state dirty.  A ramp leaves every value where it
    is when it starts; whatever positions the render visits in between, at the
    first one at or past its end the cell holds exactly the target, from then on
    it stays there, and cells without a ramp of their own never move. *)
Theorem param_events_exact {FC : FpConv} (pos : Z) (ev : dev_event) (s : engst) (p : part) (j : nat) :
  parts_ok (e_parts s) -> ev_voice ev = 0 -> param_index g_params (ev_a ev) = Some j ->
  e_parts s !! routed_to ev = Some p ->
  let s' := apply_event pos ev s in
  (ev_kd ev = DEV_EV_PARAM_SET \/ ev_kd ev = DEV_EV_RAMP -> e_touch s' = true /\
     forall i, i <> routed_to ev -> e_parts s' !! i = e_parts s !! i) /\
  (ev_kd ev = DEV_EV_PARAM_SET -> exists p', e_parts s' !! routed_to ev = Some p' /\
     (forall k, k <> j -> part_pget p' k = part_pget p k) /\
     forall ps, part_pget (advance_all ps p') j = ev_v ev) /\
  (ev_kd ev = DEV_EV_RAMP -> exists p', e_parts s' !! routed_to ev = Some p' /\ p_pval p' = p_pval p /\
     forall ps pos' ps', ev_end ev <= pos' ->
       part_pget (advance_all ps' (ramps_advance pos' (advance_all ps p'))) j = ev_v ev /\
       forall k, k <> j -> (k < NPARAMS g_params)%nat -> rp_active (nth k (p_ramps p) ramp_zero) = false ->
         part_pget (advance_all ps' (ramps_advance pos' (advance_all ps p'))) k = part_pget p k).
Proof.
  intros Hs Hv Hj Hp s'. pose proof (param_index_lt _ _ Hj) as Hlt.
  assert (part_ok p) as Hok.
  { destruct Hs as [_ Hs]. rewrite List.Forall_forall in Hs. apply Hs, list_elem_of_In. by eapply list_elem_of_lookup_2. }
  pose proof Hok as [_ _ Hlv Hlr _]. split_and!.
  - intros [K|K].
    + destruct (part_event_lookup pos ev s p (apply_param_set ev) ltac:(auto) Hv Hp) as (H1 & _ & H3). done.
    + destruct (part_event_lookup pos ev s p (apply_ramp pos ev) ltac:(auto) Hv Hp) as (H1 & _ & H3). done.
  - intros K. destruct (part_event_lookup pos ev s p (apply_param_set ev) ltac:(auto) Hv Hp) as (_ & H2 & _).
    exists (apply_param_set ev p). split; [done|]. pose proof (part_ok_param_set ev p Hok) as Hok'.
    unfold apply_param_set in *. rewrite Hj, Hv in *. cbn [Z.eqb negb] in *. split.
    + intros k Hk. unfold part_pget. cbn. by rewrite nth_insert_ne.
    + intros ps. destruct (advance_all_idle ps _ j Hok' Hlt) as [-> _].
      * cbn. rewrite nth_alter_eq by lia. done.
      * unfold part_pget. cbn. apply nth_insert_eq. lia.
  - intros K. destruct (part_event_lookup pos ev s p (apply_ramp pos ev) ltac:(auto) Hv Hp) as (_ & H2 & _).
    exists (apply_ramp pos ev p). split; [done|]. pose proof (part_ok_ramp_ev pos ev p Hok) as Hok'.
    unfold apply_ramp in *. rewrite Hj, Hv in *. cbn [Z.eqb negb] in *. split; [done|]. intros ps pos' ps' Hend.
    set (p' := set_ramps _ p) in *. pose proof (advance_all_ok ps p' Hok') as Hq.
    assert (part_ok (ramps_advance pos' (advance_all ps p'))) as Hq2 by (by apply part_ok_ramps_advance).
    split.
    + destruct (ramping_done pos' (ev_end ev) (ev_v ev) (advance_all ps p') j Hq Hlt Hend) as [E1 E2].
      * apply ramping_all; [done|done|]. left. unfold p'. cbn. rewrite nth_insert_eq by lia. done.
      * by destruct (advance_all_idle ps' _ j Hq2 Hlt E2) as [-> _].
    + intros k Hne Hk Ha. assert (rp_active (nth k (p_ramps p') ramp_zero) = false) as Ha' by (unfold p'; cbn; by rewrite nth_insert_ne).
      destruct (advance_all_idle ps p' k Hok' Hk Ha') as [E1 E2].
      destruct (advance_all_idle [pos'] (advance_all ps p') k Hq Hk E2) as [E3 E4].
      destruct (advance_all_idle ps' _ k Hq2 Hk E4) as [-> _].
      change (ramps_advance pos' (advance_all ps p')) with (advance_all [pos'] (advance_all ps p')). rewrite E3, E1. done.
Qed.

(** A ramp of parameter 3 on part 5 from position 100 to 200, visited at 150, is
    at its target at 256 and later. *)
Lemma param_events_exact_witness :
  let FC := (fun _ => 0) : FpConv in
  let ev := mk_event 100 DEV_EV_RAMP 3 F32_ONE 200 0 5 0 in
  let s' := @apply_event FC 100 ev eng_init in
  exists p', e_parts s' !! 5%nat = Some p' /\ e_touch s' = true /\
    part_pget (advance_all [300] (ramps_advance 256 (advance_all [100; 150] p'))) 2 = F32_ONE /\
    part_pget (advance_all [300] (ramps_advance 256 (advance_all [100; 150] p'))) 3 = part_pget part_init 3.
Proof.
  intros FC ev s'.
  destruct (@param_events_exact FC 100 ev eng_init part_init 2 parts_ok_init eq_refl eq_refl eq_refl) as (H1 & _ & H3).
  destruct (H3 eq_refl) as (p' & Hp & _ & H). exists p'. split; [exact Hp|].
  split; [exact (proj1 (H1 (or_intror eq_refl)))|].
  destruct (H [100; 150] 256 [300] ltac:(vm_compute; discriminate)) as [H4 H5]. split; [exact H4|].
  apply H5; [discriminate|vm_compute; lia|vm_compute; reflexivity].
Defined.

(** ** Notes *)

Lemma voice_alloc_spec p : length (p_voices p) = NVOICES ->
  exists v, p_voices p !! voice_alloc p = Some v /\
    ((v_active v = false /\ forall k u, (k < voice_alloc p)%nat -> p_voices p !! k = Some u -> v_active u = true) \/
     (forall k u, p_voices p !! k = Some u -> v_active u = true /\ v_alloc_seq v <= v_alloc_seq u)).
Proof.
  intros Hl. unfold voice_alloc, harp_voice_pick.
  assert (forall k u, p_voices p !! k = Some u -> nth k (map v_active (p_voices p)) false = v_active u /\
    nth k (map v_alloc_seq (p_voices p)) 0 = v_alloc_seq u) as Hn.
  { intros k u Hk. rewrite !nth_lookup, !map_lookup, Hk. done. }
  pose proof (free_loop_spec (map v_active (p_voices p)) NVOICES 0) as Hf. destruct (free_loop _ _ _) as [j|].
  - destruct Hf as (H1 & H2 & H3). destruct (lookup_lt_is_Some_2 (p_voices p) j ltac:(lia)) as [v Hv].
    exists v. split; [done|]. left. split; [by rewrite <- (proj1 (Hn j v Hv))|].
    intros k u Hk Hu. rewrite <- (proj1 (Hn k u Hu)). apply H3. lia.
  - destruct (oldest_loop_spec (map v_alloc_seq (p_voices p)) (NVOICES - 1) 1 0) as [H1 H2].
    { split; [lia|]. intros l Hlt. assert (l = 0%nat) as -> by lia. cbn. lia. }
    set (o := oldest_loop _ _ _ _) in *. unfold NVOICES in *. cbn [Nat.sub Nat.add] in H1, H2.
    destruct (lookup_lt_is_Some_2 (p_voices p) o ltac:(lia)) as [v Hv].
    exists v. split; [done|]. right. intros k u Hk. pose proof (lookup_lt_Some _ _ _ Hk) as Hlt.
    rewrite <- (proj1 (Hn k u Hk)), <- (proj2 (Hn k u Hk)), <- (proj2 (Hn o v Hv)). split; [apply Hf; lia|].
    specialize (H2 k ltac:(lia)). destruct (_ <? _)%nat; lia.
Qed.

(** the life of a note.  A note-on takes exactly one voice - a free one if
    there is one, else the one allocated first - which then holds the note, its
    velocity and address, with a fresh attack, no modulation and its oscillator
    and filter state kept; every other voice is as before.  The matching note-off
    leaves no sounding voice on that note, changes no voice that sounds another
    one, and no voice is taken from the pool by it: it rings out. *)
Theorem note_lifecycle (note vel vid : Z) (p : part) :
  part_ok p ->
  let p1 := voice_note_on note vel vid p in
  let p2 := voice_note_off note p1 in
  exists i v v1, p_voices p !! i = Some v /\ p_voices p1 !! i = Some v1 /\
    (v_active v = false \/ forall k u, p_voices p !! k = Some u -> v_active u = true /\ v_alloc_seq v <= v_alloc_seq u) /\
    (v_note v1 = note /\ v_note_vel v1 = vel /\ v_voice_id v1 = vid /\ v_active v1 = true /\
     v_alloc_seq v1 = p_alloc_clock p /\ v_note_seq v1 = u32 (v_note_seq v + 1) /\ v_has_mod v1 = false /\
     Forall (fun x => x = 0) (v_mod v1) /\ rp_active (v_vramp v1) = false /\ v_dsp v1 = v_dsp v) /\
    (forall k, k <> i -> p_voices p1 !! k = p_voices p !! k) /\
    (forall k u, p_voices p2 !! k = Some u -> v_active u = true -> note <> -1 -> v_note u <> note) /\
    (forall k u, p_voices p1 !! k = Some u -> exists u', p_voices p2 !! k = Some u' /\ v_active u' = v_active u /\
       v_dsp u' = v_dsp u /\ (v_note u <> note -> u' = u)).
Proof.
  intros Hp p1 p2. destruct (voice_alloc_spec p (po_nvoices p Hp)) as (v & Hv & Hpick).
  exists (voice_alloc p), v, (voice_start note vel vid (p_alloc_clock p) v). split_and!; try done.
  - unfold p1, voice_note_on. cbn. by rewrite list_lookup_alter_eq, Hv.
  - destruct Hpick as [[? _]|?]; [by left|by right].
  - cbn. apply Forall_forall. intros x Hx%list_elem_of_In. apply in_map_iff in Hx as (? & <- & _). done.
  - intros k Hk. unfold p1, voice_note_on. cbn. by rewrite list_lookup_alter_ne.
  - intros k u Hk Ha Hn. unfold p2, voice_note_off in Hk. cbn in Hk. rewrite map_lookup in Hk.
    destruct (_ !! k) as [w|]; [|done]. cbn in Hk. injection Hk as <-. unfold release in *.
    destruct (v_active w) eqn:Ew; cbn [andb] in *; [|congruence].
    destruct (Z.eqb_spec (v_note w) note); [cbn; congruence|done].
  - intros k u Hk. unfold p2, voice_note_off. cbn [set_voices p_voices]. rewrite map_lookup, Hk. cbn.
    eexists. split; [done|]. unfold release. destruct (v_active u) eqn:Eu; cbn [andb]; [|done].
    destruct (Z.eqb_spec (v_note u) note); done.
Qed.

Lemma note_lifecycle_witness :
  let p := voice_note_on 64 F32_ONE 64 (voice_note_on 60 F32_ONE 60 part_init) in
  let p1 := voice_note_on 67 F32_ONE 67 p in
  map (fun v => (v_note v, v_active v)) (take 4 (p_voices (voice_note_off 67 p1))) =
    [(60, true); (64, true); (-1, true); (-1, false)] /\
  exists i v1, p_voices p1 !! i = Some v1 /\ v_note v1 = 67 /\ (forall k, k <> i -> p_voices p1 !! k = p_voices p !! k).
Proof.
  intros p p1. split; [vm_compute; reflexivity|].
  assert (part_ok p) as Hp.
  { apply part_ok_note_on, part_ok_note_on. destruct parts_ok_init as [_ H]. rewrite List.Forall_forall in H. apply H. by left. }
  destruct (note_lifecycle 67 F32_ONE 67 p Hp) as (i & v & v1 & _ & H1 & _ & (H2 & _) & H3 & _).
  exists i, v1. exact (conj H1 (conj H2 H3)).
Defined.

(** ** Silence *)

Definition quiet (p : part) : Prop := forall v, v ∈ p_voices p -> v_active v = false /\ v_note v = -1.

Lemma quiet_free p : quiet (set_voices (map voice_free) p).
Proof. intros v Hv%list_elem_of_In. cbn in Hv. apply in_map_iff in Hv as (u & <- & _). done. Qed.

Lemma voice_off_arp p : p_arp (arp_voice_off p) = arp_quiet (p_arp p).
Proof. unfold arp_voice_off. by case_match. Qed.

(** panic works.  An all-notes-off event leaves every part without an active
    voice, an arpeggiator without latched or sounding note; a panic signalled from
    another thread takes effect when the render thread next services the part,
    whatever else was signalled before it; and after a stream restart nothing of
    the old stream sounds, is latched, is pending or ramps, while the parameter
    values are kept. *)
Theorem panic_silences {FC : FpConv} (pos : Z) (ev : dev_event) (s : engst) (notes : list Z) :
  (ev_kd ev = DEV_EV_ALL_OFF -> forall p, p ∈ e_parts (apply_event pos ev s) ->
     quiet p /\ ar_latch (p_arp p) = [] /\ ar_sounding (p_arp p) = -1 /\ ar_gate_off (p_arp p) = 0) /\
  (forall p, p ∈ map panic_service (engine_all_notes_off (fold_left (fun ps n => engine_note_off_if n ps) notes (e_parts s))) ->
     quiet p /\ p_panic_note p = PANIC_NONE) /\
  (forall p, p ∈ map part_new_stream (e_parts s) ->
     ar_latch (p_arp p) = [] /\ ar_sounding (p_arp p) = -1 /\ ar_anchor_valid (p_arp p) = false /\
     p_panic_note p = PANIC_NONE /\ Forall (fun r => rp_active r = false) (p_ramps p) /\
     (forall v, v ∈ p_voices p -> v_active v = false)) /\
  pvals (map part_new_stream (e_parts s)) = pvals (e_parts s).
Proof.
  assert (forall q, p_voices (arp_voice_off q) = p_voices q \/ exists f, p_voices (arp_voice_off q) = alter f 0%nat (p_voices q) /\
    forall v, v_active (f v) = v_active v) as Hoff.
  { intros q. unfold arp_voice_off. case_match; [right|by left]. eexists. split; [done|]. intros v. cbn. by case_match. }
  split_and!.
  - intros K p. destruct (count_late_parts pos ev s) as [E _]. unfold apply_event. rewrite K. cbn [on_parts e_parts]. rewrite E.
    intros (q & -> & _)%list_elem_of_fmap. split; [apply quiet_free|]. unfold apply_all_off. cbn [set_voices p_arp].
    unfold arp_reset. by rewrite voice_off_arp.
  - intros p (q & -> & (r & -> & _)%list_elem_of_fmap)%list_elem_of_fmap. unfold panic_service. cbn.
    split; [apply quiet_free|done].
  - intros p (q & -> & _)%list_elem_of_fmap. unfold part_new_stream, arp_stream_reset, arp_reset.
    set (q1 := set_arp _ (set_ramps _ _)). cbn [set_arp p_arp p_panic_note p_ramps p_voices]. rewrite voice_off_arp.
    split_and!; try done.
    + unfold arp_voice_off. by case_match.
    + assert (p_ramps (arp_voice_off q1) = map (fun _ => ramp_zero) (p_ramps q)) as -> by (unfold arp_voice_off; by case_match).
      apply Forall_forall. intros r (? & -> & _)%list_elem_of_fmap. done.
    + intros v Hv. destruct (Hoff q1) as [E|(f & E & Hf)]; rewrite E in Hv.
      * by apply (quiet_free q).
      * apply list_elem_of_lookup_1 in Hv as [k Hk]. destruct (decide (k = 0%nat)) as [->|Hne].
        -- rewrite list_lookup_alter_eq in Hk. destruct (p_voices q1 !! 0%nat) as [u|] eqn:Eu; [|done].
           injection Hk as <-. rewrite Hf. apply list_elem_of_lookup_2 in Eu. by apply (quiet_free q).
        -- rewrite list_lookup_alter_ne in Hk by done. apply list_elem_of_lookup_2 in Hk. by apply (quiet_free q).
  - unfold pvals. rewrite map_map. apply map_ext. intros q. unfold part_new_stream, arp_stream_reset, arp_reset, arp_voice_off.
    cbn. by case_match.
Qed.

Lemma panic_silences_witness :
  let FC := (fun _ => 0) : FpConv in
  let s := @apply_event FC 0 (mk_event 0 DEV_EV_NOTE_ON 60 F32_ONE 0 0 3 0) eng_init in
  let ev := mk_event 0 DEV_EV_ALL_OFF 0 0 0 0 0 0 in
  existsb (fun p => existsb v_active (p_voices p)) (e_parts s) = true /\
  forall p, p ∈ e_parts (@apply_event FC 9 ev s) -> quiet p /\ ar_latch (p_arp p) = [].
Proof.
  intros FC s ev. split; [vm_compute; reflexivity|]. intros p Hp.
  destruct (proj1 (@panic_silences FC 9 ev s []) eq_refl p Hp) as (H1 & H2 & _). exact (conj H1 H2).
Defined.

(** ** Defects found in the arpeggiator *)

Definition F64_INF : Z := 0x7ff0000000000000.
Definition F32_INF : Z := 0x7f800000.

Section tempo.
Context {FC : FpConv} (div_oob : Z -> Z).

Lemma div_by_inf x : f64_div x F64_INF ∈ [0; 2 ^ 63; f64_qnan].
Proof.
  unfold f64_div, fmt_div. change (fmt_sf 52 11 F64_INF) with (S754_infinity false).
  rewrite !elem_of_cons. destruct (fmt_sf 52 11 x) as [[]|[]| |[] m e]; cbn [SFdiv xorb];
    solve [left; vm_compute; reflexivity | right; left; vm_compute; reflexivity | right; right; left; vm_compute; reflexivity].
Qed.

Lemma ssi_at_inf a ppq rate : ar_tempo a = F64_INF -> ar_anchor_ssi a = 0 -> fp_out_of_range f64_qnan = 0 ->
  arp_ssi_at a ppq rate = 0.
Proof.
  intros Ht Ha Hn. unfold arp_ssi_at. rewrite Ht, Ha. pose proof (div_by_inf (f64_mul (f64_mul (f64_sub ppq (ar_anchor_ppq a)) (f64_of_Z 60)) rate)) as Hd.
  rewrite !elem_of_cons in Hd. destruct Hd as [-> |[-> |[-> |Hd%not_elem_of_nil]]]; [vm_compute; reflexivity..| |done].
  assert (f64_add (f64_of_Z 0) f64_qnan = f64_qnan) as -> by (vm_compute; reflexivity).
  assert (f64_le f64_qnan 0 = false) as -> by (vm_compute; reflexivity).
  assert (f64_add f64_qnan (f64_ratio 1 2) = f64_qnan) as -> by (vm_compute; reflexivity).
  unfold f64_to_u64, to_int_range. assert (fmt_trunc 52 11 f64_qnan = None) as -> by (vm_compute; reflexivity). done.
Qed.

Lemma step_loop_inf fuel a after div rate k bssi : ar_tempo a = F64_INF -> ar_anchor_ssi a = 0 ->
  fp_out_of_range f64_qnan = 0 -> 0 <= after -> bssi = 0 -> step_loop fuel a after div rate k bssi = None.
Proof.
  intros Ht Ha Hn Hafter. revert k bssi. induction fuel as [|fuel IH]; intros k bssi ->; cbn [step_loop];
    rewrite (proj2 (Z.ltb_ge _ _)) by lia; [done|]. apply IH. by apply ssi_at_inf.
Qed.

(** C36: the host can hang the render thread.  The tempo of a transport event is
    not validated: with an infinite one, anchored at the start of the stream, the
    search for the next step never ends - no number of turns of its loop is
    enough - so a part with an engaged arpeggiator, a held note and no gate
    pending never gets past [arp_fire_due].  (On a target that converts NaN to 0, as
    AArch64 does; the conversion is undefined in C.) *)
Theorem arp_infinite_tempo_hangs (ev : dev_event) (p p' : part) (pos rate : Z) :
  fp_out_of_range f64_qnan = 0 ->
  ev_kd ev = DEV_EV_TRANSPORT -> ev_v ev = F32_INF -> ev_ts ev = 0 ->
  Z.testbit (ev_a ev) 0 = true -> Z.testbit (ev_a ev) 3 = true -> Z.testbit (ev_a ev) 5 = true ->
  p' = apply_transport 0 ev p -> arp_active p' = true -> ar_latch (p_arp p') <> [] -> 0 < pos ->
  ar_gate_off (p_arp p') = 0 ->
  forall fuel, arp_fire_due div_oob fuel pos rate p' = None.
Proof.
  intros Hn _ Hv Hts H0 H3 H5 -> Hact Hlatch Hpos Hgate fuel.
  assert (exists s, p_arp (apply_transport 0 ev p) =
    mk_arp true true F64_INF (ev_ppq ev) 0 (ar_latch (p_arp p)) (ar_vel (p_arp p)) s
      (ar_sounding (p_arp p)) (ar_gate_off (p_arp p))) as (s & Es).
  { unfold apply_transport. rewrite H0, H3, H5, Hv, Hts. cbn [Z.eqb negb andb].
    assert (f32_to_f64 F32_INF = F64_INF) as -> by (vm_compute; reflexivity). destruct (ar_playing (p_arp p)); cbn; eauto. }
  unfold arp_fire_due. rewrite Hact, Hgate. cbn [negb Z.eqb andb].
  assert (arp_stopped (p_arp (apply_transport 0 ev p)) = false) as -> by (rewrite Es; vm_compute; reflexivity).
  destruct (ar_latch (p_arp (apply_transport 0 ev p))) as [|x l] eqn:El; [done|]. cbn [length Nat.eqb orb].
  rewrite (proj2 (Z.eqb_neq pos 0)) by lia. cbn [orb].
  unfold arp_next_step_ssi. rewrite step_loop_inf; [done|by rewrite Es|by rewrite Es|done|lia|].
  apply ssi_at_inf; [by rewrite Es|by rewrite Es|done].
Qed.
End tempo.

Lemma arp_infinite_tempo_hangs_witness :
  let FC := (fun _ => 0) : FpConv in
  let ev := mk_event 0 DEV_EV_TRANSPORT 41 F32_INF 0 0 0 0 in
  let p0 := part_pput 7 (f64_to_f32 (f64_ratio 1 2)) (@apply_note_on FC (mk_event 0 DEV_EV_NOTE_ON 60 F32_ONE 0 0 0 0) part_init) in
  arp_active (@apply_transport 0 ev p0) = true /\
  @arp_fire_due FC (fun _ => 0) 1000 64 (f64_of_Z 48000) (@apply_transport 0 ev p0) = None.
Proof.
  intros FC ev p0. split; [vm_compute; reflexivity|].
  apply (@arp_infinite_tempo_hangs FC (fun _ => 0) ev p0 (@apply_transport 0 ev p0));
    try reflexivity; vm_compute; discriminate.
Defined.

(** A stored value is not clamped when a snapshot is loaded, and the step of a
    stepped parameter is not bounded below: -1 in "Arp Division" indexes the
    division table at -6. *)
Lemma step_index_negative : forall (FC : FpConv) p,
  part_pget p 8 = 0xbf800000 -> @param_step_index FC p 9 = -6.
Proof. intros FC p Hp. unfold param_step_index. change (param_index g_params 9) with (Some 8%nat). cbv beta iota zeta. rewrite Hp. vm_compute. reflexivity. Qed.

Lemma blob_stores_negative :
  let doc := PerPart [(0, [(9, f32_to_f64 0xbf800000)])] in
  cell (gs_v (refdev_parse_params_blob g_params (enc_doc doc) demo_gs).2) 0 8 = 0xbf800000.
Proof. vm_compute. reflexivity. Qed.
