(* ===== verification/Render.v ===== *)
(** * Rendering

    engine.c: the voice's signal processing, the summation of a part's voices,
    the segmentation of a block at event and arpeggiator deadlines, the main mix
    and the per-part outputs, and the meters.  Samples are [float] bit patterns;
    [expf], [exp2f], [sinf] and [sin] are the C library's, inputs of the model. *)
From Stdlib Require Import ZArith Lia List Bool.
From stdpp Require Import base list.
From S2P Require Import Prelude CborFloat Params Evq Ieee Parts.
Open Scope Z_scope.
Open Scope list_scope.

Class Libm := { expf : Z -> Z; exp2f : Z -> Z; sinf : Z -> Z; sin64 : Z -> Z }.

Definition SMOOTH_SUBBLOCK : nat := 32.
Definition AUDIO_MAX_NSAMPLES : Z := 1024.

(** The [float] nearest to [a / b]: a decimal literal. *)
Definition f32_ratio (a b : Z) : Z := f32_div (f32_of_Z a) (f32_of_Z b).
(** [(float)M_PI] *)
Definition F32_PI : Z := 0x40490fdb.

Section render.
Context {FC : FpConv} {L : Libm} (div_oob : Z -> Z).

(** [x += a * (t - x)] *)
Definition one_pole (a t x : Z) : Z := f32_add x (f32_mul a (f32_sub t x)).

(** [1.0f - expf(-(float)SMOOTH_SUBBLOCK / d)] *)
Definition smooth_alpha (d : Z) : Z :=
  f32_sub F32_ONE (expf (f32_div (f32_opp (f32_of_Z (Z.of_nat SMOOTH_SUBBLOCK))) d)).

Definition set_dsp (f : voice_dsp -> voice_dsp) (v : synth_voice) : synth_voice :=
  mk_voice (v_note v) (v_note_vel v) (v_note_seq v) (v_voice_id v) (v_alloc_seq v) (v_active v) (v_mod v) (v_has_mod v)
    (v_bend_semis v) (v_z_gain v) (v_vramp v) (v_vramp_idx v) (f (v_dsp v)).

(** The first block lands on the targets. *)
Definition dsp_first (p : part) (v : synth_voice) (d : voice_dsp) : voice_dsp :=
  if s_init d then d
  else mk_dsp (VP p v 1) (VP p v 2) (VP p v 3) (VP p v 4) (VP p v 7) true
         (n_phase_l d) (n_phase_r d) (n_low_l d) (n_band_l d) (n_low_r d) (n_band_r d)
         (f32_of_Z 220) (env d) (env_reset d) (seen_seq d).

(** The control-rate part of a sub-block: smoothed parameters, retrigger, pitch
    and envelope. *)
Definition dsp_smooth (p : part) (v : synth_voice) (alpha : Z) (d : voice_dsp) : voice_dsp :=
  mk_dsp (one_pole alpha (VP p v 1) (s_pitch d)) (one_pole alpha (VP p v 2) (s_shape d))
    (one_pole alpha (VP p v 3) (s_cutoff d)) (one_pole alpha (VP p v 4) (s_reso d))
    (one_pole alpha (VP p v 7) (s_master d)) (s_init d)
    (n_phase_l d) (n_phase_r d) (n_low_l d) (n_band_l d) (n_low_r d) (n_band_r d)
    (n_freq d) (env d) (env_reset d) (seen_seq d).

Definition note_freq (v : synth_voice) : Z :=
  let n := f32_of_Z (v_note v) in
  let x := if f32_feq (v_bend_semis v) 0 then f32_sub n (f32_of_Z 69)
           else f32_sub (f32_add n (v_bend_semis v)) (f32_of_Z 69) in
  f32_mul (f32_of_Z 440) (exp2f (f32_div x (f32_of_Z 12))).

Definition dsp_pitch (p : part) (v : synth_voice) (rate : Z) (retrig : bool) (d : voice_dsp) : Z :=
  let target := note_freq v in
  let glide := VP p v 12 in
  if f32_le glide (f32_ratio 1 1000) || (retrig && f32_lt (env d) (f32_ratio 2 10)) then target
  else
    let tau := f32_mul (f32_ratio 1 1000) (exp2f (f32_mul glide (f32_of_Z 9))) in
    one_pole (smooth_alpha (f32_mul tau rate)) target (n_freq d).

Definition dsp_env (p : part) (v : synth_voice) (rate : Z) (d : voice_dsp) : Z * Z :=
  let gate := 0 <=? v_note v in
  let atk_tau := f32_mul (f32_ratio 1 1000) (exp2f (f32_mul (VP p v 5) (f32_of_Z 10))) in
  let rel_tau := f32_mul (f32_ratio 5 1000) (exp2f (f32_mul (VP p v 6) (f32_ratio 92 10))) in
  if negb (env_reset d =? 0) then (f32_mul (env d) (f32_ratio 1 4), env_reset d - 1)
  else
    let target := if gate then v_note_vel v else 0 in
    let target := if gate && negb (f32_feq (v_z_gain v) 0) then f32_mul (v_note_vel v) (f32_add F32_ONE (v_z_gain v)) else target in
    (one_pole (smooth_alpha (f32_mul (if gate then atk_tau else rel_tau) rate)) target (env d), env_reset d).

Definition dsp_control (p : part) (v : synth_voice) (rate alpha : Z) : voice_dsp :=
  let d := dsp_smooth p v alpha (v_dsp v) in
  let retrig := negb (seen_seq d =? v_note_seq v) in
  let reset := if retrig && f32_lt (f32_ratio 7 100) (env d) then 2 else env_reset d in
  let d := mk_dsp (s_pitch d) (s_shape d) (s_cutoff d) (s_reso d) (s_master d) (s_init d)
    (n_phase_l d) (n_phase_r d) (n_low_l d) (n_band_l d) (n_low_r d) (n_band_r d) (n_freq d) (env d) reset (v_note_seq v) in
  let freq := if 0 <=? v_note v then dsp_pitch p v rate retrig d else n_freq d in
  let '(e, reset) := dsp_env p v rate d in
  mk_dsp (s_pitch d) (s_shape d) (s_cutoff d) (s_reso d) (s_master d) (s_init d)
    (n_phase_l d) (n_phase_r d) (n_low_l d) (n_band_l d) (n_low_r d) (n_band_r d) freq e reset (seen_seq d).

(** One channel's oscillator and filter step: phase, low, band. *)
Definition osc_step (freq rate f q shape phase low band : Z) : Z * Z * Z :=
  let phase := f32_add phase (f32_div freq rate) in
  let phase := if f32_le F32_ONE phase then f32_sub phase F32_ONE else phase in
  let two := f32_of_Z 2 in
  let osc := sinf (f32_mul (f32_mul two F32_PI) phase) in
  let osc := f32_add osc (f32_mul (f32_sub (f32_sub (f32_mul two phase) F32_ONE) osc) shape) in
  let low := f32_add low (f32_mul f band) in
  let high := f32_sub (f32_sub osc low) (f32_mul q band) in
  (phase, low, f32_add band (f32_mul f high)).

Definition dsp_sample (rate f q : Z) (d : voice_dsp) : voice_dsp * (Z * Z) :=
  let '(pl, ll, bl) := osc_step (n_freq d) rate f q (s_shape d) (n_phase_l d) (n_low_l d) (n_band_l d) in
  let '(pr, lr, br) := osc_step (f32_mul (n_freq d) (f32_ratio 1004 1000)) rate f q (s_shape d) (n_phase_r d) (n_low_r d) (n_band_r d) in
  let half := f32_ratio 1 2 in
  (mk_dsp (s_pitch d) (s_shape d) (s_cutoff d) (s_reso d) (s_master d) (s_init d) pl pr ll bl lr br
     (n_freq d) (env d) (env_reset d) (seen_seq d),
   (f32_mul (f32_mul (f32_mul ll (env d)) (s_master d)) half, f32_mul (f32_mul (f32_mul lr (env d)) (s_master d)) half)).

(** Samples [i .. i + k - 1] of the interleaved buffer. *)
Definition put_sample (accumulate : bool) (i : nat) (s : Z * Z) (out : list Z) : list Z :=
  if accumulate
  then <[(2 * i + 1)%nat := f32_add (nth (2 * i + 1) out 0) s.2]> (<[(2 * i)%nat := f32_add (nth (2 * i) out 0) s.1]> out)
  else <[(2 * i + 1)%nat := s.2]> (<[(2 * i)%nat := s.1]> out).

Fixpoint sample_loop (k i : nat) (rate f q : Z) (accumulate : bool) (d : voice_dsp) (out : list Z) : voice_dsp * list Z :=
  match k with
  | O => (d, out)
  | S k =>
      let '(d, s) := dsp_sample rate f q d in
      sample_loop k (S i) rate f q accumulate d (put_sample accumulate i s out)
  end.

Definition with_voice (vi : nat) (f : synth_voice -> synth_voice) (p : part) : part :=
  set_voices (fun vs => alter f vi vs) p.
Definition voice_at (vi : nat) (p : part) : synth_voice := nth vi (p_voices p) voice_zero.

(** [while (i < n)]: one sub-block per turn. *)
Fixpoint subblocks (fuel : nat) (vi i n : nat) (rate alpha pos : Z) (accumulate : bool) (p : part) (out : list Z) : part * list Z :=
  match fuel with
  | O => (p, out)
  | S fuel =>
      if (i <? n)%nat then
        let e := if (n <? i + SMOOTH_SUBBLOCK)%nat then n else (i + SMOOTH_SUBBLOCK)%nat in
        let p := ramps_advance (u64 (pos + Z.of_nat i)) p in
        let d := dsp_control p (voice_at vi p) rate alpha in
        let fc := f32_mul (f32_of_Z 60) (exp2f (f32_mul (s_cutoff d) (f32_of_Z 6))) in
        let f := f32_mul (f32_of_Z 2) (sinf (f32_div (f32_mul F32_PI fc) rate)) in
        let q := f32_sub F32_ONE (f32_mul (f32_ratio 9 10) (s_reso d)) in
        let '(d, out) := sample_loop (e - i) i rate f q accumulate d out in
        subblocks fuel vi e n rate alpha pos accumulate (with_voice vi (set_dsp (fun _ => d)) p) out
      else (p, out)
  end.

Definition engine_render (vi n : nat) (rate pos : Z) (accumulate : bool) (p : part) (out : list Z) : part * list Z :=
  let v := voice_at vi p in
  let p := with_voice vi (set_dsp (dsp_first p v)) p in
  let alpha := smooth_alpha (f32_mul (f32_ratio 12 1000) rate) in
  subblocks n vi 0 n rate alpha pos accumulate p out.

(** [render_part_voices]: the loop over the pool, then silence for an unwritten
    first writer. *)
Definition render_voice (n : nat) (rate pos : Z) (accumulate : bool) (st : part * list Z * bool) (vi : nat) : part * list Z * bool :=
  let '(p, out, wrote) := st in
  if negb (v_active (voice_at vi p)) then st
  else
    let '(p, out) := engine_render vi n rate pos (if wrote : bool then true else accumulate) p out in
    let v := voice_at vi p in
    let idle := v_active v && (v_note v <? 0) && f32_le (env (v_dsp v)) VOICE_IDLE_THRESH in
    ((if idle then with_voice vi (fun v =>
        mk_voice (v_note v) (v_note_vel v) (v_note_seq v) (v_voice_id v) (v_alloc_seq v) false (v_mod v) (v_has_mod v)
          (v_bend_semis v) (v_z_gain v) (v_vramp v) (v_vramp_idx v) (v_dsp v)) p else p), out, true).

Definition render_part_voices (n : nat) (rate pos : Z) (accumulate : bool) (p : part) (out : list Z) : part * list Z :=
  let '(p, out, wrote) := fold_left (render_voice n rate pos accumulate) (seq 0 NVOICES) (p, out, false) in
  (p, if negb wrote && negb accumulate then repeat 0 (2 * n) else out).

(** ** Segments

    The loop shared by [render_with_events] and [render_part_slots]: apply what
    is due, serve the parts, cut the segment at the next deadline, render it.
    [service] is the panic and arpeggiator pass over the parts at a position,
    with the earliest arpeggiator deadline; [emit] renders [seg] samples from
    [done] on. *)
(** The minimum of the non-zero deadlines. *)
Definition min_deadline (next anext : Z) : Z :=
  if negb (anext =? 0) && ((next =? 0) || (anext <? next)) then anext else next.

(** The length of the segment at [at_pos], [left] samples before the block's end. *)
Definition seg_len (next at_pos : Z) (left : nat) : nat :=
  let seg := if negb (next =? 0) then u32 (next - at_pos) else Z.of_nat left in
  let seg := if seg =? 0 then 1 else seg in
  Z.to_nat (if Z.of_nat left <? seg then Z.of_nat left else seg).

Section segments.
Context {St : Type} (apply : Z -> dev_event -> St -> St) (service : Z -> St -> option (Z * St))
  (emit : nat -> nat -> St -> St).

Fixpoint seg_loop (fuel : nat) (pos : Z) (n done : nat) (q : evq) (st : St) : option (evq * St) :=
  if (done <? n)%nat then
    match fuel with
    | O => None
    | S fuel =>
        let at_pos := u64 (pos + Z.of_nat done) in
        let '(next, q, st) := evq_apply_due apply at_pos (u64 (pos + Z.of_nat n)) q st in
        '(anext, st) ← service at_pos st;
        let seg := seg_len (min_deadline next anext) at_pos (n - done) in
        seg_loop fuel pos n (done + seg) q (emit done seg st)
    end
  else Some (q, st).
End segments.

(** ** Meters *)

Record meter_acc := mk_acc { ma_peak : Z; ma_sumsq : Z; ma_nsamp : Z }.
Definition acc_zero : meter_acc := mk_acc 0 0 0.

Definition meter_fold_sample (acc : meter_acc) (s : Z) : meter_acc :=
  if negb (fmt_isfinite 23 8 s) then acc
  else
    let a := f32_abs s in
    let d := f32_to_f64 s in
    mk_acc (if f32_lt (ma_peak acc) a then a else ma_peak acc) (f64_add (ma_sumsq acc) (f64_mul d d)) (ma_nsamp acc).

Definition meter_acc_fold (acc : meter_acc) (interleaved : list Z) (n : nat) : meter_acc :=
  let acc := fold_left meter_fold_sample (take (2 * n) interleaved) acc in
  mk_acc (ma_peak acc) (ma_sumsq acc) (u64 (ma_nsamp acc + 2 * Z.of_nat n)).

(** The literal [1e-20f]. *)
Definition F32_1E_20 : Z := 0x1e3ce508.

Definition meter_acc_commit (ix : nat) (acc : meter_acc) (m : list Z * list Z) : list Z * list Z :=
  let rms := if negb (ma_nsamp acc =? 0) then f64_to_f32 (f64_sqrt (f64_div (ma_sumsq acc) (f64_of_Z (ma_nsamp acc)))) else 0 in
  let peak := if negb (f32_lt F32_1E_20 (ma_peak acc)) then 0 else ma_peak acc in
  let rms := if negb (f32_lt F32_1E_20 rms) then 0 else rms in
  (<[ix := peak]> m.1, <[ix := rms]> m.2).

Definition engine_meters_reset (m : list Z * list Z) : list Z * list Z :=
  (map (fun _ => 0) m.1, map (fun _ => 0) m.2).

(** ** The block *)

(** [ru_meters]: [g_meter_peak] and [g_meter_rms]; [ru_pacc], [ru_metered] and
    [ru_macc], [ru_main_metered]: the block's accumulators. *)
Record renderst := mk_rs {
  ru_eng : engst; ru_out : list Z; ru_meters : list Z * list Z;
  ru_pacc : list meter_acc; ru_metered : list bool; ru_macc : meter_acc; ru_main_metered : bool }.

Definition ru_parts (st : renderst) : list part := e_parts (ru_eng st).
Definition set_eng (e : engst) (st : renderst) : renderst :=
  mk_rs e (ru_out st) (ru_meters st) (ru_pacc st) (ru_metered st) (ru_macc st) (ru_main_metered st).
Definition set_out (o : list Z) (st : renderst) : renderst :=
  mk_rs (ru_eng st) o (ru_meters st) (ru_pacc st) (ru_metered st) (ru_macc st) (ru_main_metered st).

Definition render_apply (pos : Z) (ev : dev_event) (st : renderst) : renderst :=
  set_eng (apply_event pos ev (ru_eng st)) st.

Definition render_service (fuel : nat) (rate64 pos : Z) (st : renderst) : option (Z * renderst) :=
  ps ← mapM (fun p => arp_fire_due div_oob fuel pos rate64 (panic_service p)) (ru_parts st);
  ds ← mapM (fun p => arp_next_deadline div_oob fuel p pos rate64) ps;
  Some (fold_left min_deadline ds 0, set_eng (on_parts (fun _ => ps) (ru_eng st)) st).

(** Render part [pi] into a stereo buffer. *)
Definition render_into (pi seg : nat) (rate pos : Z) (accumulate : bool) (ps : list part) (buf : list Z) : list part * list Z :=
  let '(p, buf) := render_part_voices seg rate pos accumulate (nth pi ps part_init) buf in
  (<[pi := p]> ps, buf).

Definition mix_emit (rate pos : Z) (done seg : nat) (st : renderst) : renderst :=
  let at_pos := u64 (pos + Z.of_nat done) in
  let step (a : list part * list Z) (pi : nat) :=
    if (pi =? 0)%nat then render_into 0 seg rate at_pos false a.1 a.2
    else if part_active (nth pi a.1 part_init) then render_into pi seg rate at_pos true a.1 a.2 else a in
  let '(ps, buf) := fold_left step (seq 0 NPARTS) (ru_parts st, take (2 * seg) (drop (2 * done) (ru_out st))) in
  set_out (splice (2 * done) buf (ru_out st)) (set_eng (on_parts (fun _ => ps) (ru_eng st)) st).

Definition render_with_events (fuel n : nat) (rate pos : Z) (q : evq) (st : renderst) : option (evq * renderst) :=
  seg_loop render_apply (render_service fuel (f32_to_f64 rate)) (mix_emit rate pos) n pos n 0 q st.

(** Column [s] of the output, [ns] columns wide, from channel [right] of a stereo
    buffer. *)
Definition pack_column (ns s done seg : nat) (right : bool) (buf out : list Z) : list Z :=
  fold_left (fun out i => <[((done + i) * ns + s)%nat := nth (2 * i + if right then 1 else 0) buf 0]> out) (seq 0 seg) out.

Definition slot_is_right (slot : Z) : bool := Z.testbit slot 0.
Definition slot_part (slot : Z) : nat := Z.to_nat ((slot - 2) / 2).

Definition pack_slots (slots : list Z) (want : Z -> bool) (done seg : nat) (buf out : list Z) : list Z :=
  fold_left (fun out s => let slot := nth s slots 0 in
      if want slot then pack_column (length slots) s done seg (slot_is_right slot) buf out else out)
    (seq 0 (length slots)) out.

(** One part of a segment of [render_part_slots]; [mix]: the accumulator, [None]
    while unwritten. *)
Definition slots_part (slots : list Z) (rate at_pos : Z) (done seg : nat) (a : renderst * option (list Z)) (pi : nat) :
    renderst * option (list Z) :=
  let '(st, mix) := a in
  let need_main := existsb (fun s => s <? 2) slots in
  let need_part := existsb (fun s => (2 <=? s) && (slot_part s =? pi)%nat) slots in
  let in_mix := need_main && ((pi =? 0)%nat || part_active (nth pi (ru_parts st) part_init)) in
  if negb in_mix && negb need_part then a
  else
    let '(ps, pscr) := render_into pi seg rate at_pos false (ru_parts st) (repeat 0 (2 * seg)) in
    let st := mk_rs (on_parts (fun _ => ps) (ru_eng st)) (ru_out st) (ru_meters st)
      (alter (fun acc => meter_acc_fold acc pscr seg) pi (ru_pacc st)) (<[pi := true]> (ru_metered st))
      (ru_macc st) (ru_main_metered st) in
    let mix := if in_mix then Some (match mix with None => take (2 * seg) pscr | Some m => zip_with f32_add m pscr end) else mix in
    let st := if need_part
      then set_out (pack_slots slots (fun s => (2 <=? s) && (slot_part s =? pi)%nat) done seg pscr (ru_out st)) st else st in
    (st, mix).

Definition slots_emit (slots : list Z) (rate pos : Z) (done seg : nat) (st : renderst) : renderst :=
  let '(st, mix) := fold_left (slots_part slots rate (u64 (pos + Z.of_nat done)) done seg) (seq 0 NPARTS) (st, None) in
  if existsb (fun s => s <? 2) slots then
    let mix := match mix with Some m => m | None => repeat 0 (2 * seg) end in
    mk_rs (ru_eng st) (pack_slots slots (fun s => s <? 2) done seg mix (ru_out st)) (ru_meters st)
      (ru_pacc st) (ru_metered st) (meter_acc_fold (ru_macc st) mix seg) true
  else st.

Definition commit_part (st : renderst) (m : list Z * list Z) (pi : nat) : list Z * list Z :=
  if nth pi (ru_metered st) false then meter_acc_commit pi (nth pi (ru_pacc st) acc_zero) m
  else (<[pi := 0]> m.1, <[pi := 0]> m.2).

Definition set_meters (m : list Z * list Z) (st : renderst) : renderst :=
  mk_rs (ru_eng st) (ru_out st) m (ru_pacc st) (ru_metered st) (ru_macc st) (ru_main_metered st).

Definition render_part_slots (slots : list Z) (fuel n : nat) (rate pos : Z) (q : evq) (st : renderst) : option (evq * renderst) :=
  let st := mk_rs (ru_eng st) (ru_out st) (ru_meters st) (repeat acc_zero NPARTS) (repeat false NPARTS) acc_zero false in
  '(q, st) ← seg_loop render_apply (render_service fuel (f32_to_f64 rate)) (slots_emit slots rate pos) n pos n 0 q st;
  let m := fold_left (commit_part st) (seq 0 NPARTS) (ru_meters st) in
  let m := if ru_main_metered st then meter_acc_commit METER_MAIN_IX (ru_macc st) m else m in
  Some (q, set_meters m st).

(** [render_output]: the measurement tone, the main mix, or the slots; with the
    number of columns written. *)
Definition tone_sample (tone_hz rate pos : Z) (i : nat) : Z :=
  let w := f64_div (f64_mul (f64_mul (f64_of_Z 2) 0x400921fb54442d18) tone_hz) (f32_to_f64 rate) in
  f32_mul (f64_to_f32 (sin64 (f64_mul w (f64_of_Z (u64 (pos + Z.of_nat i)))))) (f32_ratio 1 2).

Definition render_output (tone_hz : Z) (slots : list Z) (fuel n : nat) (rate pos : Z) (q : evq) (st : renderst) :
    option (nat * evq * renderst) :=
  if f64_lt 0 tone_hz then
    Some (2%nat, q, set_out (fold_left (fun out i => put_sample false i (tone_sample tone_hz rate pos i, tone_sample tone_hz rate pos i) out)
      (seq 0 n) (ru_out st)) st)
  else if bool_decide (slots = [0; 1]) then
    '(q, st) ← render_with_events fuel n rate pos q st;
    Some (2%nat, q, set_meters (meter_acc_commit METER_MAIN_IX (meter_acc_fold acc_zero (ru_out st) n) (ru_meters st)) st)
  else
    '(q, st) ← render_part_slots slots fuel n rate pos q st;
    Some (length slots, q, st).
End render.
