(* ===== verification/RenderSpec.v ===== *)
(** * Properties of rendering

    The segmentation of a block applies every event at its own sample, in the
    order it was queued, whatever the parts and the arpeggiators do in between. *)
From Stdlib Require Import ZArith Lia List Bool.
From stdpp Require Import base list.
From S2P Require Import Prelude CborFloat Params Evq Ieee Parts Render.
Open Scope Z_scope.
Open Scope list_scope.

(** ** Recording a run

    The state of a run with the list of the events applied so far, each with the
    position at which it was applied. *)
Section log.
Context {St : Type} (apply : Z -> dev_event -> St -> St) (service : Z -> St -> option (Z * St)) (emit : nat -> nat -> St -> St).

Definition log_apply (pos : Z) (ev : dev_event) (s : St * list (Z * dev_event)) : St * list (Z * dev_event) :=
  (apply pos ev s.1, s.2 ++ [(pos, ev)]).
Definition log_service (pos : Z) (s : St * list (Z * dev_event)) : option (Z * (St * list (Z * dev_event))) :=
  '(a, st) ← service pos s.1; Some (a, (st, s.2)).
Definition log_emit (done seg : nat) (s : St * list (Z * dev_event)) : St * list (Z * dev_event) := (emit done seg s.1, s.2).

Definition drop_log (r : evq * (St * list (Z * dev_event))) : evq * St := (r.1, r.2.1).

Lemma log_fold pos evs : forall s,
  fold_left (fun s ev => log_apply pos ev s) evs s = (fold_left (fun st ev => apply pos ev st) evs s.1, s.2 ++ map (pair pos) evs).
Proof.
  induction evs as [|ev evs IH]; intros [st l]; cbn [fold_left map fst snd]; [by rewrite app_nil_r|].
  rewrite IH. cbn [log_apply fst snd]. by rewrite <- app_assoc.
Qed.

Lemma log_service_eq pos st l : log_service pos (st, l) = '(a, st) ← service pos st; Some (a, (st, l)).
Proof. done. Qed.

(** Recording changes nothing else. *)
Lemma seg_loop_erase : forall fuel pos n done q s,
  seg_loop apply service emit fuel pos n done q s.1 =
  drop_log <$> seg_loop log_apply log_service log_emit fuel pos n done q s.
Proof.
  induction fuel as [|fuel IH]; intros pos n d q [st l]; cbn [seg_loop fst]; destruct (d <? n)%nat; try done.
  unfold evq_apply_due. rewrite !due_loop_spec, log_fold. cbn [fst snd]. rewrite log_service_eq.
  destruct (service _ _) as [[a st']|]; cbn [mbind option_bind]; [|done]. cbv zeta. apply (IH _ _ _ _ (_, _)).
Qed.

(** What a block does: at each of its samples, the events stamped for it, in
    queue order; those already late at the first. *)
Definition at_sample (pos t : Z) (ev : dev_event) : bool := Z.max pos (ev_ts ev) =? t.
Definition event_schedule (pos : Z) (from len : nat) (evs : list dev_event) : list (Z * dev_event) :=
  flat_map (fun i => map (pair (pos + Z.of_nat i)) (List.filter (at_sample pos (pos + Z.of_nat i)) evs)) (seq from len).

Lemma filter_none {A} (f : A -> bool) l : (forall x, x ∈ l -> f x = false) -> List.filter f l = [].
Proof. apply (filter_const f false). Qed.

Lemma filter_sub {A} (f g : A -> bool) l : (forall x, x ∈ l -> f x = true -> g x = true) -> List.filter f (List.filter g l) = List.filter f l.
Proof.
  induction l as [|x l IH]; intros H; [done|]. cbn [List.filter].
  assert (forall y, y ∈ l -> f y = true -> g y = true) as H' by (intros y Hy; apply H; by right).
  specialize (H x ltac:(by left)). destruct (g x) eqn:G; cbn [List.filter]; [by rewrite (IH H')|].
  rewrite (IH H'). destruct (f x); [by discriminate H|done].
Qed.

Lemma event_schedule_none pos from len evs :
  (forall e i, e ∈ evs -> (from <= i < from + len)%nat -> Z.max pos (ev_ts e) <> pos + Z.of_nat i) -> event_schedule pos from len evs = [].
Proof.
  intros H. unfold event_schedule. revert H. generalize from. induction len as [|len IH]; intros k H; [done|].
  cbn [seq flat_map]. rewrite filter_none; [cbn [map app]; apply IH; intros e i He Hi; apply H; [done|lia]|].
  intros e He. unfold at_sample. apply Z.eqb_neq. apply H; [done|lia].
Qed.

Lemma event_schedule_split pos from k len evs : (k <= len)%nat ->
  event_schedule pos from len evs = event_schedule pos from k evs ++ event_schedule pos (from + k) (len - k) evs.
Proof. intros H. unfold event_schedule. rewrite <- flat_map_app, <- seq_app. by rewrite Nat.add_comm, Nat.sub_add. Qed.

Lemma event_schedule_filter pos from len g evs :
  (forall e i, e ∈ evs -> (from <= i < from + len)%nat -> Z.max pos (ev_ts e) = pos + Z.of_nat i -> g e = true) ->
  event_schedule pos from len (List.filter g evs) = event_schedule pos from len evs.
Proof.
  intros H. unfold event_schedule.
  revert H. generalize from. induction len as [|len IH]; intros k H; [done|].
  cbn [seq flat_map]. f_equal; [|apply IH; intros e i He Hi; apply H; [done|lia]].
  rewrite filter_sub; [done|]. intros e He Ha. unfold at_sample in Ha. apply Z.eqb_eq in Ha. eapply H; [done| |exact Ha]. lia.
Qed.
End log.

Section run.
Context {St : Type} (apply : Z -> dev_event -> St -> St) (service : Z -> St -> option (Z * St)) (emit : nat -> nat -> St -> St).

(** A service's deadline, when it has one, is later than the position served. *)
Definition ahead : Prop := forall at_pos st a st', service at_pos st = Some (a, st') -> a = 0 \/ at_pos < a.
Lemma seg_len_pos next at_pos left : (0 < left)%nat -> (0 < seg_len next at_pos left <= left)%nat.
Proof.
  intros Hl. unfold seg_len. set (seg := if negb (next =? 0) then _ else _).
  assert (0 <= seg) by (unfold seg; case_match; [apply u32_range|lia]).
  destruct (Z.eqb_spec seg 0), (Z.ltb_spec (Z.of_nat left) (if seg =? 0 then 1 else seg)) as [|];
  repeat case_match; bool_to_prop; lia.
Qed.

Lemma seg_len_event next at_pos left t : (0 < left)%nat -> Z.of_nat left < 2 ^ 32 -> at_pos < next -> next <= t ->
  0 <= at_pos -> Z.of_nat (seg_len next at_pos left) <= t - at_pos.
Proof.
  intros Hl Hb Hn Ht Hp. unfold seg_len. rewrite (proj2 (Z.eqb_neq next 0)) by lia. cbn [negb].
  destruct (Z.lt_ge_cases (next - at_pos) (2 ^ 32)) as [Hs|Hs].
  - rewrite u32_small by (unfold is_u32; lia). rewrite (proj2 (Z.eqb_neq _ 0)) by lia.
    case_match; bool_to_prop; lia.
  - pose proof (u32_range (next - at_pos)). unfold is_u32 in *. repeat case_match; bool_to_prop; lia.
Qed.

Lemma seg_loop_total (Q : St -> Prop) (E : dev_event -> Prop) :
  (forall pos ev st, E ev -> Q st -> Q (apply pos ev st)) -> (forall d k st, Q st -> Q (emit d k st)) ->
  (forall at_pos st, Q st -> exists a st', service at_pos st = Some (a, st') /\ Q st') ->
  forall fuel pos n d q st, Q st -> (forall e, e ∈ q_ev q -> E e) -> (n - d <= fuel)%nat ->
  seg_loop apply service emit fuel pos n d q st <> None.
Proof.
  intros Ha He Hs. induction fuel as [|fuel IH]; intros pos n d q st HQ HE Hf; cbn [seg_loop];
    (destruct (Nat.ltb_spec d n) as [Hd|Hd]; [|done]); [lia|].
  unfold evq_apply_due. rewrite due_loop_spec. set (at_pos := u64 (pos + Z.of_nat d)).
  match goal with |- context [service at_pos ?s] => assert (Q s) as HQ2 end.
  { assert (forall e, e ∈ List.filter (is_due at_pos) (q_ev q) -> E e) as HE2.
    { intros e Hi%list_elem_of_In. apply filter_In in Hi as [Hi _]. apply HE. by apply list_elem_of_In. }
    clear -Ha HQ HE2. revert st HQ. induction (List.filter _ _) as [|e l IH]; intros st HQ; [done|].
    cbn [fold_left]. apply IH; [intros e' He'; apply HE2; by right|]. apply Ha; [|done]. apply HE2. by left. }
  destruct (Hs at_pos _ HQ2) as (a & st' & Er & HQ'). rewrite Er. cbn [mbind option_bind].
  match goal with |- context [seg_len ?x ?y ?z] => pose proof (seg_len_pos x y z ltac:(lia)) as Hl end.
  apply IH; [by apply He| |lia]. cbn [q_ev app]. intros e Hi%list_elem_of_In. apply filter_In in Hi as [Hi _].
  apply HE. by apply list_elem_of_In.
Qed.

(** What the queue keeps past the block. *)
Definition beyond (t : Z) (ev : dev_event) : bool := t <=? ev_ts ev.

Lemma min_deadline_le next anext t at_pos : at_pos < next -> next <= t -> 0 <= at_pos -> anext = 0 \/ at_pos < anext ->
  at_pos < min_deadline next anext <= t.
Proof.
  intros H1 H2 H3 H4. unfold min_deadline.
  destruct (Z.eqb_spec anext 0); cbn [negb andb]; [lia|]. destruct (Z.eqb_spec next 0); cbn [orb]; [lia|].
  destruct (Z.ltb_spec anext next); lia.
Qed.

Lemma event_schedule_run (Hs : ahead) : forall fuel pos n d q s q' s',
  (forall e, e ∈ q_ev q -> 0 <= ev_ts e) -> 0 <= pos -> pos + Z.of_nat n < 2 ^ 64 -> Z.of_nat n < 2 ^ 32 -> (d <= n)%nat ->
  ((d = 0)%nat /\ (0 < n)%nat \/ forall e, e ∈ q_ev q -> pos + Z.of_nat d <= ev_ts e) ->
  seg_loop (log_apply apply) (log_service service) (log_emit emit) fuel pos n d q s = Some (q', s') ->
  s'.2 = s.2 ++ event_schedule pos d (n - d) (q_ev q) /\
  q' = mk_evq (List.filter (beyond (pos + Z.of_nat n)) (q_ev q)) (q_drops q).
Proof.
  induction fuel as [|fuel IH]; intros pos n d q [st l] q' s' Hts Hp Hb Hn Hdn Hd; cbn [seg_loop];
    (destruct (Nat.ltb_spec d n) as [Hlt|Hge]; [|intros [= <- <-]]).
  2, 4: (destruct Hd as [?|Hd]; [lia|]); replace (n - d)%nat with 0%nat by lia; unfold event_schedule; cbn [seq flat_map snd];
    rewrite app_nil_r; split; [done|]; rewrite (filter_const _ true); [by destruct q|];
    intros e He; specialize (Hd e He); unfold beyond; apply Z.leb_le; lia.
  { done. }
  unfold evq_apply_due. rewrite due_loop_spec, log_fold. cbn [fst snd app]. rewrite log_service_eq.
  rewrite !u64_small by (unfold is_u64; lia). set (at_pos := pos + Z.of_nat d).
  set (kept := List.filter (fun e => negb (is_due at_pos e)) (q_ev q)). set (next := fold_left _ kept 0).
  destruct (service at_pos _) as [[a st']|] eqn:E; [|done]. cbn [mbind option_bind]. apply Hs in E.
  set (seg := seg_len _ _ _). unfold log_emit at 2. cbn [fst snd]. intros Hr.
  assert (0 < seg <= n - d)%nat as Hseg by (apply seg_len_pos; lia).
  assert (forall e, e ∈ kept -> e ∈ q_ev q /\ at_pos < ev_ts e) as Hk.
  { intros e He. apply list_elem_of_In, filter_In in He as [He Hl]. rewrite list_elem_of_In. split; [done|].
    unfold is_due in Hl. bool_to_prop. lia. }
  assert (forall e, e ∈ q_ev q -> is_due at_pos e = true -> Z.max pos (ev_ts e) = at_pos) as Hdue.
  { intros e He Hl. unfold is_due in Hl. bool_to_prop. subst at_pos. destruct Hd as [[-> _]|Hd]; [lia|]. specialize (Hd e He). lia. }
  assert (forall e, e ∈ kept -> at_pos + Z.of_nat seg <= ev_ts e) as Hw.
  { intros e He. destruct (Z.lt_ge_cases (ev_ts e) (pos + Z.of_nat n)) as [Hl|Hl]; [|lia].
    destruct (Hk e He) as [_ Hlate].
    destruct (next_ts_least (pos + Z.of_nat n) kept 0) as (N1 & N2 & _); [lia|intros e' He'; apply Hk in He'; lia|].
    fold next in N1, N2. destruct (N2 e He Hl) as [Nz Nle]. destruct N1 as [?|(e1 & He1 & <- & _)]; [lia|].
    apply Hk in He1 as [_ He1]. destruct (min_deadline_le (ev_ts e1) a (ev_ts e) at_pos He1 Nle ltac:(lia) E) as [M1 M2].
    pose proof (seg_len_event (min_deadline (ev_ts e1) a) at_pos (n - d) (ev_ts e) ltac:(lia) ltac:(lia) M1 M2 ltac:(lia)). lia. }
  apply IH in Hr as [H1 H2]; cbn [q_ev q_drops] in *; try lia.
  2: { intros e He. apply Hk in He as [He _]. by apply Hts. }
  2: { right. intros e He. specialize (Hw e He). lia. }
  split.
  - rewrite H1. cbn [snd]. rewrite <- app_assoc. f_equal.
    rewrite (event_schedule_split pos d 1 (n - d)) by lia. f_equal.
    + unfold event_schedule. cbn [seq flat_map]. rewrite app_nil_r. fold at_pos. f_equal. apply filter_ext_in. intros e He%list_elem_of_In.
      unfold at_sample. destruct (is_due at_pos e) eqn:Du; [symmetry; apply Z.eqb_eq; by apply Hdue|].
      symmetry. apply Z.eqb_neq. unfold is_due in Du. bool_to_prop. lia.
    + transitivity (event_schedule pos (d + 1) (n - d - 1) kept).
      * rewrite (event_schedule_split pos (d + 1) (seg - 1) (n - d - 1)) by lia. rewrite (event_schedule_none pos (d + 1) (seg - 1)).
        { cbn [app]. f_equal; lia. }
        intros e i He Hi. specialize (Hw e He). lia.
      * apply event_schedule_filter. intros e i _ Hi Hm. unfold is_due. apply negb_true_iff, Z.leb_gt. lia.
  - rewrite H2. f_equal. apply filter_sub. intros e _ Hl. unfold beyond in Hl. unfold is_due. apply negb_true_iff, Z.leb_gt.
    bool_to_prop. lia.
Qed.
End run.

(** ** The real service and mixers *)

Section engine.
Context {FC : FpConv} {L : Libm} (div_oob : Z -> Z).

Lemma step_loop_after fuel a after div rate : forall k b r, step_loop fuel a after div rate k b = Some r -> after < r.
Proof.
  induction fuel as [|fuel IH]; intros k b r; cbn [step_loop]; destruct (Z.ltb_spec after b); try done.
  - by intros [= <-].
  - by intros [= <-].
  - apply IH.
Qed.

Lemma deadline_ahead fuel p pos rate d : arp_next_deadline div_oob fuel p pos rate = Some d -> d = 0 \/ pos < d.
Proof.
  unfold arp_next_deadline. case_match; [intros [= <-]; by left|].
  destruct (if (0 <? _)%nat then _ else _) as [next|] eqn:E; [|done]. cbn [mbind option_bind]. intros [= <-].
  assert (next = 0 \/ pos < next) as Hn.
  { destruct (0 <? _)%nat; [right|left; congruence]. by apply step_loop_after in E. }
  destruct (negb _ && _ && _) eqn:C; [|done]. apply andb_prop in C as [[_ C]%andb_prop _]. bool_to_prop. right. lia.
Qed.

Lemma service_ahead fuel rate : ahead (render_service div_oob fuel rate).
Proof.
  intros pos st a st'. unfold render_service. destruct (mapM _ (ru_parts st)) as [ps|]; [|done]. cbn [mbind option_bind].
  destruct (mapM _ ps) as [ds|] eqn:E; [|done]. cbn [mbind option_bind]. intros [= <- _].
  apply mapM_Some in E. assert (Forall (fun d => d = 0 \/ pos < d) ds) as Hd.
  { clear -E. induction E as [|p d ps ds Hp _ IH]; constructor; [by apply deadline_ahead in Hp|done]. }
  assert (forall ds x, (x = 0 \/ pos < x) -> Forall (fun d => d = 0 \/ pos < d) ds ->
    fold_left min_deadline ds x = 0 \/ pos < fold_left min_deadline ds x) as H; [|by apply H; [left|]].
  clear. induction ds as [|d ds IH]; intros x Hx Hds; [done|]. apply Forall_cons in Hds as [Hd Hds].
  cbn [fold_left]. apply IH; [|done]. unfold min_deadline. case_match; done.
Qed.

(** No part's transport runs. *)
Definition parked (p : part) : Prop := ar_playing (p_arp p) = false.
Definition all_parked (st : renderst) : Prop := Forall parked (ru_parts st).

Lemma same_arp_parked p q : p_arp q = p_arp p -> parked p -> parked q.
Proof. unfold parked. by intros ->. Qed.

Lemma off_parked p : parked p -> parked (arp_voice_off p).
Proof. unfold parked, arp_voice_off. by case_match. Qed.

Lemma note_parked ev p : parked p -> parked (apply_note_on ev p) /\ parked (apply_note_off ev p).
Proof.
  intros Hp. assert (forall x, parked (set_arp (arp_latch_add x (ev_v ev)) p) /\ parked (set_arp (arp_latch_remove x) p)) as H.
  { intros x. unfold parked, arp_latch_add, arp_latch_remove. cbn. repeat case_match; cbn; done. }
  destruct (H (u8 (ev_a ev))) as [H1 H2]. unfold apply_note_on, apply_note_off. split.
  - by case_match.
  - case_match; [done|]. case_match; [|done]. by apply off_parked.
Qed.

Lemma event_parked pos ev st : ev_kd ev <> DEV_EV_TRANSPORT -> all_parked st -> all_parked (render_apply pos ev st).
Proof.
  intros Hk Hst. unfold all_parked, ru_parts, render_apply, apply_event. cbn [set_eng ru_eng].
  assert (e_parts (count_late pos ev (ru_eng st)) = e_parts (ru_eng st)) as E by (unfold count_late; repeat case_match; done).
  unfold all_parked, ru_parts in Hst.
  destruct (ev_kd ev); [| | | | |done|]; cbn [on_parts e_parts]; try (destruct (ev_voice ev =? 0)); cbn [touch on_parts e_parts];
    rewrite ?E; unfold routed; first [apply Forall_alter; [done|]; intros p _ Hp | apply Forall_map; eapply Forall_impl; [exact Hst|]; intros p Hp].
  all: try (by apply note_parked); try (unfold apply_param_set, apply_ramp, apply_mod; repeat case_match; done).
  all: unfold apply_all_off, arp_reset; apply (off_parked (set_arp _ p)); exact Hp.
Qed.

Lemma service_parked fuel rate pos st : all_parked st ->
  exists a st', render_service div_oob fuel rate pos st = Some (a, st') /\ all_parked st'.
Proof.
  intros Hst. unfold render_service.
  assert (forall p, parked p -> exists q, arp_fire_due div_oob fuel pos rate (panic_service p) = Some q /\ parked q) as H1.
  { intros p Hp. assert (parked (panic_service p)) as Hq by (unfold panic_service; repeat case_match; done).
    unfold arp_fire_due. case_match; [by eexists|]. set (r := if _ : bool then arp_voice_off _ else _).
    assert (parked r) as Hr by (unfold r; case_match; [by apply off_parked|done]).
    unfold arp_stopped. rewrite Hr. cbn [negb orb]. by eexists. }
  assert (forall p, parked p -> arp_next_deadline div_oob fuel p pos rate = Some 0) as H2.
  { intros p Hp. unfold arp_next_deadline, arp_stopped. rewrite Hp. by rewrite orb_true_r. }
  unfold all_parked in *. assert (exists qs, mapM (fun p => arp_fire_due div_oob fuel pos rate (panic_service p)) (ru_parts st) = Some qs /\
    Forall parked qs) as (qs & Eq & Hqs).
  { generalize dependent (ru_parts st). induction l as [|p l IH]; intros Hl; [by eexists|].
    apply Forall_cons in Hl as [Hp Hl]. destruct (H1 p Hp) as (q & E1 & Hq), (IH Hl) as (qs & E2 & Hqs).
    cbn. rewrite E1. cbn. cbn in E2. rewrite E2. cbn. eexists. split; [done|]. by constructor. }
  rewrite Eq. cbn [mbind option_bind].
  assert (exists ds, mapM (fun p => arp_next_deadline div_oob fuel p pos rate) qs = Some ds) as (ds & Ed).
  { apply mapM_is_Some. eapply Forall_impl; [exact Hqs|]. intros p Hp. cbn. rewrite H2 by done. by eexists. }
  rewrite Ed. cbn [mbind option_bind]. eexists _, _. split; [done|]. exact Hqs.
Qed.

(** Rendering leaves the arpeggiators alone. *)
Lemma set_voices_arp f p : p_arp (set_voices f p) = p_arp p.
Proof. done. Qed.

Lemma ramp_step_arp pos p j : p_arp (ramp_step pos p j) = p_arp p.
Proof. unfold ramp_step. destruct (negb _); [done|]. destruct (ramp_at _ _) as [[v fin]|]; [|done]. by destruct fin. Qed.

Lemma fold_ramps_arp pos l : forall p, p_arp (fold_left (ramp_step pos) l p) = p_arp p.
Proof. induction l as [|j l IH]; intros p; [done|]. cbn [fold_left]. by rewrite IH, ramp_step_arp. Qed.

Lemma ramps_arp pos p : p_arp (ramps_advance pos p) = p_arp p.
Proof. unfold ramps_advance. rewrite set_voices_arp. apply fold_ramps_arp. Qed.

Lemma with_voice_arp vi f p : p_arp (with_voice vi f p) = p_arp p.
Proof. done. Qed.

Lemma subblocks_arp : forall fuel vi i n rate alpha pos acc p out, p_arp (subblocks fuel vi i n rate alpha pos acc p out).1 = p_arp p.
Proof.
  induction fuel as [|fuel IH]; intros vi i n rate alpha pos acc p out; cbn [subblocks]; [done|].
  case_match; [|done]. case_match. rewrite IH, with_voice_arp. apply ramps_arp.
Qed.

Lemma render_voice_arp n rate pos acc s vi : p_arp (render_voice n rate pos acc s vi).1.1 = p_arp s.1.1.
Proof.
  destruct s as [[p out] w]. unfold render_voice. case_match; [done|].
  unfold engine_render. set (acc' := if w : bool then true else acc). match goal with |- context [subblocks ?a ?b ?c ?d ?e ?f ?g ?h ?i ?j] =>
    pose proof (subblocks_arp a b c d e f g h i j) as E; destruct (subblocks a b c d e f g h i j) as [q o] end.
  cbn [fst] in *. rewrite with_voice_arp in E. cbn [fst]. case_match; [by rewrite with_voice_arp|done].
Qed.

Lemma render_into_parked pi seg rate pos acc ps buf : Forall parked ps -> Forall parked (render_into pi seg rate pos acc ps buf).1.
Proof.
  intros Hps. unfold render_into.
  destruct (render_part_voices _ _ _ _ _ _) as [p b] eqn:E. cbn [fst].
  apply Forall_insert; [done|].
  assert (p_arp p = p_arp (nth pi ps part_init)) as Ha.
  { revert E. unfold render_part_voices. assert (forall l s, p_arp (fold_left (render_voice seg rate pos acc) l s).1.1 = p_arp s.1.1) as H.
    { induction l as [|v l IH]; intros s; [done|]. cbn [fold_left]. by rewrite IH, render_voice_arp. }
    specialize (H (seq 0 NVOICES) (nth pi ps part_init, buf, false)). destruct (fold_left _ _ _) as [[q o] w].
    by intros [= <- _]. }
  apply (same_arp_parked _ _ Ha). destruct (nth_in_or_default pi ps part_init) as [Hi| ->]; [|done].
  rewrite Forall_forall in Hps. apply Hps. by apply list_elem_of_In.
Qed.

Lemma mix_parked rate pos d seg st : all_parked st -> all_parked (mix_emit rate pos d seg st).
Proof.
  intros Hst. unfold mix_emit, all_parked in *.
  match goal with |- context [fold_left ?f ?l0 ?a0] => assert (forall l a, Forall parked a.1 -> Forall parked (fold_left f l a).1) as H;
    [|specialize (H l0 a0 Hst); destruct (fold_left f l0 a0) as [ps b]; exact H] end.
  induction l as [|pi l IH]; intros [ps b] Ha; [done|]. cbn [fold_left]. apply IH. cbn [fst snd].
  repeat case_match; try done; by apply render_into_parked.
Qed.

Lemma slots_parked slots rate pos d seg st : all_parked st -> all_parked (slots_emit slots rate pos d seg st).
Proof.
  intros Hst. unfold slots_emit.
  match goal with |- context [fold_left ?f ?l0 ?a0] => assert (forall l a, all_parked a.1 -> all_parked (fold_left f l a).1) as H;
    [|specialize (H l0 a0 Hst); destruct (fold_left f l0 a0) as [s m]; by case_match] end.
  induction l as [|pi l IH]; intros [s m] Ha; [done|]. cbn [fold_left]. apply IH. cbn [fst] in *. unfold slots_part. destruct (_ && _); [done|].
  pose proof (render_into_parked pi seg rate (u64 (pos + Z.of_nat d)) false (ru_parts s) (repeat 0 (2 * seg)) Ha) as H.
  destruct (render_into _ _ _ _ _ _ _) as [ps b]. cbn [fst] in *. by case_match.
Qed.

(** C33: rendering is sample accurate.  When a block of [n] samples from stream
    position [pos] returns - by the main mix or by the per-part outputs - each
    event stamped before the end of the block has been applied exactly once, at
    its own sample (a late one at the first), events of one sample in the order
    they were queued, and exactly the others are still queued; this whatever
    segments the arpeggiators cut.  And a block does return, in at most [n]
    segments, while no transport runs and none is started by a queued event. *)
Theorem render_sample_accurate (fuel n : nat) (rate pos : Z) (slots : list Z) (q : evq) (st : renderst) :
  (forall e, e ∈ q_ev q -> 0 <= ev_ts e) -> 0 <= pos -> pos + Z.of_nat n < 2 ^ 64 -> (0 < n)%nat -> Z.of_nat n < 2 ^ 32 ->
  let run emit st := seg_loop (log_apply render_apply) (log_service (render_service div_oob fuel (f32_to_f64 rate)))
                       (log_emit emit) n pos n 0 q (st, []) in
  let slots_init := mk_rs (ru_eng st) (ru_out st) (ru_meters st) (repeat acc_zero NPARTS) (repeat false NPARTS) acc_zero false in
  render_with_events div_oob fuel n rate pos q st = drop_log <$> run (mix_emit rate pos) st /\
  seg_loop render_apply (render_service div_oob fuel (f32_to_f64 rate)) (slots_emit slots rate pos) n pos n 0 q slots_init =
    drop_log <$> run (slots_emit slots rate pos) slots_init /\
  (forall emit st0 q' st' log, run emit st0 = Some (q', (st', log)) ->
     log = event_schedule pos 0 n (q_ev q) /\
     q' = mk_evq (List.filter (beyond (pos + Z.of_nat n)) (q_ev q)) (q_drops q)) /\
  ((forall e, e ∈ q_ev q -> ev_kd e <> DEV_EV_TRANSPORT) -> all_parked st ->
     render_with_events div_oob fuel n rate pos q st <> None /\ render_part_slots div_oob slots fuel n rate pos q st <> None).
Proof.
  intros Hts Hp Hb H0 Hn run slots_init. split_and!.
  - apply (seg_loop_erase _ _ _ n pos n 0%nat q (st, [])).
  - apply (seg_loop_erase _ _ _ n pos n 0%nat q (slots_init, [])).
  - intros emit st0 q' st' log Hr. apply event_schedule_run in Hr; try done; [|by apply service_ahead|lia|left; lia].
    cbn [snd app] in Hr. by rewrite Nat.sub_0_r in Hr.
  - intros Hk Hpk.
    assert (forall emit st0, (forall d k s, all_parked s -> all_parked (emit d k s)) -> all_parked st0 ->
      seg_loop render_apply (render_service div_oob fuel (f32_to_f64 rate)) emit n pos n 0 q st0 <> None) as H.
    { intros emit st0 He Hs. apply (seg_loop_total _ _ _ all_parked (fun e => ev_kd e <> DEV_EV_TRANSPORT)); try done; [| |lia].
      - intros pos' ev s. apply event_parked.
      - intros at_pos s. apply service_parked. }
    split; [apply H; [apply mix_parked|done]|]. unfold render_part_slots. fold slots_init.
    specialize (H (slots_emit slots rate pos) slots_init (slots_parked slots rate pos) Hpk).
    destruct (seg_loop _ _ _ _ _ _ _ _ _) as [[q1 st1]|]; [|by intros _]. by cbn [mbind option_bind].
Qed.
End engine.

Definition demo_libm : Libm := {| expf := fun _ => 0; exp2f := fun _ => 0; sinf := fun _ => 0; sin64 := fun _ => 0 |}.
Definition demo_render_q : evq := mk_evq [demo_ev 103 1; demo_ev 90 2; demo_ev 103 3; demo_ev 108 4] 0.
Definition demo_renderst : renderst :=
  mk_rs (mk_engst g_parts_init false 0 0) (repeat 0 16) (repeat 0 17, repeat 0 17) [] [] acc_zero false.

(** The two events of sample 103 in the order they were queued, the late one at
    the first sample, the one past the block kept. *)
Lemma render_sample_accurate_witness :
  let FC := (fun _ => 0) : FpConv in
  @render_with_events FC demo_libm (fun _ => 0) 4 8 (f32_of_Z 48000) 100 demo_render_q demo_renderst <> None /\
  forall emit st0 q' st' log,
    seg_loop (log_apply render_apply) (log_service (render_service (fun _ => 0) 4 (f32_to_f64 (f32_of_Z 48000))))
      (log_emit emit) 8 100 8 0 demo_render_q (st0, []) = Some (q', (st', log)) ->
    log = [(100, demo_ev 90 2); (103, demo_ev 103 1); (103, demo_ev 103 3)] /\ q' = mk_evq [demo_ev 108 4] 0.
Proof.
  intros FC.
  assert (forall e, e ∈ q_ev demo_render_q -> 0 <= ev_ts e) as Hts.
  { intros e He. cbn [demo_render_q q_ev] in He. rewrite !elem_of_cons in He.
    destruct He as [-> |[-> |[-> |[-> |He%not_elem_of_nil]]]]; [vm_compute; discriminate..|done]. }
  assert (forall e, e ∈ q_ev demo_render_q -> ev_kd e <> DEV_EV_TRANSPORT) as Hk.
  { intros e He. cbn [demo_render_q q_ev] in He. rewrite !elem_of_cons in He.
    destruct He as [-> |[-> |[-> |[-> |He%not_elem_of_nil]]]]; [discriminate..|done]. }
  assert (all_parked demo_renderst) as Hpk.
  { apply List.Forall_forall. intros p ->%repeat_spec. reflexivity. }
  destruct (@render_sample_accurate FC demo_libm (fun _ => 0) 4 8 (f32_of_Z 48000) 100 [0; 1] demo_render_q demo_renderst Hts
    ltac:(lia) ltac:(lia) ltac:(lia) ltac:(lia)) as (_ & _ & H1 & H2).
  split; [exact (proj1 (H2 Hk Hpk))|]. intros emit st0 q' st' log Hr. destruct (H1 emit st0 q' st' log Hr) as [-> ->].
  split; vm_compute; reflexivity.
Defined.
