(* ===== verification/Device.v ===== *)
(** * The device's state and its outgoing messages

    device.h's [device] as the session and the panel see it, with what session.c
    uses of its surroundings as interfaces: the link to the host ([MsgLink], which
    Link.v implements), the clocks and the environment ([DevEnv]), the file
    system (Fs.v).  Then the wire helpers of session.c: control messages,
    notifications, echoes, credit grants, and the queue of objects waiting for
    credit.  A section under [send_mu] or [state_mu] is one step. *)
From Stdlib Require Import ZArith Lia List String Bool.
From stdpp Require Import base list.
From S2P Require Import Prelude Cbuf CborEnc CborDec CborFloat Sha256 Frame CborFields Envelope Object Link Fs Store RateLimit LogRing Params Evq Ieee Parts.
Open Scope Z_scope.
Open Scope list_scope.

(** ** Surroundings *)

(** The transmitting half of a link: whether the whole message went out. *)
Class MsgLink (L : Type) := msg_send : Z -> list Z -> L -> bool * L.

(** link.c behind the interface: the transport and the frame counter. *)
#[export] Instance link_msg {io : Type} {HI : HarpIo io} : MsgLink (io * Z) :=
  fun strm data st => let '(r, st') := harp_link_send strm data st in (bool_decide (r <> None), st').

(** The operating system at each tick: the monotonic clock in nanoseconds,
    [time(NULL)], [statvfs] of the store ([f_blocks], [f_bavail], [f_frsize]),
    whether a thread or the collector's table can be had, the descriptor of the
    audio destination on a port; the USB endpoints' descriptors; the environment
    variables of the two test seams; [__DATE__]. *)
Class DevEnv := {
  env_ns : nat -> Z; env_time : nat -> Z; env_statvfs : nat -> option (Z * Z * Z); env_thread : nat -> bool;
  env_calloc : nat -> bool; env_rtp_open : Z -> nat -> Z; env_ffs_in : Z; env_ffs_out : Z;
  env_credit : option (list Z); env_force_rt : bool; env_date : list Z }.

(** [strtoull(s, NULL, 10)] *)
Fixpoint skip_space (s : list Z) : list Z :=
  match s with
  | c :: r => if (c =? 32) || ((9 <=? c) && (c <=? 13)) then skip_space r else s
  | [] => []
  end.
Fixpoint digits_value (v : Z) (s : list Z) : Z :=
  match s with
  | c :: r => if (48 <=? c) && (c <=? 57) then digits_value (10 * v + (c - 48)) r else v
  | [] => v
  end.
Definition strtoull (s : list Z) : Z :=
  let s := skip_space s in
  let neg := match s with c :: _ => c =? 45 | [] => false end in
  let s := match s with c :: r => if (c =? 45) || (c =? 43) then r else s | [] => s end in
  let v := digits_value 0 s in
  if 2 ^ 64 <=? v then 2 ^ 64 - 1 else if neg then u64 (- v) else v.

Definition PROTO_MAJOR : Z := 1.
Definition PROTO_MINOR : Z := 0.
Definition ENGINE_ID : list Z := str "refdev-synth".
Definition ENGINE_VERSION : list Z := str "2.1.0".
Definition FW_VERSION : list Z := str "0.1.0".
Definition CREDIT_GRANT : Z := 16 * 2 ^ 20.
Definition HARP_SENDQ_CAP : nat := 1024.
Definition LIVE_REF : list Z := str "live/project".
Definition PARAMS_MEDIA : list Z := str "application/x.harp-refdev.params".
Definition EVT_STAGE_CAP : nat := 64.

(** ** State *)

(** What the command line fixes for the life of the daemon. *)
Record dev_conf := mk_conf {
  c_store : path; c_serial : list Z; c_engine_ver : option (list Z); c_product : option (list Z);
  c_engine_name : option (list Z); c_boot_count : Z; c_rt_floor : Z; c_rt_nsamples : Z;
  c_in_lat : Z; c_out_lat : Z; c_no_rate_lock : bool; c_pipeline : Z }.

(** The ring [sendq] with [sendq_head], [sendq_tail] and [sendq_count]. *)
Record sendq := mk_sendq { sq_arr : list harp_hash; sq_head : nat; sq_tail : nat; sq_count : nat }.

Definition sendq_empty : sendq := mk_sendq (repeat (repeat 0 HARP_HASH_LEN) HARP_SENDQ_CAP) 0 0 0.

(** [n_link] is [None] while no transport is attached.  [n_sent] is the history
    of the messages handed over, the observable output of the device. *)
Record net (L : Type) := mk_net {
  n_link : option L; n_sent : list (Z * list Z); n_hello : bool; n_closing : bool;
  n_credit : Z; n_granted : Z; n_sendq : sendq }.
Arguments mk_net {L}. Arguments n_link {L}. Arguments n_sent {L}. Arguments n_hello {L}. Arguments n_closing {L}.
Arguments n_credit {L}. Arguments n_granted {L}. Arguments n_sendq {L}.

Record live_state := mk_live { lv_cache : harp_ref; lv_valid : bool; lv_last_ntf : Z; lv_archives : Z }.

(** [ev] of [dev_txn]: the first [n] events. *)
Record dev_txn := mk_txn { tx_open : bool; tx_id : Z; tx_ev : list dev_event }.
Definition txn_zero : dev_txn := mk_txn false 0 [].

Record evt_state := mk_evt { es_q : evq; es_txn : list dev_txn; es_stage : list dev_event; es_staged : bool; es_consumed : Z }.

(** [audio_state] without the test tone and the effect buffers; [a_out_slots] and
    [a_in_slots] hold the first [n_out_slots] and [n_in_slots] entries. *)
Record audio_state := mk_audio {
  a_running : bool; a_live : bool; a_fd : Z; a_out_fd : Z; a_rtp_fd : Z; a_rtp_seq : Z; a_rtp_ssrc : Z;
  a_hp_port : Z; a_hp_sock : Z; a_offline : bool; a_prebuffer : Z;
  a_mode : Z; a_rate : Z; a_nsamples : Z; a_epoch : Z; a_reanchors : Z; a_msc_final : Z; a_trim : Z;
  a_out_slots : list Z; a_in_slots : list Z; a_loop_on : bool; a_loop_in : Z; a_loop_out : Z;
  a_meter_running : bool; a_meter_live : bool }.

(** panel.c's reconcile mailbox [g_reconcile]. *)
Record reconcile := mk_rec { rc_pending : bool; rc_expect : list Z; rc_live : list Z; rc_dirty : bool; rc_choice : Z }.

(** The counters of section 14.2 kept in [device], and three kept as globals by
    the audio loop and the USB transport. *)
Inductive ctr : Set :=
  | frame_errors | session_resets | snapshots_taken | audio_overruns | evt_stale_epoch | audio_late_frames
  | obj_drops | evt_txn_rejected | evt_txn_overflow | evt_txn_unknown | rate_limited
  | fence_waits | fence_timeouts | usb_errors.
#[export] Instance ctr_eq : EqDecision ctr.
Proof. solve_decision. Defined.

Record device (L : Type) := mk_dev {
  d_world : world; d_eng : engst; d_meters : list Z * list Z; d_net : net L; d_live : live_state; d_evt : evt_state;
  d_audio : audio_state; d_ctr : ctr -> Z; d_hash : harp_hash; d_rl_snapshot : harp_op_bucket; d_rl_bundle : harp_op_bucket;
  d_log : log_ring; d_rec : reconcile; d_exited : bool }.
Arguments mk_dev {L}. Arguments d_world {L}. Arguments d_eng {L}. Arguments d_meters {L}. Arguments d_net {L}.
Arguments d_live {L}. Arguments d_evt {L}. Arguments d_audio {L}. Arguments d_ctr {L}. Arguments d_hash {L}.
Arguments d_rl_snapshot {L}. Arguments d_rl_bundle {L}. Arguments d_log {L}. Arguments d_rec {L}. Arguments d_exited {L}.

Section setters.
Context {L : Type}.
Implicit Types d : device L.

Definition set_world (w : world) d : device L :=
  mk_dev w (d_eng d) (d_meters d) (d_net d) (d_live d) (d_evt d) (d_audio d) (d_ctr d) (d_hash d) (d_rl_snapshot d) (d_rl_bundle d) (d_log d) (d_rec d) (d_exited d).
Definition upd_eng (f : engst -> engst) d : device L :=
  mk_dev (d_world d) (f (d_eng d)) (d_meters d) (d_net d) (d_live d) (d_evt d) (d_audio d) (d_ctr d) (d_hash d) (d_rl_snapshot d) (d_rl_bundle d) (d_log d) (d_rec d) (d_exited d).
Definition upd_net (f : net L -> net L) d : device L :=
  mk_dev (d_world d) (d_eng d) (d_meters d) (f (d_net d)) (d_live d) (d_evt d) (d_audio d) (d_ctr d) (d_hash d) (d_rl_snapshot d) (d_rl_bundle d) (d_log d) (d_rec d) (d_exited d).
Definition upd_live (f : live_state -> live_state) d : device L :=
  mk_dev (d_world d) (d_eng d) (d_meters d) (d_net d) (f (d_live d)) (d_evt d) (d_audio d) (d_ctr d) (d_hash d) (d_rl_snapshot d) (d_rl_bundle d) (d_log d) (d_rec d) (d_exited d).
Definition upd_evt (f : evt_state -> evt_state) d : device L :=
  mk_dev (d_world d) (d_eng d) (d_meters d) (d_net d) (d_live d) (f (d_evt d)) (d_audio d) (d_ctr d) (d_hash d) (d_rl_snapshot d) (d_rl_bundle d) (d_log d) (d_rec d) (d_exited d).
Definition upd_audio (f : audio_state -> audio_state) d : device L :=
  mk_dev (d_world d) (d_eng d) (d_meters d) (d_net d) (d_live d) (d_evt d) (f (d_audio d)) (d_ctr d) (d_hash d) (d_rl_snapshot d) (d_rl_bundle d) (d_log d) (d_rec d) (d_exited d).
Definition set_meters (m : list Z * list Z) d : device L :=
  mk_dev (d_world d) (d_eng d) m (d_net d) (d_live d) (d_evt d) (d_audio d) (d_ctr d) (d_hash d) (d_rl_snapshot d) (d_rl_bundle d) (d_log d) (d_rec d) (d_exited d).
Definition set_hash (h : harp_hash) d : device L :=
  mk_dev (d_world d) (d_eng d) (d_meters d) (d_net d) (d_live d) (d_evt d) (d_audio d) (d_ctr d) h (d_rl_snapshot d) (d_rl_bundle d) (d_log d) (d_rec d) (d_exited d).
Definition set_buckets (a b : harp_op_bucket) d : device L :=
  mk_dev (d_world d) (d_eng d) (d_meters d) (d_net d) (d_live d) (d_evt d) (d_audio d) (d_ctr d) (d_hash d) a b (d_log d) (d_rec d) (d_exited d).
Definition upd_log (f : log_ring -> log_ring) d : device L :=
  mk_dev (d_world d) (d_eng d) (d_meters d) (d_net d) (d_live d) (d_evt d) (d_audio d) (d_ctr d) (d_hash d) (d_rl_snapshot d) (d_rl_bundle d) (f (d_log d)) (d_rec d) (d_exited d).
Definition set_rec (r : reconcile) d : device L :=
  mk_dev (d_world d) (d_eng d) (d_meters d) (d_net d) (d_live d) (d_evt d) (d_audio d) (d_ctr d) (d_hash d) (d_rl_snapshot d) (d_rl_bundle d) (d_log d) r (d_exited d).
(** The session does nothing more: [exit(0)], or its thread is in a call that
    does not return. *)
Definition set_exited d : device L :=
  mk_dev (d_world d) (d_eng d) (d_meters d) (d_net d) (d_live d) (d_evt d) (d_audio d) (d_ctr d) (d_hash d) (d_rl_snapshot d) (d_rl_bundle d) (d_log d) (d_rec d) true.
(** [CTR_INC] *)
Definition ctr_inc (c : ctr) d : device L :=
  mk_dev (d_world d) (d_eng d) (d_meters d) (d_net d) (d_live d) (d_evt d) (d_audio d)
    (fun x => if decide (x = c) then u64 (d_ctr d x + 1) else d_ctr d x) (d_hash d) (d_rl_snapshot d) (d_rl_bundle d) (d_log d) (d_rec d) (d_exited d).

Definition set_link (l : option L) (n : net L) : net L :=
  mk_net l (n_sent n) (n_hello n) (n_closing n) (n_credit n) (n_granted n) (n_sendq n).
Definition log_sent (m : Z * list Z) (n : net L) : net L :=
  mk_net (n_link n) (n_sent n ++ [m]) (n_hello n) (n_closing n) (n_credit n) (n_granted n) (n_sendq n).
Definition set_credit (c : Z) (n : net L) : net L :=
  mk_net (n_link n) (n_sent n) (n_hello n) (n_closing n) c (n_granted n) (n_sendq n).
Definition set_granted (g : Z) (n : net L) : net L :=
  mk_net (n_link n) (n_sent n) (n_hello n) (n_closing n) (n_credit n) g (n_sendq n).
Definition set_sendq (q : sendq) (n : net L) : net L :=
  mk_net (n_link n) (n_sent n) (n_hello n) (n_closing n) (n_credit n) (n_granted n) q.

Definition set_hello (b : bool) (n : net L) : net L :=
  mk_net (n_link n) (n_sent n) b (n_closing n) (n_credit n) (n_granted n) (n_sendq n).
Definition set_closing (b : bool) (n : net L) : net L :=
  mk_net (n_link n) (n_sent n) (n_hello n) b (n_credit n) (n_granted n) (n_sendq n).

(** The store runs on the device's file system. *)
Definition on_store {A} (m : SM world A) : SM (device L) A :=
  fun d => let '(r, w) := m (d_world d) in (r, set_world w d).
End setters.

(** ** Wire helpers *)

Section wire.
Context {L : Type} {ML : MsgLink L} {E : DevEnv} {R : Realloc}.
Implicit Types d : device L.

(** [d->io ? harp_link_send(...) : -1], under [send_mu]. *)
Definition link_send (strm : Z) (data : list Z) d : bool * device L :=
  match n_link (d_net d) with
  | None => (false, d)
  | Some l =>
      let '(ok, l') := msg_send strm data l in
      (ok, upd_net (fun n => let n := set_link (Some l') n in if ok : bool then log_sent (strm, data) n else n) d)
  end.

(** A message is built in a fresh buffer, whose [oom] flag is not tested. *)
Definition send_ctl (m : cbuf) d : bool * device L := link_send HARP_STREAM_CTL (cb_buf m) d.
Definition send_msg (m : cbuf) d : device L := (send_ctl m d).2.

Definition now_ns : SM (device L) Z := t ← on_store tick; mret (env_ns t).

Definition enc_echo (id v channel : Z) (b : cbuf) : cbuf :=
  let b := harp_cbor_array b 3 in
  let b := harp_cbor_array b 2 in
  let b := harp_cbor_uint b 0 in
  let b := harp_cbor_uint b 0 in
  let b := harp_cbor_uint b 1 in
  let b := harp_cbor_map b (if negb (channel =? 0) then 3 else 2) in
  let b := harp_cbor_uint b 0 in
  let b := harp_cbor_uint b id in
  let b := harp_cbor_uint b 1 in
  let b := harp_cbor_float b (f32_to_f64 v) in
  if negb (channel =? 0) then harp_cbor_uint (harp_cbor_uint b 5) channel else b.

Definition evt_echo_param (id v channel : Z) d : device L :=
  if negb (n_hello (d_net d)) then d
  else (link_send HARP_STREAM_EVT (cb_buf (enc_echo id v channel harp_cbuf_init)) d).2.

Definition ntf_core_changed (topic : list Z) d : device L :=
  if negb (n_hello (d_net d)) then d
  else
    let b := harp_env_head harp_cbuf_init HARP_MSG_NOTIFICATION 0 (str "core.changed") true in
    let b := harp_cbor_map b 1 in
    let b := harp_cbor_uint b 0 in
    send_msg (harp_cbor_text b topic) d.

Definition enc_state_changed (r : harp_ref) (b : cbuf) : cbuf :=
  let b := harp_env_head b HARP_MSG_NOTIFICATION 0 (str "state.changed") true in
  let b := harp_cbor_map b 4 in
  let b := harp_cbor_uint b 0 in
  let b := harp_cbor_text b (r_name r) in
  let b := harp_cbor_uint b 1 in
  let b := if r_unborn r then harp_cbor_null b else harp_cbor_bytes b (r_hash r) in
  let b := harp_cbor_uint b 2 in
  let b := harp_cbor_uint b (r_generation r) in
  let b := harp_cbor_uint b 3 in
  harp_cbor_bool b (r_dirty r).

Definition ntf_state_changed (r : harp_ref) d : device L :=
  if negb (n_hello (d_net d)) then d else send_msg (enc_state_changed r harp_cbuf_init) d.

(** The window: 16 MiB, or what the test seam says. *)
Definition grant_amount : Z :=
  match env_credit with
  | Some f => if bool_decide (f = []) then CREDIT_GRANT else if strtoull f =? 0 then CREDIT_GRANT else strtoull f
  | None => CREDIT_GRANT
  end.

Definition grant_credit d : device L :=
  let b := harp_env_head harp_cbuf_init HARP_MSG_NOTIFICATION 0 (str "core.credit") true in
  let b := harp_cbor_map b 1 in
  let b := harp_cbor_uint b 0 in
  let d := send_msg (harp_cbor_uint b grant_amount) d in
  upd_net (fun n => set_granted (u64 (n_granted n + grant_amount)) n) d.

Definition send_error (rid : Z) (method code : list Z) (msg : option (list Z)) d : device L :=
  send_msg (harp_env_error harp_cbuf_init rid method code msg) d.

Definition HARP_LOG_INFO : Z := 1.
Definition HARP_LOG_WARN : Z := 2.

(** [line] is what the format expands to. *)
Definition devlog (level : Z) (tag line : list Z) d : device L :=
  upd_log (fun r => (harp_devlog (Z.to_nat HARP_LOGRING_CAP) level (Some tag) line r).2) d.

(** ** Objects waiting for credit *)

Definition ring_next (i : nat) : nat := Nat.modulo (i + 1) HARP_SENDQ_CAP.

Definition sendq_push (h : harp_hash) d : device L :=
  let q := n_sendq (d_net d) in
  if (sq_count q =? HARP_SENDQ_CAP)%nat then ctr_inc obj_drops d
  else upd_net (set_sendq (mk_sendq (<[sq_tail q := h]> (sq_arr q)) (sq_head q) (ring_next (sq_tail q)) (S (sq_count q)))) d.

Definition sendq_pop (q : sendq) : sendq := mk_sendq (sq_arr q) (ring_next (sq_head q)) (sq_tail q) (pred (sq_count q)).

Context {O' : OS} (conf : dev_conf).

(** One turn per queued object. *)
Fixpoint flush_loop (fuel : nat) (enc : cbuf) d : device L :=
  match fuel with
  | O => d
  | S fuel =>
      let q := n_sendq (d_net d) in
      if (sq_count q =? 0)%nat then d
      else
        match on_store (harp_store_get (c_store conf) (nth (sq_head q) (sq_arr q) []) (harp_cbuf_reset enc)) d with
        | (Some (true, enc), d) =>
            if n_credit (d_net d) <? cb_len enc then d
            else
              let '(ok, d) := link_send HARP_STREAM_OBJ (cb_buf enc) d in
              if negb ok then d
              else flush_loop fuel enc (upd_net (fun n => set_sendq (sendq_pop q) (set_credit (u64 (n_credit n - cb_len enc)) n)) d)
        | (Some (false, enc), d) => flush_loop fuel enc (ctr_inc obj_drops (upd_net (set_sendq (sendq_pop q)) d))
        | (None, d) => d
        end
  end.

Definition sendq_flush d : device L := flush_loop (sq_count (n_sendq (d_net d))) harp_cbuf_init d.
End wire.
