(* ===== verification/DeviceSpec.v ===== *)
(** * Properties of the device's outgoing messages

    The queue of objects waiting for credit as a list, what a flush of it does,
    and the helper facts on sending that the other components share. *)
From Stdlib Require Import ZArith Lia List Bool.
From stdpp Require Import base list.
From S2P Require Import Prelude Cbuf Sha256 Frame Object Link Fs Store HashSet StoreGc GcMark RateLimit LogRing Params Evq Parts Device.
Open Scope Z_scope.
Open Scope list_scope.

#[local] Arguments HARP_SENDQ_CAP : simpl never.

(** Reading an object leaves the files alone and appends what is stored. *)
Lemma store_get_run {O : OS} {R : Realloc} s h b w :
  exists r w1, harp_store_get s h b w = (Some r, w1) /\ w_fs w1 = w_fs w /\
    (r.1 = true -> exists data, obj_data s (w_fs w) h = Some data /\ cb_buf r.2 = cb_buf b ++ data).
Proof.
  unfold harp_store_get. erewrite sm_bind_run by apply read_file_run. eexists _, _. split; [reflexivity|].
  cbn [w_fs]. split; [done|]. unfold read_result, obj_data.
  destruct (fs_files (w_fs w) !! obj_path s h) as [x|]; [|by destruct (os_open _ && _)]. destruct (os_open (w_clock w)); [|done].
  destruct (os_read (w_clock w)) as [k|]; [done|]. cbn [fst snd orb fmap option_fmap option_map].
  intros Ho. apply negb_true_iff in Ho. eexists. split; [reflexivity|]. by rewrite (get_loop_spec _ _ _ (le_n _) Ho).
Qed.

(** ** The queue as a list *)

Definition ring_at (i k : nat) : nat := Nat.modulo (i + k) HARP_SENDQ_CAP.

Definition queued (q : sendq) : list harp_hash := map (fun k => nth (ring_at (sq_head q) k) (sq_arr q) []) (seq 0 (sq_count q)).

Record sendq_ok (q : sendq) : Prop := {
  sq_len : length (sq_arr q) = HARP_SENDQ_CAP;
  sq_hd : (sq_head q < HARP_SENDQ_CAP)%nat;
  sq_cnt : (sq_count q <= HARP_SENDQ_CAP)%nat;
  sq_tl : sq_tail q = ring_at (sq_head q) (sq_count q) }.

Lemma sendq_cap_pos : (0 < HARP_SENDQ_CAP)%nat.
Proof. unfold HARP_SENDQ_CAP. lia. Qed.

Lemma ring_at_lt i k : (ring_at i k < HARP_SENDQ_CAP)%nat.
Proof. apply Nat.mod_upper_bound. pose proof sendq_cap_pos. lia. Qed.

Lemma ring_at_next i k : ring_next (ring_at i k) = ring_at i (S k).
Proof.
  unfold ring_next, ring_at. pose proof sendq_cap_pos. rewrite Nat.Div0.add_mod_idemp_l. f_equal. lia.
Qed.

Lemma ring_next_at i k : ring_at (ring_next i) k = ring_at i (S k).
Proof. unfold ring_next, ring_at. rewrite Nat.Div0.add_mod_idemp_l. f_equal. lia. Qed.

Lemma ring_at_inj i j k : (j < HARP_SENDQ_CAP)%nat -> (k < HARP_SENDQ_CAP)%nat -> ring_at i j = ring_at i k -> j = k.
Proof.
  unfold ring_at. pose proof sendq_cap_pos. intros Hj Hk He.
  pose proof (Nat.div_mod_eq (i + j) HARP_SENDQ_CAP) as E1. pose proof (Nat.div_mod_eq (i + k) HARP_SENDQ_CAP) as E2.
  rewrite He in E1. revert Hj Hk E1 E2. generalize ((i + j) / HARP_SENDQ_CAP)%nat ((i + k) / HARP_SENDQ_CAP)%nat.
  generalize ((i + k) mod HARP_SENDQ_CAP)%nat HARP_SENDQ_CAP. intros r c a b Hj Hk E1 E2.
  destruct (Nat.lt_trichotomy a b) as [Hl|[->|Hl]]; [|lia|].
  - assert (c * b = c * a + c * (b - a))%nat by (rewrite <- Nat.mul_add_distr_l; f_equal; lia).
    assert (c <= c * (b - a))%nat by nia. lia.
  - assert (c * a = c * b + c * (a - b))%nat by (rewrite <- Nat.mul_add_distr_l; f_equal; lia).
    assert (c <= c * (a - b))%nat by nia. lia.
Qed.

Lemma queued_push q h : sendq_ok q -> (sq_count q < HARP_SENDQ_CAP)%nat ->
  let q' := mk_sendq (<[sq_tail q := h]> (sq_arr q)) (sq_head q) (ring_next (sq_tail q)) (S (sq_count q)) in
  sendq_ok q' /\ queued q' = queued q ++ [h].
Proof.
  intros [H1 H2 H3 H4] Hc q'. split.
  - split; cbn; [by rewrite length_insert|done|lia|]. by rewrite H4, ring_at_next.
  - unfold queued. cbn [q' sq_head sq_count sq_arr]. rewrite seq_S, map_app. cbn [map Nat.add]. f_equal.
    + apply map_ext_in. intros k Hk%in_seq. rewrite H4. apply nth_insert_ne.
      intros He. apply ring_at_inj in He; lia.
    + f_equal. rewrite H4. rewrite nth_insert_eq; [done|]. rewrite H1. apply ring_at_lt.
Qed.

Lemma queued_pop q h l : sendq_ok q -> queued q = h :: l ->
  nth (sq_head q) (sq_arr q) [] = h /\ sendq_ok (sendq_pop q) /\ queued (sendq_pop q) = l /\ sq_count q = S (length l).
Proof.
  intros [H1 H2 H3 H4] Hq. assert (sq_count q = S (length l)) as Hc.
  { apply (f_equal length) in Hq. unfold queued in Hq. rewrite length_map, length_seq in Hq. done. }
  unfold queued in Hq. rewrite Hc in Hq. cbn [seq map] in Hq. injection Hq as Hh Hl.
  split; [|split; [|split; [|done]]].
  - rewrite <- Hh. unfold ring_at. by rewrite Nat.add_0_r, Nat.mod_small.
  - split; cbn; [done|apply Nat.mod_upper_bound; pose proof sendq_cap_pos; lia|lia|].
    rewrite H4, Hc, ring_next_at. done.
  - unfold queued, sendq_pop. cbn [sq_head sq_arr sq_count]. rewrite Hc. cbn [pred]. rewrite <- seq_shift, map_map in Hl.
    rewrite <- Hl at 2. apply map_ext. intros k. by rewrite ring_next_at.
Qed.

(** ** Sending *)

Section send.
Context {L : Type} {ML : MsgLink L} {R : Realloc}.
Implicit Types d : device L.

(** A send changes the link and, when it succeeds, appends to the history. *)
Lemma link_send_spec strm data d :
  exists ok l, link_send strm data d =
    (ok, upd_net (fun n => mk_net l (n_sent n ++ if ok : bool then [(strm, data)] else []) (n_hello n) (n_closing n) (n_credit n) (n_granted n) (n_sendq n)) d)
    /\ (ok = false -> l = None \/ exists l0 l1, msg_send strm data l0 = (false, l1) /\ l = Some l1).
Proof.
  unfold link_send. destruct (n_link (d_net d)) as [l|] eqn:El.
  - destruct (msg_send strm data l) as [ok l'] eqn:Es. exists ok, (Some l'). split; [|intros ->; right; by exists l, l']. f_equal.
    unfold upd_net, set_link, log_sent. destruct ok; cbn; [done|]. by rewrite app_nil_r.
  - exists false, None. split; [|by left]. f_equal. destruct d as [w e m n lv ev a c h b1 b2]. unfold upd_net. cbn in *. f_equal.
    destruct n; cbn in *. by rewrite El, app_nil_r.
Qed.
End send.

(** What becomes of the head of the queue: the bytes sent, or [None] when it
    could not be read. *)
Definition outcome : Type := (harp_hash * option (list Z)).
Definition sent_of (l : list outcome) : list (list Z) := omap snd l.
Definition lost_of (l : list outcome) : Z := zlen (List.filter (fun x => bool_decide (x.2 = None)) l).

Section flush.
Context {L : Type} {ML : MsgLink L} {O' : OS} {R : Realloc} (conf : dev_conf).
Implicit Types d : device L.

Definition total_len (l : list (list Z)) : Z := fold_right (fun x s => zlen x + s) 0 l.

(** Why a flush stops before the end of the queue. *)
Definition stopped d d' : Prop :=
  queued (n_sendq (d_net d')) = [] \/
  exists h data, head (queued (n_sendq (d_net d'))) = Some h /\ obj_data (c_store conf) (w_fs (d_world d)) h = Some data /\
    (n_credit (d_net d') < zlen data \/ n_link (d_net d') = None \/ exists l0 l1, msg_send HARP_STREAM_OBJ data l0 = (false, l1) /\ n_link (d_net d') = Some l1).

Lemma total_len_app a b : total_len (a ++ b) = total_len a + total_len b.
Proof. unfold total_len. induction a as [|x a IH]; cbn [app fold_right]; lia. Qed.

Definition flushed d d' (done : list outcome) : Prop :=
  sendq_ok (n_sendq (d_net d')) /\ w_fs (d_world d') = w_fs (d_world d) /\
  queued (n_sendq (d_net d)) = map fst done ++ queued (n_sendq (d_net d')) /\
  n_sent (d_net d') = n_sent (d_net d) ++ map (pair HARP_STREAM_OBJ) (sent_of done) /\
  n_credit (d_net d') = n_credit (d_net d) - total_len (sent_of done) /\ 0 <= n_credit (d_net d') /\
  d_ctr d' obj_drops = u64 (d_ctr d obj_drops + lost_of done) /\
  (forall h data, (h, Some data) ∈ done -> obj_data (c_store conf) (w_fs (d_world d)) h = Some data).

Lemma flushed_nil d d' : sendq_ok (n_sendq (d_net d)) -> is_u64 (n_credit (d_net d)) -> is_u64 (d_ctr d obj_drops) ->
  w_fs (d_world d') = w_fs (d_world d) -> n_sendq (d_net d') = n_sendq (d_net d) -> n_sent (d_net d') = n_sent (d_net d) ->
  n_credit (d_net d') = n_credit (d_net d) -> d_ctr d' obj_drops = d_ctr d obj_drops -> flushed d d' [].
Proof.
  intros Hok Hcr Hct E1 E2 E3 E4 E5. unfold flushed. rewrite E1, E2, E3, E4, E5.
  cbn [sent_of omap list_omap map app total_len fold_right lost_of]. rewrite app_nil_r, Z.sub_0_r.
  split_and!; try done; [unfold is_u64 in Hcr; lia| |by intros ? ? ?%elem_of_nil].
  change (lost_of []) with 0. rewrite Z.add_0_r. symmetry. by apply u64_small.
Qed.

Lemma lost_cons x l : lost_of (x :: l) = (if bool_decide (x.2 = None) then 1 else 0) + lost_of l.
Proof. unfold lost_of. cbn [List.filter]. case_match; [rewrite zlen_cons|]; lia. Qed.

Lemma flushed_cons d d1 d2 h o done l : queued (n_sendq (d_net d)) = h :: l -> queued (n_sendq (d_net d1)) = l ->
  w_fs (d_world d1) = w_fs (d_world d) ->
  n_sent (d_net d1) = n_sent (d_net d) ++ map (pair HARP_STREAM_OBJ) (sent_of [(h, o)]) ->
  n_credit (d_net d1) = n_credit (d_net d) - total_len (sent_of [(h, o)]) ->
  d_ctr d1 obj_drops = u64 (d_ctr d obj_drops + lost_of [(h, o)]) ->
  (forall data, o = Some data -> obj_data (c_store conf) (w_fs (d_world d)) h = Some data) ->
  flushed d1 d2 done -> flushed d d2 ((h, o) :: done).
Proof.
  intros Hq Hq1 Ew Es Ec El Hd (F1 & F2 & F3 & F4 & F5 & F6 & F7 & F8). unfold flushed. rewrite Hq.
  assert (sent_of ((h, o) :: done) = sent_of [(h, o)] ++ sent_of done) as Eo by (unfold sent_of; by destruct o).
  split_and!; [done|congruence| | | |done| |].
  - cbn [map app fst]. by rewrite <- F3, Hq1.
  - by rewrite F4, Es, Eo, map_app, app_assoc.
  - rewrite F5, Ec, Eo, total_len_app. lia.
  - rewrite F7, El, !lost_cons. change (lost_of []) with 0.
    unfold u64. rewrite Zplus_mod_idemp_l. f_equal. lia.
  - intros h' data [[= -> <-]|Hin]%elem_of_cons; [by apply Hd|]. rewrite <- Ew. by apply F8.
Qed.

Lemma flush_loop_spec : forall fuel enc d, sendq_ok (n_sendq (d_net d)) -> is_u64 (n_credit (d_net d)) -> is_u64 (d_ctr d obj_drops) ->
  fuel = sq_count (n_sendq (d_net d)) ->
  exists done, flushed d (flush_loop conf fuel enc d) done /\ stopped d (flush_loop conf fuel enc d).
Proof.
  induction fuel as [|fuel IH]; intros enc d Hok Hcr Hct Hf; cbn [flush_loop].
  { exists []. split; [by apply flushed_nil|]. left. unfold queued. by rewrite <- Hf. }
  rewrite <- Hf. cbn [Nat.eqb]. destruct (queued (n_sendq (d_net d))) as [|h rest] eqn:Hq.
  { apply (f_equal length) in Hq. unfold queued in Hq. rewrite length_map, length_seq, <- Hf in Hq. done. }
  destruct (queued_pop _ _ _ Hok Hq) as (Hh & Hpop & Hrest & Hcnt). rewrite Hh.
  destruct (store_get_run (c_store conf) h (harp_cbuf_reset enc) (d_world d)) as ([ok enc'] & w1 & Eg & Hfs & Hdata).
  assert (on_store (harp_store_get (c_store conf) h (harp_cbuf_reset enc)) d = (Some (ok, enc'), set_world w1 d)) as Eo
    by (unfold on_store; by rewrite Eg).
  rewrite Eo. cbn [fst snd] in *. destruct ok; cbn [set_world d_net] in *.
  - destruct (Hdata eq_refl) as (data & Hd & Eb). cbn [cb_buf harp_cbuf_reset app] in Eb.
    destruct (Z.ltb_spec (n_credit (d_net d)) (cb_len enc')) as [Hc|Hc].
    { exists []. split; [by apply flushed_nil|]. right. exists h, data. cbn [set_world d_net]. rewrite Hq. split_and!; [done|done|].
      left. unfold cb_len in Hc. by rewrite Eb in Hc. }
    destruct (link_send_spec HARP_STREAM_OBJ data (set_world w1 d)) as (ok & l & Es & Hfail). rewrite Eb, Es.
    destruct ok; cbn [negb].
    + set (d1 := upd_net _ _). destruct (IH enc' d1 Hpop) as (done & Hfl & Hst).
      * cbn. unfold cb_len. rewrite Eb. apply u64_range.
      * exact Hct.
      * cbn. lia.
      * exists ((h, Some data) :: done). split.
        -- eapply (flushed_cons d d1); [done|done|done|done| | |by intros ? [= ->]|exact Hfl].
           ++ cbn. rewrite u64_small; unfold cb_len in *; rewrite Eb in *; [lia|]. unfold is_u64 in *. pose proof (zlen_nonneg data). lia.
           ++ cbn. change (lost_of [(h, Some data)]) with 0. rewrite Z.add_0_r. symmetry. by apply u64_small.
        -- unfold stopped in *. rewrite <- Hfs. exact Hst.
    + exists []. split; [apply flushed_nil; try done; apply app_nil_r|]. right. exists h, data. cbn. rewrite Hq. split_and!; [done|done|]. right.
      destruct (Hfail eq_refl) as [->|(l0 & l1 & Hm & ->)]; [by left|right; by exists l0, l1].
  - set (d1 := ctr_inc _ _). destruct (IH enc' d1 Hpop Hcr) as (done & Hfl & Hst).
    + cbn. apply u64_range.
    + cbn. lia.
    + exists ((h, None) :: done). split.
      * eapply (flushed_cons d d1); [done|done|done| | | |by intros ?|exact Hfl]; cbn; [by rewrite app_nil_r|lia|done].
      * unfold stopped in *. rewrite <- Hfs. exact Hst.
Qed.
End flush.

(** ** A device to run *)

Definition demo_link : MsgLink unit := fun _ _ l => (true, l).
Definition demo_env : DevEnv := {|
  env_ns := fun t => Z.of_nat t; env_time := fun _ => 1700000000; env_statvfs := fun _ => Some (1000, 500, 4096);
  env_thread := fun _ => true; env_calloc := fun _ => true; env_rtp_open := fun _ _ => 7; env_ffs_in := -1; env_ffs_out := -1;
  env_credit := None; env_force_rt := false; env_date := [74; 97; 110] |}.
Definition demo_conf : dev_conf := mk_conf s_dir [48] None None None 1 0 0 0 0 false 0.
Definition demo_audio : audio_state := mk_audio false false (-1) (-1) (-1) 0 0 0 (-1) false 0 0 48000 256 0 0 0 0 [0; 1] [] false 0 0 false false.
Definition demo_log : log_ring := mk_ring [] 0 0 0 0 0.
Definition demo_dev (f : fs) (q : sendq) (credit : Z) : device unit :=
  mk_dev (world_of f) (mk_engst g_parts_init false 0 0) (repeat 0 17, repeat 0 17)
    (mk_net (Some tt) [] true false credit 0 q) (mk_live ref_zero false 0 0)
    (mk_evt evq_empty (repeat txn_zero DEV_TXN_MAX) [] false 0) demo_audio (fun _ => 0) (repeat 0 33) fresh_bucket fresh_bucket demo_log (mk_rec false [] [] false (-1)) false.

(** C30: objects are sent under flow control.  Queueing a hash appends it to the
    queue, or counts a drop when the 1024 places are taken; a flush removes hashes
    from the front only, sending for each the stored bytes in the order of the
    queue - or counting a drop when the object cannot be read - never more bytes
    than the host has granted; and it stops early only because the next object
    does not fit the credit left or the link refused it, in which case that object
    is still queued. *)
Theorem sendq_flow_controlled {L : Type} {ML : MsgLink L} {O' : OS} {R : Realloc} (conf : dev_conf) (d : device L) (h : harp_hash) :
  sendq_ok (n_sendq (d_net d)) -> is_u64 (n_credit (d_net d)) -> is_u64 (d_ctr d obj_drops) ->
  (let d' := sendq_push h d in
   sendq_ok (n_sendq (d_net d')) /\
   if (sq_count (n_sendq (d_net d)) =? HARP_SENDQ_CAP)%nat
   then queued (n_sendq (d_net d')) = queued (n_sendq (d_net d)) /\ d_ctr d' obj_drops = u64 (d_ctr d obj_drops + 1)
   else queued (n_sendq (d_net d')) = queued (n_sendq (d_net d)) ++ [h] /\ d_ctr d' obj_drops = d_ctr d obj_drops) /\
  exists done, flushed conf d (sendq_flush conf d) done /\ stopped conf d (sendq_flush conf d).
Proof.
  intros Hok Hcr Hct. split; [|by apply flush_loop_spec].
  unfold sendq_push. destruct (Nat.eqb_spec (sq_count (n_sendq (d_net d))) HARP_SENDQ_CAP) as [Hf|Hf]; [by split|].
  destruct (queued_push _ h Hok) as [H1 H2]; [destruct Hok; lia|]. by split.
Qed.

Definition demo_hash (b : Z) : harp_hash := 1 :: repeat b 32.
Definition demo_obj_fs : fs := put_file (obj_path s_dir (demo_hash 7)) (mk_file [1; 2; 3] true) fs_empty.
Definition demo_sendq : sendq := mk_sendq (<[0%nat := demo_hash 9]> (<[1%nat := demo_hash 7]> (sq_arr sendq_empty))) 0 2 2.

(** The first hash is not stored and is dropped, the second is sent. *)
Lemma sendq_flow_controlled_witness :
  let d := demo_dev demo_obj_fs demo_sendq 3 in
  sendq_ok (n_sendq (d_net (@sendq_push unit (demo_hash 5) d))) /\
  n_sent (d_net (@sendq_flush unit demo_link alloc_all os_good demo_conf d)) = [(HARP_STREAM_OBJ, [1; 2; 3])] /\
  d_ctr (@sendq_flush unit demo_link alloc_all os_good demo_conf d) obj_drops = 1 /\
  exists done, @flushed unit demo_conf d (@sendq_flush unit demo_link alloc_all os_good demo_conf d) done.
Proof.
  intros d.
  assert (sendq_ok (n_sendq (d_net d))) as Hok.
  { split; [vm_compute; reflexivity|vm_compute; lia|vm_compute; lia|vm_compute; reflexivity]. }
  destruct (@sendq_flow_controlled unit demo_link os_good alloc_all demo_conf d (demo_hash 5) Hok ltac:(vm_compute; split; [discriminate|reflexivity])
    ltac:(vm_compute; split; [discriminate|reflexivity])) as ((H1 & _) & done & H2 & _).
  split; [exact H1|]. split; [vm_compute; reflexivity|]. split; [vm_compute; reflexivity|]. exists done. exact H2.
Defined.
