(* ===== verification/Reply.v ===== *)
(** * Requests and replies

    What the method handlers of session.c share: C string comparison, decoding a
    request's body, the response and error envelopes, the rate limit of expensive
    operations. *)
From Stdlib Require Import ZArith Lia String List Bool.
From stdpp Require Import base list.
From S2P Require Import Prelude Cbuf CborEnc CborDec CborFloat CborFields Sha256 Frame Envelope Object Link Fs Store RateLimit LogRing Params Evq Parts Device.
Open Scope Z_scope.
Open Scope list_scope.

(** ** C strings *)

(** [strcmp(a, b) == 0], [strcmp(a, b)] and [strncmp(s, p, strlen(p)) == 0]. *)
Definition streq (a b : list Z) : bool := bool_decide (a = b).
Fixpoint strcmp (a b : list Z) : Z :=
  match a, b with
  | [], [] => 0
  | [], _ :: _ => -1
  | _ :: _, [] => 1
  | x :: a, y :: b => if x <? y then -1 else if y <? x then 1 else strcmp a b
  end.
Definition has_prefix (p s : list Z) : bool := bool_decide (take (length p) s = p).

(** ** Bodies *)

(** Run [m] for its effect; its failure is not looked at. *)
Definition sm_try {S A} (m : SM S A) : SM S (option A) := fun s => let '(r, s) := m s in (Some r, s).

(** [decode_text_into]: the string reaches the array only if it fits; no caller
    looks at the result. *)
Definition decode_text_into {T} (cap : nat) (set : list Z -> T -> T) : parser T unit :=
  o ← sm_try (on_fst harp_cdec_text);
  match o with
  | Some s => if zlen s >=? Z.of_nat cap then mret tt else on_snd (sm_modify (set (cstr s)))
  | None => mret tt
  end.

(** [if (e->has_body)], then a parser over the body; the record keeps what was
    filled in before a [break]. *)
Definition body_parse {T} (m : parser T unit) (e : harp_env) (t : T) : T :=
  if e_has_body e then (m (harp_cdec_init (e_body e), t)).2.2 else t.

Definition get_uint {T} (set : Z -> T -> T) : parser T unit := v ← on_fst harp_cdec_uint; on_snd (sm_modify (set v)).
Definition get_float {T} (set : Z -> T -> T) : parser T unit := v ← on_fst harp_cdec_float; on_snd (sm_modify (set v)).
Definition skip_ignored {T} : parser T unit := sm_try (on_fst harp_cdec_skip);; mret tt.

(** The pattern [map && n >= k && uint(&key) && key == 0]. *)
Definition first_key {T} (k : Z) (m : Z -> parser T unit) : parser T unit :=
  n ← on_fst harp_cdec_map; sm_guard (k <=? n);;
  key ← on_fst harp_cdec_uint; sm_guard (key =? 0);; m n.

Definition handler (L : Type) : Type := harp_env -> device L -> device L.

Section reply.
Context {L : Type} {ML : MsgLink L} {E : DevEnv} {R : Realloc}.
Implicit Types d : device L.

(** What the operating system answers now; time passes. *)
Definition ask {A} (f : nat -> A) d : A * device L :=
  (f (w_clock (d_world d)), set_world (tick (d_world d)).2 d).

Definition method_of (e : harp_env) : list Z := cstr (e_method e).

Definition rsp_head (m : cbuf) (rid : Z) (method : list Z) (has_body : bool) : cbuf :=
  harp_env_head m HARP_MSG_RESPONSE rid method has_body.

(** A key of a map and its value. *)
Definition kuint (k v : Z) (b : cbuf) : cbuf := harp_cbor_uint (harp_cbor_uint b k) v.
Definition ktext (k : Z) (s : list Z) (b : cbuf) : cbuf := harp_cbor_text (harp_cbor_uint b k) s.
Definition kbytes (k : Z) (s : list Z) (b : cbuf) : cbuf := harp_cbor_bytes (harp_cbor_uint b k) s.
Definition kbool (k : Z) (v : bool) (b : cbuf) : cbuf := harp_cbor_bool (harp_cbor_uint b k) v.

(** The buffer, the head, the body, [send_ctl]. *)
Definition respond (e : harp_env) (body : cbuf -> cbuf) d : device L :=
  send_msg (body (rsp_head harp_cbuf_init (e_rid e) (method_of e) true)) d.
Definition respond_empty (e : harp_env) d : device L :=
  send_msg (rsp_head harp_cbuf_init (e_rid e) (method_of e) false) d.
Definition fail_with (e : harp_env) (code : list Z) (msg : option (list Z)) d : device L :=
  send_error (e_rid e) (method_of e) code msg d.

(** An error reply with details: [{0: code, 1: message, 2: details}]. *)
Definition fail_details (e : harp_env) (code msg : list Z) (details : cbuf -> cbuf) d : device L :=
  let b := harp_env_head harp_cbuf_init HARP_MSG_ERROR (e_rid e) (method_of e) true in
  let b := ktext 1 msg (ktext 0 code (harp_cbor_map b 3)) in
  send_msg (details (harp_cbor_uint b 2)) d.

Definition RL_COST_NS : Z := 100000000.
Definition RL_BURST_NS : Z := 500000000.

(** [true]: shed. *)
Definition expensive_op_shed (e : harp_env) (get : device L -> harp_op_bucket)
    (set : harp_op_bucket -> device L -> device L) d : bool * device L :=
  let '(now, d) := ask env_ns d in
  let '(ok, b) := harp_op_admit (get d) now RL_COST_NS RL_BURST_NS in
  let d := set b d in
  if ok : bool then (false, d)
  else (true, fail_with e (str "busy") (Some (str "rate-limited (" ++ [0xc2; 0xa7] ++ str "16); retry shortly")) (ctr_inc rate_limited d)).

Definition set_rl_snapshot (b : harp_op_bucket) d : device L := set_buckets b (d_rl_bundle d) d.
Definition set_rl_bundle (b : harp_op_bucket) d : device L := set_buckets (d_rl_snapshot d) b d.
End reply.
