(* ===== verification/State.v ===== *)
(** * State capture and recall

    state.c: the live parameters as a stored snapshot and back, the live ref with
    its write coalescing, the front panel's one path into the engine, and the
    closure check of a ref update. *)
From Stdlib Require Import ZArith Lia List String Bool.
From stdpp Require Import base list.
From S2P Require Import Prelude Cbuf CborEnc CborFloat Object Fs Store Params Evq Ieee Parts Device.
Open Scope Z_scope.
Open Scope list_scope.

Section state.
Context {L : Type} {ML : MsgLink L} {E : DevEnv} {R : Realloc} {Q : Qsort} {O' : OS} {F : Faults} (conf : dev_conf).
Implicit Types d : device L.

(** ** Snapshots *)

(** [v[pi][i] = engine_part_param_get(pi, g_params[i].id)] *)
Definition engine_grid (ps : list part) : grid :=
  map (fun pi => map (fun p => engine_part_param_get g_params (pvals ps) (Z.of_nat pi) (p_id p)) g_params) (seq 0 NPARTS).

Definition engine_encode_params_blob (ps : list part) (out : cbuf) : cbuf :=
  harp_obj_encode_blob out PARAMS_MEDIA (cb_buf (refdev_encode_params_blob g_params (engine_grid ps) harp_cbuf_init)).

(** [harp_store_put] of a buffer, whose [oom] flag is not tested; the hash. *)
Definition put_object (enc : cbuf) : SM (device L) harp_hash :=
  on_store (harp_store_put (c_store conf) (cb_buf enc));; mret (harp_hash_compute (cb_buf enc)).

Definition unix_time : SM (device L) Z := t ← on_store tick; mret (env_time t).

Definition engine_snapshot_objects (parent : option harp_hash) (msg : option (list Z)) : SM (device L) harp_hash :=
  d ← sm_get;
  let enc := engine_encode_params_blob (e_parts (d_eng d)) harp_cbuf_init in
  blob_h ← put_object enc;
  let enc := harp_obj_encode_tree (harp_cbuf_reset enc) [mk_entry (str "params") blob_h HARP_OBJ_BLOB] in
  tree_h ← put_object enc;
  now ← unix_time;
  put_object (harp_obj_encode_snapshot (harp_cbuf_reset enc) tree_h (match parent with Some p => [p] | None => [] end)
                now (str "device") ENGINE_VERSION msg).

(** [load_ctx]: the staged grid and [ok]. *)
Record load_ctx := mk_load { ld_staged : grid; ld_ok : bool }.

(** The scratch grid of a blob before parsing; its cells are read only where
    marked present. *)
Definition scratch : gridst := mk_gs (repeat (repeat 0 (NPARAMS g_params)) NPARTS) (repeat (repeat false (NPARAMS g_params)) NPARTS).

(** [if (present[pi][i]) staged[pi][i] = v[pi][i]] *)
Definition overlay (g : gridst) (staged : grid) : grid :=
  map (fun pi => map (fun i => if marked (gs_present g) pi i then cell (gs_v g) pi i else cell staged pi i)
    (seq 0 (NPARAMS g_params))) (seq 0 NPARTS).

Definition load_fail (w : world) (c : load_ctx) : bool * (world * load_ctx) := (false, (w, mk_load (ld_staged c) false)).

Definition load_tree_entry : harp_tree_cb (world * load_ctx) := fun name h kind st =>
  let '(w, c) := st in
  if negb (length name =? 6)%nat || negb (memcmp name (str "params") =? 0) || negb (kind =? HARP_OBJ_BLOB) then (true, st)
  else
    match harp_store_get (c_store conf) h harp_cbuf_init w with
    | (Some (true, enc), w) =>
        match harp_obj_parse_blob (cb_buf enc) with
        | None => load_fail w c
        | Some (_, payload) =>
            let '(ok, g) := refdev_parse_params_blob g_params payload scratch in
            if negb ok then load_fail w c else (true, (w, mk_load (overlay g (ld_staged c)) (ld_ok c)))
        end
    | (_, w) => load_fail w c
    end.

(** The commit into the live engine. *)
Definition commit_row (staged : grid) (ps : list part) (pi : nat) : list part :=
  fold_left (fun ps i => parts_param_put (Z.of_nat pi) (p_id (param_at g_params i)) (cell staged pi i) ps) (seq 0 (NPARAMS g_params)) ps.
Definition commit_grid (staged : grid) (ps : list part) : list part := fold_left (commit_row staged) (seq 0 NPARTS) ps.

(** [harp_store_get] into a fresh buffer; fails on -1. *)
Definition get_object (h : harp_hash) : SM (device L) (list Z) :=
  r ← on_store (harp_store_get (c_store conf) h harp_cbuf_init);
  sm_guard r.1;; mret (cb_buf r.2).

Definition engine_load_snapshot (snap_h : harp_hash) : SM (device L) unit :=
  enc ← get_object snap_h;
  match harp_obj_parse_snapshot_root enc with
  | None => sm_fail
  | Some root =>
      tree_enc ← get_object root;
      d ← sm_get;
      let '(walked, (w, c)) := harp_obj_tree_foreach tree_enc load_tree_entry
        (d_world d, mk_load (engine_grid (e_parts (d_eng d))) true) in
      sm_modify (set_world w);;
      sm_guard (walked && ld_ok c);;
      sm_modify (upd_eng (on_parts (commit_grid (ld_staged c))))
  end.

(** ** The parameter map hash *)

Definition hash_param_map_into d : device L := set_hash (param_map_hash g_params) d.

Definition refresh_param_map_hash d : bool * device L :=
  let prev := d_hash d in
  let d := hash_param_map_into d in
  (negb (memcmp prev (d_hash d) =? 0), d).

(** ** The live ref *)

Definition set_cache (r : harp_ref) (v : live_state) : live_state := mk_live r (lv_valid v) (lv_last_ntf v) (lv_archives v).
Definition set_valid (b : bool) (v : live_state) : live_state := mk_live (lv_cache v) b (lv_last_ntf v) (lv_archives v).
Definition set_last_ntf (t : Z) (v : live_state) : live_state := mk_live (lv_cache v) (lv_valid v) t (lv_archives v).

(** The result of a write is ignored. *)
Definition write_ref (r : harp_ref) d : device L := (on_store (harp_store_ref_write (c_store conf) r) d).2.

Definition now_ms : SM (device L) Z := t ← now_ns; mret (t / 1000000).

Definition live_load : SM (device L) unit :=
  d ← sm_get;
  if lv_valid (d_live d) then mret tt
  else r ← on_store (harp_store_ref_read (c_store conf) LIVE_REF);
       sm_modify (upd_live (fun v => set_valid true (set_cache r v))).

Definition ref_touched (dirty : bool) (r : harp_ref) : harp_ref :=
  mk_ref (r_name r) (r_unborn r) (r_hash r) (u64 (r_generation r + 1)) dirty.

Definition live_ref_touch (dirty : bool) d : device L :=
  match live_load d with
  | (None, d) => d
  | (Some _, d) =>
      let transition := dirty && negb (r_dirty (lv_cache (d_live d))) in
      let d := upd_live (fun v => set_cache (ref_touched dirty (lv_cache v)) v) d in
      let d := if transition then write_ref (lv_cache (d_live d)) d else d in
      match now_ms d with
      | (Some now, d) =>
          let do_ntf := transition || (250 <=? u64 (now - lv_last_ntf (d_live d))) in
          let d := if do_ntf then upd_live (set_last_ntf now) d else d in
          if do_ntf then ntf_state_changed (lv_cache (d_live d)) d else d
      | (None, d) => d
      end
  end.

Definition live_cache_flush d : device L :=
  if lv_valid (d_live d) then upd_live (set_valid false) (write_ref (lv_cache (d_live d)) d) else d.

Context {FC : FpConv}.

(** [if (v < 0) v = 0; if (v > 1) v = 1;] *)
Definition clamp01 (v : Z) : Z := let v := if f64_lt v 0 then 0 else v in if f64_lt F64_ONE v then F64_ONE else v.

Definition front_panel_set_part (part id v : Z) d : bool * device L :=
  let v := clamp01 v in
  if (part <? 0) || (Z.of_nat NPARTS <=? part) then (false, d)
  else
    match param_index g_params id with
    | None => (false, d)
    | Some _ =>
        let d := upd_eng (on_parts (parts_param_put part id (f64_to_f32 v))) d in
        let d := live_ref_touch true d in
        (true, evt_echo_param id (f64_to_f32 v) (u8 part) d)
    end.

Definition front_panel_set (id v : Z) d : bool * device L := front_panel_set_part 0 id v d.

(** ** Taking a snapshot *)

Definition do_snapshot (msg : option (list Z)) : SM (device L) (harp_hash * Z) :=
  sm_modify live_cache_flush;;
  r ← on_store (harp_store_ref_read (c_store conf) LIVE_REF);
  snap ← engine_snapshot_objects (if r_unborn r then None else Some (r_hash r)) msg;
  let r := mk_ref (r_name r) false snap (u64 (r_generation r + 1)) false in
  on_store (harp_store_ref_write (c_store conf) r);;
  sm_modify (ctr_inc snapshots_taken);;
  sm_modify (ntf_state_changed r);;
  mret (snap, r_generation r).

(** ** Closure check

    [k]: the levels left before [ctx->depth > 16]; the state is the store and
    [complete]. *)
Fixpoint closure_walk (k : nat) (h : harp_hash) (st : world * bool) : world * bool :=
  if negb st.2 then st
  else
    match k with
    | O => st
    | S k =>
        match harp_store_have (c_store conf) h st.1 with
        | (Some true, w) =>
            match harp_store_get (c_store conf) h harp_cbuf_init w with
            | (Some (true, enc), w) =>
                let visit h st := let st := closure_walk k h st in (st.2, st) in
                let '(ok, st) := harp_obj_foreach_child (cb_buf enc) false visit (w, true) in
                if ok : bool then st else (st.1, false)
            | (_, w) => (w, false)
            end
        | (_, w) => (w, false)
        end
    end.

Definition CLOSURE_LEVELS : nat := 17.
Definition closure_complete (h : harp_hash) : SM (device L) bool :=
  fun d => let '(w, c) := closure_walk CLOSURE_LEVELS h (d_world d, true) in (Some c, set_world w d).
End state.
