(* ===== verification/StateSpec.v ===== *)
(** * Properties of state capture and recall

    Snapshot and recall round trip through the store, all-or-nothing loading, the
    closure check, and the live ref's write coalescing. *)
From Stdlib Require Import ZArith Lia List String Bool Sorting.Permutation.
From stdpp Require Import base list gmap.
From S2P Require Import Prelude Cbuf CborEnc CborDec CborFloat Frame CborFields Object ObjectWalk Link Fs Store HashSet StoreGc GcMark Params Evq Ieee Parts PartsSpec Device DeviceSpec State.
Open Scope Z_scope.
Open Scope list_scope.

#[local] Arguments NPARAMS : simpl never.
#[local] Arguments NPARTS : simpl never.
#[local] Arguments NVOICES : simpl never.

(** ** Encoders do not fail while memory lasts *)

Create HintDb oom.

Section oom.
Context {R : Realloc} (Ht : realloc_total R).

Lemma oom_put b p : cb_oom b = false -> cb_oom (harp_cbuf_put b p) = false.
Proof. apply (never_oom_put p Ht). Qed.

Lemma oom_fold {A} (f : cbuf -> A -> cbuf) l : (forall b x, cb_oom b = false -> cb_oom (f b x) = false) ->
  forall b, cb_oom b = false -> cb_oom (fold_left f l b) = false.
Proof. intros Hf. induction l as [|x l IH]; intros b Hb; [done|]. cbn [fold_left]. auto. Qed.

Lemma oom_uint b v : cb_oom b = false -> cb_oom (harp_cbor_uint b v) = false.
Proof. apply oom_put. Qed.
Lemma oom_array b v : cb_oom b = false -> cb_oom (harp_cbor_array b v) = false.
Proof. apply oom_put. Qed.
Lemma oom_map b v : cb_oom b = false -> cb_oom (harp_cbor_map b v) = false.
Proof. apply oom_put. Qed.
Lemma oom_text b s : cb_oom b = false -> cb_oom (harp_cbor_text b s) = false.
Proof. intros Hb. by apply oom_put, oom_put. Qed.
Lemma oom_bytes b s : cb_oom b = false -> cb_oom (harp_cbor_bytes b s) = false.
Proof. intros Hb. by apply oom_put, oom_put. Qed.
Lemma oom_float b v : cb_oom b = false -> cb_oom (harp_cbor_float b v) = false.
Proof. apply oom_put. Qed.
#[local] Hint Resolve oom_fold oom_uint oom_array oom_map oom_text oom_bytes oom_float : oom.

Lemma oom_blob b m p : cb_oom b = false -> cb_oom (harp_obj_encode_blob b m p) = false.
Proof. intros Hb. unfold harp_obj_encode_blob. auto 20 with oom. Qed.

Lemma oom_tree {Q : Qsort} b l : zlen l <= 256 -> cb_oom b = false -> cb_oom (harp_obj_encode_tree b l) = false.
Proof.
  intros Hl Hb. unfold harp_obj_encode_tree. rewrite Z.gtb_ltb, (proj2 (Z.ltb_ge _ _)) by lia.
  apply oom_fold; [|auto 10 with oom]. intros b' e Hb'. unfold encode_entry. auto 10 with oom.
Qed.

Lemma oom_snapshot b r ps t a e m : cb_oom b = false -> cb_oom (harp_obj_encode_snapshot b r ps t a e m) = false.
Proof. intros Hb. unfold harp_obj_encode_snapshot. destruct m; auto 30 with oom. Qed.

Lemma oom_params table v b : cb_oom b = false -> cb_oom (refdev_encode_params_blob table v b) = false.
Proof.
  intros Hb. unfold refdev_encode_params_blob. apply oom_fold; [|auto with oom]. intros b' pi Hb'. unfold encode_part.
  apply oom_fold; [|auto with oom]. intros b2 j Hb2. unfold encode_cell. auto with oom.
Qed.
End oom.

(** Memory lasts, so the encoder did not fail. *)
Ltac oom_by HR := repeat
  lazymatch goal with
  | |- cb_oom (if _ then _ else _) = false => case_match
  | |- cb_oom (harp_cbor_uint _ _) = false => apply (oom_uint HR)
  | |- cb_oom (harp_cbor_array _ _) = false => apply (oom_array HR)
  | |- cb_oom (harp_cbor_map _ _) = false => apply (oom_map HR)
  | |- cb_oom (harp_cbor_text _ _) = false => apply (oom_text HR)
  | |- cb_oom (harp_cbor_bytes _ _) = false => apply (oom_bytes HR)
  | |- cb_oom (harp_cbor_bool _ _) = false => apply (oom_put HR)
  | |- cb_oom (harp_cbor_float _ _) = false => apply (oom_float HR)
  | |- cb_oom (harp_cbuf_put _ _) = false => apply (oom_put HR)
  | |- cb_oom (fold_left _ _ _) = false => apply oom_fold; [intros|]
  | |- cb_oom harp_cbuf_init = false => reflexivity
  | |- cb_oom (harp_cbuf_reset _) = false => reflexivity
  | |- cb_oom ?b = false => is_var b; assumption
  end.

(** ** Objects in the store *)

Definition stored (s : path) (f : fs) (e : list Z) : Prop := obj_data s f (harp_hash_compute e) = Some e.

(** No object is stored under the hash of another. *)
Definition no_clash (s : path) (f : fs) (l : list (list Z)) : Prop :=
  (forall e y, e ∈ l -> obj_data s f (harp_hash_compute e) = Some y -> y = e) /\
  (forall e e', e ∈ l -> e' ∈ l -> harp_hash_compute e = harp_hash_compute e' -> e = e').

Section objects.
Context {O' : OS} {F : Faults} {R : Realloc} (s : path) (Hfl : flush_reliable) (Hs : dir_ok s).

Lemma obj_path_short h : is_hash h -> (length (obj_path s h) < HARP_STORE_PATH_MAX)%nat.
Proof. intros Hh. rewrite obj_path_length by done. unfold dir_ok, STORE_DIR_MAX, HARP_STORE_PATH_MAX in *. lia. Qed.

Lemma obj_path_tmp h h' : is_hash h -> is_hash h' -> obj_path s h' <> tmp_path (obj_path s h).
Proof.
  intros Hh Hh' E. pose proof (tmp_path_longer (obj_path s h) (obj_path_short h Hh)) as Hl.
  rewrite <- E, !obj_path_length in Hl by done. lia.
Qed.

(** A put leaves the directories and the other objects; when it succeeds its
    object is there. *)
Lemma put_run e w r w' : no_obj_dirs s (w_fs w) -> harp_store_put s e w = (r, w') ->
  fs_dirs (w_fs w') = fs_dirs (w_fs w) /\
  (forall h, is_hash h -> h <> harp_hash_compute e -> obj_data s (w_fs w') h = obj_data s (w_fs w) h) /\
  match r with
  | Some _ => obj_data s (w_fs w') (harp_hash_compute e) =
                Some (match obj_data s (w_fs w) (harp_hash_compute e) with Some y => y | None => e end)
  | None => obj_data s (w_fs w') (harp_hash_compute e) = obj_data s (w_fs w) (harp_hash_compute e)
  end.
Proof.
  intros Hnd Hrun. set (h := harp_hash_compute e) in *. pose proof (is_hash_compute e : is_hash h) as Hh.
  unfold harp_store_put in Hrun. erewrite sm_bind_run in Hrun by apply path_readable_run. fold h in Hrun.
  destruct (exists_path (w_fs w) (obj_path s h)) eqn:Ex.
  - injection Hrun as <- <-. split_and!; [done|done|].
    unfold exists_path in Ex. apply orb_true_iff in Ex as [Ex|Ex]; apply bool_decide_eq_true in Ex; [|by destruct (Hnd h)].
    unfold obj_data. apply elem_of_dom in Ex as [x Hx]. by rewrite Hx.
  - destruct (triple_write_atomic (obj_path s h) e (w_fs w) w r w' eq_refl Hrun) as (HQ & _).
    assert (obj_data s (w_fs w) h = None) as Hnone.
    { unfold exists_path in Ex. apply orb_false_elim in Ex as [Ex _]. apply bool_decide_eq_false in Ex.
      apply not_elem_of_dom in Ex. unfold obj_data. by rewrite Ex. }
    rewrite Hnone. destruct r as [[]|]; cbn [wa_post] in HQ.
    + apply (wa_done_eq _ _ _ _ Hfl) in HQ as ->. split_and!; [done| |].
      * intros h' Hh' Hne. unfold obj_data. rewrite lookup_put_ne; [by rewrite lookup_del_ne by (symmetry; by apply obj_path_tmp)|].
        intros E. apply Hne. symmetry. by apply (obj_path_inj s).
      * unfold obj_data. by rewrite lookup_put_eq.
    + assert (forall h', is_hash h' -> obj_data s (w_fs w') h' = obj_data s (w_fs w) h') as Hsame.
      { intros h' Hh'. unfold obj_data. rewrite (wa_before_lookup (obj_path s h) (w_fs w)); [done|done|by apply obj_path_tmp]. }
      split_and!; [|by intros; apply Hsame|by rewrite <- Hnone; apply Hsame].
      destruct HQ as [->|[[x ->]| ->]]; done.
Qed.

Lemma put_stored l e w w' : no_obj_dirs s (w_fs w) -> no_clash s (w_fs w) l -> e ∈ l ->
  harp_store_put s e w = (Some tt, w') ->
  no_obj_dirs s (w_fs w') /\ no_clash s (w_fs w') l /\ stored s (w_fs w') e /\
  (forall e', e' ∈ l -> stored s (w_fs w) e' -> stored s (w_fs w') e').
Proof.
  intros Hnd [Hc1 Hc2] He Hrun. destruct (put_run _ _ _ _ Hnd Hrun) as (H1 & H2 & H3). cbn in H3.
  assert (stored s (w_fs w') e) as Hst.
  { unfold stored. rewrite H3. destruct (obj_data s (w_fs w) (harp_hash_compute e)) as [y|] eqn:Ey; [|done].
    by rewrite (Hc1 e y He Ey). }
  assert (forall e', e' ∈ l -> obj_data s (w_fs w') (harp_hash_compute e') = obj_data s (w_fs w) (harp_hash_compute e') \/ e' = e) as Hother.
  { intros e' He'. destruct (decide (harp_hash_compute e' = harp_hash_compute e)) as [E|Hne]; [right; by apply Hc2|left].
    apply H2; [apply is_hash_compute|done]. }
  split_and!.
  - intros h Hh. rewrite H1. by apply Hnd.
  - split; [|done]. intros e' y He' Hy. destruct (Hother e' He') as [E| ->]; [rewrite E in Hy; by apply Hc1|].
    unfold stored in Hst. congruence.
  - done.
  - intros e' He' Hst'. unfold stored in *. destruct (Hother e' He') as [E| ->]; [by rewrite E|done].
Qed.

(** What is stored can be read when reads work. *)
Lemma get_stored h data w : reads_ok -> obj_data s (w_fs w) h = Some data ->
  exists b w1, harp_store_get s h harp_cbuf_init w = (Some (true, b), w1) /\ cb_buf b = data /\ w_fs w1 = w_fs w.
Proof.
  intros (Ho & Hr & Ht) Hd. unfold harp_store_get. erewrite sm_bind_run by apply read_file_run.
  unfold read_result, obj_data in *. destruct (fs_files (w_fs w) !! obj_path s h) as [x|]; [|done].
  injection Hd as <-. rewrite Ho, Hr. cbn [orb]. rewrite get_loop_total by done. eexists _, _. split; [reflexivity|].
  split; [|done]. rewrite get_loop_spec; [done|lia|]. by apply get_loop_total.
Qed.
End objects.

(** ** The live values as a grid *)

Section grids.

Lemma pvals_dims ps : parts_ok ps -> dims (NPARAMS g_params) (pvals ps).
Proof.
  intros [Hl Hp]. split; [by unfold pvals; rewrite length_map|]. unfold pvals. apply List.Forall_map.
  eapply List.Forall_impl; [|exact Hp]. intros p Hok. by destruct Hok.
Qed.

Lemma engine_grid_pvals ps : parts_ok ps -> engine_grid ps = pvals ps.
Proof.
  intros Hps. pose proof (pvals_dims ps Hps) as Hd. apply (cell_ext (NPARAMS g_params)); [|done|].
  - split; [by unfold engine_grid; rewrite length_map, length_seq|]. apply List.Forall_map, List.Forall_forall.
    intros pi _. by rewrite length_map.
  - intros pi j Hpi Hj. unfold cell at 1, engine_grid.
    rewrite (nth_indep _ [] ((fun pi => map (fun p => engine_part_param_get g_params (pvals ps) (Z.of_nat pi) (p_id p)) g_params) 0%nat))
      by (by rewrite length_map, length_seq).
    rewrite (map_nth (fun pi => map (fun p => engine_part_param_get g_params (pvals ps) (Z.of_nat pi) (p_id p)) g_params)).
    rewrite seq_nth by done. cbn [Nat.add].
    set (f := fun p => engine_part_param_get g_params (pvals ps) (Z.of_nat pi) (p_id p)).
    rewrite (nth_indep _ 0 (f (mk_param 0 [] 0 [] 0))) by (by rewrite length_map). rewrite (map_nth f).
    unfold f, engine_part_param_get.
    rewrite (proj2 (Z.ltb_ge _ _)), (proj2 (Z.leb_gt _ _)) by lia. cbn [orb].
    change (nth j g_params (mk_param 0 [] 0 [] 0)) with (param_at g_params j).
    rewrite param_index_at by (done || apply g_params_ids). by rewrite Nat2Z.id.
Qed.

Lemma parts_param_put_pvals pi id v ps : parts_ok ps ->
  pvals (parts_param_put pi id v ps) = engine_part_param_put g_params pi id v (pvals ps).
Proof.
  intros [Hl _]. unfold parts_param_put, engine_part_param_put.
  destruct ((pi <? 0) || (Z.of_nat NPARTS <=? pi)) eqn:Er; [done|]. destruct (param_index g_params id) as [j|]; [|done].
  apply orb_false_elim in Er as [E1 E2]. bool_to_prop. unfold set_cell.
  assert (Z.to_nat pi < length ps)%nat as Hlt by lia. revert Hlt. generalize (Z.to_nat pi). clear. intros i Hi.
  unfold pvals. apply (nth_ext _ _ [] []); [by rewrite length_map, length_alter, length_insert, length_map|].
  intros k Hk. rewrite length_map, length_alter in Hk.
  rewrite nth_list_insert by (by rewrite length_map). change [] with (p_pval (set_pval (fun _ => []) part_init)).
  rewrite !map_nth. destruct (Nat.eqb_spec k i) as [->|Hne].
  - by rewrite nth_alter_eq.
  - by rewrite nth_alter_ne.
Qed.

(** A part without its values. *)
Definition but_values (ps : list part) : list part := map (set_pval (fun _ => [])) ps.

Lemma parts_param_put_rest pi id v ps : but_values (parts_param_put pi id v ps) = but_values ps.
Proof.
  unfold parts_param_put. case_match; [done|]. destruct (param_index g_params id); [|done].
  unfold but_values. apply list_eq. intros k. rewrite !map_lookup.
  destruct (decide (k = Z.to_nat pi)) as [->|Hne]; [rewrite list_lookup_alter_eq|by rewrite list_lookup_alter_ne].
  by destruct (ps !! Z.to_nat pi).
Qed.

Definition committed (staged : grid) (ps0 : list part) (pi k : nat) (ps : list part) : Prop :=
  parts_ok ps /\ but_values ps = but_values ps0 /\
  forall p j, (p < NPARTS)%nat -> (j < NPARAMS g_params)%nat -> (p < pi \/ p = pi /\ j < k)%nat ->
    cell (pvals ps) p j = cell staged p j.

Lemma commit_cell staged ps0 pi k ps : (pi < NPARTS)%nat -> (k < NPARAMS g_params)%nat -> committed staged ps0 pi k ps ->
  committed staged ps0 pi (S k) (parts_param_put (Z.of_nat pi) (p_id (param_at g_params k)) (cell staged pi k) ps).
Proof.
  intros Hpi Hk (H1 & H2 & H3). split; [by apply parts_ok_put|]. split; [by rewrite parts_param_put_rest|].
  intros p j Hp Hj Hd. rewrite parts_param_put_pvals by done. unfold engine_part_param_put.
  rewrite (proj2 (Z.ltb_ge _ _)), (proj2 (Z.leb_gt _ _)) by lia. cbn [orb].
  rewrite param_index_at, Nat2Z.id by (done || apply g_params_ids).
  rewrite (cell_set_cell _ (NPARAMS g_params)) by (done || by apply pvals_dims).
  destruct (Nat.eqb_spec p pi) as [->|], (Nat.eqb_spec j k) as [->|]; cbn [andb]; try done; apply H3; try done; lia.
Qed.

(** Committing a grid makes it the live values and changes nothing else. *)
Lemma commit_grid_spec staged ps : parts_ok ps -> dims (NPARAMS g_params) staged ->
  pvals (commit_grid staged ps) = staged /\ parts_ok (commit_grid staged ps) /\ but_values (commit_grid staged ps) = but_values ps.
Proof.
  intros Hps Hst. assert (committed staged ps NPARTS 0 (commit_grid staged ps)) as (H1 & H2 & H3).
  { unfold commit_grid. apply (fold_seq_inv (fun pi => committed staged ps pi 0)); [split_and!; [done|done|]; intros; lia|].
    intros pi ps1 Hpi Hc. unfold commit_row.
    assert (committed staged ps pi (NPARAMS g_params) (fold_left (fun ps i => parts_param_put (Z.of_nat pi) (p_id (param_at g_params i)) (cell staged pi i) ps)
      (seq 0 (NPARAMS g_params)) ps1)) as (G1 & G2 & G3).
    { apply (fold_seq_inv (committed staged ps pi)); [done|]. intros k ps2 Hk Hc2. by apply commit_cell. }
    split_and!; [done|done|]. intros p j Hp Hj Hd. apply G3; lia. }
  split_and!; [|done|done]. apply (cell_ext (NPARAMS g_params)); [by apply pvals_dims|done|]. intros pi j Hpi Hj. apply H3; lia.
Qed.

Lemma overlay_dims g staged : dims (NPARAMS g_params) (overlay g staged).
Proof.
  split; [by unfold overlay; rewrite length_map, length_seq|]. apply List.Forall_map, List.Forall_forall. intros pi _.
  by rewrite length_map, length_seq.
Qed.

Lemma overlay_cell g staged pi j : (pi < NPARTS)%nat -> (j < NPARAMS g_params)%nat ->
  cell (overlay g staged) pi j = if marked (gs_present g) pi j then cell (gs_v g) pi j else cell staged pi j.
Proof.
  intros Hpi Hj. unfold cell at 1, overlay.
  set (row := fun pi => map (fun i => if marked (gs_present g) pi i then cell (gs_v g) pi i else cell staged pi i) (seq 0 (NPARAMS g_params))).
  rewrite (nth_indep _ [] (row 0%nat)) by (by rewrite length_map, length_seq). rewrite (map_nth row), seq_nth by done. cbn [Nat.add].
  unfold row. set (f := fun i => if marked (gs_present g) pi i then cell (gs_v g) pi i else cell staged pi i).
  rewrite (nth_indep _ 0 (f 0%nat)) by (by rewrite length_map, length_seq). by rewrite (map_nth f), seq_nth by done.
Qed.

(** Overlaying the document of a whole grid gives the grid. *)
Lemma overlay_grid v staged : grid_ok g_params v -> overlay (run_doc g_params (grid_doc g_params v) scratch) staged = v.
Proof.
  intros Hv. destruct (run_grid_doc g_params g_params_ids v scratch Hv) as [Hok Hf]; [split; by apply dims_repeat, repeat_length|].
  apply (cell_ext (NPARAMS g_params)); [apply overlay_dims|apply Hv|]. intros pi j Hpi Hj. rewrite overlay_cell by done.
  destruct (Hf pi j Hpi Hj ltac:(lia)) as [E1 E2]. by rewrite E2.
Qed.
End grids.

(** ** The objects of a snapshot *)

Definition blob_of (ps : list part) : obj := OBlob PARAMS_MEDIA (enc_doc (grid_doc g_params (pvals ps))).
Definition params_entry (ps : list part) : harp_tree_entry := mk_entry (str "params") (harp_hash_compute (enc_obj (blob_of ps))) HARP_OBJ_BLOB.
Definition tree_of (ps : list part) : obj := OTree [params_entry ps].
Definition snapshot_of (ps : list part) (parent : option harp_hash) (msg : option (list Z)) (t : Z) : obj :=
  OSnapshot (harp_hash_compute (enc_obj (tree_of ps))) (match parent with Some p => [p] | None => [] end) t (str "device") ENGINE_VERSION msg.
Definition snapshot_objects (ps : list part) (parent : option harp_hash) (msg : option (list Z)) (t : Z) : list (list Z) :=
  [enc_obj (blob_of ps); enc_obj (tree_of ps); enc_obj (snapshot_of ps parent msg t)].

Lemma qsort_single {Q : Qsort} x : qsort entry_cmp [x] = [x].
Proof. apply Permutation_length_1_inv. symmetry. apply qsort_perm. Qed.

Section snapshot.
Context {L : Type} {ML : MsgLink L} {E : DevEnv} {R : Realloc} {Q : Qsort} {O' : OS} {F : Faults} (conf : dev_conf).
Implicit Types d : device L.

(** What the hypotheses of the section say: the C library's heap does not fail,
    and an [fflush] that does not report an error has flushed. *)
Context (Ht : realloc_total R) (Hfl : flush_reliable) (Hs : dir_ok (c_store conf)).

Lemma put_object_run enc d h d1 : put_object conf enc d = (Some h, d1) ->
  h = harp_hash_compute (cb_buf enc) /\
  exists w1, harp_store_put (c_store conf) (cb_buf enc) (d_world d) = (Some tt, w1) /\ d1 = set_world w1 d.
Proof.
  intros H. unfold put_object in H. sm_inv H. unfold on_store in E0. injection H as <- <-.
  destruct (harp_store_put _ _ _) as [[[]|] w1]; [|done]. injection E0 as <- <-. eauto.
Qed.

Lemma blob_enc ps : parts_ok ps -> cb_buf (engine_encode_params_blob ps harp_cbuf_init) = enc_obj (blob_of ps) /\
  cb_oom (engine_encode_params_blob ps harp_cbuf_init) = false.
Proof.
  intros Hps. unfold engine_encode_params_blob. rewrite engine_grid_pvals by done.
  assert (cb_buf (refdev_encode_params_blob g_params (pvals ps) harp_cbuf_init) = enc_doc (grid_doc g_params (pvals ps))) as ->.
  { apply (appends_run (refdev_encode_params_blob g_params (pvals ps))); [apply appends_params|by apply oom_params]. }
  split; [|by apply oom_blob]. apply (appends_run (fun b => harp_obj_encode_blob b PARAMS_MEDIA _)); [apply appends_blob|by apply oom_blob].
Qed.

Lemma tree_enc ps b : cb_buf (harp_obj_encode_tree (harp_cbuf_reset b) [params_entry ps]) = enc_obj (tree_of ps) /\
  cb_oom (harp_obj_encode_tree (harp_cbuf_reset b) [params_entry ps]) = false.
Proof.
  assert (zlen [params_entry ps] <= 256) as Hz by (rewrite zlen_cons, zlen_nil; lia).
  split; [|by apply oom_tree].
  rewrite (appends_fresh (fun b => harp_obj_encode_tree b _) _ (harp_cbuf_reset b) (appends_tree _ Hz)); [by rewrite qsort_single|done|by apply oom_tree].
Qed.

Lemma snapshot_enc ps parent msg t b :
  cb_buf (harp_obj_encode_snapshot (harp_cbuf_reset b) (harp_hash_compute (enc_obj (tree_of ps)))
    (match parent with Some p => [p] | None => [] end) t (str "device") ENGINE_VERSION msg) = enc_obj (snapshot_of ps parent msg t).
Proof. apply (appends_fresh (fun b => harp_obj_encode_snapshot b _ _ _ _ _ _)); [apply appends_snapshot|done|by apply oom_snapshot]. Qed.

(** A successful snapshot has stored its three objects. *)
Lemma snapshot_run parent msg d h d1 : parts_ok (e_parts (d_eng d)) -> no_obj_dirs (c_store conf) (w_fs (d_world d)) ->
  let ps := e_parts (d_eng d) in
  (forall k, no_clash (c_store conf) (w_fs (d_world d)) (snapshot_objects ps parent msg (env_time k))) ->
  engine_snapshot_objects conf parent msg d = (Some h, d1) ->
  exists k w1, h = harp_hash_compute (enc_obj (snapshot_of ps parent msg (env_time k))) /\ d1 = set_world w1 d /\
    no_obj_dirs (c_store conf) (w_fs w1) /\
    forall e, e ∈ snapshot_objects ps parent msg (env_time k) -> stored (c_store conf) (w_fs w1) e.
Proof.
  intros Hps Hnd ps Hnc Hrun. unfold engine_snapshot_objects in Hrun.
  change (sm_get d) with (Some d, d) in Hrun.
  unfold mbind, SM_bind in Hrun. cbn [sm_get] in Hrun.
  destruct (blob_enc ps Hps) as [Eb Ob]. fold ps in Hrun.
  destruct (put_object conf _ d) as [[bh|] d2] eqn:E1; [|discriminate].
  apply put_object_run in E1 as (Hbh & w2 & P1 & ->). rewrite Eb in Hbh, P1.
  destruct (tree_enc ps (engine_encode_params_blob ps harp_cbuf_init)) as [Et Ot]. unfold params_entry in Et. rewrite <- Hbh in Et.
  destruct (put_object conf (harp_obj_encode_tree _ _) _) as [[th|] d3] eqn:E2; [|discriminate].
  apply put_object_run in E2 as (Hth & w3 & P2 & ->). rewrite Et in Hth, P2. cbn [set_world d_world] in P2.
  destruct (unix_time (set_world w3 (set_world w2 d))) as [[now|] d4] eqn:E3; [|discriminate].
  unfold unix_time, on_store, tick, mbind, SM_bind in E3. cbn in E3. injection E3 as <- <-.
  apply put_object_run in Hrun as (-> & w5 & P3 & ->). cbn [set_world d_world] in P3. rewrite Hth, snapshot_enc in *.
  set (k := w_clock w3) in *. exists k, w5. specialize (Hnc k).
  set (l := snapshot_objects ps parent msg (env_time k)) in *.
  destruct (put_stored (c_store conf) Hfl Hs l _ _ _ Hnd Hnc ltac:(by left) P1) as (N2 & C2 & S2 & K2).
  destruct (put_stored (c_store conf) Hfl Hs l _ _ _ N2 C2 ltac:(by right; left) P2) as (N3 & C3 & S3 & K3).
  destruct (put_stored (c_store conf) Hfl Hs l _ (mk_world (w_fs w3) (S k) (w_trace w3)) _ N3 C3 ltac:(by right; right; left) P3) as (N5 & C5 & S5 & K5).
  split_and!; [done|by destruct d|done|].
  intros e He. unfold l, snapshot_objects in He. rewrite !elem_of_cons in He.
  destruct He as [->|[->|[->|He%not_elem_of_nil]]]; [apply K5; [by left|]; apply K3; [by left|done]|apply K5; [by right; left|done]|done|done].
Qed.

(** ** Recall *)

Lemma flat_map_zlen_ub {A} (l : list A) (enc : A -> list Z) c :
  (forall x, x ∈ l -> zlen (enc x) <= c) -> zlen (flat_map enc l) <= c * zlen l.
Proof.
  induction l as [|x l IH]; intros Hl; [by rewrite Z.mul_0_r|].
  cbn [flat_map]. rewrite zlen_cons, zlen_app. specialize (Hl x ltac:(by left)) as Hx.
  specialize (IH ltac:(intros y Hy; apply Hl; by right)). lia.
Qed.

Lemma head_zlen_ub major v : zlen (head_bytes major v) <= 9.
Proof. unfold zlen. rewrite head_bytes_length. unfold arg_len. repeat case_cond; lia. Qed.

Lemma enc_float_zlen_ub v : zlen (enc_float v) <= 9.
Proof. unfold enc_float. repeat case_match; vm_compute; discriminate. Qed.

Lemma blob_ok ps : obj_ok (blob_of ps) = true.
Proof.
  unfold blob_of, obj_ok. apply andb_true_iff. split; [vm_compute; reflexivity|]. unfold len_ok. apply Z.ltb_lt.
  unfold grid_doc, enc_doc. rewrite zlen_app.
  assert (forall l, zlen (enc_pairs l) <= 9 + 18 * zlen l) as Hp.
  { intros l. unfold enc_pairs. rewrite zlen_app. pose proof (head_zlen_ub 5 (zlen l)).
    pose proof (flat_map_zlen_ub l enc_pair 18) as H2. unfold enc_map. enough (zlen (flat_map enc_pair l) <= 18 * zlen l) by lia.
    apply H2. intros x _. unfold enc_pair. rewrite zlen_app. pose proof (head_zlen_ub 0 x.1). pose proof (enc_float_zlen_ub x.2). unfold enc_uint. lia. }
  match goal with |- zlen (enc_map ?n) + zlen (flat_map ?f ?l) < _ => pose proof (head_zlen_ub 5 n);
    pose proof (flat_map_zlen_ub l f (18 + 18 * Z.of_nat (NPARAMS g_params))) as Hf; assert (zlen l = 16) as Hl by apply zlen_map_seq end.
  rewrite Hl in Hf. unfold enc_map at 1. change (Z.of_nat (NPARAMS g_params)) with 12 in Hf. refine (Z.le_lt_trans _ (9 + 234 * 16) _ _ _); [|lia].
  apply Z.add_le_mono; [done|]. apply Hf. intros [pi l] (k & -> & _)%list_elem_of_fmap. cbn [fst snd]. rewrite zlen_app.
  pose proof (head_zlen_ub 0 (Z.of_nat k)). pose proof (Hp (row_pairs g_params (pvals ps) k)) as Hr.
  unfold row_pairs in Hr |- *. rewrite zlen_map_seq in Hr. change (Z.of_nat (NPARAMS g_params)) with 12 in Hr. unfold enc_uint. lia.
Qed.

Context (Hrd : reads_ok).

Lemma get_object_run h data d : obj_data (c_store conf) (w_fs (d_world d)) h = Some data ->
  exists w1, get_object conf h d = (Some data, set_world w1 d) /\ w_fs w1 = w_fs (d_world d).
Proof.
  intros Hd. destruct (get_stored (c_store conf) h data (d_world d) Hrd Hd) as (b & w1 & Eg & Eb & Ew).
  exists w1. split; [|done]. unfold get_object, on_store, mbind, SM_bind. rewrite Eg. cbn. by rewrite Eb.
Qed.

Lemma load_entry_run ps c w : grid_ok g_params (pvals ps) -> stored (c_store conf) (w_fs w) (enc_obj (blob_of ps)) ->
  exists w1, on_entry (load_tree_entry conf) (params_entry ps) (w, c) = (true, (w1, mk_load (pvals ps) (ld_ok c))) /\ w_fs w1 = w_fs w.
Proof.
  intros Hg Hst. destruct (get_stored (c_store conf) _ _ w Hrd Hst) as (b & w1 & Eg & Eb & Ew). exists w1. split; [|done].
  unfold on_entry, load_tree_entry, params_entry. cbn [te_name te_hash te_kind].
  change (negb (List.length (str "params") =? 6)%nat || negb (memcmp (str "params") (str "params") =? 0) || negb (HARP_OBJ_BLOB =? HARP_OBJ_BLOB)) with false.
  cbv iota. rewrite Eg, Eb. unfold blob_of at 1. rewrite parse_blob_run by apply blob_ok.
  rewrite <- (app_nil_r (enc_doc _)), params_parse_doc by (apply grid_doc_ok; [apply g_params_u32|done|vm_compute; reflexivity]).
  cbn [negb]. by rewrite overlay_grid.
Qed.

Lemma load_snapshot_run ps parent msg t d : let e := enc_obj (snapshot_of ps parent msg t) in
  parts_ok (e_parts (d_eng d)) -> grid_ok g_params (pvals ps) -> obj_ok (snapshot_of ps parent msg t) = true ->
  (forall x, x ∈ snapshot_objects ps parent msg t -> stored (c_store conf) (w_fs (d_world d)) x) ->
  exists w1, engine_load_snapshot conf (harp_hash_compute e) d =
    (Some tt, upd_eng (on_parts (commit_grid (pvals ps))) (set_world w1 d)) /\ w_fs w1 = w_fs (d_world d).
Proof.
  intros e Hps Hg Hok Hst. unfold engine_load_snapshot, mbind, SM_bind.
  destruct (get_object_run (harp_hash_compute e) e d) as (w1 & -> & E1); [by apply Hst; right; right; left|].
  assert (harp_obj_parse_snapshot_root e = Some (harp_hash_compute (enc_obj (tree_of ps)))) as ->.
  { unfold harp_obj_parse_snapshot_root, e. rewrite snap_run by done. unfold snapshot_of.
    destruct (snap_result (harp_hash_compute (enc_obj (tree_of ps))) (match parent with Some p => [p] | None => [] end) t (str "device") ENGINE_VERSION msg)
      as (-> & -> & -> & _). done. }
  destruct (get_object_run (harp_hash_compute (enc_obj (tree_of ps))) (enc_obj (tree_of ps)) (set_world w1 d)) as (w2 & -> & E2).
  { cbn [set_world d_world]. rewrite E1. by apply Hst; right; left. }
  cbn [sm_get set_world d_world d_eng] in *. unfold tree_of at 1. rewrite tree_foreach_run.
  2: { cbn [obj_ok forallb]. unfold entry_ok, params_entry. cbn [te_name te_hash te_kind].
    rewrite (hash_ok_compute (enc_obj (blob_of ps))). vm_compute. reflexivity. }
  cbn [run_until].
  destruct (load_entry_run ps (mk_load (engine_grid (e_parts (d_eng d))) true) w2 Hg) as (w3 & -> & E3).
  { rewrite E2, E1. apply Hst. by left. }
  exists w3. split; [|congruence]. reflexivity.
Qed.
End snapshot.

Lemma load_fail_eng {L : Type} {ML : MsgLink L} {R : Realloc} {O' : OS} (conf : dev_conf) h (d d' : device L) :
  engine_load_snapshot conf h d = (None, d') -> d_eng d' = d_eng d /\ d_net d' = d_net d /\ d_live d' = d_live d.
Proof.
  assert (forall h (d d' : device L) r, get_object conf h d = (r, d') -> d_eng d' = d_eng d /\ d_net d' = d_net d /\ d_live d' = d_live d) as Hget.
  { clear. intros h d d' r. unfold get_object, on_store, mbind, SM_bind. destruct (harp_store_get _ _ _ _) as [[[ok b]|] w]; [|by intros [= _ <-]].
    unfold sm_guard. destruct ok; by intros [= _ <-]. }
  unfold engine_load_snapshot, mbind, SM_bind. destruct (get_object conf h d) as [[enc|] d1] eqn:E1; [|intros [= <-]; by eapply Hget].
  apply Hget in E1 as (A1 & A2 & A3). destruct (harp_obj_parse_snapshot_root enc) as [root|]; [|intros [= <-]; by rewrite A1, A2, A3].
  destruct (get_object conf root d1) as [[te|] d2] eqn:E2; apply Hget in E2 as (B1 & B2 & B3).
  2: { intros [= <-]. by rewrite B1, B2, B3, A1, A2, A3. }
  change (sm_get d2) with (Some d2, d2). cbv beta iota zeta.
  destruct (harp_obj_tree_foreach _ _ _) as [walked [w c]]. unfold sm_modify at 1. unfold sm_guard.
  destruct (walked && ld_ok c); [done|]. intros [= <-]. cbn. by rewrite B1, B2, B3, A1, A2, A3.
Qed.

(** C28: what a snapshot saved, recalling it restores.  If taking a snapshot
    succeeds, the live state is untouched, and recalling the hash it returned -
    later, whatever the live values have become, on the store as the snapshot
    left it - succeeds and makes all 16 x 12 live values exactly what they were
    (values that are numbers), changing nothing else of the parts; and a recall
    that fails, of whatever hash and for whatever reason, has changed no live
    value.  (The store holds no other object under the three hashes, no
    [fflush] fails, and files can be read back.) *)
Theorem recall_roundtrip {L : Type} {ML : MsgLink L} {E : DevEnv} {R : Realloc} {Q : Qsort} {O' : OS} {F : Faults}
    (conf : dev_conf) (parent : option harp_hash) (msg : option (list Z)) (d d1 : device L) (h : harp_hash) :
  let ps := e_parts (d_eng d) in let s := c_store conf in
  flush_reliable -> dir_ok s -> reads_ok -> no_obj_dirs s (w_fs (d_world d)) ->
  parts_ok ps -> grid_ok g_params (pvals ps) ->
  (forall k, obj_ok (snapshot_of ps parent msg (env_time k)) = true /\
             no_clash s (w_fs (d_world d)) (snapshot_objects ps parent msg (env_time k))) ->
  engine_snapshot_objects conf parent msg d = (Some h, d1) ->
  d_eng d1 = d_eng d /\
  (forall d2 : device L, w_fs (d_world d2) = w_fs (d_world d1) -> parts_ok (e_parts (d_eng d2)) ->
     exists d3, engine_load_snapshot conf h d2 = (Some tt, d3) /\ pvals (e_parts (d_eng d3)) = pvals ps /\
       but_values (e_parts (d_eng d3)) = but_values (e_parts (d_eng d2)) /\ w_fs (d_world d3) = w_fs (d_world d2)) /\
  (forall h' (d2 d3 : device L), engine_load_snapshot conf h' d2 = (None, d3) -> d_eng d3 = d_eng d2).
Proof.
  intros ps s Hfl Hs Hrd Hnd Hps Hg Hk Hrun. pose proof Hrd as (_ & _ & Ht).
  destruct (snapshot_run conf Ht Hfl Hs parent msg d h d1 Hps Hnd (fun k => proj2 (Hk k)) Hrun) as (k & w1 & -> & -> & _ & Hst).
  split; [done|]. split; [|by intros h' d2 d3 H; apply load_fail_eng in H as [H _]].
  intros d2 E2 Hps2.
  destruct (load_snapshot_run conf Hrd ps parent msg (env_time k) d2 Hps2 Hg (proj1 (Hk k))) as (w2 & El & E3).
  { intros x Hx. rewrite E2. by apply Hst. }
  eexists. split; [exact El|]. cbn [upd_eng on_parts d_eng e_parts set_world d_world].
  destruct (commit_grid_spec (pvals ps) (e_parts (d_eng d2)) Hps2 (pvals_dims ps Hps)) as (G1 & _ & G2). done.
Qed.

(** *** A recall *)

Section demo.
#[local] Existing Instances demo_link demo_env alloc_all isort_Qsort os_good no_faults.

Definition demo_state : device unit := demo_dev fs_empty sendq_empty 0.
Definition demo_snapshot : option harp_hash * device unit := engine_snapshot_objects demo_conf None None demo_state.
Definition demo_objects : list (list Z) := snapshot_objects g_parts_init None None 1700000000.

Lemma demo_grid_live : grid_ok g_params (pvals g_parts_init).
Proof.
  split; [apply pvals_dims, parts_ok_init|]. intros pi j Hpi Hj. split.
  - assert (forallb (forallb (fun x => (0 <=? x) && (x <? 2 ^ 32))) (pvals g_parts_init) = true) as H by (vm_compute; reflexivity).
    rewrite forallb_forall in H. specialize (H (nth pi (pvals g_parts_init) []) ltac:(apply nth_In; unfold pvals; by rewrite length_map)).
    rewrite forallb_forall in H. assert (In (cell (pvals g_parts_init) pi j) (nth pi (pvals g_parts_init) [])) as Hin.
    { apply nth_In. by erewrite dims_row by (apply pvals_dims, parts_ok_init || done). }
    specialize (H _ Hin). apply andb_prop in H as [H1 H2]. unfold is_u32. bool_to_prop. lia.
  - assert (forallb (forallb (fun x => negb (f32_isnan x))) (pvals g_parts_init) = true) as H by (vm_compute; reflexivity).
    rewrite forallb_forall in H. specialize (H (nth pi (pvals g_parts_init) []) ltac:(apply nth_In; unfold pvals; by rewrite length_map)).
    rewrite forallb_forall in H. apply negb_true_iff, H. apply nth_In. by erewrite dims_row by (apply pvals_dims, parts_ok_init || done).
Qed.

Lemma demo_no_clash : no_clash s_dir fs_empty demo_objects.
Proof.
  assert (forall h, obj_data s_dir fs_empty h = None) as Hnone.
  { intros h. unfold obj_data, fs_empty. cbn [fs_files]. by rewrite lookup_empty. }
  split; [intros e y _ Hy; by rewrite Hnone in Hy|].
  assert (NoDup (map harp_hash_compute demo_objects)) as Hnd by (apply (bool_decide_unpack _); vm_compute; exact I).
  intros e e' He He' E. apply list_elem_of_lookup_1 in He as [i Hi]. apply list_elem_of_lookup_1 in He' as [j Hj].
  assert (i = j) as ->; [|congruence]. eapply (NoDup_lookup _ i j (harp_hash_compute e) Hnd); rewrite map_lookup; [by rewrite Hi|by rewrite Hj, E].
Qed.

Lemma recall_roundtrip_witness :
  exists h d1, engine_snapshot_objects demo_conf None None demo_state = (Some h, d1) /\
    let d2 := upd_eng (on_parts (parts_param_put 3 1 F32_0_6)) d1 in
    pvals (e_parts (d_eng d2)) <> pvals g_parts_init /\
    exists d3, engine_load_snapshot demo_conf h d2 = (Some tt, d3) /\ pvals (e_parts (d_eng d3)) = pvals g_parts_init.
Proof.
  assert (match demo_snapshot.1 with Some _ => true | None => false end = true) as Hs by (vm_compute; reflexivity).
  destruct demo_snapshot as [[h|] d1] eqn:Hrun; [|discriminate Hs]. exists h, d1.
  destruct (recall_roundtrip demo_conf None None demo_state d1 h) as (He & H2 & _).
  - intros t. reflexivity.
  - unfold dir_ok, STORE_DIR_MAX. cbn. lia.
  - split; [intros t; reflexivity|]. split; intros t; reflexivity.
  - exact fs_empty_no_obj_dirs.
  - exact parts_ok_init.
  - exact demo_grid_live.
  - intros k. split; [vm_compute; reflexivity|exact demo_no_clash].
  - exact Hrun.
  - split; [exact Hrun|]. intros d2. assert (pvals (e_parts (d_eng d2)) <> pvals g_parts_init) as Hne.
    { unfold d2. cbn [upd_eng d_eng on_parts e_parts]. rewrite He. vm_compute. discriminate. }
    split; [exact Hne|]. destruct (H2 d2 eq_refl) as (d3 & E3 & Ev & _).
    { unfold d2. cbn [upd_eng d_eng on_parts e_parts]. rewrite He. apply parts_ok_put, parts_ok_init. }
    exists d3. exact (conj E3 Ev).
Defined.
End demo.

(** ** The closure check *)

(** [x] is reachable from [h] through at most [k] objects, [h] included. *)
Inductive reach_in (s : path) (f : fs) : nat -> harp_hash -> harp_hash -> Prop :=
  | ri_root k h : reach_in s f (S k) h h
  | ri_step k h y x : refers s f h y -> reach_in s f k y x -> reach_in s f (S k) h x.

Section closure.
Context {R : Realloc} {O' : OS} (conf : dev_conf).
#[local] Abbreviation st := (c_store conf).

Definition closure_post (k : nat) (l : list harp_hash) (w : world) (r : world * bool) : Prop :=
  w_fs r.1 = w_fs w /\
  (r.2 = true -> forall h x, h ∈ l -> reach_in st (w_fs w) k h x -> good_obj st (w_fs w) x) /\
  (reads_ok -> (forall h x, h ∈ l -> reach_in st (w_fs w) k h x -> good_obj st (w_fs w) x) -> r.2 = true).

Definition closure_visit (k : nat) : harp_hash_cb (world * bool) := fun h s => let s := closure_walk conf k h s in (s.2, s).

Lemma closure_walk_false k h w : closure_walk conf k h (w, false) = (w, false).
Proof. by destruct k. Qed.

Lemma closure_run_false k l w : run_all (closure_visit k) l (w, false) = (w, false).
Proof. unfold run_all. induction l as [|h l IH]; [done|]. cbn [fold_left closure_visit snd]. by rewrite closure_walk_false. Qed.

Lemma closure_until_all k l : forall s, run_until (closure_visit k) l s = run_all (closure_visit k) l s.
Proof.
  induction l as [|h l IH]; intros s; [done|]. cbn [run_until].
  change (run_all (closure_visit k) (h :: l) s) with (run_all (closure_visit k) l (closure_visit k h s).2).
  assert (closure_visit k h s = ((closure_walk conf k h s).2, closure_walk conf k h s)) as -> by done.
  destruct (closure_walk conf k h s) as [w c]. cbn [fst snd]. destruct c; [apply IH|]. symmetry. apply closure_run_false.
Qed.

Lemma closure_list k : (forall h w, closure_post k [h] w (closure_walk conf k h (w, true))) ->
  forall l w, closure_post k l w (run_all (closure_visit k) l (w, true)).
Proof.
  intros Hk. induction l as [|h l IH]; intros w.
  { split_and!; [done| |done]. by intros _ h x Hh%elem_of_nil. }
  change (run_all (closure_visit k) (h :: l) (w, true)) with (run_all (closure_visit k) l (closure_walk conf k h (w, true))).
  destruct (Hk h w) as (E1 & S1 & C1). destruct (closure_walk conf k h (w, true)) as [w1 c]. cbn [fst snd] in *. destruct c.
  - destruct (IH w1) as (E2 & S2 & C2). rewrite E1 in *. split_and!; [done| |].
    + intros Ht h' x [->|Hh]%elem_of_cons Hx; [apply (S1 eq_refl h); [by left|done]|by apply (S2 Ht h')].
    + intros Hr Hg. apply C2; [done|]. intros h' x Hh. apply Hg. by right.
  - rewrite closure_run_false. split_and!; [done|done|]. intros Hr Hg. apply C1; [done|].
    intros h' x ->%list_elem_of_singleton. apply Hg. by left.
Qed.

Lemma closure_walk_spec k : forall h w, closure_post k [h] w (closure_walk conf k h (w, true)).
Proof.
  induction k as [|k IH]; intros h w.
  { split_and!; [done| |done]. intros _ h' x _ Hx. inversion Hx. }
  assert (good_obj st (w_fs w) h -> exists_path (w_fs w) (obj_path st h) = true) as Hex.
  { intros (e & He & _). unfold obj_data in He. unfold exists_path. apply orb_true_iff. left. apply bool_decide_eq_true, elem_of_dom.
    destruct (fs_files (w_fs w) !! obj_path st h); [eauto|done]. }
  assert (forall w', w_fs w' = w_fs w -> (reads_ok -> ~ good_obj st (w_fs w) h) -> closure_post (S k) [h] w (w', false)) as Hbad.
  { intros w' Ew Hn. split_and!; [done|done|]. intros Hr Hg. destruct (Hn Hr). apply (Hg h); [by left|apply ri_root]. }
  cbn [closure_walk snd negb fst]. unfold harp_store_have. rewrite path_readable_run.
  destruct (exists_path (w_fs w) (obj_path st h)); [|apply Hbad; [done|]; intros _ Hg; by apply Hex in Hg].
  destruct (store_get_run st h harp_cbuf_init w) as ([ok b] & w1 & Eg & Ew & Hdata). cbn [fst snd] in Hdata.
  pose proof (fun data Hr => get_stored st h data w Hr) as Hget. rewrite Eg in *. destruct ok.
  2: { apply Hbad; [done|]. intros Hr (e & He & _). destruct (Hget e Hr He) as (b' & w' & [=] & _). }
  destruct (Hdata eq_refl) as (data & Hd & Eb). cbn [cb_buf harp_cbuf_init app] in Eb. rewrite Eb. clear Eb.
  fold (closure_visit k). rewrite foreach_children, closure_until_all.
  replace (if is_tree data then _ else _) with (run_all (closure_visit k) (child_hashes false data).2 (w1, true)) by by case_match.
  destruct (closure_list k IH (child_hashes false data).2 w1) as (E2 & S2 & C2). rewrite Ew in *.
  destruct (run_all _ _ _) as [w2 c]. cbn [fst snd] in *. destruct (child_hashes false data) as [cok l] eqn:Ec. cbn [fst snd] in *.
  assert (forall y, refers st (w_fs w) h y -> y ∈ l) as Hin.
  { intros y (e & He & Hy). rewrite He in Hd. injection Hd as ->. by rewrite Ec in Hy. }
  destruct cok.
  - split_and!; [done| |].
    + cbn. intros -> h' x ->%list_elem_of_singleton Hx. inversion Hx as [|? ? y ? Hr Hx']; subst.
      * exists data. by rewrite Ec.
      * apply (S2 eq_refl y); [by apply Hin|done].
    + cbn. intros Hr Hg. apply C2; [done|]. intros y x Hy Hx. apply (Hg h); [by left|]. eapply ri_step; [|exact Hx].
      exists data. by rewrite Ec.
  - apply Hbad; [done|]. intros _ (e & He & Hc). rewrite He in Hd. injection Hd as ->. by rewrite Ec in Hc.
Qed.
End closure.

(** the closure check of a ref update is sound and complete.  It never
    changes a file; when it says complete, every object reachable from the hash
    through at most sixteen references - tree in tree, list, snapshot root - is
    stored and well formed; and when files can be read, it says complete whenever
    that is so.  (What lies deeper is not looked at.) *)
Theorem closure_check_exact {L : Type} {R : Realloc} {O' : OS} (conf : dev_conf) (h : harp_hash) (d : device L) :
  exists c d', closure_complete conf h d = (Some c, d') /\ w_fs (d_world d') = w_fs (d_world d) /\ d_eng d' = d_eng d /\
    let ok := forall x, reach_in (c_store conf) (w_fs (d_world d)) CLOSURE_LEVELS h x -> good_obj (c_store conf) (w_fs (d_world d)) x in
    (c = true -> ok) /\ (reads_ok -> ok -> c = true).
Proof.
  unfold closure_complete. destruct (closure_walk_spec conf CLOSURE_LEVELS h (d_world d)) as (H1 & H2 & H3).
  destruct (closure_walk conf CLOSURE_LEVELS h (d_world d, true)) as [w c]. cbn [fst snd] in *.
  exists c. eexists. split; [reflexivity|]. cbn [set_world d_world d_eng]. split_and!; [done|done| |].
  - intros Hc x Hx. apply (H2 Hc h); [by left|done].
  - intros Hr Hok. apply H3; [done|]. intros h' x ->%list_elem_of_singleton. apply Hok.
Qed.

(** ** The live ref *)

Section live.
Context {L : Type} {ML : MsgLink L} {E : DevEnv} {R : Realloc} {O' : OS} {F : Faults} (conf : dev_conf).
Implicit Types d : device L.

Lemma ntf_run r d : exists n, ntf_state_changed r d = upd_net n d.
Proof.
  unfold ntf_state_changed. destruct (n_hello (d_net d)); cbn [negb]; [|exists (fun n => n); by destruct d].
  unfold send_msg, send_ctl. destruct (link_send_spec HARP_STREAM_CTL (cb_buf (enc_state_changed r harp_cbuf_init)) d) as (ok & l & -> & _).
  by eexists.
Qed.

Definition touch_transition (dirty : bool) d : bool := dirty && negb (r_dirty (lv_cache (d_live d))).

(** One touch of a cached live ref. *)
Lemma touch_run dirty d : lv_valid (d_live d) = true ->
  let d' := live_ref_touch conf dirty d in
  let c := ref_touched dirty (lv_cache (d_live d)) in
  lv_cache (d_live d') = c /\ lv_valid (d_live d') = true /\ d_eng d' = d_eng d /\
  w_fs (d_world d') = (if touch_transition dirty d then w_fs (harp_store_ref_write (c_store conf) c (d_world d)).2 else w_fs (d_world d)) /\
  (touch_transition dirty d = false -> u64 (env_ns (w_clock (d_world d)) / 1000000 - lv_last_ntf (d_live d)) < 250 -> d_net d' = d_net d).
Proof.
  intros Hv d' c. unfold d', live_ref_touch, live_load, mbind, SM_bind. change (sm_get d) with (Some d, d). cbv beta iota. rewrite Hv.
  cbn [mret SM_ret]. fold (touch_transition dirty d). cbn [upd_live set_cache d_live lv_cache].
  fold c. set (d1 := upd_live (fun v => set_cache (ref_touched dirty (lv_cache v)) v) d).
  set (d2 := if touch_transition dirty d then write_ref conf c d1 else d1).
  assert (d_live d2 = d_live d1 /\ d_eng d2 = d_eng d /\ d_net d2 = d_net d /\
    w_fs (d_world d2) = (if touch_transition dirty d then w_fs (harp_store_ref_write (c_store conf) c (d_world d)).2 else w_fs (d_world d))) as (E1 & E2 & E3 & E4).
  { unfold d2. destruct (touch_transition dirty d); [|done]. unfold write_ref, on_store.
    change (d_world d1) with (d_world d). by destruct (harp_store_ref_write _ _ _). }
  unfold now_ms, now_ns, on_store, tick, mbind, SM_bind. cbn -[Z.div u64].
  set (d3 := set_world _ d2). rewrite E1. cbn [d1 upd_live d_live set_cache lv_last_ntf].
  set (now := env_ns _ / 1000000).
  set (ntf := touch_transition dirty d || (250 <=? u64 (now - lv_last_ntf (d_live d)))).
  destruct ntf eqn:En.
  - destruct (ntf_run (lv_cache (d_live (upd_live (set_last_ntf now) d3))) (upd_live (set_last_ntf now) d3)) as (n & ->).
    cbn [upd_net upd_live d_live d_eng d_world d3 set_world set_last_ntf lv_cache lv_valid w_fs d_net]. rewrite E1, E2.
    split_and!; [done|done|done|exact E4|]. intros Ht Hlt. unfold ntf in En. rewrite Ht in En. cbn [orb] in En. apply Z.leb_le in En.
    assert (now = env_ns (w_clock (d_world d)) / 1000000) as Hnow by (unfold now, d2; by rewrite Ht). rewrite Hnow in En. lia.
  - cbn [d3 set_world d_live d_eng d_world w_fs d_net]. rewrite E1, E2. split_and!; [done|done|done|exact E4|]. intros _ _. exact E3.
Qed.

Fixpoint touches (k : nat) d : device L := match k with O => d | S k => live_ref_touch conf true (touches k d) end.
End live.

Section coalesce.
Context {L : Type} {ML : MsgLink L} {E : DevEnv} {R : Realloc} {O' : OS} {F : Faults} (conf : dev_conf).
Implicit Types d : device L.

Definition touched (k : nat) (r : harp_ref) : harp_ref :=
  mk_ref (r_name r) (r_unborn r) (r_hash r) (u64 (r_generation r + Z.of_nat k)) true.

Lemma touched_S k r : ref_touched true (touched k r) = touched (S k) r.
Proof. unfold ref_touched, touched. cbn [r_name r_unborn r_hash r_generation]. f_equal. unfold u64. rewrite Zplus_mod_idemp_l. f_equal. lia. Qed.

Lemma touches_run d : lv_valid (d_live d) = true -> forall k,
  let d' := touches conf (S k) d in
  lv_cache (d_live d') = touched (S k) (lv_cache (d_live d)) /\ lv_valid (d_live d') = true /\ d_eng d' = d_eng d /\
  w_fs (d_world d') = w_fs (d_world (live_ref_touch conf true d)).
Proof.
  intros Hv. induction k as [|k (IH1 & IH2 & IH3 & IH4)]; cbn [touches].
  - destruct (touch_run conf true d Hv) as (H1 & H2 & H3 & _ & _). by split_and!.
  - cbn [touches] in IH1, IH2, IH3, IH4. destruct (touch_run conf true (live_ref_touch conf true (touches conf k d)) IH2) as (H1 & H2 & H3 & H4 & _).
    rewrite H1, H2, H3, H4, IH1, IH3. split_and!; [apply touched_S|done|done|].
    unfold touch_transition. rewrite IH1. cbn [touched r_dirty negb andb]. exact IH4.
Qed.

Lemma touched_ok k r : ref_ok r -> ref_ok (touched k r).
Proof. intros (H1 & H2 & H3 & H4). split_and!; try done. apply u64_range. Qed.

(** The one write of [r] that takes the files of [w] to those of [w']: what it
    returns tells whether the ref's file holds exactly the record or what it held. *)
Definition one_write (p : path) (r : harp_ref) (w w' : world) : Prop :=
  let '(o, w1) := harp_store_ref_write (c_store conf) r w in
  w_fs w' = w_fs w1 /\ fs_files (w_fs w') !! p = match o with Some _ => Some (mk_file (enc_ref r) true) | None => fs_files (w_fs w) !! p end.

Lemma write_is p r w w' : flush_reliable -> ref_ok r -> ref_path (c_store conf) (r_name r) = Some p ->
  w_fs w' = w_fs (harp_store_ref_write (c_store conf) r w).2 -> one_write p r w w'.
Proof.
  intros Hfl Hr Hp Hw. unfold one_write. destruct (harp_store_ref_write (c_store conf) r w) as [o w1] eqn:Er. cbn [snd] in Hw.
  destruct (ref_write_run _ _ _ _ _ _ Hfl Hr Hp Er) as (_ & _ & _ & H). rewrite Hw. split; [done|]. by destruct o.
Qed.

Lemma one_write_done p r w w' : one_write p r w w' -> (harp_store_ref_write (c_store conf) r w).1 = Some tt -> fs_files (w_fs w') !! p = Some (mk_file (enc_ref r) true).
Proof. unfold one_write. destruct (harp_store_ref_write _ _ _) as [o w1]. cbn [fst]. intros [_ H] ->. exact H. Qed.

(** C31: continuous editing costs one write.  However many edits in a row mark a
    cached live ref dirty, its generation counts every one of them; on a clean ref the
    first writes the dirty record, before it returns, and the others write nothing;
    on a dirty ref none writes.  A flush writes the record with the final generation
    and drops the cache.  Each of the two writes leaves exactly its record in the
    ref's file, or, when it fails, what the file held ([fflush] reliable).  An edit of
    an already dirty ref within a quarter of a second of the last notification
    sends nothing. *)
Theorem live_ref_coalesced (d : device L) (p : path) (k : nat) :
  let c := lv_cache (d_live d) in let dk := touches conf (S k) d in
  flush_reliable -> lv_valid (d_live d) = true -> ref_ok c -> ref_path (c_store conf) (r_name c) = Some p ->
  lv_cache (d_live dk) = touched (S k) c /\ d_eng dk = d_eng d /\
  w_fs (d_world dk) = w_fs (d_world (live_ref_touch conf true d)) /\
  (if r_dirty c then w_fs (d_world dk) = w_fs (d_world d) else one_write p (touched 1 c) (d_world d) (d_world dk)) /\
  (let df := live_cache_flush conf dk in
   lv_valid (d_live df) = false /\ one_write p (touched (S k) c) (d_world dk) (d_world df)) /\
  (r_dirty c = true -> u64 (env_ns (w_clock (d_world d)) / 1000000 - lv_last_ntf (d_live d)) < 250 ->
   d_net (live_ref_touch conf true d) = d_net d).
Proof.
  intros c dk Hfl Hv Hok Hp. destruct (touches_run d Hv k) as (H1 & H2 & H3 & H4). fold dk in H1, H2, H3, H4.
  destruct (touch_run conf true d Hv) as (_ & _ & _ & T4 & T5). fold c in T4.
  assert (touch_transition true d = negb (r_dirty c)) as Htr by done. rewrite Htr in T4, T5.
  split_and!; [done|done|done| | |].
  - destruct (r_dirty c); cbn [negb] in T4; [by rewrite H4|].
    assert (ref_touched true c = touched 1 c) as Ec by (unfold touched, ref_touched; by rewrite Z.add_1_r). rewrite Ec in T4.
    apply write_is; [done|by apply touched_ok|done|by rewrite H4].
  - unfold live_cache_flush. rewrite H2. split; [done|]. apply write_is; [done|by apply touched_ok|done|].
    rewrite H1. cbn [upd_live d_world]. fold c. unfold write_ref, on_store.
    by destruct (harp_store_ref_write (c_store conf) (touched (S k) c) (d_world dk)).
  - intros Hd Hlt. apply T5; [by rewrite Hd|done].
Qed.
End coalesce.

#[local] Existing Instances demo_link demo_env alloc_all os_good no_faults.

(** Three edits on a clean ref: the first writes it, dirty and with its generation,
    and the flush writes the last. *)
Lemma live_ref_coalesced_witness :
  let d := @upd_live unit (fun _ => mk_live (mk_ref LIVE_REF true (repeat 0 33) 5 false) true 0 0) (demo_dev fs_empty sendq_empty 0) in
  let touch3 := @touches unit demo_link demo_env alloc_all os_good no_faults demo_conf 3 d in
  let p := s_dir ++ s_refs ++ [SLASH] ++ LIVE_REF in
  lv_cache (d_live touch3) = mk_ref LIVE_REF true (repeat 0 33) 8 true /\ d_eng touch3 = d_eng d /\
  fs_files (w_fs (d_world touch3)) !! p = Some (mk_file (enc_ref (mk_ref LIVE_REF true (repeat 0 33) 6 true)) true) /\
  fs_files (w_fs (d_world (live_cache_flush demo_conf touch3))) !! p = Some (mk_file (enc_ref (mk_ref LIVE_REF true (repeat 0 33) 8 true)) true).
Proof.
  intros d touch3 p.
  destruct (@live_ref_coalesced unit demo_link demo_env alloc_all os_good no_faults demo_conf d (s_dir ++ s_refs ++ [SLASH] ++ LIVE_REF) 2) as (H1 & H2 & _ & H4 & (_ & H5) & _).
  - intros t. reflexivity.
  - reflexivity.
  - split_and!; [vm_compute; reflexivity|repeat constructor; vm_compute; discriminate|split; [vm_compute; discriminate|vm_compute; reflexivity]|reflexivity].
  - vm_compute. reflexivity.
  - split; [exact H1|]. split; [exact H2|]. split.
    + apply (one_write_done demo_conf _ _ (d_world d)); [exact H4|vm_compute; reflexivity].
    + apply (one_write_done demo_conf _ _ (d_world touch3)); [exact H5|vm_compute; reflexivity].
Defined.
