(* ===== verification/Stream.v ===== *)
(** * The audio stream's control side

    session.c's meter pump and [audio.*] and [diag.loopback.*] methods, and
    [audio_stop] of audio_loop.c: what starts, stops and configures the audio
    thread.  The thread itself is not part of this file. *)
From Stdlib Require Import ZArith Lia String List Bool.
From stdpp Require Import base list.
From S2P Require Import Prelude Cbuf CborEnc CborDec CborFloat CborFields Sha256 Frame Envelope Object Link Fs Store RateLimit LogRing Params Evq Ieee Parts Render Device Reply.
Open Scope Z_scope.
Open Scope list_scope.

Definition NSLOTS : nat := 34.

Section stream.
Context {L : Type} {ML : MsgLink L} {E : DevEnv} {R : Realloc} {FC : FpConv} (conf : dev_conf).
Implicit Types d : device L.

(** ** Meter pump *)

(** The [last_peak] and [last_rms] of the thread; one slot of one tick: a reading
    is sent when it differs from the last one sent. *)
Definition pump_meter (id now last : Z) d : Z * device L :=
  if f32_feq now last then (last, d) else (now, evt_echo_param id now 0 d).

Definition pump_slot (d_last : device L * (list Z * list Z)) (slot : nat) : device L * (list Z * list Z) :=
  let '(d, (lp, lr)) := d_last in
  let peak := nth slot (d_meters d).1 0 in
  let rms := nth slot (d_meters d).2 0 in
  let '(p, d) := pump_meter (METER_ID_PEAK (Z.of_nat slot)) peak (nth slot lp 0) d in
  let '(r, d) := pump_meter (METER_ID_RMS (Z.of_nat slot)) rms (nth slot lr 0) d in
  (d, (<[slot := p]> lp, <[slot := r]> lr)).

(** One turn of [meter_pump_thread]'s loop. *)
Definition meter_pump_tick (last : list Z * list Z) d : device L * (list Z * list Z) :=
  if a_meter_running (d_audio d) then fold_left pump_slot (seq 0 METER_NSLOTS) (d, last) else (d, last).

Definition F32_NAN : Z := 0x7fc00000.
Definition pump_init : list Z * list Z := (repeat F32_NAN METER_NSLOTS, repeat F32_NAN METER_NSLOTS).

Definition set_meter (running live : bool) (a : audio_state) : audio_state :=
  mk_audio (a_running a) (a_live a) (a_fd a) (a_out_fd a) (a_rtp_fd a) (a_rtp_seq a) (a_rtp_ssrc a) (a_hp_port a) (a_hp_sock a)
    (a_offline a) (a_prebuffer a) (a_mode a) (a_rate a) (a_nsamples a) (a_epoch a) (a_reanchors a) (a_msc_final a) (a_trim a)
    (a_out_slots a) (a_in_slots a) (a_loop_on a) (a_loop_in a) (a_loop_out a) running live.

Definition meter_pump_start d : device L :=
  if a_meter_live (d_audio d) then d
  else
    let d := upd_audio (set_meter true (a_meter_live (d_audio d))) (set_meters (engine_meters_reset (d_meters d)) d) in
    let '(ok, d) := ask env_thread d in
    if negb ok then upd_audio (fun a => set_meter false (a_meter_live a) a) d
    else upd_audio (fun a => set_meter (a_meter_running a) true a) d.

Definition meter_pump_stop d : device L :=
  if negb (a_meter_live (d_audio d)) then d else upd_audio (set_meter false false) d.

(** ** Stopping *)

(** [running = false], the thread joined, [thread_live = false], the sockets
    closed, [host_paced_port = 0]. *)
Definition stream_closed (a : audio_state) : audio_state :=
  mk_audio false false (a_fd a) (a_out_fd a) (if 0 <=? a_rtp_fd a then -1 else a_rtp_fd a) (a_rtp_seq a) (a_rtp_ssrc a)
    0 (if 0 <=? a_hp_sock a then -1 else a_hp_sock a)
    (a_offline a) (a_prebuffer a) (a_mode a) (a_rate a) (a_nsamples a) (a_epoch a) (a_reanchors a) (a_msc_final a) (a_trim a)
    (a_out_slots a) (a_in_slots a) (a_loop_on a) (a_loop_in a) (a_loop_out a) (a_meter_running a) (a_meter_live a).

Definition audio_stop d : device L :=
  let d := meter_pump_stop d in
  if negb (a_live (d_audio d)) then d
  else
    let d := upd_eng (on_parts engine_voices_quiet) (upd_audio stream_closed d) in
    devlog HARP_LOG_INFO (str "audio")
      (str "harp-deviced: audio stream stopped (" ++ dec_str (a_reanchors (d_audio d)) ++ str " reanchors)" ++ [10]) d.

(** [memset(d->txn, 0, sizeof d->txn)] *)
Definition txn_clear d : device L :=
  upd_evt (fun v => mk_evt (es_q v) (repeat txn_zero DEV_TXN_MAX) (es_stage v) (es_staged v) (es_consumed v)) d.

Definition handle_audio_stop : handler L := fun e d => respond_empty e (txn_clear (audio_stop d)).

(** ** Starting *)

(** The locals of [handle_audio_start]. *)
Record start_req := mk_start { sr_rate : Z; sr_nsamples : Z; sr_mode : Z; sr_rtp_port : Z; sr_prebuf : Z; sr_hp_port : Z;
  sr_out : list Z; sr_in : list Z }.
Definition start_req_init : start_req := mk_start 48000 256 0 0 0 0 [] [].

Definition put_slot (slot : Z) (l : list Z) : list Z :=
  if (length l <? NSLOTS)%nat then l ++ [if slot >? 33 then 33 else slot] else l.

(** The array of slots; a bad element ends the inner loop only. *)
Definition get_slots (add : Z -> start_req -> start_req) : parser start_req unit :=
  alen ← on_fst harp_cdec_array;
  sm_try (sm_for alen (get_uint add));; mret tt.

Definition start_visit (key : Z) : parser start_req unit :=
  if key =? 0 then get_uint (fun v r => mk_start v (sr_nsamples r) (sr_mode r) (sr_rtp_port r) (sr_prebuf r) (sr_hp_port r) (sr_out r) (sr_in r))
  else if key =? 1 then get_uint (fun v r => mk_start (sr_rate r) v (sr_mode r) (sr_rtp_port r) (sr_prebuf r) (sr_hp_port r) (sr_out r) (sr_in r))
  else if key =? 3 then get_slots (fun v r => mk_start (sr_rate r) (sr_nsamples r) (sr_mode r) (sr_rtp_port r) (sr_prebuf r) (sr_hp_port r) (sr_out r) (put_slot v (sr_in r)))
  else if key =? 4 then get_slots (fun v r => mk_start (sr_rate r) (sr_nsamples r) (sr_mode r) (sr_rtp_port r) (sr_prebuf r) (sr_hp_port r) (put_slot v (sr_out r)) (sr_in r))
  else if key =? 5 then get_uint (fun v r => mk_start (sr_rate r) (sr_nsamples r) v (sr_rtp_port r) (sr_prebuf r) (sr_hp_port r) (sr_out r) (sr_in r))
  else if key =? 6 then get_uint (fun v r => mk_start (sr_rate r) (sr_nsamples r) (sr_mode r) v (sr_prebuf r) (sr_hp_port r) (sr_out r) (sr_in r))
  else if key =? 2 then get_uint (fun v r => mk_start (sr_rate r) (sr_nsamples r) (sr_mode r) (sr_rtp_port r) v (sr_hp_port r) (sr_out r) (sr_in r))
  else if key =? 7 then get_uint (fun v r => mk_start (sr_rate r) (sr_nsamples r) (sr_mode r) (sr_rtp_port r) (sr_prebuf r) v (sr_out r) (sr_in r))
  else on_fst harp_cdec_skip.

(** Default slots: the stereo main mix. *)
Definition start_slots (r : start_req) : start_req :=
  match sr_out r with
  | [] => mk_start (sr_rate r) (sr_nsamples r) (sr_mode r) (sr_rtp_port r) (sr_prebuf r) (sr_hp_port r) [0; 1] (sr_in r)
  | _ => r
  end.
Definition parse_start (e : harp_env) : start_req := start_slots (body_parse (map_fields start_visit) e start_req_init).

(** The checks before the busy gate, in order: the code and message of the first
    that fails. *)
Definition start_refused (r : start_req) : option (list Z) :=
  let usb := (sr_rtp_port r =? 0) && (sr_hp_port r =? 0) in
  if sr_mode r >? 1 then Some (str "unknown clock mode")
  else if negb (sr_rate r =? 44100) && negb (sr_rate r =? 48000) && negb (sr_rate r =? 96000) then Some (str "rate")
  else if (sr_nsamples r <? 32) || (sr_nsamples r >? AUDIO_MAX_NSAMPLES) then Some (str "nsamples")
  else if negb (sr_rtp_port r =? 0) && negb (sr_mode r =? 0) then Some (str "RTP audio is free-running only")
  else if negb (sr_hp_port r =? 0) && (negb (sr_mode r =? 1) || negb (sr_rtp_port r =? 0))
    then Some (str "host-paced TCP audio requires clock mode 1 and no RTP port")
  else if usb && ((env_ffs_in <? 0) || ((sr_mode r =? 1) && (env_ffs_out <? 0))) then Some (str "HARP stream requires the USB transport")
  else None.

Definition enc_epoch (new rate old msc_final : Z) (b : cbuf) : cbuf :=
  let b := harp_env_head b HARP_MSG_NOTIFICATION 0 (str "time.epoch") true in
  let b := harp_cbor_map b 4 in
  kuint 3 msc_final (kuint 2 old (kuint 1 rate (kuint 0 new b))).

(** [evq_reset_for_new_stream] *)
Definition evq_reset_for_new_stream d : device L :=
  upd_evt (fun v => mk_evt (mk_evq [] (q_drops (es_q v))) (es_txn v) (es_stage v) (es_staged v) 0)
    (upd_eng (on_parts (map part_new_stream)) d).

(** The stream's state as published for the audio thread; [rtp_fd] is the
    destination's descriptor. *)
Definition stream_opened (r : start_req) (rtp_fd epoch : Z) (a : audio_state) : audio_state :=
  let usb := (sr_rtp_port r =? 0) && (sr_hp_port r =? 0) in
  let rtp := 0 <=? rtp_fd in
  mk_audio true (a_live a) (if usb then env_ffs_in else -1) (if usb then env_ffs_out else -1) rtp_fd
    (if rtp then 0 else a_rtp_seq a) (if rtp then 0x48415250 else a_rtp_ssrc a) (s32 (sr_hp_port r)) (-1)
    ((sr_hp_port r >? 0) && negb env_force_rt) (if rtp then u32 (sr_prebuf r) else 0)
    (u32 (sr_mode r)) (u32 (sr_rate r)) (u32 (sr_nsamples r)) epoch 0 (a_msc_final a) (a_trim a)
    (sr_out r) (sr_in r) false (a_loop_in a) (a_loop_out a) (a_meter_running a) (a_meter_live a).

(** A failed start: not running, the destination closed, the epoch and the rate
    as before if the epoch was new. *)
Definition start_undone (new_epoch : bool) (a0 a : audio_state) : audio_state :=
  mk_audio false (a_live a) (a_fd a) (a_out_fd a) (if 0 <=? a_rtp_fd a then -1 else a_rtp_fd a) (a_rtp_seq a) (a_rtp_ssrc a)
    (a_hp_port a) (a_hp_sock a) (a_offline a) (a_prebuffer a) (a_mode a) (if new_epoch then a_rate a0 else a_rate a) (a_nsamples a)
    (if new_epoch then a_epoch a0 else a_epoch a) (a_reanchors a) (a_msc_final a) (a_trim a)
    (a_out_slots a) (a_in_slots a) (a_loop_on a) (a_loop_in a) (a_loop_out a) (a_meter_running a) (a_meter_live a).

Definition set_live (b : bool) (a : audio_state) : audio_state :=
  mk_audio (a_running a) b (a_fd a) (a_out_fd a) (a_rtp_fd a) (a_rtp_seq a) (a_rtp_ssrc a) (a_hp_port a) (a_hp_sock a)
    (a_offline a) (a_prebuffer a) (a_mode a) (a_rate a) (a_nsamples a) (a_epoch a) (a_reanchors a) (a_msc_final a) (a_trim a)
    (a_out_slots a) (a_in_slots a) (a_loop_on a) (a_loop_in a) (a_loop_out a) (a_meter_running a) (a_meter_live a).

Definition log_started d : device L :=
  let a := d_audio d in
  devlog HARP_LOG_INFO (str "session")
    (str "harp-deviced: audio stream started (" ++ dec_str (a_rate a) ++ str " Hz, " ++ dec_str (a_nsamples a) ++
     str "-sample blocks, " ++ (if a_mode a =? 0 then str "free-running" else str "host-paced") ++
     (if 0 <=? a_rtp_fd a then str ", RTP/UDP" else []) ++ str ")" ++ [10]) d.

(** From [evq_reset_for_new_stream] on. *)
Definition start_stream (e : harp_env) (r : start_req) (rtp_fd : Z) d : device L :=
  let d := txn_clear (evq_reset_for_new_stream d) in
  let a0 := d_audio d in
  let new_epoch := (sr_mode r =? 0) && negb (a_rate a0 =? 0) && negb (u32 (sr_rate r) =? a_rate a0) in
  let epoch := if new_epoch then u32 (a_epoch a0 + 1) else a_epoch a0 in
  let d := if new_epoch then send_msg (enc_epoch epoch (sr_rate r) (a_epoch a0) (a_msc_final a0) harp_cbuf_init) d else d in
  let d := upd_audio (stream_opened r rtp_fd epoch) d in
  let '(ok, d) := ask env_thread d in
  if negb ok then fail_with e (str "internal") (Some (str "thread")) (upd_audio (start_undone new_epoch a0) d)
  else
    let d := log_started (meter_pump_start (upd_audio (set_live true) d)) in
    respond e (fun b => kuint 1 (if sr_mode r =? 0 then a_nsamples (d_audio d) else c_pipeline conf)
                          (kuint 0 (sr_mode r) (harp_cbor_map b 2))) d.

Definition handle_audio_start : handler L := fun e d =>
  let r := parse_start e in
  match start_refused r with
  | Some msg => fail_with e (str "unsupported") (Some msg) d
  | None =>
      if a_live (d_audio d) then fail_with e (str "busy") (Some (str "stream already running")) d
      else if sr_rtp_port r =? 0 then start_stream e r (-1) d
      else
        let '(fd, d) := ask (env_rtp_open (s32 (sr_rtp_port r))) d in
        if fd <? 0 then fail_with e (str "unsupported") (Some (str "cannot open RTP destination")) d
        else start_stream e r fd d
  end.

(** ** Trim *)

Definition set_trim (t : Z) (a : audio_state) : audio_state :=
  mk_audio (a_running a) (a_live a) (a_fd a) (a_out_fd a) (a_rtp_fd a) (a_rtp_seq a) (a_rtp_ssrc a) (a_hp_port a) (a_hp_sock a)
    (a_offline a) (a_prebuffer a) (a_mode a) (a_rate a) (a_nsamples a) (a_epoch a) (a_reanchors a) (a_msc_final a) t
    (a_out_slots a) (a_in_slots a) (a_loop_on a) (a_loop_in a) (a_loop_out a) (a_meter_running a) (a_meter_live a).

Definition trim_visit (key : Z) : parser Z unit :=
  if key =? 0 then get_float (fun v _ => v) else on_fst harp_cdec_skip.

Definition TRIM_MAX : Z := f64_of_Z 200000.
Definition TRIM_MIN : Z := f64_of_Z (-200000).
Definition clamp_trim (v : Z) : Z := if f64_lt TRIM_MAX v then TRIM_MAX else if f64_lt v TRIM_MIN then TRIM_MIN else v.

(** No reply; a body that is not a map changes nothing. *)
Definition handle_audio_trim : handler L := fun e d =>
  if negb (e_has_body e) then d
  else
    match harp_cdec_map (harp_cdec_init (e_body e)) with
    | (None, _) => d
    | _ => upd_audio (set_trim (f64_to_int (clamp_trim (body_parse (map_fields trim_visit) e 0)))) d
    end.

(** ** Loopback *)

Record loop_req := mk_loop { lq_in : Z; lq_out : Z; lq_mode : option (list Z) }.

(** [mode] keeps the first fifteen bytes. *)
Definition loop_visit (key : Z) : parser loop_req unit :=
  if key =? 0 then get_uint (fun v r => mk_loop v (lq_out r) (lq_mode r))
  else if key =? 1 then get_uint (fun v r => mk_loop (lq_in r) v (lq_mode r))
  else if key =? 2 then
    s ← on_fst harp_cdec_text; on_snd (sm_modify (fun r => mk_loop (lq_in r) (lq_out r) (Some (cstr (take 15 s)))))
  else if key =? 3 then get_uint (fun _ r => r)
  else on_fst harp_cdec_skip.

Definition set_loop (on : bool) (i o : Z) (a : audio_state) : audio_state :=
  mk_audio (a_running a) (a_live a) (a_fd a) (a_out_fd a) (a_rtp_fd a) (a_rtp_seq a) (a_rtp_ssrc a) (a_hp_port a) (a_hp_sock a)
    (a_offline a) (a_prebuffer a) (a_mode a) (a_rate a) (a_nsamples a) (a_epoch a) (a_reanchors a) (a_msc_final a) (a_trim a)
    (a_out_slots a) (a_in_slots a) on i o (a_meter_running a) (a_meter_live a).

Definition handle_diag_loopback_start : handler L := fun e d =>
  let r := body_parse (map_fields loop_visit) e (mk_loop 0 0 None) in
  if negb (bool_decide (lq_mode r = Some (str "digital")))
  then fail_with e (str "unsupported") (Some (str "refdev supports diag.loopback.digital only")) d
  else if (lq_in r >? 33) || (lq_out r >? 33)
  then fail_with e (str "bad-slot") (Some (str "in/out slot outside the channel map")) d
  else if negb (a_live (d_audio d)) || negb (a_mode (d_audio d) =? 1)
  then fail_with e (str "state") (Some (str "diag.loopback.digital requires a live host-paced stream")) d
  else
    let d := upd_audio (set_loop true (u8 (lq_in r)) (u8 (lq_out r))) d in
    respond e (fun b => kuint 5 0 (kuint 4 (a_rate (d_audio d)) (kuint 3 (lq_out r) (kuint 2 (lq_in r)
      (ktext 1 (str "digital") (kbool 0 true (harp_cbor_map b 6))))))) d.

Definition handle_diag_loopback_stop : handler L := fun e d =>
  respond e (fun b => kbool 0 true (harp_cbor_map b 1))
    (upd_audio (fun a => set_loop false (a_loop_in a) (a_loop_out a) a) d).
End stream.
