(* ===== verification/Hello.v ===== *)
(** * The core methods

    session.c's identity record, [core.hello], [core.identify], [core.ping],
    [core.bye], [time.ping] and the [core.changed] test seam. *)
From Stdlib Require Import ZArith Lia String List Bool.
From stdpp Require Import base list.
From S2P Require Import Prelude Cbuf CborEnc CborDec CborFloat CborFields Sha256 Frame Envelope Object Link Fs Store RateLimit LogRing Params Evq Ieee Parts Render Device Reply Stream.
Open Scope Z_scope.
Open Scope list_scope.

Section core.
Context {L : Type} {ML : MsgLink L} {E : DevEnv} {R : Realloc} (conf : dev_conf).
Implicit Types d : device L.

(** ** Identity *)

(** engine.c's role: a synth. *)
Definition engine_is_fx : bool := false.

Definition rt_profile : bool := negb (c_rt_floor conf =? 0) || negb (c_rt_nsamples conf =? 0).
Definition or_default (o : option (list Z)) (s : list Z) : list Z := match o with Some x => x | None => s end.

Definition capabilities : list (list Z) :=
  map str ["harp-core"; "harp-recall"; "harp-stream"; "harp-perf"; "audio.host-paced"; "audio.deterministic"; "audio.offline-rate"]%string ++
  (if engine_is_fx then [str "audio.fx"] else []) ++
  (if c_no_rate_lock conf then [] else [str "audio.rate-lock"]) ++
  map str ["evt.param"; "evt.param.echo"; "evt.param.mod"; "evt.transport"; "evt.ump"; "evt.txn"; "evt.multitimbral"; "evt.param.meter";
           "diag.bundle"; "diag.loopback.digital"; "x.harp-refdev.sim"]%string ++
  (if rt_profile then [str "audio.rt-floor"] else []).

(** The count the code declares for that array. *)
Definition capability_count : Z :=
  (if c_no_rate_lock conf then 18 else 19) + (if rt_profile then 1 else 0) + (if engine_is_fx then 1 else 0).

(** One entry of the channel map. *)
Definition slot_name (slot : Z) : list Z :=
  let side := if Z.odd slot then str "R" else str "L" in
  if slot / 2 =? 0 then str "Main " ++ side else str "Part " ++ dec_str (slot / 2) ++ str " " ++ side.
Definition slot_group (slot : Z) : list Z := if slot / 2 =? 0 then str "Mix" else str "Part " ++ dec_str (slot / 2).
Definition slot_path (slot : Z) : list Z := if slot / 2 =? 0 then str "main" else str "part" ++ dec_str (slot / 2).
Definition enc_slot (b : cbuf) (slot : Z) : cbuf :=
  kbool 5 true (ktext 4 (slot_path slot) (ktext 3 (slot_group slot) (ktext 2 (slot_name slot)
    (kuint 1 0 (kuint 0 slot (harp_cbor_map b 6)))))).

Definition enc_vendor (b : cbuf) : cbuf :=
  let b := harp_cbor_map (harp_cbor_uint b 0) 2 in
  let b := ktext 1 (str "HARP Reference Project") (kuint 0 0x1209 b) in
  let b := harp_cbor_map (harp_cbor_uint b 1) 2 in
  ktext 1 (or_default (c_product conf) (str "harp-refdev")) (kuint 0 1 b).

Definition enc_engine (hash : harp_hash) (b : cbuf) : cbuf :=
  let b := ktext 3 FW_VERSION (ktext 2 (c_serial conf) b) in
  let b := harp_cbor_map (harp_cbor_uint b 4) 3 in
  let b := ktext 0 (or_default (c_engine_name conf) ENGINE_ID) b in
  kbytes 2 hash (ktext 1 (or_default (c_engine_ver conf) ENGINE_VERSION) b).

Definition enc_protocol (b : cbuf) : cbuf :=
  let b := harp_cbor_array (harp_cbor_uint b 5) 2 in
  let b := harp_cbor_uint (harp_cbor_uint b PROTO_MAJOR) PROTO_MINOR in
  let b := harp_cbor_array (harp_cbor_uint b 6) capability_count in
  fold_left harp_cbor_text capabilities b.

Definition enc_channels (b : cbuf) : cbuf :=
  fold_left enc_slot (map Z.of_nat (seq 0 NSLOTS)) (harp_cbor_array (harp_cbor_uint b 7) (Z.of_nat NSLOTS)).

Definition enc_latency (b : cbuf) : cbuf :=
  let b := harp_cbor_map (harp_cbor_array (harp_cbor_uint b 8) 1) 4 in
  kuint 3 256 (kuint 2 (c_out_lat conf) (kuint 1 (c_in_lat conf) (kuint 0 48000 b))).

Definition enc_build (b : cbuf) : cbuf :=
  let b := kuint 10 (c_boot_count conf) (ktext 9 (str "refdev sim " ++ env_date) b) in
  let b := harp_cbor_map (harp_cbor_array (harp_cbor_uint b 11) 1) 2 in
  let b := kuint 12 (Z.of_nat NPARTS) (ktext 1 (str "notes") (kuint 0 0 b)) in
  let b := harp_cbor_map (harp_cbor_uint b 13) 2 in
  kuint 1 (Z.of_nat DEV_TXN_EVENTS_MAX) (kuint 0 (Z.of_nat DEV_TXN_MAX) b).

Definition enc_rt_profile (b : cbuf) : cbuf :=
  if rt_profile then
    let b := harp_cbor_map (harp_cbor_uint b 14)
               ((if c_rt_floor conf =? 0 then 0 else 1) + (if c_rt_nsamples conf =? 0 then 0 else 1)) in
    let b := if c_rt_floor conf =? 0 then b else kuint 0 (c_rt_floor conf) b in
    if c_rt_nsamples conf =? 0 then b else kuint 1 (c_rt_nsamples conf) b
  else b.

Definition encode_identity (hash : harp_hash) (m : cbuf) : cbuf :=
  let b := harp_cbor_map m (if rt_profile then 15 else 14) in
  enc_rt_profile (enc_build (enc_latency (enc_channels (enc_protocol (enc_engine hash (enc_vendor b)))))).

(** ** Hello *)

(** The peer's major version: the last well-formed pair under key 0. *)
Definition hello_visit (key : Z) : parser Z unit :=
  if key =? 0 then
    sm_try (alen ← on_fst harp_cdec_array; sm_guard (alen =? 2);;
            mj ← on_fst harp_cdec_uint; on_fst harp_cdec_uint;; on_snd (sm_modify (fun _ => mj)));;
    mret tt
  else skip_ignored.

Definition enc_major_range (b : cbuf) : cbuf := kuint 1 PROTO_MAJOR (kuint 0 PROTO_MAJOR (harp_cbor_map b 2)).

(** Credit, the send queue, open transactions and the rate limits start afresh;
    the socket's read deadline is not part of the model. *)
Definition session_reset d : device L :=
  let d := upd_net (fun n => set_sendq (mk_sendq (sq_arr (n_sendq n)) 0 0 0) (set_granted 0 (set_credit 0 n))) d in
  set_buckets fresh_bucket fresh_bucket (txn_clear d).

Definition enc_hello (hash : harp_hash) (b : cbuf) : cbuf :=
  let b := harp_cbor_array (harp_cbor_uint (harp_cbor_map b 2) 0) 2 in
  let b := harp_cbor_uint (harp_cbor_uint b PROTO_MAJOR) PROTO_MINOR in
  encode_identity hash (harp_cbor_uint b 1).

Definition handle_hello : handler L := fun e d =>
  let peer_major := body_parse (map_fields hello_visit) e 0 in
  if negb (peer_major =? PROTO_MAJOR)
  then fail_details e (str "incompatible") (str "device supports protocol 1.x only") enc_major_range d
  else
    let d := upd_net (set_hello true) (audio_stop d) in
    let d := session_reset d in
    grant_credit (respond e (enc_hello (d_hash d)) d).

(** ** The small methods *)

Definition handle_identify : handler L := fun e d => respond e (encode_identity (d_hash d)) d.

(** The body comes back as it is. *)
Definition handle_ping : handler L := fun e d =>
  if e_has_body e then respond e (fun b => harp_cbuf_put b (e_body e)) d else respond_empty e d.

Definition handle_bye : handler L := fun e d => upd_net (set_closing true) (respond_empty e d).

(** [(epoch, microseconds)] at receipt and at transmission. *)
Definition handle_time_ping : handler L := fun e d =>
  let '(t0, d) := ask env_ns d in
  let epoch := a_epoch (d_audio d) in
  let '(t1, d) := ask env_ns d in
  respond e (fun b =>
    let b := harp_cbor_array (harp_cbor_uint (harp_cbor_map b 2) 0) 2 in
    let b := harp_cbor_uint (harp_cbor_uint b epoch) (t0 / 1000) in
    let b := harp_cbor_array (harp_cbor_uint b 1) 2 in
    harp_cbor_uint (harp_cbor_uint b epoch) (t1 / 1000)) d.

Definition topic_of (e : harp_env) : list Z :=
  body_parse (first_key 1 (fun _ => s ← on_fst harp_cdec_text; on_snd (sm_modify (fun _ => cstr (take 31 s))))) e (str "identity").
Definition handle_notify_changed : handler L := fun e d => respond_empty e (ntf_core_changed (topic_of e) d).

(** The reply, then the process ends. *)
Definition handle_restart : handler L := fun e d =>
  let d := devlog HARP_LOG_INFO (str "session") (str "harp-deviced: restart requested; exiting for respawn" ++ [10]) (respond_empty e d) in
  set_exited (audio_stop d).
End core.
