(* ===== verification/Refs.v ===== *)
(** * The state methods

    session.c's [state.*] methods: listing refs, snapshots, which objects are
    held, sending and receiving objects, the compare-and-set update of a ref, and
    the retention of archived refs with the collection that follows it. *)
From Stdlib Require Import ZArith Lia String List Bool.
From stdpp Require Import base list.
From S2P Require Import Prelude Cbuf CborEnc CborDec CborFields Sha256 Frame Envelope Object Link Fs Store StoreGc RateLimit LogRing Params Evq Parts Device Reply State.
Open Scope Z_scope.
Open Scope list_scope.

Definition HARP_ARCHIVE_KEEP : nat := 32.
Definition HARP_GC_INTERVAL : Z := 32.
Definition HARP_GC_MAX_SWEEP : nat := 4096.

(** ** [sscanf(s, "%d.%d")] *)

Fixpoint digits_span (s : list Z) : list Z * list Z :=
  match s with
  | c :: r => if (48 <=? c) && (c <=? 57) then let '(a, b) := digits_span r in (c :: a, b) else ([], s)
  | [] => ([], [])
  end.
Definition scan_d (s : list Z) : option (Z * list Z) :=
  let s := skip_space s in
  let neg := match s with c :: _ => c =? 45 | [] => false end in
  let s := match s with c :: r => if (c =? 45) || (c =? 43) then r else s | [] => s end in
  let '(ds, r) := digits_span s in
  let v := (if neg then -1 else 1) * digits_value 0 ds in
  match ds with
  | [] => None
  | _ => Some (s32 (Z.max (- 2 ^ 63) (Z.min (2 ^ 63 - 1) v)), r)
  end.
Definition scan_version (s : list Z) : Z * Z :=
  match scan_d s with
  | Some (a, 46 :: r) => (a, match scan_d r with Some (b, _) => b | None => 0 end)
  | Some (a, _) => (a, 0)
  | None => (0, 0)
  end.

(** ** Retention *)

(** [prune_keep]: the largest names, ascending, and how many matched. *)
Record prune_keep := mk_keep { k_names : list (list Z); k_total : nat }.

(** The two insertion loops: from the end up; down from the place of the
    smallest. *)
Fixpoint ins_up (rl : list (list Z)) (x : list Z) : list (list Z) :=
  match rl with
  | y :: r => if strcmp y x >? 0 then y :: ins_up r x else x :: rl
  | [] => [x]
  end.
Fixpoint ins_down (l : list (list Z)) (x : list Z) : list (list Z) :=
  match l with
  | y :: r => if strcmp y x <? 0 then y :: ins_down r x else x :: l
  | [] => [x]
  end.

Definition prune_insert (x : list Z) (names : list (list Z)) : list (list Z) :=
  if (length names <? HARP_ARCHIVE_KEEP)%nat then rev (ins_up (rev names) x)
  else match names with
       | y :: r => if strcmp x y >? 0 then ins_down r x else names
       | [] => names
       end.

Definition prune_scan (prefix : list Z) (r : harp_ref) (k : prune_keep) : prune_keep :=
  if negb (has_prefix prefix (r_name r)) then k else mk_keep (prune_insert (r_name r) (k_names k)) (S (k_total k)).

Section refs.
Context {L : Type} {ML : MsgLink L} {E : DevEnv} {R : Realloc} {Q : Qsort} {O' : OS} {F : Faults} (conf : dev_conf).
Implicit Types d : device L.

Definition prune_scan_cb (prefix : list Z) (r : harp_ref) : SM (world * prune_keep) unit :=
  on_snd (sm_modify (prune_scan prefix r)).

Definition prune_del_cb (prefix threshold : list Z) (r : harp_ref) : SM (world * nat) unit := fun st =>
  let '(w, n) := st in
  if negb (has_prefix prefix (r_name r)) then (Some tt, st)
  else if strcmp (r_name r) threshold <? 0 then
    match harp_store_ref_delete (c_store conf) (r_name r) w with
    | (Some _, w) => (Some tt, (w, S n))
    | (None, w) => (Some tt, (w, n))
    end
  else (Some tt, st).

(** The results of the two listings are not looked at. *)
Definition prune_namespace (prefix : list Z) : SM world nat := fun w =>
  let '(_, (w, k)) := harp_store_ref_list (c_store conf) (prune_scan_cb prefix) (w, mk_keep [] 0) in
  if (k_total k <=? HARP_ARCHIVE_KEEP)%nat then (Some O, w)
  else
    let '(_, (w, n)) := harp_store_ref_list (c_store conf) (prune_del_cb prefix (nth 0 (k_names k) [])) (w, O) in
    (Some n, w).

Definition set_archives (n : Z) (v : live_state) : live_state := mk_live (lv_cache v) (lv_valid v) (lv_last_ntf v) n.

(** [harp_store_gc].  With [GcHung] it does not return, so that nothing that
    follows the call happens ([GcCorrect.gc_hangs]). *)
Definition run_gc (max : nat) d : gc_res * device L :=
  let '(ok, d) := ask env_calloc d in
  let '(r, w) := harp_store_gc (c_store conf) max ok (d_world d) in
  (r, set_world w d).

Definition log_gc (prefix : list Z) (pruned : nat) (r : gc_res) d : device L :=
  let n := dec_str (Z.of_nat pruned) in
  let head := str "harp-deviced: " ++ [0xc2; 0xa7] ++ str "10.3 GC " in
  match r with
  | GcOk reclaimed =>
      devlog HARP_LOG_INFO (str "session") (head ++ str "pruned " ++ n ++ str " " ++ prefix ++ str "refs, reclaimed " ++
        dec_str (Z.of_nat reclaimed) ++ str " objects" ++ [10]) d
  | _ =>
      devlog HARP_LOG_WARN (str "session") (head ++ str "aborted (pruned " ++ n ++ str " " ++ prefix ++ str "refs) " ++
        [0xe2; 0x80; 0x94] ++ str " store not swept" ++ [10]) d
  end.

Definition run_prune (prefix : list Z) d : nat * device L :=
  match on_store (prune_namespace prefix) d with (Some n, d) => (n, d) | (None, d) => (O, d) end.

Definition s_archive : list Z := str "archive/".
Definition s_duplicate : list Z := str "duplicate/".

Definition maybe_gc (refname : list Z) d : device L :=
  let go prefix :=
    let '(pruned, d) := run_prune prefix d in
    let n := u64 (lv_archives (d_live d) + 1) in
    let d := upd_live (set_archives n) d in
    if HARP_GC_INTERVAL <=? n then
      let d := upd_live (set_archives 0) d in
      let '(r, d) := run_gc HARP_GC_MAX_SWEEP d in
      match r with GcHung => set_exited d | _ => log_gc prefix pruned r d end
    else d in
  if has_prefix s_archive refname then go s_archive
  else if has_prefix s_duplicate refname then go s_duplicate
  else d.

Definition handle_dev_gc : handler L := fun e d =>
  let '(_, d) := run_prune s_archive d in
  let '(_, d) := run_prune s_duplicate d in
  let '(r, d) := run_gc 0 d in
  match r with
  | GcHung => set_exited d
  | _ =>
      let d := upd_live (set_archives 0) d in
      let '(n, w) := harp_store_obj_count (c_store conf) (d_world d) in
      let reclaimed := match r with GcOk k => Z.of_nat k | _ => 0 end in
      let remaining := match n with Some k => Z.of_nat k | None => 0 end in
      respond e (fun b => kuint 1 remaining (kuint 0 reclaimed (harp_cbor_map b 2))) (set_world w d)
  end.

(** ** Listing and snapshots *)

Definition refs_cb (r : harp_ref) : SM (world * (cbuf * nat)) unit :=
  on_snd (sm_modify (fun c => (harp_ref_encode c.1 r, S c.2))).

Definition refs_filter (e : harp_env) : list Z :=
  body_parse (first_key 1 (fun _ => decode_text_into HARP_REF_NAME_MAX (fun s _ => s))) e [].

Definition handle_state_refs : handler L := fun e d =>
  let d := live_cache_flush conf d in
  let filter := refs_filter e in
  let head b := harp_cbor_uint (harp_cbor_map b 1) 0 in
  if negb (bool_decide (filter = [])) then
    match on_store (harp_store_ref_read (c_store conf) filter) d with
    | (Some r, d) =>
        respond e (fun b => if r_unborn r then harp_cbor_array (head b) 0 else harp_ref_encode (harp_cbor_array (head b) 1) r) d
    | (None, d) => respond e (fun b => harp_cbor_array (head b) 0) d
    end
  else
    let '(_, (w, (items, count))) := harp_store_ref_list (c_store conf) refs_cb (d_world d, (harp_cbuf_init, O)) in
    respond e (fun b => harp_cbuf_put (harp_cbor_array (head b) (Z.of_nat count)) (cb_buf items)) (set_world w d).

(** The name and the message. *)
Definition snapshot_visit (key : Z) : parser (list Z * list Z) unit :=
  if key =? 0 then decode_text_into HARP_REF_NAME_MAX (fun s r => (s, r.2))
  else if key =? 1 then decode_text_into 256 (fun s r => (r.1, s))
  else skip_ignored.

Definition handle_state_snapshot : handler L := fun e d =>
  let '(shed, d) := expensive_op_shed e d_rl_snapshot set_rl_snapshot d in
  if shed : bool then d
  else
    let '(refname, msg) := body_parse (map_fields snapshot_visit) e ([], []) in
    if negb (streq refname LIVE_REF)
    then fail_with e (str "unsupported") (Some (str "refdev snapshots live/project only")) d
    else
      match do_snapshot conf (if bool_decide (msg = []) then None else Some msg) d with
      | (Some (snap, gen), d) => respond e (fun b => kuint 1 gen (kbytes 0 snap (harp_cbor_map b 2))) d
      | (None, d) => fail_with e (str "storage") None d
      end.

(** ** Objects *)

Definition store_have (h : harp_hash) d : bool * device L :=
  match on_store (harp_store_have (c_store conf) h) d with (Some b, d) => (b, d) | (None, d) => (false, d) end.

(** The loop over the hashes of a request: [{0: [hash, ...]}]. *)
Definition each_hash {T} (body : harp_hash -> T -> T) : parser T unit :=
  first_key 1 (fun _ =>
    alen ← on_fst harp_cdec_array;
    sm_for alen (h ← on_fst harp_hash_read; on_snd (sm_modify (body h)))).

Definition handle_state_have : handler L := fun e d =>
  let one h '(d, (bools, count)) := let '(b, d) := store_have h d in (d, (harp_cbor_bool bools b, S count)) in
  let '(d, (bools, count)) := body_parse (each_hash one) e (d, (harp_cbuf_init, O)) in
  respond e (fun b => harp_cbuf_put (harp_cbor_array (harp_cbor_uint (harp_cbor_map b 1) 0) (Z.of_nat count)) (cb_buf bools)) d.

Definition WANT_MAX : nat := 256.
Definition want_one (h : harp_hash) (st : device L * list harp_hash) : device L * list harp_hash :=
  let '(d, queue) := st in
  if (length queue <? WANT_MAX)%nat then let '(b, d) := store_have h d in (d, if b : bool then queue ++ [h] else queue) else st.

Definition handle_state_want : handler L := fun e d =>
  let '(d, queue) := body_parse (each_hash want_one) e (d, []) in
  let d := respond e (fun b => kuint 0 (zlen queue) (harp_cbor_map b 1)) d in
  sendq_flush conf (fold_left (fun d h => sendq_push h d) queue d).

Definition send_visit (key : Z) : parser Z unit := if key =? 1 then get_uint (fun v _ => v) else skip_ignored.

Definition handle_state_send : handler L := fun e d =>
  let total := body_parse (map_fields send_visit) e 0 in
  let '(vs, d) := ask env_statvfs d in
  let refuse := match vs with Some (_, bavail, frsize) => u64 (bavail * frsize) <? total | None => false end in
  if refuse : bool then fail_with e (str "storage") (Some (str "insufficient free space")) d else respond_empty e d.

(** [handle_obj]: an object from the host; credit is used up either way. *)
Definition handle_obj (buf : list Z) d : device L :=
  let d :=
    if harp_obj_kind buf <? 0 then ctr_inc frame_errors d
    else match on_store (harp_store_put (c_store conf) buf) d with
         | (Some _, d) => d
         | (None, d) => ctr_inc frame_errors d
         end in
  let len := zlen buf in
  let d := upd_net (fun n => set_granted (if len <=? n_granted n then n_granted n - len else 0) n) d in
  if n_granted (d_net d) <? CREDIT_GRANT / 2 then grant_credit d else d.

(** ** Updating a ref *)

Record refset_req := mk_refset { rq_name : list Z; rq_expect_null : bool; rq_expect : option harp_hash; rq_new : option harp_hash; rq_flags : Z }.
(** [have_expect] *)
Definition rq_have_expect (q : refset_req) : bool := rq_expect_null q || bool_decide (rq_expect q <> None).

Definition refset_visit (key : Z) : parser refset_req unit :=
  if key =? 0 then decode_text_into HARP_REF_NAME_MAX (fun s q => mk_refset s (rq_expect_null q) (rq_expect q) (rq_new q) (rq_flags q))
  else if key =? 1 then
    c ← on_fst sm_get;
    if harp_cdec_peek_null c then
      sm_try (on_fst harp_cdec_null);; on_snd (sm_modify (fun q => mk_refset (rq_name q) true (rq_expect q) (rq_new q) (rq_flags q)))
    else
      sm_try (h ← on_fst harp_hash_read; on_snd (sm_modify (fun q => mk_refset (rq_name q) (rq_expect_null q) (Some h) (rq_new q) (rq_flags q))));;
      mret tt
  else if key =? 2 then
    sm_try (h ← on_fst harp_hash_read; on_snd (sm_modify (fun q => mk_refset (rq_name q) (rq_expect_null q) (rq_expect q) (Some h) (rq_flags q))));;
    mret tt
  else if key =? 3 then
    sm_try (get_uint (fun v q => mk_refset (rq_name q) (rq_expect_null q) (rq_expect q) (rq_new q) v));; mret tt
  else skip_ignored.

Definition refset_req_init : refset_req := mk_refset [] false None None 0.
Definition parse_refset (e : harp_env) : refset_req := body_parse (map_fields refset_visit) e refset_req_init.

Definition rq_create (q : refset_req) : bool := Z.testbit (rq_flags q) 0.
Definition rq_force (q : refset_req) : bool := Z.testbit (rq_flags q) 1.
Definition rq_consent (q : refset_req) : bool := Z.testbit (rq_flags q) 2.

(** The compare of the compare-and-set. *)
Definition expect_ok (q : refset_req) (r : harp_ref) : bool :=
  if r_unborn r then rq_expect_null q || rq_create q
  else negb (rq_expect_null q) && match rq_expect q with Some h => harp_hash_eq (r_hash r) h | None => false end.
Definition refset_conflict (q : refset_req) (r : harp_ref) : bool := negb (rq_force q) && (negb (expect_ok q r) || r_dirty r).

Definition enc_conflict (r : harp_ref) (b : cbuf) : cbuf :=
  let b := harp_cbor_uint (harp_cbor_map b 3) 0 in
  let b := if r_unborn r then harp_cbor_null b else harp_cbor_bytes b (r_hash r) in
  kbool 2 (r_dirty r) (kuint 1 (r_generation r) b).

(** The engine version check: [None] to go on, or the version the snapshot names,
    if it names one. *)
Definition engine_check (newh : harp_hash) d : option (option (list Z)) * device L :=
  let '(o, d) := on_store (harp_store_get (c_store conf) newh harp_cbuf_init) d in
  let snap_eng := match o with Some (true, se) => harp_obj_parse_snapshot_engine (cb_buf se) 24 | _ => None end in
  let dev_eng := match c_engine_ver conf with Some v => v | None => ENGINE_VERSION end in
  match snap_eng with
  | None => (Some None, d)
  | Some v => (if bool_decide (scan_version v = scan_version dev_eng) then None else Some (Some v), d)
  end.

Definition fail_engine (e : harp_env) (snap_eng : option (list Z)) d : device L :=
  let dev_eng := match c_engine_ver conf with Some v => v | None => ENGINE_VERSION end in
  fail_details e (str "incompatible")
    (match snap_eng with
     | Some _ => str "snapshot engine version differs; set consent flag 0x4 to override"
     | None => str "snapshot has no engine field; set consent flag 0x4 to override"
     end)
    (fun b => ktext 1 dev_eng (ktext 0 (match snap_eng with Some v => v | None => [] end) (harp_cbor_map b 2))) d.

(** A live ref is loaded into the engine; [inl]: go on. *)
Definition activate (e : harp_env) (q : refset_req) (newh : harp_hash) d : device L + device L :=
  let '(bad, d) := if rq_consent q then (None, d) else engine_check newh d in
  match bad with
  | Some snap_eng => inr (fail_engine e snap_eng d)
  | None =>
      match engine_load_snapshot conf newh d with
      | (Some _, d) => inl d
      | (None, d) => inr (fail_with e (str "malformed") (Some (str "target is not a loadable snapshot")) d)
      end
  end.

(** The write, the reply, the notification, the retention. *)
Definition refset_commit (e : harp_env) (refname : list Z) (r : harp_ref) (newh : harp_hash) d : device L :=
  let r := mk_ref (r_name r) false newh (u64 (r_generation r + 1)) false in
  match on_store (harp_store_ref_write (c_store conf) r) d with
  | (None, d) => fail_with e (str "storage") None d
  | (Some _, d) =>
      let d := respond e (fun b => kuint 0 (r_generation r) (harp_cbor_map b 1)) d in
      maybe_gc refname (ntf_state_changed r d)
  end.

Definition handle_state_refset : handler L := fun e d =>
  let q := parse_refset e in
  let name := rq_name q in
  match rq_new q with
  | Some newh =>
      if bool_decide (name = []) || negb (rq_have_expect q) then fail_with e (str "malformed") None d
      else
        let d := if streq name LIVE_REF then live_cache_flush conf d else d in
        match on_store (harp_store_ref_read (c_store conf) name) d with
        | (None, d) => fail_with e (str "malformed") (Some (str "bad ref name")) d
        | (Some r, d) =>
            if refset_conflict q r
            then fail_details e (str "conflict") (if r_dirty r then str "ref is dirty" else str "expect mismatch") (enc_conflict r) d
            else
              match closure_complete conf newh d with
              | (Some true, d) =>
                  if streq name LIVE_REF then
                    match activate e q newh d with
                    | inl d => refset_commit e name r newh d
                    | inr d => d
                    end
                  else refset_commit e name r newh d
              | (_, d) => fail_with e (str "not-found") (Some (str "object closure incomplete")) d
              end
        end
  | None => fail_with e (str "malformed") None d
  end.
End refs.
