(* ===== verification/Events.v ===== *)
(** * The event stream and the evt methods

    session.c's event side: the run of staged events that reaches the queue under
    one lock, the event transactions, the decoding of every kind of event message;
    the descriptors, the conversion between values and text, and the front panel's
    knob method. *)
From Stdlib Require Import ZArith Lia String List Bool.
From stdpp Require Import base list.
From S2P Require Import Prelude Cbuf CborEnc CborDec CborFloat CborFields Sha256 Frame Envelope Object Link Fs Store RateLimit LogRing Params Evq Ieee Parts Device Reply State.
Open Scope Z_scope.
Open Scope list_scope.

Section events.
Context {L : Type} {ML : MsgLink L} {E : DevEnv} {R : Realloc} {O' : OS} {F : Faults} {FC : FpConv} (conf : dev_conf).
Implicit Types d : device L.

(** ** Staging *)

Definition upd_q (f : evq -> evq) d : device L :=
  upd_evt (fun v => mk_evt (f (es_q v)) (es_txn v) (es_stage v) (es_staged v) (es_consumed v)) d.
Definition set_txns (t : list dev_txn) d : device L :=
  upd_evt (fun v => mk_evt (es_q v) t (es_stage v) (es_staged v) (es_consumed v)) d.
Definition set_staged (b : bool) d : device L :=
  upd_evt (fun v => mk_evt (es_q v) (es_txn v) (es_stage v) b (es_consumed v)) d.
(** [atomic_fetch_add(&g_evt_consumed, n)] *)
Definition evt_consume (n : Z) d : device L :=
  upd_evt (fun v => mk_evt (es_q v) (es_txn v) (es_stage v) (es_staged v) (u32 (es_consumed v + n))) d.

Definition evt_stage_flush d : device L :=
  match es_stage (d_evt d) with
  | [] => d
  | run =>
      upd_evt (fun v => mk_evt (es_q v) (es_txn v) [] (es_staged v) (es_consumed v))
        (evt_consume (u32 (zlen run)) (upd_q (evq_push_run run) d))
  end.

Definition evt_stage_add (ev : dev_event) d : device L :=
  let d := if (EVT_STAGE_CAP <=? length (es_stage (d_evt d)))%nat then evt_stage_flush d else d in
  upd_evt (fun v => mk_evt (es_q v) (es_txn v) (es_stage v ++ [ev]) true (es_consumed v)) d.

(** ** Transactions *)

Fixpoint txn_index (p : dev_txn -> bool) (l : list dev_txn) : option nat :=
  match l with
  | [] => None
  | t :: l => if p t then Some O else i ← txn_index p l; Some (S i)
  end.
Definition txn_find (id : Z) d : option nat := txn_index (fun t => tx_open t && (tx_id t =? id)) (es_txn (d_evt d)).
Definition txn_at (i : nat) d : dev_txn := nth i (es_txn (d_evt d)) txn_zero.
Definition txn_put (i : nat) (t : dev_txn) d : device L := set_txns (<[i := t]> (es_txn (d_evt d))) d.

Definition txn_begin (id : Z) d : device L :=
  if id =? 0 then ctr_inc evt_txn_rejected d
  else
    match txn_find id d with
    | Some _ => ctr_inc evt_txn_rejected d
    | None =>
        match txn_index (fun t => negb (tx_open t)) (es_txn (d_evt d)) with
        | Some i => txn_put i (mk_txn true id []) d
        | None => ctr_inc evt_txn_rejected d
        end
    end.

Definition txn_submit (txn_id : Z) (ev : dev_event) d : device L :=
  if txn_id =? 0 then evt_stage_add ev d
  else
    match txn_find txn_id d with
    | None => ctr_inc evt_txn_unknown d
    | Some i =>
        let t := txn_at i d in
        if (DEV_TXN_EVENTS_MAX <=? length (tx_ev t))%nat then ctr_inc evt_txn_overflow d
        else txn_put i (mk_txn true (tx_id t) (tx_ev t ++ [ev])) d
    end.

Definition restamp (ts : Z) (ev : dev_event) : dev_event :=
  mk_event ts (ev_kd ev) (ev_a ev) (ev_v ev) (ev_end ev) (ev_ppq ev) (ev_channel ev) (ev_voice ev).
Definition ev_dirty (ev : dev_event) : bool :=
  match ev_kd ev with DEV_EV_PARAM_SET | DEV_EV_RAMP => ev_voice ev =? 0 | _ => false end.

Definition txn_commit (id commit_msc : Z) d : bool * device L :=
  match txn_find id d with
  | None => (false, ctr_inc evt_txn_unknown d)
  | Some i =>
      let evs := map (restamp commit_msc) (tx_ev (txn_at i d)) in
      let d := evt_stage_flush d in
      let '(pushed, q) := match evs with [] => (true, es_q (d_evt d)) | _ => evq_push_batch evs (es_q (d_evt d)) end in
      (existsb ev_dirty evs && pushed, txn_put i (mk_txn false id evs) (upd_q (fun _ => q) d))
  end.

Definition txn_abort (id : Z) d : device L :=
  match txn_find id d with
  | None => ctr_inc evt_txn_unknown d
  | Some i => let t := txn_at i d in txn_put i (mk_txn false (tx_id t) (tx_ev t)) d
  end.

(** ** Event messages *)

(** [[_, [epoch, msc], etype, ...]] up to the event type. *)
Definition stamp : dec (Z * Z) := tn ← harp_cdec_array; sm_guard (tn =? 2);; ep ← harp_cdec_uint; msc ← harp_cdec_uint; mret (ep, msc).
Definition evt_head : dec (Z * Z * Z) :=
  alen ← harp_cdec_array; sm_guard (3 <=? alen);; s ← stamp; etype ← harp_cdec_uint; mret (s, etype).

(** The fields of an event body; each kind reads its own keys. *)
Record evt_body := mk_body { b_id : option Z; b_val : option Z; b_end : option (Z * Z); b_voice : Z; b_txn : option Z; b_chan : Z }.
Definition body_init : evt_body := mk_body None None None 0 None 0.

Definition set_b_id (v : Z) (b : evt_body) : evt_body := mk_body (Some v) (b_val b) (b_end b) (b_voice b) (b_txn b) (b_chan b).
Definition set_b_val (v : Z) (b : evt_body) : evt_body := mk_body (b_id b) (Some v) (b_end b) (b_voice b) (b_txn b) (b_chan b).
Definition set_b_end (v : Z * Z) (b : evt_body) : evt_body := mk_body (b_id b) (b_val b) (Some v) (b_voice b) (b_txn b) (b_chan b).
Definition set_b_voice (v : Z) (b : evt_body) : evt_body := mk_body (b_id b) (b_val b) (b_end b) v (b_txn b) (b_chan b).
Definition set_b_txn (v : Z) (b : evt_body) : evt_body := mk_body (b_id b) (b_val b) (b_end b) (b_voice b) (Some v) (b_chan b).
Definition set_b_chan (v : Z) (b : evt_body) : evt_body := mk_body (b_id b) (b_val b) (b_end b) (b_voice b) (b_txn b) v.

(** A set or modulation; a ramp reads key 2 too. *)
Definition value_visit (key : Z) : parser evt_body unit :=
  if key =? 0 then get_uint set_b_id
  else if key =? 1 then get_float set_b_val
  else if key =? 3 then get_uint set_b_voice
  else if key =? 4 then get_uint set_b_txn
  else if key =? 5 then get_uint set_b_chan
  else on_fst harp_cdec_skip.
Definition get_stamp : parser evt_body unit := s ← on_fst stamp; on_snd (sm_modify (set_b_end s)).
Definition ramp_visit (key : Z) : parser evt_body unit := if key =? 2 then get_stamp else value_visit key.

(** Transaction messages: the id, and for a commit the instant under key 1. *)
Definition txn_visit (commit : bool) (key : Z) : parser evt_body unit :=
  if key =? 0 then get_uint set_b_id
  else if commit && (key =? 1) then get_stamp
  else on_fst harp_cdec_skip.

(** [flags], [tempo], [ppq] *)
Definition transport_visit (key : Z) : parser (Z * Z * Z) unit :=
  if key =? 0 then get_uint (fun v t => (v, t.1.2, t.2))
  else if key =? 1 then get_float (fun v t => (t.1.1, v, t.2))
  else if key =? 4 then get_float (fun v t => (t.1, v))
  else on_fst harp_cdec_skip.

(** A body that is not a map is a frame error; a bad field ends the message. *)
Definition with_fields {T} (visit : Z -> parser T unit) (init : T) (k : T -> device L -> device L) (c : cdec) d : device L :=
  match harp_cdec_map c with
  | (None, _) => ctr_inc frame_errors d
  | (Some n, c) =>
      match sm_for n (key ← on_fst harp_cdec_uint; visit key) (c, init) with
      | (Some _, (_, t)) => k t d
      | (None, _) => d
      end
  end.

Definition body_event (msc : Z) (kd : ev_kind) (id v end_ts : Z) (b : evt_body) : dev_event :=
  mk_event msc kd (u32 id) (f64_to_f32 v) end_ts 0 (u8 (Z.land (b_chan b) 0xf)) (u32 (b_voice b)).
Definition txn_of (b : evt_body) : Z := match b_txn b with Some t => t | None => 0 end.
Definition submit_touch (etype : Z) (b : evt_body) (ev : dev_event) d : device L :=
  let d := txn_submit (txn_of b) ev d in
  if harp_evt_dirties_live etype (u32 (b_voice b)) (bool_decide (b_txn b <> None)) then live_ref_touch conf true d else d.

Definition evt_param (msc : Z) : cdec -> device L -> device L :=
  with_fields value_visit body_init (fun b d =>
    match b_id b, b_val b with
    | Some id, Some v => submit_touch 1 b (body_event msc DEV_EV_PARAM_SET id (clamp01 v) 0 b) d
    | _, _ => d
    end).

Definition evt_ramp (msc : Z) : cdec -> device L -> device L :=
  with_fields ramp_visit body_init (fun b d =>
    match b_id b, b_val b, b_end b with
    | Some id, Some target, Some (eep, ets) =>
        if harp_evt_epoch_stale eep (a_epoch (d_audio d)) then ctr_inc evt_stale_epoch d
        else submit_touch 5 b (body_event msc DEV_EV_RAMP id (clamp01 target) ets b) d
    | _, _, _ => d
    end).

Definition evt_mod (msc : Z) : cdec -> device L -> device L :=
  with_fields value_visit body_init (fun b d =>
    match b_id b, b_val b with
    | Some id, Some offset => txn_submit (txn_of b) (body_event msc DEV_EV_MOD id offset 0 b) d
    | _, _ => d
    end).

Definition evt_transport (msc : Z) : cdec -> device L -> device L :=
  with_fields transport_visit (0, 0, 0) (fun t d =>
    let '(flags, tempo, ppq) := t in
    upd_q (evq_push (mk_event msc DEV_EV_TRANSPORT (u32 flags) (f64_to_f32 tempo) 0 ppq 0 0)) (evt_stage_flush d)).

Definition evt_txn (etype msc : Z) : cdec -> device L -> device L :=
  with_fields (txn_visit (etype =? 3)) body_init (fun b d =>
    match b_id b with
    | None => d
    | Some id =>
        if etype =? 2 then txn_begin id d
        else if etype =? 4 then txn_abort id d
        else
          match b_end b with
          | Some (cep, cts) =>
              if harp_evt_epoch_stale cep (a_epoch (d_audio d)) then txn_abort id (ctr_inc evt_stale_epoch d)
              else let '(dirty, d) := txn_commit id cts d in if dirty : bool then live_ref_touch conf true d else d
          | None => let '(dirty, d) := txn_commit id msc d in if dirty : bool then live_ref_touch conf true d else d
          end
    end).

(** The word of a UMP packet, and the note, velocity or panic it stands for. *)
Definition ump_word (p : list Z) : Z :=
  Z.lor (Z.lor (Z.lor (Z.shiftl (nth 0 p 0) 24) (Z.shiftl (nth 1 p 0) 16)) (Z.shiftl (nth 2 p 0) 8)) (nth 3 p 0).

Definition ump_event (msc w : Z) : option dev_event :=
  let status := Z.land (Z.shiftr w 20) 0xf in
  let note := Z.land (Z.shiftr w 8) 0x7f in
  let vel := Z.land w 0x7f in
  let ev kd v := mk_event msc kd note v 0 0 (u8 (Z.land (Z.shiftr w 16) 0xf)) 0 in
  if (status =? 9) && (vel >? 0) then Some (ev DEV_EV_NOTE_ON (f32_div (f32_of_Z vel) (f32_of_Z 127)))
  else if (status =? 8) || ((status =? 9) && (vel =? 0)) then Some (ev DEV_EV_NOTE_OFF 0)
  else if (status =? 0xB) && ((note =? 120) || (note =? 123)) then Some (ev DEV_EV_ALL_OFF 0)
  else None.

(** A note-on goes to the queue; a note-off or panic goes there too unless the
    queue is full, when it takes effect at once; a panic takes effect at once in
    any case. *)
Definition push_note (ev : dev_event) d : device L :=
  let all_off d := upd_eng (on_parts engine_all_notes_off) d in
  let d := match ev_kd ev with DEV_EV_ALL_OFF => all_off d | _ => d end in
  let full := evq_full (es_q (d_evt d)) in
  match ev_kd ev with
  | DEV_EV_NOTE_ON => upd_q (evq_push ev) d
  | DEV_EV_ALL_OFF => if full then all_off d else upd_q (evq_push ev) d
  | _ => if full then upd_eng (on_parts (engine_note_off_if (ev_a ev))) d else upd_q (evq_push ev) d
  end.

Definition evt_ump (msc : Z) (c : cdec) d : device L :=
  match harp_cdec_bytes c with
  | (Some p, _) =>
      if zlen p <? 4 then d
      else
        let w := ump_word p in
        if Z.shiftr w 28 =? 2 then
          let d := evt_stage_flush d in
          match ump_event msc w with Some ev => push_note ev d | None => d end
        else d
  | (None, _) => d
  end.

Definition handle_evt_msg (buf : list Z) d : device L :=
  match evt_head (harp_cdec_init buf) with
  | (None, _) => ctr_inc frame_errors d
  | (Some (ep, msc, etype), c) =>
      if harp_evt_epoch_stale ep (a_epoch (d_audio d)) then ctr_inc evt_stale_epoch d
      else if etype =? 0 then evt_ump msc c d
      else if etype =? 5 then evt_ramp msc c d
      else if etype =? 7 then evt_transport msc c d
      else if etype =? 6 then evt_mod msc c d
      else if (2 <=? etype) && (etype <=? 4) then evt_txn etype msc c d
      else if etype =? 1 then evt_param msc c d
      else d
  end.

(** ** Methods *)

Definition handle_evt_params : handler L := fun e d =>
  respond e (fun b =>
    let b := kbytes 0 (d_hash d) (harp_cbor_map b 4) in
    kuint 3 4000 (kuint 2 1000 (encode_param_array g_params (harp_cbor_uint b 1)))) d.

(** [printf("%.3f")] and [sscanf(s, "%f")] of the C library. *)
Class CFloatText := { fmt_3f : Z -> list Z; scan_f : list Z -> option Z }.
Context {CT : CFloatText}.

Definition labelled (p : dev_param) : bool := (p_steps p >? 1) && negb (bool_decide (p_labels p = [])).
Definition label_index (p : dev_param) (val : Z) : Z :=
  let si := f32_to_int (f32_mul (f64_to_f32 val) (f32_of_Z (p_steps p))) in
  let si := if si <? 0 then 0 else si in
  if p_steps p <=? si then p_steps p - 1 else si.
Definition format_value (p : dev_param) (val : Z) : list Z :=
  if labelled p then nth (Z.to_nat (label_index p val)) (p_labels p) [] else fmt_3f val.

(** The value in the middle of step [si]. *)
Definition mid_step (p : dev_param) (si : nat) : Z := f32_div (f32_add (f32_of_Z (Z.of_nat si)) F32_HALF) (f32_of_Z (p_steps p)).
Definition parse_value (p : dev_param) (s : list Z) : option Z :=
  if labelled p then
    si ← list_find (fun si => streq s (nth si (p_labels p) [])) (seq 0 (Z.to_nat (p_steps p)));
    Some (mid_step p si.2)
  else scan_f s.

(** The id and the value, or the id and the first 63 bytes of the text. *)
Definition format_visit (key : Z) : parser (Z * Z) unit :=
  if key =? 0 then get_uint (fun v t => (v, t.2))
  else if key =? 1 then get_float (fun v t => (t.1, v))
  else on_fst harp_cdec_skip.
Definition parse_visit (key : Z) : parser (Z * list Z) unit :=
  if key =? 0 then get_uint (fun v t => (v, t.2))
  else if key =? 1 then s ← on_fst harp_cdec_text; on_snd (sm_modify (fun t => (t.1, cstr (take 63 s))))
  else on_fst harp_cdec_skip.

Definition handle_evt_format : handler L := fun e d =>
  let '(id, val) := body_parse (map_fields format_visit) e (0, 0) in
  match param_index g_params (u32 id) with
  | None => fail_with e (str "not-found") (Some (str "unknown param")) d
  | Some idx => respond e (fun b => ktext 0 (take 63 (format_value (param_at g_params idx) val)) (harp_cbor_map b 1)) d
  end.

Definition handle_evt_parse : handler L := fun e d =>
  let '(id, s) := body_parse (map_fields parse_visit) e (0, []) in
  match param_index g_params (u32 id) with
  | None => fail_with e (str "not-found") (Some (str "unknown param")) d
  | Some idx =>
      match parse_value (param_at g_params idx) s with
      | None => fail_with e (str "malformed") (Some (str "cannot parse value")) d
      | Some v => respond e (fun b => harp_cbor_float (harp_cbor_uint (harp_cbor_map b 1) 0) (f32_to_f64 v)) d
      end
  end.

(** [{0: id, 1: value}], in this order. *)
Definition knob_body : parser (option (Z * Z)) unit :=
  first_key 2 (fun _ =>
    id ← on_fst harp_cdec_uint; k ← on_fst harp_cdec_uint; sm_guard (k =? 1);;
    v ← on_fst harp_cdec_float; on_snd (sm_modify (fun _ => Some (id, v)))).
Definition handle_knob : handler L := fun e d =>
  match body_parse knob_body e None with
  | None => fail_with e (str "malformed") None d
  | Some (id, v) =>
      let '(ok, d) := front_panel_set conf (u32 id) v d in
      if negb ok then fail_with e (str "not-found") (Some (str "no such param")) d else respond_empty e d
  end.
End events.
