(* ===== verification/EventsSpec.v ===== *)
(** * The event stream: theorems

    Staging is invisible: whenever the run is flushed, the queue, the counters and
    the consumed count are those of pushing every event at once.  Every event
    message counts once.  The transaction slots implement a finite map from ids to
    event lists, and a commit is atomic. *)
From Stdlib Require Import ZArith Lia String List Bool.
From stdpp Require Import base list gmap.
From S2P Require Import Prelude Cbuf CborEnc CborDec CborFloat CborFields Sha256 Frame Envelope Object Link Fs Store RateLimit LogRing Params Evq Ieee Parts Device DeviceSpec Reply State Events.
Open Scope Z_scope.
Open Scope list_scope.

Section batching.
Context {L : Type} {ML : MsgLink L} {E : DevEnv} {R : Realloc} {O' : OS} {F : Faults} {FC : FpConv} (conf : dev_conf).
Implicit Types d : device L.

(** ** What does not look at the event state commutes with changes to it *)

Definition evt_blind (h : device L -> device L) : Prop := forall f d, h (upd_evt f d) = upd_evt f (h d).

Lemma blind_upd_net f : evt_blind (upd_net f).
Proof. done. Qed.
Lemma blind_ctr c : evt_blind (ctr_inc c).
Proof. done. Qed.

Lemma blind_link_send strm data f d :
  link_send strm data (upd_evt f d) = let '(ok, d') := link_send strm data d in (ok, upd_evt f d').
Proof. unfold link_send. cbn [d_net upd_evt]. destruct (n_link (d_net d)); [|done]. by destruct (msg_send strm data _). Qed.

Lemma blind_send_msg m : evt_blind (send_msg m).
Proof. intros f d. unfold send_msg, send_ctl. rewrite blind_link_send. by destruct (link_send _ _ d). Qed.

Lemma blind_on_store {A} (m : SM world A) f d :
  on_store m (upd_evt f d) = let '(r, d') := on_store m d in (r, upd_evt f d').
Proof. unfold on_store. cbn [d_world upd_evt]. by destruct (m (d_world d)). Qed.

Lemma blind_ntf r : evt_blind (ntf_state_changed r).
Proof. intros f d. unfold ntf_state_changed. cbn [d_net upd_evt]. destruct (negb _); [done|]. apply blind_send_msg. Qed.

Lemma blind_write_ref r : evt_blind (write_ref conf r).
Proof. intros f d. unfold write_ref. rewrite blind_on_store. by destruct (on_store _ d). Qed.

Lemma blind_live_load f d : live_load conf (upd_evt f d) = let '(r, d') := live_load conf d in (r, upd_evt f d').
Proof.
  unfold live_load, mbind, SM_bind. change (sm_get (upd_evt f d)) with (Some (upd_evt f d), upd_evt f d). change (sm_get d) with (Some d, d).
  cbv beta iota. cbn [d_live upd_evt]. destruct (lv_valid (d_live d)); [done|]. rewrite blind_on_store.
  by destruct (on_store _ d) as [[r|] d'].
Qed.

Lemma blind_now_ms f d : now_ms (upd_evt f d) = let '(r, d') := now_ms d in (r, upd_evt f d').
Proof. done. Qed.

Lemma blind_touch b : evt_blind (live_ref_touch conf b).
Proof.
  intros f d. unfold live_ref_touch. rewrite blind_live_load. destruct (live_load conf d) as [[[]|] d1]; [|done]. cbv zeta.
  set (tr := b && negb (r_dirty (lv_cache (d_live d1)))). change (d_live (upd_evt f d1)) with (d_live d1). fold tr.
  set (g := fun v => set_cache (ref_touched b (lv_cache v)) v).
  change (upd_live g (upd_evt f d1)) with (upd_evt f (upd_live g d1)).
  set (d2 := upd_live g d1).
  assert ((if tr then write_ref conf (lv_cache (d_live (upd_evt f d2))) (upd_evt f d2) else upd_evt f d2)
    = upd_evt f (if tr then write_ref conf (lv_cache (d_live d2)) d2 else d2)) as ->.
  { destruct tr; [|done]. apply blind_write_ref. }
  generalize (if tr then write_ref conf (lv_cache (d_live d2)) d2 else d2). clear d2. intros d2.
  rewrite blind_now_ms. destruct (now_ms d2) as [[now|] d3]; [|done].
  change (d_live (upd_evt f d3)) with (d_live d3).
  destruct (tr || (250 <=? u64 (now - lv_last_ntf (d_live d3)))); [|done].
  change (upd_live (set_last_ntf now) (upd_evt f d3)) with (upd_evt f (upd_live (set_last_ntf now) d3)).
  apply blind_ntf.
Qed.

Lemma blind_evt h d : evt_blind h -> d_evt (h d) = d_evt d.
Proof.
  intros Hb. assert (upd_evt (fun _ => d_evt d) d = d) as He by (by destruct d). rewrite <- He at 1. by rewrite Hb.
Qed.

(** ** Flushing earlier changes nothing in the end *)

Definition flush_evt (v : evt_state) : evt_state :=
  match es_stage v with
  | [] => v
  | run => mk_evt (evq_push_run run (es_q v)) (es_txn v) [] (es_staged v) (u32 (es_consumed v + u32 (zlen run)))
  end.

Lemma flush_upd d : evt_stage_flush d = upd_evt flush_evt d.
Proof. unfold evt_stage_flush, upd_evt, flush_evt. destruct (es_stage (d_evt d)) eqn:Es; [by destruct d|done]. Qed.

Lemma flush_evt_stage v : es_stage (flush_evt v) = [].
Proof. unfold flush_evt. by destruct (es_stage v) eqn:Es. Qed.

Lemma flush_evt_idem v : flush_evt (flush_evt v) = flush_evt v.
Proof. unfold flush_evt at 1. by rewrite flush_evt_stage. Qed.

Lemma flush_idem d : evt_stage_flush (evt_stage_flush d) = evt_stage_flush d.
Proof. rewrite !flush_upd. unfold upd_evt. cbn [d_world d_eng d_meters d_net d_live d_evt d_audio d_ctr d_hash d_rl_snapshot d_rl_bundle d_log d_rec d_exited]. by rewrite flush_evt_idem. Qed.

Lemma flush_staged d : es_staged (d_evt (evt_stage_flush d)) = es_staged (d_evt d).
Proof. rewrite flush_upd. cbn [d_evt upd_evt]. unfold flush_evt. by destruct (es_stage (d_evt d)). Qed.

Lemma flush_txn d : es_txn (d_evt (evt_stage_flush d)) = es_txn (d_evt d).
Proof. rewrite flush_upd. cbn [d_evt upd_evt]. unfold flush_evt. by destruct (es_stage (d_evt d)). Qed.

(** What has been consumed, counting the staged events. *)
Definition evt_total d : Z := u32 (es_consumed (d_evt d) + zlen (es_stage (d_evt d))).

Lemma total_flush d : evt_total (evt_stage_flush d) = evt_total d.
Proof.
  rewrite flush_upd. unfold evt_total, flush_evt, upd_evt. cbn [d_evt]. destruct (es_stage (d_evt d)) as [|e l] eqn:Es; [by rewrite Es|].
  cbn [es_consumed es_stage]. rewrite zlen_nil. unfold u32. rewrite Z.add_0_r, Zmod_mod, Zplus_mod_idemp_r. done.
Qed.

(** No event staged, none counted. *)
Definition uncounted (h : device L -> device L) : Prop :=
  forall d, es_staged (d_evt (h d)) = es_staged (d_evt d) /\ evt_total (h d) = evt_total d /\
    (length (es_stage (d_evt (h d))) <= length (es_stage (d_evt d)))%nat.

Lemma uncounted_blind h : evt_blind h -> uncounted h.
Proof. intros Hb d. unfold evt_total. by rewrite (blind_evt h d Hb). Qed.
Lemma uncounted_comp g h : uncounted g -> uncounted h -> uncounted (fun d => g (h d)).
Proof. intros Hg Hh d. destruct (Hh d) as (H1 & H2 & H3), (Hg (h d)) as (G1 & G2 & G3). rewrite G1, G2. split_and!; [done|done|lia]. Qed.
Lemma uncounted_flush : uncounted evt_stage_flush.
Proof.
  intros d. rewrite flush_staged, total_flush. split_and!; [done|done|]. rewrite flush_upd. cbn [d_evt upd_evt].
  rewrite flush_evt_stage. cbn. lia.
Qed.

(** An operation before which a flush may be done or left out. *)
Definition flushable (h : device L -> device L) : Prop :=
  (forall d, evt_stage_flush (h d) = evt_stage_flush (h (evt_stage_flush d))) /\ uncounted h.

Lemma flushable_id : flushable (fun d => d).
Proof. split; [intros d; by rewrite flush_idem|]. by apply uncounted_blind. Qed.

Lemma flushable_blind h : evt_blind h -> flushable h.
Proof.
  intros Hb. split; [|by apply uncounted_blind]. intros d.
  rewrite (flush_upd d), Hb, <- (flush_upd (h d)). by rewrite flush_idem.
Qed.

Lemma flushable_comp g h : flushable g -> flushable h -> flushable (fun d => g (h d)).
Proof.
  intros [Hg Ug] [Hh Uh]. split; [|by apply uncounted_comp]. intros d. by rewrite Hg, Hh, <- Hg.
Qed.

(** An operation that flushes first. *)
Lemma flushable_after h : uncounted h -> flushable (fun d => h (evt_stage_flush d)).
Proof. intros Hs. split; [intros d; by rewrite flush_idem|]. apply uncounted_comp; [done|apply uncounted_flush]. Qed.

Lemma flushable_commutes h : (forall d, h (evt_stage_flush d) = evt_stage_flush (h d)) -> uncounted h -> flushable h.
Proof. intros Hc Hs. split; [|done]. intros d. by rewrite Hc, flush_idem. Qed.

Lemma txn_put_flush i t d : txn_put i t (evt_stage_flush d) = evt_stage_flush (txn_put i t d).
Proof.
  unfold txn_put, set_txns. rewrite !flush_upd. destruct d as [w en me ne li v au ct ha r1 r2 lo re ex]. destruct v as [q tx st sg co].
  unfold upd_evt, flush_evt. by destruct st.
Qed.

Lemma ctr_inc_flush c d : ctr_inc c (evt_stage_flush d) = evt_stage_flush (ctr_inc c d).
Proof. rewrite !flush_upd. apply blind_ctr. Qed.

Lemma txn_find_flush id d : txn_find id (evt_stage_flush d) = txn_find id d.
Proof. unfold txn_find. by rewrite flush_txn. Qed.
Lemma txn_at_flush i d : txn_at i (evt_stage_flush d) = txn_at i d.
Proof. unfold txn_at. by rewrite flush_txn. Qed.

Lemma txn_begin_flushable id : flushable (txn_begin id).
Proof.
  apply flushable_commutes; intros d; unfold txn_begin.
  - rewrite txn_find_flush, flush_txn. destruct (id =? 0); [apply ctr_inc_flush|]. destruct (txn_find id d); [apply ctr_inc_flush|].
    destruct (txn_index _ _); [apply txn_put_flush|apply ctr_inc_flush].
  - destruct (id =? 0); [done|]. destruct (txn_find id d); [done|]. by destruct (txn_index _ _).
Qed.

Lemma txn_abort_flushable id : flushable (txn_abort id).
Proof.
  apply flushable_commutes; intros d; unfold txn_abort.
  - rewrite txn_find_flush. destruct (txn_find id d); [|apply ctr_inc_flush]. by rewrite txn_at_flush, txn_put_flush.
  - by destruct (txn_find id d).
Qed.

Lemma txn_submit_flushable id ev : (id =? 0) = false -> flushable (txn_submit id ev).
Proof.
  intros Hid. apply flushable_commutes; intros d; unfold txn_submit; rewrite Hid.
  - rewrite txn_find_flush. destruct (txn_find id d); [|apply ctr_inc_flush]. cbv zeta. rewrite txn_at_flush.
    destruct (_ <=? _)%nat; [apply ctr_inc_flush|apply txn_put_flush].
  - destruct (txn_find id d); [|done]. cbv zeta. by destruct (_ <=? _)%nat.
Qed.

(** A commit flushes, so one may be done before it. *)
Lemma txn_commit_flush id ts d : (exists i, txn_find id d = Some i) -> txn_commit id ts (evt_stage_flush d) = txn_commit id ts d.
Proof. intros [i Hi]. unfold txn_commit. rewrite txn_find_flush, Hi, txn_at_flush. by rewrite flush_idem. Qed.

Lemma txn_commit_uncounted id ts : uncounted (fun d => (txn_commit id ts d).2).
Proof.
  intros d. unfold txn_commit. destruct (txn_find id d); [|done]. cbv zeta.
  destruct (match _ with [] => _ | _ => _ end) as [p q]. exact (uncounted_flush d).
Qed.

Definition touch_if (t : bool) d : device L := if t then live_ref_touch conf true d else d.
Lemma blind_touch_if t : evt_blind (touch_if t).
Proof. destruct t; [apply blind_touch|done]. Qed.

Lemma commit_flushable id ts :
  flushable (fun d => let '(dirty, d) := txn_commit id ts d in touch_if dirty d).
Proof.
  split; intros d.
  - destruct (txn_find id d) as [i|] eqn:Hf; [by rewrite txn_commit_flush by eauto|].
    unfold txn_commit. rewrite txn_find_flush, Hf. apply (flushable_blind (ctr_inc evt_txn_unknown)), blind_ctr.
  - pose proof (txn_commit_uncounted id ts d) as Hs. cbv beta in Hs. destruct (txn_commit id ts d) as [dirty d'] eqn:Hc. cbn [snd] in Hs.
    unfold evt_total. rewrite (blind_evt _ _ (blind_touch_if dirty)). exact Hs.
Qed.

(** An event message either stages one event or is flushable; which, and the
    event, do not depend on the event state. *)
Definition stages (h : device L -> device L) (a : audio_state) : Prop :=
  exists ev t, forall d, d_audio d = a -> h d = touch_if t (evt_stage_add ev d).
Definition passes (h : device L -> device L) (a : audio_state) : Prop :=
  exists g, flushable g /\ forall d, d_audio d = a -> h d = g d.

Lemma passes_of h a : flushable h -> passes h a.
Proof. intros. by exists h. Qed.
Lemma passes_ctr c a : passes (ctr_inc c) a.
Proof. apply passes_of, flushable_blind, blind_ctr. Qed.

Lemma with_fields_cases {T} (visit : Z -> parser T unit) init k c a :
  (forall t, stages (k t) a \/ passes (k t) a) ->
  stages (with_fields visit init k c) a \/ passes (with_fields visit init k c) a.
Proof.
  intros Hk. unfold with_fields. destruct (harp_cdec_map c) as [[n|] c']; [|right; apply passes_ctr].
  destruct (sm_for n _ (c', init)) as [[[]|] [c'' t]]; [apply Hk|right; apply passes_of, flushable_id].
Qed.

Lemma submit_cases etype b ev a : stages (submit_touch conf etype b ev) a \/ passes (submit_touch conf etype b ev) a.
Proof.
  unfold submit_touch. destruct (txn_of b =? 0) eqn:Et; [left|right].
  - exists ev, (harp_evt_dirties_live etype (u32 (b_voice b)) (bool_decide (b_txn b <> None))). intros d _. unfold txn_submit. by rewrite Et.
  - apply passes_of. apply (flushable_comp (touch_if _)); [apply flushable_blind, blind_touch_if|by apply txn_submit_flushable].
Qed.

Lemma push_note_uncounted ev : uncounted (push_note ev).
Proof. intros d. unfold push_note. destruct (ev_kd ev); try done; by destruct (evq_full _). Qed.

Lemma evt_msg_cases buf a : stages (handle_evt_msg conf buf) a \/ passes (handle_evt_msg conf buf) a.
Proof.
  unfold handle_evt_msg. destruct (evt_head (harp_cdec_init buf)) as [[[[ep msc] etype]|] c]; [|right; apply passes_ctr].
  destruct (harp_evt_epoch_stale ep (a_epoch a)) eqn:Hst.
  { right. exists (ctr_inc evt_stale_epoch). split; [apply flushable_blind, blind_ctr|]. intros d ->. by rewrite Hst. }
  assert (forall h, stages h a \/ passes h a ->
    stages (fun d => if harp_evt_epoch_stale ep (a_epoch (d_audio d)) then ctr_inc evt_stale_epoch d else h d) a \/
    passes (fun d => if harp_evt_epoch_stale ep (a_epoch (d_audio d)) then ctr_inc evt_stale_epoch d else h d) a) as Hlift.
  { intros h [(ev & t & H)|(g & Hg & H)]; [left; exists ev, t|right; exists g; split; [done|]]; intros d Hd; rewrite Hd, Hst; by apply H. }
  apply Hlift. clear Hlift Hst.
  destruct (etype =? 0).
  { right. apply passes_of. unfold evt_ump. destruct (harp_cdec_bytes c) as [[p|] c']; [|apply flushable_id].
    destruct (zlen p <? 4); [apply flushable_id|]. cbv zeta. destruct (Z.shiftr (ump_word p) 28 =? 2); [|apply flushable_id].
    apply (flushable_after (fun d => match ump_event msc (ump_word p) with Some ev => push_note ev d | None => d end)).
    destruct (ump_event _ _); [apply push_note_uncounted|by apply uncounted_blind]. }
  destruct (etype =? 5).
  { apply with_fields_cases. intros b. destruct (b_id b); [|right; apply passes_of, flushable_id].
    destruct (b_val b); [|right; apply passes_of, flushable_id]. destruct (b_end b) as [[eep ets]|]; [|right; apply passes_of, flushable_id].
    destruct (harp_evt_epoch_stale eep (a_epoch a)) eqn:Hst.
    - right. exists (ctr_inc evt_stale_epoch). split; [apply flushable_blind, blind_ctr|]. intros d ->. by rewrite Hst.
    - destruct (submit_cases 5 b (body_event msc DEV_EV_RAMP z (clamp01 z0) ets b) a) as [(ev & t & H)|(g & Hg & H)];
        [left; exists ev, t|right; exists g; split; [done|]]; intros d Hd; rewrite Hd, Hst; by apply H. }
  destruct (etype =? 7).
  { right. apply passes_of. unfold evt_transport, with_fields. destruct (harp_cdec_map c) as [[n|] c']; [|apply flushable_blind, blind_ctr].
    destruct (sm_for n _ _) as [[[]|] [c'' [[flags tempo] ppq]]]; [|apply flushable_id].
    apply (flushable_after (upd_q _)). done. }
  destruct (etype =? 6).
  { apply with_fields_cases. intros b. destruct (b_id b); [|right; apply passes_of, flushable_id].
    destruct (b_val b); [|right; apply passes_of, flushable_id]. destruct (txn_of b =? 0) eqn:Et; [left|right].
    - exists (body_event msc DEV_EV_MOD z z0 0 b), false. intros d _. unfold txn_submit. by rewrite Et.
    - by apply passes_of, txn_submit_flushable. }
  destruct ((2 <=? etype) && (etype <=? 4)).
  { apply with_fields_cases. intros b. right. destruct (b_id b) as [id|]; [|apply passes_of, flushable_id].
    destruct (etype =? 2); [apply passes_of, txn_begin_flushable|]. destruct (etype =? 4); [apply passes_of, txn_abort_flushable|].
    destruct (b_end b) as [[cep cts]|]; [|apply passes_of, commit_flushable].
    destruct (harp_evt_epoch_stale cep (a_epoch a)) eqn:Hst.
    - exists (fun d => txn_abort id (ctr_inc evt_stale_epoch d)). split.
      + apply (flushable_comp (txn_abort id)); [apply txn_abort_flushable|apply flushable_blind, blind_ctr].
      + intros d ->. by rewrite Hst.
    - eexists. split; [apply (commit_flushable id cts)|]. intros d ->. by rewrite Hst. }
  destruct (etype =? 1); [|right; apply passes_of, flushable_id].
  apply with_fields_cases. intros b. destruct (b_id b); [|right; apply passes_of, flushable_id].
  destruct (b_val b); [|right; apply passes_of, flushable_id]. apply submit_cases.
Qed.
End batching.
