(* ===== verification/TxnSpec.v ===== *)
(** * Event transactions

    The four slots of [d->txn] as a finite map from transaction ids to event
    lists: each operation of session.c refines the map's, and a commit puts the
    whole batch into the queue or nothing. *)
From Stdlib Require Import ZArith Lia String List Bool.
From stdpp Require Import base list gmap fin_maps.
From S2P Require Import Prelude Cbuf Sha256 Frame Envelope Object Link Fs Store RateLimit LogRing Params Evq Ieee Parts Device DeviceSpec Reply State Events EventsSpec.
Open Scope Z_scope.
Open Scope list_scope.

(** ** The specification *)

Inductive txn_op : Type :=
  | TxnBegin (id : Z) | TxnSubmit (id : Z) (ev : dev_event) | TxnCommit (id ts : Z) | TxnAbort (id : Z).

(** Submitting under id 0 is staging, not a transaction. *)
Definition op_ok (op : txn_op) : bool := match op with TxnSubmit id _ => negb (id =? 0) | _ => true end.

Abbreviation txn_map := (gmap Z (list dev_event)).

(** The open transactions afterwards, and the counter of a refused operation. *)
Definition txn_spec (op : txn_op) (m : txn_map) : txn_map * option ctr :=
  match op with
  | TxnBegin id =>
      if (id =? 0) || bool_decide (is_Some (m !! id)) || bool_decide (size m = DEV_TXN_MAX)
      then (m, Some evt_txn_rejected) else (<[id := []]> m, None)
  | TxnSubmit id ev =>
      match m !! id with
      | None => (m, Some evt_txn_unknown)
      | Some evs => if (length evs <? DEV_TXN_EVENTS_MAX)%nat then (<[id := evs ++ [ev]]> m, None) else (m, Some evt_txn_overflow)
      end
  | TxnCommit id _ | TxnAbort id => match m !! id with None => (m, Some evt_txn_unknown) | Some _ => (delete id m, None) end
  end.

Definition batch_fits (evs : list dev_event) (q : evq) : bool :=
  (length evs =? 0)%nat || (length (q_ev q) + length evs <=? DEV_EVQ_CAP)%nat.

(** What the operation puts into the queue: all of a batch or nothing of it. *)
Definition queue_spec (op : txn_op) (m : txn_map) (q : evq) : evq :=
  match op with
  | TxnCommit id ts =>
      match m !! id with
      | None => q
      | Some evs =>
          if batch_fits evs q then mk_evq (q_ev q ++ map (restamp ts) evs) (q_drops q)
          else mk_evq (q_ev q) (u64 (q_drops q + zlen evs))
      end
  | _ => q
  end.

(** Whether the operation must mark the live ref dirty. *)
Definition dirty_spec (op : txn_op) (m : txn_map) (q : evq) : bool :=
  match op with
  | TxnCommit id _ => match m !! id with None => false | Some evs => existsb ev_dirty evs && batch_fits evs q end
  | _ => false
  end.

(** ** The slots as a map *)

Definition open_pair (t : dev_txn) : option (Z * list dev_event) := if tx_open t then Some (tx_id t, tx_ev t) else None.
Definition open_pairs (l : list dev_txn) : list (Z * list dev_event) := omap open_pair l.
Definition open_txns (l : list dev_txn) : txn_map := list_to_map (open_pairs l).

(** Ids are distinct and not 0, and no transaction is too long. *)
Definition txns_ok (l : list dev_txn) : Prop :=
  length l = DEV_TXN_MAX /\ NoDup (open_pairs l).*1 /\
  Forall (fun p => p.1 <> 0 /\ (length p.2 <= DEV_TXN_EVENTS_MAX)%nat) (open_pairs l).

Lemma txns_ok_init : txns_ok (repeat txn_zero DEV_TXN_MAX).
Proof. split_and!; [done|constructor|constructor]. Qed.

Lemma txn_index_Some p l i : txn_index p l = Some i -> exists t, l !! i = Some t /\ p t = true.
Proof.
  revert i. induction l as [|t l IH]; intros i; cbn [txn_index]; [done|]. destruct (p t) eqn:Hp; [intros [= <-]; by exists t|].
  destruct (txn_index p l) as [j|]; [|done]. intros [= <-]. by apply IH.
Qed.

Lemma txn_index_None p l : txn_index p l = None -> Forall (fun t => p t = false) l.
Proof.
  induction l as [|t l IH]; cbn [txn_index]; [constructor|]. destruct (p t) eqn:Hp; [done|].
  destruct (txn_index p l); [done|]. intros _. constructor; [done|by apply IH].
Qed.

(** The slots without slot [i]. *)
Definition others (i : nat) (l : list dev_txn) : list (Z * list dev_event) := open_pairs (take i l ++ drop (S i) l).

Lemma pairs_split i t l : l !! i = Some t -> open_pairs l ≡ₚ option_list (open_pair t) ++ others i l.
Proof.
  intros Hi. rewrite <- (take_drop_middle _ _ _ Hi) at 1. unfold others, open_pairs. rewrite !omap_app. cbn [omap list_omap].
  destruct (open_pair t) as [p|]; [|done]. change (option_list (Some p)) with [p]. cbn [app]. apply Permutation_sym, Permutation_middle.
Qed.

Lemma others_insert i t l : others i (<[i := t]> l) = others i l.
Proof.
  unfold others. rewrite take_insert_ge by lia. by rewrite drop_insert_lt by lia.
Qed.

Lemma map_split i t l : NoDup (open_pairs l).*1 -> l !! i = Some t ->
  open_txns l = list_to_map (option_list (open_pair t) ++ others i l) /\ NoDup (option_list (open_pair t) ++ others i l).*1.
Proof.
  intros Hnd Hi. pose proof (pairs_split i t l Hi) as Hp. split; [by apply list_to_map_proper|].
  by rewrite <- Hp.
Qed.

(** Replacing slot [i]. *)
Lemma slot_ok l i t t' : txns_ok l -> l !! i = Some t ->
  NoDup (option_list (open_pair t') ++ others i l).*1 ->
  Forall (fun p => p.1 <> 0 /\ (length p.2 <= DEV_TXN_EVENTS_MAX)%nat) (option_list (open_pair t')) ->
  txns_ok (<[i := t']> l) /\ open_txns (<[i := t']> l) = list_to_map (option_list (open_pair t') ++ others i l).
Proof.
  intros (H1 & H2 & H3) Hi Hnd Hf.
  assert (<[i := t']> l !! i = Some t') as Hi'. { apply list_lookup_insert_eq. apply lookup_lt_is_Some. by eexists. }
  pose proof (pairs_split i t' _ Hi') as Hp. rewrite others_insert in Hp.
  assert (NoDup (open_pairs (<[i := t']> l)).*1) as Hnd' by (by rewrite Hp).
  split; [|by apply list_to_map_proper]. split_and!; [by rewrite length_insert|done|].
  rewrite Hp. apply Forall_app. split; [done|]. rewrite (pairs_split i t l Hi) in H3. by apply Forall_app in H3 as [_ H3].
Qed.

Lemma slot_open l i id evs : txns_ok l -> l !! i = Some (mk_txn true id evs) ->
  open_txns l !! id = Some evs /\ id <> 0 /\ (length evs <= DEV_TXN_EVENTS_MAX)%nat /\
  (forall evs', (length evs' <= DEV_TXN_EVENTS_MAX)%nat ->
    txns_ok (<[i := mk_txn true id evs']> l) /\ open_txns (<[i := mk_txn true id evs']> l) = <[id := evs']> (open_txns l)) /\
  (forall evs', txns_ok (<[i := mk_txn false id evs']> l) /\ open_txns (<[i := mk_txn false id evs']> l) = delete id (open_txns l)).
Proof.
  intros Hok Hi. pose proof Hok as (H1 & H2 & H3). destruct (map_split i _ l H2 Hi) as [Hm Hnd]. cbn [open_pair tx_open tx_id tx_ev option_list app] in Hm, Hnd.
  assert (id <> 0 /\ (length evs <= DEV_TXN_EVENTS_MAX)%nat) as [Hz Hl].
  { rewrite (pairs_split i _ l Hi) in H3. cbn in H3. by inversion_clear H3. }
  cbn [fmap list_fmap fst] in Hnd. apply NoDup_cons in Hnd as Hnd'. destruct Hnd' as [Hnin Hnd2].
  split_and!; [rewrite Hm; apply lookup_insert_eq|done|done| |].
  - intros evs' Hl'. destruct (slot_ok l i _ (mk_txn true id evs') Hok Hi) as [Ha Hb]; [exact Hnd|constructor; [done|constructor]|].
    split; [done|]. rewrite Hb, Hm. cbn. by rewrite insert_insert_eq.
  - intros evs'. destruct (slot_ok l i _ (mk_txn false id evs') Hok Hi) as [Ha Hb]; [exact Hnd2|constructor|].
    split; [done|]. rewrite Hb, Hm. cbn. rewrite delete_insert_id; [done|]. by apply not_elem_of_list_to_map_1.
Qed.

Lemma slot_begin l i t id : txns_ok l -> l !! i = Some t -> tx_open t = false -> id <> 0 -> open_txns l !! id = None ->
  txns_ok (<[i := mk_txn true id []]> l) /\ open_txns (<[i := mk_txn true id []]> l) = <[id := []]> (open_txns l).
Proof.
  intros Hok Hi Ho Hz Hn. pose proof Hok as (H1 & H2 & H3). destruct (map_split i _ l H2 Hi) as [Hm Hnd].
  unfold open_pair in Hm, Hnd. rewrite Ho in Hm, Hnd.
  change (option_list None ++ others i l) with (others i l) in Hm, Hnd.
  destruct (slot_ok l i t (mk_txn true id []) Hok Hi) as [Ha Hb].
  - change (NoDup (id :: (others i l).*1)). apply NoDup_cons. split; [|done].
    apply not_elem_of_list_to_map_2. by rewrite <- Hm.
  - constructor; [split; [done|cbn; lia]|constructor].
  - split; [done|]. rewrite Hb, Hm. done.
Qed.
Lemma find_open l id : txn_index (fun t => tx_open t && (tx_id t =? id)) l = None -> open_txns l !! id = None.
Proof.
  intros H%txn_index_None. apply not_elem_of_list_to_map_1. intros ((id' & evs) & -> & Hin)%list_elem_of_fmap.
  unfold open_pairs in Hin. apply list_elem_of_omap in Hin as (t & Ht & Hp). rewrite List.Forall_forall in H. apply list_elem_of_In in Ht.
  specialize (H t Ht). cbn in H. unfold open_pair in Hp. destruct (tx_open t); [|done]. injection Hp as [= <- <-]. cbn in H. rewrite Z.eqb_refl in H. done.
Qed.

Lemma open_pairs_cons t l : open_pairs (t :: l) = option_list (open_pair t) ++ open_pairs l.
Proof. unfold open_pairs. cbn [omap list_omap]. by destruct (open_pair t). Qed.

Lemma open_pairs_le l : (length (open_pairs l) <= length l)%nat.
Proof.
  induction l as [|t l IH]; [done|]. rewrite open_pairs_cons, length_app. cbn [length]. unfold open_pair. destruct (tx_open t); cbn; lia.
Qed.

Lemma size_open l : txns_ok l -> (size (open_txns l) = DEV_TXN_MAX <-> txn_index (fun t => negb (tx_open t)) l = None).
Proof.
  intros (H1 & H2 & _). unfold open_txns. rewrite map_size_list_to_map by done. rewrite <- H1. clear H1 H2.
  induction l as [|t l IH]; [done|]. rewrite open_pairs_cons, length_app. cbn [txn_index length]. unfold open_pair at 1.
  pose proof (open_pairs_le l). destruct (tx_open t); cbn [negb option_list length].
  - split.
    + intros H'. rewrite (proj1 IH) by (cbn in H'; lia). done.
    + destruct (txn_index _ l); [done|]. intros _. by rewrite (proj2 IH).
  - split; [|done]. intros H'. cbn in H'. lia.
Qed.

(** ** Refinement *)

Section refine.
Context {L : Type} {ML : MsgLink L} {E : DevEnv} {R : Realloc} {O' : OS} {F : Faults} {FC : FpConv}.
Implicit Types d : device L.

Definition txn_exec (op : txn_op) d : bool * device L :=
  match op with
  | TxnBegin id => (false, txn_begin id d)
  | TxnSubmit id ev => (false, txn_submit id ev d)
  | TxnCommit id ts => txn_commit id ts d
  | TxnAbort id => (false, txn_abort id d)
  end.

Definition d_txns d : list dev_txn := es_txn (d_evt d).

Definition bumped (c : option ctr) (f : ctr -> Z) (x : ctr) : Z :=
  match c with Some y => if decide (x = y) then u64 (f x + 1) else f x | None => f x end.

Lemma find_slot id d : txns_ok (d_txns d) ->
  match txn_find id d with
  | Some i => exists evs, d_txns d !! i = Some (mk_txn true id evs) /\ txn_at i d = mk_txn true id evs /\ open_txns (d_txns d) !! id = Some evs
  | None => open_txns (d_txns d) !! id = None
  end.
Proof.
  intros Hok. unfold txn_find. fold (d_txns d). destruct (txn_index _ _) as [i|] eqn:Hi; [|by apply find_open].
  apply txn_index_Some in Hi as ([o id' evs] & Hi & Hp). cbn in Hp. bool_to_prop. subst o id'. exists evs. split; [done|].
  split; [unfold txn_at; fold (d_txns d); by rewrite (nth_lookup_Some _ _ _ _ Hi)|].
  by destruct (slot_open _ _ _ _ Hok Hi) as (H & _).
Qed.

Lemma drop_batch (evs : list dev_event) q : evs <> [] ->
  fold_left (fun q _ => mk_evq (q_ev q) (u64 (q_drops q + 1))) evs q = mk_evq (q_ev q) (u64 (q_drops q + zlen evs)).
Proof.
  revert q. induction evs as [|ev evs IH]; intros q; [done|]. intros _. cbn [fold_left]. destruct evs as [|ev' evs]; [done|].
  rewrite IH by done. cbn [q_ev q_drops]. f_equal. rewrite (zlen_cons ev). unfold u64. rewrite Zplus_mod_idemp_l. f_equal. lia.
Qed.

Lemma commit_queue ts evs q :
  (match map (restamp ts) evs with [] => (true, q) | _ => evq_push_batch (map (restamp ts) evs) q end) =
  (batch_fits evs q, if batch_fits evs q then mk_evq (q_ev q ++ map (restamp ts) evs) (q_drops q) else mk_evq (q_ev q) (u64 (q_drops q + zlen evs))).
Proof.
  destruct evs as [|ev evs]; [cbn; rewrite app_nil_r; by destruct q|].
  unfold batch_fits. set (l := ev :: evs). assert (l <> []) as Hl by done. change (length l =? 0)%nat with false. cbn [orb].
  assert (zlen (map (restamp ts) l) = zlen l) as Hz by (unfold zlen; by rewrite length_map).
  assert (map (restamp ts) l <> []) as Hm by done.
  change (match map (restamp ts) l with [] => (true, q) | _ => evq_push_batch (map (restamp ts) l) q end) with (evq_push_batch (map (restamp ts) l) q).
  clearbody l. unfold evq_push_batch. rewrite length_map. destruct (_ <=? _)%nat; [by rewrite push_all|]. by rewrite drop_batch, Hz.
Qed.

Lemma existsb_restamp ts evs : existsb ev_dirty (map (restamp ts) evs) = existsb ev_dirty evs.
Proof. induction evs as [|ev evs IH]; [done|]. cbn [map existsb]. by rewrite IH. Qed.

(** C29: event transactions.  While the four slots are well formed, each operation
    does to the open transactions what the map's operation does: a begin opens an
    empty transaction unless the id is 0, open, or all slots are taken; a submit
    appends unless the id is unknown or the transaction is full; a commit or an
    abort closes it; a refused operation changes nothing and counts once.  Events
    reach the queue only by a commit, after the staged run: all of the batch, in
    order and with the commit's instant, or none of it, counted as dropped; and the
    live ref is to be marked dirty exactly when a landed batch holds a whole-part
    set or ramp. *)
Theorem txn_refines (op : txn_op) d :
  txns_ok (d_txns d) -> op_ok op = true ->
  let m := open_txns (d_txns d) in
  let flushed := evt_stage_flush d in
  let q0 := match op with TxnCommit id _ => if bool_decide (is_Some (m !! id)) then es_q (d_evt flushed) else es_q (d_evt d) | _ => es_q (d_evt d) end in
  let '(m', c) := txn_spec op m in
  let '(dirty, d') := txn_exec op d in
  txns_ok (d_txns d') /\ open_txns (d_txns d') = m' /\ (forall x, d_ctr d' x = bumped c (d_ctr d) x) /\
  es_q (d_evt d') = queue_spec op m q0 /\ dirty = dirty_spec op m q0 /\ d_eng d' = d_eng d /\ d_world d' = d_world d.
Proof.
  intros Hok Hop m flushed q0.
  assert (forall id, 
    match txn_find id d with
    | Some i => exists evs, d_txns d !! i = Some (mk_txn true id evs) /\ txn_at i d = mk_txn true id evs /\ m !! id = Some evs
    | None => m !! id = None
    end) as Hfind by (intros id; by apply find_slot).
  destruct op as [id|id ev|id ts|id]; cbn [txn_spec txn_exec queue_spec dirty_spec].
  - unfold txn_begin. destruct (id =? 0) eqn:Hz; [done|]. specialize (Hfind id). destruct (txn_find id d) as [i|].
    { destruct Hfind as (evs & _ & _ & ->). rewrite bool_decide_true by by eexists. done. }
    rewrite Hfind, bool_decide_false by (intros [? ?]; done). cbn [orb]. bool_to_prop.
    destruct (txn_index _ _) as [i|] eqn:Hi.
    + rewrite bool_decide_false.
      2:{ intros Hs%size_open; [|done]. unfold d_txns in Hs. by rewrite Hs in Hi. }
      apply txn_index_Some in Hi as (t & Hi & Ht). bool_to_prop. destruct (slot_begin _ _ _ id Hok Hi Ht Hz Hfind) as [Ha Hb].
      by split_and!.
    + rewrite bool_decide_true by by apply size_open. done.
  - cbn in Hop. bool_to_prop. unfold txn_submit. destruct (Z.eqb_spec id 0) as [|_]; [done|]. specialize (Hfind id). destruct (txn_find id d) as [i|].
    2:{ by rewrite Hfind. }
    destruct Hfind as (evs & Hi & Hat & ->). cbv zeta. rewrite Hat. cbn [tx_ev tx_id].
    rewrite Nat.leb_antisym. destruct (length evs <? DEV_TXN_EVENTS_MAX)%nat eqn:Hlt; cbn [negb]; [|done].
    destruct (slot_open _ _ _ _ Hok Hi) as (_ & _ & _ & Hs & _). apply Nat.ltb_lt in Hlt.
    destruct (Hs (evs ++ [ev])) as [Ha Hb]; [rewrite length_app; cbn; lia|]. by split_and!.
  - unfold txn_commit. unfold q0. clear q0. specialize (Hfind id). destruct (txn_find id d) as [i|].
    2:{ by rewrite Hfind. }
    destruct Hfind as (evs & Hi & Hat & Hm). rewrite Hm, Hat, bool_decide_true by by eexists. cbn [tx_ev]. cbv zeta.
    fold flushed. rewrite commit_queue, existsb_restamp.
    destruct (slot_open _ _ _ _ Hok Hi) as (_ & _ & _ & _ & Hs). destruct (Hs (map (restamp ts) evs)) as [Ha Hb].
    assert (d_txns flushed = d_txns d) as Hft by apply flush_txn.
    assert (d_eng flushed = d_eng d /\ d_world flushed = d_world d /\ d_ctr flushed = d_ctr d) as (He & Hw & Hc).
    { unfold flushed. by rewrite flush_upd. }
    unfold d_txns in Hft, Ha, Hb |- *. cbn [txn_put set_txns upd_q upd_evt d_evt es_txn d_ctr es_q d_eng d_world].
    rewrite Hft, He, Hw, Hc. by split_and!.
  - unfold txn_abort. specialize (Hfind id). destruct (txn_find id d) as [i|].
    2:{ by rewrite Hfind. }
    destruct Hfind as (evs & Hi & Hat & Hm). rewrite Hm, Hat. cbv zeta. cbn [tx_id tx_ev].
    destruct (slot_open _ _ _ _ Hok Hi) as (_ & _ & _ & _ & Hs). destruct (Hs evs) as [Ha Hb]. by split_and!.
Qed.
End refine.

(** Two events under one id, then the commit. *)
Lemma txn_refines_witness :
  let ev a := mk_event 5 DEV_EV_PARAM_SET a 0 0 0 0 0 in
  let t := [mk_txn true 7 [ev 1; ev 2]; txn_zero; txn_zero; txn_zero] in
  let d := set_txns t (demo_dev fs_empty sendq_empty 0) in
  let '(dirty, d') := txn_commit (L := unit) 7 9 d in
  open_txns (d_txns d') = ∅ /\ dirty = true /\ q_ev (es_q (d_evt d')) = [restamp 9 (ev 1); restamp 9 (ev 2)].
Proof.
  intros ev t d.
  assert (txns_ok (d_txns d)) as Hok.
  { split_and!; [reflexivity|repeat constructor; set_solver|repeat constructor; cbn; lia]. }
  pose proof (txn_refines (TxnCommit 7 9) d Hok eq_refl) as H.
  assert (open_txns (d_txns d) = {[ 7 := [ev 1; ev 2] ]}) as Em by (vm_compute; reflexivity).
  cbv zeta in H. rewrite Em in H. cbn [txn_spec txn_exec queue_spec dirty_spec] in H. rewrite lookup_singleton_eq in H.
  rewrite bool_decide_true in H by by eexists. destruct (txn_commit 7 9 d) as [dirty d'].
  destruct H as (_ & Ho & _ & Hq & Hd & _). rewrite Ho, Hq, Hd. split; [apply delete_singleton_eq|]. split; reflexivity.
Defined.
