(* ===== verification/Diag.v ===== *)
(** * Diagnostics and vendor methods

    session.c's counters and diagnostic bundle, the vendor reads, and the relay of
    a recall conflict to the front panel (with panel.c's mailbox). *)
From Stdlib Require Import ZArith Lia String List Bool.
From stdpp Require Import base list.
From S2P Require Import Prelude Cbuf CborEnc CborDec CborFloat CborFields Sha256 Frame Envelope Object Link Fs Store RateLimit LogRing Params Evq Ieee Parts Device Reply Hello.
Open Scope Z_scope.
Open Scope list_scope.

Section diag.
Context {L : Type} {ML : MsgLink L} {E : DevEnv} {R : Realloc} (conf : dev_conf).
Implicit Types d : device L.

(** ** Counters *)

(** The pairs of the map, in order; the drift is the one signed value. *)
Definition counters (vs : option (Z * Z * Z)) d : list (list Z * Z) :=
  let '(total, freeb) := match vs with Some (blocks, bavail, frsize) => (u64 (blocks * frsize), u64 (bavail * frsize)) | None => (0, 0) end in
  [(str "x.harp-refdev.fence_waits", d_ctr d fence_waits);
   (str "x.harp-refdev.fence_timeouts", d_ctr d fence_timeouts);
   (str "x.harp-refdev.rate_limited", d_ctr d rate_limited);
   (str "usb_errors", d_ctr d usb_errors);
   (str "frame_errors", d_ctr d frame_errors);
   (str "audio_underruns", 0);
   (str "audio_overruns", d_ctr d audio_overruns);
   (str "audio_late_frames", d_ctr d audio_late_frames);
   (str "msc_discontinuities", 0);
   (str "clock_drift_ppb", 0);
   (str "evt_late", e_evt_late (d_eng d));
   (str "evt_stale_epoch", d_ctr d evt_stale_epoch);
   (str "x.harp-refdev.evq_drops", q_drops (es_q (d_evt d)));
   (str "x.harp-refdev.ramp_late", e_ramp_late (d_eng d));
   (str "session_resets", d_ctr d session_resets);
   (str "storage_bytes_total", total);
   (str "storage_bytes_free", freeb)].

Definition enc_counter (b : cbuf) (kv : list Z * Z) : cbuf :=
  let b := harp_cbor_text b kv.1 in
  if bool_decide (kv.1 = str "clock_drift_ppb") then harp_cbor_int b kv.2 else harp_cbor_uint b kv.2.

Definition emit_counters (vs : option (Z * Z * Z)) d (m : cbuf) : cbuf :=
  fold_left enc_counter (counters vs d) (harp_cbor_map m 17).

Definition handle_diag_counters : handler L := fun e d =>
  let '(vs, d) := ask env_statvfs d in respond e (emit_counters vs d) d.

Definition handle_diag_bundle : handler L := fun e d =>
  let '(shed, d) := expensive_op_shed e d_rl_bundle set_rl_bundle d in
  if shed : bool then d
  else
    let '(vs, d) := ask env_statvfs d in
    respond e (fun b =>
      let b := encode_identity conf (d_hash d) (harp_cbor_uint (harp_cbor_map b 3) 0) in
      let b := emit_counters vs d (harp_cbor_uint b 1) in
      harp_devlog_emit_cbor (Z.to_nat HARP_LOGRING_CAP) (harp_cbor_uint b 2) (Z.to_nat HARP_LOGRING_BUNDLE_MAX) (d_log d)) d.

(** ** Vendor reads *)

Definition handle_dev_params : handler L := fun e d =>
  respond e (fun b =>
    let b := harp_cbor_array (harp_cbor_uint (harp_cbor_map b 1) 0) (Z.of_nat (NPARAMS g_params)) in
    fold_left (fun b p =>
      let b := harp_cbor_text (harp_cbor_uint (harp_cbor_array b 3) (p_id p)) (p_name p) in
      harp_cbor_float b (f32_to_f64 (engine_part_param_get g_params (pvals (e_parts (d_eng d))) 0 (p_id p)))) g_params b) d.

Definition handle_dev_meters : handler L := fun e d =>
  respond e (fun b =>
    let b := harp_cbor_array (harp_cbor_uint (harp_cbor_map b 1) 0) (Z.of_nat METER_NSLOTS) in
    fold_left (fun b s =>
      let b := harp_cbor_uint (harp_cbor_array b 3) (Z.of_nat s) in
      harp_cbor_float (harp_cbor_float b (f32_to_f64 (nth s (d_meters d).1 0))) (f32_to_f64 (nth s (d_meters d).2 0)))
      (seq 0 METER_NSLOTS) b) d.

Definition handle_dev_txn : handler L := fun e d =>
  respond e (fun b => kuint 2 (d_ctr d evt_txn_unknown) (kuint 1 (d_ctr d evt_txn_overflow)
    (kuint 0 (d_ctr d evt_txn_rejected) (harp_cbor_map b 3)))) d.

(** ** Reconcile *)

Definition reconcile_post_offer (expect live : list Z) (dirty : bool) d : device L :=
  set_rec (mk_rec true (take 15 expect) (take 15 live) dirty (-1)) d.
(** The panel's pick. *)
Definition reconcile_set_choice (n : Z) d : bool * device L :=
  if (n <? 0) || (n >? 4) then (false, d)
  else let r := d_rec d in (true, set_rec (mk_rec false (rc_expect r) (rc_live r) (rc_dirty r) n) d).

(** [expect], [live], [dirty]; the last is optional and may be malformed. *)
Definition offer_body : parser (option (list Z * list Z * Z)) unit :=
  n ← on_fst harp_cdec_map; sm_guard (2 <=? n);;
  k ← on_fst harp_cdec_uint; sm_guard (k =? 0);;
  s ← on_fst harp_cdec_text;
  k ← on_fst harp_cdec_uint; sm_guard (k =? 1);;
  t ← on_fst harp_cdec_text;
  on_snd (sm_modify (fun _ => Some (cstr (take 15 s), cstr (take 15 t), 0)));;
  sm_guard (3 <=? n);;
  k ← on_fst harp_cdec_uint; sm_guard (k =? 2);;
  v ← on_fst harp_cdec_uint;
  on_snd (sm_modify (fmap (fun x => (x.1, v)))).

Definition handle_reconcile_offer : handler L := fun e d =>
  match body_parse offer_body e None with
  | None => fail_with e (str "malformed") None d
  | Some (expect, live, dirty) => respond_empty e (reconcile_post_offer expect live (negb (s32 dirty =? 0)) d)
  end.

Definition handle_reconcile_poll : handler L := fun e d =>
  respond e (fun b => harp_cbor_int (harp_cbor_uint (kbool 0 (rc_pending (d_rec d)) (harp_cbor_map b 2)) 1) (rc_choice (d_rec d))) d.
End diag.
