(* ===== verification/Session.v ===== *)
(** * The session

    session.c's dispatch and loop: a control message by its method's name, the
    gate before [core.hello], the three streams of a link, and what a session
    begins and ends with.  The link's receiving half is a source of messages. *)
From Stdlib Require Import ZArith Lia String List Bool.
From stdpp Require Import base list.
From S2P Require Import Prelude Cbuf CborEnc CborDec CborFloat CborFields Sha256 Frame Envelope Object Link Fs Store StoreGc RateLimit LogRing Params Evq Ieee Parts Device Reply State Stream Hello Refs Events Diag.
Open Scope Z_scope.
Open Scope list_scope.

(** [harp_link_recv]'s results with the message: 0, -1, -2. *)
Inductive msg_in : Set := MsgIn (strm : Z) (data : list Z) | MsgGone | MsgViolation.

(** The receiving half of a link, and its readiness probe. *)
Class MsgSource (L : Type) := {
  msg_recv : L -> msg_in * L;
  msg_readable : L -> bool }.

(** link.c behind both interfaces: the link's state and the frame counter. *)
Section link_session.
Context {R : Realloc} {io : Type} {HI : HarpIo io} {BP : BytePipe io} (io_readable : io -> bool).

Definition link_session_recv (l : link_st io * Z) : msg_in * (link_st io * Z) :=
  let '(r, s) := harp_link_recv (S (length (pipe_in (ls_io l.1)))) l.1 in
  (match r with
   | Some (RecvMsg strm) => MsgIn strm (cb_buf (ls_msg s))
   | Some RecvIo | None => MsgGone
   | Some RecvProto => MsgViolation
   end, (s, l.2)).
Definition link_source : MsgSource (link_st io * Z) := {| msg_recv := link_session_recv; msg_readable l := io_readable (ls_io l.1) |}.

Definition link_sink : MsgLink (link_st io * Z) := fun strm data l =>
  let '(r, (i, cf)) := harp_link_send strm data (ls_io l.1, l.2) in
  (bool_decide (r <> None), (mk_link i (ls_acc l.1) (ls_msg l.1), cf)).
End link_session.

Section session.
Context {L : Type} {ML : MsgLink L} {MS : MsgSource L} {E : DevEnv} {R : Realloc} {Q : Qsort} {O' : OS} {F : Faults}
  {FC : FpConv} {CT : CFloatText} (conf : dev_conf).
Implicit Types d : device L.

Definition CTL_HANDLERS : list (list Z * handler L) := [
  (str "core.hello", handle_hello conf);
  (str "core.identify", handle_identify conf);
  (str "core.ping", handle_ping);
  (str "core.bye", handle_bye);
  (str "time.ping", handle_time_ping);
  (str "state.refs", handle_state_refs conf);
  (str "state.snapshot", handle_state_snapshot conf);
  (str "state.have", handle_state_have conf);
  (str "state.want", handle_state_want conf);
  (str "state.send", handle_state_send);
  (str "state.refset", handle_state_refset conf);
  (str "evt.params", handle_evt_params);
  (str "evt.format", handle_evt_format);
  (str "evt.parse", handle_evt_parse);
  (str "audio.start", handle_audio_start conf);
  (str "audio.stop", handle_audio_stop);
  (str "audio.trim", handle_audio_trim);
  (str "diag.counters", handle_diag_counters);
  (str "diag.bundle", handle_diag_bundle conf);
  (str "diag.loopback.start", handle_diag_loopback_start);
  (str "diag.loopback.stop", handle_diag_loopback_stop);
  (str "x.harp-refdev.knob", handle_knob conf);
  (str "x.harp.reconcile.offer", handle_reconcile_offer);
  (str "x.harp.reconcile.poll", handle_reconcile_poll);
  (str "x.harp-refdev.params", handle_dev_params);
  (str "x.harp-refdev.meters", handle_dev_meters);
  (str "x.harp-refdev.txn", handle_dev_txn);
  (str "x.harp-refdev.gc", handle_dev_gc conf);
  (str "x.harp-refdev.notify-changed", handle_notify_changed);
  (str "x.harp-refdev.restart", handle_restart)].

Fixpoint find_handler (name : list Z) (l : list (list Z * handler L)) : option (handler L) :=
  match l with
  | [] => None
  | (m, h) :: l => if streq name m then Some h else find_handler name l
  end.

(** [core.credit]: the granted bytes. *)
Definition credit_body : parser (option Z) unit :=
  first_key 1 (fun _ => v ← on_fst harp_cdec_uint; on_snd (sm_modify (fun _ => Some v))).
Definition handle_credit (e : harp_env) d : device L :=
  match body_parse credit_body e None with
  | Some v => sendq_flush conf (upd_net (fun n => set_credit (u64 (n_credit n + v)) n) d)
  | None => d
  end.

(** [engst_untouch]: [atomic_exchange(&g_touch_pending, 0)]. *)
Definition untouch (s : engst) : engst := mk_engst (e_parts s) false (e_evt_late s) (e_ramp_late s).
Definition take_touch d : device L := if e_touch (d_eng d) then live_ref_touch conf true (upd_eng untouch d) else d.

Definition dispatch (e : harp_env) d : device L :=
  if e_msgtype e =? HARP_MSG_NOTIFICATION then
    if streq (method_of e) (str "core.credit") && e_has_body e then handle_credit e d else d
  else if negb (e_msgtype e =? HARP_MSG_REQUEST) then d
  else if negb (n_hello (d_net d)) && negb (streq (method_of e) (str "core.hello"))
  then fail_with e (str "denied") (Some (str "core.hello required first")) d
  else
    match find_handler (method_of e) CTL_HANDLERS with
    | Some h => h e d
    | None => fail_with e (str "unsupported") None d
    end.

Definition handle_ctl (buf : list Z) d : device L :=
  let d := take_touch d in
  match harp_env_parse buf with
  | (false, _) => ctr_inc frame_errors d
  | (true, e) => dispatch e d
  end.

(** ** The loop *)

(** One event message: a staged event is counted when its run is flushed. *)
Definition session_evt (buf : list Z) d : device L :=
  let d := handle_evt_msg conf buf (set_staged false d) in
  if es_staged (d_evt d) then d else evt_consume 1 (evt_stage_flush d).

(** One message of any stream.  engine.c's [engine_param_map_dirty_take] is 0. *)
Definition session_msg (strm : Z) (buf : list Z) d : device L :=
  if strm =? HARP_STREAM_CTL then handle_ctl buf (evt_stage_flush d)
  else if negb (n_hello (d_net d)) then ctr_inc frame_errors d
  else if strm =? HARP_STREAM_OBJ then handle_obj conf buf (evt_stage_flush d)
  else if strm =? HARP_STREAM_EVT then session_evt buf d
  else d.

Definition PREHELLO_NS : Z := 10000000000.

Definition link_recv d : option msg_in * device L :=
  match n_link (d_net d) with
  | None => (None, d)
  | Some l => let '(r, l) := msg_recv l in (Some r, upd_net (set_link (Some l)) d)
  end.
Definition readable d : bool := match n_link (d_net d) with Some l => msg_readable l | None => false end.

(** One turn of the loop: [false] when the session is over. *)
Definition session_turn (t_start : Z) d : bool * device L :=
  match link_recv d with
  | (Some (MsgIn strm buf), d) =>
      let '(late, d) :=
        if n_hello (d_net d) then (false, d)
        else let '(now, d) := ask env_ns d in (PREHELLO_NS <? u64 (now - t_start), d) in
      if late : bool then (false, d)
      else
        let d := session_msg strm buf d in
        if d_exited d || n_closing (d_net d) then (false, d)
        else (true, if negb (bool_decide (es_stage (d_evt d) = [])) && negb (readable d) then evt_stage_flush d else d)
  | (Some MsgViolation, d) => (false, ctr_inc session_resets d)
  | (_, d) => (false, d)
  end.

(** A session begins: nothing is left of the one before.  [l] is the transport
    with a link just initialised. *)
Definition session_begin (l : L) d : device L :=
  let d := upd_net (fun n => set_closing false (set_hello false (set_link (Some l) n))) d in
  let d := session_reset d in
  upd_evt (fun v => mk_evt (es_q v) (es_txn v) [] false (es_consumed v)) d.

(** It ends: the staged run is drained, the stream stops, the live ref is
    written, the link is gone; [exit] ends the process at once. *)
Definition session_end d : device L :=
  if d_exited d then d
  else upd_net (set_link None) (live_cache_flush conf (audio_stop (evt_stage_flush d))).

(** At most [fuel] messages; [None] when the peer has not closed by then. *)
Fixpoint session_loop (fuel : nat) (t_start : Z) d : option (device L) :=
  match fuel with
  | O => None
  | S k => match session_turn t_start d with (true, d) => session_loop k t_start d | (false, d) => Some d end
  end.

Definition harp_deviced_run_session (fuel : nat) (l : L) d : option (device L) :=
  let '(t_start, d) := ask env_ns (session_begin l d) in
  session_end <$> session_loop fuel t_start d.
End session.
