(* ===== verification/SessionSpec.v ===== *)
(** * The session: theorems

    Whatever run of events is kept staged, the device ends in the same state; every
    event message is counted once; before [core.hello] a peer has no effect and gets
    refusals only. *)
From Stdlib Require Import ZArith Lia String List Bool.
From stdpp Require Import base list.
From S2P Require Import Prelude Cbuf CborEnc CborDec CborFloat CborFields Sha256 Frame Envelope Object Link Fs Store StoreGc RateLimit LogRing Params Evq Ieee Parts Device DeviceSpec Reply State Stream Hello Refs Events EventsSpec Diag Session.
Open Scope Z_scope.
Open Scope list_scope.

Section batching.
Context {L : Type} {ML : MsgLink L} {MS : MsgSource L} {E : DevEnv} {R : Realloc} {Q : Qsort} {O' : OS} {F : Faults}
  {FC : FpConv} {CT : CFloatText} (conf : dev_conf).
Implicit Types d : device L.

Lemma set_staged_flush b d : set_staged b (evt_stage_flush d) = evt_stage_flush (set_staged b d).
Proof.
  rewrite !flush_upd. destruct d as [w en me ne li v au ct ha r1 r2 lo re ex]. destruct v as [q tx st sg co].
  unfold set_staged, upd_evt, flush_evt. by destruct st.
Qed.

(** Staging an event early or late. *)
Lemma stage_add_flush ev d : evt_stage_flush (evt_stage_add ev d) = evt_stage_flush (evt_stage_add ev (evt_stage_flush d)).
Proof.
  assert (es_stage (d_evt (evt_stage_flush d)) = []) as Hs by (rewrite flush_upd; apply flush_evt_stage).
  unfold evt_stage_add. rewrite Hs. cbn [length]. change (EVT_STAGE_CAP <=? 0)%nat with false. cbv iota.
  destruct (EVT_STAGE_CAP <=? length (es_stage (d_evt d)))%nat; [done|]. clear Hs.
  rewrite !flush_upd. destruct d as [w en me ne li v au ct ha r1 r2 lo re ex]. destruct v as [q tx st sg co].
  unfold upd_evt, flush_evt. cbn [d_evt es_stage es_q es_txn es_staged es_consumed d_world d_eng d_meters d_net d_live d_audio d_ctr d_hash d_rl_snapshot d_rl_bundle d_log d_rec d_exited].
  destruct st as [|e1 st]; [done|]. cbn [app es_stage es_q es_txn es_staged es_consumed]. f_equal. f_equal.
  - unfold evq_push_run. by rewrite app_comm_cons, fold_left_app.
  - unfold u32. rewrite !zlen_cons, zlen_app, zlen_cons, zlen_nil. rewrite !Zplus_mod_idemp_r, Zplus_mod_idemp_l. f_equal. lia.
Qed.

Lemma session_evt_flush buf d : evt_stage_flush (session_evt conf buf d) = evt_stage_flush (session_evt conf buf (evt_stage_flush d)).
Proof.
  unfold session_evt. rewrite set_staged_flush. set (d1 := set_staged false d).
  assert (es_staged (d_evt d1) = false) as Hs by done. assert (d_audio (evt_stage_flush d1) = d_audio d1) as Ha by (by rewrite flush_upd).
  destruct (evt_msg_cases conf buf (d_audio d1)) as [(ev & t & H)|(g & Hg & H)]; rewrite !H by done.
  - rewrite !(blind_evt _ _ (blind_touch_if conf t)).
    assert (forall x, es_staged (d_evt (evt_stage_add ev x)) = true) as -> by done.
    assert (forall x, es_staged (d_evt (evt_stage_add ev x)) = true) as -> by done.
    rewrite (flush_upd (touch_if conf t (evt_stage_add ev d1))), (flush_upd (touch_if conf t (evt_stage_add ev (evt_stage_flush d1)))).
    rewrite <- !blind_touch_if, <- !flush_upd. by rewrite stage_add_flush.
  - destruct Hg as [G1 G2]. destruct (G2 d1) as [-> _]. destruct (G2 (evt_stage_flush d1)) as [-> _]. rewrite flush_staged, Hs. by rewrite G1.
Qed.

Lemma session_msg_flush strm buf d :
  evt_stage_flush (session_msg conf strm buf d) = evt_stage_flush (session_msg conf strm buf (evt_stage_flush d)).
Proof.
  unfold session_msg. assert (n_hello (d_net (evt_stage_flush d)) = n_hello (d_net d)) as -> by (by rewrite flush_upd).
  destruct (strm =? HARP_STREAM_CTL); [by rewrite flush_idem|].
  destruct (n_hello (d_net d)); cbn [negb]; [|by rewrite ctr_inc_flush, flush_idem].
  destruct (strm =? HARP_STREAM_OBJ); [by rewrite flush_idem|].
  destruct (strm =? HARP_STREAM_EVT); [apply session_evt_flush|by rewrite flush_idem].
Qed.

(** A run of messages: [keep] says whether the staged run is kept after one, as
    the loop does while more input is ready. *)
Fixpoint run_msgs (ms : list (Z * list Z * bool)) d : device L :=
  match ms with
  | [] => d
  | (strm, buf, keep) :: ms =>
      let d := session_msg conf strm buf d in
      run_msgs ms (if keep : bool then d else evt_stage_flush d)
  end.

Definition keep_by (f : bool * bool -> bool) (ms : list (Z * list Z * (bool * bool))) : list (Z * list Z * bool) :=
  map (fun m => (m.1, f m.2)) ms.

Lemma run_msgs_flush ms : forall d, evt_stage_flush (run_msgs ms d) = evt_stage_flush (run_msgs ms (evt_stage_flush d)).
Proof.
  induction ms as [|[[strm buf] keep] ms IH]; intros d; cbn [run_msgs]; [by rewrite flush_idem|]. destruct keep.
  - rewrite IH, session_msg_flush, <- IH. done.
  - by rewrite session_msg_flush.
Qed.

(** C20: staging is invisible.  Take any sequence of messages on any streams, and
    two choices of after which messages the staged run is kept rather than flushed:
    once flushed, the two runs leave the device - queue, drop counts, transactions,
    consumed count, engine, store, live ref, everything sent - in the same state.
    In particular keeping the run while input is ready equals pushing every event
    as it arrives. *)
Theorem staging_transparent (ms : list (Z * list Z * (bool * bool))) d :
  evt_stage_flush (run_msgs (keep_by fst ms) d) = evt_stage_flush (run_msgs (keep_by snd ms) d).
Proof.
  revert d. induction ms as [|[[strm buf] [k1 k2]] ms IH]; intros d; cbn [keep_by map run_msgs fst snd]; [done|].
  fold (keep_by fst ms) (keep_by snd ms). destruct k1, k2; [apply IH| | |apply IH].
  - rewrite IH. apply run_msgs_flush.
  - rewrite <- IH. symmetry. apply run_msgs_flush.
Qed.


(** One more is counted, and the staged run stays within its bound. *)
Lemma session_evt_total (buf : list Z) d :
  let d' := session_evt conf buf d in
  evt_total d' = u32 (evt_total d + 1) /\
  ((length (es_stage (d_evt d)) <= EVT_STAGE_CAP)%nat -> (length (es_stage (d_evt d')) <= EVT_STAGE_CAP)%nat).
Proof.
  unfold session_evt. set (d1 := set_staged false d).
  assert (evt_total d = evt_total d1 /\ es_stage (d_evt d) = es_stage (d_evt d1) /\ es_staged (d_evt d1) = false) as (-> & -> & Hs) by done.
  destruct (evt_msg_cases conf buf (d_audio d1)) as [(ev & t & H)|(g & Hg & H)]; rewrite !H by done.
  - rewrite !(blind_evt _ _ (blind_touch_if conf t)). change (es_staged (d_evt (evt_stage_add ev d1))) with true. cbv iota.
    assert (evt_total (touch_if conf t (evt_stage_add ev d1)) = evt_total (evt_stage_add ev d1)) as ->.
    { unfold evt_total. by rewrite !(blind_evt _ _ (blind_touch_if conf t)). }
    rewrite !(blind_evt _ _ (blind_touch_if conf t)). unfold evt_stage_add. unfold evt_total at 1.
    assert (forall x : device L, u32 (es_consumed (d_evt x) + zlen (es_stage (d_evt x) ++ [ev])) = u32 (evt_total x + 1)) as Ht.
    { intros x. unfold evt_total, u32. rewrite zlen_app, zlen_cons, zlen_nil, Zplus_mod_idemp_l. f_equal. lia. }
    destruct (Nat.leb_spec EVT_STAGE_CAP (length (es_stage (d_evt d1)))); cbn [upd_evt d_evt es_consumed es_stage]; rewrite Ht.
    + rewrite total_flush. split; [done|]. intros _. rewrite flush_upd. cbn [upd_evt d_evt]. rewrite flush_evt_stage. cbn [length app]. unfold EVT_STAGE_CAP. lia.
    + split; [done|]. intros _. rewrite length_app. cbn [length]. lia.
  - destruct Hg as [_ Hu]. destruct (Hu d1) as (H1 & H2 & H3). rewrite H1, Hs. cbv zeta. split.
    + rewrite <- H2, <- (total_flush (g d1)). unfold evt_total, evt_consume. cbn [upd_evt d_evt es_consumed es_stage].
      unfold u32. rewrite !Zplus_mod_idemp_l. f_equal. lia.
    + intros Hle. cbn [evt_consume upd_evt d_evt es_stage]. rewrite flush_upd. cbn [upd_evt d_evt]. rewrite flush_evt_stage. cbn [length]. lia.
Qed.

(** every event message is counted once.  Whatever its bytes - a set, a note,
    a transaction message, malformed or stale - processing it adds exactly one to
    what the fence counts (the consumed count and the staged events that will be
    added to it, modulo 2^32), and the staged run never exceeds its bound. *)
Theorem evt_counted_once (buf : list Z) d :
  let d' := session_evt conf buf d in
  evt_total d' = u32 (evt_total d + 1) /\
  ((length (es_stage (d_evt d)) <= EVT_STAGE_CAP)%nat -> (length (es_stage (d_evt d')) <= EVT_STAGE_CAP)%nat).
Proof. apply session_evt_total. Qed.
End batching.

Section gate.
Context {L : Type} {ML : MsgLink L} {MS : MsgSource L} {E : DevEnv} {R : Realloc} {Q : Qsort} {O' : OS} {F : Faults}
  {FC : FpConv} {CT : CFloatText} (conf : dev_conf).
Implicit Types d : device L.

(** Only the link, the credit and the frame errors may differ, and messages of [P]
    on the control stream have been sent. *)
Definition inert (P : list Z -> Prop) d d' : Prop :=
  d_world d' = d_world d /\ d_eng d' = d_eng d /\ d_meters d' = d_meters d /\ d_live d' = d_live d /\ d_evt d' = d_evt d /\
  d_audio d' = d_audio d /\ d_hash d' = d_hash d /\ d_log d' = d_log d /\ d_rec d' = d_rec d /\
  n_granted (d_net d') = n_granted (d_net d) /\ n_sendq (d_net d') = n_sendq (d_net d) /\ n_hello (d_net d') = n_hello (d_net d) /\
  exists sent, n_sent (d_net d') = n_sent (d_net d) ++ sent /\ Forall (fun m => m.1 = HARP_STREAM_CTL /\ P m.2) sent.

Lemma inert_refl P d : inert P d d.
Proof. split_and!; try done. exists []. by rewrite app_nil_r. Qed.

Lemma inert_impl (P P' : list Z -> Prop) d d' : (forall m, P m -> P' m) -> inert P d d' -> inert P' d d'.
Proof.
  intros HP (A1 & A2 & A3 & A4 & A5 & A6 & A7 & A8 & A9 & A10 & A11 & A12 & s1 & A13 & A14). split_and!; try done.
  exists s1. split; [done|]. eapply Forall_impl; [exact A14|]. intros m [H1 H2]. auto.
Qed.

Lemma inert_trans P d1 d2 d3 : inert P d1 d2 -> inert P d2 d3 -> inert P d1 d3.
Proof.
  intros (A1 & A2 & A3 & A4 & A5 & A6 & A7 & A8 & A9 & A10 & A11 & A12 & s1 & A13 & A14)
    (B1 & B2 & B3 & B4 & B5 & B6 & B7 & B8 & B9 & B10 & B11 & B12 & s2 & B13 & B14).
  split_and!; try congruence. exists (s1 ++ s2). split; [by rewrite B13, A13, app_assoc|by apply Forall_app].
Qed.

Lemma inert_send (P : list Z -> Prop) m d : P (cb_buf m) -> inert P d (send_msg m d).
Proof.
  intros HP. unfold send_msg, send_ctl. destruct (link_send_spec HARP_STREAM_CTL (cb_buf m) d) as (ok & l & -> & _).
  cbn [snd]. split_and!; try done. eexists. split; [reflexivity|]. destruct ok; by repeat constructor.
Qed.

(** The two refusals of the request [req]: any other method is denied, and the hello
    of another major version is incompatible. *)
Definition refuses (req data : list Z) : Prop := exists e, harp_env_parse req = (true, e) /\ e_msgtype e = HARP_MSG_REQUEST /\
  data = cb_buf (if streq (method_of e) (str "core.hello")
    then enc_major_range (harp_cbor_uint (ktext 1 (str "device supports protocol 1.x only") (ktext 0 (str "incompatible")
           (harp_cbor_map (harp_env_head harp_cbuf_init HARP_MSG_ERROR (e_rid e) (method_of e) true) 3))) 2)
    else harp_env_error harp_cbuf_init (e_rid e) (method_of e) (str "denied") (Some (str "core.hello required first"))).

(** Nothing is pending and no peer has said hello. *)
Definition quiet d : Prop := n_hello (d_net d) = false /\ es_stage (d_evt d) = [] /\ sq_count (n_sendq (d_net d)) = O.

Lemma quiet_inert P d d' : quiet d -> inert P d d' -> quiet d'.
Proof.
  intros (H1 & H2 & H3) (A1 & A2 & A3 & A4 & A5 & A6 & A7 & A8 & A9 & A10 & A11 & A12 & _).
  unfold quiet. by rewrite A12, A5, A11.
Qed.

Lemma inert_credit P e d : quiet d -> inert P d (handle_credit conf e d).
Proof.
  intros (_ & _ & H3). unfold handle_credit. destruct (body_parse _ e None) as [v|]; [|apply inert_refl].
  unfold sendq_flush. cbn [upd_net d_net n_sendq set_credit]. rewrite H3. cbn [flush_loop].
  split_and!; try done. exists []. cbn. by rewrite app_nil_r.
Qed.

Lemma grant_hello d : n_hello (d_net (grant_credit d)) = n_hello (d_net d).
Proof.
  unfold grant_credit, send_msg, send_ctl.
  match goal with |- context [link_send ?s ?m d] => destruct (link_send_spec s m d) as (ok & l & -> & _) end. done.
Qed.

Lemma hello_gate P e d : n_hello (d_net (handle_hello conf e d)) = false ->
  P (cb_buf (enc_major_range (harp_cbor_uint (ktext 1 (str "device supports protocol 1.x only") (ktext 0 (str "incompatible")
           (harp_cbor_map (harp_env_head harp_cbuf_init HARP_MSG_ERROR (e_rid e) (method_of e) true) 3))) 2))) ->
  inert P d (handle_hello conf e d).
Proof.
  unfold handle_hello. destruct (negb _); [intros _; apply inert_send|]. cbv zeta. rewrite grant_hello.
  unfold respond, send_msg, send_ctl.
  match goal with |- context [link_send ?s ?m ?d1] => destruct (link_send_spec s m d1) as (ok & l & -> & _) end. done.
Qed.

(** *** What was pending before the session *)

(** Noting a change nobody is there to be told of: the live ref and the store. *)
Lemma touch_untold b d : n_hello (d_net d) = false -> let d' := live_ref_touch conf b d in
  d_net d' = d_net d /\ d_eng d' = d_eng d.
Proof.
  intros Hh. assert (d_net (live_load conf d).2 = d_net d /\ d_eng (live_load conf d).2 = d_eng d) as [N1 E1].
  { unfold live_load, mbind, SM_bind. change (sm_get d) with (Some d, d). cbv beta iota. destruct (lv_valid (d_live d)); [done|].
    unfold on_store. by destruct (harp_store_ref_read _ _ _) as [[r|] w]. }
  unfold live_ref_touch. destruct (live_load conf d) as [[u|] d1]; [|done]. cbn [snd] in *. cbv zeta.
  set (d2 := if _ : bool then write_ref _ _ _ else _). assert (d_net d2 = d_net d /\ d_eng d2 = d_eng d) as [N2 E2].
  { unfold d2. destruct (b && _); [|done]. unfold write_ref, on_store. by destruct (harp_store_ref_write _ _ _) as [r w]. }
  clearbody d2. unfold now_ms, now_ns, mbind, SM_bind, on_store. cbn.
  destruct (_ || _); [|done]. unfold ntf_state_changed. cbn. by rewrite N2, Hh.
Qed.

Lemma take_touch_quiet d : quiet d -> quiet (take_touch conf d) /\ e_touch (d_eng (take_touch conf d)) = false.
Proof.
  intros (H1 & H2 & H3). unfold take_touch. destruct (e_touch (d_eng d)) eqn:Ht; [|done].
  destruct (touch_untold true (upd_eng untouch d) H1) as [N1 E1]. unfold quiet. rewrite N1, E1, (blind_evt _ _ (blind_touch conf true)). done.
Qed.

(** *** A message *)

Lemma prehello_ctl buf d : quiet d -> n_hello (d_net (handle_ctl conf buf d)) = false -> inert (refuses buf) (take_touch conf d) (handle_ctl conf buf d).
Proof.
  intros Hq. destruct (take_touch_quiet d Hq) as [Hq1 _]. unfold handle_ctl. generalize dependent (take_touch conf d). clear d Hq. intros d Hq.
  pose proof Hq as (H1 & H2 & H3). destruct (harp_env_parse buf) as [[] e] eqn:Hp.
  2:{ intros _. split_and!; try done. exists []. cbn. by rewrite app_nil_r. }
  unfold dispatch. destruct (e_msgtype e =? HARP_MSG_NOTIFICATION).
  { intros _. destruct (_ && _); [by apply inert_credit|apply inert_refl]. }
  case_eq (e_msgtype e =? HARP_MSG_REQUEST); [intros Hr%Z.eqb_eq|intros _ _; apply inert_refl]. cbn [negb].
  rewrite H1. cbn [negb andb]. destruct (streq (method_of e) (str "core.hello")) eqn:Hm; cbn [negb].
  - unfold CTL_HANDLERS. cbn [find_handler]. rewrite Hm. intros Hh. apply hello_gate; [exact Hh|]. exists e. rewrite Hm. done.
  - intros _. apply inert_send. exists e. rewrite Hm. done.
Qed.

Lemma prehello_other (P : list Z -> Prop) strm buf d : quiet d -> strm <> HARP_STREAM_CTL -> inert P d (session_msg conf strm buf d).
Proof.
  intros (H1 & _) Hs. unfold session_msg. rewrite (proj2 (Z.eqb_neq _ _) Hs), H1. cbn [negb].
  split_and!; try done. exists []. cbn. by rewrite app_nil_r.
Qed.

Definition run_session_msgs (ms : list (Z * list Z)) d : device L := fold_left (fun d m => session_msg conf m.1 m.2 d) ms d.

(** None of the messages has completed the handshake. *)
Fixpoint unfinished (ms : list (Z * list Z)) d : Prop :=
  match ms with
  | [] => True
  | m :: ms => let d := session_msg conf m.1 m.2 d in n_hello (d_net d) = false /\ unfinished ms d
  end.

(** What goes out refuses a request that came in. *)
Definition refused_in (ms : list (Z * list Z)) (data : list Z) : Prop := exists req, (HARP_STREAM_CTL, req) ∈ ms /\ refuses req data.
Definition has_ctl (ms : list (Z * list Z)) : bool := existsb (fun m => m.1 =? HARP_STREAM_CTL) ms.

(** With nothing pending, nothing happens. *)
Lemma prehello_run ms : forall d, quiet d -> e_touch (d_eng d) = false -> unfinished ms d -> inert (refused_in ms) d (run_session_msgs ms d).
Proof.
  unfold run_session_msgs. induction ms as [|[strm buf] ms IH]; intros d Hq Ht; cbn [fold_left fst snd]; [intros _; apply inert_refl|].
  intros [Hh Hu]. assert (inert (refused_in ((strm, buf) :: ms)) d (session_msg conf strm buf d)) as Hi.
  { destruct (decide (strm = HARP_STREAM_CTL)) as [->|Hs]; [|by apply prehello_other].
    revert Hh. unfold session_msg. cbn [fst snd]. rewrite Z.eqb_refl. unfold evt_stage_flush. destruct Hq as (H1 & H2 & H3). rewrite H2. intros Hh.
    pose proof (prehello_ctl buf d ltac:(done) Hh) as Hc. assert (take_touch conf d = d) as E1 by (unfold take_touch; by rewrite Ht). rewrite E1 in Hc.
    eapply inert_impl; [|exact Hc]. intros m Hm. exists buf. split; [left|exact Hm]. }
  eapply inert_trans; [exact Hi|].
  eapply inert_impl; [|apply IH; [by eapply quiet_inert| |exact Hu]].
  - intros m (req & H1 & H2). exists req. split; [by right|done].
  - destruct Hi as (_ & -> & _). exact Ht.
Qed.

End gate.

(** An object and a request before the handshake. *)
Definition demo_source : MsgSource unit := {| msg_recv l := (MsgGone, l); msg_readable _ := false |}.
Definition demo_text : CFloatText := {| fmt_3f _ := []; scan_f _ := None |}.
Definition demo_conv : FpConv := fun _ => 0.
Definition demo_request (rid : Z) (method : list Z) : list Z := cb_buf (@harp_env_head alloc_all harp_cbuf_init HARP_MSG_REQUEST rid method false).

#[local] Existing Instances demo_link demo_env demo_source demo_text demo_conv alloc_all isort_Qsort os_good no_faults.

