(* ===== verification/AnswerSpec.v ===== *)
(** * Every request is answered

    On a link that delivers, every request gets exactly one response or error with
    its own id and method - whatever it says and in whatever state the device is -
    except [audio.trim], which the code leaves unanswered. *)
From Stdlib Require Import ZArith Lia String List Bool.
From stdpp Require Import base list.
From S2P Require Import Prelude Cbuf CborEnc CborDec CborFloat CborFields Sha256 Frame Envelope Object Link Fs Store StoreGc RateLimit LogRing GcCorrect Params Evq Ieee Parts Device DeviceSpec Reply State Stream Hello Refs Events Diag Session SessionSpec.
Open Scope Z_scope.
Open Scope list_scope.

(** ** Encoders only append *)

Section ext.
Context {R : Realloc}.

Definition ext (a b : cbuf) : Prop := exists s, cb_buf b = cb_buf a ++ s.

Lemma ext_refl a : ext a a.
Proof. exists []. by rewrite app_nil_r. Qed.

Lemma ext_put a b p : ext a b -> ext a (harp_cbuf_put b p).
Proof.
  intros [s Hs]. unfold harp_cbuf_put, ensure.
  destruct (cb_oom b); [by exists s|]. destruct (_ <=? _); [exists (s ++ p); cbn; by rewrite Hs, app_assoc|]. cbv zeta.
  destruct (realloc_ok _); [|by exists s]. exists (s ++ p). cbn. by rewrite Hs, app_assoc.
Qed.

Lemma ext_uint a b v : ext a b -> ext a (harp_cbor_uint b v).
Proof. apply ext_put. Qed.
Lemma ext_int a b v : ext a b -> ext a (harp_cbor_int b v).
Proof. intros. unfold harp_cbor_int. case_cond; by apply ext_put. Qed.
Lemma ext_bytes a b v : ext a b -> ext a (harp_cbor_bytes b v).
Proof. intros. by do 2 apply ext_put. Qed.
Lemma ext_text a b v : ext a b -> ext a (harp_cbor_text b v).
Proof. intros. by do 2 apply ext_put. Qed.
Lemma ext_textn a b v : ext a b -> ext a (harp_cbor_textn b v).
Proof. intros. by do 2 apply ext_put. Qed.
Lemma ext_array a b v : ext a b -> ext a (harp_cbor_array b v).
Proof. apply ext_put. Qed.
Lemma ext_map a b v : ext a b -> ext a (harp_cbor_map b v).
Proof. apply ext_put. Qed.
Lemma ext_bool a b v : ext a b -> ext a (harp_cbor_bool b v).
Proof. apply ext_put. Qed.
Lemma ext_null a b : ext a b -> ext a (harp_cbor_null b).
Proof. apply ext_put. Qed.
Lemma ext_float a b v : ext a b -> ext a (harp_cbor_float b v).
Proof. apply ext_put. Qed.
Lemma ext_if (c : bool) a b b' : ext a b -> ext a b' -> ext a (if c then b else b').
Proof. by destruct c. Qed.
Lemma ext_fold {A} (f : cbuf -> A -> cbuf) l a : (forall x b, ext a b -> ext a (f b x)) -> forall b, ext a b -> ext a (fold_left f l b).
Proof. intros Hf. induction l as [|x l IH]; intros b Hb; [done|]. by apply IH, Hf. Qed.
Lemma ext_kuint a b k v : ext a b -> ext a (kuint k v b).
Proof. intros. by do 2 apply ext_put. Qed.
Lemma ext_ktext a b k v : ext a b -> ext a (ktext k v b).
Proof. intros. by apply ext_text, ext_uint. Qed.
Lemma ext_kbytes a b k v : ext a b -> ext a (kbytes k v b).
Proof. intros. by apply ext_bytes, ext_uint. Qed.
Lemma ext_kbool a b k v : ext a b -> ext a (kbool k v b).
Proof. intros. by apply ext_bool, ext_uint. Qed.
End ext.

(** Peel the encoders off one at a time, without unfolding any. *)
Ltac ext_tac := repeat
  lazymatch goal with
  | |- ext _ (if _ then _ else _) => apply ext_if
  | |- ext _ (kuint _ _ _) => apply ext_kuint
  | |- ext _ (ktext _ _ _) => apply ext_ktext
  | |- ext _ (kbytes _ _ _) => apply ext_kbytes
  | |- ext _ (kbool _ _ _) => apply ext_kbool
  | |- ext _ (harp_cbor_uint _ _) => apply ext_uint
  | |- ext _ (harp_cbor_int _ _) => apply ext_int
  | |- ext _ (harp_cbor_bytes _ _) => apply ext_bytes
  | |- ext _ (harp_cbor_text _ _) => apply ext_text
  | |- ext _ (harp_cbor_textn _ _) => apply ext_textn
  | |- ext _ (harp_cbor_array _ _) => apply ext_array
  | |- ext _ (harp_cbor_map _ _) => apply ext_map
  | |- ext _ (harp_cbor_bool _ _) => apply ext_bool
  | |- ext _ (harp_cbor_null _) => apply ext_null
  | |- ext _ (harp_cbor_float _ _) => apply ext_float
  | |- ext _ (harp_cbuf_put _ _) => apply ext_put
  | |- ext _ (fold_left _ _ _) => apply ext_fold; [intros|]
  | |- ext ?a ?b => first [constr_eq a b; apply ext_refl | is_var b; assumption]
  end.

Section bodies.
Context {R : Realloc} {E : DevEnv} (conf : dev_conf).

Lemma ext_ref_encode a b r : ext a b -> ext a (harp_ref_encode b r).
Proof. intros. unfold harp_ref_encode. destruct (r_unborn r); ext_tac. Qed.

Lemma ext_one_param a b p c : ext a b -> ext a (encode_one_param b p c).
Proof.
  intros. unfold encode_one_param. cbv zeta.
  ext_tac.
Qed.

Lemma ext_param_array a b : ext a b -> ext a (encode_param_array g_params b).
Proof.
  intros. unfold encode_param_array. cbv zeta. apply ext_fold.
  - intros slot b' Hb'. apply ext_fold; [|done]. intros k b2 Hb2. unfold encode_meter. cbv zeta. ext_tac.
  - apply ext_fold; [intros; by apply ext_one_param|ext_tac].
Qed.

Lemma ext_vendor a b : ext a b -> ext a (enc_vendor conf b).
Proof. intros. unfold enc_vendor. cbv zeta. ext_tac. Qed.
Lemma ext_engine a b h : ext a b -> ext a (enc_engine conf h b).
Proof. intros. unfold enc_engine. cbv zeta. ext_tac. Qed.
Lemma ext_protocol a b : ext a b -> ext a (enc_protocol conf b).
Proof. intros. unfold enc_protocol. cbv zeta. ext_tac. Qed.
Lemma ext_channels a b : ext a b -> ext a (enc_channels b).
Proof. intros. unfold enc_channels, enc_slot. ext_tac. Qed.
Lemma ext_latency a b : ext a b -> ext a (enc_latency conf b).
Proof. intros. unfold enc_latency. cbv zeta. ext_tac. Qed.
Lemma ext_build a b : ext a b -> ext a (enc_build conf b).
Proof. intros. unfold enc_build. cbv zeta. ext_tac. Qed.
Lemma ext_rt a b : ext a b -> ext a (enc_rt_profile conf b).
Proof. intros. unfold enc_rt_profile. cbv zeta. ext_tac. Qed.

Lemma ext_identity a b h : ext a b -> ext a (encode_identity conf h b).
Proof. intros. apply ext_rt, ext_build, ext_latency, ext_channels, ext_protocol, ext_engine, ext_vendor. ext_tac. Qed.

Lemma ext_counters {L : Type} a b vs (d : device L) : ext a b -> ext a (emit_counters vs d b).
Proof. intros. unfold emit_counters, enc_counter. cbv zeta. ext_tac. Qed.

Lemma ext_record cap a b cur buf : ext a b -> ext a (emit_record cap cur buf b).
Proof. intros. unfold emit_record. ext_tac. Qed.

Lemma ext_records cap a stride body : (forall cur b, ext a b -> ext a (body cur b)) ->
  forall k cur b, ext a b -> ext a (record_loop cap stride body k cur b).
Proof. intros Hs. induction k as [|k IH]; intros cur b Hb; [exact Hb|]. exact (IH _ _ (Hs cur b Hb)). Qed.

Lemma ext_log a b cap n r : ext a b -> ext a (harp_devlog_emit_cbor cap b n r).
Proof.
  intros H. unfold harp_devlog_emit_cbor. destruct (skip_loop _ _ _ _ _ _ _) as [cur k]. unfold emit_loop. apply ext_records; [intros; by apply ext_record|]. ext_tac.
Qed.
End bodies.

(** ** What counts as an answer *)

Section answers.
Context {R : Realloc} (HR : realloc_total R).

Lemma put_app_total b p : cb_oom b = false -> cb_buf (harp_cbuf_put b p) = cb_buf b ++ p /\ cb_oom (harp_cbuf_put b p) = false.
Proof. intros Hb. pose proof (never_oom_put p HR b Hb) as Ho. by destruct (appends_put p b Ho) as [_ ->]. Qed.

Definition env_start (ty rid : Z) (m : list Z) (hb : bool) : list Z := cb_buf (harp_env_head harp_cbuf_init ty rid m hb).

(** A reply to [e]: a control message that starts as a response or error with
    its id and method. *)
Definition answers (e : harp_env) (m : Z * list Z) : bool :=
  (m.1 =? HARP_STREAM_CTL) &&
  existsb (fun h => has_prefix h m.2)
    [env_start HARP_MSG_RESPONSE (e_rid e) (method_of e) true; env_start HARP_MSG_RESPONSE (e_rid e) (method_of e) false;
     env_start HARP_MSG_ERROR (e_rid e) (method_of e) true].

Definition replies (e : harp_env) (l : list (Z * list Z)) : nat := length (List.filter (answers e) l).

Lemma env_start_bytes ty rid m (hb : bool) : 0 <= ty < 4 -> exists s, env_start ty rid m hb = [if hb then 164 else 163; 0; ty] ++ s.
Proof.
  intros Hty. unfold env_start, harp_env_head. cbv zeta.
  set (b1 := harp_cbor_map harp_cbuf_init (if hb then 4 else 3)). destruct (put_app_total harp_cbuf_init (head_bytes 5 (if hb then 4 else 3)) eq_refl) as [A1 A2].
  change (harp_cbuf_put harp_cbuf_init (head_bytes 5 (if hb then 4 else 3))) with b1 in A1, A2.
  set (b2 := harp_cbor_uint b1 0). destruct (put_app_total b1 (head_bytes 0 0) A2) as [B1 B2]. change (harp_cbuf_put b1 (head_bytes 0 0)) with b2 in B1, B2.
  set (b3 := harp_cbor_uint b2 ty). destruct (put_app_total b2 (head_bytes 0 ty) B2) as [C1 _]. change (harp_cbuf_put b2 (head_bytes 0 ty)) with b3 in C1.
  assert (cb_buf b3 = [if hb then 164 else 163; 0; ty]) as Hb3.
  { rewrite C1, B1, A1. assert (ty = 0 \/ ty = 1 \/ ty = 2 \/ ty = 3) as [->|[->|[->| ->]]] by lia; by destruct hb. }
  clearbody b3. assert (ext b3 (if hb then harp_cbor_uint (harp_cbor_text (harp_cbor_uint (harp_cbor_uint (harp_cbor_uint b3 1) rid) 2) m) 3
    else harp_cbor_text (harp_cbor_uint (harp_cbor_uint (harp_cbor_uint b3 1) rid) 2) m)) as [s Hs] by ext_tac.
  exists s. by rewrite Hs, Hb3.
Qed.

Lemma answers_ext e b ty (hb : bool) : (ty = HARP_MSG_RESPONSE \/ (ty = HARP_MSG_ERROR /\ hb = true)) ->
  ext (harp_env_head harp_cbuf_init ty (e_rid e) (method_of e) hb) b -> answers e (HARP_STREAM_CTL, cb_buf b) = true.
Proof.
  intros Hty [s Hs]. unfold answers. cbn [fst snd]. rewrite Z.eqb_refl. cbn [andb]. apply existsb_exists.
  exists (env_start ty (e_rid e) (method_of e) hb). split.
  - destruct Hty as [->|[-> ->]]; [destruct hb|]; cbn [In]; auto.
  - unfold has_prefix. rewrite bool_decide_eq_true, Hs. apply take_app_length.
Qed.

Lemma answers_other e strm data : strm <> HARP_STREAM_CTL -> answers e (strm, data) = false.
Proof. intros H. unfold answers. cbn [fst]. by destruct (Z.eqb_spec strm HARP_STREAM_CTL). Qed.

Lemma ext_start a ty rid m hb b : ext a b -> a = harp_env_head harp_cbuf_init ty rid m hb -> exists s, cb_buf b = env_start ty rid m hb ++ s.
Proof. intros [s Hs] Ha. exists s. rewrite Hs. f_equal. unfold env_start. by f_equal. Qed.

Lemma env_start_type ty m s ty' rid' m' (hb' : bool) l rid : 0 <= ty < 4 -> 0 <= ty' < 4 -> ty <> ty' ->
  l = env_start ty rid m true ++ s -> has_prefix (env_start ty' rid' m' hb') l = false.
Proof.
  intros H1 H2 Hne Hl. destruct (env_start_bytes ty rid m true H1) as [s1 E1]. destruct (env_start_bytes ty' rid' m' hb' H2) as [s2 E2].
  unfold has_prefix. rewrite E2, Hl, E1. clear -Hne. rewrite bool_decide_eq_false. cbn [app length take]. intros [= _ H]. congruence.
Qed.

Lemma answers_ntf e b m : ext (harp_env_head harp_cbuf_init HARP_MSG_NOTIFICATION 0 m true) b -> answers e (HARP_STREAM_CTL, cb_buf b) = false.
Proof.
  intros He. destruct (ext_start _ HARP_MSG_NOTIFICATION 0 m true b He eq_refl) as [s Hs]. clear He.
  assert (Hno : forall ty hb, ty = 1 \/ ty = 2 -> has_prefix (env_start ty (e_rid e) (method_of e) hb) (cb_buf b) = false).
  { intros ty hb Hty. apply (env_start_type HARP_MSG_NOTIFICATION m s _ _ _ _ _ 0); [unfold HARP_MSG_NOTIFICATION; lia|lia|unfold HARP_MSG_NOTIFICATION; lia|exact Hs]. }
  unfold answers. cbn [fst snd existsb]. unfold HARP_MSG_RESPONSE, HARP_MSG_ERROR.
  rewrite (Hno 1 true), (Hno 1 false), (Hno 2 true) by lia. by rewrite andb_false_r.
Qed.
End answers.

(** ** What a piece of code says *)

Section says.
Context {L : Type} {ML : MsgLink L} {E : DevEnv} {R : Realloc} {Q : Qsort} {O' : OS} {F : Faults} {FC : FpConv} {CT : CFloatText}
  (conf : dev_conf) (HR : realloc_total R) (Hlink : forall strm data l, (msg_send strm data l).1 = true) (e : harp_env).
Implicit Types d : device L.

Definition up d : Prop := is_Some (n_link (d_net d)).

(** [k] answers to [e] between [d] and [d']. *)
Definition says (k : nat) d d' : Prop :=
  up d -> up d' /\ exists sent, n_sent (d_net d') = n_sent (d_net d) ++ sent /\ replies e sent = k.

(** The link and what was sent are the same. *)
Definition silent d d' : Prop := n_link (d_net d') = n_link (d_net d) /\ n_sent (d_net d') = n_sent (d_net d).

Lemma says_silent k d d1 d2 : says k d d1 -> silent d1 d2 -> says k d d2.
Proof. intros H [S1 S2] Hu. destruct (H Hu) as [Hu1 H1]. unfold up. by rewrite S1, S2. Qed.

Lemma says_refl d : says 0 d d.
Proof. intros Hu. split; [done|]. exists []. by rewrite app_nil_r. Qed.

Lemma says_trans j k d1 d2 d3 : says j d1 d2 -> says k d2 d3 -> says (j + k) d1 d3.
Proof.
  intros H1 H2 Hu. destruct (H1 Hu) as (Hu2 & s1 & A1 & A2). destruct (H2 Hu2) as (Hu3 & s2 & B1 & B2). split; [done|].
  exists (s1 ++ s2). split; [by rewrite B1, A1, app_assoc|]. unfold replies in *. by rewrite List.filter_app, length_app, A2, B2.
Qed.

Lemma says_link strm data d : says (if answers e (strm, data) then 1 else 0) d (link_send strm data d).2.
Proof.
  intros [l Hl]. unfold link_send, up. rewrite Hl. pose proof (Hlink strm data l) as H. destruct (msg_send strm data l) as [ok l']. cbn in H. subst ok.
  split; [by eexists|]. exists [(strm, data)]. split; [done|]. unfold replies. cbn [List.filter]. by destruct (answers e (strm, data)).
Qed.

Lemma says_msg k d d1 m : says k d d1 -> says (k + if answers e (HARP_STREAM_CTL, cb_buf m) then 1 else 0) d (send_msg m d1).
Proof. intros H. eapply says_trans; [exact H|]. apply says_link. Qed.

Lemma says_answer d d1 m ty (hb : bool) : says 0 d d1 -> (ty = HARP_MSG_RESPONSE \/ (ty = HARP_MSG_ERROR /\ hb = true)) ->
  ext (harp_env_head harp_cbuf_init ty (e_rid e) (method_of e) hb) m -> says 1 d (send_msg m d1).
Proof.
  intros H Hty Hm. pose proof (says_msg 0 d d1 m H) as Hs. rewrite (answers_ext e m ty hb Hty Hm) in Hs. exact Hs.
Qed.

Lemma says_respond d d1 body : says 0 d d1 -> (forall b, ext b (body b)) -> says 1 d (respond e body d1).
Proof. intros H Hb. exact (says_answer d d1 _ HARP_MSG_RESPONSE true H (or_introl eq_refl) (Hb _)). Qed.

Lemma says_respond_empty d d1 : says 0 d d1 -> says 1 d (respond_empty e d1).
Proof. intros H. exact (says_answer d d1 _ HARP_MSG_RESPONSE false H (or_introl eq_refl) (ext_refl _)). Qed.

Lemma ext_trans a b c : ext a b -> ext b c -> ext a c.
Proof. intros [s1 H1] [s2 H2]. exists (s1 ++ s2). by rewrite H2, H1, app_assoc. Qed.

Lemma says_fail d d1 code msg : says 0 d d1 -> says 1 d (fail_with e code msg d1).
Proof.
  intros H. refine (says_answer d d1 _ HARP_MSG_ERROR true H (or_intror (conj eq_refl eq_refl)) _).
  unfold harp_env_error. cbv zeta. destruct msg; ext_tac.
Qed.

Lemma says_details d d1 code msg f : says 0 d d1 -> (forall b, ext b (f b)) -> says 1 d (fail_details e code msg f d1).
Proof.
  intros H Hf. refine (says_answer d d1 _ HARP_MSG_ERROR true H (or_intror (conj eq_refl eq_refl)) _).
  refine (ext_trans _ _ _ _ (Hf _)). ext_tac.
Qed.

Lemma says_ntf k d d1 m b : says k d d1 -> ext (harp_env_head harp_cbuf_init HARP_MSG_NOTIFICATION 0 m true) b -> says k d (send_msg b d1).
Proof. intros H Hb. pose proof (says_msg k d d1 b H) as Hs. rewrite (answers_ntf HR e b m Hb) in Hs. by rewrite Nat.add_0_r in Hs. Qed.

(** ** What changes nothing on the wire *)

Lemma says_same k d d1 d2 : silent d1 d2 -> says k d d1 -> says k d d2.
Proof. intros H1 H2. exact (says_silent k d d1 d2 H2 H1). Qed.

Lemma says_on_store {A} k d d1 (m : SM world A) r d2 : on_store m d1 = (r, d2) -> says k d d1 -> says k d d2.
Proof. unfold on_store. intros H. destruct (m (d_world d1)) as [r' w]. injection H as <- <-. apply says_same. by split. Qed.

Lemma says_on_store2 {A} k d d1 (m : SM world A) : says k d d1 -> says k d (on_store m d1).2.
Proof. destruct (on_store m d1) as [r d2] eqn:E1. exact (says_on_store k d d1 m r d2 E1). Qed.

Lemma says_if k d (b : bool) d1 d2 : says k d d1 -> says k d d2 -> says k d (if b then d1 else d2).
Proof. by destruct b. Qed.

Lemma says_fold {A} k d (f : device L -> A -> device L) l : (forall x d1, says k d d1 -> says k d (f d1 x)) ->
  forall d1, says k d d1 -> says k d (fold_left f l d1).
Proof. intros Hf. induction l as [|x l IH]; intros d1 H; [done|]. apply IH, Hf, H. Qed.
End says.

(** Walk back over the updates that do not touch the link. *)
Ltac says_tac := repeat
  lazymatch goal with
  | |- says _ _ ?d ?d => apply says_refl
  | |- says _ ?k ?d (upd_eng _ ?d1) => apply (says_same _ k d d1); [split; reflexivity|]
  | |- says _ ?k ?d (upd_evt _ ?d1) => apply (says_same _ k d d1); [split; reflexivity|]
  | |- says _ ?k ?d (upd_live _ ?d1) => apply (says_same _ k d d1); [split; reflexivity|]
  | |- says _ ?k ?d (upd_audio _ ?d1) => apply (says_same _ k d d1); [split; reflexivity|]
  | |- says _ ?k ?d (upd_net _ ?d1) => apply (says_same _ k d d1); [split; reflexivity|]
  | |- says _ ?k ?d (set_world _ ?d1) => apply (says_same _ k d d1); [split; reflexivity|]
  | |- says _ ?k ?d (set_meters _ ?d1) => apply (says_same _ k d d1); [split; reflexivity|]
  | |- says _ ?k ?d (set_buckets _ _ ?d1) => apply (says_same _ k d d1); [split; reflexivity|]
  | |- says _ ?k ?d (set_rec _ ?d1) => apply (says_same _ k d d1); [split; reflexivity|]
  | |- says _ ?k ?d (set_exited ?d1) => apply (says_same _ k d d1); [split; reflexivity|]
  | |- says _ ?k ?d (ctr_inc _ ?d1) => apply (says_same _ k d d1); [split; reflexivity|]
  | |- says _ ?k ?d (devlog _ _ _ ?d1) => apply (says_same _ k d d1); [split; reflexivity|]
  | |- says _ ?k ?d (set_rl_snapshot _ ?d1) => apply (says_same _ k d d1); [split; reflexivity|]
  | |- says _ ?k ?d (set_rl_bundle _ ?d1) => apply (says_same _ k d d1); [split; reflexivity|]
  | H : on_store ?m ?d1 = (?r, ?d2) |- says _ ?k ?d ?d2 => apply (says_on_store _ k d d1 m r d2 H)
  | |- says _ ?k ?d (on_store ?m ?d1).2 => apply says_on_store2
  | |- says _ _ _ (if _ then _ else _) => apply says_if
  | H : says _ ?k ?d ?d1 |- says _ ?k ?d ?d1 => exact H
  end.

(** ** The pieces *)

Section pieces.
Context {L : Type} {ML : MsgLink L} {E : DevEnv} {R : Realloc} {Q : Qsort} {O' : OS} {F : Faults} {FC : FpConv} {CT : CFloatText}
  (conf : dev_conf) (HR : realloc_total R) (Hlink : forall strm data l, (msg_send strm data l).1 = true) (e : harp_env).
Implicit Types d : device L.
#[local] Notation says := (says e).

Lemma says_other k d d1 strm data : strm <> HARP_STREAM_CTL -> says k d d1 -> says k d (link_send strm data d1).2.
Proof.
  intros Hs H. pose proof (says_trans e _ _ _ _ _ H (says_link Hlink e strm data d1)) as H2.
  rewrite (answers_other e strm data Hs), Nat.add_0_r in H2. exact H2.
Qed.

Lemma says_echo k d d1 id v c : says k d d1 -> says k d (evt_echo_param id v c d1).
Proof. intros H. unfold evt_echo_param. apply says_if; [exact H|]. by apply says_other. Qed.

Lemma says_core_changed k d d1 t : says k d d1 -> says k d (ntf_core_changed t d1).
Proof.
  intros H. unfold ntf_core_changed. apply says_if; [exact H|]. apply (says_ntf HR Hlink e k d d1 (str "core.changed")); [exact H|]. ext_tac.
Qed.

Lemma says_state_changed k d d1 r : says k d d1 -> says k d (ntf_state_changed r d1).
Proof.
  intros H. unfold ntf_state_changed. apply says_if; [exact H|]. apply (says_ntf HR Hlink e k d d1 (str "state.changed")); [exact H|].
  unfold enc_state_changed. cbv zeta. ext_tac.
Qed.

Lemma says_grant k d d1 : says k d d1 -> says k d (grant_credit d1).
Proof.
  intros H. unfold grant_credit. cbv zeta. says_tac.
  apply (says_ntf HR Hlink e k d d1 (str "core.credit")); [exact H|]. ext_tac.
Qed.

Lemma says_flush_loop k d fuel : forall enc d1, says k d d1 -> says k d (flush_loop conf fuel enc d1).
Proof.
  induction fuel as [|fuel IH]; intros enc d1 H; [exact H|]. cbn [flush_loop]. apply says_if; [exact H|].
  match goal with |- context [on_store ?m d1] => destruct (on_store m d1) as [[[[] enc2]|] d2] eqn:E1 end; [|apply IH; says_tac|says_tac].
  apply says_if; [says_tac|].
  assert (H3 : says k d (link_send HARP_STREAM_OBJ (cb_buf enc2) d2).2) by (apply says_other; [discriminate|says_tac]).
  destruct (link_send HARP_STREAM_OBJ (cb_buf enc2) d2) as [ok d3]. cbn [snd] in H3. apply says_if; [exact H3|apply IH; says_tac].
Qed.

Lemma says_sendq_flush k d d1 : says k d d1 -> says k d (sendq_flush conf d1).
Proof. apply says_flush_loop. Qed.

Lemma says_sendq_push k d d1 h : says k d d1 -> says k d (sendq_push h d1).
Proof. intros H. unfold sendq_push. cbv zeta. apply says_if; says_tac. Qed.

(** *** The live ref *)

(** A computation that answers nothing. *)
Definition quiet {A} (m : SM (device L) A) : Prop := forall k d d1, says k d d1 -> says k d (m d1).2.

Lemma quiet_bind {A B} (m : SM (device L) A) (f : A -> SM (device L) B) : quiet m -> (forall a, quiet (f a)) -> quiet (m ≫= f).
Proof.
  intros Hm Hf k d d1 H. unfold mbind, SM_bind. pose proof (Hm k d d1 H) as H2. destruct (m d1) as [[a|] d2]; [|exact H2]. exact (Hf a k d d2 H2).
Qed.
Lemma quiet_ret {A} (a : A) : quiet (mret a).
Proof. by intros k d d1 H. Qed.
Lemma quiet_fail {A} : quiet (@sm_fail (device L) A).
Proof. by intros k d d1 H. Qed.
Lemma quiet_get : quiet sm_get.
Proof. by intros k d d1 H. Qed.
Lemma quiet_guard b : quiet (sm_guard b).
Proof. destruct b; intros k d d1 H; exact H. Qed.
Lemma quiet_modify f : (forall k d d1, says k d d1 -> says k d (f d1)) -> quiet (sm_modify f).
Proof. intros Hf k d d1 H. exact (Hf k d d1 H). Qed.
Lemma quiet_on_store {A} (m : SM world A) : quiet (on_store m).
Proof. intros k d d1. apply says_on_store2. Qed.

Lemma quiet_now_ms : quiet now_ms.
Proof. do 2 (apply quiet_bind; [|intros; apply quiet_ret]). apply quiet_on_store. Qed.

Lemma quiet_live_load : quiet (live_load conf).
Proof.
  apply quiet_bind; [apply quiet_get|]. intros d0. destruct (lv_valid _); [apply quiet_ret|].
  apply quiet_bind; [apply quiet_on_store|]. intros r. apply quiet_modify. intros. says_tac.
Qed.

Lemma says_touch k d d1 dirty : says k d d1 -> says k d (live_ref_touch conf dirty d1).
Proof.
  intros H. unfold live_ref_touch. pose proof (quiet_live_load k d d1 H) as H2. destruct (live_load conf d1) as [[u|] d2]; [|exact H2]. cbn [snd] in H2. cbv zeta.
  match goal with |- context [now_ms ?x] => set (d3 := x); assert (says k d d3) as H3 end.
  { apply says_if; [unfold write_ref|]; says_tac. }
  pose proof (quiet_now_ms k d d3 H3) as H4. destruct (now_ms d3) as [[now|] d4]; [|exact H4]. cbn [snd] in H4.
  apply says_if; [apply says_state_changed|]; says_tac.
Qed.

Lemma says_cache_flush k d d1 : says k d d1 -> says k d (live_cache_flush conf d1).
Proof. intros H. unfold live_cache_flush. apply says_if; [says_tac; unfold write_ref|]; says_tac. Qed.

Lemma says_front_panel k d d1 id v : says k d d1 -> says k d (front_panel_set conf id v d1).2.
Proof.
  intros H. unfold front_panel_set, front_panel_set_part. cbv zeta. case_cond; [exact H|]. destruct (param_index g_params id); [|exact H].
  cbn [snd]. apply says_echo, says_touch. says_tac.
Qed.

(** *** Snapshots *)

Lemma quiet_put_object enc : quiet (put_object conf enc).
Proof. apply quiet_bind; [apply quiet_on_store|intros; apply quiet_ret]. Qed.

Lemma quiet_snapshot_objects parent msg : quiet (engine_snapshot_objects conf parent msg).
Proof.
  apply quiet_bind; [apply quiet_get|intros d0]. cbv zeta. apply quiet_bind; [apply quiet_put_object|intros h1].
  apply quiet_bind; [apply quiet_put_object|intros h2].
  apply quiet_bind; [|intros; apply quiet_put_object]. apply quiet_bind; [apply quiet_on_store|intros; apply quiet_ret].
Qed.

Lemma quiet_do_snapshot msg : quiet (do_snapshot conf msg).
Proof.
  apply quiet_bind; [apply quiet_modify; intros; by apply says_cache_flush|intros _]. apply quiet_bind; [apply quiet_on_store|intros r].
  apply quiet_bind; [apply quiet_snapshot_objects|intros snap]. cbv zeta. apply quiet_bind; [apply quiet_on_store|intros _].
  apply quiet_bind; [apply quiet_modify; intros; says_tac|intros _].
  apply quiet_bind; [apply quiet_modify; intros; by apply says_state_changed|intros _]. apply quiet_ret.
Qed.

Lemma quiet_get_object h : quiet (get_object conf h).
Proof. apply quiet_bind; [apply quiet_on_store|intros r]. apply quiet_bind; [apply quiet_guard|intros _; apply quiet_ret]. Qed.

Lemma quiet_load h : quiet (engine_load_snapshot conf h).
Proof.
  apply quiet_bind; [apply quiet_get_object|intros enc]. destruct (harp_obj_parse_snapshot_root enc) as [root|]; [|apply quiet_fail].
  apply quiet_bind; [apply quiet_get_object|intros tree_enc]. apply quiet_bind; [apply quiet_get|intros d0].
  destruct (harp_obj_tree_foreach _ _ _) as [walked [w c]]. apply quiet_bind; [apply quiet_modify; intros; says_tac|intros _].
  apply quiet_bind; [apply quiet_guard|intros _]. apply quiet_modify. intros; says_tac.
Qed.

Lemma quiet_closure h : quiet (closure_complete conf h).
Proof. intros k d d1 H. unfold closure_complete. destruct (closure_walk _ _ _ _) as [w c]. cbn [snd]. says_tac. Qed.
End pieces.

(** ** The handlers *)

Section handlers.
Context {L : Type} {ML : MsgLink L} {E : DevEnv} {R : Realloc} {Q : Qsort} {O' : OS} {F : Faults} {FC : FpConv} {CT : CFloatText}
  (conf : dev_conf) (HR : realloc_total R) (Hlink : forall strm data l, (msg_send strm data l).1 = true) (e : harp_env).
Implicit Types d : device L.
#[local] Notation says := (says e).
#[local] Notation says_ok := (says_respond Hlink e).
#[local] Notation says_empty := (says_respond_empty Hlink e).
#[local] Notation says_err := (says_fail Hlink e).

Definition answered (h : handler L) : Prop := forall d, says 1 d (h e d).

Lemma says_pump_stop k d d1 : says k d d1 -> says k d (meter_pump_stop d1).
Proof. intros H. unfold meter_pump_stop. apply says_if; says_tac. Qed.
Lemma says_pump_start k d d1 : says k d d1 -> says k d (meter_pump_start d1).
Proof. intros H. unfold meter_pump_start, ask. cbv zeta. apply says_if; [says_tac|]. apply says_if; says_tac. Qed.
Lemma says_audio_stop k d d1 : says k d d1 -> says k d (audio_stop d1).
Proof. intros H. unfold audio_stop. cbv zeta. apply says_if; [by apply says_pump_stop|]. says_tac. by apply says_pump_stop. Qed.
Lemma says_session_reset k d d1 : says k d d1 -> says k d (session_reset d1).
Proof. intros H. unfold session_reset, txn_clear. cbv zeta. says_tac. Qed.

Lemma answered_hello : answered (handle_hello conf).
Proof.
  intros d. unfold handle_hello. cbv zeta. apply says_if.
  - apply says_details; [exact Hlink|says_tac|]. intros b. unfold enc_major_range. ext_tac.
  - apply says_grant; [exact HR|exact Hlink|]. apply says_ok.
    + apply says_session_reset. says_tac. apply says_audio_stop. says_tac.
    + intros b. unfold enc_hello. cbv zeta. apply ext_identity. ext_tac.
Qed.

Lemma answered_identify : answered (handle_identify conf).
Proof. intros d. apply says_ok; [says_tac|]. intros b. apply ext_identity. ext_tac. Qed.
Lemma answered_ping : answered handle_ping.
Proof. intros d. unfold handle_ping. apply says_if; [apply says_ok; [says_tac|intros b; ext_tac]|apply says_empty; says_tac]. Qed.
Lemma answered_bye : answered handle_bye.
Proof. intros d. unfold handle_bye. says_tac. apply says_empty. says_tac. Qed.
Lemma answered_time_ping : answered handle_time_ping.
Proof. intros d. unfold handle_time_ping, ask. apply says_ok; [says_tac|]. intros b. cbv zeta. ext_tac. Qed.
Lemma answered_notify_changed : answered handle_notify_changed.
Proof. intros d. apply says_empty, says_core_changed; [exact HR|exact Hlink|says_tac]. Qed.
Lemma answered_restart : answered handle_restart.
Proof. intros d. unfold handle_restart. cbv zeta. says_tac. apply says_audio_stop. says_tac. apply says_empty. says_tac. Qed.

(** *** Audio *)

Lemma answered_start_stream r fd k d1 : says 0 k d1 -> says 1 k (start_stream conf e r fd d1).
Proof.
  intros H. unfold start_stream, ask. cbv zeta.
  match goal with |- context [upd_audio (stream_opened r fd ?ep) ?x] => set (d2 := x); assert (H2 : says 0 k d2) end.
  { apply says_if; [|unfold txn_clear, evq_reset_for_new_stream; says_tac].
    apply (says_ntf HR Hlink e 0 k _ (str "time.epoch")); [unfold txn_clear, evq_reset_for_new_stream; says_tac|].
    unfold enc_epoch. cbv zeta. ext_tac. }
  clearbody d2. apply says_if; [apply says_err; says_tac|].
  apply says_ok; [|intros b; ext_tac]. unfold log_started. cbv zeta. says_tac. apply says_pump_start. says_tac.
Qed.

Lemma answered_audio_start : answered (handle_audio_start conf).
Proof.
  intros d. unfold handle_audio_start, ask. cbv zeta. destruct (start_refused _); [apply says_err; says_tac|].
  apply says_if; [apply says_err; says_tac|]. apply says_if; [apply answered_start_stream; says_tac|].
  apply says_if; [apply says_err|apply answered_start_stream]; says_tac.
Qed.

Lemma answered_audio_stop : answered handle_audio_stop.
Proof. intros d. unfold handle_audio_stop, txn_clear. apply says_empty. says_tac. apply says_audio_stop. says_tac. Qed.

(** The one request that is not answered. *)
Lemma says_audio_trim d : says 0 d (handle_audio_trim e d).
Proof. unfold handle_audio_trim. apply says_if; [says_tac|]. destruct (harp_cdec_map _) as [[n|] c]; says_tac. Qed.

Lemma answered_loopback_start : answered handle_diag_loopback_start.
Proof.
  intros d. unfold handle_diag_loopback_start. cbv zeta. do 3 (apply says_if; [apply says_err; says_tac|]).
  apply says_ok; [says_tac|]. intros b. ext_tac.
Qed.
Lemma answered_loopback_stop : answered handle_diag_loopback_stop.
Proof. intros d. apply says_ok; [says_tac|]. intros b. ext_tac. Qed.

(** *** State *)

Lemma says_shed d get set : (forall b d1, silent d1 (set b d1)) ->
  says (if (expensive_op_shed e get set d).1 then 1 else 0) d (expensive_op_shed e get set d).2.
Proof.
  intros Hset. unfold expensive_op_shed, ask. cbv zeta. destruct (harp_op_admit _ _ _ _) as [ok b].
  assert (H : says 0 d (set b (set_world (tick (d_world d)).2 d))) by (apply (says_same e 0 d _ _ (Hset b _)); says_tac).
  destruct ok; cbn [fst snd]; [exact H|]. apply says_err. says_tac.
Qed.

Lemma says_run_prune k d d1 pre : says k d d1 -> says k d (run_prune conf pre d1).2.
Proof. intros H. unfold run_prune. destruct (on_store _ d1) as [[n|] d2] eqn:E1; cbn [snd]; says_tac. Qed.
Lemma says_run_gc k d d1 n : says k d d1 -> says k d (run_gc conf n d1).2.
Proof. intros H. unfold run_gc, ask. cbv zeta. destruct (harp_store_gc _ _ _ _) as [r w]. cbn [snd]. says_tac. Qed.
Lemma says_log_gc k d d1 pre n r : says k d d1 -> says k d (log_gc pre n r d1).
Proof. intros H. unfold log_gc. cbv zeta. destruct r; says_tac. Qed.

Lemma says_maybe_gc k d d1 name : says k d d1 -> says k d (maybe_gc conf name d1).
Proof.
  intros H. unfold maybe_gc. assert (forall pre, says k d
    (let '(pruned, d) := run_prune conf pre d1 in
    let n := u64 (lv_archives (d_live d) + 1) in
    let d := upd_live (set_archives n) d in
    if HARP_GC_INTERVAL <=? n then
      let d := upd_live (set_archives 0) d in let '(r, d) := run_gc conf HARP_GC_MAX_SWEEP d in
      match r with GcHung => set_exited d | _ => log_gc pre pruned r d end
    else d)) as Hgo.
  { intros pre. pose proof (says_run_prune k d d1 pre H) as H2. destruct (run_prune conf pre d1) as [pruned d2]. cbn [snd] in H2. cbv zeta. apply says_if; [|says_tac].
    match goal with |- context [run_gc conf ?m ?x] => pose proof (says_run_gc k d x m ltac:(says_tac)) as H3; destruct (run_gc conf m x) as [r d3] end.
    cbn [snd] in H3. destruct r; [by apply says_log_gc..|]. says_tac. }
  apply says_if; [apply Hgo|]. by apply says_if.
Qed.

(** The collection of [x.harp-refdev.gc] did not return: with the store's disk in
    order, the listing that sizes its table failed and the store holds at least
    sixteen reachable objects. *)
Definition gc_stuck : Prop := exists w,
  (harp_store_gc (c_store conf) 0 true w).1 = GcHung /\
  (gc_disk (c_store conf) (w_fs w) -> os_opendir (w_clock w) = false /\ crowded (c_store conf) (w_fs w) 16).

Lemma run_gc_stuck d d1 : run_gc conf 0 d = (GcHung, d1) -> gc_stuck.
Proof.
  unfold run_gc. destruct (ask env_calloc d) as [[] d2].
  2:{ assert ((harp_store_gc (c_store conf) 0 false (d_world d2)).1 = GcFail) as Hno.
      { unfold harp_store_gc. by destruct (harp_store_obj_count _ _). }
      destruct (harp_store_gc (c_store conf) 0 false (d_world d2)) as [r w]. cbn in Hno. subst r. by intros [=]. }
  intros H. exists (d_world d2). destruct (harp_store_gc (c_store conf) 0 true (d_world d2)) as [r w'] eqn:Eg.
  injection H as -> _. split; [done|].
  intros Hd. pose proof (gc_spec (c_store conf) (d_world d2) Hd 0) as Hs. by rewrite Eg in Hs.
Qed.

(** The collection is answered, unless it does not return. *)
Lemma answered_dev_gc d : says 1 d (handle_dev_gc conf e d) \/
  says 0 d (handle_dev_gc conf e d) /\ d_exited (handle_dev_gc conf e d) = true /\ gc_stuck.
Proof.
  unfold handle_dev_gc.
  pose proof (says_run_prune 0 d d s_archive (says_refl e d)) as H1. destruct (run_prune conf s_archive d) as [n1 d1]. cbn [snd] in H1.
  pose proof (says_run_prune 0 d d1 s_duplicate H1) as H2. destruct (run_prune conf s_duplicate d1) as [n2 d2]. cbn [snd] in H2.
  pose proof (says_run_gc 0 d d2 0 H2) as H3. pose proof (run_gc_stuck d2) as Hst.
  destruct (run_gc conf 0 d2) as [r d3]. cbn [snd] in H3. cbv zeta.
  destruct r; [left..|right; split; [says_tac|split; [done|by apply (Hst d3)]]];
    (destruct (harp_store_obj_count _ _) as [n w]; apply says_ok; [says_tac|]; intros b; ext_tac).
Qed.

Lemma answered_refs : answered (handle_state_refs conf).
Proof.
  intros d. unfold handle_state_refs. cbv zeta.
  assert (H0 : says 0 d (live_cache_flush conf d)) by (apply says_cache_flush; says_tac).
  apply says_if.
  - destruct (on_store _ (live_cache_flush conf d)) as [[r|] d2] eqn:E1; (apply says_ok; [says_tac|intros b]).
    + apply ext_if; [ext_tac|]. apply ext_ref_encode. ext_tac.
    + ext_tac.
  - destruct (harp_store_ref_list _ _ _) as [r [w [items count]]]. apply says_ok; [says_tac|]. intros b. ext_tac.
Qed.

Lemma answered_snapshot : answered (handle_state_snapshot conf).
Proof.
  intros d. unfold handle_state_snapshot. pose proof (says_shed d d_rl_snapshot set_rl_snapshot (fun b d1 => conj eq_refl eq_refl)) as H1.
  destruct (expensive_op_shed e d_rl_snapshot set_rl_snapshot d) as [[] d1]; cbn [fst snd] in H1; [exact H1|].
  destruct (body_parse _ _ _) as [refname msg]. apply says_if; [apply says_err; exact H1|].
  match goal with |- context [do_snapshot conf ?m d1] => pose proof (quiet_do_snapshot conf HR Hlink e m 0%nat d d1 H1) as H2; destruct (do_snapshot conf m d1) as [[[snap gen]|] d2] end;
    cbn [snd] in H2; [|apply says_err; exact H2].
  apply says_ok; [exact H2|]. intros b. ext_tac.
Qed.

(** *** Objects *)

(** A parser whose target only takes quiet steps. *)
Definition tgt_keeps {T A} (P : T -> Prop) (m : parser T A) : Prop := forall c t, P t -> P (m (c, t)).2.2.

Lemma tgt_keeps_bind {T A B} (P : T -> Prop) (m : parser T A) (f : A -> parser T B) : tgt_keeps P m -> (forall a, tgt_keeps P (f a)) -> tgt_keeps P (m ≫= f).
Proof.
  intros Hm Hf c t H. unfold mbind, SM_bind. pose proof (Hm c t H) as H2. destruct (m (c, t)) as [[a|] [c2 t2]]; [|exact H2]. exact (Hf a c2 t2 H2).
Qed.
Lemma tgt_keeps_fst {T A} (P : T -> Prop) (m : SM cdec A) : tgt_keeps P (on_fst m).
Proof. intros c t H. unfold on_fst. cbn [fst snd]. by destruct (m c). Qed.
Lemma tgt_keeps_snd {T} (P : T -> Prop) (f : T -> T) : (forall t, P t -> P (f t)) -> tgt_keeps P (on_snd (sm_modify f)).
Proof. intros Hf c t H. exact (Hf t H). Qed.
Lemma tgt_keeps_guard {T} (P : T -> Prop) b : tgt_keeps P (sm_guard b).
Proof. destruct b; intros c t H; exact H. Qed.
Lemma tgt_keeps_ret {T A} (P : T -> Prop) (a : A) : tgt_keeps P (mret a).
Proof. intros c t H. exact H. Qed.
Lemma tgt_keeps_each_hash {T} (P : T -> Prop) body : (forall h t, P t -> P (body h t)) -> tgt_keeps P (each_hash body).
Proof.
  intros Hb. unfold each_hash, first_key. apply tgt_keeps_bind; [apply tgt_keeps_fst|intros n]. apply tgt_keeps_bind; [apply tgt_keeps_guard|intros _].
  apply tgt_keeps_bind; [apply tgt_keeps_fst|intros k]. apply tgt_keeps_bind; [apply tgt_keeps_guard|intros _]. apply tgt_keeps_bind; [apply tgt_keeps_fst|intros alen].
  intros c t H. apply (sm_for_inv_all (fun ct => P ct.2)); [|exact H]. intros [c' t'] H'.
  exact (tgt_keeps_bind P _ _ (tgt_keeps_fst P _) (fun h => tgt_keeps_snd P _ (Hb h)) c' t' H').
Qed.

Lemma tgt_keeps_body {T} (P : T -> Prop) (m : parser T unit) t : tgt_keeps P m -> P t -> P (body_parse m e t).
Proof. intros Hm H. unfold body_parse. destruct (e_has_body e); [by apply Hm|exact H]. Qed.

Lemma says_store_have k d d1 h : says k d d1 -> says k d (store_have conf h d1).2.
Proof. intros H. unfold store_have. destruct (on_store _ d1) as [[b|] d2] eqn:E1; cbn [snd]; says_tac. Qed.

Lemma answered_have : answered (handle_state_have conf).
Proof.
  intros d. unfold handle_state_have. cbv zeta.
  match goal with |- context [body_parse ?m e ?t] => pose proof (tgt_keeps_body (fun x => says 0 d x.1) m t) as H; destruct (body_parse m e t) as [d1 [bools count]] end.
  apply says_ok; [|intros b; ext_tac]. apply H; [|apply says_refl].
  apply tgt_keeps_each_hash. intros h [d2 [bs c]] H2. cbn [fst] in *. pose proof (says_store_have 0 d d2 h H2) as H3. by destruct (store_have conf h d2).
Qed.

Lemma answered_want : answered (handle_state_want conf).
Proof.
  intros d. unfold handle_state_want.
  match goal with |- context [body_parse ?m e ?t] => pose proof (tgt_keeps_body (fun x => says 0 d x.1) m t) as H; destruct (body_parse m e t) as [d1 queue] end.
  cbv zeta. apply says_sendq_flush; [exact Hlink|]. apply says_fold; [intros h d2 H2; by apply says_sendq_push|].
  apply says_ok; [|intros b; ext_tac]. apply H; [|apply says_refl].
  apply tgt_keeps_each_hash. intros h [d2 qu] H2. unfold want_one. cbn [fst] in *. case_cond; [|exact H2].
  pose proof (says_store_have 0 d d2 h H2) as H3. by destruct (store_have conf h d2).
Qed.

Lemma answered_send : answered handle_state_send.
Proof. intros d. unfold handle_state_send, ask. cbv zeta. apply says_if; [apply says_err|apply says_empty]; says_tac. Qed.

(** *** The ref update *)

Lemma answered_commit d d1 name r h : says 0 d d1 -> says 1 d (refset_commit conf e name r h d1).
Proof.
  intros H. unfold refset_commit. cbv zeta. destruct (on_store _ d1) as [[u|] d2] eqn:E1; [|apply says_err; says_tac].
  apply says_maybe_gc, says_state_changed; [exact HR|exact Hlink|]. apply says_ok; [says_tac|]. intros b. ext_tac.
Qed.

Lemma says_engine_check k d d1 h : says k d d1 -> says k d (engine_check conf h d1).2.
Proof.
  intros H. unfold engine_check. destruct (on_store _ d1) as [o d2] eqn:E1. cbv zeta.
  destruct (match o with Some (true, se) => _ | _ => None end); cbn [snd]; says_tac.
Qed.

Lemma answered_activate d d1 q h : says 0 d d1 ->
  match activate conf e q h d1 with inl d2 => says 0 d d2 | inr d2 => says 1 d d2 end.
Proof.
  intros H. unfold activate.
  assert (H2 : says 0 d (if rq_consent q then (None, d1) else engine_check conf h d1).2) by (destruct (rq_consent q); [exact H|by apply says_engine_check]).
  destruct (if rq_consent q then _ else _) as [[v|] d2]; cbn [snd] in H2.
  - unfold fail_engine. cbv zeta. apply says_details; [exact Hlink|exact H2|]. intros b. ext_tac.
  - pose proof (quiet_load conf e h 0%nat d d2 H2) as H3. destruct (engine_load_snapshot conf h d2) as [[u|] d3]; cbn [snd] in H3; [exact H3|by apply says_err].
Qed.

Lemma answered_refset : answered (handle_state_refset conf).
Proof.
  intros d. unfold handle_state_refset. cbv zeta. destruct (rq_new (parse_refset e)) as [h|]; [|apply says_err; says_tac].
  apply says_if; [apply says_err; says_tac|].
  set (d1 := if streq (rq_name (parse_refset e)) LIVE_REF then live_cache_flush conf d else d).
  assert (H1 : says 0 d d1) by (apply says_if; [apply says_cache_flush|]; says_tac).
  destruct (on_store _ d1) as [[r|] d2] eqn:E1; [|apply says_err; says_tac].
  assert (H2 : says 0 d d2) by says_tac. apply says_if.
  { apply says_details; [exact Hlink|exact H2|]. intros b. unfold enc_conflict. cbv zeta. ext_tac. }
  pose proof (quiet_closure conf e h 0%nat d d2 H2) as H3. destruct (closure_complete conf h d2) as [[[]|] d3]; cbn [snd] in H3; [|by apply says_err..].
  destruct (streq _ LIVE_REF); [|by apply answered_commit].
  pose proof (answered_activate d d3 (parse_refset e) h H3) as H4. destruct (activate _ _ _ _ _) as [d4|d4]; [by apply answered_commit|exact H4].
Qed.
(** *** Events and diagnostics *)

Lemma answered_params : answered handle_evt_params.
Proof. intros d. apply says_ok; [says_tac|]. intros b. cbv zeta. apply ext_kuint, ext_kuint, ext_param_array. ext_tac. Qed.

Lemma answered_format : answered handle_evt_format.
Proof.
  intros d. unfold handle_evt_format. destruct (body_parse _ _ _) as [id val]. destruct (param_index g_params (u32 id)); [|apply says_err; says_tac].
  apply says_ok; [says_tac|]. intros b. ext_tac.
Qed.

Lemma answered_parse : answered handle_evt_parse.
Proof.
  intros d. unfold handle_evt_parse. destruct (body_parse _ _ _) as [id s]. destruct (param_index g_params (u32 id)); [|apply says_err; says_tac].
  destruct (parse_value _ _); [|apply says_err; says_tac]. apply says_ok; [says_tac|]. intros b. ext_tac.
Qed.

Lemma answered_knob : answered (handle_knob conf).
Proof.
  intros d. unfold handle_knob. destruct (body_parse _ _ _) as [[id v]|]; [|apply says_err; says_tac].
  pose proof (says_front_panel conf HR Hlink e 0%nat d d (u32 id) v (says_refl e d)) as H. destruct (front_panel_set conf (u32 id) v d) as [ok d1]; cbn [snd] in H.
  apply says_if; [by apply says_err|by apply says_empty].
Qed.

Lemma answered_counters : answered handle_diag_counters.
Proof. intros d. unfold handle_diag_counters, ask. cbv zeta. apply says_ok; [says_tac|]. intros b. apply ext_counters. ext_tac. Qed.

Lemma answered_bundle : answered (handle_diag_bundle conf).
Proof.
  intros d. unfold handle_diag_bundle, ask. pose proof (says_shed d d_rl_bundle set_rl_bundle (fun b d1 => conj eq_refl eq_refl)) as H1.
  destruct (expensive_op_shed e d_rl_bundle set_rl_bundle d) as [[] d1]; cbn [fst snd] in H1; [exact H1|]. cbv zeta.
  apply says_ok; [says_tac|]. intros b. apply ext_log, ext_uint, ext_counters, ext_uint, ext_identity. ext_tac.
Qed.

Lemma answered_dev_params : answered handle_dev_params.
Proof. intros d. apply says_ok; [says_tac|]. intros b. cbv zeta. ext_tac. Qed.
Lemma answered_dev_meters : answered handle_dev_meters.
Proof. intros d. apply says_ok; [says_tac|]. intros b. cbv zeta. ext_tac. Qed.
Lemma answered_dev_txn : answered handle_dev_txn.
Proof. intros d. apply says_ok; [says_tac|]. intros b. ext_tac. Qed.

Lemma answered_offer : answered handle_reconcile_offer.
Proof.
  intros d. unfold handle_reconcile_offer. destruct (body_parse _ _ _) as [[[expect live] dirty]|]; [|apply says_err; says_tac].
  apply says_empty. unfold reconcile_post_offer. says_tac.
Qed.
Lemma answered_poll : answered handle_reconcile_poll.
Proof. intros d. apply says_ok; [says_tac|]. intros b. ext_tac. Qed.

(** ** Dispatch *)

Definition s_trim : list Z := str "audio.trim".

Definition s_gc : list Z := str "x.harp-refdev.gc".

(** Every entry of the table answers, but for [audio.trim] and for a collection
    that does not return. *)
Definition entry_ok (mh : list Z * handler L) : Prop :=
  if streq mh.1 s_trim then forall d, says 0 d (mh.2 e d)
  else if streq mh.1 s_gc then forall d, says 1 d (mh.2 e d) \/ says 0 d (mh.2 e d) /\ d_exited (mh.2 e d) = true /\ gc_stuck
  else answered mh.2.

Lemma handlers_answer : Forall entry_ok (CTL_HANDLERS conf).
Proof.
  unfold CTL_HANDLERS. repeat (apply List.Forall_cons; [|]); [..|apply List.Forall_nil].
  all: unfold entry_ok; cbn [fst snd].
  all: repeat match goal with |- if ?b then _ else _ => let v := eval vm_compute in b in change b with v; cbv iota end.
  - apply answered_hello.
  - apply answered_identify.
  - apply answered_ping.
  - apply answered_bye.
  - apply answered_time_ping.
  - apply answered_refs.
  - apply answered_snapshot.
  - apply answered_have.
  - apply answered_want.
  - apply answered_send.
  - apply answered_refset.
  - apply answered_params.
  - apply answered_format.
  - apply answered_parse.
  - apply answered_audio_start.
  - apply answered_audio_stop.
  - apply says_audio_trim.
  - apply answered_counters.
  - apply answered_bundle.
  - apply answered_loopback_start.
  - apply answered_loopback_stop.
  - apply answered_knob.
  - apply answered_offer.
  - apply answered_poll.
  - apply answered_dev_params.
  - apply answered_dev_meters.
  - apply answered_dev_txn.
  - apply answered_dev_gc.
  - apply answered_notify_changed.
  - apply answered_restart.
Qed.
End handlers.

Section answering.
Context {L : Type} {ML : MsgLink L} {E : DevEnv} {R : Realloc} {Q : Qsort} {O' : OS} {F : Faults} {FC : FpConv} {CT : CFloatText}
  (conf : dev_conf).
Implicit Types d : device L.

Lemma find_handler_in (P : list Z * handler L -> Prop) name l h :
  Forall P l -> find_handler name l = Some h -> exists m, streq name m = true /\ P (m, h).
Proof.
  induction 1 as [|[m h'] l H _ IH]; cbn [find_handler]; [done|]. destruct (streq name m) eqn:Hm; [|exact IH]. intros [= <-]. by exists m.
Qed.

(** How many answers a message gets. *)
Definition due (e : harp_env) (n : nat) : Prop :=
  (n <= 1)%nat /\ (e_msgtype e = HARP_MSG_REQUEST -> method_of e <> s_trim -> n = 1%nat) /\ (e_msgtype e <> HARP_MSG_REQUEST -> n = O).

(** The one request that may go without: a collection that does not return. *)
Definition unanswered (e : harp_env) d : Prop :=
  e_msgtype e = HARP_MSG_REQUEST /\ method_of e = s_gc /\ d_exited d = true /\ gc_stuck conf.

Lemma dispatch_due (HR : realloc_total R) (Hlink : forall strm data l, (msg_send strm data l).1 = true) e d :
  exists n, says e n d (dispatch conf e d) /\ (due e n \/ n = O /\ unanswered e (dispatch conf e d)).
Proof.
  unfold dispatch. destruct (Z.eqb_spec (e_msgtype e) HARP_MSG_NOTIFICATION) as [Hn|Hn].
  { exists O. split; [|left; split; [lia|split; [rewrite Hn; discriminate|done]]]. apply says_if; [|apply says_refl].
    unfold handle_credit. destruct (body_parse _ _ _); [apply says_sendq_flush; [exact Hlink|]|]; says_tac. }
  destruct (Z.eqb_spec (e_msgtype e) HARP_MSG_REQUEST) as [Hq|Hq]; cbn [negb].
  2:{ exists O. split; [apply says_refl|left; split; [lia|done]]. }
  assert (D1 : due e 1) by (split; [lia|split; done]). destruct (_ && _).
  { exists 1%nat. split; [|by left]. apply says_fail; [exact Hlink|apply says_refl]. }
  destruct (find_handler _ _) as [h|] eqn:Hf.
  2:{ exists 1%nat. split; [|by left]. apply says_fail; [exact Hlink|apply says_refl]. }
  destruct (find_handler_in _ _ _ _ (handlers_answer conf HR Hlink e) Hf) as (m & Hm & Ha). unfold streq in Hm. apply bool_decide_eq_true in Hm.
  unfold entry_ok in Ha. cbn [fst snd] in Ha. destruct (streq m s_trim) eqn:Ht.
  { exists O. split; [apply Ha|]. left. split; [lia|]. split; [|done]. intros _ Hne. exfalso. apply Hne. rewrite Hm.
    unfold streq in Ht. by apply bool_decide_eq_true in Ht. }
  destruct (streq m s_gc) eqn:Hg; [|exists 1%nat; split; [apply Ha|by left]].
  unfold streq in Hg. apply bool_decide_eq_true in Hg. destruct (Ha d) as [Hs|(Hs & Hx & Hst)].
  - exists 1%nat. split; [exact Hs|by left].
  - exists O. split; [exact Hs|]. right. split; [done|]. split; [exact Hq|]. split; [congruence|]. by split.
Qed.

End answering.

#[local] Existing Instances demo_link demo_env demo_text demo_conv alloc_all isort_Qsort os_good no_faults.

