(* ===== verification/Freerun.v ===== *)
(** * The free-running receiver

    host/freerun.c: the elastic buffer between the thread that receives a
    free-running stream and the one that plays it, the recovery of the device's
    clock from arrival times, and the pull of resampled blocks.  Doubles and floats
    are bit patterns; the resampler is libsamplerate, an argument here: it asks for
    spans of the ring and reads the samples in them when it needs them. *)
From Stdlib Require Import ZArith Lia List Bool.
From stdpp Require Import base tactics list numbers.
From S2P Require Import Prelude CborFloat Ieee Parts.
Open Scope Z_scope.
Open Scope list_scope.

Definition f64_opp : Z -> Z := fmt_opp 52 11.

Definition FR_SMOOTH : Z := f64_ratio 2 1000.
Definition FR_MAXADJ : Z := f64_ratio 5 100.
Definition FR_FORGET : Z := f64_ratio 999 1000.
Definition FR_SHIFT_S : Z := f64_of_Z 8.
Definition F64_GIGA : Z := f64_of_Z 1000000000.

(** The clock recovery; [ck_target] is the atomic [ratio_target_bits]. *)
Record fr_clock := mk_clock {
  ck_target : Z; ck_primed : bool; ck_ts0 : Z; ck_host0 : Z;
  ck_sw : Z; ck_sx : Z; ck_sy : Z; ck_sxx : Z; ck_sxy : Z; ck_syy : Z; ck_jitter : Z }.

Record harp_freerun := mk_fr {
  fr_ch : nat; fr_host_rate : Z; fr_dev_rate : Z; fr_nominal : Z; fr_cap : Z; fr_target : Z;
  fr_ring : list Z; fr_head : Z; fr_tail : Z; fr_warm : bool; fr_clk : fr_clock; fr_ratio : Z;
  fr_underflow : Z; fr_overflow : Z; fr_reanchors : Z; fr_starving : bool }.

Definition fr_set_ring (r : list Z) (fr : harp_freerun) : harp_freerun :=
  mk_fr (fr_ch fr) (fr_host_rate fr) (fr_dev_rate fr) (fr_nominal fr) (fr_cap fr) (fr_target fr) r (fr_head fr) (fr_tail fr)
    (fr_warm fr) (fr_clk fr) (fr_ratio fr) (fr_underflow fr) (fr_overflow fr) (fr_reanchors fr) (fr_starving fr).
Definition fr_set_head (h : Z) (fr : harp_freerun) : harp_freerun :=
  mk_fr (fr_ch fr) (fr_host_rate fr) (fr_dev_rate fr) (fr_nominal fr) (fr_cap fr) (fr_target fr) (fr_ring fr) h (fr_tail fr)
    (fr_warm fr) (fr_clk fr) (fr_ratio fr) (fr_underflow fr) (fr_overflow fr) (fr_reanchors fr) (fr_starving fr).
Definition fr_set_tail (t : Z) (fr : harp_freerun) : harp_freerun :=
  mk_fr (fr_ch fr) (fr_host_rate fr) (fr_dev_rate fr) (fr_nominal fr) (fr_cap fr) (fr_target fr) (fr_ring fr) (fr_head fr) t
    (fr_warm fr) (fr_clk fr) (fr_ratio fr) (fr_underflow fr) (fr_overflow fr) (fr_reanchors fr) (fr_starving fr).
Definition fr_set_warm (b : bool) (fr : harp_freerun) : harp_freerun :=
  mk_fr (fr_ch fr) (fr_host_rate fr) (fr_dev_rate fr) (fr_nominal fr) (fr_cap fr) (fr_target fr) (fr_ring fr) (fr_head fr) (fr_tail fr)
    b (fr_clk fr) (fr_ratio fr) (fr_underflow fr) (fr_overflow fr) (fr_reanchors fr) (fr_starving fr).
Definition fr_set_clk (c : fr_clock) (fr : harp_freerun) : harp_freerun :=
  mk_fr (fr_ch fr) (fr_host_rate fr) (fr_dev_rate fr) (fr_nominal fr) (fr_cap fr) (fr_target fr) (fr_ring fr) (fr_head fr) (fr_tail fr)
    (fr_warm fr) c (fr_ratio fr) (fr_underflow fr) (fr_overflow fr) (fr_reanchors fr) (fr_starving fr).
Definition fr_set_ratio (r : Z) (fr : harp_freerun) : harp_freerun :=
  mk_fr (fr_ch fr) (fr_host_rate fr) (fr_dev_rate fr) (fr_nominal fr) (fr_cap fr) (fr_target fr) (fr_ring fr) (fr_head fr) (fr_tail fr)
    (fr_warm fr) (fr_clk fr) r (fr_underflow fr) (fr_overflow fr) (fr_reanchors fr) (fr_starving fr).
(** [unsigned] counters wrap at 32 bits. *)
Definition fr_add_overflow (n : Z) (fr : harp_freerun) : harp_freerun :=
  mk_fr (fr_ch fr) (fr_host_rate fr) (fr_dev_rate fr) (fr_nominal fr) (fr_cap fr) (fr_target fr) (fr_ring fr) (fr_head fr) (fr_tail fr)
    (fr_warm fr) (fr_clk fr) (fr_ratio fr) (fr_underflow fr) (u32 (fr_overflow fr + n)) (fr_reanchors fr) (fr_starving fr).
Definition fr_starved (short : Z) (fr : harp_freerun) : harp_freerun :=
  mk_fr (fr_ch fr) (fr_host_rate fr) (fr_dev_rate fr) (fr_nominal fr) (fr_cap fr) (fr_target fr) (fr_ring fr) (fr_head fr) (fr_tail fr)
    (fr_warm fr) (fr_clk fr) (fr_ratio fr) (u32 (fr_underflow fr + short)) (fr_overflow fr)
    (if fr_starving fr then fr_reanchors fr else u32 (fr_reanchors fr + 1)) true.
Definition fr_fed (fr : harp_freerun) : harp_freerun :=
  mk_fr (fr_ch fr) (fr_host_rate fr) (fr_dev_rate fr) (fr_nominal fr) (fr_cap fr) (fr_target fr) (fr_ring fr) (fr_head fr) (fr_tail fr)
    (fr_warm fr) (fr_clk fr) (fr_ratio fr) (fr_underflow fr) (fr_overflow fr) (fr_reanchors fr) false.

Record harp_freerun_cfg := mk_cfg { cfg_ch : nat; cfg_host_rate : Z; cfg_dev_rate : Z; cfg_target : Z; cfg_cap : Z }.

Definition cfg_bad (c : harp_freerun_cfg) : bool :=
  (cfg_ch c <? 1)%nat || f64_le (cfg_host_rate c) 0 || f64_le (cfg_dev_rate c) 0 || (cfg_cap c <? 2) || (cfg_cap c <=? cfg_target c).

(** [ring0]: what the allocation of [cap * ch] floats returned, if it did. *)
Definition harp_freerun_new (c : harp_freerun_cfg) (ring0 : option (list Z)) : option harp_freerun :=
  if cfg_bad c then None
  else
    let nominal := f64_div (cfg_host_rate c) (cfg_dev_rate c) in
    r ← ring0;
    Some (mk_fr (cfg_ch c) (cfg_host_rate c) (cfg_dev_rate c) nominal (cfg_cap c) (cfg_target c) r 0 0 false
            (mk_clock nominal false 0 0 0 0 0 0 0 0 0) nominal 0 0 0 false).

(** ** The ring *)

(** The oldest contiguous span before [head], as its first frame in the ring and
    its length; it is freed at once.  [head]: the consumer's view of the producer's
    index. *)
Definition fr_take_span (head : Z) (fr : harp_freerun) : option (Z * Z) * harp_freerun :=
  let avail := u64 (head - fr_tail fr) in
  if avail =? 0 then (None, fr)
  else
    let pos := fr_tail fr mod fr_cap fr in
    let contig := if fr_cap fr - pos >? avail then avail else fr_cap fr - pos in
    (Some (pos, contig), fr_set_tail (u64 (fr_tail fr + contig)) fr).

(** The callback of the resampler. *)
Definition fr_input_cb (fr : harp_freerun) : option (Z * Z) * harp_freerun := fr_take_span (fr_head fr) fr.

(** [tail]: the producer's view of the consumer's index. *)
Definition push_take (tail n : Z) (fr : harp_freerun) : Z :=
  let space := u64 (fr_cap fr - u64 (fr_head fr - tail)) in
  if n <? space then n else u32 space.

(** The two copies; frames are [ch] floats. *)
Definition push_copy (inp : list Z) (k : Z) (fr : harp_freerun) : harp_freerun :=
  let ch := fr_ch fr in
  let pos := fr_head fr mod fr_cap fr in
  let first := Z.min (fr_cap fr - pos) k in
  let r := splice (Z.to_nat pos * ch) (take (Z.to_nat first * ch) inp) (fr_ring fr) in
  fr_set_ring (if k >? first then splice 0 (take (Z.to_nat (k - first) * ch) (drop (Z.to_nat first * ch) inp)) r else r) fr.

Definition push_publish (tail k : Z) (fr : harp_freerun) : harp_freerun :=
  let head := fr_head fr in
  let fr := fr_set_head (u64 (head + k)) fr in
  if negb (fr_warm fr) && (fr_target fr <=? u64 (head + k - tail)) then fr_set_warm true fr else fr.

Definition push_count (n k : Z) (fr : harp_freerun) : harp_freerun := if n >? k then fr_add_overflow (n - k) fr else fr.

Definition harp_freerun_push (inp : list Z) (n : Z) (fr : harp_freerun) : Z * harp_freerun :=
  let tail := fr_tail fr in
  let k := push_take tail n fr in
  (k, push_publish tail k (push_copy inp k (push_count n k fr))).

(** ** Clock recovery *)

Definition ck_anchor (ts host : Z) (c : fr_clock) : fr_clock :=
  mk_clock (ck_target c) true ts host (ck_sw c) (ck_sx c) (ck_sy c) (ck_sxx c) (ck_sxy c) (ck_syy c) (ck_jitter c).

(** The sums about a new origin [(dx, dy)]. *)
Definition ck_shift (ts host dx dy : Z) (c : fr_clock) : fr_clock :=
  let sw := ck_sw c in let sx := ck_sx c in let sy := ck_sy c in
  let sxx := f64_add (ck_sxx c) (f64_add (f64_mul (f64_mul (f64_of_Z (-2)) dx) sx) (f64_mul (f64_mul sw dx) dx)) in
  let sxy := f64_add (ck_sxy c) (f64_add (f64_sub (f64_mul (f64_opp dx) sy) (f64_mul dy sx)) (f64_mul (f64_mul sw dx) dy)) in
  let syy := f64_add (ck_syy c) (f64_add (f64_mul (f64_mul (f64_of_Z (-2)) dy) sy) (f64_mul (f64_mul sw dy) dy)) in
  mk_clock (ck_target c) true ts host sw (f64_sub sx (f64_mul sw dx)) (f64_sub sy (f64_mul sw dy)) sxx sxy syy (ck_jitter c).

Definition ck_decay (s x : Z) : Z := f64_add (f64_mul FR_FORGET s) x.
Definition ck_feed (x y : Z) (c : fr_clock) : fr_clock :=
  mk_clock (ck_target c) (ck_primed c) (ck_ts0 c) (ck_host0 c) (ck_decay (ck_sw c) F64_ONE) (ck_decay (ck_sx c) x) (ck_decay (ck_sy c) y)
    (ck_decay (ck_sxx c) (f64_mul x x)) (ck_decay (ck_sxy c) (f64_mul x y)) (ck_decay (ck_syy c) (f64_mul y y)) (ck_jitter c).

Definition ck_denom (c : fr_clock) : Z := f64_sub (f64_mul (ck_sw c) (ck_sxx c)) (f64_mul (ck_sx c) (ck_sx c)).
Definition ck_slope (c : fr_clock) : Z :=
  f64_div (f64_sub (f64_mul (ck_sw c) (ck_sxy c)) (f64_mul (ck_sx c) (ck_sy c))) (ck_denom c).

(** The residual of the fit, in microseconds. *)
Definition ck_residual (slope : Z) (c : fr_clock) : Z :=
  let icpt := f64_div (f64_sub (ck_sy c) (f64_mul slope (ck_sx c))) (ck_sw c) in
  let sse := f64_sub (f64_sub (ck_syy c) (f64_mul icpt (ck_sy c))) (f64_mul slope (ck_sxy c)) in
  let sse := if f64_lt sse 0 then 0 else sse in
  f64_mul (f64_div (f64_sqrt (f64_div sse (ck_sw c))) slope) (f64_of_Z 1000000).

Definition ck_publish (target jitter : Z) (c : fr_clock) : fr_clock :=
  mk_clock target (ck_primed c) (ck_ts0 c) (ck_host0 c) (ck_sw c) (ck_sx c) (ck_sy c) (ck_sxx c) (ck_sxy c) (ck_syy c) jitter.

(** [if (t < lo) t = lo; else if (t > hi) t = hi;] *)
Definition clamp_ratio (nominal t : Z) : Z :=
  let lo := f64_mul nominal (f64_sub F64_ONE FR_MAXADJ) in
  let hi := f64_mul nominal (f64_add F64_ONE FR_MAXADJ) in
  if f64_lt t lo then lo else if f64_lt hi t then hi else t.

Definition ck_solve (host_rate nominal : Z) (c : fr_clock) : fr_clock :=
  if f64_le (ck_denom c) 0 then c
  else
    let slope := ck_slope c in
    if f64_le slope 0 then c
    else
      let jitter := if f64_lt (f64_of_Z 2) (ck_sw c) then ck_residual slope c else ck_jitter c in
      ck_publish (clamp_ratio nominal (f64_div host_rate slope)) jitter c.

Definition ck_observe (host_rate nominal dev_ts host_ns : Z) (c : fr_clock) : fr_clock :=
  if negb (ck_primed c) then ck_anchor dev_ts host_ns c
  else
    let x := f64_div (f64_of_Z (u64 (host_ns - ck_host0 c))) F64_GIGA in
    let y := f64_of_Z (u64 (dev_ts - ck_ts0 c)) in
    let '(x, y, c) := if f64_lt FR_SHIFT_S x then (0, 0, ck_shift dev_ts host_ns x y c) else (x, y, c) in
    ck_solve host_rate nominal (ck_feed x y c).

Definition harp_freerun_observe (dev_ts host_ns : Z) (fr : harp_freerun) : harp_freerun :=
  fr_set_clk (ck_observe (fr_host_rate fr) (fr_nominal fr) dev_ts host_ns (fr_clk fr)) fr.

(** ** Pulling *)

(** A run of [src_callback_read]: it asks for spans, reads samples of the ring
    through the pointers it was given, and ends with the frames made. *)
Inductive src_prog (S : Type) : Type :=
  | SrcDone (made : Z) (out : list Z) (s : S)
  | SrcPull (k : option (Z * Z) -> src_prog S)
  | SrcRead (i : nat) (k : Z -> src_prog S).
Arguments SrcDone {S}. Arguments SrcPull {S}. Arguments SrcRead {S}.

(** The resampler: state, ratio, frames wanted. *)
Class Resampler (S : Type) := src_callback_read : S -> Z -> Z -> src_prog S.

Section pull.
Context {S : Type} {RS : Resampler S}.

Fixpoint src_run (p : src_prog S) (fr : harp_freerun) : Z * list Z * S * harp_freerun :=
  match p with
  | SrcDone made out s => (made, out, s, fr)
  | SrcPull k => let '(span, fr) := fr_input_cb fr in src_run (k span) fr
  | SrcRead i k => src_run (k (nth i (fr_ring fr) 0)) fr
  end.

(** The result and the [n * ch] floats of the block. *)
Definition harp_freerun_pull (n : Z) (s : S) (fr : harp_freerun) : Z * list Z * S * harp_freerun :=
  if negb (fr_warm fr) then (0, repeat 0 (Z.to_nat n * fr_ch fr), s, fr)
  else
    let fr := fr_set_ratio (f64_add (fr_ratio fr) (f64_mul FR_SMOOTH (f64_sub (ck_target (fr_clk fr)) (fr_ratio fr)))) fr in
    let '(made, out, s, fr) := src_run (src_callback_read s (fr_ratio fr) n) fr in
    let made := if made <? 0 then 0 else made in
    let fr2 := if made <? n then fr_starved (n - made) fr else fr_fed fr in
    (made, take (Z.to_nat made * fr_ch fr) out ++ repeat 0 (Z.to_nat (n - made) * fr_ch fr), s, fr2).
End pull.

Record harp_freerun_stats := mk_stats {
  fs_ratio : Z; fs_est_ppm : Z; fs_fill : Z; fs_underflow : Z; fs_overflow : Z; fs_reanchors : Z; fs_jitter : Z }.

Definition harp_freerun_get_stats (fr : harp_freerun) : harp_freerun_stats :=
  let tgt := ck_target (fr_clk fr) in
  mk_stats tgt (f64_mul (f64_sub (f64_div (fr_nominal fr) tgt) F64_ONE) (f64_of_Z 1000000)) (u32 (fr_head fr - fr_tail fr))
    (fr_underflow fr) (fr_overflow fr) (fr_reanchors fr) (ck_jitter (fr_clk fr)).
