(* ===== verification/FreerunSpec.v ===== *)
(** * The free-running receiver: theorems

    The elastic buffer under every interleaving of its two threads: a bounded queue
    of frames in the order they were accepted.  A freed frame stays in place until
    the producer has gone once round the ring. *)
From Stdlib Require Import ZArith Lia List Bool.
From stdpp Require Import base tactics list numbers relations.
From S2P Require Import Prelude CborFloat Ieee Parts Freerun.
Open Scope Z_scope.
Open Scope list_scope.

(** ** Arrays used as rings *)

Lemma splice_lookup {A} o (s a : list A) j : (o + length s <= length a)%nat ->
  splice o s a !! j = if decide (o <= j < o + length s)%nat then s !! (j - o)%nat else a !! j.
Proof.
  intros Hl. unfold splice. assert (length (take o a) = o) as Ho by (rewrite length_take; lia).
  destruct (decide _) as [[H1 H2]|Hn].
  - rewrite lookup_app_r, Ho by lia. by rewrite lookup_app_l by lia.
  - destruct (decide (j < o)%nat).
    + rewrite lookup_app_l by lia. by rewrite lookup_take_lt.
    + rewrite lookup_app_r, Ho by lia. rewrite lookup_app_r by lia. rewrite lookup_drop. f_equal. lia.
Qed.

Lemma splice_len {A} o (s a : list A) : (o + length s <= length a)%nat -> length (splice o s a) = length a.
Proof. intros. unfold splice. rewrite !length_app, length_take, length_drop. lia. Qed.

(** Writing [inp] from [p] on, wrapping round. *)
Definition ring_write {A} (p : nat) (inp r : list A) : list A :=
  let f := Nat.min (length r - p) (length inp) in
  splice 0 (drop f inp) (splice p (take f inp) r).

Lemma ring_write_len {A} p (inp r : list A) : (p <= length r)%nat -> (length inp <= length r)%nat -> length (ring_write p inp r) = length r.
Proof.
  intros Hp Hi. unfold ring_write. cbv zeta.
  rewrite splice_len; rewrite splice_len; rewrite ?length_take, ?length_drop; lia.
Qed.

Lemma ring_write_lookup {A} p (inp r : list A) d : (p < length r)%nat -> (length inp <= length r)%nat -> (d < length r)%nat ->
  ring_write p inp r !! ((p + d) mod length r)%nat = if decide (d < length inp)%nat then inp !! d else r !! ((p + d) mod length r)%nat.
Proof.
  intros Hp Hi Hd. unfold ring_write. cbv zeta. set (f := Nat.min _ _).
  assert (((p + d) mod length r)%nat = if decide (p + d < length r)%nat then (p + d)%nat else (p + d - length r)%nat) as ->.
  { destruct (decide _); [by apply Nat.mod_small|]. replace (p + d)%nat with ((p + d - length r) + 1 * length r)%nat at 1 by lia.
    rewrite Nat.Div0.mod_add. apply Nat.mod_small. lia. }
  rewrite !splice_lookup; rewrite ?splice_len; rewrite ?length_take, ?length_drop; try lia. rewrite lookup_drop.
  assert (forall k, take f inp !! k = if decide (k < f)%nat then inp !! k else None) as Ht.
  { intros k. destruct (decide _); [by apply lookup_take_lt|by apply lookup_take_ge; lia]. }
  rewrite Ht. repeat case_decide; try lia; try done; f_equal; lia.
Qed.

Lemma ring_index (h d c : nat) : (0 < c)%nat -> ((h mod c + d) mod c)%nat = ((h + d) mod c)%nat.
Proof. intros. apply Nat.Div0.add_mod_idemp_l. Qed.

(** ** The two threads *)

(** A buffer of whole frames. *)
Definition ring_ok (fr : harp_freerun) : Prop :=
  (0 < fr_ch fr)%nat /\ 0 < fr_cap fr /\ length (fr_ring fr) = (Z.to_nat (fr_cap fr) * fr_ch fr)%nat.

Lemma push_copy_ring inp k fr : ring_ok fr -> 0 <= k <= fr_cap fr ->
  push_copy inp k fr = fr_set_ring (ring_write (Z.to_nat (fr_head fr mod fr_cap fr) * fr_ch fr) (take (Z.to_nat k * fr_ch fr) inp) (fr_ring fr)) fr
  \/ (length inp < Z.to_nat k * fr_ch fr)%nat.
Proof.
  intros (Hch & Hcap & Hlen) Hk. destruct (Nat.lt_ge_cases (length inp) (Z.to_nat k * fr_ch fr)) as [Hs|Hs]; [by right|left].
  unfold push_copy, ring_write. cbv zeta. f_equal. pose proof (Z.mod_pos_bound (fr_head fr) (fr_cap fr) Hcap) as Hp.
  set (pos := fr_head fr mod fr_cap fr) in *. set (first := Z.min (fr_cap fr - pos) k).
  assert (Nat.min (length (fr_ring fr) - Z.to_nat pos * fr_ch fr) (length (take (Z.to_nat k * fr_ch fr) inp)) = Z.to_nat first * fr_ch fr)%nat as ->.
  { rewrite Hlen, length_take_le by lia. rewrite <- Nat.mul_sub_distr_r, Nat.mul_min_distr_r. f_equal. unfold first. lia. }
  rewrite take_take, Nat.min_l by (apply Nat.mul_le_mono_r; unfold first; lia).
  rewrite skipn_firstn_comm, <- Nat.mul_sub_distr_r.
  destruct (Z.gtb_spec k first) as [Hg|Hg].
  - do 2 f_equal. rewrite Z2Nat.inj_sub by (unfold first; lia). done.
  - replace (Z.to_nat k - Z.to_nat first)%nat with O by lia. cbn [Nat.mul]. by rewrite take_0.
Qed.

(** The state of both threads, between atomic accesses: the producer has nothing in
    hand, has read [tail], or has copied [k] frames; the consumer may have read
    [head].  Ghosts: every float accepted, what every span held when it was handed
    out, the frames offered. *)
Inductive prod_pc : Type := PIdle | PLoaded (tail : Z) (inp : list Z) (n : Z) | PCopied (tail : Z) (inp : list Z) (k : Z).

Record spsc := mk_spsc { sp_fr : harp_freerun; sp_prod : prod_pc; sp_cons : option Z; sp_hist : list Z; sp_out : list Z; sp_offered : Z }.

(** The floats of a span. *)
Definition span_floats (sp : option (Z * Z)) (fr : harp_freerun) : list Z :=
  match sp with
  | Some (pos, len) => take (Z.to_nat len * fr_ch fr) (drop (Z.to_nat pos * fr_ch fr) (fr_ring fr))
  | None => []
  end.

Inductive spsc_step : spsc -> spsc -> Prop :=
  | step_load s inp n : sp_prod s = PIdle -> is_u32 n -> length inp = (Z.to_nat n * fr_ch (sp_fr s))%nat -> fr_head (sp_fr s) + n < 2 ^ 64 ->
      let fr := sp_fr s in
      spsc_step s (mk_spsc fr (PLoaded (fr_tail fr) inp n) (sp_cons s) (sp_hist s) (sp_out s) (sp_offered s + n))
  | step_copy s tail inp n : sp_prod s = PLoaded tail inp n ->
      let fr := sp_fr s in let k := push_take tail n fr in
      spsc_step s (mk_spsc (push_copy inp k (push_count n k fr)) (PCopied tail inp k) (sp_cons s) (sp_hist s) (sp_out s) (sp_offered s))
  | step_publish s tail inp k : sp_prod s = PCopied tail inp k ->
      let fr := sp_fr s in
      spsc_step s (mk_spsc (push_publish tail k fr) PIdle (sp_cons s) (sp_hist s ++ take (Z.to_nat k * fr_ch fr) inp) (sp_out s) (sp_offered s))
  | step_cb s : sp_cons s = None ->
      spsc_step s (mk_spsc (sp_fr s) (sp_prod s) (Some (fr_head (sp_fr s))) (sp_hist s) (sp_out s) (sp_offered s))
  | step_span s head : sp_cons s = Some head ->
      let r := fr_take_span head (sp_fr s) in
      spsc_step s (mk_spsc r.2 (sp_prod s) None (sp_hist s) (sp_out s ++ span_floats r.1 (sp_fr s)) (sp_offered s)).

Definition spsc_init (fr : harp_freerun) : spsc := mk_spsc fr PIdle None [] [] 0.

(** Frames copied but not yet published. *)
Definition pending (s : spsc) : Z := match sp_prod s with PCopied _ _ k => k | _ => 0 end.

(** Position of float [x] of the stream in the ring. *)
Definition slot (fr : harp_freerun) (x : nat) : nat := (x mod (Z.to_nat (fr_cap fr) * fr_ch fr))%nat.

(** Everything from [x] on that the producer has not gone past is in place. *)
Definition in_place (s : spsc) : Prop :=
  let fr := sp_fr s in
  forall x, (x < Z.to_nat (fr_head fr) * fr_ch fr)%nat -> (Z.to_nat (fr_head fr + pending s) * fr_ch fr <= x + Z.to_nat (fr_cap fr) * fr_ch fr)%nat ->
    fr_ring fr !! slot fr x = sp_hist s !! x.

Definition prod_ok (s : spsc) : Prop :=
  let fr := sp_fr s in
  match sp_prod s with
  | PIdle => True
  | PLoaded tail inp n => is_u32 n /\ length inp = (Z.to_nat n * fr_ch fr)%nat /\ 0 <= tail <= fr_tail fr /\ fr_head fr - tail <= fr_cap fr /\ fr_head fr + n < 2 ^ 64
  | PCopied tail inp k => (Z.to_nat k * fr_ch fr <= length inp)%nat /\ 0 <= k /\ 0 <= tail <= fr_tail fr /\ fr_head fr + k - tail <= fr_cap fr /\ fr_head fr + k < 2 ^ 64 /\
      forall d, (d < Z.to_nat k * fr_ch fr)%nat -> fr_ring fr !! slot fr (Z.to_nat (fr_head fr) * fr_ch fr + d) = inp !! d
  end.

Record spsc_ok (s : spsc) : Prop := {
  ok_ring : ring_ok (sp_fr s);
  ok_cap : fr_cap (sp_fr s) < 2 ^ 32;
  ok_order : 0 <= fr_tail (sp_fr s) <= fr_head (sp_fr s) /\ fr_head (sp_fr s) < 2 ^ 64;
  ok_bound : fr_head (sp_fr s) + pending s - fr_tail (sp_fr s) <= fr_cap (sp_fr s);
  ok_hist : length (sp_hist s) = (Z.to_nat (fr_head (sp_fr s)) * fr_ch (sp_fr s))%nat;
  ok_cons : match sp_cons s with Some h => fr_tail (sp_fr s) <= h <= fr_head (sp_fr s) | None => True end;
  ok_prod : prod_ok s;
  ok_place : in_place s;
  ok_out : sp_out s = take (Z.to_nat (fr_tail (sp_fr s)) * fr_ch (sp_fr s)) (sp_hist s) }.

Lemma slot_add fr x d : ring_ok fr -> ((slot fr x + d) mod length (fr_ring fr))%nat = slot fr (x + d).
Proof. intros (Hch & Hcap & Hlen). rewrite Hlen. unfold slot. apply ring_index. assert (0 < Z.to_nat (fr_cap fr))%nat by lia. nia. Qed.

Lemma slot_head fr h : ring_ok fr -> 0 <= h -> slot fr (Z.to_nat h * fr_ch fr) = (Z.to_nat (h mod fr_cap fr) * fr_ch fr)%nat.
Proof.
  intros (Hch & Hcap & Hlen) Hh. unfold slot. rewrite Nat.Div0.mul_mod_distr_r. f_equal. rewrite Z2Nat.inj_mod by lia. done.
Qed.

Lemma slot_lt fr x : ring_ok fr -> (slot fr x < length (fr_ring fr))%nat.
Proof. intros (Hch & Hcap & Hlen). rewrite Hlen. unfold slot. apply Nat.mod_upper_bound. assert (0 < Z.to_nat (fr_cap fr))%nat by lia. nia. Qed.

(** What the copy of a push does to the ring. *)
Lemma copy_lookup inp k fr d : ring_ok fr -> 0 <= k <= fr_cap fr -> 0 <= fr_head fr -> (Z.to_nat k * fr_ch fr <= length inp)%nat ->
  (d < Z.to_nat (fr_cap fr) * fr_ch fr)%nat ->
  fr_ring (push_copy inp k fr) !! slot fr (Z.to_nat (fr_head fr) * fr_ch fr + d) =
    if decide (d < Z.to_nat k * fr_ch fr)%nat then inp !! d else fr_ring fr !! slot fr (Z.to_nat (fr_head fr) * fr_ch fr + d).
Proof.
  intros Hok Hk Hh Hi Hd. destruct (push_copy_ring inp k fr Hok Hk) as [->|?]; [|lia]. cbn [fr_ring fr_set_ring].
  destruct Hok as (Hch & Hcap & Hlen) eqn:HH. clear HH. rewrite <- slot_add by done.
  pose proof (slot_lt fr (Z.to_nat (fr_head fr) * fr_ch fr) (conj Hch (conj Hcap Hlen))) as Hp. rewrite slot_head in * by done.
  rewrite ring_write_lookup; [|done|rewrite length_take_le by lia; rewrite Hlen; apply Nat.mul_le_mono_r; lia|lia].
  rewrite length_take_le by lia. case_decide; [by rewrite lookup_take_lt|done].
Qed.

Lemma push_take_le tail n fr : is_u32 n -> fr_cap fr < 2 ^ 32 -> 0 <= tail <= fr_head fr -> fr_head fr < 2 ^ 64 -> fr_head fr - tail <= fr_cap fr ->
  push_take tail n fr = Z.min n (fr_cap fr - (fr_head fr - tail)).
Proof.
  intros Hn Hc Ht Hh Hs. unfold push_take. cbv zeta. rewrite (u64_small (fr_head fr - tail)) by ulia.
  rewrite u64_small by ulia. rewrite u32_small by ulia. destruct (Z.ltb_spec n (fr_cap fr - (fr_head fr - tail))); lia.
Qed.

Lemma count_same n k fr : fr_ring (push_count n k fr) = fr_ring fr /\ fr_head (push_count n k fr) = fr_head fr /\ fr_tail (push_count n k fr) = fr_tail fr /\
  fr_cap (push_count n k fr) = fr_cap fr /\ fr_ch (push_count n k fr) = fr_ch fr.
Proof. unfold push_count. by destruct (n >? k). Qed.

Lemma copy_same inp k fr : fr_head (push_copy inp k fr) = fr_head fr /\ fr_tail (push_copy inp k fr) = fr_tail fr /\
  fr_cap (push_copy inp k fr) = fr_cap fr /\ fr_ch (push_copy inp k fr) = fr_ch fr.
Proof. done. Qed.

Lemma publish_same tail k fr : fr_ring (push_publish tail k fr) = fr_ring fr /\ fr_head (push_publish tail k fr) = u64 (fr_head fr + k) /\
  fr_tail (push_publish tail k fr) = fr_tail fr /\ fr_cap (push_publish tail k fr) = fr_cap fr /\ fr_ch (push_publish tail k fr) = fr_ch fr.
Proof. unfold push_publish. cbv zeta. by destruct (_ && _). Qed.

Lemma ring_ok_count n k fr : ring_ok fr -> ring_ok (push_count n k fr).
Proof. intros H. destruct (count_same n k fr) as (H1 & _ & _ & H4 & H5). unfold ring_ok. by rewrite H1, H4, H5. Qed.

Lemma copy_len inp k fr : ring_ok fr -> 0 <= k <= fr_cap fr -> (Z.to_nat k * fr_ch fr <= length inp)%nat -> ring_ok (push_copy inp k fr).
Proof.
  intros Hok Hk Hi. destruct (push_copy_ring inp k fr Hok Hk) as [->|?]; [|lia]. destruct Hok as (Hch & Hcap & Hlen).
  split; [done|]. split; [done|]. cbn [fr_ring fr_set_ring fr_cap fr_ch]. rewrite ring_write_len; [done| |].
  - rewrite Hlen. apply Nat.mul_le_mono_r. pose proof (Z.mod_pos_bound (fr_head fr) (fr_cap fr) Hcap). lia.
  - rewrite length_take_le by lia. rewrite Hlen. apply Nat.mul_le_mono_r. lia.
Qed.

(** Where the ring has not been written since. *)
Lemma slot_before fr x : ring_ok fr -> (x < Z.to_nat (fr_head fr) * fr_ch fr)%nat ->
  (Z.to_nat (fr_head fr) * fr_ch fr <= x + Z.to_nat (fr_cap fr) * fr_ch fr)%nat ->
  slot fr x = slot fr (Z.to_nat (fr_head fr) * fr_ch fr + (x + Z.to_nat (fr_cap fr) * fr_ch fr - Z.to_nat (fr_head fr) * fr_ch fr)).
Proof.
  intros (Hch & Hcap & Hlen) H1 H2. unfold slot. replace (_ + (_ - _))%nat with (x + 1 * (Z.to_nat (fr_cap fr) * fr_ch fr))%nat by lia.
  by rewrite Nat.Div0.mod_add.
Qed.

Section steps.
Variable s : spsc.
Hypothesis Hs : spsc_ok s.
#[local] Notation fr := (sp_fr s).
#[local] Notation ch := (fr_ch (sp_fr s)).

Lemma ok_load inp n : sp_prod s = PIdle -> is_u32 n -> length inp = (Z.to_nat n * ch)%nat -> fr_head fr + n < 2 ^ 64 ->
  spsc_ok (mk_spsc fr (PLoaded (fr_tail fr) inp n) (sp_cons s) (sp_hist s) (sp_out s) (sp_offered s + n)).
Proof.
  intros Hp Hn Hi Hb. destruct Hs as [Hr Hc Ho Hbd Hh Hcs Hpr Hpl Hout]. unfold in_place, pending in *. rewrite Hp in *. constructor; try done.
  cbn. split; [done|]. split; [done|]. split; [lia|]. split; lia.
Qed.

Lemma ok_copy tail inp n : sp_prod s = PLoaded tail inp n -> let k := push_take tail n fr in
  spsc_ok (mk_spsc (push_copy inp k (push_count n k fr)) (PCopied tail inp k) (sp_cons s) (sp_hist s) (sp_out s) (sp_offered s)).
Proof.
  intros Hp k. destruct Hs as [Hr Hc Ho Hbd Hh Hcs Hpr Hpl Hout]. unfold prod_ok, in_place, pending in *. rewrite Hp in *.
  destruct Hpr as (Hn & Hi & Ht & Hcap & Hb). rewrite Z.add_0_r in Hbd.
  assert (Hk : k = Z.min n (fr_cap fr - (fr_head fr - tail))) by (apply push_take_le; unfold is_u32 in *; lia). destruct Hr as (Hr1 & Hr2 & Hr3) eqn:HH. clear HH.
  set (f1 := push_count n k fr). destruct (count_same n k fr) as (C1 & C2 & C3 & C4 & C5). fold f1 in C1, C2, C3, C4, C5.
  assert (Hr' : ring_ok f1) by (by apply ring_ok_count). unfold is_u32 in Hn.
  assert (Hle : (Z.to_nat k * ch <= length inp)%nat) by (rewrite Hi; apply Nat.mul_le_mono_r; lia).
  assert (Hf : forall d, (d < Z.to_nat (fr_cap fr) * ch)%nat -> fr_ring (push_copy inp k f1) !! slot fr (Z.to_nat (fr_head fr) * ch + d) =
    if decide (d < Z.to_nat k * ch)%nat then inp !! d else fr_ring fr !! slot fr (Z.to_nat (fr_head fr) * ch + d)).
  { intros d Hd. pose proof (copy_lookup inp k f1 d Hr') as H. unfold slot in *. rewrite C1, C2, C4, C5 in H. apply H; lia. }
  assert (Z.to_nat k * ch <= Z.to_nat (fr_cap fr) * ch)%nat by (apply Nat.mul_le_mono_r; lia).
  constructor; cbn [sp_fr sp_prod sp_cons sp_hist sp_out pending]; rewrite ?(proj1 (copy_same inp k f1)), ?(proj1 (proj2 (copy_same inp k f1))),
    ?(proj1 (proj2 (proj2 (copy_same inp k f1)))), ?(proj2 (proj2 (proj2 (copy_same inp k f1)))), ?C2, ?C3, ?C4, ?C5; try done.
  - apply copy_len; rewrite ?C4, ?C5; [done|lia|done].
  - lia.
  - unfold prod_ok, slot. cbn [sp_fr sp_prod]. rewrite !(proj1 (copy_same inp k f1)), (proj1 (proj2 (copy_same inp k f1))),
      (proj1 (proj2 (proj2 (copy_same inp k f1)))), (proj2 (proj2 (proj2 (copy_same inp k f1)))), C2, C3, C4, C5.
    split; [done|]. split; [lia|]. split; [lia|]. split; [lia|]. split; [lia|]. intros d Hd. unfold slot in Hf. rewrite Hf by lia. by rewrite decide_True.
  - unfold in_place, pending, slot. cbn [sp_fr sp_prod sp_hist]. rewrite (proj1 (copy_same inp k f1)),
      (proj1 (proj2 (proj2 (copy_same inp k f1)))), (proj2 (proj2 (proj2 (copy_same inp k f1)))), C2, C4, C5. intros x Hx Hx2.
    rewrite Z2Nat.inj_add, Nat.mul_add_distr_r in Hx2 by lia.
    change (x mod (Z.to_nat (fr_cap fr) * ch))%nat with (slot fr x). rewrite slot_before by (done || lia).
    rewrite Hf by lia. rewrite decide_False by lia. rewrite <- slot_before by (done || lia). apply Hpl; [done|].
    rewrite Z.add_0_r. lia.
Qed.

Lemma ok_publish tail inp k : sp_prod s = PCopied tail inp k ->
  spsc_ok (mk_spsc (push_publish tail k fr) PIdle (sp_cons s) (sp_hist s ++ take (Z.to_nat k * ch) inp) (sp_out s) (sp_offered s)).
Proof.
  intros Hp. destruct Hs as [Hr Hc Ho Hbd Hh Hcs Hpr Hpl Hout]. unfold prod_ok, in_place, pending in *. rewrite Hp in *.
  destruct Hpr as (Hi & Hk & Ht & Hcap & Hb & Hcp). destruct (publish_same tail k fr) as (P1 & P2 & P3 & P4 & P5).
  rewrite u64_small in P2 by (unfold is_u64; lia).
  constructor; cbn [sp_fr sp_prod sp_cons sp_hist sp_out pending]; unfold ring_ok; rewrite ?P1, ?P2, ?P3, ?P4, ?P5; try done; try lia.
  - rewrite length_app, length_take_le, Hh by done. rewrite Z2Nat.inj_add by lia. lia.
  - destruct (sp_cons s); [lia|done].
  - unfold in_place, pending, slot. cbn [sp_fr sp_prod sp_hist]. rewrite P1, P2, P4, P5, Z.add_0_r. intros x Hx Hx2.
    destruct (Nat.lt_ge_cases x (Z.to_nat (fr_head fr) * ch)) as [Hlt|Hge].
    + rewrite lookup_app_l by (rewrite Hh; done). by apply Hpl.
    + rewrite lookup_app_r by (rewrite Hh; done). rewrite Z2Nat.inj_add, Nat.mul_add_distr_r in Hx by lia.
      rewrite lookup_take_lt by lia. rewrite Hh, <- Hcp by lia. unfold slot. do 2 f_equal. lia.
  - rewrite Hout. rewrite take_app_le; [done|]. rewrite Hh. apply Nat.mul_le_mono_r. lia.
Qed.

Lemma ok_cb : spsc_ok (mk_spsc fr (sp_prod s) (Some (fr_head fr)) (sp_hist s) (sp_out s) (sp_offered s)).
Proof. destruct Hs as [Hr Hc Ho Hbd Hh Hcs Hpr Hpl Hout]. constructor; try done. cbn [sp_cons sp_fr]. lia. Qed.

Lemma take_drop_eq {A} (r l : list A) p q m : (forall j, (j < m)%nat -> r !! (p + j)%nat = l !! (q + j)%nat) -> take m (drop p r) = take m (drop q l).
Proof.
  intros H. apply list_eq. intros i. destruct (Nat.lt_ge_cases i m) as [Hi|Hi].
  - rewrite !lookup_take_lt by done. rewrite !lookup_drop. by apply H.
  - by rewrite !lookup_take_ge by done.
Qed.

Lemma ok_span head : sp_cons s = Some head -> let r := fr_take_span head fr in
  spsc_ok (mk_spsc r.2 (sp_prod s) None (sp_hist s) (sp_out s ++ span_floats r.1 fr) (sp_offered s)).
Proof.
  intros Hcs'. destruct Hs as [Hr Hc Ho Hbd Hh Hcs Hpr Hpl Hout]. rewrite Hcs' in Hcs. assert (0 <= pending s) as Hpend.
  { unfold pending, prod_ok in *. destruct (sp_prod s); lia. }
  unfold fr_take_span. rewrite u64_small by (unfold is_u64; lia). cbv zeta. destruct (Z.eqb_spec (head - fr_tail fr) 0) as [H0|H0]; cbn [fst snd].
  { cbn [span_floats]. rewrite app_nil_r. by constructor. }
  destruct Hr as (Hr1 & Hr2 & Hr3) eqn:HH. clear HH.
  pose proof (Z.mod_pos_bound (fr_tail fr) (fr_cap fr) Hr2) as Hp. set (pos := fr_tail fr mod fr_cap fr) in *.
  set (m := if fr_cap fr - pos >? head - fr_tail fr then head - fr_tail fr else fr_cap fr - pos).
  assert (0 < m /\ m <= head - fr_tail fr /\ m <= fr_cap fr - pos) as (Hm1 & Hm2 & Hm3) by (unfold m; destruct (Z.gtb_spec (fr_cap fr - pos) (head - fr_tail fr)); lia).
  rewrite u64_small by (unfold is_u64; lia).
  assert (Hsp : take (Z.to_nat m * ch) (drop (Z.to_nat pos * ch) (fr_ring fr)) = take (Z.to_nat m * ch) (drop (Z.to_nat (fr_tail fr) * ch) (sp_hist s))).
  { apply take_drop_eq. intros j Hj. assert (Z.to_nat m * ch <= Z.to_nat (head - fr_tail fr) * ch)%nat by (apply Nat.mul_le_mono_r; lia).
    assert (Z.to_nat (head - fr_tail fr) * ch + Z.to_nat (fr_tail fr) * ch = Z.to_nat head * ch)%nat by (rewrite <- Nat.mul_add_distr_r; f_equal; lia).
    assert (Z.to_nat head * ch <= Z.to_nat (fr_head fr) * ch)%nat by (apply Nat.mul_le_mono_r; lia).
    assert (Z.to_nat (fr_head fr + pending s) * ch <= Z.to_nat (fr_tail fr) * ch + Z.to_nat (fr_cap fr) * ch)%nat by (rewrite <- Nat.mul_add_distr_r; apply Nat.mul_le_mono_r; lia).
    rewrite <- Hpl by lia. f_equal. unfold pos. rewrite <- slot_head by (done || lia). rewrite <- slot_add by done.
    symmetry. apply Nat.mod_small. rewrite slot_head by (done || lia). fold pos. rewrite Hr3.
    assert (Z.to_nat m * ch + Z.to_nat pos * ch <= Z.to_nat (fr_cap fr) * ch)%nat by (rewrite <- Nat.mul_add_distr_r; apply Nat.mul_le_mono_r; lia). lia. }
  constructor; try done; cbn [sp_fr fr_set_tail fr_tail fr_head fr_cap fr_ch sp_cons sp_out span_floats]; try lia.
  - unfold pending in *. cbn [sp_prod] in *. lia.
  - unfold prod_ok in *. cbn [sp_prod sp_fr]. destruct (sp_prod s) as [|t i n|t i k]; [done| |]; cbn [fr_set_tail fr_tail fr_head fr_cap fr_ch fr_ring].
    + destruct Hpr as (? & ? & ? & ?). split_and!; try done; lia.
    + destruct Hpr as (? & ? & ? & ? & ? & ?). split_and!; try done; lia.
  - rewrite Hsp, Hout. rewrite take_take_drop. f_equal. rewrite <- Nat.mul_add_distr_r. f_equal. lia.
Qed.
End steps.

Lemma spsc_ok_step s s' : spsc_ok s -> spsc_step s s' -> spsc_ok s'.
Proof.
  intros Hs H. destruct H as [s inp n Hp Hn Hi Hb fr|s tail inp n Hp fr k|s tail inp k Hp fr|s Hc|s head Hc r].
  - by apply ok_load.
  - by apply ok_copy.
  - by apply ok_publish.
  - by apply ok_cb.
  - by apply ok_span.
Qed.

(** Frames offered, accepted and dropped. *)
Definition in_hand (s : spsc) : Z := match sp_prod s with PIdle => 0 | PLoaded _ _ n => n | PCopied _ _ k => k end.
Definition counted (s : spsc) : Prop := fr_overflow (sp_fr s) = u32 (sp_offered s - fr_head (sp_fr s) - in_hand s).

Lemma counted_step s s' : spsc_ok s -> spsc_step s s' -> counted s -> counted s'.
Proof.
  intros Hok H. destruct H as [s inp n Hp Hn Hi Hb fr|s tail inp n Hp fr k|s tail inp k Hp fr|s Hc|s head Hc r]; unfold counted, in_hand;
    cbn [sp_fr sp_prod sp_offered]; try subst fr.
  - rewrite Hp. intros ->. f_equal. lia.
  - rewrite Hp. pose proof (ok_prod s Hok) as Hpr. unfold prod_ok in Hpr. rewrite Hp in Hpr. destruct Hpr as (Hn & Hi & Ht & Hcap & Hb).
    pose proof (ok_order s Hok). pose proof (ok_cap s Hok). unfold is_u32 in *.
    assert (k = Z.min n (fr_cap (sp_fr s) - (fr_head (sp_fr s) - tail))) as Hk by (apply push_take_le; unfold is_u32 in *; lia).
    change (fr_overflow (push_copy inp k (push_count n k (sp_fr s)))) with (fr_overflow (push_count n k (sp_fr s))).
    change (fr_head (push_copy inp k (push_count n k (sp_fr s)))) with (fr_head (push_count n k (sp_fr s))).
    destruct (count_same n k (sp_fr s)) as (_ & -> & _). unfold push_count. destruct (Z.gtb_spec n k) as [Hg|Hg]; cbn [fr_add_overflow fr_overflow]; intros ->.
    + unfold u32. rewrite Zplus_mod_idemp_l. f_equal. lia.
    + f_equal. lia.
  - rewrite Hp. pose proof (ok_prod s Hok) as Hpr. unfold prod_ok in Hpr. rewrite Hp in Hpr. destruct Hpr as (_ & Hk & _ & _ & Hb & _). pose proof (ok_order s Hok).
    destruct (publish_same tail k (sp_fr s)) as (_ & -> & _). rewrite u64_small by (unfold is_u64 in *; lia).
    assert (fr_overflow (push_publish tail k (sp_fr s)) = fr_overflow (sp_fr s)) as -> by (unfold push_publish; cbv zeta; by destruct (_ && _)).
    intros ->. f_equal. lia.
  - done.
  - unfold r, fr_take_span. cbv zeta. by destruct (_ =? 0).
Qed.

(** A push and a callback are runs of steps. *)
Lemma push_steps s inp n : sp_prod s = PIdle -> is_u32 n -> length inp = (Z.to_nat n * fr_ch (sp_fr s))%nat -> fr_head (sp_fr s) + n < 2 ^ 64 ->
  exists s', rtc spsc_step s s' /\ sp_fr s' = (harp_freerun_push inp n (sp_fr s)).2 /\ sp_prod s' = PIdle /\ sp_cons s' = sp_cons s.
Proof.
  intros Hp Hn Hi Hb. eexists. split; [|split; [|split]].
  - eapply rtc_l; [by apply (step_load s inp n)|]. eapply rtc_l; [by eapply step_copy|]. eapply rtc_l; [by eapply step_publish|]. apply rtc_refl.
  - done.
  - done.
  - done.
Qed.

Lemma cb_steps s : sp_cons s = None -> exists s', rtc spsc_step s s' /\ sp_fr s' = (fr_input_cb (sp_fr s)).2 /\
  sp_out s' = sp_out s ++ span_floats (fr_input_cb (sp_fr s)).1 (sp_fr s).
Proof.
  intros Hc. eexists. split; [|split].
  - eapply rtc_l; [by apply step_cb|]. eapply rtc_l; [by eapply step_span|]. apply rtc_refl.
  - done.
  - done.
Qed.

(** the elastic buffer is a bounded queue under every interleaving.  The
    producer's push takes three atomic steps (read [tail], copy, publish [head]) and
    the resampler's callback two (read [head], free the span); in any state reached
    by any interleaving from a new buffer: at most [cap] frames are in it; the spans
    handed out held, one after the other, exactly the floats accepted, in order, none
    twice and none skipped; every accepted float is still in its place in the ring
    until the producer has gone once round past it; and the overflow count is what
    was offered and not accepted, modulo 2^32. *)
Theorem spsc_fifo (c : harp_freerun_cfg) (ring0 : list Z) (fr0 : harp_freerun) (s : spsc) :
  harp_freerun_new c (Some ring0) = Some fr0 -> cfg_cap c < 2 ^ 32 -> length ring0 = (Z.to_nat (cfg_cap c) * cfg_ch c)%nat ->
  rtc spsc_step (spsc_init fr0) s ->
  let fr := sp_fr s in
  0 <= fr_head fr - fr_tail fr <= cfg_cap c /\ length (sp_hist s) = (Z.to_nat (fr_head fr) * cfg_ch c)%nat /\
  sp_out s = take (Z.to_nat (fr_tail fr) * cfg_ch c) (sp_hist s) /\
  (forall x, (x < Z.to_nat (fr_head fr) * cfg_ch c)%nat ->
     (Z.to_nat (fr_head fr + pending s) * cfg_ch c <= x + Z.to_nat (cfg_cap c) * cfg_ch c)%nat ->
     fr_ring fr !! (x mod (Z.to_nat (cfg_cap c) * cfg_ch c))%nat = sp_hist s !! x) /\
  fr_overflow fr = u32 (sp_offered s - fr_head fr - in_hand s).
Proof.
  unfold harp_freerun_new. destruct (cfg_bad c) eqn:Hbad; [done|]. cbn [mbind option_bind]. intros [= <-] Hc Hl Hr.
  unfold cfg_bad in Hbad. rewrite !orb_false_iff in Hbad. destruct Hbad as ((((B1 & _) & _) & B2) & _).
  apply Nat.ltb_ge in B1. apply Z.ltb_ge in B2.
  match type of Hr with rtc _ ?i _ => assert (spsc_ok i /\ counted i /\ fr_cap (sp_fr i) = cfg_cap c /\ fr_ch (sp_fr i) = cfg_ch c) as H0 end.
  { split; [|done]. constructor; try done; cbn [sp_fr spsc_init fr_head fr_tail fr_cap fr_ch pending sp_prod]; try lia.
    - split; [cbn; lia|]. split; [cbn; lia|done].
    - intros x Hx. cbn in Hx. lia. }
  revert H0. induction Hr as [s|s1 s2 s3 Hst _ IH].
  - intros (Hok & Hct & E1 & E2). destruct Hok as [Hri Hca Ho Hbd Hh Hcs Hpr Hpl Hout]. unfold in_place, slot in Hpl. rewrite E1, E2 in *.
    assert (0 <= pending s) by (unfold pending, prod_ok in *; destruct (sp_prod s); lia).
    cbv zeta. split_and!; [lia|lia|exact Hh|exact Hout|exact Hpl|exact Hct].
  - intros (Hok & Hct & E1 & E2). apply IH. split; [by eapply spsc_ok_step|]. split; [by eapply counted_step|].
    destruct Hst as [s inp n Hp Hn Hi Hb fr|s tail inp n Hp fr k|s tail inp k Hp fr|s Hcn|s head Hcn r]; cbn [sp_fr]; try done.
    + destruct (count_same n k fr) as (_ & _ & _ & C4 & C5). change (fr_cap (push_copy inp k (push_count n k fr))) with (fr_cap (push_count n k fr)).
      change (fr_ch (push_copy inp k (push_count n k fr))) with (fr_ch (push_count n k fr)). by rewrite C4, C5.
    + destruct (publish_same tail k fr) as (_ & _ & _ & P4 & P5). by rewrite P4, P5.
    + unfold r, fr_take_span. cbv zeta. by destruct (_ =? 0).
Qed.

(** ** Concrete runs *)

Definition demo_cfg : harp_freerun_cfg := mk_cfg 1 F64_ONE F64_ONE 1 3.
Definition demo_fr : harp_freerun :=
  Eval vm_compute in default (mk_fr 0 0 0 0 0 0 [] 0 0 false (mk_clock 0 false 0 0 0 0 0 0 0 0 0) 0 0 0 0 false) (harp_freerun_new demo_cfg (Some [7; 7; 7])).

(** Two frames are pushed, the callback takes them, three more are pushed. *)
Definition demo_pushed : spsc := mk_spsc (harp_freerun_push [1; 2] 2 demo_fr).2 PIdle None [1; 2] [] 2.
Definition demo_taken : spsc := mk_spsc (fr_input_cb (sp_fr demo_pushed)).2 PIdle None [1; 2] [1; 2] 2.
Definition demo_again : spsc := mk_spsc (harp_freerun_push [3; 4; 5] 3 (sp_fr demo_taken)).2 PIdle None [1; 2; 3; 4; 5] [1; 2] 5.

Lemma demo_run : rtc spsc_step (spsc_init demo_fr) demo_again.
Proof.
  assert (rtc spsc_step (spsc_init demo_fr) demo_pushed) as H1.
  { eapply rtc_l; [apply (step_load _ [1; 2] 2); [done|ulia|done|vm_compute; reflexivity]|].
    eapply rtc_l; [by eapply step_copy|]. apply rtc_once. match goal with |- spsc_step ?a _ => exact (step_publish a _ _ _ eq_refl) end. }
  assert (rtc spsc_step demo_pushed demo_taken) as H2.
  { eapply rtc_l; [by apply step_cb|]. apply rtc_once. match goal with |- spsc_step ?a _ => exact (step_span a _ eq_refl) end. }
  etransitivity; [exact H1|]. etransitivity; [exact H2|].
  eapply rtc_l; [apply (step_load _ [3; 4; 5] 3); [done|ulia|done|vm_compute; reflexivity]|].
  eapply rtc_l; [by eapply step_copy|]. apply rtc_once.
  match goal with |- spsc_step ?a ?b => pose proof (step_publish a _ _ _ eq_refl) as H; cbv zeta in H;
    match type of H with spsc_step _ ?b' => replace b with b' by (vm_compute; reflexivity); exact H end end.
Qed.

Lemma spsc_fifo_witness :
  0 <= fr_head (sp_fr demo_again) - fr_tail (sp_fr demo_again) <= 3 /\ sp_out demo_again = take (Z.to_nat (fr_tail (sp_fr demo_again)) * 1) (sp_hist demo_again).
Proof.
  destruct (spsc_fifo demo_cfg [7; 7; 7] demo_fr demo_again) as (H1 & _ & H2 & _).
  - vm_compute. reflexivity.
  - vm_compute. reflexivity.
  - reflexivity.
  - exact demo_run.
  - split; [exact H1|exact H2].
Defined.

(** The callback frees a span before the resampler has read it: in this run the
    span it was given, frames 0 and 1 of the ring, is overwritten by the next push,
    which finds the whole ring free and drops nothing. *)
Lemma freed_span_overwritten :
  (fr_input_cb (sp_fr demo_pushed)).1 = Some (0, 2) /\
  span_floats (Some (0, 2)) (sp_fr demo_taken) = [1; 2] /\
  fr_overflow (sp_fr demo_again) = 0 /\ span_floats (Some (0, 2)) (sp_fr demo_again) = [4; 5].
Proof. split; [|split; [|split]]; vm_compute; reflexivity. Qed.
