(* ===== verification/Rtp.v ===== *)
(** * RTP audio

    host/rtp.c's packet codec, the device's emission of a rendered block as one or
    more datagrams (harp-deviced.c, with its fault injection), and the host's
    receiver and sender of host/rtp_udp.c: loss accounting, the extension of the
    timestamp, the feed of the elastic buffer.  Sockets are arguments. *)
From Stdlib Require Import ZArith Lia List Bool.
From stdpp Require Import base tactics list numbers.
From S2P Require Import Prelude Frame Device Freerun.
Open Scope Z_scope.
Open Scope list_scope.

Definition HARP_RTP_HDR_BYTES : nat := 12.
Definition HARP_RTP_PT_AUDIO : Z := 96.
Definition HARP_RTP_PT_GROUP : Z := 97.
Definition HARP_RTP_MAX_GROUP_SLOTS : nat := 8.

Record harp_rtp_hdr := mk_rtp { rtp_pt : Z; rtp_marker : Z; rtp_seq : Z; rtp_timestamp : Z; rtp_ssrc : Z }.

(** Network byte order. *)
Definition rtp_put16 (v : Z) : list Z := [u8 (Z.shiftr v 8); u8 v].
Definition rtp_put32 (v : Z) : list Z := [u8 (Z.shiftr v 24); u8 (Z.shiftr v 16); u8 (Z.shiftr v 8); u8 v].
Definition rtp_get16 (l : list Z) (o : nat) : Z := u16 (Z.lor (Z.shiftl (byte_at l o) 8) (byte_at l (o + 1))).
Definition rtp_get32 (l : list Z) (o : nat) : Z :=
  Z.lor (Z.lor (Z.lor (u32 (Z.shiftl (byte_at l o) 24)) (u32 (Z.shiftl (byte_at l (o + 1)) 16))) (u32 (Z.shiftl (byte_at l (o + 2)) 8))) (byte_at l (o + 3)).

Definition rtp_header (h : harp_rtp_hdr) : list Z :=
  [0x80; u8 (Z.lor (if negb (rtp_marker h =? 0) then 0x80 else 0) (Z.land (rtp_pt h) 0x7F))] ++
  rtp_put16 (rtp_seq h) ++ rtp_put32 (rtp_timestamp h) ++ rtp_put32 (rtp_ssrc h).

(** [None]: the buffer of [cap] bytes is too small. *)
Definition harp_rtp_pack (cap : Z) (h : harp_rtp_hdr) (payload : list Z) : option (list Z) :=
  if cap <? Z.of_nat HARP_RTP_HDR_BYTES + zlen payload then None else Some (rtp_header h ++ payload).

(** Where the payload starts, past the contributing sources and an extension. *)
Definition rtp_offset (pkt : list Z) : option nat :=
  if (length pkt <? HARP_RTP_HDR_BYTES)%nat then None
  else if negb (Z.shiftr (byte_at pkt 0) 6 =? 2) then None
  else
    let cc := Z.to_nat (Z.land (byte_at pkt 0) 0x0F) in
    let off := (HARP_RTP_HDR_BYTES + cc * 4)%nat in
    if (length pkt <? off)%nat then None
    else if Z.land (Z.shiftr (byte_at pkt 0) 4) 1 =? 0 then Some off
    else if (length pkt <? off + 4)%nat then None
    else
      let off := (off + 4 + Z.to_nat (rtp_get16 pkt (off + 2)) * 4)%nat in
      if (length pkt <? off)%nat then None else Some off.

Definition harp_rtp_unpack (pkt : list Z) : option (harp_rtp_hdr * list Z) :=
  off ← rtp_offset pkt;
  Some (mk_rtp (Z.land (byte_at pkt 1) 0x7F) (Z.land (Z.shiftr (byte_at pkt 1) 7) 1) (rtp_get16 pkt 2) (rtp_get32 pkt 4) (rtp_get32 pkt 8),
        drop off pkt).

Definition harp_rtp_unwrap_ts (ts32 prev64 : Z) : Z := u64 (prev64 + s32 (ts32 - u32 prev64)).

(** The packets lost before this one, and whether it moves the high-water mark. *)
Definition harp_rtp_loss_gap (last_seq seq : Z) : Z * bool :=
  let gap := u16 (seq - last_seq - 1) in
  if gap <? 0x8000 then (gap, true) else (0, false).

(** ** The device's side *)

(** [rtp_seq], the packet held back by the reorder injection with the number of
    packets it still waits for, and the datagrams handed to the socket. *)
Record rtp_out := mk_rtp_out { ro_seq : Z; ro_held : harp_rtp_hdr * list Z; ro_countdown : nat; ro_sent : list (list Z) }.

Definition float_bytes (l : list Z) : list Z := flat_map put32 l.

Section emit.
Context (g_rtp_drop_pct g_rtp_reorder_pct : Z).

(** [(seq * 2654435761u) % 100u < pct] *)
Definition rtp_inject (pct seq : Z) : bool := (0 <? pct) && (u32 (seq * 2654435761) mod 100 <? u32 pct).

(** The socket's result is not looked at. *)
Definition rtp_send_one (h : harp_rtp_hdr) (payload : list Z) (o : rtp_out) : rtp_out :=
  mk_rtp_out (ro_seq o) (ro_held o) (ro_countdown o) (ro_sent o ++ [rtp_header h ++ payload]).

Definition rtp_next_seq (o : rtp_out) : rtp_out := mk_rtp_out (u16 (ro_seq o + 1)) (ro_held o) (ro_countdown o) (ro_sent o).

(** One group of at most eight slots of a wide frame. *)
Definition group_floats (ns S off cnt : nat) (samples : list Z) : list Z :=
  flat_map (fun s => map (fun c => nth (s * S + off + c) samples 0) (seq 0 cnt)) (seq 0 ns).

Definition rtp_group (ns S : nat) (samples : list Z) (msc ssrc : Z) (o : rtp_out) (off : nat) : rtp_out :=
  let cnt := Nat.min (S - off) HARP_RTP_MAX_GROUP_SLOTS in
  let gseq := ro_seq o in
  let o := rtp_next_seq o in
  if rtp_inject g_rtp_drop_pct gseq then o
  else
    rtp_send_one (mk_rtp HARP_RTP_PT_GROUP 0 gseq (u32 msc) ssrc)
      ([u8 (Z.of_nat off); u8 (Z.of_nat cnt); u8 (Z.of_nat S); 0] ++ float_bytes (group_floats ns S off cnt samples)) o.

Definition group_offsets (S : nat) : list nat := map (fun i => (i * HARP_RTP_MAX_GROUP_SLOTS)%nat) (seq 0 ((S + 7) / HARP_RTP_MAX_GROUP_SLOTS)).

(** Sent after three later packets. *)
Definition rtp_flush_held (o : rtp_out) : rtp_out :=
  let k := pred (ro_countdown o) in
  let o := mk_rtp_out (ro_seq o) (ro_held o) k (ro_sent o) in
  if (k =? 0)%nat then rtp_send_one (ro_held o).1 (ro_held o).2 o else o.

Definition HELD_BYTES : Z := 2048 * 4.

Definition rtp_single (payload : list Z) (msc ssrc : Z) (o : rtp_out) : rtp_out :=
  let seq := ro_seq o in
  let o := rtp_next_seq o in
  if rtp_inject g_rtp_drop_pct seq then o
  else
    let h := mk_rtp HARP_RTP_PT_AUDIO 0 seq (u32 msc) ssrc in
    if (0 <? ro_countdown o)%nat then rtp_flush_held (rtp_send_one h payload o)
    else if (zlen payload <=? HELD_BYTES) && rtp_inject g_rtp_reorder_pct seq then mk_rtp_out (ro_seq o) (h, payload) 3 (ro_sent o)
    else rtp_send_one h payload o.

(** [samples]: the floats of the block, [payload_bytes] of them in bytes. *)
Definition audio_rtp_emit (a : audio_state) (samples : list Z) (payload_bytes msc : Z) (o : rtp_out) : rtp_out :=
  if Device.a_rtp_fd a <? 0 then o
  else
    let S := match a_out_slots a with [] => 2%nat | l => length l end in
    if (HARP_RTP_MAX_GROUP_SLOTS <? S)%nat then
      let ns := Z.to_nat (u32 (payload_bytes / (Z.of_nat S * 4))) in
      fold_left (rtp_group ns S samples msc (a_rtp_ssrc a)) (group_offsets S) o
    else rtp_single (take (Z.to_nat payload_bytes) (float_bytes samples)) msc (a_rtp_ssrc a) o.
End emit.

(** ** The host's side *)

Record harp_rtp_rx := mk_rx {
  rx_ch : nat; rx_fr : harp_freerun; rx_ts64 : Z; rx_have_ts : bool; rx_have_seq : bool; rx_last_seq : Z;
  rx_ok : Z; rx_lost : Z; rx_bad : Z; rx_last_arr : Z }.

(** What the receiver starts from. *)
Definition rx_init (ch : nat) (fr : harp_freerun) : harp_rtp_rx := mk_rx ch fr 0 false false 0 0 0 0 0.

Definition rx_count_bad (rx : harp_rtp_rx) : harp_rtp_rx :=
  mk_rx (rx_ch rx) (rx_fr rx) (rx_ts64 rx) (rx_have_ts rx) (rx_have_seq rx) (rx_last_seq rx) (rx_ok rx) (rx_lost rx) (u64 (rx_bad rx + 1)) (rx_last_arr rx).
Definition rx_arrived (mono : Z) (rx : harp_rtp_rx) : harp_rtp_rx :=
  mk_rx (rx_ch rx) (rx_fr rx) (rx_ts64 rx) (rx_have_ts rx) (rx_have_seq rx) (rx_last_seq rx) (rx_ok rx) (rx_lost rx) (rx_bad rx) mono.

(** Loss accounting. *)
Definition rx_sequence (seq : Z) (rx : harp_rtp_rx) : harp_rtp_rx :=
  let '(lost, last) :=
    if rx_have_seq rx then let '(lost, advance) := harp_rtp_loss_gap (rx_last_seq rx) seq in (lost, if advance : bool then seq else rx_last_seq rx)
    else (0, seq) in
  mk_rx (rx_ch rx) (rx_fr rx) (rx_ts64 rx) (rx_have_ts rx) true last (rx_ok rx) (u64 (rx_lost rx + lost)) (rx_bad rx) (rx_last_arr rx).

(** The timestamp, the clock observation, the samples. *)
Definition rx_deliver (h : harp_rtp_hdr) (pl : list Z) (arr : Z) (rx : harp_rtp_rx) : harp_rtp_rx :=
  let ts := if rx_have_ts rx then harp_rtp_unwrap_ts (rtp_timestamp h) (rx_ts64 rx) else rtp_timestamp h in
  let n := zlen pl / (Z.of_nat (rx_ch rx) * 4) in
  let floats := map (fun i => get32 pl (4 * i)) (seq 0 (length pl / 4)) in
  let fr := (harp_freerun_push floats (u32 n) (harp_freerun_observe ts arr (rx_fr rx))).2 in
  mk_rx (rx_ch rx) fr ts true (rx_have_seq rx) (rx_last_seq rx) (u64 (rx_ok rx + 1)) (rx_lost rx) (rx_bad rx) (rx_last_arr rx).

Definition RX_BUF : nat := 16384.

(** One datagram, its arrival on the monotonic clock and the kernel's stamp if
    there is one (0 counts as none).  The result: processed or malformed. *)
Definition rx_datagram (dgram : list Z) (mono : Z) (stamp : option Z) (rx : harp_rtp_rx) : bool * harp_rtp_rx :=
  let rx := rx_arrived mono rx in
  let arr := match stamp with Some t => if t =? 0 then mono else t | None => mono end in
  match harp_rtp_unpack (take RX_BUF dgram) with
  | Some (h, pl) =>
      if negb (zlen pl mod (Z.of_nat (rx_ch rx) * 4) =? 0) then (false, rx_count_bad rx)
      else (true, rx_deliver h pl arr (rx_sequence (rtp_seq h) rx))
  | None => (false, rx_count_bad rx)
  end.

(** What [poll] and [recvmsg] return, in order; nothing more: a time-out. *)
Inductive rx_ev : Set := RxDatagram (d : list Z) (mono : Z) (stamp : option Z) | RxTimeout | RxError.

(** The number of packets processed, [None] for -1. *)
Fixpoint rx_poll_loop (evs : list rx_ev) (processed : Z) (rx : harp_rtp_rx) : option Z * harp_rtp_rx :=
  match evs with
  | RxDatagram d mono stamp :: evs =>
      let '(ok, rx) := rx_datagram d mono stamp rx in
      rx_poll_loop evs (if ok : bool then processed + 1 else processed) rx
  | RxError :: _ => (None, rx)
  | RxTimeout :: _ | [] => (Some processed, rx)
  end.
Definition harp_rtp_rx_poll (evs : list rx_ev) (rx : harp_rtp_rx) : option Z * harp_rtp_rx := rx_poll_loop evs 0 rx.

Definition harp_rtp_rx_silent_ms (now : Z) (rx : harp_rtp_rx) : Z :=
  if rx_last_arr rx =? 0 then 0xFFFFFFFF
  else if now >? rx_last_arr rx then u32 ((now - rx_last_arr rx) / 1000000) else 0.

(** The sender of the demonstration tool; [sent]: what [send] returned. *)
Record harp_rtp_tx := mk_tx { tx_ch : nat; tx_ssrc : Z; tx_seq : Z }.
Definition harp_rtp_tx_send (ts : Z) (frames : list Z) (sent : list Z -> Z) (tx : harp_rtp_tx) : bool * harp_rtp_tx :=
  let h := mk_rtp HARP_RTP_PT_AUDIO 0 (tx_seq tx) ts (tx_ssrc tx) in
  let tx := mk_tx (tx_ch tx) (tx_ssrc tx) (u16 (tx_seq tx + 1)) in
  match harp_rtp_pack (Z.of_nat RX_BUF) h (float_bytes frames) with
  | Some d => (sent d =? zlen d, tx)
  | None => (false, tx)
  end.
