(* ===== verification/RtpSpec.v ===== *)
(** * RTP audio: theorems

    The packet codec is inverted by the parser, and the receiver's counters are
    exact: what the device emits and the network drops is what it counts. *)
From Stdlib Require Import ZArith Lia List Bool Sorting.Sorted.
From stdpp Require Import base tactics list numbers.
From S2P Require Import Prelude CborFloat Frame Ieee Device Freerun Rtp.
Open Scope Z_scope.
Open Scope list_scope.

(** ** The codec *)

Lemma rtp_get16_put v l r : length l = 2%nat -> is_u16 v -> rtp_get16 (l ++ rtp_put16 v ++ r) 2 = v.
Proof.
  intros Hl Hv. list_elems l Hl. unfold rtp_get16, rtp_put16, byte_at. cbn [app nth Nat.add].
  rewrite lor_shiftl_add_l by (unfold_u; dlia). rewrite Z.shiftr_div_pow2 by lia. unfold_u. change (2 ^ 8) with 256. change (2 ^ 16) with 65536 in *. dlia.
Qed.

Lemma rtp_get32_put v l r o : length l = o -> is_u32 v -> rtp_get32 (l ++ rtp_put32 v ++ r) o = v.
Proof.
  intros Hl Hv. unfold rtp_get32, rtp_put32, byte_at. cbn [app].
  assert (forall k, nth (o + k) (l ++ u8 (Z.shiftr v 24) :: u8 (Z.shiftr v 16) :: u8 (Z.shiftr v 8) :: u8 v :: r) 0 =
    nth k (u8 (Z.shiftr v 24) :: u8 (Z.shiftr v 16) :: u8 (Z.shiftr v 8) :: u8 v :: r) 0) as Hn.
  { intros k. rewrite app_nth2 by lia. f_equal. lia. }
  rewrite !Hn. pose proof (Hn O) as H0. rewrite Nat.add_0_r in H0. rewrite H0. cbn [nth].
  rewrite !u32_shiftl_byte by (auto with harp; lia). rewrite <- !Z.lor_assoc.
  pose proof (u8_range (Z.shiftr v 24)). pose proof (u8_range (Z.shiftr v 16)). pose proof (u8_range (Z.shiftr v 8)). pose proof (u8_range v). unfold is_u8 in *.
  change (2 ^ 8) with 256 in *. rewrite (lor_shiftl_add_l (u8 v) _ 8) by lia. rewrite (lor_shiftl_add_l _ _ 16) by lia. rewrite (lor_shiftl_add_l _ _ 24) by lia.
  rewrite !Z.shiftr_div_pow2 by lia. unfold_u. change (2 ^ 8) with 256. change (2 ^ 16) with 65536. change (2 ^ 24) with 16777216. dlia.
Qed.

Definition rtp_hdr_ok (h : harp_rtp_hdr) : Prop :=
  0 <= rtp_pt h < 128 /\ (rtp_marker h = 0 \/ rtp_marker h = 1) /\ is_u16 (rtp_seq h) /\ is_u32 (rtp_timestamp h) /\ is_u32 (rtp_ssrc h).

Lemma rtp_header_len h : length (rtp_header h) = HARP_RTP_HDR_BYTES.
Proof. done. Qed.

(** Packing and parsing. *)
Lemma rtp_unpack_header h p : rtp_hdr_ok h -> harp_rtp_unpack (rtp_header h ++ p) = Some (h, p).
Proof.
  intros (Hp & Hm & Hs & Ht & Hc). unfold harp_rtp_unpack.
  assert (rtp_offset (rtp_header h ++ p) = Some HARP_RTP_HDR_BYTES) as ->.
  { unfold rtp_offset. rewrite length_app, rtp_header_len. change (byte_at (rtp_header h ++ p) 0) with 0x80.
    destruct (Nat.ltb_spec (HARP_RTP_HDR_BYTES + length p) HARP_RTP_HDR_BYTES); [lia|]. change (negb (Z.shiftr 128 6 =? 2)) with false. cbv iota zeta.
    change (Z.to_nat (Z.land 128 15) * 4)%nat with O. rewrite Nat.add_0_r.
    rewrite (proj2 (Nat.ltb_ge _ _)) by lia. done. }
  cbn [mbind option_bind]. rewrite (drop_app_length' (rtp_header h)) by done. apply (f_equal Some), pair_equal_spec. split; [|done].
  set (b1 := u8 (Z.lor (if negb (rtp_marker h =? 0) then 0x80 else 0) (Z.land (rtp_pt h) 0x7F))).
  assert (rtp_header h ++ p = [0x80; b1] ++ rtp_put16 (rtp_seq h) ++ (rtp_put32 (rtp_timestamp h) ++ rtp_put32 (rtp_ssrc h) ++ p)) as E1 by done.
  assert (rtp_header h ++ p = ([0x80; b1] ++ rtp_put16 (rtp_seq h)) ++ rtp_put32 (rtp_timestamp h) ++ (rtp_put32 (rtp_ssrc h) ++ p)) as E2 by done.
  assert (rtp_header h ++ p = ([0x80; b1] ++ rtp_put16 (rtp_seq h) ++ rtp_put32 (rtp_timestamp h)) ++ rtp_put32 (rtp_ssrc h) ++ p) as E3 by done.
  change (byte_at (rtp_header h ++ p) 1) with b1.
  assert (Z.land b1 0x7F = rtp_pt h /\ Z.land (Z.shiftr b1 7) 1 = rtp_marker h) as [-> ->].
  { unfold b1. change 0x7F with (2 ^ 7 - 1). rewrite (land_ones_mod (rtp_pt h)) by lia. change (2 ^ 7) with 128. rewrite Z.mod_small by lia.
    assert (Z.lor (if negb (rtp_marker h =? 0) then 128 else 0) (rtp_pt h) = 128 * rtp_marker h + rtp_pt h) as ->.
    { destruct Hm as [-> | ->]; cbn [Z.eqb negb]; [rewrite Z.lor_0_l; lia|]. rewrite Z.lor_comm. change 128 with (Z.shiftl 1 7) at 1. rewrite lor_shiftl_add by lia. lia. }
    change (128 - 1) with (2 ^ 7 - 1). rewrite land_ones_mod by lia. rewrite Z.shiftr_div_pow2 by lia. change 1 with (2 ^ 1 - 1) at 1. rewrite (land_ones_mod _ 1) by lia.
    unfold u8. change (2 ^ 8) with 256. change (2 ^ 7) with 128. change (2 ^ 1) with 2. destruct Hm as [-> | ->]; split; dlia. }
  rewrite E1 at 1. rewrite rtp_get16_put by done. rewrite E2 at 1. rewrite rtp_get32_put by done. rewrite E3. rewrite rtp_get32_put by done. by destruct h.
Qed.

(** The extension of a timestamp less than 2^31 away. *)
Lemma unwrap_near t prev : is_u64 t -> - 2 ^ 31 <= t - prev < 2 ^ 31 -> harp_rtp_unwrap_ts (u32 t) prev = t.
Proof.
  intros Ht Hd. unfold harp_rtp_unwrap_ts. assert (s32 (u32 t - u32 prev) = t - prev) as ->.
  { unfold s32. assert (u32 (u32 t - u32 prev) = (t - prev) mod 2 ^ 32) as ->.
    { unfold u32. by rewrite <- Zminus_mod. }
    destruct (Z.le_gt_cases 0 (t - prev)).
    - rewrite Z.mod_small by lia. destruct (Z.ltb_spec (t - prev) (2 ^ 31)); lia.
    - assert ((t - prev) mod 2 ^ 32 = t - prev + 2 ^ 32) as ->.
      { rewrite <- (Z.mod_small (t - prev + 2 ^ 32) (2 ^ 32)) by lia. rewrite <- (Z.mul_1_l (2 ^ 32)) at 2. by rewrite Z.mod_add by lia. }
      destruct (Z.ltb_spec (t - prev + 2 ^ 32) (2 ^ 31)); lia. }
  replace (prev + (t - prev)) with t by lia. by apply u64_small.
Qed.

(** ** A stream *)

Lemma float_bytes_len l : length (float_bytes l) = (4 * length l)%nat.
Proof. induction l as [|x l IH]; [done|]. unfold float_bytes in *. cbn [flat_map]. rewrite length_app, IH. cbn. lia. Qed.

Lemma last_cons_any {A} (l : list A) x y z : List.last (x :: l) y = List.last (x :: l) z.
Proof. revert x. induction l as [|w l IH]; intros x; [done|]. exact (IH w). Qed.

(** The packets between two packets in order. *)
Lemma loss_gap_next s0 l i : (l < i)%nat -> Z.of_nat (i - l) <= 32768 ->
  harp_rtp_loss_gap (u16 (s0 + Z.of_nat l)) (u16 (s0 + Z.of_nat i)) = (Z.of_nat (i - l) - 1, true).
Proof.
  intros Hi Hd. unfold harp_rtp_loss_gap.
  assert (u16 (u16 (s0 + Z.of_nat i) - u16 (s0 + Z.of_nat l) - 1) = Z.of_nat (i - l) - 1) as ->.
  { unfold u16. rewrite <- Zminus_mod_idemp_l, <- Zminus_mod, Zminus_mod_idemp_l. replace (_ - _ - 1) with (Z.of_nat (i - l) - 1) by lia. apply Z.mod_small. change (2 ^ 16) with 65536. lia. }
  by rewrite (proj2 (Z.ltb_lt _ 0x8000)) by lia.
Qed.

Section stream.
Context (pct : Z) (a : audio_state) (ns : nat) (blk : nat -> list Z) (msc0 s0 : Z).
#[local] Notation S := (match a_out_slots a with [] => 2%nat | l => length l end).

(** Block [i] starts at sample [msc0 + i * ns]. *)
Definition block_msc (i : nat) : Z := msc0 + Z.of_nat i * Z.of_nat ns.
Definition block_emit (o : rtp_out) (i : nat) : rtp_out := audio_rtp_emit pct 0 a (blk i) (Z.of_nat (ns * S * 4)) (block_msc i) o.
Definition dgram (i : nat) : list Z :=
  rtp_header (mk_rtp HARP_RTP_PT_AUDIO 0 (u16 (s0 + Z.of_nat i)) (u32 (block_msc i)) (a_rtp_ssrc a)) ++ float_bytes (blk i).
Definition sent_blocks (n : nat) : list nat := List.filter (fun i => negb (rtp_inject pct (u16 (s0 + Z.of_nat i)))) (seq 0 n).

Hypothesis (Hfd : 0 <= a_rtp_fd a) (HS : (S <= HARP_RTP_MAX_GROUP_SLOTS)%nat) (Hblk : forall i, length (blk i) = (ns * S)%nat).

Lemma stream_emit_run n : forall o, ro_countdown o = O -> ro_seq o = u16 s0 ->
  let o' := fold_left block_emit (seq 0 n) o in
  ro_sent o' = ro_sent o ++ map dgram (sent_blocks n) /\ ro_seq o' = u16 (s0 + Z.of_nat n) /\ ro_countdown o' = O.
Proof.
  intros o Hc Hs. cbv zeta. induction n as [|n IH].
  - cbn. rewrite app_nil_r, Z.add_0_r. done.
  - destruct IH as (I1 & I2 & I3). unfold sent_blocks in *. rewrite seq_S, fold_left_app, filter_app, map_app. cbn [Nat.add fold_left List.filter map].
    set (o1 := fold_left block_emit (seq 0 n) o) in *. unfold block_emit at 1 2 3. unfold audio_rtp_emit.
    destruct (Z.ltb_spec (a_rtp_fd a) 0); [lia|]. cbv zeta. rewrite (proj2 (Nat.ltb_ge _ _)) by exact HS.
    rewrite Nat2Z.id. rewrite take_ge by (rewrite float_bytes_len, Hblk; lia). unfold rtp_single. cbv zeta. rewrite I2.
    assert (u16 (u16 (s0 + Z.of_nat n) + 1) = u16 (s0 + Z.of_nat (Datatypes.S n))) as Hu.
    { unfold u16. rewrite Zplus_mod_idemp_l. f_equal. lia. }
    destruct (rtp_inject pct (u16 (s0 + Z.of_nat n))) eqn:Hd; cbn [negb map rtp_next_seq ro_seq ro_countdown ro_sent].
    + rewrite app_nil_r, I2, Hu. done.
    + rewrite I3. cbn [Nat.ltb Nat.leb]. change (rtp_inject 0 ?x) with false. rewrite andb_false_r. unfold rtp_send_one. cbn [rtp_next_seq ro_seq ro_countdown ro_sent].
      rewrite I1, I2, Hu, I3, <- app_assoc. done.
Qed.

(** *** Receiving *)

Lemma slots_pos : (0 < S)%nat.
Proof. destruct (a_out_slots a); cbn [length]; lia. Qed.

Hypothesis (Hsize : (12 + 4 * (ns * S) <= RX_BUF)%nat) (Hssrc : is_u32 (a_rtp_ssrc a)).

Lemma dgram_len i : length (dgram i) = (12 + 4 * (ns * S))%nat.
Proof. unfold dgram. rewrite length_app, float_bytes_len, Hblk. done. Qed.

Lemma rx_dgram i mono stamp rx : rx_ch rx = S ->
  exists arr, rx_datagram (dgram i) mono stamp rx =
    (true, rx_deliver (mk_rtp HARP_RTP_PT_AUDIO 0 (u16 (s0 + Z.of_nat i)) (u32 (block_msc i)) (a_rtp_ssrc a)) (float_bytes (blk i)) arr
             (rx_sequence (u16 (s0 + Z.of_nat i)) (rx_arrived mono rx))).
Proof.
  intros Hc. pose proof slots_pos as Hch. unfold rx_datagram. cbv zeta. rewrite take_ge by (rewrite dgram_len; exact Hsize). unfold dgram.
  rewrite rtp_unpack_header by (unfold rtp_hdr_ok; cbn [rtp_pt rtp_marker rtp_seq rtp_timestamp rtp_ssrc]; unfold HARP_RTP_PT_AUDIO; split_and!; try lia; auto with harp).
  assert (zlen (float_bytes (blk i)) mod (Z.of_nat (rx_ch (rx_arrived mono rx)) * 4) = 0) as ->.
  { unfold zlen. rewrite float_bytes_len, Hblk. change (rx_ch (rx_arrived mono rx)) with (rx_ch rx). rewrite Hc.
    replace (Z.of_nat (4 * (ns * S))) with (Z.of_nat ns * (Z.of_nat S * 4)) by lia. apply Z.mod_mul. lia. }
  eexists. reflexivity.
Qed.

(** The next packet: the sequence number has not gone half way round since the
    last one, nor the timestamp. *)
Definition next_ok (i j : nat) : Prop := (i < j)%nat /\ Z.of_nat (j - i) <= 32768 /\ Z.of_nat (j - i) * Z.of_nat ns < 2 ^ 31.

Definition arrivals (got : list (nat * (Z * option Z))) : list rx_ev := map (fun g => RxDatagram (dgram g.1) g.2.1 g.2.2) got.

(** After the block [l], [m] of the blocks since [f] having arrived. *)
Definition rx_at (f l : nat) (m : Z) (rx : harp_rtp_rx) : Prop :=
  rx_ch rx = S /\ rx_have_seq rx = true /\ rx_have_ts rx = true /\ rx_last_seq rx = u16 (s0 + Z.of_nat l) /\
  rx_ts64 rx = u32 (block_msc f) + Z.of_nat (l - f) * Z.of_nat ns /\ rx_ok rx = m /\ rx_lost rx = Z.of_nat (l - f) + 1 - m /\ rx_bad rx = 0.

Lemma rx_next f l m i mono stamp rx : rx_at f l m rx -> (f <= l)%nat -> next_ok l i -> 0 < m <= Z.of_nat (l - f) + 1 ->
  2 ^ 32 + Z.of_nat (i - f) * Z.of_nat ns < 2 ^ 64 -> Z.of_nat (i - f) + 1 < 2 ^ 64 ->
  exists rx', rx_datagram (dgram i) mono stamp rx = (true, rx') /\ rx_at f i (m + 1) rx'.
Proof.
  intros (R1 & R2 & R3 & R4 & R5 & R6 & R7 & R8) Hfl (N1 & N2 & N3) Hm Hb Hb2.
  destruct (rx_dgram i mono stamp rx R1) as [arr ->]. eexists. split; [reflexivity|].
  unfold rx_deliver, rx_sequence, rx_arrived. cbn [rx_have_seq rx_last_seq rx_have_ts rx_ts64 rx_ch rx_fr rx_ok rx_lost rx_bad rtp_timestamp].
  rewrite R2, R3, R4, loss_gap_next by done. cbn [rx_have_seq rx_last_seq rx_have_ts rx_ts64 rx_ch rx_fr rx_ok rx_lost rx_bad].
  split_and!; cbn [rx_have_seq rx_last_seq rx_have_ts rx_ts64 rx_ch rx_fr rx_ok rx_lost rx_bad]; try done.
  - rewrite R5. pose proof (u32_range (block_msc f)) as Hu. unfold is_u32 in Hu.
    set (P := u32 (block_msc f) + Z.of_nat (l - f) * Z.of_nat ns).
    assert (u32 (block_msc i) = u32 (u32 (block_msc f) + Z.of_nat (i - f) * Z.of_nat ns)) as ->.
    { unfold u32. rewrite Zplus_mod_idemp_l. f_equal. unfold block_msc. nia. }
    apply unwrap_near; unfold P.
    + pose proof (Z.mul_nonneg_nonneg (Z.of_nat (i - f)) (Z.of_nat ns) ltac:(lia) ltac:(lia)). unfold is_u64. lia.
    + pose proof (Z.mul_nonneg_nonneg (Z.of_nat (i - l)) (Z.of_nat ns) ltac:(lia) ltac:(lia)). replace (Z.of_nat (i - f)) with (Z.of_nat (l - f) + Z.of_nat (i - l)) by lia. lia.
  - rewrite R6. apply u64_small. unfold is_u64. lia.
  - rewrite R7. rewrite u64_small by (unfold is_u64; lia). lia.
Qed.

Lemma rx_rest f got : forall l m rx processed, rx_at f l m rx -> (f <= l)%nat -> 0 < m <= Z.of_nat (l - f) + 1 ->
  Sorted next_ok (l :: map fst got) -> (forall j, In j (map fst got) -> 2 ^ 32 + Z.of_nat (j - f) * Z.of_nat ns < 2 ^ 64 /\ Z.of_nat (j - f) + 1 < 2 ^ 64) ->
  exists rx', rx_poll_loop (arrivals got) processed rx = (Some (processed + zlen got), rx') /\ rx_at f (List.last (map fst got) l) (m + zlen got) rx'.
Proof.
  induction got as [|[i [mono stamp]] got IH]; intros l m rx processed Hat Hfl Hm Hso Hb; cbn [arrivals map rx_poll_loop List.last fst snd].
  - exists rx. rewrite zlen_nil, !Z.add_0_r. done.
  - inversion Hso as [|? ? Hso' Hhd]; subst. inversion Hhd as [|? ? Hn]; subst. cbn [fst] in *.
    destruct (Hb i ltac:(by left)) as [Hb1 Hb2]. destruct (rx_next f l m i mono stamp rx Hat Hfl Hn Hm Hb1 Hb2) as (rx1 & -> & Hat1).
    destruct Hn as (N1 & N2 & N3).
    destruct (IH i (m + 1) rx1 (processed + 1) Hat1 ltac:(lia) ltac:(lia) Hso' ltac:(intros j Hj; apply Hb; by right)) as (rx' & H1 & H2).
    exists rx'. unfold arrivals in H1. rewrite H1, zlen_cons. split; [do 2 f_equal; lia|].
    replace (m + (1 + zlen got)) with (m + 1 + zlen got) by lia.
    destruct got as [|g got]; [exact H2|]. cbn [map] in H2 |- *. rewrite (last_cons_any (map fst got) (fst g) l i). exact H2.
Qed.

(** C19: the loss count is exact.  A device emitting consecutive blocks of a stream
    of at most eight slots sends one datagram for each block its drop injection
    spares, numbered and stamped by position.  However the network thins that
    sequence out (keeping the order, with the sequence number never half way round
    between two arrivals), the receiver processes every datagram that arrives, counts
    as lost exactly the blocks between the first and the last that did not, finds
    none malformed, and extends the 32-bit timestamps to the true 64-bit distance. *)
Theorem rtp_loss_exact (n : nat) (o : rtp_out) (fr : harp_freerun) (g0 : nat * (Z * option Z)) (got : list (nat * (Z * option Z))) :
  ro_countdown o = O -> ro_seq o = u16 s0 -> ro_sent o = [] -> 2 ^ 32 + Z.of_nat n * Z.of_nat ns < 2 ^ 64 -> Z.of_nat n < 2 ^ 63 ->
  Sorted next_ok (map fst (g0 :: got)) -> (forall j, In j (map fst (g0 :: got)) -> In j (sent_blocks n)) ->
  let first := g0.1 in let last := List.last (map fst got) g0.1 in
  ro_sent (fold_left block_emit (seq 0 n) o) = map dgram (sent_blocks n) /\
  exists rx', harp_rtp_rx_poll (arrivals (g0 :: got)) (rx_init S fr) = (Some (zlen (g0 :: got)), rx') /\
    rx_ok rx' = zlen (g0 :: got) /\ rx_lost rx' = Z.of_nat (last - first) + 1 - zlen (g0 :: got) /\ rx_bad rx' = 0 /\
    rx_ts64 rx' = u32 (block_msc first) + Z.of_nat (last - first) * Z.of_nat ns.
Proof.
  intros Hc Hs Hse Hn Hn2 Hso Hin first last. destruct (stream_emit_run n o Hc Hs) as (E1 & _). split; [by rewrite E1, Hse|].
  destruct g0 as [f [mono stamp]]. cbn [map fst] in *. unfold harp_rtp_rx_poll. cbn [arrivals map rx_poll_loop fst snd].
  destruct (rx_dgram f mono stamp (rx_init S fr) eq_refl) as [arr ->].
  match goal with |- context [rx_poll_loop _ _ ?x] => assert (rx_at f f 1 x) as Hat end.
  { unfold rx_deliver, rx_sequence, rx_arrived, rx_init. cbn [rx_have_seq rx_last_seq rx_have_ts rx_ts64 rx_ch rx_fr rx_ok rx_lost rx_bad rtp_timestamp].
    unfold rx_at. rewrite Nat.sub_diag. split_and!; cbn [rx_have_seq rx_last_seq rx_have_ts rx_ts64 rx_ch rx_fr rx_ok rx_lost rx_bad]; try done; try lia. }
  assert (forall j, In j (map fst got) -> 2 ^ 32 + Z.of_nat (j - f) * Z.of_nat ns < 2 ^ 64 /\ Z.of_nat (j - f) + 1 < 2 ^ 64) as Hb.
  { intros j Hj. specialize (Hin j (or_intror Hj)). unfold sent_blocks in Hin. apply filter_In in Hin as [Hin _]. apply in_seq in Hin.
    pose proof (Z.mul_le_mono_nonneg_r (Z.of_nat (j - f)) (Z.of_nat n) (Z.of_nat ns) ltac:(lia) ltac:(lia)). lia. }
  match goal with |- context [rx_poll_loop _ _ ?x] => destruct (rx_rest f got f 1 x 1 Hat ltac:(lia) ltac:(lia) Hso Hb) as (rx' & H1 & H2) end.
  unfold arrivals in H1. exists rx'. change (0 + 1) with 1. rewrite H1. rewrite zlen_cons. split; [done|].
  destruct H2 as (_ & _ & _ & _ & A5 & A6 & A7 & A8). unfold first, last. by rewrite A5, A6, A7, A8.
Qed.
End stream.

Definition demo_stream : audio_state :=
  mk_audio true true (-1) (-1) 3 0 0x48415250 0 (-1) false 0 0 48000 2 0 0 0 0 [0; 1] [] false 0 0 false false.

Definition demo_rx_fr : harp_freerun :=
  mk_fr 2 F64_ONE F64_ONE F64_ONE 8 2 (repeat 0 16) 0 0 false (mk_clock F64_ONE false 0 0 0 0 0 0 0 0 0) F64_ONE 0 0 0 false.

(** Five blocks from sequence number 65534, of which the network keeps three. *)
Lemma rtp_loss_exact_witness :
  exists rx', harp_rtp_rx_poll (arrivals demo_stream 2 (fun _ => [1; 2; 3; 4]) 1000 65534 [(0%nat, (5, None)); (1%nat, (6, None)); (4%nat, (9, None))]) (rx_init 2 demo_rx_fr) =
    (Some 3, rx') /\ rx_lost rx' = 2 /\ rx_ts64 rx' = 1008.
Proof.
  destruct (rtp_loss_exact 0 demo_stream 2 (fun _ => [1; 2; 3; 4]) 1000 65534 ltac:(vm_compute; discriminate)
    ltac:(apply Nat.leb_le; vm_compute; reflexivity) (fun _ => eq_refl) ltac:(apply Nat.leb_le; vm_compute; reflexivity) ltac:(vm_compute; split; [discriminate|reflexivity])
    5 (mk_rtp_out 65534 (mk_rtp 0 0 0 0 0, []) 0 []) demo_rx_fr (0%nat, (5, None)) [(1%nat, (6, None)); (4%nat, (9, None))]) as (_ & rx' & H1 & _ & H2 & _ & H3).
  - reflexivity.
  - reflexivity.
  - reflexivity.
  - lia.
  - lia.
  - repeat constructor; cbn [fst]; lia.
  - vm_compute. intuition lia.
  - exists rx'. split; [exact H1|]. split; [rewrite H2; reflexivity|rewrite H3; reflexivity].
Defined.
