(* ===== verification/Pacing.v ===== *)
(** * The device's audio thread

    device/audio_loop.c: the host-paced loop, which renders the range each pacing
    frame asks for once the events it is fenced on have been consumed, and the
    free-running loop, which renders against the clock and emits to the endpoint
    and over RTP.  The session thread works on the same device meanwhile: [session k]
    is what it does before the [k]-th time this thread looks at shared state,
    and [mono k] the clock then. *)
From Stdlib Require Import ZArith Lia String List Bool.
From stdpp Require Import base tactics list.
From S2P Require Import Prelude CborFloat Frame Object Link Fs Store LogRing Params Evq Ieee Parts Render Device Rtp.
Open Scope Z_scope.
Open Scope list_scope.

Definition HARP_AUDIO_DIR_H2D : Z := 0x01.
Definition HARP_AUDIO_DISCONT : Z := 0x02.
Definition HARP_AUDIO_FENCE_LEN : nat := 4.
Definition RBUF : nat := 16384.
Definition HARP_LOG_ERROR : Z := 3.

(** [%02x] of a byte. *)
Definition hex2 (b : Z) : list Z := [hexd (Z.shiftr b 4); hexd (Z.land b 0xf)].

Section audio.
Context {L : Type} {FC : FpConv} {LM : Libm} (div_oob : Z -> Z) (tone_hz : Z) (rfuel pfuel : nat)
  (session : nat -> device L -> device L) (mono : nat -> Z) (strerror : list Z).
Implicit Types d : device L.

(** ** The thread's state *)

(** [pc_buf]: [rbuf[rpos .. rlen - 1]]; [pc_in] and [pc_out]: the pacing endpoint
    and the audio endpoint; [pc_samples]: the sample buffer; [pc_obs]: how often
    the thread has looked; [pc_hung]: it is stuck, in a fence or in the renderer. *)
Record pace := mk_pace {
  pc_dev : device L; pc_buf : list Z; pc_in : fd; pc_out : fd; pc_samples : list Z; pc_expect : Z; pc_obs : nat; pc_hung : bool }.

Definition pc_set_dev (d : device L) (p : pace) : pace :=
  mk_pace d (pc_buf p) (pc_in p) (pc_out p) (pc_samples p) (pc_expect p) (pc_obs p) (pc_hung p).
Definition pc_upd (f : device L -> device L) (p : pace) : pace := pc_set_dev (f (pc_dev p)) p.
Definition pc_set_in (b : list Z) (f : fd) (p : pace) : pace :=
  mk_pace (pc_dev p) b f (pc_out p) (pc_samples p) (pc_expect p) (pc_obs p) (pc_hung p).
Definition pc_stuck (p : pace) : pace :=
  mk_pace (pc_dev p) (pc_buf p) (pc_in p) (pc_out p) (pc_samples p) (pc_expect p) (pc_obs p) true.

(** The thread looks at shared state. *)
Definition pc_look (p : pace) : pace :=
  mk_pace (session (pc_obs p) (pc_dev p)) (pc_buf p) (pc_in p) (pc_out p) (pc_samples p) (pc_expect p) (S (pc_obs p)) (pc_hung p).
Definition look : SM pace (device L) := fun p => let p := pc_look p in (Some (pc_dev p), p).

(** ** Reading *)

Definition log_ended (eof : bool) d : device L :=
  devlog HARP_LOG_INFO (str "audio") (str "harp-deviced: pacing read ended: " ++ (if eof then str "EOF" else strerror) ++ [10]) d.

(** [hp_read] into [rbuf]; any failure ends the loop, with a line in the log while
    a header is expected. *)
Definition refill (log : bool) : SM pace unit := fun p =>
  match io_read RBUF (pc_in p) with
  | (IoOk ((_ :: _) as l), f) => (Some tt, pc_set_in l f p)
  | (r, f) =>
      let eof := match r with IoOk _ => true | _ => false end in
      (None, (if log then pc_upd (log_ended eof) else fun p => p) (pc_set_in [] f p))
  end.

(** The loop that gathers [n] bytes from the buffer, refilling it; two turns per
    byte are enough. *)
Fixpoint gather (log : bool) (fuel n : nat) (got : list Z) : SM pace (list Z) := fun p =>
  if (n =? 0)%nat then (Some got, p)
  else
    match fuel with
    | O => (None, p)
    | S fuel =>
        match pc_buf p with
        | [] => match refill log p with (Some _, p) => gather log fuel n got p | (None, p) => (None, p) end
        | b => let k := Nat.min (length b) n in gather log fuel (n - k) (got ++ take k b) (pc_set_in (drop k b) (pc_in p) p)
        end
    end.
Definition pace_take (log : bool) (n : nat) : SM pace (list Z) := gather log (2 * n) n [].

(** ** The event fence *)

(** The device after [j] more looks. *)
Fixpoint orbit (k j : nat) d : device L := match j with O => d | S j => session (k + j) (orbit k j d) end.

Definition fence_view (k : nat) d : FenceEnv := {|
  fe_consumed j := es_consumed (d_evt (orbit k j d)); fe_running j := a_running (d_audio (orbit k j d));
  fe_now j := mono (k + j) |}.

(** The wait; the expiry is counted after one more look at [running]. *)
Definition pace_fence (want : Z) : SM pace unit := fun p =>
  let k := pc_obs p in
  let d := pc_dev p in
  let d := if s32 (want - es_consumed (d_evt d)) >? 0 then ctr_inc fence_waits d else d in
  match @fence_wait (fence_view k d) pfuel want (a_offline (d_audio d)) 0 with
  | None => (None, pc_stuck p)
  | Some (waited, timeout, j) =>
      let j := if waited : bool then S j else j in
      let d := orbit k j d in
      (Some tt, mk_pace (if timeout : bool then ctr_inc fence_timeouts d else d) (pc_buf p) (pc_in p) (pc_out p) (pc_samples p) (pc_expect p) (k + j) (pc_hung p))
  end.

(** ** Loopback *)

(** The first place of a slot in a slot list. *)
Fixpoint slot_column (slot : Z) (l : list Z) : option nat :=
  match l with
  | [] => None
  | s :: l => if s =? slot then Some O else i ← slot_column slot l; Some (S i)
  end.

(** The column of the input payload to keep. *)
Definition kept_column (h : harp_audio_hdr) d : option nat :=
  let a := d_audio d in
  if a_loop_on a then
    c ← slot_column (a_loop_in a) (a_in_slots a);
    if (0 <? a_slots h) && (Z.of_nat c <? a_slots h) && (Frame.a_nsamples h <=? AUDIO_MAX_NSAMPLES) then Some c else None
  else None.

(** One column of an interleaved payload. *)
Definition payload_column (slots c n : nat) (payload : list Z) : list Z :=
  map (fun s => get32 payload (s * (slots * 4) + c * 4)) (seq 0 n).

(** [samples[s * slots + out_col] = lpb_col[s]] *)
Definition put_column (slots c : nat) (col samples : list Z) : list Z :=
  fold_left (fun l s => <[(s * slots + c)%nat := nth s col 0]> l) (seq 0 (length col)) samples.

(** ** Rendering *)

Definition render_state (samples : list Z) d : renderst :=
  mk_rs (d_eng d) samples (d_meters d) (repeat acc_zero NPARTS) (repeat false NPARTS) acc_zero false.
Definition set_q (q : evq) d : device L :=
  upd_evt (fun v => mk_evt q (es_txn v) (es_stage v) (es_staged v) (es_consumed v)) d.

(** [render_output] on the shared engine and queue; [None]: it does not return. *)
Definition dev_render (n : nat) (ts : Z) (samples : list Z) d : option (nat * list Z * device L) :=
  let a := d_audio d in
  '(slots, q, st) ← render_output div_oob tone_hz (a_out_slots a) rfuel n (f32_of_Z (a_rate a)) ts (es_q (d_evt d)) (render_state samples d);
  Some (slots, ru_out st, set_q q (set_meters (ru_meters st) (upd_eng (fun _ => ru_eng st) d))).

Definition frame_bytes (h : harp_audio_hdr) (samples : list Z) : list Z := harp_audio_hdr_encode h ++ float_bytes samples.

(** The reply to a frame: the same epoch, timestamp and length. *)
Definition reply_hdr (h : harp_audio_hdr) (slots : nat) : harp_audio_hdr :=
  mk_audio_hdr HARP_AUDIO_FVER 0 (u16 (Z.of_nat slots)) (Frame.a_epoch h) (a_ts h) (u16 (Frame.a_nsamples h)) HARP_AUDIO_FMT_F32.

Definition overlay_loop (keep : option nat) (h : harp_audio_hdr) (payload : list Z) (slots : nat) d (samples : list Z) : list Z :=
  match keep with
  | Some c =>
      let n := Z.to_nat (Frame.a_nsamples h) in
      match slot_column (a_loop_out (d_audio d)) (take slots (a_out_slots (d_audio d))) with
      | Some oc => put_column slots oc (payload_column (Z.to_nat (a_slots h)) c n payload) samples
      | None => samples
      end
  | None => samples
  end.

(** From the rendering on. *)
Definition pace_reply (h : harp_audio_hdr) (keep : option nat) (payload : list Z) : SM pace unit := fun p =>
  let p := pc_look p in
  let n := Z.to_nat (Frame.a_nsamples h) in
  match dev_render n (a_ts h) (pc_samples p) (pc_dev p) with
  | None => (None, pc_stuck p)
  | Some (slots, samples, d) =>
      let samples := overlay_loop keep h payload slots d samples in
      let '(ok, out) := harp_write_all (frame_bytes (reply_hdr h slots) (take (n * slots) samples)) (pc_out p) in
      let p := mk_pace d (pc_buf p) (pc_in p) out samples (pc_expect p) (pc_obs p) (pc_hung p) in
      match ok with
      | Some _ => (Some tt, mk_pace d (pc_buf p) (pc_in p) out samples (u64 (a_ts h + Frame.a_nsamples h)) (pc_obs p) (pc_hung p))
      | None => (None, p)
      end
  end.

(** ** A pacing frame *)

Definition log_malformed (hdr : list Z) d : device L :=
  devlog HARP_LOG_ERROR (str "audio")
    (str "harp-deviced: malformed pacing frame (" ++ hex2 (byte_at hdr 0) ++ str " " ++ hex2 (byte_at hdr 1) ++ str " ...)" ++ [10]) d.

Definition frame_bad (h : harp_audio_hdr) : bool := Z.land (a_dirflags h) HARP_AUDIO_DIR_H2D =? 0.

(** [None]: the loop returns. *)
Definition pace_frame : SM pace unit :=
  hdr ← pace_take true HARP_AUDIO_HDR_LEN;
  let '(ok, h) := harp_audio_hdr_decode hdr in
  if negb ok || frame_bad h then sm_modify (pc_upd (fun d => log_malformed hdr (ctr_inc frame_errors d)));; sm_fail
  else
    (if negb (Z.land (a_dirflags h) HARP_AUDIO_FENCE =? 0)
     then fb ← pace_take false HARP_AUDIO_FENCE_LEN; pace_fence (get32 fb 0) else mret tt);;
    d ← look;
    let keep := kept_column h d in
    payload ← pace_take false (Z.to_nat (harp_audio_payload_len h));
    if AUDIO_MAX_NSAMPLES <? Frame.a_nsamples h then sm_modify (pc_upd (ctr_inc frame_errors));; sm_fail
    else
      p ← sm_get;
      if a_ts h <? pc_expect p then sm_modify (pc_upd (ctr_inc audio_late_frames))
      else pace_reply h keep payload.

(** At most [fuel] frames; [None] when it is still running. *)
Fixpoint pace_loop (fuel : nat) (p : pace) : option pace :=
  match fuel with
  | O => None
  | S fuel =>
      let p := pc_look p in
      if a_running (d_audio (pc_dev p)) then
        match pace_frame p with
        | (Some _, p) => pace_loop fuel p
        | (None, p) => Some p
        end
      else Some p
  end.

(** [samples]: the uninitialised buffer. *)
Definition pace_begin (i o : fd) (samples : list Z) (k : nat) d : pace :=
  mk_pace (upd_eng (on_parts engine_voices_cold) d) [] i o samples 0 k false.
Definition host_paced_loop (fuel : nat) (i o : fd) (samples : list Z) (k : nat) d : option pace :=
  pace_loop fuel (pace_begin i o samples k d).

(** ** Free running *)

Definition timespec : Type := Z * Z.
Definition GIGA : Z := 1000000000.
Definition ts_of (t : Z) : timespec := (t / GIGA, t mod GIGA).
(** [next += period], with one carry. *)
Definition ts_advance (t : timespec) (period : Z) : timespec :=
  let '(sec, nsec) := (t.1 + period / GIGA, t.2 + period mod GIGA) in
  if GIGA <=? nsec then (sec + 1, nsec - GIGA) else (sec, nsec).
Definition ts_diff (a b : timespec) : Z := (a.1 - b.1) * GIGA + (a.2 - b.2).

(** [nsamples * 1e9 / (rate * (1 + trim * 1e-9))] *)
Definition trim_period (a : audio_state) : Z :=
  f64_to_u64 (f64_div (f64_mul (f64_of_Z (a_nsamples a)) (f64_of_Z GIGA))
    (f64_mul (f64_of_Z (a_rate a)) (f64_add F64_ONE (f64_mul (f64_of_Z (a_trim a)) (f64_ratio 1 GIGA))))).

Definition BEHIND_MAX : Z := 50 * 1000000.

Record free := mk_free {
  fl_dev : device L; fl_out : fd; fl_rtp : rtp_out; fl_samples : list Z; fl_msc : Z; fl_discont : bool; fl_primed : bool;
  fl_next : timespec; fl_obs : nat; fl_hung : bool }.

Definition fl_look (f : free) : free :=
  mk_free (session (fl_obs f) (fl_dev f)) (fl_out f) (fl_rtp f) (fl_samples f) (fl_msc f) (fl_discont f) (fl_primed f) (fl_next f) (S (fl_obs f)) (fl_hung f).
Definition fl_now (f : free) : timespec := ts_of (mono (fl_obs f)).
Definition fl_stuck (f : free) : free :=
  mk_free (fl_dev f) (fl_out f) (fl_rtp f) (fl_samples f) (fl_msc f) (fl_discont f) (fl_primed f) (fl_next f) (fl_obs f) true.

Definition set_msc_final (m : Z) (a : audio_state) : audio_state :=
  mk_audio (a_running a) (a_live a) (a_fd a) (a_out_fd a) (a_rtp_fd a) (a_rtp_seq a) (a_rtp_ssrc a) (a_hp_port a) (a_hp_sock a)
    (a_offline a) (a_prebuffer a) (a_mode a) (a_rate a) (a_nsamples a) (a_epoch a) (a_reanchors a) m (a_trim a)
    (a_out_slots a) (a_in_slots a) (a_loop_on a) (a_loop_in a) (a_loop_out a) (a_meter_running a) (a_meter_live a).
Definition add_reanchor (a : audio_state) : audio_state :=
  mk_audio (a_running a) (a_live a) (a_fd a) (a_out_fd a) (a_rtp_fd a) (a_rtp_seq a) (a_rtp_ssrc a) (a_hp_port a) (a_hp_sock a)
    (a_offline a) (a_prebuffer a) (a_mode a) (a_rate a) (a_nsamples a) (a_epoch a) (u64 (a_reanchors a + 1)) (a_msc_final a) (a_trim a)
    (a_out_slots a) (a_in_slots a) (a_loop_on a) (a_loop_in a) (a_loop_out a) (a_meter_running a) (a_meter_live a).

Definition free_hdr (discont : bool) (slots : nat) (msc : Z) (a : audio_state) : harp_audio_hdr :=
  mk_audio_hdr HARP_AUDIO_FVER (if discont then HARP_AUDIO_DISCONT else 0) (u16 (Z.of_nat slots)) (a_epoch a) msc (u16 (a_nsamples a)) HARP_AUDIO_FMT_F32.

Context (drop_pct reorder_pct : Z).

(** Render a block, emit it, publish the position: [None]: the endpoint died, or
    the renderer does not return. *)
Definition free_block : SM free unit := fun f =>
  let d := fl_dev f in let a := d_audio d in
  let n := Z.to_nat (a_nsamples a) in
  match dev_render n (fl_msc f) (fl_samples f) d with
  | None => (None, fl_stuck f)
  | Some (slots, samples, d) =>
      let block := take (n * slots) samples in
      let '(ok, out) :=
        if 0 <=? a_fd a then harp_write_all (frame_bytes (free_hdr (fl_discont f) slots (fl_msc f) a) block) (fl_out f) else (Some tt, fl_out f) in
      match ok with
      | None => (None, mk_free d out (fl_rtp f) samples (fl_msc f) false (fl_primed f) (fl_next f) (fl_obs f) (fl_hung f))
      | Some _ =>
          let rtp := audio_rtp_emit drop_pct reorder_pct a samples (a_nsamples a * Z.of_nat slots * 4) (fl_msc f) (fl_rtp f) in
          let msc := u64 (fl_msc f + a_nsamples a) in
          (Some tt, mk_free (upd_audio (set_msc_final msc) d) out rtp samples msc false (fl_primed f) (fl_next f) (fl_obs f) (fl_hung f))
      end
  end.

(** The pacing after a block: anchor, advance, and re-anchor when more than 50 ms
    behind; otherwise it sleeps. *)
Definition free_pace (f : free) : free :=
  let f := fl_look f in
  let a := d_audio (fl_dev f) in
  if negb (fl_primed f) && (fl_msc f <? a_prebuffer a) then f
  else
    let next := ts_advance (if fl_primed f then fl_next f else fl_now f) (trim_period a) in
    let now := fl_now f in
    if BEHIND_MAX <? ts_diff now next
    then mk_free (upd_audio add_reanchor (ctr_inc audio_overruns (fl_dev f))) (fl_out f) (fl_rtp f) (fl_samples f) (fl_msc f) true true now (fl_obs f) (fl_hung f)
    else mk_free (fl_dev f) (fl_out f) (fl_rtp f) (fl_samples f) (fl_msc f) (fl_discont f) true next (fl_obs f) (fl_hung f).

Fixpoint free_run_loop (fuel : nat) (f : free) : option free :=
  match fuel with
  | O => None
  | S fuel =>
      let f := fl_look f in
      if a_running (d_audio (fl_dev f)) then
        match free_block f with
        | (Some _, f) => free_run_loop fuel (free_pace f)
        | (None, f) => Some f
        end
      else Some f
  end.

(** While the thread runs, [ro_seq] is the stream's [rtp_seq]. *)
Definition free_begin (o : fd) (rtp : rtp_out) (samples : list Z) (k : nat) d : free :=
  let a := d_audio d in
  mk_free (upd_eng (on_parts engine_voices_cold) d) o (mk_rtp_out (a_rtp_seq a) (ro_held rtp) (ro_countdown rtp) (ro_sent rtp)) samples 0 false
    (a_prebuffer a =? 0) (ts_of (mono k)) k false.

(** ** The thread *)

(** The paced TCP channel: its descriptor becomes both endpoints. *)
Definition set_hp_sock (s : Z) (a : audio_state) : audio_state :=
  mk_audio (a_running a) (a_live a) s s (a_rtp_fd a) (a_rtp_seq a) (a_rtp_ssrc a) (a_hp_port a) s
    (a_offline a) (a_prebuffer a) (a_mode a) (a_rate a) (a_nsamples a) (a_epoch a) (a_reanchors a) (a_msc_final a) (a_trim a)
    (a_out_slots a) (a_in_slots a) (a_loop_on a) (a_loop_in a) (a_loop_out a) (a_meter_running a) (a_meter_live a).

Definition log_thread_up d : device L :=
  let a := d_audio d in
  devlog HARP_LOG_INFO (str "audio") (str "harp-deviced: audio thread up: mode=" ++ dec_str (a_mode a) ++ str " fd=" ++ dec_str (a_fd a) ++
    str " out_fd=" ++ dec_str (a_out_fd a) ++ [10]) d.
Definition log_connect_failed (port : Z) d : device L :=
  devlog HARP_LOG_ERROR (str "audio") (str "harp-deviced: host-paced TCP connect-back to :" ++ dec_str port ++ str " failed" ++ [10]) d.
Definition log_paced_exit d : device L :=
  devlog HARP_LOG_INFO (str "audio") (str "harp-deviced: host-paced loop exited" ++ [10]) d.

(** [connect]: what [audio_open_tcp_paced] returns; [i], [o]: the endpoints.  The
    result: the device when the thread has returned, [None] when it has not. *)
Definition audio_thread (connect : Z -> Z) (fuel : nat) (i o : fd) (samples : list Z) (rtp : rtp_out) (k : nat) d : option (device L) :=
  let a := d_audio d in
  let s := if 0 <? a_hp_port a then Some (connect (a_hp_port a)) else None in
  if match s with Some s => s <? 0 | None => false end then Some (log_connect_failed (a_hp_port a) d)
  else
    let d := match s with Some s => upd_audio (set_hp_sock s) d | None => d end in
    let d := log_thread_up d in
    if a_mode (d_audio d) =? 1 then (fun p => log_paced_exit (pc_dev p)) <$> host_paced_loop fuel i o samples k d
    else fl_dev <$> free_run_loop fuel (free_begin o rtp samples k d).
End audio.
