(* ===== verification/PacingSpec.v ===== *)
(** * The device's audio thread: theorems

    How the pacing bytes are cut into reads does not matter; the ranges rendered
    only go forward. *)
From Stdlib Require Import ZArith Lia String List Bool Sorting.Sorted.
From stdpp Require Import base tactics list.
From S2P Require Import Prelude CborFloat Frame Object Link Fs Store LogRing Params Evq Ieee Parts Render RenderSpec Device DeviceSpec Rtp RtpSpec Pacing.
Open Scope Z_scope.
Open Scope list_scope.

Section chunks.
Context {L : Type} {FC : FpConv} {LM : Libm} (div_oob : Z -> Z) (tone_hz : Z) (rfuel pfuel : nat)
  (session : nat -> device L -> device L) (mono : nat -> Z) (strerror : list Z).
Implicit Types d : device L.
Implicit Types p q : @pace L.
#[local] Notation look := (@look L session).
#[local] Notation gather := (@gather L strerror).
#[local] Notation pace_frame := (pace_frame div_oob tone_hz rfuel pfuel session mono strerror).
#[local] Notation pace_loop := (pace_loop div_oob tone_hz rfuel pfuel session mono strerror).

(** ** Reads of any size *)

(** Every read delivers something until the end of the stream. *)
Definition delivers (l : list rd_ev) : Prop := Forall (fun e => match e with RdData b => b <> [] | _ => False end) l.

(** The bytes still to come, and the state with all of them in the buffer. *)
Definition pc_bytes p : list Z := pc_buf p ++ rd_data (fd_rd (pc_in p)).
Definition fd_none : fd := mk_fd [] [] [] 0.
Definition pc_whole p : pace := pc_set_in (pc_bytes p) fd_none p.

Definition eqv p q : Prop := delivers (fd_rd (pc_in p)) /\ delivers (fd_rd (pc_in q)) /\ pc_whole p = pc_whole q.

(** Equivalent states give the same result and equivalent states. *)
Definition resp {A} (m : SM (@pace L) A) : Prop := forall p q, eqv p q -> (m p).1 = (m q).1 /\ eqv (m p).2 (m q).2.

Lemma resp_bind {A B} (m : SM (@pace L) A) (f : A -> SM (@pace L) B) : resp m -> (forall a, resp (f a)) -> resp (m ≫= f).
Proof.
  intros Hm Hf p q H. unfold mbind, SM_bind. destruct (Hm p q H) as [H1 H2].
  destruct (m p) as [r p1], (m q) as [r' q1]. cbn [fst snd] in *. subst r'. destruct r as [a|]; [by apply Hf|done].
Qed.
Lemma resp_ret {A} (a : A) : resp (mret a).
Proof. by intros p q H. Qed.
Lemma resp_fail {A} : resp (@sm_fail (@pace L) A).
Proof. by intros p q H. Qed.

(** What neither reads nor writes the input. *)
Definition blind_in {A} (m : SM (@pace L) A) : Prop :=
  forall p b f, m (pc_set_in b f p) = ((m p).1, pc_set_in b f (m p).2) /\ pc_buf (m p).2 = pc_buf p /\ pc_in (m p).2 = pc_in p.

Lemma resp_blind {A} (m : SM (@pace L) A) : blind_in m -> resp m.
Proof.
  intros Hb p q (D1 & D2 & H). unfold pc_whole in H.
  destruct (Hb p (pc_bytes p) fd_none) as (P1 & P2 & P3). destruct (Hb q (pc_bytes q) fd_none) as (Q1 & Q2 & Q3).
  rewrite H in P1. rewrite P1 in Q1. pose proof (f_equal fst Q1) as E1. pose proof (f_equal snd Q1) as E2. cbn [fst snd] in E1, E2. split; [exact E1|]. unfold eqv, pc_whole, pc_bytes.
  rewrite P2, P3, Q2, Q3. split; [done|]. split; [done|]. exact E2.
Qed.

Lemma blind_upd g : blind_in (sm_modify (pc_upd g)).
Proof. intros p b f. done. Qed.
Lemma blind_look : blind_in look.
Proof. intros p b f. done. Qed.

Lemma blind_fence want : blind_in (pace_fence pfuel session mono want).
Proof.
  intros p b f. unfold pace_fence. cbn [pc_set_in pc_dev pc_obs]. cbv zeta.
  destruct (fence_wait _ _ _ _) as [[[waited timeout] j]|]; [|done]. by destruct timeout.
Qed.

Lemma blind_reply h keep payload : blind_in (pace_reply div_oob tone_hz rfuel session h keep payload).
Proof.
  intros p b f. unfold pace_reply. cbv zeta. cbn [pc_look pc_set_in pc_dev pc_obs pc_samples pc_out pc_expect pc_hung pc_buf pc_in].
  destruct (dev_render _ _ _ _ _ _ _) as [[[slots samples] d]|]; [|done]. cbn [pc_look pc_set_in pc_dev pc_obs pc_samples pc_out pc_expect pc_hung pc_buf pc_in].
  destruct (harp_write_all _ _) as [[u|] out]; done.
Qed.

(** *** Gathering *)

Lemma rd_bytes_cons b r : b <> [] -> rd_data (RdData b :: r) = b ++ rd_data r.
Proof. by destruct b. Qed.

Lemma delivers_read n l w o c : (0 < n)%nat -> delivers l -> l <> [] ->
  exists b r, io_read n (mk_fd l w o c) = (IoOk b, mk_fd r w o c) /\ b <> [] /\ delivers r /\ rd_data l = b ++ rd_data r.
Proof.
  intros Hn Hd Hl. destruct l as [|[b| |] r]; [done| |by inversion Hd..]. inversion Hd as [|? ? Hb Hr]; subst. unfold io_read. cbn [fd_rd fd_wr fd_out fd_corrupt].
  destruct (Nat.ltb_spec n (length b)) as [Hlt|Hge].
  - exists (take n b), (RdData (drop n b) :: r). split; [done|]. split; [intros H; apply (f_equal length) in H; rewrite length_take in H; cbn in H; lia|].
    assert (drop n b <> []) as Hdr by (intros H; apply (f_equal length) in H; rewrite length_drop in H; cbn in H; lia).
    split; [by constructor|]. rewrite !rd_bytes_cons by done. by rewrite app_assoc, take_drop.
  - exists b, r. by rewrite rd_bytes_cons.
Qed.

(** What gathering [n] bytes does to the whole. *)
Definition gathered (log : bool) (n : nat) (got : list Z) p : option (list Z) * pace :=
  if (n <=? length (pc_buf p))%nat then (Some (got ++ take n (pc_buf p)), pc_set_in (drop n (pc_buf p)) fd_none p)
  else (None, (if log then pc_upd (log_ended strerror true) else fun p => p) (pc_set_in [] fd_none p)).

Lemma gather_whole log fuel : forall n got p, delivers (fd_rd (pc_in p)) ->
  (2 * n <= fuel \/ (pc_buf p <> [] /\ 2 * n <= S fuel))%nat ->
  (gather log fuel n got p).1 = (gathered log n got (pc_whole p)).1 /\ delivers (fd_rd (pc_in (gather log fuel n got p).2)) /\
  pc_whole (gather log fuel n got p).2 = (gathered log n got (pc_whole p)).2.
Proof.
  induction fuel as [|fuel IH]; intros n got p Hd Hf.
  - assert (n = O) as -> by lia. cbn [gather Pacing.gather]. change (0 =? 0)%nat with true. cbv iota. cbn [fst snd]. unfold gathered. cbn [Nat.leb].
    rewrite take_0, app_nil_r, drop_0. done.
  - cbn [Pacing.gather]. destruct (Nat.eqb_spec n 0) as [->|Hn].
    { unfold gathered. cbn [Nat.leb fst snd]. rewrite take_0, app_nil_r, drop_0. done. }
    destruct (pc_buf p) as [|x b] eqn:Eb.
    + destruct Hf as [Hf|[Hf _]]; [|done]. unfold refill. destruct p as [d bf [l w o c] out sm ex ob hu]. cbn [pc_buf pc_in pc_dev fd_rd] in *. subst bf.
      destruct l as [|e l].
      * cbn [io_read fd_rd]. unfold gathered, pc_whole, pc_bytes. cbn [pc_set_in pc_buf pc_in fd_rd rd_data app length].
        destruct n as [|n]; [done|]. cbn [Nat.leb]. by destruct log.
      * destruct (delivers_read RBUF (e :: l) w o c ltac:(apply Nat.ltb_lt; vm_compute; reflexivity) Hd ltac:(done)) as (b & r & -> & Hb & Hr & Hdata).
        destruct b as [|y b]; [done|]. set (p1 := pc_set_in _ _ _).
        destruct (IH n got p1 Hr ltac:(right; split; [done|lia])) as (I1 & I2 & I3). rewrite I1, I3.
        assert (pc_whole p1 = pc_whole (mk_pace d [] (mk_fd (e :: l) w o c) out sm ex ob hu)) as <-; [|done].
        unfold pc_whole, pc_bytes, p1. cbn [pc_set_in pc_buf pc_in fd_rd]. by rewrite Hdata.
    + set (k := Nat.min (length (x :: b)) n). set (p1 := pc_set_in _ _ _).
      assert (1 <= k <= n /\ k <= length (x :: b))%nat as (K1 & K2) by (unfold k; cbn [length]; lia).
      assert (delivers (fd_rd (pc_in p1))) as Hd1 by done.
      destruct (IH (n - k)%nat (got ++ take k (x :: b)) p1 Hd1 ltac:(left; lia)) as (I1 & I2 & I3). rewrite I1, I3.
      split; [|split; [exact I2|]]; unfold gathered, pc_whole, pc_bytes, p1; cbn [pc_set_in pc_buf pc_in fd_rd fst snd]; rewrite Eb, length_app, length_drop;
        set (r := rd_data (fd_rd (pc_in p))); rewrite length_app; set (m := length (x :: b)) in *; set (bb := x :: b) in *;
        (assert ((n - k <=? m - k + length r)%nat = (n <=? m + length r)%nat) as -> by (destruct (Nat.leb_spec n (m + length r)); [apply Nat.leb_le|apply Nat.leb_gt]; lia));
        destruct (n <=? m + length r)%nat; cbn [fst snd]; try done.
      * f_equal. rewrite <- app_assoc. f_equal. unfold k. rewrite !take_app.
        destruct (Nat.le_ge_cases n m).
        -- rewrite Nat.min_r by lia. rewrite Nat.sub_diag, take_0, length_drop. fold m. replace (0 - (m - n))%nat with O by lia.
           replace (n - m)%nat with O by lia. by rewrite take_0, !app_nil_r.
        -- rewrite Nat.min_l by lia. rewrite (take_ge bb m), (take_ge bb n) by (fold m; lia). rewrite drop_ge by (fold m; lia). by rewrite take_nil, length_nil, Nat.sub_0_r.
      * assert (drop (n - k) (drop k bb ++ r) = drop n (bb ++ r)) as ->; [|done]. rewrite !drop_app, length_drop, drop_drop. fold m. f_equal; f_equal; lia.
Qed.

Lemma gathered_eqv log n got p : gathered log n got p = gathered log n got (pc_set_in (pc_buf p) fd_none p).
Proof. unfold gathered. cbn [pc_set_in pc_buf]. done. Qed.

Lemma resp_take log n : resp (pace_take strerror log n).
Proof.
  intros p q (D1 & D2 & H). unfold pace_take.
  destruct (gather_whole log (2 * n) n [] p D1 ltac:(left; lia)) as (P1 & P2 & P3).
  destruct (gather_whole log (2 * n) n [] q D2 ltac:(left; lia)) as (Q1 & Q2 & Q3).
  rewrite P1, Q1, H. split; [done|]. split; [done|]. split; [done|]. by rewrite P3, Q3, H.
Qed.

Lemma resp_get_expect {A} (f : Z -> SM (@pace L) A) : (forall x, resp (f x)) -> resp (p ← sm_get; f (pc_expect p)).
Proof.
  intros Hf p q H. unfold mbind, SM_bind, sm_get. assert (pc_expect p = pc_expect q) as ->; [|by apply Hf].
  destruct H as (_ & _ & H). exact (f_equal (fun p => pc_expect p) H).
Qed.

Lemma resp_frame : resp pace_frame.
Proof.
  apply resp_bind; [apply resp_take|intros hdr]. destruct (harp_audio_hdr_decode hdr) as [ok h].
  destruct (negb ok || frame_bad h); [apply resp_bind; [apply resp_blind, blind_upd|intros _; apply resp_fail]|].
  apply resp_bind.
  { destruct (negb _); [|apply resp_ret]. apply resp_bind; [apply resp_take|intros fb]. apply resp_blind, blind_fence. }
  intros _. apply resp_bind; [apply resp_blind, blind_look|intros d]. apply resp_bind; [apply resp_take|intros payload].
  destruct (AUDIO_MAX_NSAMPLES <? Frame.a_nsamples h); [apply resp_bind; [apply resp_blind, blind_upd|intros _; apply resp_fail]|].
  apply (resp_get_expect (fun x => if a_ts h <? x then _ else _)). intros x.
  destruct (a_ts h <? x); [apply resp_blind, blind_upd|apply resp_blind, blind_reply].
Qed.

Lemma eqv_dev p q : eqv p q -> pc_dev p = pc_dev q.
Proof. intros (_ & _ & H). exact (f_equal (fun p => pc_dev p) H). Qed.

Definition eqv_opt (a b : option pace) : Prop := match a, b with Some p, Some q => eqv p q | None, None => True | _, _ => False end.

Lemma resp_loop fuel : forall p q, eqv p q -> eqv_opt (pace_loop fuel p) (pace_loop fuel q).
Proof.
  induction fuel as [|fuel IH]; intros p q H; [done|]. cbn [Pacing.pace_loop]. cbv zeta.
  destruct (resp_blind look blind_look p q H) as [_ H1]. change (look p).2 with (pc_look session p) in H1. change (look q).2 with (pc_look session q) in H1.
  rewrite (eqv_dev _ _ H1). destruct (a_running _); [|exact H1]. destruct (resp_frame _ _ H1) as [R1 R2].
  destruct (pace_frame (pc_look session p)) as [r p1], (pace_frame (pc_look session q)) as [r' q1]. cbn [fst snd] in *. subst r'.
  destruct r; [by apply IH|exact R2].
Qed.

(** C18: how the pacing stream is cut into reads does not matter.  Two endpoints that
    deliver the same bytes, in pieces of any sizes, lead the host-paced loop to the
    same result: the same device, the same frames written, the same position. *)
Theorem pace_chunking (fuel : nat) (i1 i2 o : fd) (samples : list Z) (k : nat) d :
  delivers (fd_rd i1) -> delivers (fd_rd i2) -> rd_data (fd_rd i1) = rd_data (fd_rd i2) ->
  let run i := (fun p => (pc_dev p, pc_out p, pc_samples p, pc_expect p, pc_obs p, pc_hung p)) <$>
    host_paced_loop div_oob tone_hz rfuel pfuel session mono strerror fuel i o samples k d in
  run i1 = run i2.
Proof.
  intros H1 H2 Hd run. assert (eqv (pace_begin i1 o samples k d) (pace_begin i2 o samples k d)) as H.
  { split; [done|]. split; [done|]. unfold pc_whole, pc_bytes, pace_begin. cbn [pc_buf pc_in app]. by rewrite Hd. }
  apply (resp_loop fuel) in H. unfold run, host_paced_loop. unfold eqv_opt in H.
  destruct (pace_loop fuel (pace_begin i1 o samples k d)) as [p|], (pace_loop fuel (pace_begin i2 o samples k d)) as [q|]; try done.
  destruct H as (_ & _ & H). cbn. apply (f_equal Some).
  pose proof (f_equal (fun p => (pc_dev p, pc_out p, pc_samples p, pc_expect p, pc_obs p, pc_hung p)) H) as E. exact E.
Qed.
End chunks.

(** ** The ranges rendered *)

Section ranges.
Context {L : Type} {FC : FpConv} {LM : Libm} (div_oob : Z -> Z) (tone_hz : Z) (rfuel pfuel : nat)
  (session : nat -> device L -> device L) (mono : nat -> Z) (strerror : list Z).
Implicit Types d : device L.
Implicit Types p q : @pace L.
#[local] Notation pace_frame := (pace_frame div_oob tone_hz rfuel pfuel session mono strerror).
#[local] Notation pace_loop := (pace_loop div_oob tone_hz rfuel pfuel session mono strerror).

(** A frame written: its header and its samples. *)
Definition reply : Type := harp_audio_hdr * list Z.
Definition reply_bytes (r : reply) : list Z := frame_bytes r.1 r.2.
Definition reply_end (r : reply) : Z := u64 (a_ts r.1 + Frame.a_nsamples r.1).

(** Between [p] and [p'] at most one reply is written, at or after the cursor, and
    the cursor moves behind it. *)
Definition advances p p' : Prop :=
  fd_wr (pc_out p) = [] -> fd_wr (pc_out p') = [] /\
  ((pc_out p' = pc_out p /\ pc_expect p' = pc_expect p) \/
   exists r, fd_out (pc_out p') = fd_out (pc_out p) ++ reply_bytes r /\ pc_expect p <= a_ts r.1 /\ pc_expect p' = reply_end r /\
     1 <= Frame.a_nsamples r.1 <= AUDIO_MAX_NSAMPLES).

Definition silent_out {A} (m : SM (@pace L) A) : Prop := forall p, pc_out (m p).2 = pc_out p /\ pc_expect (m p).2 = pc_expect p.

Lemma silent_advances {A} (m : SM (@pace L) A) p : silent_out m -> advances p (m p).2.
Proof. intros Hm Hw. destruct (Hm p) as [H1 H2]. rewrite H1, H2. split; [done|]. by left. Qed.

Lemma progress_bind {A B} (m : SM (@pace L) A) (k : A -> SM (@pace L) B) p :
  silent_out m -> (forall a p, advances p (k a p).2) -> advances p ((m ≫= k) p).2.
Proof.
  intros Hm Hk. unfold mbind, SM_bind. destruct (Hm p) as [H1 H2]. destruct (m p) as [[a|] p1]; cbn [snd] in *.
  - specialize (Hk a p1). unfold advances in *. by rewrite H1, H2 in Hk.
  - intros Hw. rewrite H1, H2. split; [done|]. by left.
Qed.

Lemma silent_bind {A B} (m : SM (@pace L) A) (k : A -> SM (@pace L) B) : silent_out m -> (forall a, silent_out (k a)) -> silent_out (m ≫= k).
Proof.
  intros Hm Hk p. unfold mbind, SM_bind. destruct (Hm p) as [H1 H2]. destruct (m p) as [[a|] p1]; cbn [snd] in *; [|done].
  destruct (Hk a p1) as [K1 K2]. by rewrite K1, K2.
Qed.

Lemma silent_gather log fuel : forall n got, silent_out (gather (L := L) strerror log fuel n got).
Proof.
  induction fuel as [|fuel IH]; intros n got p; cbn [gather]; (destruct (n =? 0)%nat; [done|]); [done|].
  destruct (pc_buf p) as [|x b].
  - unfold refill. destruct (io_read RBUF (pc_in p)) as [r f].
    assert (forall eof, pc_out ((if log then pc_upd (log_ended strerror eof) else fun p => p) (pc_set_in [] f p)) = pc_out p /\
      pc_expect ((if log then pc_upd (log_ended strerror eof) else fun p => p) (pc_set_in [] f p)) = pc_expect p) as Hl by (by destruct log).
    destruct r as [[|y b]| |]; cbn [snd]; try apply Hl. destruct (IH n got (pc_set_in (y :: b) f p)) as [-> ->]. done.
  - match goal with |- context [gather strerror log fuel ?a ?b ?c] => destruct (IH a b c) as [-> ->] end. done.
Qed.

Lemma silent_fence want : silent_out (pace_fence pfuel session mono want).
Proof. intros p. unfold pace_fence. cbv zeta. destruct (fence_wait _ _ _ _) as [[[waited timeout] j]|]; [|done]. by destruct timeout. Qed.

Lemma write_all_plain b f : fd_wr f = [] -> harp_write_all b f = (Some tt, mk_fd (fd_rd f) [] (fd_out f ++ b) (fd_corrupt f)).
Proof.
  destruct f as [r w o c]. cbn. intros ->. unfold harp_write_all. cbn [fd_wr length write_loop]. destruct b as [|x b].
  - cbn. by rewrite app_nil_r.
  - cbn [length Nat.eqb io_write fd_wr fd_rd fd_out fd_corrupt]. cbn [write_loop drop length Nat.eqb].
    rewrite drop_ge by done. done.
Qed.

Lemma reply_advances h keep payload p : pc_expect p <= a_ts h -> 1 <= Frame.a_nsamples h <= AUDIO_MAX_NSAMPLES ->
  advances p (pace_reply div_oob tone_hz rfuel session h keep payload p).2.
Proof.
  intros Ht Hn Hw. unfold pace_reply. cbv zeta. cbn [pc_look pc_dev pc_samples pc_out pc_expect pc_obs pc_hung pc_buf pc_in].
  destruct (dev_render _ _ _ _ _ _ _) as [[[slots samples] d]|]; [|split; [done|by left]].
  rewrite write_all_plain by done. cbn [snd pc_out pc_expect fd_wr fd_out]. split; [done|]. right.
  eexists (reply_hdr h slots, _). split; [reflexivity|]. cbn [fst snd reply_hdr a_ts Frame.a_nsamples].
  assert (u16 (Frame.a_nsamples h) = Frame.a_nsamples h) as Hs by (apply u16_small; unfold is_u16, AUDIO_MAX_NSAMPLES in *; lia).
  unfold reply_end. cbn [fst reply_hdr a_ts Frame.a_nsamples]. rewrite Hs. done.
Qed.

Lemma silent_take log n : silent_out (pace_take (L := L) strerror log n).
Proof. intros p. apply silent_gather. Qed.
Lemma silent_upd g : silent_out (sm_modify (pc_upd (L := L) g)).
Proof. by intros p. Qed.
Lemma silent_fail {A} : silent_out (@sm_fail (@pace L) A).
Proof. by intros p. Qed.

Lemma decode_nsamples hdr h : harp_audio_hdr_decode hdr = (true, h) -> 1 <= Frame.a_nsamples h.
Proof.
  unfold harp_audio_hdr_decode, audio_hdr_valid. intros [= H <-]. cbn [a_fver Frame.a_fmt Frame.a_nsamples] in H |- *.
  destruct (negb (byte_at hdr 0 =? _)); [done|]. destruct (negb (get16 hdr 18 =? _)); [done|].
  destruct (Z.eqb_spec (get16 hdr 16) 0); [done|]. unfold get16 in *. pose proof (u16_range (Z.lor (byte_at hdr 16) (Z.shiftl (byte_at hdr (16 + 1)) 8))). unfold is_u16 in *. lia.
Qed.

Lemma frame_advances p : advances p (pace_frame p).2.
Proof.
  revert p. unfold pace_frame. intros p. apply progress_bind; [apply silent_take|]. clear p. intros hdr p.
  destruct (harp_audio_hdr_decode hdr) as [ok h] eqn:Hdec.
  destruct (negb ok || frame_bad h) eqn:Hbad; [apply silent_advances, silent_bind; [apply silent_upd|intros; apply silent_fail]|].
  apply orb_false_iff in Hbad as [Hok _]. destruct ok; [|done]. clear Hok. apply decode_nsamples in Hdec.
  apply progress_bind.
  { destruct (negb _); [|by intros q]. apply silent_bind; [apply silent_take|]. intros fb. apply silent_fence. }
  clear p. intros _ p. apply progress_bind; [by intros q|]. clear p. intros d p. apply progress_bind; [apply silent_take|]. clear p. intros payload p.
  destruct (Z.ltb_spec AUDIO_MAX_NSAMPLES (Frame.a_nsamples h)); [apply silent_advances, silent_bind; [apply silent_upd|intros; apply silent_fail]|].
  unfold mbind, SM_bind, sm_get. destruct (Z.ltb_spec (a_ts h) (pc_expect p)); [apply silent_advances, silent_upd|].
  apply reply_advances; lia.
Qed.

Definition follows (r1 r2 : reply) : Prop := reply_end r1 <= a_ts r2.1.

(** Replies from the cursor [c] on, up to [c']. *)
Fixpoint ranges_from (c : Z) (rs : list reply) (c' : Z) : Prop :=
  match rs with
  | [] => c' = c
  | r :: rs => c <= a_ts r.1 /\ 1 <= Frame.a_nsamples r.1 <= AUDIO_MAX_NSAMPLES /\ ranges_from (reply_end r) rs c'
  end.

Lemma ranges_sorted rs : forall c c', ranges_from c rs c' -> Sorted follows rs.
Proof.
  induction rs as [|r rs IH]; intros c c' H; [constructor|]. destruct H as (_ & _ & H). constructor; [by eapply IH|].
  destruct rs as [|r2 rs]; constructor. exact (proj1 H).
Qed.

Lemma loop_ranges fuel : forall p p', fd_wr (pc_out p) = [] -> pace_loop fuel p = Some p' ->
  exists rs, fd_out (pc_out p') = fd_out (pc_out p) ++ flat_map reply_bytes rs /\ ranges_from (pc_expect p) rs (pc_expect p').
Proof.
  induction fuel as [|fuel IH]; intros p p' Hw; cbn [Pacing.pace_loop]; [done|]. cbv zeta.
  destruct (a_running _); [|intros [= <-]; exists []; cbn; by rewrite app_nil_r].
  pose proof (frame_advances (pc_look session p) Hw) as [Hw1 Ha]. destruct (pace_frame (pc_look session p)) as [r p1]. cbn [snd] in *.
  assert (forall rs, exists rs', (ranges_from (pc_expect p1) rs (pc_expect p') -> ranges_from (pc_expect p) rs' (pc_expect p')) /\
    fd_out (pc_out p1) ++ flat_map reply_bytes rs = fd_out (pc_out p) ++ flat_map reply_bytes rs') as Hx.
  { intros rs. destruct Ha as [[-> ->]|(rp & -> & H2 & H3 & H4)]; [by exists rs|]. exists (rp :: rs). cbn [ranges_from flat_map].
    rewrite <- H3. split; [by intros H|]. cbn [pc_look pc_out]. by rewrite <- app_assoc. }
  destruct r.
  - intros Hl. destruct (IH p1 p' Hw1 Hl) as (rs & H1 & H2). destruct (Hx rs) as (rs' & X1 & X2). exists rs'. split; [by rewrite H1, X2|by apply X1].
  - intros [= <-]. destruct (Hx []) as (rs' & X1 & X2). exists rs'. cbn [flat_map] in X2. rewrite app_nil_r in X2. split; [exact X2|by apply X1].
Qed.

(** the host-paced loop only renders forward.  Whatever bytes arrive on the
    pacing endpoint, and whatever the session does meanwhile, what is written to the
    audio endpoint is a sequence of whole frames of 1 to 1024 samples each, and every
    frame starts at or after the end of the one before: no range is rendered twice
    and none out of order. *)
Theorem paced_ranges_advance (fuel : nat) (i o : fd) (samples : list Z) (k : nat) d (p' : pace) :
  fd_wr o = [] ->
  host_paced_loop div_oob tone_hz rfuel pfuel session mono strerror fuel i o samples k d = Some p' ->
  exists rs, fd_out (pc_out p') = fd_out o ++ flat_map reply_bytes rs /\ Sorted follows rs /\
    List.Forall (fun r => 1 <= Frame.a_nsamples r.1 <= AUDIO_MAX_NSAMPLES) rs.
Proof.
  intros Hw H. destruct (loop_ranges fuel (pace_begin i o samples k d) p' Hw H) as (rs & H1 & H2).
  exists rs. split; [exact H1|]. split; [by eapply ranges_sorted|]. clear H1. revert H2. generalize (pc_expect (pace_begin i o samples k d)).
  induction rs as [|r rs IH]; intros c Hr; [constructor|]. destruct Hr as (_ & Hn & Hr). constructor; [exact Hn|by eapply IH].
Qed.
End ranges.

(** ** Concrete runs *)

(** A stream with a test tone; the second of three frames is late. *)
Definition demo_paced : audio_state := mk_audio true true 5 5 (-1) 0 0 0 (-1) false 0 1 48000 2 0 0 0 0 [0; 1] [] false 0 0 false false.
Definition demo_paced_dev : device unit := upd_audio (fun _ => demo_paced) (demo_dev fs_empty sendq_empty 0).
Definition demo_pacing_frame (ts n : Z) : list Z := harp_audio_hdr_encode (mk_audio_hdr HARP_AUDIO_FVER HARP_AUDIO_DIR_H2D 0 0 ts n HARP_AUDIO_FMT_F32).
Definition demo_pacing : list Z := demo_pacing_frame 0 2 ++ demo_pacing_frame 1 2 ++ demo_pacing_frame 2 1.
Abbreviation demo_run i :=
  (@host_paced_loop unit (fun _ => 0) demo_libm (fun _ => 0) F64_ONE 4 4 (fun _ d => d) Z.of_nat (str "reset") 10 i (mk_fd [] [] [] 0) (repeat 0 68) 0 demo_paced_dev).
Definition demo_whole : fd := mk_fd [RdData demo_pacing] [] [] 0.
Definition demo_pieces : fd := mk_fd [RdData (take 7 demo_pacing); RdData (take 30 (drop 7 demo_pacing)); RdData (drop 37 demo_pacing)] [] [] 0.

Definition shown {L} (p : @pace L) := (pc_dev p, pc_out p, pc_samples p, pc_expect p, pc_obs p, pc_hung p).

Lemma demo_whole_delivers : delivers (fd_rd demo_whole).
Proof. apply Forall_cons. split; [|apply Forall_nil]; [|done]. vm_compute. discriminate. Qed.

Lemma demo_pieces_delivers : delivers (fd_rd demo_pieces).
Proof. repeat (apply Forall_cons; split; [vm_compute; discriminate|]). apply Forall_nil. done. Qed.

Lemma demo_same_bytes : rd_data (fd_rd demo_whole) = rd_data (fd_rd demo_pieces).
Proof. vm_compute. reflexivity. Qed.

Lemma pace_chunking_witness : shown <$> demo_run demo_whole = shown <$> demo_run demo_pieces.
Proof.
  exact (pace_chunking (FC := fun _ => 0) (LM := demo_libm) (fun _ => 0) F64_ONE 4 4 (fun _ d => d) Z.of_nat (str "reset") 10 demo_whole demo_pieces (mk_fd [] [] [] 0) (repeat 0 68) 0 demo_paced_dev
    demo_whole_delivers demo_pieces_delivers demo_same_bytes).
Defined.

Definition demo_written : list Z := match demo_run demo_pieces with Some p => fd_out (pc_out p) | None => [] end.

Lemma demo_returns : (if demo_run demo_pieces then length demo_written else O) = 64%nat.
Proof. vm_compute. reflexivity. Qed.

(** Two frames are answered; the late one is not. *)
Lemma paced_ranges_advance_witness : length demo_written = 64%nat /\
  exists rs, demo_written = flat_map reply_bytes rs /\ Sorted follows rs /\ List.Forall (fun r => 1 <= Frame.a_nsamples r.1 <= AUDIO_MAX_NSAMPLES) rs.
Proof.
  pose proof demo_returns as H. unfold demo_written in *. destruct (demo_run demo_pieces) as [p|] eqn:E; [|done].
  split; [exact H|]. exact (paced_ranges_advance (FC := fun _ => 0) (LM := demo_libm) (fun _ => 0) F64_ONE 4 4 (fun _ d => d) Z.of_nat (str "reset") 10 demo_pieces (mk_fd [] [] [] 0) (repeat 0 68) 0 demo_paced_dev p eq_refl E).
Defined.
