(* ===== verification/Client.v ===== *)
(** * The host's protocol client

    host/client.c: the half of the protocol every host program shares.  One request
    is in flight at a time; what arrives meanwhile is dispatched by [pump_one]:
    objects go into the local store, grants move the credit, other notifications
    reach the owner's callback.  Closures are fetched and pushed object by object. *)
From Stdlib Require Import ZArith Lia String List Bool.
From stdpp Require Import base list.
From S2P Require Import Prelude Cbuf CborEnc CborDec CborFields Sha256 Frame Envelope Object Link Fs Store Device Reply.
Open Scope Z_scope.
Open Scope list_scope.

(** ** State *)

(** The receiving half of a link: a whole message and its stream. *)
Class MsgRecv (L : Type) := msg_next : L -> option (Z * list Z) * L.

(** link.c behind the interface: the transport with the reassembly state, and the
    frame counter; [fuel] bounds the frames of one message. *)
Definition link_next {R : Realloc} {io : Type} {HI : HarpIo io} (fuel : nat) : MsgRecv (link_st io * Z) := fun st =>
  let '(r, s) := harp_link_recv fuel st.1 in
  (match r with Some (RecvMsg strm) => Some (strm, cb_buf (ls_msg s)) | _ => None end, (s, st.2)).

Definition HARP_CLIENT_EIO : Z := -1.
Definition HARP_CLIENT_EDEV : Z := -2.
Definition HARP_CLIENT_EINCOMPAT : Z := -3.
Definition HARP_CLIENT_MAX_CLOSURE : nat := 512.
Definition HARP_CLIENT_SENDQ_CAP : nat := 1024.
Definition HARP_CLIENT_MAX_CAPS : nat := 32.
Definition HARP_CLIENT_MAX_LAT : nat := 8.

(** 0 with the outputs, or an error code. *)
Inductive res (A : Type) : Type := ROk (a : A) | RErr (rc : Z).
Arguments ROk {A}. Arguments RErr {A}.
Definition res_map {A B} (f : A -> res B) (r : res A) : res B := match r with ROk a => f a | RErr rc => RErr rc end.

(** The last device error: [err_method], [err_code], [err_msg]. *)
Record client_err := mk_err { er_method : list Z; er_code : list Z; er_msg : list Z; er_major_min : Z; er_major_max : Z }.

(** [cl_ntfs]: the calls of [on_ntf] so far. *)
Record client (L : Type) := mk_client {
  cl_link : L; cl_world : world; cl_rid : Z; cl_credit : Z; cl_granted : Z; cl_sendq : sendq; cl_drops : Z;
  cl_ntfs : list harp_env; cl_err : client_err; cl_topic : list Z; cl_changed : bool }.
Arguments mk_client {L}. Arguments cl_link {L}. Arguments cl_world {L}. Arguments cl_rid {L}. Arguments cl_credit {L}. Arguments cl_granted {L}.
Arguments cl_sendq {L}. Arguments cl_drops {L}. Arguments cl_ntfs {L}. Arguments cl_err {L}. Arguments cl_topic {L}. Arguments cl_changed {L}.

Definition csendq_empty : sendq := mk_sendq (repeat (repeat 0 HARP_HASH_LEN) HARP_CLIENT_SENDQ_CAP) 0 0 0.

Section setters.
Context {L : Type}.
Implicit Types c : client L.

Definition cl_set_link (l : L) c : client L :=
  mk_client l (cl_world c) (cl_rid c) (cl_credit c) (cl_granted c) (cl_sendq c) (cl_drops c) (cl_ntfs c) (cl_err c) (cl_topic c) (cl_changed c).
Definition cl_set_world (w : world) c : client L :=
  mk_client (cl_link c) w (cl_rid c) (cl_credit c) (cl_granted c) (cl_sendq c) (cl_drops c) (cl_ntfs c) (cl_err c) (cl_topic c) (cl_changed c).
Definition cl_set_rid (r : Z) c : client L :=
  mk_client (cl_link c) (cl_world c) r (cl_credit c) (cl_granted c) (cl_sendq c) (cl_drops c) (cl_ntfs c) (cl_err c) (cl_topic c) (cl_changed c).
Definition cl_set_credit (v : Z) c : client L :=
  mk_client (cl_link c) (cl_world c) (cl_rid c) v (cl_granted c) (cl_sendq c) (cl_drops c) (cl_ntfs c) (cl_err c) (cl_topic c) (cl_changed c).
Definition cl_set_granted (v : Z) c : client L :=
  mk_client (cl_link c) (cl_world c) (cl_rid c) (cl_credit c) v (cl_sendq c) (cl_drops c) (cl_ntfs c) (cl_err c) (cl_topic c) (cl_changed c).
Definition cl_set_sendq (q : sendq) c : client L :=
  mk_client (cl_link c) (cl_world c) (cl_rid c) (cl_credit c) (cl_granted c) q (cl_drops c) (cl_ntfs c) (cl_err c) (cl_topic c) (cl_changed c).
Definition cl_add_drop c : client L :=
  mk_client (cl_link c) (cl_world c) (cl_rid c) (cl_credit c) (cl_granted c) (cl_sendq c) (u64 (cl_drops c + 1)) (cl_ntfs c) (cl_err c) (cl_topic c) (cl_changed c).
Definition cl_surface (e : harp_env) c : client L :=
  mk_client (cl_link c) (cl_world c) (cl_rid c) (cl_credit c) (cl_granted c) (cl_sendq c) (cl_drops c) (cl_ntfs c ++ [e]) (cl_err c) (cl_topic c) (cl_changed c).
Definition cl_set_err (x : client_err) c : client L :=
  mk_client (cl_link c) (cl_world c) (cl_rid c) (cl_credit c) (cl_granted c) (cl_sendq c) (cl_drops c) (cl_ntfs c) x (cl_topic c) (cl_changed c).
Definition cl_set_topic (t : list Z) c : client L :=
  mk_client (cl_link c) (cl_world c) (cl_rid c) (cl_credit c) (cl_granted c) (cl_sendq c) (cl_drops c) (cl_ntfs c) (cl_err c) t true.

Definition on_cstore {A} (m : SM world A) : SM (client L) A :=
  fun c => let '(r, w) := m (cl_world c) in (r, cl_set_world w c).
End setters.

(** ** Parsers inside parsers *)

(** A parser with a local variable, initially [x]. *)
Definition with_local {T X A} (x : X) (m : parser (X * T) A) : parser T X := fun st =>
  let '(r, (d, xt)) := m (st.1, (x, st.2)) in (match r with Some _ => Some xt.1 | None => None end, (d, xt.2)).
(** A parser of the record beside a local variable. *)
Definition beside {T X A} (m : parser T A) : parser (X * T) A := fun st =>
  let '(r, (d, t)) := m (st.1, st.2.2) in (r, (d, (st.2.1, t))).

(** ** Identity *)

Record client_lat := mk_lat { la_rate : Z; la_in : Z; la_out : Z; la_buf : Z }.

(** The strings without their terminators; [ci_caps] and [ci_lat] hold the first
    [ncaps] and [nlat] entries. *)
Record client_identity := mk_ident {
  ci_vendor : list Z; ci_product : list Z; ci_vendor_id : Z; ci_product_id : Z; ci_serial : list Z; ci_fw : list Z;
  ci_engine_id : list Z; ci_engine_ver : list Z; ci_map_hash : harp_hash; ci_boot : Z; ci_txn_max : Z; ci_txn_events : Z;
  ci_floor : Z; ci_nsamples : Z; ci_caps : list (list Z); ci_lats : list client_lat }.

Definition ident_zero : client_identity := mk_ident [] [] 0 0 [] [] [] [] (repeat 0 HARP_HASH_LEN) 0 0 0 0 0 [] [].

Definition ci_set_name (product : bool) (s : list Z) (i : client_identity) : client_identity :=
  mk_ident (if product then ci_vendor i else s) (if product then s else ci_product i) (ci_vendor_id i) (ci_product_id i) (ci_serial i) (ci_fw i)
    (ci_engine_id i) (ci_engine_ver i) (ci_map_hash i) (ci_boot i) (ci_txn_max i) (ci_txn_events i) (ci_floor i) (ci_nsamples i) (ci_caps i) (ci_lats i).
Definition ci_set_id (product : bool) (v : Z) (i : client_identity) : client_identity :=
  mk_ident (ci_vendor i) (ci_product i) (if product then ci_vendor_id i else v) (if product then v else ci_product_id i) (ci_serial i) (ci_fw i)
    (ci_engine_id i) (ci_engine_ver i) (ci_map_hash i) (ci_boot i) (ci_txn_max i) (ci_txn_events i) (ci_floor i) (ci_nsamples i) (ci_caps i) (ci_lats i).
Definition ci_set_serial (s : list Z) (i : client_identity) : client_identity :=
  mk_ident (ci_vendor i) (ci_product i) (ci_vendor_id i) (ci_product_id i) s (ci_fw i)
    (ci_engine_id i) (ci_engine_ver i) (ci_map_hash i) (ci_boot i) (ci_txn_max i) (ci_txn_events i) (ci_floor i) (ci_nsamples i) (ci_caps i) (ci_lats i).
Definition ci_set_fw (s : list Z) (i : client_identity) : client_identity :=
  mk_ident (ci_vendor i) (ci_product i) (ci_vendor_id i) (ci_product_id i) (ci_serial i) s
    (ci_engine_id i) (ci_engine_ver i) (ci_map_hash i) (ci_boot i) (ci_txn_max i) (ci_txn_events i) (ci_floor i) (ci_nsamples i) (ci_caps i) (ci_lats i).
Definition ci_set_engine (id ver : list Z) (h : harp_hash) (i : client_identity) : client_identity :=
  mk_ident (ci_vendor i) (ci_product i) (ci_vendor_id i) (ci_product_id i) (ci_serial i) (ci_fw i)
    id ver h (ci_boot i) (ci_txn_max i) (ci_txn_events i) (ci_floor i) (ci_nsamples i) (ci_caps i) (ci_lats i).
Definition ci_set_boot (v : Z) (i : client_identity) : client_identity :=
  mk_ident (ci_vendor i) (ci_product i) (ci_vendor_id i) (ci_product_id i) (ci_serial i) (ci_fw i)
    (ci_engine_id i) (ci_engine_ver i) (ci_map_hash i) v (ci_txn_max i) (ci_txn_events i) (ci_floor i) (ci_nsamples i) (ci_caps i) (ci_lats i).
Definition ci_set_txn (m n : Z) (i : client_identity) : client_identity :=
  mk_ident (ci_vendor i) (ci_product i) (ci_vendor_id i) (ci_product_id i) (ci_serial i) (ci_fw i)
    (ci_engine_id i) (ci_engine_ver i) (ci_map_hash i) (ci_boot i) m n (ci_floor i) (ci_nsamples i) (ci_caps i) (ci_lats i).
Definition ci_set_rt (f n : Z) (i : client_identity) : client_identity :=
  mk_ident (ci_vendor i) (ci_product i) (ci_vendor_id i) (ci_product_id i) (ci_serial i) (ci_fw i)
    (ci_engine_id i) (ci_engine_ver i) (ci_map_hash i) (ci_boot i) (ci_txn_max i) (ci_txn_events i) f n (ci_caps i) (ci_lats i).
Definition ci_set_lists (caps : list (list Z)) (lats : list client_lat) (i : client_identity) : client_identity :=
  mk_ident (ci_vendor i) (ci_product i) (ci_vendor_id i) (ci_product_id i) (ci_serial i) (ci_fw i)
    (ci_engine_id i) (ci_engine_ver i) (ci_map_hash i) (ci_boot i) (ci_txn_max i) (ci_txn_events i) (ci_floor i) (ci_nsamples i) caps lats.

(** [if (!text(...) || sl >= cap) return false;] *)
Definition text_below {T} (cap : Z) (set : list Z -> T -> T) : parser T unit :=
  s ← on_fst harp_cdec_text; if cap <=? zlen s then sm_fail else on_snd (sm_modify (set (cstr s))).

(** Vendor and product: [{0: id, 1: name}]; a name that does not fit is passed over. *)
Definition company_visit (product : bool) (key : Z) : parser (Z * client_identity) unit :=
  if key =? 0 then get_uint (fun v st => (v, st.2))
  else if key =? 1 then
    s ← on_fst harp_cdec_text;
    if zlen s <? 64 then on_snd (sm_modify (fun st => (st.1, ci_set_name product (cstr s) st.2))) else mret tt
  else on_fst harp_cdec_skip.
Definition ident_company (product : bool) : parser client_identity unit :=
  uid ← with_local 0 (map_fields (company_visit product)); on_snd (sm_modify (ci_set_id product (u32 uid))).

Definition engine_visit (key : Z) : parser client_identity unit :=
  if key =? 0 then text_below 64 (fun s i => ci_set_engine s (ci_engine_ver i) (ci_map_hash i) i)
  else if key =? 1 then text_below 32 (fun s i => ci_set_engine (ci_engine_id i) s (ci_map_hash i) i)
  else if key =? 2 then h ← on_fst harp_hash_read; on_snd (sm_modify (fun i => ci_set_engine (ci_engine_id i) (ci_engine_ver i) h i))
  else on_fst harp_cdec_skip.

(** One capability: kept while there is room and when it fits. *)
Definition ident_cap : parser client_identity unit :=
  s ← on_fst harp_cdec_text;
  on_snd (sm_modify (fun i =>
    if (length (ci_caps i) <? HARP_CLIENT_MAX_CAPS)%nat && (zlen s <? 32) then ci_set_lists (ci_caps i ++ [cstr s]) (ci_lats i) i else i)).

Definition lat_visit (key : Z) : parser (client_lat * client_identity) unit :=
  if key =? 0 then get_uint (fun v st => (mk_lat (u32 v) (la_in st.1) (la_out st.1) (la_buf st.1), st.2))
  else if key =? 1 then get_uint (fun v st => (mk_lat (la_rate st.1) (u32 v) (la_out st.1) (la_buf st.1), st.2))
  else if key =? 2 then get_uint (fun v st => (mk_lat (la_rate st.1) (la_in st.1) (u32 v) (la_buf st.1), st.2))
  else if key =? 3 then get_uint (fun v st => (mk_lat (la_rate st.1) (la_in st.1) (la_out st.1) (u32 v), st.2))
  else on_fst harp_cdec_skip.
Definition ident_lat : parser client_identity unit :=
  p ← with_local (mk_lat 0 0 0 0) (map_fields lat_visit);
  on_snd (sm_modify (fun i => if (length (ci_lats i) <? HARP_CLIENT_MAX_LAT)%nat then ci_set_lists (ci_caps i) (ci_lats i ++ [p]) i else i)).

Definition ident_txn_visit (key : Z) : parser client_identity unit :=
  if key =? 0 then get_uint (fun v i => ci_set_txn v (ci_txn_events i) i)
  else if key =? 1 then get_uint (fun v i => ci_set_txn (ci_txn_max i) v i)
  else on_fst harp_cdec_skip.
Definition rt_visit (key : Z) : parser client_identity unit :=
  if key =? 0 then get_uint (fun v i => ci_set_rt (u32 v) (ci_nsamples i) i)
  else if key =? 1 then get_uint (fun v i => ci_set_rt (ci_floor i) (u32 v) i)
  else on_fst harp_cdec_skip.

(** The [switch (key)]. *)
Definition ident_visit (key : Z) : parser client_identity unit :=
  if key =? 0 then ident_company false
  else if key =? 1 then ident_company true
  else if key =? 2 then text_below 64 ci_set_serial
  else if key =? 3 then text_below 32 ci_set_fw
  else if key =? 4 then map_fields engine_visit
  else if key =? 6 then n ← on_fst harp_cdec_array; sm_for n ident_cap
  else if key =? 8 then n ← on_fst harp_cdec_array; sm_for n ident_lat
  else if key =? 10 then get_uint ci_set_boot
  else if key =? 13 then map_fields ident_txn_visit
  else if key =? 14 then map_fields rt_visit
  else on_fst harp_cdec_skip.

Definition parse_identity : parser client_identity unit :=
  on_snd (sm_modify (fun _ => ident_zero));; map_fields ident_visit.

Definition harp_client_has_cap (i : client_identity) (cap : list Z) : bool := existsb (fun c => streq c cap) (ci_caps i).

(** ** The client *)

Section client.
Context {L : Type} {ML : MsgLink L} {RL : MsgRecv L} {R : Realloc} {O' : OS} {F : Faults}
  (store : option path) (hooked : bool) (force_grant force_major : option (list Z)).
Implicit Types c : client L.

(** [store]: the local store, if there is one; [hooked]: a callback is set;
    [force_grant], [force_major]: the test seams' environment variables. *)
Definition harp_client_init (l : L) (w : world) : client L :=
  mk_client l w 0 0 0 csendq_empty 0 [] (mk_err [] [] [] 0 0) [] false.

Definition link_out (strm : Z) (data : list Z) c : bool * client L :=
  let '(ok, l) := msg_send strm data (cl_link c) in (ok, cl_set_link l c).
Definition link_in : SM (client L) (Z * list Z) := fun c => let '(r, l) := msg_next (cl_link c) in (r, cl_set_link l c).

(** ** Notifications *)

Definition surface (e : harp_env) c : client L := if hooked then cl_surface e c else c.

Definition topic_in (e : harp_env) : option (list Z) :=
  body_parse (first_key 1 (fun _ => s ← on_fst harp_cdec_text; on_snd (sm_modify (fun _ => Some (cstr (take 31 s)))))) e None.

Definition handle_ntf (e : harp_env) c : client L :=
  if streq (method_of e) (str "core.credit") && e_has_body e then
    cl_set_credit (body_parse (first_key 1 (fun _ => get_uint (fun v cr => u64 (cr + v)))) e (cl_credit c)) c
  else if streq (method_of e) (str "core.changed") && e_has_body e then
    surface e (match topic_in e with Some t => cl_set_topic t c | None => c end)
  else surface e c.

Definition client_grant_amount : Z :=
  match force_grant with
  | Some f => if bool_decide (f = []) then CREDIT_GRANT else if strtoull f =? 0 then CREDIT_GRANT else strtoull f
  | None => CREDIT_GRANT
  end.

Definition client_grant c : bool * client L :=
  let m := harp_env_head harp_cbuf_init HARP_MSG_NOTIFICATION 0 (str "core.credit") true in
  let m := harp_cbor_uint (harp_cbor_uint (harp_cbor_map m 1) 0) client_grant_amount in
  let '(ok, c) := link_out HARP_STREAM_CTL (cb_buf m) c in
  (ok, if ok : bool then cl_set_granted (u64 (cl_granted c + client_grant_amount)) c else c).

(** ** Receiving *)

(** An object: kept when it is one; the peer's window is topped up. *)
Definition take_object (data : list Z) c : client L :=
  let c :=
    match store with
    | Some s => if 0 <=? harp_obj_kind data then (on_cstore (harp_store_put s data) c).2 else c
    | None => c
    end in
  let got := zlen data in
  let c := cl_set_granted (if got <=? cl_granted c then cl_granted c - got else 0) c in
  if cl_granted c <? CREDIT_GRANT / 2 then (client_grant c).2 else c.

(** One message.  Fails (-1) when the transport does or an envelope is bad;
    otherwise a control message that is not a notification, with its bytes. *)
Definition pump_one : SM (client L) (option (harp_env * list Z)) :=
  '(strm, data) ← link_in;
  if strm =? HARP_STREAM_OBJ then sm_modify (take_object data);; mret None
  else if negb (strm =? HARP_STREAM_CTL) then mret None
  else
    let '(ok, e) := harp_env_parse data in
    if negb ok then sm_fail
    else if e_msgtype e =? HARP_MSG_NOTIFICATION then sm_modify (handle_ntf e);; mret None
    else mret (Some (e, data)).

(** ** Objects waiting for credit *)

Definition cring_next (i : nat) : nat := Nat.modulo (i + 1) HARP_CLIENT_SENDQ_CAP.

Definition csendq_push (h : harp_hash) c : client L :=
  let q := cl_sendq c in
  if (sq_count q =? HARP_CLIENT_SENDQ_CAP)%nat then cl_add_drop c
  else cl_set_sendq (mk_sendq (<[sq_tail q := h]> (sq_arr q)) (sq_head q) (cring_next (sq_tail q)) (S (sq_count q))) c.

Definition csendq_pop (q : sendq) : sendq := mk_sendq (sq_arr q) (cring_next (sq_head q)) (sq_tail q) (pred (sq_count q)).

Definition FLUSH_SPINS : nat := Z.to_nat 100000.

(** Pump until [len] bytes may be sent; the number of turns left is shared by the
    whole flush. *)
Fixpoint self_pump (spins : nat) (len : Z) : SM (client L) nat := fun c =>
  if len <=? cl_credit c then (Some spins, c)
  else
    match spins with
    | O => (None, c)
    | S k => match pump_one c with (Some _, c) => self_pump k len c | (None, c) => (None, c) end
    end.

(** One turn per queued object. *)
Fixpoint csend_loop (s : path) (n spins : nat) (enc : cbuf) : SM (client L) unit := fun c =>
  let q := cl_sendq c in
  match n with
  | O => (Some tt, c)
  | S n =>
      if (sq_count q =? 0)%nat then (Some tt, c)
      else
        match on_cstore (harp_store_get s (nth (sq_head q) (sq_arr q) []) (harp_cbuf_reset enc)) c with
        | (Some (true, enc), c) =>
            match self_pump spins (cb_len enc) c with
            | (Some spins, c) =>
                let '(ok, c) := link_out HARP_STREAM_OBJ (cb_buf enc) (cl_set_credit (cl_credit c - cb_len enc) c) in
                if ok : bool then csend_loop s n spins enc (cl_set_sendq (csendq_pop (cl_sendq c)) c) else (None, c)
            | (None, c) => (None, c)
            end
        | (_, c) => (None, c)
        end
  end.

Definition csendq_flush (s : path) c : bool * client L :=
  match csend_loop s (sq_count (cl_sendq c)) FLUSH_SPINS harp_cbuf_init c with
  | (Some _, c) => (true, c)
  | (None, c) => (false, cl_set_sendq (mk_sendq (sq_arr (cl_sendq c)) 0 0 0) c)
  end.

(** ** Requests *)

Definition harp_client_req_head (out : cbuf) (method : list Z) (has_body : bool) c : cbuf * client L :=
  let c := cl_set_rid (u64 (cl_rid c + 1)) c in
  (harp_env_head (harp_cbuf_reset out) HARP_MSG_REQUEST (cl_rid c) method has_body, c).

Definition harp_client_send (req : cbuf) c : Z * client L :=
  let x := cl_err c in
  let '(ok, c) := link_out HARP_STREAM_CTL (cb_buf req) (cl_set_err (mk_err (er_method x) [] [] (er_major_min x) (er_major_max x)) c) in
  (if ok : bool then 0 else HARP_CLIENT_EIO, c).

(** The error map; it is read until something in it does not parse. *)
Definition major_visit : parser client_err unit :=
  k ← on_fst harp_cdec_uint; v ← on_fst harp_cdec_uint;
  on_snd (sm_modify (fun x =>
    if k =? 0 then mk_err (er_method x) (er_code x) (er_msg x) (u32 v) (er_major_max x)
    else if k =? 1 then mk_err (er_method x) (er_code x) (er_msg x) (er_major_min x) (u32 v) else x)).

Definition err_visit (key : Z) : parser client_err unit :=
  st ← sm_get;
  if key =? 0 then decode_text_into 64 (fun s x => mk_err (er_method x) s (er_msg x) (er_major_min x) (er_major_max x))
  else if key =? 1 then decode_text_into 128 (fun s x => mk_err (er_method x) (er_code x) s (er_major_min x) (er_major_max x))
  else if (key =? 2) && streq (er_code st.2) (str "incompatible") then
    sm_try (n ← on_fst harp_cdec_map; sm_for n major_visit);; mret tt
  else on_fst harp_cdec_skip.

Definition device_error (e : harp_env) (x : client_err) : client_err :=
  body_parse (map_fields err_visit) e (mk_err (method_of e) (str "?") (er_msg x) (er_major_min x) (er_major_max x)).

(** [for (;;)]: at most [fuel] messages; no result while the answer is missing.
    [rsp] receives a copy of the answer. *)
Fixpoint harp_client_wait (fuel : nat) (rid : Z) (rsp : cbuf) : SM (client L) (res harp_env * cbuf) := fun c =>
  match fuel with
  | O => (None, c)
  | S fuel =>
      match pump_one c with
      | (None, c) => (Some (RErr HARP_CLIENT_EIO, rsp), c)
      | (Some None, c) => harp_client_wait fuel rid rsp c
      | (Some (Some (e, data)), c) =>
          if negb (e_rid e =? rid) then harp_client_wait fuel rid rsp c
          else if e_msgtype e =? HARP_MSG_ERROR then (Some (RErr HARP_CLIENT_EDEV, rsp), cl_set_err (device_error e (cl_err c)) c)
          else
            let rsp := harp_cbuf_put (harp_cbuf_reset rsp) data in
            let '(ok, e) := harp_env_parse (cb_buf rsp) in
            (Some (if ok : bool then ROk e else RErr HARP_CLIENT_EIO, rsp), c)
      end
  end.

Context (fuel : nat).

Definition harp_client_request (req rsp : cbuf) : SM (client L) (res harp_env * cbuf) := fun c =>
  let rid := cl_rid c in
  let '(rc, c) := harp_client_send req c in
  if negb (rc =? 0) then (Some (RErr rc, rsp), c) else harp_client_wait fuel rid rsp c.

(** The steps every operation begins with: fresh buffers, the head, the body, the
    request. *)
Definition call (method : list Z) (body : option (Z -> cbuf -> cbuf)) : SM (client L) (res harp_env) := fun c =>
  let '(req, c) := harp_client_req_head harp_cbuf_init method (match body with Some _ => true | None => false end) c in
  let req := match body with Some f => f (cl_rid c) req | None => req end in
  ('(r, _) ← harp_client_request req harp_cbuf_init; mret r) c.

(** ** Core methods *)

Definition hello_visit_rsp (key : Z) : parser (bool * client_identity) unit :=
  if key =? 1 then
    o ← sm_try (beside parse_identity); on_snd (sm_modify (fun st => (bool_decide (o <> None), st.2)))
  else sm_try (on_fst harp_cdec_skip);; mret tt.

Definition proto_major : Z := match force_major with Some ((_ :: _) as f) => strtoull f | _ => 1 end.

Definition hello_body (agent : list Z) (b : cbuf) : cbuf :=
  let b := harp_cbor_array (harp_cbor_uint (harp_cbor_map b 2) 0) 2 in
  let b := harp_cbor_uint (harp_cbor_uint b proto_major) 0 in
  ktext 1 agent b.

Definition harp_client_hello (agent : list Z) : SM (client L) (res client_identity) :=
  r ← call (str "core.hello") (Some (fun _ => hello_body agent));
  match r with
  | RErr rc => c ← sm_get; mret (RErr (if (rc =? HARP_CLIENT_EDEV) && streq (er_code (cl_err c)) (str "incompatible") then HARP_CLIENT_EINCOMPAT else rc))
  | ROk e =>
      let '(ok, i) := body_parse (map_fields hello_visit_rsp) e (false, ident_zero) in
      if negb ok then mret (RErr HARP_CLIENT_EIO)
      else
        sm_modify (cl_set_granted 0);;
        c ← sm_get;
        let '(sent, c) := client_grant c in
        sm_modify (fun _ => c);; mret (if sent : bool then ROk i else RErr HARP_CLIENT_EIO)
  end.

Definition harp_client_identify : SM (client L) (res client_identity) :=
  r ← call (str "core.identify") None;
  mret (res_map (fun e =>
    if e_has_body e then match parse_identity (harp_cdec_init (e_body e), ident_zero) with (Some _, (_, i)) => ROk i | _ => RErr HARP_CLIENT_EIO end
    else RErr HARP_CLIENT_EIO) r).

Definition ping_nonce (rid : Z) : list Z := [u8 rid; u8 (Z.shiftr rid 8); u8 (Z.shiftr rid 16); u8 (Z.shiftr rid 24)].

Definition harp_client_ping : SM (client L) (res unit) := fun c =>
  let nonce := ping_nonce (u64 (cl_rid c + 1)) in
  (r ← call (str "core.ping") (Some (fun rid b => harp_cbor_bytes b (ping_nonce rid)));
   mret (res_map (fun e =>
     if e_has_body e && match (harp_cdec_bytes (harp_cdec_init (e_body e))).1 with Some p => bool_decide (p = nonce) | None => false end
     then ROk tt else RErr HARP_CLIENT_EIO) r)) c.

Definition harp_client_bye : SM (client L) (res unit) := r ← call (str "core.bye") None; mret (res_map (fun _ => ROk tt) r).

(** ** Refs *)

(** At most [cap] refs, up to the first that does not parse. *)
Definition refs_in (cap : nat) : parser (list harp_ref) unit :=
  first_key 1 (fun _ =>
    n ← on_fst harp_cdec_array;
    sm_for n (st ← sm_get; sm_guard (length st.2 <? cap)%nat;; r ← on_fst harp_ref_decode; on_snd (sm_modify (fun l => l ++ [r])))).

Definition harp_client_refs (cap : nat) : SM (client L) (res (list harp_ref)) :=
  r ← call (str "state.refs") None; mret (res_map (fun e => ROk (body_parse (refs_in cap) e [])) r).

Definition find_in (name : list Z) : parser (option harp_ref) unit :=
  first_key 1 (fun _ =>
    n ← on_fst harp_cdec_array;
    sm_for n (r ← on_fst harp_ref_decode; if streq (r_name r) name then on_snd (sm_modify (fun _ => Some r));; sm_fail else mret tt)).

Definition harp_client_find_ref (name : list Z) : SM (client L) (res harp_ref) :=
  r ← call (str "state.refs") (Some (fun _ b => ktext 0 name (harp_cbor_map b 1)));
  mret (res_map (fun e => match body_parse (find_in name) e None with Some x => ROk x | None => RErr HARP_CLIENT_EIO end) r).

Definition hash_in : parser (option harp_hash) unit :=
  first_key 1 (fun _ => h ← on_fst harp_hash_read; on_snd (sm_modify (fun _ => Some h))).

Definition harp_client_snapshot (refname : list Z) (msg : option (list Z)) : SM (client L) (res harp_hash) :=
  r ← call (str "state.snapshot") (Some (fun _ b =>
        let b := ktext 0 refname (harp_cbor_map b (match msg with Some _ => 2 | None => 1 end)) in
        match msg with Some m => ktext 1 m b | None => b end));
  mret (res_map (fun e => match body_parse hash_in e None with Some h => ROk h | None => RErr HARP_CLIENT_EIO end) r).

(** [new_gen] is 0 when the answer does not carry one. *)
Definition harp_client_refset (name : list Z) (expect : option harp_hash) (target : harp_hash) (create force consent : bool) : SM (client L) (res Z) :=
  let fl := (if create then 1 else 0) + (if force then 2 else 0) + (if consent then 4 else 0) in
  r ← call (str "state.refset") (Some (fun _ b =>
        let b := harp_cbor_uint (ktext 0 name (harp_cbor_map b (if fl =? 0 then 3 else 4))) 1 in
        let b := match expect with Some h => harp_cbor_bytes b h | None => harp_cbor_null b end in
        let b := kbytes 2 target b in
        if fl =? 0 then b else kuint 3 fl b));
  mret (res_map (fun e => ROk (body_parse (first_key 1 (fun _ => get_uint (fun v _ => v))) e 0)) r).

(** ** Closures *)

Definition list_contains (l : list harp_hash) (h : harp_hash) : bool := existsb (fun x => harp_hash_eq x h) l.
Definition list_collect : harp_hash_cb (list harp_hash) := fun h l =>
  (true, if negb (list_contains l h) && (length l <? HARP_CLIENT_MAX_CLOSURE)%nat then l ++ [h] else l).

Definition client_have (s : path) (h : harp_hash) c : bool * client L :=
  match on_cstore (harp_store_have s h) c with (Some b, c) => (b, c) | (None, c) => (false, c) end.

Definition WANT_BATCH : nat := 64.

Fixpoint pick_want (s : path) (l want : list harp_hash) c : list harp_hash * client L :=
  match l with
  | h :: l =>
      if (length want <? WANT_BATCH)%nat then
        let '(b, c) := client_have s h c in pick_want s l (if b : bool then want else want ++ [h]) c
      else (want, c)
  | [] => (want, c)
  end.

Fixpoint all_held (s : path) (l : list harp_hash) c : bool * client L :=
  match l with
  | h :: l => let '(b, c) := client_have s h c in let '(r, c) := all_held s l c in (b && r, c)
  | [] => (true, c)
  end.

Definition FETCH_SPINS : nat := Z.to_nat 4096.

(** Pump until everything wanted is held. *)
Fixpoint pump_held (s : path) (spins : nat) (want : list harp_hash) : SM (client L) unit := fun c =>
  let '(all, c) := all_held s want c in
  if all : bool then (Some tt, c)
  else
    match spins with
    | O => (None, c)
    | S k => match pump_one c with (Some _, c) => pump_held s k want c | (None, c) => (None, c) end
    end.

Definition enc_hashes (l : list harp_hash) (b : cbuf) : cbuf := fold_left harp_cbor_bytes l (harp_cbor_array b (zlen l)).

(** One batch: the request, then the objects. *)
Definition fetch_batch (s : path) (want : list harp_hash) : SM (client L) (res unit) :=
  r ← call (str "state.want") (Some (fun _ b => enc_hashes want (harp_cbor_uint (harp_cbor_map b 1) 0)));
  match r with
  | RErr rc => mret (RErr rc)
  | ROk _ => o ← sm_try (pump_held s FETCH_SPINS want); mret (match o with Some _ => ROk tt | None => RErr HARP_CLIENT_EIO end)
  end.

(** The children of an object, if it can be read. *)
Definition expand (s : path) (h : harp_hash) (st : list harp_hash * client L) : list harp_hash * client L :=
  let '(l, c) := st in
  match on_cstore (harp_store_get s h harp_cbuf_init) c with
  | (Some (true, enc), c) => ((harp_obj_foreach_child (cb_buf enc) false list_collect l).2, c)
  | (_, c) => (l, c)
  end.

(** A turn of the outer loop moves the cursor to the end of the list, so there are
    at most 512. *)
Fixpoint fetch_loop (s : path) (turns : nat) (pending : list harp_hash) (cursor got : nat) : SM (client L) (res nat) := fun c =>
  if (length pending <=? cursor)%nat then (Some (ROk got), c)
  else
    match turns with
    | O => (None, c)
    | S turns =>
        let todo := drop cursor pending in
        let '(want, c) := pick_want s todo [] c in
        match (if (length want =? 0)%nat then mret (ROk tt) else fetch_batch s want) c with
        | (None, c) => (None, c)
        | (Some (RErr rc), c) => (Some (RErr rc), c)
        | (Some (ROk _), c) =>
            let '(pending', c) := fold_left (fun st h => expand s h st) todo (pending, c) in
            fetch_loop s turns pending' (length pending) (got + length want) c
        end
    end.

Definition harp_client_fetch_closure (root : harp_hash) : SM (client L) (res nat) :=
  match store with
  | None => mret (RErr HARP_CLIENT_EIO)
  | Some s => fetch_loop s (S HARP_CLIENT_MAX_CLOSURE) (list_collect root []).2 0 0
  end.

(** The local closure; it must be complete.  The list grows while it is walked. *)
Fixpoint local_closure (s : path) (turns : nat) (clo : list harp_hash) (cur : nat) : SM (client L) (list harp_hash) := fun c =>
  match clo !! cur with
  | None => (Some clo, c)
  | Some h =>
      match turns with
      | O => (None, c)
      | S turns =>
          match on_cstore (harp_store_get s h harp_cbuf_init) c with
          | (Some (true, enc), c) => local_closure s turns (harp_obj_foreach_child (cb_buf enc) false list_collect clo).2 (S cur) c
          | (_, c) => (None, c)
          end
      end
  end.

(** The device's answer, one boolean per hash, up to the first that does not
    parse; nothing unless it announces [n] of them. *)
Definition have_in (n : nat) : parser (list bool) unit :=
  first_key 1 (fun _ =>
    alen ← on_fst harp_cdec_array; sm_guard (alen =? Z.of_nat n);;
    sm_for (Z.of_nat n) (b ← on_fst harp_cdec_bool; on_snd (sm_modify (fun l => l ++ [b])))).
Fixpoint missing_of (clo : list harp_hash) (have : list bool) : list harp_hash :=
  match clo, have with
  | h :: clo, b :: have => if b : bool then missing_of clo have else h :: missing_of clo have
  | _, _ => []
  end.

(** The bytes to announce. *)
Fixpoint total_size (s : path) (l : list harp_hash) (enc : cbuf) (total : Z) c : Z * client L :=
  match l with
  | h :: l =>
      match on_cstore (harp_store_get s h (harp_cbuf_reset enc)) c with
      | (Some (true, enc), c) => total_size s l enc (u64 (total + cb_len enc)) c
      | (Some (false, enc), c) => total_size s l enc total c
      | (None, c) => total_size s l (harp_cbuf_reset enc) total c
      end
  | [] => (total, c)
  end.

(** The announcement and the objects, in the order of the closure. *)
Definition push_missing (s : path) (missing : list harp_hash) (req rsp : cbuf) : SM (client L) (res unit) := fun c =>
  let '(total, c) := total_size s missing harp_cbuf_init 0 c in
  let '(req, c) := harp_client_req_head req (str "state.send") true c in
  let req := kuint 1 total (enc_hashes missing (harp_cbor_uint (harp_cbor_map req 2) 0)) in
  match harp_client_request req rsp c with
  | (None, c) => (None, c)
  | (Some (RErr rc, _), c) => (Some (RErr rc), c)
  | (Some (ROk _, _), c) =>
      let '(ok, c) := csendq_flush s (fold_left (fun c h => csendq_push h c) missing c) in
      (Some (if ok : bool then ROk tt else RErr HARP_CLIENT_EIO), c)
  end.

(** [(sent, already)] *)
Definition harp_client_push_closure (root : harp_hash) : SM (client L) (res (nat * nat)) := fun c =>
  match store with
  | None => (Some (RErr HARP_CLIENT_EIO), c)
  | Some s =>
      match local_closure s HARP_CLIENT_MAX_CLOSURE (list_collect root []).2 0 c with
      | (None, c) => (Some (RErr HARP_CLIENT_EIO), c)
      | (Some clo, c) =>
          let '(req, c) := harp_client_req_head harp_cbuf_init (str "state.have") true c in
          let req := enc_hashes clo (harp_cbor_uint (harp_cbor_map req 1) 0) in
          match harp_client_request req harp_cbuf_init c with
          | (None, c) => (None, c)
          | (Some (RErr rc, _), c) => (Some (RErr rc), c)
          | (Some (ROk e, rsp), c) =>
              let missing := missing_of clo (body_parse (have_in (length clo)) e []) in
              let done : nat * nat := (length missing, length clo - length missing)%nat in
              if (length missing =? 0)%nat then (Some (ROk done), c)
              else (r ← push_missing s missing req rsp; mret (res_map (fun _ => ROk done) r)) c
          end
      end
  end.

(** ** The reconcile relay *)

Definition harp_client_reconcile_offer (expect live : option (list Z)) (dirty : bool) : SM (client L) (res unit) :=
  let text o := match o with Some s => s | None => [] end in
  r ← call (str "x.harp.reconcile.offer") (Some (fun _ b =>
        kuint 2 (if dirty then 1 else 0) (ktext 1 (text live) (ktext 0 (text expect) (harp_cbor_map b 3)))));
  mret (res_map (fun _ => ROk tt) r).

(** [(pending, choice)]: what the answer sets of the two. *)
Definition poll_visit (key : Z) : parser (option bool * option Z) unit :=
  if key =? 0 then
    o ← sm_try (on_fst harp_cdec_bool); on_snd (sm_modify (fun st => (Some (match o with Some b => b | None => false end), st.2)))
  else if key =? 1 then
    o ← sm_try (on_fst harp_cdec_int); on_snd (sm_modify (fun st => (st.1, Some (s32 (match o with Some v => v | None => -1 end)))))
  else skip_ignored.

Definition harp_client_reconcile_poll : SM (client L) (res (option bool * option Z)) :=
  r ← call (str "x.harp.reconcile.poll") None;
  mret (res_map (fun e => ROk (body_parse (map_fields poll_visit) e (None, None))) r).
End client.
