(* ===== verification/FetchSpec.v ===== *)
(** * Fetching a closure: theorems

    What [harp_client_fetch_closure] leaves in the local store when it reports
    success, whatever the peer sent meanwhile. *)
From Stdlib Require Import ZArith Lia String List Bool.
From stdpp Require Import base list gmap sets.
From S2P Require Import Prelude Cbuf CborEnc CborDec CborFields Sha256 Frame Envelope Object ObjectWalk Link Fs Store GcMark Device DeviceSpec Reply StateSpec Client.
Open Scope Z_scope.
Open Scope list_scope.

(** ** The list of hashes *)

Lemma contains_spec l h : Forall is_hash l -> is_hash h -> list_contains l h = true <-> h ∈ l.
Proof.
  intros Hl Hh. unfold list_contains. rewrite existsb_exists. setoid_rewrite <- list_elem_of_In. rewrite Forall_forall in Hl.
  split.
  - intros (x & Hx & E). unfold harp_hash_eq in E. apply Z.eqb_eq in E. apply memcmp_eq in E; [by subst|].
    destruct (Hl x Hx) as [_ ->]. destruct Hh as [_ ->]. done.
  - intros Hx. exists h. split; [done|]. unfold harp_hash_eq. by rewrite memcmp_refl.
Qed.

(** The lists met while a closure within [K] is collected. *)
Definition within (K l : list harp_hash) : Prop := NoDup l /\ Forall is_hash l /\ l ⊆ K.

Lemma within_short K l : within K l -> (length l <= length K)%nat.
Proof. intros (H1 & _ & H2). by apply submseteq_length, NoDup_submseteq. Qed.

Lemma collect_within K hs : (length K < HARP_CLIENT_MAX_CLOSURE)%nat -> Forall is_hash hs -> hs ⊆ K -> forall l, within K l ->
  let l' := run_all list_collect hs l in within K l' /\ l ⊆ l' /\ hs ⊆ l' /\ exists k, l' = l ++ k.
Proof.
  intros HK Hh Hsub. induction hs as [|h hs IH]; intros l Hl; cbv zeta.
  { split; [done|]. split; [done|]. split; [by intros x Hx; apply elem_of_nil in Hx|]. exists []. by rewrite app_nil_r. }
  change (run_all list_collect (h :: hs) l) with (run_all list_collect hs (list_collect h l).2).
  apply Forall_cons in Hh as [Hh Hhs]. assert (hs ⊆ K) as Hsub' by (intros x Hx; apply Hsub; by right).
  assert (h ∈ K) as HhK by (apply Hsub; left).
  assert (within K (list_collect h l).2 /\ l ⊆ (list_collect h l).2 /\ h ∈ (list_collect h l).2 /\ exists k, (list_collect h l).2 = l ++ k) as (W & W1 & W2 & k1 & W3).
  { unfold list_collect. cbn [snd]. pose proof (within_short K l Hl) as Hlen. destruct Hl as (N1 & N2 & N3).
    replace (length l <? HARP_CLIENT_MAX_CLOSURE)%nat with true by (symmetry; apply Nat.ltb_lt; lia). rewrite andb_true_r.
    destruct (list_contains l h) eqn:Ec; cbn [negb].
    - apply contains_spec in Ec; [|done..]. split; [done|]. split; [done|]. split; [done|]. exists []. by rewrite app_nil_r.
    - assert (h ∉ l) as Hni. { intros Hi. apply contains_spec in Hi; [|done..]. congruence. }
      split; [|split; [|split]].
      + split; [|split].
        * apply NoDup_app. split; [done|]. split; [|apply NoDup_singleton]. intros x Hx Hx2. apply list_elem_of_singleton in Hx2. by subst.
        * apply Forall_app. split; [done|]. by apply Forall_singleton.
        * intros x Hx. apply elem_of_app in Hx as [Hx|Hx]; [by apply N3|]. apply list_elem_of_singleton in Hx. by subst.
      + intros x Hx. apply elem_of_app. by left.
      + apply elem_of_app. right. by apply list_elem_of_singleton.
      + by exists [h]. }
  destruct (IH Hhs Hsub' _ W) as (V & V1 & V2 & k2 & V3). split; [exact V|]. split; [by etransitivity|]. split.
  - intros x Hx. apply elem_of_cons in Hx as [->|Hx]; [by apply V1|by apply V2].
  - exists (k1 ++ k2). rewrite V3, W3. by rewrite app_assoc.
Qed.

Lemma collect_never_stops hs l : run_until list_collect hs l = run_all list_collect hs l.
Proof. revert l. induction hs as [|h hs IH]; intros l; [done|]. cbn. apply IH. Qed.

(** ** The local store only grows *)

Section fetch.
Context {L : Type} {ML : MsgLink L} {RL : MsgRecv L} {R : Realloc} {O' : OS} {F : Faults}
  (s : path) (hooked : bool) (force_grant : option (list Z)) (fuel : nat).
Context (Hfl : flush_reliable) (Hs : dir_ok s) (Hrd : reads_ok)
  (Hbytes : forall l m l', msg_next l = (Some m, l') -> bytes_ok m.2).
Implicit Types c : client L.

Abbreviation files c := (w_fs (cl_world c)).
Abbreviation pump := (pump_one (Some s) hooked force_grant).
Definition held c (h : harp_hash) : Prop := is_Some (obj_data s (files c) h).

Definition fine c : Prop := no_obj_dirs s (files c) /\ forall h y, is_hash h -> obj_data s (files c) h = Some y -> bytes_ok y.
Definition grows c c' : Prop :=
  fine c -> fine c' /\ forall h y, is_hash h -> obj_data s (files c) h = Some y -> obj_data s (files c') h = Some y.

Lemma grows_refl c c' : files c' = files c -> grows c c'.
Proof. intros E H. unfold fine in *. rewrite E. auto. Qed.

Lemma grows_trans c1 c2 c3 : grows c1 c2 -> grows c2 c3 -> grows c1 c3.
Proof. intros H1 H2 Hf. destruct (H1 Hf) as [F2 G1]. destruct (H2 F2) as [F3 G2]. split; [done|]. intros h y Hh Hy. apply G2, G1; done. Qed.

Lemma out_files strm data c : files (link_out strm data c).2 = files c.
Proof. unfold link_out. by destruct (msg_send _ _ _). Qed.

Lemma grant_files c : files (client_grant force_grant c).2 = files c.
Proof.
  unfold client_grant. set (m := cb_buf _). pose proof (out_files HARP_STREAM_CTL m c) as H. destruct (link_out _ m c) as [ok c1]. cbn [snd] in *. by destruct ok.
Qed.

Lemma surface_files e c : files (surface hooked e c) = files c.
Proof. unfold surface. by destruct hooked. Qed.

Lemma ntf_files e c : files (handle_ntf hooked e c) = files c.
Proof. unfold handle_ntf. repeat case_match; try done; by rewrite surface_files. Qed.

Lemma put_grows data c : bytes_ok data -> grows c (on_cstore (harp_store_put s data) c).2.
Proof.
  intros Hb Hf. unfold on_cstore. destruct (harp_store_put s data (cl_world c)) as [r w] eqn:E. cbn [snd].
  destruct (put_run s Hfl Hs _ _ _ _ (proj1 Hf) E) as (H1 & H2 & H3). destruct Hf as [Hd Hc].
  assert (forall h y, is_hash h -> obj_data s (w_fs w) h = Some y -> obj_data s (files c) h = Some y \/ (h = harp_hash_compute data /\ y = data)) as Hinv.
  { intros h y Hh Hy. destruct (decide (h = harp_hash_compute data)) as [->|Hne]; [|left; by rewrite <- H2].
    destruct r; rewrite H3 in Hy; [|by left]. destruct (obj_data s (files c) (harp_hash_compute data)); injection Hy as <-; auto. }
  split; [split|].
  - intros h Hh. cbn [cl_world cl_set_world]. rewrite H1. by apply Hd.
  - intros h y Hh Hy. destruct (Hinv h y Hh Hy) as [H|[_ ->]]; [by eapply Hc|done].
  - intros h y Hh Hy. cbn [cl_world cl_set_world]. destruct (decide (h = harp_hash_compute data)) as [->|Hne]; [|by rewrite H2].
    destruct r; rewrite H3; [by rewrite Hy|done].
Qed.

Lemma take_grows data c : bytes_ok data -> grows c (take_object (Some s) force_grant data c).
Proof.
  intros Hb. unfold take_object. cbv zeta.
  set (c1 := if 0 <=? harp_obj_kind data then _ else c).
  assert (grows c c1) as H1 by (unfold c1; destruct (0 <=? _); [by apply put_grows|by apply grows_refl]).
  set (c2 := cl_set_granted _ c1). assert (grows c c2) as H2 by (apply (grows_trans _ c1); [exact H1|by apply grows_refl]).
  destruct (cl_granted c2 <? _); [|exact H2]. apply (grows_trans _ c2); [exact H2|apply grows_refl, grant_files].
Qed.

Lemma pump_grows c : grows c (pump c).2.
Proof.
  unfold pump_one, link_in, mbind, SM_bind. destruct (msg_next (cl_link c)) as [[[strm data]|] l] eqn:E; [|by apply grows_refl].
  pose proof (Hbytes _ _ _ E) as Hb. cbn [snd] in Hb. set (c1 := cl_set_link l c). assert (grows c c1) as H1 by by apply grows_refl.
  destruct (strm =? HARP_STREAM_OBJ); [exact (grows_trans _ _ _ H1 (take_grows data c1 Hb))|].
  destruct (negb _); [exact H1|]. destruct (harp_env_parse data) as [ok e]. destruct (negb ok); [exact H1|].
  destruct (e_msgtype e =? _); [|exact H1]. cbn [snd mret SM_ret sm_modify]. apply (grows_trans _ c1); [exact H1|apply grows_refl, ntf_files].
Qed.

Lemma wait_grows n rid : forall rsp c, grows c (harp_client_wait (Some s) hooked force_grant n rid rsp c).2.
Proof.
  induction n as [|n IH]; intros rsp c; [by apply grows_refl|]. cbn [harp_client_wait]. pose proof (pump_grows c) as Hp.
  destruct (pump c) as [[[[e data]|]|] c1]; cbn [snd] in *; [|exact (grows_trans _ _ _ Hp (IH _ _))|exact Hp].
  destruct (negb _); [exact (grows_trans _ _ _ Hp (IH _ _))|]. destruct (e_msgtype e =? _); [apply (grows_trans _ c1); [exact Hp|by apply grows_refl]|].
  cbv zeta. by destruct (harp_env_parse _).
Qed.

Lemma request_grows req rsp c : grows c (harp_client_request (Some s) hooked force_grant fuel req rsp c).2.
Proof.
  unfold harp_client_request. cbv zeta. destruct (harp_client_send req c) as [rc c1] eqn:E.
  assert (grows c c1) as H1.
  { apply grows_refl. unfold harp_client_send in E. cbv zeta in E. set (c0 := cl_set_err _ c) in E. pose proof (out_files HARP_STREAM_CTL (cb_buf req) c0) as Ho.
    destruct (link_out _ _ c0) as [ok c2]. cbn [snd] in Ho. injection E as _ <-. exact Ho. }
  destruct (negb _); [exact H1|]. apply (grows_trans _ c1); [exact H1|apply wait_grows].
Qed.

Lemma call_grows m body c : grows c (call (Some s) hooked force_grant fuel m body c).2.
Proof.
  unfold call, harp_client_req_head. cbv zeta. set (c1 := cl_set_rid _ c). set (req := match body with Some f => _ | None => _ end).
  unfold mbind, SM_bind. pose proof (request_grows req harp_cbuf_init c1) as H. destruct (harp_client_request _ _ _ _ _ _ c1) as [[[r b]|] c2]; cbn [snd mret SM_ret] in *; intros Hf; by apply H.
Qed.

(** ** Looking at the store *)

Lemma have_run h c : fine c -> is_hash h -> client_have s h c = (bool_decide (held c h), c).
Proof.
  intros [Hd _] Hh. unfold client_have, on_cstore, harp_store_have. rewrite path_readable_run.
  replace (cl_set_world (cl_world c) c) with c by by destruct c. f_equal. unfold exists_path, held, obj_data.
  rewrite (bool_decide_eq_false_2 (obj_path s h ∈ fs_dirs _)) by by apply Hd. rewrite orb_false_r.
  apply bool_decide_ext. rewrite elem_of_dom. destruct (fs_files _ !! _); cbn; split; intros [x Hx]; try discriminate; by eexists.
Qed.

Lemma all_held_run l c : fine c -> Forall is_hash l -> exists b, all_held s l c = (b, c) /\ (b = true -> forall h, h ∈ l -> held c h).
Proof.
  intros Hf. induction l as [|h l IH]; intros Hl; cbn [all_held]; [exists true; split; [done|]; by intros _ h Hh%elem_of_nil|].
  apply Forall_cons in Hl as [Hh Hl]. rewrite have_run by done. destruct (IH Hl) as (b & -> & Hb).
  exists (bool_decide (held c h) && b). split; [done|]. intros [H1 H2]%andb_prop. apply bool_decide_eq_true in H1.
  intros x [->|Hx]%elem_of_cons; auto.
Qed.

(** With at most 64 hashes to look at, the batch is what is missing of them. *)
Lemma pick_run l c : fine c -> Forall is_hash l -> forall want, (length want + length l <= WANT_BATCH)%nat ->
  exists w, pick_want s l want c = (want ++ w, c) /\ w ⊆ l /\ forall h, h ∈ l -> held c h \/ h ∈ w.
Proof.
  intros Hf. induction l as [|h l IH]; intros Hl want Hlen; cbn [pick_want].
  { exists []. rewrite app_nil_r. split; [done|]. split; [done|]. by intros h Hh%elem_of_nil. }
  apply Forall_cons in Hl as [Hh Hl]. cbn [length] in Hlen. replace (length want <? WANT_BATCH)%nat with true by (symmetry; apply Nat.ltb_lt; lia).
  rewrite have_run by done. case_bool_decide as Hd.
  - destruct (IH Hl want ltac:(lia)) as (w & -> & H1 & H2). exists w. split; [done|]. split; [intros x Hx; right; auto|].
    intros x [->|Hx]%elem_of_cons; auto.
  - destruct (IH Hl (want ++ [h]) ltac:(rewrite length_app; cbn; lia)) as (w & -> & H1 & H2). exists (h :: w). rewrite <- app_assoc. split; [done|].
    split; [intros x [->|Hx]%elem_of_cons; [left|right; auto]|]. intros x [->|Hx]%elem_of_cons; [right; left|]. destruct (H2 x Hx); [by left|right; by right].
Qed.

Lemma pump_held_grows spins want : forall c, fine c -> Forall is_hash want ->
  let r := pump_held (Some s) hooked force_grant s spins want c in
  grows c r.2 /\ (r.1 = Some tt -> forall h, h ∈ want -> held r.2 h).
Proof.
  induction spins as [|k IH]; intros c Hf Hw; cbn [pump_held]; destruct (all_held_run want c Hf Hw) as (b & -> & Hb); destruct b; cbn [fst snd].
  1,3: split; [by apply grows_refl|auto].
  - split; [by apply grows_refl|done].
  - pose proof (pump_grows c) as Hp. destruct (pump c) as [[o|] c1]; cbn [snd] in *; [|split; [exact Hp|done]].
    destruct (IH c1 (proj1 (Hp Hf)) Hw) as [G1 G2]. split; [exact (grows_trans _ _ _ Hp G1)|exact G2].
Qed.

Lemma batch_grows want c : fine c -> Forall is_hash want ->
  let r := fetch_batch (Some s) hooked force_grant fuel s want c in
  grows c r.2 /\ (r.1 = Some (ROk tt) -> forall h, h ∈ want -> held r.2 h).
Proof.
  intros Hf Hw. unfold fetch_batch. cbv zeta. unfold mbind, SM_bind.
  match goal with |- context [call _ _ _ _ ?m ?b c] => pose proof (call_grows m b c) as Hc; set (x := call _ _ _ _ m b c) in * end. destruct x as [[[e|rc]|] c1]; cbn [snd fst] in *.
  - pose proof (pump_held_grows FETCH_SPINS want c1 (proj1 (Hc Hf)) Hw) as Hp. cbv zeta in Hp. unfold sm_try.
    destruct (pump_held _ _ _ _ _ _ _) as [o c2]. cbn [fst snd] in Hp. destruct Hp as [G1 G2]. cbn [mret SM_ret fst snd]. split; [exact (grows_trans _ _ _ Hc G1)|].
    destruct o as [[]|]; [auto|done].
  - split; [exact Hc|done].
  - split; [exact Hc|done].
Qed.

(** ** Expanding a generation *)

(** Reading an object back. *)
Lemma read_back h c : held c h -> exists b c1, on_cstore (harp_store_get s h harp_cbuf_init) c = (Some (true, b), c1) /\
  obj_data s (files c) h = Some (cb_buf b) /\ files c1 = files c.
Proof.
  intros [data Hd]. destruct (get_stored s h data (cl_world c) Hrd Hd) as (b & w & E & Hb & Hw).
  exists b, (cl_set_world w c). unfold on_cstore. rewrite E. split; [done|]. rewrite Hb. done.
Qed.

Lemma expand_run K h c pending : fine c -> is_hash h -> held c h -> (length K < HARP_CLIENT_MAX_CLOSURE)%nat -> within K pending ->
  (forall y, refers s (files c) h y -> y ∈ K) ->
  exists p' c', expand s h (pending, c) = (p', c') /\ files c' = files c /\ within K p' /\ pending ⊆ p' /\
    (forall y, refers s (files c) h y -> y ∈ p') /\ exists k, p' = pending ++ k.
Proof.
  intros Hf Hh Hd HK Hw Hc. destruct (read_back h c Hd) as (b & c1 & E & Hdata & Hc1). unfold expand. rewrite E.
  rewrite foreach_children, collect_never_stops. cbn [snd]. rewrite Tauto.if_same.
  assert (forall y, y ∈ (child_hashes false (cb_buf b)).2 -> refers s (files c) h y) as Href by (intros y Hy; by exists (cb_buf b)).
  destruct (collect_within K (child_hashes false (cb_buf b)).2 HK) with (l := pending) as (W & W1 & W2 & W3).
  - apply children_hashes. apply (proj2 Hf h); done.
  - intros y Hy. apply Hc, Href, Hy.
  - done.
  - do 2 eexists. split; [done|]. split_and!; try done. intros y (e & He & Hy). rewrite Hdata in He. injection He as <-. by apply W2.
Qed.

Lemma expand_all K todo : (length K < HARP_CLIENT_MAX_CLOSURE)%nat -> forall c pending, fine c -> Forall is_hash todo ->
  (forall h, h ∈ todo -> held c h) -> within K pending -> (forall h y, h ∈ todo -> refers s (files c) h y -> y ∈ K) ->
  exists p' c', fold_left (fun st h => expand s h st) todo (pending, c) = (p', c') /\ files c' = files c /\ within K p' /\ pending ⊆ p' /\
    (forall h y, h ∈ todo -> refers s (files c) h y -> y ∈ p') /\ exists k, p' = pending ++ k.
Proof.
  intros HK. induction todo as [|h todo IH]; intros c pending Hf Hh Hd Hw Hc; cbn [fold_left].
  { exists pending, c. split_and!; try done; [by intros h y Hx%elem_of_nil|]. exists []. by rewrite app_nil_r. }
  apply Forall_cons in Hh as [Hh Ht].
  destruct (expand_run K h c pending Hf Hh (Hd h ltac:(left)) HK Hw ltac:(intros y; apply Hc; left)) as (p1 & c1 & -> & E1 & W1 & S1 & R1 & k1 & P1).
  destruct (IH c1 p1) as (p2 & c2 & -> & E2 & W2 & S2 & R2 & k2 & P2).
  - by unfold fine in *; rewrite E1.
  - exact Ht.
  - intros x Hx. unfold held. rewrite E1. apply Hd. by right.
  - exact W1.
  - intros x y Hx. rewrite E1. apply Hc. by right.
  - exists p2, c2. split; [done|]. split; [congruence|]. split; [done|]. split; [by etransitivity|]. split.
    + intros x y [->|Hx]%elem_of_cons Hr; [apply S2; auto|]. apply (R2 x); [done|]. by rewrite E1.
    + exists (k1 ++ k2). by rewrite P2, P1, app_assoc.
Qed.

(** ** The outer loop *)

Definition done_upto (n : nat) (pending : list harp_hash) c : Prop :=
  forall h, h ∈ take n pending -> held c h /\ forall y, refers s (files c) h y -> y ∈ pending.

Lemma refers_grows c c' h y : fine c -> grows c c' -> is_hash h -> held c h -> refers s (files c') h y <-> refers s (files c) h y.
Proof.
  intros Hf Hg Hh [data Hd]. destruct (Hg Hf) as [_ Hk]. specialize (Hk h data Hh Hd).
  unfold refers. rewrite Hk, Hd. done.
Qed.

Lemma fold_expand_files todo : forall c pending, files (fold_left (fun st h => expand s h st) todo (pending, c)).2 = files c.
Proof.
  induction todo as [|h todo IH]; intros c pending; [done|]. cbn [fold_left]. unfold expand at 2. unfold on_cstore, harp_store_get.
  erewrite sm_bind_run by apply read_file_run. cbn [mret SM_ret]. destruct (read_result _ _ _) as [[data err]|]; cbv zeta; [destruct (negb _)|]; by rewrite IH.
Qed.

Lemma collect_hashes hs : Forall is_hash hs -> forall l, Forall is_hash l -> Forall is_hash (run_all list_collect hs l).
Proof.
  induction hs as [|h hs IH]; intros Hh l Hl; [exact Hl|]. apply Forall_cons in Hh as [Hh Hhs]. cbn [run_all fold_left]. apply (IH Hhs).
  unfold list_collect. cbn [snd]. destruct (_ && _); [|exact Hl]. apply Forall_app. split; [exact Hl|]. by apply Forall_singleton.
Qed.

Lemma fold_expand_hashes todo : forall c pending, fine c -> Forall is_hash todo -> Forall is_hash pending ->
  Forall is_hash (fold_left (fun st h => expand s h st) todo (pending, c)).1.
Proof.
  induction todo as [|h todo IH]; intros c pending Hf Ht Hp; [exact Hp|]. apply Forall_cons in Ht as [Hh Ht]. cbn [fold_left].
  pose proof (fold_expand_files [h] c pending) as Hfile. cbn [fold_left] in Hfile.
  assert (Forall is_hash (expand s h (pending, c)).1) as Hp1.
  { unfold expand. destruct (decide (held c h)) as [Hd|Hd].
    - destruct (read_back h c Hd) as (b & c1 & -> & Hdata & _). cbn [fst]. rewrite foreach_children, collect_never_stops. cbn [snd]. rewrite Tauto.if_same.
      apply collect_hashes; [|exact Hp]. apply children_hashes, (proj2 Hf h); done.
    - unfold on_cstore, harp_store_get. erewrite sm_bind_run by apply read_file_run. unfold read_result.
      unfold held, obj_data in Hd. destruct (fs_files _ !! _); [by destruct Hd; eexists|]. destruct (os_open _ && _); exact Hp. }
  destruct (expand s h (pending, c)) as [p1 c1]. cbn [fst snd] in *. apply IH; [|done|done]. unfold fine in *. by rewrite Hfile.
Qed.

Lemma pick_files l : forall want c, (pick_want s l want c).2 = c.
Proof.
  induction l as [|h l IH]; intros want c; [done|]. cbn [pick_want]. destruct (_ <? _)%nat; [|done].
  unfold client_have, on_cstore, harp_store_have. rewrite path_readable_run. replace (cl_set_world (cl_world c) c) with c by by destruct c. apply IH.
Qed.

Lemma pick_sub l : forall want c, Forall is_hash want -> Forall is_hash l -> Forall is_hash (pick_want s l want c).1.
Proof.
  induction l as [|h l IH]; intros want c Hw Hl; [done|]. apply Forall_cons in Hl as [Hh Hl]. cbn [pick_want]. destruct (_ <? _)%nat; [|done].
  destruct (client_have s h c) as [b c1]. apply IH; [|done]. destruct b; [done|]. apply Forall_app. split; [done|]. by apply Forall_singleton.
Qed.

(** The step between looking and expanding. *)
Abbreviation obtain want := (if (length want =? 0)%nat then mret (ROk tt) else fetch_batch (Some s) hooked force_grant fuel s want).

Lemma obtain_grows want c : fine c -> Forall is_hash want ->
  let r := obtain want c in grows c r.2 /\ (r.1 = Some (ROk tt) -> forall h, h ∈ want -> held r.2 h).
Proof.
  intros Hf Hw. destruct (Nat.eqb_spec (length want) 0) as [E|]; [|by apply batch_grows].
  apply length_zero_iff_nil in E. subst. split; [by apply grows_refl|]. by intros _ h Hh%elem_of_nil.
Qed.

Lemma loop_grows turns : forall pending cursor got c, fine c -> Forall is_hash pending ->
  grows c (fetch_loop (Some s) hooked force_grant fuel s turns pending cursor got c).2.
Proof.
  induction turns as [|turns IH]; intros pending cursor got c Hf Hp; cbn [fetch_loop]; (destruct (_ <=? _)%nat; [by apply grows_refl|]); [by apply grows_refl|].
  cbv zeta. assert (Forall is_hash (drop cursor pending)) as Ht by by apply Forall_drop.
  pose proof (pick_files (drop cursor pending) [] c) as E. pose proof (pick_sub (drop cursor pending) [] c ltac:(constructor) Ht) as Hw.
  destruct (pick_want _ _ _ _) as [want c0]. cbn [fst snd] in *. subst c0.
  destruct (obtain_grows want c Hf Hw) as [G1 _]. destruct (obtain want c) as [[[[]|rc]|] c1]; cbn [snd] in *; [|exact G1|exact G1].
  pose proof (fold_expand_files (drop cursor pending) c1 pending) as E2. pose proof (fold_expand_hashes (drop cursor pending) c1 pending (proj1 (G1 Hf)) Ht Hp) as Hp2.
  destruct (fold_left _ _ _) as [p2 c2]. cbn [fst snd] in *. assert (grows c c2) as G2 by (apply (grows_trans _ c1); [exact G1|by apply grows_refl]).
  exact (grows_trans _ _ _ G2 (IH p2 _ _ c2 (proj1 (G2 Hf)) Hp2)).
Qed.

Lemma loop_closed K turns : (length K <= WANT_BATCH)%nat -> forall pending cursor got c n c',
  fetch_loop (Some s) hooked force_grant fuel s turns pending cursor got c = (Some (ROk n), c') ->
  fine c -> within K pending -> (forall h y, h ∈ K -> refers s (files c') h y -> y ∈ K) ->
  done_upto cursor pending c ->
  exists P, pending ⊆ P /\ forall h, h ∈ P -> held c' h /\ forall y, refers s (files c') h y -> y ∈ P.
Proof.
  intros HK. induction turns as [|turns IH]; intros pending cursor got c n c' Hrun Hf Hw Hcl Hdone; cbn [fetch_loop] in Hrun;
    destruct (Nat.leb_spec (length pending) cursor) as [Hle|Hlt]; try discriminate Hrun.
  1,2: injection Hrun as _ <-; exists pending; (split; [done|]); intros h Hh; apply Hdone; by rewrite take_ge.
  cbv zeta in Hrun. set (todo := drop cursor pending) in *. pose proof Hw as (_ & Hph & HpK). assert (Forall is_hash todo) as Ht by by apply Forall_drop.
  assert (length todo <= WANT_BATCH)%nat as Htl. { pose proof (within_short K pending Hw). unfold todo. rewrite length_drop. lia. }
  destruct (pick_run todo c Hf Ht [] Htl) as (want & Hpick & Hsub & Hall). rewrite Hpick in Hrun. cbn [app] in Hrun.
  assert (Forall is_hash want) as Hwh by (apply Forall_forall; intros x Hx; rewrite Forall_forall in Ht; apply Ht, Hsub, Hx).
  destruct (obtain_grows want c Hf Hwh) as [G1 Hgot]. destruct (obtain want c) as [[[[]|rc]|] c1]; cbn [fst snd] in *; try discriminate Hrun.
  specialize (Hgot eq_refl). destruct (G1 Hf) as [Hf1 K1].
  assert (forall h, h ∈ todo -> held c1 h) as Hheld.
  { intros h Hh. destruct (Hall h Hh) as [[y Hy]|Hin]; [|by apply Hgot]. exists y. apply K1; [|done]. rewrite Forall_forall in Ht. by apply Ht. }
  pose proof (fold_expand_files todo c1 pending) as E2. pose proof (fold_expand_hashes todo c1 pending Hf1 Ht Hph) as Hp2.
  assert (length K < HARP_CLIENT_MAX_CLOSURE)%nat as HK2 by (unfold WANT_BATCH, HARP_CLIENT_MAX_CLOSURE in *; lia).
  pose proof (fun c2 p2 (Hr : fetch_loop (Some s) hooked force_grant fuel s turns p2 (length pending) (got + length want) c2 = (Some (ROk n), c')) (H1 : fine c2) (H2 : Forall is_hash p2) =>
    eq_rect _ (fun x => grows c2 x.2) (loop_grows turns p2 (length pending) (got + length want) c2 H1 H2) _ Hr) as Hrest.
  assert (forall c2, files c2 = files c1 -> fine c2) as Hfine2 by (intros c2 E; unfold fine in *; by rewrite E).
  assert (forall h y, h ∈ todo -> refers s (files c1) h y -> y ∈ K) as Hto.
  { intros h y Hh Hr. destruct (fold_left _ _ _) as [p2 c2]. cbn [fst snd] in *. specialize (Hrest c2 p2 Hrun (Hfine2 c2 E2) Hp2). cbn [snd] in Hrest.
    assert (is_hash h) as Hhh by (rewrite Forall_forall in Ht; by apply Ht). apply (Hcl h y); [apply HpK; by eapply subseteq_drop|].
    apply (refers_grows c2 c' h y (Hfine2 c2 E2) Hrest Hhh); [unfold held; rewrite E2; by apply Hheld|]. by rewrite E2. }
  destruct (expand_all K todo HK2 c1 pending Hf1 Ht Hheld Hw Hto) as (p2 & c2 & E & Ef & W2 & S2 & R2 & k & P2). rewrite E in *. cbn [fst snd] in *.
  destruct (IH p2 (length pending) _ c2 n c' Hrun (Hfine2 c2 Ef) W2 Hcl) as (P & HP1 & HP2).
  - intros h Hh. rewrite P2, take_app_length in Hh. unfold held. rewrite Ef. split.
    + rewrite <- (take_drop cursor pending) in Hh. apply elem_of_app in Hh as [Hh|Hh]; [|by apply Hheld].
      destruct (Hdone h Hh) as [[y Hy] _]. exists y. apply K1; [|done]. rewrite Forall_forall in Hph. apply Hph. by eapply subseteq_take.
    + intros y Hr. rewrite <- (take_drop cursor pending) in Hh. apply elem_of_app in Hh as [Hh|Hh]; [|by apply (R2 h)].
      destruct (Hdone h Hh) as [Hd Hc]. apply S2, Hc. apply (refers_grows c c1 h y Hf G1); [|done|done].
      rewrite Forall_forall in Hph. apply Hph. by eapply subseteq_take.
  - exists P. split; [by etransitivity|done].
Qed.

Lemma fetch_grows root c : is_hash root -> grows c (harp_client_fetch_closure (Some s) hooked force_grant fuel root c).2.
Proof.
  intros Hr Hf. unfold harp_client_fetch_closure. change (list_collect root []).2 with [root].
  exact (loop_grows (S HARP_CLIENT_MAX_CLOSURE) [root] 0 0 c Hf ltac:(by apply Forall_singleton) Hf).
Qed.

(** C8: a fetched closure is complete.  When [harp_client_fetch_closure] returns 0,
    the local store holds every object reachable from the root (parents of snapshots
    aside) - whatever the peer sent, in whatever order, duplicates, malformed objects
    and unrelated messages included - and every object it held before is still there,
    unchanged.  The closure has at most 64 objects: see [fetch_gives_up] for what
    happens beyond; and no [fflush] fails, files can be read back and memory suffices. *)
Theorem fetch_complete (root : harp_hash) (K : list harp_hash) c n c' :
  fine c -> is_hash root -> harp_client_fetch_closure (Some s) hooked force_grant fuel root c = (Some (ROk n), c') ->
  root ∈ K -> (forall h y, h ∈ K -> refers s (files c') h y -> y ∈ K) -> (length K <= WANT_BATCH)%nat ->
  (forall h, reach s (files c') root h -> held c' h) /\
  (forall h y, is_hash h -> obj_data s (files c) h = Some y -> obj_data s (files c') h = Some y).
Proof.
  intros Hf Hr Hrun HK Hcl Hlen.
  pose proof (fetch_grows root c Hr) as Hg. rewrite Hrun in Hg. cbn [snd] in Hg. unfold harp_client_fetch_closure in Hrun.
  change (list_collect root []).2 with [root] in Hrun.
  destruct (loop_closed K _ Hlen _ _ _ _ _ _ Hrun Hf) as (P & HP1 & HP2).
  - split; [apply NoDup_singleton|]. split; [by apply Forall_singleton|]. intros x Hx%list_elem_of_singleton. by subst.
  - exact Hcl.
  - by intros h Hh%elem_of_nil.
  - split; [|apply Hg, Hf]. intros h Hh. enough (h ∈ P) by by apply HP2. induction Hh as [|x y _ IH Hy]; [apply HP1; left|]. by apply (HP2 x).
Qed.

(** What happens beyond: the cursor passes over the objects that did not fit in the
    batch. *)
Lemma pick_first l c : fine c -> Forall is_hash l -> (forall h, h ∈ l -> ~ held c h) -> forall want,
  pick_want s l want c = (want ++ take (WANT_BATCH - length want) l, c).
Proof.
  intros Hf. induction l as [|h l IH]; intros Hl Hn want; cbn [pick_want]; [by rewrite take_nil, app_nil_r|].
  apply Forall_cons in Hl as [Hh Hl]. destruct (Nat.ltb_spec (length want) WANT_BATCH) as [Hlt|Hge].
  - rewrite have_run, bool_decide_eq_false_2 by (done || apply Hn; left). rewrite IH by (done || intros x Hx; apply Hn; by right).
    rewrite length_app. cbn [length]. replace (WANT_BATCH - length want)%nat with (S (WANT_BATCH - (length want + 1))) by lia. cbn [take]. by rewrite <- app_assoc.
  - replace (WANT_BATCH - length want)%nat with O by lia. cbn [take]. by rewrite app_nil_r.
Qed.

Lemma expand_leaves todo : forall c pending, (forall h, h ∈ todo -> held c h -> forall y, ~ refers s (files c) h y) ->
  (fold_left (fun st h => expand s h st) todo (pending, c)).1 = pending.
Proof.
  induction todo as [|h todo IH]; intros c pending Hn; [done|]. cbn [fold_left].
  pose proof (fold_expand_files [h] c pending) as Hfile. cbn [fold_left] in Hfile.
  assert ((expand s h (pending, c)).1 = pending) as Hp.
  { unfold expand. destruct (decide (held c h)) as [Hd|Hd].
    - destruct (read_back h c Hd) as (b & c1 & -> & Hdata & _). cbn [fst]. rewrite foreach_children, collect_never_stops. cbn [snd]. rewrite Tauto.if_same.
      destruct (child_hashes false (cb_buf b)).2 as [|y ys] eqn:Ey; [done|]. destruct (Hn h ltac:(left) Hd y). exists (cb_buf b). split; [done|]. rewrite Ey. left.
    - unfold on_cstore, harp_store_get. erewrite sm_bind_run by apply read_file_run. unfold read_result.
      unfold held, obj_data in Hd. destruct (fs_files _ !! _); [by destruct Hd; eexists|]. by destruct (os_open _ && _). }
  destruct (expand s h (pending, c)) as [p1 c1]. cbn [fst snd] in *. subst p1. apply IH. unfold held. rewrite Hfile. intros x Hx. apply Hn. by right.
Qed.

(** A generation of more than 64 missing objects without children: the fetch asks
    for the first 64, and when they are there reports success, although the others
    were neither asked for nor are they held. *)
Lemma fetch_gives_up turns pending got c c1 : fine c -> Forall is_hash pending -> (forall h, h ∈ pending -> ~ held c h) ->
  (WANT_BATCH < length pending)%nat ->
  fetch_batch (Some s) hooked force_grant fuel s (take WANT_BATCH pending) c = (Some (ROk tt), c1) ->
  (forall h, h ∈ pending -> held c1 h -> forall y, ~ refers s (files c1) h y) ->
  exists c', fetch_loop (Some s) hooked force_grant fuel s (S turns) pending 0 got c = (Some (ROk (got + WANT_BATCH)%nat), c') /\ files c' = files c1.
Proof.
  intros Hf Hp Hn Hlen Hb Hc. cbn [fetch_loop]. destruct (Nat.leb_spec (length pending) 0) as [|_]; [lia|]. cbv zeta. rewrite drop_0.
  rewrite pick_first by done. cbn [app length]. rewrite Nat.sub_0_r. 
  assert (length (take WANT_BATCH pending) = WANT_BATCH) as Hl by (rewrite length_take; lia). rewrite Hl. cbn [Nat.eqb WANT_BATCH].
  change 64%nat with WANT_BATCH. rewrite Hb. pose proof (fold_expand_files pending c1 pending) as E1. pose proof (expand_leaves pending c1 pending Hc) as E2.
  destruct (fold_left _ _ _) as [p2 c2]. cbn [fst snd] in *. subst p2. exists c2. split; [|exact E1]. destruct turns; cbn [fetch_loop]; by rewrite Nat.leb_refl.
Qed.
End fetch.

(** ** Concrete fetches *)

(** A peer that sends a fixed sequence of messages. *)
Definition script : Type := list (Z * list Z).
Definition script_send : MsgLink script := fun _ _ l => (true, l).
Definition script_recv : MsgRecv script := fun l => match l with [] => (None, []) | m :: l => (Some (m.1, map u8 m.2), l) end.

Section demo.
#[local] Existing Instances script_send script_recv alloc_all os_good no_faults.

Definition demo_leaf (i : nat) : list Z := cb_buf (harp_obj_encode_blob harp_cbuf_init (str "x") [Z.of_nat i]).
Definition demo_list (n : nat) : list Z := cb_buf (harp_obj_encode_list harp_cbuf_init (str "x") (map (fun i => harp_hash_compute (demo_leaf i)) (seq 0 n))).
Definition demo_ack (rid : Z) : Z * list Z := (HARP_STREAM_CTL, cb_buf (harp_env_head harp_cbuf_init HARP_MSG_RESPONSE rid (str "state.want") false)).
(** The answers to two wants: the list, then its first [k] blobs. *)
Definition demo_script (n k : nat) : script :=
  [demo_ack 1; (HARP_STREAM_OBJ, demo_list n); demo_ack 2] ++ map (fun i => (HARP_STREAM_OBJ, demo_leaf i)) (seq 0 k).
Definition demo_fetch (n k : nat) : option (res nat) * client script :=
  harp_client_fetch_closure (Some s_dir) false None 10 (harp_hash_compute (demo_list n)) (harp_client_init (demo_script n k) (world_of fs_empty)).
Definition demo_held (c : client script) (data : list Z) : bool := bool_decide (obj_data s_dir (w_fs (cl_world c)) (harp_hash_compute data) = Some data).

Lemma demo_recv_bytes l m l' : script_recv l = (Some m, l') -> bytes_ok m.2.
Proof.
  destruct l as [|x l]; [done|]. intros [= <- _]. cbn [snd]. apply List.Forall_map, List.Forall_forall. intros b _. unfold is_u8, u8. apply Z.mod_pos_bound. lia.
Qed.

(** Two blobs and their list are fetched into an empty store. *)
Lemma demo_fetch_returns : (demo_fetch 2 2).1 = Some (ROk 3%nat).
Proof. vm_compute. reflexivity. Qed.

Definition demo_closure : list harp_hash := map harp_hash_compute [demo_list 2; demo_leaf 0; demo_leaf 1].

(** The three objects refer to each other only. *)
Definition demo_refs_ok (c : client script) : bool :=
  forallb (fun h => match obj_data s_dir (w_fs (cl_world c)) h with Some e => forallb (fun y => bool_decide (y ∈ demo_closure)) (child_hashes false e).2 | None => true end) demo_closure.
Lemma demo_refs_closed : demo_refs_ok (demo_fetch 2 2).2 = true.
Proof. vm_compute. reflexivity. Qed.

Lemma fetch_complete_witness :
  exists c' : client script, demo_fetch 2 2 = (Some (ROk 3%nat), c') /\
    forall h, reach s_dir (w_fs (cl_world c')) (harp_hash_compute (demo_list 2)) h -> held s_dir c' h.
Proof.
  pose proof demo_fetch_returns as Hr. pose proof demo_refs_closed as Hc. destruct (demo_fetch 2 2) as [r c'] eqn:E. cbn [fst snd] in *. subst r.
  exists c'. split; [reflexivity|]. unfold demo_fetch in E.
  refine (proj1 (fetch_complete s_dir false None 10 (fun t => eq_refl) _ _ demo_recv_bytes _ demo_closure _ 3 c' _ (is_hash_compute _) E _ _ _)).
  - unfold dir_ok, STORE_DIR_MAX. cbn. lia.
  - split; [intros t; reflexivity|]. split; intros t; reflexivity.
  - split; [exact fs_empty_no_obj_dirs|]. intros h y _. unfold obj_data. cbn [cl_world harp_client_init world_of w_fs fs_empty fs_files]. by rewrite lookup_empty.
  - left.
  - intros h y Hh (e & He & Hy). unfold demo_refs_ok in Hc. rewrite forallb_forall in Hc. apply list_elem_of_In, Hc in Hh. rewrite He in Hh.
    rewrite forallb_forall in Hh. apply list_elem_of_In, Hh in Hy. by apply bool_decide_eq_true in Hy.
  - cbn. unfold WANT_BATCH. lia.
Defined.
End demo.
