(* ===== verification/KeyedMaps.v ===== *)
(** * Maps with integer keys

    The maps of the protocol as items: their encoding, what a parser of keyed fields
    makes of them, their depth. *)
From Stdlib Require Import ZArith Lia String List Bool.
From stdpp Require Import base list.
From S2P Require Import Prelude Cbuf CborEnc CborDec CborFields CborItems Object Device Reply.
Open Scope Z_scope.
Open Scope list_scope.

Definition kmap (l : list (Z * item)) : item := IMap (map (fun ki => (IUint ki.1, ki.2)) l).
Definition enc_kv (ki : Z * item) : list Z := enc_uint ki.1 ++ enc_item ki.2.

Lemma enc_kmap l : enc_item (kmap l) = enc_map (zlen l) ++ flat_map enc_kv l.
Proof.
  unfold kmap. cbn [enc_item]. unfold zlen. rewrite length_map. f_equal. induction l as [|x l IH]; [done|]. cbn [map flat_map]. by rewrite IH.
Qed.

(** The effect of a map on a record, pair by pair. *)
Lemma reads_kmap {T} (visit : Z -> parser T unit) (l : list (Z * item * (T -> T))) : zlen l < 2 ^ 63 ->
  (forall x, x ∈ l -> is_u64 x.1.1 /\ reads 0 (visit x.1.1) (enc_item x.1.2) x.2) ->
  reads 0 (map_fields visit) (enc_item (kmap (map fst l))) (fun t => fold_left (fun t x => x.2 t) l t).
Proof.
  intros Hn Hl. pose proof (reads_map_fields visit (map (fun x => mk_field x.1.1 (enc_item x.1.2) x.2) l)) as H.
  replace (enc_item (kmap (map fst l))) with (enc_fields (map (fun x : Z * item * (T -> T) => mk_field x.1.1 (enc_item x.1.2) x.2) l)).
  - eapply reads_ext; [|apply H].
    + intros t. unfold run_fields. clear. revert t. induction l as [|x l IH]; intros t; [done|]. cbn. apply IH.
    + unfold zlen in *. by rewrite length_map.
    + intros y (x & -> & Hx)%list_elem_of_fmap. destruct (Hl x Hx) as [H1 H2]. split; [exact H1|]. split; [apply item_zlen|exact H2].
  - rewrite enc_kmap. unfold enc_fields, zlen. rewrite !length_map. f_equal. clear. induction l as [|x l IH]; [done|]. cbn [map flat_map]. by rewrite IH.
Qed.

Lemma reads_uint {T} (set : Z -> T -> T) v : is_u64 v -> reads 0 (get_uint set) (enc_item (IUint v)) (set v).
Proof. intros Hv. by apply (reads_set harp_cdec_uint set), decodes_uint. Qed.

(** Well-formed and at most [n] deep. *)
Definition flat (n : nat) (i : item) : bool := item_ok i && (item_depth i <=? n)%nat.

Lemma flat_kmap n l : zlen l < 2 ^ 63 -> (forall ki, ki ∈ l -> is_u64 ki.1 /\ flat n ki.2 = true) -> flat (S n) (kmap l) = true.
Proof.
  intros Hn Hl. unfold flat, kmap. cbn [item_ok item_depth]. unfold zlen in *. rewrite length_map. rewrite (proj2 (Z.ltb_lt _ _) Hn). cbn [andb].
  apply andb_true_intro. split.
  - apply forallb_forall. intros x (ki & <- & Hki)%in_map_iff. apply list_elem_of_In in Hki. destruct (Hl ki Hki) as [H1 H2]. unfold flat in H2.
    apply andb_prop in H2 as [H2 _]. cbn [fst snd item_ok]. rewrite H2, andb_true_r. by apply u64_b_spec.
  - apply Nat.leb_le. apply list_max_le. apply List.Forall_forall. intros k (x & <- & (ki & <- & Hki)%in_map_iff)%in_map_iff. apply list_elem_of_In in Hki.
    destruct (Hl ki Hki) as [_ H2]. apply andb_prop in H2 as [_ H2]. apply Nat.leb_le in H2. cbn [fst snd item_depth]. lia.
Qed.

Lemma flat_array n l : zlen l < 2 ^ 63 -> (forall i, i ∈ l -> flat n i = true) -> flat (S n) (IArray l) = true.
Proof.
  intros Hn Hl. unfold flat. cbn [item_ok item_depth]. rewrite (proj2 (Z.ltb_lt _ _) Hn). cbn [andb]. apply andb_true_intro. split.
  - apply forallb_forall. intros x Hx%list_elem_of_In. specialize (Hl x Hx). by apply andb_prop in Hl as [-> _].
  - apply Nat.leb_le, list_max_le, List.Forall_forall. intros k (x & <- & Hx%list_elem_of_In)%in_map_iff. specialize (Hl x Hx). apply andb_prop in Hl as [_ Hl].
    apply Nat.leb_le in Hl. lia.
Qed.

Lemma flat_uint n v : is_u64 v -> flat n (IUint v) = true.
Proof. intros H. unfold flat. cbn [item_ok item_depth]. by rewrite (proj2 (u64_b_spec v)). Qed.
Lemma flat_text n s : zlen s < 2 ^ 64 -> flat n (IText s) = true.
Proof. intros H. unfold flat. cbn [item_ok item_depth]. by rewrite (proj2 (Z.ltb_lt _ _) H). Qed.
Lemma flat_bytes n s : zlen s < 2 ^ 64 -> flat n (IBytes s) = true.
Proof. intros H. unfold flat. cbn [item_ok item_depth]. by rewrite (proj2 (Z.ltb_lt _ _) H). Qed.
Lemma flat_skippable n i : (n <= HARP_CBOR_MAX_DEPTH)%nat -> flat n i = true -> skippable i = true.
Proof. intros Hn [H1 H2]%andb_prop. unfold skippable. rewrite H1. cbn [andb]. apply Nat.leb_le in H2. apply Nat.leb_le. lia. Qed.

(** The pairs of a concrete map, one by one. *)
Ltac flat_tac := repeat
  first [ apply flat_kmap; [by vm_compute|let ki := fresh "ki" in let Hk := fresh "Hk" in intros ki Hk; repeat (apply elem_of_cons in Hk as [->|Hk]; [split; [unfold is_u64; cbn; lia|cbn [fst snd]]|]); [..|by apply elem_of_nil in Hk]]
        | apply flat_array; [by vm_compute|let i := fresh "i" in let Hk := fresh "Hk" in intros i Hk; repeat (apply elem_of_cons in Hk as [->|Hk]); [..|by apply elem_of_nil in Hk]]
        | apply flat_uint | apply flat_text | apply flat_bytes ].

(** Two concatenations of the same encodings. *)
Ltac same_bytes := unfold enc_kv; cbn [flat_map map fst snd enc_item]; rewrite ?enc_kmap; unfold enc_kv; cbn [flat_map map fst snd enc_item];
  rewrite ?app_nil_r, <- ?app_assoc; reflexivity.

(** Compose the encoders of keyed values. *)
Ltac keyed_seq := unfold kuint, ktext, kbytes, kbool; appends_seq.
