(* ===== verification/IdentitySpec.v ===== *)
(** * The identity record: theorems

    What the device writes as its identity (session.c) is one well-formed CBOR item,
    every count it declares included, and the host's parser (client.c) reads back
    exactly the device's configuration. *)
From Stdlib Require Import ZArith Lia String List Bool.
From stdpp Require Import base list.
From S2P Require Import Prelude Cbuf CborEnc CborDec CborFields CborItems KeyedMaps Sha256 Frame Envelope Object Link Fs Store Params Evq Ieee Parts Render Device Reply Stream Hello DeviceSpec SessionSpec Client.
Open Scope Z_scope.
Open Scope list_scope.

(** A local variable. *)
Lemma reads_local {T X} (x : X) (m : parser (X * T) unit) (set : X -> T -> T) bs f : reads 0 m bs f ->
  reads 0 (y ← with_local x m; on_snd (sm_modify (set y))) bs (fun t => set (f (x, t)).1 (f (x, t)).2).
Proof. intros Hm rest t Hr. unfold mbind, SM_bind, with_local. cbn [fst snd]. by rewrite (Hm rest (x, t) Hr). Qed.

(** ** The device's side *)

Section encoder.
Context {E : DevEnv} {R : Realloc} (conf : dev_conf).

Definition vendor_item (id : Z) (name : list Z) : item := kmap [(0, IUint id); (1, IText name)].
Definition engine_item (hash : harp_hash) : item :=
  kmap [(0, IText (or_default (c_engine_name conf) ENGINE_ID)); (1, IText (or_default (c_engine_ver conf) ENGINE_VERSION)); (2, IBytes hash)].
Definition slot_item (slot : Z) : item :=
  kmap [(0, IUint slot); (1, IUint 0); (2, IText (slot_name slot)); (3, IText (slot_group slot)); (4, IText (slot_path slot)); (5, ISimple 21)].
Definition latency_item : item := IArray [kmap [(0, IUint 48000); (1, IUint (c_in_lat conf)); (2, IUint (c_out_lat conf)); (3, IUint 256)]].
Definition rt_pairs : list (Z * item) :=
  (if c_rt_floor conf =? 0 then [] else [(0, IUint (c_rt_floor conf))]) ++
  (if c_rt_nsamples conf =? 0 then [] else [(1, IUint (c_rt_nsamples conf))]).

Definition identity_pairs (hash : harp_hash) : list (Z * item) :=
  [(0, vendor_item 0x1209 (str "HARP Reference Project")); (1, vendor_item 1 (or_default (c_product conf) (str "harp-refdev")));
   (2, IText (c_serial conf)); (3, IText FW_VERSION); (4, engine_item hash); (5, IArray [IUint PROTO_MAJOR; IUint PROTO_MINOR]);
   (6, IArray (map IText (capabilities conf))); (7, IArray (map slot_item (map Z.of_nat (seq 0 NSLOTS)))); (8, latency_item);
   (9, IText (str "refdev sim " ++ env_date)); (10, IUint (c_boot_count conf)); (11, IArray [kmap [(0, IUint 0); (1, IText (str "notes"))]]);
   (12, IUint (Z.of_nat NPARTS)); (13, kmap [(0, IUint (Z.of_nat DEV_TXN_MAX)); (1, IUint (Z.of_nat DEV_TXN_EVENTS_MAX))])] ++
  (if rt_profile conf then [(14, kmap rt_pairs)] else []).
Definition identity_item (hash : harp_hash) : item := kmap (identity_pairs hash).

Lemma appends_vendor : appends (fun b => enc_vendor conf b)
  (flat_map enc_kv [(0, vendor_item 0x1209 (str "HARP Reference Project")); (1, vendor_item 1 (or_default (c_product conf) (str "harp-refdev")))]).
Proof. unfold enc_vendor. cbv zeta. eapply appends_eq; [keyed_seq|]. unfold vendor_item. same_bytes. Qed.

Lemma appends_engine hash : appends (fun b => enc_engine conf hash b)
  (flat_map enc_kv [(2, IText (c_serial conf)); (3, IText FW_VERSION); (4, engine_item hash)]).
Proof. unfold enc_engine. cbv zeta. eapply appends_eq; [keyed_seq|]. unfold engine_item. same_bytes. Qed.

(** The declared count is the number of capabilities. *)
Lemma capability_count_right : capability_count conf = zlen (capabilities conf).
Proof. unfold capability_count, capabilities, engine_is_fx. destruct (c_no_rate_lock conf), (rt_profile conf); reflexivity. Qed.

Lemma flat_map_after {A B C} (f : B -> list C) (g : A -> B) l : flat_map f (map g l) = flat_map (fun x => f (g x)) l.
Proof. induction l as [|x l IH]; [done|]. cbn [map flat_map]. by rewrite IH. Qed.

Lemma appends_protocol : appends (fun b => enc_protocol conf b)
  (flat_map enc_kv [(5, IArray [IUint PROTO_MAJOR; IUint PROTO_MINOR]); (6, IArray (map IText (capabilities conf)))]).
Proof.
  unfold enc_protocol. cbv zeta. rewrite capability_count_right. eapply appends_eq.
  - eapply (appends_comp _ (fun b => fold_left harp_cbor_text (capabilities conf) b)); [keyed_seq|].
    apply (appends_fold harp_cbor_text enc_text). auto with enc.
  - unfold enc_kv. cbn [flat_map fst snd enc_item map]. rewrite flat_map_after. unfold zlen. rewrite length_map. rewrite ?app_nil_r, <- ?app_assoc. reflexivity.
Qed.

Lemma appends_slot slot : appends (fun b => enc_slot b slot) (enc_item (slot_item slot)).
Proof.
  unfold enc_slot. eapply appends_eq; [keyed_seq|]. unfold slot_item. same_bytes.
Qed.

Lemma appends_channels : appends (fun b => enc_channels b) (flat_map enc_kv [(7, IArray (map slot_item (map Z.of_nat (seq 0 NSLOTS))))]).
Proof.
  unfold enc_channels. set (l := map Z.of_nat (seq 0 NSLOTS)). assert (zlen l = Z.of_nat NSLOTS) as <- by (unfold l, zlen; by rewrite !length_map, length_seq).
  clearbody l. eapply appends_eq.
  - eapply (appends_comp _ (fun b => fold_left enc_slot l b)); [keyed_seq|]. apply (appends_fold enc_slot (fun x => enc_item (slot_item x))). apply appends_slot.
  - unfold enc_kv. cbn [flat_map fst snd enc_item]. unfold zlen. rewrite flat_map_after, length_map, ?app_nil_r, <- ?app_assoc. reflexivity.
Qed.

Lemma appends_latency : appends (fun b => enc_latency conf b) (flat_map enc_kv [(8, latency_item)]).
Proof. unfold enc_latency. cbv zeta. eapply appends_eq; [keyed_seq|]. unfold latency_item. same_bytes. Qed.

Lemma appends_build : appends (fun b => enc_build conf b) (flat_map enc_kv
  [(9, IText (str "refdev sim " ++ env_date)); (10, IUint (c_boot_count conf)); (11, IArray [kmap [(0, IUint 0); (1, IText (str "notes"))]]);
   (12, IUint (Z.of_nat NPARTS)); (13, kmap [(0, IUint (Z.of_nat DEV_TXN_MAX)); (1, IUint (Z.of_nat DEV_TXN_EVENTS_MAX))])]).
Proof. unfold enc_build. cbv zeta. eapply appends_eq; [keyed_seq|]. same_bytes. Qed.

Lemma appends_rt : appends (fun b => enc_rt_profile conf b) (flat_map enc_kv (if rt_profile conf then [(14, kmap rt_pairs)] else [])).
Proof.
  unfold enc_rt_profile, rt_pairs. destruct (rt_profile conf); [|apply appends_id]. cbv zeta.
  destruct (c_rt_floor conf =? 0), (c_rt_nsamples conf =? 0); (eapply appends_eq; [keyed_seq|]); cbn [app]; same_bytes.
Qed.

(** The whole record is one item: its keys, its counts and its nesting are right. *)
Lemma appends_identity hash : appends (fun b => encode_identity conf hash b) (enc_item (identity_item hash)).
Proof.
  unfold encode_identity, identity_item. rewrite enc_kmap. eapply appends_eq.
  - eapply (appends_comp _ (enc_rt_profile conf)); [|apply appends_rt].
    eapply (appends_comp _ (enc_build conf)); [|apply appends_build].
    eapply (appends_comp _ (enc_latency conf)); [|apply appends_latency].
    eapply (appends_comp _ enc_channels); [|apply appends_channels].
    eapply (appends_comp _ (enc_protocol conf)); [|apply appends_protocol].
    eapply (appends_comp _ (enc_engine conf hash)); [|apply appends_engine].
    eapply (appends_comp _ (enc_vendor conf)); [apply appends_map|apply appends_vendor].
  - unfold identity_pairs. destruct (rt_profile conf); rewrite <- !app_assoc; rewrite <- !flat_map_app; reflexivity.
Qed.
End encoder.

(** ** The host's side *)

Definition short_text (n : Z) (s : list Z) : Prop := zlen s < n /\ Forall (fun c => c <> 0) s.

(** What fits the host's fields. *)
Record conf_fits {E : DevEnv} (conf : dev_conf) (hash : harp_hash) : Prop := mk_fits {
  fits_product : short_text 64 (or_default (c_product conf) (str "harp-refdev"));
  fits_serial : short_text 64 (c_serial conf);
  fits_engine : short_text 64 (or_default (c_engine_name conf) ENGINE_ID);
  fits_version : short_text 32 (or_default (c_engine_ver conf) ENGINE_VERSION);
  fits_date : zlen env_date < 2 ^ 32; fits_hash : hash_ok hash = true; fits_boot : is_u64 (c_boot_count conf);
  fits_in : is_u32 (c_in_lat conf); fits_out : is_u32 (c_out_lat conf);
  fits_floor : is_u32 (c_rt_floor conf); fits_nsamples : is_u32 (c_rt_nsamples conf) }.

(** The device's configuration as the host sees it. *)
Definition ident_of (conf : dev_conf) (hash : harp_hash) : client_identity :=
  mk_ident (str "HARP Reference Project") (or_default (c_product conf) (str "harp-refdev")) 0x1209 1 (c_serial conf) FW_VERSION
    (or_default (c_engine_name conf) ENGINE_ID) (or_default (c_engine_ver conf) ENGINE_VERSION) hash (c_boot_count conf)
    (Z.of_nat DEV_TXN_MAX) (Z.of_nat DEV_TXN_EVENTS_MAX) (c_rt_floor conf) (c_rt_nsamples conf) (capabilities conf)
    [mk_lat 48000 (c_in_lat conf) (c_out_lat conf) 256].

Section parser.
Context {E : DevEnv} (conf : dev_conf) (hash : harp_hash) (Hfit : conf_fits conf hash).

Lemma reads_text {T} cap (set : list Z -> T -> T) s : short_text cap s -> cap <= 2 ^ 64 -> reads 0 (text_below cap set) (enc_item (IText s)) (set s).
Proof.
  intros [Hl Hz] Hc. unfold text_below. eapply reads_last; [apply decodes_text; lia|]. rewrite (proj2 (Z.leb_gt cap _)) by lia.
  intros rest t _. unfold on_snd, sm_modify. cbn [fst snd]. by rewrite Store.cstr_id.
Qed.

Lemma reads_company product id name : is_u32 id -> short_text 64 name ->
  reads 0 (ident_company product) (enc_item (vendor_item id name)) (fun i => ci_set_id product id (ci_set_name product name i)).
Proof.
  intros Hid [Hl Hz]. unfold ident_company.
  pose proof (reads_kmap (company_visit product) [((0, IUint id), fun st => (id, st.2)); ((1, IText name), fun st => (st.1, ci_set_name product name st.2))]) as H.
  eapply reads_ext; [|apply (reads_local 0 _ (fun uid => ci_set_id product (u32 uid))), H].
  - intros t. cbn [fold_left fst snd]. by rewrite u32_small.
  - by vm_compute.
  - each_item.
    + apply reads_uint. unfold is_u64, is_u32 in *. lia.
    + unfold company_visit. cbn [Z.eqb Pos.eqb]. eapply reads_last; [apply decodes_text; lia|]. rewrite (proj2 (Z.ltb_lt _ 64)) by lia.
      intros rest t _. unfold on_snd, sm_modify. cbn [fst snd]. by rewrite Store.cstr_id.
Qed.

Lemma reads_engine : reads 0 (map_fields engine_visit) (enc_item (engine_item conf hash))
  (ci_set_engine (or_default (c_engine_name conf) ENGINE_ID) (or_default (c_engine_ver conf) ENGINE_VERSION) hash).
Proof.
  destruct Hfit. set (id := or_default (c_engine_name conf) ENGINE_ID) in *. set (ver := or_default (c_engine_ver conf) ENGINE_VERSION) in *.
  pose proof (reads_kmap engine_visit [((0, IText id), fun i => ci_set_engine id (ci_engine_ver i) (ci_map_hash i) i);
    ((1, IText ver), fun i => ci_set_engine (ci_engine_id i) ver (ci_map_hash i) i); ((2, IBytes hash), fun i => ci_set_engine (ci_engine_id i) (ci_engine_ver i) hash i)]) as H.
  eapply reads_ext; [|apply H]; [done|by vm_compute|]. each_item.
  - by apply (reads_text 64 (fun s i => ci_set_engine s (ci_engine_ver i) (ci_map_hash i) i)).
  - by apply (reads_text 32 (fun s i => ci_set_engine (ci_engine_id i) s (ci_map_hash i) i)).
  - by apply (reads_set harp_hash_read (fun h i => ci_set_engine (ci_engine_id i) (ci_engine_ver i) h i)), decodes_hash.
Qed.

(** Capabilities short enough, not too many. *)
Lemma reads_caps l : Forall (fun s => short_text 32 s) l -> zlen l < 2 ^ 63 ->
  reads 0 (n ← on_fst harp_cdec_array; sm_for n ident_cap) (enc_item (IArray (map IText l)))
    (fun i => fold_left (fun i s => if (length (ci_caps i) <? HARP_CLIENT_MAX_CAPS)%nat then ci_set_lists (ci_caps i ++ [s]) (ci_lats i) i else i) l i).
Proof.
  intros Hl Hn. cbn [enc_item]. rewrite flat_map_after. unfold zlen. rewrite length_map. fold (zlen l). pose proof (zlen_nonneg l).
  eapply reads_header; [apply decodes_array; unfold is_u64; lia| |lia|].
  - apply (reads_loop l ident_cap (fun x => enc_item (IText x))). intros s Hs. rewrite Forall_forall in Hl. destruct (Hl s Hs) as [H1 H2].
    unfold ident_cap. eapply reads_last; [apply decodes_text; lia|]. intros rest t _. unfold on_snd, sm_modify. cbn [fst snd].
    rewrite (proj2 (Z.ltb_lt _ 32)), andb_true_r, Store.cstr_id by done. done.
  - rewrite <- (Z.mul_1_l (zlen l)). apply flat_map_zlen_lb. intros x _. apply item_zlen.
Qed.

Lemma reads_lats : reads 0 (n ← on_fst harp_cdec_array; sm_for n ident_lat) (enc_item (latency_item conf))
  (fun i => if (length (ci_lats i) <? HARP_CLIENT_MAX_LAT)%nat then ci_set_lists (ci_caps i) (ci_lats i ++ [mk_lat 48000 (c_in_lat conf) (c_out_lat conf) 256]) i else i).
Proof.
  destruct Hfit. unfold latency_item. cbn [enc_item flat_map]. rewrite app_nil_r.
  eapply (reads_header _ _ 1); [apply decodes_array; vm_compute; done| |lia|apply item_zlen].
  intros rest t Hr. cbn [sm_for loop_pos]. revert rest t Hr. unfold ident_lat.
  pose proof (reads_kmap lat_visit [((0, IUint 48000), fun st => (mk_lat 48000 (la_in st.1) (la_out st.1) (la_buf st.1), st.2));
    ((1, IUint (c_in_lat conf)), fun st => (mk_lat (la_rate st.1) (c_in_lat conf) (la_out st.1) (la_buf st.1), st.2));
    ((2, IUint (c_out_lat conf)), fun st => (mk_lat (la_rate st.1) (la_in st.1) (c_out_lat conf) (la_buf st.1), st.2));
    ((3, IUint 256), fun st => (mk_lat (la_rate st.1) (la_in st.1) (la_out st.1) 256, st.2))]) as H.
  eapply reads_ext; [|apply (reads_local (mk_lat 0 0 0 0) _ (fun p i => if (length (ci_lats i) <? HARP_CLIENT_MAX_LAT)%nat then ci_set_lists (ci_caps i) (ci_lats i ++ [p]) i else i)), H].
  - intros t. reflexivity.
  - by vm_compute.
  - each_item; (eapply reads_ext; [|apply reads_uint; unfold is_u64, is_u32 in *; lia]); intros st; cbn beta; by rewrite ?u32_small by done.
Qed.

Lemma reads_txn : reads 0 (map_fields ident_txn_visit) (enc_item (kmap [(0, IUint (Z.of_nat DEV_TXN_MAX)); (1, IUint (Z.of_nat DEV_TXN_EVENTS_MAX))]))
  (ci_set_txn (Z.of_nat DEV_TXN_MAX) (Z.of_nat DEV_TXN_EVENTS_MAX)).
Proof.
  pose proof (reads_kmap ident_txn_visit [((0, IUint (Z.of_nat DEV_TXN_MAX)), fun i => ci_set_txn (Z.of_nat DEV_TXN_MAX) (ci_txn_events i) i);
    ((1, IUint (Z.of_nat DEV_TXN_EVENTS_MAX)), fun i => ci_set_txn (ci_txn_max i) (Z.of_nat DEV_TXN_EVENTS_MAX) i)]) as H.
  eapply reads_ext; [|apply H]; [done|by vm_compute|]. each_item.
  - by apply (reads_uint (fun v i => ci_set_txn v (ci_txn_events i) i)).
  - by apply (reads_uint (fun v i => ci_set_txn (ci_txn_max i) v i)).
Qed.

Lemma reads_rt : reads 0 (map_fields rt_visit) (enc_item (kmap (rt_pairs conf)))
  (fun i => ci_set_rt (if c_rt_floor conf =? 0 then ci_floor i else c_rt_floor conf) (if c_rt_nsamples conf =? 0 then ci_nsamples i else c_rt_nsamples conf) i).
Proof.
  destruct Hfit. set (f := c_rt_floor conf) in *. set (n := c_rt_nsamples conf) in *.
  pose proof (reads_kmap rt_visit ((if f =? 0 then [] else [((0, IUint f), fun i => ci_set_rt f (ci_nsamples i) i)]) ++
    (if n =? 0 then [] else [((1, IUint n), fun i => ci_set_rt (ci_floor i) n i)]))) as H.
  assert (forall v, is_u32 v -> is_u64 v) as Hv by (unfold is_u32, is_u64; lia).
  assert (reads 0 (rt_visit 0) (enc_item (IUint f)) (fun i => ci_set_rt f (ci_nsamples i) i)) as H0.
  { eapply reads_ext; [|by apply (reads_uint (fun v i => ci_set_rt (u32 v) (ci_nsamples i) i)), Hv]. intros t. cbn beta. by rewrite u32_small. }
  assert (reads 0 (rt_visit 1) (enc_item (IUint n)) (fun i => ci_set_rt (ci_floor i) n i)) as H1.
  { eapply reads_ext; [|by apply (reads_uint (fun v i => ci_set_rt (ci_floor i) (u32 v) i)), Hv]. intros t. cbn beta. by rewrite u32_small. }
  unfold rt_pairs. fold f n. revert H. destruct (f =? 0), (n =? 0); cbn [app map fst]; intros H; (eapply reads_ext; [|apply H; [by vm_compute|each_item; done]]);
    intros t; by destruct t.
Qed.

(** ** The whole record *)

Lemma channels_skippable : skippable (IArray (map slot_item (map Z.of_nat (seq 0 NSLOTS)))) = true.
Proof. vm_compute. reflexivity. Qed.

Lemma text_skippable s : zlen s < 2 ^ 64 -> skippable (IText s) = true.
Proof. intros H. unfold skippable. cbn [item_ok item_depth]. by rewrite (proj2 (Z.ltb_lt _ _)). Qed.

Lemma capabilities_short : Forall (fun s => short_text 32 s) (capabilities conf).
Proof.
  assert (forallb (fun s => (zlen s <? 32) && forallb (fun c => negb (c =? 0)) s) (capabilities conf) = true) as H.
  { unfold capabilities, engine_is_fx. destruct (c_no_rate_lock conf), (rt_profile conf); vm_compute; reflexivity. }
  rewrite forallb_forall in H. apply Forall_forall. intros s Hs%list_elem_of_In. apply H in Hs. apply andb_prop in Hs as [H1 H2].
  split; [by apply Z.ltb_lt|]. rewrite forallb_forall in H2. apply Forall_forall. intros c Hc%list_elem_of_In. apply H2 in Hc. by apply negb_true_iff, Z.eqb_neq in Hc.
Qed.

(** The fields with their effects. *)
Definition identity_effects : list (Z * item * (client_identity -> client_identity)) :=
  [(0, vendor_item 0x1209 (str "HARP Reference Project"), fun i => ci_set_id false 0x1209 (ci_set_name false (str "HARP Reference Project") i));
   (1, vendor_item 1 (or_default (c_product conf) (str "harp-refdev")), fun i => ci_set_id true 1 (ci_set_name true (or_default (c_product conf) (str "harp-refdev")) i));
   (2, IText (c_serial conf), ci_set_serial (c_serial conf)); (3, IText FW_VERSION, ci_set_fw FW_VERSION);
   (4, engine_item conf hash, ci_set_engine (or_default (c_engine_name conf) ENGINE_ID) (or_default (c_engine_ver conf) ENGINE_VERSION) hash);
   (5, IArray [IUint PROTO_MAJOR; IUint PROTO_MINOR], fun i => i);
   (6, IArray (map IText (capabilities conf)), fun i => fold_left (fun i s => if (length (ci_caps i) <? HARP_CLIENT_MAX_CAPS)%nat then ci_set_lists (ci_caps i ++ [s]) (ci_lats i) i else i) (capabilities conf) i);
   (7, IArray (map slot_item (map Z.of_nat (seq 0 NSLOTS))), fun i => i);
   (8, latency_item conf, fun i => if (length (ci_lats i) <? HARP_CLIENT_MAX_LAT)%nat then ci_set_lists (ci_caps i) (ci_lats i ++ [mk_lat 48000 (c_in_lat conf) (c_out_lat conf) 256]) i else i);
   (9, IText (str "refdev sim " ++ env_date), fun i => i); (10, IUint (c_boot_count conf), ci_set_boot (c_boot_count conf));
   (11, IArray [kmap [(0, IUint 0); (1, IText (str "notes"))]], fun i => i); (12, IUint (Z.of_nat NPARTS), fun i => i);
   (13, kmap [(0, IUint (Z.of_nat DEV_TXN_MAX)); (1, IUint (Z.of_nat DEV_TXN_EVENTS_MAX))], ci_set_txn (Z.of_nat DEV_TXN_MAX) (Z.of_nat DEV_TXN_EVENTS_MAX))] ++
  (if rt_profile conf then [(14, kmap (rt_pairs conf),
     fun i => ci_set_rt (if c_rt_floor conf =? 0 then ci_floor i else c_rt_floor conf) (if c_rt_nsamples conf =? 0 then ci_nsamples i else c_rt_nsamples conf) i)] else []).

Lemma identity_effects_pairs : map fst identity_effects = identity_pairs conf hash.
Proof. unfold identity_effects, identity_pairs. by destruct (rt_profile conf). Qed.

Lemma identity_reads x : x ∈ identity_effects -> is_u64 x.1.1 /\ reads 0 (ident_visit x.1.1) (enc_item x.1.2) x.2.
Proof.
  pose proof Hfit as Hf. destruct Hf. unfold identity_effects. intros H. apply elem_of_app in H as [H|H].
  2:{ destruct (rt_profile conf); [|by apply elem_of_nil in H]. apply list_elem_of_singleton in H. subst. split; [unfold is_u64; cbn; lia|]. apply reads_rt. }
  repeat (apply elem_of_cons in H as [->|H]; [split; [unfold is_u64; cbn; lia|cbn [fst snd]; unfold ident_visit; cbn [Z.eqb Pos.eqb]]|]); [..|by apply elem_of_nil in H].
  - apply reads_company; [unfold is_u32; lia|]. split; [by vm_compute|]. apply (bool_decide_unpack _). vm_compute. exact I.
  - apply reads_company; [unfold is_u32; lia|done].
  - by apply reads_text.
  - apply reads_text; [|lia]. split; [by vm_compute|]. apply (bool_decide_unpack _). vm_compute. exact I.
  - apply reads_engine.
  - by apply reads_only, decodes_skip_item.
  - apply reads_caps; [apply capabilities_short|]. unfold capabilities, engine_is_fx. by destruct (c_no_rate_lock conf), (rt_profile conf).
  - apply reads_only, decodes_skip_item, channels_skippable.
  - apply reads_lats.
  - apply reads_only, decodes_skip_item, text_skippable. rewrite zlen_app. change (zlen (str "refdev sim ")) with 11. lia.
  - by apply reads_uint.
  - by apply reads_only, decodes_skip_item.
  - by apply reads_only, decodes_skip_item.
  - apply reads_txn.
Qed.

Lemma caps_effect l : forall i, (length (ci_caps i) + length l <= HARP_CLIENT_MAX_CAPS)%nat ->
  fold_left (fun i s => if (length (ci_caps i) <? HARP_CLIENT_MAX_CAPS)%nat then ci_set_lists (ci_caps i ++ [s]) (ci_lats i) i else i) l i =
  ci_set_lists (ci_caps i ++ l) (ci_lats i) i.
Proof.
  induction l as [|s l IH]; intros i Hl; cbn [fold_left length] in *; [rewrite app_nil_r; by destruct i|].
  rewrite (proj2 (Nat.ltb_lt _ _)) by lia. rewrite IH by (cbn [ci_set_lists ci_caps]; rewrite length_app; cbn [length]; lia).
  cbn. by rewrite <- app_assoc.
Qed.

Lemma capabilities_fit : (length (capabilities conf) <= HARP_CLIENT_MAX_CAPS)%nat.
Proof. unfold capabilities, engine_is_fx. destruct (c_no_rate_lock conf), (rt_profile conf); apply Nat.leb_le; reflexivity. Qed.

Lemma identity_result : fold_left (fun i x => x.2 i) identity_effects ident_zero = ident_of conf hash.
Proof.
  unfold identity_effects. rewrite fold_left_app. cbn [fold_left snd]. rewrite caps_effect by apply capabilities_fit.
  unfold ident_of, rt_profile. destruct (Z.eqb_spec (c_rt_floor conf) 0) as [E1|], (Z.eqb_spec (c_rt_nsamples conf) 0) as [E2|]; cbn; by rewrite ?E1, ?E2.
Qed.

Lemma reads_identity : reads 0 parse_identity (enc_item (identity_item conf hash)) (fun _ => ident_of conf hash).
Proof.
  intros rest t Hr. unfold parse_identity. erewrite sm_bind_run by reflexivity. cbn [fst snd].
  unfold identity_item. rewrite <- identity_effects_pairs. rewrite (reads_kmap ident_visit identity_effects); [by rewrite identity_result| |exact identity_reads|exact Hr].
  unfold identity_effects. by destruct (rt_profile conf).
Qed.

Lemma vendor_flat id name : is_u64 id -> zlen name < 2 ^ 64 -> flat 1 (vendor_item id name) = true.
Proof. intros. unfold vendor_item. flat_tac; done. Qed.

Lemma identity_flat : flat 4 (identity_item conf hash) = true.
Proof.
  pose proof Hfit as Hf. destruct Hf as [[Hp _] [Hs _] [He _] [Hv _] Hd Hh Hb Hi Ho Hfl Hn].
  assert (forall v, is_u32 v -> is_u64 v) as Hu by (unfold is_u32, is_u64; lia).
  apply flat_kmap; [unfold identity_pairs; by destruct (rt_profile conf)|]. unfold identity_pairs. intros ki Hki. apply elem_of_app in Hki as [Hki|Hki].
  2:{ destruct (rt_profile conf); [|by apply elem_of_nil in Hki]. apply list_elem_of_singleton in Hki as ->. split; [unfold is_u64; cbn; lia|]. cbn [snd].
      unfold rt_pairs. destruct (_ =? 0), (_ =? 0); cbn [app]; flat_tac; by apply Hu. }
  repeat (apply elem_of_cons in Hki as [->|Hki]; [split; [unfold is_u64; cbn; lia|cbn [fst snd]]|]); [..|by apply elem_of_nil in Hki].
  - by vm_compute.
  - assert (flat 1 (vendor_item 1 (or_default (c_product conf) (str "harp-refdev"))) = true) as H by (apply vendor_flat; [unfold is_u64|]; lia).
    unfold flat in *. apply andb_prop in H as [-> H]. apply Nat.leb_le in H. cbn [andb]. apply Nat.leb_le. lia.
  - apply flat_text. lia.
  - by vm_compute.
  - unfold engine_item. flat_tac; try lia. by rewrite (hash_zlen hash).
  - by vm_compute.
  - apply flat_array.
    + unfold zlen. rewrite length_map. pose proof capabilities_fit. unfold HARP_CLIENT_MAX_CAPS in *. lia.
    + intros i (x & -> & Hx)%list_elem_of_fmap. apply flat_text. pose proof capabilities_short as Hc. rewrite Forall_forall in Hc. destruct (Hc x Hx). lia.
  - by vm_compute.
  - unfold latency_item. flat_tac; unfold is_u64; try lia; by apply Hu.
  - apply flat_text. rewrite zlen_app. change (zlen (str "refdev sim ")) with 11. lia.
  - by apply flat_uint.
  - by vm_compute.
  - by vm_compute.
  - by vm_compute.
Qed.

Lemma identity_skippable : skippable (identity_item conf hash) = true.
Proof. apply (flat_skippable 4), identity_flat. unfold HARP_CBOR_MAX_DEPTH. lia. Qed.
End parser.

(** the host reads back the device's identity.  For every configuration whose
    strings fit the host's fields, the identity record the device encodes is one
    well-formed item (every count in it is right, the nesting is within the bound),
    and the host's parser - whatever was in the record before and whatever follows -
    succeeds, consumes exactly that item and fills in exactly the configuration:
    names, serial, versions, the parameter map's hash, all capabilities in order, the
    latencies, the transaction limits, the real-time profile. *)
Theorem identity_roundtrip {E : DevEnv} {R : Realloc} (conf : dev_conf) (hash : harp_hash) (rest : list Z) (i0 : client_identity) :
  conf_fits conf hash -> cb_oom (encode_identity conf hash harp_cbuf_init) = false ->
  let bytes := cb_buf (encode_identity conf hash harp_cbuf_init) in
  bytes = enc_item (identity_item conf hash) /\ skippable (identity_item conf hash) = true /\
  parse_identity (harp_cdec_init (bytes ++ rest), i0) = (Some tt, (harp_cdec_init rest, ident_of conf hash)).
Proof.
  intros Hfit Ho bytes. assert (bytes = enc_item (identity_item conf hash)) as Hb.
  { exact (appends_fresh (fun b => encode_identity conf hash b) _ harp_cbuf_init (appends_identity conf hash) eq_refl Ho). }
  clearbody bytes.
  split; [exact Hb|]. split; [by apply identity_skippable|]. rewrite Hb. apply reads_identity; [exact Hfit|apply zlen_nonneg].
Qed.

(** A configuration with every optional part. *)
Section demo.
#[local] Existing Instances demo_env alloc_all.

Definition demo_kit : dev_conf := mk_conf s_dir (str "SN-7") (Some (str "3.1.4")) (Some (str "kit")) (Some (str "pads")) 7 128 32 12 24 true 0.

Lemma demo_kit_fits : conf_fits demo_kit (harp_hash_compute [1]).
Proof.
  split; try (split; [vm_compute; reflexivity|apply (bool_decide_unpack _); vm_compute; exact I]); try (vm_compute; reflexivity);
    split; vm_compute; (discriminate || reflexivity).
Qed.

Lemma identity_roundtrip_witness :
  (parse_identity (harp_cdec_init (cb_buf (encode_identity demo_kit (harp_hash_compute [1]) harp_cbuf_init) ++ [1; 2]), ident_zero)).2.2 = ident_of demo_kit (harp_hash_compute [1]).
Proof.
  assert (cb_oom (encode_identity demo_kit (harp_hash_compute [1]) harp_cbuf_init) = false) as Ho by (vm_compute; reflexivity).
  destruct (identity_roundtrip demo_kit (harp_hash_compute [1]) [1; 2] ident_zero demo_kit_fits Ho) as (_ & _ & ->). reflexivity.
Defined.
End demo.
