(* ===== verification/Wire.v ===== *)
(** * A host and a device

    The host's client (client.c) with the device's session (session.c) at the other
    end of its link: what the host sends is a turn of the device's session loop, and
    what the device sends waits to be received.  [wire] is the link between them,
    [linked] the device on it. *)
From Stdlib Require Import ZArith Lia String List Bool.
From stdpp Require Import base list.
From S2P Require Import Prelude Cbuf CborEnc CborDec CborFields Frame Envelope Object Fs Store Params Evq Ieee Parts Render Device Reply Events Diag Session Client.
Open Scope Z_scope.
Open Scope list_scope.

(** The device's end: the messages waiting for it.  It sends without loss. *)
Abbreviation inbox := (list (Z * list Z)).
#[export] Instance inbox_link : MsgLink inbox := fun _ _ l => (true, l).
#[export] Instance inbox_source : MsgSource inbox := {|
  Session.msg_recv l := match l with [] => (MsgGone, []) | m :: l => (MsgIn m.1 m.2, l) end;
  msg_readable l := match l with [] => false | _ => true end |}.

(** [wi_read]: how many of the messages the device has sent the host has received;
    [wi_over]: the device has ended the session. *)
Record wire := mk_wire { wi_dev : device inbox; wi_read : nat; wi_over : bool }.

Section wire.
Context {E : DevEnv} {R : Realloc} {Q : Qsort} {O' : OS} {F : Faults} {FC : FpConv} {CT : CFloatText} (conf : dev_conf) (t_start : Z).

(** The message arrives and the device's loop takes one turn. *)
Definition wire_turn (strm : Z) (data : list Z) (w : wire) : wire :=
  let '(go, d) := session_turn conf t_start (upd_net (set_link (Some [(strm, data)])) (wi_dev w)) in mk_wire d (wi_read w) (negb go).

Definition wire_link : MsgLink wire := fun strm data w => if wi_over w then (false, w) else (true, wire_turn strm data w).
Definition wire_next : MsgRecv wire := fun w =>
  match n_sent (d_net (wi_dev w)) !! wi_read w with
  | Some m => (Some m, mk_wire (wi_dev w) (S (wi_read w)) (wi_over w))
  | None => (None, w)
  end.

(** What the device has sent and the host has not received. *)
Definition in_flight (w : wire) : list (Z * list Z) := drop (wi_read w) (n_sent (d_net (wi_dev w))).
End wire.

(** ** Messages *)

Section messages.
Context {R : Realloc}.

Lemma message_bytes ty rid m f i : appends f (enc_item i) -> cb_oom (f (harp_env_head harp_cbuf_init ty rid m true)) = false ->
  cb_buf (f (harp_env_head harp_cbuf_init ty rid m true)) = enc_env (message_fields ty rid m (Some i)).
Proof.
  intros Hf Ho. apply (appends_fresh (fun o => env_message o ty rid m (Some f)) _ harp_cbuf_init); [|done|exact Ho].
  by apply (appends_env_message ty rid m (Some f) (Some i)).
Qed.

(** What a message means to the program that receives it. *)
Definition says_env (e : harp_env) (ty rid : Z) (m : list Z) (body : option item) : Prop :=
  e_msgtype e = ty /\ e_rid e = rid /\ method_of e = m /\ e_has_body e = (match body with Some _ => true | None => false end) /\
  e_body e = (match body with Some i => enc_item i | None => [] end).

Lemma message_parse ty rid m body : 0 <= ty <= 3 -> is_u64 rid -> zlen m < 64 -> Forall (fun c => c <> 0) m ->
  match body with Some i => skippable i = true | None => True end ->
  exists e, harp_env_parse (enc_env (message_fields ty rid m body)) = (true, e) /\ says_env e ty rid m body.
Proof.
  intros Hty Hr Hl Hz Hb. pose proof (message_meaning ty rid m body) as (Hc & H1 & H2 & H3 & H4 & H5).
  exists (es_env (env_of (message_fields ty rid m body))). split.
  - rewrite <- (app_nil_r (enc_env _)), env_parse_run, Hc; [done| |].
    + unfold zlen, message_fields, head_fields. rewrite length_app. destruct body; cbn; lia.
    + unfold message_fields, head_fields. rewrite forallb_app. cbn [forallb env_field_ok]. unfold u64_b.
      assert ((0 <=? ty) && (ty <=? 3) = true) as -> by (apply andb_true_intro; split; apply Z.leb_le; lia).
      unfold is_u64 in Hr. rewrite (proj2 (Z.leb_le 0 rid)), (proj2 (Z.ltb_lt rid _)), (proj2 (Z.ltb_lt (zlen m) 64)) by lia.
      destruct body; cbn [forallb env_field_ok]; by rewrite ?Hb.
  - split; [done|]. split; [done|]. split; [|done]. unfold method_of. rewrite H3. by apply cstr_splice.
Qed.
End messages.
