(* ===== verification/HandshakeSpec.v ===== *)
(** * The handshake: theorems

    [core.hello] between the host's client and the device's session, both as
    modelled: the request, the identity, and the credit each grants the other. *)
From Stdlib Require Import ZArith Lia String List Bool.
From stdpp Require Import base list.
From S2P Require Import Prelude Cbuf CborEnc CborDec CborFields CborItems KeyedMaps Sha256 Frame Envelope Object Link Fs Store RateLimit LogRing Params Evq Ieee Parts Render Device DeviceSpec Reply State StateSpec Stream Hello Events Diag Session SessionSpec Client IdentitySpec Wire.
Open Scope Z_scope.
Open Scope list_scope.

(** ** Bodies *)

Lemma reads_try {T} (m : parser T unit) bs f : reads 0 m bs f -> reads 0 (sm_try m;; mret tt) bs f.
Proof. intros Hm rest t Hr. unfold mbind, SM_bind, sm_try. by rewrite Hm. Qed.

Lemma reads_guard {T} (b : bool) (m : parser T unit) bs f : b = true -> reads 0 m bs f -> reads 0 (sm_guard b;; m) bs f.
Proof. by intros ->. Qed.

Definition version_item : item := IArray [IUint 1; IUint 0].
Definition hello_req_item (agent : list Z) : item := kmap [(0, version_item); (1, IText agent)].
Definition hello_rsp_item {E : DevEnv} (conf : dev_conf) (hash : harp_hash) : item := kmap [(0, version_item); (1, identity_item conf hash)].
Definition credit_item (n : Z) : item := kmap [(0, IUint n)].

Section bodies.
Context {E : DevEnv} {R : Realloc} (conf : dev_conf).

Lemma appends_hello_body agent : appends (hello_body None agent) (enc_item (hello_req_item agent)).
Proof. unfold hello_body. cbv zeta. eapply appends_eq; [keyed_seq|]. unfold hello_req_item, version_item. same_bytes. Qed.

Lemma appends_enc_hello hash : appends (enc_hello conf hash) (enc_item (hello_rsp_item conf hash)).
Proof.
  unfold enc_hello. cbv zeta. eapply appends_eq.
  - eapply (appends_comp _ (fun b => encode_identity conf hash b)); [keyed_seq|apply appends_identity].
  - unfold hello_rsp_item, version_item. same_bytes.
Qed.

Lemma appends_credit n : appends (fun b => harp_cbor_uint (harp_cbor_uint (harp_cbor_map b 1) 0) n) (enc_item (credit_item n)).
Proof. eapply appends_eq; [keyed_seq|]. unfold credit_item. same_bytes. Qed.

(** The device finds the host's major version. *)
Lemma reads_hello_req agent : zlen agent < 2 ^ 32 -> reads 0 (map_fields hello_visit) (enc_item (hello_req_item agent)) (fun _ => 1).
Proof.
  intros Ha. pose proof (reads_kmap hello_visit [((0, version_item), fun _ => 1); ((1, IText agent), fun v => v)]) as H.
  eapply reads_ext; [|apply H]; [done|by vm_compute|]. each_item; unfold hello_visit; cbn [Z.eqb Pos.eqb].
  - apply reads_try. cbn [enc_item version_item flat_map app]. eapply (reads_header _ _ 2); [by apply decodes_array| |lia|].
    + apply reads_guard; [done|]. eapply reads_leaf; [lia|by apply (decodes_uint 1)|]. rewrite app_nil_r. by eapply reads_last; [by apply (decodes_uint 0)|].
    + rewrite app_nil_r, zlen_app. pose proof (enc_uint_zlen 1). pose proof (enc_uint_zlen 0). unfold enc_uint in *. lia.
  - apply reads_try, reads_only, decodes_skip_item, text_skippable. lia.
Qed.

(** The host finds the identity. *)
Lemma reads_hello_rsp hash : conf_fits conf hash ->
  reads 0 (map_fields hello_visit_rsp) (enc_item (hello_rsp_item conf hash)) (fun _ => (true, ident_of conf hash)).
Proof.
  intros Hfit. pose proof (reads_kmap hello_visit_rsp [((0, version_item), fun st => st); ((1, identity_item conf hash), fun _ => (true, ident_of conf hash))]) as H.
  eapply reads_ext; [|apply H]; [done|by vm_compute|]. each_item; unfold hello_visit_rsp; cbn [Z.eqb Pos.eqb].
  - apply reads_try, reads_only. by apply decodes_skip_item.
  - intros rest t Hr. unfold mbind, SM_bind, sm_try, beside. cbn [fst snd]. by rewrite (reads_identity conf hash Hfit rest t.2 Hr).
Qed.

Lemma reads_credit {T} n (set : Z -> T -> T) : is_u64 n ->
  reads 0 (first_key 1 (fun _ => get_uint set)) (enc_item (credit_item n)) (set n).
Proof.
  intros Hn. unfold credit_item. rewrite enc_kmap. cbn [flat_map]. rewrite app_nil_r. unfold enc_kv. cbn [fst snd]. unfold first_key.
  eapply (reads_header _ _ (2 * 1)); [by apply decodes_map| |lia|].
  - apply reads_guard; [done|]. eapply reads_leaf; [lia|apply decodes_uint; unfold is_u64; lia|]. apply reads_guard; [done|]. by apply reads_uint.
  - change (zlen [(0, IUint n)]) with 1. rewrite zlen_app. pose proof (item_zlen (IUint n)). pose proof (enc_uint_zlen 0). lia.
Qed.
End bodies.

(** ** Memory lasts *)

Section memory.
Context {E : DevEnv} {R : Realloc} (HR : realloc_total R) (conf : dev_conf).

Ltac oom_tac := oom_by HR.

Lemma oom_head ty rid m (hb : bool) : cb_oom (harp_env_head harp_cbuf_init ty rid m hb) = false.
Proof. unfold harp_env_head. cbv zeta. oom_tac. Qed.

Lemma oom_identity hash b : cb_oom b = false -> cb_oom (encode_identity conf hash b) = false.
Proof.
  intros Hb. unfold encode_identity, enc_rt_profile, enc_build, enc_latency, enc_channels, enc_slot, enc_protocol, enc_engine, enc_vendor, kuint, ktext, kbytes, kbool.
  cbv zeta. oom_tac.
Qed.

Lemma oom_enc_hello hash b : cb_oom b = false -> cb_oom (enc_hello conf hash b) = false.
Proof. intros Hb. unfold enc_hello. cbv zeta. apply oom_identity. oom_tac. Qed.

Lemma oom_hello_body agent b : cb_oom b = false -> cb_oom (hello_body None agent b) = false.
Proof. intros Hb. unfold hello_body, ktext. cbv zeta. oom_tac. Qed.

Lemma oom_credit n b : cb_oom b = false -> cb_oom (harp_cbor_uint (harp_cbor_uint (harp_cbor_map b 1) 0) n) = false.
Proof. intros Hb. oom_tac. Qed.

(** The messages of the handshake. *)
Definition credit_msg (n : Z) : list Z := enc_env (message_fields HARP_MSG_NOTIFICATION 0 (str "core.credit") (Some (credit_item n))).
Definition hello_req (rid : Z) (agent : list Z) : list Z := enc_env (message_fields HARP_MSG_REQUEST rid (str "core.hello") (Some (hello_req_item agent))).
Definition hello_rsp (rid : Z) (hash : harp_hash) : list Z :=
  enc_env (message_fields HARP_MSG_RESPONSE rid (str "core.hello") (Some (hello_rsp_item conf hash))).

Lemma credit_bytes n : cb_buf (harp_cbor_uint (harp_cbor_uint (harp_cbor_map (harp_env_head harp_cbuf_init HARP_MSG_NOTIFICATION 0 (str "core.credit") true) 1) 0) n) = credit_msg n.
Proof.
  apply (message_bytes HARP_MSG_NOTIFICATION 0 (str "core.credit") (fun b => harp_cbor_uint (harp_cbor_uint (harp_cbor_map b 1) 0) n) (credit_item n)); [apply appends_credit|].
  apply oom_credit, oom_head.
Qed.
Lemma hello_req_bytes rid agent : cb_buf (hello_body None agent (harp_env_head harp_cbuf_init HARP_MSG_REQUEST rid (str "core.hello") true)) = hello_req rid agent.
Proof. apply message_bytes; [apply appends_hello_body|apply oom_hello_body, oom_head]. Qed.
Lemma hello_rsp_bytes rid hash : cb_buf (enc_hello conf hash (harp_env_head harp_cbuf_init HARP_MSG_RESPONSE rid (str "core.hello") true)) = hello_rsp rid hash.
Proof. apply message_bytes; [apply appends_enc_hello|apply oom_enc_hello, oom_head]. Qed.

Lemma method_bytes (m : list Z) : forallb (fun c => negb (c =? 0)) m = true -> Forall (fun c => c <> 0) m.
Proof. rewrite forallb_forall. intros H. apply Forall_forall. intros c Hc%list_elem_of_In. apply H in Hc. by apply negb_true_iff, Z.eqb_neq in Hc. Qed.

Lemma credit_parse n : is_u64 n -> exists e, harp_env_parse (credit_msg n) = (true, e) /\ says_env e HARP_MSG_NOTIFICATION 0 (str "core.credit") (Some (credit_item n)).
Proof.
  intros Hn. apply message_parse; [unfold HARP_MSG_NOTIFICATION; lia|unfold is_u64; lia|by vm_compute|by apply method_bytes; vm_compute|].
  apply (flat_skippable 1); [unfold HARP_CBOR_MAX_DEPTH; lia|]. unfold credit_item. flat_tac. done.
Qed.
Lemma hello_req_parse rid agent : is_u64 rid -> zlen agent < 2 ^ 32 ->
  exists e, harp_env_parse (hello_req rid agent) = (true, e) /\ says_env e HARP_MSG_REQUEST rid (str "core.hello") (Some (hello_req_item agent)).
Proof.
  intros Hr Ha. apply message_parse; [unfold HARP_MSG_REQUEST; lia|done|by vm_compute|by apply method_bytes; vm_compute|].
  apply (flat_skippable 2); [unfold HARP_CBOR_MAX_DEPTH; lia|]. unfold hello_req_item, version_item. flat_tac; unfold is_u64; lia.
Qed.
Lemma hello_rsp_parse rid hash : is_u64 rid -> conf_fits conf hash ->
  exists e, harp_env_parse (hello_rsp rid hash) = (true, e) /\ says_env e HARP_MSG_RESPONSE rid (str "core.hello") (Some (hello_rsp_item conf hash)).
Proof.
  intros Hr Hfit. apply message_parse; [unfold HARP_MSG_RESPONSE; lia|done|by vm_compute|by apply method_bytes; vm_compute|].
  apply (flat_skippable 5); [unfold HARP_CBOR_MAX_DEPTH; lia|]. unfold hello_rsp_item. apply flat_kmap; [by vm_compute|].
  intros ki Hk. repeat (apply elem_of_cons in Hk as [->|Hk]; [split; [unfold is_u64; cbn; lia|cbn [fst snd]]|]); [..|by apply elem_of_nil in Hk].
  - by vm_compute.
  - by apply identity_flat.
Qed.
End memory.

(** ** The device's turn *)

Lemma digits_value_nonneg s : forall v, 0 <= v -> 0 <= digits_value v s.
Proof. induction s as [|c s IH]; intros v Hv; cbn [digits_value]; [done|]. destruct ((48 <=? c) && (c <=? 57)) eqn:E; [|done]. apply andb_prop in E as [E1%Z.leb_le E2%Z.leb_le]. apply IH. lia. Qed.
Lemma strtoull_range s : is_u64 (strtoull s).
Proof.
  unfold strtoull. cbv zeta. match goal with |- context [digits_value 0 ?x] => pose proof (digits_value_nonneg x 0 ltac:(lia)); generalize dependent (digits_value 0 x); intros v Hv end.
  destruct (Z.leb_spec (2 ^ 64) v); [unfold is_u64; lia|]. case_match; [apply u64_range|]. unfold is_u64. lia.
Qed.

Section turn.
Context {E : DevEnv} {R : Realloc} {Q : Qsort} {O' : OS} {F : Faults} {FC : FpConv} {CT : CFloatText} (conf : dev_conf) (t_start : Z) (HR : realloc_total R).
Implicit Types d : device inbox.

Lemma grant_amount_range : is_u64 grant_amount.
Proof. unfold grant_amount. repeat case_match; try apply strtoull_range; unfold is_u64, CREDIT_GRANT; lia. Qed.

Lemma send_inbox m l d : n_link (d_net d) = Some l ->
  send_msg m d = upd_net (fun n => log_sent (HARP_STREAM_CTL, cb_buf m) (set_link (Some l) n)) d.
Proof. intros Hl. unfold send_msg, send_ctl, link_send. by rewrite Hl. Qed.

(** What matters of the device between two turns. *)
Record ready (hello : bool) (credit granted : Z) d : Prop := mk_ready {
  rd_hello : n_hello (d_net d) = hello; rd_credit : n_credit (d_net d) = credit; rd_granted : n_granted (d_net d) = granted;
  rd_queue : sq_count (n_sendq (d_net d)) = O; rd_closing : n_closing (d_net d) = false; rd_exited : d_exited d = false;
  rd_stage : es_stage (d_evt d) = []; rd_touch : e_touch (d_eng d) = false }.

Lemma audio_stop_net d : d_net (audio_stop d) = d_net d /\ d_hash (audio_stop d) = d_hash d /\ d_exited (audio_stop d) = d_exited d /\
  d_evt (audio_stop d) = d_evt d /\ e_touch (d_eng (audio_stop d)) = e_touch (d_eng d).
Proof. unfold audio_stop, meter_pump_stop. cbv zeta. destruct (negb (a_meter_live _)); destruct (negb (a_live _)); done. Qed.

Lemma device_hello e rid agent l d : says_env e HARP_MSG_REQUEST rid (str "core.hello") (Some (hello_req_item agent)) -> zlen agent < 2 ^ 32 ->
  n_link (d_net d) = Some l -> ready false 0 0 d ->
  let d' := handle_hello conf e d in
  ready true 0 grant_amount d' /\
  n_sent (d_net d') = n_sent (d_net d) ++ [(HARP_STREAM_CTL, hello_rsp conf rid (d_hash d)); (HARP_STREAM_CTL, credit_msg grant_amount)].
Proof.
  intros (_ & Hr & Hm & Hb1 & Hb2) Ha Hl Hd. unfold handle_hello. cbv zeta.
  assert (body_parse (map_fields hello_visit) e 0 = PROTO_MAJOR) as ->.
  { unfold body_parse, harp_cdec_init. rewrite Hb1, Hb2. rewrite <- (app_nil_r (enc_item _)). by rewrite (reads_hello_req agent Ha [] 0 ltac:(apply zlen_nonneg)). }
  cbn [negb Z.eqb PROTO_MAJOR Pos.eqb]. destruct (audio_stop_net d) as (N1 & N2 & N3 & N4 & N5).
  unfold grant_credit. cbv zeta. set (d1 := audio_stop d) in *. clearbody d1.
  assert (d_hash (session_reset (upd_net (set_hello true) d1)) = d_hash d) as -> by exact N2.
  unfold respond.
  match goal with |- context [send_msg (enc_hello ?a ?b ?c) ?x] => rewrite (send_inbox (enc_hello a b c) l x) by (cbn; by rewrite N1) end. unfold rsp_head. rewrite Hr, Hm, (hello_rsp_bytes HR).
  rewrite (send_inbox _ l) by done. rewrite (credit_bytes HR). destruct Hd. split; [split|]; cbn; rewrite ?N1, ?N3, ?N4, ?N5; try done.
  - pose proof grant_amount_range. by rewrite u64_small.
  - by rewrite <- app_assoc.
Qed.

(** A host that speaks up within ten seconds. *)
Definition in_time d : Prop := u64 (env_ns (w_clock (d_world d)) - t_start) <= PREHELLO_NS.

Lemma ready_ext h c g l d d' : d_net d' = set_link l (d_net d) -> d_exited d' = d_exited d -> d_evt d' = d_evt d ->
  e_touch (d_eng d') = e_touch (d_eng d) -> ready h c g d -> ready h c g d'.
Proof. intros E1 E2 E3 E4 []. split; rewrite ?E1, ?E2, ?E3, ?E4; done. Qed.

Lemma recv_inbox m d : link_recv (upd_net (set_link (Some [m])) d) = (Some (MsgIn m.1 m.2), upd_net (set_link (Some [])) d).
Proof. reflexivity. Qed.

Lemma turn_hello rid agent d n : ready false 0 0 d -> in_time d -> is_u64 rid -> zlen agent < 2 ^ 32 ->
  exists d', wire_turn conf t_start HARP_STREAM_CTL (hello_req rid agent) (mk_wire d n false) = mk_wire d' n false /\ ready true 0 grant_amount d' /\
    n_sent (d_net d') = n_sent (d_net d) ++ [(HARP_STREAM_CTL, hello_rsp conf rid (d_hash d)); (HARP_STREAM_CTL, credit_msg grant_amount)].
Proof.
  intros Hd Hin Hr Ha. unfold wire_turn, session_turn. cbn [wi_dev wi_read wi_over]. rewrite recv_inbox. cbn [fst snd]. set (d1 := upd_net (set_link (Some [])) d).
  change (n_hello (d_net d1)) with (n_hello (d_net d)). rewrite (rd_hello _ _ _ _ Hd). unfold ask.
  set (d2 := set_world _ d1). rewrite (proj2 (Z.ltb_ge PREHELLO_NS _)) by apply Hin.
  assert (ready false 0 0 d2) as Hd2 by (by apply (ready_ext _ _ _ (Some []) d)). destruct (hello_req_parse rid agent Hr Ha) as (e & Hp & He).
  assert (session_msg conf HARP_STREAM_CTL (hello_req rid agent) d2 = handle_hello conf e d2) as ->.
  { unfold session_msg. rewrite Z.eqb_refl. assert (evt_stage_flush d2 = d2) as -> by (unfold evt_stage_flush; by rewrite (rd_stage _ _ _ _ Hd2)).
    unfold handle_ctl, take_touch. rewrite (rd_touch _ _ _ _ Hd2), Hp. unfold dispatch. destruct He as (H1 & _ & H3 & _). rewrite H1, H3.
    cbn [Z.eqb Pos.eqb negb]. assert (streq (str "core.hello") (str "core.hello") = true) as Hq by reflexivity. rewrite Hq. cbn [negb]. rewrite andb_false_r.
    unfold CTL_HANDLERS. cbn [find_handler]. by rewrite Hq. }
  destruct (device_hello e rid agent [] d2 He Ha eq_refl Hd2) as [Hr' Hs]. set (d3 := handle_hello conf e d2) in *. clearbody d3.
  rewrite (rd_exited _ _ _ _ Hr'), (rd_closing _ _ _ _ Hr'), (rd_stage _ _ _ _ Hr'). cbn [orb negb andb]. rewrite bool_decide_eq_true_2 by done. cbn [negb andb].
  by exists d3.
Qed.

Lemma turn_credit v c g d n : ready true c g d -> is_u64 v ->
  exists d', wire_turn conf t_start HARP_STREAM_CTL (credit_msg v) (mk_wire d n false) = mk_wire d' n false /\ ready true (u64 (c + v)) g d' /\
    n_sent (d_net d') = n_sent (d_net d).
Proof.
  intros Hd Hv. unfold wire_turn, session_turn. cbn [wi_dev wi_read wi_over]. rewrite recv_inbox. cbn [fst snd]. set (d1 := upd_net (set_link (Some [])) d).
  change (n_hello (d_net d1)) with (n_hello (d_net d)). rewrite (rd_hello _ _ _ _ Hd).
  assert (ready true c g d1) as Hd1 by (by apply (ready_ext _ _ _ (Some []) d)). destruct (credit_parse v Hv) as (e & Hp & He).
  assert (session_msg conf HARP_STREAM_CTL (credit_msg v) d1 = upd_net (fun n => set_credit (u64 (n_credit n + v)) n) d1) as ->.
  { unfold session_msg. rewrite Z.eqb_refl. assert (evt_stage_flush d1 = d1) as -> by (unfold evt_stage_flush; by rewrite (rd_stage _ _ _ _ Hd1)).
    unfold handle_ctl, take_touch. rewrite (rd_touch _ _ _ _ Hd1), Hp. unfold dispatch. destruct He as (H1 & _ & H3 & H4 & H5). rewrite H1, H3, H4.
    rewrite Z.eqb_refl. replace (streq (str "core.credit") (str "core.credit")) with true by reflexivity. cbn [andb]. unfold handle_credit, body_parse, harp_cdec_init.
    rewrite H4, H5. rewrite <- (app_nil_r (enc_item _)).
    assert (credit_body (mk_cdec (enc_item (credit_item v) ++ []) false, None) = (Some tt, (mk_cdec [] false, Some v))) as ->.
    { exact (reads_credit v (fun v _ => Some v) Hv [] None ltac:(apply zlen_nonneg)). }
    cbn [fst snd]. unfold sendq_flush. change (sq_count (n_sendq (d_net (upd_net _ d1)))) with (sq_count (n_sendq (d_net d1))). by rewrite (rd_queue _ _ _ _ Hd1). }
  set (d3 := upd_net _ d1). assert (ready true (u64 (c + v)) g d3) as Hd3.
  { destruct Hd1. split; cbn; try done. by rewrite <- rd_credit0. }
  rewrite (rd_exited _ _ _ _ Hd3), (rd_closing _ _ _ _ Hd3), (rd_stage _ _ _ _ Hd3). cbn [orb negb andb]. rewrite bool_decide_eq_true_2 by done. cbn [negb andb].
  by exists d3.
Qed.
End turn.

(** ** The host's side *)

Section host.
Context {E : DevEnv} {R : Realloc} {Q : Qsort} {O' : OS} {F : Faults} {FC : FpConv} {CT : CFloatText} (conf : dev_conf) (t_start : Z) (HR : realloc_total R).
Context (store : option path) (hooked : bool) (force_grant : option (list Z)).
#[local] Instance host_link : MsgLink wire := wire_link conf t_start.
#[local] Existing Instance wire_next.

Lemma client_amount_range : is_u64 (client_grant_amount force_grant).
Proof. unfold client_grant_amount. repeat case_match; try apply strtoull_range; unfold is_u64, CREDIT_GRANT; lia. Qed.

Lemma begin_ready d0 : e_touch (d_eng d0) = false -> d_exited d0 = false -> ready false 0 0 (session_begin [] d0).
Proof. intros H1 H2. by split. Qed.

(** The next message is taken. *)
Lemma next_run w strm data rest : in_flight w = (strm, data) :: rest ->
  msg_next w = (Some (strm, data), mk_wire (wi_dev w) (S (wi_read w)) (wi_over w)) /\ in_flight (mk_wire (wi_dev w) (S (wi_read w)) (wi_over w)) = rest.
Proof.
  intros H. unfold in_flight in *. unfold msg_next, wire_next. assert (n_sent (d_net (wi_dev w)) !! wi_read w = Some (strm, data)) as ->.
  { rewrite <- (Nat.add_0_r (wi_read w)), <- lookup_drop, H. done. }
  split; [done|]. cbn [wi_dev wi_read]. replace (S (wi_read w)) with (wi_read w + 1)%nat by lia. rewrite <- drop_drop, H. done.
Qed.

(** A request whose answer is the next message. *)
Lemma call_run c m f w' data e rest fuel :
  let c1 := cl_set_rid (u64 (cl_rid c + 1)) c in
  msg_send HARP_STREAM_CTL (cb_buf (f (cl_rid c1) (harp_env_head harp_cbuf_init HARP_MSG_REQUEST (cl_rid c1) m true))) (cl_link c) = (true, w') ->
  in_flight w' = (HARP_STREAM_CTL, data) :: rest -> harp_env_parse data = (true, e) -> e_msgtype e = HARP_MSG_RESPONSE -> e_rid e = cl_rid c1 ->
  exists x, call store hooked force_grant (S fuel) m (Some f) c =
    (Some (ROk e), cl_set_link (mk_wire (wi_dev w') (S (wi_read w')) (wi_over w')) (cl_set_err x c1)).
Proof.
  intros c1 Hs Hf Hp Ht Hr. unfold call, harp_client_req_head. cbv zeta. fold c1. unfold mbind, SM_bind, harp_client_request, harp_client_send, link_out. cbv zeta.
  change (harp_cbuf_reset harp_cbuf_init) with harp_cbuf_init. set (x := mk_err _ _ _ _ _). exists x.
  change (cl_link (cl_set_err x c1)) with (cl_link c). rewrite Hs. cbn [negb Z.eqb harp_client_wait]. unfold pump_one, link_in, mbind, SM_bind.
  change (cl_link (cl_set_link w' (cl_set_err x c1))) with w'. destruct (next_run _ _ _ _ Hf) as [-> _]. cbn [fst snd Z.eqb HARP_STREAM_CTL HARP_STREAM_OBJ Pos.eqb negb].
  rewrite Hp. cbn [negb]. rewrite Ht. cbn [Z.eqb Pos.eqb HARP_MSG_RESPONSE HARP_MSG_NOTIFICATION HARP_MSG_ERROR mret SM_ret]. rewrite Hr.
  change (cl_rid (cl_set_err x c1)) with (cl_rid c1). rewrite Z.eqb_refl. cbn [negb]. cbv zeta.
  assert (cb_buf (harp_cbuf_put (harp_cbuf_reset harp_cbuf_init) data) = data) as ->.
  { pose proof (never_oom_put data HR harp_cbuf_init eq_refl) as Ho. exact (proj2 (appends_put data harp_cbuf_init Ho)). }
  rewrite Hp, Ht. reflexivity.
Qed.

(** C6: the two programs complete the handshake.  When a session has begun on a
    device - whatever it went through before - and a client greets it in time,
    [harp_client_hello] returns 0 and the device's configuration; from then on the
    device counts as greeted, and each side has the credit the other believes it
    granted: the device at once, the client with the next message it receives. *)
Theorem handshake (agent : list Z) (fuel : nat) (d0 : device inbox) (c : client wire) :
  in_time t_start d0 -> conf_fits conf (d_hash d0) -> zlen agent < 2 ^ 32 -> e_touch (d_eng d0) = false -> d_exited d0 = false ->
  cl_link c = mk_wire (session_begin [] d0) (length (n_sent (d_net d0))) false ->
  exists c', harp_client_hello store hooked force_grant None (S fuel) agent c = (Some (ROk (ident_of conf (d_hash d0))), c') /\
    cl_granted c' = client_grant_amount force_grant /\
    ready true (client_grant_amount force_grant) grant_amount (wi_dev (cl_link c')) /\ wi_over (cl_link c') = false /\
    exists c'', pump_one store hooked force_grant c' = (Some None, c'') /\ in_flight (cl_link c'') = [] /\
      cl_credit c'' = u64 (cl_credit c + n_granted (d_net (wi_dev (cl_link c'')))) /\
      n_credit (d_net (wi_dev (cl_link c''))) = cl_granted c''.
Proof.
  intros Hin Hfit Ha Ht Hx Hl. set (d := session_begin [] d0) in *. pose proof (begin_ready d0 Ht Hx : ready false 0 0 d) as Hd.
  set (rid := u64 (cl_rid c + 1)). assert (is_u64 rid) as Hrid by apply u64_range.
  destruct (turn_hello conf t_start HR rid agent d (length (n_sent (d_net d0))) Hd Hin Hrid Ha) as (d1 & E1 & R1 & S1).
  destruct (hello_rsp_parse conf rid (d_hash d0) Hrid Hfit) as (e & Hp & H1 & H2 & H3 & H4 & H5).
  set (w1 := mk_wire d1 (length (n_sent (d_net d0))) false) in *.
  assert (in_flight w1 = [(HARP_STREAM_CTL, hello_rsp conf rid (d_hash d0)); (HARP_STREAM_CTL, credit_msg grant_amount)]) as F1.
  { unfold in_flight, w1. cbn [wi_dev wi_read]. rewrite S1. apply drop_app_length. }
  unfold harp_client_hello. unfold mbind at 1, SM_bind at 1.
  assert (msg_send HARP_STREAM_CTL (cb_buf (hello_body None agent (harp_env_head harp_cbuf_init HARP_MSG_REQUEST rid (str "core.hello") true))) (cl_link c) = (true, w1)) as Hsend.
  { rewrite (hello_req_bytes HR). unfold msg_send, host_link, wire_link. rewrite Hl. cbn [wi_over]. by rewrite E1. }
  destruct (call_run c (str "core.hello") (fun _ => hello_body None agent) w1 _ e _ fuel Hsend F1 Hp H1 H2) as [x ->].
  set (c1 := cl_set_link _ _). 
  assert (body_parse (map_fields hello_visit_rsp) e (false, ident_zero) = (true, ident_of conf (d_hash d0))) as ->.
  { unfold body_parse, harp_cdec_init. rewrite H4, H5. rewrite <- (app_nil_r (enc_item _)). by rewrite (reads_hello_rsp conf (d_hash d0) Hfit [] _ ltac:(apply zlen_nonneg)). }
  cbn [negb]. unfold mbind, SM_bind, sm_modify, sm_get. cbv zeta. unfold client_grant, link_out. cbv zeta. rewrite (credit_bytes HR).
  set (w2 := mk_wire d1 (S (length (n_sent (d_net d0)))) false). change (cl_link (cl_set_granted 0 c1)) with w2.
  destruct (turn_credit conf t_start (client_grant_amount force_grant) _ _ d1 (S (length (n_sent (d_net d0)))) R1 client_amount_range) as (d2 & E2 & R2 & S2).
  unfold msg_send, host_link, wire_link. cbn [wi_over w2]. unfold w2. rewrite E2. cbn [mret SM_ret].
  eexists. split; [reflexivity|]. cbn [cl_granted cl_set_granted cl_set_link cl_link wi_dev wi_over].
  rewrite !Z.add_0_l in *. pose proof client_amount_range as Hc. rewrite (u64_small _ Hc) in *. split; [reflexivity|]. split; [exact R2|]. split; [reflexivity|].
  destruct (credit_parse grant_amount grant_amount_range) as (e2 & P1 & P2 & P3 & P4 & P5 & P6).
  set (c2 := cl_set_granted _ _). set (w3 := mk_wire d2 (S (length (n_sent (d_net d0)))) false).
  assert (in_flight w3 = [(HARP_STREAM_CTL, credit_msg grant_amount)]) as F3.
  { unfold in_flight, w3. cbn [wi_dev wi_read]. rewrite S2, S1. replace (S (length (n_sent (d_net d0)))) with (length (n_sent (d_net d0)) + 1)%nat by lia.
    rewrite <- drop_drop. change (n_sent (d_net d)) with (n_sent (d_net d0)). by rewrite drop_app_length. }
  destruct (next_run _ _ _ _ F3) as [N1 N2]. unfold pump_one, link_in, mbind, SM_bind. change (cl_link c2) with w3. rewrite N1.
  cbn [fst snd Z.eqb HARP_STREAM_CTL HARP_STREAM_OBJ Pos.eqb negb]. rewrite P1. cbn [negb]. rewrite P2. cbn [Z.eqb Pos.eqb HARP_MSG_NOTIFICATION mret SM_ret sm_modify].
  eexists. split; [reflexivity|]. unfold handle_ntf. rewrite P4, P5. replace (streq (str "core.credit") (str "core.credit")) with true by reflexivity. cbn [andb].
  cbn [cl_set_credit cl_link cl_set_link cl_credit cl_granted cl_set_granted c2]. split; [exact N2|]. cbn [wi_dev w3]. split.
  - rewrite (rd_granted _ _ _ _ R2). unfold body_parse, harp_cdec_init. rewrite P5, P6. rewrite <- (app_nil_r (enc_item _)).
    by rewrite (reads_credit grant_amount (fun v cr => u64 (cr + v)) grant_amount_range [] _ ltac:(apply zlen_nonneg)).
  - by rewrite (rd_credit _ _ _ _ R2).
Qed.
End host.

Section demo.
#[local] Existing Instances demo_env demo_text demo_conv alloc_all isort_Qsort os_good no_faults.

Definition demo_unit : device inbox := mk_dev (world_of fs_empty) (mk_engst g_parts_init false 0 0) ([], [])
  (mk_net None [] false false 0 0 sendq_empty) (d_live (demo_dev fs_empty sendq_empty 0)) (d_evt (demo_dev fs_empty sendq_empty 0))
  (d_audio (demo_dev fs_empty sendq_empty 0)) (fun _ => 0) (harp_hash_compute [1]) fresh_bucket fresh_bucket (d_log (demo_dev fs_empty sendq_empty 0))
  (d_rec (demo_dev fs_empty sendq_empty 0)) false.
Definition demo_wire : wire := mk_wire (session_begin [] demo_unit) 0 false.

Lemma handshake_witness :
  exists c', harp_client_hello (ML := wire_link demo_kit (env_ns 0)) (RL := wire_next) None false None None 3 (str "probe") (harp_client_init demo_wire (world_of fs_empty)) =
      (Some (ROk (ident_of demo_kit (harp_hash_compute [1]))), c') /\ n_hello (d_net (wi_dev (cl_link c'))) = true.
Proof.
  destruct (handshake demo_kit (env_ns 0) (fun _ => eq_refl) None false None (str "probe") 2 demo_unit (harp_client_init demo_wire (world_of fs_empty))) as (c' & H1 & _ & H2 & _).
  - vm_compute. discriminate.
  - exact demo_kit_fits.
  - vm_compute. reflexivity.
  - reflexivity.
  - reflexivity.
  - reflexivity.
  - exists c'. split; [exact H1|]. exact (rd_hello _ _ _ _ H2).
Defined.
End demo.
