(* ===== verification/PushSpec.v ===== *)
(** * Pushing a closure: theorems

    What [harp_client_push_closure] has sent when it reports success: the missing
    objects, in order, each within the credit the device had granted - the credit the
    client started with and what the device's [core.credit] messages, heard so far,
    add to it, less what has been sent. *)
From Stdlib Require Import ZArith Lia String List Bool.
From stdpp Require Import base list gmap sets.
From S2P Require Import Prelude Cbuf CborEnc CborDec CborFields Sha256 Frame Envelope Object ObjectWalk Link Fs Store GcMark Device DeviceSpec Reply StateSpec Client FetchSpec.
Open Scope Z_scope.
Open Scope list_scope.

(** ** The ledger of credit *)

(** What passes over the client's end of the link, in order. *)
Inductive wire : Type := Sent (m : Z * list Z) | Heard (m : Z * list Z).

(** The grant in the body of a [core.credit] message: the number under key 0. *)
Definition grant_said (e : harp_env) : option Z := body_parse (first_key 1 (fun _ => get_uint (fun v _ => Some v))) e None.

(** The grant a message on the link carries, if it is one that does. *)
Definition grant_heard (m : Z * list Z) : option Z :=
  if m.1 =? HARP_STREAM_CTL then
    let '(ok, e) := harp_env_parse m.2 in
    if ok && (e_msgtype e =? HARP_MSG_NOTIFICATION) && streq (method_of e) (str "core.credit") && e_has_body e then grant_said e else None
  else None.

(** A grant adds to the credit (64 bits); an object needs credit for all of its
    bytes, and uses it up; [None]: one was sent beyond the credit. *)
Definition ledger_step (w : wire) (cr : Z) : option Z :=
  match w with
  | Heard m => Some match grant_heard m with Some v => u64 (cr + v) | None => cr end
  | Sent m => if m.1 =? HARP_STREAM_OBJ then (if zlen m.2 <=? cr then Some (cr - zlen m.2) else None) else Some cr
  end.
Fixpoint ledger (t : list wire) (cr : Z) : option Z :=
  match t with [] => Some cr | w :: t => cr' ← ledger_step w cr; ledger t cr' end.

(** The objects sent. *)
Definition objs_sent (t : list wire) : list (Z * list Z) :=
  flat_map (fun w => match w with Sent m => if m.1 =? HARP_STREAM_OBJ then [m] else [] | Heard _ => [] end) t.

Lemma ledger_app t1 t2 cr : ledger (t1 ++ t2) cr = (cr' ← ledger t1 cr; ledger t2 cr').
Proof. revert cr. induction t1 as [|w t1 IH]; intros cr; [done|]. cbn [app ledger]. destruct (ledger_step w cr); [apply IH|done]. Qed.

Lemma first_uint {T} (f : Z -> T -> T) e t :
  body_parse (first_key 1 (fun _ => get_uint f)) e t =
    match body_parse (first_key 1 (fun _ => get_uint (fun v _ => Some v))) e None with Some v => f v t | None => t end.
Proof.
  unfold body_parse. destruct (e_has_body e); [|done]. unfold first_key, get_uint, mbind, SM_bind, on_fst, on_snd, sm_modify, sm_guard.
  destruct (harp_cdec_map _) as [[n|] d]; [|done]. cbn. destruct (1 <=? n); [|done]. cbn.
  destruct (harp_cdec_uint d) as [[k|] d1]; [|done]. cbn. destruct (k =? 0); [|done]. cbn.
  by destruct (harp_cdec_uint d1) as [[v|] d2].
Qed.

Section push.
Context {L : Type} {ML : MsgLink L} {RL : MsgRecv L} {R : Realloc} {O' : OS} {F : Faults}
  (s : path) (hooked : bool) (force_grant : option (list Z)) (fuel : nat).
Context (Hfl : flush_reliable) (Hs : dir_ok s)
  (Hbytes : forall l m l', msg_next l = (Some m, l') -> bytes_ok m.2).
(** [trace]: what has passed over the link. *)
Context (trace : L -> list wire)
  (Hsend : forall strm data l ok l', msg_send strm data l = (ok, l') -> trace l' = trace l ++ if ok : bool then [Sent (strm, data)] else [])
  (Hnext : forall l r l', msg_next l = (r, l') -> trace l' = trace l ++ match r with Some m => [Heard m] | None => [] end).
Implicit Types c : client L.

Abbreviation files c := (w_fs (cl_world c)).
Implicit Types t : list wire.

(** [t] passed over the link between [c] and [c'], the objects in it are [os], and
    the credit is what the ledger of it says. *)
Definition passed t (os : list (list Z)) c c' : Prop :=
  trace (cl_link c') = trace (cl_link c) ++ t /\ objs_sent t = map (fun d => (HARP_STREAM_OBJ, d)) os /\
    ledger t (cl_credit c) = Some (cl_credit c').

Lemma passed_nil c c' : cl_link c' = cl_link c -> cl_credit c' = cl_credit c -> passed [] [] c c'.
Proof. intros E1 E2. unfold passed. by rewrite E1, E2, app_nil_r. Qed.

Lemma passed_trans t1 t2 os1 os2 c1 c2 c3 : passed t1 os1 c1 c2 -> passed t2 os2 c2 c3 -> passed (t1 ++ t2) (os1 ++ os2) c1 c3.
Proof.
  intros (A1 & A2 & A3) (B1 & B2 & B3). split; [by rewrite B1, A1, app_assoc|]. split; [|by rewrite ledger_app, A3].
  unfold objs_sent in *. by rewrite flat_map_app, A2, B2, map_app.
Qed.

(** The store grows, the credit is what the ledger says, and nothing else of what
    matters changes: no object goes out, the queue stays. *)
Record calm c c' : Prop := mk_calm {
  calm_grows : grows s c c'; calm_passed : exists t, passed t [] c c';
  calm_queue : cl_sendq c' = cl_sendq c; calm_drops : cl_drops c' = cl_drops c }.

Lemma calm_refl c c' : files c' = files c -> cl_link c' = cl_link c -> cl_sendq c' = cl_sendq c -> cl_drops c' = cl_drops c -> cl_credit c' = cl_credit c -> calm c c'.
Proof. intros E1 E2 E3 E4 E5. split; [by apply grows_refl|exists []; by apply passed_nil|done|done]. Qed.

Lemma calm_trans c1 c2 c3 : calm c1 c2 -> calm c2 c3 -> calm c1 c3.
Proof.
  intros [A1 [t1 A2] A3 A4] [B1 [t2 B2] B3 B4]. split; [exact (grows_trans _ _ _ _ A1 B1)| |congruence|congruence].
  exists (t1 ++ t2). exact (passed_trans _ _ [] [] _ _ _ A2 B2).
Qed.

Lemma out_calm data c : calm c (link_out HARP_STREAM_CTL data c).2.
Proof.
  unfold link_out. destruct (msg_send _ _ _) as [ok l] eqn:E. cbn [snd]. split; [by apply grows_refl| |done|done].
  eexists. split; [exact (Hsend _ _ _ _ _ E)|]. by destruct ok.
Qed.

Lemma grant_calm c : calm c (client_grant force_grant c).2.
Proof.
  unfold client_grant. set (m := cb_buf _). pose proof (out_calm m c) as H. destruct (link_out _ m c) as [ok c1]. cbn [snd] in *.
  destruct ok; [|exact H]. apply (calm_trans _ c1); [exact H|by apply calm_refl].
Qed.

Lemma take_calm data c : bytes_ok data -> calm c (take_object (Some s) force_grant data c).
Proof.
  intros Hb. unfold take_object. cbv zeta. set (c1 := if 0 <=? harp_obj_kind data then _ else c).
  assert (calm c c1) as H1.
  { unfold c1. destruct (0 <=? _); [|by apply calm_refl]. pose proof (put_grows s Hfl Hs data c Hb) as Hg. unfold on_cstore in *.
    destruct (harp_store_put s data (cl_world c)) as [r w]. split; [exact Hg|exists []; by apply passed_nil|done|done]. }
  set (c2 := cl_set_granted _ c1). assert (calm c c2) as H2 by (apply (calm_trans _ c1); [exact H1|by apply calm_refl]).
  destruct (cl_granted c2 <? _); [|exact H2]. apply (calm_trans _ c2); [exact H2|apply grant_calm].
Qed.

(** The credit after a notification is what the ledger makes of it. *)
Lemma ntf_credit e c data : harp_env_parse data = (true, e) -> e_msgtype e = HARP_MSG_NOTIFICATION ->
  ledger [Heard (HARP_STREAM_CTL, data)] (cl_credit c) = Some (cl_credit (handle_ntf hooked e c)).
Proof.
  intros Hp Hn. cbn [ledger ledger_step]. unfold grant_heard. cbn [fst snd]. rewrite Hp, Z.eqb_refl, Hn, Z.eqb_refl. cbn [andb].
  unfold handle_ntf, surface. destruct (streq _ _ && e_has_body e); [|cbn; by repeat case_match].
  cbn [cl_credit cl_set_credit]. by rewrite first_uint.
Qed.

Lemma ntf_same e c : files (handle_ntf hooked e c) = files c /\ cl_link (handle_ntf hooked e c) = cl_link c /\
    cl_sendq (handle_ntf hooked e c) = cl_sendq c /\ cl_drops (handle_ntf hooked e c) = cl_drops c.
Proof. unfold handle_ntf, surface. by repeat case_match. Qed.

(** A message that carries no grant. *)
Lemma heard_calm m l' c : msg_next (cl_link c) = (Some m, l') -> grant_heard m = None -> calm c (cl_set_link l' c).
Proof.
  intros E Hg. split; [by apply grows_refl| |done|done]. exists [Heard m]. split; [exact (Hnext _ _ _ E)|].
  split; [done|]. cbn [ledger ledger_step]. by rewrite Hg.
Qed.

Lemma pump_calm c : calm c (pump_one (Some s) hooked force_grant c).2.
Proof.
  unfold pump_one, link_in, mbind, SM_bind. destruct (msg_next (cl_link c)) as [m l] eqn:E. set (c1 := cl_set_link l c).
  destruct m as [[strm data]|].
  2: { split; [by apply grows_refl| |done|done]. exists []. split; [exact (Hnext _ _ _ E)|done]. }
  pose proof (heard_calm _ _ _ E) as Hh. fold c1 in Hh. unfold grant_heard in Hh. cbn [fst snd] in Hh.
  pose proof (Hbytes _ _ _ E) as Hb. cbn [snd] in Hb.
  case_eq (strm =? HARP_STREAM_OBJ); intros Es.
  { apply (calm_trans _ c1); [|exact (take_calm data c1 Hb)]. apply Hh. apply Z.eqb_eq in Es. by subst. }
  case_eq (strm =? HARP_STREAM_CTL); intros Ec; rewrite Ec in Hh; [|exact (Hh eq_refl)]. apply Z.eqb_eq in Ec. subst strm. cbn [negb].
  destruct (harp_env_parse data) as [ok e] eqn:Ep. destruct ok; [|exact (Hh eq_refl)]. cbn [negb andb] in *.
  case_eq (e_msgtype e =? HARP_MSG_NOTIFICATION); intros En; rewrite En in Hh; [|exact (Hh eq_refl)]. clear Hh.
  cbn [snd mret SM_ret sm_modify]. apply Z.eqb_eq in En. destruct (ntf_same e c1) as (N1 & N2 & N3 & N4).
  split; [by apply grows_refl| |exact N3|exact N4]. exists [Heard (HARP_STREAM_CTL, data)].
  split; [rewrite N2; exact (Hnext _ _ _ E)|]. split; [done|exact (ntf_credit e c1 data Ep En)].
Qed.

Lemma wait_calm n rid : forall rsp c, calm c (harp_client_wait (Some s) hooked force_grant n rid rsp c).2.
Proof.
  induction n as [|n IH]; intros rsp c; [by apply calm_refl|]. cbn [harp_client_wait]. pose proof (pump_calm c) as Hp.
  destruct (pump_one _ _ _ c) as [[[[e data]|]|] c1]; cbn [snd] in *; [|exact (calm_trans _ _ _ Hp (IH _ _))|exact Hp].
  destruct (negb _); [exact (calm_trans _ _ _ Hp (IH _ _))|]. destruct (e_msgtype e =? _); [apply (calm_trans _ c1); [exact Hp|by apply calm_refl]|].
  cbv zeta. by destruct (harp_env_parse _).
Qed.

Lemma request_calm req rsp c : calm c (harp_client_request (Some s) hooked force_grant fuel req rsp c).2.
Proof.
  unfold harp_client_request, harp_client_send. cbv zeta. set (c0 := cl_set_err _ c). assert (calm c c0) as H0 by by apply calm_refl.
  pose proof (calm_trans _ _ _ H0 (out_calm (cb_buf req) c0)) as H1. destruct (link_out _ _ c0) as [ok c1]. cbn [snd] in H1.
  destruct (negb _); [exact H1|]. apply (calm_trans _ c1); [exact H1|apply wait_calm].
Qed.

(** [e] is a response to request [rid] that came over the link. *)
Definition response_to (rid : Z) (e : harp_env) : Prop :=
  exists l data l', msg_next l = (Some (HARP_STREAM_CTL, data), l') /\ harp_env_parse data = (true, e) /\
    e_rid e = rid /\ e_msgtype e <> HARP_MSG_ERROR /\ e_msgtype e <> HARP_MSG_NOTIFICATION.

Lemma pump_message c e data c' : pump_one (Some s) hooked force_grant c = (Some (Some (e, data)), c') ->
  exists l l', msg_next l = (Some (HARP_STREAM_CTL, data), l') /\ harp_env_parse data = (true, e) /\ e_msgtype e <> HARP_MSG_NOTIFICATION.
Proof.
  unfold pump_one, link_in, mbind, SM_bind. destruct (msg_next (cl_link c)) as [[[strm d]|] l'] eqn:E; [|done].
  case_eq (strm =? HARP_STREAM_OBJ); [done|intros _]. case_eq (strm =? HARP_STREAM_CTL); [|done]. intros ->%Z.eqb_eq. cbn [negb].
  destruct (harp_env_parse d) as [[] e0] eqn:Ep; [|done]. cbn [negb]. case_eq (e_msgtype e0 =? HARP_MSG_NOTIFICATION); [done|].
  intros Hn [= -> -> _]. exists (cl_link c), l'. by rewrite Z.eqb_neq in Hn.
Qed.

(** The copy of an answer that was parsed is the answer. *)
Lemma copy_parses rsp data e : harp_env_parse (cb_buf (harp_cbuf_put (harp_cbuf_reset rsp) data)) = (true, e) -> harp_env_parse data = (true, e).
Proof.
  intros H. destruct (put_cases (harp_cbuf_reset rsp) data) as [E|E]; rewrite E in H; [discriminate H|exact H].
Qed.

(** An operation only ever acts on a response to its own request. *)
Lemma wait_correlated n rid : forall rsp c e rsp' c',
  harp_client_wait (Some s) hooked force_grant n rid rsp c = (Some (ROk e, rsp'), c') -> response_to rid e.
Proof.
  induction n as [|n IH]; intros rsp c e rsp' c' Hrun; [done|]. cbn [harp_client_wait] in Hrun.
  destruct (pump_one _ _ _ c) as [[[[e0 data]|]|] c1] eqn:Ep; [|exact (IH _ _ _ _ _ Hrun)|done].
  case_eq (e_rid e0 =? rid); intros Er; rewrite Er in Hrun; [|exact (IH _ _ _ _ _ Hrun)]. cbn [negb] in Hrun.
  case_eq (e_msgtype e0 =? HARP_MSG_ERROR); intros Em; rewrite Em in Hrun; [done|]. cbv zeta in Hrun.
  destruct (harp_env_parse (cb_buf _)) as [[] e1] eqn:E1; [|done]. injection Hrun as <- _ _. apply copy_parses in E1.
  destruct (pump_message _ _ _ _ Ep) as (l & l' & H1 & H2 & H3). rewrite H2 in E1. injection E1 as <-.
  exists l, data, l'. apply Z.eqb_eq in Er. apply Z.eqb_neq in Em. done.
Qed.

Lemma request_correlated req rsp c e rsp' c' :
  harp_client_request (Some s) hooked force_grant fuel req rsp c = (Some (ROk e, rsp'), c') -> response_to (cl_rid c) e.
Proof.
  unfold harp_client_request. cbv zeta. destruct (harp_client_send _ c) as [rc c1]. destruct (negb _); [done|]. apply wait_correlated.
Qed.

Lemma closure_rid turns : forall clo cur c, cl_rid (local_closure s turns clo cur c).2 = cl_rid c.
Proof.
  induction turns as [|turns IH]; intros clo cur c; cbn [local_closure]; (destruct (_ !! _); [|done]); [done|].
  unfold on_cstore. destruct (harp_store_get _ _ _ _) as [[[[] b]|] w]; [|done|done]. by rewrite IH.
Qed.

(** Pumping until there is credit. *)
Lemma self_pump_calm len spins : forall c,
  let r := self_pump (Some s) hooked force_grant spins len c in calm c r.2 /\ (is_Some r.1 -> len <= cl_credit r.2).
Proof.
  induction spins as [|k IH]; intros c; cbn [self_pump]; destruct (Z.leb_spec len (cl_credit c)); try (split; [by apply calm_refl|done]).
  { split; [by apply calm_refl|]. cbn [fst]. intros Hx. by destruct Hx. }
  pose proof (pump_calm c) as Hp. destruct (pump_one _ _ _ c) as [[o|] c1]; cbn [snd fst] in *; [|split; [exact Hp|by intros [? ?]]].
  destruct (IH c1) as [H1 H2]. split; [exact (calm_trans _ _ _ Hp H1)|exact H2].
Qed.

(** ** Draining the queue *)

(** Objects stored under the hashes. *)
Definition holds_data c (h : harp_hash) (d : list Z) : Prop := obj_data s (files c) h = Some d.

Lemma flush_run n : forall l spins enc c c', fine s c -> sendq_ok (cl_sendq c) -> queued (cl_sendq c) = l -> Forall is_hash l -> (length l <= n)%nat ->
  csend_loop (Some s) hooked force_grant s n spins enc c = (Some tt, c') ->
  exists t datas, passed t datas c c' /\ Forall2 (holds_data c') l datas /\
    grows s c c' /\ cl_drops c' = cl_drops c /\ queued (cl_sendq c') = [] /\ sendq_ok (cl_sendq c').
Proof.
  induction n as [|n IH]; intros l spins enc c c' Hf Hq Hl Hh Hn; cbn [csend_loop].
  { destruct l; [|cbn in Hn; lia]. intros [= <-]. exists [], []. split_and!; first [by apply passed_nil|done|by apply grows_refl]. }
  destruct l as [|h l].
  { assert (sq_count (cl_sendq c) = O) as Hz by (apply (f_equal length) in Hl; unfold queued in Hl; by rewrite length_map, length_seq in Hl).
    rewrite Hz. cbn [Nat.eqb]. intros [= <-]. exists [], []. split_and!; first [by apply passed_nil|done|by apply grows_refl]. }
  destruct (queued_pop _ _ _ Hq Hl) as (Hhd & Hok & Hpop & Hcnt). rewrite Hcnt. cbn [Nat.eqb]. rewrite Hhd.
  apply Forall_cons in Hh as [Hhh Hh]. unfold on_cstore.
  destruct (store_get_run s h (harp_cbuf_reset enc) (cl_world c)) as ([ok b] & w1 & -> & Hw & Hdata). cbn [fst snd] in Hdata.
  set (c1 := cl_set_world w1 c). assert (calm c c1) as Hc1 by (by apply calm_refl).
  destruct ok; [|done]. destruct (Hdata eq_refl) as (data & Hd & Hb). cbn [cb_buf harp_cbuf_reset app] in Hb.
  destruct (self_pump_calm (cb_len b) spins c1) as [Hc2 Hcr]. destruct (self_pump _ _ _ _ _ c1) as [[spins'|] c2]; [|done]. cbn [fst snd] in *.
  pose proof (calm_trans _ _ _ Hc1 Hc2) as [G2 [t2 P2] Q2 D2]. specialize (Hcr ltac:(by eexists)). destruct (G2 Hf) as [F2 K2].
  unfold link_out. destruct (msg_send HARP_STREAM_OBJ (cb_buf b) _) as [sent l2] eqn:Es. cbn [cl_link cl_set_credit] in Es. destruct sent; [|done].
  set (c3 := cl_set_sendq _ _). intros Hrun.
  assert (files c3 = files c2) as Hf3 by done.
  assert (passed [Sent (HARP_STREAM_OBJ, data)] [data] c2 c3) as P3.
  { split; [rewrite <- Hb; exact (Hsend _ _ _ _ _ Es)|]. split; [done|]. cbn [ledger ledger_step fst snd].
    rewrite Z.eqb_refl. unfold cb_len in Hcr. rewrite Hb in Hcr. apply Z.leb_le in Hcr. rewrite Hcr.
    unfold c3. cbn [cl_credit cl_set_sendq cl_set_link cl_set_credit]. unfold cb_len. by rewrite Hb. }
  destruct (IH l spins' b c3 c') as (t & datas & I1 & I2 & I3 & I4 & I5 & I6); [| | |done| |exact Hrun|].
  - by apply (proj1 (grows_refl s c2 c3 Hf3 F2)).
  - unfold c3. cbn [cl_sendq cl_set_sendq cl_set_link cl_set_credit]. rewrite Q2. exact Hok.
  - unfold c3. cbn [cl_sendq cl_set_sendq cl_set_link cl_set_credit]. rewrite Q2. exact Hpop.
  - cbn [length] in Hn. lia.
  - exists ((t2 ++ [Sent (HARP_STREAM_OBJ, data)]) ++ t), (data :: datas). split.
    + exact (passed_trans _ _ _ _ _ _ _ (passed_trans _ _ [] _ _ _ _ P2 P3) I1).
    + split; [|split_and!; try done].
      * constructor; [|exact I2]. apply (I3 (proj1 (grows_refl s c2 c3 Hf3 F2))); [done|]. apply K2; [done|exact Hd].
      * apply (grows_trans _ _ c2); [exact G2|]. apply (grows_trans _ _ c3); [by apply grows_refl|exact I3].
      * rewrite I4. exact D2.
Qed.

(** ** The local closure *)

Lemma closure_run K turns : (length K < HARP_CLIENT_MAX_CLOSURE)%nat -> forall clo cur c r c',
  local_closure s turns clo cur c = (Some r, c') -> fine s c -> within K clo -> (forall h y, h ∈ K -> refers s (files c) h y -> y ∈ K) ->
  (forall h, h ∈ take cur clo -> held s c h /\ forall y, refers s (files c) h y -> y ∈ clo) ->
  calm c c' /\ files c' = files c /\ within K r /\ clo ⊆ r /\ forall h, h ∈ r -> held s c h /\ forall y, refers s (files c) h y -> y ∈ r.
Proof.
  intros HK. induction turns as [|turns IH]; intros clo cur c r c' Hrun Hf Hw Hcl Hdone; cbn [local_closure] in Hrun;
    destruct (clo !! cur) as [h|] eqn:Eh; try discriminate Hrun.
  1,3: injection Hrun as <- <-; split; [by apply calm_refl|]; split; [done|]; split; [done|]; split; [done|];
    intros h Hh; apply Hdone; rewrite take_ge; [done|by apply lookup_ge_None].
  unfold on_cstore in Hrun. destruct (store_get_run s h harp_cbuf_init (cl_world c)) as ([ok b] & w1 & E & Hwf & Hdata). rewrite E in Hrun. cbn [fst snd] in Hdata.
  destruct ok; [|discriminate Hrun]. destruct (Hdata eq_refl) as (data & Hd & Hb). cbn [cb_buf harp_cbuf_init app] in Hb.
  rewrite foreach_children, collect_never_stops in Hrun. cbn [snd] in Hrun. rewrite Tauto.if_same in Hrun.
  pose proof Hw as (_ & Hh & HhK). rewrite Forall_forall in Hh. assert (h ∈ clo) as Hin by (by eapply list_elem_of_lookup_2).
  assert (Forall is_hash (child_hashes false (cb_buf b)).2) as Hch by (apply children_hashes; rewrite Hb; apply (proj2 Hf h); auto).
  assert (forall y, y ∈ (child_hashes false (cb_buf b)).2 <-> refers s (files c) h y) as Href.
  { intros y. split; [intros Hy; exists (cb_buf b); by rewrite Hb in *|]. intros (e & He & Hy). rewrite Hd in He. injection He as <-. by rewrite Hb. }
  destruct (collect_within K _ HK Hch ltac:(intros y Hy; apply (Hcl h); [by apply HhK|by apply Href]) clo Hw) as (W & W1 & W2 & k & W3).
  set (clo' := run_all _ _ clo) in *. set (c1 := cl_set_world w1 c) in *.
  destruct (IH clo' (S cur) c1 r c' Hrun) as (C1 & C2 & C3 & C4 & C5).
  - by apply (proj1 (grows_refl s c c1 Hwf Hf)).
  - exact W.
  - unfold c1. cbn [cl_world cl_set_world]. by rewrite Hwf.
  - unfold held, c1. cbn [cl_world cl_set_world]. rewrite Hwf. intros x Hx.
    erewrite take_S_r in Hx by (rewrite W3; by apply lookup_app_l_Some). apply elem_of_app in Hx as [Hx|Hx%list_elem_of_singleton].
    + rewrite W3, take_app_le in Hx by (apply lookup_lt_Some in Eh; lia). destruct (Hdone x Hx) as [H1 H2]. split; [exact H1|]. intros y Hy. apply W1; auto.
    + subst x. split; [by eexists|]. intros y Hy. by apply W2, Href.
  - split; [apply (calm_trans _ c1); [by apply calm_refl|exact C1]|]. split; [by rewrite C2|]. split; [done|]. split; [by etransitivity|].
    unfold held, c1 in C5. cbn [cl_world cl_set_world] in C5. by rewrite Hwf in C5.
Qed.

(** ** Queueing what is missing *)

Lemma enqueue_run l : forall c, sendq_ok (cl_sendq c) -> (length (queued (cl_sendq c)) + length l <= HARP_CLIENT_SENDQ_CAP)%nat ->
  let c' := fold_left (fun c h => csendq_push h c) l c in
  cl_world c' = cl_world c /\ cl_link c' = cl_link c /\ cl_drops c' = cl_drops c /\ cl_credit c' = cl_credit c /\
  sendq_ok (cl_sendq c') /\ queued (cl_sendq c') = queued (cl_sendq c) ++ l.
Proof.
  induction l as [|h l IH]; intros c Hq Hn; cbn [fold_left]; cbv zeta; [by rewrite app_nil_r|]. cbn [length] in Hn.
  assert (length (queued (cl_sendq c)) = sq_count (cl_sendq c)) as Hl by (unfold queued; by rewrite length_map, length_seq). rewrite Hl in Hn.
  assert (sq_count (cl_sendq c) < HARP_SENDQ_CAP)%nat as Hlt by (change HARP_SENDQ_CAP with HARP_CLIENT_SENDQ_CAP; lia).
  unfold csendq_push at 2 4 6 8 10 12. replace (sq_count (cl_sendq c) =? HARP_CLIENT_SENDQ_CAP)%nat with false by (symmetry; apply Nat.eqb_neq; change HARP_CLIENT_SENDQ_CAP with HARP_SENDQ_CAP; lia).
  destruct (queued_push (cl_sendq c) h Hq Hlt) as [P1 P2]. set (c1 := cl_set_sendq _ c).
  change (mk_sendq _ _ _ _) with (cl_sendq c1) in P1, P2.
  destruct (IH c1 P1) as (I1 & I2 & I3 & I4 & I5 & I6).
  - rewrite P2, length_app. cbn [length]. lia.
  - rewrite I1, I2, I3, I4, I6, P2, <- app_assoc. done.
Qed.

Lemma missing_sublist clo : forall have, sublist (missing_of clo have) clo.
Proof.
  induction clo as [|h clo IH]; intros [|b have]; cbn [missing_of]; [constructor|constructor|apply sublist_nil_l|].
  destruct b; [apply sublist_cons, IH|apply sublist_skip, IH].
Qed.

Lemma total_calm l : forall enc total c, calm c (total_size s l enc total c).2 /\ files (total_size s l enc total c).2 = files c.
Proof.
  induction l as [|h l IH]; intros enc total c; cbn [total_size]; [split; [by apply calm_refl|done]|]. unfold on_cstore.
  destruct (store_get_run s h (harp_cbuf_reset enc) (cl_world c)) as ([ok b] & w1 & -> & Hw & _). set (c1 := cl_set_world w1 c).
  assert (calm c c1) as Hc by by apply calm_refl.
  destruct ok; match goal with |- calm _ (total_size _ _ ?e ?t _).2 /\ _ => destruct (IH e t c1) as [H1 H2] end;
    (split; [exact (calm_trans _ _ _ Hc H1)|by rewrite H2]).
Qed.

(** C7: a push sends what is missing, in order, within the credit.  When
    [harp_client_push_closure] returns 0, the local closure of the root was complete
    (a closure of fewer than 512 objects is collected whole), the device answered the first
    request, and the objects that went out are exactly those of the closure, in its
    order, that this answer marks as not held - as many as the call reports - each
    with the bytes stored under its hash; nothing was dropped from the queue, which is
    empty again; and the ledger of what passed over the link holds: every object went out within
    the credit there was - what the client had, the grants heard before it added and the
    bytes of the objects before it taken away - and the client's credit is what remains.
    Whatever else arrives meanwhile.  The closure is one of fewer than 512 objects, and
    [fflush] is assumed to report what it could not write. *)
Theorem push_exact (root : harp_hash) (K : list harp_hash) c c' (sent already : nat) :
  fine s c -> is_hash root -> sendq_ok (cl_sendq c) -> queued (cl_sendq c) = [] ->
  harp_client_push_closure (Some s) hooked force_grant fuel root c = (Some (ROk (sent, already)), c') ->
  root ∈ K -> (forall h y, h ∈ K -> refers s (files c) h y -> y ∈ K) -> (length K < HARP_CLIENT_MAX_CLOSURE)%nat ->
  exists clo missing t datas,
    (forall h, reach s (files c) root h -> h ∈ clo) /\ (forall h, h ∈ clo -> held s c h) /\ NoDup clo /\ sublist missing clo /\
    length missing = sent /\ length clo = (sent + already)%nat /\
    (exists e, response_to (u64 (cl_rid c + 1)) e /\ missing = missing_of clo (body_parse (have_in (length clo)) e [])) /\
    trace (cl_link c') = trace (cl_link c) ++ t /\ objs_sent t = map (fun d => (HARP_STREAM_OBJ, d)) datas /\
    Forall2 (holds_data c') missing datas /\ ledger t (cl_credit c) = Some (cl_credit c') /\
    cl_drops c' = cl_drops c /\ queued (cl_sendq c') = [] /\ grows s c c'.
Proof.
  intros Hf Hr Hq Hqe Hrun HrK Hcl HK. unfold harp_client_push_closure in Hrun. change (list_collect root []).2 with [root] in Hrun.
  destruct (local_closure _ _ _ _ c) as [[clo|] c1] eqn:Elc; [|discriminate Hrun].
  destruct (closure_run K _ HK _ _ _ _ _ Elc Hf) as (C1 & E1 & Wk & Hin & Hclo).
  { split; [apply NoDup_singleton|]. split; [by apply Forall_singleton|]. intros x Hx%list_elem_of_singleton. by subst. }
  { exact Hcl. } { by intros h Hh%elem_of_nil. }
  assert (forall h, reach s (files c) root h -> h ∈ clo) as Hreach.
  { intros h Hh. induction Hh as [|x y _ IH Hy]; [apply Hin; left|]. by apply (Hclo x). }
  assert (forall h, h ∈ clo -> held s c h) as Hheld by (intros h Hh; by apply Hclo).
  unfold harp_client_req_head in Hrun. cbv zeta in Hrun. set (c2 := cl_set_rid _ c1) in Hrun.
  match type of Hrun with context [harp_client_request _ _ _ _ ?req ?rsp c2] => pose proof (request_calm req rsp c2) as C3; set (x := harp_client_request (Some s) hooked force_grant fuel req rsp c2) in * end.
  assert (calm c c2) as C2 by (apply (calm_trans _ c1); [exact C1|by apply calm_refl]).
  assert (cl_rid c2 = u64 (cl_rid c + 1)) as Hrid by (unfold c2; rewrite <- (closure_rid HARP_CLIENT_MAX_CLOSURE [root] 0 c), Elc; reflexivity).
  destruct x as [[[[e|rc] rsp]|] c3] eqn:Ex; cbn [snd] in C3; try discriminate Hrun. pose proof (calm_trans _ _ _ C2 C3) as C4.
  apply request_correlated in Ex. rewrite Hrid in Ex. clear Hrid. clearbody c2. clear C1 C2 C3.
  set (missing := missing_of clo _) in Hrun. assert (exists e, response_to (u64 (cl_rid c + 1)) e /\ missing = missing_of clo (body_parse (have_in (length clo)) e [])) as Hans by by exists e.
  pose proof (missing_sublist clo (body_parse (have_in (length clo)) e [])) as Hsub. fold missing in Hsub. clearbody missing.
  pose proof (sublist_length _ _ Hsub) as Hlen. pose proof Wk as (Hnd & Hh & _).
  assert (Forall is_hash missing) as Hmh by (apply Forall_forall; intros y Hy; rewrite Forall_forall in Hh; apply Hh; by eapply (elem_of_submseteq _ _ _ Hy), sublist_submseteq). assert (length clo <= length K)%nat as HloK by (by apply within_short).
  exists clo, missing. destruct (Nat.eqb_spec (length missing) 0) as [Hz|Hnz].
  - injection Hrun as <- <- <-. destruct C4 as [G4 [t4 (P4 & P5 & P6)] Q4 D4]. apply length_zero_iff_nil in Hz. subst missing. exists t4, [].
    rewrite Q4. split_and!; try done. cbn [length]. lia.
  - unfold mbind, SM_bind in Hrun. unfold push_missing in Hrun.
    pose proof (total_calm missing harp_cbuf_init 0 c3) as [T1 _]. destruct (total_size _ _ _ _ c3) as [total c5]. cbn [snd] in T1.
    unfold harp_client_req_head in Hrun. cbv zeta in Hrun. set (c6 := cl_set_rid _ c5) in Hrun.
    match type of Hrun with context [harp_client_request _ _ _ _ ?req ?rsp c6] => pose proof (request_calm req rsp c6) as C7; set (x2 := harp_client_request (Some s) hooked force_grant fuel req rsp c6) in * end.
    assert (calm c c6) as C6 by (apply (calm_trans _ c5); [exact (calm_trans _ _ _ C4 T1)|by apply calm_refl]).
    destruct x2 as [[[[e2|rc] rsp2]|] c7]; cbn [snd] in C7; try discriminate Hrun. pose proof (calm_trans _ _ _ C6 C7) as [G8 [t8 P8] Q8 D8]. clear C4 T1 C6 C7. clearbody c6.
    destruct (enqueue_run missing c7) as (N1 & N2 & N3 & N4 & N5 & N6).
    { by rewrite Q8. } { rewrite Q8, Hqe. cbn [length]. unfold HARP_CLIENT_SENDQ_CAP, HARP_CLIENT_MAX_CLOSURE in *. lia. }
    rewrite Q8, Hqe in N6. cbn [app] in N6. set (c9 := fold_left _ missing c7) in *. clearbody c9.
    unfold csendq_flush in Hrun. destruct (csend_loop _ _ _ _ _ _ _ c9) as [[[]|] c10] eqn:Ef; cbn [mret SM_ret res_map] in Hrun; [|discriminate Hrun].
    injection Hrun as <- <- <-. destruct (G8 Hf) as [F8 KK8]. assert (fine s c9) as F9 by (unfold fine; by rewrite N1).
    assert (sq_count (cl_sendq c9) = length missing) as Hcnt by (rewrite <- N6; unfold queued; by rewrite length_map, length_seq).
    destruct (flush_run _ missing _ _ _ _ F9 N5 N6 Hmh (Nat.eq_le_incl _ _ (eq_sym Hcnt)) Ef) as (t & datas & I1 & I2 & I3 & I4 & I5 & I6).
    assert (passed (t8 ++ t) datas c c10) as (P1 & P2 & P3).
    { apply (passed_trans t8 ([] ++ t) [] datas c c7 c10 P8), (passed_trans [] t [] datas c7 c9 c10); [by apply passed_nil|exact I1]. }
    exists (t8 ++ t), datas. split_and!; try done; [lia|by rewrite I4, N3, D8|].
    + apply (grows_trans _ _ c7); [exact G8|]. apply (grows_trans _ _ c9); [apply grows_refl; by rewrite N1|exact I3].
Qed.
End push.

(** ** A concrete push *)

(** A peer with a fixed sequence of messages, and the record of what passed. *)
Definition taped : Type := script * list wire.
Definition taped_send : MsgLink taped := fun strm data l => (true, (l.1, l.2 ++ [Sent (strm, data)])).
Definition taped_next : MsgRecv taped := fun l => let '(m, i) := script_recv l.1 in (m, (i, l.2 ++ match m with Some m => [Heard m] | None => [] end)).

Section demo.
#[local] Existing Instances taped_send taped_next alloc_all os_good no_faults.

Definition demo_reply (rid : Z) (method : list Z) (have : option (list bool)) : Z * list Z :=
  let b := harp_env_head harp_cbuf_init HARP_MSG_RESPONSE rid method (match have with Some _ => true | None => false end) in
  (HARP_STREAM_CTL, cb_buf (match have with Some l => fold_left harp_cbor_bool l (harp_cbor_array (harp_cbor_uint (harp_cbor_map b 1) 0) (zlen l)) | None => b end)).
Definition demo_grant (n : Z) : Z * list Z :=
  (HARP_STREAM_CTL, cb_buf (harp_cbor_uint (harp_cbor_uint (harp_cbor_map (harp_env_head harp_cbuf_init HARP_MSG_NOTIFICATION 0 (str "core.credit") true) 1) 0) n)).
(** The device has the second object of three; the credit comes late, in two parts. *)
Definition demo_tape : taped := ([demo_reply 1 (str "state.have") (Some [false; true; false]); demo_reply 2 (str "state.send") None; demo_grant 60; demo_grant 100], []).
Abbreviation demo_filled := (cl_world (demo_fetch 2 2).2).
Definition demo_push : option (res (nat * nat)) * client taped :=
  harp_client_push_closure (Some s_dir) false None 10 (harp_hash_compute (demo_list 2)) (harp_client_init demo_tape demo_filled).

Lemma demo_push_returns : demo_push.1 = Some (ROk (2%nat, 1%nat)).
Proof. vm_compute. reflexivity. Qed.

Lemma taped_bytes l m l' : taped_next l = (Some m, l') -> bytes_ok m.2.
Proof.
  unfold taped_next. destruct (script_recv l.1) as [m0 i] eqn:E. intros [= -> <-]. exact (demo_recv_bytes _ _ _ E).
Qed.

Lemma files_init (l : taped) w : w_fs (cl_world (harp_client_init l w)) = w_fs w.
Proof. reflexivity. Qed.

(** The store the fetch of [FetchSpec] filled is in order. *)
Lemma demo_filled_fine : fine s_dir (harp_client_init demo_tape demo_filled).
Proof.
  assert flush_reliable as Hfl by (intros t; reflexivity).
  assert (dir_ok s_dir) as Hs by (unfold dir_ok, STORE_DIR_MAX; cbn; lia).
  assert reads_ok as Hrd by (split; [intros t; reflexivity|]; split; intros t; reflexivity).
  pose proof (@fetch_grows script script_send script_recv _ _ _ s_dir false None 10 Hfl Hs Hrd demo_recv_bytes (harp_hash_compute (demo_list 2))
    (harp_client_init (demo_script 2 2) (world_of fs_empty)) (is_hash_compute _)) as H.
  fold (demo_fetch 2 2) in H. unfold grows in H. destruct H as [H _].
  - split; [exact fs_empty_no_obj_dirs|]. intros h y _. unfold obj_data. cbn [cl_world harp_client_init world_of w_fs fs_empty fs_files]. by rewrite lookup_empty.
  - unfold fine in *. rewrite !files_init. exact H.
Qed.

Lemma demo_filled_refs h y : h ∈ demo_closure -> refers s_dir (w_fs (cl_world (harp_client_init demo_tape demo_filled))) h y -> y ∈ demo_closure.
Proof.
  intros Hh (e & He & Hy). pose proof demo_refs_closed as Hc. unfold demo_refs_ok in Hc. rewrite forallb_forall in Hc. apply list_elem_of_In, Hc in Hh.
  rewrite files_init in He. rewrite He in Hh.
  rewrite forallb_forall in Hh. apply list_elem_of_In, Hh in Hy. by apply bool_decide_eq_true in Hy.
Qed.

Lemma csendq_ok : sendq_ok csendq_empty.
Proof. split; try reflexivity; unfold HARP_SENDQ_CAP; cbn [csendq_empty sq_head sq_count]; lia. Qed.

Lemma push_exact_witness :
  exists c' : client taped, demo_push = (Some (ROk (2%nat, 1%nat)), c') /\
    exists missing datas, length missing = 2%nat /\
      objs_sent (snd (cl_link c')) = map (fun d => (HARP_STREAM_OBJ, d)) datas /\
      Forall2 (holds_data s_dir c') missing datas /\ ledger (snd (cl_link c')) 0 = Some (cl_credit c').
Proof.
  pose proof demo_push_returns as Hr. destruct demo_push as [r c'] eqn:E. cbn [fst] in Hr. subst r.
  exists c'. split; [reflexivity|]. unfold demo_push in E.
  destruct (push_exact s_dir false None 10) with (trace := @snd script (list wire)) (K := demo_closure) (c := harp_client_init demo_tape demo_filled)
    (root := harp_hash_compute (demo_list 2)) (c' := c') (sent := 2%nat) (already := 1%nat)
    as (clo & missing & t & datas & _ & _ & _ & _ & H5 & _ & _ & H6 & H7 & H8 & H9 & _); try exact E.
  - intros t. reflexivity.
  - unfold dir_ok, STORE_DIR_MAX. cbn. lia.
  - exact taped_bytes.
  - intros strm data l ok l' [= <- <-]. reflexivity.
  - intros l m l'. unfold msg_next, taped_next. destruct (script_recv l.1). by intros [= <- <-].
  - exact demo_filled_fine.
  - apply is_hash_compute.
  - exact csendq_ok.
  - reflexivity.
  - left.
  - exact demo_filled_refs.
  - cbn. unfold HARP_CLIENT_MAX_CLOSURE. lia.
  - exists missing, datas. change (snd (cl_link c') = t) in H6. rewrite H6. split_and!; [exact H5|exact H7|exact H8|exact H9].
Defined.
End demo.
