(* ===== verification/Ring.v ===== *)
(** * The rings between the audio thread and the feeder

    shell/ring.h: [SpscRing], the single-producer single-consumer ring of events, and
    [FloatRing], the same for blocks of samples.  The cursors are [size_t] and only
    ever grow, so they wrap at 2^64; the capacity is a power of two.  The steps of the
    two threads interleave; memory is sequentially consistent. *)
From Stdlib Require Import ZArith Lia List Bool.
From stdpp Require Import base tactics list relations.
From S2P Require Import Prelude.
Open Scope Z_scope.
Open Scope list_scope.

(** ** [SpscRing] *)

Section spsc.
Context {T : Type} (kCap : Z).

Record spsc_ring := mk_ring { rg_buf : list T; rg_head : Z; rg_tail : Z }.
Definition rg_slot (i : Z) : nat := Z.to_nat (Z.land i (kCap - 1)).
Definition rg_put (h : Z) (e : T) (r : spsc_ring) : spsc_ring := mk_ring (<[rg_slot h := e]> (rg_buf r)) (rg_head r) (rg_tail r).
Definition rg_set_head (h : Z) (r : spsc_ring) : spsc_ring := mk_ring (rg_buf r) h (rg_tail r).
Definition rg_set_tail (t : Z) (r : spsc_ring) : spsc_ring := mk_ring (rg_buf r) (rg_head r) t.

(** A push or pop while the other side rests. *)
Definition ring_push (e : T) (r : spsc_ring) : bool * spsc_ring :=
  let h := rg_head r in
  let t := rg_tail r in
  if kCap <=? u64 (h - t) then (false, r) else (true, rg_set_head (u64 (h + 1)) (rg_put h e r)).
Definition ring_pop (r : spsc_ring) : option T * spsc_ring :=
  let t := rg_tail r in
  if t =? rg_head r then (None, r) else (rg_buf r !! rg_slot t, rg_set_tail (u64 (t + 1)) r).
Definition ring_empty (r : spsc_ring) : bool := rg_tail r =? rg_head r.

(** Where a thread is within a call, with what it has loaded. *)
Inductive producer :=
  | PIdle
  | PLoaded (e : T) (h t : Z)
  | PStored (e : T) (h : Z).
Inductive consumer :=
  | CIdle
  | CLoaded (t h : Z)
  | CRead (t : Z) (v : option T).

(** [du_in]: what was accepted; [du_out]: what was popped; in order. *)
Record duo := mk_duo { du_ring : spsc_ring; du_prod : producer; du_cons : consumer; du_in : list T; du_out : list (option T) }.

Inductive ring_step : duo -> duo -> Prop :=
  | step_push r c i o e : ring_step (mk_duo r PIdle c i o) (mk_duo r (PLoaded e (rg_head r) (rg_tail r)) c i o)
  | step_refuse r c i o e h t : kCap <= u64 (h - t) -> ring_step (mk_duo r (PLoaded e h t) c i o) (mk_duo r PIdle c i o)
  | step_store r c i o e h t : u64 (h - t) < kCap -> ring_step (mk_duo r (PLoaded e h t) c i o) (mk_duo (rg_put h e r) (PStored e h) c i o)
  | step_pub r c i o e h : ring_step (mk_duo r (PStored e h) c i o) (mk_duo (rg_set_head (u64 (h + 1)) r) PIdle c (i ++ [e]) o)
  | step_pop r p i o : ring_step (mk_duo r p CIdle i o) (mk_duo r p (CLoaded (rg_tail r) (rg_head r)) i o)
  | step_none r p i o t : ring_step (mk_duo r p (CLoaded t t) i o) (mk_duo r p CIdle i o)
  | step_read r p i o t h : t <> h -> ring_step (mk_duo r p (CLoaded t h) i o) (mk_duo r p (CRead t (rg_buf r !! rg_slot t)) i o)
  | step_free r p i o t v : ring_step (mk_duo r p (CRead t v) i o) (mk_duo (rg_set_tail (u64 (t + 1)) r) p CIdle i (o ++ [v])).

(** ** Every interleaving *)

Context (Hcap : exists k, 0 <= k <= 63 /\ kCap = 2 ^ k).

Lemma kcap_pos : 0 < kCap <= 2 ^ 63.
Proof. destruct Hcap as (k & Hk & ->). split; [apply Z.pow_pos_nonneg; lia|apply Z.pow_le_mono_r; lia]. Qed.

Lemma slot_mod i : 0 <= i -> rg_slot (u64 i) = Z.to_nat (i mod kCap).
Proof.
  destruct Hcap as (k & Hk & E). intros Hi. unfold rg_slot. f_equal. rewrite E.
  replace (2 ^ k - 1) with (Z.ones k) by (rewrite Z.ones_equiv; lia). rewrite Z.land_ones by lia. unfold u64.
  assert (2 ^ 64 = 2 ^ k * 2 ^ (64 - k)) as -> by (rewrite <- Z.pow_add_r by lia; f_equal; lia).
  assert (0 < 2 ^ k) by (apply Z.pow_pos_nonneg; lia). assert (0 < 2 ^ (64 - k)) by (apply Z.pow_pos_nonneg; lia).
  rewrite Z.rem_mul_r by lia. rewrite Z.mul_comm, Z_mod_plus_full. apply Z.mod_mod. lia.
Qed.

Lemma ring_slot_lt i : (rg_slot (u64 i) < Z.to_nat kCap)%nat.
Proof.
  pose proof kcap_pos. pose proof (u64_range i) as [H1 H2]. rewrite <- (u64_small (u64 i)) by done. rewrite slot_mod by done.
  pose proof (Z.mod_pos_bound (u64 i) kCap). lia.
Qed.

(** Cursors at most a capacity apart have different slots. *)
Lemma slot_differs i j : 0 <= i -> i < j < i + kCap -> rg_slot (u64 i) <> rg_slot (u64 j).
Proof.
  intros Hi Hj E. pose proof kcap_pos. rewrite !slot_mod in E by lia.
  pose proof (Z.mod_pos_bound i kCap ltac:(lia)). pose proof (Z.mod_pos_bound j kCap ltac:(lia)).
  assert (i mod kCap = j mod kCap) as E2 by lia.
  pose proof (Z.div_mod i kCap ltac:(lia)). pose proof (Z.div_mod j kCap ltac:(lia)). rewrite E2 in *.
  assert (j - i = kCap * (j / kCap - i / kCap)) as Em by (rewrite Z.mul_sub_distr_l; lia).
  clear H2 H3. set (m := j / kCap - i / kCap) in *. clearbody m. destruct (Z.le_gt_cases m 0); nia.
Qed.

Lemma cursor_gap i j : 0 <= i <= j -> j - i <= kCap -> u64 (u64 j - u64 i) = j - i.
Proof.
  intros Hi Hj. pose proof kcap_pos. unfold u64. rewrite <- Zminus_mod. apply Z.mod_small. lia.
Qed.

Lemma cursor_inj i j : 0 <= i <= j -> j - i <= kCap -> u64 i = u64 j -> i = j.
Proof. intros Hi Hj E. pose proof (cursor_gap i j Hi Hj) as G. rewrite E, Z.sub_diag in G. change (u64 0) with 0 in G. lia. Qed.

Lemma cursor_next i : u64 (u64 i + 1) = u64 (i + 1).
Proof. unfold u64. apply Zplus_mod_idemp_l. Qed.

Abbreviation nin s := (zlen (du_in s)).
Abbreviation nout s := (zlen (du_out s)).

Definition prod_inv (s : duo) : Prop :=
  match du_prod s with
  | PIdle => True
  | PLoaded _ h t => h = u64 (nin s) /\ exists t', t = u64 t' /\ 0 <= t' <= nout s /\ nin s - t' <= kCap
  | PStored e h => h = u64 (nin s) /\ nin s - nout s < kCap /\ rg_buf (du_ring s) !! rg_slot h = Some e
  end.
Definition cons_inv (s : duo) : Prop :=
  match du_cons s with
  | CIdle => True
  | CLoaded t h => t = u64 (nout s) /\ exists h', h = u64 h' /\ nout s <= h' <= nin s
  | CRead t v => t = u64 (nout s) /\ nout s < nin s /\ v = du_in s !! length (du_out s)
  end.

Record duo_ok (s : duo) : Prop := {
  ok_len : length (rg_buf (du_ring s)) = Z.to_nat kCap;
  ok_head : rg_head (du_ring s) = u64 (nin s);
  ok_tail : rg_tail (du_ring s) = u64 (nout s);
  ok_room : 0 <= nin s - nout s <= kCap;
  ok_live : forall i, nout s <= Z.of_nat i < nin s -> rg_buf (du_ring s) !! rg_slot (u64 (Z.of_nat i)) = du_in s !! i;
  ok_out : du_out s = map Some (take (length (du_out s)) (du_in s));
  ok_prod : prod_inv s;
  ok_cons : cons_inv s }.

Lemma zlen_snoc {A} (l : list A) x : zlen (l ++ [x]) = zlen l + 1.
Proof. rewrite zlen_app. reflexivity. Qed.

Lemma store_ok r c i o e h t : duo_ok (mk_duo r (PLoaded e h t) c i o) -> u64 (h - t) < kCap ->
  duo_ok (mk_duo (rg_put h e r) (PStored e h) c i o).
Proof.
  intros [B1 B2 B3 B4 B5 B6 B7 B8] Hlt. unfold prod_inv in B7. cbn in *. destruct B7 as (-> & t' & -> & Ht & Hr).
  pose proof (zlen_nonneg o). pose proof kcap_pos. rewrite cursor_gap in Hlt by lia.
  assert (rg_slot (u64 (zlen i)) < length (rg_buf r))%nat as Hs by (rewrite B1; apply ring_slot_lt).
  split; cbn; try done.
  - by rewrite length_insert.
  - intros k Hk. rewrite list_lookup_insert_ne; [by apply B5|]. apply not_eq_sym, slot_differs; lia.
  - unfold prod_inv. cbn. split; [done|]. split; [lia|]. by apply list_lookup_insert_eq.
Qed.

Lemma pub_ok r c i o e h : duo_ok (mk_duo r (PStored e h) c i o) -> duo_ok (mk_duo (rg_set_head (u64 (h + 1)) r) PIdle c (i ++ [e]) o).
Proof.
  intros [B1 B2 B3 B4 B5 B6 B7 B8]. unfold prod_inv in B7. cbn in *. destruct B7 as (-> & Hlt & Hs). pose proof (zlen_nonneg o).
  assert (length o <= length i)%nat as Ho by (unfold zlen in *; lia).
  split; cbn; rewrite ?zlen_snoc; try done.
  - apply cursor_next.
  - lia.
  - intros k Hk. destruct (decide (Z.of_nat k = zlen i)) as [E|E].
    + rewrite E, Hs. replace k with (length i) by (unfold zlen in E; lia). by rewrite list_lookup_middle.
    + rewrite B5 by lia. rewrite lookup_app_l; [done|]. unfold zlen in *. lia.
  - by rewrite take_app_le.
  - unfold cons_inv in *. cbn in *. rewrite ?zlen_snoc. destruct c as [|t h'|t v]; [done|..].
    + destruct B8 as (-> & h2 & -> & Hh). split; [done|]. exists h2. split; [done|lia].
    + destruct B8 as (-> & Hn & ->). split; [done|]. split; [lia|]. rewrite lookup_app_l; [done|]. unfold zlen in *. lia.
Qed.

Lemma free_ok r p i o t v : duo_ok (mk_duo r p (CRead t v) i o) -> duo_ok (mk_duo (rg_set_tail (u64 (t + 1)) r) p CIdle i (o ++ [v])).
Proof.
  intros [B1 B2 B3 B4 B5 B6 B7 B8]. unfold cons_inv in B8. cbn in *. destruct B8 as (-> & Hn & ->). pose proof (zlen_nonneg o).
  assert (length o < length i)%nat as Hl by (unfold zlen in *; lia). destruct (lookup_lt_is_Some_2 _ _ Hl) as [x Hx].
  split; cbn; rewrite ?zlen_snoc; try done.
  - apply cursor_next.
  - lia.
  - intros k Hk. apply B5. lia.
  - rewrite length_app. cbn [length]. rewrite Nat.add_1_r. erewrite take_S_r by done. by rewrite map_app, <- B6, Hx.
  - unfold prod_inv in *. cbn in *. rewrite ?zlen_snoc. destruct p as [|e h t|e h]; [done|..].
    + destruct B7 as (-> & t' & -> & Ht & Hr). split; [done|]. exists t'. split; [done|]. lia.
    + destruct B7 as (-> & Hlt & Hs). split; [done|]. split; [lia|done].
Qed.

Lemma duo_ok_step s s' : ring_step s s' -> duo_ok s -> duo_ok s'.
Proof.
  intros Hst Hok. destruct Hst as [r c i o e|r c i o e h t Hf|r c i o e h t Hf|r c i o e h|r p i o|r p i o t|r p i o t h Hne|r p i o t v];
    [| |exact (store_ok _ _ _ _ _ _ _ Hok Hf)|exact (pub_ok _ _ _ _ _ _ Hok)| | | |exact (free_ok _ _ _ _ _ _ Hok)]; destruct Hok as [B1 B2 B3 B4 B5 B6 B7 B8]; cbn in *; split; cbn; try done.
  - unfold prod_inv. cbn. split; [done|]. exists (zlen o). split; [done|]. pose proof (zlen_nonneg o). lia.
  - unfold cons_inv. cbn. split; [done|]. exists (zlen i). split; [done|]. lia.
  - unfold cons_inv in *. cbn in *. destruct B8 as (-> & h' & -> & Hh). pose proof (zlen_nonneg o). split; [done|].
    assert (zlen o < zlen i) by (destruct (decide (zlen o = h')); [congruence|lia]). split; [lia|].
    rewrite <- B5; [done|]. unfold zlen in *. lia.
Qed.

Definition duo_init (buf : list T) : duo := mk_duo (mk_ring buf 0 0) PIdle CIdle [] [].

Lemma duo_init_ok buf : length buf = Z.to_nat kCap -> duo_ok (duo_init buf).
Proof. intros Hl. pose proof kcap_pos. split; try done; unfold zlen; cbn; [lia|]. intros i Hi. lia. Qed.

Lemma reach_ok buf s : length buf = Z.to_nat kCap -> rtc ring_step (duo_init buf) s -> duo_ok s.
Proof.
  intros Hl Hr. assert (duo_ok (duo_init buf)) as H by by apply duo_init_ok. revert H.
  induction Hr as [|? ? ? Hst _ IH]; [done|]. intros H. apply IH. by eapply duo_ok_step.
Qed.

(** C17: the ring is a bounded queue under every interleaving of its two threads,
    wrapped cursors included.  In every state that the steps of a producer and a
    consumer reach from an empty ring: what was popped is a prefix of what was
    accepted, in order, none lost and none twice; at most [kCap] items are waiting; a
    push that found the ring full found [kCap] items not yet handed over; and a call
    made while the other thread rests is a queue operation on the waiting items. *)
Theorem ring_fifo buf s : length buf = Z.to_nat kCap -> rtc ring_step (duo_init buf) s ->
  exists waiting, map Some (du_in s) = du_out s ++ map Some waiting /\ zlen waiting <= kCap /\
    (du_prod s = PIdle -> forall e, (ring_push e (du_ring s)).1 = (zlen waiting <? kCap)) /\
    (du_cons s = CIdle -> (ring_pop (du_ring s)).1 = head waiting /\ ring_empty (du_ring s) = (zlen waiting =? 0)).
Proof.
  intros Hl Hr. pose proof (reach_ok _ _ Hl Hr) as [B1 B2 B3 B4 B5 B6 B7 B8]. pose proof kcap_pos. pose proof (zlen_nonneg (du_out s)).
  set (n := length (du_out s)) in *. exists (drop n (du_in s)).
  assert (zlen (drop n (du_in s)) = nin s - nout s) as Hw by (unfold zlen in *; rewrite length_drop; lia).
  split; [|split; [|split]].
  - rewrite B6 at 1. by rewrite <- map_app, take_drop.
  - lia.
  - intros _ e. unfold ring_push. rewrite B2, B3, cursor_gap by lia. rewrite Hw. destruct (Z.leb_spec kCap (nin s - nout s)); cbn [fst]; symmetry; [apply Z.ltb_ge|apply Z.ltb_lt]; lia.
  - intros _. unfold ring_pop, ring_empty. rewrite B2, B3, Hw. destruct (Z.eqb_spec (u64 (nout s)) (u64 (nin s))) as [E|E].
    + apply cursor_inj in E; [|lia..]. split; [|symmetry; apply Z.eqb_eq; lia]. cbn [fst]. rewrite drop_ge; [done|]. unfold zlen in *. lia.
    + assert (nout s <> nin s) by congruence. split; [|symmetry; apply Z.eqb_neq; lia]. cbn [fst].
      change (zlen (du_out s)) with (Z.of_nat n). rewrite B5 by (unfold zlen in *; lia).
      rewrite <- (Nat.add_0_r n) at 1. by rewrite <- lookup_drop, head_lookup.
Qed.

(** ** [FloatRing]: blocks *)

(** What is waiting in a ring, and where the cursors are. *)
Definition ring_rep (r : spsc_ring) (t : Z) (l : list T) : Prop :=
  length (rg_buf r) = Z.to_nat kCap /\ 0 <= t /\ rg_tail r = u64 t /\ rg_head r = u64 (t + zlen l) /\ zlen l <= kCap /\
  forall k, (k < length l)%nat -> rg_buf r !! rg_slot (u64 (t + Z.of_nat k)) = l !! k.

Definition read_available (r : spsc_ring) : Z := u64 (rg_head r - rg_tail r).
Definition write_available (r : spsc_ring) : Z := u64 (kCap - u64 (rg_head r - rg_tail r)).
(** The slots are filled one by one; the head is published once. *)
Fixpoint put_block (h : Z) (src : list T) (r : spsc_ring) : spsc_ring :=
  match src with
  | [] => r
  | x :: src => put_block (u64 (h + 1)) src (rg_put h x r)
  end.
Definition float_write (src : list T) (r : spsc_ring) : Z * spsc_ring :=
  let can := write_available r in
  let n := if can <? zlen src then can else zlen src in
  let h := rg_head r in
  (n, rg_set_head (u64 (h + n)) (put_block h (take (Z.to_nat n) src) r)).
Definition float_read (n : Z) (r : spsc_ring) : list (option T) * spsc_ring :=
  let can := read_available r in
  let n := if can <? n then can else n in
  let t := rg_tail r in
  (map (fun i => rg_buf r !! rg_slot (u64 (t + Z.of_nat i))) (seq 0 (Z.to_nat n)), rg_set_tail (u64 (t + n)) r).
Definition float_clear (r : spsc_ring) : Z * spsc_ring := let h := rg_head r in (h, rg_set_tail h r).

Lemma cursor_shift i n : u64 (u64 i + n) = u64 (i + n).
Proof. unfold u64. apply Zplus_mod_idemp_l. Qed.

Lemma rep_fill r t l : ring_rep r t l -> read_available r = zlen l /\ write_available r = kCap - zlen l.
Proof.
  intros (H1 & H2 & H3 & H4 & H5 & _). pose proof kcap_pos. pose proof (zlen_nonneg l). unfold read_available, write_available.
  rewrite H3, H4, cursor_gap by lia. replace (t + zlen l - t) with (zlen l) by lia. split; [done|]. unfold u64. apply Z.mod_small. lia.
Qed.

Lemma put_block_spec src : forall r t l, ring_rep r t l -> zlen l + zlen src <= kCap ->
  ring_rep (rg_set_head (u64 (t + zlen l + zlen src)) (put_block (u64 (t + zlen l)) src r)) t (l ++ src).
Proof.
  induction src as [|x src IH]; intros r t l Hrep Hn.
  - rewrite app_nil_r. cbn [put_block]. destruct Hrep as (H1 & H2 & H3 & H4 & H5 & H6). rewrite Z.add_0_r.
    unfold ring_rep. cbn. rewrite <- H4. done.
  - cbn [put_block]. rewrite zlen_cons in Hn. pose proof (zlen_nonneg src). pose proof (zlen_nonneg l). rewrite cursor_shift.
    destruct Hrep as (H1 & H2 & H3 & H4 & H5 & H6).
    set (r1 := rg_set_head (u64 (t + zlen (l ++ [x]))) (rg_put (u64 (t + zlen l)) x r)).
    assert (ring_rep r1 t (l ++ [x])) as Hr1.
    { unfold ring_rep, r1. cbn. rewrite length_insert. split; [done|]. split; [done|]. split; [done|]. split; [done|]. rewrite zlen_snoc. split; [lia|].
      rewrite length_app. cbn [length]. intros k Hk. destruct (decide (k = length l)) as [->|Hne].
      - change (Z.of_nat (length l)) with (zlen l). rewrite list_lookup_insert_eq; [by rewrite list_lookup_middle|]. rewrite H1. apply ring_slot_lt.
      - rewrite list_lookup_insert_ne; [|apply not_eq_sym, slot_differs; unfold zlen in *; lia]. rewrite lookup_app_l by lia. apply H6. lia. }
    specialize (IH r1 t (l ++ [x]) Hr1). rewrite zlen_snoc in IH. specialize (IH ltac:(lia)). rewrite <- app_assoc in IH. cbn [app] in IH.
    rewrite zlen_cons. replace (t + zlen l + (1 + zlen src)) with (t + (zlen l + 1) + zlen src) by lia.
    replace (t + zlen l + 1) with (t + (zlen l + 1)) by lia.
    (* the head the first put leaves is overwritten *)
    assert (forall s h a b, rg_set_head a (put_block h s (rg_set_head b (rg_put (u64 (t + zlen l)) x r))) = rg_set_head a (put_block h s (rg_put (u64 (t + zlen l)) x r))) as Hh.
    { clear. intros s. generalize (rg_put (u64 (t + zlen l)) x r). induction s as [|y s IHs]; intros q h a b; [done|]. cbn [put_block].
      change (rg_put h y (rg_set_head b q)) with (rg_set_head b (rg_put h y q)). apply IHs. }
    unfold r1 in IH. by rewrite Hh in IH.
Qed.

(** A push and a pop on what is waiting. *)
Lemma rep_push r t l e : ring_rep r t l ->
  if zlen l <? kCap then exists r', ring_push e r = (true, r') /\ ring_rep r' t (l ++ [e]) else ring_push e r = (false, r).
Proof.
  intros Hrep. pose proof (rep_fill _ _ _ Hrep) as [F1 _]. pose proof Hrep as (H1 & H2 & H3 & H4 & H5 & H6). unfold read_available in F1.
  unfold ring_push. rewrite F1. destruct (Z.ltb_spec (zlen l) kCap) as [Hlt|Hge]; [|by rewrite (proj2 (Z.leb_le _ _))].
  rewrite (proj2 (Z.leb_gt _ _)) by lia. eexists. split; [reflexivity|].
  pose proof (put_block_spec [e] r t l Hrep) as Hp. rewrite zlen_cons, zlen_nil in Hp. specialize (Hp ltac:(lia)).
  rewrite H4, cursor_shift. exact Hp.
Qed.

Lemma rep_pop r t l : ring_rep r t l ->
  match l with [] => ring_pop r = (None, r) | e :: l => exists r', ring_pop r = (Some e, r') /\ ring_rep r' (t + 1) l end.
Proof.
  intros (H1 & H2 & H3 & H4 & H5 & H6). unfold ring_pop. rewrite H3, H4. pose proof kcap_pos. destruct l as [|e l].
  - rewrite zlen_nil, Z.add_0_r. by rewrite Z.eqb_refl.
  - pose proof (zlen_nonneg l). rewrite zlen_cons in *.
    destruct (Z.eqb_spec (u64 t) (u64 (t + (1 + zlen l)))) as [E|E]; [apply cursor_inj in E; lia|].
    eexists. split; [f_equal|].
    + pose proof (H6 0%nat ltac:(cbn; lia)) as Hz. by rewrite Z.add_0_r in Hz.
    + unfold ring_rep. cbn. rewrite cursor_shift. split; [done|]. split; [lia|]. split; [done|]. split; [rewrite H4; f_equal; lia|]. split; [lia|].
      intros k Hk. specialize (H6 (S k) ltac:(cbn; lia)). change ((e :: l) !! S k) with (l !! k) in H6. rewrite <- H6. do 3 f_equal. lia.
Qed.

(** the sample ring is a bounded queue of samples.  Whatever the cursors'
    position, a block write takes as many samples as there is room for and appends
    exactly those; a block read returns the oldest samples, as many as are there; a
    clear empties the ring and returns the index of the next sample written. *)
Theorem float_ring_refines r t l : ring_rep r t l ->
  (forall src, let '(n, r') := float_write src r in
     n = Z.min (zlen src) (kCap - zlen l) /\ ring_rep r' t (l ++ take (Z.to_nat n) src)) /\
  (forall n, 0 <= n -> let '(out, r') := float_read n r in
     out = map Some (take (Z.to_nat n) l) /\ ring_rep r' (t + Z.min n (zlen l)) (drop (Z.to_nat n) l)) /\
  (let '(h, r') := float_clear r in h = u64 (t + zlen l) /\ ring_rep r' (t + zlen l) []).
Proof.
  intros Hrep. destruct (rep_fill _ _ _ Hrep) as [F1 F2]. pose proof Hrep as (H1 & H2 & H3 & H4 & H5 & H6). pose proof (zlen_nonneg l).
  split; [|split].
  - intros src. pose proof (zlen_nonneg src). unfold float_write. rewrite F2.
    assert ((if kCap - zlen l <? zlen src then kCap - zlen l else zlen src) = Z.min (zlen src) (kCap - zlen l)) as -> by (destruct (Z.ltb_spec (kCap - zlen l) (zlen src)); lia).
    set (n := Z.min _ _). assert (0 <= n <= zlen src /\ n <= kCap - zlen l) as Hb by lia. clearbody n.
    assert (zlen (take (Z.to_nat n) src) = n) as Hn by (unfold zlen in *; rewrite length_take; lia).
    split; [done|]. rewrite H4, cursor_shift. rewrite <- Hn at 1. apply put_block_spec; [done|]. lia.
  - intros n Hn. unfold float_read. rewrite F1.
    assert ((if zlen l <? n then zlen l else n) = Z.min n (zlen l)) as -> by (destruct (Z.ltb_spec (zlen l) n); lia).
    set (k := Z.min n (zlen l)). assert (take (Z.to_nat n) l = take (Z.to_nat k) l) as Et.
    { destruct (decide (n <= zlen l)); [by replace k with n by lia|]. rewrite !take_ge; [done|unfold zlen in *; lia..]. }
    assert (drop (Z.to_nat n) l = drop (Z.to_nat k) l) as Ed.
    { destruct (decide (n <= zlen l)); [by replace k with n by lia|]. rewrite !drop_ge; [done|unfold zlen in *; lia..]. }
    assert (0 <= k <= zlen l) as Hk by lia. clearbody k. rewrite Et, Ed. split.
    + apply list_eq. intros i. rewrite !list_lookup_fmap. destruct (decide (i < Z.to_nat k)%nat) as [Hi|Hi].
      * rewrite lookup_seq_lt by lia. rewrite lookup_take_lt by lia. cbn. rewrite H3, cursor_shift, H6 by (unfold zlen in *; lia).
        assert (i < length l)%nat as Hl by (unfold zlen in *; lia). by destruct (lookup_lt_is_Some_2 l i Hl) as [x ->].
      * rewrite lookup_seq_ge by lia. rewrite lookup_take_ge by lia. done.
    + unfold ring_rep. cbn. rewrite H3, H4, cursor_shift. unfold zlen in *. rewrite length_drop. split; [done|]. split; [lia|]. split; [done|].
      split; [f_equal; lia|]. split; [lia|]. intros i Hi. rewrite lookup_drop, <- H6 by lia. do 3 f_equal. lia.
  - unfold float_clear, ring_rep. cbn. rewrite H4. unfold zlen in *. cbn [length]. rewrite Z.add_0_r. split; [done|]. split; [done|]. split; [lia|].
    split; [done|]. split; [done|]. split; [pose proof kcap_pos; lia|]. intros i Hi. lia.
Qed.
End spsc.
Arguments spsc_ring : clear implicits.
Arguments duo : clear implicits.

(** ** Concrete runs *)

Lemma two_pow : exists k, 0 <= k <= 63 /\ 2 = 2 ^ k.
Proof. exists 1. lia. Qed.

(** An item is pushed and popped while the next push is in progress. *)
Definition demo_duo : duo Z := mk_duo (mk_ring [7; 8] 1 1) (PStored 8 1) CIdle [7] [Some 7].
Lemma demo_duo_reached : rtc (ring_step 2) (duo_init [0; 0]) demo_duo.
Proof.
  eapply rtc_l; [apply (step_push 2 _ _ _ _ 7)|]. eapply rtc_l; [apply step_store; by vm_compute|]. eapply rtc_l; [apply step_pub|].
  eapply rtc_l; [apply step_pop|]. eapply rtc_l; [apply step_push|]. eapply rtc_l; [by apply step_read|].
  eapply rtc_l; [apply step_store; by vm_compute|]. eapply rtc_l; [apply step_free|]. apply rtc_refl.
Qed.

Lemma ring_fifo_witness : exists waiting, map Some [7] = [Some 7] ++ map Some waiting /\ zlen waiting <= 2 /\
  (ring_pop 2 (du_ring demo_duo)).1 = head waiting.
Proof.
  destruct (ring_fifo 2 two_pow [0; 0] demo_duo eq_refl demo_duo_reached) as (w & H1 & H2 & _ & H4).
  exists w. split; [exact H1|]. split; [exact H2|]. exact (proj1 (H4 eq_refl)).
Defined.

(** A ring whose cursors are about to wrap. *)
Definition demo_float : spsc_ring Z := mk_ring [0; 5] 0 (2 ^ 64 - 1).
Lemma demo_float_rep : ring_rep 2 demo_float (2 ^ 64 - 1) [5].
Proof. split; [done|]. split; [lia|]. split; [done|]. split; [done|]. split; [done|]. intros [|k] Hk; [done|cbn in Hk; lia]. Qed.

Lemma float_ring_refines_witness : (float_write 2 [6; 9] demo_float).1 = 1 /\
  ring_rep 2 (float_write 2 [6; 9] demo_float).2 (2 ^ 64 - 1) [5; 6] /\ (float_read 2 9 demo_float).1 = [Some 5].
Proof.
  destruct (float_ring_refines 2 two_pow _ _ _ demo_float_rep) as (H1 & H2 & _). specialize (H1 [6; 9]). specialize (H2 9 ltac:(lia)).
  destruct (float_write 2 [6; 9] demo_float) as [n r]. destruct (float_read 2 9 demo_float) as [o r2]. destruct H1 as [-> H1]. destruct H2 as [-> _].
  split; [reflexivity|]. split; [exact H1|reflexivity].
Defined.
