(* ===== verification/EventPlane.v ===== *)
(** * The shell's event plane

    shell/runtime_events.cpp and the class [EventManager] of shell/runtime.h: the audio
    thread's producers, which put timestamped events on the ring of [Ring] and count
    them for the event fence; the synthesis of transport events; the event encoders;
    the drain of the ring onto the wire.  Also the words of shell/ump.h, the wrappers of
    [HarpRuntime] with their write hold, and one turn of its event pump
    (shell/runtime_audio.cpp).  The one source is the owner's ([src] is it or null). *)
From Stdlib Require Import ZArith Lia List Bool.
From stdpp Require Import base list.
From S2P Require Import Prelude Cbuf CborEnc CborFloat Frame Link Ieee Ring.
Open Scope Z_scope.
Open Scope list_scope.

(** ** UMP words *)

Definition ump_note_on (note vel channel : Z) : Z :=
  Z.lor (Z.lor (Z.lor 0x20900000 (u32 (Z.shiftl (Z.land channel 0xf) 16))) (u32 (Z.shiftl (Z.land note 0x7f) 8))) (Z.land vel 0x7f).
Definition ump_note_off (note channel : Z) : Z :=
  Z.lor (Z.lor (Z.lor 0x20800000 (u32 (Z.shiftl (Z.land channel 0xf) 16))) (u32 (Z.shiftl (Z.land note 0x7f) 8))) 0x40.
Definition ump_all_notes_off : Z := 0x20B07B00.

(** ** State *)

(** [te_kind]: 0 set, 1 ramp, 2 UMP word, 3 transport, 4 modulation. *)
Record timed_ev := mk_te { te_kind : Z; te_a : Z; te_v : Z; te_ts : Z; te_end : Z; te_channel : Z; te_tag : Z }.

Definition TIMED_CAP : Z := 1024.
Definition kChanFromSource : Z := 0xff.

(** The transport detector. *)
Record transport_det := mk_tp { tp_last_playing : bool; tp_sent : bool; tp_last_tempo : Z; tp_last_end_ppq : Z; tp_samples_since : Z }.

Record event_plane := mk_em {
  em_ring : spsc_ring timed_ev; em_chan : Z; em_queued : Z; em_base : Z; em_drops : Z; em_tag : Z; em_expected : Z;
  em_restamped : Z; em_drops_logged : Z; em_panic : bool; em_tp : transport_det }.

Definition em_set_ring r m := mk_em r (em_chan m) (em_queued m) (em_base m) (em_drops m) (em_tag m) (em_expected m) (em_restamped m) (em_drops_logged m) (em_panic m) (em_tp m).
Definition em_count m := mk_em (em_ring m) (em_chan m) (u32 (em_queued m + 1)) (em_base m) (em_drops m) (em_tag m) (em_expected m) (em_restamped m) (em_drops_logged m) (em_panic m) (em_tp m).
Definition em_drop m := mk_em (em_ring m) (em_chan m) (em_queued m) (em_base m) (u64 (em_drops m + 1)) (em_tag m) (em_expected m) (em_restamped m) (em_drops_logged m) (em_panic m) (em_tp m).
Definition em_add_restamped m := mk_em (em_ring m) (em_chan m) (em_queued m) (em_base m) (em_drops m) (em_tag m) (em_expected m) (u64 (em_restamped m + 1)) (em_drops_logged m) (em_panic m) (em_tp m).
Definition em_set_panic b m := mk_em (em_ring m) (em_chan m) (em_queued m) (em_base m) (em_drops m) (em_tag m) (em_expected m) (em_restamped m) (em_drops_logged m) b (em_tp m).
Definition em_set_tp tp m := mk_em (em_ring m) (em_chan m) (em_queued m) (em_base m) (em_drops m) (em_tag m) (em_expected m) (em_restamped m) (em_drops_logged m) (em_panic m) tp.
Definition em_set_fence q b m := mk_em (em_ring m) (em_chan m) q b (em_drops m) (em_tag m) (em_expected m) (em_restamped m) (em_drops_logged m) (em_panic m) (em_tp m).
Definition setChannel (c : Z) m := mk_em (em_ring m) (Z.land c 0xf) (em_queued m) (em_base m) (em_drops m) (em_tag m) (em_expected m) (em_restamped m) (em_drops_logged m) (em_panic m) (em_tp m).
Definition setDomainTag (t : Z) m := mk_em (em_ring m) (em_chan m) (em_queued m) (em_base m) (em_drops m) t (em_expected m) (em_restamped m) (em_drops_logged m) (em_panic m) (em_tp m).
Definition setExpectedTag (t : Z) m := mk_em (em_ring m) (em_chan m) (em_queued m) (em_base m) (em_drops m) (em_tag m) t (em_restamped m) (em_drops_logged m) (em_panic m) (em_tp m).

Definition em_init (buf : list timed_ev) : event_plane := mk_em (mk_ring buf 0 0) 0 0 0 0 0 0 0 0 false (mk_tp false false 0 0 0).

(** ** The fence *)

Definition fenceStamp (m : event_plane) : Z := if em_base m <? em_queued m then em_queued m - em_base m else 0.
Definition advanceEpoch (m : event_plane) : event_plane := em_set_fence (em_queued m) (em_queued m) m.
Definition resetFence (m : event_plane) : event_plane := em_set_fence 0 0 m.

(** [while (ring.pop(stale)) {}] with the producer at rest: at most the capacity. *)
Fixpoint drain_stale (fuel : nat) (r : spsc_ring timed_ev) : spsc_ring timed_ev :=
  match fuel with
  | O => r
  | S fuel => match ring_pop TIMED_CAP r with (Some _, r) => drain_stale fuel r | (None, r) => r end
  end.
Definition drainStaleOwnerRing (m : event_plane) : event_plane := em_set_ring (drain_stale (Z.to_nat TIMED_CAP) (em_ring m)) m.
Definition ownerRingEmpty (m : event_plane) : bool := ring_empty (em_ring m).

(** ** Producers (the audio thread) *)

(** Push, and count for the fence or as a drop. *)
Definition queue_ev (e : timed_ev) (m : event_plane) : bool * event_plane :=
  let '(ok, r) := ring_push TIMED_CAP e (em_ring m) in
  (ok, if ok : bool then em_count (em_set_ring r m) else em_drop m).

Definition target_part (channel : Z) (m : event_plane) : Z :=
  if channel =? kChanFromSource then Z.land (em_chan m) 0xf else Z.land channel 0xf.

Definition queueParamSet (src : bool) (id v ts channel : Z) (m : event_plane) : event_plane :=
  if negb src then m else (queue_ev (mk_te 0 id v ts 0 (target_part channel m) (em_tag m)) m).2.
Definition queueRamp (src : bool) (id target start fin channel : Z) (m : event_plane) : event_plane :=
  if negb src then m else (queue_ev (mk_te 1 id target start fin (target_part channel m) (em_tag m)) m).2.

Definition is_note_on (word : Z) : bool := (Z.land (Z.shiftr word 20) 0xf =? 9) && (0 <? Z.land word 0x7f).
Definition queueNote (src : bool) (word ts : Z) (m : event_plane) : event_plane :=
  if negb src then m
  else
    let '(ok, m) := queue_ev (mk_te 2 word 0 ts 0 0 (em_tag m)) m in
    if ok : bool then m else if is_note_on word then m else em_set_panic true m.
Definition queueMod (src : bool) (id offset voice ts : Z) (m : event_plane) : event_plane :=
  if negb src then m else (queue_ev (mk_te 4 id offset ts voice (Z.land (em_chan m) 0xf) (em_tag m)) m).2.
Definition queueTransport (flags tempo ppq ts : Z) (m : event_plane) : event_plane :=
  (queue_ev (mk_te 3 flags (f64_to_f32 tempo) ts ppq 0 (em_tag m)) m).2.

(** ** Transport synthesis *)

(** 1e-3, and 60.0 *)
Definition PPQ_SLACK : Z := f64_div F64_ONE (f64_of_Z 1000).
Definition f64_ne (a b : Z) : bool := negb (f64_eq a b).

Definition tp_flags (playing tempo_valid pos_valid : bool) : Z :=
  Z.lor (Z.lor (if playing then 1 else 0) (if tempo_valid then Z.shiftl 1 3 else 0)) (if pos_valid then Z.shiftl 1 5 else 0).

Definition feedTransport (playing tempo_valid : bool) (tempo : Z) (pos_valid : bool) (ppq block base rate : Z) (m : event_plane) : event_plane :=
  let tp := em_tp m in
  let discont := playing && tp_last_playing tp && pos_valid &&
    (f64_lt (f64_add ppq PPQ_SLACK) (tp_last_end_ppq tp) || f64_lt (f64_add (tp_last_end_ppq tp) PPQ_SLACK) ppq) in
  let since := u64 (tp_samples_since tp + block) in
  let change := xorb playing (tp_last_playing tp) || (tempo_valid && f64_ne tempo (tp_last_tempo tp)) || discont in
  let refresh := playing && (rate <=? since) in
  let send := change || refresh || negb (tp_sent tp) in
  let m := if send then queueTransport (tp_flags playing tempo_valid pos_valid) tempo ppq base m else m in
  let end_ppq :=
    if playing && tempo_valid && pos_valid
    then f64_add ppq (f64_div (f64_mul (f64_of_Z block) tempo) (f64_mul (f64_of_Z 60) (f64_of_Z rate))) else ppq in
  em_set_tp (mk_tp playing (send || tp_sent tp) tempo end_ppq (if send then 0 else since)) m.

(** ** Encoders *)

Section encoders.
Context {R : Realloc}.

(** [[[0, ts], etype, ...]] *)
Definition encode_head (ts etype : Z) (b : cbuf) : cbuf :=
  harp_cbor_uint (harp_cbor_uint (harp_cbor_uint (harp_cbor_array (harp_cbor_array b 3) 2) 0) ts) etype.
(** Key 5, left out for part 0. *)
Definition encode_part_key (channel : Z) (b : cbuf) : cbuf :=
  if channel =? 0 then b else harp_cbor_uint (harp_cbor_uint b 5) channel.
Definition has_part (channel : Z) : Z := if channel =? 0 then 0 else 1.

Definition encodeParamEvent (id v ts channel : Z) (b : cbuf) : cbuf :=
  let b := harp_cbor_map (encode_head ts 1 b) (2 + has_part channel) in
  let b := harp_cbor_uint (harp_cbor_uint b 0) id in
  encode_part_key channel (harp_cbor_float (harp_cbor_uint b 1) (f32_to_f64 v)).
Definition encodeTransportEvent (flags tempo ppq ts : Z) (b : cbuf) : cbuf :=
  let b := harp_cbor_map (encode_head ts 7 b) 3 in
  let b := harp_cbor_uint (harp_cbor_uint b 0) flags in
  let b := harp_cbor_float (harp_cbor_uint b 1) tempo in
  harp_cbor_float (harp_cbor_uint b 4) ppq.
Definition encodeUmpEvent (word ts : Z) (b : cbuf) : cbuf :=
  harp_cbor_bytes (encode_head ts 0 b) [u8 (Z.shiftr word 24); u8 (Z.shiftr word 16); u8 (Z.shiftr word 8); u8 word].
Definition mod_part (voice src_chan : Z) : Z := if voice =? 0 then Z.land src_chan 0xf else Z.land (Z.shiftr voice 8) 0xf.
Definition encodeModEvent (id offset ts voice src_chan : Z) (b : cbuf) : cbuf :=
  let channel := mod_part voice src_chan in
  let b := harp_cbor_map (encode_head ts 6 b) (2 + (if voice =? 0 then 0 else 1) + has_part channel) in
  let b := harp_cbor_uint (harp_cbor_uint b 0) id in
  let b := harp_cbor_float (harp_cbor_uint b 1) (f32_to_f64 offset) in
  let b := if voice =? 0 then b else harp_cbor_uint (harp_cbor_uint b 3) voice in
  encode_part_key channel b.
Definition encodeRampEvent (id target start fin channel : Z) (b : cbuf) : cbuf :=
  let b := harp_cbor_map (encode_head start 5 b) (3 + has_part channel) in
  let b := harp_cbor_uint (harp_cbor_uint b 0) id in
  let b := harp_cbor_float (harp_cbor_uint b 1) (f32_to_f64 target) in
  let b := harp_cbor_uint (harp_cbor_uint (harp_cbor_array (harp_cbor_uint b 2) 2) 0) fin in
  encode_part_key channel b.

(** ** The drain (the event pump) *)

(** An event of another session's timeline is delivered "now", a ramp as a set. *)
Definition stale_tag (e : timed_ev) (m : event_plane) : bool := negb (te_tag e =? 0) && negb (te_tag e =? em_expected m).
Definition restamp_now (e : timed_ev) : timed_ev :=
  mk_te (if te_kind e =? 1 then 0 else te_kind e) (te_a e) (te_v e) 0 (te_end e) (te_channel e) (te_tag e).

Definition encode_ev (e : timed_ev) (b : cbuf) : cbuf :=
  if te_kind e =? 0 then encodeParamEvent (te_a e) (te_v e) (te_ts e) (te_channel e) b
  else if te_kind e =? 1 then encodeRampEvent (te_a e) (te_v e) (te_ts e) (te_end e) (te_channel e) b
  else if te_kind e =? 3 then encodeTransportEvent (te_a e) (f32_to_f64 (te_v e)) (te_end e) (te_ts e) b
  else if te_kind e =? 4 then encodeModEvent (te_a e) (te_v e) (te_ts e) (u32 (te_end e)) (te_channel e) b
  else encodeUmpEvent (te_a e) (te_ts e) b.

Definition frame_ev (msg batch : cbuf) : cbuf :=
  harp_cbuf_put (harp_cbuf_put batch (harp_frame_hdr_encode (mk_frame_hdr HARP_FRAME_FVER HARP_STREAM_EVT HARP_FLAG_FIN (u32 (cb_len msg))))) (cb_buf msg).

Fixpoint drainOwner (budget : nat) (batch msgbuf : cbuf) (m : event_plane) : nat * cbuf * cbuf * event_plane :=
  match budget with
  | O => (O, batch, msgbuf, m)
  | S budget =>
      match ring_pop TIMED_CAP (em_ring m) with
      | (None, r) => (O, batch, msgbuf, em_set_ring r m)
      | (Some e, r) =>
          let m := em_set_ring r m in
          let '(e, m) := if stale_tag e m then (restamp_now e, em_add_restamped m) else (e, m) in
          let msgbuf := encode_ev e (harp_cbuf_reset msgbuf) in
          let '(sent, batch, msgbuf, m) := drainOwner budget (frame_ev msgbuf batch) msgbuf m in
          (S sent, batch, msgbuf, m)
      end
  end.

Definition takePanic (m : event_plane) : bool * event_plane := (em_panic m, em_set_panic false m).

(** The newly dropped events, for the log. *)
Definition pollDropLog (m : event_plane) : option Z * event_plane :=
  if em_drops m =? em_drops_logged m then (None, m)
  else (Some (u64 (em_drops m - em_drops_logged m)),
        mk_em (em_ring m) (em_chan m) (em_queued m) (em_base m) (em_drops m) (em_tag m) (em_expected m) (em_restamped m) (em_drops m) (em_panic m) (em_tp m)).

(** ** A turn of the pump *)

Context {io : Type} {HI : HarpIo io}.

Definition PUMP_BUDGET : nat := 64.

(** The panic first, then a batch; a failed write ends the connection.  The result
    says whether the device is still there and whether there was work. *)
Definition eventPump_turn (batch msgbuf : cbuf) (st : io * Z) (m : event_plane) : bool * bool * cbuf * cbuf * (io * Z) * event_plane :=
  let '(panic, m) := takePanic m in
  let st := if panic : bool then (harp_link_send HARP_STREAM_EVT (cb_buf (encodeUmpEvent ump_all_notes_off 0 harp_cbuf_init)) st).2 else st in
  let '(sent, batch, msgbuf, m) := drainOwner PUMP_BUDGET (harp_cbuf_reset batch) msgbuf m in
  if (sent =? 0)%nat then (true, false, batch, msgbuf, st, m)
  else
    let '(r, i) := io_write_all (cb_buf batch) st.1 in
    (match r with Some _ => true | None => false end, true, batch, msgbuf, (i, st.2), m).
End encoders.

(** ** The wrappers of [HarpRuntime] *)

(** What they consult: the write hold, and an armed effect's horizon. *)
Record rt_policy := mk_policy { rp_ro_default : bool; rp_ro_explicit : bool; rp_ro_drops : Z; rp_fx_armed : bool; rp_horizon : Z }.
Definition rp_held (p : rt_policy) : bool := rp_ro_default p || rp_ro_explicit p.
Definition rp_drop (p : rt_policy) : rt_policy := mk_policy (rp_ro_default p) (rp_ro_explicit p) (u64 (rp_ro_drops p + 1)) (rp_fx_armed p) (rp_horizon p).
Definition fxClampTs (p : rt_policy) (ts : Z) : Z := if ts <? rp_horizon p then rp_horizon p else ts.

Definition rt_queueParamSet (src : bool) (id v ts channel : Z) (s : rt_policy * event_plane) : rt_policy * event_plane :=
  let '(p, m) := s in
  if negb src then s
  else if rp_held p then (rp_drop p, m)
  else (p, queueParamSet src id v (if rp_fx_armed p then fxClampTs p ts else ts) channel m).
Definition rt_queueRamp (src : bool) (id target start fin channel : Z) (s : rt_policy * event_plane) : rt_policy * event_plane :=
  let '(p, m) := s in
  if negb src then s
  else if rp_held p then (rp_drop p, m)
  else
    let start := if rp_fx_armed p then fxClampTs p start else start in
    let fin := if rp_fx_armed p && (fin <? start) then start else fin in
    (p, queueRamp src id target start fin channel m).
