(* ===== verification/EventPlaneSpec.v ===== *)
(** * The shell's event plane: theorems

    What the audio thread queues reaches the device: the drain of the ring writes one
    frame per event, in order, and the device's handler makes of each message exactly
    the event that was queued. *)
From Stdlib Require Import ZArith Lia String List Bool.
From stdpp Require Import base list.
From S2P Require Import Prelude Cbuf CborEnc CborDec CborFloat CborFields Sha256 Frame Envelope Object Link Fs Store RateLimit LogRing Params Evq Ieee Parts Device DeviceSpec Reply State StateSpec Events EventsSpec Session SessionSpec Ring EventPlane.
Open Scope Z_scope.
Open Scope list_scope.

(** ** The bytes of a message *)

Definition head_of (ts etype : Z) : list Z := enc_array 3 ++ enc_array 2 ++ enc_uint 0 ++ enc_uint ts ++ enc_uint etype.
Definition value_fields (id v : Z) : list (field evt_body) :=
  [mk_field 0 (enc_uint id) (set_b_id id); mk_field 1 (enc_float (f32_to_f64 v)) (set_b_val (f32_to_f64 v))].
Definition part_field (ch : Z) : list (field evt_body) := if ch =? 0 then [] else [mk_field 5 (enc_uint ch) (set_b_chan ch)].
Definition voice_field (vc : Z) : list (field evt_body) := if vc =? 0 then [] else [mk_field 3 (enc_uint vc) (set_b_voice vc)].
Definition end_field (fin : Z) : list (field evt_body) := [mk_field 2 (enc_array 2 ++ enc_uint 0 ++ enc_uint fin) (set_b_end (0, fin))].
Definition transport_fields (flags tempo ppq : Z) : list (field (Z * Z * Z)) :=
  [mk_field 0 (enc_uint flags) (fun t => (flags, t.1.2, t.2)); mk_field 1 (enc_float tempo) (fun t => (t.1.1, tempo, t.2));
   mk_field 4 (enc_float ppq) (fun t => (t.1, ppq))].
Definition word_bytes (w : Z) : list Z := [u8 (Z.shiftr w 24); u8 (Z.shiftr w 16); u8 (Z.shiftr w 8); u8 w].

Definition body_fields (e : timed_ev) : list (field evt_body) :=
  if te_kind e =? 0 then value_fields (te_a e) (te_v e) ++ part_field (te_channel e)
  else if te_kind e =? 1 then value_fields (te_a e) (te_v e) ++ end_field (te_end e) ++ part_field (te_channel e)
  else value_fields (te_a e) (te_v e) ++ voice_field (te_end e) ++ part_field (mod_part (te_end e) (te_channel e)).
Definition msg_bytes (e : timed_ev) : list Z :=
  if te_kind e =? 0 then head_of (te_ts e) 1 ++ enc_fields (body_fields e)
  else if te_kind e =? 1 then head_of (te_ts e) 5 ++ enc_fields (body_fields e)
  else if te_kind e =? 3 then head_of (te_ts e) 7 ++ enc_fields (transport_fields (te_a e) (f32_to_f64 (te_v e)) (te_end e))
  else if te_kind e =? 4 then head_of (te_ts e) 6 ++ enc_fields (body_fields e)
  else head_of (te_ts e) 0 ++ enc_bytes (word_bytes (te_a e)).

(** An event as the producers make it: fields in range, the values no NaN. *)
Definition ev_fits (e : timed_ev) : Prop :=
  0 <= te_kind e <= 4 /\ is_u32 (te_a e) /\ is_u32 (te_v e) /\ f32_isnan (te_v e) = false /\ is_u64 (te_ts e) /\ is_u64 (te_end e) /\
  0 <= te_channel e < 16 /\ (te_kind e = 3 -> f64_isnan (te_end e) = false) /\ (te_kind e = 4 -> is_u32 (te_end e)).

Lemma part_range e : ev_fits e -> 0 <= mod_part (te_end e) (te_channel e) < 16.
Proof.
  intros _. unfold mod_part. change 0xf with (Z.ones 4). rewrite !Z.land_ones by lia. destruct (_ =? 0); apply Z.mod_pos_bound; lia.
Qed.

(** Compose the encoders of a message. *)
Ltac msg_seq := eapply appends_eq; [appends_seq|unfold enc_fields, enc_field; cbn [flat_map f_key f_bytes app]; rewrite ?app_nil_r, <- ?app_assoc; reflexivity].

Section encode.
Context {R : Realloc}.

Lemma appends_ehead ts etype : appends (encode_head ts etype) (head_of ts etype).
Proof. unfold encode_head. eapply appends_eq; [appends_seq|]. unfold head_of. by rewrite <- !app_assoc. Qed.

Lemma appends_part ch : appends (encode_part_key ch) (flat_map enc_field (part_field ch)).
Proof.
  unfold encode_part_key, part_field. destruct (ch =? 0); [apply appends_id|]. msg_seq.
Qed.

Lemma has_part_len ch : has_part ch = zlen (part_field ch).
Proof. unfold has_part, part_field. by destruct (ch =? 0). Qed.

(** A message is its head, the map's header and its fields. *)
Lemma appends_msg ts etype n (l : list (field evt_body)) (f : cbuf -> cbuf) : n = zlen l -> appends f (flat_map enc_field l) ->
  appends (fun b => f (harp_cbor_map (encode_head ts etype b) n)) (head_of ts etype ++ enc_fields l).
Proof.
  intros -> Hf. unfold enc_fields. rewrite app_assoc. apply (appends_comp _ f); [|exact Hf].
  apply (appends_comp _ (fun b => harp_cbor_map b _)); [apply appends_ehead|apply appends_map].
Qed.

Lemma flat_fields_app {T} (l k : list (field T)) : flat_map enc_field (l ++ k) = flat_map enc_field l ++ flat_map enc_field k.
Proof. apply flat_map_app. Qed.

Lemma appends_value id v : appends (fun b => harp_cbor_float (harp_cbor_uint (harp_cbor_uint (harp_cbor_uint b 0) id) 1) (f32_to_f64 v)) (flat_map enc_field (value_fields id v)).
Proof. unfold value_fields. msg_seq. Qed.

Lemma appends_ev e : ev_fits e -> appends (encode_ev e) (msg_bytes e).
Proof.
  intros Hf. unfold encode_ev, msg_bytes, body_fields.
  destruct (te_kind e =? 0).
  { unfold encodeParamEvent. cbv zeta. apply (appends_msg _ _ _ _ (fun b => encode_part_key _ (harp_cbor_float (harp_cbor_uint (harp_cbor_uint (harp_cbor_uint b 0) _) 1) _))).
    - rewrite zlen_app, has_part_len. reflexivity.
    - rewrite flat_fields_app. apply (appends_comp _ (encode_part_key _)); [apply appends_value|apply appends_part]. }
  destruct (te_kind e =? 1).
  { unfold encodeRampEvent. cbv zeta. apply (appends_msg _ _ _ _ (fun b => encode_part_key _ (harp_cbor_uint (harp_cbor_uint (harp_cbor_array (harp_cbor_uint
      (harp_cbor_float (harp_cbor_uint (harp_cbor_uint (harp_cbor_uint b 0) _) 1) _) 2) 2) 0) _))).
    - rewrite !zlen_app, has_part_len. unfold value_fields, end_field, zlen. cbn [length]. lia.
    - rewrite !flat_fields_app, app_assoc. apply (appends_comp _ (encode_part_key _)); [|apply appends_part].
      apply (appends_comp _ (fun b => harp_cbor_uint (harp_cbor_uint (harp_cbor_array (harp_cbor_uint b 2) 2) 0) _)); [apply appends_value|]. unfold end_field. msg_seq. }
  destruct (te_kind e =? 3).
  { unfold encodeTransportEvent. cbv zeta. eapply appends_eq.
    - eapply (appends_comp _ (fun b => harp_cbor_float (harp_cbor_uint (harp_cbor_float (harp_cbor_uint (harp_cbor_uint (harp_cbor_uint (harp_cbor_map b _) _) _) _) _) _) _)); [apply appends_ehead|appends_seq].
    - unfold transport_fields, enc_fields, enc_field. cbn [flat_map f_key f_bytes app]. rewrite ?app_nil_r, <- ?app_assoc. reflexivity. }
  destruct (Z.eqb_spec (te_kind e) 4) as [E|E].
  { rewrite u32_small by (by apply Hf). unfold encodeModEvent. cbv zeta.
    apply (appends_msg _ _ _ _ (fun b => encode_part_key _ (if _ =? 0 then harp_cbor_float (harp_cbor_uint (harp_cbor_uint (harp_cbor_uint b 0) _) 1) _
      else harp_cbor_uint (harp_cbor_uint (harp_cbor_float (harp_cbor_uint (harp_cbor_uint (harp_cbor_uint b 0) _) 1) _) 3) _))).
    - rewrite !zlen_app, has_part_len. unfold value_fields, voice_field, zlen. destruct (te_end e =? 0); cbn [length]; lia.
    - rewrite !flat_fields_app, app_assoc. apply (appends_comp _ (encode_part_key _)); [|apply appends_part].
      unfold voice_field. destruct (te_end e =? 0); [rewrite app_nil_r; apply appends_value|].
      apply (appends_comp _ (fun b => harp_cbor_uint (harp_cbor_uint b 3) _)); [apply appends_value|]. msg_seq. }
  unfold encodeUmpEvent. apply (appends_comp _ (fun b => harp_cbor_bytes b _)); [apply appends_ehead|apply appends_bytes].
Qed.
End encode.

(** ** What the device makes of it *)

Lemma ump_word_bytes w : is_u32 w -> ump_word (word_bytes w) = w.
Proof.
  intros Hw. unfold ump_word, word_bytes. cbn [nth]. rewrite <- !Z.lor_assoc, !Z.shiftl_mul_pow2, !Z.shiftr_div_pow2 by lia. unfold u8.
  pose proof (Z.mod_pos_bound w (2 ^ 8) ltac:(lia)). pose proof (Z.mod_pos_bound (w / 2 ^ 8) (2 ^ 8) ltac:(lia)).
  pose proof (Z.mod_pos_bound (w / 2 ^ 16) (2 ^ 8) ltac:(lia)). unfold is_u32 in Hw.
  rewrite (lor_mul_add _ _ 8), (lor_mul_add _ _ 16), (lor_mul_add _ _ 24) by lia. Z.div_mod_to_equations. lia.
Qed.

Definition dev_value (v : Z) : Z := f64_to_f32 (clamp01 (f32_to_f64 v)).

Lemma dev_value_in v : is_u32 v -> f32_isnan v = false -> f64_lt (f32_to_f64 v) 0 = false -> f64_lt F64_ONE (f32_to_f64 v) = false -> dev_value v = v.
Proof. intros Hv Hn H0 H1. unfold dev_value, clamp01. rewrite H0, H1. by apply f64_to_f32_of_f32. Qed.

Section device.
Context {L : Type} {ML : MsgLink L} {E : DevEnv} {R : Realloc} {O' : OS} {F : Faults} {FC : FpConv} (conf : dev_conf).
Implicit Types d : device L.

(** The effect an event is meant to have on the device. *)
Definition host_effect (e : timed_ev) d : device L :=
  let ev kd v fin ppq ch vc := mk_event (te_ts e) kd (te_a e) v fin ppq ch vc in
  if te_kind e =? 0 then live_ref_touch conf true (evt_stage_add (ev DEV_EV_PARAM_SET (dev_value (te_v e)) 0 0 (te_channel e) 0) d)
  else if te_kind e =? 1 then live_ref_touch conf true (evt_stage_add (ev DEV_EV_RAMP (dev_value (te_v e)) (te_end e) 0 (te_channel e) 0) d)
  else if te_kind e =? 3 then upd_q (evq_push (ev DEV_EV_TRANSPORT (te_v e) 0 (te_end e) 0 0)) (evt_stage_flush d)
  else if te_kind e =? 4 then evt_stage_add (ev DEV_EV_MOD (te_v e) 0 0 (mod_part (te_end e) (te_channel e)) (te_end e)) d
  else if Z.shiftr (te_a e) 28 =? 2 then
    match ump_event (te_ts e) (te_a e) with Some ev => push_note ev (evt_stage_flush d) | None => evt_stage_flush d end
  else d.

Lemma stamp_decodes ts : is_u64 ts -> decodes 0 stamp (enc_array 2 ++ enc_uint 0 ++ enc_uint ts) (0, ts).
Proof.
  intros Hts. unfold stamp. eapply (decodes_bind 2 0); [apply decodes_array; unfold is_u64; lia| |pose proof (enc_uint_zlen ts); pose proof (enc_uint_zlen 0); rewrite zlen_app; lia|lia].
  change (sm_guard (2 =? 2);; ?m) with m. eapply decodes_bind0; [apply decodes_uint; unfold is_u64; lia|].
  rewrite <- (app_nil_r (enc_uint ts)). eapply decodes_bind0; [by apply decodes_uint|]. apply decodes_ret.
Qed.

Lemma head_run ts etype rest : is_u64 ts -> is_u64 etype -> evt_head (mk_cdec (head_of ts etype ++ rest) false) = (Some (0, ts, etype), mk_cdec rest false).
Proof.
  intros Hts He. assert (decodes 0 evt_head (head_of ts etype) (0, ts, etype)) as H; [|by apply H, zlen_nonneg].
  unfold evt_head, head_of. pose proof (enc_uint_zlen ts). pose proof (enc_uint_zlen 0). pose proof (enc_uint_zlen etype).
  eapply (decodes_bind 3 0); [apply decodes_array; unfold is_u64; lia| |rewrite !zlen_app; pose proof (zlen_nonneg (enc_array 2)); lia|lia].
  change (sm_guard (3 <=? 3);; ?m) with m.
  rewrite (app_assoc (enc_uint 0)), (app_assoc (enc_array 2)). eapply decodes_bind0; [by apply stamp_decodes|].
  rewrite <- (app_nil_r (enc_uint etype)). eapply decodes_bind0; [by apply decodes_uint|]. apply decodes_ret.
Qed.

Lemma with_fields_run {T} (visit : Z -> parser T unit) (init : T) k l rest d : zlen l < 2 ^ 63 -> (forall x, x ∈ l -> field_ok visit x) ->
  with_fields visit init k (mk_cdec (enc_fields l ++ rest) false) d = k (run_fields l init) d.
Proof.
  intros Hn Hl. pose proof (reads_map_fields visit l Hn Hl rest init (zlen_nonneg _)) as H. unfold with_fields.
  unfold map_fields, mbind, SM_bind, on_fst in H. cbn [fst snd] in H. destruct (harp_cdec_map _) as [[n|] c]; [|done].
  fold (@mbind (SM (cdec * T)) _) in H. cbv beta iota zeta in H. cbn [fst snd] in H.
  match type of H with ?a = _ => match goal with |- (match ?b with _ => _ end) = _ => change b with a end end. by rewrite H.
Qed.

Lemma float_bytes_pos v : 1 <= zlen (enc_float v).
Proof. unfold enc_float. cbv zeta. destruct (_ || _); [destruct (half_from_float _)|]; rewrite zlen_cons; match goal with |- context [zlen ?l] => pose proof (zlen_nonneg l) end; lia. Qed.

Lemma uint_field_ok {T} (visit : Z -> parser T unit) key set v : is_u64 key -> is_u64 v -> visit key = get_uint set -> field_ok visit (mk_field key (enc_uint v) (set v)).
Proof. intros Hk Hv E1. split; [done|]. split; [apply enc_uint_zlen|]. cbn. rewrite E1. by apply (reads_set harp_cdec_uint set), decodes_uint. Qed.
Lemma float_field_ok {T} (visit : Z -> parser T unit) key set v : is_u64 key -> is_u64 v -> f64_isnan v = false -> visit key = get_float set ->
  field_ok visit (mk_field key (enc_float v) (set v)).
Proof. intros Hk Hv Hn E1. split; [done|]. split; [apply float_bytes_pos|]. cbn. rewrite E1. by apply (reads_set harp_cdec_float set), decodes_float. Qed.

Lemma body_ok e : ev_fits e -> (te_kind e = 0 \/ te_kind e = 1 \/ te_kind e = 4) -> forall x, x ∈ body_fields e -> field_ok ramp_visit x /\ (te_kind e <> 1 -> field_ok value_visit x).
Proof.
  intros (Hk & Ha & Hv & Hn & Hts & He & Hc & _ & Hvc) Hkind x. pose proof (f32_to_f64_range _ Hv Hn) as Hd. pose proof (f32_to_f64_not_nan _ Hv Hn) as Hdn.
  assert (is_u64 (te_a e)) as Ha64 by (unfold is_u32, is_u64 in *; lia).
  assert (forall y, y ∈ value_fields (te_a e) (te_v e) -> field_ok ramp_visit y /\ field_ok value_visit y) as Hval.
  { intros y Hy. unfold value_fields in Hy. apply elem_of_cons in Hy as [->|Hy]; [|apply elem_of_cons in Hy as [->|Hy]; [|by apply elem_of_nil in Hy]].
    - split; apply uint_field_ok; done.
    - split; apply float_field_ok; done. }
  assert (forall c y, 0 <= c < 16 -> y ∈ part_field c -> field_ok ramp_visit y /\ field_ok value_visit y) as Hpart.
  { intros c y Hcc Hy. unfold part_field in Hy. destruct (c =? 0); [by apply elem_of_nil in Hy|]. apply list_elem_of_singleton in Hy as ->.
    split; apply uint_field_ok; try done; unfold is_u64; lia. }
  unfold body_fields. intros Hx. destruct Hkind as [Ek|[Ek|Ek]]; rewrite Ek in Hx; cbn [Z.eqb Pos.eqb] in Hx; rewrite ?elem_of_app in Hx.
  - destruct Hx as [Hx|Hx]; [apply Hval in Hx|apply Hpart in Hx; [|done]]; split; [apply Hx|intros _; apply Hx|apply Hx|intros _; apply Hx].
  - destruct Hx as [Hx|[Hx|Hx]]; [apply Hval in Hx; split; [apply Hx|by rewrite Ek]| |apply Hpart in Hx; [|done]; split; [apply Hx|by rewrite Ek]].
    unfold end_field in Hx. apply list_elem_of_singleton in Hx as ->. split; [|by rewrite Ek]. split; [unfold is_u64; cbn; lia|]. split.
    + cbn [f_bytes]. rewrite !zlen_app. pose proof (enc_uint_zlen (te_end e)). pose proof (zlen_nonneg (enc_array 2)). pose proof (zlen_nonneg (enc_uint 0)). lia.
    + cbn. by apply (reads_set stamp set_b_end), stamp_decodes.
  - destruct Hx as [Hx|[Hx|Hx]]; [apply Hval in Hx; split; [apply Hx|intros _; apply Hx]| |].
    + unfold voice_field in Hx. destruct (te_end e =? 0); [by apply elem_of_nil in Hx|]. apply list_elem_of_singleton in Hx as ->.
      split; [|intros _]; apply uint_field_ok; try done; unfold is_u64; lia.
    + assert (0 <= mod_part (te_end e) (te_channel e) < 16) as Hm by (unfold mod_part; change 0xf with (Z.ones 4); rewrite !Z.land_ones by lia; destruct (_ =? 0); apply Z.mod_pos_bound; lia).
      apply (Hpart _ _ Hm) in Hx. split; [apply Hx|intros _; apply Hx].
Qed.

Lemma body_len e : zlen (body_fields e) < 2 ^ 63.
Proof.
  unfold body_fields, value_fields, part_field, voice_field, end_field, zlen.
  destruct (te_kind e =? 0), (te_kind e =? 1), (te_channel e =? 0), (te_end e =? 0), (mod_part (te_end e) (te_channel e) =? 0); cbn [length app]; lia.
Qed.

Lemma land_part c : 0 <= c < 16 -> u8 (Z.land c 0xf) = c.
Proof. intros Hc. change 0xf with (Z.ones 4). rewrite Z.land_ones by lia. rewrite Z.mod_small by lia. apply u8_small. unfold is_u8. lia. Qed.

(** The fields as the parser leaves them. *)
Lemma body_run e : ev_fits e ->
  let b := run_fields (body_fields e) body_init in
  b_id b = Some (te_a e) /\ b_val b = Some (f32_to_f64 (te_v e)) /\ b_txn b = None /\
  (te_kind e = 1 -> b_end b = Some (0, te_end e)) /\
  b_voice b = (if (te_kind e =? 0) || (te_kind e =? 1) then 0 else te_end e) /\
  b_chan b = (if (te_kind e =? 0) || (te_kind e =? 1) then te_channel e else mod_part (te_end e) (te_channel e)).
Proof.
  intros _. unfold body_fields, value_fields, part_field, voice_field, end_field.
  destruct (Z.eqb_spec (te_kind e) 0), (Z.eqb_spec (te_kind e) 1); try lia; cbn [orb].
  - destruct (Z.eqb_spec (te_channel e) 0) as [->|]; cbn; split_and!; done || lia.
  - destruct (Z.eqb_spec (te_channel e) 0) as [->|]; cbn; split_and!; done || lia.
  - generalize (mod_part (te_end e) (te_channel e)). intros c. destruct (Z.eqb_spec (te_end e) 0) as [->|], (Z.eqb_spec c 0) as [->|]; cbn; split_and!; done || lia.
Qed.

(** C9: an event means on the device what it meant in the plug-in.  For every event
    as the producers make it - a set, a ramp, a UMP word, a transport change or a
    modulation - the bytes the pump encodes, handed to the device's event handler in
    whatever state the device is, have exactly the effect intended: the same
    parameter, value (clamped to 0..1 for sets and ramps), time, end time, part, voice
    and flags, staged or queued as that kind is, and nothing else. *)
Theorem event_arrives e b d : ev_fits e -> cb_oom (encode_ev e (harp_cbuf_reset b)) = false ->
  handle_evt_msg conf (cb_buf (encode_ev e (harp_cbuf_reset b))) d = host_effect e d.
Proof.
  intros Hf Ho. pose proof (appends_ev e Hf _ Ho) as [_ ->]. cbn [cb_buf harp_cbuf_reset app].
  pose proof Hf as (Hk & Ha & Hv & Hn & Hts & He & Hc & Hnan & Hvc). pose proof (part_range e Hf) as Hm.
  assert (forall etype rest, is_u64 etype -> evt_head (harp_cdec_init (head_of (te_ts e) etype ++ rest)) = (Some (0, te_ts e, etype), mk_cdec rest false)) as Hh by (intros; by apply head_run).
  destruct (body_run e Hf) as (B1 & B2 & B3 & B4 & B5 & B6). pose proof (body_ok e Hf) as Hok. pose proof (body_len e) as Hl.
  unfold handle_evt_msg, msg_bytes, host_effect. cbv zeta.
  assert (te_kind e = 0 \/ te_kind e = 1 \/ te_kind e = 2 \/ te_kind e = 3 \/ te_kind e = 4) as [Ek|[Ek|[Ek|[Ek|Ek]]]] by lia;
    rewrite Ek in *; cbn [Z.eqb Pos.eqb orb] in *; rewrite Hh by (unfold is_u64; lia); cbn [harp_evt_epoch_stale Z.eqb negb andb Pos.eqb Z.leb Z.compare Pos.compare Pos.compare_cont].
  - unfold evt_param. rewrite <- (app_nil_r (enc_fields _)), with_fields_run; [|done|intros x Hx; apply Hok; auto; lia].
    rewrite B1, B2. unfold submit_touch, txn_of, body_event. rewrite B3, B5, B6, land_part, (u32_small (te_a e)) by done. reflexivity.
  - unfold evt_ramp. rewrite <- (app_nil_r (enc_fields _)), with_fields_run; [|done|intros x Hx; apply Hok; auto; lia].
    rewrite B1, B2, B4 by done. unfold submit_touch, txn_of, body_event. cbn [harp_evt_epoch_stale Z.eqb negb andb]. rewrite B3, B5, B6, land_part, (u32_small (te_a e)) by done. reflexivity.
  - unfold evt_ump. rewrite <- (app_nil_r (enc_bytes _)), (decodes_bytes (word_bytes (te_a e)) ltac:(reflexivity) [] (zlen_nonneg _)).
    change (zlen (word_bytes (te_a e)) <? 4) with false. cbv iota zeta. rewrite ump_word_bytes by done. done.
  - unfold evt_transport. rewrite <- (app_nil_r (enc_fields _)), with_fields_run.
    + cbn. rewrite u32_small, f64_to_f32_of_f32 by done. reflexivity.
    + reflexivity.
    + intros x Hx. unfold transport_fields in Hx. repeat (apply elem_of_cons in Hx as [->|Hx]); [..|by apply elem_of_nil in Hx].
      * apply (uint_field_ok transport_visit 0 (fun v t => (v, t.1.2, t.2))); try done; unfold is_u32, is_u64 in *; lia.
      * apply (float_field_ok transport_visit 1 (fun v t => (t.1.1, v, t.2))); try done; [by apply f32_to_f64_range|by apply f32_to_f64_not_nan].
      * apply (float_field_ok transport_visit 4 (fun v t => (t.1, v))); try done. by apply Hnan.
  - unfold evt_mod. rewrite <- (app_nil_r (enc_fields _)), with_fields_run; [|done|intros x Hx; apply Hok; auto; lia].
    rewrite B1, B2. unfold txn_of, body_event. rewrite B3, B5, B6, land_part, (u32_small (te_a e)), (u32_small (te_end e)), f64_to_f32_of_f32 by auto. reflexivity.
Qed.
End device.

Section demo.
#[local] Existing Instances demo_link demo_env alloc_all os_good no_faults demo_conv.

(** A ramp on part 3, as the device stages it. *)
Definition demo_ramp : timed_ev := mk_te 1 7 0x3f000000 480 960 3 0.
Lemma demo_ramp_fits : ev_fits demo_ramp.
Proof. split_and!; try done; unfold is_u32, is_u64; cbn; lia. Qed.
Lemma event_arrives_witness : cb_oom (encode_ev demo_ramp (harp_cbuf_reset harp_cbuf_init)) = false /\
  handle_evt_msg demo_conf (cb_buf (encode_ev demo_ramp (harp_cbuf_reset harp_cbuf_init))) demo_state = host_effect demo_conf demo_ramp demo_state.
Proof. split; [reflexivity|]. apply (event_arrives demo_conf demo_ramp harp_cbuf_init demo_state demo_ramp_fits). reflexivity. Defined.
End demo.
