(* ===== verification/EventFlow.v ===== *)
(** * From the audio thread to the device

    The whole way of an event: the ring of the shell's event plane, the pump's batch of
    frames, the link's receiver, the device's handler; and the event fence, with which
    the host and the device count the events on that way. *)
From Stdlib Require Import ZArith Lia String List Bool.
From stdpp Require Import base list relations.
From S2P Require Import Prelude Cbuf CborEnc CborDec CborFloat CborFields Sha256 Frame Envelope Object Link Fs Store RateLimit LogRing Params Evq Ieee Parts Device DeviceSpec Reply State StateSpec Events EventsSpec Session SessionSpec Ring EventPlane EventPlaneSpec.
Open Scope Z_scope.
Open Scope list_scope.

Lemma timed_cap_pow : exists k, 0 <= k <= 63 /\ TIMED_CAP = 2 ^ k.
Proof. exists 10. done. Qed.

(** ** The drain *)

(** An event as it is sent by a plane that expects the timeline [x]. *)
Definition adjusted (x : Z) (e : timed_ev) : timed_ev := if negb (te_tag e =? 0) && negb (te_tag e =? x) then restamp_now e else e.
Definition ev_frame (e : timed_ev) : frame := mk_frame HARP_STREAM_EVT true (msg_bytes e).
Definition waits (m : event_plane) (l : list timed_ev) : Prop := exists t, ring_rep TIMED_CAP (em_ring m) t l.

Lemma adjusted_fits x e : ev_fits e -> ev_fits (adjusted x e).
Proof.
  intros Hf. unfold adjusted. destruct (_ && _); [|done]. destruct Hf as (Hk & Ha & Hv & Hn & Hts & He & Hc & H3 & H4).
  unfold restamp_now, ev_fits. cbn. assert (is_u64 0) by (unfold is_u64; lia).
  destruct (Z.eqb_spec (te_kind e) 1); split_and!; try done; lia.
Qed.

Lemma ev_part_range e : ev_fits e -> 0 <= te_channel e < 16 /\ 0 <= mod_part (te_end e) (te_channel e) < 16.
Proof. intros Hf. split; [apply Hf|by apply part_range]. Qed.

Lemma msg_short e : zlen (msg_bytes e) <= 200.
Proof.
  assert (forall m v, zlen (head_bytes m v) <= 9) as Hh by apply head_zlen_ub.
  unfold msg_bytes, body_fields, head_of, enc_fields, value_fields, end_field, voice_field, part_field, transport_fields, word_bytes, enc_field, enc_array, enc_map, enc_uint, enc_bytes.
  repeat case_match; cbn [flat_map app f_key f_bytes]; unfold enc_uint; rewrite ?zlen_app, ?zlen_cons, ?zlen_nil;
    repeat match goal with
    | |- context [zlen (@nil ?T)] => change (zlen (@nil T)) with 0
    | |- context [zlen (head_bytes ?m ?v)] => let x := fresh in pose proof (Hh m v) as x; set (zlen (head_bytes m v)) in *
    | |- context [zlen (enc_float ?v)] => let x := fresh in pose proof (enc_float_zlen_ub v) as x; set (zlen (enc_float v)) in *
    end; lia.
Qed.

Section drain.
Context {R : Realloc} (HR : realloc_total R).

Lemma oom_encode e b : cb_oom b = false -> cb_oom (encode_ev e b) = false.
Proof.
  intros Hb. unfold encode_ev, encodeParamEvent, encodeRampEvent, encodeTransportEvent, encodeModEvent, encodeUmpEvent, encode_part_key, encode_head.
  cbv zeta. oom_by HR.
Qed.

Lemma encode_bytes e b : ev_fits e -> cb_buf (encode_ev e (harp_cbuf_reset b)) = msg_bytes e.
Proof. intros Hf. apply (appends_fresh (encode_ev e)); [by apply appends_ev|done|by apply oom_encode]. Qed.

Lemma frame_ev_bytes e b batch : ev_fits e -> cb_oom batch = false ->
  let batch' := frame_ev (encode_ev e (harp_cbuf_reset b)) batch in
  cb_buf batch' = cb_buf batch ++ enc_frame (ev_frame e) /\ cb_oom batch' = false.
Proof.
  intros Hf Ho. cbv zeta. unfold frame_ev, cb_len. rewrite encode_bytes by done.
  pose proof (msg_short e). pose proof (zlen_nonneg (msg_bytes e)). rewrite u32_small by (unfold is_u32; lia).
  destruct (put_total HR batch (harp_frame_hdr_encode (mk_frame_hdr HARP_FRAME_FVER HARP_STREAM_EVT HARP_FLAG_FIN (zlen (msg_bytes e)))) Ho) as [B1 O1].
  destruct (put_total HR _ (msg_bytes e) O1) as [B2 O2]. split; [|done]. rewrite B2, B1, <- app_assoc. reflexivity.
Qed.

(** What the drain leaves alone. *)
Definition same_fence (m m' : event_plane) : Prop :=
  em_queued m' = em_queued m /\ em_base m' = em_base m /\ em_panic m' = em_panic m /\ em_expected m' = em_expected m.

Lemma drain_spec budget : forall batch msgbuf m l, waits m l -> Forall ev_fits l -> cb_oom batch = false ->
  let '(sent, batch', _, m') := drainOwner budget batch msgbuf m in
  let gone := map (adjusted (em_expected m)) (take budget l) in
  sent = length gone /\ cb_buf batch' = cb_buf batch ++ flat_map enc_frame (map ev_frame gone) /\ cb_oom batch' = false /\
  waits m' (drop budget l) /\ same_fence m m'.
Proof.
  induction budget as [|budget IH]; intros batch msgbuf m l [t Hrep] Hl Ho; cbn [drainOwner].
  { cbn. rewrite app_nil_r. split_and!; try done. by exists t. }
  pose proof (rep_pop TIMED_CAP timed_cap_pow _ _ _ Hrep) as Hp. destruct l as [|e l].
  { rewrite Hp. cbn. rewrite app_nil_r. split_and!; try done. by exists t. }
  destruct Hp as (r & -> & Hr). apply Forall_cons_iff in Hl as [He Hl].
  set (m1 := em_set_ring r m).
  assert (exists m2, (if stale_tag e m1 then (restamp_now e, em_add_restamped m1) else (e, m1)) = (adjusted (em_expected m) e, m2) /\
    em_ring m2 = r /\ same_fence m m2) as (m2 & -> & Hm2 & Hs2).
  { unfold adjusted, stale_tag. change (em_expected m1) with (em_expected m). destruct (_ && _); eexists; (split; [reflexivity|]); split; done. }
  pose proof (frame_ev_bytes (adjusted (em_expected m) e) msgbuf batch (adjusted_fits _ _ He) Ho) as [B1 O1].
  specialize (IH _ (encode_ev (adjusted (em_expected m) e) (harp_cbuf_reset msgbuf)) m2 l ltac:(exists (t + 1); by rewrite Hm2) Hl O1).
  destruct (drainOwner budget _ _ m2) as [[[sent batch'] msgbuf'] m']. destruct IH as (I1 & I2 & I3 & I4 & I5).
  destruct Hs2 as (S1 & S2 & S3 & S4). destruct I5 as (T1 & T2 & T3 & T4). rewrite S4 in I1, I2.
  cbn [take drop map length flat_map]. split_and!; try done; [by rewrite I1|by rewrite I2, B1, <- app_assoc|unfold same_fence; split_and!; congruence].
Qed.
End drain.

(** ** The receiving end *)

Section receive.
Context {R : Realloc} {io : Type} {HI : HarpIo io} {BP : BytePipe io}.

(** The next [n] messages of a link. *)
Fixpoint receive (n : nat) (s : link_st io) : list (Z * list Z) * link_st io :=
  match n with
  | O => ([], s)
  | S n =>
      match harp_link_recv (S (length (pipe_in (ls_io s)))) s with
      | (Some (RecvMsg strm), s) => let '(l, s') := receive n s in ((strm, cb_buf (ls_msg s)) :: l, s')
      | (_, s) => ([], s)
      end
  end.

Lemma receive_frames (HR : realloc_total R) evs : forall s a rest, accs_are (ls_acc s) a -> nth (Z.to_nat HARP_STREAM_EVT) a [] = [] ->
  pipe_in (ls_io s) = flat_map enc_frame (map ev_frame evs) ++ rest ->
  exists s', receive (length evs) s = (map (fun e => (HARP_STREAM_EVT, msg_bytes e)) evs, s') /\ pipe_in (ls_io s') = rest /\ accs_are (ls_acc s') a.
Proof.
  induction evs as [|e evs IH]; intros s a rest Ha Hn Hin; [by exists s|]. cbn [map flat_map length receive] in *. rewrite <- app_assoc in Hin.
  pose proof (msg_short e) as Hl. pose proof (zlen_nonneg (msg_bytes e)).
  assert (frames_of (S (length (msg_bytes e))) HARP_STREAM_EVT (msg_bytes e) = [ev_frame e]) as Hfr.
  { cbn [frames_of]. unfold HARP_FRAME_MAX_PAYLOAD. destruct (Z.gtb_spec (zlen (msg_bytes e)) 65536); [lia|done]. }
  assert (Forall frame_ok [ev_frame e]) as Hok.
  { constructor; [|done]. split; unfold is_u8, ev_frame, HARP_STREAM_EVT, HARP_FRAME_MAX_PAYLOAD; cbn [f_stream f_payload]; lia. }
  pose proof (recv_spec_message (S (length (msg_bytes e))) HARP_STREAM_EVT (msg_bytes e) a [] [] ltac:(unfold HARP_STREAM_EVT; lia)
    (accs_length _ _ Ha) Hn ltac:(lia) ltac:(rewrite zlen_nil; change (harp_stream_msg_cap HARP_STREAM_EVT) with 65536; lia)) as Hsp.
  rewrite Hfr in Hsp. cbn [app] in Hsp.
  pose proof (recv_frames HR [ev_frame e] s a (flat_map enc_frame (map ev_frame evs) ++ rest) (S (length (pipe_in (ls_io s)))) Hok Ha) as Hr.
  cbn [flat_map] in Hr. rewrite app_nil_r, Hsp in Hr.
  destruct Hr as (s1 & A1 & P1 & R1 & M1); [done| |].
  { rewrite Hin, length_app. pose proof (frames_le_bytes [ev_frame e]) as Hle. cbn [flat_map length] in Hle. rewrite app_nil_r in Hle. cbn [length]. lia. }
  rewrite R1. cbn [flat_map app] in P1. rewrite list_insert_id in A1.
  2: { destruct (lookup_lt_is_Some_2 a (Z.to_nat HARP_STREAM_EVT)) as [x Hx]; [rewrite (accs_length _ _ Ha); change (Z.to_nat HARP_STREAM_EVT) with 1%nat; lia|].
       rewrite Hx. f_equal. rewrite nth_lookup, Hx in Hn. exact Hn. }
  destruct (IH s1 a rest A1 Hn P1) as (s' & -> & P2 & A2). exists s'. rewrite (M1 _ eq_refl). done.
Qed.
End receive.

(** C12: what the audio thread queued arrives, in order.  Take a plane with the events
    [l] waiting on its ring and let the pump drain up to [n] of them, and put the batch
    of bytes on a pipe (with anything behind it) at whose end a receiver waits, in the
    middle of whatever messages of the other streams.  As long as memory lasts: the
    first [n] waiting events are taken and no other; the receiver gets one event
    message per event taken, in order and byte for byte, an event of another timeline
    restamped to "now"; nothing else is left on the pipe than what was behind the
    batch, and the fence's counters are untouched. *)
Theorem drain_delivers {R : Realloc} {io : Type} {HI : HarpIo io} {BP : BytePipe io} n b msgbuf m l (s : link_st io) a rest :
  realloc_total R -> waits m l -> Forall ev_fits l -> accs_are (ls_acc s) a -> nth (Z.to_nat HARP_STREAM_EVT) a [] = [] ->
  let '(sent, batch, _, m') := drainOwner n (harp_cbuf_reset b) msgbuf m in
  pipe_in (ls_io s) = cb_buf batch ++ rest ->
  sent = Nat.min n (length l) /\ waits m' (drop n l) /\ same_fence m m' /\
  exists s', receive sent s = (map (fun e => (HARP_STREAM_EVT, msg_bytes (adjusted (em_expected m) e))) (take n l), s') /\
    pipe_in (ls_io s') = rest /\ accs_are (ls_acc s') a.
Proof.
  intros HR Hw Hl Ha Hn. pose proof (drain_spec HR n (harp_cbuf_reset b) msgbuf m l Hw Hl eq_refl) as Hd.
  destruct (drainOwner n _ msgbuf m) as [[[sent batch] msgbuf'] m']. cbn zeta in Hd. destruct Hd as (-> & Hb & _ & Hw' & Hs). intros Hin.
  rewrite Hb in Hin. cbn [cb_buf harp_cbuf_reset app] in Hin.
  destruct (receive_frames HR _ s a rest Ha Hn Hin) as (s' & Hr & Hp & Ha').
  split; [by rewrite length_map, length_take|]. split; [done|]. split; [done|]. exists s'. by rewrite Hr, map_map.
Qed.

(** ** The event fence *)

Section fence.
Context {R : Realloc} (HR : realloc_total R).
Context {L : Type} {ML : MsgLink L} {E : DevEnv} {O' : OS} {F : Faults} {FC : FpConv} (conf : dev_conf).

(** What the link makes of a batch: its messages. *)
Definition wire_msgs (n : nat) (bytes : list Z) : list (list Z) :=
  map snd (receive n (mk_link (mk_fd [RdData bytes] [] [] 0) harp_link_init harp_cbuf_init)).1.
Definition panic_bytes : list Z := cb_buf (encodeUmpEvent ump_all_notes_off 0 harp_cbuf_init).

(** What the pump holds between its reading of the expected tag and its write: the
    batch, the scratch buffer, the number of events framed, the tag it read. *)
Record hand := mk_hand { ha_batch : cbuf; ha_msg : cbuf; ha_sent : nat; ha_tag : Z }.

(** One turn of the loop of [drainOwner] with an event [e]. *)
Definition take_ev (e : timed_ev) (h : hand) : hand :=
  let msg := encode_ev (adjusted (ha_tag h) e) (harp_cbuf_reset (ha_msg h)) in
  mk_hand (frame_ev msg (ha_batch h)) msg (S (ha_sent h)) (ha_tag h).
Definition note_stale (x : Z) (e : timed_ev) (m : event_plane) : event_plane :=
  if negb (te_tag e =? 0) && negb (te_tag e =? x) then em_add_restamped m else m.

(** The plane, the events on its ring the producer has not counted yet, the pump's
    hand, the messages written and not yet handled, and the device.  [fl_acc]: the
    events the ring accepted; [fl_done]: the messages the device handled; [fl_panics]:
    the all-notes-off messages written. *)
Record flow := mk_flow { fl_plane : event_plane; fl_unc : nat; fl_hand : hand; fl_air : list (list Z); fl_dev : device L;
  fl_acc : list timed_ev; fl_done : list (list Z); fl_panics : nat }.

Inductive flow_step : flow -> flow -> Prop :=
  (* a producer: the push, and later the count; a push that fails is a drop, and a lost
     note-off raises the panic *)
  | flow_push m u h air d acc dn k e r : ev_fits e -> ring_push TIMED_CAP e (em_ring m) = (true, r) ->
      flow_step (mk_flow m u h air d acc dn k) (mk_flow (em_set_ring r m) (S u) h air d (acc ++ [e]) dn k)
  | flow_count m u h air d acc dn k : flow_step (mk_flow m (S u) h air d acc dn k) (mk_flow (em_count m) u h air d acc dn k)
  | flow_drop m u h air d acc dn k e r : ring_push TIMED_CAP e (em_ring m) = (false, r) ->
      flow_step (mk_flow m u h air d acc dn k) (mk_flow (em_drop m) u h air d acc dn k)
  | flow_panic m u h air d acc dn k b : flow_step (mk_flow m u h air d acc dn k) (mk_flow (em_set_panic b m) u h air d acc dn k)
  (* the control thread *)
  | flow_expect m u h air d acc dn k x : flow_step (mk_flow m u h air d acc dn k) (mk_flow (setExpectedTag x m) u h air d acc dn k)
  (* the pump: a panic taken is written; the batch is reset and the tag read; an event is
     popped into the batch, or none is there; the batch is written *)
  | flow_alloff m u h air d acc dn k : em_panic m = true ->
      flow_step (mk_flow m u h air d acc dn k) (mk_flow (takePanic m).2 u h (air ++ [panic_bytes]) d acc dn (S k))
  | flow_drain m u b msg x air d acc dn k :
      flow_step (mk_flow m u (mk_hand b msg 0 x) air d acc dn k) (mk_flow m u (mk_hand (harp_cbuf_reset b) msg 0 (em_expected m)) air d acc dn k)
  | flow_take m u h air d acc dn k e r : ring_pop TIMED_CAP (em_ring m) = (Some e, r) ->
      flow_step (mk_flow m u h air d acc dn k) (mk_flow (note_stale (ha_tag h) e (em_set_ring r m)) u (take_ev e h) air d acc dn k)
  | flow_none m u h air d acc dn k r : ring_pop TIMED_CAP (em_ring m) = (None, r) ->
      flow_step (mk_flow m u h air d acc dn k) (mk_flow (em_set_ring r m) u h air d acc dn k)
  | flow_write m u b msg n x air d acc dn k :
      flow_step (mk_flow m u (mk_hand b msg n x) air d acc dn k)
        (mk_flow m u (mk_hand (harp_cbuf_reset b) msg 0 x) (air ++ wire_msgs n (cb_buf b)) d acc dn k)
  (* the session thread: a message; the staged run *)
  | flow_handle m u h buf air d acc dn k : flow_step (mk_flow m u h (buf :: air) d acc dn k) (mk_flow m u h air (session_evt conf buf d) acc (dn ++ [buf]) k)
  | flow_flush m u h air d acc dn k : flow_step (mk_flow m u h air d acc dn k) (mk_flow m u h air (evt_stage_flush d) acc dn k)
  (* anything else of the device *)
  | flow_other m u h air d d' acc dn k : es_consumed (d_evt d') = es_consumed (d_evt d) -> es_stage (d_evt d') = es_stage (d_evt d) ->
      flow_step (mk_flow m u h air d acc dn k) (mk_flow m u h air d' acc dn k).

(** A stream starts: nothing queued, nothing counted. *)
Definition flow_start (s : flow) : Prop :=
  waits (fl_plane s) [] /\ em_queued (fl_plane s) = 0 /\ em_base (fl_plane s) = 0 /\
  es_consumed (d_evt (fl_dev s)) = 0 /\ es_stage (d_evt (fl_dev s)) = [] /\
  fl_unc s = O /\ ha_sent (fl_hand s) = O /\ cb_buf (ha_batch (fl_hand s)) = [] /\ cb_oom (ha_batch (fl_hand s)) = false /\
  fl_air s = [] /\ fl_acc s = [] /\ fl_done s = [] /\ fl_panics s = O.

(** A message as the pump sent an event. *)
Definition sent_as (e : timed_ev) (buf : list Z) : Prop := exists x, buf = msg_bytes (adjusted x e).

(** What holds on the way: [l] waits on the ring, [held] is in the pump's hand. *)
Record flow_ok (s : flow) (l held : list timed_ev) : Prop := {
  fo_ring : waits (fl_plane s) l;
  fo_fits : Forall ev_fits l;
  fo_hand : ha_sent (fl_hand s) = length held /\ cb_buf (ha_batch (fl_hand s)) = flat_map enc_frame (map ev_frame held) /\ cb_oom (ha_batch (fl_hand s)) = false;
  fo_acc : exists gone took, fl_acc s = gone ++ took ++ l /\ Forall2 (fun e e' => exists x, e' = adjusted x e) took held /\
    length (fl_done s ++ fl_air s) = (length gone + fl_panics s)%nat /\
    (fl_panics s = O -> Forall2 sent_as gone (fl_done s ++ fl_air s));
  fo_queued : em_queued (fl_plane s) = u32 (zlen (fl_acc s) - Z.of_nat (fl_unc s));
  fo_unc : (fl_unc s <= length (fl_acc s))%nat;
  fo_base : em_base (fl_plane s) = 0;
  fo_total : evt_total (fl_dev s) = u32 (zlen (fl_done s));
  fo_stage : (length (es_stage (d_evt (fl_dev s))) <= EVT_STAGE_CAP)%nat }.

Lemma one_delivery l : pipe_in (mk_fd [RdData l] [] [] 0) = l.
Proof. destruct l as [|x l]; [done|]. change (pipe_in (mk_fd [RdData (x :: l)] [] [] 0)) with ((x :: l) ++ []). apply app_nil_r. Qed.

Lemma wire_msgs_are evs : wire_msgs (length evs) (flat_map enc_frame (map ev_frame evs)) = map msg_bytes evs.
Proof.
  unfold wire_msgs.
  destruct (receive_frames HR evs (mk_link (mk_fd [RdData (flat_map enc_frame (map ev_frame evs))] [] [] 0) harp_link_init harp_cbuf_init) (repeat [] 4) [])
    as (s' & -> & _ & _); [|done|cbn [ls_io]; by rewrite one_delivery, app_nil_r|].
  - split; [done|]. split; [done|]. intros b Hb. apply list_elem_of_In in Hb. cbn in Hb. intuition (subst; reflexivity).
  - cbn [fst]. by rewrite map_map.
Qed.

Lemma start_ok s : flow_start s -> flow_ok s [] [].
Proof.
  intros (H1 & H2 & H3 & H4 & H5 & H6 & H7 & H8 & H9 & H10 & H11 & H12 & H13).
  split; [done|done|by rewrite H7, H8, H9| |by rewrite H2, H11, H6|by rewrite H6; lia|done|unfold evt_total; by rewrite H4, H5, H12|rewrite H5; cbn; lia].
  exists [], []. rewrite H10, H11, H12, H13. split_and!; [done|constructor|done|]. intros _. constructor.
Qed.

Ltac flow_cbn := cbn [fl_plane fl_unc fl_hand fl_air fl_dev fl_acc fl_done fl_panics ha_batch ha_msg ha_sent ha_tag] in *.

(** The producer's steps. *)
Lemma push_ok m u h air d acc dn k e r l held : ev_fits e -> ring_push TIMED_CAP e (em_ring m) = (true, r) ->
  flow_ok (mk_flow m u h air d acc dn k) l held -> flow_ok (mk_flow (em_set_ring r m) (S u) h air d (acc ++ [e]) dn k) (l ++ [e]) held.
Proof.
  intros He Hq [[t F1] F2 FH (gone & took & A1 & A2 & A3 & A4) F3 FU F4 F5 F6]. flow_cbn.
  pose proof (rep_push TIMED_CAP timed_cap_pow _ _ _ e F1) as Hp. destruct (zlen l <? TIMED_CAP).
  2: { rewrite Hp in Hq. discriminate Hq. }
  destruct Hp as (r' & Hr & Hrep). rewrite Hr in Hq. injection Hq as <-. split; flow_cbn; try done.
  - by exists t.
  - apply Forall_app. by split; [|constructor].
  - exists gone, took. rewrite A1, <- !app_assoc. done.
  - change (em_queued (em_set_ring r' m)) with (em_queued m). rewrite F3. f_equal. rewrite zlen_app, zlen_cons, zlen_nil. lia.
  - rewrite length_app. cbn [length]. lia.
Qed.

Lemma count_ok m u h air d acc dn k l held :
  flow_ok (mk_flow m (S u) h air d acc dn k) l held -> flow_ok (mk_flow (em_count m) u h air d acc dn k) l held.
Proof.
  intros [[t F1] F2 FH FA F3 FU F4 F5 F6]. flow_cbn. split; flow_cbn; try done; [by exists t| |lia].
  change (em_queued (em_count m)) with (u32 (em_queued m + 1)). rewrite F3. unfold u32. rewrite Zplus_mod_idemp_l. f_equal. lia.
Qed.

(** The pump's steps. *)
Lemma take_ok m u h air d acc dn k e r l held : ring_pop TIMED_CAP (em_ring m) = (Some e, r) ->
  flow_ok (mk_flow m u h air d acc dn k) l held ->
  exists l', l = e :: l' /\ flow_ok (mk_flow (note_stale (ha_tag h) e (em_set_ring r m)) u (take_ev e h) air d acc dn k) l' (held ++ [adjusted (ha_tag h) e]).
Proof.
  intros Hpop [[t F1] F2 (B1 & B2 & B3) (gone & took & A1 & A2 & A3 & A4) F3 FU F4 F5 F6]. flow_cbn.
  pose proof (rep_pop TIMED_CAP timed_cap_pow _ _ _ F1) as Hp. destruct l as [|e0 l]; [by rewrite Hp in Hpop|].
  destruct Hp as (r' & Hr & Hrep). rewrite Hr in Hpop. injection Hpop as <- <-. exists l. split; [done|].
  apply Forall_cons_iff in F2 as [He Hl].
  destruct (frame_ev_bytes HR (adjusted (ha_tag h) e0) (ha_msg h) (ha_batch h) (adjusted_fits _ _ He) B3) as [C1 C2].
  assert (forall m', em_ring (note_stale (ha_tag h) e0 m') = em_ring m' /\ em_queued (note_stale (ha_tag h) e0 m') = em_queued m' /\ em_base (note_stale (ha_tag h) e0 m') = em_base m') as Hst
    by (intros m'; unfold note_stale; by destruct (_ && _)).
  destruct (Hst (em_set_ring r' m)) as (S1 & S2 & S3). split; flow_cbn; try done.
  - exists (t + 1). by rewrite S1.
  - unfold take_ev. cbn [ha_batch ha_sent]. rewrite length_app, B1, C1, B2, map_app, flat_map_app. cbn [length map flat_map]. rewrite app_nil_r. split_and!; [lia|done|done].
  - exists gone, (took ++ [e0]). split; [by rewrite A1, <- !app_assoc|]. split; [|done]. apply Forall2_app; [done|]. constructor; [by eexists|constructor].
  - by rewrite S2.
  - by rewrite S3.
Qed.

Lemma write_ok m u b msg n x air d acc dn k l held :
  flow_ok (mk_flow m u (mk_hand b msg n x) air d acc dn k) l held ->
  flow_ok (mk_flow m u (mk_hand (harp_cbuf_reset b) msg 0 x) (air ++ wire_msgs n (cb_buf b)) d acc dn k) l [].
Proof.
  intros [F1 F2 (B1 & B2 & B3) (gone & took & A1 & A2 & A3 & A4) F3 FU F4 F5 F6]. flow_cbn. subst n. rewrite B2, wire_msgs_are.
  split; flow_cbn; try done. exists (gone ++ took), []. cbn [app]. split; [by rewrite A1, app_assoc|]. split; [constructor|]. split.
  - rewrite app_assoc, length_app, A3, length_map, length_app, (Forall2_length _ _ _ A2). lia.
  - intros Hk. rewrite app_assoc. apply Forall2_app; [by apply A4|].
    clear -A2. induction A2 as [|y y' took held (x' & ->) _ IH]; cbn [map]; constructor; [by eexists|done].
Qed.

Lemma step_ok s s' l held : flow_step s s' -> flow_ok s l held -> exists l' held', flow_ok s' l' held'.
Proof.
  intros Hst Hok. destruct Hst as [m u h air d acc dn k e r He Hq|m u h air d acc dn k|m u h air d acc dn k e r Hq|m u h air d acc dn k b|m u h air d acc dn k x
    |m u h air d acc dn k Hp|m u b msg x air d acc dn k|m u h air d acc dn k e r Hp|m u h air d acc dn k r Hp|m u b msg n x air d acc dn k
    |m u h buf air d acc dn k|m u h air d acc dn k|m u h air d d' acc dn k Hc Hsg];
    [by eexists _, _; eapply push_ok|by eexists _, _; apply count_ok| | | | | |destruct (take_ok _ _ _ _ _ _ _ _ _ _ _ _ Hp Hok) as (l' & _ & H); by exists l', (held ++ [adjusted (ha_tag h) e])
    | |by exists l, []; apply (write_ok _ _ _ _ _ _ _ _ _ _ _ _ held)| | |];
    exists l; destruct Hok as [[t F1] F2 FH (gone & took & A1 & A2 & A3 & A4) F3 FU F4 F5 F6]; flow_cbn; exists held.
  1-3: split; flow_cbn; try done; [by exists t|by exists gone, took].
  - split; flow_cbn; try done; [by exists t|]. exists gone, took. split; [done|]. split; [done|]. rewrite app_assoc. split; [|done].
    rewrite length_app, A3. cbn [length]. lia.
  - destruct FH as (B1 & B2 & B3). cbn in B1. destruct held; [|done]. split; flow_cbn; try done; [by exists t|by exists gone, took].
  - pose proof (rep_pop TIMED_CAP timed_cap_pow _ _ _ F1) as Hpp. destruct l as [|e0 l].
    + rewrite Hpp in Hp. injection Hp as <-. split; flow_cbn; try done; [by exists t|by exists gone, took].
    + destruct Hpp as (r' & Hr & _). rewrite Hr in Hp. discriminate Hp.
  - destruct (session_evt_total conf buf d) as [T1 T2]. split; flow_cbn; try done; [by exists t| | |by apply T2].
    + exists gone, took. by rewrite <- app_assoc.
    + rewrite T1, F5. unfold u32. rewrite Zplus_mod_idemp_l, zlen_app, zlen_cons, zlen_nil. f_equal.
  - split; flow_cbn; try done; [by exists t|by exists gone, took|by rewrite total_flush|].
    rewrite flush_upd. cbn [d_evt upd_evt]. rewrite flush_evt_stage. cbn. lia.
  - split; flow_cbn; try done; [by exists t|by exists gone, took| |by rewrite Hsg].
    rewrite <- F5. unfold evt_total. by rewrite Hc, Hsg.
Qed.

(** *** The code's own operations are runs of these steps *)

Lemma queue_ev_steps m u h air d acc dn k e ok m' : ev_fits e -> queue_ev e m = (ok, m') ->
  rtc flow_step (mk_flow m u h air d acc dn k) (mk_flow m' u h air d (if ok : bool then acc ++ [e] else acc) dn k).
Proof.
  intros He Hq. unfold queue_ev in Hq. destruct (ring_push TIMED_CAP e (em_ring m)) as [ok' r] eqn:Er. injection Hq as <- <-. destruct ok'.
  - eapply rtc_l; [by apply flow_push|]. apply rtc_once, flow_count.
  - apply rtc_once. by eapply flow_drop.
Qed.

Lemma drain_steps budget : forall b msg n m u air d acc dn k sent b' msg' m',
  drainOwner budget b msg m = (sent, b', msg', m') ->
  rtc flow_step (mk_flow m u (mk_hand b msg n (em_expected m)) air d acc dn k) (mk_flow m' u (mk_hand b' msg' (n + sent) (em_expected m)) air d acc dn k).
Proof.
  induction budget as [|budget IH]; intros b msg n m u air d acc dn k sent b' msg' m'; cbn [drainOwner].
  { intros [= <- <- <- <-]. rewrite Nat.add_0_r. apply rtc_refl. }
  destruct (ring_pop TIMED_CAP (em_ring m)) as [[e|] r] eqn:Er.
  2: { intros [= <- <- <- <-]. rewrite Nat.add_0_r. by apply rtc_once, flow_none. }
  set (m1 := note_stale (em_expected m) e (em_set_ring r m)).
  assert ((if stale_tag e (em_set_ring r m) then (restamp_now e, em_add_restamped (em_set_ring r m)) else (e, em_set_ring r m)) = (adjusted (em_expected m) e, m1)) as ->
    by (unfold m1, adjusted, stale_tag, note_stale; change (em_expected (em_set_ring r m)) with (em_expected m); by destruct (_ && _)).
  cbv zeta. destruct (drainOwner budget _ _ m1) as [[[sent1 b1] msg1] m2] eqn:Ed. intros [= <- <- <- <-].
  eapply rtc_l; [by apply flow_take|]. fold m1. unfold take_ev. cbn [ha_tag ha_msg ha_batch ha_sent].
  assert (em_expected m1 = em_expected m) as Hx by (unfold m1, note_stale; by destruct (_ && _)).
  pose proof (IH _ _ (S n) _ u air d acc dn k _ _ _ _ Ed) as H. rewrite Hx, Nat.add_succ_l, <- Nat.add_succ_r in H. exact H.
Qed.

(** A whole turn of the pump. *)
Lemma pump_steps m u b msg x air d acc dn k sent b' msg' m' :
  drainOwner PUMP_BUDGET (harp_cbuf_reset b) msg (takePanic m).2 = (sent, b', msg', m') ->
  rtc flow_step (mk_flow m u (mk_hand b msg 0 x) air d acc dn k)
    (mk_flow m' u (mk_hand (harp_cbuf_reset b') msg' 0 (em_expected m)) (air ++ (if em_panic m then [panic_bytes] else []) ++ wire_msgs sent (cb_buf b')) d acc dn
      (if em_panic m then S k else k)).
Proof.
  intros Hd. apply (drain_steps PUMP_BUDGET _ _ 0 _ u (air ++ if em_panic m then [panic_bytes] else []) d acc dn (if em_panic m then S k else k)) in Hd.
  apply (rtc_trans _ (mk_flow (takePanic m).2 u (mk_hand b msg 0 x) (air ++ if em_panic m then [panic_bytes] else []) d acc dn (if em_panic m then S k else k))).
  { destruct (em_panic m) eqn:Ep; apply rtc_once; [by apply flow_alloff|]. rewrite app_nil_r. apply flow_panic. }
  eapply rtc_l; [apply flow_drain|]. eapply rtc_trans; [exact Hd|].
  rewrite app_assoc. apply rtc_once, flow_write.
Qed.

Lemma reachable_ok s s' l held : rtc flow_step s s' -> flow_ok s l held -> exists l' held', flow_ok s' l' held'.
Proof.
  intros Hr. revert l held. induction Hr as [s|s s1 s2 Hst _ IH]; intros l held Hok; [by exists l, held|].
  destruct (step_ok _ _ _ _ Hst Hok) as (l1 & h1 & H1). by apply (IH l1 h1).
Qed.

(** The accepted events only grow. *)
Lemma acc_grows s s' : rtc flow_step s s' -> fl_acc s `prefix_of` fl_acc s'.
Proof.
  induction 1 as [|s s1 s2 Hst _ IH]; [done|]. etransitivity; [|exact IH]. destruct Hst; cbn; try done. by eexists.
Qed.

(** The events counted: all the ring accepted but those between push and count. *)
Definition counted_evs (s : flow) : Z := zlen (fl_acc s) - Z.of_nat (fl_unc s).

Lemma counted_range s l held : flow_ok s l held -> 0 <= counted_evs s <= zlen (fl_acc s).
Proof. intros [_ _ _ _ _ FU _ _ _]. unfold counted_evs, zlen. lia. Qed.

Lemma stamp_is s l held : flow_ok s l held -> zlen (fl_acc s) < 2 ^ 31 -> fenceStamp (fl_plane s) = counted_evs s.
Proof.
  intros Hok Hb. pose proof (counted_range _ _ _ Hok). destruct Hok as [_ _ _ _ F3 _ F4 _ _]. fold (counted_evs s) in F3.
  rewrite u32_small in F3 by (unfold is_u32; lia).
  unfold fenceStamp. rewrite F3, F4. destruct (Z.ltb_spec 0 (counted_evs s)); lia.
Qed.

(** What the device finds missing for a stamp [n]. *)
Lemma pending_is s l held n : flow_ok s l held -> 0 <= n <= zlen (fl_acc s) -> zlen (fl_acc s) + Z.of_nat (fl_panics s) + 256 < 2 ^ 31 ->
  s32 (n - es_consumed (d_evt (fl_dev s))) = n - zlen (fl_done s) + zlen (es_stage (d_evt (fl_dev s))).
Proof.
  intros [_ _ _ (gone & took & A1 & _ & A2 & _) _ _ _ F5 F6] Hn Hb. unfold evt_total in F5.
  set (c := es_consumed _) in *. set (st := es_stage _) in *. pose proof (zlen_nonneg st). pose proof (zlen_nonneg (fl_done s)).
  assert (zlen st <= 64) as Hst by (unfold EVT_STAGE_CAP, zlen in *; lia).
  assert (zlen (fl_done s) <= zlen (fl_acc s) + Z.of_nat (fl_panics s)) as Hd.
  { rewrite A1. unfold zlen. rewrite !length_app in *. lia. }
  assert (u32 (n - c) = u32 (n - zlen (fl_done s) + zlen st)) as E1.
  { unfold u32 in *. replace (n - c) with (n + zlen st - (c + zlen st)) by lia.
    replace (n - zlen (fl_done s) + zlen st) with (n + zlen st - zlen (fl_done s)) by lia.
    rewrite Zminus_mod, F5, <- Zminus_mod. done. }
  unfold s32. rewrite E1. unfold u32. destruct (Z.le_gt_cases 0 (n - zlen (fl_done s) + zlen st)).
  - rewrite Z.mod_small by lia. by rewrite (proj2 (Z.ltb_lt _ _)) by lia.
  - assert ((n - zlen (fl_done s) + zlen st) mod 2 ^ 32 = n - zlen (fl_done s) + zlen st + 2 ^ 32) as ->.
    { symmetry. apply (Z.mod_unique_pos _ _ (-1)); lia. }
    rewrite (proj2 (Z.ltb_ge _ _)) by lia. lia.
Qed.

(** C13: the event fence counts what is on the way.  From the start of a stream, as long
    as it is not renegotiated, and under every interleaving of the producer (which
    pushes an event and counts it later), the control thread, the pump (which takes the
    events one by one into a batch and writes it later), the session thread and the rest
    of the device: what the device finds missing for the stamp the host would send now
    is exactly the events waiting on the ring, plus those in the pump's batch, plus the
    messages written and not yet handled, plus the events still staged, less the events
    pushed and not yet counted, and less the all-notes-off messages sent (which the
    device counts and the host does not).  So as long as no all-notes-off was sent, a
    device that finds nothing missing for a stamp has handled, in the order they were
    queued, a message for every event counted before the stamp was taken, and keeps none
    of them staged.  Memory lasts, and fewer than 2^31 - 256 events and all-notes-off
    messages have passed. *)
Theorem fence_counts s0 s1 s : flow_start s0 -> rtc flow_step s0 s1 -> rtc flow_step s1 s ->
  zlen (fl_acc s) + Z.of_nat (fl_panics s) + 256 < 2 ^ 31 ->
  (exists waiting, waits (fl_plane s) waiting /\
     s32 (fenceStamp (fl_plane s) - es_consumed (d_evt (fl_dev s))) =
       zlen waiting + Z.of_nat (ha_sent (fl_hand s)) + zlen (fl_air s) + zlen (es_stage (d_evt (fl_dev s))) - Z.of_nat (fl_unc s) - Z.of_nat (fl_panics s)) /\
  (fl_panics s = O -> s32 (fenceStamp (fl_plane s1) - es_consumed (d_evt (fl_dev s))) <= 0 ->
     exists rest, counted_evs s1 + zlen (es_stage (d_evt (fl_dev s))) <= zlen (fl_done s) /\
       fl_acc s = fl_acc s1 ++ rest /\ Forall2 sent_as (take (length (fl_done s)) (fl_acc s)) (fl_done s)).
Proof.
  intros Hst R1 R2 Hb. destruct (reachable_ok _ _ _ _ R1 (start_ok _ Hst)) as (l1 & h1 & O1). destruct (reachable_ok _ _ _ _ R2 O1) as (l & held & O2).
  destruct (acc_grows _ _ R2) as [rest Hg]. pose proof (counted_range _ _ _ O1). pose proof (counted_range _ _ _ O2).
  assert (zlen (fl_acc s1) <= zlen (fl_acc s)) as Hle by (rewrite Hg; unfold zlen; rewrite length_app; lia).
  pose proof O2 as [F1 _ (B1 & _) (gone & took & A1 & A0 & A2 & A3) _ _ _ _ _]. rewrite length_app in A2. apply Forall2_length in A0. split.
  - exists l. split; [done|]. rewrite (stamp_is _ _ _ O2), (pending_is _ _ _ _ O2) by lia. unfold counted_evs. rewrite A1, B1. unfold zlen. rewrite !length_app. lia.
  - intros Hk Hp. rewrite (stamp_is _ _ _ O1), (pending_is _ _ _ _ O2) in Hp by lia. exists rest. split; [lia|]. split; [done|].
    specialize (A3 Hk). apply Forall2_app_inv_r in A3 as (g1 & g2 & G1 & _ & Eg). rewrite A1, Eg, <- app_assoc.
    rewrite <- (Forall2_length _ _ _ G1). by rewrite take_app_length.
Qed.
End fence.

(** ** Concrete runs *)

Section demo.
#[local] Existing Instances demo_link demo_env alloc_all os_good no_faults demo_conv.

Lemma alloc_all_total : realloc_total alloc_all.
Proof. done. Qed.

Definition demo_plane : event_plane := em_init (repeat demo_ramp 1024).
Lemma demo_plane_waits : waits demo_plane [].
Proof. exists 0. split; [by vm_compute|]. split_and!; try done. intros k Hk. cbn in Hk. lia. Qed.

(** A ramp of another timeline and one of this. *)
Definition demo_two : event_plane :=
  (queue_ev demo_ramp (queue_ev (mk_te 1 7 0x3f000000 480 960 3 5) demo_plane).2).2.
Lemma demo_two_waits : waits demo_two [mk_te 1 7 0x3f000000 480 960 3 5; demo_ramp].
Proof.
  exists 0. split; [by vm_compute|]. split; [done|]. split; [by vm_compute|]. split; [by vm_compute|]. split; [by vm_compute|].
  intros [|[|k]] Hk; [by vm_compute|by vm_compute|cbn in Hk; lia].
Qed.

Definition demo_drain : nat * cbuf * cbuf * event_plane := drainOwner PUMP_BUDGET (harp_cbuf_reset harp_cbuf_init) harp_cbuf_init demo_two.

Lemma drain_delivers_witness :
  let s := mk_link (mk_fd [RdData (cb_buf demo_drain.1.1.2 ++ [9])] [] [] 0) harp_link_init harp_cbuf_init in
  demo_drain.1.1.1 = 2%nat /\ exists s', receive 2 s =
    ([(1, msg_bytes (mk_te 0 7 0x3f000000 0 960 3 5)); (1, msg_bytes demo_ramp)], s') /\ pipe_in (ls_io s') = [9].
Proof.
  intros s. assert (Forall ev_fits [mk_te 1 7 0x3f000000 480 960 3 5; demo_ramp]) as Hl.
  { constructor; [|constructor; [apply demo_ramp_fits|constructor]]. split_and!; try done; unfold is_u32, is_u64; cbn; lia. }
  pose proof (drain_delivers PUMP_BUDGET harp_cbuf_init harp_cbuf_init demo_two _ s (repeat [] 4) [9] alloc_all_total demo_two_waits Hl) as H.
  fold demo_drain in H. destruct demo_drain as [[[sent batch] msgbuf] m'] eqn:Ed. cbn [fst snd] in *.
  destruct H as (H1 & _ & _ & s' & H2 & H3 & _).
  - split; [done|]. split; [done|]. intros b Hb. apply list_elem_of_In in Hb. cbn in Hb. intuition (subst; reflexivity).
  - done.
  - unfold s. cbn [ls_io]. by rewrite one_delivery.
  - change (Nat.min PUMP_BUDGET (length [mk_te 1 7 0x3f000000 480 960 3 5; demo_ramp])) with 2%nat in H1. rewrite H1 in H2.
    split; [exact H1|]. exists s'. split; [exact H2|exact H3].
Defined.

Definition demo_ev : timed_ev := mk_te 1 7 0x3f000000 480 960 3 5.
Lemma demo_ev_fits : ev_fits demo_ev.
Proof. split_and!; try done; unfold is_u32, is_u64; cbn; lia. Qed.
Definition no_hand : hand := mk_hand harp_cbuf_init harp_cbuf_init 0 0.
Definition demo_start : flow := mk_flow demo_plane 0 no_hand [] demo_state [] [] 0.

(** The first event is counted and in the pump's batch, the second is on the ring and
    not yet counted. *)
Definition demo_pushed : event_plane := em_set_ring (ring_push TIMED_CAP demo_ramp (em_ring (queue_ev demo_ev demo_plane).2)).2 (queue_ev demo_ev demo_plane).2.
Definition demo_busy : flow :=
  mk_flow (note_stale 0 demo_ev (em_set_ring (ring_pop TIMED_CAP (em_ring demo_pushed)).2 demo_pushed)) 1 (take_ev demo_ev no_hand) [] demo_state [demo_ev; demo_ramp] [] 0.

Lemma fence_counts_witness : exists waiting, waits (fl_plane demo_busy) waiting /\
  s32 (fenceStamp (fl_plane demo_busy) - es_consumed (d_evt demo_state)) = zlen waiting + 1 + 0 + 0 - 1 - 0.
Proof.
  destruct (fence_counts alloc_all_total demo_conf demo_start (mk_flow (queue_ev demo_ev demo_plane).2 0 no_hand [] demo_state [demo_ev] [] 0) demo_busy) as [(w & H1 & H2) _].
  - split; [exact demo_plane_waits|]. repeat split.
  - apply (queue_ev_steps demo_conf demo_plane 0 no_hand [] demo_state [] [] 0 demo_ev true); [exact demo_ev_fits|by vm_compute].
  - eapply rtc_l; [apply flow_push with (e := demo_ramp) (r := em_ring demo_pushed); [apply demo_ramp_fits|by vm_compute]|].
    apply rtc_once. change (em_set_ring (em_ring demo_pushed) (queue_ev demo_ev demo_plane).2) with demo_pushed.
    apply (flow_take demo_conf demo_pushed 1 no_hand [] demo_state ([demo_ev] ++ [demo_ramp]) [] 0 demo_ev). by vm_compute.
  - by vm_compute.
  - exists w. split; [exact H1|exact H2].
Defined.
End demo.
