(* ===== verification/EthAudio.v ===== *)
(** * The Ethernet transport's audio

    [recvAudio] and [reassembleGroup] of shell/eth_transport.h: one datagram per call,
    the loss count, and the reassembly of a wide frame from its groups of slots.  The
    socket is an argument. *)
From Stdlib Require Import ZArith Lia List Bool.
From stdpp Require Import base tactics list numbers.
From S2P Require Import Prelude Frame Device Freerun Rtp.
Open Scope Z_scope.
Open Scope list_scope.

Definition kReasmSlots : nat := 34.
Definition kReasmNs : nat := 256.
Definition RXPKT : nat := 65536.
Definition HARP_RTP_GROUP_HDR_BYTES : nat := 4.

(** [lastSeq_], [seqValid_], [rtpLost_], [lastArr_]; [reasm_] and what describes it. *)
Record eth_rx := mk_eth {
  et_last_seq : Z; et_seq_valid : bool; et_lost : Z; et_last_arr : Z;
  et_reasm : list Z; et_ts : Z; et_valid : bool; et_total : nat; et_ns : nat }.
Definition eth_init : eth_rx := mk_eth 0 false 0 0 (repeat 0 (kReasmNs * kReasmSlots)) 0 false 0 0.

Definition et_set_frame (buf : list Z) (ts : Z) (v : bool) (total ns : nat) (e : eth_rx) : eth_rx :=
  mk_eth (et_last_seq e) (et_seq_valid e) (et_lost e) (et_last_arr e) buf ts v total ns.

(** The floats of a payload. *)
Definition floats_of (pl : list Z) : list Z := map (fun i => get32 pl (4 * i)) (seq 0 (length pl / 4)).

(** The group's columns [off .. off + cnt) of the union frame. *)
Definition scatter (off cnt total ns : nat) (sf buf : list Z) : list Z :=
  fold_left (fun buf p => <[(p.1 * total + off + p.2)%nat := nth (p.1 * cnt + p.2) sf 0]> buf) (list_prod (seq 0 ns) (seq 0 cnt)) buf.

(** A group of another timestamp hands over the frame assembled so far. *)
Definition flush_frame (ts : Z) (maxFloats : nat) (e : eth_rx) : option (list Z * Z) * eth_rx :=
  if et_valid e && negb (ts =? et_ts e)
  then (Some (take (Nat.min (et_ns e * et_total e) maxFloats) (et_reasm e), et_ts e),
        et_set_frame (et_reasm e) (et_ts e) false (et_total e) (et_ns e) e)
  else (None, e).

(** A fresh frame is silence. *)
Definition open_frame (ts : Z) (total ns : nat) (e : eth_rx) : eth_rx :=
  if et_valid e then e else et_set_frame (repeat 0 (kReasmNs * kReasmSlots)) ts true total ns e.

Definition reassembleGroup (h : harp_rtp_hdr) (pl : list Z) (maxFloats : nat) (e : eth_rx) : option (list Z * Z) * eth_rx :=
  if (length pl <? HARP_RTP_GROUP_HDR_BYTES)%nat then (None, e)
  else
    let off := Z.to_nat (byte_at pl 0) in
    let cnt := Z.to_nat (byte_at pl 1) in
    let total := Z.to_nat (byte_at pl 2) in
    let body := drop HARP_RTP_GROUP_HDR_BYTES pl in
    if (cnt =? 0)%nat || (total =? 0)%nat || (kReasmSlots <? total)%nat || (total <? off + cnt)%nat || negb (length body mod 4 =? 0)%nat then (None, e)
    else
      let ns := (length body / 4 / cnt)%nat in
      if (ns =? 0)%nat || (kReasmNs <? ns)%nat then (None, e)
      else
        let '(out, e) := flush_frame (rtp_timestamp h) maxFloats e in
        let e := open_frame (rtp_timestamp h) total ns e in
        (out,
         if (total =? et_total e)%nat && (ns =? et_ns e)%nat
         then et_set_frame (scatter off cnt total ns (floats_of body) (et_reasm e)) (et_ts e) true (et_total e) (et_ns e) e
         else e).

(** Lost packets, from the gaps of the sequence numbers. *)
Definition eth_sequence (seq arr : Z) (e : eth_rx) : eth_rx :=
  let '(lost, last) :=
    if et_seq_valid e then let '(lost, advance) := harp_rtp_loss_gap (et_last_seq e) seq in (lost, if advance : bool then seq else et_last_seq e)
    else (0, seq) in
  mk_eth last true (u64 (et_lost e + lost)) arr (et_reasm e) (et_ts e) (et_valid e) (et_total e) (et_ns e).

(** One packet: the floats handed out, with their timestamp.  A single-packet frame
    sets the caller's timestamp even when its payload is not whole floats. *)
Definition recvAudio (maxFloats : nat) (ev : rx_ev) (e : eth_rx) : list Z * option Z * eth_rx :=
  match ev with
  | RxDatagram d mono _ =>
      match harp_rtp_unpack (take RXPKT d) with
      | Some (h, pl) =>
          let e := eth_sequence (rtp_seq h) mono e in
          if rtp_pt h =? HARP_RTP_PT_GROUP then
            let '(out, e) := reassembleGroup h pl maxFloats e in
            match out with Some (l, ts) => (l, Some ts, e) | None => ([], None, e) end
          else if negb (length pl mod 4 =? 0)%nat then ([], Some (rtp_timestamp h), e)
          else (take maxFloats (floats_of pl), Some (rtp_timestamp h), e)
      | None => ([], None, e)
      end
  | RxTimeout | RxError => ([], None, e)
  end.

Definition silentMs (now : Z) (e : eth_rx) : Z :=
  if et_last_arr e =? 0 then 0 else if et_last_arr e <? now then u32 ((now - et_last_arr e) / 1000000) else 0.

(** The reader's calls: the frames it gets, with their timestamps. *)
Fixpoint eth_run (maxFloats : nat) (evs : list rx_ev) (e : eth_rx) : list (list Z * option Z) * eth_rx :=
  match evs with
  | [] => ([], e)
  | ev :: evs =>
      let '(out, ts, e) := recvAudio maxFloats ev e in
      let '(outs, e) := eth_run maxFloats evs e in
      (if bool_decide (out = []) then outs else (out, ts) :: outs, e)
  end.
