(* ===== verification/EthAudioSpec.v ===== *)
(** * The Ethernet transport's audio: theorems

    A wide frame survives its journey in groups: what the device sends for a block and
    the network delivers is reassembled, column by column, with silence where a group
    was lost, and the losses are counted. *)
From Stdlib Require Import ZArith Lia List Bool Sorting.Sorted.
From stdpp Require Import base tactics list numbers.
From S2P Require Import Prelude Frame Device Freerun Rtp RtpSpec EthAudio.
Open Scope Z_scope.
Open Scope list_scope.

(** ** Floats and columns *)

Lemma get32_put32 v l : is_u32 v -> get32 (put32 v ++ l) 0 = v.
Proof.
  intros Hv. change (get32 (put32 v ++ l) 0) with (get32 (put32 v) 0).
  rewrite get32_le by (unfold put32, bytes_ok; repeat (constructor; [apply u8_range|]); constructor). by apply le32_split.
Qed.

Lemma floats_of_bytes l : Forall is_u32 l -> floats_of (float_bytes l) = l.
Proof.
  intros Hl. unfold floats_of. rewrite float_bytes_len, Nat.mul_comm, Nat.div_mul by lia.
  induction Hl as [|x l Hx Hl IH]; [done|]. cbn [length]. rewrite <- cons_seq, <- seq_shift, map_cons, map_map. f_equal.
  - change (float_bytes (x :: l)) with (put32 x ++ float_bytes l). by apply get32_put32.
  - etransitivity; [|exact IH]. apply map_ext. intros i. change (float_bytes (x :: l)) with (put32 x ++ float_bytes l).
    unfold get32, byte_at. replace (4 * S i)%nat with (4 + 4 * i)%nat by lia. cbn [app put32 nth Nat.add]. done.
Qed.

(** Writes whose values depend on the place only. *)
Lemma write_all (f : nat -> Z) (at_ : nat * nat -> nat) (val : nat * nat -> Z) ps : forall buf,
  (forall p, In p ps -> (at_ p < length buf)%nat /\ val p = f (at_ p)) ->
  let buf' := fold_left (fun buf p => <[at_ p := val p]> buf) ps buf in
  length buf' = length buf /\ forall i, nth i buf' 0 = if bool_decide (i ∈ map at_ ps) then f i else nth i buf 0.
Proof.
  induction ps as [|p ps IH]; intros buf Hp; [done|]. cbn [fold_left map].
  destruct (Hp p (or_introl eq_refl)) as [Hl Hv].
  destruct (IH (<[at_ p := val p]> buf)) as [I1 I2].
  { intros q Hq. rewrite length_insert. apply Hp. by right. }
  split; [by rewrite I1, length_insert|]. intros i. rewrite I2. clear I1 I2 IH.
  destruct (decide (i ∈ map at_ ps)) as [Hi|Hi].
  - rewrite !bool_decide_true; [done|by right|done].
  - rewrite (bool_decide_false (i ∈ map at_ ps)) by done. destruct (decide (at_ p = i)) as [<-|Hne].
    + rewrite bool_decide_true by left. by rewrite nth_lookup, list_lookup_insert_eq.
    + rewrite bool_decide_false by (rewrite elem_of_cons; intros [?|?]; congruence). by rewrite !nth_lookup, list_lookup_insert_ne.
Qed.

Lemma column_place S s c : (c < S)%nat -> ((s * S + c) mod S = c /\ (s * S + c) / S = s)%nat.
Proof.
  intros Hc. rewrite Nat.add_comm, Nat.Div0.mod_add, Nat.div_add by lia. rewrite Nat.mod_small, Nat.div_small by lia. lia.
Qed.

(** A block of [n] rows of [c] columns, row by row. *)
Lemma nth_rows (f : nat -> nat -> Z) n c : forall s j, (s < n)%nat -> (j < c)%nat ->
  nth (s * c + j) (flat_map (fun s => map (f s) (seq 0 c)) (seq 0 n)) 0 = f s j.
Proof.
  assert (forall a s j, (s < n)%nat -> (j < c)%nat -> nth (s * c + j) (flat_map (fun s => map (f s) (seq 0 c)) (seq a n)) 0 = f (a + s)%nat j) as H; [|intros s j; apply (H 0%nat)].
  induction n as [|n IH]; intros a s j Hs Hj; [lia|]. cbn [seq flat_map]. destruct s as [|s].
  - rewrite app_nth1 by (rewrite length_map, length_seq; lia). rewrite Nat.add_0_r. cbn [Nat.mul Nat.add].
    rewrite (nth_indep _ 0 (f a 0%nat)) by (rewrite length_map, length_seq; lia). rewrite (map_nth (f a)). by rewrite seq_nth.
  - rewrite app_nth2 by (rewrite length_map, length_seq; nia). rewrite length_map, length_seq.
    replace (S s * c + j - c)%nat with (s * c + j)%nat by nia. rewrite IH by lia. f_equal. lia.
Qed.

Lemma group_floats_len ns S off cnt l : length (group_floats ns S off cnt l) = (ns * cnt)%nat.
Proof.
  unfold group_floats. rewrite (flat_map_constant_length (c := cnt)), length_seq; [done|]. intros s _. by rewrite length_map, length_seq.
Qed.

(** A group's columns are the frame's. *)
Lemma scatter_group ns S off cnt l buf : (off + cnt <= S)%nat -> (ns * S <= length buf)%nat ->
  let buf' := scatter off cnt S ns (group_floats ns S off cnt l) buf in
  length buf' = length buf /\
  forall i, nth i buf' 0 = if (i <? ns * S)%nat && (off <=? i mod S)%nat && (i mod S <? off + cnt)%nat then nth i l 0 else nth i buf 0.
Proof.
  intros Hoff Hlen. unfold scatter.
  destruct (write_all (fun i => nth i l 0) (fun p => (p.1 * S + off + p.2)%nat) (fun p => nth (p.1 * cnt + p.2) (group_floats ns S off cnt l) 0) (list_prod (seq 0 ns) (seq 0 cnt)) buf) as [W1 W2].
  { intros [s c] Hp. apply in_prod_iff in Hp as [Hs Hc]. apply in_seq in Hs, Hc. cbn [fst snd]. split; [nia|].
    unfold group_floats. by rewrite (nth_rows (fun s c => nth (s * S + off + c) l 0)) by lia. }
  split; [exact W1|]. intros i. rewrite W2. clear W1 W2.
  assert (i ∈ (map (fun p => (p.1 * S + off + p.2)%nat) (list_prod (seq 0 ns) (seq 0 cnt))) <->
    (i <? ns * S)%nat && (off <=? i mod S)%nat && (i mod S <? off + cnt)%nat = true) as Hiff.
  { rewrite list_elem_of_In, in_map_iff, !andb_true_iff, !Nat.ltb_lt, Nat.leb_le. split.
    - intros ([s c] & <- & Hp). apply in_prod_iff in Hp as [Hs Hc]. apply in_seq in Hs, Hc. cbn [fst snd].
      rewrite <- Nat.add_assoc. destruct (column_place S s (off + c) ltac:(lia)) as [-> _]. nia.
    - intros [[H1 H2] H3]. exists (i / S, i mod S - off)%nat. cbn [fst snd]. assert (S <> 0)%nat as HS by lia. pose proof (Nat.div_mod_eq i S).
      split; [nia|]. apply in_prod_iff. rewrite !in_seq. split; [|lia]. split; [lia|]. cbn. apply Nat.Div0.div_lt_upper_bound. lia. }
  destruct ((i <? ns * S)%nat && _ && _); [by rewrite bool_decide_true by by apply Hiff|].
  rewrite bool_decide_false; [done|]. intros Hi. by apply Hiff in Hi.
Qed.

(** ** A stream of wide blocks *)

Section stream.
Context (pct : Z) (a : audio_state) (S ns : nat) (blk : nat -> list Z) (msc0 s0 : Z) (mono : nat -> nat -> Z).

(** The groups of a block, and the datagram of group [k] of block [i]. *)
Definition groups : nat := (S + 7) / HARP_RTP_MAX_GROUP_SLOTS.
Definition group_off (k : nat) : nat := k * HARP_RTP_MAX_GROUP_SLOTS.
Definition group_cnt (k : nat) : nat := Nat.min (S - group_off k) HARP_RTP_MAX_GROUP_SLOTS.
Definition gseq (i k : nat) : Z := u16 (s0 + Z.of_nat (i * groups + k)).
Definition gts (i : nat) : Z := u32 (block_msc ns msc0 i).
Definition gdgram (i k : nat) : list Z :=
  rtp_header (mk_rtp HARP_RTP_PT_GROUP 0 (gseq i k) (gts i) (a_rtp_ssrc a)) ++
  [u8 (Z.of_nat (group_off k)); u8 (Z.of_nat (group_cnt k)); u8 (Z.of_nat S); 0] ++ float_bytes (group_floats ns S (group_off k) (group_cnt k) (blk i)).
Definition sent_groups (i : nat) : list nat := List.filter (fun k => negb (rtp_inject pct (gseq i k))) (seq 0 groups).

Hypothesis (Hfd : 0 <= a_rtp_fd a) (HS : length (a_out_slots a) = S) (Hwide : (HARP_RTP_MAX_GROUP_SLOTS < S <= kReasmSlots)%nat) (Hns : (0 < ns <= kReasmNs)%nat).

Lemma groups_emit i g : forall o, ro_seq o = gseq i 0 ->
  let o' := fold_left (rtp_group pct ns S (blk i) (block_msc ns msc0 i) (a_rtp_ssrc a)) (map (fun k => (k * HARP_RTP_MAX_GROUP_SLOTS)%nat) (seq 0 g)) o in
  ro_sent o' = ro_sent o ++ map (gdgram i) (List.filter (fun k => negb (rtp_inject pct (gseq i k))) (seq 0 g)) /\ ro_seq o' = gseq i g.
Proof.
  intros o Ho. cbv zeta. induction g as [|g [I1 I2]]; [cbn; by rewrite app_nil_r|].
  rewrite seq_S, map_app, fold_left_app, filter_app, map_app. cbn [Nat.add map fold_left List.filter].
  set (o1 := fold_left _ _ o) in *. unfold rtp_group. cbv zeta. rewrite I2.
  assert (u16 (gseq i g + 1) = gseq i (Datatypes.S g)) as Hu.
  { unfold gseq, u16. rewrite Zplus_mod_idemp_l. f_equal. lia. }
  destruct (rtp_inject pct (gseq i g)); cbn [negb map rtp_next_seq rtp_send_one ro_seq ro_sent].
  - rewrite app_nil_r, I2, Hu. done.
  - rewrite I1, I2, Hu, <- app_assoc. done.
Qed.

Lemma wide_emit n : forall o, ro_seq o = u16 s0 ->
  let o' := fold_left (block_emit pct a ns blk msc0) (seq 0 n) o in
  ro_sent o' = ro_sent o ++ flat_map (fun i => map (gdgram i) (sent_groups i)) (seq 0 n) /\ ro_seq o' = gseq n 0.
Proof.
  intros o Ho. cbv zeta. induction n as [|n [I1 I2]].
  - cbn. rewrite app_nil_r. split; [done|]. rewrite Ho. unfold gseq. by rewrite Z.add_0_r.
  - rewrite seq_S, fold_left_app, flat_map_app. cbn [Nat.add fold_left flat_map]. rewrite app_nil_r.
    set (o1 := fold_left _ _ o) in *. destruct (groups_emit n groups o1 I2) as [G1 G2]. unfold block_emit, audio_rtp_emit. destruct (Z.ltb_spec (a_rtp_fd a) 0); [lia|]. cbv zeta.
    destruct (a_out_slots a) as [|x slots]; [cbn in HS; unfold HARP_RTP_MAX_GROUP_SLOTS in *; lia|]. rewrite HS.
    rewrite (proj2 (Nat.ltb_lt _ _)) by lia.
    assert (Z.to_nat (u32 (Z.of_nat (ns * S * 4) / (Z.of_nat S * 4))) = ns) as ->.
    { replace (Z.of_nat (ns * S * 4)) with (Z.of_nat ns * (Z.of_nat S * 4)) by lia. rewrite Z.div_mul by lia.
      rewrite u32_small by (unfold is_u32, kReasmNs in *; lia). lia. }
    unfold group_offsets. fold groups. rewrite G1, G2, I1, <- app_assoc. split; [done|].
    unfold gseq. do 2 f_equal. lia.
Qed.

(** *** Receiving *)

Hypothesis (Hblk : forall i, length (blk i) = (ns * S)%nat /\ Forall is_u32 (blk i)) (Hssrc : is_u32 (a_rtp_ssrc a)).

Lemma group_bounds k : (k < groups)%nat -> (0 < group_cnt k /\ group_off k + group_cnt k <= S)%nat.
Proof.
  intros Hk. unfold group_cnt, group_off, groups, HARP_RTP_MAX_GROUP_SLOTS in *. pose proof (Nat.div_mod_eq (S + 7) 8). lia.
Qed.

Lemma group_floats_u32 i k : Forall is_u32 (group_floats ns S (group_off k) (group_cnt k) (blk i)).
Proof.
  unfold group_floats. apply Forall_flat_map, Forall_forall. intros s _. apply Forall_map, Forall_forall. intros c _.
  destruct (nth_in_or_default (s * S + group_off k + c) (blk i) 0) as [Hin| ->]; [|unfold is_u32; lia].
  destruct (Hblk i) as [_ Hu]. rewrite Forall_forall in Hu. by apply Hu.
Qed.

(** A frame with the groups [ks] of block [i]. *)
Definition in_groups (ks : list nat) (j : nat) : bool := existsb (Nat.eqb (j mod S / HARP_RTP_MAX_GROUP_SLOTS)) ks.
Definition concealed (i : nat) (ks : list nat) : list Z := map (fun j => if in_groups ks j then nth j (blk i) 0 else 0) (seq 0 (ns * S)).
Definition holds (i : nat) (ks : list nat) (e : eth_rx) : Prop :=
  et_valid e = true /\ et_ts e = gts i /\ et_total e = S /\ et_ns e = ns /\ length (et_reasm e) = (kReasmNs * kReasmSlots)%nat /\
  forall j, nth j (et_reasm e) 0 = if (j <? ns * S)%nat && in_groups ks j then nth j (blk i) 0 else 0.

Lemma frame_size : (ns * S <= kReasmNs * kReasmSlots)%nat.
Proof. apply Nat.mul_le_mono; lia. Qed.

Lemma holds_frame i ks e maxf : holds i ks e -> (ns * S <= maxf)%nat -> take (Nat.min (et_ns e * et_total e) maxf) (et_reasm e) = concealed i ks.
Proof.
  intros (_ & _ & -> & -> & Hl & Hn) Hm. rewrite Nat.min_l by done. pose proof frame_size.
  apply nth_ext with (d := 0) (d' := 0); [unfold concealed; rewrite length_take, length_map, length_seq; lia|].
  rewrite length_take. intros j Hj. rewrite nth_lookup, lookup_take_lt by lia. rewrite <- nth_lookup. rewrite Hn, (proj2 (Nat.ltb_lt _ _)) by lia. cbn [andb].
  unfold concealed. set (f := fun j => if in_groups ks j then nth j (blk i) 0 else 0).
  rewrite (nth_indep (map f _) 0 (f 0%nat)) by (rewrite length_map, length_seq; lia). rewrite (map_nth f). by rewrite seq_nth by lia.
Qed.

(** The scatter adds a group. *)
Lemma holds_add i ks k e : (k < groups)%nat -> holds i ks e ->
  holds i (k :: ks) (et_set_frame (scatter (group_off k) (group_cnt k) S ns (group_floats ns S (group_off k) (group_cnt k) (blk i)) (et_reasm e)) (et_ts e) true (et_total e) (et_ns e) e).
Proof.
  intros Hk (H1 & H2 & H3 & H4 & H5 & H6). destruct (group_bounds k Hk) as [B1 B2]. pose proof frame_size.
  destruct (scatter_group ns S (group_off k) (group_cnt k) (blk i) (et_reasm e) B2 ltac:(lia)) as [S1 S2].
  split_and!; try done; [by rewrite <- H5|]. intros j. cbn [et_reasm et_set_frame]. rewrite S2, H6. clear S1 S2 H6.
  destruct (Nat.ltb_spec j (ns * S)); cbn [andb]; [|done].
  assert (in_groups (k :: ks) j = ((group_off k <=? j mod S)%nat && (j mod S <? group_off k + group_cnt k)%nat) || in_groups ks j) as ->.
  { unfold in_groups. cbn [existsb]. f_equal. pose proof (Nat.mod_upper_bound j S ltac:(lia)) as Hm. revert Hm. generalize (j mod S)%nat as c. intros c Hc.
    unfold group_cnt, group_off, HARP_RTP_MAX_GROUP_SLOTS in *. pose proof (Nat.div_mod_eq c 8). pose proof (Nat.mod_upper_bound c 8 ltac:(lia)).
    destruct (Nat.eqb_spec (c / 8) k), (Nat.leb_spec (k * 8) c), (Nat.ltb_spec c (k * 8 + Nat.min (S - k * 8) 8)); cbn [andb]; try done; lia. }
  by destruct ((group_off k <=? _)%nat && _), (in_groups ks j).
Qed.

Lemma holds_open i e : et_valid e = false -> holds i [] (open_frame (gts i) S ns e).
Proof.
  intros Hv. unfold open_frame. rewrite Hv. split_and!; try done. intros j. cbn [et_reasm et_set_frame].
  rewrite andb_false_r. apply nth_repeat.
Qed.

(** The groups of a datagram are valid, and its floats those of the block. *)
Lemma group_accepted i k maxf e : (k < groups)%nat ->
  reassembleGroup (mk_rtp HARP_RTP_PT_GROUP 0 (gseq i k) (gts i) (a_rtp_ssrc a))
    ([u8 (Z.of_nat (group_off k)); u8 (Z.of_nat (group_cnt k)); u8 (Z.of_nat S); 0] ++ float_bytes (group_floats ns S (group_off k) (group_cnt k) (blk i))) maxf e =
  let '(out, e) := flush_frame (gts i) maxf e in
  let e := open_frame (gts i) S ns e in
  (out, if (S =? et_total e)%nat && (ns =? et_ns e)%nat
        then et_set_frame (scatter (group_off k) (group_cnt k) S ns (group_floats ns S (group_off k) (group_cnt k) (blk i)) (et_reasm e)) (et_ts e) true (et_total e) (et_ns e) e
        else e).
Proof.
  intros Hk. destruct (group_bounds k Hk) as [B1 B2]. unfold reassembleGroup. cbn [length app]. change (_ <? HARP_RTP_GROUP_HDR_BYTES)%nat with false at 1. cbv iota zeta.
  unfold byte_at. cbn [nth app]. change HARP_RTP_GROUP_HDR_BYTES with 4%nat. cbn [drop].
  assert (forall n, (n <= S)%nat -> Z.to_nat (u8 (Z.of_nat n)) = n) as Hu.
  { intros n Hn. rewrite u8_small by (unfold is_u8, kReasmSlots in *; lia). lia. }
  rewrite !Hu by lia. rewrite (proj2 (Nat.eqb_neq (group_cnt k) 0)), (proj2 (Nat.eqb_neq S 0)), (proj2 (Nat.ltb_ge kReasmSlots S)), (proj2 (Nat.ltb_ge S _)) by lia.
  rewrite !drop_0, float_bytes_len, group_floats_len. rewrite (Nat.mul_comm 4), Nat.Div0.mod_mul. cbn [orb negb Nat.eqb].
  rewrite !Nat.div_mul by lia. rewrite (proj2 (Nat.eqb_neq ns 0)), (proj2 (Nat.ltb_ge kReasmNs ns)) by lia. cbn [orb rtp_timestamp].
  by rewrite floats_of_bytes by apply group_floats_u32.
Qed.

Lemma recv_group i k maxf mo st e : (k < groups)%nat -> is_u16 (gseq i k) ->
  recvAudio maxf (RxDatagram (gdgram i k) mo st) e =
  let '(out, e) := reassembleGroup (mk_rtp HARP_RTP_PT_GROUP 0 (gseq i k) (gts i) (a_rtp_ssrc a))
    ([u8 (Z.of_nat (group_off k)); u8 (Z.of_nat (group_cnt k)); u8 (Z.of_nat S); 0] ++ float_bytes (group_floats ns S (group_off k) (group_cnt k) (blk i))) maxf
    (eth_sequence (gseq i k) mo e) in
  match out with Some (l, ts) => (l, Some ts, e) | None => ([], None, e) end.
Proof.
  intros Hk Hs. destruct (group_bounds k Hk) as [B1 B2]. unfold recvAudio. rewrite take_ge.
  - unfold gdgram. rewrite rtp_unpack_header; [reflexivity|].
    unfold rtp_hdr_ok, HARP_RTP_PT_GROUP. cbn [rtp_pt rtp_marker rtp_seq rtp_timestamp rtp_ssrc]. split_and!; [lia|lia|by left|done|apply u32_range|done].
  - unfold gdgram. rewrite !length_app, rtp_header_len, float_bytes_len, group_floats_len. cbn [length].
    assert (ns * group_cnt k <= kReasmNs * kReasmSlots)%nat by (apply Nat.mul_le_mono; lia). unfold HARP_RTP_HDR_BYTES.
    assert (16 + 4 * (kReasmNs * kReasmSlots) <= RXPKT)%nat by (apply Nat.leb_le; by vm_compute). lia.
Qed.

(** *** The reader's calls *)

(** Packet [p] of the stream, and the next one that arrives. *)
Definition pos (p : nat * nat) : nat := p.1 * groups + p.2.
Definition next_group (p q : nat * nat) : Prop :=
  (pos p < pos q)%nat /\ Z.of_nat (pos q - pos p) <= 32768 /\ Z.of_nat (q.1 - p.1) * Z.of_nat ns < 2 ^ 32.
Definition group_ev (p : nat * nat) : rx_ev := RxDatagram (gdgram p.1 p.2) (mono p.1 p.2) None.

(** The frames handed out while the groups [ps] arrive, after the groups [ks] of block [i]. *)
Fixpoint frames (i : nat) (ks : list nat) (ps : list (nat * nat)) : list (list Z * option Z) :=
  match ps with
  | [] => []
  | (j, k) :: ps => if (j =? i)%nat then frames i (k :: ks) ps else (concealed i ks, Some (gts i)) :: frames j [k] ps
  end.

(** Between packet [f] and packet [l], [m] of them having arrived. *)
Definition seq_at (f l : nat) (m : Z) (e : eth_rx) : Prop :=
  et_seq_valid e = true /\ et_last_seq e = u16 (s0 + Z.of_nat l) /\ et_lost e = Z.of_nat (l - f) + 1 - m.

Lemma seq_next f l m p mo e : seq_at f l m e -> (f <= l < p)%nat -> Z.of_nat (p - l) <= 32768 -> 0 < m <= Z.of_nat (l - f) + 1 -> Z.of_nat (p - f) < 2 ^ 63 ->
  seq_at f p (m + 1) (eth_sequence (u16 (s0 + Z.of_nat p)) mo e).
Proof.
  intros (H1 & H2 & H3) Hp Hd Hm Hb. unfold eth_sequence. rewrite H1, H2, H3, loss_gap_next by lia. split; [done|]. split; [done|]. cbn [et_lost].
  rewrite u64_small by (unfold is_u64; lia). lia.
Qed.

Lemma same_block i ks k mo st maxf e : (k < groups)%nat -> holds i ks e ->
  exists e', recvAudio maxf (RxDatagram (gdgram i k) mo st) e = ([], None, e') /\ holds i (k :: ks) e' /\
    forall f l m, seq_at f l m (eth_sequence (gseq i k) mo e) -> seq_at f l m e'.
Proof.
  intros Hk Hh. rewrite recv_group, group_accepted by first [apply u16_range|done]. set (e1 := eth_sequence _ mo e).
  assert (holds i ks e1) as Hh1 by (unfold e1, eth_sequence; by destruct (if et_seq_valid e then _ else _)).
  destruct Hh1 as (V & T & To & N & Hr). unfold flush_frame, open_frame. rewrite V, T, Z.eqb_refl. cbn [andb negb]. rewrite V, To, N, !Nat.eqb_refl. cbn [andb].
  eexists. split; [reflexivity|]. pose proof (holds_add i ks k e1 Hk (conj V (conj T (conj To (conj N Hr))))) as H2. rewrite T, To, N in H2.
  rewrite T. by split.
Qed.

Lemma other_block i ks j k mo st maxf e : (k < groups)%nat -> (ns * S <= maxf)%nat -> gts j <> gts i -> holds i ks e ->
  exists e', recvAudio maxf (RxDatagram (gdgram j k) mo st) e = (concealed i ks, Some (gts i), e') /\ holds j [k] e' /\
    forall f l m, seq_at f l m (eth_sequence (gseq j k) mo e) -> seq_at f l m e'.
Proof.
  intros Hk Hm Hne Hh. rewrite recv_group, group_accepted by first [apply u16_range|done]. set (e1 := eth_sequence _ mo e).
  assert (holds i ks e1) as Hh1 by (unfold e1, eth_sequence; by destruct (if et_seq_valid e then _ else _)).
  pose proof (holds_frame i ks e1 maxf Hh1 Hm) as Hf. destruct Hh1 as (V & T & To & N & Hr). unfold flush_frame. rewrite V, T, (proj2 (Z.eqb_neq _ _)) by done. cbn [andb negb].
  set (e2 := et_set_frame _ _ false _ _ e1). pose proof (holds_open j e2 eq_refl) as Ho. set (e3 := open_frame (gts j) S ns e2) in *.
  pose proof (holds_add j [] k e3 Hk Ho) as Ha. destruct Ho as (V3 & T3 & To3 & N3 & _). rewrite To3, N3, !Nat.eqb_refl. cbn [andb]. rewrite To3, N3 in Ha.
  rewrite Hf. eexists. split; [reflexivity|]. by split.
Qed.

Lemma block_later p q : (p.2 < groups)%nat -> (q.2 < groups)%nat -> (pos p < pos q)%nat -> (p.1 <= q.1)%nat.
Proof. unfold pos. intros Hp Hq Hlt. destruct (Nat.le_gt_cases p.1 q.1); [done|nia]. Qed.

Lemma gts_differ i j : (i < j)%nat -> Z.of_nat (j - i) * Z.of_nat ns < 2 ^ 32 -> gts j <> gts i.
Proof.
  unfold gts, u32, block_msc. intros Hlt Hb E. assert ((Z.of_nat (j - i) * Z.of_nat ns) mod 2 ^ 32 = 0) as H0.
  { replace (Z.of_nat (j - i) * Z.of_nat ns) with (msc0 + Z.of_nat j * Z.of_nat ns - (msc0 + Z.of_nat i * Z.of_nat ns)) by nia. by rewrite Zminus_mod, E, Z.sub_diag. }
  rewrite Z.mod_small in H0 by nia. nia.
Qed.

Lemma concealed_nonempty i ks : concealed i ks <> [].
Proof. intros E. apply (f_equal length) in E. unfold concealed in E. rewrite length_map, length_seq in E. cbn in E. nia. Qed.

Lemma run_groups maxf f ps : (ns * S <= maxf)%nat -> forall i k ks m e, holds i ks e -> seq_at f (pos (i, k)) m e -> (f <= pos (i, k))%nat -> 0 < m <= Z.of_nat (pos (i, k) - f) + 1 ->
  Sorted next_group ((i, k) :: ps) -> Forall (fun q => (q.2 < groups)%nat /\ Z.of_nat (pos q) < 2 ^ 63) ((i, k) :: ps) ->
  exists e', eth_run maxf (map group_ev ps) e = (frames i ks ps, e') /\ seq_at f (pos (List.last ps (i, k))) (m + zlen ps) e'.
Proof.
  intros Hm. induction ps as [|[j k'] ps IH]; intros i k ks m e Hh Hs Hf Hmm Hso Hall; cbn [map eth_run frames List.last].
  { exists e. by rewrite zlen_nil, Z.add_0_r. }
  inversion Hso as [|? ? Hso' Hhd]; subst. inversion Hhd as [|? ? (N1 & N2 & N3)]; subst. cbn [fst] in N3.
  apply Forall_cons_iff in Hall as [[Hk Hb1] Hall]. pose proof Hall as Hall'. apply Forall_cons_iff in Hall' as [[Hk' Hb2] _]. cbn [snd] in Hk, Hk'.
  pose proof (block_later (i, k) (j, k') Hk Hk' N1) as Hij. cbn [fst] in Hij.
  pose proof (seq_next f (pos (i, k)) m (pos (j, k')) (mono j k') e Hs ltac:(lia) N2 Hmm ltac:(lia)) as Hq.
  assert (forall e1 out, seq_at f (pos (j, k')) (m + 1) e1 -> holds j (if (j =? i)%nat then k' :: ks else [k']) e1 ->
    exists e', eth_run maxf (map group_ev ps) e1 = (frames j (if (j =? i)%nat then k' :: ks else [k']) ps, e') /\
      seq_at f (pos (List.last ((j, k') :: ps) out)) (m + zlen ((j, k') :: ps)) e') as Hnext.
  { intros e1 out Q1 H1. destruct (IH j k' _ (m + 1) e1 H1 Q1 ltac:(lia) ltac:(lia) Hso' Hall) as (e' & R1 & R2). exists e'. split; [done|].
    rewrite zlen_cons, Z.add_assoc. replace (List.last ((j, k') :: ps) out) with (List.last ps (j, k')); [done|]. destruct ps as [|q ps]; [done|]. cbn [List.last]. apply (last_cons_any ps q). }
  unfold group_ev at 1. cbn [fst snd]. destruct (Nat.eqb_spec j i) as [->|Hne].
  - destruct (same_block i ks k' (mono i k') None maxf e Hk' Hh) as (e1 & -> & H1 & Hl). rewrite bool_decide_true by done.
    destruct (Hnext e1 (i, k) (Hl _ _ _ Hq) H1) as (e' & -> & Hr). by exists e'.
  - destruct (other_block i ks j k' (mono j k') None maxf e Hk' Hm (gts_differ i j ltac:(lia) N3) Hh) as (e1 & -> & H1 & Hl).
    rewrite bool_decide_false by apply concealed_nonempty. destruct (Hnext e1 (i, k) (Hl _ _ _ Hq) H1) as (e' & -> & Hr). by exists e'.
Qed.

(** Groups of one block in a row are one frame. *)
Lemma concealed_same i ks ks' : (forall x, x ∈ ks <-> x ∈ ks') -> concealed i ks = concealed i ks'.
Proof.
  intros Hx. unfold concealed. apply map_ext. intros j. assert (in_groups ks j = in_groups ks' j) as ->; [|done].
  unfold in_groups. apply Bool.eq_iff_eq_true. rewrite !existsb_exists. split; intros (x & H1 & H2); exists x; (split; [|done]); apply list_elem_of_In, Hx, list_elem_of_In, H1.
Qed.

Lemma frames_one i more : forall ks ps, frames i ks (map (pair i) more ++ ps) = frames i (rev more ++ ks) ps.
Proof. induction more as [|k more IH]; intros ks ps; [done|]. cbn [map app frames rev]. by rewrite Nat.eqb_refl, IH, <- app_assoc. Qed.

Definition group_list (got : list (nat * list nat)) : list (nat * nat) := flat_map (fun g => map (pair g.1) g.2) got.
Definition block_frames (got : list (nat * list nat)) : list (list Z * option Z) := map (fun g => (concealed g.1 g.2, Some (gts g.1))) (removelast got).

Lemma frames_blocks got : forall i ks, Sorted lt (i :: map fst got) -> Forall (fun g => g.2 <> []) got ->
  frames i ks (group_list got) = block_frames ((i, ks) :: got).
Proof.
  induction got as [|[j [|k more]] got IH]; intros i ks Hso Hne; [done|by apply Forall_cons_iff in Hne as [Hn _]|].
  apply Forall_cons_iff in Hne as [_ Hne]. cbn [group_list flat_map map fst snd app frames] in *.
  inversion Hso as [|? ? Hso' Hhd]; subst. inversion Hhd as [|? ? Hlt]; subst. rewrite (proj2 (Nat.eqb_neq j i)) by lia.
  rewrite frames_one. fold (group_list got). rewrite IH by done. unfold block_frames.
  change (removelast ((i, ks) :: (j, k :: more) :: got)) with ((i, ks) :: removelast ((j, k :: more) :: got)). cbn [map]. f_equal.
  destruct got as [|g got]; [done|]. change (removelast ((j, ?x) :: g :: got)) with ((j, x) :: removelast (g :: got)). cbn [map fst snd].
  f_equal. f_equal. apply concealed_same. intros x. rewrite !list_elem_of_In, in_app_iff, <- in_rev. cbn [In]. tauto.
Qed.

Lemma first_group j k mo st maxf : (k < groups)%nat ->
  exists e', recvAudio maxf (RxDatagram (gdgram j k) mo st) eth_init = ([], None, e') /\ holds j [k] e' /\ seq_at (pos (j, k)) (pos (j, k)) 1 e'.
Proof.
  intros Hk. rewrite recv_group, group_accepted by first [apply u16_range|done]. set (e1 := eth_sequence _ mo eth_init).
  unfold flush_frame. change (et_valid e1) with false. cbn [andb].
  pose proof (holds_open j e1 eq_refl) as Ho. set (e3 := open_frame (gts j) S ns e1) in *.
  pose proof (holds_add j [] k e3 Hk Ho) as Ha. destruct Ho as (V3 & T3 & To3 & N3 & _). rewrite To3, N3, !Nat.eqb_refl. cbn [andb]. rewrite To3, N3 in Ha.
  eexists. split; [reflexivity|]. split; [done|]. split; [done|]. split; [done|]. rewrite Nat.sub_diag. done.
Qed.

(** C14: a wide frame survives its groups.  A device emitting consecutive blocks of a
    stream of more than eight slots sends one datagram for each group of eight slots
    its drop injection spares, and whatever further datagrams the network leaves out
    (keeping the order, with the sequence number never half way round between two
    arrivals), the host's reader gets one frame for each block of which a group arrived
    - the last is still being assembled - with that block's timestamp, every sample of
    a group that arrived in its own column and silence for a group that did not; and
    exactly the groups missing between the first arrival and the last are counted as
    lost. *)
Theorem wide_frames_exact (n maxf : nat) (o : rtp_out) (i0 k0 : nat) (more0 : list nat) (got : list (nat * list nat)) :
  let all := (i0, k0 :: more0) :: got in
  (ns * S <= maxf)%nat -> ro_seq o = u16 s0 -> ro_sent o = [] -> Z.of_nat (n * groups) < 2 ^ 63 ->
  Sorted lt (map fst all) -> Forall (fun g => g.2 <> []) all -> Sorted next_group (group_list all) ->
  (forall q, In q (group_list all) -> (q.1 < n)%nat /\ In q.2 (sent_groups q.1)) ->
  ro_sent (fold_left (block_emit pct a ns blk msc0) (seq 0 n) o) = flat_map (fun i => map (gdgram i) (sent_groups i)) (seq 0 n) /\
  exists e', eth_run maxf (map group_ev (group_list all)) eth_init = (block_frames all, e') /\
    et_lost e' = Z.of_nat (pos (List.last (group_list all) (i0, k0)) - pos (i0, k0)) + 1 - zlen (group_list all).
Proof.
  intros all Hm Ho Hse Hn Hso Hne Hord Hin. split; [destruct (wide_emit n o Ho) as [E1 _]; by rewrite E1, Hse|].
  assert (group_list all = (i0, k0) :: map (pair i0) more0 ++ group_list got) as Eg by done. rewrite Eg in *.
  assert (Forall (fun q => (q.2 < groups)%nat /\ Z.of_nat (pos q) < 2 ^ 63) ((i0, k0) :: map (pair i0) more0 ++ group_list got)) as Hall.
  { apply List.Forall_forall. intros q Hq. destruct (Hin q Hq) as [H1 H2]. unfold sent_groups in H2. apply filter_In in H2 as [H2 _]. apply in_seq in H2.
    split; [lia|]. unfold pos. nia. }
  pose proof Hall as Hall'. apply Forall_cons_iff in Hall' as [[Hk0 _] _]. cbn [snd] in Hk0. cbn [map eth_run]. unfold group_ev at 1. cbn [fst snd].
  destruct (first_group i0 k0 (mono i0 k0) None maxf Hk0) as (e1 & -> & H1 & Q1). rewrite bool_decide_true by done.
  destruct (run_groups maxf (pos (i0, k0)) _ Hm i0 k0 [k0] 1 e1 H1 Q1 ltac:(lia) ltac:(lia) Hord Hall) as (e' & -> & Q2). exists e'.
  rewrite frames_one, frames_blocks; [|exact Hso|by apply Forall_cons_iff in Hne as [_ Hne]]. split.
  - f_equal. unfold block_frames, all. destruct got as [|g got]; [done|].
    change (removelast ((i0, ?x) :: g :: got)) with ((i0, x) :: removelast (g :: got)). cbn [map fst snd].
    f_equal. f_equal. apply concealed_same. intros x. rewrite !list_elem_of_In, in_app_iff, <- in_rev. cbn [In]. tauto.
  - destruct Q2 as (_ & _ & ->). rewrite zlen_cons. replace (List.last ((i0, k0) :: map (pair i0) more0 ++ group_list got) (i0, k0)) with (List.last (map (pair i0) more0 ++ group_list got) (i0, k0)); [lia|].
    destruct (map (pair i0) more0 ++ group_list got) as [|q l]; [done|]. done.
Qed.
End stream.

(** Two blocks of nine slots; the second group of the first is lost. *)
Definition demo_wide : audio_state :=
  mk_audio true true (-1) (-1) 3 0 0x48415250 0 (-1) false 0 0 48000 1 0 0 0 0 (map Z.of_nat (seq 0 9)) [] false 0 0 false false.
Definition demo_block (i : nat) : list Z := map (fun j => u32 (Z.of_nat (10 * i + j))) (seq 1 9).

Lemma wide_frames_exact_witness :
  exists e', eth_run 34 (map (group_ev demo_wide 9 1 demo_block 1000 65534 (fun _ _ => 5)) (group_list [(0%nat, [0%nat]); (1%nat, [0%nat; 1%nat])])) eth_init =
    ([([1; 2; 3; 4; 5; 6; 7; 8; 0], Some 1000)], e') /\ et_lost e' = 1.
Proof.
  destruct (wide_frames_exact 0 demo_wide 9 1 demo_block 1000 65534 (fun _ _ => 5) ltac:(vm_compute; discriminate) eq_refl
    ltac:(unfold HARP_RTP_MAX_GROUP_SLOTS, kReasmSlots; lia) ltac:(unfold kReasmNs; lia)
    ltac:(intros i; split; [reflexivity|]; unfold demo_block; apply Forall_map, List.Forall_forall; intros j _; apply u32_range)
    ltac:(unfold is_u32; cbn; lia)
    2 34 (mk_rtp_out 65534 (mk_rtp 0 0 0 0 0, []) 0 []) 0 0 [] [(1%nat, [0%nat; 1%nat])]) as (_ & e' & H1 & H2).
  - lia.
  - reflexivity.
  - reflexivity.
  - vm_compute. reflexivity.
  - repeat constructor.
  - repeat constructor; discriminate.
  - repeat constructor; cbn; lia.
  - vm_compute. intuition (subst; cbn; lia).
  - exists e'. split; [exact H1|exact H2].
Defined.

(** One group overtaken by the next block: two blocks arrive as four frames. *)
Example late_group_splits :
  (eth_run 34 (map (group_ev demo_wide 9 1 demo_block 1000 65534 (fun _ _ => 5)) [(0, 0); (1, 0); (0, 1); (1, 1); (2, 0)]%nat) eth_init).1 =
  [([1; 2; 3; 4; 5; 6; 7; 8; 0], Some 1000); ([11; 12; 13; 14; 15; 16; 17; 18; 0], Some 1001);
   ([0; 0; 0; 0; 0; 0; 0; 0; 9], Some 1000); ([0; 0; 0; 0; 0; 0; 0; 0; 19], Some 1001)].
Proof. by vm_compute. Qed.
