(* ===== verification/Automation.v ===== *)
(** * The plug-in's policies

    The pure parts of the shells, apart from the plug-in formats: parameter automation
    (shell/param_automation.h), the map from note ids to voices
    (shell/note_voice_map.h), the arming of an effect's wet signal (shell/fx_arm.h) and
    its late guard (shell/fx_late_guard.h). *)
From Stdlib Require Import ZArith Lia List Bool.
From stdpp Require Import base tactics list numbers.
From S2P Require Import Prelude EventPlane.
Open Scope Z_scope.
Open Scope list_scope.

(** ** [ParamAutomation] *)

Definition kThinSamples : Z := 256.
Definition kJumpSamples : Z := 4800.

(** What is queued: [queueParamSet] and [queueRamp] with the default channel. *)
Inductive pa_call : Set := PSet (id v ts : Z) | PRamp (id v start fin : Z).
Definition queue_call (src : bool) (c : pa_call) (s : rt_policy * event_plane) : rt_policy * event_plane :=
  match c with
  | PSet id v ts => rt_queueParamSet src id v ts kChanFromSource s
  | PRamp id v start fin => rt_queueRamp src id v start fin kChanFromSource s
  end.

(** A slot of the table: [ids_], [curVal_], [lastTs_], [pendTs_], [pendVal_],
    [hasLast_], [pendHas_], [dirtyOffline_]. *)
Record pa_slot := mk_slot { sl_id : Z; sl_cur : Z; sl_last : Z; sl_pend_ts : Z; sl_pend_val : Z; sl_has_last : bool; sl_pend : bool; sl_dirty : bool }.
Record pa := mk_pa { pa_slots : list pa_slot; pa_gen : Z; pa_connected : bool; pa_was : bool; pa_ever : bool }.

Definition pa_init (table : list (Z * Z)) : pa :=
  mk_pa (map (fun p => mk_slot p.1 p.2 0 0 0 false false false) table) 0 false false false.
Definition slotOf (id : Z) (a : pa) : option nat := fst <$> list_find (fun s => sl_id s = id) (pa_slots a).

Definition sl_forget (s : pa_slot) : pa_slot := mk_slot (sl_id s) (sl_cur s) (sl_last s) (sl_pend_ts s) (sl_pend_val s) false false (sl_dirty s).
Definition sl_clean (s : pa_slot) : pa_slot := mk_slot (sl_id s) (sl_cur s) (sl_last s) (sl_pend_ts s) (sl_pend_val s) (sl_has_last s) (sl_pend s) false.

(** The replay of what was edited offline. *)
Definition sl_replay (s : pa_slot) : list pa_call * pa_slot :=
  if sl_dirty s then ([PSet (sl_id s) (sl_cur s) 0], sl_clean s) else ([], s).
(** The flush of a folded point. *)
Definition sl_flush (base : Z) (s : pa_slot) : list pa_call * pa_slot :=
  if sl_pend s && (u64 (sl_pend_ts s + kThinSamples) <=? base)
  then ([PSet (sl_id s) (sl_pend_val s) 0],
        mk_slot (sl_id s) (sl_cur s) (sl_pend_ts s) (sl_pend_ts s) (sl_pend_val s) (sl_has_last s) false (sl_dirty s))
  else ([], s).

(** Over all slots, in order. *)
Definition each_slot (f : pa_slot -> list pa_call * pa_slot) (l : list pa_slot) : list pa_call * list pa_slot :=
  (flat_map (fun s => (f s).1) l, map (fun s => (f s).2) l).

Definition beginBlock (gen : Z) (connected : bool) (base : Z) (a : pa) : list pa_call * pa :=
  let slots := if gen =? pa_gen a then pa_slots a else map sl_forget (pa_slots a) in
  let edge := connected && negb (pa_was a) in
  let '(replayed, slots) := if edge && pa_ever a then each_slot sl_replay slots else ([], slots) in
  let '(flushed, slots) := each_slot (sl_flush base) slots in
  (replayed ++ flushed, mk_pa slots gen connected connected (edge || pa_ever a)).

(** One point: the calls and the slot. *)
Definition sl_point (offline : bool) (v ts : Z) (s : pa_slot) : list pa_call * pa_slot :=
  let dirty := offline || sl_dirty s in
  if sl_has_last s && (sl_last s <? ts) && (ts - sl_last s <? kThinSamples)
  then ([], mk_slot (sl_id s) v (sl_last s) ts v true true dirty)
  else
    let ramp := sl_has_last s && (sl_last s <? ts) && (ts - sl_last s <=? kJumpSamples) in
    ([if ramp then PRamp (sl_id s) v (sl_last s) ts else PSet (sl_id s) v ts],
     mk_slot (sl_id s) v ts (sl_pend_ts s) (sl_pend_val s) true false dirty).

(** [i] is a slot of the table. *)
Definition point (i : nat) (v ts : Z) (a : pa) : list pa_call * pa :=
  match pa_slots a !! i with
  | Some s =>
      let '(calls, s) := sl_point (pa_ever a && negb (pa_connected a)) v ts s in
      (calls, mk_pa (<[i := s]> (pa_slots a)) (pa_gen a) (pa_connected a) (pa_was a) (pa_ever a))
  | None => ([], a)
  end.

(** What a shell does, block after block. *)
Inductive pa_op : Set := OBegin (gen : Z) (connected : bool) (base : Z) | OPoint (i : nat) (v ts : Z).
Definition pa_step (o : pa_op) (a : pa) : list pa_call * pa :=
  match o with OBegin gen c base => beginBlock gen c base a | OPoint i v ts => point i v ts a end.
Fixpoint pa_run (ops : list pa_op) (a : pa) : list pa_call * pa :=
  match ops with
  | [] => ([], a)
  | o :: ops => let '(c1, a) := pa_step o a in let '(c2, a) := pa_run ops a in (c1 ++ c2, a)
  end.

(** ** [NoteVoiceMap] *)

Record nv_entry := mk_nv { nv_id : Z; nv_key : Z; nv_active : bool }.
Definition NV_SLOTS : nat := 64.
Definition nv_init : list nv_entry := repeat (mk_nv 0 0 false) NV_SLOTS.

(** A free slot, or the same id's: whichever comes first. *)
Fixpoint nv_take (id key : Z) (l : list nv_entry) : list nv_entry :=
  match l with
  | [] => []
  | e :: l => if negb (nv_active e) || (nv_id e =? id) then mk_nv id key true :: l else e :: nv_take id key l
  end.
Definition nv_noteOn (id key : Z) (l : list nv_entry) : list nv_entry := if id <? 0 then l else nv_take id key l.
Definition nv_noteOff (key : Z) (l : list nv_entry) : list nv_entry :=
  map (fun e => if nv_active e && (nv_key e =? key) then mk_nv (nv_id e) (nv_key e) false else e) l.
Definition nv_voiceFor (id : Z) (l : list nv_entry) : Z :=
  if id <? 0 then 0
  else match List.find (fun e => nv_active e && (nv_id e =? id)) l with Some e => nv_key e | None => 0 end.
Definition nv_reset (l : list nv_entry) : list nv_entry := map (fun e => mk_nv (nv_id e) (nv_key e) false) l.

(** ** The effect's policies *)

Record fx_arm := mk_arm { fa_preroll : Z; fa_delivered : Z; fa_lag : Z; fa_capped : bool }.
Definition fxArmFor (base latched pipe maxDelay : Z) : fx_arm :=
  let reported := u64 (base + latched) in
  let preroll := if pipe <? reported then reported - pipe else 0 in
  let preroll := if preroll <? base then base else preroll in
  let delivered := u64 (preroll + pipe) in
  let capped := maxDelay <? delivered in
  let preroll := if capped then (if pipe <? maxDelay then u32 (maxDelay - pipe) else 0) else preroll in
  let delivered := if capped then u64 (preroll + pipe) else delivered in
  mk_arm (u32 preroll) (u32 delivered) (if reported <? delivered then u32 (delivered - reported) else 0) capped.

(** The result, and the run. *)
Definition fxLateStep (owed connected : bool) (nFrames window run : Z) : bool * Z :=
  if negb owed || negb connected then (false, 0)
  else
    let run := u64 (run + nFrames) in
    if run <? window then (false, run) else (true, 0).
