(* ===== verification/AutomationSpec.v ===== *)
(** * The plug-in's policies: theorems

    Parameter automation: a gesture settles on its last value if its session lasts,
    ramps join up, and what was edited offline is replayed once the device is back. *)
From Stdlib Require Import ZArith Lia List Bool.
From stdpp Require Import base tactics list numbers.
From S2P Require Import Prelude EventPlane Automation.
Open Scope Z_scope.
Open Scope list_scope.

Definition call_id (c : pa_call) : Z := match c with PSet id _ _ | PRamp id _ _ _ => id end.
Definition call_val (c : pa_call) : Z := match c with PSet _ v _ | PRamp _ v _ _ => v end.
Definition call_end (c : pa_call) : Z := match c with PSet _ _ ts => ts | PRamp _ _ _ fin => fin end.
Definition calls_of (id : Z) (log : list pa_call) : list pa_call := List.filter (fun c => call_id c =? id) log.

(** A ramp is neither too short nor too long, and starts where the call before it
    ended - or after a "now". *)
Definition joins (prev : option pa_call) (c : pa_call) : Prop :=
  match c with
  | PRamp _ _ start fin => kThinSamples <= fin - start <= kJumpSamples /\ exists p, prev = Some p /\ (call_end p = start \/ call_end p = 0)
  | PSet _ _ _ => True
  end.
Fixpoint chained (prev : option pa_call) (l : list pa_call) : Prop :=
  match l with [] => True | c :: l => joins prev c /\ chained (Some c) l end.

Lemma chained_snoc l c : forall prev, chained prev (l ++ [c]) <-> chained prev l /\ joins (match list.last l with Some p => Some p | None => prev end) c.
Proof.
  induction l as [|x l IH]; intros prev; cbn [app chained]; [tauto|]. rewrite IH.
  replace (list.last (x :: l)) with (match list.last l with Some p => Some p | None => Some x end) by (destruct l as [|y l]; [done|]; cbn; destruct (list.last (y :: l)) eqn:E; [done|by apply last_None in E]).
  destruct (list.last l); tauto.
Qed.

(** ** One slot *)

Record slot_ok (log : list pa_call) (s : pa_slot) : Prop := {
  so_pend : sl_pend s = true -> sl_has_last s = true /\ sl_pend_val s = sl_cur s;
  so_last : sl_has_last s = true -> exists c, list.last (calls_of (sl_id s) log) = Some c /\ (call_end c = sl_last s \/ call_end c = 0) /\
    (sl_pend s = false -> call_val c = sl_cur s);
  so_chain : chained None (calls_of (sl_id s) log) }.

Definition slot_fun (f : pa_slot -> list pa_call * pa_slot) : Prop :=
  forall s, sl_id (f s).2 = sl_id s /\ Forall (fun c => call_id c = sl_id s) (f s).1.
Definition slot_keeps (f : pa_slot -> list pa_call * pa_slot) : Prop :=
  slot_fun f /\ forall log s, slot_ok log s -> slot_ok (log ++ (f s).1) (f s).2.

Lemma calls_app id l k : calls_of id (l ++ k) = calls_of id l ++ calls_of id k.
Proof. apply filter_app. Qed.
Lemma calls_mine id l : Forall (fun c => call_id c = id) l -> calls_of id l = l.
Proof. unfold calls_of. induction 1 as [|c l Hc _ IH]; [done|]. cbn [List.filter]. by rewrite Hc, Z.eqb_refl, IH. Qed.
Lemma calls_other id id' l : id <> id' -> Forall (fun c => call_id c = id') l -> calls_of id l = [].
Proof. intros Hne. unfold calls_of. induction 1 as [|c l Hc _ IH]; [done|]. cbn [List.filter]. rewrite Hc, (proj2 (Z.eqb_neq _ _)) by congruence. done. Qed.

Lemma slot_ok_calls log log' s : calls_of (sl_id s) log' = calls_of (sl_id s) log -> slot_ok log s -> slot_ok log' s.
Proof. intros E [H1 H2 H3]. split; by rewrite ?E. Qed.

(** A call of the slot, recorded. *)
Lemma slot_ok_call log s c s' : slot_ok log s -> call_id c = sl_id s -> sl_id s' = sl_id s -> joins (list.last (calls_of (sl_id s) log)) c ->
  sl_pend s' = false -> (sl_has_last s' = true -> (call_end c = sl_last s' \/ call_end c = 0) /\ call_val c = sl_cur s') -> slot_ok (log ++ [c]) s'.
Proof.
  intros [H1 H2 H3] Hc Hid Hj Hp Hv.
  assert (calls_of (sl_id s') (log ++ [c]) = calls_of (sl_id s) log ++ [c]) as E by (rewrite Hid, calls_app; f_equal; cbn; by rewrite Hc, Z.eqb_refl).
  split; [by rewrite Hp| |].
  - intros Hl. destruct (Hv Hl) as [V1 V2]. exists c. rewrite E, last_snoc. done.
  - rewrite E. apply chained_snoc. split; [done|]. by destruct (list.last _).
Qed.

Lemma slot_ok_quiet log s s' : slot_ok log s -> sl_id s' = sl_id s -> (sl_pend s' = true -> sl_has_last s' = true /\ sl_pend_val s' = sl_cur s') ->
  (sl_has_last s' = true -> sl_has_last s = true /\ sl_last s' = sl_last s /\ (sl_pend s' = false -> sl_pend s = false /\ sl_cur s' = sl_cur s)) -> slot_ok log s'.
Proof.
  intros [H1 H2 H3] Hid Hp Hl. split; [done| |by rewrite Hid].
  intros Hh. destruct (Hl Hh) as (L1 & L2 & L3). destruct (H2 L1) as (c & C1 & C2 & C3). exists c. rewrite Hid, L2. split; [done|]. split; [done|].
  intros Hf. destruct (L3 Hf) as [L4 ->]. by apply C3.
Qed.

Lemma forget_ok log s : slot_ok log s -> slot_ok log (sl_forget s).
Proof. intros H. by apply (slot_ok_quiet log s). Qed.

Lemma replay_keeps : slot_keeps sl_replay.
Proof.
  split; [intros s; unfold sl_replay; destruct (sl_dirty s); by repeat constructor|].
  intros log s Hok. unfold sl_replay. destruct (sl_dirty s); cbn [fst snd]; [|by rewrite app_nil_r].
  destruct (sl_pend s) eqn:Hp.
  - destruct Hok as [H1 H2 H3]. split; [by apply H1| |].
    + intros Hl. eexists. cbn [sl_id sl_clean]. rewrite calls_app. cbn [calls_of List.filter call_id]. rewrite Z.eqb_refl, last_snoc.
      split; [done|]. split; [by right|]. done.
    + cbn [sl_id sl_clean]. rewrite calls_app. cbn [calls_of List.filter call_id]. rewrite Z.eqb_refl. by apply chained_snoc.
  - apply (slot_ok_call log s); try done. intros _. split; [by right|done].
Qed.

Lemma flush_keeps base : slot_keeps (sl_flush base).
Proof.
  split; [intros s; unfold sl_flush; destruct (_ && _); by repeat constructor|].
  intros log s Hok. unfold sl_flush. destruct (sl_pend s) eqn:Hp; cbn [andb]; [|cbn [fst snd]; by rewrite app_nil_r].
  destruct (_ <=? base); cbn [fst snd]; [|by rewrite app_nil_r].
  apply (slot_ok_call log s); try done. intros _. split; [by right|]. by apply (so_pend _ _ Hok).
Qed.

Lemma point_keeps off v ts : slot_keeps (sl_point off v ts).
Proof.
  split; [intros s; unfold sl_point; cbv zeta; repeat case_match; by repeat constructor|].
  intros log s Hok. unfold sl_point. cbv zeta. destruct (sl_has_last s) eqn:Hl; cbn [andb].
  2: { cbn [fst snd]. apply (slot_ok_call log s); try done. intros _. split; [by left|done]. }
  destruct (Z.ltb_spec (sl_last s) ts); cbn [andb].
  2: { cbn [fst snd]. apply (slot_ok_call log s); try done. intros _. split; [by left|done]. }
  destruct (Z.ltb_spec (ts - sl_last s) kThinSamples); cbn [fst snd].
  { rewrite app_nil_r. apply (slot_ok_quiet log s); try done. }
  destruct (Z.leb_spec (ts - sl_last s) kJumpSamples); apply (slot_ok_call log s); try done; try (intros _; split; [by left|done]).
  cbn [joins]. split; [lia|]. destruct (so_last _ _ Hok Hl) as (c & C1 & C2 & _). by exists c.
Qed.

(** ** The table *)

(** The slots of a table are settled by a history. *)
Definition pa_ok (log : list pa_call) (a : pa) : Prop := NoDup (map sl_id (pa_slots a)) /\ Forall (slot_ok log) (pa_slots a).

Lemma calls_others f l id : slot_fun f -> id ∉ map sl_id l -> calls_of id (flat_map (fun s => (f s).1) l) = [].
Proof.
  intros Hf. induction l as [|s l IH]; [done|]. cbn [map flat_map]. intros Hn. apply not_elem_of_cons in Hn as [N1 N2].
  rewrite calls_app, IH, app_nil_r by done. by apply (calls_other _ (sl_id s)), Hf.
Qed.

Lemma each_ids f l : slot_fun f -> map sl_id (each_slot f l).2 = map sl_id l.
Proof. intros Hf. unfold each_slot. cbn [snd]. rewrite map_map. apply map_ext. intros s. apply Hf. Qed.

(** Every slot its own calls. *)
Lemma each_calls f l s : slot_fun f -> NoDup (map sl_id l) -> s ∈ l -> calls_of (sl_id s) (each_slot f l).1 = (f s).1.
Proof.
  intros Hf. unfold each_slot. cbn [fst]. induction l as [|x l IH]; intros Hn Hs; [by apply not_elem_of_nil in Hs|]. cbn [map flat_map] in *.
  inversion Hn as [|? ? N1 N2]; subst. rewrite calls_app. apply elem_of_cons in Hs as [->|Hs].
  - rewrite (calls_mine _ (f x).1) by apply Hf. by rewrite (calls_others f l), app_nil_r.
  - rewrite (calls_other _ (sl_id x) (f x).1); [by apply IH| |apply Hf]. intros E. apply N1. rewrite <- E. by apply (list_elem_of_fmap_2 sl_id).
Qed.

Lemma each_keeps f log a : slot_keeps f -> pa_ok log a -> forall slots, slots = (each_slot f (pa_slots a)).2 ->
  NoDup (map sl_id slots) /\ Forall (slot_ok (log ++ (each_slot f (pa_slots a)).1)) slots.
Proof.
  intros [Hf Hk] [Hn Ho] slots ->. split; [by rewrite each_ids|]. apply Forall_map, Forall_forall. intros s Hs. rewrite Forall_forall in Ho.
  pose proof (Hk log s (Ho s Hs)) as H. destruct (Hf s) as [Hid Hc]. revert H. apply slot_ok_calls.
  rewrite Hid, !calls_app. f_equal. rewrite each_calls; [|done|done|by apply list_elem_of_In]. symmetry. by apply calls_mine.
Qed.

Lemma begin_keeps log gen c base a : pa_ok log a -> pa_ok (log ++ (beginBlock gen c base a).1) (beginBlock gen c base a).2.
Proof.
  intros Hok. unfold beginBlock. set (slots := if gen =? pa_gen a then _ else _).
  assert (pa_ok log (mk_pa slots 0 false false false)) as H1.
  { unfold slots. destruct (gen =? pa_gen a); [done|]. destruct Hok as [Hn Ho]. split; cbn [pa_slots]; [by rewrite map_map|].
    apply Forall_map. revert Ho. apply Forall_impl. intros s. apply forget_ok. }
  set (edge := c && negb (pa_was a) && pa_ever a).
  assert (exists log1 slots1, (if edge then each_slot sl_replay slots else ([], slots)) = (log1, slots1) /\ pa_ok (log ++ log1) (mk_pa slots1 0 false false false)) as (log1 & slots1 & -> & H2).
  { destruct edge; [|exists [], slots; by rewrite app_nil_r]. eexists _, _. split; [apply surjective_pairing|].
    exact (each_keeps sl_replay log _ replay_keeps H1 _ eq_refl). }
  pose proof (each_keeps (sl_flush base) _ _ (flush_keeps base) H2 _ eq_refl) as H3. cbn [pa_slots] in H3.
  destruct (each_slot (sl_flush base) slots1) as [log2 slots2]. cbn [fst snd] in *. by rewrite app_assoc.
Qed.

Lemma point_keeps_all log i v ts a : pa_ok log a -> pa_ok (log ++ (point i v ts a).1) (point i v ts a).2.
Proof.
  intros [Hn Ho]. unfold point. destruct (pa_slots a !! i) as [s|] eqn:Hi; [|by rewrite app_nil_r].
  set (off := pa_ever a && _). destruct (point_keeps off v ts) as [Hf Hk]. destruct (Hf s) as [Hid Hc].
  pose proof (Hk log s) as H. destruct (sl_point off v ts s) as [calls s']. cbn [fst snd] in *.
  assert (map sl_id (<[i := s']> (pa_slots a)) = map sl_id (pa_slots a)) as Em.
  { rewrite list_fmap_insert. apply list_insert_id. by rewrite list_lookup_fmap, Hi, Hid. }
  split; cbn [pa_slots]; [by rewrite Em|]. apply Forall_lookup_2. intros j x Hx. rewrite Forall_lookup in Ho.
  destruct (decide (j = i)) as [->|Hne].
  - rewrite list_lookup_insert_eq in Hx by by apply lookup_lt_Some in Hi. injection Hx as <-. apply H. by eapply Ho.
  - rewrite list_lookup_insert_ne in Hx by done. apply (slot_ok_calls log); [|by eapply Ho]. rewrite calls_app, (calls_other _ (sl_id s) calls); [by rewrite app_nil_r| |done].
    intros E. apply Hne. apply (NoDup_lookup (map sl_id (pa_slots a)) j i (sl_id s) Hn); rewrite list_lookup_fmap; [by rewrite Hx, <- E|by rewrite Hi].
Qed.

(** ** Runs *)

(** The last value given to slot [i], [v] if none. *)
Definition value_after (i : nat) (ops : list pa_op) (v : Z) : Z :=
  fold_left (fun v o => match o with OPoint j w _ => if (j =? i)%nat then w else v | OBegin _ _ _ => v end) ops v.

Lemma run_app ops1 ops2 a : pa_run (ops1 ++ ops2) a = let '(c1, a1) := pa_run ops1 a in let '(c2, a2) := pa_run ops2 a1 in (c1 ++ c2, a2).
Proof.
  revert a. induction ops1 as [|o ops1 IH]; intros a; cbn [app pa_run]; [by destruct (pa_run ops2 a)|].
  destruct (pa_step o a) as [c a1]. rewrite IH. destruct (pa_run ops1 a1) as [c1 a2]. destruct (pa_run ops2 a2) as [c2 a3]. by rewrite app_assoc.
Qed.

Lemma run_keeps ops : forall log a, pa_ok log a -> pa_ok (log ++ (pa_run ops a).1) (pa_run ops a).2.
Proof.
  induction ops as [|o ops IH]; intros log a Hok; cbn [pa_run]; [by rewrite app_nil_r|].
  assert (pa_ok (log ++ (pa_step o a).1) (pa_step o a).2) as H1 by (destruct o; [by apply begin_keeps|by apply point_keeps_all]).
  destruct (pa_step o a) as [c1 a1]. cbn [fst snd] in H1. specialize (IH _ _ H1). destruct (pa_run ops a1) as [c2 a2]. cbn [fst snd] in *. by rewrite app_assoc.
Qed.

Lemma init_ok table : NoDup (map fst table) -> pa_ok [] (pa_init table).
Proof.
  intros Hn. split; cbn [pa_slots pa_init]; [rewrite map_map; exact Hn|]. apply Forall_map, Forall_forall. intros p _. by split.
Qed.

(** One step on one slot: its function of the slot alone. *)
Lemma step_slot o a i s' : pa_slots (pa_step o a).2 !! i = Some s' ->
  exists s, pa_slots a !! i = Some s /\ sl_id s' = sl_id s /\ sl_cur s' = value_after i [o] (sl_cur s) /\
    match o with
    | OBegin _ true _ => True
    | OBegin _ false base => sl_dirty s' = sl_dirty s
    | OPoint j _ _ => sl_dirty s' = ((j =? i)%nat && (pa_ever a && negb (pa_connected a))) || sl_dirty s
    end /\ (match o with OBegin _ _ base => sl_pend s' = true -> base < u64 (sl_pend_ts s' + kThinSamples) | OPoint _ _ _ => True end).
Proof.
  assert (forall base l x', (each_slot (sl_flush base) l).2 !! i = Some x' -> exists x, l !! i = Some x /\ sl_id x' = sl_id x /\ sl_cur x' = sl_cur x /\
    sl_dirty x' = sl_dirty x /\ (sl_pend x' = true -> base < u64 (sl_pend_ts x' + kThinSamples))) as Hfl.
  { intros base l x' H. unfold each_slot in H. cbn [snd] in H. rewrite list_lookup_fmap in H. destruct (l !! i) as [x|]; [|done]. injection H as <-. exists x.
    unfold sl_flush. destruct (sl_pend x) eqn:Hp; cbn [andb].
    - destruct (Z.leb_spec (u64 (sl_pend_ts x + kThinSamples)) base); cbn [snd]; split_and!; try done.
    - cbn [snd]. split_and!; try done. by rewrite Hp. }
  destruct o as [gen c base|j v ts]; cbn [pa_step].
  - unfold beginBlock. set (slots := if gen =? pa_gen a then _ else _).
    assert (forall x, slots !! i = Some x -> exists s, pa_slots a !! i = Some s /\ sl_id x = sl_id s /\ sl_cur x = sl_cur s /\ sl_dirty x = sl_dirty s) as Hs.
    { unfold slots. intros x Hx. destruct (gen =? pa_gen a); [by exists x|]. rewrite list_lookup_fmap in Hx. destruct (pa_slots a !! i) as [s|]; [|done].
      injection Hx as <-. by exists s. }
    destruct (c && negb (pa_was a) && pa_ever a) eqn:He.
    + destruct (each_slot sl_replay slots) as [l1 slots1] eqn:Er. destruct (each_slot (sl_flush base) slots1) as [l2 slots2] eqn:Ef. cbn [snd pa_slots]. intros H.
      assert (slots2 = (each_slot (sl_flush base) slots1).2) as Ef2 by by rewrite Ef. rewrite Ef2 in H. apply Hfl in H as (x & Hx & X1 & X2 & X3 & X4).
      assert (slots1 = (each_slot sl_replay slots).2) as Er2 by by rewrite Er. rewrite Er2 in Hx. unfold each_slot in Hx. cbn [snd] in Hx. rewrite list_lookup_fmap in Hx.
      destruct (slots !! i) as [y|] eqn:Hy; [|done]. injection Hx as Hx. destruct (Hs y eq_refl) as (s & S1 & S2 & S3 & S4). exists s.
      assert (sl_id x = sl_id y /\ sl_cur x = sl_cur y) as [Y1 Y2] by (rewrite <- Hx; unfold sl_replay; by destruct (sl_dirty y)).
      destruct c; [|done]. split_and!; try done; cbn; congruence.
    + destruct (each_slot (sl_flush base) slots) as [l2 slots2] eqn:Ef. cbn [snd pa_slots]. intros H.
      assert (slots2 = (each_slot (sl_flush base) slots).2) as Ef2 by by rewrite Ef. rewrite Ef2 in H. apply Hfl in H as (x & Hx & X1 & X2 & X3 & X4).
      destruct (Hs x Hx) as (s & S1 & S2 & S3 & S4). exists s. split_and!; try done; [congruence|cbn; congruence|]. destruct c; [done|congruence].
  - unfold point. destruct (pa_slots a !! j) as [s|] eqn:Hj.
    2: { cbn [snd]. intros H. exists s'. split_and!; try done; cbn; destruct (Nat.eqb_spec j i) as [->|]; done || congruence. }
    destruct (sl_point (pa_ever a && negb (pa_connected a)) v ts s) as [calls x] eqn:Ep. cbn [snd pa_slots]. intros H.
    destruct (decide (j = i)) as [->|Hne].
    + rewrite list_lookup_insert_eq in H by by apply lookup_lt_Some in Hj. injection H as <-. exists s.
      assert (sl_id x = sl_id s /\ sl_cur x = v /\ sl_dirty x = (pa_ever a && negb (pa_connected a)) || sl_dirty s) as (P1 & P2 & P3).
      { unfold sl_point in Ep. cbv zeta in Ep. repeat case_match; injection Ep as <- <-; done. }
      cbn. rewrite Nat.eqb_refl. split_and!; done.
    + rewrite list_lookup_insert_ne in H by done. exists s'. cbn. rewrite (proj2 (Nat.eqb_neq j i)) by done. split_and!; done.
Qed.

Lemma value_after_app i l k v : value_after i (l ++ k) v = value_after i k (value_after i l v).
Proof. apply fold_left_app. Qed.

Lemma run_snoc ops o a : pa_run (ops ++ [o]) a = ((pa_run ops a).1 ++ (pa_step o (pa_run ops a).2).1, (pa_step o (pa_run ops a).2).2).
Proof. rewrite run_app. destruct (pa_run ops a) as [c1 a1]. cbn [pa_run fst snd]. destruct (pa_step o a1) as [c2 a2]. by rewrite app_nil_r. Qed.

Lemma run_slot ops : forall a i s', pa_slots (pa_run ops a).2 !! i = Some s' ->
  exists s, pa_slots a !! i = Some s /\ sl_id s' = sl_id s /\ sl_cur s' = value_after i ops (sl_cur s).
Proof.
  induction ops as [|o ops IH] using rev_ind; intros a i s' H; [by exists s'|]. rewrite run_snoc in H. cbn [snd] in H.
  apply step_slot in H as (s1 & H1 & I1 & V1 & _). apply IH in H1 as (s & H & I & V). exists s. rewrite value_after_app, <- V. split_and!; [done|congruence|done].
Qed.

Lemma init_slot table i s : pa_slots (pa_init table) !! i = Some s -> table !! i = Some (sl_id s, sl_cur s) /\ sl_dirty s = false.
Proof. cbn [pa_init pa_slots]. rewrite list_lookup_fmap. destruct (table !! i) as [[id v]|]; [|done]. intros [= <-]. done. Qed.

Lemma run_length l : forall b, length (pa_slots (pa_run l b).2) = length (pa_slots b).
Proof.
  induction l as [|o l IH] using rev_ind; intros b; [done|]. rewrite run_snoc. cbn [snd]. rewrite <- (IH b). generalize (pa_run l b).2. intros b1.
  destruct o as [g c bs|j w t]; cbn [pa_step].
  - unfold beginBlock. destruct (_ && pa_ever b1); cbn [each_slot fst snd pa_slots]; rewrite ?length_map; destruct (g =? pa_gen b1); by rewrite ?length_map.
  - unfold point. destruct (pa_slots b1 !! j); [|done]. destruct (sl_point _ _ _ _). cbn [snd pa_slots]. by rewrite length_insert.
Qed.

(** *** One session *)

(** The session the operations end in. *)
Definition session_of (ops : list pa_op) (g : Z) : Z := fold_left (fun g o => match o with OBegin g' _ _ => g' | OPoint _ _ _ => g end) ops g.

(** No further point for slot [i], and no other session than [g]. *)
Definition quiet (i : nat) (g : Z) (o : pa_op) : Prop := match o with OPoint j _ _ => j <> i | OBegin g' _ _ => g' = g end.

(** The slot remembers a call; what is folded, if anything, is the point at [ts]. *)
Definition gesture (ts : Z) (s : pa_slot) : Prop := sl_has_last s = true /\ (sl_pend s = true -> sl_pend_ts s = ts).

Lemma step_gen o a : pa_gen (pa_step o a).2 = session_of [o] (pa_gen a).
Proof.
  destruct o as [gen c base|j v ts]; cbn [pa_step].
  - unfold beginBlock. destruct (if _ && pa_ever a then _ else _) as [l1 slots1]. by destruct (each_slot _ slots1).
  - unfold point. destruct (pa_slots a !! j); [|done]. by destruct (sl_point _ _ _ _).
Qed.

Lemma run_gen ops : forall a, pa_gen (pa_run ops a).2 = session_of ops (pa_gen a).
Proof.
  induction ops as [|o ops IH] using rev_ind; intros a; [done|]. rewrite run_snoc. cbn [snd]. rewrite step_gen, IH. unfold session_of. by rewrite fold_left_app.
Qed.

Lemma each_lookup f l i x : l !! i = Some x -> (each_slot f l).2 !! i = Some (f x).2.
Proof. intros H. unfold each_slot. cbn [snd]. by rewrite list_lookup_fmap, H. Qed.

Lemma point_gesture a i v ts s : pa_slots a !! i = Some s -> exists s', pa_slots (pa_step (OPoint i v ts) a).2 !! i = Some s' /\ gesture ts s'.
Proof.
  intros Hi. cbn [pa_step]. unfold point. rewrite Hi. destruct (sl_point _ v ts s) as [calls s'] eqn:E. cbn [snd pa_slots]. exists s'.
  split; [apply list_lookup_insert_eq; by eapply lookup_lt_Some|]. unfold sl_point in E. cbv zeta in E.
  destruct (_ && (ts - sl_last s <? kThinSamples)); injection E as _ <-; by split.
Qed.

Lemma quiet_gesture o a i ts s : quiet i (pa_gen a) o -> pa_slots a !! i = Some s -> gesture ts s ->
  exists s', pa_slots (pa_step o a).2 !! i = Some s' /\ gesture ts s'.
Proof.
  intros Hq Hi [G1 G2]. destruct o as [gen c base|j v t]; cbn [quiet pa_step] in *.
  - subst gen. unfold beginBlock. rewrite Z.eqb_refl.
    assert (exists s1, (if c && negb (pa_was a) && pa_ever a then each_slot sl_replay (pa_slots a) else ([], pa_slots a)).2 !! i = Some s1 /\ gesture ts s1) as (s1 & H1 & [K1 K2]).
    { destruct (_ && pa_ever a); [|by exists s]. eexists. split; [by apply each_lookup|]. unfold sl_replay. destruct (sl_dirty s); by split. }
    destruct (if _ && pa_ever a then _ else _) as [l1 slots1]. cbn [snd] in H1. apply (each_lookup (sl_flush base)) in H1.
    destruct (each_slot (sl_flush base) slots1) as [l2 slots2]. cbn [snd pa_slots] in *. eexists. split; [exact H1|].
    unfold sl_flush. destruct (_ && _); by split.
  - unfold point. destruct (pa_slots a !! j) as [x|]; [|by exists s]. destruct (sl_point _ _ _ x) as [calls x']. cbn [snd pa_slots].
    exists s. split; [by rewrite list_lookup_insert_ne|done].
Qed.

Lemma run_gesture post : forall a i ts s, Forall (quiet i (pa_gen a)) post -> pa_slots a !! i = Some s -> gesture ts s ->
  exists s', pa_slots (pa_run post a).2 !! i = Some s' /\ gesture ts s'.
Proof.
  induction post as [|o post IH]; intros a i ts s Hq Hi Hg; [by exists s|]. apply Forall_cons_iff in Hq as [Ho Hq]. cbn [pa_run].
  destruct (quiet_gesture o a i ts s Ho Hi Hg) as (s1 & H1 & G1). pose proof (step_gen o a) as Eg.
  destruct (pa_step o a) as [c1 a1]. cbn [snd] in *. destruct (IH a1 i ts s1) as (s2 & H2 & G2); [|done|done|].
  - rewrite Eg. destruct o; cbn in Ho |- *; [by subst|exact Hq].
  - exists s2. by destruct (pa_run post a1).
Qed.

Lemma value_quiet i g l : Forall (quiet i g) l -> forall v, value_after i l v = v.
Proof.
  induction 1 as [|o l Ho _ IH]; intros v; [done|]. unfold value_after in *. cbn [fold_left]. rewrite IH.
  destruct o as [|j w t]; [done|]. cbn in Ho. by rewrite (proj2 (Nat.eqb_neq _ _)).
Qed.

(** C15: a gesture settles on its last value.  Over any sequence of process blocks and
    automation points, whatever the connection and the sessions do, what is queued for
    a parameter are sets and ramps in which every ramp spans 256 to 4800 samples and
    starts where the call before it ended (or after a "now").  And when a parameter
    gets its last point, of value [v] at [ts], and the session stays the same from then
    on (a fold pending when the session changes is forgotten), then at the first block
    that starts 256 samples after that point or later, the last thing queued for the
    parameter has the value [v] - whether the point was queued itself or folded. *)
Theorem automation_settles (table : list (Z * Z)) (pre post : list pa_op) (i : nat) (v ts gen : Z) (c : bool) (base id d : Z) :
  NoDup (map fst table) -> table !! i = Some (id, d) ->
  (forall ops, chained None (calls_of id (pa_run ops (pa_init table)).1)) /\
  (Forall (quiet i (session_of pre 0)) (post ++ [OBegin gen c base]) -> u64 (ts + kThinSamples) <= base ->
   exists call, list.last (calls_of id (pa_run (pre ++ OPoint i v ts :: post ++ [OBegin gen c base]) (pa_init table)).1) = Some call /\ call_val call = v).
Proof.
  intros Hn Ht.
  assert (pa_slots (pa_init table) !! i = Some (mk_slot id d 0 0 0 false false false)) as H0 by (cbn [pa_init pa_slots]; by rewrite list_lookup_fmap, Ht).
  assert (forall ops, exists s, pa_slots (pa_run ops (pa_init table)).2 !! i = Some s /\ sl_id s = id /\ sl_cur s = value_after i ops d /\
    slot_ok (pa_run ops (pa_init table)).1 s) as Hslot.
  { intros ops. destruct (lookup_lt_is_Some_2 (pa_slots (pa_run ops (pa_init table)).2) i) as [s Hs].
    { rewrite run_length. by eapply lookup_lt_Some. }
    exists s. destruct (run_slot ops _ _ _ Hs) as (s0 & E0 & E1 & E2). rewrite H0 in E0. injection E0 as <-.
    pose proof (run_keeps ops [] _ (init_ok table Hn)) as [_ Hok]. rewrite Forall_lookup in Hok. split_and!; try done. by apply (Hok i). }
  split. { intros ops. destruct (Hslot ops) as (s & _ & E & _ & [_ _ H3]). by rewrite E in H3. }
  intros Hq Hb. set (ops := pre ++ _). destruct (Hslot ops) as (s & Hs & E1 & E2 & Hok).
  assert (value_after i ops d = v) as Hv.
  { unfold ops. rewrite value_after_app. cbn [value_after fold_left]. rewrite Nat.eqb_refl. fold (value_after i (post ++ [OBegin gen c base]) v). by eapply value_quiet. }
  assert (gesture ts s) as [G1 G2].
  { destruct (Hslot pre) as (s1 & P1 & _). destruct (point_gesture _ i v ts s1 P1) as (s2 & P2 & P3).
    destruct (run_gesture (post ++ [OBegin gen c base]) (pa_step (OPoint i v ts) (pa_run pre (pa_init table)).2).2 i ts s2) as (s3 & P4 & P5); [|done|done|].
    { rewrite step_gen, run_gen. exact Hq. }
    unfold ops in Hs. rewrite run_app in Hs. destruct (pa_run pre (pa_init table)) as [c1 a1]. cbn [pa_run snd] in *.
    destruct (pa_step (OPoint i v ts) a1) as [c2 a2]. cbn [snd] in *. destruct (pa_run (post ++ _) a2) as [c3 a3]. cbn [snd] in *. congruence. }
  assert (sl_pend s = false) as Hp.
  { apply not_true_is_false. intros Hp. specialize (G2 Hp). unfold ops in Hs. rewrite app_comm_cons, app_assoc, run_snoc in Hs. cbn [snd] in Hs.
    apply step_slot in Hs as (_ & _ & _ & _ & _ & Hl). specialize (Hl Hp). rewrite G2 in Hl. lia. }
  destruct (so_last _ _ Hok G1) as (call & C1 & _ & C3). rewrite E1 in C1. exists call. split; [exact C1|]. by rewrite C3, E2.
Qed.

(** The connection as sampled last. *)
Lemma run_was ops : forall a, pa_was a = pa_connected a -> pa_was (pa_run ops a).2 = pa_connected (pa_run ops a).2.
Proof.
  induction ops as [|o ops IH] using rev_ind; intros a H; [done|]. rewrite run_snoc. cbn [snd]. specialize (IH a H). generalize dependent (pa_run ops a).2. intros a1 H1.
  destruct o as [gen c base|j v ts]; cbn [pa_step].
  - unfold beginBlock. destruct (if _ && pa_ever a1 then _ else _) as [l1 slots1]. by destruct (each_slot _ slots1).
  - unfold point. destruct (pa_slots a1 !! j); [|done]. by destruct (sl_point _ _ _ _).
Qed.

Definition no_connect (o : pa_op) : Prop := match o with OBegin _ true _ => False | _ => True end.

Lemma offline_stays ops : forall a, pa_ever a = true -> pa_connected a = false -> Forall no_connect ops ->
  let a' := (pa_run ops a).2 in pa_ever a' = true /\ pa_connected a' = false /\
  forall i s s', pa_slots a !! i = Some s -> sl_dirty s = true -> pa_slots a' !! i = Some s' -> sl_dirty s' = true.
Proof.
  induction ops as [|o ops IH] using rev_ind; intros a He Hc Hops.
  { cbn. split_and!; try done. intros i s s' H1 Hd H2. congruence. }
  apply Forall_app in Hops as [Hops Ho]. apply Forall_cons_iff in Ho as [Ho _]. destruct (IH a He Hc Hops) as (I1 & I2 & I3). clear IH.
  rewrite run_snoc. cbn [snd]. set (a1 := (pa_run ops a).2) in *.
  assert (pa_ever (pa_step o a1).2 = true /\ pa_connected (pa_step o a1).2 = false) as [-> ->].
  { destruct o as [gen [|] base|j v ts]; [done| |]; cbn [pa_step].
    - unfold beginBlock. cbn [andb orb]. by destruct (each_slot _ _).
    - unfold point. destruct (pa_slots a1 !! j); [|done]. by destruct (sl_point _ _ _ _). }
  split_and!; try done. intros i s s' H1 Hd H2. apply step_slot in H2 as (s1 & S1 & _ & _ & S4 & _). pose proof (I3 i s s1 H1 Hd S1) as Hd1.
  destruct o as [gen [|] base|j v ts]; [done|congruence|]. by rewrite S4, Hd1, orb_true_r.
Qed.

(** What was edited offline is dirty as long as the device is away. *)
Lemma edited_offline a i v ts mid s : pa_ever a = true -> pa_connected a = false -> pa_was a = false -> Forall no_connect mid ->
  let a' := (pa_run (OPoint i v ts :: mid) a).2 in pa_slots a' !! i = Some s -> sl_dirty s = true /\ pa_ever a' = true /\ pa_was a' = false.
Proof.
  intros He Hc Hw Hm. cbn [pa_run]. destruct (pa_step (OPoint i v ts) a) as [c1 a1] eqn:E1. 
  assert (a1 = (pa_step (OPoint i v ts) a).2) as Ea by by rewrite E1.
  assert (pa_ever a1 = true /\ pa_connected a1 = false /\ pa_was a1 = false) as (E3 & E4 & E5).
  { rewrite Ea. cbn [pa_step]. unfold point. destruct (pa_slots a !! i); [|done]. by destruct (sl_point _ _ _ _). }
  pose proof (offline_stays mid a1 E3 E4 Hm) as (O1 & O2 & O3). pose proof (run_was mid a1 ltac:(congruence)) as Hwas. pose proof (run_slot mid a1 i) as Hr.
  destruct (pa_run mid a1) as [c2 a2]. cbn [snd] in *. intros Hs. split; [|split; [done|congruence]].
  destruct (Hr s Hs) as (s1 & H1 & _). apply (O3 i s1 s); [done| |done]. rewrite Ea in H1. apply step_slot in H1 as (s2 & _ & _ & _ & D & _).
  rewrite Nat.eqb_refl, He, Hc in D. exact D.
Qed.

(** A dirty slot is replayed when the device is back. *)
Lemma dirty_replayed a gen base s : s ∈ pa_slots a -> sl_dirty s = true -> pa_ever a = true -> pa_was a = false ->
  PSet (sl_id s) (sl_cur s) 0 ∈ (beginBlock gen true base a).1.
Proof.
  intros Hs Hd He Hw. unfold beginBlock. rewrite He, Hw. cbn [andb negb]. set (slots := if gen =? pa_gen a then _ else _).
  assert (exists x, x ∈ slots /\ sl_id x = sl_id s /\ sl_cur x = sl_cur s /\ sl_dirty x = true) as (x & X1 & <- & <- & X4).
  { unfold slots. destruct (gen =? pa_gen a); [by exists s|]. exists (sl_forget s). split; [|done]. by apply (list_elem_of_fmap_2 sl_forget). }
  destruct (each_slot sl_replay slots) as [l1 slots1] eqn:Er. destruct (each_slot (sl_flush base) slots1) as [l2 slots2]. cbn [fst].
  apply elem_of_app. left. assert (l1 = (each_slot sl_replay slots).1) as -> by by rewrite Er. cbn [each_slot fst].
  apply list_elem_of_In, in_flat_map. exists x. split; [by apply list_elem_of_In|]. unfold sl_replay. rewrite X4. by left.
Qed.

(** C16: an edit made offline is replayed.  A parameter edited while the device was
    away - it had been there before, and was not at the start of the block - is set
    again, "now" and with the value it was given last, in the block that finds the
    device back; whatever happens in between, edits of the same parameter, new
    sessions and blocks that find it still away. *)
Theorem offline_edits_replayed (table : list (Z * Z)) (pre mid : list pa_op) (i : nat) (id d v ts gen base : Z) :
  table !! i = Some (id, d) ->
  let before := (pa_run pre (pa_init table)).2 in
  pa_ever before = true -> pa_connected before = false -> Forall no_connect mid ->
  let ops := pre ++ OPoint i v ts :: mid in
  PSet id (value_after i ops d) 0 ∈ (pa_step (OBegin gen true base) (pa_run ops (pa_init table)).2).1.
Proof.
  intros Ht before He Hc Hm ops.
  assert (pa_was before = false) as Hw by (unfold before; rewrite run_was by done; exact Hc).
  set (a := (pa_run ops (pa_init table)).2).
  assert (a = (pa_run (OPoint i v ts :: mid) before).2) as Ea.
  { unfold a, ops, before. rewrite run_app. destruct (pa_run pre (pa_init table)) as [c1 a1]. cbn [snd]. by destruct (pa_run (OPoint i v ts :: mid) a1). }
  assert (exists s, pa_slots a !! i = Some s) as [s Hs].
  { apply lookup_lt_is_Some_2. unfold a. rewrite run_length. cbn [pa_init pa_slots]. rewrite length_map. by apply lookup_lt_Some in Ht. }
  destruct (run_slot ops _ i s Hs) as (s0 & H0 & I0 & V0). apply init_slot in H0 as [Ht0 _]. rewrite Ht in Ht0. injection Ht0 as E1 E2.
  destruct (edited_offline before i v ts mid s He Hc Hw Hm) as (D1 & D2 & D3); [by rewrite <- Ea|]. rewrite <- Ea in D2, D3.
  cbn [pa_step]. rewrite E1, E2, <- I0, <- V0. apply dirty_replayed; try done. by apply list_elem_of_lookup_2 in Hs.
Qed.

(** ** Concrete runs *)

Definition demo_table : list (Z * Z) := [(7, 0); (9, 5)].

Lemma automation_settles_witness : exists call,
  list.last (calls_of 7 (pa_run ([OBegin 1 true 0; OPoint 0 11 100; OPoint 0 12 1000] ++ OPoint 0 13 1100 :: [OPoint 1 6 1200] ++ [OBegin 1 true 2000]) (pa_init demo_table)).1) = Some call /\
  call_val call = 13.
Proof.
  destruct (automation_settles demo_table [OBegin 1 true 0; OPoint 0 11 100; OPoint 0 12 1000] [OPoint 1 6 1200] 0 13 1100 1 true 2000 7 0) as [_ H].
  - exact (bool_decide_unpack (NoDup [7; 9]) I).
  - reflexivity.
  - apply H; [repeat constructor; discriminate|by vm_compute].
Defined.

Lemma offline_edits_replayed_witness :
  PSet 9 21 0 ∈ (pa_step (OBegin 2 true 0) (pa_run [OBegin 1 true 0; OBegin 1 false 64; OPoint 1 20 70; OBegin 1 false 128; OPoint 1 21 130] (pa_init demo_table)).2).1.
Proof.
  apply (offline_edits_replayed demo_table [OBegin 1 true 0; OBegin 1 false 64] [OBegin 1 false 128; OPoint 1 21 130] 1 9 5 20 70 2 0).
  - reflexivity.
  - reflexivity.
  - reflexivity.
  - repeat constructor.
Defined.

(** A folded value that the session does not outlive is forgotten: it is neither
    flushed nor replayed, although the plug-in goes on showing it. *)
Example folded_value_lost :
  let '(log, a) := pa_run [OBegin 1 true 0; OPoint 0 11 100; OPoint 0 12 200; OBegin 1 false 256; OBegin 2 true 0; OBegin 2 true 4096] (pa_init demo_table) in
  log = [PSet 7 11 100] /\ (sl_cur <$> pa_slots a !! 0%nat) = Some 12.
Proof. by vm_compute. Qed.

(** ** The note map *)

(** A note takes an entry when one is free or already its own. *)
Definition nv_room (id : Z) (l : list nv_entry) : Prop := exists e, e ∈ l /\ (nv_active e = false \/ nv_id e = id).

(** The newest voice of a note is the one addressed; other notes keep theirs. *)
Lemma note_on_addresses id key l : 0 <= id -> nv_room id l ->
  nv_voiceFor id (nv_noteOn id key l) = key /\ forall id', 0 <= id' -> id' <> id -> nv_voiceFor id' (nv_noteOn id key l) = nv_voiceFor id' l.
Proof.
  intros Hid Hr. unfold nv_noteOn, nv_voiceFor. rewrite (proj2 (Z.ltb_ge id 0)) by lia. split.
  - induction l as [|e l IH]; [by destruct Hr as (x & Hx%not_elem_of_nil & _)|]. cbn [nv_take].
    destruct (negb (nv_active e) || (nv_id e =? id)) eqn:E; cbn [List.find nv_active nv_id andb]; [by rewrite Z.eqb_refl|].
    apply orb_false_iff in E as [E1 E2]. rewrite E2, andb_false_r. apply IH. destruct Hr as (x & Hx & Hc). apply elem_of_cons in Hx as [->|Hx]; [|by exists x].
    apply negb_false_iff in E1. apply Z.eqb_neq in E2. destruct Hc; congruence.
  - intros id' Hid' Hne. rewrite (proj2 (Z.ltb_ge id' 0)) by lia. clear Hr. induction l as [|e l IH]; [done|]. cbn [nv_take].
    destruct (negb (nv_active e) || (nv_id e =? id)) eqn:E; cbn [List.find nv_active nv_id andb].
    + rewrite (proj2 (Z.eqb_neq id id')) by congruence. apply orb_true_iff in E as [E|E]; [apply negb_true_iff in E; by rewrite E|].
      apply Z.eqb_eq in E. rewrite E, (proj2 (Z.eqb_neq id id')), andb_false_r by congruence. done.
    + destruct (nv_active e && (nv_id e =? id')); [done|exact IH].
Qed.

(** A note that comes again while an entry before its own is free keeps the old entry
    behind the new one: when the new voice ends, the old one is addressed again. *)
Example note_id_stale :
  let l := nv_noteOff 100 (nv_noteOn 7 200 (nv_noteOn 3 100 nv_init)) in
  nv_voiceFor 7 (nv_noteOff 300 (nv_noteOn 7 300 l)) = 200.
Proof. reflexivity. Qed.

(** ** Arming an effect *)

(** an effect's wet signal is armed where the host was told it is.  For any
    32-bit budget, latched and actual pipeline and delay line: nothing is truncated;
    the wet is delivered the pre-roll and the pipeline behind its input; unless the
    delay line clips it, the pre-roll is at least the timing budget and the wet is
    delivered exactly where it was reported when the pipeline is no deeper than the
    latched one, and otherwise later by just the difference; and it is clipped exactly
    when that does not fit, to the end of the line or to the pipeline alone. *)
Theorem fx_arm_exact base latched pipe maxDelay : is_u32 base -> is_u32 latched -> is_u32 pipe -> is_u32 maxDelay ->
  let a := fxArmFor base latched pipe maxDelay in
  let wanted := base + Z.max latched pipe in
  fa_delivered a = fa_preroll a + pipe /\ fa_lag a = Z.max 0 (fa_delivered a - (base + latched)) /\
  fa_capped a = (maxDelay <? wanted) /\ (wanted <= maxDelay -> fa_delivered a = wanted /\ base <= fa_preroll a) /\
  (maxDelay < wanted -> fa_delivered a = Z.max maxDelay pipe).
Proof.
  unfold is_u32. intros Hb Hl Hp Hm. unfold fxArmFor. cbv zeta. rewrite (u64_small (base + latched)) by (unfold is_u64; lia).
  set (p0 := if pipe <? base + latched then base + latched - pipe else 0).
  assert ((if p0 <? base then base else p0) = base + Z.max 0 (latched - pipe)) as ->.
  { unfold p0. destruct (Z.ltb_spec pipe (base + latched)); match goal with |- context [?x <? base] => destruct (Z.ltb_spec x base) end; lia. }
  rewrite (u64_small (base + Z.max 0 (latched - pipe) + pipe)) by (unfold is_u64; lia).
  replace (base + Z.max 0 (latched - pipe) + pipe) with (base + Z.max latched pipe) by lia.
  destruct (Z.ltb_spec maxDelay (base + Z.max latched pipe)); cbn [fa_delivered fa_preroll fa_lag fa_capped].
  - assert (0 <= (if pipe <? maxDelay then u32 (maxDelay - pipe) else 0) /\ (if pipe <? maxDelay then u32 (maxDelay - pipe) else 0) + pipe = Z.max maxDelay pipe) as [Hq ->].
    { destruct (Z.ltb_spec pipe maxDelay); [rewrite u32_small by (unfold is_u32; lia)|]; lia. }
    assert ((if pipe <? maxDelay then u32 (maxDelay - pipe) else 0) = Z.max maxDelay pipe - pipe) as ->.
    { destruct (Z.ltb_spec pipe maxDelay); [rewrite u32_small by (unfold is_u32; lia)|]; lia. }
    rewrite (u64_small (Z.max maxDelay pipe)) by (unfold is_u64; lia). rewrite !(u32_small (Z.max maxDelay pipe)), (u32_small (_ - pipe)) by (unfold is_u32; lia).
    destruct (Z.ltb_spec (base + latched) (Z.max maxDelay pipe)); [rewrite u32_small by (unfold is_u32; lia)|]; split_and!; lia.
  - rewrite !(u32_small (base + Z.max latched pipe)), (u32_small (base + Z.max 0 _)) by (unfold is_u32; lia).
    destruct (Z.ltb_spec (base + latched) (base + Z.max latched pipe)); [rewrite u32_small by (unfold is_u32; lia)|]; split_and!; lia.
Qed.

Lemma fx_arm_exact_witness : fa_delivered (fxArmFor 100 50 20 1000) = 150 /\ fa_delivered (fxArmFor 100 50 20 120) = 120.
Proof.
  destruct (fx_arm_exact 100 50 20 1000 ltac:(unfold is_u32; lia) ltac:(unfold is_u32; lia) ltac:(unfold is_u32; lia) ltac:(unfold is_u32; lia)) as (_ & _ & _ & H1 & _).
  destruct (fx_arm_exact 100 50 20 120 ltac:(unfold is_u32; lia) ltac:(unfold is_u32; lia) ltac:(unfold is_u32; lia) ltac:(unfold is_u32; lia)) as (_ & _ & _ & _ & H2).
  split; [apply H1; lia|apply H2; lia].
Defined.
