(* ===== verification/Bundle.v ===== *)
(** * The state bundle of a project

    shell/runtime_recall.cpp, the codec: a saved project carries the identity of the
    device, the live ref with every object its snapshot needs, and the USB identity of
    the unit.  Opening a project files the objects in the local store and stages what
    is to be applied; the knob values are read from the staged snapshot. *)
From Stdlib Require Import ZArith Lia String List Bool.
From stdpp Require Import base list.
From S2P Require Import Prelude Cbuf CborEnc CborDec CborFloat CborFields Object Fs Store Device Reply Client.
Open Scope Z_scope.
Open Scope list_scope.

Definition BUNDLE_MAGIC : list Z := str "harpb".

(** ** The closure that is saved

    [struct HashList]: at most 512 hashes, without duplicates. *)
Definition HASH_LIST_CAP : nat := 512.
Definition hl_contains (l : list harp_hash) (x : harp_hash) : bool := existsb (fun h => harp_hash_eq h x) l.
Definition hl_add (x : harp_hash) (l : list harp_hash) : list harp_hash :=
  if hl_contains l x || (HASH_LIST_CAP <=? length l)%nat then l else l ++ [x].
Definition collect_cb : harp_hash_cb (list harp_hash) := fun h l => (true, hl_add h l).

(** ** The identities a bundle carries *)

(** [vendorId_] ... [paramMapHash_]: what the device said in its hello. *)
Record device_id := mk_did {
  di_vendor_id : Z; di_vendor : list Z; di_product_id : Z; di_product : list Z; di_serial : list Z;
  di_engine_id : list Z; di_engine_ver : list Z; di_pmh : harp_hash }.
(** [usbVid_], [usbPid_], [usbSerial_] *)
Record usb_id := mk_usb { us_vid : Z; us_pid : Z; us_serial : list Z }.

(** The parameter values of part 0, in the order they were read. *)
Abbreviation knobs := (list (Z * Z)).

Section bundle.
Context {R : Realloc} {O' : OS} {F : Faults}.

(** ** Encoding *)

Definition encode_expectation (i : device_id) (out : cbuf) : cbuf :=
  let b := harp_cbor_map out 4 in
  let b := harp_cbor_map (harp_cbor_uint b 0) 2 in
  let b := harp_cbor_uint (harp_cbor_uint b 0) (di_vendor_id i) in
  let b := harp_cbor_text (harp_cbor_uint b 1) (cstr (di_vendor i)) in
  let b := harp_cbor_map (harp_cbor_uint b 1) 2 in
  let b := harp_cbor_uint (harp_cbor_uint b 0) (di_product_id i) in
  let b := harp_cbor_text (harp_cbor_uint b 1) (cstr (di_product i)) in
  let b := harp_cbor_text (harp_cbor_uint b 2) (cstr (di_serial i)) in
  let b := harp_cbor_map (harp_cbor_uint b 3) 3 in
  let b := harp_cbor_text (harp_cbor_uint b 0) (cstr (di_engine_id i)) in
  let b := harp_cbor_text (harp_cbor_uint b 1) (cstr (di_engine_ver i)) in
  harp_cbor_bytes (harp_cbor_uint b 2) (di_pmh i).

Definition encode_usb (u : usb_id) (out : cbuf) : cbuf :=
  let b := harp_cbor_map out 3 in
  let b := harp_cbor_uint (harp_cbor_uint b 0) (us_vid u) in
  let b := harp_cbor_uint (harp_cbor_uint b 1) (us_pid u) in
  harp_cbor_text (harp_cbor_uint b 2) (cstr (us_serial u)).

(** Keys 0 to 3. *)
Definition encode_front (i : device_id) (ref : harp_ref) (out : cbuf) : cbuf :=
  let b := harp_cbor_map out 6 in
  let b := harp_cbor_text (harp_cbor_uint b 0) BUNDLE_MAGIC in
  let b := harp_cbor_uint (harp_cbor_uint b 1) 1 in
  let b := encode_expectation i (harp_cbor_uint b 2) in
  harp_ref_encode (harp_cbor_array (harp_cbor_uint b 3) 1) ref.

(** An object that cannot be read is left out; the count of the array is not
    changed. *)
Fixpoint encode_objects (s : path) (l : list harp_hash) (out : cbuf) (w : world) : cbuf * world :=
  match l with
  | h :: l =>
      match harp_store_get s h harp_cbuf_init w with
      | (Some (true, enc), w) => encode_objects s l (harp_cbuf_put out (cb_buf enc)) w
      | (_, w) => encode_objects s l out w
      end
  | [] => (out, w)
  end.

Definition encode_bundle (i : device_id) (u : usb_id) (ref : harp_ref) (s : path) (closure : list harp_hash) (out : cbuf) (w : world) : cbuf * world :=
  let b := harp_cbor_array (harp_cbor_uint (encode_front i ref out) 4) (zlen closure) in
  let '(b, w) := encode_objects s closure b w in
  (encode_usb u (harp_cbor_uint b 5), w).

(** The closure of a head: the list grows while it is walked, to at most 512. *)
Fixpoint bundle_closure (s : path) (turns : nat) (clo : list harp_hash) (cur : nat) (w : world) : list harp_hash * world :=
  match turns, clo !! cur with
  | S turns, Some h =>
      match harp_store_get s h harp_cbuf_init w with
      | (Some (true, enc), w) => bundle_closure s turns (harp_obj_foreach_child (cb_buf enc) false collect_cb clo).2 (S cur) w
      | (_, w) => bundle_closure s turns clo (S cur) w
      end
  | _, _ => (clo, w)
  end.

(** ** The knob values of a snapshot *)

Definition push_knob (id v : Z) : parser knobs unit := on_snd (sm_modify (fun l => l ++ [(u32 id, f64_to_f32 v)])).
Definition knob_visit (id : Z) : parser knobs unit := v ← on_fst harp_cdec_float; push_knob id v.

(** A map up to the first pair that does not parse. *)
Definition decode_param_map : parser knobs unit := sm_try (map_fields knob_visit);; mret tt.

(** [for (...; k < n && !d.err; ...)] *)
Definition while_ok {T} (m : parser T unit) : parser T unit := '(d, _) ← sm_get; if d_err d then mret tt else m.

Definition params_payload : parser knobs unit :=
  pn ← on_fst harp_cdec_map; sm_guard (negb (pn =? 0));;
  first ← on_fst harp_cdec_uint;
  '(d, _) ← sm_get;
  if harp_cdec_peek d =? 5 then
    (if first =? 0 then decode_param_map else skip_ignored);;
    sm_for (pn - 1) (while_ok (part ← on_fst harp_cdec_uint; if part =? 0 then decode_param_map else on_fst harp_cdec_skip))
  else
    knob_visit first;; sm_for (pn - 1) (id ← on_fst harp_cdec_uint; knob_visit id).

Definition decode_params_payload (pl : list Z) (out : knobs) : knobs := (params_payload (harp_cdec_init pl, out)).2.2.

(** The entry of a tree that holds the values. *)
Definition params_entry (s : path) : harp_tree_cb (knobs * world) := fun name h kind st =>
  let '(out, w) := st in
  (true,
   if negb (bool_decide (name = str "params")) || negb (kind =? 0) then (out, w)
   else
     match harp_store_get s h harp_cbuf_init w with
     | (Some (true, blob), w) =>
         (match harp_obj_parse_blob (cb_buf blob) with Some (_, pl) => decode_params_payload pl out | None => out end, w)
     | (_, w) => (out, w)
     end).

Definition paramsFromStore (s : path) (target : harp_hash) (out : knobs) (w : world) : knobs * world :=
  match harp_store_get s target harp_cbuf_init w with
  | (Some (true, enc), w) =>
      match harp_obj_parse_snapshot_root (cb_buf enc) with
      | Some root =>
          match harp_store_get s root harp_cbuf_init w with
          | (Some (true, tree), w) => (harp_obj_tree_foreach (cb_buf tree) (params_entry s) (out, w)).2
          | (_, w) => (out, w)
          end
      | None => (out, w)
      end
  | (_, w) => (out, w)
  end.

(** ** Reading a bundle *)

(** [for (i = 0; i < n && !d.err; i++) { if (!uint(&key)) return false; ... }] *)
Definition map_while {T} (visit : Z -> parser T unit) : parser T unit :=
  n ← on_fst harp_cdec_map; sm_for n (while_ok (key ← on_fst harp_cdec_uint; visit key)).

(** What both readers collect from the magic, the refs and the objects. *)
Record found := mk_found { fd_magic : bool; fd_target : option harp_hash; fd_world : world }.
Definition found_none (w : world) : found := mk_found false None w.

Definition fd_set_magic (s : list Z) (f : found) : found := mk_found (bool_decide (s = BUNDLE_MAGIC)) (fd_target f) (fd_world f).
Definition fd_ref (r : harp_ref) (f : found) : found :=
  if streq (r_name r) LIVE_REF && negb (r_unborn r) then mk_found (fd_magic f) (Some (r_hash r)) (fd_world f) else f.
Definition fd_object (s : path) (data : list Z) (f : found) : found :=
  mk_found (fd_magic f) (fd_target f) (harp_store_put s data (fd_world f)).2.

Definition read_magic : parser found unit := t ← on_fst harp_cdec_text; on_snd (sm_modify (fd_set_magic t)).
Definition read_refs : parser found unit :=
  n ← on_fst harp_cdec_array; sm_for n (r ← on_fst harp_ref_decode; on_snd (sm_modify (fd_ref r))).
Definition read_objects (s : path) : parser found unit :=
  '(d, _) ← sm_get;
  if harp_cdec_peek_null d then sm_try (on_fst harp_cdec_null);; mret tt
  else n ← on_fst harp_cdec_array; sm_for n (data ← on_fst harp_cdec_span; on_snd (sm_modify (fd_object s data))).

Definition params_key (s : path) (key : Z) : parser found unit :=
  if key =? 0 then read_magic
  else if key =? 3 then read_refs
  else if key =? 4 then read_objects s
  else on_fst harp_cdec_skip.

Definition bundleParams (data : list Z) (s : path) (w : world) : bool * knobs * world :=
  let '(r, (_, f)) := map_while (params_key s) (harp_cdec_init data, found_none w) in
  match r, fd_magic f, fd_target f with
  | Some _, true, Some target => let '(out, w) := paramsFromStore s target [] (fd_world f) in (true, out, w)
  | _, _, _ => (false, [], fd_world f)
  end.

(** [rfind("eth:", 0) == 0] *)
Definition is_eth (serial : list Z) : bool := has_prefix (str "eth:") serial.

(** The serial in the first key 5, where the search ends. *)
Definition wanted_serial_key (mk : Z) : parser (list Z * option (list Z)) unit :=
  if mk =? 2 then s ← on_fst harp_cdec_text; on_snd (sm_modify (fun x => (s, x.2))) else on_fst harp_cdec_skip.
Definition wanted_key (key : Z) : parser (option (list Z)) unit :=
  if key =? 5 then s ← with_local [] (map_while wanted_serial_key); on_snd (sm_modify (fun _ => Some s))
  else on_fst harp_cdec_skip.
Definition wanted_pair : parser (option (list Z)) unit :=
  while_ok ('(_, o) ← sm_get; match o with Some _ => mret tt | None => key ← on_fst harp_cdec_uint; wanted_key key end).
Definition wanted_serial : parser (option (list Z)) unit := n ← on_fst harp_cdec_map; sm_for n wanted_pair.

Definition bundleWantedSerial (data : list Z) : list Z :=
  let '(r, (_, o)) := wanted_serial (harp_cdec_init data, None) in
  match r, o with
  | Some _, Some ser => if is_eth ser then [] else ser
  | _, _ => []
  end.

(** ** What opening a project stages *)

(** [wantUsb_], [wantUsbVid_], ... *)
Record want_usb := mk_want { wu_want : bool; wu_id : usb_id }.
(** What the parser keeps of key 2, and the unit wanted. *)
Record expects := mk_expects { ex_pmh : option harp_hash; ex_major : Z; ex_serial : list Z; ex_usb : want_usb }.
Definition expects_none (u : want_usb) : expects := mk_expects None 0 [] u.

(** The leading decimal digits, in an [int]. *)
Fixpoint lead_int (v : Z) (s : list Z) : Z :=
  match s with
  | c :: r => if (48 <=? c) && (c <=? 57) then lead_int (s32 (s32 (v * 10) + (c - 48))) r else v
  | [] => v
  end.

Definition ex_set_pmh (h : list Z) (x : expects) : expects := mk_expects (Some h) (ex_major x) (ex_serial x) (ex_usb x).
Definition ex_set_major (t : list Z) (x : expects) : expects := mk_expects (ex_pmh x) (lead_int 0 t) (ex_serial x) (ex_usb x).
Definition ex_set_serial (t : list Z) (x : expects) : expects := mk_expects (ex_pmh x) (ex_major x) t (ex_usb x).
Definition ex_set_usb (u : usb_id) (x : expects) : expects :=
  mk_expects (ex_pmh x) (ex_major x) (ex_serial x)
    (mk_want (negb (bool_decide (us_serial u = [])) && negb (is_eth (us_serial u))) (mk_usb (u16 (us_vid u)) (u16 (us_pid u)) (us_serial u))).

Definition engine_key (ek : Z) : parser expects unit :=
  if ek =? 2 then h ← on_fst harp_cdec_bytes; if zlen h =? Z.of_nat HARP_HASH_LEN then on_snd (sm_modify (ex_set_pmh h)) else mret tt
  else if ek =? 1 then t ← on_fst harp_cdec_text; on_snd (sm_modify (ex_set_major t))
  else on_fst harp_cdec_skip.
Definition expectation_key (ik : Z) : parser expects unit :=
  if ik =? 3 then map_fields engine_key
  else if ik =? 2 then t ← on_fst harp_cdec_text; on_snd (sm_modify (ex_set_serial t))
  else on_fst harp_cdec_skip.

(** A value that does not parse leaves the variable as it was. *)
Definition kept {T A} (m : dec A) (set : A -> T -> T) : parser T unit :=
  o ← sm_try (on_fst m); on_snd (sm_modify (fun t => match o with Some a => set a t | None => t end)).
Definition usb_key (mk : Z) : parser (usb_id * expects) unit :=
  if mk =? 0 then kept harp_cdec_uint (fun v x => (mk_usb v (us_pid x.1) (us_serial x.1), x.2))
  else if mk =? 1 then kept harp_cdec_uint (fun v x => (mk_usb (us_vid x.1) v (us_serial x.1), x.2))
  else if mk =? 2 then kept harp_cdec_text (fun t x => (mk_usb (us_vid x.1) (us_pid x.1) t, x.2))
  else skip_ignored.
Definition usb_identity : parser expects unit :=
  u ← with_local (mk_usb 0 0 []) (map_fields usb_key); on_snd (sm_modify (ex_set_usb u)).

Definition on_found {X A} (m : parser found A) : parser (found * X) A := fun st =>
  let '(r, (d, f)) := m (st.1, st.2.1) in (r, (d, (f, st.2.2))).

Definition bundle_key (s : path) (key : Z) : parser (found * expects) unit :=
  if key =? 0 then on_found read_magic
  else if key =? 2 then beside (map_fields expectation_key)
  else if key =? 3 then on_found read_refs
  else if key =? 5 then beside usb_identity
  else if key =? 4 then on_found (read_objects s)
  else on_fst harp_cdec_skip.
End bundle.
