(* ===== verification/Recall.v ===== *)
(** * Recall: how a project and a device are brought together

    shell/runtime_recall.cpp, the flow, with the read-only holds of
    shell/runtime_session.cpp: saving a project, opening one, pushing its state with
    what it displaces archived first, the user's choice in a conflict.  The protocol
    client is an interface: what the flow asks of it. *)
From Stdlib Require Import ZArith Lia String List Bool.
From stdpp Require Import base list.
From S2P Require Import Prelude Cbuf CborEnc CborDec CborFields Object Fs Store Params Device Reply Refs Client Bundle.
Open Scope Z_scope.
Open Scope list_scope.

(** ** The interface of the client *)

(** [ctl_code]: the code of the last error the device answered. *)
Class Ctl (C : Type) := {
  ctl_find_ref : list Z -> SM C (res harp_ref);
  ctl_snapshot : list Z -> option (list Z) -> SM C (res harp_hash);
  ctl_refset : list Z -> option harp_hash -> harp_hash -> bool -> bool -> bool -> SM C (res Z);
  ctl_fetch : harp_hash -> SM C (res nat);
  ctl_push : harp_hash -> SM C (res (nat * nat));
  ctl_offer : option (list Z) -> option (list Z) -> bool -> SM C (res unit);
  ctl_poll : SM C (res (option bool * option Z));
  ctl_code : C -> list Z;
  ctl_world : C -> world;
  ctl_set_world : world -> C -> C }.

(** client.c behind the interface. *)
Definition client_ctl {L : Type} {ML : MsgLink L} {RL : MsgRecv L} {R : Realloc} {O' : OS} {F : Faults}
    (store : option path) (hooked : bool) (force_grant : option (list Z)) (fuel : nat) : Ctl (client L) := {|
  ctl_find_ref := harp_client_find_ref store hooked force_grant fuel;
  ctl_snapshot := harp_client_snapshot store hooked force_grant fuel;
  ctl_refset := harp_client_refset store hooked force_grant fuel;
  ctl_fetch := harp_client_fetch_closure store hooked force_grant fuel;
  ctl_push := harp_client_push_closure store hooked force_grant fuel;
  ctl_offer := harp_client_reconcile_offer store hooked force_grant fuel;
  ctl_poll := harp_client_reconcile_poll store hooked force_grant fuel;
  ctl_code := fun c => er_code (cl_err c);
  ctl_world := cl_world;
  ctl_set_world := cl_set_world |}.

(** ** State *)

(** [hasBundle_], [bundleTarget_], [bundleParamMapHash_] with its flag,
    [bundleParams_], [wantUsb*_], [wantSerial_], [wantEngineMajor_]. *)
Record project := mk_project {
  pj_has : bool; pj_target : harp_hash; pj_pmh : option harp_hash; pj_params : knobs; pj_usb : want_usb;
  pj_serial : list Z; pj_major : Z }.

(** [readOnlyDefault_], [consentEngineMajor_], [engineRefused_], [roExplicit_]. *)
Record holds := mk_holds { h_default : bool; h_consent : bool; h_refused : bool; h_explicit : bool }.

(** [rt_tick]: how often the environment has been asked; [rt_hist], [rt_log]: the
    calls of [recordTransition] and [recordLog]. *)
Record rt (C : Type) := mk_rt {
  rt_ctl : C; rt_tick : nat; rt_dev : device_id; rt_usb : usb_id; rt_pj : project; rt_holds : holds;
  rt_seen : Z; rt_injected : bool; rt_hist : list (Z * Z * Z * list Z); rt_log : list (Z * list Z * list Z) }.
Arguments mk_rt {C}. Arguments rt_ctl {C}. Arguments rt_tick {C}. Arguments rt_dev {C}. Arguments rt_usb {C}. Arguments rt_pj {C}.
Arguments rt_holds {C}. Arguments rt_seen {C}. Arguments rt_injected {C}. Arguments rt_hist {C}. Arguments rt_log {C}.

(** The environment variables, the wall clock as the text of its UTC time, and the
    session thread's [connected()]. *)
Class RecallEnv := {
  re_push_fail : bool; re_timeout : option (list Z); re_archive_ts : option (list Z); re_force_major : option (list Z);
  re_consent : option (list Z); re_stamp : nat -> list Z; re_connected : nat -> bool }.

Section setters.
Context {C : Type}.
Implicit Types r : rt C.

Definition set_ctl (c : C) r : rt C := mk_rt c (rt_tick r) (rt_dev r) (rt_usb r) (rt_pj r) (rt_holds r) (rt_seen r) (rt_injected r) (rt_hist r) (rt_log r).
Definition tick r : rt C := mk_rt (rt_ctl r) (S (rt_tick r)) (rt_dev r) (rt_usb r) (rt_pj r) (rt_holds r) (rt_seen r) (rt_injected r) (rt_hist r) (rt_log r).
Definition set_pj (p : project) r : rt C := mk_rt (rt_ctl r) (rt_tick r) (rt_dev r) (rt_usb r) p (rt_holds r) (rt_seen r) (rt_injected r) (rt_hist r) (rt_log r).
Definition upd_holds (f : holds -> holds) r : rt C := mk_rt (rt_ctl r) (rt_tick r) (rt_dev r) (rt_usb r) (rt_pj r) (f (rt_holds r)) (rt_seen r) (rt_injected r) (rt_hist r) (rt_log r).
Definition set_seen (v : Z) r : rt C := mk_rt (rt_ctl r) (rt_tick r) (rt_dev r) (rt_usb r) (rt_pj r) (rt_holds r) v (rt_injected r) (rt_hist r) (rt_log r).
Definition set_injected r : rt C := mk_rt (rt_ctl r) (rt_tick r) (rt_dev r) (rt_usb r) (rt_pj r) (rt_holds r) (rt_seen r) true (rt_hist r) (rt_log r).
Definition recordTransition (from to reason : Z) (detail : list Z) r : rt C :=
  mk_rt (rt_ctl r) (rt_tick r) (rt_dev r) (rt_usb r) (rt_pj r) (rt_holds r) (rt_seen r) (rt_injected r) (rt_hist r ++ [(from, to, reason, detail)]) (rt_log r).
Definition recordLog (level : Z) (tag msg : list Z) r : rt C :=
  mk_rt (rt_ctl r) (rt_tick r) (rt_dev r) (rt_usb r) (rt_pj r) (rt_holds r) (rt_seen r) (rt_injected r) (rt_hist r) (rt_log r ++ [(level, tag, msg)]).
End setters.

Definition HARP_ST_ATTACHED : Z := 1.
Definition HARP_ST_SYNCED : Z := 3.
Definition HARP_TR_SERIAL_MISMATCH : Z := 3.
Definition HARP_TR_ENGINE_MAJOR_MISMATCH : Z := 4.
Definition HARP_TR_RECONCILE_PUSH : Z := 6.
Definition HARP_TR_RECONCILE_PULL : Z := 7.
Definition HARP_TR_RECONCILE_OPEN_RO : Z := 8.
Definition HARP_TR_RECONCILE_DUPLICATE_PUSH : Z := 9.

(** [atoi], and [%d] and [%03u]. *)
Definition atoi (s : list Z) : Z := match scan_d s with Some (v, _) => v | None => 0 end.
Definition print_int (v : Z) : list Z := if v <? 0 then str "-" ++ print_d (- v) else print_d v.
Definition pad3 (n : Z) : list Z := [48 + (n / 100) mod 10; 48 + (n / 10) mod 10; 48 + n mod 10].

Definition h_set_default (b : bool) (h : holds) : holds := mk_holds b (h_consent h) (h_refused h) (h_explicit h).
Definition h_set_consent (b : bool) (h : holds) : holds := mk_holds (h_default h) b (h_refused h) (h_explicit h).
Definition h_set_refused (b : bool) (h : holds) : holds := mk_holds (h_default h) (h_consent h) b (h_explicit h).
Definition h_set_explicit (b : bool) (h : holds) : holds := mk_holds (h_default h) (h_consent h) (h_refused h) b.
Definition held (h : holds) : bool := h_default h || h_explicit h.

Definition ok_of {A} (r : res A) : option A := match r with ROk a => Some a | RErr _ => None end.
Definition is_ok {A} (r : res A) : bool := match r with ROk _ => true | RErr _ => false end.

Section recall.
Context {C : Type} {K : Ctl C} {E : RecallEnv} {R : Realloc} {O' : OS} {F : Faults}.

(** ** The primitives *)

Definition on_ctl {A} (m : SM C A) : SM (rt C) A := fun r => let '(o, c) := m (rt_ctl r) in (o, set_ctl c r).
(** The local store, used directly. *)
Definition on_store {A} (f : world -> A * world) : SM (rt C) A := fun r =>
  let '(a, w) := f (ctl_world (rt_ctl r)) in (Some a, set_ctl (ctl_set_world w (rt_ctl r)) r).
Definition ask_env {A} (f : nat -> A) : SM (rt C) A := fun r => (Some (f (rt_tick r)), tick r).
Definition do (f : rt C -> rt C) : SM (rt C) unit := sm_modify f.
Definition when (b : bool) (m : SM (rt C) unit) : SM (rt C) unit := if b then m else mret tt.

Definition refsLocked : SM (rt C) (option harp_ref) := x ← on_ctl (ctl_find_ref LIVE_REF); mret (ok_of x).
Definition snapshotLocked : SM (rt C) (option harp_hash) := x ← on_ctl (ctl_snapshot LIVE_REF (Some (str "VST3 shell"))); mret (ok_of x).
Definition fetchClosureLocked (root : harp_hash) : SM (rt C) bool := x ← on_ctl (ctl_fetch root); mret (is_ok x).
Definition connected : SM (rt C) bool := ask_env re_connected.

(** ** The conflict: an offer to the device's panel *)

Definition reconcile_timeout : Z :=
  match re_timeout with
  | Some s => let v := atoi s in if v <? 0 then 0 else if 120000 <? v then 120000 else v
  | None => 30000
  end.
Definition POLL_MS : Z := 200.

(** [for (waited = 0; waited < timeout_ms; waited += POLL_MS)] *)
Fixpoint poll_loop (n : nat) (choice : Z) : SM (rt C) Z :=
  match n with
  | O => mret choice
  | S n =>
      x ← on_ctl ctl_poll;
      match x with
      | RErr _ => mret choice
      | ROk (pending, ch) =>
          let choice := match ch with Some v => v | None => choice end in
          if match pending with Some b => b | None => true end then poll_loop n choice else mret choice
      end
  end.

Definition hex12 (h : harp_hash) : list Z := take 12 (harp_hash_hex h).

(** What the user picks; Push when nobody answers, when there is nothing to lose, or
    without a window. *)
Definition reconcile_choice (live : harp_ref) (head target : harp_hash) : SM (rt C) Z :=
  if r_unborn live || (reconcile_timeout <=? 0) then mret 0
  else
    x ← on_ctl (ctl_offer (Some (hex12 target)) (Some (hex12 head)) (r_dirty live));
    choice ← (if is_ok x then poll_loop (Z.to_nat ((reconcile_timeout + POLL_MS - 1) / POLL_MS)) (-1) else mret (-1));
    mret (if choice <? 0 then 0 else choice).

(** ** Pushing *)

Definition archive_name (ts : list Z) (seq : Z) : list Z :=
  snprintf 112 (if seq =? 0 then ts else ts ++ str "." ++ pad3 seq).

(** The first free name; only a conflict moves on. *)
Fixpoint archive_loop (n : nat) (seq : Z) (ts : list Z) (head : harp_hash) : SM (rt C) bool :=
  match n with
  | O => mret false
  | S n =>
      x ← on_ctl (ctl_refset (archive_name ts seq) None head true false false);
      if is_ok x then mret true
      else r ← sm_get; if streq (ctl_code (rt_ctl r)) (str "conflict") then archive_loop n (seq + 1) ts head else mret false
  end.

Definition archive (prefix : list Z) (head : harp_hash) : SM (rt C) bool :=
  now ← ask_env re_stamp;
  let ts := match re_archive_ts with Some ((_ :: _) as s) => s | _ => now end in
  archive_loop (Z.to_nat 1000) 0 (snprintf 96 (prefix ++ str "/" ++ ts)) head.

Definition note_choice (choice : Z) (live : harp_ref) : rt C -> rt C :=
  if choice =? 3 then fun r => recordLog HARP_LOG_INFO (str "reconcile") (str "Duplicate (displaced state kept as duplicate/<ts>)")
    (recordTransition HARP_ST_SYNCED HARP_ST_SYNCED HARP_TR_RECONCILE_DUPLICATE_PUSH (str "reconcile -> Duplicate (displaced state kept as duplicate/<ts>)") r)
  else fun r => recordLog HARP_LOG_INFO (str "reconcile") (if r_unborn live then str "first push (archive-then-CAS)" else str "Push (archive-then-CAS)")
    (recordTransition HARP_ST_SYNCED HARP_ST_SYNCED HARP_TR_RECONCILE_PUSH
       (if r_unborn live then str "first push (archive-then-CAS)" else str "reconcile -> Push (archive-then-CAS)") r).

(** Send the objects, move the live ref; a refusal of the engine is a hold. *)
Definition push_send (live : harp_ref) (head target : harp_hash) : SM (rt C) bool :=
  sent ← on_ctl (ctl_push target);
  if negb (is_ok sent) then mret false
  else
    r ← sm_get;
    x ← on_ctl (ctl_refset LIVE_REF (if r_unborn live then None else Some head) target (r_unborn live) false (h_consent (rt_holds r)));
    if is_ok x then mret true
    else
      r ← sm_get;
      when (streq (ctl_code (rt_ctl r)) (str "incompatible"))
        (do (upd_holds (fun h => h_set_default true (h_set_refused true h)));;
         do (recordLog HARP_LOG_WARN (str "recall") (str "device refused incompatible engine version; held read-only")));;
      mret false.

(** Archive what is displaced first. *)
Definition push_write (choice : Z) (live : harp_ref) (head target : harp_hash) : SM (rt C) bool :=
  do (note_choice choice live);;
  archived ← (if negb (r_unborn live) && negb (memcmp head target =? 0)
              then archive (if choice =? 3 then str "duplicate" else str "archive") head else mret true);
  if archived : bool then push_send live head target else mret false.

Definition pull (head : harp_hash) : SM (rt C) bool :=
  do (recordTransition HARP_ST_SYNCED HARP_ST_SYNCED HARP_TR_RECONCILE_PULL (str "reconcile -> Pull (host adopts the device state)"));;
  do (recordLog HARP_LOG_INFO (str "reconcile") (str "Pull (host adopts the device state)"));;
  fetchClosureLocked head.
Definition open_read_only : SM (rt C) bool :=
  do (recordTransition HARP_ST_SYNCED HARP_ST_SYNCED HARP_TR_RECONCILE_OPEN_RO (str "reconcile -> Read-only (no writes)"));;
  do (recordLog HARP_LOG_INFO (str "reconcile") (str "Read-only (no writes)"));;
  mret true.
Definition force : SM (rt C) unit := do (upd_holds (fun h => h_set_default false (h_set_refused false (h_set_consent true h)))).

(** The head of the device once its unsaved edits are snapshot. *)
Definition device_head (live : harp_ref) : SM (rt C) (option harp_hash) :=
  if r_dirty live then snapshotLocked else mret (Some (r_hash live)).

Definition resolve (live : harp_ref) (head target : harp_hash) : SM (rt C) bool :=
  choice ← reconcile_choice live head target;
  do (upd_holds (h_set_explicit (choice =? 2)));;
  if choice =? 1 then pull head
  else if choice =? 2 then open_read_only
  else when (choice =? 4) force;; push_write choice live head target.

(** The test switch [re_push_fail] fails one push; the code's flag is the process's, the
    model has one run-time. *)
Definition pushStateLocked (target : harp_hash) : SM (rt C) bool :=
  r ← sm_get;
  if re_push_fail && negb (rt_injected r) then do set_injected;; mret false
  else
    live ← refsLocked;
    match live with
    | None => mret false
    | Some live =>
        if negb (r_unborn live) && negb (r_dirty live) && harp_hash_eq (r_hash live) target then
          do (recordLog HARP_LOG_INFO (str "reconcile") (str "hash match, clean -> SYNCED silently"));; mret true
        else
          head ← device_head live;
          match head with Some head => resolve live head target | None => mret false end
    end.

(** The user accepts the difference between the engines. *)
Definition consentEngineMajorOverride : SM (rt C) unit :=
  do (upd_holds (fun _ => mk_holds false true false false));;
  r ← sm_get;
  if pj_has (rt_pj r) then
    up ← connected;
    if up : bool then pushStateLocked (pj_target (rt_pj r));; mret tt else mret tt
  else mret tt.

(** ** The read-only holds *)

(** The engine's major the project expects, and the two mismatches. *)
Definition expected_major (r : rt C) : Z := match re_force_major with Some ((_ :: _) as s) => atoi s | _ => pj_major (rt_pj r) end.
Definition device_major (r : rt C) : Z := atoi (cstr (di_engine_ver (rt_dev r))).
Definition engine_differs (r : rt C) : bool := (0 <? expected_major r) && negb (device_major r =? expected_major r).
Definition unit_differs (r : rt C) : bool :=
  let want := pj_serial (rt_pj r) in
  let serial := di_serial (rt_dev r) in
  negb (bool_decide (want = [])) && negb (bool_decide (serial = [])) && negb (bool_decide (serial = want)).
(** The test seam's consent. *)
Definition env_consent : bool := match re_consent with Some ((_ :: _) as s) => negb (atoi s =? 0) | _ => false end.

Definition recomputeReadOnlyHolds : SM (rt C) unit :=
  r ← sm_get;
  let mismatch := engine_differs r in
  let differs := unit_differs r in
  let was := h_default (rt_holds r) in
  when (mismatch && negb was) (do (recordTransition HARP_ST_ATTACHED HARP_ST_ATTACHED HARP_TR_ENGINE_MAJOR_MISMATCH
    (snprintf 96 (str "engine major " ++ print_int (expected_major r) ++ str " (project) != " ++ print_int (device_major r) ++
                  str " (device): project state held read-only"))));;
  when (differs && negb was) (do (recordTransition HARP_ST_ATTACHED HARP_ST_ATTACHED HARP_TR_SERIAL_MISMATCH
    (snprintf 160 (str "serial " ++ cstr (pj_serial (rt_pj r)) ++ str " (project) != " ++ cstr (di_serial (rt_dev r)) ++
                   str " (device): bound a different unit — project state held read-only"))));;
  when env_consent (do (upd_holds (h_set_consent true)));;
  do (upd_holds (fun h => h_set_default (differs || ((mismatch || h_refused h) && negb (h_consent h))) h));;
  do (set_seen (expected_major r)).

(** ** Saving *)

Definition wait_connected (n : nat) : SM (rt C) unit :=
  Nat.iter n (fun again => up ← connected; if up : bool then mret tt else again) (mret tt).

(** Up to [n] attempts: a transport failure is tried again, an unborn ref ends it. *)
Fixpoint head_attempts (n : nat) : SM (rt C) (option (harp_ref * harp_hash)) :=
  match n with
  | O => mret None
  | S n =>
      up ← connected;
      if negb up then mret None
      else
        live ← refsLocked;
        match live with
        | None => head_attempts n
        | Some live =>
            if r_unborn live then mret None
            else
              head ← device_head live;
              match head with
              | None => head_attempts n
              | Some head => got ← fetchClosureLocked head; if got : bool then mret (Some (live, head)) else head_attempts n
              end
        end
  end.

Definition expected_ref (live : harp_ref) (head : harp_hash) : harp_ref :=
  mk_ref (snprintf HARP_REF_NAME_MAX LIVE_REF) false head (r_generation live) false.

(** [store]: the local store, when it could be opened. *)
Context (store : option path).

Definition getStateBundle : SM (rt C) (option (list Z)) :=
  match store with
  | None => mret None
  | Some s =>
      wait_connected 60;;
      up ← connected;
      if negb up then mret None
      else
        got ← head_attempts 3;
        match got with
        | None => mret None
        | Some (live, head) =>
            clo ← on_store (bundle_closure s HASH_LIST_CAP (hl_add head []) 0);
            r ← sm_get;
            b ← on_store (encode_bundle (rt_dev r) (rt_usb r) (expected_ref live head) s clo harp_cbuf_init);
            do (fun r => let p := rt_pj r in set_pj (mk_project true head (pj_pmh p) (pj_params p) (pj_usb p) (pj_serial p) (pj_major p)) r);;
            mret (Some (cb_buf b))
        end
  end.

(** ** Opening *)

(** The reader of the bundle, against the store and the unit wanted so far: both
    keep what was read before a failure. *)
Definition read_bundle (s : path) (data : list Z) : SM (rt C) (option (found * expects)) := fun r =>
  let p := rt_pj r in
  let '(o, (_, (f, x))) := map_while (bundle_key s) (harp_cdec_init data, (found_none (ctl_world (rt_ctl r)), expects_none (pj_usb p))) in
  (Some (match o with Some _ => Some (f, x) | None => None end),
   set_pj (mk_project (pj_has p) (pj_target p) (pj_pmh p) (pj_params p) (ex_usb x) (pj_serial p) (pj_major p))
     (set_ctl (ctl_set_world (fd_world f) (rt_ctl r)) r)).

(** A new project: its expectations, no consent, no refusal, no explicit hold. *)
Definition stage_project (s : path) (target : harp_hash) (x : expects) : SM (rt C) unit :=
  params ← on_store (paramsFromStore s target []);
  do (fun r => upd_holds (fun h => mk_holds (h_default h) false false false)
        (set_pj (mk_project true target (ex_pmh x) params (pj_usb (rt_pj r)) (ex_serial x) (ex_major x)) r)).

(** A project opened while connected: held, or pushed at once; a push that fails
    leaves it staged. *)
Definition apply_staged (target : harp_hash) : SM (rt C) unit :=
  recomputeReadOnlyHolds;;
  r ← sm_get;
  if held (rt_holds r) then do (recordLog HARP_LOG_INFO (str "recall") (str "staged-while-connected held read-only — not auto-applied"))
  else
    ok ← pushStateLocked target;
    if ok : bool then mret tt
    else
      r ← sm_get;
      if held (rt_holds r) || h_refused (rt_holds r) then
        do (recordLog HARP_LOG_WARN (str "recall") (str "staged-while-connected held read-only (device refused / mismatch) — not auto-applied"))
      else do (recordLog HARP_LOG_WARN (str "recall") (str "staged-while-connected auto-push deferred (transient); staged, will re-assert on reconnect")).

Definition setStateBundle (data : list Z) : SM (rt C) bool :=
  match store with
  | None => mret false
  | Some s =>
      if bool_decide (data = []) then mret false
      else
        o ← read_bundle s data;
        match o with
        | Some (f, x) =>
            match fd_magic f, fd_target f with
            | true, Some target =>
                stage_project s target x;;
                up ← connected;
                when up (apply_staged target);;
                mret true
            | _, _ => mret false
            end
        | None => mret false
        end
  end.

(** [bundleParam(id)] *)
Definition bundleParam (id : Z) (r : rt C) : option Z :=
  match List.find (fun kv => kv.1 =? id) (pj_params (rt_pj r)) with Some kv => Some kv.2 | None => None end.

(** ** Connecting

    The part of [sessionUp] that re-asserts the project. *)
Definition reassert : SM (rt C) unit :=
  r ← sm_get;
  let p := rt_pj r in
  if pj_has p && held (rt_holds r) then
    do (recordLog HARP_LOG_WARN (str "recall") (str "project state read-only — not auto-applied (§12.2/§13.4 mismatch or §11.4 explicit)"))
  else if pj_has p then
    ok ← pushStateLocked (pj_target p);
    if ok : bool then
      r ← sm_get;
      if held (rt_holds r) then do (recordLog HARP_LOG_INFO (str "recall") (str "project state held read-only (reconcile)"))
      else do (recordLog HARP_LOG_INFO (str "recall") (str "project state re-asserted"))
    else do (recordLog HARP_LOG_WARN (str "recall") (str "project state apply failed (will retry on reconnect)"))
  else mret tt.
End recall.
