(* ===== verification/BundleSpec.v ===== *)
(** * The state bundle: theorems

    A bundle is one well-formed item; whoever opens it gets back what was saved: the
    expectations, the wanted unit, the target, every object of its closure, and from
    these the knob values the device had. *)
From Stdlib Require Import ZArith Lia String List Bool.
From stdpp Require Import base list gmap.
From S2P Require Import Prelude Cbuf CborEnc CborDec CborFloat CborFields CborItems KeyedMaps Object Link Fs Store GcMark Params Parts Device DeviceSpec State StateSpec Reply Client IdentitySpec HandshakeSpec Bundle Recall.
Open Scope Z_scope.
Open Scope list_scope.

(** ** Reading keyed maps while the decoder is well *)

Lemma reads_while {T} (m : parser T unit) bs f : reads 0 m bs f -> reads 0 (while_ok m) bs f.
Proof. intros Hm rest t Hr. unfold while_ok. erewrite sm_bind_run by reflexivity. cbn [d_err]. by apply Hm. Qed.

(** A map read key by key in a loop of the form [body (key ← uint; visit key)]. *)
Lemma reads_kwhile {T} (visit : Z -> parser T unit) (l : list (Z * item * (T -> T))) : zlen l < 2 ^ 63 ->
  (forall x, x ∈ l -> is_u64 x.1.1 /\ reads 0 (visit x.1.1) (enc_item x.1.2) x.2) ->
  reads 0 (map_while visit) (enc_item (kmap (map fst l))) (fun t => fold_left (fun t x => x.2 t) l t).
Proof.
  intros Hn Hl. pose proof (zlen_nonneg l). rewrite enc_kmap, flat_map_map. unfold map_while.
  assert (zlen (map fst l) = zlen l) as -> by (unfold zlen; by rewrite length_map).
  eapply (reads_header _ _ (2 * zlen l)); [apply decodes_map; lia| |lia|].
  - apply (reads_loop l _ (fun x => enc_kv x.1) (fun x => x.2)). intros x Hx. destruct (Hl x Hx) as [Hk Hv].
    apply reads_while. unfold enc_kv. by eapply reads_leaf; [lia|apply decodes_uint|].
  - apply flat_map_zlen_lb. intros x Hx. unfold enc_kv. rewrite zlen_app. pose proof (enc_uint_zlen x.1.1). pose proof (item_zlen x.1.2). lia.
Qed.

Lemma reads_found {X} (m : parser found unit) bs f : reads 0 m bs f -> reads 0 (on_found (X := X) m) bs (fun t => (f t.1, t.2)).
Proof. intros Hm rest [a b] Hr. unfold on_found. cbn [fst snd]. by rewrite (Hm rest a Hr). Qed.
Lemma reads_beside {T X} (m : parser T unit) bs f : reads 0 m bs f -> reads 0 (beside (X := X) m) bs (fun t => (t.1, f t.2)).
Proof. intros Hm rest [a b] Hr. unfold beside. cbn [fst snd]. by rewrite (Hm rest b Hr). Qed.
Lemma reads_kept {T A} (m : dec A) (set : A -> T -> T) bs a : decodes 0 m bs a -> reads 0 (kept m set) bs (set a).
Proof. intros Hm rest t Hr. unfold kept, sm_try, mbind, SM_bind, on_fst. cbn [fst snd]. by rewrite Hm. Qed.
Lemma reads_skip {T} i : skippable i = true -> reads (T := T) 0 (on_fst harp_cdec_skip) (enc_item i) (fun t => t).
Proof. intros Hi. by apply reads_only, decodes_skip_item. Qed.

(** ** The bundle as an item *)

Definition expectation_item (i : device_id) : item :=
  kmap [(0, kmap [(0, IUint (di_vendor_id i)); (1, IText (cstr (di_vendor i)))]); (1, kmap [(0, IUint (di_product_id i)); (1, IText (cstr (di_product i)))]);
        (2, IText (cstr (di_serial i))); (3, kmap [(0, IText (cstr (di_engine_id i))); (1, IText (cstr (di_engine_ver i))); (2, IBytes (di_pmh i))])].
Definition usb_item (u : usb_id) : item := kmap [(0, IUint (us_vid u)); (1, IUint (us_pid u)); (2, IText (cstr (us_serial u)))].
Definition ref_item (r : harp_ref) : item :=
  kmap [(0, IText (r_name r)); (1, if r_unborn r then ISimple 22 else IBytes (r_hash r)); (2, IUint (r_generation r)); (3, ISimple (if r_dirty r then 21 else 20))].
Definition obj_item (o : obj) : item := kmap (obj_items o).
Definition bundle_pairs (i : device_id) (u : usb_id) (r : harp_ref) (objs : list obj) : list (Z * item) :=
  [(0, IText BUNDLE_MAGIC); (1, IUint 1); (2, expectation_item i); (3, IArray [ref_item r]); (4, IArray (map obj_item objs)); (5, usb_item u)].

Lemma ref_item_enc r : enc_item (ref_item r) = enc_ref r.
Proof.
  unfold ref_item, enc_ref, ref_fields, enc_fields. rewrite enc_kmap. f_equal. unfold enc_kv, enc_field. cbn [flat_map fst snd enc_item f_key f_bytes].
  destruct (r_unborn r), (r_dirty r); reflexivity.
Qed.
Lemma obj_item_enc o : enc_item (obj_item o) = enc_obj o.
Proof. unfold obj_item. rewrite enc_kmap. reflexivity. Qed.

(** *** Encoding *)

(** Nested keyed maps, flattened. *)
Ltac nested_bytes := repeat (rewrite enc_kmap; unfold enc_kv; cbn [flat_map map fst snd enc_item]); rewrite ?app_nil_r, <- ?app_assoc; reflexivity.

Section encode.
Context {R : Realloc} {O' : OS} {F : Faults}.

Lemma appends_expectation i : appends (encode_expectation i) (enc_item (expectation_item i)).
Proof. unfold encode_expectation. cbv zeta. eapply appends_eq; [keyed_seq|]. unfold expectation_item. nested_bytes. Qed.
Lemma appends_usb u : appends (encode_usb u) (enc_item (usb_item u)).
Proof. unfold encode_usb. cbv zeta. eapply appends_eq; [keyed_seq|]. unfold usb_item. nested_bytes. Qed.
#[local] Hint Resolve appends_expectation appends_usb appends_ref : enc.

Lemma appends_front i r : appends (encode_front i r)
  (enc_map 6 ++ flat_map enc_kv [(0, IText BUNDLE_MAGIC); (1, IUint 1); (2, expectation_item i); (3, IArray [ref_item r])]).
Proof.
  unfold encode_front. cbv zeta. eapply appends_eq.
  - eapply (appends_comp _ (fun b => harp_ref_encode b r)); [|apply appends_ref].
    eapply (appends_comp _ (fun b => harp_cbor_array b 1)); [|apply appends_array].
    eapply (appends_comp _ (fun b => harp_cbor_uint b 3)); [|apply appends_uint].
    eapply (appends_comp _ (encode_expectation i)); [keyed_seq|apply appends_expectation].
  - unfold enc_kv. cbn [flat_map map fst snd]. cbn [enc_item flat_map]. rewrite ref_item_enc. rewrite ?app_nil_r, <- ?app_assoc. reflexivity.
Qed.

Context (Ht : realloc_total R) (Hrd : reads_ok).

(** Everything of the closure can be read, so all of it is written. *)
Lemma objects_run s encs : forall b w, cb_oom b = false -> Forall (stored s (w_fs w)) encs ->
  exists b' w', encode_objects s (map harp_hash_compute encs) b w = (b', w') /\ cb_oom b' = false /\ cb_buf b' = cb_buf b ++ concat encs /\ w_fs w' = w_fs w.
Proof.
  induction encs as [|e encs IH]; intros b w Hb Hst; cbn [map encode_objects concat].
  { exists b, w. by rewrite app_nil_r. }
  apply Forall_cons in Hst as [He Hst]. destruct (get_stored s _ e w Hrd He) as (x & w1 & -> & Hx & Hw). rewrite Hx.
  destruct (IH (harp_cbuf_put b e) w1) as (b' & w' & -> & H1 & H2 & H3); [by apply oom_put|by rewrite Hw|].
  exists b', w'. split_and!; [done|done| |congruence]. rewrite H2. destruct (appends_put e b (oom_put Ht b e Hb)) as [_ ->]. by rewrite app_assoc.
Qed.

Lemma bundle_run i u r s objs w : Forall (fun o => stored s (w_fs w) (enc_obj o)) objs ->
  exists b w', encode_bundle i u r s (map (fun o => harp_hash_compute (enc_obj o)) objs) harp_cbuf_init w = (b, w') /\
    cb_buf b = enc_item (kmap (bundle_pairs i u r objs)) /\ w_fs w' = w_fs w.
Proof.
  intros Hst. unfold encode_bundle. cbv zeta. set (l := map _ objs). set (b0 := harp_cbor_array _ _).
  assert (cb_oom b0 = false) as Ho. { unfold b0, encode_front, encode_expectation, harp_ref_encode. cbv zeta. destruct (r_unborn r); unfold harp_cbor_null; oom_by Ht. }
  assert (appends (fun b => harp_cbor_array (harp_cbor_uint (encode_front i r b) 4) (zlen l))
    ((enc_map 6 ++ flat_map enc_kv [(0, IText BUNDLE_MAGIC); (1, IUint 1); (2, expectation_item i); (3, IArray [ref_item r])]) ++ enc_uint 4 ++ enc_array (zlen l))) as Ha.
  { eapply appends_eq; [|symmetry; apply app_assoc]. eapply (appends_comp _ (fun b => harp_cbor_array b _)); [|apply appends_array].
    eapply (appends_comp _ (fun b => harp_cbor_uint b 4)); [apply appends_front|apply appends_uint]. }
  pose proof (appends_run _ _ Ha Ho : cb_buf b0 = _) as Hb0.
  assert (l = map harp_hash_compute (map enc_obj objs)) as El by (unfold l; by rewrite map_map).
  destruct (objects_run s (map enc_obj objs) b0 w Ho) as (b' & w' & E & Ho' & Hb' & Hw). { by apply Forall_map. }
  rewrite El, E. eexists _, w'. split; [reflexivity|]. split; [|done].
  assert (appends (fun b => encode_usb u (harp_cbor_uint b 5)) (enc_uint 5 ++ enc_item (usb_item u))) as Hu.
  { eapply (appends_comp _ (encode_usb u)); [apply appends_uint|apply appends_usb]. }
  destruct (Hu b') as [_ ->]. { unfold encode_usb. cbv zeta. oom_by Ht. }
  rewrite Hb', Hb0. unfold bundle_pairs. rewrite enc_kmap. change (zlen [_; _; _; _; _; _]) with 6.
  unfold enc_kv. cbn [flat_map fst snd]. cbn [enc_item].
  assert (flat_map enc_item (map obj_item objs) = concat (map enc_obj objs)) as ->.
  { clear. induction objs as [|o objs IH]; [done|]. cbn [map flat_map concat]. by rewrite IH, obj_item_enc. }
  assert (zlen (map obj_item objs) = zlen l) as -> by (unfold l, zlen; by rewrite !length_map).
  rewrite ?app_nil_r, <- ?app_assoc. reflexivity.
Qed.
End encode.

(** ** Reading it back *)

(** Machine sizes, and a ref that is the live one and born. *)
Record bundle_fits (i : device_id) (u : usb_id) (r : harp_ref) (objs : list obj) : Prop := mk_bfits {
  bf_ids : is_u64 (di_vendor_id i) /\ is_u64 (di_product_id i) /\ is_u16 (us_vid u) /\ is_u16 (us_pid u);
  bf_texts : forall s, s ∈ [di_vendor i; di_product i; di_serial i; di_engine_id i; di_engine_ver i; us_serial u] -> zlen s < 2 ^ 64;
  bf_pmh : zlen (di_pmh i) = Z.of_nat HARP_HASH_LEN;
  bf_ref : ref_ok r /\ r_name r = LIVE_REF /\ r_unborn r = false;
  bf_objs : Forall (fun o => obj_ok o = true) objs; bf_count : zlen objs < 2 ^ 63 }.

Lemma cstr_short s n : zlen s < n -> zlen (cstr s) < n.
Proof. intros H. enough (length (cstr s) <= length s)%nat by (unfold zlen in *; lia). clear. induction s as [|c s IH]; [done|]. cbn [cstr length]. destruct (c =? 0); cbn [length]; lia. Qed.

(** *** Nesting *)

Lemma obj_depth o ki : ki ∈ obj_items o -> (item_depth ki.2 <= 3)%nat.
Proof.
  assert (forall l, item_depth (hashes_item l) <= 3)%nat as Hh.
  { intros l. unfold hashes_item. cbn [item_depth]. rewrite map_map. apply list_max_le, List.Forall_forall. intros k (h & <- & _)%in_map_iff. cbn. lia. }
  destruct o as [m p|m l|l|r ps t a e m]; cbn [obj_items app]; rewrite ?elem_of_cons, ?elem_of_nil.
  - intros [->|[->|[->|[]]]]; cbn [snd item_depth]; lia.
  - intros [->|[->|[->|[]]]]; cbn [snd]; [cbn; lia|cbn; lia|apply Hh].
  - intros [->|[->|[]]]; cbn [snd]; [cbn; lia|]. cbn [item_depth]. rewrite map_map. apply list_max_le, List.Forall_forall. intros k (h & <- & _)%in_map_iff. cbn. lia.
  - intros [->|[->|[->|[->|[->|[->|H]]]]]]; cbn [snd]; try (cbn; lia); [apply Hh|]. destruct m; [apply list_elem_of_singleton in H as ->; cbn; lia|by apply elem_of_nil in H].
Qed.

Lemma obj_flat o : obj_ok o = true -> flat 4 (obj_item o) = true.
Proof.
  intros Ho. apply flat_kmap; [apply obj_items_short|]. intros ki Hki. destruct (obj_items_in o ki Ho Hki) as (Hk & _ & Hs).
  split; [done|]. unfold flat. apply andb_prop in Hs as [-> _]. apply Nat.leb_le. by apply (obj_depth o).
Qed.

Section reading.
Context (i : device_id) (u : usb_id) (r : harp_ref) (objs : list obj) (Hfit : bundle_fits i u r objs).

Lemma text_fits s : s ∈ [di_vendor i; di_product i; di_serial i; di_engine_id i; di_engine_ver i; us_serial u] -> zlen (cstr s) < 2 ^ 64.
Proof. intros Hs. apply cstr_short. by apply (bf_texts _ _ _ _ Hfit). Qed.

Lemma expectation_skips : skippable (expectation_item i) = true.
Proof.
  destruct (bf_ids _ _ _ _ Hfit) as (H1 & H2 & _). apply (flat_skippable 2); [unfold HARP_CBOR_MAX_DEPTH; lia|]. unfold expectation_item.
  flat_tac; try done; try (apply text_fits; set_solver). rewrite (bf_pmh _ _ _ _ Hfit). vm_compute. done.
Qed.
Lemma ref_flat : flat 1 (ref_item r) = true.
Proof.
  destruct (bf_ref _ _ _ _ Hfit) as ((Hn & _ & Hg & Hh) & _ & Hu). unfold ref_item. rewrite Hu in *.
  apply hash_zlen in Hh. apply flat_kmap; [done|]. intros ki Hki. rewrite !elem_of_cons in Hki. unfold HARP_REF_NAME_MAX in Hn.
  destruct Hki as [->|[->|[->|[->|Hki%elem_of_nil]]]]; (split; [unfold is_u64; cbn; lia|cbn [fst snd]]); [apply flat_text; lia|apply flat_bytes; lia|by apply flat_uint| |done].
  by destruct (r_dirty r).
Qed.
Lemma refs_skip : skippable (IArray [ref_item r]) = true.
Proof.
  apply (flat_skippable 2); [unfold HARP_CBOR_MAX_DEPTH; lia|]. apply flat_array; [done|]. intros x ->%list_elem_of_singleton. apply ref_flat.
Qed.
Lemma objects_skip : skippable (IArray (map obj_item objs)) = true.
Proof.
  apply (flat_skippable 5); [unfold HARP_CBOR_MAX_DEPTH; lia|]. apply flat_array; [unfold zlen; rewrite length_map; apply (bf_count _ _ _ _ Hfit)|].
  intros x (o & -> & Ho)%list_elem_of_fmap. apply obj_flat. pose proof (bf_objs _ _ _ _ Hfit) as H. rewrite List.Forall_forall in H. by apply H, list_elem_of_In.
Qed.
Lemma usb_skips : skippable (usb_item u) = true.
Proof.
  destruct (bf_ids _ _ _ _ Hfit) as (_ & _ & H3 & H4). unfold is_u16 in *. apply (flat_skippable 1); [unfold HARP_CBOR_MAX_DEPTH; lia|]. unfold usb_item.
  flat_tac; try (unfold is_u64; lia). apply text_fits. set_solver.
Qed.

(** *** The parts *)

Lemma reads_magic : reads 0 read_magic (enc_item (IText BUNDLE_MAGIC)) (fun f => mk_found true (fd_target f) (fd_world f)).
Proof.
  eapply reads_ext; [|apply (reads_set harp_cdec_text fd_set_magic (enc_item (IText BUNDLE_MAGIC)) BUNDLE_MAGIC); by apply decodes_text].
  intros f. unfold fd_set_magic. by rewrite bool_decide_eq_true_2.
Qed.

Lemma reads_refs : reads 0 read_refs (enc_item (IArray [ref_item r])) (fun f => mk_found (fd_magic f) (Some (r_hash r)) (fd_world f)).
Proof.
  destruct (bf_ref _ _ _ _ Hfit) as (Hr & Hn & Hu). cbn [enc_item flat_map]. rewrite app_nil_r. unfold read_refs.
  eapply reads_ext; [|eapply (reads_header _ _ 1); [by apply decodes_array| |lia|apply item_zlen]].
  2: { rewrite <- (app_nil_r (enc_item _)). apply (reads_loop [r] _ (fun r => enc_item (ref_item r)) fd_ref). intros x ->%list_elem_of_singleton.
       rewrite ref_item_enc. by apply (reads_set harp_ref_decode fd_ref), decodes_ref. }
  intros f. cbn [fold_left]. unfold fd_ref, streq. by rewrite Hn, Hu.
Qed.

Lemma not_null n rest : is_u64 n -> harp_cdec_peek_null (mk_cdec (enc_array n ++ rest) false) = false.
Proof.
  intros Hn. unfold harp_cdec_peek_null, enc_array. cbn [d_err d_cur]. rewrite head_bytes_be by done. cbn [app negb andb]. pose proof (ai_of_range n Hn).
  apply Z.eqb_neq. lia.
Qed.

Lemma reads_objects {R : Realloc} {O' : OS} {F : Faults} s : reads 0 (read_objects s) (enc_item (IArray (map obj_item objs)))
  (fun f => fold_left (fun f o => fd_object s (enc_obj o) f) objs f).
Proof.
  pose proof (bf_count _ _ _ _ Hfit) as Hc. pose proof (zlen_nonneg objs). cbn [enc_item]. unfold read_objects.
  assert (zlen (map obj_item objs) = zlen objs) as -> by (unfold zlen; by rewrite length_map).
  intros rest f Hrest. erewrite sm_bind_run by reflexivity. rewrite <- app_assoc, not_null by (unfold is_u64; lia). rewrite app_assoc. revert rest f Hrest.
  eapply (reads_header _ _ (zlen objs)); [apply decodes_array; unfold is_u64; lia| |lia|].
  - rewrite flat_map_map. apply (reads_loop objs _ (fun o => enc_item (obj_item o)) (fun o => fd_object s (enc_obj o))). intros o Ho.
    rewrite <- obj_item_enc. apply (reads_set harp_cdec_span (fd_object s)), decodes_span_item.
    pose proof (bf_objs _ _ _ _ Hfit) as H'. rewrite List.Forall_forall in H'.
    apply (flat_skippable 4); [unfold HARP_CBOR_MAX_DEPTH; lia|]. by apply obj_flat, H', list_elem_of_In.
  - rewrite flat_map_map. rewrite <- (Z.mul_1_l (zlen objs)). apply flat_map_zlen_lb. intros o _. apply item_zlen.
Qed.

Lemma reads_expectation : reads 0 (map_fields expectation_key) (enc_item (expectation_item i))
  (fun x => mk_expects (Some (di_pmh i)) (lead_int 0 (cstr (di_engine_ver i))) (cstr (di_serial i)) (ex_usb x)).
Proof.
  destruct (bf_ids _ _ _ _ Hfit) as (H1 & H2 & _). pose proof (bf_pmh _ _ _ _ Hfit) as Hp.
  assert (reads 0 (map_fields engine_key) (enc_item (kmap [(0, IText (cstr (di_engine_id i))); (1, IText (cstr (di_engine_ver i))); (2, IBytes (di_pmh i))]))
    (fun x => ex_set_pmh (di_pmh i) (ex_set_major (cstr (di_engine_ver i)) x))) as He.
  { apply (reads_kmap engine_key [(0, IText (cstr (di_engine_id i)), fun x => x); (1, IText (cstr (di_engine_ver i)), ex_set_major (cstr (di_engine_ver i)));
      (2, IBytes (di_pmh i), ex_set_pmh (di_pmh i))]); [done|]. intros y Hy. rewrite !elem_of_cons in Hy.
    destruct Hy as [->|[->|[->|Hy%elem_of_nil]]]; [..|done]; (split; [unfold is_u64; cbn; lia|]); unfold engine_key; cbn [fst snd Z.eqb Pos.eqb].
    - apply reads_skip. apply (flat_skippable 0); [lia|]. apply flat_text, text_fits. set_solver.
    - apply (reads_set harp_cdec_text ex_set_major), decodes_text, text_fits. set_solver.
    - eapply reads_last; [apply decodes_bytes; rewrite Hp; vm_compute; done|]. rewrite Hp. by intros rest t. }
  eapply reads_ext; [|apply (reads_kmap expectation_key [(0, kmap [(0, IUint (di_vendor_id i)); (1, IText (cstr (di_vendor i)))], fun x => x);
    (1, kmap [(0, IUint (di_product_id i)); (1, IText (cstr (di_product i)))], fun x => x); (2, IText (cstr (di_serial i)), ex_set_serial (cstr (di_serial i)));
    (3, kmap [(0, IText (cstr (di_engine_id i))); (1, IText (cstr (di_engine_ver i))); (2, IBytes (di_pmh i))], fun x => ex_set_pmh (di_pmh i) (ex_set_major (cstr (di_engine_ver i)) x))]); [done|]].
  { done. }
  intros y Hy. rewrite !elem_of_cons in Hy. destruct Hy as [->|[->|[->|[->|Hy%elem_of_nil]]]]; [..|done]; (split; [unfold is_u64; cbn; lia|]);
    unfold expectation_key; cbn [fst snd Z.eqb Pos.eqb]; [| | |exact He].
  - apply reads_skip. apply (flat_skippable 1); [unfold HARP_CBOR_MAX_DEPTH; lia|]. flat_tac; [done|apply text_fits; set_solver].
  - apply reads_skip. apply (flat_skippable 1); [unfold HARP_CBOR_MAX_DEPTH; lia|]. flat_tac; [done|apply text_fits; set_solver].
  - apply (reads_set harp_cdec_text ex_set_serial), decodes_text, text_fits. set_solver.
Qed.

(** The unit the bundle wants. *)
Definition wanted (u : usb_id) : want_usb :=
  let s := cstr (us_serial u) in mk_want (negb (bool_decide (s = [])) && negb (is_eth s)) (mk_usb (us_vid u) (us_pid u) s).

Lemma reads_usb : reads 0 usb_identity (enc_item (usb_item u)) (fun x => mk_expects (ex_pmh x) (ex_major x) (ex_serial x) (wanted u)).
Proof.
  destruct (bf_ids _ _ _ _ Hfit) as (_ & _ & H3 & H4). unfold is_u16 in *.
  assert (reads 0 (map_fields usb_key) (enc_item (usb_item u)) (fun x => (mk_usb (us_vid u) (us_pid u) (cstr (us_serial u)), x.2))) as Hm.
  { eapply reads_ext; [|apply (reads_kmap usb_key [(0, IUint (us_vid u), fun x => (mk_usb (us_vid u) (us_pid x.1) (us_serial x.1), x.2));
      (1, IUint (us_pid u), fun x => (mk_usb (us_vid x.1) (us_pid u) (us_serial x.1), x.2));
      (2, IText (cstr (us_serial u)), fun x => (mk_usb (us_vid x.1) (us_pid x.1) (cstr (us_serial u)), x.2))]); [done|]].
    { done. }
    intros y Hy. rewrite !elem_of_cons in Hy. destruct Hy as [->|[->|[->|Hy%elem_of_nil]]]; [..|done]; (split; [unfold is_u64; cbn; lia|]);
      unfold usb_key; cbn [fst snd Z.eqb Pos.eqb].
    - apply (reads_kept harp_cdec_uint (fun v x => (mk_usb v (us_pid x.1) (us_serial x.1), x.2))), decodes_uint. unfold is_u64. lia.
    - apply (reads_kept harp_cdec_uint (fun v x => (mk_usb (us_vid x.1) v (us_serial x.1), x.2))), decodes_uint. unfold is_u64. lia.
    - apply (reads_kept harp_cdec_text (fun t x => (mk_usb (us_vid x.1) (us_pid x.1) t, x.2))), decodes_text, text_fits. set_solver. }
  unfold usb_identity. eapply reads_ext; [|apply (reads_local _ _ ex_set_usb _ _ Hm)].
  intros x. cbn [fst snd]. unfold ex_set_usb, wanted. cbn [us_vid us_pid us_serial]. by rewrite !u16_small.
Qed.

(** *** The whole *)

Definition bundle_bytes : list Z := enc_item (kmap (bundle_pairs i u r objs)).
Definition filed {R : Realloc} {O' : OS} {F : Faults} (s : path) (w : world) : world := fold_left (fun w o => (harp_store_put s (enc_obj o) w).2) objs w.

Lemma fold_filed {R : Realloc} {O' : OS} {F : Faults} s f : fold_left (fun f o => fd_object s (enc_obj o) f) objs f = mk_found (fd_magic f) (fd_target f) (filed s (fd_world f)).
Proof. unfold filed. clear. revert f. induction objs as [|o l IH]; intros f; [by destruct f|]. cbn [fold_left]. by rewrite IH. Qed.

Lemma reads_bundle {R : Realloc} {O' : OS} {F : Faults} s : reads 0 (map_while (bundle_key s)) bundle_bytes
  (fun st => (mk_found true (Some (r_hash r)) (filed s (fd_world st.1)),
              mk_expects (Some (di_pmh i)) (lead_int 0 (cstr (di_engine_ver i))) (cstr (di_serial i)) (wanted u))).
Proof.
  set (m := fun f : found => mk_found true (fd_target f) (fd_world f)). set (t := fun f => mk_found (fd_magic f) (Some (r_hash r)) (fd_world f)).
  set (o := fun f => fold_left (fun f o => fd_object s (enc_obj o) f) objs f).
  set (e := fun x => mk_expects (Some (di_pmh i)) (lead_int 0 (cstr (di_engine_ver i))) (cstr (di_serial i)) (ex_usb x)).
  set (w := fun x => mk_expects (ex_pmh x) (ex_major x) (ex_serial x) (wanted u)).
  eapply reads_ext; [|apply (reads_kwhile (bundle_key s) [(0, IText BUNDLE_MAGIC, fun st => (m st.1, st.2)); (1, IUint 1, fun st => st);
    (2, expectation_item i, fun st => (st.1, e st.2)); (3, IArray [ref_item r], fun st => (t st.1, st.2));
    (4, IArray (map obj_item objs), fun st => (o st.1, st.2)); (5, usb_item u, fun st => (st.1, w st.2))]); [done|]].
  { intros [f x]. cbn [fold_left fst snd]. unfold o. by rewrite fold_filed. }
  intros y Hy. rewrite !elem_of_cons in Hy. destruct Hy as [->|[->|[->|[->|[->|[->|Hy%elem_of_nil]]]]]]; [..|done]; (split; [unfold is_u64; cbn; lia|]);
    unfold bundle_key; cbn [fst snd Z.eqb Pos.eqb].
  - apply reads_found, reads_magic.
  - by apply reads_skip.
  - apply reads_beside, reads_expectation.
  - apply reads_found, reads_refs.
  - apply reads_found, reads_objects.
  - apply reads_beside, reads_usb.
Qed.

Lemma reads_params {R : Realloc} {O' : OS} {F : Faults} s : reads 0 (map_while (params_key s)) bundle_bytes
  (fun f => mk_found true (Some (r_hash r)) (filed s (fd_world f))).
Proof.
  eapply reads_ext; [|apply (reads_kwhile (params_key s) [(0, IText BUNDLE_MAGIC, fun f => mk_found true (fd_target f) (fd_world f)); (1, IUint 1, fun f => f);
    (2, expectation_item i, fun f => f); (3, IArray [ref_item r], fun f => mk_found (fd_magic f) (Some (r_hash r)) (fd_world f));
    (4, IArray (map obj_item objs), fun f => fold_left (fun f o => fd_object s (enc_obj o) f) objs f); (5, usb_item u, fun f => f)]); [done|]].
  { intros f. cbn [fold_left fst snd]. by rewrite fold_filed. }
  intros y Hy. rewrite !elem_of_cons in Hy. destruct Hy as [->|[->|[->|[->|[->|[->|Hy%elem_of_nil]]]]]]; [..|done]; (split; [unfold is_u64; cbn; lia|]);
    unfold params_key; cbn [fst snd Z.eqb Pos.eqb].
  - apply reads_magic.
  - by apply reads_skip.
  - apply reads_skip, expectation_skips.
  - apply reads_refs.
  - apply reads_objects.
  - apply reads_skip, usb_skips.
Qed.

Lemma wanted_pair_run x rest : is_u64 x.1 -> wanted_pair (mk_cdec (enc_kv x ++ rest) false, None) = wanted_key x.1 (mk_cdec (enc_item x.2 ++ rest) false, None).
Proof.
  intros Hk. unfold enc_kv. rewrite <- app_assoc. unfold wanted_pair, while_ok. do 2 (erewrite sm_bind_run by reflexivity; cbn [d_err]).
  erewrite sm_bind_run; [reflexivity|]. unfold on_fst. cbn [fst snd]. by rewrite decodes_uint by (done || apply zlen_nonneg).
Qed.

Lemma wanted_skips l : (forall x, x ∈ l -> is_u64 x.1 /\ x.1 <> 5 /\ skippable x.2 = true) -> forall rest,
  loop_nat wanted_pair (length l) (mk_cdec (flat_map enc_kv l ++ rest) false, None) = (Some tt, (mk_cdec rest false, None)).
Proof.
  induction l as [|x l IH]; intros Hl rest; [done|]. destruct (Hl x ltac:(left)) as (Hk & H5 & Hs). cbn [length loop_nat flat_map]. rewrite <- app_assoc.
  erewrite sm_bind_run; [apply IH; intros y Hy; apply Hl; by right|]. rewrite wanted_pair_run by done. unfold wanted_key. rewrite (proj2 (Z.eqb_neq x.1 5)) by done.
  apply reads_skip; [done|apply zlen_nonneg].
Qed.

Lemma reads_wanted_key : reads 0 (wanted_key 5) (enc_item (usb_item u)) (fun _ => Some (cstr (us_serial u))).
Proof.
  destruct (bf_ids _ _ _ _ Hfit) as (_ & _ & H3 & H4). unfold is_u16 in *.
  apply (reads_local [] _ (fun s (_ : option (list Z)) => Some s) _ (fun x => (cstr (us_serial u), x.2))).
  eapply reads_ext; [|apply (reads_kwhile wanted_serial_key [(0, IUint (us_vid u), fun x => x); (1, IUint (us_pid u), fun x => x);
    (2, IText (cstr (us_serial u)), fun x => (cstr (us_serial u), x.2))]); [done|]].
  { done. }
  intros y Hy. rewrite !elem_of_cons in Hy. destruct Hy as [->|[->|[->|Hy%elem_of_nil]]]; [..|done]; (split; [unfold is_u64; cbn; lia|]);
    unfold wanted_serial_key; cbn [fst snd Z.eqb Pos.eqb].
  1,2: apply reads_skip, (flat_skippable 0); [lia|]; apply flat_uint; unfold is_u64; lia.
  apply (reads_set harp_cdec_text (fun s x => (s, x.2))), decodes_text, text_fits. set_solver.
Qed.

Lemma wanted_serial_run : bundleWantedSerial bundle_bytes = (let s := cstr (us_serial u) in if is_eth s then [] else s).
Proof.
  set (front := [(0, IText BUNDLE_MAGIC); (1, IUint 1); (2, expectation_item i); (3, IArray [ref_item r]); (4, IArray (map obj_item objs))]).
  assert (forall x, x ∈ front -> is_u64 x.1 /\ x.1 <> 5 /\ skippable x.2 = true) as Hf.
  { intros x Hx. unfold front in Hx. rewrite !elem_of_cons in Hx.
    destruct Hx as [->|[->|[->|[->|[->|Hx%elem_of_nil]]]]]; [..|done]; cbn [fst snd]; (split; [unfold is_u64; lia|split; [done|]]); try done;
      [apply expectation_skips|apply refs_skip|apply objects_skip]. }
  assert (bundle_bytes = enc_map 6 ++ flat_map enc_kv front ++ enc_kv (5, usb_item u) ++ []) as Eb.
  { unfold bundle_bytes. rewrite enc_kmap. unfold bundle_pairs, front. cbn [flat_map]. rewrite !app_nil_r, <- !app_assoc. reflexivity. }
  assert (2 * 6 <= zlen (flat_map enc_kv front ++ enc_kv (5, usb_item u) ++ [])) as Hz.
  { assert (forall x, 2 <= zlen (enc_kv x)) as H2 by (intros x; unfold enc_kv; rewrite zlen_app; pose proof (enc_uint_zlen x.1); pose proof (item_zlen x.2); lia).
    rewrite app_nil_r, zlen_app. pose proof (flat_map_zlen_lb front enc_kv 2 (fun x _ => H2 x)). pose proof (H2 (5, usb_item u)). change (zlen front) with 5 in *. lia. }
  unfold bundleWantedSerial, wanted_serial. rewrite Eb. unfold harp_cdec_init.
  erewrite sm_bind_run; [|unfold on_fst; cbn [fst snd]; by rewrite (decodes_map 6) by (done || lia)].
  rewrite sm_for_nat. change (Z.to_nat 6) with (length front + 1)%nat. rewrite loop_nat_add. erewrite sm_bind_run by (by apply wanted_skips).
  cbn [loop_nat]. erewrite sm_bind_run.
  2: { rewrite wanted_pair_run by done. apply reads_wanted_key, zlen_nonneg. }
  reflexivity.
Qed.
End reading.

(** ** The knob values *)

Definition knob_of (x : Z * Z) : Z * Z := (u32 x.1, f64_to_f32 x.2).
(** What a document says about part 0; both formats. *)
Definition knobs_of (doc : params_doc) : knobs :=
  match doc with
  | PerPart l => flat_map (fun x => if x.1 =? 0 then map knob_of x.2 else []) l
  | Flat l => map knob_of l
  end.

Lemma reads_knob x : pair_ok x -> reads 0 (knob_visit x.1) (enc_float x.2) (fun l => l ++ [knob_of x]).
Proof. intros (_ & Hv & Hn). unfold knob_visit. apply reads_last with (a := x.2); [by apply decodes_float|]. apply reads_modify. Qed.

Lemma fold_knobs l : forall out, fold_left (fun out x => out ++ [knob_of x]) l out = out ++ map knob_of l.
Proof. induction l as [|x l IH]; intros out; cbn [fold_left map]; [by rewrite app_nil_r|]. by rewrite IH, <- app_assoc. Qed.

Lemma reads_param_map l : zlen l < 2 ^ 63 -> Forall pair_ok l -> reads 0 decode_param_map (enc_pairs l) (fun out => out ++ map knob_of l).
Proof.
  intros Hn Hl. apply reads_try. set (fs := map (fun x => mk_field x.1 (enc_float x.2) (fun out => out ++ [knob_of x])) l).
  assert (enc_pairs l = enc_fields fs) as ->.
  { unfold enc_fields, enc_pairs, fs, zlen. by rewrite length_map, flat_map_map. }
  eapply reads_ext; [|apply reads_map_fields].
  - intros out. unfold run_fields, fs. rewrite fold_left_map. apply fold_knobs.
  - unfold fs, zlen. by rewrite length_map.
  - intros f Hf. apply list_elem_of_fmap in Hf as (x & -> & Hx). rewrite List.Forall_forall in Hl.
    specialize (Hl x ltac:(by apply list_elem_of_In)). split; [apply Hl|split; [apply enc_float_zlen|by apply reads_knob]].
Qed.

(** A float, and a map of floats, as items. *)
Lemma enc_float_item v : exists i, enc_item i = enc_float v /\ flat 0 i = true.
Proof.
  unfold enc_float. case_match; [case_match|].
  - exists (IFloat 2 z). split; [|done]. cbn [enc_item]. by rewrite be_bytes_2.
  - exists (IFloat 4 (f64_to_f32 v)). split; [|done]. cbn [enc_item]. by rewrite be_bytes_4.
  - exists (IFloat 8 v). split; [|done]. cbn [enc_item]. by rewrite be_bytes_8.
Qed.

Lemma enc_pairs_item l : zlen l < 2 ^ 63 -> Forall pair_ok l -> exists i, enc_item i = enc_pairs l /\ skippable i = true.
Proof.
  intros Hn Hl. assert (exists l', zlen l' = zlen l /\ flat_map enc_kv l' = flat_map enc_pair l /\ (forall ki, ki ∈ l' -> is_u64 ki.1 /\ flat 0 ki.2 = true)) as (l' & H1 & H2 & H3).
  { clear Hn. induction Hl as [|x l Hx _ (l' & H1 & H2 & H3)]; [exists []; split_and!; [done|done|by intros ki Hki%elem_of_nil]|].
    destruct (enc_float_item x.2) as (i & Hi & Hf). exists ((x.1, i) :: l'). split_and!.
    - by rewrite !zlen_cons, H1.
    - cbn [flat_map]. rewrite H2. unfold enc_kv, enc_pair. cbn [fst snd]. by rewrite Hi.
    - intros ki [->|Hki]%elem_of_cons; [split; [apply Hx|done]|by apply H3]. }
  exists (kmap l'). split; [by rewrite enc_kmap, H1, H2|]. apply (flat_skippable 1); [unfold HARP_CBOR_MAX_DEPTH; lia|]. apply flat_kmap; [by rewrite H1|done].
Qed.

Lemma reads_other_part {T} l : zlen l < 2 ^ 63 -> Forall pair_ok l -> reads (T := T) 0 (on_fst harp_cdec_skip) (enc_pairs l) (fun t => t).
Proof. intros Hn Hl. destruct (enc_pairs_item l Hn Hl) as (i & <- & Hi). by apply reads_skip. Qed.

Definition part_eff (x : Z * list (Z * Z)) (out : knobs) : knobs := out ++ (if x.1 =? 0 then map knob_of x.2 else []).

Lemma reads_next_part x : part_ok x ->
  reads 0 (while_ok (part ← on_fst harp_cdec_uint; if part =? 0 then decode_param_map else on_fst harp_cdec_skip)) (enc_uint x.1 ++ enc_pairs x.2) (part_eff x).
Proof.
  intros (Hk & Hn & Hl). apply reads_while. eapply reads_leaf; [lia|by apply decodes_uint|]. unfold part_eff. destruct (x.1 =? 0); [by apply reads_param_map|].
  eapply reads_ext; [|by apply reads_other_part]. intros out. by rewrite app_nil_r.
Qed.
Lemma reads_first_part x : part_ok x -> reads 0 (if x.1 =? 0 then decode_param_map else skip_ignored) (enc_pairs x.2) (part_eff x).
Proof.
  intros (Hk & Hn & Hl). unfold part_eff. destruct (x.1 =? 0); [by apply reads_param_map|].
  eapply reads_ext; [|apply reads_try; by apply reads_other_part]. intros out. by rewrite app_nil_r.
Qed.

Lemma fold_parts l : forall out, fold_left (fun out x => part_eff x out) l out = out ++ knobs_of (PerPart l).
Proof. induction l as [|x l IH]; intros out; cbn [fold_left knobs_of flat_map]; [by rewrite app_nil_r|]. rewrite IH. unfold part_eff. by rewrite <- app_assoc. Qed.

(** The header of the map and its first key. *)
Lemma payload_first n k bs f : 0 < n < 2 ^ 63 -> is_u64 k -> 2 * n <= zlen (enc_uint k ++ bs) ->
  (forall rest, reads 0 (if harp_cdec_peek (mk_cdec (bs ++ rest) false) =? 5 then
      (if k =? 0 then decode_param_map else skip_ignored);;
      sm_for (n - 1) (while_ok (part ← on_fst harp_cdec_uint; if part =? 0 then decode_param_map else on_fst harp_cdec_skip))
    else knob_visit k;; sm_for (n - 1) (id ← on_fst harp_cdec_uint; knob_visit id)) bs f) ->
  reads 0 params_payload (enc_map n ++ enc_uint k ++ bs) f.
Proof.
  intros Hn Hk Hb Hr. unfold params_payload. eapply (reads_header _ _ (2 * n)); [apply decodes_map; lia| |lia|done].
  apply reads_guard; [by rewrite (proj2 (Z.eqb_neq n 0)) by lia|]. eapply reads_leaf; [lia|by apply decodes_uint|].
  intros rest t Hrest. erewrite sm_bind_run by reflexivity. by apply Hr.
Qed.

(** Part 0 of a well-formed document, in either format. *)
Lemma payload_run doc out : doc_ok doc -> decode_params_payload (enc_doc doc) out = out ++ knobs_of doc.
Proof.
  intros Hd. unfold decode_params_payload, harp_cdec_init. rewrite <- (app_nil_r (enc_doc doc)).
  assert (forall f, reads 0 params_payload (enc_doc doc) f -> f out = out ++ knobs_of doc ->
    (params_payload (mk_cdec (enc_doc doc ++ []) false, out)).2.2 = out ++ knobs_of doc) as Hok.
  { intros f Hf E. rewrite (Hf [] out) by apply zlen_nonneg. exact E. }
  assert ((params_payload (mk_cdec (enc_map 0 ++ []) false, out)).2.2 = out ++ []) as Hempty.
  { rewrite (app_nil_r out). unfold params_payload. erewrite sm_bind_run; [|unfold on_fst; cbn [fst]; by rewrite (decodes_map 0) by (lia || apply zlen_nonneg)]. done. }
  destruct doc as [[|x l]|[|x l]]; try exact Hempty; destruct Hd as [Hn Hl]; apply Forall_cons_iff in Hl as [Hx Hl]; pose proof Hx as (Hk & Hr);
    rewrite zlen_cons in Hn; pose proof (zlen_nonneg l); rewrite List.Forall_forall in Hl.
  - apply (Hok (fun out => fold_left (fun out x => part_eff x out) (x :: l) out)); [|apply fold_parts].
    change (enc_doc (PerPart (x :: l))) with (enc_map (zlen (x :: l)) ++ (enc_uint x.1 ++ enc_pairs x.2) ++ flat_map (fun x => enc_uint x.1 ++ enc_pairs x.2) l).
    rewrite <- app_assoc, zlen_cons. apply payload_first; [lia|done| |].
    + pose proof (flat_map_zlen_lb (x :: l) (fun x => enc_uint x.1 ++ enc_pairs x.2) 2) as Hlb. rewrite zlen_cons in Hlb. cbn [flat_map] in Hlb.
      rewrite <- app_assoc in Hlb. apply Hlb. intros y _. rewrite zlen_app. pose proof (enc_uint_zlen y.1). pose proof (enc_pairs_zlen y.2). lia.
    + intros rest. unfold enc_pairs at 1. rewrite <- !app_assoc. unfold enc_map at 1.
      rewrite major_head by (done || unfold is_u64; pose proof (zlen_nonneg x.2); destruct Hr; lia). cbn [Z.eqb Pos.eqb].
      replace (1 + zlen l - 1) with (zlen l) by lia. apply (reads_then _ _ _ _ (part_eff x)); [by apply reads_first_part|].
      apply (reads_loop l _ _ part_eff). intros y Hy. by apply reads_next_part, Hl, list_elem_of_In.
  - apply (Hok (fun out => fold_left (fun out x => out ++ [knob_of x]) (x :: l) out)); [|apply fold_knobs].
    change (enc_doc (Flat (x :: l))) with (enc_map (zlen (x :: l)) ++ (enc_uint x.1 ++ enc_float x.2) ++ flat_map enc_pair l).
    rewrite <- app_assoc, zlen_cons. apply payload_first; [lia|done| |].
    + pose proof (flat_map_zlen_lb (x :: l) enc_pair 2) as Hlb. rewrite zlen_cons in Hlb. cbn [flat_map] in Hlb. unfold enc_pair at 2 in Hlb.
      rewrite <- app_assoc in Hlb. apply Hlb. intros y _. unfold enc_pair. rewrite zlen_app. pose proof (enc_uint_zlen y.1). pose proof (enc_float_zlen y.2). lia.
    + intros rest. rewrite <- app_assoc, major_float. cbn [Z.eqb Pos.eqb]. replace (1 + zlen l - 1) with (zlen l) by lia.
      apply (reads_then _ _ _ _ (fun out => out ++ [knob_of x])); [by apply reads_knob|].
      apply (reads_loop l _ enc_pair (fun x out => out ++ [knob_of x])). intros y Hy. unfold enc_pair.
      assert (pair_ok y) as Hy' by (by apply Hl, list_elem_of_In). eapply reads_leaf; [lia|by apply decodes_uint, Hy'|by apply reads_knob].
Qed.

(** *** From the staged snapshot *)

Section knobs.
Context {R : Realloc} {O' : OS} {F : Faults} (s : path) (Ht : realloc_total R) (Hrd : reads_ok).

(** The device's parameters of part 0. *)
Definition part0 (ps : list part) : knobs := map (fun j => (p_id (param_at g_params j), cell (pvals ps) 0 j)) (seq 0 (NPARAMS g_params)).

Lemma knobs_part0 ps : grid_ok g_params (pvals ps) -> knobs_of (grid_doc g_params (pvals ps)) = part0 ps.
Proof.
  intros [_ Hv]. unfold grid_doc. change (seq 0 NPARTS) with (0%nat :: seq 1 15). cbn [map knobs_of flat_map fst snd Z.of_nat Z.eqb].
  assert (forall l, Forall (fun pi => (0 < pi)%nat) l ->
    flat_map (fun x => if x.1 =? 0 then map knob_of x.2 else []) (map (fun pi => (Z.of_nat pi, row_pairs g_params (pvals ps) pi)) l) = []) as Hrest.
  { induction 1 as [|pi l Hpi _ IH]; [done|]. cbn [map flat_map fst snd]. rewrite IH, (proj2 (Z.eqb_neq (Z.of_nat pi) 0)) by lia. done. }
  rewrite Hrest, app_nil_r by (apply List.Forall_forall; intros pi Hpi%in_seq; lia). unfold row_pairs, part0. rewrite map_map. apply map_ext_in. intros j Hj%in_seq.
  unfold knob_of. cbn [fst snd]. destruct (Hv 0%nat j) as [Hu Hn]; [unfold NPARTS; lia|lia|]. rewrite f64_to_f32_of_f32 by done. f_equal.
  apply u32_small. pose proof g_params_u32 as Hg. rewrite List.Forall_forall in Hg. apply Hg, nth_In. unfold NPARAMS in Hj. lia.
Qed.

Lemma params_from_store ps parent msg t out w : grid_ok g_params (pvals ps) -> obj_ok (snapshot_of ps parent msg t) = true ->
  (forall x, x ∈ snapshot_objects ps parent msg t -> stored s (w_fs w) x) ->
  exists w', paramsFromStore s (harp_hash_compute (enc_obj (snapshot_of ps parent msg t))) out w = (out ++ part0 ps, w') /\ w_fs w' = w_fs w.
Proof.
  intros Hg Hok Hst. unfold paramsFromStore.
  destruct (get_stored s _ _ w Hrd (Hst _ ltac:(by right; right; left))) as (b1 & w1 & -> & -> & E1).
  assert (harp_obj_parse_snapshot_root (enc_obj (snapshot_of ps parent msg t)) = Some (harp_hash_compute (enc_obj (tree_of ps)))) as ->.
  { unfold harp_obj_parse_snapshot_root. rewrite snap_run by done. unfold snapshot_of.
    destruct (snap_result (harp_hash_compute (enc_obj (tree_of ps))) (match parent with Some p => [p] | None => [] end) t (str "device") ENGINE_VERSION msg)
      as (-> & -> & -> & _). done. }
  destruct (get_stored s (harp_hash_compute (enc_obj (tree_of ps))) (enc_obj (tree_of ps)) w1 Hrd) as (b2 & w2 & -> & -> & E2).
  { rewrite E1. by apply Hst; right; left. }
  unfold tree_of at 1. rewrite tree_foreach_run.
  2: { cbn [obj_ok forallb]. unfold entry_ok, StateSpec.params_entry. cbn [te_name te_hash te_kind].
    rewrite (hash_ok_compute (enc_obj (blob_of ps))). vm_compute. reflexivity. }
  cbn [run_until]. unfold on_entry, Bundle.params_entry, StateSpec.params_entry. cbn [te_name te_hash te_kind].
  rewrite bool_decide_eq_true_2 by done. change (negb true || negb (HARP_OBJ_BLOB =? 0)) with false. cbv iota.
  destruct (get_stored s (harp_hash_compute (enc_obj (blob_of ps))) (enc_obj (blob_of ps)) w2 Hrd) as (b3 & w3 & -> & -> & E3).
  { rewrite E2, E1. by apply Hst; left. }
  unfold blob_of at 1. rewrite parse_blob_run by apply blob_ok. cbn [snd]. exists w3. split; [|congruence].
  rewrite payload_run by (apply grid_doc_ok; [apply g_params_u32|done|vm_compute; reflexivity]). by rewrite knobs_part0.
Qed.
End knobs.

(** ** Opening what was saved *)

Section roundtrip.
Context {R : Realloc} {O' : OS} {F : Faults}.

(** Every object could be written. *)
Fixpoint all_put (s : path) (l : list obj) (w : world) : bool :=
  match l with
  | o :: l => match harp_store_put s (enc_obj o) w with (Some _, w) => all_put s l w | (None, _) => false end
  | [] => true
  end.

Lemma filed_stored s L (Hfl : flush_reliable) (Hs : dir_ok s) l : forall w, no_obj_dirs s (w_fs w) -> no_clash s (w_fs w) L ->
  (forall o, o ∈ l -> enc_obj o ∈ L) -> all_put s l w = true ->
  (forall o, o ∈ l -> stored s (w_fs (filed l s w)) (enc_obj o)) /\ (forall e, e ∈ L -> stored s (w_fs w) e -> stored s (w_fs (filed l s w)) e).
Proof.
  unfold filed. induction l as [|o l IH]; intros w Hnd Hnc Hl Hput; [split; [by intros o Ho%elem_of_nil|done]|].
  cbn [all_put fold_left] in *. destruct (harp_store_put s (enc_obj o) w) as [[[]|] w1] eqn:E; [|discriminate Hput]. cbn [snd].
  destruct (put_stored s Hfl Hs L _ w w1 Hnd Hnc (Hl o ltac:(left)) E) as (N1 & C1 & S1 & K1).
  destruct (IH w1 N1 C1) as [I1 I2]; [intros x Hx; apply Hl; by right|done|]. split.
  - intros x [->|Hx]%elem_of_cons; [apply I2; [apply Hl; by left|done]|by apply I1].
  - intros e He Hst. apply I2; [done|]. by apply K1.
Qed.

Context {C : Type} {K : Ctl C} {E : RecallEnv}.

(** C10: what a project saved, opening it brings back.  The bundle written for a
    device's snapshot, with every object of its closure readable, is one well-formed
    item.  Opened while the device is away, on a store with room (memory, reads and [fflush]
    reliable), it is accepted; the
    snapshot is staged as the target with all its objects filed under their hashes,
    the project's parameter map, unit and engine are what the device said, and the
    knobs show exactly the device's parameters of part 0.  Read without a run-time,
    it gives the same values, and the serial to look for unless the unit was on the
    network. *)
Theorem project_roundtrip (i : device_id) (u : usb_id) (ref : harp_ref) (s1 s2 : path)
    (ps : list part) (parent : option harp_hash) (msg : option (list Z)) (t : Z) (objs : list obj) (w1 : world) (r : rt C) :
  let hash o := harp_hash_compute (enc_obj o) in
  let w2 := ctl_world (rt_ctl r) in
  realloc_total R -> flush_reliable -> reads_ok -> dir_ok s2 -> (forall w c, ctl_world (ctl_set_world w c) = w) ->
  bundle_fits i u ref objs -> r_hash ref = hash (snapshot_of ps parent msg t) -> [blob_of ps; tree_of ps; snapshot_of ps parent msg t] ⊆ objs ->
  grid_ok g_params (pvals ps) ->
  Forall (fun o => stored s1 (w_fs w1) (enc_obj o)) objs ->
  no_obj_dirs s2 (w_fs w2) -> no_clash s2 (w_fs w2) (map enc_obj objs) -> all_put s2 objs w2 = true -> re_connected (rt_tick r) = false ->
  exists b w1', encode_bundle i u ref s1 (map hash objs) harp_cbuf_init w1 = (b, w1') /\
    cb_buf b = enc_item (kmap (bundle_pairs i u ref objs)) /\
    bundleWantedSerial (cb_buf b) = (let s := cstr (us_serial u) in if is_eth s then [] else s) /\
    (exists w3, bundleParams (cb_buf b) s2 w2 = (true, part0 ps, w3)) /\
    exists r', setStateBundle (Some s2) (cb_buf b) r = (Some true, r') /\
      rt_pj r' = mk_project true (r_hash ref) (Some (di_pmh i)) (part0 ps) (wanted u) (cstr (di_serial i)) (lead_int 0 (cstr (di_engine_ver i))) /\
      Forall (fun o => stored s2 (w_fs (ctl_world (rt_ctl r'))) (enc_obj o)) objs.
Proof.
  intros hash w2 Ht Hfl Hrd Hs Hlaw Hfit Href Hsub Hg Hst Hnd Hnc Hput Hoff.
  destruct (bundle_run Ht Hrd i u ref s1 objs w1 Hst) as (b & w1' & Eb & Hb & _). exists b, w1'. split; [exact Eb|]. split; [exact Hb|].
  rewrite Hb. split; [by apply wanted_serial_run|].
  destruct (filed_stored s2 (map enc_obj objs) Hfl Hs objs w2 Hnd Hnc) as [Hall _]; [intros o Ho; by apply list_elem_of_fmap_2|done|].
  assert (forall x, x ∈ snapshot_objects ps parent msg t -> stored s2 (w_fs (filed objs s2 w2)) x) as Hsnap.
  { intros x Hx. assert (x ∈ map enc_obj [blob_of ps; tree_of ps; snapshot_of ps parent msg t]) as (o & -> & Ho)%list_elem_of_fmap by exact Hx. by apply Hall, Hsub. }
  assert (obj_ok (snapshot_of ps parent msg t) = true) as Hok.
  { pose proof (bf_objs _ _ _ _ Hfit) as H. rewrite List.Forall_forall in H. apply H, list_elem_of_In, Hsub. set_solver. }
  destruct (params_from_store s2 Hrd ps parent msg t [] (filed objs s2 w2) Hg Hok Hsnap) as (w4 & Ep & E4). unfold hash in Href. rewrite <- Href in Ep.
  split.
  - exists w4. unfold bundleParams, harp_cdec_init. pose proof (reads_params i u ref objs Hfit s2 [] (found_none w2) (zlen_nonneg [])) as Hr.
    rewrite app_nil_r in Hr. unfold bundle_bytes in Hr. rewrite Hr. cbn [fd_magic fd_target fd_world found_none]. by rewrite Ep.
  - unfold setStateBundle. rewrite bool_decide_eq_false_2.
    2: { intros E0. pose proof (item_zlen (kmap (bundle_pairs i u ref objs))) as Hz. rewrite E0 in Hz. by cbn in Hz. }
    unfold read_bundle, harp_cdec_init, mbind, SM_bind.
    pose proof (reads_bundle i u ref objs Hfit s2 [] (found_none w2, expects_none (pj_usb (rt_pj r))) (zlen_nonneg [])) as Hr.
    rewrite app_nil_r in Hr. unfold bundle_bytes in Hr. fold w2. rewrite Hr. cbn [fd_magic fd_target fd_world found_none fst].
    unfold stage_project, on_store, connected, ask_env, when, mbind, SM_bind, do, sm_modify, mret, SM_ret.
    cbn [rt_ctl set_pj set_ctl]. rewrite Hlaw, Ep. cbv beta iota zeta. cbn [upd_holds set_pj set_ctl rt_tick]. rewrite Hoff. eexists. split; [reflexivity|].
    split; [reflexivity|]. cbn [tick upd_holds set_pj set_ctl rt_ctl]. rewrite Hlaw. rewrite List.Forall_forall. intros o Ho%list_elem_of_In. rewrite E4. by apply Hall.
Qed.
End roundtrip.

(** *** A saved project *)

(** A client without a device: every call fails. *)
Definition no_device : Ctl world := {|
  ctl_find_ref := fun _ => mret (RErr HARP_CLIENT_EIO); ctl_snapshot := fun _ _ => mret (RErr HARP_CLIENT_EIO);
  ctl_refset := fun _ _ _ _ _ _ => mret (RErr HARP_CLIENT_EIO); ctl_fetch := fun _ => mret (RErr HARP_CLIENT_EIO);
  ctl_push := fun _ => mret (RErr HARP_CLIENT_EIO); ctl_offer := fun _ _ _ => mret (RErr HARP_CLIENT_EIO); ctl_poll := mret (RErr HARP_CLIENT_EIO);
  ctl_code := fun _ => []; ctl_world := fun w => w; ctl_set_world := fun w _ => w |}.
Definition recall_env (up : bool) : RecallEnv := {|
  re_push_fail := false; re_timeout := None; re_archive_ts := None; re_force_major := None; re_consent := None;
  re_stamp := fun _ => str "2026-01-02T03:04:05Z"; re_connected := fun _ => up |}.

Definition demo_did : device_id :=
  mk_did 0x1209 (str "HARP Reference Project") 1 (str "harp-refdev") (str "REF-0001") (str "refdev-synth") (str "2.1.0") (repeat 7 HARP_HASH_LEN).
Definition demo_usb : usb_id := mk_usb 0x1209 1 (str "REF-0001").
Definition project_none : project := mk_project false [] None [] (mk_want false (mk_usb 0 0 [])) [] 0.
Definition demo_rt {C} (c : C) : rt C := mk_rt c 0 demo_did demo_usb project_none (mk_holds false false false false) 0 false [] [].

Section demo.
#[local] Existing Instances no_device alloc_all os_good no_faults.
#[local] Instance away : RecallEnv := recall_env false.

Definition demo_objs : list obj := [blob_of g_parts_init; tree_of g_parts_init; snapshot_of g_parts_init None None 1700000000].
Definition demo_ref : harp_ref := mk_ref LIVE_REF false (harp_hash_compute (enc_obj (snapshot_of g_parts_init None None 1700000000))) 3 false.
Definition demo_saved : world := filed demo_objs s_dir (world_of fs_empty).

Lemma demo_fits : bundle_fits demo_did demo_usb demo_ref demo_objs.
Proof.
  split.
  - unfold is_u64, is_u16. cbn. lia.
  - intros s Hs. rewrite !elem_of_cons in Hs. by destruct Hs as [->|[->|[->|[->|[->|[->|Hs%elem_of_nil]]]]]].
  - reflexivity.
  - split; [|done]. split; [vm_compute; reflexivity|]. split; [repeat constructor; discriminate|]. split; [unfold is_u64; cbn; lia|apply hash_ok_compute].
  - apply List.Forall_forall. assert (forallb obj_ok demo_objs = true) as H by (vm_compute; reflexivity). by rewrite forallb_forall in H.
  - reflexivity.
Qed.

Lemma demo_objects_are : map enc_obj demo_objs = demo_objects.
Proof. unfold demo_objs, demo_objects, snapshot_objects. cbn [map]. reflexivity. Qed.

Lemma demo_puts : all_put s_dir demo_objs (world_of fs_empty) = true.
Proof. vm_compute. reflexivity. Qed.

Lemma project_roundtrip_witness : exists b w', encode_bundle demo_did demo_usb demo_ref s_dir (map (fun o => harp_hash_compute (enc_obj o)) demo_objs) harp_cbuf_init demo_saved = (b, w') /\
  bundleWantedSerial (cb_buf b) = str "REF-0001" /\
  exists r', setStateBundle (Some s_dir) (cb_buf b) (demo_rt (world_of fs_empty)) = (Some true, r') /\
    pj_params (rt_pj r') = part0 g_parts_init /\ pj_major (rt_pj r') = 2.
Proof.
  assert (flush_reliable) as Hfl by (intros t; reflexivity).
  assert (reads_ok) as Hrd by (split; [intros t; reflexivity|]; split; intros t; reflexivity).
  assert (dir_ok s_dir) as Hs by (unfold dir_ok, STORE_DIR_MAX; cbn; lia).
  destruct (project_roundtrip demo_did demo_usb demo_ref s_dir s_dir g_parts_init None None 1700000000 demo_objs demo_saved (demo_rt (world_of fs_empty)))
    as (b & w' & Eb & _ & Ew & _ & r' & Er & Ep & _).
  - intros n. reflexivity.
  - exact Hfl.
  - exact Hrd.
  - exact Hs.
  - reflexivity.
  - exact demo_fits.
  - reflexivity.
  - done.
  - exact demo_grid_live.
  - apply List.Forall_forall. intros o Ho%list_elem_of_In.
    refine (proj1 (filed_stored s_dir demo_objects Hfl Hs demo_objs (world_of fs_empty) fs_empty_no_obj_dirs demo_no_clash _ demo_puts) o Ho).
    intros x Hx. rewrite <- demo_objects_are. exact (list_elem_of_fmap_2 enc_obj demo_objs x Hx).
  - exact fs_empty_no_obj_dirs.
  - rewrite demo_objects_are. exact demo_no_clash.
  - exact demo_puts.
  - reflexivity.
  - exists b, w'. split; [exact Eb|]. split; [rewrite Ew; reflexivity|]. exists r'. split; [exact Er|]. rewrite Ep. split; reflexivity.
Defined.
End demo.
