(* ===== verification/RecallSpec.v ===== *)
(** * Recall: theorems

    What the flow asks of the client, as an automaton: the calls of a push, whatever
    the device answers, are a path of it.  The live ref is moved only after what it
    displaces has a name of its own, and only when the user did not pick otherwise. *)
From Stdlib Require Import ZArith Lia String List Bool.
From stdpp Require Import base list.
From S2P Require Import Prelude Cbuf CborEnc CborDec CborFields Object Link Fs Store Params Device Reply Refs Client Bundle Recall BundleSpec.
Open Scope Z_scope.
Open Scope list_scope.

(** ** The calls of the flow *)

(** What was asked, and what came back; [ok] says that the call succeeded. *)
Inductive call_made : Type :=
  | CFind (live : option harp_ref)
  | CSnap (head : option harp_hash)
  | CRefset (name : list Z) (expect : option harp_hash) (target : harp_hash) (create force consent ok : bool)
  | CFetch (root : harp_hash) (ok : bool)
  | CPush (root : harp_hash) (ok : bool)
  | COffer (ok : bool)
  | CPoll (answer : option (option bool * option Z)).

Definition answer_of {A} (o : option (res A)) : option A := match o with Some x => ok_of x | None => None end.
Definition came_back {A} (o : option (res A)) : bool := match o with Some x => is_ok x | None => false end.

Section logged.
Context {C : Type} {K : Ctl C}.

Definition logging {A} (mk : option A -> call_made) (m : SM C A) : SM (C * list call_made) A := fun st =>
  let '(o, c) := m st.1 in (o, (c, st.2 ++ [mk o])).

(** A client that keeps a log of the calls. *)
Definition logged : Ctl (C * list call_made) := {|
  ctl_find_ref := fun name => logging (fun o => CFind (answer_of o)) (ctl_find_ref name);
  ctl_snapshot := fun name msg => logging (fun o => CSnap (answer_of o)) (ctl_snapshot name msg);
  ctl_refset := fun name e t c f k => logging (fun o => CRefset name e t c f k (came_back o)) (ctl_refset name e t c f k);
  ctl_fetch := fun h => logging (fun o => CFetch h (came_back o)) (ctl_fetch h);
  ctl_push := fun h => logging (fun o => CPush h (came_back o)) (ctl_push h);
  ctl_offer := fun e l d => logging (fun o => COffer (came_back o)) (ctl_offer e l d);
  ctl_poll := logging (fun o => CPoll (answer_of o)) ctl_poll;
  ctl_code := fun st => ctl_code st.1;
  ctl_world := fun st => ctl_world st.1;
  ctl_set_world := fun w st => (ctl_set_world w st.1, st.2) |}.

Definition with_ctl {D} (c : D) (r : rt C) : rt D :=
  mk_rt c (rt_tick r) (rt_dev r) (rt_usb r) (rt_pj r) (rt_holds r) (rt_seen r) (rt_injected r) (rt_hist r) (rt_log r).
(** A run-time with an empty log, and without its log. *)
Definition log_from (r : rt C) : rt (C * list call_made) := with_ctl (rt_ctl r, []) r.
Definition erase (r : rt (C * list call_made)) : rt C :=
  mk_rt (rt_ctl r).1 (rt_tick r) (rt_dev r) (rt_usb r) (rt_pj r) (rt_holds r) (rt_seen r) (rt_injected r) (rt_hist r) (rt_log r).
Definition log_of (r : rt (C * list call_made)) : list call_made := (rt_ctl r).2.

(** ** The log does not change what happens *)

Definition sim {A} (m : SM (rt (C * list call_made)) A) (m' : SM (rt C) A) : Prop :=
  forall r, m' (erase r) = ((m r).1, erase (m r).2).

Lemma sim_bind {A B} (m : SM _ A) m' (k : A -> SM _ B) k' : sim m m' -> (forall a, sim (k a) (k' a)) -> sim (m ≫= k) (m' ≫= k').
Proof.
  intros Hm Hk r. unfold mbind, SM_bind. rewrite (Hm r). destruct (m r) as [[a|] r1]; [apply Hk|done].
Qed.
Lemma sim_ret {A} (a : A) : sim (mret a) (mret a).
Proof. done. Qed.
Lemma sim_get {B} (k : rt _ -> SM _ B) k' : (forall r, sim (k r) (k' (erase r))) -> sim (sm_get ≫= k) (sm_get ≫= k').
Proof. intros Hk r. apply Hk. Qed.
Lemma sim_do f f' : (forall r, f' (erase r) = erase (f r)) -> sim (do f) (do f').
Proof. intros Hf r. unfold do, sm_modify. by rewrite Hf. Qed.
Lemma sim_when b m m' : sim m m' -> sim (when b m) (when b m').
Proof. by destruct b. Qed.
Lemma sim_ctl {A} mk (m : SM C A) : sim (on_ctl (logging mk m)) (on_ctl m).
Proof. intros r. unfold on_ctl, logging, erase. cbn. by destruct (m (rt_ctl r).1). Qed.
Lemma sim_ask {A} (f : nat -> A) : sim (ask_env f) (ask_env f).
Proof. done. Qed.
Lemma sim_store {A} (f : world -> A * world) : sim (on_store (K := logged) f) (on_store f).
Proof. intros r. unfold on_store. cbn. by destruct (f _). Qed.
End logged.

(** Follow the two programs in step. *)
Ltac sim_tac := repeat lazymatch goal with
  | |- sim (mret _) _ => apply sim_ret
  | |- sim (ask_env _) _ => apply sim_ask
  | |- sim (on_store _) _ => apply sim_store
  | |- sim (on_ctl _) _ => apply sim_ctl
  | |- sim (sm_get ≫= _) _ => apply sim_get; intros ?; cbn [rt_injected rt_holds rt_ctl rt_pj erase ctl_code logged]
  | |- sim (_ ≫= _) _ => apply sim_bind; [|intros ?]
  | |- sim (when _ _) _ => apply sim_when
  | |- sim (do _) _ => apply sim_do; reflexivity
  | |- sim (match ?x with _ => _ end) _ => destruct x
  | |- sim (let _ := _ in _) _ => cbv zeta
  end.

Section sims.
Context {C : Type} {K : Ctl C} {E : RecallEnv} {R : Realloc} {O' : OS} {F : Faults}.

Lemma sim_refs : sim (refsLocked (K := logged)) refsLocked.
Proof. unfold refsLocked. sim_tac. Qed.
Lemma sim_fetch h : sim (fetchClosureLocked (K := logged) h) (fetchClosureLocked h).
Proof. unfold fetchClosureLocked. sim_tac. Qed.
Lemma sim_head live : sim (device_head (K := logged) live) (device_head live).
Proof. unfold device_head, snapshotLocked. sim_tac. Qed.
Lemma sim_polls n : forall choice, sim (poll_loop (K := logged) n choice) (poll_loop n choice).
Proof. induction n as [|n IH]; intros choice; cbn [poll_loop]; sim_tac. apply IH. Qed.
Lemma sim_archives n : forall seq ts head, sim (archive_loop (K := logged) n seq ts head) (archive_loop n seq ts head).
Proof. induction n as [|n IH]; intros seq ts head; cbn [archive_loop]; sim_tac. apply IH. Qed.
Lemma sim_write choice live head target : sim (push_write (K := logged) choice live head target) (push_write choice live head target).
Proof.
  unfold push_write. apply sim_bind; [apply sim_do; intros r; unfold note_choice; by destruct (choice =? 3)|]. intros ?.
  unfold archive, push_send. sim_tac; apply sim_archives.
Qed.
Lemma sim_resolve live head target : sim (resolve (K := logged) live head target) (resolve live head target).
Proof.
  unfold resolve, reconcile_choice, pull, open_read_only, force. sim_tac; try apply sim_polls; try apply sim_fetch; apply sim_write.
Qed.
Lemma sim_push target : sim (pushStateLocked (K := logged) target) (pushStateLocked target).
Proof. unfold pushStateLocked. sim_tac; try apply sim_refs; try apply sim_head; apply sim_resolve. Qed.
End sims.

(** ** The automaton of a push *)

(** Where a push stands: the ref it found, the head it may displace, the user's
    latest pick. *)
Inductive phase : Type :=
  | PStart
  | PLive (live : harp_ref)
  | PHead (live : harp_ref) (head : harp_hash) (pick : Z)
  | PSafe (live : harp_ref) (head : harp_hash) (pick : Z)
  | PSent (live : harp_ref) (head : harp_hash) (pick : Z)
  | PMoved
  | PPulled
  | PFailed.

Section automaton.
Context (target : harp_hash) (consented : bool).

(** Pull and Read-only write nothing. *)
Definition writes (pick : Z) : bool := negb (pick =? 1) && negb (pick =? 2).
Definition displaces (live : harp_ref) (head : harp_hash) : bool := negb (r_unborn live) && negb (memcmp head target =? 0).
Definition keep_dir (pick : Z) : list Z := if pick =? 3 then str "duplicate/" else str "archive/".
Definition or_fail (ok : bool) (p : phase) : option phase := Some (if ok then p else PFailed).

Definition step (c : call_made) (p : phase) : option phase :=
  match p, c with
  | PStart, CFind (Some live) => Some (if r_dirty live then PLive live else PHead live (r_hash live) (-1))
  | PStart, CFind None => Some PFailed
  | PLive live, CSnap (Some head) => Some (PHead live head (-1))
  | PLive live, CSnap None => Some PFailed
  | PHead live head pick, COffer _ => if r_unborn live then None else Some p
  | PHead live head pick, CPoll ans =>
      if r_unborn live then None else Some (PHead live head (match ans with Some (_, Some v) => v | _ => pick end))
  | PHead live head pick, CFetch h ok => if (pick =? 1) && bool_decide (h = head) then or_fail ok PPulled else None
  | PHead live head pick, CRefset name None h true false false ok =>
      if writes pick && displaces live head && has_prefix (keep_dir pick) name && bool_decide (h = head)
      then Some (if ok then PSafe live head pick else p) else None
  | PHead live head pick, CPush h ok =>
      if writes pick && negb (displaces live head) && bool_decide (h = target) then or_fail ok (PSent live head pick) else None
  | PSafe live head pick, CPush h ok => if bool_decide (h = target) then or_fail ok (PSent live head pick) else None
  | PSent live head pick, CRefset name expect h create false consent ok =>
      if bool_decide (name = LIVE_REF) && bool_decide (expect = if r_unborn live then None else Some head) && bool_decide (h = target) &&
         Bool.eqb create (r_unborn live) && Bool.eqb consent (consented || (pick =? 4))
      then or_fail ok PMoved else None
  | _, _ => None
  end.

Fixpoint steps (p : phase) (l : list call_made) : option phase :=
  match l with [] => Some p | c :: l => match step c p with Some p => steps p l | None => None end end.

(** Where a push that reports success can end. *)
Definition settled (p : phase) : bool :=
  match p with
  | PMoved | PPulled => true
  | PHead live head pick => (pick =? 2) || (negb (r_unborn live) && negb (r_dirty live) && harp_hash_eq head target)
  | _ => false
  end.

Lemma steps_app p l1 l2 : steps p (l1 ++ l2) = match steps p l1 with Some p => steps p l2 | None => None end.
Proof. revert p. induction l1 as [|c l1 IH]; intros p; [done|]. cbn [app steps]. destruct (step c p); [apply IH|done]. Qed.

(** What has happened when a phase is reached. *)
Definition knows (l : list call_made) (live : harp_ref) (head : harp_hash) : Prop :=
  CFind (Some live) ∈ l /\ (if r_dirty live then CSnap (Some head) ∈ l else head = r_hash live).
Definition kept_as (l : list call_made) (head : harp_hash) : Prop :=
  exists name dir, (dir = str "archive/" \/ dir = str "duplicate/") /\ has_prefix dir name = true /\ CRefset name None head true false false true ∈ l.
Definition history (l : list call_made) (p : phase) : Prop :=
  match p with
  | PStart => l = []
  | PLive live => CFind (Some live) ∈ l /\ r_dirty live = true
  | PHead live head _ => knows l live head
  | PSafe live head _ => knows l live head /\ kept_as l head
  | PSent live head _ => knows l live head /\ CPush target true ∈ l /\ (displaces live head = true -> kept_as l head)
  | _ => True
  end.

Lemma knows_more l c live head : knows l live head -> knows (l ++ [c]) live head.
Proof. intros [H1 H2]. split; [by apply elem_of_app; left|]. destruct (r_dirty live); [by apply elem_of_app; left|done]. Qed.
Lemma kept_more l c head : kept_as l head -> kept_as (l ++ [c]) head.
Proof. intros (name & dir & H1 & H2 & H3). exists name, dir. split_and!; [done|done|by apply elem_of_app; left]. Qed.
Lemma last_in (l : list call_made) c : c ∈ l ++ [c].
Proof. apply elem_of_app. right. by apply list_elem_of_singleton. Qed.

Lemma keep_dir_is pick : keep_dir pick = str "archive/" \/ keep_dir pick = str "duplicate/".
Proof. unfold keep_dir. case_match; auto. Qed.

Lemma history_step l p c p' : history l p -> step c p = Some p' -> history (l ++ [c]) p'.
Proof.
  intros Hh Hs. destruct p as [|live|live head pick|live head pick|live head pick| | |], c as [o|o|name e t cr f k ok|h ok|h ok|ok|a]; try discriminate Hs; cbn [step history] in *.
  - destruct o as [live|]; injection Hs as <-; [|done]. destruct (r_dirty live) eqn:Ed; cbn [history]; [split; [apply last_in|done]|].
    split; [apply last_in|by rewrite Ed].
  - destruct Hh as [H1 H2]. destruct o as [head|]; injection Hs as <-; [|done]. split; [by apply elem_of_app; left|]. rewrite H2. apply last_in.
  - destruct e; [discriminate Hs|]. destruct cr, f, k; try discriminate Hs. case_match eqn:E; [|discriminate Hs]. injection Hs as <-.
    apply andb_prop in E as [E ->%bool_decide_eq_true]. apply andb_prop in E as [E Hp]. destruct ok; cbn [history]; [|by apply knows_more].
    split; [by apply knows_more|]. exists name, (keep_dir pick). split; [apply keep_dir_is|]. split; [done|apply last_in].
  - case_match; [|discriminate Hs]. injection Hs as <-. by destruct ok.
  - case_match eqn:E; [|discriminate Hs]. injection Hs as <-. destruct ok; [|done]. apply andb_prop in E as [E ->%bool_decide_eq_true].
    apply andb_prop in E as [_ E%negb_true_iff]. cbn [history]. split; [by apply knows_more|]. split; [apply last_in|]. congruence.
  - case_match; [discriminate Hs|]. injection Hs as <-. by apply knows_more.
  - case_match; [discriminate Hs|]. injection Hs as <-. by apply knows_more.
  - case_match eqn:E; [|discriminate Hs]. apply bool_decide_eq_true in E as ->. injection Hs as <-. destruct ok; [|done]. destruct Hh as [H1 H2].
    split; [by apply knows_more|]. split; [apply last_in|]. intros _. by apply kept_more.
  - destruct f; [discriminate Hs|]. case_match; [|discriminate Hs]. injection Hs as <-. by destruct ok.
Qed.

Lemma history_steps l2 : forall l1 p p', history l1 p -> steps p l2 = Some p' -> history (l1 ++ l2) p'.
Proof.
  induction l2 as [|c l2 IH]; intros l1 p p' Hh Hs; cbn [steps] in Hs.
  - injection Hs as <-. by rewrite app_nil_r.
  - destruct (step c p) as [p1|] eqn:E; [|discriminate Hs]. change (c :: l2) with ([c] ++ l2). rewrite app_assoc. eapply IH; [|done]. by eapply history_step.
Qed.

(** The write of the live ref is the last call, and what it displaces was kept. *)
Lemma live_write_last l1 l2 expect h create force consent ok p :
  steps PStart (l1 ++ CRefset LIVE_REF expect h create force consent ok :: l2) = Some p ->
  l2 = [] /\ h = target /\ force = false /\ CPush target true ∈ l1 /\
  exists live head, knows l1 live head /\ expect = (if r_unborn live then None else Some head) /\ create = r_unborn live /\
    (displaces live head = true -> kept_as l1 head).
Proof.
  rewrite steps_app. destruct (steps PStart l1) as [p1|] eqn:E1; [|done]. assert (history l1 p1) as Hh by (by apply (history_steps l1 [] PStart)).
  cbn [steps]. destruct (step _ p1) as [p2|] eqn:E2; [|done]. intros E3.
  destruct p1 as [|live|live head pick|live head pick|live head pick| | |]; try discriminate E2; cbn [step] in E2.
  - destruct expect; [discriminate E2|]. destruct create, force, consent; try discriminate E2. case_match eqn:E; [|discriminate E2].
    apply andb_prop in E as [E _]. apply andb_prop in E as [_ E]. unfold keep_dir in E. destruct (pick =? 3); discriminate E.
  - destruct force; [discriminate E2|]. case_match eqn:E; [|discriminate E2]. injection E2 as <-.
    apply andb_prop in E as [E _]. apply andb_prop in E as [E Hc%eqb_prop]. apply andb_prop in E as [E Ht%bool_decide_eq_true].
    apply andb_prop in E as [_ He%bool_decide_eq_true]. destruct Hh as (H1 & H2 & H3).
    split; [|split; [done|split; [done|split; [done|by exists live, head]]]].
    destruct l2 as [|c l2]; [done|]. destruct ok, c; discriminate E3.
Qed.
End automaton.

(** ** Every push is a path of the automaton *)

Section paths.
Context {C : Type} {K : Ctl C} {E : RecallEnv} {R : Realloc} {O' : OS} {F : Faults}.
#[local] Existing Instance logged.
Context (target : harp_hash) (consented : bool).
Abbreviation lrt := (rt (C * list call_made)).
Abbreviation path_of := (steps target consented).

(** The project and the identity of the device stay. *)
Definition same_project (r r' : lrt) : Prop := rt_pj r' = rt_pj r /\ rt_dev r' = rt_dev r.

(** From phase [p], the calls of [m] are a path; [Q] holds of the result. *)
Definition wp {A} (p : phase) (m : SM lrt A) (Q : A -> phase -> lrt -> Prop) (r : lrt) : Prop :=
  let '(o, r') := m r in
  exists l p', log_of r' = log_of r ++ l /\ same_project r r' /\ path_of p l = Some p' /\ match o with Some a => Q a p' r' | None => True end.

Lemma wp_bind {A B} p (m : SM lrt A) (k : A -> SM lrt B) (Q : B -> phase -> lrt -> Prop) r :
  wp p m (fun a p' r' => wp p' (k a) Q r') r -> wp p (m ≫= k) Q r.
Proof.
  unfold wp, mbind, SM_bind. destruct (m r) as [[a|] r1]; intros (l1 & p1 & L1 & (P1 & D1) & S1 & H); [|by exists l1, p1].
  destruct (k a r1) as [o r2]. destruct H as (l2 & p2 & L2 & (P2 & D2) & S2 & H2). exists (l1 ++ l2), p2. split; [by rewrite L2, L1, app_assoc|].
  split; [split; congruence|]. split; [by rewrite steps_app, S1|done].
Qed.
Lemma wp_mono {A} p (m : SM lrt A) (Q Q' : A -> phase -> lrt -> Prop) r : (forall a p' r', Q a p' r' -> Q' a p' r') -> wp p m Q r -> wp p m Q' r.
Proof. unfold wp. intros H. destruct (m r) as [[a|] r1]; intros (l & p1 & L1 & D1 & S1 & HQ); exists l, p1; auto. Qed.
Lemma wp_ret {A} p (a : A) (Q : A -> phase -> lrt -> Prop) r : Q a p r -> wp p (mret a) Q r.
Proof. intros H. exists [], p. by rewrite app_nil_r. Qed.
Lemma wp_get {B} p (k : lrt -> SM lrt B) Q r : wp p (k r) Q r -> wp p (sm_get ≫= k) Q r.
Proof. done. Qed.
Lemma wp_do p f (Q : unit -> phase -> lrt -> Prop) r : log_of (f r) = log_of r /\ same_project r (f r) -> Q tt p (f r) -> wp p (do f) Q r.
Proof. intros [Hl Hp] H. exists [], p. by rewrite app_nil_r. Qed.
Lemma wp_ask {A} p (f : nat -> A) (Q : A -> phase -> lrt -> Prop) r : Q (f (rt_tick r)) p (tick r) -> wp p (ask_env f) Q r.
Proof. intros H. exists [], p. by rewrite app_nil_r. Qed.
(** One call: it must be a step, whatever comes back. *)
Lemma wp_call {A} p mk (m : SM C A) (Q : A -> phase -> lrt -> Prop) r :
  (forall o c, exists p', step target consented (mk o) p = Some p' /\ match o with Some a => Q a p' (set_ctl c r) | None => True end) ->
  wp p (on_ctl (logging mk m)) Q r.
Proof.
  intros H. unfold wp, on_ctl, logging. destruct (m (rt_ctl r).1) as [o c]. destruct (H o (c, (rt_ctl r).2 ++ [mk o])) as (p' & Hs & HQ).
  exists [mk o], p'. split; [done|]. split; [done|]. cbn [steps]. by rewrite Hs.
Qed.

Lemma has_prefix_app p l n : (length p < n)%nat -> has_prefix p (snprintf n (p ++ l)) = true.
Proof.
  intros Hn. unfold has_prefix, snprintf. apply bool_decide_eq_true. rewrite take_take. rewrite Nat.min_l by lia. apply take_app_length.
Qed.
Lemma has_prefix_longer p l1 l2 n : (length p < n)%nat -> has_prefix p l1 = true -> has_prefix p (snprintf n (l1 ++ l2)) = true.
Proof.
  unfold has_prefix. rewrite !bool_decide_eq_true. intros Hn H. rewrite <- (take_drop (length p) l1), H, <- app_assoc.
  eapply bool_decide_eq_true_1. by apply (has_prefix_app p).
Qed.

Lemma path_polls live head n : r_unborn live = false -> forall pick r,
  wp (PHead live head pick) (poll_loop n pick) (fun ch p' r' => p' = PHead live head ch /\ rt_holds r' = rt_holds r) r.
Proof.
  intros Hu. induction n as [|n IH]; intros pick r; cbn [poll_loop]; [by apply wp_ret|]. apply wp_bind, wp_call. intros o c.
  cbn [step]. rewrite Hu. eexists. split; [reflexivity|]. destruct o as [[[pending ch]|rc]|]; [|by apply wp_ret|done].
  cbn [answer_of ok_of]. destruct ch as [v|].
  all: case_match; [eapply wp_mono; [|apply IH]; done|by apply wp_ret].
Qed.

Lemma path_choice live head r :
  wp (PHead live head (-1)) (reconcile_choice live head target)
    (fun ch p' r' => exists pick, p' = PHead live head pick /\ ch = (if pick <? 0 then 0 else pick) /\ rt_holds r' = rt_holds r /\
       (r_unborn live = true -> pick = -1)) r.
Proof.
  unfold reconcile_choice. destruct (r_unborn live) eqn:Hu; cbn [orb]; [apply wp_ret; by exists (-1)|].
  case_match; [apply wp_ret; by exists (-1)|]. apply wp_bind, wp_call. intros o c. cbn [step]. rewrite Hu.
  eexists. split; [reflexivity|]. destruct o as [x|]; [|done]. apply wp_bind. destruct (is_ok x).
  - eapply wp_mono; [|apply path_polls, Hu]. intros pick p' r' [-> Hh]. apply wp_ret. exists pick. split_and!; done.
  - apply wp_ret, wp_ret. by exists (-1).
Qed.

Lemma path_archive live head pick n : writes pick = true -> displaces target live head = true -> forall seq ts r,
  has_prefix (keep_dir pick) ts = true ->
  wp (PHead live head pick) (archive_loop n seq ts head)
    (fun ok p' r' => rt_holds r' = rt_holds r /\ p' = if ok : bool then PSafe live head pick else PHead live head pick) r.
Proof.
  intros Hw Hd. induction n as [|n IH]; intros seq ts r Hp; cbn [archive_loop]; [by apply wp_ret|]. apply wp_bind, wp_call. intros o c.
  assert (has_prefix (keep_dir pick) (archive_name ts seq) = true) as Hn.
  { unfold archive_name. assert (length (keep_dir pick) < 112)%nat by (unfold keep_dir; case_match; vm_compute; lia).
    case_match; [rewrite <- (app_nil_r ts)|]; by apply has_prefix_longer. }
  cbn [step]. rewrite Hw, Hd, Hn, (bool_decide_eq_true_2 (head = head)) by done. cbn [andb]. eexists. split; [reflexivity|].
  destruct o as [x|]; [|done]. cbn [came_back]. destruct (is_ok x); [by apply wp_ret|]. apply wp_get. case_match; [|by apply wp_ret].
  eapply wp_mono; [|by apply IH]. done.
Qed.

Lemma note_quiet choice live (r : lrt) : (log_of (note_choice choice live r) = log_of r /\ same_project r (note_choice choice live r)) /\ rt_holds (note_choice choice live r) = rt_holds r.
Proof. unfold note_choice. by destruct (choice =? 3). Qed.

Lemma wp_when p b (m : SM lrt unit) (Q : unit -> phase -> lrt -> Prop) r : (b = true -> wp p m Q r) -> (b = false -> Q tt p r) -> wp p (when b m) Q r.
Proof. destruct b; intros H1 H2; cbn [when]; [by apply H1|by apply wp_ret, H2]. Qed.

Lemma path_send live head pick p r :
  p = PSafe live head pick \/ p = PHead live head pick /\ displaces target live head = false /\ writes pick = true ->
  h_consent (rt_holds r) = consented || (pick =? 4) ->
  wp p (push_send live head target) (fun ok p' _ => ok = true -> p' = PMoved) r.
Proof.
  intros Hp Hk. unfold push_send. apply wp_bind, wp_call. intros o c.
  assert (step target consented (CPush target (came_back o)) p = or_fail (came_back o) (PSent live head pick)) as ->.
  { destruct Hp as [->|(-> & Hd & Hw)]; cbn [step]; rewrite (bool_decide_eq_true_2 (target = target)) by done; [done|]. by rewrite Hw, Hd. }
  eexists. split; [reflexivity|]. destruct o as [x|]; [|done]. cbn [came_back]. destruct (is_ok x); [|by apply wp_ret]. cbn [negb].
  apply wp_get, wp_bind, wp_call. intros o c'. cbn [step set_ctl rt_holds]. rewrite Hk.
  rewrite (bool_decide_eq_true_2 (LIVE_REF = LIVE_REF)), (bool_decide_eq_true_2 (target = target)), bool_decide_eq_true_2, !eqb_reflx by done. cbn [andb].
  eexists. split; [reflexivity|]. destruct o as [y|]; [|done]. cbn [came_back]. destruct (is_ok y); [by apply wp_ret|]. apply wp_get, wp_bind, wp_when.
  - intros _. apply wp_bind, wp_do, wp_do; [done..|]. by apply wp_ret.
  - intros _. by apply wp_ret.
Qed.

Lemma path_write live head pick choice r : choice = (if pick <? 0 then 0 else pick) -> writes pick = true ->
  h_consent (rt_holds r) = consented || (pick =? 4) ->
  wp (PHead live head pick) (push_write choice live head target) (fun ok p' _ => ok = true -> p' = PMoved) r.
Proof.
  intros Hc Hw Hk. unfold push_write. destruct (note_quiet choice live r) as [Hl Hn]. apply wp_bind, wp_do; [done|].
  assert (keep_dir pick = (if choice =? 3 then str "duplicate" else str "archive") ++ str "/") as Hdir.
  { subst choice. unfold keep_dir. destruct (Z.eqb_spec pick 3) as [->|]; [done|]. destruct (pick <? 0); [done|]. by rewrite (proj2 (Z.eqb_neq pick 3)). }
  apply wp_bind. fold (displaces target live head). destruct (displaces target live head) eqn:Hd.
  - unfold archive. apply wp_bind, wp_ask. eapply wp_mono; [|apply path_archive; [done|done|]].
    + intros ok p' r' [Hh ->]. destruct ok; [|by apply wp_ret]. apply path_send with pick; [by left|]. by rewrite Hh, <- Hk, <- Hn.
    + rewrite Hdir, app_assoc. apply has_prefix_app. destruct (choice =? 3); vm_compute; lia.
  - apply wp_ret, path_send with pick; [by right|by rewrite Hn].
Qed.

Lemma path_fetch live head pick r : pick = 1 ->
  wp (PHead live head pick) (fetchClosureLocked head) (fun ok p' _ => ok = true -> p' = PPulled) r.
Proof.
  intros ->. unfold fetchClosureLocked. apply wp_bind, wp_call. intros o c. cbn [step]. rewrite bool_decide_eq_true_2 by done.
  eexists. split; [reflexivity|]. destruct o as [x|]; [|done]. apply wp_ret. cbn [came_back]. by intros ->.
Qed.

Definition ends_well (ok : bool) (p' : phase) (_ : lrt) : Prop := ok = true -> settled target p' = true.

Lemma path_resolve live head r : h_consent (rt_holds r) = consented ->
  wp (PHead live head (-1)) (resolve live head target) ends_well r.
Proof.
  intros Hk. unfold resolve. apply wp_bind. eapply wp_mono; [|apply path_choice]. intros ch p' r' (pick & -> & Hch & Hh & Hu).
  apply wp_bind, wp_do; [done|]. destruct (Z.eqb_spec ch 1) as [E1|E1].
  { unfold pull. apply wp_bind, wp_do, wp_bind, wp_do; [done..|]. eapply wp_mono; [|apply path_fetch; destruct (pick <? 0); lia].
    intros ok p' r'' H Hok. by rewrite (H Hok). }
  destruct (Z.eqb_spec ch 2) as [E2|E2].
  { unfold open_read_only. apply wp_bind, wp_do, wp_bind, wp_do, wp_ret; [done..|]. intros _. cbn [settled].
    replace pick with 2 by (destruct (pick <? 0); lia). done. }
  assert (writes pick = true) as Hw.
  { unfold writes. rewrite (proj2 (Z.eqb_neq pick 1)), (proj2 (Z.eqb_neq pick 2)) by (intros ->; by cbn in Hch). done. }
  apply wp_bind, wp_when; intros E4.
  - apply wp_do; [done|]. eapply wp_mono; [|apply path_write; [exact Hch|exact Hw|]]; [intros ok p' r'' H Hok; by rewrite (H Hok)|].
    apply Z.eqb_eq in E4. assert (pick = 4) as -> by (destruct (pick <? 0); lia). cbn. by rewrite orb_true_r.
  - eapply wp_mono; [|apply path_write; [exact Hch|exact Hw|]]; [intros ok p' r'' H Hok; by rewrite (H Hok)|].
    apply Z.eqb_neq in E4. cbn. rewrite Hh, Hk, (proj2 (Z.eqb_neq pick 4)), orb_false_r; [done|]. intros ->. by cbn in Hch.
Qed.

Lemma path_head live r Q : (forall head r', rt_holds r' = rt_holds r -> Q (Some head) (PHead live head (-1)) r') -> (forall r', Q None PFailed r') ->
  wp (if r_dirty live then PLive live else PHead live (r_hash live) (-1)) (device_head live) Q r.
Proof.
  intros H1 H2. unfold device_head. destruct (r_dirty live) eqn:Hd; [|by apply wp_ret, H1]. unfold snapshotLocked. apply wp_bind, wp_call. intros o c.
  cbn [step]. destruct o as [[head|rc]|]; eexists; (split; [reflexivity|]); [by apply wp_ret, H1|by apply wp_ret, H2|done].
Qed.

(** What follows the first call of a push. *)
Definition push_found (live : option harp_ref) : SM lrt bool :=
  match live with
  | None => mret false
  | Some live =>
      if negb (r_unborn live) && negb (r_dirty live) && harp_hash_eq (r_hash live) target then
        do (recordLog HARP_LOG_INFO (str "reconcile") (str "hash match, clean -> SYNCED silently"));; mret true
      else
        head ← device_head live;
        match head with Some head => resolve live head target | None => mret false end
  end.
Definition found_phase (live : option harp_ref) : phase :=
  match live with Some live => if r_dirty live then PLive live else PHead live (r_hash live) (-1) | None => PFailed end.

Lemma path_found live r : h_consent (rt_holds r) = consented -> wp (found_phase live) (push_found live) ends_well r.
Proof.
  intros Hk. destruct live as [live|]; [|by apply wp_ret]. cbn [push_found found_phase].
  destruct (negb (r_unborn live) && negb (r_dirty live) && harp_hash_eq (r_hash live) target) eqn:Hc.
  - apply wp_bind, wp_do, wp_ret; [done|]. intros _. apply andb_prop in Hc as [[Hu Hd]%andb_prop He].
    apply negb_true_iff in Hd as Hd'. rewrite Hd'. cbn [settled]. by rewrite Hu, Hd', He, orb_true_r.
  - apply wp_bind, path_head; [|intros r'; by apply wp_ret]. intros head r' Hh. apply path_resolve. by rewrite Hh.
Qed.

Lemma path_push r : h_consent (rt_holds r) = consented -> wp PStart (pushStateLocked target) ends_well r.
Proof.
  intros Hk. unfold pushStateLocked. apply wp_get. case_match; [apply wp_bind, wp_do, wp_ret; done|].
  apply wp_bind. unfold refsLocked. apply wp_bind, wp_call. intros o c. cbn [step].
  destruct o as [[live|rc]|]; eexists; (split; [reflexivity|]); [|by apply wp_ret, wp_ret|done]. apply wp_ret. cbn [ok_of].
  by apply (path_found (Some live)).
Qed.

(** A push asks something of the device. *)
Lemma push_calls r : h_consent (rt_holds r) = consented -> re_push_fail = false -> log_of (pushStateLocked target r).2 <> log_of r.
Proof.
  intros Hk Hf. unfold pushStateLocked, mbind at 1, SM_bind at 1, sm_get. rewrite Hf. cbn [andb].
  unfold refsLocked, on_ctl, ctl_find_ref, logged, logging, mbind, SM_bind. destruct (ctl_find_ref LIVE_REF (rt_ctl r).1) as [o c].
  set (live := match o with Some x => ok_of x | None => None end). set (r1 := set_ctl (c, _) r).
  assert (log_of r1 = log_of r ++ [CFind (answer_of o)]) as L1 by done.
  assert (forall l, log_of r1 ++ l <> log_of r) as Hne.
  { intros l El%(f_equal length). rewrite L1, !length_app in El. cbn in El. lia. }
  destruct o as [x|]; [|intros Eq; apply (Hne []); by rewrite app_nil_r]. cbn [mret SM_ret].
  assert (h_consent (rt_holds r1) = consented) as Hk1 by done. pose proof (path_found live r1 Hk1) as Hp. unfold wp in Hp.
  change (log_of (push_found live r1).2 <> log_of r). destruct (push_found live r1) as [o r2].
  destruct Hp as (l & p & L2 & _). cbn [snd]. rewrite L2. apply Hne.
Qed.

(** ** Opening a project *)

(** The holds once they have been computed. *)
Lemma recompute_run r : exists r', recomputeReadOnlyHolds r = (Some tt, r') /\ log_of r' = log_of r /\ same_project r r' /\
  let h := rt_holds r in let consent := h_consent h || env_consent in
  rt_holds r' = mk_holds (unit_differs r || ((engine_differs r || h_refused h) && negb consent)) consent (h_refused h) (h_explicit h).
Proof.
  unfold recomputeReadOnlyHolds, when, mbind, SM_bind, sm_get. cbv beta iota zeta. generalize (h_default (rt_holds r)). intros was.
  destruct (engine_differs r && negb was), (unit_differs r && negb was), env_consent; eexists; (split; [reflexivity|]);
    rewrite ?orb_true_r, ?orb_false_r; done.
Qed.

(** What the two mismatches mean: the serials agree, or one of them is not known;
    the major version of the engine is the one wanted, if one is. *)
Definition unit_agrees (want have : list Z) : Prop := want = [] \/ have = [] \/ have = want.
Definition wanted_major (major : Z) : Z := match re_force_major with Some ((_ :: _) as s) => atoi s | _ => major end.
Definition engine_agrees (major : Z) (version : list Z) : Prop :=
  wanted_major major <= 0 \/ atoi (cstr version) = wanted_major major.
Definition same_unit {D} (r : rt D) : Prop := unit_agrees (pj_serial (rt_pj r)) (di_serial (rt_dev r)).
Definition same_engine {D} (r : rt D) : Prop := engine_agrees (pj_major (rt_pj r)) (di_engine_ver (rt_dev r)).
Lemma unit_differs_spec {D} (r : rt D) : if unit_differs r then ~ same_unit r else same_unit r.
Proof.
  unfold unit_differs, same_unit, unit_agrees. destruct (rt_dev r); cbn.
  repeat case_bool_decide; cbn [negb andb]; tauto.
Qed.
Lemma engine_differs_spec {D} (r : rt D) : if engine_differs r then ~ same_engine r else same_engine r.
Proof.
  unfold engine_differs, same_engine, engine_agrees. change (expected_major r) with (wanted_major (pj_major (rt_pj r))). unfold device_major.
  destruct (Z.ltb_spec 0 (wanted_major (pj_major (rt_pj r)))); cbn [andb]; [|lia].
  destruct (Z.eqb_spec (atoi (cstr (di_engine_ver (rt_dev r)))) (wanted_major (pj_major (rt_pj r)))); cbn [negb]; lia.
Qed.

(** Nothing is asked of a device the project is held from; otherwise the project is
    pushed. *)
Lemma apply_run r o r' : h_consent (rt_holds r) = false -> h_refused (rt_holds r) = false -> h_explicit (rt_holds r) = false ->
  log_of r = [] -> apply_staged target r = (o, r') -> consented = env_consent ->
  same_project r r' /\ (exists p, path_of PStart (log_of r') = Some p) /\
  (log_of r' <> [] -> same_unit r /\ (same_engine r \/ env_consent = true)) /\
  (re_push_fail = false -> log_of r' = [] -> ~ same_unit r \/ ~ same_engine r /\ env_consent = false).
Proof.
  intros H1 H2 H3 Hl Hrun Hc. unfold apply_staged in Hrun. destruct (recompute_run r) as (r1 & E1 & L1 & (P1 & D1) & Hh).
  cbv zeta in Hh. rewrite H1, H2, H3 in Hh. cbn [orb] in Hh. rewrite orb_false_r in Hh. unfold mbind, SM_bind, sm_get in Hrun. rewrite E1 in Hrun. rewrite Hl in L1.
  destruct (held (rt_holds r1)) eqn:Hheld.
  { injection Hrun as <- <-. change (log_of (recordLog _ _ _ r1)) with (log_of r1). rewrite L1. split; [done|]. split; [by exists PStart|].
    split; [done|]. intros _ _. unfold held in Hheld. rewrite Hh in Hheld. cbn [h_default h_explicit] in Hheld. rewrite orb_false_r in Hheld.
    pose proof (unit_differs_spec r) as Hus. pose proof (engine_differs_spec r) as Hes.
    apply orb_true_iff in Hheld as [Hu|Hd]; [left; by rewrite Hu in Hus|right]. apply andb_prop in Hd as [Hd ->%negb_true_iff].
    by rewrite Hd in Hes. }
  assert (h_consent (rt_holds r1) = consented) as Hk1 by (rewrite Hh; by symmetry).
  pose proof (path_push r1 Hk1) as Hp. pose proof (push_calls r1 Hk1) as Hcalls.
  assert (same_unit r /\ (same_engine r \/ env_consent = true)) as Hok.
  { unfold held in Hheld. rewrite Hh in Hheld. apply orb_false_elim in Hheld as [Hheld _]. cbn [h_default] in Hheld.
    apply orb_false_elim in Hheld as [Hu Hd]. pose proof (unit_differs_spec r) as Hus. pose proof (engine_differs_spec r) as Hes.
    rewrite Hu in Hus. split; [done|]. destruct env_consent; [by right|]. left. by destruct (engine_differs r). }
  unfold wp in Hp. destruct (pushStateLocked target r1) as [[ok|] r2]; destruct Hp as (l & p & L2 & (P2 & D2) & S2 & _); cbn [snd] in Hcalls.
  2: { injection Hrun as <- <-. split; [split; congruence|]. split; [by exists p; rewrite L2, L1|]. split; [done|].
       intros Hf E2. by destruct (Hcalls Hf); rewrite E2, L1. }
  assert (same_project r r' /\ log_of r' = log_of r2) as [Hs E'].
  { unfold same_project. destruct ok; [by injection Hrun as <- <-; rewrite P2, D2|].
    destruct (held (rt_holds r2) || h_refused (rt_holds r2)); injection Hrun as <- <-; cbn; by rewrite P2, D2. }
  rewrite E'. split; [done|]. split; [by exists p; rewrite L2, L1|]. split; [done|].
  intros Hf E2. by destruct (Hcalls Hf); rewrite E2, L1.
Qed.
End paths.

Section properties.
Context {C : Type} {K : Ctl C} {E : RecallEnv} {R : Realloc} {O' : OS} {F : Faults}.
#[local] Existing Instance logged.

(** C4: whatever the device answers, the calls of a push are a path of the
    automaton (and keeping the log changes nothing): the ref is found, unsaved edits
    are snapshot, a conflict is offered to the user, and only then is anything
    written.  The live ref is written at most once, last, from the head that was
    seen, never by force, with the consent flag only when the user gave it; the
    target's objects had been sent, and a head it displaces had been given a name
    under archive/ or duplicate/.  After Pull or Read-only nothing is written.  A
    push that reports success has moved the ref, or adopted the device's state, or
    had nothing to write. *)
Theorem push_protected (target : harp_hash) (r : rt C) :
  let '(o, r') := pushStateLocked target (log_from r) in
  let calls := log_of r' in
  pushStateLocked target r = (o, erase r') /\
  (exists p, steps target (h_consent (rt_holds r)) PStart calls = Some p /\ (o = Some true -> settled target p = true)) /\
  (forall l1 l2 expect h create force consent ok,
     calls = l1 ++ CRefset LIVE_REF expect h create force consent ok :: l2 ->
     l2 = [] /\ h = target /\ force = false /\ CPush target true ∈ l1 /\
     exists live head, knows l1 live head /\ expect = (if r_unborn live then None else Some head) /\ create = r_unborn live /\
       (displaces target live head = true -> kept_as l1 head)).
Proof.
  pose proof (sim_push target (log_from r)) as Hs. pose proof (path_push target (h_consent (rt_holds r)) (log_from r) eq_refl) as Hp.
  unfold wp in Hp. destruct (pushStateLocked target (log_from r)) as [o r'] eqn:Er. cbn [fst snd] in Hs. cbv zeta.
  destruct Hp as (l & p & Hl & _ & Hp & Ho). cbn [log_from with_ctl log_of rt_ctl snd app] in Hl. split; [|split].
  - rewrite <- Hs. by destruct r.
  - exists p. rewrite Hl. split; [done|]. intros ->. by apply Ho.
  - intros l1 l2 expect h create force consent ok Hc. rewrite Hl in Hc. rewrite Hc in Hp. by eapply live_write_last.
Qed.

(** How the bundle reads, against the store and the unit wanted so far. *)
Definition reading (s : path) (data : list Z) (r : rt C) : option unit * (cdec * (found * expects)) :=
  map_while (bundle_key s) (harp_cdec_init data, (found_none (ctl_world (rt_ctl r)), expects_none (pj_usb (rt_pj r)))).

(** C5: a project opened on a device it is not held from is pushed, and one that is
    held asks nothing of the device.  A bundle that is accepted reads, and what is
    staged is what it says: target, parameter map, unit and engine.  A call is made
    only when the device's serial is the one the bundle names (or one of the two is
    unknown) and its engine has the major version the bundle expects (or the
    environment consents, or none is expected); the calls are a push of the
    bundle's snapshot; and when the device is there and nothing differs, calls are
    made.  A bundle that is refused asks nothing of the device and leaves the
    staged project and the holds as they were, except that the wanted USB unit,
    and the objects of the local store, may have been taken from it. *)
Theorem opening_respects_holds (store : option path) (data : list Z) (r : rt C) :
  let '(o, r') := setStateBundle store data (log_from r) in
  rt_dev r' = rt_dev r /\
  match o with
  | Some false =>
      log_of r' = [] /\ rt_holds r' = rt_holds r /\
      exists u w, let p := rt_pj r in
        rt_pj r' = mk_project (pj_has p) (pj_target p) (pj_pmh p) (pj_params p) u (pj_serial p) (pj_major p) /\
        (rt_ctl r' = (rt_ctl r, []) \/ rt_ctl r' = (ctl_set_world w (rt_ctl r), []))
  | _ => exists s d f x params target,
      store = Some s /\ reading s data r = (Some tt, (d, (f, x))) /\ fd_magic f = true /\ fd_target f = Some target /\
      rt_pj r' = mk_project true target (ex_pmh x) params (ex_usb x) (ex_serial x) (ex_major x) /\
      (exists p, steps target env_consent PStart (log_of r') = Some p) /\
      (log_of r' <> [] -> unit_agrees (ex_serial x) (di_serial (rt_dev r)) /\
         (engine_agrees (ex_major x) (di_engine_ver (rt_dev r)) \/ env_consent = true)) /\
      (log_of r' = [] -> re_connected (rt_tick r) = true -> re_push_fail = false ->
         ~ unit_agrees (ex_serial x) (di_serial (rt_dev r)) \/
         ~ engine_agrees (ex_major x) (di_engine_ver (rt_dev r)) /\ env_consent = false)
  end.
Proof.
  assert (forall p : project, p = mk_project (pj_has p) (pj_target p) (pj_pmh p) (pj_params p) (pj_usb p) (pj_serial p) (pj_major p)) as Heta by (by intros []).
  assert (exists (u : want_usb) (w : world), let p := rt_pj r in
    rt_pj (log_from r) = mk_project (pj_has p) (pj_target p) (pj_pmh p) (pj_params p) u (pj_serial p) (pj_major p) /\
    (rt_ctl (log_from r) = (rt_ctl r, []) \/ rt_ctl (log_from r) = (ctl_set_world w (rt_ctl r), []))) as Hsame.
  { exists (pj_usb (rt_pj r)), (ctl_world (rt_ctl r)). split; [apply Heta|by left]. }
  unfold setStateBundle. destruct store as [s|]; [|split; [done|split; [done|split; [done|exact Hsame]]]].
  case_bool_decide; [split; [done|split; [done|split; [done|exact Hsame]]]|].
  unfold read_bundle, mbind, SM_bind. change (ctl_world (rt_ctl (log_from r))) with (ctl_world (rt_ctl r)).
  change (rt_pj (log_from r)) with (rt_pj r). fold (reading s data r).
  destruct (reading s data r) as [[[]|] [d [f x]]] eqn:Er; [|split; [done|split; [done|split; [done|by eexists _, _; split; [|right]]]]].
  destruct (fd_magic f) eqn:Em; [|split; [done|split; [done|split; [done|by eexists _, _; split; [|right]]]]].
  destruct (fd_target f) as [target|] eqn:Et; [|split; [done|split; [done|split; [done|by eexists _, _; split; [|right]]]]].
  unfold stage_project, on_store, connected, ask_env, when, mbind, SM_bind, do, sm_modify.
  destruct (paramsFromStore s target [] _) as [params w]. cbv beta iota zeta.
  set (r1 := tick _). destruct (re_connected _) eqn:Ec.
  - destruct (apply_staged target r1) as [o r'] eqn:Ea.
    destruct (apply_run target env_consent r1 o r' eq_refl eq_refl eq_refl eq_refl Ea eq_refl) as ((P & D) & Hp & Hc & Hn).
    destruct o as [[]|]; cbv beta iota zeta delta [mret SM_ret]; (split; [by rewrite D|]); exists s, d, f, x, params, target;
      (split; [done|]; split; [exact Er|]; split; [done|]; split; [done|]; split; [by rewrite P|]; split; [exact Hp|]; split; [exact Hc|];
       intros E1 _ E2; by apply Hn).
  - split; [done|]. exists s, d, f, x, params, target. split_and!; try done. by exists PStart.
Qed.
End properties.

(** ** A device that answers *)

(** Its live ref, the names it holds, the picks of its user, its last error. *)
Record peer := mk_peer { pr_live : harp_ref; pr_names : list (list Z); pr_picks : list (option bool * option Z); pr_code : list Z; pr_world : world }.

Definition peer_refset (name : list Z) (t : harp_hash) (p : peer) : option (res Z) * peer :=
  if streq name LIVE_REF then (Some (ROk 1), mk_peer (mk_ref LIVE_REF false t 1 false) (pr_names p) (pr_picks p) (pr_code p) (pr_world p))
  else if existsb (streq name) (pr_names p) then (Some (RErr HARP_CLIENT_EDEV), mk_peer (pr_live p) (pr_names p) (pr_picks p) (str "conflict") (pr_world p))
  else (Some (ROk 1), mk_peer (pr_live p) (name :: pr_names p) (pr_picks p) (pr_code p) (pr_world p)).

Definition peer_ctl : Ctl peer := {|
  ctl_find_ref := fun _ p => (Some (ROk (pr_live p)), p);
  ctl_snapshot := fun _ _ p => (Some (ROk (harp_hash_compute (str "edited"))), p);
  ctl_refset := fun name _ t _ _ _ => peer_refset name t;
  ctl_fetch := fun _ => mret (ROk 0%nat);
  ctl_push := fun _ => mret (ROk (0%nat, 0%nat));
  ctl_offer := fun _ _ _ => mret (ROk tt);
  ctl_poll := fun p => match pr_picks p with
    | x :: l => (Some (ROk x), mk_peer (pr_live p) (pr_names p) l (pr_code p) (pr_world p))
    | [] => (Some (ROk (Some true, None)), p) end;
  ctl_code := pr_code; ctl_world := pr_world;
  ctl_set_world := fun w p => mk_peer (pr_live p) (pr_names p) (pr_picks p) (pr_code p) w |}.

Section demo.
#[local] Existing Instances peer_ctl alloc_all os_good no_faults.
#[local] Instance here : RecallEnv := recall_env true.

Definition demo_head : harp_hash := harp_hash_compute (str "edited").
Definition demo_target : harp_hash := harp_hash_compute (str "project").
(** Unsaved edits; a state of the same second is archived already; the user thinks
    for a moment, then picks Push. *)
Definition demo_peer : peer :=
  mk_peer (mk_ref LIVE_REF false (harp_hash_compute (str "old")) 4 true) [str "archive/2026-01-02T03:04:05Z"] [(Some true, None); (Some false, Some 0)] []
    (world_of fs_empty).
Definition demo_calls : list call_made :=
  [CFind (Some (pr_live demo_peer)); CSnap (Some demo_head); COffer true; CPoll (Some (Some true, None)); CPoll (Some (Some false, Some 0));
   CRefset (str "archive/2026-01-02T03:04:05Z") None demo_head true false false false;
   CRefset (str "archive/2026-01-02T03:04:05Z.001") None demo_head true false false true; CPush demo_target true].

Lemma push_protected_witness : exists r',
  pushStateLocked (K := logged) demo_target (log_from (demo_rt demo_peer)) = (Some true, r') /\
  log_of r' = demo_calls ++ [CRefset LIVE_REF (Some demo_head) demo_target false false false true] /\
  exists live head, knows demo_calls live head /\ (displaces demo_target live head = true -> kept_as demo_calls head).
Proof.
  pose proof (push_protected demo_target (demo_rt demo_peer)) as H.
  assert ((pushStateLocked (K := logged) demo_target (log_from (demo_rt demo_peer))).1 = Some true /\
    log_of (pushStateLocked (K := logged) demo_target (log_from (demo_rt demo_peer))).2 =
      demo_calls ++ [CRefset LIVE_REF (Some demo_head) demo_target false false false true]) as [H1 H2] by (vm_compute; split; reflexivity).
  destruct (pushStateLocked demo_target (log_from (demo_rt demo_peer))) as [o r']. cbn [fst snd] in H1, H2. subst o. destruct H as (_ & _ & H).
  exists r'. split; [reflexivity|]. split; [exact H2|].
  destruct (H _ _ _ _ _ _ _ _ H2) as (_ & _ & _ & _ & live & head & Hk & _ & _ & Hd). exists live, head. exact (conj Hk Hd).
Defined.

(** A project of engine 2 on a device with engine 3. *)
Definition demo_bundle : list Z := cb_buf (encode_bundle demo_did demo_usb demo_ref s_dir [] harp_cbuf_init (world_of fs_empty)).1.
Definition demo_newer : rt peer :=
  mk_rt demo_peer 0 (mk_did 0x1209 (str "HARP Reference Project") 1 (str "harp-refdev") (str "REF-0001") (str "refdev-synth") (str "3.0.0") (repeat 7 HARP_HASH_LEN))
    demo_usb project_none (mk_holds false false false false) 0 false [] [].

(** Its major version is not the one wanted: accepted, staged, nothing asked. *)
Lemma opening_respects_holds_witness : exists r',
  setStateBundle (K := logged) (Some s_dir) demo_bundle (log_from demo_newer) = (Some true, r') /\
  pj_serial (rt_pj r') = str "REF-0001" /\ pj_major (rt_pj r') = 2 /\ log_of r' = [].
Proof.
  pose proof (opening_respects_holds (Some s_dir) demo_bundle demo_newer) as H.
  assert ((setStateBundle (K := logged) (Some s_dir) demo_bundle (log_from demo_newer)).1 = Some true /\
    pj_serial (rt_pj (setStateBundle (K := logged) (Some s_dir) demo_bundle (log_from demo_newer)).2) = str "REF-0001" /\
    pj_major (rt_pj (setStateBundle (K := logged) (Some s_dir) demo_bundle (log_from demo_newer)).2) = 2)
    as (H1 & H2 & H3) by (vm_compute; repeat split; reflexivity).
  destruct (setStateBundle (Some s_dir) demo_bundle (log_from demo_newer)) as [o r']. cbn [fst snd] in H1, H2, H3. subst o.
  exists r'. split; [reflexivity|]. split; [exact H2|]. split; [exact H3|].
  destruct H as (_ & s & d & f & x & params & target & _ & _ & _ & _ & Hp & _ & Hc & _).
  assert (Hm : ex_major x = 2) by (rewrite Hp in H3; exact H3).
  destruct (log_of r') as [|c l]; [reflexivity|]. destruct (Hc ltac:(discriminate)) as [_ [Hs|Hs]]; [|discriminate Hs].
  rewrite Hm in Hs. exfalso. revert Hs. vm_compute. intros [Hs|Hs]; [exact (Hs eq_refl)|discriminate Hs].
Defined.
End demo.
