(* ===== verification/SaveSpec.v ===== *)
(** * Saving a project: theorems

    The bundle a save returns holds the whole closure of the head it captured. *)
From Stdlib Require Import ZArith Lia String List Bool.
From stdpp Require Import base list gmap.
From S2P Require Import Prelude Cbuf CborEnc CborDec CborFloat CborFields CborItems KeyedMaps Object ObjectWalk Link Fs Store GcMark Params Parts Device DeviceSpec State StateSpec Reply Client FetchSpec Bundle Recall BundleSpec RecallSpec.
Open Scope Z_scope.
Open Scope list_scope.

Definition hash_of (o : obj) : harp_hash := harp_hash_compute (enc_obj o).

(** ** Walking the closure *)

(** The shell's list and the client's are the same list. *)
Lemma collect_same h l : collect_cb h l = list_collect h l.
Proof.
  unfold collect_cb, list_collect, hl_add, hl_contains, list_contains, HASH_LIST_CAP, HARP_CLIENT_MAX_CLOSURE. f_equal.
  rewrite Nat.ltb_antisym. by destruct (existsb _ l), (512 <=? length l)%nat.
Qed.

Lemma object_child_list o : obj_ok o = true -> (child_hashes false (enc_obj o)).2 = obj_children false o.
Proof.
  intros Ho. unfold child_hashes. destruct o as [m p|m hs|es|r ps t a e m]; cbn [obj_children].
  - unfold harp_obj_foreach_child. by rewrite (kind_run _ Ho).
  - rewrite children_list by done. apply run_collect.
  - rewrite children_tree by done. apply run_collect.
  - rewrite children_snapshot by done. apply run_collect.
Qed.

Lemma object_children o l : obj_ok o = true ->
  (harp_obj_foreach_child (enc_obj o) false collect_cb l).2 = run_all list_collect (obj_children false o) l.
Proof.
  intros Ho. rewrite foreach_children, object_child_list by done. cbn [snd].
  assert (forall hs l, run_all collect_cb hs l = run_all list_collect hs l) as Hall.
  { unfold run_all. induction hs as [|h hs IH]; intros l'; [done|]. cbn [fold_left]. by rewrite collect_same. }
  assert (forall hs l, run_until collect_cb hs l = run_all collect_cb hs l) as Hun.
  { induction hs as [|h hs IH]; intros l'; [done|]. cbn. apply IH. }
  rewrite Hun, Hall. by case_match.
Qed.

(** A set of objects that refers to nothing outside it, in the store. *)
Record whole (s : path) (f : fs) (K : list obj) : Prop := mk_whole {
  wh_ok : forall o, o ∈ K -> obj_ok o = true; wh_stored : forall o, o ∈ K -> stored s f (enc_obj o);
  wh_closed : forall o h, o ∈ K -> h ∈ obj_children false o -> h ∈ map hash_of K }.

Section walk.
Context {R : Realloc} {O' : OS} {F : Faults} (s : path) (Hrd : reads_ok) (K : list obj) (HK : (length K < HASH_LIST_CAP)%nat).

Lemma hashes_are : Forall is_hash (map hash_of K).
Proof. apply List.Forall_map, List.Forall_forall. intros o _. apply is_hash_compute. Qed.

Lemma saved_closure_run w0 : whole s (w_fs w0) K -> forall turns clo cur w, w_fs w = w_fs w0 -> within (map hash_of K) clo -> (length K <= turns + cur)%nat ->
  (forall o, o ∈ K -> hash_of o ∈ take cur clo -> obj_children false o ⊆ clo) ->
  exists l w', bundle_closure s turns clo cur w = (l, w') /\ w_fs w' = w_fs w0 /\ within (map hash_of K) l /\ clo ⊆ l /\
    forall o, o ∈ K -> hash_of o ∈ l -> obj_children false o ⊆ l.
Proof.
  intros Hwh. assert (length (map hash_of K) < HARP_CLIENT_MAX_CLOSURE)%nat as HK' by (rewrite length_map; exact HK).
  induction turns as [|turns IH]; intros clo cur w Hw Hin Hlen Hdone; cbn [bundle_closure].
  - exists clo, w. split_and!; try done. pose proof (within_short _ _ Hin) as Hl. rewrite length_map in Hl. intros o Ho Hh. apply Hdone; [done|]. by rewrite take_ge by lia.
  - destruct (clo !! cur) as [h|] eqn:Ec.
    2: { exists clo, w. split_and!; try done. apply lookup_ge_None in Ec. intros o Ho Hh. apply Hdone; [done|]. by rewrite take_ge by lia. }
    assert (h ∈ map hash_of K) as (o & -> & Ho)%list_elem_of_fmap. { apply Hin. by eapply list_elem_of_lookup_2. }
    destruct (get_stored s (hash_of o) (enc_obj o) w Hrd) as (b & w1 & -> & -> & Hw1). { rewrite Hw. by apply (wh_stored _ _ _ Hwh). }
    rewrite object_children by (by apply (wh_ok _ _ _ Hwh)).
    destruct (collect_within (map hash_of K) (obj_children false o) HK') with (l := clo) as (W & W1 & W2 & k & W3); [| |done|].
    + rewrite Forall_forall. intros h Hh. pose proof hashes_are as Ha. rewrite Forall_forall in Ha. by apply Ha, (wh_closed _ _ _ Hwh o).
    + intros h Hh. by apply (wh_closed _ _ _ Hwh o).
    + destruct (IH (run_all list_collect (obj_children false o) clo) (S cur) w1) as (l & w' & E & Hw' & Hl & Hs & Hc); [congruence|done|lia| |].
      * intros o' Ho' Hh'. rewrite W3, take_app_le in Hh' by (apply lookup_lt_Some in Ec; lia).
        rewrite (take_S_r _ _ _ Ec) in Hh'. apply elem_of_app in Hh' as [Hh'|Hh'%list_elem_of_singleton].
        -- etransitivity; [by apply Hdone|done].
        -- pose proof (wh_stored _ _ _ Hwh o Ho) as S1. pose proof (wh_stored _ _ _ Hwh o' Ho') as S2. unfold stored, hash_of in *. rewrite Hh', S1 in S2.
           injection S2 as S2. rewrite <- object_child_list, <- S2, object_child_list by (by apply (wh_ok _ _ _ Hwh)). done.
      * exists l, w'. split; [done|]. split; [done|]. split; [done|]. split; [by etransitivity|done].
Qed.

(** ** Saving *)

Lemma hashes_of_objects l : l ⊆ map hash_of K -> exists objs, l = map hash_of objs /\ objs ⊆ K.
Proof.
  induction l as [|h l IH]; intros Hl; [exists []; split; [done|]; intros x Hx; by apply elem_of_nil in Hx|].
  destruct (IH ltac:(intros x Hx; apply Hl; by right)) as (objs & -> & Ho). assert (h ∈ map hash_of K) as (o & -> & Hk)%list_elem_of_fmap by (apply Hl; left).
  exists (o :: objs). split; [done|]. intros x [->|Hx]%elem_of_cons; [done|by apply Ho].
Qed.
End walk.

Section save.
Context {C : Type} {Kc : Ctl C} {E : RecallEnv} {R : Realloc} {O' : OS} {F : Faults}.

(** The identities stay. *)
Definition keeps_id {A} (m : SM (rt C) A) : Prop := forall r, rt_dev (m r).2 = rt_dev r /\ rt_usb (m r).2 = rt_usb r.
Lemma keeps_id_bind {A B} (m : SM (rt C) A) (k : A -> SM (rt C) B) : keeps_id m -> (forall a, keeps_id (k a)) -> keeps_id (m ≫= k).
Proof.
  intros Hm Hk r. unfold mbind, SM_bind. destruct (m r) as [[a|] r1] eqn:Em; pose proof (Hm r) as [H1 H2]; rewrite Em in *; cbn [snd] in *; [|done].
  destruct (Hk a r1) as [H3 H4]. split; congruence.
Qed.
Lemma keeps_id_ret {A} (a : A) : keeps_id (mret a).
Proof. done. Qed.
Lemma keeps_id_ctl {A} (m : SM C A) : keeps_id (on_ctl m).
Proof. intros r. unfold on_ctl. by destruct (m (rt_ctl r)). Qed.

Lemma keeps_id_wait n : keeps_id (wait_connected n).
Proof.
  unfold wait_connected. induction n as [|n IH]; [apply keeps_id_ret|]. cbn [Nat.iter]. apply keeps_id_bind; [done|]. intros []; [apply keeps_id_ret|exact IH].
Qed.
Lemma keeps_id_attempts n : keeps_id (head_attempts n).
Proof.
  induction n as [|n IH]; [apply keeps_id_ret|]. cbn [head_attempts]. apply keeps_id_bind; [done|]. intros []; [|apply keeps_id_ret]. cbn [negb].
  apply keeps_id_bind; [apply keeps_id_bind; [apply keeps_id_ctl|intros ?; apply keeps_id_ret]|]. intros [live|]; [|exact IH]. case_match; [apply keeps_id_ret|].
  apply keeps_id_bind; [unfold device_head; case_match; [apply keeps_id_bind; [apply keeps_id_ctl|intros ?; apply keeps_id_ret]|apply keeps_id_ret]|].
  intros [head|]; [|exact IH]. apply keeps_id_bind; [apply keeps_id_bind; [apply keeps_id_ctl|intros ?; apply keeps_id_ret]|]. intros []; [apply keeps_id_ret|exact IH].
Qed.

(** Reading leaves the files. *)
Lemma get_files s h b w : w_fs (harp_store_get s h b w).2 = w_fs w.
Proof. unfold harp_store_get, mbind, SM_bind. by rewrite read_file_run. Qed.
Lemma closure_files s turns : forall clo cur w, w_fs (bundle_closure s turns clo cur w).2 = w_fs w.
Proof.
  induction turns as [|turns IH]; intros clo cur w; cbn [bundle_closure]; [done|]. destruct (clo !! cur) as [h|]; [|done].
  pose proof (get_files s h harp_cbuf_init w) as Hg. destruct (harp_store_get s h harp_cbuf_init w) as [[[[] enc]|] w1]; cbn [snd] in Hg; by rewrite IH.
Qed.
Lemma objects_files s l : forall b w, w_fs (encode_objects s l b w).2 = w_fs w.
Proof.
  induction l as [|h l IH]; intros b w; cbn [encode_objects]; [done|].
  pose proof (get_files s h harp_cbuf_init w) as Hg. destruct (harp_store_get s h harp_cbuf_init w) as [[[[] enc]|] w1]; cbn [snd] in Hg; by rewrite IH.
Qed.

Lemma on_store_inv {A} (f : world -> A * world) (r r' : rt C) a : on_store f r = (Some a, r') ->
  exists w, f (ctl_world (rt_ctl r)) = (a, w) /\ r' = set_ctl (ctl_set_world w (rt_ctl r)) r.
Proof. unfold on_store. destruct (f (ctl_world (rt_ctl r))) as [x w]. intros [= -> <-]. by exists w. Qed.

(** The three steps once a head was found. *)
Lemma save_run s r r' data : getStateBundle (Some s) r = (Some (Some data), r') -> (forall w c, ctl_world (ctl_set_world w c) = w) ->
  exists live head w0 clo w1 b w2, bundle_closure s HASH_LIST_CAP (hl_add head []) 0 w0 = (clo, w1) /\
    encode_bundle (rt_dev r) (rt_usb r) (expected_ref live head) s clo harp_cbuf_init w1 = (b, w2) /\
    data = cb_buf b /\ ctl_world (rt_ctl r') = w2 /\ pj_has (rt_pj r') = true /\ pj_target (rt_pj r') = head.
Proof.
  intros Hrun Hlaw. unfold getStateBundle in Hrun.
  apply sm_bind_Some in Hrun as (u & r1 & E1 & Hrun). pose proof (keeps_id_wait 60 r) as [D1 U1]. rewrite E1 in D1, U1. cbn [snd] in D1, U1.
  apply sm_bind_Some in Hrun as (up & r2 & E2 & Hrun). injection E2 as <- <-. destruct (re_connected (rt_tick r1)); [|discriminate Hrun]. cbn [negb] in Hrun.
  apply sm_bind_Some in Hrun as (got & r3 & E3 & Hrun). pose proof (keeps_id_attempts 3 (tick r1)) as [D3 U3]. rewrite E3 in D3, U3. cbn [snd tick rt_dev rt_usb] in D3, U3.
  destruct got as [[live head]|]; [|discriminate Hrun]. exists live, head, (ctl_world (rt_ctl r3)).
  apply sm_bind_Some in Hrun as (clo & r4 & E4 & Hrun). apply on_store_inv in E4 as (w1 & E4 & ->).
  apply sm_bind_Some in Hrun as (r5 & r6 & E5 & Hrun). injection E5 as <- <-.
  apply sm_bind_Some in Hrun as (b & r7 & E6 & Hrun). apply on_store_inv in E6 as (w2 & E6 & ->). cbn [set_ctl rt_ctl rt_dev rt_usb] in E6. rewrite Hlaw, D3, U3, D1, U1 in E6.
  exists clo, w1, b, w2. split; [exact E4|]. split; [exact E6|].
  apply sm_bind_Some in Hrun as (u' & r8 & E7 & Hrun). injection E7 as _ <-. injection Hrun as <- <-. cbn [set_pj set_ctl rt_ctl rt_pj pj_has pj_target]. by rewrite Hlaw.
Qed.

(** C11: a save captures its closure.  If [getStateBundle] returns a bundle, the head
    it captured has become the project's target, and - when what that head reaches
    in the local store is well formed and has fewer than 512 objects, by whatever
    set one shows it - the bundle is exactly the item of the device's identities, the
    live ref at that head and a list of objects without repetition that contains the
    head and, with every object, all it refers to (memory and reads reliable). *)
Theorem save_captures_closure (s : path) (r r' : rt C) (data : list Z) (K : list obj) :
  realloc_total R -> reads_ok -> (forall w c, ctl_world (ctl_set_world w c) = w) ->
  getStateBundle (Some s) r = (Some (Some data), r') ->
  let head := pj_target (rt_pj r') in
  whole s (w_fs (ctl_world (rt_ctl r'))) K -> (length K < HASH_LIST_CAP)%nat -> head ∈ map hash_of K ->
  pj_has (rt_pj r') = true /\
  exists generation objs,
    data = enc_item (kmap (bundle_pairs (rt_dev r) (rt_usb r) (mk_ref LIVE_REF false head generation false) objs)) /\
    objs ⊆ K /\ NoDup (map hash_of objs) /\ head ∈ map hash_of objs /\
    (forall o h, o ∈ objs -> h ∈ obj_children false o -> h ∈ map hash_of objs).
Proof.
  intros Ht Hrd Hlaw Hrun head Hwh HK Hhead. destruct (save_run s r r' data Hrun Hlaw) as (live & head' & w0 & clo & w1 & b & w2 & Ec & Eb & -> & Hw2 & Hhas & Hh).
  pose proof (closure_files s HASH_LIST_CAP (hl_add head' []) 0 w0) as Hf1. rewrite Ec in Hf1. cbn [snd] in Hf1. fold head in Hh. subst head'.
  assert (w_fs w2 = w_fs w1) as Hf2.
  { unfold encode_bundle in Eb. cbv zeta in Eb. match type of Eb with context [encode_objects ?a ?l ?b ?w] => pose proof (objects_files a l b w) as Ho; destruct (encode_objects a l b w) end.
    by injection Eb as _ <-. }
  rewrite Hw2, Hf2, Hf1 in Hwh. split; [exact Hhas|].
  destruct (saved_closure_run s Hrd K HK w0 Hwh HASH_LIST_CAP (hl_add head []) 0 w0) as (l & w' & Ex & Hw' & (N & _ & Hsub) & Hin & Hc).
  - done.
  - change (hl_add head []) with [head]. split; [apply NoDup_singleton|]. split.
    + apply Forall_singleton. pose proof (hashes_are K) as Ha. rewrite Forall_forall in Ha. by apply Ha.
    + intros x ->%list_elem_of_singleton. exact Hhead.
  - lia.
  - intros o Ho Hx. by apply elem_of_nil in Hx.
  - rewrite Ec in Ex. injection Ex as <- <-. destruct (hashes_of_objects K clo Hsub) as (objs & -> & Ho).
    assert (Forall (fun o => stored s (w_fs w1) (enc_obj o)) objs) as Hst.
    { apply List.Forall_forall. intros o Hx%list_elem_of_In. rewrite Hf1. by apply (wh_stored _ _ _ Hwh), Ho. }
    destruct (bundle_run Ht Hrd (rt_dev r) (rt_usb r) (expected_ref live head) s objs w1 Hst) as (b' & w3 & E3 & Hb & _).
    unfold hash_of in Eb. rewrite E3 in Eb. injection Eb as <- <-. exists (r_generation live), objs.
    split; [exact Hb|]. split; [exact Ho|]. split; [exact N|]. split; [apply Hin; by left|].
    intros o h Hx Hh. apply (Hc o); [by apply Ho|by apply list_elem_of_fmap_2|done].
Qed.
End save.

(** ** A save *)

Section demo.
#[local] Existing Instances peer_ctl alloc_all os_good no_faults.
#[local] Instance here : RecallEnv := recall_env true.

(** A device whose live ref is clean, and a host that has its closure. *)
Definition demo_saver : rt peer := demo_rt (mk_peer demo_ref [] [] [] demo_saved).
Abbreviation demo_save := (getStateBundle (Some s_dir) demo_saver).

Definition is_stored (s : path) (f : fs) (o : obj) : bool := bool_decide (obj_data s f (hash_of o) = Some (enc_obj o)).

Lemma is_stored_all s f l : forallb (is_stored s f) l = true -> forall o, o ∈ l -> stored s f (enc_obj o).
Proof. rewrite forallb_forall. intros H o Ho%list_elem_of_In. by apply H, bool_decide_eq_true in Ho. Qed.
Definition is_closed (l : list obj) : bool := forallb (fun o => forallb (fun h => bool_decide (h ∈ map hash_of l)) (obj_children false o)) l.
Lemma is_closed_all l : is_closed l = true -> forall o h, o ∈ l -> h ∈ obj_children false o -> h ∈ map hash_of l.
Proof.
  unfold is_closed. rewrite forallb_forall. intros H o h Ho%list_elem_of_In Hh%list_elem_of_In. specialize (H o Ho). rewrite forallb_forall in H.
  specialize (H h Hh). by apply bool_decide_eq_true in H.
Qed.

Lemma demo_save_whole : whole s_dir (w_fs (ctl_world (rt_ctl demo_save.2))) demo_objs.
Proof.
  split.
  - intros o Ho. pose proof (bf_objs _ _ _ _ demo_fits) as H. rewrite List.Forall_forall in H. by apply H, list_elem_of_In.
  - apply is_stored_all. vm_compute. reflexivity.
  - apply is_closed_all. vm_compute. reflexivity.
Qed.

Lemma demo_head_in : r_hash demo_ref ∈ map hash_of demo_objs.
Proof. exact (list_elem_of_fmap_2 hash_of demo_objs (snapshot_of g_parts_init None None 1700000000) ltac:(right; right; left)). Qed.

Lemma save_captures_closure_witness : exists data r', demo_save = (Some (Some data), r') /\ pj_has (rt_pj r') = true /\
  exists generation objs, data = enc_item (kmap (bundle_pairs demo_did demo_usb (mk_ref LIVE_REF false (r_hash demo_ref) generation false) objs)) /\
    NoDup (map hash_of objs) /\ r_hash demo_ref ∈ map hash_of objs.
Proof.
  pose proof demo_save_whole as Hw.
  assert (match demo_save.1 with Some (Some _) => true | _ => false end = true) as Hs by (vm_compute; reflexivity).
  assert (pj_target (rt_pj demo_save.2) = r_hash demo_ref) as Ht by (vm_compute; reflexivity).
  destruct demo_save as [[[data|]|] r'] eqn:Er; [|discriminate Hs..]. exists data, r'. split; [reflexivity|]. cbn [snd] in Hw, Ht.
  destruct (save_captures_closure s_dir demo_saver r' data demo_objs) as (Hhas & g & objs & Hd & _ & Hn & Hin & _).
  - intros n. reflexivity.
  - split; [intros t; reflexivity|]; split; intros t; reflexivity.
  - reflexivity.
  - exact Er.
  - exact Hw.
  - cbn. unfold HASH_LIST_CAP. lia.
  - exact (eq_ind_r (fun h => h ∈ map hash_of demo_objs) demo_head_in Ht).
  - split; [exact Hhas|]. exists g, objs. rewrite Ht in Hd, Hin. split; [exact Hd|]. split; [exact Hn|exact Hin].
Defined.
End demo.
